(* ===== verification/_CoqProject ===== *)
-Q . S2P
Prelude.v
External.v
Chunker.v
Concrete.v
Key.v
Crc32.v
Record.v
Pack.v
Cborx.v
Objects.v
Readers.v
Builder.v
Trees.v
Amberignore.v
Ingest.v
Mirror.v
Parallel.v
Walk.v
Footer.v
Disk.v
Scan.v
Store.v
StoreInv.v
StoreSpec.v
Frame.v
Provenance.v
Reopen.v
Scrub.v
Marks.v
Compact.v
Sweep.v
Segments.v
Reference.v
Refstore.v
Collector.v
Restart.v
Barrier.v
Marking.v
Runs.v
ParWrite.v
Filepath.v
Tar.v
TarExport.v
Hostfs.v
TarExtract.v
Restore.v
Backup.v
Prescan.v
Inbox.v
IngestDir.v
Cli.v
Survival.v
Durable.v
Float.v
Progress.v
Session.v
Dataset.v
Layout.v
Bench.v
