(* ===== verification/Prelude.v ===== *)
(** * amber-store-core: the development

    amber-store-core (Go) stores file trees as content-addressed objects. A tree is walked
    into objects ([ingest], [fstree]), each named by a key that carries its type, its length
    and a truncated hash of its bytes ([key]); objects are framed as records ([amberpack]) and
    appended to segment files ([packstore]); named references ([reference], [refstore]) point
    at roots; a mark-and-sweep collector ([gc]) rewrites segments to drop what no reference
    reaches. This file is the prelude of the development - machine integers, bytes, errors,
    the state and error monad [M], lists, options, sorting - and this comment is its map.

    ** Conventions

    Go integers are [Z], with [u32], [u64] and [s64] written where the code can wrap; bytes
    are [Byte.byte], strings are byte strings; a fallible call returns [res] (a value or a
    list of error tags, outermost wrapping first); stateful code lives in [M S], a function
    from a state to a result and a state, where a failing call keeps the state it reached.
    Slices that the code mutates in place are threaded as state. Names are the source's; where
    two files use one name the file qualifies it (Store.Put, Refstore.Put). Goroutines appear
    in two ways: where their interleaving cannot be observed (errgroup walks, Missing) the
    results are combined directly and only the choice of the reported error is left open;
    where it can (the copy pipeline, WriteParallel, a cycle among its writers) the program is
    a machine with a step function, an execution is a schedule of its moves, and the theorems
    quantify over schedules. A schedule that does not run to completion is no execution.

    ** Third-party code and the operating system

    External.v declares an interface for each package the program calls - [Blake3], [Zstd],
    [Cbor], [Fuse] (binary fuse filter), [Cdc] (in Chunker.v), [Gitignore], [Errgroup], [Os] -
    and next to it a class of the documented laws a proof may use; Refstore.v has [Pebble]
    with a database [healthy] when none of its calls fails. Concrete.v and the ends of the
    other files hold executable stand-ins, only so that witnesses can be evaluated. Disk.v is
    the store's directory: names, inodes, the length each file's last fsync made durable, and
    a list of faults that decides for every system call whether it succeeds, fails, or (a
    write) tears after n bytes; a crash cuts each file anywhere behind its durable length.

    ** Files

    - Key.v (src/key), Crc32.v and Record.v (src/amberpack/record.go), Pack.v
      (src/amberpack/pack.go), Cborx.v (src/cborx), Chunker.v (src/chunkers).
    - Objects.v (src/fstree encode.go, decode.go, children.go); Readers.v (content.go,
      lookup.go, list.go, collect.go); Builder.v (index_builder.go, dir_builder.go); Trees.v
      joins builders and readers; Walk.v (reachable.go, checkcomplete.go).
    - Amberignore.v (src/amberignore); Ingest.v (src/ingest driver.go, meta.go,
      xattr_common.go); Mirror.v states what an ingest promises and proves it; Parallel.v
      (src/ingest/parallel.go); Prescan.v (src/ingest/scan.go) the concurrent pre-scan as a
      machine of its calls, its semaphore and its totals.
    - Footer.v (src/packstore segment.go, footer.go): a sealed segment's index and filter;
      Scan.v (recover.go): the tail scan; Store.v (packstore.go, prepare.go, barrier.go): the
      store's state and operations. StoreInv.v has the abstract view - a finite function from
      keys to records - and the invariant [inv]; StoreSpec.v what clients may rely on; Frame.v
      and Provenance.v what the write path never touches or makes up; Reopen.v durability
      over crash and reopen, Restart.v the same for the sweep and the collector's cycle; Scrub.v (verify.go, missing.go); ParWrite.v (parallel.go).
    - Marks.v (markset.go), Compact.v and Sweep.v (compact.go), Segments.v (packstore/gc.go).
    - Reference.v (src/reference), Refstore.v (src/refstore).
    - Filepath.v and Hostfs.v stand for the standard library and the kernel: lexical paths,
      and a file system of nodes by path with permissions, symbolic links and failing calls.
      Tar.v is archive/tar's writer. TarExport.v (src/tarexport) and TarExtract.v
      (src/tarextract) are the two directions of a backup; Restore.v what an orderly archive
      turns into, Backup.v ingest, export and extraction together.
    - Inbox.v (src/inbox): received packs and the workers that drain them into the store.
    - IngestDir.v (src/ingest/ingest.go): [Objects], its goroutine and channel, and [Dir];
      Cli.v (src/cmd/amber-store): content specs, listings, reference updates, and the
      commands that join ingest, references, export and restore.
    - Collector.v (src/gc: options, pacing, roots, mark, cycle, PrepareRef, Status, Why);
      Barrier.v the cycle among concurrent writers and reference PUTs; Marking.v the
      collector alone; Runs.v (src/gc/collector.go, Run of cycle.go) the calls to Run, Close
      and Wipe and the background loop, with the cycle slot and cancellation, as a machine
      over Barrier.v's.
    - Survival.v joins Cli.v and Runs.v: a backup, then collections, then a restore; Durable.v
      adds the ends of processes: a backup, then any commands, cycles, exits and crashes.
    - Session.v (src/cmd/amber-store store.go and the commands' entry points): every command as
      a process that opens and closes the stores of a directory, on top of Durable.v.
    - Float.v: the rounding of binary64 as the commands use it; Progress.v
      (src/cmd/amber-store/progress.go): the progress line and its number formats.
    - src/cmd/amber-bench/main.go: Dataset.v the generator of the files, Layout.v where they lie
      and what they hold, Bench.v the phases ingest, delete, gc and verify on top of Session.v.

    ** What the theorems show

    - Contents: a file's bytes, a directory's entries, extended attributes, records, packs
      and references come back as they went in, encodings that must be canonical are, and an
      ingest's root mirrors the source tree; the concurrent walk equals the sequential one.
    - The store: under any failing system calls every write keeps [inv], changes only its own
      key and reports success only when the object is there ([put_correct],
      [write_batch_correct], [write_parallel_correct]); reads answer from the view
      ([reads_refine_view]); what was acknowledged survives a crash
      ([acknowledged_put_survives_crash] and the others of Reopen.v); a corrupted byte in a
      record or a footer is detected, and parsed footers keep every access in bounds.
    - Collection: the mark is exactly reachability and ends, the bitmap is a set, the sweep
      keeps every live and grey object under every schedule and failure, the pipeline ends,
      and, over all interleavings, no published reference dangles ([no_reference_dangles]);
      [cycle_is_a_run] ties the code's own cycle to that machine. The calls to the collector
      each follow their own course and share only the stores, the grey set and the slot; that
      they start, mark and sweep one cycle at a time ([single_flight]), so that what they do
      is a run of that machine ([calls_refine_machine]), is what the slot is for. As long as
      one has not returned something can go on ([collector_never_stuck]).
    - Backups: an export lists exactly the source ([export_lists_source]), an extraction
      never touches anything outside its destination, whatever the archive holds
      ([extract_contained]), and a tree that is ingested, exported and extracted comes back
      with its metadata ([backup_roundtrip]); so does a directory ingested under a name and
      restored through it by the commands, whatever the schedule of the writers
      ([ingested_reference_restores], [dir_stores_tree], [objects_stream_complete]); and any
      execution of the collector in between changes nothing of that
      ([backup_survives_collection]), nor do the ends of processes, cleanly or in a crash,
      between commands that report success ([backups_outlive_processes] for the libraries,
      [commands_keep_backups] for whole commands on a directory; a process may also be stopped
      between the whole operations of its work, while what a crash within one does is the
      matter of Reopen.v and Restart.v). These theorems suppose that the archive format can
      express the headers of what is restored ([expressible]) and that the reader gives back
      what the writer was given of them ([reads_back]). The pre-scan counts what the ingest
      will read ([scan_matches_ingest], [scan_counts_tree]) and ends ([scan_terminates]).
    - The command line: what it prints as a key or a name reads back ([specs_read_back]), a
      reference is replaced only by a complete tree that the barrier has seen
      ([reference_update_safe]), a listing is the directory's entries in order
      ([ls_lists_directory]) and its mode column loses nothing ([mode_string_lossless]);
      byte counts are shown in the right unit, correctly rounded ([human_bytes_scaled]), and
      the progress line never panics or claims too much ([progress_line_sound]).
    - The inbox: under any interleaving of clients, workers and failing calls a queued pack
      is stored or quarantined by the time [WaitFor] returns ([queued_entry_settles]), it can
      always be drained ([inbox_drains]), and a restart resumes it ([recover_resumes]); an
      entry whose commit failed late stays where it is until then ([failed_commit_strands]).
    - The benchmark: the dataset is generated as planned, the shared files copies of distinct
      files of the reference before ([dataset_planned]), and a run whose phases report no
      error ends in a verification that counts none ([bench_finds_no_error]).
    - Progress: [copy_pipeline_terminates], [write_parallel_terminates] and
      [mark_is_reachability] bound the steps or exhibit enough fuel.

    ** Fuel

    Recursions that are not structural take fuel: the index builder's cascade, tree descents,
    the walks and the mark. Running out is the error [OutOfFuel], which no code path returns;
    each theorem states the fuel that is enough (the depth of the tree, the number of keys of
    the store) or that any larger amount gives the same result.

    ** Behaviour worth knowing

    [failed_append_tail_resurrected]: bytes that a failed write leaves behind the log can be
    taken for records after a reopen. [dedup_hit_during_sweep_lost]: the barrier covers
    writes during the mark, not a dedup hit during the sweep. [throttle_owed_exact]: the
    pacing product overflows for rates above 9.2e9 bytes a second.
    [decode_accepts_noncanonical]: the attribute decoder is laxer than its comment.
    [unclean_destination_refused]: a restore into ./out refuses every entry.
    [failed_commit_strands]: a commit whose directory sync fails leaves a file that no retry
    queues. [equals_sign_refused]: an attribute whose name holds an equals sign is ingested,
    but no archive can hold it, so its tree can be neither exported nor restored.
    [eta_wraps]: a remaining time of more than 292 years is shown as any other.

    ** Not modelled

    Locks as such: an operation that runs under the store's locks is one step. Reference
    counts on mappings and the sleep of the copy throttle (its arithmetic is modelled) only
    concern memory and time. The platform shims for attributes, cloning and free space are
    behind [Os] or parameters; the PAX byte format belongs to archive/tar; the flag library
    parses the command line. Logging and the creation of directories change no state the
    theorems speak about; directory entries are durable at once, so a missing sync of a
    directory would not be noticed. Waiting on a condition is a step that is enabled when the
    condition holds, so a lost wakeup cannot be expressed. Permissions refuse a call only by a
    fault. Of the benchmark, the results file, the measurements, the restores of samples and
    the rest of the report. *)
From Stdlib Require Export ZArith Lia.
From Stdlib Require Import Eqdep_dec.
From Stdlib Require Export Init.Byte Strings.Byte.
From stdpp Require Export base gmap sets list strings sorting countable numbers.

Declare Scope amber_scope.
Open Scope Z_scope.

(** * Machine integers and bytes *)

(** Go's [byte] is [Byte.byte]; its arithmetic goes through [Z]. *)
Abbreviation bytes := (list byte).

Definition u8 (b : byte) : Z := Z.of_N (Byte.to_N b).
Definition b8 (z : Z) : byte :=
  match Byte.of_N (Z.to_N (z mod 256)) with Some b => b | None => x00 end.

Definition u32 (z : Z) : Z := z mod 2 ^ 32.
Definition u64 (z : Z) : Z := z mod 2 ^ 64.
Definition zlen {A} (l : list A) : Z := Z.of_nat (length l).

#[export] Instance byte_eq_dec : EqDecision byte := Byte.byte_eq_dec.
#[export] Instance byte_inhabited : Inhabited byte := populate x00.

Lemma u8_range b : 0 <= u8 b < 256.
Proof. unfold u8. pose proof (Byte.to_N_bounded b). lia. Qed.

Lemma u8_inj b1 b2 : u8 b1 = u8 b2 -> b1 = b2.
Proof.
  unfold u8. intros H. apply N2Z.inj in H.
  pose proof (Byte.of_to_N b1) as E1. pose proof (Byte.of_to_N b2) as E2.
  rewrite H in E1. congruence.
Qed.

Lemma u8_b8 z : u8 (b8 z) = z mod 256.
Proof.
  unfold u8, b8. pose proof (Z.mod_pos_bound z 256 eq_refl) as P.
  destruct (Byte.of_N (Z.to_N (z mod 256))) as [b|] eqn:E.
  - apply Byte.to_of_N in E. lia.
  - apply Byte.of_N_None_iff in E. lia.
Qed.

Lemma b8_u8 b : b8 (u8 b) = b.
Proof. apply u8_inj. rewrite u8_b8. pose proof (u8_range b). by rewrite Z.mod_small. Qed.

Lemma b8_mod z : b8 (z mod 256) = b8 z.
Proof. apply u8_inj. by rewrite !u8_b8, Z.mod_mod. Qed.

#[export] Instance byte_countable : Countable byte.
Proof.
  refine (inj_countable Byte.to_N Byte.of_N _). intros b. apply Byte.of_to_N.
Defined.

Lemma zlen_app {A} (l1 l2 : list A) : zlen (l1 ++ l2) = zlen l1 + zlen l2.
Proof. unfold zlen. rewrite length_app. lia. Qed.
Lemma zlen_nil {A} : zlen (@nil A) = 0.
Proof. done. Qed.
Lemma zlen_cons {A} (x : A) l : zlen (x :: l) = zlen l + 1.
Proof. unfold zlen. simpl. lia. Qed.
Lemma zlen_nonneg {A} (l : list A) : 0 <= zlen l.
Proof. unfold zlen. lia. Qed.

(** * [encoding/binary]'s big-endian puts and gets *)

Fixpoint be_put (n : nat) (v : Z) : bytes :=
  match n with
  | O => []
  | S n' => b8 (Z.shiftr v (8 * Z.of_nat n')) :: be_put n' v
  end.

Definition be_get (l : bytes) : Z := fold_left (fun a b => a * 256 + u8 b) l 0.

Lemma length_be_put n v : length (be_put n v) = n.
Proof. induction n; simpl; congruence. Qed.

Lemma be_get_acc l a :
  fold_left (fun a b => a * 256 + u8 b) l a = a * 256 ^ zlen l + be_get l.
Proof.
  unfold be_get. revert a. induction l as [|x l IH]; intros a.
  - simpl. rewrite zlen_nil. lia.
  - cbn [fold_left]. rewrite IH, (IH (0 * 256 + u8 x)), zlen_cons.
    rewrite Z.pow_add_r by (pose proof (zlen_nonneg l); lia). lia.
Qed.

Lemma be_get_cons b l : be_get (b :: l) = u8 b * 256 ^ zlen l + be_get l.
Proof. unfold be_get at 1. cbn [fold_left]. rewrite be_get_acc. lia. Qed.

Lemma be_get_app l1 l2 : be_get (l1 ++ l2) = be_get l1 * 256 ^ zlen l2 + be_get l2.
Proof. unfold be_get at 1. by rewrite fold_left_app, be_get_acc. Qed.

Lemma be_get_range l : 0 <= be_get l < 256 ^ zlen l.
Proof.
  induction l as [|b l IH]; [done|].
  rewrite be_get_cons, zlen_cons, Z.pow_add_r by (pose proof (zlen_nonneg l); lia).
  pose proof (u8_range b). nia.
Qed.

Lemma be_get_put n v : be_get (be_put n v) = v mod 256 ^ Z.of_nat n.
Proof.
  induction n as [|n IH]; [by rewrite Z.mod_1_r|].
  cbn [be_put]. rewrite be_get_cons, IH, u8_b8. unfold zlen. rewrite length_be_put.
  rewrite Z.shiftr_div_pow2 by lia.
  replace (2 ^ (8 * Z.of_nat n)) with (256 ^ Z.of_nat n)
    by (rewrite Z.pow_mul_r by lia; done).
  rewrite Nat2Z.inj_succ, <- Z.add_1_r, (Z.pow_add_r 256 (Z.of_nat n) 1) by lia.
  change (256 ^ 1) with 256. rewrite (Z.rem_mul_r v (256 ^ Z.of_nat n) 256) by lia. lia.
Qed.

Lemma be_put_get l : be_put (length l) (be_get l) = l.
Proof.
  assert (forall k, be_put (length l) (k * 256 ^ zlen l + be_get l) = l) as H.
  { induction l as [|b l IH]; intros k; [done|].
    cbn [be_put length]. rewrite zlen_cons, be_get_cons.
    rewrite Z.pow_add_r by (pose proof (zlen_nonneg l); lia). change (256 ^ 1) with 256.
    f_equal.
    - apply u8_inj. rewrite u8_b8, Z.shiftr_div_pow2 by lia.
      replace (2 ^ (8 * Z.of_nat (length l))) with (256 ^ zlen l)
        by (unfold zlen; rewrite Z.pow_mul_r by lia; done).
      replace (k * (256 ^ zlen l * 256) + (u8 b * 256 ^ zlen l + be_get l))
        with ((k * 256 + u8 b) * 256 ^ zlen l + be_get l) by ring.
      pose proof (be_get_range l) as R.
      rewrite Z.div_add_l, (Z.div_small (be_get l)) by lia.
      rewrite Z.add_0_r, Z.add_comm, Z.mod_add by lia.
      apply Z.mod_small, u8_range.
    - etransitivity; [|apply (IH (k * 256 + u8 b))]. f_equal. ring. }
  specialize (H 0). by rewrite Z.mul_0_l, Z.add_0_l in H.
Qed.

Lemma be_get_inj l1 l2 : length l1 = length l2 -> be_get l1 = be_get l2 -> l1 = l2.
Proof. intros HL H. rewrite <- (be_put_get l1), <- (be_put_get l2), HL, H. done. Qed.

(** A decidable property of a small range of integers, checked by evaluation. *)
Lemma forallb_range (P : Z -> bool) (n : nat) :
  forallb P (map Z.of_nat (seq 0 n)) = true -> forall i, 0 <= i < Z.of_nat n -> P i = true.
Proof.
  intros H i Hi. rewrite forallb_forall in H. apply H.
  apply in_map_iff. exists (Z.to_nat i). split; [lia|]. apply in_seq. lia.
Qed.

(** * Slices: [b[i:j]] and reads of fixed-width fields at an offset *)

Definition slice {A} (i j : nat) (l : list A) : list A := take (j - i) (drop i l).
Definition byte_at (l : bytes) (i : nat) : byte := nth i l x00.

Lemma length_slice {A} i j (l : list A) :
  (i <= j)%nat -> (j <= length l)%nat -> length (slice i j l) = (j - i)%nat.
Proof. intros. unfold slice. rewrite length_take, length_drop. lia. Qed.

Lemma slice_app_mid {A} (a m c : list A) i j :
  length a = i -> (i + length m)%nat = j -> slice i j (a ++ m ++ c) = m.
Proof.
  intros <- <-. unfold slice. rewrite drop_app_length.
  replace (length a + length m - length a)%nat with (length m) by lia.
  apply take_app_length.
Qed.

Lemma slice_app_end {A} (a m : list A) i j :
  length a = i -> (i + length m)%nat = j -> slice i j (a ++ m) = m.
Proof. intros. rewrite <- (app_nil_r m) at 1. by apply slice_app_mid. Qed.

Lemma slice_take {A} i j k (l : list A) :
  (i <= j)%nat -> (j <= k)%nat -> slice i j (take k l) = slice i j l.
Proof.
  intros. unfold slice. rewrite skipn_firstn_comm, take_take. f_equal. lia.
Qed.

Lemma slice_prefix {A} i j (l1 l2 : list A) :
  (i <= j)%nat -> (j <= length l1)%nat -> slice i j (l1 ++ l2) = slice i j l1.
Proof.
  intros. unfold slice. rewrite drop_app_le by lia.
  rewrite take_app_le; [done|]. rewrite length_drop. lia.
Qed.

Lemma byte_at_app_l l1 l2 i : (i < length l1)%nat -> byte_at (l1 ++ l2) i = byte_at l1 i.
Proof. intros. unfold byte_at. by apply app_nth1. Qed.

Lemma take_drop_slice {A} i j (l : list A) :
  (i <= j)%nat -> take i l ++ slice i j l ++ drop j l = l.
Proof.
  intros. unfold slice.
  rewrite <- (take_drop i l) at 4. f_equal.
  rewrite <- (take_drop (j - i) (drop i l)) at 2. f_equal.
  rewrite drop_drop. f_equal. lia.
Qed.

(** * Byte-array values of length 32: Go's [[32]byte] *)

Record b32 := B32 { b32_bytes : bytes; b32_ok : Is_true (length b32_bytes =? 32)%nat }.
Add Printing Constructor b32.

Lemma b32_length k : length (b32_bytes k) = 32%nat.
Proof. destruct k as [l H]. simpl. by apply Is_true_eq_true, Nat.eqb_eq in H. Qed.

Lemma b32_eq k1 k2 : b32_bytes k1 = b32_bytes k2 -> k1 = k2.
Proof.
  destruct k1 as [l1 H1], k2 as [l2 H2]. simpl. intros ->. f_equal. apply proof_irrel.
Qed.

(** [var k [32]byte; copy(k[:], l)]. *)
Lemma mk32_ok (l : bytes) : Is_true (length (take 32 (l ++ replicate 32 x00)) =? 32)%nat.
Proof.
  apply Is_true_eq_left, Nat.eqb_eq. rewrite length_take, length_app, length_replicate. lia.
Qed.
Definition mk32 (l : bytes) : b32 := B32 (take 32 (l ++ replicate 32 x00)) (mk32_ok l).

Lemma mk32_bytes l : length l = 32%nat -> b32_bytes (mk32 l) = l.
Proof. intros H. simpl. by rewrite <- H, take_app_length. Qed.
Lemma mk32_b32 k : mk32 (b32_bytes k) = k.
Proof. apply b32_eq, mk32_bytes, b32_length. Qed.

#[export] Instance b32_eq_dec : EqDecision b32.
Proof.
  intros k1 k2. destruct (decide (b32_bytes k1 = b32_bytes k2)) as [H|H].
  - left. by apply b32_eq.
  - right. congruence.
Defined.
#[export] Instance b32_countable : Countable b32.
Proof. refine (inj_countable' b32_bytes mk32 _). intros. apply mk32_b32. Defined.
#[export] Instance b32_inhabited : Inhabited b32 := populate (mk32 []).

(** * [bytes.Compare] *)

Fixpoint bytes_compare (a b : bytes) : comparison :=
  match a, b with
  | [], [] => Eq
  | [], _ :: _ => Lt
  | _ :: _, [] => Gt
  | x :: a', y :: b' =>
      match Z.compare (u8 x) (u8 y) with Eq => bytes_compare a' b' | c => c end
  end.

Definition bytes_ltb a b : bool := match bytes_compare a b with Lt => true | _ => false end.
Definition bytes_leb a b : bool := match bytes_compare a b with Gt => false | _ => true end.
Definition bytes_lt a b : Prop := bytes_compare a b = Lt.
Definition bytes_le a b : Prop := bytes_compare a b <> Gt.

#[export] Instance bytes_le_dec : RelDecision bytes_le.
Proof. intros a b. unfold bytes_le. apply _. Defined.
#[export] Instance bytes_lt_dec : RelDecision bytes_lt.
Proof. intros a b. unfold bytes_lt. apply _. Defined.

Lemma bytes_compare_eq a b : bytes_compare a b = Eq <-> a = b.
Proof.
  revert b. induction a as [|x a IH]; intros [|y b]; simpl; try done.
  destruct (Z.compare_spec (u8 x) (u8 y)) as [E|E|E].
  - rewrite IH. apply u8_inj in E as ->. split; [by intros ->|by intros [= ->]].
  - split; [done|]. intros [= -> _]. lia.
  - split; [done|]. intros [= -> _]. lia.
Qed.

Lemma bytes_compare_refl a : bytes_compare a a = Eq.
Proof. by apply bytes_compare_eq. Qed.

Lemma bytes_compare_antisym a b : bytes_compare b a = CompOpp (bytes_compare a b).
Proof.
  revert b. induction a as [|x a IH]; intros [|y b]; simpl; try done.
  rewrite Z.compare_antisym. destruct (u8 x ?= u8 y); simpl; auto.
Qed.

Lemma bytes_lt_trans a b c : bytes_lt a b -> bytes_lt b c -> bytes_lt a c.
Proof.
  unfold bytes_lt. revert b c.
  induction a as [|x a IH]; intros [|y b] [|z c]; simpl; try done.
  destruct (Z.compare_spec (u8 x) (u8 y)), (Z.compare_spec (u8 y) (u8 z)); try done;
    destruct (Z.compare_spec (u8 x) (u8 z)); try done; try lia; eauto.
Qed.

Lemma bytes_le_lt_eq a b : bytes_le a b <-> bytes_lt a b \/ a = b.
Proof.
  unfold bytes_le, bytes_lt. rewrite <- bytes_compare_eq.
  destruct (bytes_compare a b); intuition congruence.
Qed.

Lemma bytes_lt_irrefl a : ~ bytes_lt a a.
Proof. unfold bytes_lt. by rewrite bytes_compare_refl. Qed.

Lemma bytes_lt_gt a b : bytes_lt a b <-> bytes_compare b a = Gt.
Proof. unfold bytes_lt. rewrite bytes_compare_antisym. by destruct (bytes_compare b a). Qed.

Lemma bytes_not_lt_le a b : ~ bytes_lt a b <-> bytes_le b a.
Proof.
  unfold bytes_lt, bytes_le. rewrite (bytes_compare_antisym b a).
  destruct (bytes_compare b a); simpl; intuition congruence.
Qed.

#[export] Instance bytes_le_trans : Transitive bytes_le.
Proof.
  intros a b c. rewrite !bytes_le_lt_eq. intros [?| ->] [?| ->]; eauto using bytes_lt_trans.
Qed.
#[export] Instance bytes_le_total : Total bytes_le.
Proof.
  intros a b. unfold bytes_le. rewrite (bytes_compare_antisym a b).
  destruct (bytes_compare a b); simpl; auto.
Qed.
#[export] Instance bytes_le_refl : Reflexive bytes_le.
Proof. intros a. unfold bytes_le. by rewrite bytes_compare_refl. Qed.
#[export] Instance bytes_le_anti : AntiSymm (=) bytes_le.
Proof.
  intros a b. rewrite !bytes_le_lt_eq. intros [H1|?] [H2|?]; try done.
  destruct (bytes_lt_irrefl a). eauto using bytes_lt_trans.
Qed.

Lemma bytes_le_lt_trans a b c : bytes_le a b -> bytes_lt b c -> bytes_lt a c.
Proof. rewrite bytes_le_lt_eq. intros [?| ->]; eauto using bytes_lt_trans. Qed.
Lemma bytes_lt_le_trans a b c : bytes_lt a b -> bytes_le b c -> bytes_lt a c.
Proof. rewrite bytes_le_lt_eq. intros ? [?| <-]; eauto using bytes_lt_trans. Qed.
Lemma bytes_lt_le a b : bytes_lt a b -> bytes_le a b.
Proof. rewrite bytes_le_lt_eq. auto. Qed.

Lemma bytes_leb_le a b : bytes_leb a b = true <-> bytes_le a b.
Proof. unfold bytes_leb, bytes_le. destruct (bytes_compare a b); naive_solver. Qed.
Lemma bytes_ltb_lt a b : bytes_ltb a b = true <-> bytes_lt a b.
Proof. unfold bytes_ltb, bytes_lt. destruct (bytes_compare a b); naive_solver. Qed.
Lemma bytes_leb_false a b : bytes_leb a b = false <-> bytes_lt b a.
Proof.
  rewrite bytes_lt_gt. unfold bytes_leb. destruct (bytes_compare a b); naive_solver.
Qed.
Lemma bytes_ltb_false a b : bytes_ltb a b = false <-> bytes_le b a.
Proof.
  unfold bytes_ltb, bytes_le. rewrite (bytes_compare_antisym a b).
  destruct (bytes_compare a b); naive_solver.
Qed.

(** * [sort.Search]: the smallest index in [0, n) at which [f] holds, by bisection *)

Fixpoint search_loop (fuel : nat) (f : nat -> bool) (i j : nat) : nat :=
  match fuel with
  | O => i
  | S fuel' =>
      if (i <? j)%nat then
        let h := ((i + j) / 2)%nat in
        if f h then search_loop fuel' f i h else search_loop fuel' f (S h) j
      else i
  end.
Definition sort_search (n : nat) (f : nat -> bool) : nat := search_loop n f 0 n.

Lemma search_loop_spec fuel f i j :
  (j - i <= fuel)%nat -> (i <= j)%nat ->
  let r := search_loop fuel f i j in
  (i <= r <= j)%nat /\ ((r < j)%nat -> f r = true) /\
  (r = i \/ exists r', r = S r' /\ f r' = false).
Proof.
  revert i j. induction fuel as [|fuel IH]; intros i j Hf Hij; cbn zeta; cbn [search_loop].
  - split; [lia|]. split; [lia|auto].
  - destruct (Nat.ltb_spec i j) as [Hlt|Hge]; cbn zeta; [|split; [lia|]; split; [lia|auto]].
    set (h := ((i + j) / 2)%nat).
    assert (i <= h < j)%nat as Hh.
    { subst h. split; [apply Nat.div_le_lower_bound; lia|apply Nat.Div0.div_lt_upper_bound; lia]. }
    destruct (f h) eqn:E.
    + destruct (IH i h) as (H1 & H2 & H3); [lia..|]. split; [lia|]. split; [|done].
      intros _. destruct (decide (search_loop fuel f i h < h)%nat); [auto|].
      by replace (search_loop fuel f i h) with h by lia.
    + destruct (IH (S h) j) as (H1 & H2 & H3); [lia..|]. split; [lia|]. split; [done|].
      right. destruct H3 as [H3|H3]; [|done]. eauto.
Qed.

(** What a caller may conclude when [f] is monotone on [0, n). *)
Lemma sort_search_spec n f :
  (forall i j, (i <= j < n)%nat -> f i = true -> f j = true) ->
  (sort_search n f <= n)%nat /\
  (forall i, (i < sort_search n f)%nat -> f i = false) /\
  (forall i, (sort_search n f <= i < n)%nat -> f i = true).
Proof.
  intros Hmono. destruct (search_loop_spec n f 0 n) as (H1 & H2 & H3); [lia..|].
  change (search_loop n f 0 n) with (sort_search n f) in *. split; [lia|]. split.
  - intros i Hi. destruct H3 as [H3|(r' & Hr & H3)]; [lia|].
    destruct (f i) eqn:E; [|done].
    rewrite (Hmono i r') in H3; [done|lia|done].
  - intros i Hi. apply (Hmono (sort_search n f)); [lia|]. apply H2. lia.
Qed.

(** Binary search over a list of names sorted by [bytes.Compare]. *)
Definition search_ge (l : list bytes) (x : bytes) : nat :=
  sort_search (length l) (fun i => bytes_leb x (nth i l [])).

(** * Errors: the chain of sentinels [errors.Is] can find in an [error] *)

Inductive etag :=
  (* key *)
  | ErrBadKeyLength | ErrReservedBitSet | ErrReservedType | ErrNonCanonicalLength
  (* io *)
  | EOF | ErrUnexpectedEOF
  (* amberpack *)
  | ErrCorrupt | ErrMalformed
  (* fstree *)
  | ErrEntryNotFound | ErrNotDir | MissingObject (k : b32)
  (* packstore *)
  | ErrNotFound | ErrClosed | ErrVerify | ErrUnknownSegment
  (* refstore *)
  | ErrRefNotFound
  (* gc *)
  | ErrCycleRunning
  (* an error with no sentinel of its own, named by its message *)
  | EMsg (s : string)
  (* an error value made by code outside the repository *)
  | EExt (s : string)
  (* not an error of the program: the model's recursion bound was too small *)
  | OutOfFuel.

Abbreviation error := (list etag).
Definition errors_Is (e : error) (t : etag) : Prop := t ∈ e.

#[export] Instance etag_eq_dec : EqDecision etag.
Proof. solve_decision. Defined.

(** * Fallible computations, and fallible computations over a state *)

Inductive res (A : Type) := Ok (x : A) | Err (e : error).
Arguments Ok {_} _.
Arguments Err {_} _.

#[export] Instance res_ret : MRet res := @Ok.
#[export] Instance res_bind : MBind res := fun A B f m =>
  match m with Ok x => f x | Err e => Err e end.

Definition is_ok {A} (r : res A) : bool := match r with Ok _ => true | Err _ => false end.

(** [fmt.Errorf("%w: ... %w", t, err)]: one more sentinel in front of the chain. *)
Definition wrap {A} (t : etag) (r : res A) : res A :=
  match r with Ok x => Ok x | Err e => Err (t :: e) end.
(** [fmt.Errorf("%w: ... %v", t, err)]: only the new sentinel survives. *)
Definition reerr {A} (t : etag) (r : res A) : res A :=
  match r with Ok x => Ok x | Err _ => Err [t] end.

Definition from_opt {A} (e : error) (o : option A) : res A :=
  match o with Some x => Ok x | None => Err e end.

Lemma res_bind_Ok {A B} (f : A -> res B) (m : res A) y :
  (m ≫= f) = Ok y <-> exists x, m = Ok x /\ f x = Ok y.
Proof. destruct m; simpl; naive_solver. Qed.

Lemma res_mapM_Ok {A B} (f : A -> res B) l k :
  mapM f l = Ok k <-> Forall2 (fun x y => f x = Ok y) l k.
Proof.
  revert k. induction l as [|x l IH]; intros k.
  - cbn. split; [by intros [= <-]|]. by intros H%Forall2_nil_inv_l; subst.
  - change (mapM f (x :: l)) with (f x ≫= fun y => mapM f l ≫= fun ys => Ok (y :: ys)).
    rewrite res_bind_Ok. split.
    + intros (y & Hy & (ys & Hys & [= <-])%res_bind_Ok). constructor; [done|]. by apply IH.
    + intros (y & ys & Hy & Hys & ->)%Forall2_cons_inv_l. exists y. split; [done|].
      apply res_bind_Ok. exists ys. split; [by apply IH|done].
Qed.

(** State [S] threaded through a computation that may fail; the state reached is
    kept on failure too, because the program's side effects are. *)
Definition M (S A : Type) : Type := S -> res A * S.

#[export] Instance M_ret S : MRet (M S) := fun A x s => (Ok x, s).
#[export] Instance M_bind S : MBind (M S) := fun A B f m s =>
  match m s with (Ok x, s') => f x s' | (Err e, s') => (Err e, s') end.

Definition fail {S A} (e : error) : M S A := fun s => (Err e, s).
Definition lift {S A} (r : res A) : M S A := fun s => (r, s).
Definition gets {S A} (f : S -> A) : M S A := fun s => (Ok (f s), s).
Definition modify {S} (f : S -> S) : M S unit := fun s => (Ok tt, f s).

Lemma M_bind_Ok {S A B} (f : A -> M S B) (m : M S A) s y s2 :
  (m ≫= f) s = (Ok y, s2) <-> exists x s1, m s = (Ok x, s1) /\ f x s1 = (Ok y, s2).
Proof. unfold mbind, M_bind. destruct (m s) as [[x|e] s1]; naive_solver. Qed.

(** The primitive steps, at the head of a sequence. *)
Lemma M_gets {S A B} (f : S -> A) (k : A -> M S B) s : (gets f ≫= k) s = k (f s) s.
Proof. done. Qed.
Lemma M_modify {S B} (f : S -> S) (k : unit -> M S B) s : (modify f ≫= k) s = k tt (f s).
Proof. done. Qed.
Lemma M_lift {S A B} (r : res A) (k : A -> M S B) s :
  (lift r ≫= k) s = match r with Ok x => k x s | Err e => (Err e, s) end.
Proof. by destruct r. Qed.
Lemma M_step {S A B} (m : M S A) (k : A -> M S B) s x s1 :
  m s = (Ok x, s1) -> (m ≫= k) s = k x s1.
Proof. unfold mbind, M_bind. by intros ->. Qed.

(** Destructs the monadic steps of a successful run, outermost first. *)
Ltac res_inv :=
  repeat match goal with
  | H : (_ ≫= _) = Ok _ |- _ => apply res_bind_Ok in H as (? & ? & H)
  | H : (_ ≫= _) _ = (Ok _, _) |- _ => apply M_bind_Ok in H as (? & ? & ? & H)
  | H : Ok _ = Ok _ |- _ => injection H as H
  | H : Err _ = Ok _ |- _ => discriminate H
  | H : mret _ = Ok _ |- _ => unfold mret, res_ret in H
  end; subst.

(** Case analysis on the guards of an [if] or [match] in a hypothesis. *)
Ltac guard_in H :=
  match type of H with
  | context [if ?b then _ else _] => let E := fresh "E" in destruct b eqn:E
  | context [match ?x with _ => _ end] => let E := fresh "E" in destruct x eqn:E
  end.

Create HintDb amber.
#[export] Hint Resolve u8_range zlen_nonneg be_get_range b32_length bytes_lt_le bytes_lt_trans
  bytes_lt_irrefl : amber.
#[export] Hint Rewrite @zlen_app @zlen_nil @zlen_cons u8_b8 b8_u8 length_be_put be_get_put
  be_put_get : amber.

(** [strings.Split(s, sep)] for a one-byte separator. *)
Fixpoint split_on (sep : byte) (s : bytes) : list bytes :=
  match s with
  | [] => [[]]
  | c :: s' =>
      if bool_decide (c = sep) then [] :: split_on sep s'
      else match split_on sep s' with
           | l :: ls => (c :: l) :: ls
           | [] => [[c]]
           end
  end.

(** * Bisection over a list, and sequences of effects *)

(** [sort.Search] over the positions of [l] for a predicate that stays true once true splits
    [l] into a prefix where it fails and a suffix where it holds. *)
Lemma sort_search_split {A} (P : A -> bool) (l : list A) :
  (forall i j x y, (i <= j)%nat -> l !! i = Some x -> l !! j = Some y -> P x = true -> P y = true) ->
  let i := sort_search (length l) (fun i => from_option P false (l !! i)) in
  Forall (fun x => P x = false) (take i l) /\ Forall (fun x => P x = true) (drop i l).
Proof.
  intros Hm i. destruct (sort_search_spec (length l) (fun i => from_option P false (l !! i)))
    as (H1 & H2 & H3).
  { intros a b Hab. destruct (lookup_lt_is_Some_2 l a) as [x Ex]; [lia|].
    destruct (lookup_lt_is_Some_2 l b) as [y Ey]; [lia|]. rewrite Ex, Ey. apply (Hm a b x y); [lia|done..]. }
  fold i in H1, H2, H3. clearbody i. split; apply Forall_lookup.
  - intros j x [Hx Hj]%lookup_take_Some. specialize (H2 j Hj). by rewrite Hx in H2.
  - intros j x Hj. rewrite lookup_drop in Hj. specialize (H3 (i + j)%nat).
    rewrite Hj in H3. apply H3. apply lookup_lt_Some in Hj. lia.
Qed.

Lemma filter_all {A} (P : A -> Prop) `{forall x, Decision (P x)} (l : list A) :
  Forall P l -> filter P l = l.
Proof. induction 1 as [|x l Hx _ IH]; [done|]. rewrite filter_cons_True by done. by f_equal. Qed.
Lemma filter_nothing {A} (P : A -> Prop) `{forall x, Decision (P x)} (l : list A) :
  Forall (fun x => ~ P x) l -> filter P l = [].
Proof. induction 1 as [|x l Hx _ IH]; [done|]. by rewrite filter_cons_False by done. Qed.

(** One element of a list changes, whatever it becomes. *)
Lemma swap_worker {A} (l : list A) i w : l !! i = Some w -> exists l1 l2, l = l1 ++ w :: l2 /\ forall w', <[i:=w']> l = l1 ++ w' :: l2.
Proof.
  intros Hi. exists (take i l), (drop (S i) l). split; [by rewrite take_drop_middle|]. intros w'.
  apply insert_take_drop. by eapply lookup_lt_Some.
Qed.
Lemma omap_middle {A B} (f : A -> option B) l1 x l2 : omap f (l1 ++ x :: l2) ≡ₚ option_list (f x) ++ omap f (l1 ++ l2).
Proof. rewrite !omap_app. cbn. destruct (f x); cbn; [|done]. by rewrite <- Permutation_middle. Qed.

(** The callback run over a list, stopping at the first failure. *)
Fixpoint each {St A} (fn : A -> M St unit) (l : list A) : M St unit :=
  match l with
  | [] => mret tt
  | x :: l' => _ ← fn x; each fn l'
  end.

Lemma each_app {St A} (fn : A -> M St unit) l1 l2 s :
  each fn (l1 ++ l2) s = (each fn l1 ≫= fun _ => each fn l2) s.
Proof.
  revert s. induction l1 as [|x l1 IH]; intros s; [done|]. cbn [app each].
  unfold mbind, M_bind in *. destruct (fn x s) as [[[]|e] s1]; [apply IH|done].
Qed.

(** Running over groups is running over their concatenation. *)
Lemma each_concat {St A B} (fn : A -> M St unit) (g : B -> M St unit) ks xss :
  Forall2 (fun k xs => forall s, g k s = each fn xs s) ks xss ->
  forall s, each g ks s = each fn (concat xss) s.
Proof.
  induction 1 as [|k xs ks xss E _ IH]; intros s; [done|]. cbn [each concat].
  rewrite each_app. unfold mbind, M_bind. rewrite E.
  destruct (each fn xs s) as [[[]|e] s1]; [apply IH|done].
Qed.

(** Reading a field out of a concatenation of fixed-width parts: skip whole parts, then
    take the head. *)
Lemma slice_skip {A} (a r : list A) i j n :
  length a = n -> (n <= i)%nat -> slice i j (a ++ r) = slice (i - n) (j - n) r.
Proof.
  intros <- Hi. unfold slice. rewrite drop_app_ge by done. f_equal. lia.
Qed.
Lemma slice_head {A} (m r : list A) n : length m = n -> slice 0 n (m ++ r) = m.
Proof. intros <-. unfold slice. rewrite drop_0, Nat.sub_0_r. apply take_app_length. Qed.
Lemma slice_all {A} (m : list A) n : length m = n -> slice 0 n m = m.
Proof. intros <-. unfold slice. rewrite drop_0, Nat.sub_0_r. by apply take_ge. Qed.

Lemma filter_concat {A} (P : A -> Prop) `{forall x, Decision (P x)} (l : list (list A)) :
  filter P (concat l) = concat (map (filter P) l).
Proof. induction l as [|x l IH]; [done|]. cbn [concat map]. by rewrite list.filter_app, IH. Qed.
