(* ===== verification/External.v ===== *)
(** Interfaces to the third-party packages the program calls, each as a class of
    operations with, next to it, a class of the documented laws the proofs rely on.
    The operations are parameters of every definition that calls them. *)
From S2P Require Import Prelude.

(** github.com/zeebo/blake3: [blake3.Sum256], a total function to 32 bytes. *)
Class Blake3 := { Sum256 : bytes -> b32 }.

(** github.com/klauspost/compress/zstd: [zstdEnc.EncodeAll(data, nil)] and
    [zstdDec.DecodeAll(stored, make([]byte, 0, cap))] under
    [WithDecodeAllCapLimit(true)] and [WithDecoderMaxMemory(256 << 20)]. *)
Class Zstd := {
    EncodeAll : bytes -> bytes;
    DecodeAll : bytes -> Z -> option bytes
  }.

(** A frame decodes to what was encoded when the capacity and the memory limit
    admit it, and never to more than the capacity. *)
Class ZstdOk `{Zstd} : Prop := {
    zstd_roundtrip d cap : zlen d <= cap -> zlen d <= 2 ^ 28 -> DecodeAll (EncodeAll d) cap = Some d;
    zstd_cap s cap d : DecodeAll s cap = Some d -> zlen d <= cap
  }.

(** github.com/fxamacker/cbor/v2: [encMode.Marshal] and [cbor.Unmarshal] at the Go
    type that [A] models. *)
Class Cbor (A : Type) := {
    Marshal : A -> res bytes;
    Unmarshal : bytes -> res A
  }.

(** Marshalling a value in the domain [wf] succeeds and is undone by unmarshalling. *)
Class CborOk (A : Type) (wf : A -> Prop) `{Cbor A} : Prop := {
    cbor_total x : wf x -> exists b, Marshal x = Ok b;
    cbor_roundtrip x b : wf x -> Marshal x = Ok b -> Unmarshal b = Ok x
  }.

(** github.com/FastFilter/xorfilter: the exported fields of [BinaryFuse[uint16]],
    [NewBinaryFuse] on a list of distinct keys, and [Contains]. *)
Record BinaryFuse := MkFuse {
    Seed : Z; SegmentLength : Z; SegmentLengthMask : Z;
    SegmentCount : Z; SegmentCountLength : Z; Fingerprints : list Z
  }.
Class Fuse := {
    NewBinaryFuse : list Z -> res BinaryFuse;
    Contains : BinaryFuse -> Z -> bool
  }.

(** A filter has no false negatives, and its geometry is the construction's: a power
    of two segment length, at least one segment, and the widths of the Go fields. *)
Definition fuse_geometry (f : BinaryFuse) : Prop :=
  0 <= Seed f < 2 ^ 64 /\
  (exists n, 0 <= n < 32 /\ SegmentLength f = 2 ^ n) /\
  SegmentLengthMask f = SegmentLength f - 1 /\
  0 < SegmentCount f < 2 ^ 32 /\
  SegmentCountLength f = SegmentCount f * SegmentLength f /\
  SegmentCountLength f < 2 ^ 32 /\
  zlen (Fingerprints f) = SegmentCountLength f + 2 * SegmentLength f /\
  zlen (Fingerprints f) < 2 ^ 32 /\
  Forall (fun x => 0 <= x < 2 ^ 16) (Fingerprints f).
Class FuseOk `{Fuse} : Prop := {
    fuse_contains ks f k : NewBinaryFuse ks = Ok f -> k ∈ ks -> Contains f k = true;
    fuse_shape ks f : NewBinaryFuse ks = Ok f -> fuse_geometry f
  }.

(** The operating system's file tree, read through package os and the xattr system calls:
    a path is the list of components below the root of the ingest. *)
Abbreviation path := (list bytes).
Record Stat := MkStat {
    st_mode : Z; st_uid : Z; st_gid : Z; st_mtime : Z; st_major : Z; st_minor : Z; st_size : Z
  }.
Class Os := {
    ReadDir : path -> res (list (bytes * bool));   (* names in byte order, with IsDir *)
    Lstat : path -> res Stat;
    Readlink : path -> res bytes;
    ReadFile : path -> res bytes;
    Llistxattr : path -> res bytes;                (* NUL-separated names *)
    Lgetxattr : path -> bytes -> res bytes
  }.
Definition ErrNotExist : etag := EExt "file does not exist".
Definition ENOTSUP : etag := EExt "operation not supported".

(** github.com/go-git/go-git/v5/plumbing/format/gitignore. *)
Class Gitignore := {
    pattern : Type;
    ParsePattern : bytes -> list bytes -> pattern;
    MatchPatterns : list pattern -> list bytes -> bool -> bool
  }.

(** golang.org/x/sync/errgroup: [Wait] returns the error of the goroutine that failed
    first, which is one of those that failed. *)
Class Errgroup := { first_failure : list error -> error }.
Class ErrgroupOk `{Errgroup} : Prop := {
    first_failure_elem e es : first_failure (e :: es) ∈ e :: es
  }.
