(* ===== verification/Chunker.v ===== *)
(** Package chunkers (src/chunkers): the item chunker that decides where a run of
    items ends, and the loop that feeds a file's byte chunks to a callback. The byte
    chunker itself (ultracdc) is third-party code behind [Cdc]. *)
From S2P Require Import Prelude External.

(** * item.go *)

(** Go's [int] arithmetic. *)
Definition s64 (z : Z) : Z := (z + 2 ^ 63) mod 2 ^ 64 - 2 ^ 63.

(** [binary.LittleEndian.Uint64(b)] on its 8 bytes. *)
Definition le_get (b : bytes) : Z := be_get (rev b).

Record ItemChunker := MkItemChunker { MinRun : Z; MaxRun : Z; mask : Z }.

(** A negative shift count panics. *)
Definition NewItemChunker (bits : Z) : res ItemChunker :=
  if bits <? 0 then Err [EMsg "panic: negative shift amount"]
  else
    let avg := s64 (Z.shiftl 1 bits) in
    let minRun := Z.max (Z.quot avg 4) 2 in
    let mask := if 0 <? bits then u64 (u64 (Z.shiftl 1 bits) - 1) else 0 in
    Ok (MkItemChunker minRun (s64 (avg * 4)) mask).

Definition IsBoundary `{Blake3} (c : ItemChunker) (enc : bytes) (runLen : Z) : bool :=
  if MaxRun c <=? runLen then true
  else if runLen <? MinRun c then false
  else
    let sum := Sum256 enc in
    Z.land (le_get (take 8 (b32_bytes sum))) (mask c) =? 0.

(** The bounds every caller relies on: a run of one item never ends, and runs are
    bounded. *)
Definition chunker_ok (c : ItemChunker) : Prop := 2 <= MinRun c /\ MinRun c <= MaxRun c.

Lemma s64_id z : - 2 ^ 63 <= z < 2 ^ 63 -> s64 z = z.
Proof. intros. unfold s64. rewrite Z.mod_small; lia. Qed.

Lemma NewItemChunker_fields bits c :
  0 <= bits <= 60 -> NewItemChunker bits = Ok c ->
  MinRun c = Z.max (2 ^ bits / 4) 2 /\ MaxRun c = 2 ^ bits * 4 /\ mask c = 2 ^ bits - 1.
Proof.
  intros Hb. unfold NewItemChunker. destruct (Z.ltb_spec bits 0); [lia|].
  rewrite Z.shiftl_1_l.
  assert (2 ^ bits <= 2 ^ 60) by (apply Z.pow_le_mono_r; lia).
  assert (0 < 2 ^ bits) by (apply Z.pow_pos_nonneg; lia).
  rewrite !s64_id by (rewrite ?s64_id; lia). intros [= <-]. cbn [MinRun MaxRun mask].
  rewrite Z.quot_div_nonneg by lia. split; [done|]. split; [done|].
  unfold u64. destruct (Z.ltb_spec 0 bits).
  - by rewrite (Z.mod_small (2 ^ bits)), Z.mod_small by lia.
  - by replace bits with 0 by lia.
Qed.

Lemma NewItemChunker_ok bits c : 0 <= bits <= 60 -> NewItemChunker bits = Ok c -> chunker_ok c.
Proof.
  intros Hb E. destruct (NewItemChunker_fields bits c Hb E) as (H1 & H2 & _).
  unfold chunker_ok. rewrite H1, H2.
  assert (1 <= 2 ^ bits) by (apply (Z.pow_le_mono_r 2 0); lia).
  pose proof (Z.div_le_upper_bound (2 ^ bits) 4 (2 ^ bits)). lia.
Qed.

Section Boundary.
Context `{Blake3} (c : ItemChunker).
Hypothesis Hc : chunker_ok c.

Lemma IsBoundary_one enc n : n <= 1 -> IsBoundary c enc n = false.
Proof.
  intros. destruct Hc. unfold IsBoundary.
  destruct (Z.leb_spec (MaxRun c) n); [lia|]. by destruct (Z.ltb_spec n (MinRun c)); [|lia].
Qed.
Lemma IsBoundary_max enc n : MaxRun c <= n -> IsBoundary c enc n = true.
Proof. intros. unfold IsBoundary. by destruct (Z.leb_spec (MaxRun c) n); [|lia]. Qed.
Lemma IsBoundary_min enc n : IsBoundary c enc n = true -> MinRun c <= n.
Proof.
  destruct Hc. unfold IsBoundary.
  destruct (Z.leb_spec (MaxRun c) n); [lia|]. by destruct (Z.ltb_spec n (MinRun c)).
Qed.
Lemma IsBoundary_open enc n : IsBoundary c enc n = false -> n < MaxRun c.
Proof. destruct (Z.leb_spec (MaxRun c) n); [by rewrite IsBoundary_max|done]. Qed.
End Boundary.

(** * byte.go *)

(** github.com/PlakarKorp/go-cdc-chunkers: [NewChunker("ultracdc", r, opts)] over the
    reader's remaining bytes, and [Next], which returns a chunk and an error. *)
Class Cdc := {
    cdc : Type;
    NewChunker : bytes -> res cdc;
    Next : cdc -> bytes * option etag * cdc
  }.

Section SplitBytes.
Context `{Cdc} {St : Type} (fn : bytes -> M St unit).

(** One iteration per [c.Next()]; [fuel] bounds the number of calls. *)
Fixpoint split_loop (fuel : nat) (c : cdc) : M St unit :=
  match fuel with
  | O => fail [OutOfFuel]
  | S fuel' =>
    let '(chunk, err, c') := Next c in
    _ ← (if 0 <? zlen chunk then fn chunk else mret tt);
    match err with
    | Some EOF => mret tt
    | Some e => fail [e]
    | None => split_loop fuel' c'
    end
  end.

(** A call that reports no error returns a chunk, so [length r + 1] calls reach the end. *)
Definition SplitBytes (r : bytes) : M St unit :=
  c ← lift (NewChunker r); split_loop (Datatypes.S (length r)) c.
End SplitBytes.

(** What the chunker documents: from each of its states it cuts the bytes it has left into
    finitely many chunks, none empty, and then reports [EOF], alone or with the last one. *)
Section Cuts.
Context `{Cdc}.
Inductive cuts : cdc -> list bytes -> Prop :=
  | cuts_eof c chunk c' : Next c = (chunk, Some EOF, c') -> cuts c (if 0 <? zlen chunk then [chunk] else [])
  | cuts_next c chunk c' l :
Next c = (chunk, None, c') -> chunk <> [] -> cuts c' l -> cuts c (chunk :: l).
End Cuts.

Class CdcOk `{Cdc} : Prop := {
    cdc_cuts r : exists c l, NewChunker r = Ok c /\ cuts c l /\ concat l = r
  }.

Lemma cuts_nonempty `{Cdc} c l : cuts c l -> Forall (fun x => x <> []) l.
Proof. induction 1 as [? ch|]; [destruct ch; simpl; auto|by constructor]. Qed.

Lemma split_loop_each `{Cdc} {St} (fn : bytes -> M St unit) c l fuel s :
  cuts c l -> (length l < fuel)%nat -> split_loop fn fuel c s = each fn l s.
Proof.
  intros HC. revert fuel s.
  induction HC as [c chunk c' E|c chunk c' l E Hne HC IH]; intros [|fuel] s Hf; try lia;
    cbn [split_loop]; rewrite E.
  - by destruct (0 <? zlen chunk).
  - destruct (Z.ltb_spec 0 (zlen chunk)) as [_|Hz].
    2:{ destruct chunk; [done|]. rewrite zlen_cons in Hz. pose proof (zlen_nonneg chunk). lia. }
    cbn [each length] in *. unfold mbind, M_bind.
    destruct (fn chunk s) as [[?|?] ?]; [|done]. apply IH. lia.
Qed.

Lemma length_concat_nonempty {A} (l : list (list A)) :
  Forall (fun x => x <> []) l -> (length l <= length (concat l))%nat.
Proof.
  induction 1 as [|x l Hx _ IH]; [done|]. cbn [concat length]. rewrite length_app.
  destruct x; [done|]. cbn. lia.
Qed.

(** [SplitBytes] calls [fn] once per chunk, in order, until one fails; the chunks are not
    empty and concatenate to the input. *)
Lemma SplitBytes_each `{CdcOk} {St} (fn : bytes -> M St unit) r :
  exists l, (forall s, SplitBytes fn r s = each fn l s) /\ concat l = r /\ Forall (fun x => x <> []) l.
Proof.
  destruct (cdc_cuts r) as (c & l & Hn & HC & Hr). exists l. pose proof (cuts_nonempty _ _ HC) as Hne.
  split; [|done]. intros s. unfold SplitBytes. rewrite M_lift, Hn. apply split_loop_each; [done|].
  pose proof (length_concat_nonempty l Hne). rewrite Hr in *. lia.
Qed.
