(* ===== verification/Concrete.v ===== *)
(** Concrete stand-ins for the third-party packages behind the interfaces
    [Blake3] and [Zstd]. They are not models of those packages: they exist so that a
    theorem stated over an interface can be applied to closed inputs. *)
From S2P Require Import Prelude External Chunker.

(** A digest that keeps the reversed input: injective on inputs of up to 31 bytes. *)
Definition toy_sum (b : bytes) : b32 := mk32 (rev b ++ [x01]).
#[export] Instance toy_blake3 : Blake3 := { Sum256 := toy_sum }.

(** Run-length compression of constant strings; anything else is stored. *)
Definition toy_run (c : byte) (d : bytes) : bool := forallb (fun x => bool_decide (x = c)) d.

Definition toy_encode (d : bytes) : bytes :=
  match d with
  | [] => [x00]
  | c :: _ => if toy_run c d && (zlen d <? 2 ^ 32) then x01 :: c :: be_put 4 (zlen d) else x00 :: d
  end.

Definition toy_cap (cap : Z) (d : bytes) : option bytes := if zlen d <=? cap then Some d else None.

Definition toy_decode (s : bytes) (cap : Z) : option bytes :=
  match s with
  | [] => None
  | t :: s' =>
      if bool_decide (t = x01) then
        match s' with
        | c :: n => if be_get n <=? cap then toy_cap cap (replicate (Z.to_nat (be_get n)) c) else None
        | [] => None
        end
      else toy_cap cap s'
  end.

#[export] Instance toy_zstd : Zstd := { EncodeAll := toy_encode; DecodeAll := toy_decode }.

Lemma toy_run_replicate c d : toy_run c d = true -> d = replicate (length d) c.
Proof.
  induction d as [|x d IH]; [done|]. unfold toy_run. cbn [forallb]. intros H.
  apply andb_true_iff in H as [Hx%bool_decide_eq_true Hd]. subst x.
  cbn [length replicate]. f_equal. by apply IH.
Qed.

Lemma toy_cap_Some cap d out : toy_cap cap d = Some out -> out = d /\ zlen d <= cap.
Proof. unfold toy_cap. destruct (Z.leb_spec (zlen d) cap); [|done]. by intros [= <-]. Qed.

#[export] Instance toy_zstd_ok : ZstdOk.
Proof.
  split.
  - intros d cap Hc _. cbn [EncodeAll DecodeAll toy_zstd].
    assert (toy_cap cap d = Some d) as Hcap.
    { unfold toy_cap. destruct (Z.leb_spec (zlen d) cap); [done|lia]. }
    destruct d as [|c d]; [done|]. unfold toy_encode.
    destruct (toy_run c (c :: d)) eqn:ER; cbn [andb]; [|done].
    destruct (Z.ltb_spec (zlen (c :: d)) (2 ^ 32)) as [Hn|_]; [|done].
    unfold toy_decode. rewrite bool_decide_eq_true_2 by done.
    rewrite be_get_put. change (256 ^ Z.of_nat 4) with (2 ^ 32).
    pose proof (zlen_nonneg (c :: d)) as Hp. rewrite Z.mod_small by lia.
    rewrite (proj2 (Z.leb_le _ _) Hc). unfold zlen at 1. rewrite Nat2Z.id.
    by rewrite <- (toy_run_replicate _ _ ER).
  - intros s cap d. cbn [DecodeAll toy_zstd]. unfold toy_decode. intros H.
    destruct s as [|t s]; [done|]. repeat case_match; try done;
      apply toy_cap_Some in H as [-> ?]; done.
Qed.

(** ** A self-delimiting serialisation, for the marshaller's interface *)

Class Codec (A : Type) := { ser : A -> bytes; de : bytes -> option (A * bytes) }.
Class CodecOk (A : Type) `{Codec A} : Prop := de_ser (x : A) r : de (ser x ++ r) = Some (x, r).

#[export] Instance codec_byte : Codec byte := {
    ser b := [b]; de l := match l with b :: l' => Some (b, l') | [] => None end
  }.
#[export] Instance codec_byte_ok : CodecOk byte.
Proof. done. Qed.

#[export] Instance codec_prod {A B} `{Codec A} `{Codec B} : Codec (A * B) := {
    ser '(a, b) := ser a ++ ser b;
    de l := '(a, l1) ← de l; '(b, l2) ← de l1; Some ((a, b), l2)
  }.
#[export] Instance codec_prod_ok {A B} `{CodecOk A} `{CodecOk B} : CodecOk (A * B).
Proof. intros [a b] r. cbn. rewrite <- app_assoc, de_ser. cbn. by rewrite de_ser. Qed.

(** Each element is preceded by a one, the end is a zero. *)
Section CodecList.
Context {A} `{Codec A}.
Fixpoint ser_list (l : list A) : bytes :=
  match l with [] => [x00] | x :: l' => x01 :: ser x ++ ser_list l' end.
Fixpoint de_list (fuel : nat) (b : bytes) : option (list A * bytes) :=
  match fuel, b with
  | S fuel', x00 :: b' => Some ([], b')
  | S fuel', x01 :: b' => '(x, b1) ← de b'; '(l, b2) ← de_list fuel' b1; Some (x :: l, b2)
  | _, _ => None
  end.
#[export] Instance codec_list : Codec (list A) := {
    ser := ser_list; de b := de_list (S (length b)) b
  }.
#[export] Instance codec_list_ok `{!CodecOk A} : CodecOk (list A).
Proof.
  intros l r. cbn [ser de codec_list].
  assert (forall fuel, (length (ser_list l) <= fuel)%nat -> de_list fuel (ser_list l ++ r) = Some (l, r)) as K.
  { induction l as [|x l IH]; intros [|fuel] Hf; cbn in Hf; try lia; [done|].
    cbn [ser_list app de_list]. rewrite <- app_assoc, de_ser. cbn [mbind option_bind].
    rewrite IH; [done|]. rewrite length_app in Hf. lia. }
  apply K. rewrite length_app. lia.
Qed.
End CodecList.

Definition codec_iso {A B} `{Codec B} (f : A -> B) (g : B -> A) : Codec A := {|
    ser x := ser (f x); de l := '(y, r) ← de l; Some (g y, r)
  |}.
Lemma codec_iso_ok {A B} `{CodecOk B} (f : A -> B) (g : B -> A) (E : forall x, g (f x) = x) :
  @CodecOk A (codec_iso f g).
Proof. intros x r. cbn. rewrite de_ser. cbn. by rewrite E. Qed.

(** Integers as their sign and binary digits. *)
Fixpoint pos_bytes (p : positive) : bytes :=
  match p with xH => [] | xO p' => x00 :: pos_bytes p' | xI p' => x01 :: pos_bytes p' end.
Fixpoint bytes_pos (b : bytes) : positive :=
  match b with [] => xH | x00 :: b' => xO (bytes_pos b') | _ :: b' => xI (bytes_pos b') end.
Definition z_bytes (z : Z) : bytes :=
  match z with Z0 => [] | Zpos p => x00 :: pos_bytes p | Zneg p => x01 :: pos_bytes p end.
Definition bytes_z (b : bytes) : Z :=
  match b with [] => 0 | x00 :: b' => Zpos (bytes_pos b') | _ :: b' => Zneg (bytes_pos b') end.

Lemma bytes_z_bytes z : bytes_z (z_bytes z) = z.
Proof.
  assert (forall p, bytes_pos (pos_bytes p) = p) as K by (induction p; cbn; congruence).
  destruct z; cbn; by rewrite ?K.
Qed.
#[export] Instance codec_z : Codec Z := codec_iso z_bytes bytes_z.
#[export] Instance codec_z_ok : CodecOk Z := codec_iso_ok _ _ bytes_z_bytes.

(** The marshaller such a serialisation gives. *)
Definition toy_cbor (A : Type) `{Codec A} : Cbor A := {|
    Marshal x := Ok (ser x);
    Unmarshal b := match de b with Some (x, []) => Ok x | _ => Err [EExt "cbor"] end
  |}.

Lemma toy_cbor_ok (A : Type) `{CodecOk A} (wf : A -> Prop) : @CborOk A wf (toy_cbor A).
Proof.
  split; cbn [Marshal Unmarshal toy_cbor].
  - eauto.
  - intros x b _ [= <-]. by rewrite <- (app_nil_r (ser x)), de_ser.
Qed.

#[export] Instance cbor_keys : Cbor (list bytes) := toy_cbor (list bytes).
#[export] Instance cbor_keys_ok wf : CborOk (list bytes) wf := toy_cbor_ok (list bytes) wf.

(** ** A byte chunker that cuts every four bytes *)
#[export] Instance toy_cdc : Cdc := {
    cdc := bytes;
    NewChunker r := Ok r;
    Next r := match r with [] => ([], Some EOF, []) | _ => (take 4 r, None, drop 4 r) end
  }.
#[export] Instance toy_cdc_ok : CdcOk.
Proof.
  split. intros r. exists r.
  assert (forall n (r : bytes), (length r <= n)%nat -> exists l, cuts (H:=toy_cdc) r l /\ concat l = r) as K.
  { induction n as [|n IH]; intros [|x r'] Hn; cbn in Hn; try lia.
    1, 2: exists []; split; [exact (@cuts_eof toy_cdc (@nil byte) [] (@nil byte) eq_refl)|done].
    destruct (IH (drop 4 (x :: r'))) as (l & Hl & Hc); [rewrite length_drop; cbn; lia|].
    exists (take 4 (x :: r') :: l). split; [apply (@cuts_next toy_cdc _ _ (drop 4 (x :: r'))); done|].
    cbn [concat]. rewrite Hc. apply take_drop. }
  destruct (K _ r (le_n _)) as (l & ? & ?). by exists l.
Qed.

(** ** A filter whose seed is the union of the keys' bits: no false negatives. *)
#[export] Instance toy_fuse : Fuse := {
    NewBinaryFuse ks := Ok (MkFuse (fold_right (fun k acc => Z.lor (u64 k) acc) 0 ks) 4 3 1 4 (replicate 12 0));
    Contains f k := Z.land (u64 k) (Seed f) =? u64 k
  }.
#[export] Instance toy_fuse_ok : FuseOk.
Proof.
  split; cbn [NewBinaryFuse Contains toy_fuse].
  - intros ks f k [= <-] Hk. cbn [Seed]. apply Z.eqb_eq.
    apply Z.bits_inj'. intros n _. rewrite Z.land_spec.
    induction Hk as [k ks|k k' ks Hk IH]; cbn [fold_right]; rewrite Z.lor_spec.
    + by destruct (Z.testbit (u64 k) n).
    + destruct (Z.testbit (u64 k) n); [|done]. cbn in *. rewrite IH. apply orb_true_r.
  - intros ks f [= <-]. split; cbn.
    + induction ks as [|k ks IH]; cbn [fold_right]; [lia|].
      assert (0 <= u64 k < 2 ^ 64) by (unfold u64; apply Z.mod_pos_bound; lia).
      set (a := u64 k) in *. set (b := fold_right _ _ _) in *.
      assert (0 <= Z.lor a b) by (apply Z.lor_nonneg; lia). split; [done|].
      destruct (decide (Z.lor a b = 0)) as [->|]; [lia|].
      apply Z.log2_lt_pow2; [lia|]. rewrite Z.log2_lor by lia.
      assert (forall x, 0 <= x < 2 ^ 64 -> Z.log2 x < 64) as L.
      { intros x Hx. destruct (decide (x = 0)) as [->|]; [done|]. apply Z.log2_lt_pow2; lia. }
      pose proof (L a). pose proof (L b). lia.
    + split_and!; try done; [by exists 2|]. by repeat constructor.
Qed.

#[export] Instance head_errgroup : Errgroup := { first_failure es := default [] (head es) }.
#[export] Instance head_errgroup_ok : ErrgroupOk.
Proof. split. intros e es. by left. Qed.
