(* ===== verification/Key.v ===== *)
(** Package key (src/key): the 32-byte content key - header byte, minimal
    big-endian length, truncated hash - with its accessors, its validator, its
    parser and its constructor. The BLAKE3 digest is the interface [Blake3]:
    the hash is a third-party package. *)
From S2P Require Import Prelude External.

(** [type Type uint8] with its five defined values. *)
Abbreviation Typ := Z.
Definition Blob : Typ := 0.
Definition FileNode : Typ := 1.
Definition DirLeaf : Typ := 2.
Definition DirNode : Typ := 3.
Definition XattrSet : Typ := 4.

Definition IsValid (t : Typ) : bool := t <=? XattrSet.

Definition Size : nat := 32.
Abbreviation Key := b32.

(** [k[i]] *)
Definition kat (k : Key) (i : nat) : byte := byte_at (b32_bytes k) i.

Definition Type_ (k : Key) : Typ := Z.shiftr (u8 (kat k 0)) 4.
Definition LengthSize (k : Key) : nat := S (Z.to_nat (Z.land (u8 (kat k 0)) 7)).
(** The [ls] bytes after the header, right-aligned in an 8-byte buffer. *)
Definition Length (k : Key) : Z :=
  let ls := LengthSize k in
  be_get (replicate (8 - ls) x00 ++ slice 1 (1 + ls) (b32_bytes k)).
Definition Hash (k : Key) : bytes := drop (1 + LengthSize k) (b32_bytes k).

(** [bits.Len64] *)
Definition Len64 (x : Z) : Z := if x =? 0 then 0 else Z.log2 x + 1.

Definition lengthSizeFor (length : Z) : nat :=
  if length =? 0 then 1%nat else Z.to_nat ((Len64 length + 7) / 8).

Definition Validate (k : Key) : res unit :=
  if negb (Z.land (u8 (kat k 0)) 8 =? 0) then Err [ErrReservedBitSet]
  else if negb (IsValid (Type_ k)) then Err [ErrReservedType]
  else if (u8 (kat k 1) =? 0) && negb ((LengthSize k =? 1)%nat && (Length k =? 0))
  then Err [ErrNonCanonicalLength]
  else Ok tt.

Definition Parse (b : bytes) : res Key :=
  if negb (length b =? Size)%nat then Err [ErrBadKeyLength]
  else let k := mk32 b in _ ← Validate k; Ok k.

Definition NewFromHash (t : Typ) (length : Z) (fullHash : b32) : res Key :=
  if negb (IsValid t) then Err [ErrReservedType]
  else
    let ls := lengthSizeFor length in
    let k0 := b8 (Z.lor (Z.shiftl t 4) (Z.of_nat ls - 1)) in
    let buf := be_put 8 length in
    Ok (mk32 (k0 :: drop (8 - ls) buf ++ take (Size - 1 - ls) (b32_bytes fullHash))).

Definition New `{Blake3} (t : Typ) (length : Z) (serialized : bytes) : res Key :=
  NewFromHash t length (Sum256 serialized).

(** [hex.EncodeToString(k[:])] *)
Definition hexdigit (d : Z) : byte := if d <? 10 then b8 (48 + d) else b8 (87 + d).
Definition hexEncode (b : bytes) : bytes :=
  flat_map (fun c => [hexdigit (u8 c / 16); hexdigit (u8 c mod 16)]) b.
Definition String_ (k : Key) : bytes := hexEncode (b32_bytes k).

(** [hex.DecodeString], which also accepts upper-case digits. *)
Definition fromHexChar (c : byte) : option Z :=
  let n := u8 c in
  if (48 <=? n) && (n <=? 57) then Some (n - 48)
  else if (97 <=? n) && (n <=? 102) then Some (n - 87)
  else if (65 <=? n) && (n <=? 70) then Some (n - 55)
  else None.
Fixpoint hexDecode (s : bytes) : res bytes :=
  match s with
  | [] => Ok []
  | [_] => Err [EExt "hex: odd length"]
  | a :: b :: s' =>
      match fromHexChar a, fromHexChar b with
      | Some x, Some y => r ← hexDecode s'; Ok (b8 (x * 16 + y) :: r)
      | _, _ => Err [EExt "hex: invalid byte"]
      end
  end.

(** * Header-byte arithmetic *)

Lemma header_split t n :
  0 <= t < 5 -> 0 <= n < 8 ->
  let h := u8 (b8 (Z.lor (Z.shiftl t 4) n)) in
  Z.shiftr h 4 = t /\ Z.land h 7 = n /\ Z.land h 8 = 0.
Proof.
  intros Ht Hn. cbn zeta. rewrite u8_b8.
  assert (t ∈ [0;1;2;3;4]) as Et by (repeat (rewrite elem_of_cons); lia).
  assert (n ∈ [0;1;2;3;4;5;6;7]) as En by (repeat (rewrite elem_of_cons); lia).
  repeat (apply elem_of_cons in Et as [->|Et];
    [repeat (apply elem_of_cons in En as [->|En]; [done|]); by apply elem_of_nil in En|]).
  by apply elem_of_nil in Et.
Qed.

Lemma header_join (b : byte) :
  Z.land (u8 b) 8 = 0 ->
  b8 (Z.lor (Z.shiftl (Z.shiftr (u8 b) 4) 4) (Z.land (u8 b) 7)) = b.
Proof. by destruct b; vm_compute. Qed.

Lemma land7_range (b : byte) : 0 <= Z.land (u8 b) 7 < 8.
Proof. by destruct b; vm_compute. Qed.

Lemma LengthSize_range k : (1 <= LengthSize k <= 8)%nat.
Proof. unfold LengthSize. pose proof (land7_range (kat k 0)). lia. Qed.

(** * The minimal length field *)

Lemma lengthSizeFor_bounds n :
  0 < n < 2 ^ 64 ->
  (1 <= lengthSizeFor n <= 8)%nat /\
  256 ^ (Z.of_nat (lengthSizeFor n) - 1) <= n < 256 ^ Z.of_nat (lengthSizeFor n).
Proof.
  intros Hn. unfold lengthSizeFor, Len64. destruct (Z.eqb_spec n 0); [lia|].
  pose proof (Z.log2_spec n ltac:(lia)) as [L1 L2].
  pose proof (Z.log2_nonneg n) as L0.
  assert (Z.log2 n < 64) as L3 by (apply Z.log2_lt_pow2; lia).
  set (w := (Z.log2 n + 1 + 7) / 8).
  assert (8 * (w - 1) <= Z.log2 n < 8 * w) as [W1 W2] by (subst w; Z.div_mod_to_equations; lia).
  assert (1 <= w <= 8) as W3 by lia.
  rewrite Z2Nat.id by lia. split; [lia|].
  change 256 with (2 ^ 8). rewrite <- !Z.pow_mul_r by lia. split.
  - etransitivity; [|exact L1]. apply Z.pow_le_mono_r; lia.
  - eapply Z.lt_le_trans; [exact L2|]. apply Z.pow_le_mono_r; lia.
Qed.

Lemma lengthSizeFor_range n : 0 <= n < 2 ^ 64 -> (1 <= lengthSizeFor n <= 8)%nat.
Proof.
  intros. destruct (Z.eq_dec n 0) as [->|]; [by vm_compute; lia|].
  apply lengthSizeFor_bounds. lia.
Qed.

Lemma drop_be_put n m v : (m <= n)%nat -> drop (n - m) (be_put n v) = be_put m v.
Proof.
  intros H. replace n with ((n - m) + m)%nat at 2 by lia. generalize (n - m)%nat as d.
  induction d as [|d IH]; [by rewrite Nat.add_0_l|]. simpl. apply IH.
Qed.

Lemma be_get_zeros n l : be_get (replicate n x00 ++ l) = be_get l.
Proof.
  induction n as [|n IH]; [done|]. simpl. rewrite be_get_cons, IH.
  change (u8 x00) with 0. lia.
Qed.

(** The constructor's bytes, as the concatenation the accessors take apart. *)
Definition key_layout (t : Typ) (len : Z) (h : bytes) : bytes :=
  let ls := lengthSizeFor len in
  b8 (Z.lor (Z.shiftl t 4) (Z.of_nat ls - 1)) :: be_put ls len ++ h.

Lemma NewFromHash_layout t len h k :
  0 <= len < 2 ^ 64 -> NewFromHash t len h = Ok k ->
  IsValid t = true /\
  b32_bytes k = key_layout t len (take (31 - lengthSizeFor len) (b32_bytes h)).
Proof.
  intros Hlen H. unfold NewFromHash in H.
  destruct (IsValid t) eqn:E; cbn [negb] in H; [|done]. split; [done|].
  pose proof (lengthSizeFor_range len Hlen) as R.
  cbv zeta in H. rewrite drop_be_put in H by lia.
  assert (forall a b : Key, Ok a = Ok b -> b = a) as J by congruence.
  apply J in H as ->. unfold key_layout. rewrite mk32_bytes; [done|].
  cbn [length]. rewrite length_app, length_be_put, length_take, b32_length. unfold Size. lia.
Qed.

(** Reading the fields back from any key laid out this way. *)
Section Layout.
Context (k : Key) (t len : Z) (tl : bytes).
Hypothesis Ht : 0 <= t < 5.
Hypothesis Hlen : 0 <= len < 2 ^ 64.
Hypothesis Hk : b32_bytes k = key_layout t len tl.

Lemma layout_header : kat k 0 = b8 (Z.lor (Z.shiftl t 4) (Z.of_nat (lengthSizeFor len) - 1)).
Proof. unfold kat. by rewrite Hk. Qed.

Lemma layout_Type : Type_ k = t.
Proof.
  pose proof (lengthSizeFor_range len Hlen). unfold Type_. rewrite layout_header.
  apply (header_split t (Z.of_nat (lengthSizeFor len) - 1)); lia.
Qed.

Lemma layout_LengthSize : LengthSize k = lengthSizeFor len.
Proof.
  pose proof (lengthSizeFor_range len Hlen). unfold LengthSize. rewrite layout_header.
  destruct (header_split t (Z.of_nat (lengthSizeFor len) - 1)) as (_ & -> & _); lia.
Qed.

Lemma layout_reserved : Z.land (u8 (kat k 0)) 8 = 0.
Proof.
  pose proof (lengthSizeFor_range len Hlen). rewrite layout_header.
  apply (header_split t (Z.of_nat (lengthSizeFor len) - 1)); lia.
Qed.

Lemma layout_Length : Length k = len.
Proof.
  unfold Length. rewrite be_get_zeros, layout_LengthSize, Hk. unfold key_layout.
  change (?x :: ?l ++ tl) with ([x] ++ l ++ tl).
  rewrite slice_app_mid by (rewrite ?length_be_put; done).
  rewrite be_get_put. apply Z.mod_small.
  destruct (Z.eq_dec len 0) as [->|]; [by vm_compute|].
  pose proof (lengthSizeFor_bounds len). lia.
Qed.

Lemma layout_Hash : Hash k = tl.
Proof.
  unfold Hash. rewrite layout_LengthSize, Hk. unfold key_layout. cbn [Nat.add].
  rewrite skipn_cons, drop_app_length'; [done|]. by rewrite length_be_put.
Qed.

(** The first length byte is zero only in the encoding of zero. *)
Lemma layout_first : u8 (kat k 1) = 0 -> len = 0.
Proof.
  destruct (Z.eq_dec len 0) as [|Hnz]; [done|].
  destruct (lengthSizeFor_bounds len) as [[Hls _] HB]; [lia|].
  unfold kat. rewrite Hk. unfold key_layout, byte_at. cbn [nth].
  destruct (lengthSizeFor len) as [|n] eqn:E; [lia|]. cbn [be_put app nth].
  rewrite u8_b8, Z.shiftr_div_pow2, Z.pow_mul_r by lia. change (2 ^ 8) with 256.
  rewrite Nat2Z.inj_succ, <- Z.add_1_r, Z.add_simpl_r, Z.pow_add_r in HB by lia.
  change (256 ^ 1) with 256 in HB.
  set (P := 256 ^ Z.of_nat n) in *.
  assert (0 < P) by (apply Z.pow_pos_nonneg; lia).
  assert (1 <= len / P) by (apply Z.div_le_lower_bound; lia).
  assert (len / P < 256) by (apply Z.div_lt_upper_bound; lia).
  rewrite Z.mod_small; lia.
Qed.

Lemma layout_Validate : Validate k = Ok tt.
Proof.
  unfold Validate. rewrite layout_reserved, layout_Type, layout_Length, layout_LengthSize.
  destruct (IsValid t) eqn:Et; [|unfold IsValid, XattrSet in Et; lia]. cbn [Z.eqb negb].
  destruct (u8 (kat k 1) =? 0) eqn:E0; [|done].
  apply Z.eqb_eq, layout_first in E0. by rewrite E0.
Qed.
End Layout.

Lemma IsValid_range t : 0 <= t -> IsValid t = true -> 0 <= t < 5.
Proof. unfold IsValid, XattrSet. lia. Qed.

(** ** Every canonical key has this layout *)

Lemma b32_split (k : Key) :
  b32_bytes k = kat k 0 :: slice 1 (1 + LengthSize k) (b32_bytes k) ++ Hash k.
Proof.
  pose proof (LengthSize_range k) as R. pose proof (b32_length k) as L.
  pose proof (take_drop_slice 1 (1 + LengthSize k) (b32_bytes k) ltac:(lia)) as E.
  unfold Hash, kat, byte_at. destruct (b32_bytes k) as [|x l]; [done|]. exact (eq_sym E).
Qed.

Lemma Length_slice k : Length k = be_get (slice 1 (1 + LengthSize k) (b32_bytes k)).
Proof. apply be_get_zeros. Qed.

Lemma slice_len k : length (slice 1 (1 + LengthSize k) (b32_bytes k)) = LengthSize k.
Proof.
  pose proof (LengthSize_range k). rewrite length_slice; [lia..|].
  rewrite b32_length. lia.
Qed.

Lemma Length_range k : 0 <= Length k < 2 ^ 64.
Proof.
  rewrite Length_slice.
  pose proof (be_get_range (slice 1 (1 + LengthSize k) (b32_bytes k))) as R.
  unfold zlen in R. rewrite slice_len in R. split; [lia|].
  eapply Z.lt_le_trans; [apply R|]. change (2 ^ 64) with (256 ^ 8).
  pose proof (LengthSize_range k). apply Z.pow_le_mono_r; lia.
Qed.

Lemma lengthSizeFor_unique n ls :
  (1 <= ls <= 8)%nat -> 256 ^ (Z.of_nat ls - 1) <= n < 256 ^ Z.of_nat ls ->
  lengthSizeFor n = ls.
Proof.
  intros Hls Hn.
  assert (256 ^ Z.of_nat ls <= 256 ^ 8) as U by (apply Z.pow_le_mono_r; lia).
  assert (0 < 256 ^ (Z.of_nat ls - 1)) as P by (apply Z.pow_pos_nonneg; lia).
  change (256 ^ 8) with (2 ^ 64) in U.
  destruct (lengthSizeFor_bounds n) as [R B]; [lia|].
  destruct (Nat.lt_trichotomy (lengthSizeFor n) ls) as [H|[H|H]]; [|done|].
  - assert (256 ^ Z.of_nat (lengthSizeFor n) <= 256 ^ (Z.of_nat ls - 1))
      by (apply Z.pow_le_mono_r; lia). lia.
  - assert (256 ^ Z.of_nat ls <= 256 ^ (Z.of_nat (lengthSizeFor n) - 1))
      by (apply Z.pow_le_mono_r; lia). lia.
Qed.

Lemma Validate_Ok k :
  Validate k = Ok tt ->
  0 <= Type_ k < 5 /\ Z.land (u8 (kat k 0)) 8 = 0 /\ lengthSizeFor (Length k) = LengthSize k.
Proof.
  unfold Validate. intros H.
  destruct (Z.land (u8 (kat k 0)) 8 =? 0) eqn:E1; [|done].
  destruct (IsValid (Type_ k)) eqn:E2; [|done]. cbn [negb] in H.
  assert (0 <= Type_ k) as T by (apply Z.shiftr_nonneg; apply u8_range).
  split; [by apply IsValid_range|]. split; [by apply Z.eqb_eq|].
  pose proof (LengthSize_range k) as R.
  destruct (u8 (kat k 1) =? 0) eqn:E3; cbn [andb] in H.
  - destruct (LengthSize k =? 1)%nat eqn:E4; [|done].
    destruct (Length k =? 0) eqn:E5; [|done]. by apply Z.eqb_eq in E5 as ->; apply Nat.eqb_eq in E4 as ->.
  - apply lengthSizeFor_unique; [done|]. rewrite Length_slice.
    pose proof (slice_len k) as L. unfold kat, byte_at in E3.
    unfold slice in *. destruct (b32_bytes k) as [|x0 [|x1 l]] eqn:Ek;
      [by pose proof (b32_length k) as N; rewrite Ek in N..|].
    replace (1 + LengthSize k - 1)%nat with (S (LengthSize k - 1)) in * by lia.
    cbn [drop take nth length] in *. rewrite be_get_cons.
    set (m := take (LengthSize k - 1) l) in *.
    pose proof (be_get_range m) as B. unfold zlen in *.
    replace (Z.of_nat (length m)) with (Z.of_nat (LengthSize k) - 1) in * by lia.
    replace (256 ^ Z.of_nat (LengthSize k)) with (256 * 256 ^ (Z.of_nat (LengthSize k) - 1))
      by (rewrite <- Z.pow_succ_r by lia; f_equal; lia).
    pose proof (u8_range x1). apply Z.eqb_neq in E3. nia.
Qed.

Lemma Validate_layout k :
  Validate k = Ok tt -> b32_bytes k = key_layout (Type_ k) (Length k) (Hash k).
Proof.
  intros (Ht & Hr & Hls)%Validate_Ok. rewrite (b32_split k) at 1. unfold key_layout.
  rewrite Hls. f_equal.
  - rewrite <- (header_join (kat k 0)) at 1 by done. unfold Type_, LengthSize.
    pose proof (land7_range (kat k 0)). f_equal. f_equal. lia.
  - f_equal. rewrite Length_slice.
    rewrite <- (be_put_get (slice 1 (1 + LengthSize k) (b32_bytes k))) at 1. by rewrite slice_len.
Qed.

Lemma Validate_cases k : Validate k = Ok tt \/ exists e, Validate k = Err e.
Proof. unfold Validate. repeat case_match; eauto. Qed.

Lemma Parse_Ok b k : Parse b = Ok k <-> b = b32_bytes k /\ Validate k = Ok tt.
Proof.
  unfold Parse, Size. destruct (Nat.eqb_spec (length b) 32) as [E|E]; cbn [negb]; split.
  - intros (u & Hu & [= <-])%res_bind_Ok. destruct u. split; [|done]. symmetry. by apply mk32_bytes.
  - intros [-> Hv]. rewrite mk32_b32, Hv. done.
  - done.
  - intros [-> _]. by rewrite b32_length in E.
Qed.

Lemma Parse_bytes k : Validate k = Ok tt -> Parse (b32_bytes k) = Ok k.
Proof. intros. by apply Parse_Ok. Qed.

Lemma NewFromHash_fields t len h k :
  0 <= t -> 0 <= len < 2 ^ 64 -> NewFromHash t len h = Ok k ->
  Validate k = Ok tt /\ Type_ k = t /\ Length k = len /\
  Hash k = take (31 - lengthSizeFor len) (b32_bytes h).
Proof.
  intros Ht Hlen (Hv & Hk)%NewFromHash_layout; [|done].
  pose proof (IsValid_range t Ht Hv). repeat split.
  - by eapply layout_Validate. - by eapply layout_Type.
  - by eapply layout_Length. - by eapply layout_Hash.
Qed.

Lemma NewFromHash_total t len h : IsValid t = true -> is_ok (NewFromHash t len h) = true.
Proof. intros H. unfold NewFromHash. by rewrite H. Qed.

Lemma NewFromHash_refields k h :
  Validate k = Ok tt -> take (length (Hash k)) (b32_bytes h) = Hash k ->
  NewFromHash (Type_ k) (Length k) h = Ok k.
Proof.
  intros Hv Hh. destruct (Validate_Ok k Hv) as (Ht & _ & Hls).
  pose proof (Length_range k) as HL.
  destruct (NewFromHash (Type_ k) (Length k) h) as [k'|e] eqn:E.
  - f_equal. apply b32_eq. apply NewFromHash_layout in E as [_ ->]; [|done].
    rewrite (Validate_layout k Hv). f_equal. rewrite <- Hh. f_equal.
    unfold Hash. rewrite length_drop, b32_length, Hls. lia.
  - pose proof (NewFromHash_total (Type_ k) (Length k) h) as T.
    unfold IsValid, XattrSet in T. rewrite E in T. by discriminate T; lia.
Qed.

Lemma key_ext k1 k2 :
  Validate k1 = Ok tt -> Validate k2 = Ok tt ->
  Type_ k1 = Type_ k2 -> Length k1 = Length k2 -> Hash k1 = Hash k2 -> k1 = k2.
Proof.
  intros H1%Validate_layout H2%Validate_layout E1 E2 E3.
  apply b32_eq. by rewrite H1, H2, E1, E2, E3.
Qed.

Lemma New_fields `{Blake3} t len s k :
  0 <= t -> 0 <= len < 2 ^ 64 -> New t len s = Ok k ->
  Validate k = Ok tt /\ Type_ k = t /\ Length k = len.
Proof. intros Ht Hl E. by destruct (NewFromHash_fields _ _ _ _ Ht Hl E) as (? & ? & ? & _). Qed.

#[export] Hint Resolve Length_range LengthSize_range : amber.

(** * Properties *)

(** A key built by [NewFromHash] (from a type byte and a 64-bit length) is canonical,
    and its accessors return exactly the fields it was built from: the type, the length and
    the digest truncated to the bytes the header and the length leave. *)
Theorem NewFromHash_correct t len h k :
  0 <= t -> 0 <= len < 2 ^ 64 -> NewFromHash t len h = Ok k ->
  Validate k = Ok tt /\ Type_ k = t /\ Length k = len /\
  Hash k = take (31 - lengthSizeFor len) (b32_bytes h).
Proof. apply NewFromHash_fields. Qed.

Definition key_300 : Key :=
  mk32 ([x11; x01; x2c] ++ replicate 29 xaa).
Lemma NewFromHash_correct_witness :
  Validate key_300 = Ok tt /\ Type_ key_300 = FileNode /\ Length key_300 = 300 /\
  Hash key_300 = replicate 29 xaa.
Proof.
  apply (NewFromHash_correct FileNode 300 (mk32 (replicate 32 xaa)) key_300).
  - done.
  - done.
  - reflexivity.
Defined.

(** C40. Canonical encoding is unique and total on canonical keys: a key that passes
    [Validate] is what [NewFromHash] builds from its own type, length and hash, so the
    fields determine the 32 bytes, and [Parse] accepts exactly those bytes. *)
Theorem canonical_key_unique k :
  Validate k = Ok tt ->
  NewFromHash (Type_ k) (Length k) (mk32 (Hash k)) = Ok k /\
  (forall b, Parse b = Ok k <-> b = b32_bytes k) /\
  (forall k', Validate k' = Ok tt -> Type_ k' = Type_ k -> Length k' = Length k ->
     Hash k' = Hash k -> k' = k).
Proof.
  intros Hv. split; [|split].
  - apply NewFromHash_refields; [done|]. cbn [b32_bytes mk32]. rewrite take_take, Nat.min_l.
    + by rewrite take_app_length.
    + unfold Hash. rewrite length_drop, b32_length. lia.
  - intros b. rewrite Parse_Ok. naive_solver.
  - intros k' Hv' ???. by apply key_ext.
Qed.

Lemma canonical_key_unique_witness :
  Validate key_300 = Ok tt /\
  NewFromHash (Type_ key_300) (Length key_300) (mk32 (Hash key_300)) = Ok key_300.
Proof.
  assert (Validate key_300 = Ok tt) as H by done.
  split; [exact H|]. exact (proj1 (canonical_key_unique key_300 H)).
Defined.
