(* ===== verification/Crc32.v ===== *)
(** The part of Go's [hash/crc32] the program uses: the table-driven CRC-32C
    update, with the two injectivity facts that make a one-byte change visible. *)
From S2P Require Import Prelude.

(** [crc32.MakeTable(crc32.Castagnoli)]: eight shift-and-reduce steps per entry. *)
Definition poly : Z := 0x82f63b78.
Definition table_bit (c : Z) : Z :=
  if Z.odd c then Z.lxor (Z.shiftr c 1) poly else Z.shiftr c 1.
Definition table_entry (i : Z) : Z := Nat.iter 8 table_bit i.
Definition crc_mask : Z := 0xffffffff.

Definition crc_step (c : Z) (v : byte) : Z :=
  Z.lxor (table_entry (Z.land (Z.lxor c (u8 v)) 255)) (Z.shiftr c 8).

(** [crc32.Update(crc, castagnoli, p)] and [crc32.Checksum(p, castagnoli)]. *)
Definition crc_update (c : Z) (p : bytes) : Z :=
  Z.lxor (fold_left crc_step p (Z.lxor c crc_mask)) crc_mask.
Definition crc_checksum (p : bytes) : Z := crc_update 0 p.

(** The check value of CRC-32C: the digest of "123456789". *)
Example crc_check_value :
  crc_checksum [x31; x32; x33; x34; x35; x36; x37; x38; x39] = 0xe3069283.
Proof. reflexivity. Qed.

Lemma crc_update_app c p1 p2 : crc_update (crc_update c p1) p2 = crc_update c (p1 ++ p2).
Proof.
  unfold crc_update. rewrite fold_left_app, Z.lxor_assoc, Z.lxor_nilpotent, Z.lxor_0_r. done.
Qed.

(** ** 32-bit range *)

Definition is32 (x : Z) : Prop := 0 <= x < 2 ^ 32.

Lemma is32_shiftr x : is32 x <-> Z.shiftr x 32 = 0.
Proof.
  unfold is32. rewrite Z.shiftr_div_pow2 by lia. rewrite Z.div_small_iff by lia. lia.
Qed.
Lemma is32_lxor x y : is32 x -> is32 y -> is32 (Z.lxor x y).
Proof. rewrite !is32_shiftr, Z.shiftr_lxor. intros -> ->. done. Qed.
Lemma is32_shiftr8 x : is32 x -> is32 (Z.shiftr x 8).
Proof.
  unfold is32. rewrite Z.shiftr_div_pow2 by lia. intros.
  split; [apply Z.div_pos; lia|]. apply Z.div_lt_upper_bound; lia.
Qed.

Definition table_index (i : Z) : Prop := 0 <= i < 256.

Lemma index_land x : table_index (Z.land x 255).
Proof.
  unfold table_index. change 255 with (Z.ones 8). rewrite Z.land_ones by lia.
  apply Z.mod_pos_bound. lia.
Qed.

Lemma table_entry_32 i : table_index i -> is32 (table_entry i).
Proof.
  intros Hi. apply is32_shiftr.
  pose proof (forallb_range (fun i => Z.shiftr (table_entry i) 32 =? 0) 256 ltac:(by vm_compute) i Hi).
  by apply Z.eqb_eq.
Qed.

(** An entry's top byte determines its index: run the eight steps backwards. *)
Definition untable_bit (c : Z) : Z :=
  if Z.testbit c 31 then Z.lor (Z.shiftl (Z.lxor c poly) 1) 1 else Z.shiftl c 1.
Definition untable (top : Z) : Z := Z.land (Nat.iter 8 untable_bit (Z.shiftl top 24)) 255.

Lemma untable_entry i : table_index i -> untable (Z.shiftr (table_entry i) 24) = i.
Proof.
  intros Hi. apply Z.eqb_eq.
  exact (forallb_range (fun i => untable (Z.shiftr (table_entry i) 24) =? i) 256
    ltac:(by vm_compute) i Hi).
Qed.

Lemma table_top_inj i j :
  table_index i -> table_index j ->
  Z.shiftr (table_entry i) 24 = Z.shiftr (table_entry j) 24 -> i = j.
Proof. intros Hi Hj E. rewrite <- (untable_entry i Hi), E. by apply untable_entry. Qed.

Lemma crc_step_32 c v : is32 c -> is32 (crc_step c v).
Proof.
  intros. unfold crc_step. apply is32_lxor; [|by apply is32_shiftr8].
  apply table_entry_32, index_land.
Qed.

Lemma crc_fold_32 p c : is32 c -> is32 (fold_left crc_step p c).
Proof. revert c. induction p; simpl; auto using crc_step_32. Qed.

Lemma crc_update_32 c p : is32 c -> is32 (crc_update c p).
Proof.
  intros. assert (is32 crc_mask) by (unfold is32, crc_mask; lia).
  unfold crc_update. auto using is32_lxor, crc_fold_32.
Qed.

Lemma crc_checksum_32 p : is32 (crc_checksum p).
Proof. apply crc_update_32. unfold is32. lia. Qed.

(** ** Injectivity *)

Lemma lxor_cancel_r x y z : Z.lxor x z = Z.lxor y z -> x = y.
Proof.
  intros H. apply (f_equal (fun a => Z.lxor a z)) in H.
  by rewrite !Z.lxor_assoc, Z.lxor_nilpotent, !Z.lxor_0_r in H.
Qed.

Lemma land_lxor_distr_r x y z : Z.land (Z.lxor x y) z = Z.lxor (Z.land x z) (Z.land y z).
Proof.
  apply Z.bits_inj'. intros n _. rewrite !Z.land_spec, !Z.lxor_spec, !Z.land_spec.
  by destruct (Z.testbit x n), (Z.testbit y n), (Z.testbit z n).
Qed.

Lemma shiftr24_8 c : is32 c -> Z.shiftr (Z.shiftr c 8) 24 = 0.
Proof. intros. rewrite Z.shiftr_shiftr by lia. by apply is32_shiftr. Qed.

Lemma step_index_inj c1 c2 v1 v2 :
  is32 c1 -> is32 c2 -> crc_step c1 v1 = crc_step c2 v2 ->
  Z.land (Z.lxor c1 (u8 v1)) 255 = Z.land (Z.lxor c2 (u8 v2)) 255 /\
  Z.shiftr c1 8 = Z.shiftr c2 8.
Proof.
  intros H1 H2 E. unfold crc_step in E.
  assert (Z.land (Z.lxor c1 (u8 v1)) 255 = Z.land (Z.lxor c2 (u8 v2)) 255) as I.
  { apply table_top_inj; [apply index_land..|].
    apply (f_equal (fun x => Z.shiftr x 24)) in E.
    rewrite !Z.shiftr_lxor, !shiftr24_8, !Z.lxor_0_r in E by done. done. }
  split; [done|]. rewrite I, !(Z.lxor_comm (table_entry _)) in E. by apply lxor_cancel_r in E.
Qed.

Lemma crc_step_inj_byte c v1 v2 : is32 c -> crc_step c v1 = crc_step c v2 -> v1 = v2.
Proof.
  intros H E. apply step_index_inj in E as [E _]; [|done..].
  rewrite !land_lxor_distr_r in E.
  rewrite !(Z.lxor_comm (Z.land c 255)) in E. apply lxor_cancel_r in E.
  change 255 with (Z.ones 8) in E. rewrite !Z.land_ones in E by lia.
  pose proof (u8_range v1). pose proof (u8_range v2).
  rewrite !Z.mod_small in E by lia. by apply u8_inj.
Qed.

Lemma crc_step_inj_state c1 c2 v : is32 c1 -> is32 c2 -> crc_step c1 v = crc_step c2 v -> c1 = c2.
Proof.
  intros H1 H2 E. apply step_index_inj in E as [E1 E2]; [|done..].
  rewrite !land_lxor_distr_r in E1. apply lxor_cancel_r in E1.
  change 255 with (Z.ones 8) in E1. rewrite !Z.land_ones in E1 by lia.
  rewrite !Z.shiftr_div_pow2 in E2 by lia.
  rewrite (Z.div_mod c1 (2 ^ 8)), (Z.div_mod c2 (2 ^ 8)) by lia. congruence.
Qed.

Lemma crc_fold_inj p c1 c2 :
  is32 c1 -> is32 c2 -> fold_left crc_step p c1 = fold_left crc_step p c2 -> c1 = c2.
Proof.
  revert c1 c2. induction p as [|v p IH]; intros c1 c2 H1 H2 E; [done|].
  cbn [fold_left] in E. apply IH in E; auto using crc_step_32.
  by eapply crc_step_inj_state.
Qed.

Lemma crc_update_inj p c1 c2 :
  is32 c1 -> is32 c2 -> crc_update c1 p = crc_update c2 p -> c1 = c2.
Proof.
  intros H1 H2 E. unfold crc_update in E. apply lxor_cancel_r, crc_fold_inj in E.
  - by apply lxor_cancel_r in E.
  - by apply is32_lxor.
  - by apply is32_lxor.
Qed.

Lemma is32_mask : is32 crc_mask.
Proof. unfold is32, crc_mask. lia. Qed.

Lemma crc_checksum_split p v q :
  crc_checksum (p ++ v :: q) =
  Z.lxor (fold_left crc_step q (crc_step (fold_left crc_step p crc_mask) v)) crc_mask.
Proof. unfold crc_checksum, crc_update. by rewrite fold_left_app, Z.lxor_0_l. Qed.

(** A change of exactly one byte changes the checksum. *)
Lemma crc_one_byte p (v1 v2 : byte) q :
  v1 <> v2 -> crc_checksum (p ++ v1 :: q) <> crc_checksum (p ++ v2 :: q).
Proof.
  intros Hv E. apply Hv. clear Hv. rewrite !crc_checksum_split in E.
  apply lxor_cancel_r in E.
  pose proof (crc_fold_32 p crc_mask is32_mask) as Hc.
  apply crc_fold_inj in E; [|by apply crc_step_32..]. by eapply crc_step_inj_byte.
Qed.

#[export] Hint Resolve crc_checksum_32 crc_update_32 : amber.
#[global] Opaque crc_checksum.
