(* ===== verification/Record.v ===== *)
(** The record codec (src/amberpack/record.go): a 46-byte header - tag, key,
    flags, two lengths, CRC-32C - and a payload stored raw or as a zstd frame.
    The zstd coders are the interface [Zstd] with the laws [ZstdOk]. *)
From S2P Require Import Prelude External Concrete Key Crc32.

Definition RecHeaderSize : nat := 46.
Definition tagChunk : byte := x01.
Definition flagZstd : byte := x01.
Definition MaxPayload : Z := Z.shiftl 256 20.

(** [type Record struct]. *)
Record RecordHdr := MkRecord { RKey : Key; RFlags : byte; RUlen : Z; RSlen : Z }.

Definition payloadFits (n : Z) : bool := n <=? MaxPayload.

(** The 42 bytes in front of the CRC field. *)
Definition rec_head (k : Key) (flags : byte) (ulen slen : Z) : bytes :=
  tagChunk :: b32_bytes k ++ flags :: be_put 4 ulen ++ be_put 4 slen.
(** The whole record; the checksum runs over it with the CRC field zero. *)
Definition rec_bytes (k : Key) (flags : byte) (ulen : Z) (payload : bytes) : bytes :=
  let head := rec_head k flags ulen (zlen payload) in
  head ++ be_put 4 (crc_checksum (head ++ be_put 4 0 ++ payload)) ++ payload.

Definition EncodeRecord `{Zstd} (k : Key) (data : bytes) : res bytes :=
  if negb (payloadFits (zlen data)) then Err [EMsg "amberpack: object too large"]
  else
    let comp := EncodeAll data in
    if zlen comp <? zlen data then Ok (rec_bytes k flagZstd (zlen data) comp)
    else Ok (rec_bytes k x00 (zlen data) data).

(** [flags &^ flagZstd] and [flags & flagZstd]. *)
Definition flags_unknown (f : byte) : Z := Z.ldiff (u8 f) (u8 flagZstd).
Definition flags_zstd (f : byte) : bool := negb (Z.land (u8 f) (u8 flagZstd) =? 0).

Definition ParseRecord (b : bytes) : res RecordHdr :=
  if (length b <? RecHeaderSize)%nat then Err [ErrCorrupt]
  else if negb (bool_decide (byte_at b 0 = tagChunk)) then Err [ErrCorrupt]
  else
    let flags := byte_at b 33 in
    if negb (flags_unknown flags =? 0) then Err [ErrCorrupt]
    else
      let ulen := be_get (slice 34 38 b) in
      let slen := be_get (slice 38 42 b) in
      if zlen b <? Z.of_nat RecHeaderSize + slen then Err [ErrCorrupt]
      else if negb (flags_zstd flags) && negb (ulen =? slen) then Err [ErrCorrupt]
      else if MaxPayload <? ulen then Err [ErrCorrupt]
      else if flags_zstd flags && (ulen <=? slen) then Err [ErrCorrupt]
      else
        let c := crc_update 0 (take 42 b) in
        let c := crc_update c (replicate 4 x00) in
        let c := crc_update c (slice RecHeaderSize (RecHeaderSize + Z.to_nat slen) b) in
        if negb (c =? be_get (slice 42 46 b)) then Err [ErrCorrupt]
        else
          k ← reerr ErrCorrupt (Parse (slice 1 33 b));
          Ok (MkRecord k flags ulen slen).

Definition DecodePayload `{Zstd} (flags : byte) (ulen : Z) (stored : bytes) : res bytes :=
  if negb (flags_zstd flags) then Ok stored
  else match DecodeAll stored ulen with
       | None => Err [ErrCorrupt]
       | Some out => if negb (u32 (zlen out) =? ulen) then Err [ErrCorrupt] else Ok out
       end.

(** * Layout of a record *)

Lemma length_rec_head k f u s : length (rec_head k f u s) = 42%nat.
Proof.
  unfold rec_head. cbn [length]. rewrite length_app. cbn [length].
  by rewrite length_app, !length_be_put, b32_length.
Qed.

Lemma length_rec_bytes k f u p : length (rec_bytes k f u p) = (RecHeaderSize + length p)%nat.
Proof.
  unfold rec_bytes. rewrite !length_app, length_be_put, length_rec_head. unfold RecHeaderSize. lia.
Qed.

(** The CRC the parser recomputes over a well-formed record with anything behind it. *)
Definition rec_crc (b : bytes) (slen : Z) : Z :=
  crc_checksum (take 42 b ++ replicate 4 x00 ++
                slice RecHeaderSize (RecHeaderSize + Z.to_nat slen) b).

Lemma rec_crc_updates b slen :
  crc_update (crc_update (crc_update 0 (take 42 b)) (replicate 4 x00))
    (slice RecHeaderSize (RecHeaderSize + Z.to_nat slen) b) = rec_crc b slen.
Proof. by rewrite !crc_update_app, <- ?app_assoc. Qed.

(** What [ParseRecord] has established when it accepts. *)
Record parsed (b : bytes) (r : RecordHdr) : Prop := {
    pr_len : (RecHeaderSize + Z.to_nat (RSlen r) <= length b)%nat;
    pr_tag : byte_at b 0 = tagChunk;
    pr_flags : RFlags r = byte_at b 33;
    pr_known : flags_unknown (RFlags r) = 0;
    pr_ulen : RUlen r = be_get (slice 34 38 b);
    pr_slen : RSlen r = be_get (slice 38 42 b);
    pr_raw : flags_zstd (RFlags r) = false -> RUlen r = RSlen r;
    pr_zstd : flags_zstd (RFlags r) = true -> RSlen r < RUlen r;
    pr_max : RUlen r <= MaxPayload;
    pr_crc : rec_crc b (RSlen r) = be_get (slice 42 46 b);
    pr_key : Parse (slice 1 33 b) = Ok (RKey r)
  }.

Lemma ParseRecord_Ok b r : ParseRecord b = Ok r <-> parsed b r.
Proof.
  unfold ParseRecord. rewrite rec_crc_updates. cbv zeta. split.
  - intros H. repeat (guard_in H; [done|]).
    destruct (Parse (slice 1 33 b)) as [k|] eqn:EP; [|done].
    injection H as <-. pose proof (be_get_range (slice 38 42 b)).
    apply Nat.ltb_ge in E. apply negb_false_iff in E0, E1, E6.
    apply bool_decide_eq_true in E0. apply andb_false_iff in E3, E5.
    unfold zlen in *.
    constructor; cbn [RKey RFlags RUlen RSlen]; try done; try lia.
    + intros Hf. rewrite Hf in E3. destruct E3 as [|E3]; [done|].
      apply negb_false_iff in E3. lia.
    + intros Hf. rewrite Hf in E5. destruct E5; [done|lia].
  - intros [L T F K U S R Z X C P].
    rewrite (proj2 (Nat.ltb_ge _ _)) by (unfold RecHeaderSize in *; lia).
    rewrite (bool_decide_eq_true_2 _ T), <- F, K. cbn [negb Z.eqb].
    rewrite <- U, <- S. pose proof (be_get_range (slice 38 42 b)) as SR. rewrite <- S in SR.
    rewrite (proj2 (Z.ltb_ge _ _)) by (unfold zlen; lia).
    rewrite (proj2 (Z.ltb_ge MaxPayload _)) by lia.
    assert (negb (flags_zstd (RFlags r)) && negb (RUlen r =? RSlen r) = false) as ->.
    { destruct (flags_zstd (RFlags r)) eqn:Ef; [done|]. rewrite R by done. by rewrite Z.eqb_refl. }
    assert (flags_zstd (RFlags r) && (RUlen r <=? RSlen r) = false) as ->.
    { destruct (flags_zstd (RFlags r)) eqn:Ef; [|done]. specialize (Z eq_refl). lia. }
    rewrite C, Z.eqb_refl. cbn [negb]. rewrite P. by destruct r.
Qed.

Lemma ParseRecord_Err b e : ParseRecord b = Err e -> e = [ErrCorrupt].
Proof.
  unfold ParseRecord. cbv zeta. intros H. repeat (guard_in H; [congruence|]).
  destruct (Parse (slice 1 33 b)); [done|]. unfold reerr in H. simpl in H. congruence.
Qed.

(** Only the [RecHeaderSize + slen] first bytes matter. *)
Lemma parsed_app b r rest : parsed b r -> parsed (b ++ rest) r.
Proof.
  intros [L T F K U S R Z X C P]. unfold RecHeaderSize in *.
  pose proof (be_get_range (slice 38 42 b)).
  constructor; rewrite ?byte_at_app_l, ?slice_prefix by lia; try done.
  - rewrite length_app. unfold RecHeaderSize. lia.
  - rewrite <- C. unfold rec_crc, RecHeaderSize. rewrite slice_prefix, take_app_le by lia. done.
Qed.

(** ** The encoder's output parses *)

Section Built.
Context (k : Key) (f : byte) (u : Z) (p : bytes).
Hypothesis Hk : Validate k = Ok tt.
Hypothesis Hf : flags_unknown f = 0.
Hypothesis Hraw : flags_zstd f = false -> u = zlen p.
Hypothesis Hz : flags_zstd f = true -> zlen p < u.
Hypothesis Hu : 0 <= u <= MaxPayload.

Let b := rec_bytes k f u p.

Lemma built_bound : 0 <= zlen p < 2 ^ 32 /\ 0 <= u < 2 ^ 32.
Proof.
  assert (MaxPayload < 2 ^ 32) by done. pose proof (zlen_nonneg p).
  destruct (flags_zstd f) eqn:E; [specialize (Hz eq_refl)|specialize (Hraw eq_refl)]; lia.
Qed.

Lemma built_parsed : parsed b (MkRecord k f u (zlen p)).
Proof.
  destruct built_bound as [Bp Bu].
  assert (b = [tagChunk] ++ b32_bytes k ++ [f] ++ be_put 4 u ++ be_put 4 (zlen p) ++
  be_put 4 (crc_checksum (rec_head k f u (zlen p) ++ be_put 4 0 ++ p)) ++ p) as Eb.
  { unfold b, rec_bytes, rec_head. cbn [app]. by rewrite <- !app_assoc. }
  pose proof (b32_length k) as Lk.
  assert (slice 34 38 b = be_put 4 u) as SU.
  { rewrite Eb, 2!app_assoc.
    apply slice_app_mid; rewrite ?length_app, ?length_be_put, ?Lk; done. }
  assert (slice 38 42 b = be_put 4 (zlen p)) as SS.
  { rewrite Eb, 3!app_assoc.
    apply slice_app_mid; rewrite ?length_app, ?length_be_put, ?Lk; done. }
  assert (slice 42 46 b = be_put 4 (crc_checksum (rec_head k f u (zlen p) ++ be_put 4 0 ++ p))) as SC.
  { unfold b, rec_bytes. apply slice_app_mid; rewrite ?length_rec_head, ?length_be_put; done. }
  assert (slice RecHeaderSize (RecHeaderSize + length p) b = p) as SP.
  { unfold b, rec_bytes. rewrite app_assoc.
    apply slice_app_end; rewrite ?length_app, ?length_rec_head, ?length_be_put; done. }
  assert (slice 1 33 b = b32_bytes k) as SK.
  { rewrite Eb. apply slice_app_mid; rewrite ?Lk; done. }
  constructor; cbn [RKey RFlags RUlen RSlen]; try done; try lia.
  - unfold b. rewrite length_rec_bytes. unfold zlen. lia.
  - unfold byte_at. rewrite Eb. cbn [app nth]. rewrite app_nth2 by lia. by rewrite Lk.
  - rewrite SU, be_get_put. by rewrite Z.mod_small.
  - rewrite SS, be_get_put. by rewrite Z.mod_small.
  - rewrite SC, be_get_put. unfold rec_crc.
    replace (Z.to_nat (zlen p)) with (length p) by (unfold zlen; lia). rewrite SP.
    unfold b, rec_bytes. rewrite take_app_le, take_ge by (rewrite length_rec_head; lia).
    rewrite Z.mod_small; [done|]. apply crc_checksum_32.
  - rewrite SK. by apply Parse_bytes.
Qed.

Lemma built_payload rest :
  slice RecHeaderSize (RecHeaderSize + Z.to_nat (zlen p)) (b ++ rest) = p.
Proof.
  unfold b, rec_bytes. rewrite <- !app_assoc. rewrite (app_assoc (rec_head _ _ _ _)).
  apply slice_app_mid; rewrite ?length_app, ?length_rec_head, ?length_be_put; [done|].
  unfold zlen. lia.
Qed.
End Built.

Section Codec.
Context `{Zstd, !ZstdOk}.

(** The three facts every client of the encoder uses. *)
Lemma EncodeRecord_shape k data rec :
  EncodeRecord k data = Ok rec ->
  exists f p, rec = rec_bytes k f (zlen data) p /\ flags_unknown f = 0 /\
  (flags_zstd f = false -> zlen data = zlen p) /\
  (flags_zstd f = true -> zlen p < zlen data) /\
  0 <= zlen data <= MaxPayload /\
  DecodePayload f (zlen data) p = Ok data.
Proof using All.
  unfold EncodeRecord. intros H1.
  destruct (payloadFits (zlen data)) eqn:E; cbn [negb] in H1; [|done].
  unfold payloadFits in E. pose proof (zlen_nonneg data).
  destruct (Z.ltb_spec (zlen (EncodeAll data)) (zlen data)); injection H1 as <-.
  - exists flagZstd, (EncodeAll data). repeat (split; [done || lia|]).
    unfold DecodePayload. cbn [flags_zstd negb].
    rewrite zstd_roundtrip by (unfold MaxPayload in *; change (Z.shiftl 256 20) with (2 ^ 28) in *; lia).
    assert (MaxPayload < 2 ^ 32) by done.
    unfold u32. rewrite Z.mod_small by lia. by rewrite Z.eqb_refl.
  - exists x00, data. repeat (split; [done || lia|]). done.
Qed.

Lemma EncodeRecord_parsed k data rec :
  Validate k = Ok tt -> EncodeRecord k data = Ok rec ->
  exists r, parsed rec r /\ RKey r = k /\ RUlen r = zlen data /\
  length rec = (RecHeaderSize + Z.to_nat (RSlen r))%nat /\
  DecodePayload (RFlags r) (RUlen r) (drop RecHeaderSize rec) = Ok data.
Proof using All.
  intros Hk (f & p & -> & Hf & Hr & Hz & Hu & Hd)%EncodeRecord_shape.
  exists (MkRecord k f (zlen data) (zlen p)). split; [by apply built_parsed|].
  split; [done|]. split; [done|]. cbn [RSlen RFlags RUlen]. split.
  - rewrite length_rec_bytes. unfold zlen. lia.
  - pose proof (built_payload k f (zlen data) p []) as BP. rewrite app_nil_r in BP.
    unfold slice in BP. rewrite take_ge in BP; [by rewrite BP|].
    rewrite length_drop, length_rec_bytes. unfold zlen. lia.
Qed.
End Codec.

(** ** One corrupted byte *)

Lemma crc_insert l i (v x : byte) :
  l !! i = Some v -> x <> v -> crc_checksum (<[i:=x]> l) <> crc_checksum l.
Proof.
  intros Hi Hx. rewrite <- (take_drop_middle l i v Hi) at 2.
  rewrite insert_take_drop by (by eapply lookup_lt_Some).
  by apply crc_one_byte.
Qed.

Lemma slice_insert_out {A} (l : list A) i j n (x : A) :
  (n < i \/ j <= n)%nat -> slice i j (<[n:=x]> l) = slice i j l.
Proof.
  intros Hn. unfold slice. destruct Hn.
  - by rewrite drop_insert_lt by lia.
  - destruct (decide (n < i)%nat); [by rewrite drop_insert_lt by lia|].
    rewrite drop_insert_ge, take_insert_ge by lia. done.
Qed.

Definition rec_window (b : bytes) (slen : Z) : bytes :=
  take 42 b ++ replicate 4 x00 ++ slice RecHeaderSize (RecHeaderSize + Z.to_nat slen) b.

Lemma rec_window_insert b slen i x :
  (RecHeaderSize + Z.to_nat slen <= length b)%nat ->
  (i < RecHeaderSize + Z.to_nat slen)%nat -> ~ (42 <= i < 46)%nat ->
  rec_window (<[i:=x]> b) slen = <[i:=x]> (rec_window b slen) /\
  rec_window b slen !! i = b !! i.
Proof.
  unfold rec_window, RecHeaderSize, slice. intros L Hi Hn.
  assert (length (take 42 b) = 42%nat) as L42 by (rewrite length_take; lia).
  destruct (decide (i < 42)%nat).
  - rewrite drop_insert_lt, take_insert_lt by lia. split.
    + by rewrite insert_app_l by lia.
    + rewrite lookup_app_l by lia. by apply lookup_take_lt.
  - rewrite (take_insert_ge b), (drop_insert_ge b) by lia. split.
    + rewrite insert_app_r_alt, insert_app_r_alt by (rewrite ?L42, ?length_replicate; lia).
      rewrite L42, length_replicate, take_insert_lt by lia.
      by replace (i - 42 - 4)%nat with (i - 46)%nat by lia.
    + rewrite lookup_app_r, lookup_app_r by (rewrite ?L42, ?length_replicate; lia).
      rewrite L42, length_replicate, lookup_take_lt, lookup_drop by lia. f_equal. lia.
Qed.

Lemma one_byte_rejected b r i x :
  parsed b r -> (i < RecHeaderSize + Z.to_nat (RSlen r))%nat -> ~ (38 <= i < 42)%nat ->
  x <> byte_at b i -> ParseRecord (<[i:=x]> b) = Err [ErrCorrupt].
Proof.
  intros P Hi Hn Hx.
  destruct (ParseRecord (<[i:=x]> b)) as [r'|e] eqn:E; [exfalso|by rewrite (ParseRecord_Err _ _ E)].
  apply ParseRecord_Ok in E.
  assert (b !! i = Some (byte_at b i)) as Hl.
  { pose proof (pr_len _ _ P). destruct (lookup_lt_is_Some_2 b i) as [v Hv]; [lia|].
    rewrite Hv. f_equal. symmetry. by apply nth_lookup_Some. }
  assert (RSlen r' = RSlen r) as ES.
  { rewrite (pr_slen _ _ P), (pr_slen _ _ E). by rewrite slice_insert_out by lia. }
  pose proof (pr_crc _ _ P) as C. pose proof (pr_crc _ _ E) as C'. rewrite ES in C'.
  unfold rec_crc in C, C'.
  change (crc_checksum (rec_window b (RSlen r)) = be_get (slice 42 46 b)) in C.
  change (crc_checksum (rec_window (<[i:=x]> b) (RSlen r)) =
          be_get (slice 42 46 (<[i:=x]> b))) in C'.
  pose proof (pr_len _ _ P) as L. unfold RecHeaderSize in *.
  destruct (decide (42 <= i < 46)%nat) as [Hc|Hc].
  - assert (rec_window (<[i:=x]> b) (RSlen r) = rec_window b (RSlen r)) as EW.
    { unfold rec_window, RecHeaderSize. rewrite take_insert_ge, slice_insert_out by lia. done. }
    rewrite EW, C in C'. apply be_get_inj in C'.
    + apply Hx. apply (f_equal (fun l => l !! (i - 42)%nat)) in C'. unfold slice in C'.
      rewrite !lookup_take_lt, !lookup_drop in C' by lia.
      replace (42 + (i - 42))%nat with i in C' by lia.
      rewrite list_lookup_insert_eq, Hl in C' by lia. congruence.
    + rewrite !length_slice; rewrite ?length_insert; lia.
  - destruct (rec_window_insert b (RSlen r) i x) as [EW EL]; [done..|].
    rewrite EW, slice_insert_out, <- C in C' by lia.
    by eapply crc_insert; [rewrite EL|..].
Qed.

#[export] Hint Resolve ParseRecord_Err : amber.

(** * Properties *)

(** Record round trip: an object under a canonical key within the size limit always
    encodes, and what [EncodeRecord] wrote - compressed or raw, with anything behind it in the
    buffer - is accepted by [ParseRecord], which returns the key, the payload length and a
    stored length such that [DecodePayload] of the stored bytes gives the object back. *)
Theorem record_roundtrip `{Zstd, !ZstdOk} k data rest :
  Validate k = Ok tt -> zlen data <= MaxPayload ->
  exists rec r, EncodeRecord k data = Ok rec /\ ParseRecord (rec ++ rest) = Ok r /\
    RKey r = k /\ RUlen r = zlen data /\
    length rec = (RecHeaderSize + Z.to_nat (RSlen r))%nat /\
    DecodePayload (RFlags r) (RUlen r)
      (slice RecHeaderSize (RecHeaderSize + Z.to_nat (RSlen r)) (rec ++ rest)) = Ok data.
Proof.
  intros Hk Hd.
  assert (is_ok (EncodeRecord k data) = true) as Hok.
  { unfold EncodeRecord, payloadFits. rewrite (proj2 (Z.leb_le _ _) Hd). cbn [negb].
    by destruct (_ <? _). }
  destruct (EncodeRecord k data) as [rec|] eqn:E; [|done].
  destruct (EncodeRecord_parsed k data rec Hk E) as (r & P & Ek & Eu & EL & ED).
  exists rec, r. split; [done|]. split; [by apply ParseRecord_Ok, parsed_app|].
  do 3 (split; [done|]). rewrite slice_prefix by (unfold RecHeaderSize in *; lia).
  unfold slice. rewrite take_ge; [done|]. rewrite length_drop. lia.
Qed.

Definition sample_key : Key := mk32 ([x00; x03] ++ replicate 30 xbb).
Lemma record_roundtrip_witness :
  Validate sample_key = Ok tt /\
  exists rec r, EncodeRecord sample_key [x61; x62; x63] = Ok rec /\
    ParseRecord (rec ++ [x00]) = Ok r /\ RKey r = sample_key.
Proof.
  assert (Validate sample_key = Ok tt) as Hk by done. split; [exact Hk|].
  destruct (record_roundtrip sample_key [x61; x62; x63] [x00] Hk) as (rec & r & E & P & K & _);
    [done|]. exists rec, r. split; [exact E|]. split; [exact P|exact K].
Defined.

(** Corruption detection: take any buffer [ParseRecord] accepts and change any single
    byte of the record other than the four bytes of its stored-length field: the result is
    rejected with [ErrCorrupt]. *)
Theorem one_byte_corruption_detected b r i x :
  ParseRecord b = Ok r -> (i < RecHeaderSize + Z.to_nat (RSlen r))%nat ->
  ~ (38 <= i < 42)%nat -> x <> byte_at b i ->
  ParseRecord (<[i:=x]> b) = Err [ErrCorrupt].
Proof. intros P%ParseRecord_Ok. by apply one_byte_rejected. Qed.

Lemma one_byte_corruption_detected_witness :
  exists b r, ParseRecord b = Ok r /\ ParseRecord (<[5%nat:=x07]> b) = Err [ErrCorrupt].
Proof.
  assert (parsed (rec_bytes sample_key x00 3 [x61; x62; x63])
    (MkRecord sample_key x00 3 3)) as P by (by apply built_parsed).
  exists (rec_bytes sample_key x00 3 [x61; x62; x63]), (MkRecord sample_key x00 3 3).
  apply ParseRecord_Ok in P. split; [exact P|].
  apply (one_byte_corruption_detected _ _ 5%nat x07 P).
  - cbn. lia.
  - lia.
  - discriminate.
Defined.

(** Untrusted lengths are bounded: whatever buffer is parsed, an accepted record lies
    inside it, its lengths are at most the payload limit, every rejection is [ErrCorrupt], and
    a payload [DecodePayload] returns for it has exactly the advertised length. *)
Theorem parsed_lengths_bounded `{Zstd, !ZstdOk} b :
  (forall e, ParseRecord b = Err e -> e = [ErrCorrupt]) /\
  (forall r, ParseRecord b = Ok r ->
     (RecHeaderSize + Z.to_nat (RSlen r) <= length b)%nat /\
     0 <= RSlen r <= RUlen r /\ RUlen r <= MaxPayload /\
     forall out, DecodePayload (RFlags r) (RUlen r)
       (slice RecHeaderSize (RecHeaderSize + Z.to_nat (RSlen r)) b) = Ok out ->
       zlen out = RUlen r).
Proof.
  split; [apply ParseRecord_Err|]. intros r P%ParseRecord_Ok.
  pose proof (pr_len _ _ P) as L.
  assert (0 <= RSlen r) as S0.
  { rewrite (pr_slen _ _ P). apply be_get_range. }
  split; [done|]. split.
  { pose proof (pr_raw _ _ P). pose proof (pr_zstd _ _ P).
    destruct (flags_zstd (RFlags r)); naive_solver lia. }
  split; [by apply (pr_max _ _ P)|]. intros out. unfold DecodePayload.
  destruct (flags_zstd (RFlags r)) eqn:Ef; cbn [negb].
  - destruct (DecodeAll _ _) as [o|] eqn:ED; [|done].
    apply zstd_cap in ED. pose proof (zlen_nonneg o).
    pose proof (pr_max _ _ P). assert (MaxPayload < 2 ^ 32) by done.
    unfold u32. rewrite Z.mod_small by lia.
    destruct (Z.eqb_spec (zlen o) (RUlen r)); cbn [negb]; [|done]. by intros [= <-].
  - intros [= <-]. rewrite (pr_raw _ _ P Ef). unfold zlen.
    rewrite length_slice; unfold RecHeaderSize in *; lia.
Qed.

Definition sample_rec : bytes :=
  match EncodeRecord sample_key [x61; x62; x63] with Ok b => b | Err _ => [] end.
Lemma sample_rec_parsed : ParseRecord sample_rec = Ok (MkRecord sample_key x00 3 3).
Proof. vm_compute. reflexivity. Qed.
Lemma parsed_lengths_bounded_witness :
  (RecHeaderSize + 3 <= length sample_rec)%nat /\ 0 <= 3 <= 3 /\ 3 <= MaxPayload.
Proof.
  destruct (proj2 (parsed_lengths_bounded sample_rec) _ sample_rec_parsed) as (H1 & H2 & H3 & _).
  split; [exact H1|]. split; [exact H2|exact H3].
Defined.
