(* ===== verification/Pack.v ===== *)
(** The wire pack (src/amberpack/pack.go): a magic, a sequence of records and an
    explicit end marker. [Writer] is a state machine over the bytes written so far;
    [Records] and [All] are the sequences a consumer that never stops early is yielded. *)
From S2P Require Import Prelude External Concrete Key Crc32 Record.

Definition packMagic : bytes := [x41; x4d; x42; x45; x52; x50; x4b; x03]. (* "AMBERPK\x03" *)
Definition tagEnd : byte := x00.

(** [fstree.Object] *)
Record Object := MkObject { OKey : Key; OBytes : bytes }.

(** ** Writer *)

Record Writer := MkWriter { bw : bytes; wroteHeader : bool }.
Definition NewWriter : Writer := MkWriter [] false.

Section Writer.
Context `{Zstd}.
(** [werr out] is the error the underlying writer reports when [out] has been accepted. *)
Context (werr : bytes -> option error).

Definition bw_write (p : bytes) : M Writer unit := fun w =>
  match werr (bw w) with
  | Some e => (Err e, w)
  | None => (Ok tt, MkWriter (bw w ++ p) (wroteHeader w))
  end.

Definition ensureHeader : M Writer unit := fun w =>
  if wroteHeader w then (Ok tt, w)
  else (_ ← bw_write packMagic; modify (fun w => MkWriter (bw w) true)) w.

Definition AddRecord (rec : bytes) : M Writer unit := _ ← ensureHeader; bw_write rec.

Definition Add (o : Object) : M Writer unit :=
  _ ← ensureHeader; rec ← lift (EncodeRecord (OKey o) (OBytes o)); bw_write rec.

Definition Close : M Writer unit :=
  _ ← ensureHeader; _ ← bw_write [tagEnd]; bw_write [].

(** A client's calls in order, stopping at the first error. *)
Fixpoint AddAll (os : list Object) : M Writer unit :=
  match os with [] => mret tt | o :: os' => _ ← Add o; AddAll os' end.
Fixpoint AddRecords (rs : list bytes) : M Writer unit :=
  match rs with [] => mret tt | r :: rs' => _ ← AddRecord r; AddRecords rs' end.
End Writer.

(** ** Reader *)

Record RawRecord := MkRaw { RawHdr : RecordHdr; RawBytes : bytes }.

(** The loop of [Records] after the magic. Every iteration consumes a tag byte, so one
    more step than there are bytes is enough. *)
Fixpoint records_loop (fuel : nat) (br : bytes) : list (res RawRecord) :=
  match fuel with
  | O => [Err [OutOfFuel]]
  | S fuel' =>
      match br with
      | [] => [Err [ErrMalformed]]
      | tag :: br1 =>
          if bool_decide (tag = tagEnd) then []
          else if bool_decide (tag = tagChunk) then
            if (length br1 <? RecHeaderSize - 1)%nat then [Err [ErrMalformed]]
            else
              let hdr := tag :: take (RecHeaderSize - 1) br1 in
              let br2 := drop (RecHeaderSize - 1) br1 in
              let slen := be_get (slice 38 42 hdr) in
              if MaxPayload <? slen then [Err [ErrMalformed]]
              else if zlen br2 <? slen then [Err [ErrMalformed]]
              else
                let full := hdr ++ take (Z.to_nat slen) br2 in
                match ParseRecord full with
                | Err _ => [Err [ErrMalformed]]
                | Ok rec => Ok (MkRaw rec full) :: records_loop fuel' (drop (Z.to_nat slen) br2)
                end
          else [Err [ErrMalformed]]
      end
  end.

Definition Records (r : bytes) : list (res RawRecord) :=
  if (length r <? length packMagic)%nat then [Err [ErrMalformed]]
  else if negb (bool_decide (take (length packMagic) r = packMagic)) then [Err [ErrMalformed]]
  else records_loop (S (length r)) (drop (length packMagic) r).

Fixpoint all_loop `{Zstd} (rs : list (res RawRecord)) : list (res Object) :=
  match rs with
  | [] => []
  | Err e :: _ => [Err e]
  | Ok raw :: rs' =>
      match DecodePayload (RFlags (RawHdr raw)) (RUlen (RawHdr raw))
              (drop RecHeaderSize (RawBytes raw)) with
      | Err _ => [Err [ErrMalformed]]
      | Ok payload => Ok (MkObject (RKey (RawHdr raw)) payload) :: all_loop rs'
      end
  end.
Definition All `{Zstd} (r : bytes) : list (res Object) := all_loop (Records r).

(** * The reader on the writer's output *)

(** One record in front of more input, read whole. *)
Lemma records_loop_record fuel rec rest r :
  parsed rec r -> length rec = (RecHeaderSize + Z.to_nat (RSlen r))%nat ->
  records_loop (S fuel) (rec ++ rest) = Ok (MkRaw r rec) :: records_loop fuel rest.
Proof.
  intros P L. pose proof (pr_tag _ _ P) as T. unfold byte_at in T.
  assert (0 <= RSlen r) as S0 by (rewrite (pr_slen _ _ P); apply be_get_range).
  assert (RSlen r <= MaxPayload) as SM.
  { pose proof (pr_max _ _ P). pose proof (pr_raw _ _ P). pose proof (pr_zstd _ _ P).
    destruct (flags_zstd (RFlags r)); naive_solver lia. }
  assert (slice 38 42 (take RecHeaderSize rec) = slice 38 42 rec) as ES
    by (apply slice_take; unfold RecHeaderSize; lia).
  pose proof (pr_slen _ _ P) as PS. pose proof (proj2 (ParseRecord_Ok rec r) P) as PP.
  destruct rec as [|tag rec1]; [done|]. cbn [nth] in T. subst tag.
  cbn [app records_loop length] in *. unfold RecHeaderSize in *.
  rewrite (bool_decide_eq_false_2 (tagChunk = tagEnd)) by done.
  rewrite bool_decide_eq_true_2 by done. cbn [Nat.sub].
  rewrite (proj2 (Nat.ltb_ge _ _)) by (rewrite length_app; lia).
  rewrite take_app_le, drop_app_le by lia. cbn [take] in ES. rewrite ES, <- PS.
  rewrite (proj2 (Z.ltb_ge _ _)) by done.
  rewrite (proj2 (Z.ltb_ge _ _)).
  2:{ rewrite zlen_app. unfold zlen. rewrite length_drop. lia. }
  assert (take (Z.to_nat (RSlen r)) (drop 45 rec1 ++ rest) = drop 45 rec1 /\
          drop (Z.to_nat (RSlen r)) (drop 45 rec1 ++ rest) = rest) as [-> ->].
  { assert (length (drop 45 rec1) = Z.to_nat (RSlen r)) as LD by (rewrite length_drop; lia).
    rewrite <- LD. by rewrite take_app_length, drop_app_length. }
  cbn [app]. rewrite take_drop, PP. done.
Qed.

(** A record cut short in the stream is reported, not skipped. *)
Lemma records_loop_cut fuel rec n r :
  parsed rec r -> length rec = (RecHeaderSize + Z.to_nat (RSlen r))%nat ->
  (n < length rec)%nat -> records_loop (S fuel) (take n rec) = [Err [ErrMalformed]].
Proof.
  intros P L Hn. pose proof (pr_tag _ _ P) as T. unfold byte_at in T.
  pose proof (pr_slen _ _ P) as PS.
  destruct rec as [|tag rec1]; [done|]. cbn [nth] in T. subst tag.
  destruct n as [|n]; [done|]. cbn [take records_loop length] in *. unfold RecHeaderSize in *.
  rewrite (bool_decide_eq_false_2 (tagChunk = tagEnd)) by done.
  rewrite bool_decide_eq_true_2 by done. cbn [Nat.sub].
  destruct (Nat.ltb_spec (length (take n rec1)) 45) as [|Hl]; [done|].
  rewrite length_take in Hl.
  assert (slice 38 42 (tagChunk :: take 45 (take n rec1)) = slice 38 42 (tagChunk :: rec1)) as ES.
  { rewrite take_take, Nat.min_l by lia.
    change (tagChunk :: take 45 rec1) with (take 46 (tagChunk :: rec1)).
    apply slice_take; lia. }
  rewrite ES, <- PS. destruct (MaxPayload <? RSlen r); [done|].
  rewrite (proj2 (Z.ltb_lt _ _)); [done|].
  unfold zlen. rewrite length_drop, length_take. lia.
Qed.

Lemma records_loop_end fuel rest : records_loop (S fuel) (tagEnd :: rest) = [].
Proof. done. Qed.

(** The body a writer produces for a list of whole records. *)
Definition whole (rec : bytes) (r : RecordHdr) : Prop :=
  parsed rec r /\ length rec = (RecHeaderSize + Z.to_nat (RSlen r))%nat.

Lemma whole_nonempty rec r : whole rec r -> (46 <= length rec)%nat.
Proof. intros [_ ->]. unfold RecHeaderSize. lia. Qed.

Lemma records_loop_whole recs hdrs rest fuel :
  Forall2 whole recs hdrs -> (length recs < fuel)%nat ->
  records_loop fuel (concat recs ++ rest) =
  zip_with (fun rec r => Ok (MkRaw r rec)) recs hdrs ++
  records_loop (fuel - length recs) rest.
Proof.
  intros H. revert fuel. induction H as [|rec r recs hdrs [P L] H IH]; intros fuel Hf.
  - cbn. by rewrite Nat.sub_0_r.
  - cbn [concat length] in *. rewrite <- app_assoc. destruct fuel as [|fuel]; [lia|].
    rewrite (records_loop_record fuel rec _ r P L). cbn [zip_with app]. f_equal.
    rewrite IH by lia. done.
Qed.

Lemma length_concat_ge recs hdrs :
  Forall2 whole recs hdrs -> (length recs <= length (concat recs))%nat.
Proof.
  induction 1 as [|rec r recs hdrs W H IH]; [done|].
  apply whole_nonempty in W. cbn [concat length]. rewrite length_app. lia.
Qed.

Lemma Records_magic body : Records (packMagic ++ body) = records_loop (S (length packMagic + length body)) body.
Proof.
  unfold Records. rewrite length_app. rewrite (proj2 (Nat.ltb_ge _ _)) by lia.
  rewrite take_app_length, bool_decide_eq_true_2 by done. cbn [negb].
  by rewrite drop_app_length.
Qed.

Lemma Records_whole recs hdrs :
  Forall2 whole recs hdrs ->
  Records (packMagic ++ concat recs ++ [tagEnd]) =
  zip_with (fun rec r => Ok (MkRaw r rec)) recs hdrs.
Proof.
  intros H. rewrite Records_magic. pose proof (length_concat_ge _ _ H).
  rewrite (records_loop_whole recs hdrs) by (rewrite ?length_app; done || lia).
  rewrite length_app. cbn [length].
  replace (S (length packMagic + (length (concat recs) + 1)) - length recs)%nat
    with (S (length packMagic + (length (concat recs) + 1) - length recs)) by lia.
  rewrite records_loop_end. by rewrite app_nil_r.
Qed.

Lemma records_loop_truncated recs hdrs fuel n :
  Forall2 whole recs hdrs -> (n < fuel)%nat ->
  (n < length (concat recs ++ [tagEnd]))%nat ->
  exists j, (j <= length recs)%nat /\
    records_loop fuel (take n (concat recs ++ [tagEnd])) =
    take j (zip_with (fun rec r => Ok (MkRaw r rec)) recs hdrs) ++ [Err [ErrMalformed]].
Proof.
  intros H. revert fuel n. induction H as [|rec r recs hdrs [P L] H IH]; intros fuel n Hf Hn.
  - exists 0%nat. split; [done|]. cbn in Hn. replace n with 0%nat by lia.
    destruct fuel; [cbn in Hf; lia|done].
  - cbn [concat length] in *. rewrite <- app_assoc in *. destruct fuel as [|fuel]; [lia|].
    destruct (decide (n < length rec)%nat) as [Hc|Hc].
    + exists 0%nat. split; [lia|]. rewrite take_app_le by lia.
      by rewrite (records_loop_cut fuel rec n r P L Hc).
    + pose proof (whole_nonempty rec r (conj P L)). rewrite length_app in Hn.
      destruct (IH fuel (n - length rec)%nat) as (j & Hj & E); [lia..|].
      exists (S j). split; [lia|]. rewrite take_app_ge by lia.
      rewrite (records_loop_record fuel rec _ r P L), E. done.
Qed.

(** ** The general shape of what [Records] yields *)

Lemma records_loop_shape fuel br :
  (length br < fuel)%nat ->
  exists raws, Forall (fun raw => whole (RawBytes raw) (RawHdr raw)) raws /\
    ((records_loop fuel br = Ok <$> raws /\
      exists rest, br = concat (RawBytes <$> raws) ++ tagEnd :: rest) \/
     records_loop fuel br = (Ok <$> raws) ++ [Err [ErrMalformed]]).
Proof.
  revert br. induction fuel as [|fuel IH]; intros br Hf; [lia|].
  destruct br as [|tag br1]; [by exists []; split; [constructor|right]|].
  cbn [records_loop].
  destruct (bool_decide (tag = tagEnd)) eqn:E1.
  { apply bool_decide_eq_true in E1 as ->. exists []. split; [constructor|]. left.
    split; [done|]. by exists br1. }
  destruct (bool_decide (tag = tagChunk)) eqn:E2; [|by exists []; split; [constructor|right]].
  destruct (Nat.ltb_spec (length br1) (RecHeaderSize - 1));
    [by exists []; split; [constructor|right]|].
  set (hdr := tag :: take (RecHeaderSize - 1) br1).
  set (slen := be_get (slice 38 42 hdr)).
  destruct (MaxPayload <? slen); [by exists []; split; [constructor|right]|].
  destruct (Z.ltb_spec (zlen (drop (RecHeaderSize - 1) br1)) slen) as [|HL];
    [by exists []; split; [constructor|right]|].
  set (br2 := drop (RecHeaderSize - 1) br1) in *.
  assert (0 <= slen) as S0 by apply be_get_range.
  assert (length hdr = RecHeaderSize) as Lh.
  { subst hdr. cbn [length]. rewrite length_take. unfold RecHeaderSize in *. lia. }
  destruct (ParseRecord (hdr ++ take (Z.to_nat slen) br2)) as [rec|] eqn:EP;
    [|by exists []; split; [constructor|right]].
  apply ParseRecord_Ok in EP.
  assert (RSlen rec = slen) as ES.
  { rewrite (pr_slen _ _ EP). subst slen. f_equal.
    apply slice_prefix; unfold RecHeaderSize in *; lia. }
  destruct (IH (drop (Z.to_nat slen) br2)) as (raws & Hw & HI).
  { subst br2. rewrite !length_drop. cbn [length] in Hf. lia. }
  exists (MkRaw rec (hdr ++ take (Z.to_nat slen) br2) :: raws). split.
  { constructor; [|done]. cbn [RawBytes RawHdr]. split; [done|].
    rewrite length_app, length_take, Lh, ES. unfold zlen in HL. lia. }
  destruct HI as [[-> (rest & Hr)]| ->]; [left|by right].
  split; [done|]. exists rest. cbn [fmap list_fmap concat RawBytes].
  rewrite <- app_assoc. change (list_fmap _ _ RawBytes raws) with (RawBytes <$> raws).
  rewrite <- Hr, <- app_assoc, take_drop.
  subst hdr br2. cbn [app]. by rewrite take_drop.
Qed.

Lemma Records_shape r :
  exists raws, Forall (fun raw => whole (RawBytes raw) (RawHdr raw)) raws /\
    ((Records r = Ok <$> raws /\
      exists rest, r = packMagic ++ concat (RawBytes <$> raws) ++ tagEnd :: rest) \/
     Records r = (Ok <$> raws) ++ [Err [ErrMalformed]]).
Proof.
  unfold Records.
  destruct (Nat.ltb_spec (length r) (length packMagic)); [by exists []; split; [constructor|right]|].
  destruct (bool_decide (take (length packMagic) r = packMagic)) eqn:E;
    [|by exists []; split; [constructor|right]].
  apply bool_decide_eq_true in E. cbn [negb].
  destruct (records_loop_shape (S (length r)) (drop (length packMagic) r)) as (raws & Hw & [[H1 (rest & H2)]|H1]).
  { rewrite length_drop. lia. }
  - exists raws. split; [done|]. left. split; [done|]. exists rest.
    rewrite <- H2. rewrite <- E at 1. by rewrite take_drop.
  - exists raws. split; [done|]. by right.
Qed.

(** ** The writer over a sink that accepts everything *)

Definition never (out : bytes) : option error := None.

Lemma AddRecords_never `{Zstd} rs out hw :
  AddRecords never rs (MkWriter out hw) =
  (Ok tt, MkWriter (out ++ match rs with [] => [] | _ => (if hw then [] else packMagic) ++ concat rs end)
            (hw || negb (match rs with [] => true | _ => false end))).
Proof.
  revert out hw. induction rs as [|r rs IH]; intros out hw.
  - cbn. by rewrite app_nil_r, orb_false_r.
  - cbn [AddRecords]. unfold AddRecord, ensureHeader, bw_write, never, modify, mbind, M_bind.
    destruct hw; cbn [wroteHeader bw fst]; rewrite IH; cbn [orb negb]; f_equal; f_equal;
      rewrite <- ?app_assoc; destruct rs; cbn [concat app]; by rewrite ?app_nil_r.
Qed.

Lemma AddAll_AddRecords `{Zstd} werr os recs :
  Forall2 (fun o rec => EncodeRecord (OKey o) (OBytes o) = Ok rec) os recs ->
  forall w, AddAll werr os w = AddRecords werr recs w.
Proof.
  induction 1 as [|o rec os recs E H2 IH]; intros w; [done|].
  cbn [AddAll AddRecords]. unfold Add, AddRecord, mbind, M_bind, lift.
  destruct (ensureHeader werr w) as [[[]|e] w1]; [|done]. rewrite E.
  destruct (bw_write werr rec w1) as [[[]|e] w2]; [|done]. apply IH.
Qed.

Lemma Close_never w :
  Close never w = (Ok tt, MkWriter (bw w ++ (if wroteHeader w then [] else packMagic) ++ [tagEnd]) true).
Proof.
  destruct w as [out []]; unfold Close, ensureHeader, bw_write, never, modify, mbind, M_bind;
    cbn [wroteHeader bw]; f_equal; f_equal; by rewrite ?app_nil_r, <- ?app_assoc.
Qed.

Lemma AddRecords_Close `{Zstd} rs :
  exists w, (AddRecords never rs ≫= fun _ => Close never) NewWriter = (Ok tt, w) /\
    bw w = packMagic ++ concat rs ++ [tagEnd].
Proof.
  eexists. unfold mbind at 1, M_bind at 1. unfold NewWriter. rewrite AddRecords_never, Close_never.
  split; [done|]. cbn [bw wroteHeader]. destruct rs; cbn [orb negb app concat]; [done|].
  by rewrite <- !app_assoc.
Qed.

Definition fits (o : Object) : Prop := Validate (OKey o) = Ok tt /\ zlen (OBytes o) <= MaxPayload.

Lemma encode_objects `{Zstd, !ZstdOk} os :
  Forall fits os ->
  exists recs hdrs, Forall2 (fun o rec => EncodeRecord (OKey o) (OBytes o) = Ok rec) os recs /\
    Forall2 whole recs hdrs /\
    all_loop (zip_with (fun rec r => Ok (MkRaw r rec)) recs hdrs) = Ok <$> os.
Proof.
  induction 1 as [|o os [Hk Hs] H1 (recs & hdrs & E & W & A)]; [by exists [], []|].
  destruct (EncodeRecord (OKey o) (OBytes o)) as [rec|e] eqn:ER.
  2:{ unfold EncodeRecord, payloadFits in ER. rewrite (proj2 (Z.leb_le _ _) Hs) in ER.
      cbn [negb] in ER. by destruct (_ <? _). }
  destruct (EncodeRecord_parsed _ _ _ Hk ER) as (r & P & Ek & Eu & EL & ED).
  exists (rec :: recs), (r :: hdrs). split; [by constructor|]. split; [by constructor; [split|]|].
  cbn [zip_with all_loop RawHdr RawBytes]. rewrite ED, A, Ek. by destruct o.
Qed.

Lemma all_loop_take `{Zstd} j l os tl :
  all_loop l = Ok <$> os -> all_loop (take j l ++ [Err tl]) = take j (Ok <$> os) ++ [Err tl].
Proof.
  revert l os. induction j as [|j IH]; intros l os E; [done|].
  destruct l as [|[raw|e] l]; cbn [all_loop] in E.
  - symmetry in E. apply fmap_nil_inv in E as ->. done.
  - destruct (DecodePayload _ _ _) as [p|] eqn:ED; destruct os as [|o os]; try done.
    injection E as <- E. cbn [take app all_loop fmap list_fmap]. rewrite ED. f_equal. by apply IH.
  - by destruct os.
Qed.

(** * Properties *)

(** Pack round trip: adding any objects with canonical keys and payloads within the
    limit and closing the writer succeeds, and reading the stream yields exactly those
    objects, in order, and no error. *)
Theorem pack_roundtrip `{Zstd, !ZstdOk} os :
  Forall fits os ->
  exists w, (AddAll never os ≫= fun _ => Close never) NewWriter = (Ok tt, w) /\
    All (bw w) = Ok <$> os.
Proof.
  intros H1. destruct (encode_objects os H1) as (recs & hdrs & E & W & A).
  destruct (AddRecords_Close recs) as (w & Hw & Hb). exists w. split.
  - rewrite <- Hw. unfold mbind, M_bind. by rewrite (AddAll_AddRecords _ _ _ E).
  - unfold All. by rewrite Hb, (Records_whole _ _ W).
Qed.

Definition sample_objects : list Object :=
  [MkObject sample_key [x61; x62; x63]; MkObject sample_key (replicate 40 x2e)].
Lemma sample_fits : Forall fits sample_objects.
Proof. repeat constructor; done. Qed.

Lemma pack_roundtrip_witness :
  exists w, (AddAll never sample_objects ≫= fun _ => Close never) NewWriter = (Ok tt, w) /\
    All (bw w) = Ok <$> sample_objects.
Proof. exact (pack_roundtrip sample_objects sample_fits). Defined.

(** Truncation is detected: cut a finished pack anywhere short of its end and the
    reader yields some of the leading objects followed by exactly one [ErrMalformed]; no
    cut is read as a clean end of stream. *)
Theorem pack_truncation_detected `{Zstd, !ZstdOk} os w n :
  Forall fits os ->
  (AddAll never os ≫= fun _ => Close never) NewWriter = (Ok tt, w) ->
  (n < length (bw w))%nat ->
  exists j, (j <= length os)%nat /\
    All (take n (bw w)) = take j (Ok <$> os) ++ [Err [ErrMalformed]].
Proof.
  intros H1 Hw Hn. destruct (encode_objects os H1) as (recs & hdrs & E & W & A).
  destruct (AddRecords_Close recs) as (w' & Hw' & Hb).
  assert (w' = w) as ->.
  { unfold mbind, M_bind in Hw, Hw'. rewrite (AddAll_AddRecords _ _ _ E) in Hw. congruence. }
  rewrite Hb in *. unfold All. clear Hw Hw' Hb.
  destruct (decide (n < length packMagic)%nat) as [Hm|Hm].
  - exists 0%nat. split; [lia|]. unfold Records.
    rewrite take_app_le by lia. rewrite length_take, (proj2 (Nat.ltb_lt _ _)) by lia. done.
  - rewrite take_app_ge by lia. rewrite length_app in Hn.
    set (body := take (n - length packMagic) (concat recs ++ [tagEnd])).
    rewrite Records_magic.
    destruct (records_loop_truncated recs hdrs (S (length packMagic + length body))
                (n - length packMagic) W) as (j & Hj & EJ); [|lia|].
    { subst body. rewrite length_take. lia. }
    exists j. apply Forall2_length in E. split; [lia|].
    fold body in EJ. rewrite EJ. by apply all_loop_take.
Qed.

Lemma pack_truncation_detected_witness :
  exists w j, (AddAll never sample_objects ≫= fun _ => Close never) NewWriter = (Ok tt, w) /\
    (j <= 2)%nat /\ All (take 60 (bw w)) = take j (Ok <$> sample_objects) ++ [Err [ErrMalformed]].
Proof.
  destruct ((AddAll never sample_objects ≫= fun _ => Close never) NewWriter) as [r w] eqn:E.
  assert (r = Ok tt /\ 60 < length (bw w))%nat as [-> L].
  { apply (f_equal (fun p => (fst p, length (bw (snd p))))) in E. cbn [fst snd] in E.
    assert (E' : (r, length (bw w)) = (Ok tt, 110%nat)) by (rewrite <- E; vm_compute; reflexivity).
    injection E' as -> ->. split; [done|lia]. }
  destruct (pack_truncation_detected sample_objects w 60 sample_fits E L) as (j & Hj & HA).
  exists w, j. split; [reflexivity|]. split; [exact Hj|exact HA].
Defined.

(** The reader on arbitrary bytes: [Records] always terminates, yields whole validated
    records and then at most one error, which is [ErrMalformed]; and when it yields no error
    the records' bytes written back with [AddRecord] and [Close] reproduce, byte for byte, the
    part of the stream up to and including the end marker. *)
Theorem records_shape_and_copy `{Zstd} (r : bytes) :
  exists raws, Forall (fun raw => whole (RawBytes raw) (RawHdr raw)) raws /\
    (Records r = (Ok <$> raws) ++ [Err [ErrMalformed]] \/
     Records r = Ok <$> raws /\
     exists w rest,
       (AddRecords never (RawBytes <$> raws) ≫= fun _ => Close never) NewWriter = (Ok tt, w) /\
       r = bw w ++ rest).
Proof.
  destruct (Records_shape r) as (raws & Hw & [[H1 (rest & H2)]|H1]); exists raws;
    (split; [done|]); [right|by left].
  split; [done|]. destruct (AddRecords_Close (RawBytes <$> raws)) as (w & E & Hb).
  exists w, rest. split; [done|]. rewrite Hb, <- !app_assoc. exact H2.
Qed.
