(* ===== verification/Cborx.v ===== *)
(** Package cborx (src/cborx/cborx.go): canonical CBOR maps from byte strings to byte
    strings - the extended attributes - and the parser that reads them back. A Go
    [map[string][]byte] is a [gmap bytes bytes]; the order in which [range] visits it
    is an argument. *)
From S2P Require Import Prelude.

Abbreviation Xattrs := (gmap bytes bytes).

Definition head_byte (major ai : Z) : byte := b8 (Z.lor (Z.shiftl major 5) ai).

Definition appendHead (b : bytes) (major n : Z) : bytes :=
  if n <? 24 then b ++ [head_byte major n]
  else if n <? 2 ^ 8 then b ++ head_byte major 24 :: be_put 1 n
  else if n <? 2 ^ 16 then b ++ head_byte major 25 :: be_put 2 n
  else if n <? 2 ^ 32 then b ++ head_byte major 26 :: be_put 4 n
  else b ++ head_byte major 27 :: be_put 8 n.

Definition appendBStr (b s : bytes) : bytes := appendHead b 2 (u64 (zlen s)) ++ s.

(** The comparison [sort.Slice] is given. *)
Definition name_le (a b : bytes) : Prop := bytes_le (appendBStr [] a) (appendBStr [] b).
#[export] Instance name_le_dec : RelDecision name_le.
Proof. intros a b. unfold name_le. apply _. Defined.

(** The encoder on a map whose [range] visits the names in the order [names]. *)
Definition EncodeXattrs_range (names : list bytes) (m : Xattrs) : bytes :=
  let sorted := merge_sort name_le names in
  fold_left (fun out n => appendBStr (appendBStr out n) (default [] (m !! n))) sorted
    (appendHead [] 5 (u64 (Z.of_nat (size m)))).

Definition EncodeXattrs (m : Xattrs) : bytes := EncodeXattrs_range (map_to_list m).*1 m.

(** [readHead]: major type, argument, remaining bytes. *)
Definition readHead (b : bytes) : res (Z * Z * bytes) :=
  match b with
  | [] => Err [ErrUnexpectedEOF]
  | b0 :: b =>
      let major := Z.shiftr (u8 b0) 5 in
      let ai := Z.land (u8 b0) 31 in
      let fixed (w : nat) :=
        if (length b <? w)%nat then Err [ErrUnexpectedEOF]
        else Ok (major, be_get (take w b), drop w b) in
      if ai <? 24 then Ok (major, ai, b)
      else if ai =? 24 then fixed 1%nat
      else if ai =? 25 then fixed 2%nat
      else if ai =? 26 then fixed 4%nat
      else if ai =? 27 then fixed 8%nat
      else Err [EMsg "cborx: unsupported additional info"]
  end.

Definition readBStr (b : bytes) : res (bytes * bytes) :=
  '(major, n, b) ← readHead b;
  if negb (major =? 2) then Err [EMsg "cborx: expected byte string"]
  else if zlen b <? n then Err [ErrUnexpectedEOF]
  else Ok (take (Z.to_nat n) b, drop (Z.to_nat n) b).

(** The [for i := range n] loop of [DecodeXattrs]. *)
Fixpoint decode_pairs (n : nat) (b : bytes) (m : Xattrs) : res (Xattrs * bytes) :=
  match n with
  | O => Ok (m, b)
  | S n' =>
      '(name, b) ← readBStr b;
      '(val, b) ← readBStr b;
      decode_pairs n' b (<[name := val]> m)
  end.

Definition DecodeXattrs (b : bytes) : res Xattrs :=
  '(major, n, b) ← readHead b;
  if negb (major =? 5) then Err [EMsg "cborx: expected CBOR map"]
  else if zlen b / 2 <? n then Err [EMsg "cborx: xattr map claims too many pairs"]
  else
    '(m, b) ← decode_pairs (Z.to_nat n) b ∅;
    if negb (zlen b =? 0) then Err [EMsg "cborx: trailing bytes after xattr map"]
    else Ok m.

(** * Heads *)

Lemma head_byte_fields major ai :
  0 <= major < 8 -> 0 <= ai < 32 ->
  Z.shiftr (u8 (head_byte major ai)) 5 = major /\ Z.land (u8 (head_byte major ai)) 31 = ai.
Proof.
  intros Hm Ha.
  pose proof (forallb_range (fun m => forallb (fun a =>
    (Z.shiftr (u8 (head_byte m a)) 5 =? m) && (Z.land (u8 (head_byte m a)) 31 =? a))
      (map Z.of_nat (seq 0 32))) 8 ltac:(by vm_compute) major Hm) as T. cbv beta in T.
  pose proof (forallb_range _ 32 T ai Ha) as T'. cbv beta in T'.
  apply andb_true_iff in T' as [T1 T2]. by rewrite !Z.eqb_eq in *.
Qed.

Lemma readHead_fixed major (w : nat) ai n rest :
  0 <= major < 8 -> 0 <= n < 256 ^ Z.of_nat w ->
  (ai, w) ∈ [(24, 1%nat); (25, 2%nat); (26, 4%nat); (27, 8%nat)] ->
  readHead (head_byte major ai :: be_put w n ++ rest) = Ok (major, n, rest).
Proof.
  intros Hm Hn Hin. assert (24 <= ai < 28) as Hai.
  { rewrite !elem_of_cons, elem_of_nil in Hin. naive_solver lia. }
  destruct (head_byte_fields major ai Hm ltac:(lia)) as [E1 E2].
  assert (take w (be_put w n ++ rest) = be_put w n /\ drop w (be_put w n ++ rest) = rest) as [T D].
  { by rewrite take_app_length', drop_app_length' by (by rewrite length_be_put). }
  assert ((length (be_put w n ++ rest) <? w)%nat = false) as L.
  { apply Nat.ltb_ge. rewrite length_app, length_be_put. lia. }
  unfold readHead. rewrite E1, E2. rewrite (proj2 (Z.ltb_ge ai 24)) by lia.
  rewrite !elem_of_cons, elem_of_nil in Hin.
  destruct Hin as [[= -> ->]|[[= -> ->]|[[= -> ->]|[[= -> ->]|[]]]]]; cbn [Z.eqb Pos.eqb];
    rewrite L, T, D, be_get_put, Z.mod_small by lia; done.
Qed.

(** [readHead] undoes [appendHead], whatever follows. *)
Lemma readHead_appendHead major n rest :
  0 <= major < 8 -> 0 <= n < 2 ^ 64 -> readHead (appendHead [] major n ++ rest) = Ok (major, n, rest).
Proof.
  intros Hm Hn. unfold appendHead. cbn [app].
  destruct (Z.ltb_spec n 24).
  { cbn [app]. destruct (head_byte_fields major n Hm ltac:(lia)) as [E1 E2].
    unfold readHead. by rewrite E1, E2, (proj2 (Z.ltb_lt n 24)) by lia. }
  repeat match goal with |- context [if ?a <? ?b then _ else _] => destruct (Z.ltb_spec a b) end;
    cbn [app]; apply readHead_fixed;
    first [exact Hm | split; [lia|solve [assumption|apply Hn]] | set_solver].
Qed.

Lemma appendHead_app b major n : appendHead b major n = b ++ appendHead [] major n.
Proof. unfold appendHead. by repeat case_match. Qed.

Lemma appendBStr_app b s : appendBStr b s = b ++ appendBStr [] s.
Proof. unfold appendBStr. by rewrite appendHead_app, <- app_assoc. Qed.

Lemma length_appendHead major n : (1 <= length (appendHead [] major n))%nat.
Proof. unfold appendHead. repeat case_match; cbn; lia. Qed.

Lemma length_appendBStr s : (1 + length s <= length (appendBStr [] s))%nat.
Proof. unfold appendBStr. rewrite length_app. pose proof (length_appendHead 2 (u64 (zlen s))). lia. Qed.

(** A Go string or slice is shorter than 2^63 bytes, so its length is a [uint64]. *)
Definition go_len {A} (l : list A) : Prop := zlen l < 2 ^ 63.

Lemma u64_go_len {A} (l : list A) : go_len l -> u64 (zlen l) = zlen l.
Proof. unfold go_len, u64. intros. pose proof (zlen_nonneg l). by rewrite Z.mod_small by lia. Qed.

Lemma readBStr_appendBStr s rest : go_len s -> readBStr (appendBStr [] s ++ rest) = Ok (s, rest).
Proof.
  intros Hs. unfold readBStr, appendBStr. rewrite u64_go_len by done.
  pose proof (zlen_nonneg s). unfold go_len in Hs.
  rewrite <- app_assoc, readHead_appendHead by lia. cbn [mbind res_bind]. cbn [Z.eqb Pos.eqb negb].
  rewrite zlen_app. pose proof (zlen_nonneg rest). rewrite (proj2 (Z.ltb_ge _ _)) by lia.
  unfold zlen. rewrite Nat2Z.id. by rewrite take_app_length, drop_app_length.
Qed.

Lemma appendBStr_inj a b : go_len a -> go_len b -> appendBStr [] a = appendBStr [] b -> a = b.
Proof.
  intros Ha Hb E. pose proof (readBStr_appendBStr a [] Ha) as Ra.
  rewrite E, readBStr_appendBStr in Ra by done. congruence.
Qed.

(** * The sort is determined by the set of names *)

#[export] Instance name_le_trans : Transitive name_le.
Proof. intros a b c. unfold name_le. intros. by etransitivity. Qed.
#[export] Instance name_le_total : Total name_le.
Proof. intros a b. unfold name_le. apply bytes_le_total. Qed.

Lemma name_le_antisym a b : go_len a -> go_len b -> name_le a b -> name_le b a -> a = b.
Proof.
  unfold name_le. intros Ha Hb H1 H2. apply appendBStr_inj; [done..|].
  by apply (anti_symm bytes_le).
Qed.

(** Two sorted permutations of the same short names are equal. *)
Lemma sorted_names_unique l1 l2 :
  Forall go_len l1 -> StronglySorted name_le l1 -> StronglySorted name_le l2 -> l1 ≡ₚ l2 -> l1 = l2.
Proof.
  revert l2. induction l1 as [|x l1 IH]; intros l2 HF S1 S2 P.
  { apply Permutation_nil in P. done. }
  destruct l2 as [|y l2]; [by apply Permutation_sym, Permutation_nil in P|].
  assert (Forall go_len (y :: l2)) as HF2 by (by rewrite <- P).
  inversion_clear S1 as [|? ? S1' A1]. inversion_clear S2 as [|? ? S2' A2].
  apply Forall_cons_1 in HF as [Hx HF]. apply Forall_cons_1 in HF2 as [Hy HF2].
  assert (x = y) as Exy.
  { assert (x ∈ y :: l2) as I1 by (rewrite <- P; left).
    assert (y ∈ x :: l1) as I2 by (rewrite P; left).
    apply elem_of_cons in I1 as [|I1]; [done|]. apply elem_of_cons in I2 as [|I2]; [done|].
    apply name_le_antisym; try done; [by eapply list.Forall_forall in A1|by eapply list.Forall_forall in A2]. }
  subst y. f_equal. apply IH; try done. by apply Permutation_cons_inv in P.
Qed.

(** * Encoding and decoding *)

(** The names and values the format can carry. *)
Definition xattrs_wf (m : Xattrs) : Prop :=
  map_Forall (fun n v => go_len n /\ go_len v) m /\ Z.of_nat (size m) < 2 ^ 63.

Definition enc_pair (m : Xattrs) (n : bytes) : bytes :=
  appendBStr [] n ++ appendBStr [] (default [] (m !! n)).

Lemma encode_fold m l out :
  fold_left (fun out n => appendBStr (appendBStr out n) (default [] (m !! n))) l out =
  out ++ flat_map (enc_pair m) l.
Proof.
  revert out. induction l as [|n l IH]; intros out; cbn [fold_left flat_map].
  - by rewrite app_nil_r.
  - rewrite IH, appendBStr_app, (appendBStr_app out). unfold enc_pair. by rewrite <- !app_assoc.
Qed.

Lemma EncodeXattrs_range_eq names m :
  EncodeXattrs_range names m =
  appendHead [] 5 (u64 (Z.of_nat (size m))) ++ flat_map (enc_pair m) (merge_sort name_le names).
Proof. apply encode_fold. Qed.

Definition insert_all (m : Xattrs) (l : list bytes) (acc : Xattrs) : Xattrs :=
  fold_left (fun a n => <[n := default [] (m !! n)]> a) l acc.

Lemma decode_pairs_encoded m l acc rest :
  Forall (fun n => go_len n /\ go_len (default [] (m !! n))) l ->
  decode_pairs (length l) (flat_map (enc_pair m) l ++ rest) acc = Ok (insert_all m l acc, rest).
Proof.
  intros H. revert acc. induction H as [|n l [Hn Hv] H IH]; intros acc; [done|].
  cbn [length flat_map decode_pairs]. unfold enc_pair at 1. rewrite <- !app_assoc.
  rewrite readBStr_appendBStr by done. cbn [mbind res_bind].
  rewrite readBStr_appendBStr by done. cbn [mbind res_bind]. apply IH.
Qed.

Lemma insert_all_lookup m l acc k :
  insert_all m l acc !! k = if decide (k ∈ l) then Some (default [] (m !! k)) else acc !! k.
Proof.
  revert acc. induction l as [|n l IH]; intros acc; cbn [insert_all fold_left].
  { by rewrite decide_False by apply not_elem_of_nil. }
  change (insert_all m l (<[n:=default [] (m !! n)]> acc) !! k =
    if decide (k ∈ n :: l) then Some (default [] (m !! k)) else acc !! k).
  rewrite IH. destruct (decide (k ∈ l)) as [H|H].
  { by rewrite decide_True by by apply elem_of_cons; right. }
  destruct (decide (k = n)) as [->|Hne].
  - rewrite lookup_insert_eq, decide_True; [done|]. left.
  - rewrite lookup_insert_ne, decide_False; [done| |done]. rewrite elem_of_cons. naive_solver.
Qed.

(** A visiting order of a map's [range]: every name once. *)
Definition range_order (names : list bytes) (m : Xattrs) : Prop := names ≡ₚ (map_to_list m).*1.

Lemma range_order_elem names m k : range_order names m -> k ∈ names <-> is_Some (m !! k).
Proof.
  intros H. rewrite H, list_elem_of_fmap. split.
  - intros ([k' v] & -> & Hv). apply elem_of_map_to_list in Hv. by exists v.
  - intros [v Hv]. exists (k, v). split; [done|]. by apply elem_of_map_to_list.
Qed.

Lemma range_order_wf names m :
  xattrs_wf m -> range_order names m ->
  Forall (fun n => go_len n /\ go_len (default [] (m !! n))) names.
Proof.
  intros [Hw _] Hr. apply list.Forall_forall. intros n Hn.
  apply (range_order_elem names m n Hr) in Hn as [v Hv]. rewrite Hv. by apply (Hw n v).
Qed.

Lemma enc_pair_length m n : (2 <= length (enc_pair m n))%nat.
Proof.
  unfold enc_pair. rewrite length_app. pose proof (length_appendBStr n).
  pose proof (length_appendBStr (default [] (m !! n))). lia.
Qed.

Lemma flat_map_length m l : (2 * length l <= length (flat_map (enc_pair m) l))%nat.
Proof.
  induction l as [|n l IH]; [done|]. cbn [flat_map length]. rewrite length_app.
  pose proof (enc_pair_length m n). lia.
Qed.

Lemma decode_encode names m :
  xattrs_wf m -> range_order names m -> DecodeXattrs (EncodeXattrs_range names m) = Ok m.
Proof.
  intros Hw Hr. rewrite EncodeXattrs_range_eq. destruct Hw as [Hm Hs].
  set (sorted := merge_sort name_le names).
  assert (sorted ≡ₚ names) as P by apply merge_sort_Permutation.
  assert (range_order sorted m) as Hr' by (unfold range_order; by rewrite P).
  assert (length sorted = size m) as L.
  { rewrite P, Hr, length_fmap. by rewrite length_map_to_list. }
  unfold u64. rewrite Z.mod_small by lia.
  unfold DecodeXattrs. rewrite readHead_appendHead by lia. cbn [mbind res_bind Z.eqb Pos.eqb negb].
  pose proof (flat_map_length m sorted) as FL.
  rewrite (proj2 (Z.ltb_ge _ _)).
  2:{ unfold zlen. apply Z.div_le_lower_bound; lia. }
  rewrite <- L, Nat2Z.id, <- (app_nil_r (flat_map _ _)).
  rewrite decode_pairs_encoded by by apply range_order_wf. cbn [mbind res_bind zlen length].
  cbn [Z.of_nat Z.eqb negb]. f_equal. apply map_eq. intros k.
  rewrite insert_all_lookup. destruct (decide (k ∈ sorted)) as [Hk|Hk].
  - apply (range_order_elem _ _ _ Hr') in Hk as [v Hv]. by rewrite Hv.
  - rewrite lookup_empty. symmetry. apply eq_None_not_Some.
    by rewrite <- (range_order_elem _ _ _ Hr').
Qed.

Lemma encode_order_irrelevant names1 names2 m :
  xattrs_wf m -> range_order names1 m -> range_order names2 m ->
  EncodeXattrs_range names1 m = EncodeXattrs_range names2 m.
Proof.
  intros Hw H1 H2. rewrite !EncodeXattrs_range_eq. do 2 f_equal.
  apply sorted_names_unique.
  - rewrite merge_sort_Permutation. eapply list.Forall_impl; [exact (range_order_wf names1 m Hw H1)|].
    by intros ? [? _].
  - apply StronglySorted_merge_sort; apply _.
  - apply StronglySorted_merge_sort; apply _.
  - rewrite !merge_sort_Permutation. by rewrite H1, H2.
Qed.

#[export] Instance go_len_dec {A} (l : list A) : Decision (go_len l).
Proof. unfold go_len. apply _. Defined.
#[export] Instance xattrs_wf_dec m : Decision (xattrs_wf m).
Proof. unfold xattrs_wf. apply _. Defined.

(** * Properties *)

(** Extended attributes round trip: for any map of names to values of Go-representable
    lengths, [DecodeXattrs] of [EncodeXattrs] is the same map. *)
Theorem xattrs_roundtrip m : xattrs_wf m -> DecodeXattrs (EncodeXattrs m) = Ok m.
Proof. intros Hw. unfold EncodeXattrs. apply decode_encode; [done|]. unfold range_order. done. Qed.

Definition sample_xattrs : Xattrs := {[ [x75; x62] := [x01; x02]; [x75] := [] ]}.
Lemma sample_xattrs_wf : xattrs_wf sample_xattrs.
Proof.
  split; [|unfold sample_xattrs; rewrite map_size_insert_None, map_size_singleton by done; done].
  apply map_Forall_insert_2; [by split|].
  apply map_Forall_singleton; by split.
Qed.

Lemma xattrs_roundtrip_witness : DecodeXattrs (EncodeXattrs sample_xattrs) = Ok sample_xattrs.
Proof. exact (xattrs_roundtrip sample_xattrs sample_xattrs_wf). Defined.

(** The encoding is a function of the map alone: whatever order Go's [range] visits the
    map in, [EncodeXattrs] writes the same bytes, with the names in strictly increasing order
    of their encodings - what content addressing of an [XattrSet] needs. *)
Theorem xattrs_encoding_deterministic m names1 names2 :
  xattrs_wf m -> range_order names1 m -> range_order names2 m ->
  EncodeXattrs_range names1 m = EncodeXattrs_range names2 m /\
  exists sorted, EncodeXattrs_range names1 m =
      appendHead [] 5 (Z.of_nat (size m)) ++ flat_map (enc_pair m) sorted /\
    sorted ≡ₚ names1 /\ StronglySorted (fun a b => bytes_lt (appendBStr [] a) (appendBStr [] b)) sorted.
Proof.
  intros Hw H1 H2. split; [by apply encode_order_irrelevant|].
  exists (merge_sort name_le names1). split.
  { rewrite EncodeXattrs_range_eq. destruct Hw as [_ Hs]. unfold u64. by rewrite Z.mod_small by lia. }
  split; [apply merge_sort_Permutation|].
  assert (NoDup (merge_sort name_le names1)) as ND.
  { rewrite merge_sort_Permutation, H1. apply NoDup_fst_map_to_list. }
  assert (Forall go_len (merge_sort name_le names1)) as HF.
  { rewrite merge_sort_Permutation.
    eapply list.Forall_impl; [exact (range_order_wf names1 m Hw H1)|]. by intros ? [? _]. }
  assert (StronglySorted name_le (merge_sort name_le names1)) as SS
    by (apply StronglySorted_merge_sort; apply _).
  induction SS as [|x l SS IH HA]; [constructor|].
  apply list.NoDup_cons in ND as [Hx ND]. apply Forall_cons_1 in HF as [Hgx HF].
  constructor; [by apply IH|]. apply list.Forall_forall. intros y Hy.
  rewrite list.Forall_forall in HA, HF. specialize (HA y Hy). unfold name_le in HA.
  apply bytes_le_lt_eq in HA as [HA|HA]; [done|].
  apply appendBStr_inj in HA; [by subst|done|by apply HF].
Qed.

Lemma xattrs_encoding_deterministic_witness :
  EncodeXattrs_range [[x75]; [x75; x62]] sample_xattrs = EncodeXattrs_range [[x75; x62]; [x75]] sample_xattrs.
Proof.
  assert (range_order [[x75]; [x75; x62]] sample_xattrs) as H1.
  { apply NoDup_Permutation.
    - apply list.NoDup_cons; split; [by rewrite list_elem_of_singleton|apply NoDup_singleton].
    - apply NoDup_fst_map_to_list.
    - intros k.
      assert ((map_to_list sample_xattrs).*1 = [[x75]; [x75; x62]] \/
              (map_to_list sample_xattrs).*1 = [[x75; x62]; [x75]]) as [-> | ->]
        by (vm_compute; auto).
      all: set_solver. }
  assert (range_order [[x75; x62]; [x75]] sample_xattrs) as H2 by (unfold range_order in *; etransitivity; [apply Permutation_swap|exact H1]).
  exact (proj1 (xattrs_encoding_deterministic sample_xattrs _ _ sample_xattrs_wf H1 H2)).
Defined.

(** The decoder is more liberal than its comment: a map head that is not in shortest
    form and names out of order or repeated are accepted, so two different byte strings can
    decode to the same attributes, and the later of two equal names wins. *)
Theorem decode_accepts_noncanonical :
  DecodeXattrs ([xb8; x01] ++ appendBStr [] [x61] ++ appendBStr [] [x62]) =
    DecodeXattrs (EncodeXattrs {[ [x61] := [x62] ]}) /\
  DecodeXattrs (appendHead [] 5 2 ++ appendBStr [] [x61] ++ appendBStr [] [x01] ++
                appendBStr [] [x61] ++ appendBStr [] [x02]) = Ok {[ [x61] := [x02] ]}.
Proof. split; reflexivity. Qed.
