(* ===== verification/Objects.v ===== *)
(** Package fstree, the objects (src/fstree/encode.go, decode.go, children.go): the five
    encoders, the three decoders and the child-key extractor. The CBOR bodies go through
    the interface [Cbor] at the Go type being marshalled. *)
From S2P Require Import Prelude External Concrete Key Cborx Pack.

(** [Entry]: a nil slice is the empty list ([omitempty] and [NilContainerAsEmpty] encode
    both alike). *)
Record Entry := MkEntry {
    Name : bytes; Mode : Z; UID : Z; GID : Z; Mtime : Z;
    ContentKey : bytes; LinkTarget : bytes; Rdev : list Z;
    XattrsIn : bytes; XattrsKey : bytes
  }.
Record DirPair := MkDirPair { SepName : bytes; ChildKey : bytes }.

#[export] Instance Entry_eq_dec : EqDecision Entry.
Proof. solve_decision. Defined.
#[export] Instance DirPair_eq_dec : EqDecision DirPair.
Proof. solve_decision. Defined.

(** The marshaller's domain: what the Go types hold, and the decoder's default bound of
    131072 array elements. *)
Definition MaxArrayElements : Z := 131072.
Definition entry_wf (e : Entry) : Prop :=
  0 <= Mode e < 2 ^ 64 /\ 0 <= UID e < 2 ^ 64 /\ 0 <= GID e < 2 ^ 64 /\
  - 2 ^ 63 <= Mtime e < 2 ^ 63 /\ Forall (fun x => 0 <= x < 2 ^ 64) (Rdev e) /\
  zlen (Rdev e) <= MaxArrayElements /\
  (XattrsIn e = [] \/ exists m, xattrs_wf m /\ XattrsIn e = EncodeXattrs m).
Definition array_wf {A} (wf : A -> Prop) (l : list A) : Prop :=
  zlen l <= MaxArrayElements /\ Forall wf l.
Definition any {A} (_ : A) : Prop := True.

Section Objects.
Context `{Blake3} `{Cbor (list bytes)} `{Cbor (list Entry)} `{Cbor (list DirPair)}.

Definition new_object (t : Typ) (len : Z) (b : bytes) : res Object :=
  k ← New t len b; Ok (MkObject k b).

Definition EncodeBlob (data : bytes) : res Object := new_object Blob (u64 (zlen data)) data.

Definition EncodeFileNode (children : list Key) : res Object :=
  let arr := map b32_bytes children in
  let sum := fold_left (fun s c => u64 (s + Length c)) children 0 in
  b ← Marshal arr;
  new_object FileNode sum b.

(** The loop over the entries: the payload keys are parsed when they have a key's size. *)
Fixpoint leaf_sub (sub : Z) (entries : list Entry) : res Z :=
  match entries with
  | [] => Ok sub
  | e :: es =>
    s1 ← (if (length (ContentKey e) =? Size)%nat
      then ck ← Parse (ContentKey e); Ok (u64 (sub + Length ck)) else Ok sub);
    s2 ← (if (length (XattrsKey e) =? Size)%nat
      then xk ← Parse (XattrsKey e); Ok (u64 (s1 + Length xk)) else Ok s1);
    leaf_sub s2 es
  end.

Definition EncodeDirLeaf (entries : list Entry) : res Object :=
  b ← Marshal entries;
  sub ← leaf_sub 0 entries;
  new_object DirLeaf (u64 (zlen b + sub)) b.

Fixpoint node_sub (sub : Z) (pairs : list DirPair) : res Z :=
  match pairs with
  | [] => Ok sub
  | p :: ps => ck ← Parse (ChildKey p); node_sub (u64 (sub + Length ck)) ps
  end.

Definition EncodeDirNode (pairs : list DirPair) : res Object :=
  b ← Marshal pairs;
  sub ← node_sub 0 pairs;
  new_object DirNode (u64 (zlen b + sub)) b.

Definition EncodeXattrSet (m : Xattrs) : res Object :=
  let b := EncodeXattrs m in
  new_object XattrSet (u64 (zlen b)) b.

Definition DecodeFileNode (b : bytes) : res (list Key) :=
  raw ← (Unmarshal b : res (list bytes)); mapM Parse raw.
Definition DecodeDirLeaf (b : bytes) : res (list Entry) := Unmarshal b.
Definition DecodeDirNode (b : bytes) : res (list DirPair) := Unmarshal b.

(** The keys one entry references. *)
Definition entry_children (ent : Entry) : res (list Key) :=
  l1 ← (match ContentKey ent with [] => Ok [] | _ => ck ← Parse (ContentKey ent); Ok [ck] end);
  l2 ← (match XattrsKey ent with [] => Ok [] | _ => xk ← Parse (XattrsKey ent); Ok [xk] end);
  Ok (l1 ++ l2).

Definition ChildKeys (k : Key) (data : bytes) : res (list Key) :=
  if (Type_ k =? Blob) || (Type_ k =? XattrSet) then Ok []
  else if Type_ k =? FileNode then DecodeFileNode data
  else if Type_ k =? DirNode then
  pairs ← DecodeDirNode data; mapM (fun p => Parse (ChildKey p)) pairs
  else if Type_ k =? DirLeaf then
  entries ← DecodeDirLeaf data; ls ← mapM entry_children entries; Ok (concat ls)
  else Err [EMsg "fstree: unknown object type"].

(** * Lemmas *)

Lemma u64_range z : 0 <= u64 z < 2 ^ 64.
Proof. unfold u64. apply Z.mod_pos_bound. lia. Qed.

Lemma new_object_Ok t len b o :
  0 <= t -> 0 <= len < 2 ^ 64 -> new_object t len b = Ok o ->
  OBytes o = b /\ Validate (OKey o) = Ok tt /\ Type_ (OKey o) = t /\ Length (OKey o) = len.
Proof.
  intros Ht Hl E. unfold new_object in E. apply res_bind_Ok in E as (k & Hk & E).
  injection E as <-. apply New_fields in Hk as (? & ? & ?); done.
Qed.

Lemma new_object_total t len b : IsValid t = true -> exists o, new_object t len b = Ok o.
Proof.
  intros Hv. unfold new_object, New. pose proof (NewFromHash_total t len (Sum256 b) Hv) as T.
  destruct (NewFromHash t len (Sum256 b)); [by eexists|done].
Qed.

(** The length fields, without the intermediate wrap-arounds. *)
Definition sum_lengths (ks : list Key) : Z := foldr (fun k s => Length k + s) 0 ks.

Lemma u64_add_l a b : u64 (u64 a + b) = u64 (a + b).
Proof. unfold u64. by rewrite Zplus_mod_idemp_l. Qed.
Lemma u64_add_r a b : u64 (a + u64 b) = u64 (a + b).
Proof. unfold u64. by rewrite Zplus_mod_idemp_r. Qed.

Lemma file_sum ks s :
  fold_left (fun s c => u64 (s + Length c)) ks (u64 s) = u64 (s + sum_lengths ks).
Proof.
  revert s. induction ks as [|k ks IH]; intros s; cbn [fold_left sum_lengths foldr].
  - f_equal. lia.
  - rewrite u64_add_l, IH. f_equal. fold (sum_lengths ks). lia.
Qed.

Lemma EncodeBlob_Ok data o :
  EncodeBlob data = Ok o ->
  OBytes o = data /\ Validate (OKey o) = Ok tt /\ Type_ (OKey o) = Blob /\
  Length (OKey o) = u64 (zlen data).
Proof. intros E%new_object_Ok; [done|done|apply u64_range]. Qed.

Lemma EncodeBlob_total data : exists o, EncodeBlob data = Ok o.
Proof. by apply new_object_total. Qed.

Lemma EncodeFileNode_Ok ks o :
  EncodeFileNode ks = Ok o ->
  Marshal (map b32_bytes ks) = Ok (OBytes o) /\ Validate (OKey o) = Ok tt /\
  Type_ (OKey o) = FileNode /\ Length (OKey o) = u64 (sum_lengths ks).
Proof.
  unfold EncodeFileNode. intros (b & Hb & E)%res_bind_Ok. change 0 with (u64 0) in E.
  rewrite file_sum in E. apply new_object_Ok in E as (-> & ?); [done|done|apply u64_range].
Qed.

Lemma Parse_map ks :
  Forall (fun k => Validate k = Ok tt) ks -> mapM Parse (map b32_bytes ks) = Ok ks.
Proof. intros HF. apply res_mapM_Ok. induction HF; constructor; auto using Parse_bytes. Qed.

Lemma node_sub_Ok ps ks s :
  Forall2 (fun p k => Parse (ChildKey p) = Ok k) ps ks ->
  node_sub (u64 s) ps = Ok (u64 (s + sum_lengths ks)).
Proof.
  intros F. revert s. induction F as [|p k ps ks Hp F IH]; intros s; cbn [node_sub sum_lengths foldr].
  - f_equal. f_equal. lia.
  - rewrite Hp. cbn [mbind res_bind]. rewrite u64_add_l, IH. fold (sum_lengths ks). do 2 f_equal. lia.
Qed.

Lemma EncodeDirNode_Ok ps ks o :
  Forall2 (fun p k => Parse (ChildKey p) = Ok k) ps ks -> EncodeDirNode ps = Ok o ->
  Marshal ps = Ok (OBytes o) /\ Validate (OKey o) = Ok tt /\ Type_ (OKey o) = DirNode /\
  Length (OKey o) = u64 (zlen (OBytes o) + sum_lengths ks).
Proof.
  intros F. unfold EncodeDirNode. intros (b & Hb & E)%res_bind_Ok. change 0 with (u64 0) in E.
  rewrite (node_sub_Ok _ _ _ F) in E. cbn [mbind res_bind] in E. rewrite u64_add_r in E.
  apply new_object_Ok in E as (-> & ?); [done|done|apply u64_range].
Qed.

Lemma EncodeDirNode_total ps ks b :
  Forall2 (fun p k => Parse (ChildKey p) = Ok k) ps ks -> Marshal ps = Ok b ->
  exists o, EncodeDirNode ps = Ok o.
Proof.
  intros F Hb. unfold EncodeDirNode. rewrite Hb. cbn [mbind res_bind]. change 0 with (u64 0).
  rewrite (node_sub_Ok _ _ _ F). cbn [mbind res_bind]. by apply new_object_total.
Qed.

(** A payload key is absent or a canonical key: what the builder's callers supply. *)
Definition opt_key (b : bytes) (l : list Key) : Prop :=
  (b = [] /\ l = []) \/ (exists k, l = [k] /\ Parse b = Ok k).
Definition entry_keys (e : Entry) (l : list Key) : Prop :=
  exists l1 l2, l = l1 ++ l2 /\ opt_key (ContentKey e) l1 /\ opt_key (XattrsKey e) l2.

Lemma Parse_length b k : Parse b = Ok k -> length b = 32%nat.
Proof. intros [-> _]%Parse_Ok. apply b32_length. Qed.

Lemma opt_key_sub b l s :
  opt_key b l ->
  (if (length b =? Size)%nat then ck ← Parse b; Ok (u64 (u64 s + Length ck)) else Ok (u64 s)) =
  Ok (u64 (s + sum_lengths l)).
Proof.
  intros [[-> ->]|(k & -> & E)]; cbn [sum_lengths foldr].
  - cbn. do 2 f_equal. lia.
  - rewrite (Parse_length _ _ E), E. cbn. rewrite u64_add_l. do 2 f_equal. lia.
Qed.

Lemma sum_lengths_app l1 l2 : sum_lengths (l1 ++ l2) = sum_lengths l1 + sum_lengths l2.
Proof. unfold sum_lengths. induction l1; cbn [app foldr] in *; lia. Qed.

Lemma leaf_sub_Ok es ls s :
  Forall2 entry_keys es ls ->
  leaf_sub (u64 s) es = Ok (u64 (s + sum_lengths (concat ls))).
Proof.
  intros F. revert s. induction F as [|e l es ls (l1 & l2 & -> & H1' & H2') F IH]; intros s.
  - cbn. do 2 f_equal. lia.
  - cbn [leaf_sub]. rewrite (opt_key_sub _ _ _ H1'). cbn [mbind res_bind].
    rewrite (opt_key_sub _ _ _ H2'). cbn [mbind res_bind]. rewrite IH.
    cbn [concat]. rewrite !sum_lengths_app. do 2 f_equal. lia.
Qed.

Lemma EncodeDirLeaf_Ok es ls o :
  Forall2 entry_keys es ls -> EncodeDirLeaf es = Ok o ->
  Marshal es = Ok (OBytes o) /\ Validate (OKey o) = Ok tt /\ Type_ (OKey o) = DirLeaf /\
  Length (OKey o) = u64 (zlen (OBytes o) + sum_lengths (concat ls)).
Proof.
  intros F. unfold EncodeDirLeaf. intros (b & Hb & E)%res_bind_Ok. change 0 with (u64 0) in E.
  rewrite (leaf_sub_Ok _ _ _ F) in E. cbn [mbind res_bind] in E. rewrite u64_add_r in E.
  apply new_object_Ok in E as (-> & ?); [done|done|apply u64_range].
Qed.

Lemma EncodeDirLeaf_total es ls b :
  Forall2 entry_keys es ls -> Marshal es = Ok b -> exists o, EncodeDirLeaf es = Ok o.
Proof.
  intros F Hb. unfold EncodeDirLeaf. rewrite Hb. cbn [mbind res_bind]. change 0 with (u64 0).
  rewrite (leaf_sub_Ok _ _ _ F). cbn [mbind res_bind]. by apply new_object_total.
Qed.

Lemma entry_children_Ok e l : entry_keys e l -> entry_children e = Ok l.
Proof.
  intros (l1 & l2 & -> & A1 & A2). unfold entry_children.
  assert (forall b l, opt_key b l ->
  match b with [] => Ok [] | _ => ck ← Parse b; Ok [ck] end = Ok l) as K.
  { intros b l [[-> ->]|(k & -> & E)]; [done|].
    pose proof (Parse_length _ _ E). destruct b; [done|]. by rewrite E. }
  rewrite (K _ _ A1). cbn [mbind res_bind]. by rewrite (K _ _ A2).
Qed.

Lemma DecodeFileNode_Encode `{!CborOk (list bytes) (array_wf any)} ks o :
  zlen ks <= MaxArrayElements -> Forall (fun k => Validate k = Ok tt) ks ->
  EncodeFileNode ks = Ok o -> DecodeFileNode (OBytes o) = Ok ks.
Proof.
  intros HL HV (E & _)%EncodeFileNode_Ok. unfold DecodeFileNode.
  assert (array_wf any (map b32_bytes ks)) as W.
  { split; [unfold zlen in *; by rewrite length_map|by apply list.Forall_forall]. }
  rewrite (cbor_roundtrip _ _ W E). by apply Parse_map.
Qed.

Lemma opt_key_valid b l : opt_key b l -> Forall (fun k => Validate k = Ok tt) l.
Proof. intros [[_ ->]|(k & -> & [_ E]%Parse_Ok)]; auto. Qed.
End Objects.

(** Stand-ins for the marshaller at the tree's types, for closed instances. *)
#[export] Instance codec_entry : Codec Entry :=
  codec_iso
    (fun e => (Name e, Mode e, UID e, GID e, Mtime e, ContentKey e, LinkTarget e, Rdev e,
               XattrsIn e, XattrsKey e))
    (fun '(a, b, c, d, e, f, g, h, i, j) => MkEntry a b c d e f g h i j).
#[export] Instance codec_entry_ok : CodecOk Entry.
Proof. apply codec_iso_ok. by intros []. Qed.
#[export] Instance codec_pair : Codec DirPair :=
  codec_iso (fun p => (SepName p, ChildKey p)) (fun '(a, b) => MkDirPair a b).
#[export] Instance codec_pair_ok : CodecOk DirPair.
Proof. apply codec_iso_ok. by intros []. Qed.
#[export] Instance cbor_entry : Cbor Entry := toy_cbor Entry.
#[export] Instance cbor_pair : Cbor DirPair := toy_cbor DirPair.
#[export] Instance cbor_entries : Cbor (list Entry) := toy_cbor (list Entry).
#[export] Instance cbor_pairs : Cbor (list DirPair) := toy_cbor (list DirPair).
#[export] Instance cbor_entry_ok wf : CborOk Entry wf := toy_cbor_ok Entry wf.
#[export] Instance cbor_pair_ok wf : CborOk DirPair wf := toy_cbor_ok DirPair wf.
#[export] Instance cbor_entries_ok wf : CborOk (list Entry) wf := toy_cbor_ok (list Entry) wf.
#[export] Instance cbor_pairs_ok wf : CborOk (list DirPair) wf := toy_cbor_ok (list DirPair) wf.

(** * Properties *)

Section Built.
Context `{Blake3} `{Cbor (list bytes)} `{Cbor (list Entry)} `{Cbor (list DirPair)}.

(** An object built by one of the encoders from inputs in the marshaller's domain, with
    the keys it references. *)
Inductive built : Object -> list Key -> Prop :=
  | built_blob data o : EncodeBlob data = Ok o -> built o []
  | built_xattrs m o : EncodeXattrSet m = Ok o -> built o []
  | built_file ks o :
  zlen ks <= MaxArrayElements -> Forall (fun k => Validate k = Ok tt) ks ->
  EncodeFileNode ks = Ok o -> built o ks
  | built_node ps ks o :
  zlen ps <= MaxArrayElements -> Forall2 (fun p k => Parse (ChildKey p) = Ok k) ps ks ->
  EncodeDirNode ps = Ok o -> built o ks
  | built_leaf es ls o :
  array_wf entry_wf es -> Forall2 entry_keys es ls ->
  EncodeDirLeaf es = Ok o -> built o (concat ls).

(** What the length field of an object counts (architecture/types.md): the bytes below it,
    its own included except in a file's index. *)
Definition own_bytes (o : Object) : Z := if Type_ (OKey o) =? FileNode then 0 else zlen (OBytes o).

Lemma array_any {A} (l : list A) : zlen l <= MaxArrayElements -> array_wf any l.
Proof. intros. split; [done|]. by apply list.Forall_forall. Qed.

Lemma built_fields o ks :
  built o ks ->
  Validate (OKey o) = Ok tt /\ Length (OKey o) = u64 (own_bytes o + sum_lengths ks).
Proof.
  unfold own_bytes. destruct 1 as [d o E|m o E|ks o _ _ E|ps ks o _ F E|es ls o _ F E].
  - apply EncodeBlob_Ok in E as (E1 & ? & -> & ->). split; [done|]. rewrite E1. cbn. f_equal. lia.
  - apply new_object_Ok in E as (E1 & ? & -> & ->); [|done|apply u64_range].
    split; [done|]. rewrite E1. cbn. f_equal. lia.
  - apply EncodeFileNode_Ok in E as (_ & ? & -> & ->). done.
  - apply (EncodeDirNode_Ok _ _ _ F) in E as (_ & ? & -> & ->). done.
  - apply (EncodeDirLeaf_Ok _ _ _ F) in E as (_ & ? & -> & ->). done.
Qed.

(** Every object the encoders build is readable by the program's own walk: its key is
    canonical, [ChildKeys] of its bytes returns exactly the keys it was built from, in
    order, and its length field is its own size (an index node of a file counts nothing
    for itself) plus the lengths of its children, modulo 2^64. *)
Theorem built_children_and_length
  `{!CborOk (list bytes) (array_wf any)} `{!CborOk (list Entry) (array_wf entry_wf)}
  `{!CborOk (list DirPair) (array_wf any)} o ks :
  built o ks ->
  Validate (OKey o) = Ok tt /\ ChildKeys (OKey o) (OBytes o) = Ok ks /\
  Length (OKey o) = u64 (own_bytes o + sum_lengths ks).
Proof.
  intros B. destruct (built_fields o ks B) as [HV HL]. split; [done|]. split; [|done].
  unfold ChildKeys. destruct B as [d o E|m o E|ks o HN HF E|ps ks o HN F E|es ls o HW F E].
  - by apply EncodeBlob_Ok in E as (_ & _ & -> & _).
  - by apply new_object_Ok in E as (_ & _ & -> & _); [|done|apply u64_range].
  - pose proof (DecodeFileNode_Encode ks o HN HF E) as D.
    by apply EncodeFileNode_Ok in E as (_ & _ & -> & _).
  - apply (EncodeDirNode_Ok _ _ _ F) in E as (E & _ & -> & _). cbn -[Parse].
    unfold DecodeDirNode. rewrite (cbor_roundtrip (wf := array_wf any) _ _ (array_any _ HN) E).
    cbn -[Parse]. by apply res_mapM_Ok.
  - apply (EncodeDirLeaf_Ok _ _ _ F) in E as (E & _ & -> & _). cbn -[Parse].
    unfold DecodeDirLeaf. rewrite (cbor_roundtrip _ _ HW E). cbn -[Parse].
    replace (mapM entry_children es) with (Ok ls : res (list (list Key))); [done|].
    symmetry. apply res_mapM_Ok. revert F. apply Forall2_impl. intros. by apply entry_children_Ok.
Qed.
End Built.

Definition sample_node : Object :=
  match EncodeFileNode [key_300; key_300] with Ok o => o | Err _ => MkObject inhabitant [] end.
Lemma built_children_and_length_witness :
  ChildKeys (OKey sample_node) (OBytes sample_node) = Ok [key_300; key_300] /\
  Length (OKey sample_node) = 600.
Proof.
  assert (built sample_node [key_300; key_300]) as B.
  { apply built_file; [done| |vm_compute; reflexivity]. by repeat constructor. }
  destruct (built_children_and_length _ _ B) as (_ & H1 & H2). split; [exact H1|].
  rewrite H2. vm_compute. reflexivity.
Defined.
