(* ===== verification/Readers.v ===== *)
(** Package fstree, the readers (src/fstree/content.go, lookup.go, list.go, collect.go): each
    descends a tree of objects through [get], the function that fetches the bytes stored
    under a key. The recursion follows keys, so it carries fuel: one unit per level.
    [ftree] and [dtree] say what tree of which height a key roots; every reader is shown
    to compute, on such a tree, what its doc comment promises of the flat content. *)
From S2P Require Import Prelude External Concrete Key Pack Objects Chunker.

Definition S_IFMT : Z := 61440. (* 0xf000 *)
Definition S_IFDIR : Z := 16384. (* 0x4000 *)

(** [strings.SplitSeq(path, "/")]: always at least one component. *)
Definition SplitSlash (path : bytes) : list bytes := split_on x2f path.

Section Readers.
Context `{Cbor (list bytes)} `{Cbor (list Entry)} `{Cbor (list DirPair)}.
Context (get : Key -> res bytes).

(** [w.Write] is an effect on [W] that may fail. *)
Fixpoint WriteContent {W} (write : bytes -> M W unit) (fuel : nat) (k : Key) : M W unit :=
  match fuel with
  | O => fail [OutOfFuel]
  | S fuel' =>
    data ← lift (get k);
    if Type_ k =? Blob then write data
    else if Type_ k =? FileNode then
    children ← lift (DecodeFileNode data);
    each (WriteContent write fuel') children
    else fail [EMsg "not a file-content object"]
  end.

Fixpoint LookupEntry (fuel : nat) (k : Key) (name : bytes) : res Entry :=
  match fuel with
  | O => Err [OutOfFuel]
  | S fuel' =>
    data ← get k;
    if Type_ k =? DirLeaf then
    entries ← DecodeDirLeaf data;
    let i := sort_search (length entries)
       (fun i => from_option (fun e => bytes_leb name (Name e)) false (entries !! i)) in
    match entries !! i with
    | Some e => if bool_decide (Name e = name) then Ok e else Err [ErrEntryNotFound]
    | None => Err [ErrEntryNotFound]
    end
    else if Type_ k =? DirNode then
    pairs ← DecodeDirNode data;
    let i := sort_search (length pairs)
       (fun i => from_option (fun p => bytes_leb name (SepName p)) false (pairs !! i)) in
    match pairs !! i with
    | None => Err [ErrEntryNotFound]
    | Some p => ck ← Parse (ChildKey p); LookupEntry fuel' ck name
    end
    else Err [EMsg "not a directory object"]
  end.

(** The page being filled, [*out], is the state. *)
Fixpoint list_leaf (limit : Z) (es : list Entry) : M (list Entry) bool :=
  match es with
  | [] => mret false
  | e :: es' =>
    out ← gets id;
    if zlen out =? limit then mret true
    else _ ← modify (fun out => out ++ [e]); list_leaf limit es'
  end.
Fixpoint list_node (rec : Key -> M (list Entry) bool) (ps : list DirPair) : M (list Entry) bool :=
  match ps with
  | [] => mret false
  | p :: ps' =>
    ck ← lift (Parse (ChildKey p));
    more ← rec ck;
    if more : bool then mret true else list_node rec ps'
  end.
Fixpoint listInto (fuel : nat) (k : Key) (after : bytes) (limit : Z) : M (list Entry) bool :=
  match fuel with
  | O => fail [OutOfFuel]
  | S fuel' =>
    data ← lift (get k);
    if Type_ k =? DirLeaf then
    entries ← lift (DecodeDirLeaf data);
    let i := sort_search (length entries)
       (fun i => from_option (fun e => bytes_ltb after (Name e)) false (entries !! i)) in
    list_leaf limit (drop i entries)
    else if Type_ k =? DirNode then
    pairs ← lift (DecodeDirNode data);
    let i := sort_search (length pairs)
       (fun i => from_option (fun p => bytes_ltb after (SepName p)) false (pairs !! i)) in
    list_node (fun ck => listInto fuel' ck after limit) (drop i pairs)
    else fail [EMsg "not a directory object"]
  end.

Definition ListEntries (fuel : nat) (dir : Key) (after : bytes) (limit : Z) :
  res (list Entry * bool) :=
  if limit <=? 0 then Err [EMsg "ListEntries limit must be positive"]
  else match listInto fuel dir after limit [] with
  | (Ok more, out) => Ok (out, more)
  | (Err e, _) => Err e
  end.

(** Names must strictly increase across leaves. *)
Definition collect_one (e : Entry) : M (list Entry) unit :=
  out ← gets id;
  match list.last out with
  | Some e0 => if bytes_leb (Name e) (Name e0) then fail [EMsg "entry is not after its predecessor"]
    else modify (fun out => out ++ [e])
  | None => modify (fun out => out ++ [e])
  end.
Fixpoint collectEntries (fuel : nat) (k : Key) : M (list Entry) unit :=
  match fuel with
  | O => fail [OutOfFuel]
  | S fuel' =>
    data ← lift (get k);
    if Type_ k =? DirLeaf then
    entries ← lift (DecodeDirLeaf data);
    each collect_one entries
    else if Type_ k =? DirNode then
    pairs ← lift (DecodeDirNode data);
    each (fun p => ck ← lift (Parse (ChildKey p)); collectEntries fuel' ck) pairs
    else fail [EMsg "not a directory object"]
  end.
Definition CollectEntries (fuel : nat) (k : Key) : res (list Entry) :=
  match collectEntries fuel k [] with (Ok _, out) => Ok out | (Err e, _) => Err e end.

Definition is_dir (e : Entry) : bool := Z.land (Mode e) S_IFMT =? S_IFDIR.
Definition skipped (comp : bytes) : bool := bool_decide (comp = []) || bool_decide (comp = [x2e]).
Definition dotdot (comp : bytes) : bool := bool_decide (comp = [x2e; x2e]).

Fixpoint resolve_path (fuel : nat) (comps : list bytes) (k : Key) : res Key :=
  match comps with
  | [] => Ok k
  | comp :: cs =>
    if skipped comp then resolve_path fuel cs k
    else if dotdot comp then Err [EMsg "dot-dot is not supported"]
    else
    found ← LookupEntry fuel k comp;
    if negb (is_dir found) then Err [ErrNotDir]
    else ck ← Parse (ContentKey found); resolve_path fuel cs ck
  end.
Definition ResolvePath (fuel : nat) (root : Key) (path : bytes) : res Key :=
  resolve_path fuel (SplitSlash path) root.

Fixpoint resolve_entry (fuel : nat) (comps : list bytes) (dir : Key) (cur : option Entry) :
  res (option Entry) :=
  match comps with
  | [] => Ok cur
  | comp :: cs =>
    if skipped comp then resolve_entry fuel cs dir cur
    else if dotdot comp then Err [EMsg "dot-dot is not supported"]
    else
    dir ← (match cur with
      | None => Ok dir
      | Some c => if negb (is_dir c) then Err [ErrNotDir] else Parse (ContentKey c)
      end);
    ent ← LookupEntry fuel dir comp;
    resolve_entry fuel cs dir (Some ent)
  end.
Definition ResolveEntry (fuel : nat) (root : Key) (path : bytes) : res (option Entry) :=
  resolve_entry fuel (SplitSlash path) root None.

(** * The trees *)

(** [k] roots a file tree of height at most [n] whose Blob leaves are [chunks]. *)
Fixpoint ftree (n : nat) (k : Key) (chunks : list bytes) : Prop :=
  match n with
  | O => False
  | S n' =>
    exists data, get k = Ok data /\
    ((Type_ k = Blob /\ chunks = [data]) \/
      (Type_ k = FileNode /\ exists ks css, DecodeFileNode data = Ok ks /\
        Forall2 (ftree n') ks css /\ chunks = concat css))
  end.

Definition last_name (es : list Entry) : option bytes := Name <$> list.last es.

(** [k] roots a directory tree of height at most [n] that holds the entries [es]; each
    pair carries the greatest name below it. *)
Fixpoint dtree (n : nat) (k : Key) (es : list Entry) : Prop :=
  match n with
  | O => False
  | S n' =>
    exists data, get k = Ok data /\
    ((Type_ k = DirLeaf /\ DecodeDirLeaf data = Ok es) \/
      (Type_ k = DirNode /\ exists ps ess, DecodeDirNode data = Ok ps /\
        Forall2 (fun p es => exists ck, Parse (ChildKey p) = Ok ck /\ dtree n' ck es /\
          last_name es = Some (SepName p)) ps ess /\ es = concat ess))
  end.

Lemma ftree_mono n m k cs : ftree n k cs -> (n <= m)%nat -> ftree m k cs.
Proof.
  revert m k cs. induction n as [|n IH]; intros [|m] k cs; cbn [ftree]; try done; try lia.
  intros (data & Hg & D) Hm. exists data. split; [done|].
  destruct D as [?|(? & ks & css & ? & F & ?)]; [by left|right]. split; [done|].
  exists ks, css. split; [done|]. split; [|done]. revert F. apply Forall2_impl.
  intros. apply IH; [done|lia].
Qed.

Lemma dtree_mono n m k es : dtree n k es -> (n <= m)%nat -> dtree m k es.
Proof.
  revert m k es. induction n as [|n IH]; intros [|m] k es; cbn [dtree]; try done; try lia.
  intros (data & Hg & D) Hm. exists data. split; [done|].
  destruct D as [?|(? & ps & ess & ? & F & ?)]; [by left|right]. split; [done|].
  exists ps, ess. split; [done|]. split; [|done]. revert F. apply Forall2_impl.
  intros p es' (ck & ? & ? & ?). exists ck. split; [done|]. split; [apply IH; [done|lia]|done].
Qed.
End Readers.

(** * Directories in name order *)

Definition name_lt (e1 e2 : Entry) : Prop := bytes_lt (Name e1) (Name e2).
Definition in_order (es : list Entry) : Prop := StronglySorted name_lt es.

Lemma in_order_app es1 es2 :
  in_order (es1 ++ es2) <->
  in_order es1 /\ in_order es2 /\ (forall a b, a ∈ es1 -> b ∈ es2 -> name_lt a b).
Proof.
  unfold in_order. induction es1 as [|e es1 IH]; cbn [app].
  - split; [|by intros (_ & ? & _)]. intros. split; [constructor|]. split; [done|].
    by intros a b ?%elem_of_nil.
  - split.
    + inversion_clear 1 as [|? ? S F]. apply IH in S as (S1 & S2 & X).
      apply Forall_app in F as [F1 F2]. split; [by constructor|]. split; [done|].
      intros a b [->|Ha]%elem_of_cons Hb; [|by apply X].
      rewrite list.Forall_forall in F2. by apply F2.
    + intros (S1 & S2 & X). inversion_clear S1 as [|? ? S F]. constructor.
      * apply IH. split; [done|]. split; [done|]. intros a b ??. apply X; [by right|done].
      * apply Forall_app. split; [done|]. apply list.Forall_forall. intros b Hb. apply X; [by left|done].
Qed.

Lemma in_order_lookup es i j a b :
  in_order es -> (i < j)%nat -> es !! i = Some a -> es !! j = Some b -> name_lt a b.
Proof.
  intros HS Hij Ha Hb. rewrite <- (take_drop (S i) es) in HS.
  apply in_order_app in HS as (_ & _ & X). apply X.
  - apply (list_elem_of_lookup_2 _ i). rewrite lookup_take_lt by lia. done.
  - apply (list_elem_of_lookup_2 _ (j - S i)). rewrite lookup_drop. by replace (S i + (j - S i))%nat with j by lia.
Qed.

(** [filter] on a list split by bisection. *)
Lemma filter_split {A} (P : A -> bool) l1 l2 :
  Forall (fun x => P x = false) l1 -> Forall (fun x => P x = true) l2 ->
  filter (fun x => P x = true) (l1 ++ l2) = l2.
Proof.
  intros F1 F2. rewrite list.filter_app. replace (filter _ l1) with (@nil A).
  - induction F2 as [|x l E _ IH]; [done|]. rewrite filter_cons_True by done. cbn in *. by f_equal.
  - symmetry. induction F1 as [|x l E _ IH]; [done|]. rewrite filter_cons_False; [done|by rewrite E].
Qed.

(** ** The pairs of an index node *)

Section Node.
Context (D : Key -> list Entry -> Prop).
Definition pair_holds (p : DirPair) (es : list Entry) : Prop :=
  exists ck, Parse (ChildKey p) = Ok ck /\ D ck es /\ last_name es = Some (SepName p).

Lemma last_name_last es s : last_name es = Some s -> exists e l, es = l ++ [e] /\ Name e = s.
Proof.
  unfold last_name. intros (e & E & ->)%fmap_Some. apply last_Some in E as [l ->]. eauto.
Qed.

(** Everything below a pair is at most its separator. *)
Lemma below_sep p es e : pair_holds p es -> in_order es -> e ∈ es -> bytes_le (Name e) (SepName p).
Proof.
  intros (_ & _ & _ & (e0 & l & -> & <-)%last_name_last) HS [He|He]%elem_of_app.
  - apply in_order_app in HS as (_ & _ & X). apply bytes_lt_le, X; [done|by left].
  - apply list_elem_of_singleton in He as ->. reflexivity.
Qed.

Lemma sep_in p es : pair_holds p es -> exists e, e ∈ es /\ Name e = SepName p.
Proof.
  intros (_ & _ & _ & (e0 & l & -> & <-)%last_name_last). exists e0. split; [|done].
  apply elem_of_app. right. by left.
Qed.

Lemma groups_after p ps es ess q :
  Forall2 pair_holds (p :: ps) (es :: ess) -> in_order (es ++ concat ess) -> q ∈ ps ->
  bytes_lt (SepName p) (SepName q).
Proof.
  intros F (_ & _ & X)%in_order_app Hq. apply Forall2_cons_1 in F as [Hp F].
  apply list_elem_of_lookup in Hq as [j Hj].
  destruct (Forall2_lookup_l _ _ _ _ _ F Hj) as (es' & Hes' & Hp').
  destruct (sep_in _ _ Hp) as (e1 & H1 & <-). destruct (sep_in _ _ Hp') as (e2 & H2 & <-).
  apply X; [done|]. apply list_elem_of_In, in_concat. exists es'.
  split; apply list_elem_of_In; [by eapply list_elem_of_lookup_2|done].
Qed.

(** A predicate that holds from some name on is monotone along the pairs. *)
Lemma pairs_monotone (P : bytes -> bool) ps ess :
  (forall a b, bytes_lt a b -> P a = true -> P b = true) ->
  Forall2 pair_holds ps ess -> in_order (concat ess) ->
  forall i j x y, (i <= j)%nat -> ps !! i = Some x -> ps !! j = Some y ->
  P (SepName x) = true -> P (SepName y) = true.
Proof.
  intros HP F. induction F as [|p es ps ess Hp F IH]; intros HS i j x y Hij Hx Hy Px; [done|].
  cbn [concat] in HS. pose proof HS as (_ & HS2 & _)%in_order_app.
  destruct i as [|i], j as [|j]; cbn in Hx, Hy; try lia.
  - congruence.
  - injection Hx as <-. apply (HP (SepName p)); [|done].
    eapply groups_after; [by constructor|done|]. by eapply list_elem_of_lookup_2.
  - apply (IH HS2 i j x y); [lia|done..].
Qed.

(** What lies below pairs on the failing side of such a predicate fails it. *)
Lemma skipped_groups (P : bytes -> bool) ps ess :
  (forall a b, bytes_lt a b -> P a = true -> P b = true) ->
  Forall2 pair_holds ps ess -> in_order (concat ess) ->
  Forall (fun p => P (SepName p) = false) ps -> Forall (fun e => P (Name e) = false) (concat ess).
Proof.
  intros HP F. induction F as [|p es ps ess Hp F IH]; intros HS HF; [done|].
  apply Forall_cons_1 in HF as [Hf HF]. cbn [concat] in *.
  pose proof HS as (HS1 & HS2 & _)%in_order_app. apply Forall_app. split; [|by apply IH].
  apply list.Forall_forall. intros e He. destruct (P (Name e)) eqn:E; [|done].
  pose proof (below_sep p es e Hp HS1 He) as [HB|HB]%bytes_le_lt_eq.
  - rewrite (HP _ _ HB E) in Hf. done.
  - by rewrite <- HB, E in Hf.
Qed.

(** Where bisection on the separators cuts a node: everything in the skipped subtrees
    fails the predicate. *)
Lemma node_split (P : bytes -> bool) ps ess :
  (forall a b, bytes_lt a b -> P a = true -> P b = true) ->
  Forall2 pair_holds ps ess -> in_order (concat ess) ->
  let i := sort_search (length ps) (fun i => from_option (fun p => P (SepName p)) false (ps !! i)) in
  exists ess1 ess2, concat ess = concat ess1 ++ concat ess2 /\
  Forall (fun e => P (Name e) = false) (concat ess1) /\
  Forall2 pair_holds (drop i ps) ess2 /\ in_order (concat ess2) /\
  Forall (fun p => P (SepName p) = true) (drop i ps).
Proof.
  intros HP F HS i.
  destruct (sort_search_split (fun p => P (SepName p)) ps (pairs_monotone P ps ess HP F HS)) as [F1 F2].
  fold i in F1, F2. clearbody i. exists (take i ess), (drop i ess).
  rewrite <- (take_drop i ess), concat_app in HS. pose proof HS as (HS1 & HS2 & _)%in_order_app.
  split; [by rewrite <- concat_app, take_drop|]. split; [|split; [by apply Forall2_drop|done]].
  apply (skipped_groups P (take i ps)); [done|by apply Forall2_take|done|done].
Qed.
End Node.

Lemma leaf_monotone (P : bytes -> bool) es :
  (forall a b, bytes_lt a b -> P a = true -> P b = true) -> in_order es ->
  forall i j x y, (i <= j)%nat -> es !! i = Some x -> es !! j = Some y ->
    P (Name x) = true -> P (Name y) = true.
Proof.
  intros HP HS i j x y Hij Hx Hy Px. destruct (decide (i = j)) as [->|]; [congruence|].
  apply (HP (Name x)); [|done]. eapply (in_order_lookup es i j); [done|lia|done..].
Qed.

Lemma leb_up x a b : bytes_lt a b -> bytes_leb x a = true -> bytes_leb x b = true.
Proof. rewrite !bytes_leb_le. eauto using bytes_lt_le, bytes_le_lt_trans. Qed.
Lemma ltb_up x a b : bytes_lt a b -> bytes_ltb x a = true -> bytes_ltb x b = true.
Proof. rewrite !bytes_ltb_lt. eauto using bytes_lt_trans. Qed.

(** ** What each reader computes *)

(** The entry called [name], in a list. *)
Definition find_name (name : bytes) (es : list Entry) : option Entry :=
  head (filter (fun e => Name e = name) es).

Lemma find_name_None name es : (forall e, e ∈ es -> Name e <> name) -> find_name name es = None.
Proof.
  intros Hn. unfold find_name. induction es as [|e es IH]; [done|].
  rewrite filter_cons_False by (apply Hn; by left). apply IH. intros; apply Hn; by right.
Qed.

Lemma find_name_skip name l1 l2 :
  (forall e, e ∈ l1 -> Name e <> name) -> find_name name (l1 ++ l2) = find_name name l2.
Proof.
  intros Hn. unfold find_name. rewrite list.filter_app.
  induction l1 as [|e l1 IH]; [done|].
  rewrite filter_cons_False by (apply Hn; by left). apply IH. intros; apply Hn; by right.
Qed.

Lemma find_name_prefix name l1 l2 :
  (forall e, e ∈ l2 -> Name e <> name) -> find_name name (l1 ++ l2) = find_name name l1.
Proof.
  intros Hn. unfold find_name. rewrite list.filter_app.
  replace (filter _ l2) with (@nil Entry); [by rewrite app_nil_r|].
  induction l2 as [|e l2 IH]; [done|].
  rewrite filter_cons_False by (apply Hn; by left). apply IH. intros; apply Hn; by right.
Qed.

(** The error every reader gives for a missing name. *)
Definition found (o : option Entry) : res Entry := from_opt [ErrEntryNotFound] o.

Section Specs.
Context `{Cbor (list bytes)} `{Cbor (list Entry)} `{Cbor (list DirPair)}.
Context (get : Key -> res bytes).

Lemma WriteContent_ftree {W} (write : bytes -> M W unit) n k cs fuel :
  ftree get n k cs -> (n <= fuel)%nat ->
  forall s, WriteContent get write fuel k s = each write cs s.
Proof.
  revert k cs fuel. induction n as [|n IH]; intros k cs [|fuel] HT Hf s; try done; [lia|].
  destruct HT as (data & Hg & HT). cbn [WriteContent]. unfold lift, mbind, M_bind at 1. rewrite Hg.
  destruct HT as [[-> ->]|(-> & ks & css & Hd & F & ->)]; cbn -[each DecodeFileNode].
  - cbn. unfold mbind, M_bind. by destruct (write data s) as [[[]|] ?].
  - rewrite Hd. apply each_concat. revert F. apply Forall2_impl. intros k' cs' HT' s'.
    apply IH; [done|lia].
Qed.

Lemma leaf_split (P : bytes -> bool) es :
  (forall a b, bytes_lt a b -> P a = true -> P b = true) -> in_order es ->
  let i := sort_search (length es) (fun i => from_option (fun e => P (Name e)) false (es !! i)) in
  Forall (fun e => P (Name e) = false) (take i es) /\ Forall (fun e => P (Name e) = true) (drop i es).
Proof. intros HP HS. apply (sort_search_split (fun e => P (Name e))). by apply leaf_monotone. Qed.

Lemma leb_fails name es :
  Forall (fun e => bytes_leb name (Name e) = false) es -> forall e, e ∈ es -> Name e <> name.
Proof.
  intros HF e He <-. rewrite list.Forall_forall in HF. specialize (HF e He). cbn in HF.
  by apply bytes_leb_false, bytes_lt_irrefl in HF.
Qed.

(** Past an entry not below [name], only later names. *)
Lemma after_ge name e es :
  in_order (e :: es) -> bytes_leb name (Name e) = true -> forall e', e' ∈ es -> Name e' <> name.
Proof.
  intros HS Hle e' He' <-. inversion_clear HS as [|? ? _ HF].
  rewrite list.Forall_forall in HF. specialize (HF e' He'). apply bytes_leb_le in Hle.
  destruct (bytes_lt_irrefl (Name e)). by eapply bytes_lt_le_trans.
Qed.

Lemma LookupEntry_leaf name es :
  in_order es ->
  match es !! sort_search (length es)
    (fun i => from_option (fun e => bytes_leb name (Name e)) false (es !! i)) with
  | Some e => if bool_decide (Name e = name) then Ok e else Err [ErrEntryNotFound]
  | None => Err [ErrEntryNotFound]
  end = found (find_name name es).
Proof.
  intros HS. destruct (leaf_split (bytes_leb name) es (leb_up name) HS) as [F1 F2].
  set (i := sort_search _ _) in *. clearbody i.
  assert (find_name name es = find_name name (drop i es)) as ->.
  { rewrite <- (take_drop i es) at 1. by apply find_name_skip, leb_fails. }
  destruct (es !! i) as [e|] eqn:E.
  - rewrite <- (take_drop i es), (drop_S _ _ _ E) in HS. apply in_order_app in HS as (_ & HS & _).
    rewrite (drop_S _ _ _ E) in *. apply Forall_cons_1 in F2 as [Fe _].
    case_bool_decide as En.
    + unfold find_name. by rewrite filter_cons_True.
    + rewrite find_name_None; [done|]. intros e' [->|He']%elem_of_cons; [done|].
      by eapply after_ge.
  - apply lookup_ge_None in E. by rewrite drop_ge by lia.
Qed.

Lemma LookupEntry_dtree n k es fuel name :
  dtree get n k es -> in_order es -> (n <= fuel)%nat ->
  LookupEntry get fuel k name = found (find_name name es).
Proof.
  revert k es fuel. induction n as [|n IH]; intros k es [|fuel] HT HS Hf; try done; [lia|].
  destruct HT as (data & Hg & HT). cbn [LookupEntry]. rewrite Hg. cbn [mbind res_bind].
  destruct HT as [[-> Hd]|(-> & ps & ess & Hd & F & ->)]; cbn -[DecodeDirLeaf DecodeDirNode sort_search].
  - rewrite Hd. by apply LookupEntry_leaf.
  - rewrite Hd. cbn [mbind res_bind].
    destruct (node_split _ (bytes_leb name) ps ess (leb_up name) F HS)
    as (ess1 & ess2 & -> & F1 & F' & HS' & F2). clear F HS.
    set (i := sort_search _ _) in *. clearbody i.
    rewrite find_name_skip by (by apply leb_fails).
    destruct (ps !! i) as [p|] eqn:Ep.
    + rewrite (drop_S _ _ _ Ep) in F', F2. apply Forall_cons_1 in F2 as [Fp _].
      destruct ess2 as [|es ess2]; [by apply Forall2_cons_nil_inv in F'|].
      apply Forall2_cons_1 in F' as [Hp _]. cbn [concat] in *.
      pose proof HS' as (HSe & _ & X)%in_order_app.
      destruct (sep_in _ _ _ Hp) as (e0 & Hin0 & E0). destruct Hp as (ck & -> & Hdt & _).
      cbn [mbind res_bind]. rewrite (IH ck es fuel Hdt HSe ltac:(lia)), find_name_prefix; [done|].
      intros e Hin <-. specialize (X e0 e Hin0 Hin). unfold name_lt in X. rewrite E0 in X.
      apply bytes_leb_le in Fp. destruct (bytes_lt_irrefl (Name e)). by eapply bytes_le_lt_trans.
    + apply lookup_ge_None in Ep. rewrite drop_ge in F' by lia.
      by apply Forall2_nil_inv_l in F' as ->.
Qed.
End Specs.

(** ** Pages and full listings *)

Section Pages.
Context (limit : Z).
Hypothesis Hlimit : 0 <= limit.

(** What a page in progress becomes when [q] follows it. *)
Definition page (out q : list Entry) : res bool * list Entry :=
  (Ok (limit <? zlen (out ++ q)), take (Z.to_nat limit) (out ++ q)).
Definition open_page (out : list Entry) : Prop := zlen out <= limit.

Lemma page_open_nil out : open_page out -> page out [] = (Ok false, out).
Proof.
  unfold page, open_page. intros. rewrite app_nil_r. destruct (Z.ltb_spec limit (zlen out)); [lia|].
  rewrite take_ge; [done|]. unfold zlen in *. lia.
Qed.

Lemma list_leaf_page es out : open_page out -> list_leaf limit es out = page out es.
Proof.
  revert out. induction es as [|e es IH]; intros out Ho; [by rewrite page_open_nil|].
  cbn [list_leaf]. unfold gets, mbind, M_bind at 1. cbn [id].
  destruct (Z.eqb_spec (zlen out) limit) as [E|E].
  - unfold page. rewrite zlen_app, zlen_cons. pose proof (zlen_nonneg es).
    destruct (Z.ltb_spec limit (zlen out + (zlen es + 1))); [|lia].
    rewrite take_app_le, take_ge by (unfold zlen in *; lia). done.
  - cbn. unfold modify. cbn [M_bind]. rewrite IH.
    + unfold page. by rewrite <- app_assoc.
    + unfold open_page in *. rewrite zlen_app. change (zlen [e]) with 1. lia.
Qed.

Lemma page_step out q1 q2 :
  open_page out ->
  (match page out q1 with
    | (Ok true, out') => (Ok true, out')
    | (Ok false, out') => page out' q2
    | (Err e, out') => (Err e, out')
    end) = page out (q1 ++ q2).
Proof.
  unfold page, open_page. intros Ho. destruct (Z.ltb_spec limit (zlen (out ++ q1))) as [L|L].
  - rewrite app_assoc. rewrite (zlen_app (out ++ q1)). pose proof (zlen_nonneg q2).
    destruct (Z.ltb_spec limit (zlen (out ++ q1) + zlen q2)); [|lia].
    f_equal. by rewrite (take_app_le (out ++ q1)) by (unfold zlen in *; lia).
  - rewrite take_ge by (unfold zlen in *; lia). by rewrite app_assoc.
Qed.

Lemma page_still_open out q out' : page out q = (Ok false, out') -> open_page out'.
Proof.
  unfold page, open_page. intros [= E <-]. apply Z.ltb_ge in E.
  unfold zlen in *. rewrite length_take. lia.
Qed.

Lemma list_node_page rec ps qs out :
  Forall2 (fun p q => exists ck, Parse (ChildKey p) = Ok ck /\
    forall out, open_page out -> rec ck out = page out q) ps qs ->
  open_page out -> list_node rec ps out = page out (concat qs).
Proof.
  intros F. revert out. induction F as [|p q ps qs (ck & Hck & Hrec) F IH]; intros out Ho.
  - by rewrite page_open_nil.
  - cbn [list_node concat]. unfold lift, mbind, M_bind at 1. rewrite Hck. unfold M_bind at 1.
    rewrite (Hrec out Ho). rewrite <- page_step by done.
    destruct (page out q) as [[[|]|e] out'] eqn:E; [done| |done]. by apply IH, (page_still_open out q).
Qed.
End Pages.

Lemma filter_none (P : Entry -> bool) l :
  Forall (fun e => P e = false) l -> filter (fun e => P e = true) l = [].
Proof. induction 1 as [|e l E _ IH]; [done|]. rewrite filter_cons_False; [done|by rewrite E]. Qed.

(** The entries whose names sort after [after]. *)
Definition entries_after (after : bytes) (es : list Entry) : list Entry :=
  filter (fun e => bytes_ltb after (Name e) = true) es.

Lemma collect_one_order e out :
  match collect_one e out with
  | (Ok _, out') => out' = out ++ [e] /\ (in_order out -> in_order out')
  | (Err _, _) => True
  end.
Proof.
  unfold collect_one, gets, mbind, M_bind. cbn [id].
  destruct (list.last out) as [e0|] eqn:El; cbn.
  - destruct (bytes_leb (Name e) (Name e0)) eqn:E; [done|]. cbn. split; [done|]. intros HS.
    apply bytes_leb_false in E. apply in_order_app. split; [done|]. split; [by repeat constructor|].
    intros a b Ha ->%list_elem_of_singleton. apply last_Some in El as [l ->].
    apply elem_of_app in Ha as [Ha| ->%list_elem_of_singleton]; [|done].
    apply in_order_app in HS as (_ & _ & X). eapply bytes_lt_trans; [|exact E]. apply X; [done|by left].
  - split; [done|]. intros _. apply last_None in El as ->. by repeat constructor.
Qed.

Lemma collect_all es out :
  in_order (out ++ es) -> each collect_one es out = (Ok tt, out ++ es).
Proof.
  revert out. induction es as [|e es IH]; intros out HS; [by rewrite app_nil_r|].
  cbn [each]. unfold mbind, M_bind.
  assert (collect_one e out = (Ok tt, out ++ [e])) as ->.
  { unfold collect_one, gets, mbind, M_bind. cbn [id].
    destruct (list.last out) as [e0|] eqn:El; [|done]. cbn.
    apply last_Some in El as [l ->]. apply in_order_app in HS as (_ & _ & X).
    specialize (X e0 e). rewrite (proj2 (bytes_leb_false _ _)); [done|].
    apply X; [apply elem_of_app; right|]; by left. }
  rewrite IH; rewrite <- app_assoc; done.
Qed.

Section ListSpecs.
Context `{Cbor (list bytes)} `{Cbor (list Entry)} `{Cbor (list DirPair)}.
Context (get : Key -> res bytes).

Lemma listInto_dtree n k es fuel after limit out :
  0 <= limit -> dtree get n k es -> in_order es -> (n <= fuel)%nat -> open_page limit out ->
  listInto get fuel k after limit out = page limit out (entries_after after es).
Proof.
  intros Hl. revert k es fuel out.
  induction n as [|n IH]; intros k es [|fuel] out HT HS Hf Ho; try done; [lia|].
  destruct HT as (data & Hg & HT). cbn [listInto]. unfold lift, mbind, M_bind at 1. rewrite Hg.
  unfold entries_after.
  destruct HT as [[-> Hd]|(-> & ps & ess & Hd & F & ->)]; cbn -[DecodeDirLeaf DecodeDirNode sort_search].
  - unfold M_bind. rewrite Hd.
    destruct (leaf_split (bytes_ltb after) es (ltb_up after) HS) as [F1 F2].
    set (i := sort_search _ _) in *. clearbody i. rewrite list_leaf_page by done. f_equal.
    rewrite <- (take_drop i es) at 2. symmetry.
    by apply (filter_split (fun e => bytes_ltb after (Name e))).
  - unfold M_bind. rewrite Hd.
    destruct (node_split _ (bytes_ltb after) ps ess (ltb_up after) F HS)
    as (ess1 & ess2 & -> & F1 & F' & HS' & _). clear F HS.
    set (i := sort_search _ _) in *. clearbody i. set (qs := drop i ps) in *. clearbody qs.
    rewrite list.filter_app, (filter_none (fun e => bytes_ltb after (Name e))) by done.
    cbn [app]. rewrite filter_concat. apply list_node_page; [done| |done].
    clear F1. induction F' as [|p es qs ess2 (ck & Hck & Hdt & _) F' IH']; [constructor|].
    cbn [concat] in HS'. apply in_order_app in HS' as (HSe & HS' & _).
    constructor; [|by apply IH']. exists ck. split; [done|]. intros out' Ho'.
    apply IH; [done..|lia|done].
Qed.

Lemma collectEntries_dtree n k es fuel out :
  dtree get n k es -> (n <= fuel)%nat ->
  collectEntries get fuel k out = each collect_one es out.
Proof.
  revert k es fuel out. induction n as [|n IH]; intros k es [|fuel] out HT Hf; try done; [lia|].
  destruct HT as (data & Hg & HT). cbn [collectEntries]. unfold lift, mbind, M_bind at 1. rewrite Hg.
  destruct HT as [[-> Hd]|(-> & ps & ess & Hd & F & ->)]; cbn -[DecodeDirLeaf DecodeDirNode each].
  - unfold M_bind. by rewrite Hd.
  - unfold M_bind at 1. rewrite Hd. apply each_concat. revert F. apply Forall2_impl.
    intros p es (ck & Hck & Hdt & _) s. unfold M_bind. rewrite Hck. apply IH; [done|lia].
Qed.

Lemma each_order {B} (g : B -> M (list Entry) unit) l out u out' :
  (forall b out u out', g b out = (Ok u, out') -> in_order out -> in_order out') ->
  each g l out = (Ok u, out') -> in_order out -> in_order out'.
Proof.
  intros Hg. revert out u. induction l as [|b l IH]; intros out u E HS; cbn [each] in E.
  - by injection E as _ <-.
  - apply M_bind_Ok in E as (u1 & out1 & E1 & E). eapply IH; [exact E|]. by eapply Hg.
Qed.

(** Whatever the store holds, a listing that succeeds is in name order. *)
Lemma collectEntries_order fuel k out u out' :
  collectEntries get fuel k out = (Ok u, out') -> in_order out -> in_order out'.
Proof.
  revert k out u out'. induction fuel as [|fuel IH]; intros k out u out' E HS; [done|].
  cbn [collectEntries] in E. apply M_bind_Ok in E as (data & s1 & E1 & E).
  injection E1 as _ <-. destruct (Type_ k =? DirLeaf); [|destruct (Type_ k =? DirNode); [|done]].
  - apply M_bind_Ok in E as (es & s1 & E1 & E). injection E1 as _ <-.
    eapply each_order; [|exact E|done]. intros e o u1 o1 Eo Ho.
    pose proof (collect_one_order e o) as C. rewrite Eo in C. by apply C.
  - apply M_bind_Ok in E as (ps & s1 & E1 & E). injection E1 as _ <-.
    eapply each_order; [|exact E|done]. intros p o u1 o1 Eo Ho.
    apply M_bind_Ok in Eo as (ck & s2 & E2 & Eo). injection E2 as _ <-. by eapply IH.
Qed.
End ListSpecs.

(** ** Paths *)

Section Paths.
Context `{Cbor (list bytes)} `{Cbor (list Entry)} `{Cbor (list DirPair)}.
Context (get : Key -> res bytes).

(** The directory a resolved entry stands for; none stands for the root. *)
Definition entry_dir (dir : Key) (cur : option Entry) : res Key :=
  match cur with
  | None => Ok dir
  | Some c => if negb (is_dir c) then Err [ErrNotDir] else Parse (ContentKey c)
  end.

Lemma resolve_entry_some fuel comps dir c r :
  resolve_entry get fuel comps dir (Some c) = Ok r -> exists c', r = Some c'.
Proof.
  revert dir c. induction comps as [|comp cs IH]; intros dir c E; cbn [resolve_entry] in E.
  - injection E as <-. eauto.
  - destruct (skipped comp); [by eapply IH|]. destruct (dotdot comp); [done|].
    res_inv. by eapply IH.
Qed.

Lemma resolve_agree_at fuel comps dir cur k' :
  (exists k, entry_dir dir cur = Ok k /\ resolve_path get fuel comps k = Ok k') <->
  (exists cur', resolve_entry get fuel comps dir cur = Ok cur' /\ entry_dir dir cur' = Ok k').
Proof.
  revert dir cur. induction comps as [|comp cs IH]; intros dir cur; cbn [resolve_path resolve_entry].
  - naive_solver.
  - destruct (skipped comp); [apply IH|]. destruct (dotdot comp); [naive_solver|].
    fold (entry_dir dir cur).
    destruct (entry_dir dir cur) as [d|e]; cbn [mbind res_bind]; [|naive_solver].
    destruct (LookupEntry get fuel d comp) as [ent|e] eqn:EL.
    2:{ split; [intros (? & [= <-] & E); by rewrite EL in E|by intros (? & E & _)]. }
    cbn [mbind res_bind].
    transitivity (exists k, entry_dir d (Some ent) = Ok k /\ resolve_path get fuel cs k = Ok k').
    + cbn [entry_dir]. split.
      * intros (? & [= <-] & E). rewrite EL in E. cbn [mbind res_bind] in E.
        destruct (is_dir ent); [|done]. cbn [negb] in *. apply res_bind_Ok in E. done.
      * intros E. exists d. split; [done|]. rewrite EL. cbn [mbind res_bind].
        destruct (is_dir ent); cbn [negb] in *; [|naive_solver]. by apply res_bind_Ok.
    + rewrite (IH d (Some ent)). split; intros (cur' & E1 & E2); exists cur'; (split; [done|]);
      destruct (resolve_entry_some _ _ _ _ _ E1) as [c ->]; done.
Qed.
End Paths.

(** * Properties *)

Section Properties.
Context `{Cbor (list bytes)} `{Cbor (list Entry)} `{Cbor (list DirPair)}.
Context (get : Key -> res bytes).

(** [LookupEntry] on a directory tree whose names strictly increase finds exactly the
    entry of that name, and reports [ErrNotFound] exactly when there is none: binary search
    over the separators of each level and over the leaf agrees with a scan of the whole
    directory. *)
Theorem lookup_entry_correct n k es fuel name :
  dtree get n k es -> in_order es -> (n <= fuel)%nat ->
  LookupEntry get fuel k name = found (find_name name es).
Proof. apply LookupEntry_dtree. Qed.

(** [ListEntries] returns the first [limit] entries whose names sort after [after], and
    reports more exactly when more such entries exist. *)
Theorem list_entries_correct n k es fuel after limit :
  dtree get n k es -> in_order es -> (n <= fuel)%nat -> 0 < limit ->
  ListEntries get fuel k after limit =
  Ok (take (Z.to_nat limit) (entries_after after es), limit <? zlen (entries_after after es)).
Proof.
  intros HT HS Hf Hl. unfold ListEntries. destruct (Z.leb_spec limit 0); [lia|].
  rewrite (listInto_dtree _ n k es) by (done || lia || (unfold open_page, zlen; cbn; lia)). done.
Qed.

(** [CollectEntries] returns a directory's entries in name order; and over any store at
    all, corrupt or adversarial, a listing it returns has strictly increasing names. *)
Theorem collect_entries_correct n k es fuel :
  dtree get n k es -> (n <= fuel)%nat ->
  (in_order es -> CollectEntries get fuel k = Ok es) /\
  (forall get' fuel' k' es', CollectEntries get' fuel' k' = Ok es' -> in_order es').
Proof.
  intros HT Hf. unfold CollectEntries. split.
  - intros HS. by rewrite (collectEntries_dtree _ n k es), collect_all.
  - intros g f k' es' E. destruct (collectEntries g f k' []) as [[u|e] out] eqn:EC; [|done].
    injection E as <-. apply (collectEntries_order _ _ _ _ _ _ EC). constructor.
Qed.

(** The two resolvers agree on every store and path: [ResolvePath] succeeds with a key
    exactly when [ResolveEntry] names the root itself or an entry of a directory with that
    content key. *)
Theorem resolvers_agree fuel root path k :
  ResolvePath get fuel root path = Ok k <->
  exists cur, ResolveEntry get fuel root path = Ok cur /\
  match cur with
  | None => k = root
  | Some e => is_dir e = true /\ Parse (ContentKey e) = Ok k
  end.
Proof.
  unfold ResolvePath, ResolveEntry. transitivity
  (exists k0, entry_dir root None = Ok k0 /\ resolve_path get fuel (SplitSlash path) k0 = Ok k).
  - cbn. naive_solver.
  - rewrite resolve_agree_at. cbn [entry_dir]. split; intros (cur & E & K); exists cur; (split; [done|]);
    destruct cur as [e|]; cbn [entry_dir] in *; try destruct (is_dir e); cbn in *; naive_solver.
Qed.
End Properties.

(** ** A two-level directory *)

Definition the {A} `{Inhabited A} (r : res A) : A := match r with Ok x => x | Err _ => inhabitant end.
#[export] Instance Object_inhabited : Inhabited Object := populate (MkObject inhabitant []).
Definition get_of (os : list Object) (k : Key) : res bytes :=
  match head (filter (fun o => OKey o = k) os) with
  | Some o => Ok (OBytes o)
  | None => Err [ErrNotFound]
  end.

Definition sample_entry (name : bytes) : Entry := MkEntry name 33188 0 0 0 [] [] [] [] [].
Definition sample_dir : list Entry := map sample_entry [[x61]; [x62]; [x62; x63]].
Definition sample_leaf1 : Object := the (EncodeDirLeaf (take 2 sample_dir)).
Definition sample_leaf2 : Object := the (EncodeDirLeaf (drop 2 sample_dir)).
Definition sample_root : Object :=
  the (EncodeDirNode [MkDirPair [x62] (b32_bytes (OKey sample_leaf1));
                      MkDirPair [x62; x63] (b32_bytes (OKey sample_leaf2))]).
Definition sample_get : Key -> res bytes := get_of [sample_leaf1; sample_leaf2; sample_root].

Lemma sample_dtree : dtree sample_get 2 (OKey sample_root) sample_dir.
Proof.
  assert (dtree sample_get 1 (OKey sample_leaf1) (take 2 sample_dir)) as H1.
  { eexists. split; [vm_compute; reflexivity|]. left. split; vm_compute; reflexivity. }
  assert (dtree sample_get 1 (OKey sample_leaf2) (drop 2 sample_dir)) as H2.
  { eexists. split; [vm_compute; reflexivity|]. left. split; vm_compute; reflexivity. }
  eexists. split; [vm_compute; reflexivity|]. right. split; [vm_compute; reflexivity|].
  exists [MkDirPair [x62] (b32_bytes (OKey sample_leaf1));
          MkDirPair [x62; x63] (b32_bytes (OKey sample_leaf2))], [take 2 sample_dir; drop 2 sample_dir].
  split; [vm_compute; reflexivity|]. split; [|reflexivity].
  constructor; [|constructor; [|constructor]].
  - exists (OKey sample_leaf1). split; [vm_compute; reflexivity|]. by split.
  - exists (OKey sample_leaf2). split; [vm_compute; reflexivity|]. by split.
Qed.
Lemma sample_in_order : in_order sample_dir.
Proof. repeat (constructor; try reflexivity). Qed.

Lemma lookup_entry_correct_witness :
  LookupEntry sample_get 2 (OKey sample_root) [x62; x63] = Ok (sample_entry [x62; x63]) /\
  LookupEntry sample_get 2 (OKey sample_root) [x63] = Err [ErrEntryNotFound].
Proof.
  split.
  - exact (lookup_entry_correct sample_get 2 _ _ 2 [x62; x63] sample_dtree sample_in_order (le_n 2)).
  - exact (lookup_entry_correct sample_get 2 _ _ 2 [x63] sample_dtree sample_in_order (le_n 2)).
Defined.

Lemma list_entries_correct_witness :
  ListEntries sample_get 2 (OKey sample_root) [x61] 1 = Ok ([sample_entry [x62]], true).
Proof.
  exact (list_entries_correct sample_get 2 _ _ 2 [x61] 1 sample_dtree sample_in_order (le_n 2) eq_refl).
Defined.

Lemma collect_entries_correct_witness :
  CollectEntries sample_get 2 (OKey sample_root) = Ok sample_dir.
Proof.
  exact (proj1 (collect_entries_correct sample_get 2 _ _ 2 sample_dtree (le_n 2)) sample_in_order).
Defined.
