(* ===== verification/Builder.v ===== *)
(** Package fstree, the builders (src/fstree/index_builder.go, dir_builder.go): the bottom-up
    construction of an index by streaming child references, level by level, and the
    directory builder on top of it. The builder is explicit state next to the state [St] of
    the consumer behind [emit]; both are kept on failure, as the Go pointers are. *)
From S2P Require Import Prelude External Concrete Key Pack Objects Chunker Readers.

Record idxLevel := MkLevel { keys : list Key; seps : list bytes; runLen : Z }.
Record IndexBuilder := MkIB { ic : ItemChunker; isDir : bool; levels : list idxLevel }.

(** [&idxLevel{}], and what [reset] leaves. *)
Definition empty_level : idxLevel := MkLevel [] [] 0.

Definition NewFileIndexBuilder (ic : ItemChunker) : IndexBuilder := MkIB ic false [].
Definition newDirIndexBuilder (ic : ItemChunker) : IndexBuilder := MkIB ic true [].

Definition set_levels (ib : IndexBuilder) (ls : list idxLevel) : IndexBuilder :=
  MkIB (ic ib) (isDir ib) ls.
Definition ensure (ib : IndexBuilder) (l : nat) : IndexBuilder :=
  set_levels ib (levels ib ++ replicate (S l - length (levels ib)) empty_level).
Definition hasAny (ib : IndexBuilder) : bool := (0 <? length (levels ib))%nat.
Definition level (ib : IndexBuilder) (l : nat) : idxLevel := nth l (levels ib) empty_level.
Definition push (isDir : bool) (L : idxLevel) (ck : Key) (sep : bytes) : idxLevel :=
  MkLevel (keys L ++ [ck]) (if isDir then seps L ++ [sep] else seps L) (runLen L + 1).
Definition reset (ib : IndexBuilder) (l : nat) : IndexBuilder :=
  set_levels ib (<[l := empty_level]> (levels ib)).

Section Builder.
Context `{Blake3} `{Cbor (list bytes)} `{Cbor Entry} `{Cbor (list Entry)} `{Cbor DirPair}
  `{Cbor (list DirPair)}.

Definition itemEnc (isDir : bool) (ck : Key) (sep : bytes) : res bytes :=
  if negb isDir then Ok (b32_bytes ck) else Marshal (MkDirPair sep (b32_bytes ck)).

(** [L.seps[len(L.seps)-1]] of an empty run would panic. *)
Definition buildNode (isDir : bool) (L : idxLevel) : res (Object * bytes) :=
  if isDir then
  let pairs := zip_with (fun k s => MkDirPair s (b32_bytes k)) (keys L) (seps L) in
  obj ← EncodeDirNode pairs;
  sep ← from_opt [EMsg "panic: index out of range"] (list.last (seps L));
  Ok (obj, sep)
  else obj ← EncodeFileNode (keys L); Ok (obj, []).

Section Emit.
Context {St : Type} (emit : Object -> M St unit).

Definition upd {B} (f : B -> B) : M (B * St) unit := modify (fun '(b, s) => (f b, s)).
Definition run_emit {B} (o : Object) : M (B * St) unit :=
  fun '(b, s) => let '(r, s') := emit o s in (r, (b, s')).

Definition closeLevel (add_up : nat -> Key -> bytes -> M (IndexBuilder * St) unit) (l : nat) :
  M (IndexBuilder * St) unit :=
  ib ← gets fst;
  '(obj, sep) ← lift (buildNode (isDir ib) (level ib l));
  _ ← upd (fun ib => reset ib l);
  _ ← run_emit obj;
  add_up (S l) (OKey obj) sep.

Fixpoint add_fuel (fuel : nat) (l : nat) (ck : Key) (sep : bytes) : M (IndexBuilder * St) unit :=
  match fuel with
  | O => fail [OutOfFuel]
  | S fuel' =>
    _ ← upd (fun ib => ensure ib l);
    _ ← upd (fun ib => set_levels ib (alter (fun L => push (isDir ib) L ck sep) l (levels ib)));
    ib ← gets fst;
    enc ← lift (itemEnc (isDir ib) ck sep);
    if IsBoundary (ic ib) enc (runLen (level ib l)) then closeLevel (add_fuel fuel') l
    else mret tt
  end.
(** A cascade closes each level above [l] at most once and stops in a fresh one. *)
Definition add (l : nat) (ck : Key) (sep : bytes) : M (IndexBuilder * St) unit :=
  ib ← gets fst; add_fuel (S (length (levels ib))) l ck sep.
Definition AddChild (childKey : Key) (sep : bytes) : M (IndexBuilder * St) unit :=
  add 0 childKey sep.

Fixpoint finish_loop (fuel : nat) (l : nat) : M (IndexBuilder * St) Key :=
  match fuel with
  | O => fail [OutOfFuel]
  | S fuel' =>
    ib ← gets fst;
    if (l <? length (levels ib))%nat then
    let L := level ib l in
    let isTop := (l =? length (levels ib) - 1)%nat in
    if runLen L =? 0 then finish_loop fuel' (S l)
    else if runLen L =? 1 then
    let ck := nth 0 (keys L) inhabitant in
    let sep := if isDir ib then nth 0 (seps L) [] else [] in
    _ ← upd (fun ib => reset ib l);
    if isTop then mret ck
    else _ ← add (S l) ck sep; finish_loop fuel' (S l)
    else
    '(obj, sep) ← lift (buildNode (isDir ib) L);
    _ ← upd (fun ib => reset ib l);
    _ ← run_emit obj;
    _ ← add (S l) (OKey obj) sep;
    finish_loop fuel' (S l)
    else fail [EMsg "fstree: IndexBuilder.Finish with no children"]
  end.
Definition Finish : M (IndexBuilder * St) Key :=
  ib ← gets fst; finish_loop (S (S (length (levels ib)))) 0.
End Emit.
End Builder.

(** ** dir_builder.go *)

Record DirBuilder := MkDB {
    db_ic : ItemChunker; idx : IndexBuilder; leaf : list Entry; leafMax : bytes; db_runLen : Z
  }.
Definition NewDirBuilder (ic : ItemChunker) : DirBuilder := MkDB ic (newDirIndexBuilder ic) [] [] 0.

Section DirBuilder.
Context `{Blake3} `{Cbor (list bytes)} `{Cbor Entry} `{Cbor (list Entry)} `{Cbor DirPair}
  `{Cbor (list DirPair)}.
Context {St : Type} (emit : Object -> M St unit).

(** A step of [db.idx]. *)
Definition on_idx {A} (m : M (IndexBuilder * St) A) : M (DirBuilder * St) A :=
  fun '(db, s) =>
  let '(r, (ib, s')) := m (idx db, s) in
  (r, (MkDB (db_ic db) ib (leaf db) (leafMax db) (db_runLen db), s')).

Definition closeLeaf : M (DirBuilder * St) unit :=
  db ← gets fst;
  obj ← lift (EncodeDirLeaf (leaf db));
  let sep := leafMax db in
  _ ← upd (fun db => MkDB (db_ic db) (idx db) [] [] 0);
  _ ← run_emit emit obj;
  on_idx (AddChild emit (OKey obj) sep).

Definition AddEntry (e : Entry) : M (DirBuilder * St) unit :=
  enc ← lift (Marshal e);
  _ ← upd (fun db => MkDB (db_ic db) (idx db) (leaf db ++ [e]) (Name e) (db_runLen db + 1));
  db ← gets fst;
  if IsBoundary (db_ic db) enc (db_runLen db) then closeLeaf else mret tt.

Definition FinishDir : M (DirBuilder * St) Key :=
  db ← gets fst;
  _ ← (if (0 <? db_runLen db) || negb (hasAny (idx db)) then closeLeaf else mret tt);
  on_idx (Finish emit).

(** [NewDirBuilder], [AddEntry] for each entry, [Finish]. *)
Definition build_dir (c : ItemChunker) (es : list Entry) : M St Key :=
  fun s =>
  let '(r, (_, s')) := (_ ← each AddEntry es; FinishDir) (NewDirBuilder c, s) in (r, s').
End DirBuilder.

(** * What the builder maintains *)

(** A consumer that records the objects in order of emission. *)
Definition log_emit (o : Object) : M (list Object) unit := modify (fun l => l ++ [o]).

Lemma run_log_emit {B} o (b : B) log : run_emit log_emit o (b, log) = (Ok tt, (b, log ++ [o])).
Proof. done. Qed.

(** ** Levels below the one at work are empty *)

Lemma below_level l L Us : nth l (replicate l empty_level ++ L :: Us) empty_level = L.
Proof. rewrite app_nth2; rewrite length_replicate; [|lia]. by rewrite Nat.sub_diag. Qed.
Lemma below_alter f l L (Us : list idxLevel) :
  alter f l (replicate l empty_level ++ L :: Us) = replicate l empty_level ++ f L :: Us.
Proof.
  rewrite alter_app_r_alt; rewrite ?length_replicate; [|lia]. by rewrite Nat.sub_diag.
Qed.
Lemma below_reset l L Us :
  <[l:=empty_level]> (replicate l empty_level ++ L :: Us) = replicate (S l) empty_level ++ Us.
Proof.
  rewrite insert_app_r_alt; rewrite length_replicate; [|lia]. rewrite Nat.sub_diag.
  cbn [list_insert insert]. by rewrite replicate_S_end, <- app_assoc.
Qed.
Lemma below_ensure l L Us (c : ItemChunker) d :
  ensure (MkIB c d (replicate l empty_level ++ L :: Us)) l = MkIB c d (replicate l empty_level ++ L :: Us).
Proof.
  unfold ensure, set_levels. cbn [levels ic isDir]. rewrite length_app, length_replicate. cbn [length].
  replace (S l - (l + S (length Us)))%nat with 0%nat by lia. by rewrite app_nil_r.
Qed.
Lemma below_ensure_new l (c : ItemChunker) d :
  ensure (MkIB c d (replicate l empty_level)) l = MkIB c d (replicate l empty_level ++ [empty_level]).
Proof.
  unfold ensure, set_levels. cbn [levels ic isDir]. rewrite length_replicate.
  by replace (S l - l)%nat with 1%nat by lia.
Qed.

(** ** The invariant, for any notion [R] of the content a reference stands for *)

Section Theory.
Context `{Blake3} `{Cbor (list bytes)} `{Cbor Entry} `{Cbor (list Entry)} `{Cbor DirPair}
  `{Cbor (list DirPair)}.
Context (c : ItemChunker) (dir : bool) {X : Type}.
Context (R : list Object -> Key -> bytes -> list X -> Prop) (Q : Object -> Prop).

(** The children of a run, each with its separator. *)
Definition items (L : idxLevel) : list (Key * bytes) :=
  if dir then zip (keys L) (seps L) else map (fun k => (k, [])) (keys L).
Definition wf_level (L : idxLevel) : Prop :=
  runLen L = zlen (keys L) /\ if dir then length (seps L) = length (keys L) else seps L = [].
Definition stands (log : list Object) (L : idxLevel) (xs : list X) : Prop :=
  wf_level L /\ exists xss, Forall2 (fun it x => R log it.1 it.2 x) (items L) xss /\ xs = concat xss.

Hypothesis Hc : chunker_ok c.
Hypothesis R_mono : forall log l2 k s x, R log k s x -> R (log ++ l2) k s x.
Hypothesis item_ok : forall log k s x, R log k s x -> exists enc, itemEnc dir k s = Ok enc.
Hypothesis node_ok : forall log L xs,
  stands log L xs -> 2 <= runLen L <= MaxRun c ->
  exists obj sep, buildNode dir L = Ok (obj, sep) /\ (dir = false -> sep = []) /\
  R (log ++ [obj]) (OKey obj) sep xs /\ Q obj.

(** Levels from the one at work upwards; content comes from the top level first. *)
Fixpoint holds (log : list Object) (Us : list idxLevel) (xs : list X) : Prop :=
  match Us with
  | [] => xs = []
  | L :: Us' => runLen L < MaxRun c /\
    exists a b, stands log L a /\ holds log Us' b /\ xs = b ++ a
  end.
Definition total (Us : list idxLevel) : Z := foldr (fun L n => runLen L + n) 0 Us.
Definition top_open (Us : list idxLevel) : Prop :=
  match list.last Us with Some L => 1 <= runLen L | None => True end.
(** How one added reference changes the shape. *)
Definition grows (Us Us' : list idxLevel) : Prop :=
  Us' <> [] /\ top_open Us' /\ total Us' <= total Us + 1 /\
  (length Us' = length Us \/ (length Us' = S (length Us) /\ total Us' = 1)).

Lemma stands_mono log l2 L xs : stands log L xs -> stands (log ++ l2) L xs.
Proof.
  intros (W & xss & F & E). split; [done|]. exists xss. split; [|done].
  revert F. apply Forall2_impl. eauto.
Qed.
Lemma holds_mono log l2 Us xs : holds log Us xs -> holds (log ++ l2) Us xs.
Proof.
  revert xs. induction Us as [|L Us IH]; intros xs; [done|].
  intros (? & a & b & ? & ? & ?). split; [done|]. exists a, b. eauto using stands_mono.
Qed.

Lemma stands_empty log : stands log empty_level [].
Proof.
  split; [split; [done|by destruct dir]|]. exists []. split; [|done].
  unfold items. by destruct dir.
Qed.

Lemma stands_push log L a ck sep x :
  stands log L a -> R log ck sep x -> (dir = false -> sep = []) ->
  stands log (push dir L ck sep) (a ++ x).
Proof.
  unfold stands, wf_level, items, push. intros ((W1 & W2) & xss & F & ->) HR Hs.
  cbn [keys seps runLen]. rewrite zlen_app, W1. destruct dir.
  - split; [split; [done|]; rewrite !length_app; cbn; lia|].
    exists (xss ++ [x]). split; [|by rewrite concat_app; cbn; rewrite app_nil_r].
    rewrite zip_with_app by done. apply Forall2_app; [done|]. by repeat constructor.
  - split; [done|]. exists (xss ++ [x]).
    split; [|by rewrite concat_app; cbn; rewrite app_nil_r].
    rewrite map_app. apply Forall2_app; [done|]. cbn. rewrite <- (Hs eq_refl). by repeat constructor.
Qed.

Lemma stands_len log L a : stands log L a -> 0 <= runLen L.
Proof. intros ((-> & _) & _). apply zlen_nonneg. Qed.

Lemma holds_total log Us xs : holds log Us xs -> 0 <= total Us.
Proof.
  revert xs. induction Us as [|L Us IH]; intros xs; cbn [holds total foldr]; [done|].
  intros (_ & a & b & S1 & S2 & _). apply stands_len in S1. apply IH in S2. unfold total in S2. lia.
Qed.

Lemma top_open_cons L Us : Us <> [] -> top_open (L :: Us) <-> top_open Us.
Proof. unfold top_open. by destruct Us. Qed.

Lemma top_open_total log Us xs : holds log Us xs -> top_open Us -> Us <> [] -> 1 <= total Us.
Proof.
  revert xs. induction Us as [|L Us IH]; intros xs; [done|].
  intros (_ & a & b & S1 & S2 & _) HT _. cbn [total foldr]. fold (total Us).
  pose proof (stands_len _ _ _ S1). pose proof (holds_total _ _ _ S2).
  destruct Us as [|L' Us].
  - unfold top_open in HT. cbn in HT. lia.
  - rewrite top_open_cons in HT by done. specialize (IH b S2 HT ltac:(done)). lia.
Qed.

Notation ib Us := (MkIB c dir Us).
Notation mem l Us := (ib (replicate l empty_level ++ Us)).

Lemma add_fuel_ok Us log xs l ck sep x fuel :
  holds log Us xs -> top_open Us -> R log ck sep x -> (dir = false -> sep = []) ->
  (length Us < fuel)%nat ->
  exists Us' new,
  add_fuel log_emit fuel l ck sep (mem l Us, log) = (Ok tt, (mem l Us', log ++ new)) /\
  holds (log ++ new) Us' (xs ++ x) /\ grows Us Us' /\ Forall Q new.
Proof.
  revert log xs l ck sep x fuel.
  induction Us as [|L Us IH]; intros log xs l ck sep x [|fuel] HH HT HR Hs Hf; try (cbn in Hf; lia);
  destruct (item_ok _ _ _ _ HR) as [enc He]; cbn [add_fuel];
  unfold upd, modify, gets, lift, mbind, M_bind, set_levels; cbn [fst snd].
  - rewrite app_nil_r, below_ensure_new. cbn [levels ic isDir fst]. rewrite below_alter.
    unfold level. cbn [levels]. rewrite He, below_level, IsBoundary_one by (done || cbn; lia).
    exists [push dir empty_level ck sep], []. rewrite app_nil_r. split; [done|].
    cbn in HH. subst xs. pose proof (stands_push log empty_level [] ck sep x (stands_empty log) HR Hs).
    split; [|split; [|done]].
    + cbn [holds]. split; [destruct Hc; cbn; lia|]. by exists x, [].
    + split; [done|]. unfold top_open. cbn. split; [lia|]. split; [lia|]. auto.
  - destruct HH as (Hmax & a & b & SL & HU & ->).
    rewrite below_ensure. cbn [levels ic isDir fst]. rewrite below_alter.
    unfold level. cbn [levels]. rewrite He, below_level.
    pose proof (stands_push _ _ _ _ _ _ SL HR Hs) as SP. pose proof (stands_len _ _ _ SL) as HL0.
    destruct (IsBoundary c enc (runLen (push dir L ck sep))) eqn:EB.
    + unfold closeLevel, upd, modify, gets, lift, mbind, M_bind, reset, level, set_levels.
      cbn [fst snd levels isDir ic]. rewrite below_level.
      apply IsBoundary_min in EB; [|done].
      destruct (node_ok _ _ _ SP) as (obj & sep' & EN & Hs' & HR' & HQ).
      { cbn [runLen push] in *. destruct Hc. lia. }
      rewrite EN. cbn [levels isDir ic fst snd]. rewrite below_reset, run_log_emit.
      assert (top_open Us) as HTU.
      { destruct Us as [|L2 Us]; [done|]. by rewrite top_open_cons in HT. }
      destruct (IH (log ++ [obj]) b (S l) (OKey obj) sep' (a ++ x) fuel
      (holds_mono _ _ _ _ HU) HTU HR' Hs' ltac:(cbn in Hf; lia))
      as (Us' & new & -> & HH & HG & HF).
      exists (empty_level :: Us'), (obj :: new).
      rewrite replicate_S_end, <- !app_assoc in *. cbn [app] in *.
      split; [done|]. split; [|split; [|by constructor]].
      * cbn [holds]. split; [destruct Hc; cbn; lia|]. exists [], (b ++ a ++ x).
        split; [apply stands_empty|]. by rewrite app_nil_r.
      * destruct HG as (Hn & HT' & Htot & Hlen). split; [done|]. split; [by apply top_open_cons|].
        cbn [total foldr length runLen empty_level]. fold (total Us') (total Us).
        split; [lia|]. destruct Hlen as [->|[-> ->]]; [by left|right; split; [done|lia]].
    + exists (push dir L ck sep :: Us), []. rewrite app_nil_r. split; [done|].
      split; [|split; [|done]].
      * cbn [holds]. split; [by eapply IsBoundary_open|]. exists (a ++ x), b.
        split; [done|]. split; [done|]. by rewrite app_assoc.
      * split; [done|]. cbn [total foldr length push runLen]. fold (total Us).
        split; [|split; [lia|by left]].
        destruct Us as [|L2 Us]; [unfold top_open; cbn; lia|by rewrite top_open_cons in *].
Qed.

Lemma add_ok Us log xs l ck sep x :
  holds log Us xs -> top_open Us -> R log ck sep x -> (dir = false -> sep = []) ->
  exists Us' new,
  add log_emit l ck sep (mem l Us, log) = (Ok tt, (mem l Us', log ++ new)) /\
  holds (log ++ new) Us' (xs ++ x) /\ grows Us Us' /\ Forall Q new.
Proof.
  intros. unfold add, gets, mbind, M_bind. cbn [fst levels].
  apply add_fuel_ok; try done. rewrite length_app. lia.
Qed.

Lemma zlen_one {A} (l : list A) : zlen l = 1 -> exists y, l = [y].
Proof. destruct l as [|y [|z l]]; unfold zlen; cbn; intros; try lia. eauto. Qed.
Lemma zlen_zero {A} (l : list A) : zlen l = 0 -> l = [].
Proof. destruct l; unfold zlen; cbn; intros; [done|lia]. Qed.

Lemma level_zero log L a : stands log L a -> runLen L = 0 -> L = empty_level /\ a = [].
Proof.
  intros ((W1 & W2) & xss & F & ->) E. destruct L as [ks ss n]. unfold items in F. cbn in *. subst n.
  apply zlen_zero in E as ->. destruct dir.
  - apply nil_length_inv in W2 as ->. cbn in F. by apply Forall2_nil_inv_l in F as ->.
  - subst ss. cbn in F. by apply Forall2_nil_inv_l in F as ->.
Qed.

Lemma level_one log L a :
  stands log L a -> runLen L = 1 ->
  let sep := if dir then nth 0 (seps L) [] else [] in
  R log (nth 0 (keys L) inhabitant) sep a /\ (dir = false -> sep = []).
Proof.
  intros ((W1 & W2) & xss & F & ->) E. destruct L as [ks ss n]. unfold items in F. cbn in *. subst n.
  apply zlen_one in E as [k ->]. destruct dir.
  - destruct ss as [|s [|? ?]]; try done. cbn in *.
    apply Forall2_cons_inv_l in F as (x & xss' & Hx & F & ->).
    apply Forall2_nil_inv_l in F as ->. cbn. by rewrite app_nil_r.
  - cbn in *. apply Forall2_cons_inv_l in F as (x & xss' & Hx & F & ->).
    apply Forall2_nil_inv_l in F as ->. cbn. by rewrite app_nil_r.
Qed.

(** Iterations [finish_loop] still needs. *)
Definition todo (Us : list idxLevel) : nat := length Us + (if total Us =? 1 then 0 else 1).

Lemma todo_decreases L Us Us' :
  (1 <= total Us \/ 2 <= runLen L) -> 1 <= runLen L -> 0 <= total Us -> grows Us Us' ->
  (todo Us' < todo (L :: Us))%nat.
Proof.
  intros Ht HL HT0 (_ & _ & Htot & Hlen). unfold todo. cbn [total foldr length]. fold (total Us).
  destruct (Z.eqb_spec (runLen L + total Us) 1); [lia|].
  destruct (Z.eqb_spec (total Us') 1); lia.
Qed.

Lemma finish_ok fuel l Us log xs :
  holds log Us xs -> top_open Us -> Us <> [] -> (todo Us <= fuel)%nat ->
  exists k sep ib' new,
  finish_loop log_emit fuel l (mem l Us, log) = (Ok k, (ib', log ++ new)) /\
  R (log ++ new) k sep xs /\ Forall Q new.
Proof.
  revert l Us log xs. induction fuel as [|fuel IH]; intros l [|L Us] log xs HH HT Hn Hf; try done;
  [unfold todo in Hf; cbn in Hf; lia|].
  destruct HH as (Hmax & a & b & SL & HU & ->). pose proof (stands_len _ _ _ SL) as HL0.
  pose proof (holds_total _ _ _ HU) as HU0.
  assert (Us <> [] -> 1 <= total Us) as Hup.
  { intros Hne. rewrite top_open_cons in HT by done. by eapply top_open_total. }
  assert (top_open Us) as HTU by (destruct Us; [done|by rewrite top_open_cons in HT]).
  cbn [finish_loop]. rewrite M_gets. cbn [fst]. unfold level. cbn [levels].
  rewrite below_level, length_app, length_replicate. cbn [length].
  destruct (Nat.ltb_spec l (l + S (length Us))); [|lia]. cbn [isDir].
  destruct (Z.eqb_spec (runLen L) 0) as [E0|N0]; [|destruct (Z.eqb_spec (runLen L) 1) as [E1|N1]].
  - destruct (level_zero _ _ _ SL E0) as [-> ->]. rewrite app_nil_r.
    assert (Us <> []) as Hne by (intros ->; unfold top_open in HT; cbn in HT; lia).
    destruct (IH (S l) Us log b HU HTU Hne) as (k & sep & ib' & new & E & ?).
    { unfold todo in *. cbn [total foldr length runLen empty_level] in Hf. fold (total Us) in Hf.
      rewrite Z.add_0_l in Hf. lia. }
    exists k, sep, ib', new. split; [|done].
    rewrite replicate_S_end, <- app_assoc in E. exact E.
  - destruct (level_one _ _ _ SL E1) as [HR Hs].
    unfold upd, modify, mbind, M_bind, reset, set_levels. cbn [levels isDir ic fst snd].
    rewrite below_reset. destruct (Nat.eqb_spec l (l + S (length Us) - 1)) as [Etop|Ntop].
    + destruct Us; [|cbn in Etop; lia]. cbn in HU. subst b.
      eexists _, _, _, []. rewrite !app_nil_r. split; [done|]. split; [exact HR|done].
    + assert (Us <> []) as Hne by (intros ->; cbn in Ntop; lia).
      destruct (add_ok Us log b (S l) _ _ a HU HTU HR Hs) as (Us' & new & -> & HH' & HG & HF).
      destruct (IH (S l) Us' _ _ HH') as (k & sep & ib' & new' & -> & HR' & HF');
      [apply HG|apply HG| |].
      { pose proof (todo_decreases L Us Us' (or_introl (Hup Hne)) ltac:(lia) HU0 HG). lia. }
      exists k, sep, ib', (new ++ new'). rewrite app_assoc. split; [done|].
      split; [done|by apply Forall_app].
  - destruct (node_ok _ _ _ SL) as (obj & sep & EN & Hs & HR & HQ); [lia|].
    unfold lift, upd, modify, mbind, M_bind, reset, set_levels. cbn [levels isDir ic].
    rewrite EN. cbn [levels isDir ic fst snd]. rewrite below_reset, run_log_emit.
    destruct (add_ok Us (log ++ [obj]) b (S l) _ _ a (holds_mono _ _ _ _ HU) HTU HR Hs)
    as (Us' & new & -> & HH' & HG & HF).
    destruct (IH (S l) Us' _ _ HH') as (k & sep' & ib' & new' & -> & HR' & HF');
    [apply HG|apply HG| |].
    { pose proof (todo_decreases L Us Us' ltac:(right; lia) ltac:(lia) HU0 HG). lia. }
    exists k, sep', ib', (obj :: new ++ new'). rewrite <- !app_assoc in *. cbn [app] in *.
    split; [done|]. split; [done|]. constructor; [done|]. by apply Forall_app.
Qed.

(** The two entry points, from a state in which [Us] holds [xs]. *)
Definition ready (log : list Object) (b : IndexBuilder) (xs : list X) : Prop :=
  exists Us, b = ib Us /\ holds log Us xs /\ top_open Us.

Lemma ready_new log : ready log (ib []) [].
Proof. by exists []. Qed.

Lemma ready_mono log l2 b xs : ready log b xs -> ready (log ++ l2) b xs.
Proof. intros (Us & ? & ? & ?). exists Us. eauto using holds_mono. Qed.

Lemma AddChild_ok log b xs ck sep x :
  ready log b xs -> R log ck sep x -> (dir = false -> sep = []) ->
  exists b' new, AddChild log_emit ck sep (b, log) = (Ok tt, (b', log ++ new)) /\
  ready (log ++ new) b' (xs ++ x) /\ hasAny b' = true /\ Forall Q new.
Proof.
  intros (Us & -> & HH & HT) HR Hs.
  destruct (add_ok Us log xs 0 ck sep x HH HT HR Hs) as (Us' & new & E & HH' & HG & HF).
  exists (ib Us'), new. split; [exact E|]. split; [exists Us'; split; [done|]; split; [done|apply HG]|].
  split; [|done]. destruct HG as [Hn _]. by destruct Us'.
Qed.

Lemma Finish_ok log b xs :
  ready log b xs -> hasAny b = true ->
  exists k sep b' new, Finish log_emit (b, log) = (Ok k, (b', log ++ new)) /\
  R (log ++ new) k sep xs /\ Forall Q new.
Proof.
  intros (Us & -> & HH & HT) Hany. unfold Finish, gets, mbind, M_bind. cbn [fst levels].
  destruct (finish_ok (S (S (length Us))) 0 Us log xs) as (k & sep & b' & new & ? & ?); try done.
  - by destruct Us.
  - unfold todo. destruct (total Us =? 1); lia.
  - by exists k, sep, b', new.
Qed.
End Theory.
