(* ===== verification/Trees.v ===== *)
(** What the builders build: the trees of [Readers] rooted at the keys they return. The
    invariant of [Builder] is instantiated at file content (a reference stands for a list of
    blobs) and at directory content (a reference stands for a run of entries). *)
From S2P Require Import Prelude External Concrete Key Cborx Pack Objects Chunker Readers Builder.

(** A store that serves every object of a log: what holds once the log is stored and no two
    of its objects share a key. *)
Definition serves (get : Key -> res bytes) (log : list Object) : Prop :=
  forall o, o ∈ log -> get (OKey o) = Ok (OBytes o).

Lemma serves_app get l1 l2 : serves get (l1 ++ l2) -> serves get l1 /\ serves get l2.
Proof. unfold serves. intros S. split; intros o ?; apply S, elem_of_app; auto. Qed.

Lemma Forall2_common {A B} (P : nat -> A -> B -> Prop) l k :
  (forall n m x y, P n x y -> (n <= m)%nat -> P m x y) ->
  Forall2 (fun x y => exists n, P n x y) l k -> exists n, Forall2 (P n) l k.
Proof.
  intros Hm. induction 1 as [|x y l k [n Hn] _ [m Hl]]; [by exists O|].
  exists (Nat.max n m). constructor; [by eapply Hm; [exact Hn|lia]|].
  revert Hl. apply Forall2_impl. intros a b ?. eapply Hm; [done|lia].
Qed.

(** * File trees *)

Section FileTrees.
Context `{Blake3} `{Cbor (list bytes)} `{Cbor Entry} `{Cbor (list Entry)} `{Cbor DirPair}
  `{Cbor (list DirPair)}.
Context `{!CborOk (list bytes) (array_wf any)}.
Context (c : ItemChunker).
Hypothesis Hc : chunker_ok c.
Hypothesis Hmax : MaxRun c <= MaxArrayElements.

(** [k] stands for the blobs [chunks], given the objects emitted so far. *)
Definition file_ref (log : list Object) (k : Key) (sep : bytes) (chunks : list bytes) : Prop :=
  Validate k = Ok tt /\ Length k = u64 (zlen (concat chunks)) /\
  forall get, serves get log -> exists n, ftree get n k chunks.

(** An index node has between two and [MaxRun] children, and holds them in order. *)
Definition file_node (o : Object) : Prop :=
  exists ks, EncodeFileNode ks = Ok o /\ DecodeFileNode (OBytes o) = Ok ks /\ 2 <= zlen ks <= MaxRun c.

Lemma file_ref_mono log l2 k s x : file_ref log k s x -> file_ref (log ++ l2) k s x.
Proof.
  intros (V & L & T). split; [done|]. split; [done|]. intros get [S _]%serves_app. auto.
Qed.

Lemma blob_ref log data o :
  EncodeBlob data = Ok o -> file_ref (log ++ [o]) (OKey o) [] [data].
Proof.
  intros (Hb & V & T & L)%EncodeBlob_Ok. split; [done|]. split; [by rewrite L; cbn; rewrite app_nil_r|].
  intros get S. exists 1%nat. exists data. split; [|by left].
  rewrite <- Hb. apply S, elem_of_app. right. by left.
Qed.

Lemma lengths_sum ks css log :
  Forall2 (fun k x => file_ref log k [] x) ks css ->
  u64 (sum_lengths ks) = u64 (zlen (concat (concat css))).
Proof.
  induction 1 as [|k x ks css (_ & L & _) _ IH]; [done|].
  cbn [sum_lengths foldr concat]. fold (sum_lengths ks). rewrite concat_app, zlen_app.
  rewrite <- u64_add_r, IH, u64_add_r, L, u64_add_l. done.
Qed.

Lemma file_node_ok log L xs :
  stands false file_ref log L xs -> 2 <= runLen L <= MaxRun c ->
  exists obj sep, buildNode false L = Ok (obj, sep) /\ (false = false -> sep = []) /\
  file_ref (log ++ [obj]) (OKey obj) sep xs /\ file_node obj.
Proof.
  intros ((Hlen & _) & css & F & ->) Hr. unfold items in F. apply Forall2_fmap_l in F. cbn in F.
  assert (Forall (fun k => Validate k = Ok tt) (keys L)) as HV.
  { clear -F. induction F as [|k x ks css (? & _) _ IH]; by constructor. }
  assert (array_wf any (map b32_bytes (keys L))) as W.
  { apply array_any. unfold zlen in *. rewrite length_map. lia. }
  destruct (cbor_total _ W) as [b Hb].
  assert (exists obj, EncodeFileNode (keys L) = Ok obj) as [obj E].
  { unfold EncodeFileNode. rewrite Hb. by apply new_object_total. }
  exists obj, []. unfold buildNode. rewrite E. split; [done|]. split; [done|].
  pose proof (DecodeFileNode_Encode (keys L) obj ltac:(lia) HV E) as D.
  split; [|by exists (keys L); rewrite <- Hlen].
  apply EncodeFileNode_Ok in E as (_ & V & T & HL). split; [done|].
  split; [by rewrite HL; eapply lengths_sum|]. intros get [S1 S2]%serves_app.
  destruct (Forall2_common (fun n k x => ftree get n k x) (keys L) css) as [n Fn].
  { intros. by eapply ftree_mono. }
  { clear -F S1. induction F as [|k x ks css (_ & _ & HT) _ IH]; constructor; auto. }
  exists (S n). exists (OBytes obj). split; [apply S2; by left|]. right. eauto 10.
Qed.

Lemma file_item_ok log k s x : file_ref log k s x -> exists enc, itemEnc false k s = Ok enc.
Proof. by eexists. Qed.
End FileTrees.

(** * Directory trees *)

Section DirTrees.
Context `{Blake3} `{Cbor (list bytes)} `{Cbor Entry} `{Cbor (list Entry)} `{Cbor DirPair}
  `{Cbor (list DirPair)}.
Context `{!CborOk Entry entry_wf} `{!CborOk (list Entry) (array_wf entry_wf)}
  `{!CborOk DirPair any} `{!CborOk (list DirPair) (array_wf any)}.
Context (c : ItemChunker).
Hypothesis Hc : chunker_ok c.
Hypothesis Hmax : MaxRun c <= MaxArrayElements.

Definition dir_ref (log : list Object) (k : Key) (sep : bytes) (es : list Entry) : Prop :=
  Validate k = Ok tt /\ last_name es = Some sep /\
  forall get, serves get log -> exists n, dtree get n k es.

(** An index node has between two and [MaxRun] pairs, a leaf at most [MaxRun] entries. *)
Definition dir_node (o : Object) : Prop :=
  (exists ps, EncodeDirNode ps = Ok o /\ DecodeDirNode (OBytes o) = Ok ps /\ 2 <= zlen ps <= MaxRun c) \/
  (exists es, EncodeDirLeaf es = Ok o /\ DecodeDirLeaf (OBytes o) = Ok es /\ zlen es <= MaxRun c).

Lemma dir_ref_mono log l2 k s x : dir_ref log k s x -> dir_ref (log ++ l2) k s x.
Proof.
  intros (V & L & T). split; [done|]. split; [done|]. intros get [S _]%serves_app. auto.
Qed.

Lemma dir_item_ok log k s x : dir_ref log k s x -> exists enc, itemEnc true k s = Ok enc.
Proof. intros _. unfold itemEnc. cbn [negb]. by apply (cbor_total (wf := any)). Qed.

Lemma last_name_app es1 es2 s : last_name es2 = Some s -> last_name (es1 ++ es2) = Some s.
Proof.
  intros (e & l & -> & <-)%last_name_last. unfold last_name. by rewrite app_assoc, last_snoc.
Qed.

Lemma last_sep (log : list Object) (ks : list Key) ss ess :
  Forall2 (fun it x => dir_ref log it.1 it.2 x) (zip ks ss) ess -> length ss = length ks -> ks <> [] ->
  exists s, list.last ss = Some s /\ last_name (concat ess) = Some s.
Proof.
  revert ss ess. induction ks as [|k ks IH]; intros [|s ss] ess F E Hn; try done. cbn in F.
  apply Forall2_cons_inv_l in F as (es & ess' & (_ & HL & _) & F & ->). cbn in HL.
  destruct ks as [|k2 ks].
  - destruct ss; [|done]. apply Forall2_nil_inv_l in F as ->. exists s. cbn. by rewrite app_nil_r.
  - destruct ss as [|s2 ss]; [done|].
    destruct (IH (s2 :: ss) ess' F) as (s' & E1 & E2); [cbn in *; lia|done|].
    exists s'. split; [done|]. by apply last_name_app.
Qed.

Lemma dir_node_ok log L xs :
  stands true dir_ref log L xs -> 2 <= runLen L <= MaxRun c ->
  exists obj sep, buildNode true L = Ok (obj, sep) /\ (true = false -> sep = []) /\
  dir_ref (log ++ [obj]) (OKey obj) sep xs /\ dir_node obj.
Proof.
  intros ((Hlen & Hss) & ess & F & ->) Hr. unfold items in F.
  set (ps := zip_with (fun k s => MkDirPair s (b32_bytes k)) (keys L) (seps L)).
  assert (length ps = length (keys L)) as Hps by (subst ps; rewrite length_zip_with; lia).
  assert (Forall2 (fun p k => Parse (ChildKey p) = Ok k) ps (keys L)) as HP.
  { subst ps. clear -F Hss. revert F Hss. generalize (seps L) as ss. generalize (keys L) as ks.
    intros ks. revert ess. induction ks as [|k ks IH]; intros ess [|s ss] F E; try done.
    cbn in F. apply Forall2_cons_inv_l in F as (es & ess' & (HV & _) & F & ->).
    constructor; [by apply Parse_bytes|]. eapply IH; [done|cbn in E; lia]. }
  assert (array_wf any ps) as W by (apply array_any; unfold zlen in *; lia).
  destruct (cbor_total _ W) as [b Hb]. destruct (EncodeDirNode_total _ _ _ HP Hb) as [obj E].
  destruct (last_sep log (keys L) (seps L) ess F Hss) as (s & Es & El).
  { intros Hk. rewrite Hk in Hlen. unfold zlen in Hlen. cbn in Hlen. lia. }
  exists obj, s. unfold buildNode. fold ps. rewrite E, Es. split; [done|]. split; [done|].
  apply (EncodeDirNode_Ok _ _ _ HP) in E as K. destruct K as (HM & V & T & _).
  pose proof (cbor_roundtrip _ _ W HM) as D. split.
  2:{ left. exists ps. split; [done|]. split; [done|]. unfold zlen in *. lia. }
  split; [done|]. split; [done|]. intros get [S1 S2]%serves_app.
  destruct (Forall2_common (fun n p es => exists ck, Parse (ChildKey p) = Ok ck /\
  dtree get n ck es /\ last_name es = Some (SepName p)) ps ess) as [n Fn].
  { intros n m p es (ck & ? & ? & ?) ?. exists ck. split; [done|]. split; [by eapply dtree_mono|done]. }
  { subst ps. clear -F Hss S1. revert F Hss. generalize (seps L) as ss. generalize (keys L) as ks.
    intros ks. revert ess. induction ks as [|k ks IH]; intros ess [|s ss] F E; try done.
    - by apply Forall2_nil_inv_l in F as ->.
    - cbn in F. apply Forall2_cons_inv_l in F as (es & ess' & (HV & HL & HT) & F & ->).
      constructor; [|by apply IH; [|cbn in E; lia]].
      destruct (HT get S1) as [n HTn]. exists n, k. split; [by apply Parse_bytes|done]. }
  exists (S n). exists (OBytes obj). split; [apply S2; by left|]. right. eauto 10.
Qed.

(** ** The directory builder *)

Definition entry_ok (e : Entry) : Prop := entry_wf e /\ exists l, entry_keys e l.

Lemma leaf_ok log es :
  Forall entry_ok es -> zlen es <= MaxRun c ->
  exists obj, EncodeDirLeaf es = Ok obj /\ dir_node obj /\ Validate (OKey obj) = Ok tt /\
  (forall get, serves get (log ++ [obj]) -> dtree get 1 (OKey obj) es).
Proof.
  intros HF Hl. assert (exists ls, Forall2 entry_keys es ls) as [ls Hls].
  { clear Hl. induction HF as [|e es (_ & l & Hk) _ [ls IH]]; [by exists []|]. exists (l :: ls). by constructor. }
  assert (array_wf entry_wf es) as W.
  { split; [lia|]. eapply list.Forall_impl; [exact HF|]. by intros e [? _]. }
  destruct (cbor_total _ W) as [b Hb]. destruct (EncodeDirLeaf_total _ _ _ Hls Hb) as [obj E].
  exists obj. split; [done|]. apply (EncodeDirLeaf_Ok _ _ _ Hls) in E as K.
  destruct K as (HM & V & T & _). pose proof (cbor_roundtrip _ _ W HM) as D.
  split; [right; by exists es|]. split; [done|]. intros get [_ S]%serves_app.
  exists (OBytes obj). split; [apply S; by left|]. by left.
Qed.

Definition dir_state (log : list Object) (db : DirBuilder) (es : list Entry) : Prop :=
  exists done, es = done ++ leaf db /\ ready c true dir_ref log (idx db) done /\
  db_ic db = c /\ db_runLen db = zlen (leaf db) /\ db_runLen db < MaxRun c /\
  leafMax db = default [] (last_name (leaf db)) /\
  Forall entry_ok (leaf db) /\ (hasAny (idx db) = true <-> done <> []).

Lemma dir_state_new log : dir_state log (NewDirBuilder c) [].
Proof.
  exists []. split; [done|]. split; [apply ready_new|]. split; [done|]. split; [done|].
  split; [destruct Hc; cbn; lia|]. split; [done|]. split; [constructor|]. cbn. naive_solver.
Qed.

Lemma last_name_some es : es <> [] -> exists s, last_name es = Some s.
Proof.
  intros Hn. unfold last_name. destruct (list.last es) as [e|] eqn:E; [eauto|].
  by apply last_None in E.
Qed.

(** Closing a non-empty run moves it, as one reference, into the index. *)
Lemma closeLeaf_ok log db es done :
  es = done ++ leaf db -> ready c true dir_ref log (idx db) done -> db_ic db = c ->
  zlen (leaf db) <= MaxRun c -> leafMax db = default [] (last_name (leaf db)) ->
  Forall entry_ok (leaf db) -> leaf db <> [] ->
  exists db' new, closeLeaf log_emit (db, log) = (Ok tt, (db', log ++ new)) /\
  dir_state (log ++ new) db' es /\ leaf db' = [] /\ Forall dir_node new.
Proof.
  intros -> HR Hic Hl Hmaxn HF Hne.
  destruct (leaf_ok log _ HF Hl) as (obj & E & HN & V & HT).
  destruct (last_name_some _ Hne) as [s Hs]. rewrite Hs in Hmaxn. cbn in Hmaxn.
  unfold closeLeaf. rewrite M_gets. cbn [fst]. rewrite M_lift, E.
  unfold upd. rewrite M_modify. cbn [db_ic idx leaf leafMax].
  rewrite (M_step _ _ _ _ _ (run_log_emit _ _ _)).
  assert (dir_ref (log ++ [obj]) (OKey obj) (leafMax db) (leaf db)) as HD.
  { rewrite Hmaxn. split; [done|]. split; [done|]. intros get S. exists 1%nat. by apply HT. }
  destruct (AddChild_ok c true dir_ref dir_node Hc dir_ref_mono dir_item_ok dir_node_ok
  (log ++ [obj]) (idx db) done (OKey obj) (leafMax db) (leaf db))
  as (b' & new & EA & HR' & Hany & HF'); [by eapply ready_mono; [apply dir_ref_mono|]|done|done|].
  unfold on_idx. cbn [idx]. rewrite EA. eexists _, (obj :: new).
  rewrite <- app_assoc in *. cbn [app] in *. split; [reflexivity|]. split; [|split; [done|by constructor]].
  exists (done ++ leaf db). cbn [leaf idx db_ic db_runLen leafMax]. rewrite app_nil_r.
  split; [done|]. split; [done|]. split; [done|]. split; [done|].
  split; [destruct Hc; lia|]. split; [done|]. split; [constructor|]. rewrite Hany.
  split; [|done]. intros _ [_ ?]%app_eq_nil. done.
Qed.

Lemma AddEntry_ok log db es e :
  dir_state log db es -> entry_ok e ->
  exists db' new, AddEntry log_emit e (db, log) = (Ok tt, (db', log ++ new)) /\
  dir_state (log ++ new) db' (es ++ [e]) /\ Forall dir_node new.
Proof.
  intros (done & -> & HR & Hic & Hrl & Hlt & Hm & HF & Hany) He.
  destruct (cbor_total e (proj1 He)) as [enc HE].
  destruct db as [dc dx dl dm dr]. cbn [db_ic idx leaf leafMax db_runLen] in *. subst dc.
  unfold AddEntry. rewrite M_lift, HE. unfold upd. rewrite M_modify, M_gets.
  cbn [fst db_ic idx leaf leafMax db_runLen]. rewrite <- app_assoc.
  set (db1 := MkDB c dx (dl ++ [e]) (Name e) (dr + 1)).
  assert (leafMax db1 = default [] (last_name (leaf db1))) as HM1
  by (cbn; unfold last_name; by rewrite last_snoc).
  assert (Forall entry_ok (leaf db1)) as HF1 by (apply Forall_app; split; [done|by constructor]).
  assert (zlen (leaf db1) = dr + 1) as HL by (cbn; rewrite zlen_app, Hrl; done).
  destruct (IsBoundary c enc (dr + 1)) eqn:EB.
  - destruct (closeLeaf_ok log db1 (done ++ dl ++ [e]) done)
    as (db' & new & E & HS & _ & HN); try done; [lia|by destruct dl|].
    by exists db', new.
  - exists db1, []. rewrite app_nil_r. split; [done|]. split; [|constructor].
    exists done. split_and!; try done. by eapply IsBoundary_open.
Qed.

(** A builder with a single reference returns it unwrapped. *)
Lemma single_child log ck :
  Validate ck = Ok tt ->
  exists b, AddChild log_emit ck [] (MkIB c true [], log) = (Ok tt, (b, log)) /\
  exists b', Finish log_emit (b, log) = (Ok ck, (b', log)).
Proof.
  intros V. set (Rs := fun (_ : list Object) k (_ : bytes) (x : list unit) => k = ck /\ x = [tt]).
  exists (MkIB c true [push true empty_level ck []]). unfold AddChild, add.
  destruct (cbor_total (wf := any) (MkDirPair [] (b32_bytes ck)) I) as [enc He].
  split.
  - rewrite M_gets. cbn [fst levels length add_fuel]. unfold upd. rewrite !M_modify, M_gets, M_lift.
    unfold itemEnc. cbn -[Marshal IsBoundary]. rewrite He. by rewrite IsBoundary_one by (done || cbn; lia).
  - eexists. unfold Finish. rewrite M_gets. cbn. reflexivity.
Qed.

Lemma FinishDir_ok log db es :
  dir_state log db es ->
  exists k db' new, FinishDir log_emit (db, log) = (Ok k, (db', log ++ new)) /\
  Validate k = Ok tt /\ Forall dir_node new /\
  forall get, serves get (log ++ new) -> exists n, dtree get n k es.
Proof.
  intros (done & -> & HR & Hic & Hrl & Hlt & Hm & HF & Hany).
  assert (forall log db es, dir_state log db es -> leaf db = [] -> es <> [] ->
  exists k db' new, on_idx (Finish log_emit) (db, log) = (Ok k, (db', log ++ new)) /\
  Validate k = Ok tt /\ Forall dir_node new /\
  forall get, serves get (log ++ new) -> exists n, dtree get n k es) as Fin.
  { clear -Hc Hmax CborOk0 CborOk1 CborOk2 CborOk3.
    intros log db es (done & -> & HR & _ & _ & _ & _ & _ & Hany) Hl Hne.
    rewrite Hl, app_nil_r in *.
    destruct (Finish_ok c true dir_ref dir_node Hc dir_ref_mono dir_item_ok dir_node_ok log (idx db) done HR)
    as (k & sep & b' & new & E & (V & _ & T) & HN); [by apply Hany|].
    unfold on_idx. rewrite E. eexists k, _, new. done. }
  unfold FinishDir. rewrite M_gets. cbn [fst]. rewrite Hrl.
  destruct (Z.ltb_spec 0 (zlen (leaf db))) as [Hp|Hz]; cbn [orb].
  - destruct (closeLeaf_ok log db (done ++ leaf db) done) as (db1 & new & E & HS & Hl & HN); try done; [lia| |].
    { intros E. rewrite E in Hp. done. }
    rewrite (M_step _ _ _ _ _ E).
    destruct (Fin _ _ _ HS Hl) as (k & db' & new' & E' & V & HN' & T).
    { intros [_ E0]%app_eq_nil. rewrite E0 in Hp. done. }
    exists k, db', (new ++ new'). rewrite app_assoc. split; [done|]. split; [done|].
    split; [by apply Forall_app|done].
  - assert (leaf db = []) as Hl by (apply zlen_zero; pose proof (zlen_nonneg (leaf db)); lia).
    destruct (hasAny (idx db)) eqn:EA; cbn [negb].
    + unfold mbind, M_bind, mret, M_ret. apply (Fin log db); [|done|].
      * exists done. rewrite EA. by split_and!.
      * rewrite Hl, app_nil_r. by apply Hany.
    + assert (done = []) as ->.
      { destruct done; [done|]. assert (false = true) by (by apply Hany). done. }
      destruct HR as (Us & EU & _). assert (Us = []) as ->.
      { rewrite EU in EA. by destruct Us. }
      rewrite Hl in *. cbn [app]. cbn in Hm.
      destruct (leaf_ok log [] ltac:(constructor)) as (obj & E & HN & V & HT); [destruct Hc; cbn; lia|].
      destruct (single_child (log ++ [obj]) (OKey obj) V) as (b & EA' & b' & EF).
      unfold closeLeaf. rewrite (M_step _ _ _ tt (MkDB c b [] [] 0, log ++ [obj])).
      2:{ rewrite M_gets. cbn [fst]. rewrite Hl, M_lift, E. unfold upd. rewrite M_modify.
      rewrite (M_step _ _ _ _ _ (run_log_emit _ _ _)).
      unfold on_idx. cbn [idx db_ic leaf leafMax db_runLen]. by rewrite EU, Hm, EA', Hic. }
      unfold on_idx. cbn [idx]. rewrite EF. eexists (OKey obj), _, [obj].
      split; [done|]. split; [done|]. split; [by constructor|]. intros get S. exists 1%nat. by apply HT.
Qed.

Lemma AddEntries_ok es2 log db es :
  dir_state log db es -> Forall entry_ok es2 ->
  exists db' new, each (AddEntry log_emit) es2 (db, log) = (Ok tt, (db', log ++ new)) /\
  dir_state (log ++ new) db' (es ++ es2) /\ Forall dir_node new.
Proof.
  intros HS HF. revert log db es HS. induction HF as [|e es2 He _ IH]; intros log db es HS.
  - exists db, []. by rewrite !app_nil_r.
  - destruct (AddEntry_ok log db es e HS He) as (db1 & new & E & HS1 & HN).
    destruct (IH _ _ _ HS1) as (db' & new' & E' & HS' & HN').
    exists db', (new ++ new'). cbn [each]. rewrite (M_step _ _ _ _ _ E), E'.
    rewrite <- !app_assoc in *. split; [done|]. split; [done|by apply Forall_app].
Qed.

(** The whole build: it succeeds, and what it emitted is a tree of the entries. *)
Lemma build_dir_ok es log :
  Forall entry_ok es ->
  exists k new, build_dir log_emit c es log = (Ok k, log ++ new) /\
  Validate k = Ok tt /\ Forall dir_node new /\
  forall get, serves get (log ++ new) -> exists n, dtree get n k es.
Proof.
  intros HF. destruct (AddEntries_ok es log _ [] (dir_state_new log) HF) as (db & new & E & HS & HN).
  destruct (FinishDir_ok _ _ _ HS) as (k & db' & new' & E' & V & HN' & T).
  exists k, (new ++ new'). unfold build_dir. rewrite (M_step _ _ _ _ _ E), E', app_assoc.
  split; [done|]. split; [done|]. split; [by apply Forall_app|done].
Qed.
End DirTrees.

(** * Properties *)

Section DirProperty.
Context `{Blake3} `{Cbor (list bytes)} `{Cbor Entry} `{Cbor (list Entry)} `{Cbor DirPair}
  `{Cbor (list DirPair)}.

(** C14. A directory round trips: for entries the marshaller can carry whose payload keys
    are canonical, [DirBuilder] succeeds and returns a canonical key; its index nodes have
    two to [MaxRun] pairs and its leaves at most [MaxRun] entries; and from any store that
    serves the emitted objects, if the names strictly increase, [CollectEntries] of the key
    returns the entries and [LookupEntry] finds each name exactly when it is there. *)
Theorem directory_roundtrip
  `{!CborOk Entry entry_wf} `{!CborOk (list Entry) (array_wf entry_wf)}
  `{!CborOk DirPair any} `{!CborOk (list DirPair) (array_wf any)} c es :
  chunker_ok c -> MaxRun c <= MaxArrayElements -> Forall entry_ok es ->
  exists k objs, build_dir log_emit c es [] = (Ok k, objs) /\
  Validate k = Ok tt /\ Forall (dir_node c) objs /\
  forall get, serves get objs -> in_order es ->
  exists n, forall fuel, (n <= fuel)%nat ->
  CollectEntries get fuel k = Ok es /\
  forall name, LookupEntry get fuel k name = found (find_name name es).
Proof.
  intros Hc Hm HF. destruct (build_dir_ok c Hc Hm es [] HF) as (k & new & E & V & HN & HT).
  exists k, new. split; [done|]. split; [done|]. split; [done|]. intros get S HS.
  destruct (HT get S) as [n Hn]. exists n. intros fuel Hf. split.
  - unfold CollectEntries. by rewrite (collectEntries_dtree _ n k es), collect_all.
  - intros name. by apply (LookupEntry_dtree _ n).
Qed.
End DirProperty.

Lemma sample_entries_ok : Forall entry_ok sample_dir.
Proof.
  assert (forall n, entry_ok (sample_entry n)) as K.
  { intros n. split; [|by exists [], [], []; split; [done|]; split; left].
    unfold entry_wf, sample_entry. cbn. do 4 (split; [lia|]). split; [constructor|].
    split; [done|by left]. }
  unfold sample_dir. apply Forall_map. by repeat (first [apply List.Forall_nil|apply List.Forall_cons; [apply K|]]).
Qed.

Lemma directory_roundtrip_witness :
  exists k objs, build_dir log_emit (MkItemChunker 2 8 1) sample_dir [] = (Ok k, objs) /\ Validate k = Ok tt.
Proof.
  destruct (directory_roundtrip (MkItemChunker 2 8 1) sample_dir) as (k & objs & E & V & _).
  - split; cbn; lia.
  - cbn; unfold MaxArrayElements; lia.
  - exact sample_entries_ok.
  - exists k, objs. split; [exact E|exact V].
Defined.
