(* ===== verification/Amberignore.v ===== *)
(** Package amberignore (src/amberignore/amberignore.go): the matcher for one directory, with
    the patterns accumulated from the root of the ingest down to it. Pattern syntax and
    matching are go-git's, behind [Gitignore]. *)
From S2P Require Import Prelude External.

Definition FileName : bytes := (* ".amberignore" *)
  [x2e; x61; x6d; x62; x65; x72; x69; x67; x6e; x6f; x72; x65].

(** [strings.TrimSuffix(line, "\r")] *)
Definition trim_cr (line : bytes) : bytes :=
  match list.last line with
  | Some x0d => removelast line
  | _ => line
  end.
Definition has_hash (line : bytes) : bool := match line with x23 :: _ => true | _ => false end.

(** [strings.TrimSpace(line) == ""]: every rune has Unicode's White_Space property. *)
Fixpoint blank (s : bytes) : bool :=
  match s with
  | [] => true
  | (x09 | x0a | x0b | x0c | x0d | x20) :: s' => blank s'
  | xc2 :: (x85 | xa0) :: s' => blank s'
  | xe1 :: x9a :: x80 :: s' => blank s'
  | xe2 :: x80 :: (x80 | x81 | x82 | x83 | x84 | x85 | x86 | x87 | x88 | x89 | x8a
                   | xa8 | xa9 | xaf) :: s' => blank s'
  | xe2 :: x81 :: x9f :: s' => blank s'
  | xe3 :: x80 :: x80 :: s' => blank s'
  | _ => false
  end.

Section Matcher.
Context `{Gitignore} `{Os}.

(** [m.m] is always [gitignore.NewMatcher(m.patterns)]. *)
Record Matcher := MkMatcher { rel : list bytes; patterns : list pattern }.

Definition appendCopy (s : list bytes) (v : bytes) : list bytes := s ++ [v].

(** One line of the file. *)
Definition add_line (rel : list bytes) (ps : list pattern) (line : bytes) : list pattern :=
  let line := trim_cr line in
  if has_hash line || blank line then ps else ps ++ [ParsePattern line rel].

Definition load (dir : path) (rel : list bytes) (parent : option Matcher) : res Matcher :=
  match ReadFile (dir ++ [FileName]) with
  | Err e =>
    if decide (ErrNotExist ∈ e) then
    match parent with
    | Some p => Ok (MkMatcher rel (patterns p))
    | None => Ok (MkMatcher [] [])
    end
    else Err e
  | Ok data =>
    let inherited := match parent with Some p => patterns p | None => [] end in
    Ok (MkMatcher rel (fold_left (add_line rel) (split_on x0a data) inherited))
  end.

Definition Root (rootDir : path) : res Matcher := load rootDir [] None.

(** A nil matcher ignores nothing. *)
Definition Descend (m : option Matcher) (absDir : path) (name : bytes) : res (option Matcher) :=
  match m with
  | None => Ok None
  | Some m' => sub ← load absDir (appendCopy (rel m') name) (Some m'); Ok (Some sub)
  end.

Definition Ignored (m : option Matcher) (name : bytes) (isDir : bool) : bool :=
  match m with
  | None => false
  | Some m' =>
    if negb isDir && bool_decide (name = FileName) then false
    else MatchPatterns (patterns m') (appendCopy (rel m') name) isDir
  end.

(** * What a matcher accumulates *)

(** The patterns one ignore file contributes. *)
Definition file_patterns (rel : list bytes) (data : bytes) : list pattern :=
  fold_left (add_line rel) (split_on x0a data) [].

Lemma add_line_app r ps qs line : add_line r (ps ++ qs) line = ps ++ add_line r qs line.
Proof. unfold add_line. destruct (_ || _); [done|]. by rewrite app_assoc. Qed.

Lemma fold_add_line r ps lines :
  fold_left (add_line r) lines ps = ps ++ fold_left (add_line r) lines [].
Proof.
  assert (forall qs, fold_left (add_line r) lines (ps ++ qs) = ps ++ fold_left (add_line r) lines qs) as K.
  { induction lines as [|l ls IH]; intros qs; [done|]. cbn [fold_left]. by rewrite add_line_app, IH. }
  rewrite <- (K []). by rewrite app_nil_r.
Qed.

Definition ignore_file (dir : path) : res (option bytes) :=
  match ReadFile (dir ++ [FileName]) with
  | Ok d => Ok (Some d)
  | Err e => if decide (ErrNotExist ∈ e) then Ok None else Err e
  end.

(** The patterns in force in [dir / names]: those of each directory on the way down, the
    deepest last, each anchored at its own directory. *)
Fixpoint inherited_patterns (dir : path) (rel : list bytes) (names : list bytes) : res (list pattern) :=
  f ← ignore_file dir;
  let own := match f with Some d => file_patterns rel d | None => [] end in
  match names with
  | [] => Ok own
  | n :: ns => ps ← inherited_patterns (dir ++ [n]) (rel ++ [n]) ns; Ok (own ++ ps)
  end.

Fixpoint descend_all (m : option Matcher) (dir : path) (names : list bytes) : res (option Matcher) :=
  match names with
  | [] => Ok m
  | n :: ns => m' ← Descend m (dir ++ [n]) n; descend_all m' (dir ++ [n]) ns
  end.

Lemma load_patterns dir r p :
  load dir r (Some p) =
  (f ← ignore_file dir;
    Ok (MkMatcher r (patterns p ++ match f with Some d => file_patterns r d | None => [] end))).
Proof.
  unfold load, ignore_file. destruct (ReadFile _) as [d|e]; cbn [mbind res_bind].
  - by rewrite fold_add_line.
  - destruct (decide _); cbn [mbind res_bind]; [by rewrite app_nil_r|done].
Qed.

Lemma descend_all_patterns dir r ps names :
  descend_all (Some (MkMatcher r ps)) dir names =
  match names with
  | [] => Ok (Some (MkMatcher r ps))
  | n :: ns =>
    qs ← inherited_patterns (dir ++ [n]) (r ++ [n]) ns;
    Ok (Some (MkMatcher (r ++ names) (ps ++ qs)))
  end.
Proof.
  revert dir r ps. induction names as [|n ns IH]; intros dir r ps; [done|].
  cbn [descend_all Descend rel patterns]. unfold appendCopy. rewrite load_patterns.
  cbn [patterns].
  assert (forall ns, inherited_patterns (dir ++ [n]) (r ++ [n]) ns =
  (f ← ignore_file (dir ++ [n]);
  let own := match f with Some d => file_patterns (r ++ [n]) d | None => [] end in
  match ns with
  | [] => Ok own
  | n2 :: ns2 => ps ← inherited_patterns ((dir ++ [n]) ++ [n2]) ((r ++ [n]) ++ [n2]) ns2; Ok (own ++ ps)
  end)) as U by (by intros []).
  rewrite U. clear U. destruct (ignore_file (dir ++ [n])) as [f|e]; [|done]. cbn [mbind res_bind].
  rewrite IH. destruct ns as [|n2 ns]; [done|].
  destruct (inherited_patterns _ _ ns) as [qs|e]; [|done]. cbn [mbind res_bind].
  by rewrite <- !app_assoc.
Qed.

(** Ignore files compose down the tree: descending from the root of the ingest to a
    directory yields the matcher whose patterns are those of every ignore file on the way,
    outermost first and each anchored at its own directory, so the last match - the
    deepest - wins; and the ignore file itself is never excluded. *)
Theorem ignore_patterns_compose names :
  (m ← Root []; descend_all (Some m) [] names) =
  (ps ← inherited_patterns [] [] names; Ok (Some (MkMatcher names ps))) /\
  (forall m, Ignored m FileName false = false).
Proof.
  split.
  2:{ intros [m|]; [|done]. unfold Ignored. by rewrite bool_decide_eq_true_2. }
  assert (Root [] = (f ← ignore_file [];
  Ok (MkMatcher [] (match f with Some d => file_patterns [] d | None => [] end)))) as ->.
  { unfold Root, load, ignore_file. destruct (ReadFile _) as [d|e]; [done|]. by destruct (decide _). }
  assert (inherited_patterns [] [] names = (f ← ignore_file [];
  let own := match f with Some d => file_patterns [] d | None => [] end in
  match names with
  | [] => Ok own
  | n :: ns => ps ← inherited_patterns ([] ++ [n]) ([] ++ [n]) ns; Ok (own ++ ps)
  end)) as -> by (by destruct names).
  destruct (ignore_file []) as [f|e]; [|done]. cbn [mbind res_bind].
  rewrite descend_all_patterns. destruct names as [|n ns]; [done|].
  destruct (inherited_patterns _ _ ns); done.
Qed.
End Matcher.
