(* ===== verification/Ingest.v ===== *)
(** Package ingest (src/ingest/driver.go, meta.go, xattr_common.go, parallel.go): the walk that
    turns a file tree into objects. The operating system is the interface [Os]; a recursion
    into a subdirectory costs one unit of fuel. *)
From S2P Require Import Prelude External Concrete Key Cborx Pack Chunker Objects Readers Builder Trees Amberignore.

(** ** meta.go, xattr_common.go *)

Record meta := MkMeta { m_Mode : Z; m_UID : Z; m_GID : Z; m_Mtime : Z }.
Definition entryMeta (info : Stat) : meta :=
  MkMeta (st_mode info) (st_uid info) (st_gid info) (st_mtime info).
Definition deviceNumbers (info : Stat) : Z * Z := (st_major info, st_minor info).

Definition splitXattrNames (buf : bytes) : list bytes :=
  filter (fun n => (0 <? zlen n) = true) (split_on x00 buf).
Definition ignoreUnsupported {A} (e : error) (r : A) : res A :=
  if decide (ENOTSUP ∈ e) then Ok r else Err e.

Section Xattrs.
Context (list_ : path -> res bytes) (get : path -> bytes -> res bytes).
Fixpoint read_names (p : path) (names : list bytes) (m : Xattrs) : res Xattrs :=
  match names with
  | [] => Ok m
  | n :: ns => v ← get p n; read_names p ns (<[n := v]> m)
  end.
Definition readAllXattrs (p : path) (nameBuf : bytes) : res Xattrs :=
  let names := splitXattrNames nameBuf in
  if (length names =? 0)%nat then Ok ∅ else read_names p names ∅.
(** The size call and the read see the same attributes. *)
Definition readXattrsWith (p : path) : res Xattrs :=
  match list_ p with
  | Err e => ignoreUnsupported e ∅
  | Ok buf => if zlen buf =? 0 then Ok ∅ else readAllXattrs p buf
  end.
End Xattrs.

(** ** driver.go *)

Definition S_IFREG : Z := 32768.
Definition S_IFLNK : Z := 40960.
Definition S_IFCHR : Z := 8192.
Definition S_IFBLK : Z := 24576.
Definition S_IFIFO : Z := 4096.
Definition S_IFSOCK : Z := 49152.

Definition DefaultItemBits : Z := 7.
Definition DefaultXattrInlineMax : Z := 256.

(** The byte chunker's options are part of [Cdc]; progress reports are left out. *)
Record driver := MkDriver { d_ic : ItemChunker; xattrInlineMax : Z }.
Definition opts_driver (itemBits inlineMax : Z) : res driver :=
  let bits := if itemBits =? 0 then DefaultItemBits else itemBits in
  let inlineMax := if inlineMax =? 0 then DefaultXattrInlineMax else inlineMax in
  ic ← NewItemChunker bits; Ok (MkDriver ic inlineMax).

Section Driver.
Context `{Blake3} `{Cbor (list bytes)} `{Cbor Entry} `{Cbor (list Entry)} `{Cbor DirPair}
  `{Cbor (list DirPair)} `{Cdc} `{Gitignore} `{Os}.
Context (d : driver).
Context {St : Type} (emit : Object -> M St unit).

(** [buildFile]'s locals: the index builder and [saw]. *)
Definition file_state : Type := IndexBuilder * bool.
Definition on_ib {A} (m : M (IndexBuilder * St) A) : M (file_state * St) A :=
  fun '((ib, saw), s) => let '(r, (ib', s')) := m (ib, s) in (r, ((ib', saw), s')).

Definition add_blob (chunk : bytes) : M (file_state * St) unit :=
  obj ← lift (EncodeBlob chunk);
  _ ← run_emit emit obj;
  on_ib (AddChild emit (OKey obj) []).
Definition file_chunk (chunk : bytes) : M (file_state * St) unit :=
  _ ← upd (fun '(ib, _) => (ib, true));
  add_blob chunk.

Definition buildFile_body (full : path) : M (file_state * St) Key :=
  f ← lift (ReadFile full);
  _ ← SplitBytes file_chunk f;
  saw ← gets (fun st => st.1.2);
  _ ← (if negb saw then add_blob [] else mret tt);
  on_ib (Finish emit).
Definition buildFile (full : path) : M St Key :=
  fun s =>
  let '(r, (_, s')) := buildFile_body full ((NewFileIndexBuilder (d_ic d), false), s) in (r, s').

(** The payload of an entry, by file type. *)
Definition build_payload (full : path) (name : bytes) (ign : option Matcher)
  (buildDir : path -> option Matcher -> M St Key) (info : Stat) (e : Entry) : M St Entry :=
  let set_content ck := MkEntry (Name e) (Mode e) (UID e) (GID e) (Mtime e) (b32_bytes ck)
              (LinkTarget e) (Rdev e) (XattrsIn e) (XattrsKey e) in
  let fmt := Z.land (Mode e) S_IFMT in
  if fmt =? S_IFREG then ck ← buildFile full; mret (set_content ck)
  else if fmt =? S_IFDIR then
  sub ← lift (Descend ign full name);
  ck ← buildDir full sub;
  mret (set_content ck)
  else if fmt =? S_IFLNK then
  target ← lift (Readlink full);
  mret (MkEntry (Name e) (Mode e) (UID e) (GID e) (Mtime e) (ContentKey e) target
    (Rdev e) (XattrsIn e) (XattrsKey e))
  else if (fmt =? S_IFCHR) || (fmt =? S_IFBLK) then
  let '(major, minor) := deviceNumbers info in
  mret (MkEntry (Name e) (Mode e) (UID e) (GID e) (Mtime e) (ContentKey e) (LinkTarget e)
    [major; minor] (XattrsIn e) (XattrsKey e))
  else if (fmt =? S_IFIFO) || (fmt =? S_IFSOCK) then mret e
  else fail [EMsg "unsupported file type"].

(** The extended attributes, inline or spilled (skip symlinks). *)
Definition build_xattrs (full : path) (e : Entry) : M St Entry :=
  if Z.land (Mode e) S_IFMT =? S_IFLNK then mret e
  else
  xattrs ← lift (readXattrsWith Llistxattr Lgetxattr full);
  if (size xattrs =? 0)%nat then mret e
  else
  let enc := EncodeXattrs xattrs in
  if zlen enc <=? xattrInlineMax d then
  mret (MkEntry (Name e) (Mode e) (UID e) (GID e) (Mtime e) (ContentKey e) (LinkTarget e)
    (Rdev e) enc (XattrsKey e))
  else
  obj ← lift (EncodeXattrSet xattrs);
  _ ← emit obj;
  mret (MkEntry (Name e) (Mode e) (UID e) (GID e) (Mtime e) (ContentKey e) (LinkTarget e)
    (Rdev e) (XattrsIn e) (b32_bytes (OKey obj))).

Definition buildEntry (full : path) (name : bytes) (ign : option Matcher)
  (buildDir : path -> option Matcher -> M St Key) : M St Entry :=
  info ← lift (Lstat full);
  let m := entryMeta info in
  e ← build_payload full name ign buildDir info
  (MkEntry name (m_Mode m) (m_UID m) (m_GID m) (m_Mtime m) [] [] [] [] []);
  build_xattrs full e.

(** A step on the consumer's state alone. *)
Definition on_st {B A} (m : M St A) : M (B * St) A :=
  fun '(b, s) => let '(r, s') := m s in (r, (b, s')).

Fixpoint buildDir (fuel : nat) (p : path) (ign : option Matcher) : M St Key :=
  match fuel with
  | O => fail [OutOfFuel]
  | S fuel' => fun s =>
    let body : M (DirBuilder * St) Key :=
    ents ← lift (ReadDir p);
    _ ← each (fun '(name, isDir) =>
      if Ignored ign name isDir then mret tt
      else
      e ← on_st (buildEntry (p ++ [name]) name ign (buildDir fuel'));
      AddEntry emit e) ents;
    FinishDir emit in
    let '(r, (_, s')) := body (NewDirBuilder (d_ic d), s) in (r, s')
  end.
End Driver.

(** ** A file's tree *)

Section Files.
Context `{Blake3} `{Cbor (list bytes)} `{Cbor Entry} `{Cbor (list Entry)} `{Cbor DirPair}
  `{Cbor (list DirPair)} `{Cdc} `{Gitignore} `{Os}.
Context `{!CborOk (list bytes) (array_wf any)} `{!CdcOk}.
Context (d : driver).
Hypothesis Hc : chunker_ok (d_ic d).
Hypothesis Hmax : MaxRun (d_ic d) <= MaxArrayElements.
Let c := d_ic d.

(** Objects a file build emits: blobs, and index nodes of bounded width. *)
Definition file_obj (o : Object) : Prop :=
  (exists data, EncodeBlob data = Ok o) \/ file_node c o.

Definition file_ready (log : list Object) (st : file_state) (chunks : list bytes) : Prop :=
  ready c false file_ref log st.1 chunks /\ (st.2 = true -> hasAny st.1 = true) /\
  (st.2 = false -> chunks = []).

Lemma add_blob_ok log ib saw chunks chunk :
  ready c false file_ref log ib chunks ->
  exists ib' new, add_blob log_emit chunk ((ib, saw), log) = (Ok tt, ((ib', saw), log ++ new)) /\
  ready c false file_ref (log ++ new) ib' (chunks ++ [chunk]) /\ hasAny ib' = true /\
  Forall file_obj new.
Proof.
  intros HR. destruct (EncodeBlob_total chunk) as [obj E].
  unfold add_blob. rewrite M_lift, E, (M_step _ _ _ _ _ (run_log_emit _ _ _)).
  destruct (AddChild_ok c false file_ref (file_node c) Hc file_ref_mono file_item_ok (file_node_ok c Hmax)
  (log ++ [obj]) ib chunks (OKey obj) [] [chunk]) as (ib' & new & EA & HR' & Hany & HN).
  - by apply ready_mono; [apply file_ref_mono|].
  - by apply blob_ref.
  - done.
  - exists ib', (obj :: new). unfold on_ib. rewrite EA. rewrite <- app_assoc in *. split; [done|].
    split; [done|]. split; [done|]. constructor; [left; eauto|].
    eapply list.Forall_impl; [exact HN|by right].
Qed.

Lemma file_chunks_ok chunks2 log ib saw chunks :
  ready c false file_ref log ib chunks -> (chunks = [] -> chunks2 <> [] \/ saw = false) ->
  (chunks <> [] -> saw = true /\ hasAny ib = true) ->
  exists ib' saw' new,
  each (file_chunk log_emit) chunks2 ((ib, saw), log) = (Ok tt, ((ib', saw'), log ++ new)) /\
  ready c false file_ref (log ++ new) ib' (chunks ++ chunks2) /\
  (chunks ++ chunks2 <> [] -> saw' = true /\ hasAny ib' = true) /\
  (chunks ++ chunks2 = [] -> saw' = saw) /\ Forall file_obj new.
Proof.
  revert log ib saw chunks. induction chunks2 as [|x chunks2 IH]; intros log ib saw chunks HR H0' Hs.
  - exists ib, saw, []. by rewrite !app_nil_r.
  - destruct (add_blob_ok log ib true chunks x HR) as (ib1 & new & E & HR1 & Hany & HN).
    destruct (IH (log ++ new) ib1 true (chunks ++ [x]) HR1) as (ib' & saw' & new' & E' & HR' & Hs' & _ & HN').
    { by intros [_ ?]%app_eq_nil. } { done. }
    assert (file_chunk log_emit x ((ib, saw), log) = (Ok tt, ((ib1, true), log ++ new))) as E1 by exact E.
    exists ib', saw', (new ++ new'). cbn [each]. rewrite (M_step _ _ _ _ _ E1), E'.
    rewrite <- !app_assoc in *. cbn [app] in *.
    split; [done|]. split; [done|]. split; [done|].
    split; [by intros [_ ?]%app_eq_nil|by apply Forall_app].
Qed.

(** A file build returns a key that stands for the file's bytes, cut into blobs. *)
Lemma buildFile_ok full data log :
  ReadFile full = Ok data ->
  exists k chunks new, buildFile d log_emit full log = (Ok k, log ++ new) /\
  concat chunks = data /\ file_ref (log ++ new) k [] chunks /\ Forall file_obj new.
Proof.
  intros HF. destruct (SplitBytes_each (file_chunk log_emit) data) as (cs & HS & Hcat & Hne).
  destruct (file_chunks_ok cs log (MkIB c false []) false []) as (ib & saw & new & E & HR & Hs & H0' & HN);
  [apply ready_new|by right|done|]. cbn [app] in *.
  assert (exists ib' chunks new', (_ ← (if negb saw then add_blob log_emit [] else mret tt);
  on_ib (Finish log_emit)) ((ib, saw), log ++ new) =
  on_ib (Finish log_emit) ((ib', saw), log ++ new ++ new') /\
  concat chunks = data /\ ready c false file_ref (log ++ new ++ new') ib' chunks /\
  hasAny ib' = true /\ Forall file_obj new') as (ib' & chunks & new' & E' & Hd & HR' & Hany & HN').
  { destruct cs as [|x cs].
    - rewrite (H0' eq_refl) in *. cbn [negb].
      destruct (add_blob_ok (log ++ new) ib false [] [] HR) as (ib1 & new1 & E1 & HR1 & Hany & HN1).
      exists ib1, [[]], new1. rewrite (M_step _ _ _ _ _ E1). rewrite <- !app_assoc in *. done.
    - destruct (Hs ltac:(done)) as [-> Hany]. exists ib, (x :: cs), []. cbn [negb].
      rewrite app_nil_r. by split_and!. }
  destruct (Finish_ok c false file_ref (file_node c) Hc file_ref_mono file_item_ok (file_node_ok c Hmax)
  _ _ _ HR' Hany) as (k & sep & b' & new2 & EF & HT & HN2).
  exists k, chunks, (new ++ new' ++ new2). unfold buildFile, buildFile_body.
  rewrite M_lift, HF, (M_step _ _ _ tt ((ib, saw), log ++ new)) by (by rewrite HS).
  rewrite M_gets. cbn [fst snd]. rewrite E'. unfold on_ib. rewrite EF.
  rewrite <- !app_assoc in *. split; [done|]. split; [done|]. split; [done|].
  apply Forall_app. split; [done|]. apply Forall_app. split; [done|].
  eapply list.Forall_impl; [exact HN2|by right].
Qed.
End Files.

(** * Properties *)

(** A writer that keeps what it is given, [bytes.Buffer]. *)
Definition buffer (b : bytes) : M bytes unit := modify (fun w => w ++ b).
Lemma buffer_all cs w : each buffer cs w = (Ok tt, w ++ concat cs).
Proof.
  revert w. induction cs as [|c cs IH]; intros w; cbn [each concat]; [by rewrite app_nil_r|].
  by rewrite (M_step _ _ _ tt (w ++ c)), IH, app_assoc by done.
Qed.

Lemma opts_driver_ok itemBits inlineMax d :
  0 <= itemBits <= 15 -> opts_driver itemBits inlineMax = Ok d ->
  chunker_ok (d_ic d) /\ MaxRun (d_ic d) <= MaxArrayElements.
Proof.
  intros Hb E. unfold opts_driver in E.
  apply res_bind_Ok in E as (c & E & [= <-]). cbn [d_ic].
  set (bits := if itemBits =? 0 then DefaultItemBits else itemBits) in *.
  assert (0 <= bits <= 15) as Hb' by (subst bits; destruct (Z.eqb_spec itemBits 0); unfold DefaultItemBits; lia).
  clearbody bits. split; [by apply (NewItemChunker_ok bits); [lia|]|].
  destruct (NewItemChunker_fields bits c) as (_ & -> & _); [lia|done|].
  assert (2 ^ bits <= 2 ^ 15) by (apply Z.pow_le_mono_r; lia). unfold MaxArrayElements. lia.
Qed.

Section FileProperty.
Context `{Blake3} `{Cbor (list bytes)} `{Cbor Entry} `{Cbor (list Entry)} `{Cbor DirPair}
  `{Cbor (list DirPair)} `{Cdc} `{Gitignore} `{Os}.

(** A file round trips: with the options' chunker (item bits up to 15), [buildFile]
    succeeds on any readable file and returns a canonical key whose length field is the
    file's size modulo 2^64; everything it emits is a blob or an index node of two to
    [MaxRun] children; and from any store that serves the emitted objects, [WriteContent]
    of the key writes exactly the file's bytes. *)
Theorem file_roundtrip `{!CborOk (list bytes) (array_wf any)} `{!CdcOk}
  itemBits inlineMax d full data :
  0 <= itemBits <= 15 -> opts_driver itemBits inlineMax = Ok d -> ReadFile full = Ok data ->
  exists k objs, buildFile d log_emit full [] = (Ok k, objs) /\
  Validate k = Ok tt /\ Length k = u64 (zlen data) /\ Forall (file_obj d) objs /\
  forall get, serves get objs ->
  exists n, forall fuel, (n <= fuel)%nat -> WriteContent get buffer fuel k [] = (Ok tt, data).
Proof.
  intros Hb Hd HF. destruct (opts_driver_ok _ _ _ Hb Hd) as [Hc Hm].
  destruct (buildFile_ok d Hc Hm full data [] HF) as (k & cs & new & E & Hcat & (V & HL & HT) & HN).
  exists k, new. split; [done|]. split; [done|]. rewrite Hcat in HL. split; [done|]. split; [done|].
  intros get S. destruct (HT get S) as [n Hn]. exists n. intros fuel Hf.
  by rewrite (WriteContent_ftree get buffer n k cs fuel Hn Hf), buffer_all, Hcat.
Qed.
End FileProperty.

(** ** A small host *)

Definition sample_data : bytes := replicate 9 x61 ++ [x62].
Definition no_such {A} : res A := Err [ErrNotExist].
#[export] Instance toy_gitignore : Gitignore := {
    pattern := bytes; ParsePattern l _ := l;
    MatchPatterns ps names _ := existsb (fun p => bool_decide (list.last names = Some p)) ps
  }.
(** A file [a] with an attribute, a directory [d] that holds a link [l], an ignored file [o],
    and the ignore file. *)
#[export] Instance toy_os : Os := {
    ReadDir p := match p with
    | [] => Ok [(FileName, false); ([x61], false); ([x64], true); ([x6f], false)]
    | [[x64]] => Ok [([x6c], false)]
    | _ => no_such end;
    Lstat p := match p with
    | [[x61]] => Ok (MkStat 33188 1000 100 (-1) 0 0 10)
    | [[x64]] => Ok (MkStat 16877 0 0 5 0 0 0)
    | [[x64]; [x6c]] => Ok (MkStat 41471 0 0 7 0 0 0)
    | _ => if bool_decide (p = [FileName]) then Ok (MkStat 33188 0 0 0 0 0 2) else no_such end;
    Readlink p := match p with [[x64]; [x6c]] => Ok [x2e; x2e] | _ => no_such end;
    ReadFile p := match p with
    | [[x61]] => Ok sample_data
    | _ => if bool_decide (p = [FileName]) then Ok [x6f; x0a] else no_such end;
    Llistxattr p := match p with [[x61]] => Ok [x75; x00] | _ => Err [ENOTSUP] end;
    Lgetxattr p n := Ok [x01]
  }.
Definition sample_driver : driver := MkDriver (MkItemChunker 2 8 1) 256.
Lemma sample_driver_eq : opts_driver 1 0 = Ok sample_driver.
Proof. vm_compute. reflexivity. Qed.
Lemma sample_bits : 0 <= 1 <= 15.
Proof. lia. Qed.

Lemma sample_read : ReadFile [[x61]] = Ok sample_data.
Proof. vm_compute. reflexivity. Qed.

Lemma file_roundtrip_witness :
  exists k objs, buildFile sample_driver log_emit [[x61]] [] = (Ok k, objs) /\ Length k = 10.
Proof.
  destruct (file_roundtrip 1 0 sample_driver [[x61]] sample_data sample_bits sample_driver_eq sample_read)
    as (k & objs & E & _ & HL & _).
  exists k, objs. split; [exact E|exact HL].
Defined.
