(* ===== verification/Mirror.v ===== *)
(** What an ingest promises (src/ingest): a key whose objects mirror the file tree, entry by
    entry, under the driver's own walk. [mirrors] is the specification, stated over the
    operating system's answers and the stored objects alone; [buildDir] meets it. *)
From S2P Require Import Prelude External Concrete Key Cborx Pack Chunker Objects Readers Builder Trees Amberignore Ingest.

(** Decides the tests on a known file type. *)
Ltac eval_types :=
  repeat match goal with
  | |- context [?a =? ?b] => let v := eval vm_compute in (a =? b) in change (a =? b) with v
  end; cbn iota; cbn [orb]; cbn iota.

Section Mirror.
Context `{Blake3} `{Cbor (list bytes)} `{Cbor Entry} `{Cbor (list Entry)} `{Cbor DirPair}
  `{Cbor (list DirPair)} `{Cdc} `{Gitignore} `{Os}.

(** * The specification *)

Definition file_type (st : Stat) : Z := Z.land (st_mode st) S_IFMT.
Definition stat_wf (st : Stat) : Prop :=
  0 <= st_mode st < 2 ^ 64 /\ 0 <= st_uid st < 2 ^ 64 /\ 0 <= st_gid st < 2 ^ 64 /\
  - 2 ^ 63 <= st_mtime st < 2 ^ 63 /\ 0 <= st_major st < 2 ^ 64 /\ 0 <= st_minor st < 2 ^ 64.
Definition kept (ign : option Matcher) (ents : list (bytes * bool)) : list (bytes * bool) :=
  filter (fun de => Ignored ign de.1 de.2 = false) ents.

Section Entry.
Context (dir_at : path -> option Matcher -> Prop).
(** The source of one entry can be read. *)
Definition readable_entry (full : path) (name : bytes) (ign : option Matcher) : Prop :=
  exists st, Lstat full = Ok st /\ stat_wf st /\
  ((file_type st = S_IFREG /\ is_ok (ReadFile full) = true) \/
    (file_type st = S_IFDIR /\ exists sub, Descend ign full name = Ok sub /\ dir_at full sub) \/
    (file_type st = S_IFLNK /\ is_ok (Readlink full) = true) \/
    (file_type st ∈ [S_IFCHR; S_IFBLK; S_IFIFO; S_IFSOCK])) /\
  (file_type st <> S_IFLNK -> exists xs, readXattrsWith Llistxattr Lgetxattr full = Ok xs /\ xattrs_wf xs).
End Entry.

Fixpoint readable (n : nat) (p : path) (ign : option Matcher) : Prop :=
  match n with
  | O => False
  | S n' => exists ents, ReadDir p = Ok ents /\
    Forall (fun de => readable_entry (readable n') (p ++ [de.1]) de.1 ign) (kept ign ents)
  end.

Section MirrorEntry.
Context (get : Key -> res bytes) (dir_at : path -> option Matcher -> Key -> Prop).

(** The payload keys hold what the file type calls for, and nothing else. *)
Definition mirrors_payload (full : path) (name : bytes) (ign : option Matcher) (st : Stat) (e : Entry) : Prop :=
  (file_type st = S_IFREG /\ LinkTarget e = [] /\ Rdev e = [] /\
    exists data k h chunks, ReadFile full = Ok data /\ Parse (ContentKey e) = Ok k /\
    Length k = u64 (zlen data) /\ ftree get h k chunks /\ concat chunks = data) \/
  (file_type st = S_IFDIR /\ LinkTarget e = [] /\ Rdev e = [] /\
    exists sub k, Descend ign full name = Ok sub /\ Parse (ContentKey e) = Ok k /\ dir_at full sub k) \/
  (file_type st = S_IFLNK /\ ContentKey e = [] /\ Rdev e = [] /\ Readlink full = Ok (LinkTarget e)) \/
  (file_type st ∈ [S_IFCHR; S_IFBLK] /\ ContentKey e = [] /\ LinkTarget e = [] /\
    Rdev e = [st_major st; st_minor st]) \/
  (file_type st ∈ [S_IFIFO; S_IFSOCK] /\ ContentKey e = [] /\ LinkTarget e = [] /\ Rdev e = []).

(** The attributes are absent, inline, or in the [XattrSet] the key names. *)
Definition stores_xattrs (xs : Xattrs) (e : Entry) : Prop :=
  (xs = ∅ /\ XattrsIn e = [] /\ XattrsKey e = []) \/
  (xs <> ∅ /\ exists b, DecodeXattrs b = Ok xs /\
    ((XattrsIn e = b /\ XattrsKey e = []) \/
      (XattrsIn e = [] /\ exists k, Parse (XattrsKey e) = Ok k /\ Type_ k = XattrSet /\ get k = Ok b))).

Definition mirrors_entry (full : path) (name : bytes) (ign : option Matcher) (e : Entry) : Prop :=
  exists st, Lstat full = Ok st /\ Name e = name /\
  Mode e = st_mode st /\ UID e = st_uid st /\ GID e = st_gid st /\ Mtime e = st_mtime st /\
  mirrors_payload full name ign st e /\
  exists xs, stores_xattrs xs e /\
  (if file_type st =? S_IFLNK then xs = ∅
    else readXattrsWith Llistxattr Lgetxattr full = Ok xs).
End MirrorEntry.

Fixpoint mirrors (get : Key -> res bytes) (n : nat) (p : path) (ign : option Matcher) (k : Key) : Prop :=
  match n with
  | O => False
  | S n' => exists ents es h, ReadDir p = Ok ents /\ dtree get h k es /\
    Forall2 (fun de e => mirrors_entry get (mirrors get n') (p ++ [de.1]) de.1 ign e) (kept ign ents) es
  end.

(** * The walk meets it *)

Context `{!CborOk (list bytes) (array_wf any)} `{!CborOk Entry entry_wf}
  `{!CborOk (list Entry) (array_wf entry_wf)} `{!CborOk DirPair any} `{!CborOk (list DirPair) (array_wf any)}
  `{!CdcOk}.
Context (d : driver).
Hypothesis Hc : chunker_ok (d_ic d).
Hypothesis Hmax : MaxRun (d_ic d) <= MaxArrayElements.

(** A subdirectory's build, as the caller of the recursion sees it. *)
Definition builds_dir (build : path -> option Matcher -> M (list Object) Key)
  (spec : (Key -> res bytes) -> path -> option Matcher -> Key -> Prop) (p : path) (ign : option Matcher) : Prop :=
  forall log, exists k new, build p ign log = (Ok k, log ++ new) /\ Validate k = Ok tt /\
  forall get, serves get (log ++ new) -> spec get p ign k.

Definition base_entry (name : bytes) (st : Stat) : Entry :=
  MkEntry name (st_mode st) (st_uid st) (st_gid st) (st_mtime st) [] [] [] [] [].
(** What [build_payload] leaves alone. *)
Definition same_meta (e0 e : Entry) : Prop :=
  Name e = Name e0 /\ Mode e = Mode e0 /\ UID e = UID e0 /\ GID e = GID e0 /\ Mtime e = Mtime e0 /\
  XattrsIn e = [] /\ XattrsKey e = [].

Section OneEntry.
Context (build : path -> option Matcher -> M (list Object) Key)
  (spec : (Key -> res bytes) -> path -> option Matcher -> Key -> Prop).

Lemma build_payload_ok full name ign st log :
  stat_wf st ->
  ((file_type st = S_IFREG /\ is_ok (ReadFile full) = true) \/
    (file_type st = S_IFDIR /\ exists sub, Descend ign full name = Ok sub /\ builds_dir build spec full sub) \/
    (file_type st = S_IFLNK /\ is_ok (Readlink full) = true) \/
    (file_type st ∈ [S_IFCHR; S_IFBLK; S_IFIFO; S_IFSOCK])) ->
  exists e new, build_payload d log_emit full name ign build st (base_entry name st) log = (Ok e, log ++ new) /\
  same_meta (base_entry name st) e /\ (exists l, opt_key (ContentKey e) l) /\
  Forall (fun x => 0 <= x < 2 ^ 64) (Rdev e) /\ zlen (Rdev e) <= 2 /\
  forall get, serves get (log ++ new) -> mirrors_payload get (spec get) full name ign st e.
Proof.
  intros Hst HT. unfold build_payload. cbn [Mode base_entry]. fold (file_type st).
  destruct HT as [[T Hf]|[[T (sub & Hsub & HB)]|[[T Hl]|T]]].
  - rewrite T. eval_types. destruct (ReadFile full) as [data|] eqn:EF; [|done].
    destruct (buildFile_ok d Hc Hmax full data log EF) as (k & cs & new & E & Hcat & (V & HL & HT) & _).
    rewrite (M_step _ _ _ _ _ E). eexists _, new. split; [reflexivity|]. cbn.
    split; [done|]. split; [exists [k]; right; exists k; by rewrite Parse_bytes|].
    split; [constructor|]. split; [unfold zlen; cbn; lia|]. intros get S. left. destruct (HT get S) as [h Hh].
    split_and!; try done. exists data, k, h, cs. rewrite Hcat in HL. split_and!; try done. by apply Parse_bytes.
  - rewrite T. eval_types. rewrite M_lift, Hsub. destruct (HB log) as (k & new & E & V & HS).
    rewrite (M_step _ _ _ _ _ E). eexists _, new. split; [reflexivity|]. cbn.
    split; [done|]. split; [exists [k]; right; exists k; by rewrite Parse_bytes|].
    split; [constructor|]. split; [unfold zlen; cbn; lia|]. intros get S. right; left.
    split_and!; try done. exists sub, k. split_and!; try done; [by apply Parse_bytes|by apply HS].
  - rewrite T. eval_types. rewrite M_lift. destruct (Readlink full) as [t|] eqn:EL; [|done].
    eexists _, []. rewrite app_nil_r. split; [reflexivity|]. cbn.
    split; [done|]. split; [exists []; by left|]. split; [constructor|]. split; [unfold zlen; cbn; lia|].
    intros get _. right; right; left. done.
  - destruct Hst as (_ & _ & _ & _ & Hma & Hmi).
    repeat (apply elem_of_cons in T as [T|T]); [..|by apply elem_of_nil in T]; rewrite T; eval_types;
    eexists _, []; rewrite app_nil_r; (split; [reflexivity|]); cbn;
    (split; [done|]); (split; [exists []; by left|]);
    (split; [repeat (first [apply List.Forall_nil | apply List.Forall_cons; [done|]])|]); (split; [unfold zlen; cbn; lia|]); intros get _;
    [do 3 right; left|do 3 right; left|do 4 right|do 4 right]; rewrite T;
    (split; [set_solver|done]).
Qed.

Lemma build_xattrs_ok full name st e xs log :
  same_meta (base_entry name st) e ->
  (if file_type st =? S_IFLNK then xs = ∅
    else readXattrsWith Llistxattr Lgetxattr full = Ok xs) -> xattrs_wf xs ->
  exists xin xkey new,
  build_xattrs d log_emit full e log =
  (Ok (MkEntry (Name e) (Mode e) (UID e) (GID e) (Mtime e) (ContentKey e) (LinkTarget e) (Rdev e) xin xkey),
    log ++ new) /\
  (exists l, opt_key xkey l) /\ (xin = [] \/ xin = EncodeXattrs xs) /\
  forall get e', serves get (log ++ new) -> XattrsIn e' = xin -> XattrsKey e' = xkey -> stores_xattrs get xs e'.
Proof.
  intros HS Hx Hw. pose proof HS as (_ & HM & _ & _ & _ & HI & HK). cbn [Mode base_entry] in HM.
  assert (e = MkEntry (Name e) (Mode e) (UID e) (GID e) (Mtime e) (ContentKey e)
  (LinkTarget e) (Rdev e) [] []) as He.
  { destruct e. cbn in *. by subst. }
  assert (Z.land (Mode e) S_IFMT = file_type st) as HT by (by rewrite HM).
  unfold build_xattrs. rewrite HT. destruct (file_type st =? S_IFLNK).
  { exists [], [], []. rewrite app_nil_r, <- He. split; [done|].
    split; [exists []; by left|]. split; [by left|]. intros. by left. }
  rewrite M_lift, Hx. destruct (Nat.eqb_spec (size xs) 0) as [E0|E0].
  { exists [], [], []. rewrite app_nil_r, <- He. split; [done|].
    split; [exists []; by left|]. split; [by left|]. intros. left. by apply map_size_empty_inv in E0. }
  assert (xs <> ∅) as Hne by (intros ->; by rewrite map_size_empty in E0).
  pose proof (decode_encode _ xs Hw (reflexivity _)) as HD.
  change (DecodeXattrs (EncodeXattrs xs) = Ok xs) in HD.
  destruct (zlen (EncodeXattrs xs) <=? xattrInlineMax d).
  - exists (EncodeXattrs xs), [], []. rewrite app_nil_r. rewrite HK. split; [done|].
    split; [exists []; by left|]. split; [by right|]. intros get e' _ E1 E2. right. split; [done|].
    exists (EncodeXattrs xs). split; [done|]. by left.
  - destruct (new_object_total XattrSet (u64 (zlen (EncodeXattrs xs))) (EncodeXattrs xs)) as [obj Eo]; [done|].
    change (EncodeXattrSet xs = Ok obj) in Eo. rewrite M_lift, Eo.
    exists [], (b32_bytes (OKey obj)), [obj]. rewrite HI. split; [done|].
    apply new_object_Ok in Eo as (Hb & V & T & _); [|done|apply u64_range].
    split; [exists [OKey obj]; right; exists (OKey obj); by rewrite Parse_bytes|]. split; [by left|].
    intros get e' [_ S]%serves_app E1 E2. right. split; [done|].
    exists (EncodeXattrs xs). split; [done|]. right. split; [done|]. exists (OKey obj).
    rewrite E2. split; [by apply Parse_bytes|]. split; [done|]. rewrite <- Hb. apply S. by left.
Qed.

Lemma buildEntry_ok full name ign log :
  readable_entry (builds_dir build spec) full name ign ->
  exists e new, buildEntry d log_emit full name ign build log = (Ok e, log ++ new) /\
  entry_ok e /\
  forall get, serves get (log ++ new) -> mirrors_entry get (spec get) full name ign e.
Proof.
  intros (st & HL & Hst & HT & HX).
  assert (exists xs, (if file_type st =? S_IFLNK then xs = ∅
  else readXattrsWith Llistxattr Lgetxattr full = Ok xs) /\ xattrs_wf xs) as (xs & Hx & Hw).
  { destruct (Z.eqb_spec (file_type st) S_IFLNK) as [|N].
    - exists ∅. split; [done|]. split; [apply map_Forall_empty|done].
    - by apply HX. }
  destruct (build_payload_ok full name ign st log Hst HT)
  as (e & new & E & HS & (l1 & Hk1) & Hr & Hrl & HP).
  destruct (build_xattrs_ok full name st e xs (log ++ new) HS Hx Hw)
  as (xin & xkey & new2 & E2 & (l2 & Hk2) & Hin & HX2).
  unfold buildEntry. rewrite M_lift, HL. cbn [entryMeta m_Mode m_UID m_GID m_Mtime].
  rewrite (M_step _ _ _ _ _ E), E2. eexists _, (new ++ new2). rewrite app_assoc. split; [reflexivity|].
  destruct HS as (S1 & S2 & S3 & S4 & S5 & _). cbn [Name Mode UID GID Mtime base_entry] in *.
  destruct Hst as (W1 & W2 & W3 & W4 & _). split.
  - split; [|exists (l1 ++ l2); by exists l1, l2].
    unfold entry_wf. cbn. rewrite S2, S3, S4, S5. do 5 (split; [done|]).
    split; [unfold MaxArrayElements; lia|].
    destruct Hin as [->| ->]; [by left|right; by exists xs].
  - intros get HSv. exists st. cbn [Name Mode UID GID Mtime]. split_and!; try done.
    + apply serves_app in HSv as [HSv _]. apply (HP get HSv).
    + exists xs. split; [|done]. by apply HX2.
Qed.
End OneEntry.

Lemma mirrors_walk build spec p ign ents log db es0 :
  Forall (fun de => readable_entry (builds_dir build spec) (p ++ [de.1]) de.1 ign) (kept ign ents) ->
  dir_state (d_ic d) log db es0 ->
  exists db' new es,
  each (fun '(name, isDir) =>
    if Ignored ign name isDir then mret tt
    else e ← on_st (buildEntry d log_emit (p ++ [name]) name ign build); AddEntry log_emit e)
  ents (db, log) = (Ok tt, (db', log ++ new)) /\
  dir_state (d_ic d) (log ++ new) db' (es0 ++ es) /\
  forall get, serves get (log ++ new) ->
  Forall2 (fun de e => mirrors_entry get (spec get) (p ++ [de.1]) de.1 ign e) (kept ign ents) es.
Proof.
  revert log db es0. induction ents as [|[name isDir] ents IH]; intros log db es0 HF HS.
  - exists db, [], []. by rewrite !app_nil_r.
  - cbn [each]. unfold kept in *. destruct (Ignored ign name isDir) eqn:EI.
    + rewrite filter_cons_False in * by (cbn; by rewrite EI). apply IH; done.
    + rewrite filter_cons_True in * by (cbn; by rewrite EI).
      apply Forall_cons_1 in HF as [He HF]. cbn [fst] in He.
      destruct (buildEntry_ok build spec _ _ _ log He) as (e & new & E & Hok & HM).
      assert (dir_state (d_ic d) (log ++ new) db es0) as HS1.
      { destruct HS as (dn & ? & HR & ?). exists dn. split; [done|].
        split; [|done]. by apply ready_mono; [apply dir_ref_mono|]. }
      destruct (AddEntry_ok _ Hc Hmax _ _ _ _ HS1 Hok) as (db1 & new1 & E1 & HS2 & _).
      destruct (IH _ _ _ HF HS2) as (db' & new' & es & E' & HS' & HM').
      exists db', (new ++ new1 ++ new'), (e :: es).
      assert ((e ← on_st (buildEntry d log_emit (p ++ [name]) name ign build); AddEntry log_emit e)
      (db, log) = (Ok tt, (db1, (log ++ new) ++ new1))) as Estep.
      { rewrite (M_step _ _ _ e (db, log ++ new)); [done|]. unfold on_st. by rewrite E. }
      rewrite (M_step _ _ _ _ _ Estep), E'. rewrite <- !app_assoc in *. cbn [app] in *.
      split; [done|]. split; [done|]. intros get HSv. constructor; [|by apply HM'].
      apply HM. apply serves_app in HSv as [S1 HSv]. apply serves_app in HSv as [S2 _].
      intros o [?|?]%elem_of_app; [by apply S1|by apply S2].
Qed.

Lemma readable_entry_impl (P Q : path -> option Matcher -> Prop) full name ign :
  (forall p i, P p i -> Q p i) -> readable_entry P full name ign -> readable_entry Q full name ign.
Proof.
  intros HPQ (st & ? & ? & HT & ?). exists st. split; [done|]. split; [done|]. split; [|done].
  destruct HT as [?|[(? & sub & ? & ?)|?]]; [by left| |by right; right].
  right; left. split; [done|]. exists sub. split; [done|]. by apply HPQ.
Qed.

Lemma buildDir_ok n p ign fuel :
  readable n p ign -> (n <= fuel)%nat ->
  builds_dir (buildDir d log_emit fuel) (fun get => mirrors get n) p ign.
Proof.
  revert p ign fuel. induction n as [|n IH]; intros p ign [|fuel] HR Hf log; try done; [lia|].
  destruct HR as (ents & HE & HF).
  destruct (mirrors_walk (buildDir d log_emit fuel) (fun get => mirrors get n) p ign ents log
  (NewDirBuilder (d_ic d)) []) as (db & new & es & E & HS & HM).
  { eapply list.Forall_impl; [exact HF|]. intros de. apply readable_entry_impl. intros p' i' ?. apply IH; [done|lia]. }
  { by apply dir_state_new. }
  destruct (FinishDir_ok _ Hc Hmax _ _ _ HS) as (k & db' & new' & E' & V & _ & HT).
  exists k, (new ++ new'). cbn [buildDir]. rewrite M_lift, HE, (M_step _ _ _ _ _ E), E'.
  rewrite app_assoc. split; [done|]. split; [done|]. intros get HSv.
  destruct (HT get HSv) as [h Hh]. exists ents, es, h. split; [done|]. split; [done|].
  apply HM. by apply serves_app in HSv as [HSv _].
Qed.
End Mirror.

(** * Properties *)

Section Property.
Context `{Blake3} `{Cbor (list bytes)} `{Cbor Entry} `{Cbor (list Entry)} `{Cbor DirPair}
  `{Cbor (list DirPair)} `{Cdc} `{Gitignore} `{Os}.

(** C6. Ingest is faithful: on a source whose entries can be read, with the options'
    chunker, [buildDir] succeeds, and its key roots a tree that mirrors the source in any
    store that serves the emitted objects - each directory holds exactly the entries that
    are not ignored, with their metadata, each file's content key yields the file's bytes,
    and attributes are found inline or in the [XattrSet] named. *)
Theorem ingest_mirrors
  `{!CborOk (list bytes) (array_wf any)} `{!CborOk Entry entry_wf}
  `{!CborOk (list Entry) (array_wf entry_wf)} `{!CborOk DirPair any}
  `{!CborOk (list DirPair) (array_wf any)} `{!CdcOk} itemBits inlineMax d n p ign fuel :
  0 <= itemBits <= 15 -> opts_driver itemBits inlineMax = Ok d ->
  readable n p ign -> (n <= fuel)%nat ->
  exists k objs, buildDir d log_emit fuel p ign [] = (Ok k, objs) /\ Validate k = Ok tt /\
  forall get, serves get objs -> mirrors get n p ign k.
Proof.
  intros Hb Hd HR Hf. destruct (opts_driver_ok _ _ _ Hb Hd) as [Hc Hm].
  by apply (buildDir_ok d Hc Hm n p ign fuel HR Hf []).
Qed.
End Property.

Definition sample_ignore : option Matcher := match Root [] with Ok m => Some m | Err _ => None end.

Section Sample.
Context (P : path -> option Matcher -> Prop).
Lemma sample_file full name ign st xs :
  Lstat full = Ok st -> stat_wf st -> file_type st = S_IFREG -> is_ok (ReadFile full) = true ->
  readXattrsWith Llistxattr Lgetxattr full = Ok xs -> xattrs_wf xs -> readable_entry P full name ign.
Proof. intros. exists st. eauto 10. Qed.
Lemma sample_link full name ign st :
  Lstat full = Ok st -> stat_wf st -> file_type st = S_IFLNK -> is_ok (Readlink full) = true ->
  readable_entry P full name ign.
Proof. intros ? ? T ?. exists st. split; [done|]. split; [done|]. split; [auto|]. by rewrite T. Qed.
Lemma sample_dir_entry full name ign st sub :
  Lstat full = Ok st -> stat_wf st -> file_type st = S_IFDIR -> Descend ign full name = Ok sub ->
  P full sub -> readXattrsWith Llistxattr Lgetxattr full = Ok ∅ -> readable_entry P full name ign.
Proof.
  intros. exists st. split; [done|]. split; [done|]. split; [eauto 10|]. intros _. exists ∅.
  split; [done|]. split; [apply map_Forall_empty|done].
Qed.
End Sample.

Ltac stat_tac := unfold stat_wf; cbn; lia.
Lemma empty_xattrs_wf : xattrs_wf ∅.
Proof. split; [apply map_Forall_empty|done]. Qed.
Lemma one_xattr_wf : xattrs_wf {[ [x75] := [x01] ]}.
Proof. split; [by apply map_Forall_singleton|by rewrite map_size_singleton]. Qed.

Lemma sample_readable : readable 2 [] sample_ignore.
Proof.
  cbn [readable]. eexists. split; [reflexivity|].
  match goal with |- Forall _ ?l =>
    replace l with [(FileName, false); ([x61], false); ([x64], true)] by (reflexivity) end.
  apply List.Forall_cons; [|apply List.Forall_cons; [|apply List.Forall_cons; [|apply List.Forall_nil]]];
    cbn [fst app].
  - eapply sample_file; [reflexivity|stat_tac|reflexivity|reflexivity|
      reflexivity|apply empty_xattrs_wf].
  - eapply sample_file; [reflexivity|stat_tac|reflexivity|reflexivity|
      reflexivity|apply one_xattr_wf].
  - eapply sample_dir_entry; [reflexivity|stat_tac|reflexivity|
      reflexivity| |reflexivity].
    eexists. split; [reflexivity|].
    apply List.Forall_cons; [|apply List.Forall_nil]. cbn [fst app].
    eapply sample_link; [reflexivity|stat_tac|reflexivity|reflexivity].
Qed.

Lemma ingest_mirrors_witness :
  exists k objs, buildDir sample_driver log_emit 2 [] sample_ignore [] = (Ok k, objs) /\ Validate k = Ok tt.
Proof.
  destruct (ingest_mirrors 1 0 sample_driver 2 [] sample_ignore 2 sample_bits sample_driver_eq
              sample_readable (le_n 2)) as (k & objs & E & V & _).
  exists k, objs. split; [exact E|exact V].
Defined.
