(* ===== verification/Parallel.v ===== *)
(** The concurrent walk (src/ingest/parallel.go). Sibling entries are built by workers whose
    emissions interleave arbitrarily; the directory's own objects follow in entry order. The
    walk is a relation between a directory and its possible outcomes, and every successful
    outcome has the root key, and up to order the objects, of the sequential walk. *)
From S2P Require Import Prelude External Concrete Key Cborx Pack Chunker Objects Readers Builder Trees Amberignore Ingest Mirror.

(** ** Emitters only append to the log *)

Section Framed.
Context {B : Type}.
Definition framed {A} (m : M (B * list Object) A) : Prop :=
  forall b log, m (b, log) = (let '(r, (b', new)) := m (b, []) in (r, (b', log ++ new))).

Lemma framed_bind {A A'} (m : M (B * list Object) A) (k : A -> M (B * list Object) A') :
  framed m -> (forall x, framed (k x)) -> framed (m ≫= k).
Proof.
  intros Hm Hk b log. unfold mbind, M_bind. rewrite Hm. destruct (m (b, [])) as [[x|e] [b1 new]]; [|done].
  rewrite (Hk x b1 (log ++ new)), (Hk x b1 new). destruct (k x (b1, [])) as [r [b2 new2]].
  by rewrite app_assoc.
Qed.
Lemma framed_mret {A} (x : A) : framed (mret x).
Proof. intros b log. unfold mret, M_ret. by rewrite app_nil_r. Qed.
Lemma framed_fail {A} e : framed (A:=A) (fail e).
Proof. intros b log. unfold fail. by rewrite app_nil_r. Qed.
Lemma framed_lift {A} (r : res A) : framed (lift r).
Proof. intros b log. unfold lift. by rewrite app_nil_r. Qed.
Lemma framed_upd (f : B -> B) : framed (upd f).
Proof. intros b log. unfold upd, modify. by rewrite app_nil_r. Qed.
Lemma framed_emit o : framed (run_emit log_emit o).
Proof. intros b log. done. Qed.
Lemma framed_gets {A A'} (g : B -> A) (k : A -> M (B * list Object) A') :
  (forall x, framed (k x)) -> framed (x ← gets fst; k (g x)).
Proof. intros Hk b log. rewrite !M_gets. apply Hk. Qed.
Lemma framed_gets_fst {A'} (k : B -> M (B * list Object) A') :
  (forall x, framed (k x)) -> framed (gets fst ≫= k).
Proof. intros Hk b log. rewrite !M_gets. apply Hk. Qed.
Lemma framed_each {X} (f : X -> M (B * list Object) unit) l :
  (forall x, framed (f x)) -> framed (each f l).
Proof.
  intros Hf. induction l as [|x l IH]; [apply framed_mret|]. cbn [each]. by apply framed_bind.
Qed.
End Framed.

Create HintDb frame.
#[export] Hint Resolve framed_bind framed_mret framed_fail framed_lift framed_upd framed_emit
  framed_gets_fst framed_each : frame.
#[export] Hint Extern 1 => progress intros : frame.

(** The same for an emitter with no state of its own. *)
Definition framed0 {A} (m : M (list Object) A) : Prop :=
  forall log, m log = (let '(r, new) := m [] in (r, log ++ new)).

Section FramedBuild.
Context `{Blake3} `{Cbor (list bytes)} `{Cbor Entry} `{Cbor (list Entry)} `{Cbor DirPair}
  `{Cbor (list DirPair)} `{Cdc} `{Gitignore} `{Os}.

Lemma framed_add_fuel fuel l ck sep : framed (add_fuel log_emit fuel l ck sep).
Proof.
  revert l ck sep. induction fuel as [|fuel IH]; intros l ck sep; cbn [add_fuel]; [apply framed_fail|].
  apply framed_bind; [apply framed_upd|intros _]. apply framed_bind; [apply framed_upd|intros _].
  apply framed_gets_fst; intros ib. apply framed_bind; [apply framed_lift|intros enc].
  destruct (IsBoundary _ _ _); [|apply framed_mret]. unfold closeLevel.
  apply framed_gets_fst; intros ib1. apply framed_bind; [apply framed_lift|intros [obj sep']].
  apply framed_bind; [apply framed_upd|intros _]. by apply framed_bind; [apply framed_emit|intros _].
Qed.
Lemma framed_add l ck sep : framed (add log_emit l ck sep).
Proof. unfold add. apply framed_gets_fst; intros ib. apply framed_add_fuel. Qed.

Lemma framed_finish fuel l : framed (finish_loop log_emit fuel l).
Proof.
  revert l. induction fuel as [|fuel IH]; intros l; cbn [finish_loop]; [apply framed_fail|].
  apply framed_gets_fst; intros ib. destruct (_ <? _)%nat; [|apply framed_fail].
  destruct (_ =? 0); [apply IH|]. destruct (_ =? 1).
  - apply framed_bind; [apply framed_upd|intros _]. destruct (_ =? _)%nat; [apply framed_mret|].
    apply framed_bind; [apply framed_add|intros _; apply IH].
  - apply framed_bind; [apply framed_lift|intros [obj sep]].
    apply framed_bind; [apply framed_upd|intros _]. apply framed_bind; [apply framed_emit|intros _].
    apply framed_bind; [apply framed_add|intros _; apply IH].
Qed.
Lemma framed_Finish : framed (Finish log_emit).
Proof. unfold Finish. apply framed_gets_fst; intros ib. apply framed_finish. Qed.

Lemma framed_on_idx {A} (m : M (IndexBuilder * list Object) A) : framed m -> framed (on_idx m).
Proof.
  intros Hm db log. unfold on_idx. rewrite Hm. by destruct (m (idx db, [])) as [r [b new]].
Qed.
Lemma framed_on_ib {A} (m : M (IndexBuilder * list Object) A) : framed m -> framed (on_ib m).
Proof.
  intros Hm [ib saw] log. unfold on_ib. rewrite Hm. by destruct (m (ib, [])) as [r [b new]].
Qed.
Lemma framed_on_st {B A} (m : M (list Object) A) : framed0 m -> framed (B:=B) (on_st m).
Proof. intros Hm b log. unfold on_st. rewrite Hm. by destruct (m []) as [r new]. Qed.

Lemma framed_closeLeaf : framed (closeLeaf log_emit).
Proof.
  unfold closeLeaf. apply framed_gets_fst; intros db. apply framed_bind; [apply framed_lift|intros obj].
  apply framed_bind; [apply framed_upd|intros _]. apply framed_bind; [apply framed_emit|intros _].
  apply framed_on_idx, framed_add.
Qed.
Lemma framed_AddEntry e : framed (AddEntry log_emit e).
Proof.
  unfold AddEntry. apply framed_bind; [apply framed_lift|intros enc].
  apply framed_bind; [apply framed_upd|intros _]. apply framed_gets_fst; intros db.
  destruct (IsBoundary _ _ _); [apply framed_closeLeaf|apply framed_mret].
Qed.
Lemma framed_FinishDir : framed (FinishDir log_emit).
Proof.
  unfold FinishDir. apply framed_gets_fst; intros db. apply framed_bind.
  - destruct (_ || _); [apply framed_closeLeaf|apply framed_mret].
  - intros _. apply framed_on_idx, framed_Finish.
Qed.

Context (d : driver).

Lemma framed0_bind {A A'} (m : M (list Object) A) (k : A -> M (list Object) A') :
  framed0 m -> (forall x, framed0 (k x)) -> framed0 (m ≫= k).
Proof.
  intros Hm Hk log. unfold mbind, M_bind. rewrite Hm. destruct (m []) as [[x|e] new]; [|done].
  rewrite (Hk x (log ++ new)), (Hk x new). destruct (k x []) as [r new2]. by rewrite app_assoc.
Qed.
Lemma framed0_mret {A} (x : A) : framed0 (mret x).
Proof. intros log. unfold mret, M_ret. by rewrite app_nil_r. Qed.
Lemma framed0_lift {A} (r : res A) : framed0 (lift r).
Proof. intros log. unfold lift. by rewrite app_nil_r. Qed.

Lemma framed_add_blob chunk : framed (add_blob log_emit chunk).
Proof.
  unfold add_blob. apply framed_bind; [apply framed_lift|intros obj].
  apply framed_bind; [apply framed_emit|intros _]. apply framed_on_ib, framed_add.
Qed.
Lemma framed_split_loop fuel c : framed (split_loop (file_chunk log_emit) fuel c).
Proof.
  revert c. induction fuel as [|fuel IH]; intros c; cbn [split_loop]; [apply framed_fail|].
  destruct (Next c) as [[chunk err] c']. apply framed_bind.
  - destruct (0 <? zlen chunk); [|apply framed_mret]. unfold file_chunk.
    apply framed_bind; [apply framed_upd|intros _; apply framed_add_blob].
  - intros _. destruct err as [t|]; [|apply IH]. destruct t; first [apply framed_mret|apply framed_fail].
Qed.
Lemma framed_buildFile_body full : framed (buildFile_body log_emit full).
Proof.
  apply framed_bind; [apply framed_lift|intros f]. apply framed_bind.
  { unfold SplitBytes. apply framed_bind; [apply framed_lift|intros c; apply framed_split_loop]. }
  intros _ [ib saw] l. rewrite !M_gets. cbn [fst snd]. apply framed_bind.
  - destruct (negb saw); [apply framed_add_blob|apply framed_mret].
  - intros _. apply framed_on_ib, framed_Finish.
Qed.
Lemma framed0_buildFile full : framed0 (buildFile d log_emit full).
Proof.
  intros log. unfold buildFile. rewrite framed_buildFile_body.
  by destruct (buildFile_body _ _ _) as [r [st new]].
Qed.

Lemma framed0_build_xattrs full e : framed0 (build_xattrs d log_emit full e).
Proof.
  unfold build_xattrs. destruct (_ =? S_IFLNK); [apply framed0_mret|].
  apply framed0_bind; [apply framed0_lift|intros xs]. destruct (_ =? _)%nat; [apply framed0_mret|].
  destruct (_ <=? _); [apply framed0_mret|]. apply framed0_bind; [apply framed0_lift|intros obj].
  apply framed0_bind; [intros log; done|intros; apply framed0_mret].
Qed.
Lemma framed0_buildEntry build full name ign :
  (forall p i, framed0 (build p i)) -> framed0 (buildEntry d log_emit full name ign build).
Proof.
  intros Hb. unfold buildEntry. apply framed0_bind; [apply framed0_lift|intros info].
  apply framed0_bind.
  - unfold build_payload. destruct (_ =? S_IFREG).
    { apply framed0_bind; [apply framed0_buildFile|intros; apply framed0_mret]. }
    destruct (_ =? S_IFDIR).
    { apply framed0_bind; [apply framed0_lift|intros sub].
      apply framed0_bind; [apply Hb|intros; apply framed0_mret]. }
    destruct (_ =? S_IFLNK); [apply framed0_bind; [apply framed0_lift|intros; apply framed0_mret]|].
    destruct (_ || _); [apply framed0_mret|]. destruct (_ || _); [apply framed0_mret|].
    intros log. unfold fail. by rewrite app_nil_r.
  - intros e. apply framed0_build_xattrs.
Qed.
End FramedBuild.

(** ** The concurrent walk *)

(** The emissions of several workers, each in its own order, in some common order. *)
Inductive interleaves {A} : list (list A) -> list A -> Prop :=
  | interleaves_done ls : Forall (fun l => l = []) ls -> interleaves ls []
  | interleaves_step ls1 x l ls2 m :
      interleaves (ls1 ++ l :: ls2) m -> interleaves (ls1 ++ (x :: l) :: ls2) (x :: m).

Lemma interleaves_Permutation {A} (ls : list (list A)) m : interleaves ls m -> m ≡ₚ concat ls.
Proof.
  induction 1 as [ls F|ls1 x l ls2 m _ IH].
  - replace (concat ls) with (@nil A); [done|]. induction F as [|l ls -> _ IH]; done.
  - rewrite IH, !concat_app. cbn [concat app]. by rewrite Permutation_middle.
Qed.

Section Walk.
Context `{Blake3} `{Cbor (list bytes)} `{Cbor Entry} `{Cbor (list Entry)} `{Cbor DirPair}
  `{Cbor (list DirPair)} `{Cdc} `{Gitignore} `{Os}.
Context (d : driver).

(** After [wg.Wait()]: the entries in order, the first error first. *)
Definition assemble (outs : list (res Entry)) : M (DirBuilder * list Object) Key :=
  _ ← each (fun r => e ← lift r; AddEntry log_emit e) outs; FinishDir log_emit.

(** [pbuilder.buildDir]: every kept entry is built by a worker (or inline) that recurses
    into this same function, with some outcome for each subdirectory. *)
Fixpoint par_builds (n : nat) (p : path) (ign : option Matcher) (r : res Key) (objs : list Object) : Prop :=
  match n with
  | O => r = Err [OutOfFuel] /\ objs = []
  | S n' =>
    match ReadDir p with
    | Err e => r = Err e /\ objs = []
    | Ok ents =>
      exists build merged,
      (forall p' i', exists r' objs', par_builds n' p' i' r' objs' /\
        forall log, build p' i' log = (r', log ++ objs')) /\
      let outs := map (fun de => buildEntry d log_emit (p ++ [de.1]) de.1 ign build []) (kept ign ents) in
      interleaves (map snd outs) merged /\
      exists db', assemble (map fst outs) (NewDirBuilder (d_ic d), merged) = (r, (db', objs))
    end
  end.

Lemma framed0_buildDir fuel p ign : framed0 (buildDir d log_emit fuel p ign).
Proof.
  revert p ign. induction fuel as [|fuel IH]; intros p ign log; cbn [buildDir].
  { unfold fail. by rewrite app_nil_r. }
  set (body := lift (ReadDir p) ≫= _).
  assert (framed (B:=DirBuilder) body) as HF.
  { subst body. apply framed_bind; [apply framed_lift|intros ents].
    apply framed_bind; [apply framed_each; intros [name isDir]|intros _; apply framed_FinishDir].
    destruct (Ignored ign name isDir); [apply framed_mret|].
    apply framed_bind; [by apply framed_on_st, framed0_buildEntry|intros e; apply framed_AddEntry]. }
  rewrite (HF (NewDirBuilder (d_ic d)) log). by destruct (body (NewDirBuilder (d_ic d), [])) as [r [db new]].
Qed.

(** Same result, same objects up to order. *)
Definition psim {A} (m1 m2 : M (list Object) A) : Prop :=
  framed0 m1 /\ framed0 m2 /\
  forall x o, m1 [] = (Ok x, o) -> exists o', m2 [] = (Ok x, o') /\ o' ≡ₚ o.

Lemma psim_refl {A} (m : M (list Object) A) : framed0 m -> psim m m.
Proof. intros. split; [done|]. split; [done|]. eauto. Qed.
Lemma psim_bind {A A'} (m1 m2 : M (list Object) A) (k1 k2 : A -> M (list Object) A') :
  psim m1 m2 -> (forall x, psim (k1 x) (k2 x)) -> psim (m1 ≫= k1) (m2 ≫= k2).
Proof.
  intros (F1 & F2 & HS) Hk. split; [apply framed0_bind; [done|apply Hk]|].
  split; [apply framed0_bind; [done|apply Hk]|]. intros y o.
  unfold mbind, M_bind. destruct (m1 []) as [[x|e] o1] eqn:E1; [|done].
  destruct (HS _ _ eq_refl) as (o1' & -> & P1). destruct (Hk x) as (G1 & G2 & HS2).
  rewrite (G1 o1), (G2 o1'). destruct (k1 x []) as [r o2] eqn:E2. intros [= -> <-].
  destruct (HS2 _ _ eq_refl) as (o2' & -> & P2). exists (o1' ++ o2'). split; [done|]. by rewrite P1, P2.
Qed.

Lemma buildEntry_psim build1 build2 full name ign :
  (forall p i, psim (build1 p i) (build2 p i)) ->
  psim (buildEntry d log_emit full name ign build1) (buildEntry d log_emit full name ign build2).
Proof.
  intros Hb. assert (forall p i, framed0 (build1 p i)) as F1 by (intros; apply Hb).
  pose proof (framed0_buildEntry d build1 full name ign F1) as FE. unfold buildEntry in *.
  apply psim_bind; [apply psim_refl, framed0_lift|intros info]. apply psim_bind.
  - unfold build_payload. destruct (_ =? S_IFREG).
    { apply psim_refl, framed0_bind; [apply framed0_buildFile|intros; apply framed0_mret]. }
    destruct (_ =? S_IFDIR).
    { apply psim_bind; [apply psim_refl, framed0_lift|intros sub].
      apply psim_bind; [apply Hb|intros; apply psim_refl, framed0_mret]. }
    apply psim_refl.
    destruct (_ =? S_IFLNK); [apply framed0_bind; [apply framed0_lift|intros; apply framed0_mret]|].
    destruct (_ || _); [apply framed0_mret|]. destruct (_ || _); [apply framed0_mret|].
    intros log. unfold fail. by rewrite app_nil_r.
  - intros e. apply psim_refl, framed0_build_xattrs.
Qed.

Lemma assemble_sequential build p ign ents db outs new db' :
  (forall p i, framed0 (build p i)) ->
  outs = map (fun de => buildEntry d log_emit (p ++ [de.1]) de.1 ign build []) (kept ign ents) ->
  each (fun r => e ← lift r; AddEntry log_emit e) (map fst outs) (db, []) = (Ok tt, (db', new)) ->
  forall log, exists new',
  each (fun '(name, isDir) =>
    if Ignored ign name isDir then mret tt
    else e ← on_st (buildEntry d log_emit (p ++ [name]) name ign build); AddEntry log_emit e)
  ents (db, log) = (Ok tt, (db', log ++ new')) /\ new' ≡ₚ concat (map snd outs) ++ new.
Proof.
  intros Hb ->. revert db new. induction ents as [|[name isDir] ents IH]; intros db new E log.
  - injection E as <- <-. exists []. by rewrite app_nil_r.
  - cbn [each]. unfold kept in *. destruct (Ignored ign name isDir) eqn:EI.
    + rewrite filter_cons_False in E |- * by (cbn; by rewrite EI). by apply IH.
    + rewrite filter_cons_True in E |- * by (cbn; by rewrite EI). cbn [map each fst snd concat] in *.
      destruct (buildEntry d log_emit (p ++ [name]) name ign build []) as [[e|err] o] eqn:EB.
      2:{ done. }
      cbn [fst snd] in *. apply M_bind_Ok in E as (u & [db1 n1] & E1 & E).
      rewrite M_lift in E1. destruct u.
      rewrite framed_each in E by (intros r; apply framed_bind; [apply framed_lift|intros; apply framed_AddEntry]).
      destruct (each _ _ (db1, [])) as [r2 [db2 n2]] eqn:E2. injection E as -> <- <-.
      destruct (IH db1 n2 E2 (log ++ o ++ n1)) as (new' & E' & P').
      exists (o ++ n1 ++ new'). rewrite (M_step _ _ _ tt (db1, log ++ o ++ n1)).
      * rewrite E'. rewrite <- !app_assoc. split; [done|]. rewrite P'.
        rewrite !app_assoc, <- (app_assoc o n1), (Permutation_app_comm n1). by rewrite <- !app_assoc.
      * rewrite (M_step _ _ _ e (db, log ++ o)).
        -- rewrite (framed_AddEntry e db (log ++ o)), E1. by rewrite <- app_assoc.
        -- unfold on_st. rewrite (framed0_buildEntry d build _ _ _ Hb log), EB. done.
Qed.

Lemma par_psim n p ign k objs :
  par_builds n p ign (Ok k) objs ->
  exists objs', buildDir d log_emit n p ign [] = (Ok k, objs') /\ objs' ≡ₚ objs.
Proof.
  revert p ign k objs. induction n as [|n IH]; intros p ign k objs; [by intros [? _]|]. cbn [par_builds buildDir].
  destruct (ReadDir p) as [ents|e] eqn:ER; [|by intros [? _]].
  intros (build & merged & Hb & HI & db' & EA). cbv zeta in *.
  assert (forall p i, psim (build p i) (buildDir d log_emit n p i)) as HP.
  { intros p' i'. destruct (Hb p' i') as (r' & objs' & HB & Hlog). split; [|split].
    - intros log. by rewrite !Hlog.
    - apply framed0_buildDir.
    - intros x o E. rewrite Hlog in E. injection E as -> <-. by apply IH. }
  set (outs := map _ (kept ign ents)) in *.
  set (outs' := map (fun de => buildEntry d log_emit (p ++ [de.1]) de.1 ign (buildDir d log_emit n) [])
      (kept ign ents)).
  unfold assemble in EA. apply M_bind_Ok in EA as (u & [db1 l1] & E1 & E2). destruct u.
  rewrite framed_each in E1 by (intros r; apply framed_bind; [apply framed_lift|intros; apply framed_AddEntry]).
  destruct (each _ (map fst outs) (NewDirBuilder (d_ic d), [])) as [r1 [db1' n1]] eqn:EE.
  injection E1 as -> <- <-.
  assert (Forall2 (fun o o' => forall e, o.1 = Ok e -> o'.1 = Ok e /\ o'.2 ≡ₚ o.2) outs outs') as F2.
  { subst outs outs'. apply Forall2_fmap_2. apply Forall_Forall2_diag. apply list.Forall_forall.
    intros de _ e He. destruct (buildEntry_psim build (buildDir d log_emit n) (p ++ [de.1]) de.1 ign HP) as (_ & _ & K).
    destruct (buildEntry d log_emit (p ++ [de.1]) de.1 ign build []) as [r o] eqn:EB. cbn in He. subst r.
    destruct (K _ _ eq_refl) as (o' & -> & ?). done. }
  assert (map fst outs = map fst outs' /\ concat (map snd outs') ≡ₚ concat (map snd outs)) as [Efst Psnd].
  { clear -F2 EE. revert EE. generalize (NewDirBuilder (d_ic d)). revert n1 db1'.
    induction F2 as [|[r o] [r' o'] outs outs' HR F2 IH]; intros n1 db1 db EE; [done|].
    cbn [map fst snd each concat] in *. apply M_bind_Ok in EE as (u & [db2 l2] & E1 & EE).
    destruct r as [e|err]; [|done]. destruct (HR e eq_refl) as [Hr Ho]. cbn in Hr, Ho. subst r'.
    rewrite framed_each in EE by (intros r; apply framed_bind; [apply framed_lift|intros; apply framed_AddEntry]).
    destruct (each _ (map fst outs) (db2, [])) as [r3 [db3 l3]] eqn:E3. injection EE as -> <- <-.
    destruct u. destruct (IH _ _ _ E3) as [-> P]. by rewrite Ho, P. }
  rewrite Efst in EE.
  destruct (assemble_sequential (buildDir d log_emit n) p ign ents _ outs' n1 db1'
  ltac:(intros; apply framed0_buildDir) eq_refl EE []) as (new' & ES & PS).
  rewrite (framed_FinishDir db1' (merged ++ n1)) in E2.
  destruct (FinishDir log_emit (db1', [])) as [r3 [db3 n3]] eqn:E3. injection E2 as -> _ <-.
  exists (new' ++ n3). rewrite M_lift, (M_step _ _ _ _ _ ES). cbn [app].
  rewrite (framed_FinishDir db1' new'), E3. split; [done|].
  rewrite PS, Psnd, (interleaves_Permutation _ _ HI). done.
Qed.

(** One outcome: the workers run one after the other. *)
Fixpoint par_inline (n : nat) (p : path) (ign : option Matcher) : M (list Object) Key :=
  match n with
  | O => fail [OutOfFuel]
  | S n' => fun log =>
    match ReadDir p with
    | Err e => (Err e, log)
    | Ok ents =>
      let outs := map (fun de => buildEntry d log_emit (p ++ [de.1]) de.1 ign (par_inline n') [])
            (kept ign ents) in
      let '(r, (_, objs)) := assemble (map fst outs) (NewDirBuilder (d_ic d), concat (map snd outs)) in
      (r, log ++ objs)
    end
  end.

Lemma interleaves_concat {A} (ls : list (list A)) : interleaves ls (concat ls).
Proof.
  assert (forall ls0, Forall (fun l : list A => l = []) ls0 -> interleaves (ls0 ++ ls) (concat ls)) as K;
  [|by apply (K [])].
  induction ls as [|l ls IH]; intros ls0 H0'.
  - rewrite app_nil_r. by apply interleaves_done.
  - induction l as [|x l IHl]; cbn [concat app].
    + replace (ls0 ++ [] :: ls) with ((ls0 ++ [[]]) ++ ls) by (by rewrite <- app_assoc).
      apply IH, Forall_app. split; [done|]. by apply List.Forall_cons.
    + by apply interleaves_step.
Qed.

Lemma par_inline_builds n p ign :
  exists r objs, par_builds n p ign r objs /\ forall log, par_inline n p ign log = (r, log ++ objs).
Proof.
  revert p ign. induction n as [|n IH]; intros p ign; cbn [par_builds par_inline].
  - eexists _, _. split; [done|]. intros log. unfold fail. by rewrite app_nil_r.
  - destruct (ReadDir p) as [ents|e].
    2:{ eexists _, _. split; [done|]. intros log. by rewrite app_nil_r. }
    destruct (assemble _ _) as [r [db objs]] eqn:EA.
    exists r, objs. split; [|done]. exists (par_inline n), (concat (map snd
    (map (fun de => buildEntry d log_emit (p ++ [de.1]) de.1 ign (par_inline n) []) (kept ign ents)))).
    split; [apply IH|]. split; [apply interleaves_concat|by exists db].
Qed.

Context `{!CborOk (list bytes) (array_wf any)} `{!CborOk Entry entry_wf}
  `{!CborOk (list Entry) (array_wf entry_wf)} `{!CborOk DirPair any} `{!CborOk (list DirPair) (array_wf any)}
  `{!CdcOk}.
Hypothesis Hc : chunker_ok (d_ic d).
Hypothesis Hmax : MaxRun (d_ic d) <= MaxArrayElements.

(** On a readable source no schedule makes the walk fail. *)
Lemma par_readable n p ign r objs :
  readable n p ign -> par_builds n p ign r objs -> exists k, r = Ok k /\ Validate k = Ok tt.
Proof.
  revert p ign r objs. induction n as [|n IH]; intros p ign r objs; [done|]. cbn [readable par_builds].
  intros (ents & -> & HF) (build & merged & Hb & _ & db' & EA). cbv zeta in EA.
  assert (Forall (fun de => exists e o, buildEntry d log_emit (p ++ [de.1]) de.1 ign build [] = (Ok e, o) /\
  entry_ok e) (kept ign ents)) as HE.
  { eapply list.Forall_impl; [exact HF|]. intros de HR.
    destruct (buildEntry_ok d Hc Hmax build (fun _ _ _ _ => True) (p ++ [de.1]) de.1 ign [])
    as (e & o & E & Hok & _); [|by exists e, o].
    revert HR. apply readable_entry_impl. intros p' i' HR log.
    destruct (Hb p' i') as (r' & o' & HB & Hlog). destruct (IH _ _ _ _ HR HB) as (k & -> & V).
    exists k, o'. by rewrite Hlog. }
  assert (exists es, map fst (map (fun de => buildEntry d log_emit (p ++ [de.1]) de.1 ign build [])
  (kept ign ents)) = map Ok es /\ Forall entry_ok es) as (es & Ees & Hes).
  { clear EA HF. induction HE as [|de l (e & o & E & Hok) _ (es & IH' & Hes)]; [by exists []|].
    exists (e :: es). cbn [map]. rewrite E, IH'. split; [done|by constructor]. }
  rewrite Ees in EA. unfold assemble in EA.
  assert (forall st, each (fun r => e ← lift r; AddEntry log_emit e) (map Ok es) st =
  each (AddEntry log_emit) es st) as K.
  { clear. induction es as [|e es IH]; intros st; [done|]. cbn [map each]. unfold mbind, M_bind at 1.
    unfold lift at 1. unfold M_bind. destruct (AddEntry log_emit e st) as [[u|err] st']; [apply IH|done]. }
  destruct (AddEntries_ok _ Hc Hmax es merged _ [] (dir_state_new _ Hc merged) Hes) as (db & new & E & HS & _).
  destruct (FinishDir_ok _ Hc Hmax _ _ _ HS) as (k & db2 & new' & E' & V & _).
  rewrite (M_step _ _ _ tt (db, merged ++ new)) in EA by (by rewrite K). rewrite E' in EA.
  injection EA as <- _ _. by exists k.
Qed.
End Walk.

(** * Properties *)

Section Property.
Context `{Blake3} `{Cbor (list bytes)} `{Cbor Entry} `{Cbor (list Entry)} `{Cbor DirPair}
  `{Cbor (list DirPair)} `{Cdc} `{Gitignore} `{Os}.

(** C16. Concurrency does not change the result: on a readable source, whatever way the
    workers' emissions interleave, the parallel walk succeeds with the root key of the
    sequential walk and emits the same objects up to order. *)
Theorem parallel_is_sequential
  `{!CborOk (list bytes) (array_wf any)} `{!CborOk Entry entry_wf}
  `{!CborOk (list Entry) (array_wf entry_wf)} `{!CborOk DirPair any}
  `{!CborOk (list DirPair) (array_wf any)} `{!CdcOk} itemBits inlineMax d n p ign r objs :
  0 <= itemBits <= 15 -> opts_driver itemBits inlineMax = Ok d ->
  readable n p ign -> par_builds d n p ign r objs ->
  exists k objs', r = Ok k /\ buildDir d log_emit n p ign [] = (Ok k, objs') /\ objs' ≡ₚ objs.
Proof.
  intros Hb Hd HR HP. destruct (opts_driver_ok _ _ _ Hb Hd) as [Hc Hm].
  destruct (par_readable d Hc Hm n p ign r objs HR HP) as (k & -> & _).
  destruct (par_psim d n p ign k objs HP) as (objs' & E & P). by exists k, objs'.
Qed.
End Property.

Lemma parallel_is_sequential_witness :
  exists k objs objs', par_builds sample_driver 2 [] sample_ignore (Ok k) objs /\
    buildDir sample_driver log_emit 2 [] sample_ignore [] = (Ok k, objs') /\ objs' ≡ₚ objs.
Proof.
  destruct (par_inline_builds sample_driver 2 [] sample_ignore) as (r & objs & HP & _).
  destruct (parallel_is_sequential 1 0 sample_driver 2 [] sample_ignore r objs sample_bits sample_driver_eq
              sample_readable HP) as (k & objs' & -> & E & P).
  exists k, objs, objs'. split; [exact HP|]. split; [exact E|exact P].
Defined.
