(* ===== verification/Walk.v ===== *)
(** The graph walks of package fstree (src/fstree/reachable.go, checkcomplete.go): the
    breadth-first sweep that lists what a root reaches, and the one that also checks that
    every object is there. The goroutines of one round write to distinct slots, so a round
    is the list of their results; which failure [Wait] reports is the interface [Errgroup]. *)
From S2P Require Import Prelude External Concrete Key Pack Objects Readers.

(** [eg.Wait] and the slots the goroutines filled. *)
Fixpoint results {A} (rs : list (res A)) : list A * list error :=
  match rs with
  | [] => ([], [])
  | r :: rs' =>
      let '(xs, es) := results rs' in
      match r with Ok x => (x :: xs, es) | Err e => (xs, e :: es) end
  end.
Definition wait `{Errgroup} {A} (rs : list (res A)) : res (list A) :=
  match results rs with
  | (xs, []) => Ok xs
  | (_, es) => Err (first_failure es)
  end.

Definition is_leaf (k : Key) : bool := (Type_ k =? Blob) || (Type_ k =? XattrSet).

Section Walk.
Context `{Cbor (list bytes), Cbor (list DirPair), Cbor (list Entry)} `{Errgroup}.

Definition node_children (get : Key -> res bytes) (k : Key) : res (list Key) :=
  data ← get k; ChildKeys k data.
Definition reach_step (get : Key -> res bytes) (k : Key) : res (list Key) :=
  if is_leaf k then Ok [] else node_children get k.
Definition check_step (get : Key -> res bytes) (has : Key -> res bool) (k : Key) : res (list Key) :=
  if is_leaf k then ok ← has k; if ok : bool then Ok [] else Err [MissingObject k]
  else node_children get k.

(** Adding a round's discoveries, each once. *)
Definition discover (st : gset Key * list Key * list Key) (ck : Key) : gset Key * list Key * list Key :=
  let '(seen, out, next) := st in
  if bool_decide (ck ∈ seen) then st else ({[ck]} ∪ seen, out ++ [ck], next ++ [ck]).

(** One turn of the loop is one round; [sweep_enough] bounds the rounds. *)
Fixpoint sweep (step : Key -> res (list Key)) (fuel : nat) (seen : gset Key) (out frontier : list Key)
  : res (list Key) :=
  match frontier with
  | [] => Ok out
  | _ =>
    match fuel with
    | O => Err [OutOfFuel]
    | S fuel' =>
      lists ← wait (map step frontier);
      let '(seen, out, next) := fold_left discover (concat lists) (seen, out, []) in
      sweep step fuel' seen out next
    end
  end.

Definition ReachableKeys (fuel : nat) (root : Key) (get : Key -> res bytes) : res (list Key) :=
  sweep (reach_step get) fuel {[root]} [root] [root].
Definition CheckComplete (fuel : nat) (root : Key) (get : Key -> res bytes) (has : Key -> res bool) : res (list Key) :=
  sweep (check_step get has) fuel {[root]} [root] [root].
End Walk.

(** * Rounds *)

Lemma results_spec {A} (rs : list (res A)) :
  let '(xs, es) := results rs in
  (es = [] -> rs = Ok <$> xs) /\ (forall e, e ∈ es -> Err e ∈ rs) /\ (forall e, Err e ∈ rs -> e ∈ es).
Proof.
  induction rs as [|r rs IH]; [by split_and!; try (intros e He; by apply elem_of_nil in He)|].
  cbn [results]. destruct (results rs) as [xs es]. destruct IH as (I1 & I2 & I3). destruct r as [x|e].
  - split_and!.
    + intros ->. cbn. by rewrite I1.
    + intros e He. right. by apply I2.
    + intros e [[=]|He]%elem_of_cons. by apply I3.
  - split_and!; [done| |].
    + intros e' [->|He]%elem_of_cons; [by left|right; by apply I2].
    + intros e' [[= ->]|He]%elem_of_cons; [by left|right; by apply I3].
Qed.

Lemma wait_Ok `{Errgroup} {A} (rs : list (res A)) xs : wait rs = Ok xs <-> rs = Ok <$> xs.
Proof.
  unfold wait. pose proof (results_spec rs) as S. destruct (results rs) as [xs' es] eqn:ER. destruct S as (S1 & S2 & S3).
  split.
  - destruct es; [|done]. intros [= <-]. by apply S1.
  - intros E. destruct es as [|e es].
    + f_equal. rewrite S1 in E by done. clear -E. revert xs E. induction xs' as [|x xs' IH]; intros [|y xs] E; try done.
      cbn in E. injection E as -> E. f_equal. by apply IH.
    + assert (Err e ∈ rs) as He by (apply S2; by left). rewrite E in He.
      by apply list_elem_of_fmap in He as (? & [=] & _).
Qed.
Lemma wait_Err `{ErrgroupOk} {A} (rs : list (res A)) e : wait rs = Err e -> Err e ∈ rs.
Proof.
  unfold wait. pose proof (results_spec rs) as S. destruct (results rs) as [xs' es]. destruct S as (S1 & S2 & S3).
  destruct es as [|e' es]; [done|]. intros [= <-]. apply S2, first_failure_elem.
Qed.

Lemma discover_fold cks seen out next :
  exists new, fold_left discover cks (seen, out, next) = (list_to_set new ∪ seen, out ++ new, next ++ new) /\
    NoDup new /\ (forall k, k ∈ new -> k ∈ cks /\ k ∉ seen) /\ (forall k, k ∈ cks -> k ∈ new \/ k ∈ seen).
Proof.
  revert seen out next. induction cks as [|ck cks IH]; intros seen out next.
  - exists []. cbn. rewrite !app_nil_r. split_and!; [f_equal; f_equal; set_solver|constructor|set_solver|set_solver].
  - cbn [fold_left discover]. case_bool_decide as Hs.
    + destruct (IH seen out next) as (new & -> & ND & H1 & H2). exists new. split_and!; [done..| |].
      * intros k Hk. destruct (H1 k Hk). set_solver.
      * intros k [->|Hk]%elem_of_cons; [by right|by apply H2].
    + destruct (IH ({[ck]} ∪ seen) (out ++ [ck]) (next ++ [ck])) as (new & -> & ND & H1 & H2).
      exists (ck :: new). split_and!.
      * rewrite <- !app_assoc. cbn [list_to_set app]. f_equal. f_equal. set_solver.
      * constructor; [|done]. intros Hk. destruct (H1 ck Hk). set_solver.
      * intros k [->|Hk]%elem_of_cons; [set_solver|]. destruct (H1 k Hk). set_solver.
      * intros k [->|Hk]%elem_of_cons; [left; by left|]. destruct (H2 k Hk) as [|Hk2]; [left; by right|].
        apply elem_of_union in Hk2 as [->%elem_of_singleton|]; [left; by left|by right].
Qed.

(** * The sweep computes reachability *)

Section Sweep.
Context `{ErrgroupOk} (step : Key -> res (list Key)) (root : Key).

Definition edge (k c : Key) : Prop := exists cs, step k = Ok cs /\ c ∈ cs.
Definition reachable (k : Key) : Prop := rtc edge root k.

Record swept (seen : gset Key) (out frontier : list Key) : Prop := {
    sw_seen k : k ∈ seen <-> k ∈ out;
    sw_nodup : NoDup out;
    sw_front : exists done, out = done ++ frontier /\
    forall k, k ∈ done -> exists cs, step k = Ok cs /\ forall c, c ∈ cs -> c ∈ out;
    sw_reach k : k ∈ out -> reachable k;
    sw_root : exists tl, out = root :: tl
  }.

Lemma swept_start : swept {[root]} [root] [root].
Proof.
  split; [set_solver|apply list.NoDup_singleton| | |by exists []].
  - exists []. split; [done|]. intros k Hk. by apply elem_of_nil in Hk.
  - intros k ->%list_elem_of_singleton. apply rtc_refl.
Qed.

Lemma swept_round seen out frontier lists :
  swept seen out frontier -> map step frontier = Ok <$> lists ->
  exists new, fold_left discover (concat lists) (seen, out, []) = (list_to_set new ∪ seen, out ++ new, new) /\
  swept (list_to_set new ∪ seen) (out ++ new) new /\
  (forall k, k ∈ new -> k ∉ out).
Proof.
  intros [S1 S2 (dn & -> & S3) S4 (tl & S5)] EL.
  destruct (discover_fold (concat lists) seen (dn ++ frontier) []) as (new & -> & ND & N1 & N2). exists new.
  assert (forall k, k ∈ new -> k ∉ dn ++ frontier) as Hnew by (intros k Hk; rewrite <- S1; by apply N1).
  assert (forall k, k ∈ frontier -> exists cs, step k = Ok cs /\ cs ∈ lists) as Fr.
  { intros k Hk. assert (step k ∈ map step frontier) as Hin by (by apply (list_elem_of_fmap_2 step)).
    rewrite EL in Hin. apply list_elem_of_fmap in Hin as (cs & -> & Hcs). eauto. }
  assert (forall c, c ∈ concat lists <-> exists cs, cs ∈ lists /\ c ∈ cs) as Cc.
  { intros c. rewrite list_elem_of_In, in_concat. split; intros (cs & ? & ?); exists cs; by rewrite <- !list_elem_of_In || rewrite !list_elem_of_In. }
  split; [done|]. split; [|done]. split.
  - intros k. rewrite elem_of_union, elem_of_list_to_set, S1. rewrite (elem_of_app (dn ++ frontier)). naive_solver.
  - apply list.NoDup_app. split_and!; [done| |done]. intros k Hk Hn. by apply (Hnew k).
  - exists (dn ++ frontier). split; [done|]. intros k [Hk|Hk]%elem_of_app.
    + destruct (S3 k Hk) as (cs & E & Hc). exists cs. split; [done|]. intros c Hc'. apply elem_of_app. left. by apply Hc.
    + destruct (Fr k Hk) as (cs & E & Hcs). exists cs. split; [done|]. intros c Hc.
      apply elem_of_app. destruct (N2 c) as [Hn|Hs]; [apply Cc; eauto|by right|left; by apply S1].
  - intros k [Hk|Hk]%elem_of_app; [by apply S4|]. destruct (N1 k Hk) as [(cs & Hcs & Hc)%Cc _].
    assert (Ok cs ∈ map step frontier) as Hin by (rewrite EL; by apply (list_elem_of_fmap_2 Ok)).
    apply list_elem_of_fmap in Hin as (p & E & Hp). eapply rtc_r; [apply (S4 p), elem_of_app; by right|]. by exists cs.
  - exists (tl ++ new). by rewrite S5.
Qed.

Lemma swept_done seen out k : swept seen out [] -> (k ∈ out <-> reachable k) /\
  (k ∈ out -> exists cs, step k = Ok cs).
Proof.
  intros [S1 S2 (dn & Ed & S3) S4 (tl & S5)]. rewrite app_nil_r in Ed. subst dn. split.
  - split; [by apply S4|]. unfold reachable. intros Hk. apply rtc_nsteps in Hk as [n Hk].
    revert k Hk. induction n as [|n IH]; intros k Hk; [assert (root = k) as <- by (by inversion Hk); rewrite S5; by left|].
    apply nsteps_inv_r in Hk as (x & Hx & cs & Es & Hc). destruct (S3 x (IH x Hx)) as (cs' & Es' & Hcl).
    apply Hcl. congruence.
  - intros Hk. destruct (S3 k Hk) as (cs & ? & _). eauto.
Qed.

(** Soundness, of the answer and of the error. *)
Lemma sweep_sound fuel seen out frontier r :
  swept seen out frontier -> sweep step fuel seen out frontier = r ->
  match r with
  | Ok out' => NoDup out' /\ (exists tl, out' = root :: tl) /\ (forall k, k ∈ out' <-> reachable k) /\
    (forall k, reachable k -> exists cs, step k = Ok cs)
  | Err e => e = [OutOfFuel] \/ exists k, reachable k /\ step k = Err e
  end.
Proof.
  revert seen out frontier. induction fuel as [|fuel IH]; intros seen out frontier W E;
  (destruct frontier as [|k0 fr]; [cbn in E; subst r|]).
  1, 3: (split_and!; [apply W|apply W|intros k; by apply (swept_done seen)|];
  intros k Hk; eapply (swept_done seen); [exact W|by eapply (swept_done seen)]).
  { cbn in E. subst r. by left. }
  cbn [sweep] in E. destruct (wait (map step (k0 :: fr))) as [lists|e] eqn:EW; cbn [mbind res_bind] in E.
  - apply wait_Ok in EW. destruct (swept_round _ _ _ _ W EW) as (new & EF & W' & _).
    rewrite EF in E. by apply (IH _ _ _ W').
  - subst r. right. apply wait_Err, list_elem_of_fmap in EW as (k & Ek & Hk). exists k. split; [|done].
    destruct W as [_ _ (dn & -> & _) S4 _]. apply S4, elem_of_app. by right.
Qed.

(** Completeness: rounds are bounded by what can be reached. *)
Lemma sweep_enough L fuel seen out frontier :
  swept seen out frontier -> (forall k, reachable k -> k ∈ L /\ exists cs, step k = Ok cs) ->
  (length L < fuel + length out)%nat -> exists out', sweep step fuel seen out frontier = Ok out'.
Proof.
  intros W HL. revert seen out frontier W. induction fuel as [|fuel IH]; intros seen out frontier W Hf.
  - exfalso. assert (length out <= length L)%nat; [|lia]. apply NoDup_incl_length.
    + apply NoDup_ListNoDup, W.
    + intros k Hk. apply list_elem_of_In. apply (HL k), W. by apply list_elem_of_In.
  - destruct frontier as [|k0 fr]; [by eexists|]. cbn [sweep].
    destruct (wait (map step (k0 :: fr))) as [lists|e] eqn:EW; cbn [mbind res_bind]; cycle 1.
    { apply wait_Err, list_elem_of_fmap in EW as (k & Ek & Hk). exfalso.
      destruct W as [_ _ (dn & -> & _) S4 _]. destruct (HL k) as (_ & cs & Ecs); [apply S4, elem_of_app; by right|congruence]. }
    apply wait_Ok in EW. destruct (swept_round _ _ _ _ W EW) as (new & -> & W' & Hn).
    destruct new as [|c new]; [destruct fuel; by eexists|]. apply IH; [done|]. rewrite length_app. cbn [length]. lia.
Qed.
End Sweep.

(** The two walks see the same graph wherever the check passes. *)
Lemma sweep_ext `{Errgroup} step1 step2 fuel seen out frontier out' :
  (forall k cs, step1 k = Ok cs -> step2 k = Ok cs) ->
  sweep step1 fuel seen out frontier = Ok out' -> sweep step2 fuel seen out frontier = Ok out'.
Proof.
  intros HE. revert seen out frontier. induction fuel as [|fuel IH]; intros seen out frontier E; [by destruct frontier|].
  destruct frontier as [|k0 fr]; [done|]. cbn [sweep] in *.
  destruct (wait (map step1 (k0 :: fr))) as [lists|e] eqn:EW; [|done]. apply wait_Ok in EW.
  assert (map step2 (k0 :: fr) = Ok <$> lists) as EW2.
  { revert EW. generalize (k0 :: fr) as l. clear -HE. intros l. revert lists.
    induction l as [|k l IH]; intros [|cs lists] EW; try done. cbn in EW |- *. injection EW as E1 E2.
    f_equal; [by apply HE|by apply IH]. }
  rewrite (proj2 (wait_Ok _ _) EW2). cbn [mbind res_bind] in *.
  destruct (fold_left discover _ _) as [[seen1 out1] next1]. by apply IH.
Qed.

(** * Properties *)

Section Graph.
Context `{Cbor (list bytes), Cbor (list DirPair), Cbor (list Entry)} `{ErrgroupOk}.
Context (root : Key) (get : Key -> res bytes) (has : Key -> res bool).

(** The graph of stored objects: an interior object's children. *)
Definition child_of (k c : Key) : Prop := is_leaf k = false /\ exists cs, node_children get k = Ok cs /\ c ∈ cs.

Lemma check_edge k c : edge (check_step get has) k c <-> child_of k c.
Proof.
  unfold edge, child_of, check_step. destruct (is_leaf k).
  - split; [|naive_solver]. intros (cs & E & Hc). apply res_bind_Ok in E as ([] & _ & [= <-]). by apply elem_of_nil in Hc.
  - split; [intros (cs & ? & ?); eauto|intros (_ & cs & ? & ?); eauto].
Qed.
Lemma check_reachable k : reachable (check_step get has) root k <-> rtc child_of root k.
Proof.
  unfold reachable. split; intros Hr; induction Hr as [|x y z Hxy _ IH];
  [apply rtc_refl|eapply rtc_l; [apply check_edge; exact Hxy|exact IH]|apply rtc_refl|
  eapply rtc_l; [apply check_edge; exact Hxy|exact IH]].
Qed.
Lemma reach_check k cs : check_step get has k = Ok cs -> reach_step get k = Ok cs.
Proof.
  unfold check_step, reach_step. destruct (is_leaf k); [|done]. by intros ([] & _ & [= <-])%res_bind_Ok.
Qed.
End Graph.

(** What a success says. *)
Lemma check_complete_Ok `{Cbor (list bytes), Cbor (list DirPair), Cbor (list Entry)} `{ErrgroupOk} root get has fuel ks :
  CheckComplete fuel root get has = Ok ks ->
  NoDup ks /\ (exists tl, ks = root :: tl) /\
  (forall k, k ∈ ks <-> rtc (child_of get) root k) /\
  (forall k, k ∈ ks -> is_leaf k = true -> has k = Ok true) /\
  (forall k, k ∈ ks -> is_leaf k = false -> exists data cs, get k = Ok data /\ ChildKeys k data = Ok cs /\ cs ⊆ ks) /\
  ReachableKeys fuel root get = Ok ks.
Proof.
  intros E. pose proof (sweep_sound (check_step get has) root fuel _ _ _ _ (swept_start _ root) eq_refl) as S.
  fold (CheckComplete fuel root get has) in S. rewrite E in S. destruct S as (ND & HR & HK & HO).
  assert (forall k, k ∈ ks -> exists cs, check_step get has k = Ok cs) as HS by (intros k Hk; by apply HO, HK).
  split_and!; [done|done| | | |].
  - intros k. by rewrite HK, check_reachable.
  - intros k Hk Hl. destruct (HS k Hk) as (cs & Ecs). unfold check_step in Ecs. rewrite Hl in Ecs.
    apply res_bind_Ok in Ecs as ([] & Eh & Ecs); [done|by discriminate].
  - intros k Hk Hl. destruct (HS k Hk) as (cs & Ecs). pose proof Ecs as Ecs'. unfold check_step in Ecs. rewrite Hl in Ecs.
    apply res_bind_Ok in Ecs as (data & Eg & Ecs). exists data, cs. split_and!; [done..|].
    intros c Hc. apply HK. eapply rtc_r; [by apply HK|]. by exists cs.
  - unfold ReachableKeys. eapply sweep_ext; [|exact E]. intros k cs. apply reach_check.
Qed.

(** C18. CheckComplete decides completeness. A success lists, root first and each once,
    exactly the keys reachable from the root through the stored interior objects; every leaf
    among them is present, every interior one reads and decodes, and ReachableKeys lists the
    same keys. A failure is the failure of some reachable object. On a graph with finitely
    many reachable objects that are all there, it succeeds. *)
Theorem check_complete_correct `{Cbor (list bytes), Cbor (list DirPair), Cbor (list Entry)} `{ErrgroupOk}
    root get has fuel :
  (forall ks, CheckComplete fuel root get has = Ok ks ->
     NoDup ks /\ (exists tl, ks = root :: tl) /\
     (forall k, k ∈ ks <-> rtc (child_of get) root k) /\
     (forall k, k ∈ ks -> is_leaf k = true -> has k = Ok true) /\
     (forall k, k ∈ ks -> is_leaf k = false -> exists data cs, get k = Ok data /\ ChildKeys k data = Ok cs /\ cs ⊆ ks) /\
     ReachableKeys fuel root get = Ok ks) /\
  (forall e, CheckComplete fuel root get has = Err e -> e <> [OutOfFuel] ->
     exists k, rtc (child_of get) root k /\ check_step get has k = Err e) /\
  (forall L, (forall k, rtc (child_of get) root k -> k ∈ L /\ exists cs, check_step get has k = Ok cs) ->
     (length L <= fuel)%nat -> exists ks, CheckComplete fuel root get has = Ok ks).
Proof.
  pose proof (sweep_sound (check_step get has) root fuel _ _ _ _ (swept_start _ root) eq_refl) as S.
  fold (CheckComplete fuel root get has) in S. split_and!.
  - intros ks. apply check_complete_Ok.
  - intros e E Hne. rewrite E in S. destruct S as [->|(k & Hr & Ek)]; [done|]. exists k.
    by rewrite <- check_reachable.
  - intros L HL Hf. apply (sweep_enough (check_step get has) root L); [apply swept_start| |cbn; lia].
    intros k Hk. apply HL. by rewrite <- check_reachable.
Qed.
Lemma check_complete_correct_witness :
  exists ks, CheckComplete 3 (OKey sample_root) sample_get (fun _ => Ok true) = Ok ks /\ length ks = 3%nat /\
    rtc (child_of sample_get) (OKey sample_root) (OKey sample_leaf2).
Proof.
  destruct (CheckComplete 3 (OKey sample_root) sample_get (fun _ => Ok true)) as [ks|e] eqn:E; [|by vm_compute in E].
  exists ks. split; [done|].
  assert (bool_decide (length ks = 3%nat /\ OKey sample_leaf2 ∈ ks) = true) as Hk.
  { vm_compute in E. injection E as <-. vm_compute. reflexivity. }
  apply bool_decide_eq_true in Hk as [Hl Hin]. split; [exact Hl|].
  apply (proj1 (check_complete_correct (OKey sample_root) sample_get (fun _ => Ok true) 3) ks E). exact Hin.
Defined.
