(* ===== verification/Footer.v ===== *)
(** Package packstore, segments (src/packstore/segment.go, footer.go): the footer of a sealed
    segment - seal marker, index section, filter section, trailer - its builder and its
    parser, the search in the index, and the reads of a sealed segment. The binary fuse
    filter is the interface [Fuse]. A mapping of a file is the list of its bytes. *)
From S2P Require Import Prelude External Concrete Key Crc32 Record.

(** ** segment.go *)

Definition tagSeal : byte := xf0.
Definition tagDelete : byte := x02.
Definition magicHeader : bytes := [x41; x4d; x42; x45; x52; x53; x47; x01].  (* "AMBERSG\x01" *)
Definition magicTrailer : bytes := [x41; x4d; x42; x45; x52; x53; x47; x46]. (* "AMBERSGF" *)

(** [Object]: [Record] set or not decides which of the two is used; [None] is a nil slice. *)
Record StoreObject := MkStoreObject { SKey : Key; SData : option bytes; SRecord : option bytes }.

(** ** footer.go: the index section *)

Definition fanoutSize : Z := 256 * 4.
Definition indexEntrySize : nat := 44.
Definition trailerSize : Z := 64.
Definition MaxUint32 : Z := 2 ^ 32 - 1.

Record indexEntry := MkIndexEntry { ie_k : Key; ie_off : Z; ie_slen : Z }.
#[export] Instance indexEntry_eq_dec : EqDecision indexEntry.
Proof. solve_decision. Defined.

(** [k[key.Size-1]] *)
Definition lastb (k : Key) : Z := u8 (kat k 31).

Definition compareEntries (a b : indexEntry) : comparison :=
  match Z.compare (lastb (ie_k a)) (lastb (ie_k b)) with
  | Eq => bytes_compare (b32_bytes (ie_k a)) (b32_bytes (ie_k b))
  | c => c
  end.
Definition entry_le (a b : indexEntry) : Prop := compareEntries a b <> Gt.
#[export] Instance entry_le_dec : RelDecision entry_le.
Proof. intros a b. unfold entry_le. apply _. Defined.

(** [counts[b]++] for each entry, then the running sums. *)
Definition count_entry (counts : list Z) (e : indexEntry) : list Z :=
  alter (fun n => u32 (n + 1)) (Z.to_nat (lastb (ie_k e))) counts.
Fixpoint cumulate (cum : Z) (counts : list Z) : list Z :=
  match counts with
  | [] => []
  | n :: ns => let cum := u32 (cum + n) in cum :: cumulate cum ns
  end.
Definition entry_bytes (e : indexEntry) : bytes :=
  b32_bytes (ie_k e) ++ be_put 8 (ie_off e) ++ be_put 4 (ie_slen e).

Definition buildIndexSection (entries : list indexEntry) : bytes :=
  let es := merge_sort entry_le entries in
  let counts := fold_left count_entry es (replicate 256 0) in
  concat (map (be_put 4) (cumulate 0 counts)) ++ concat (map entry_bytes es).

Fixpoint parse_fanout (n : nat) (prev : Z) (b : bytes) : res (list Z) :=
  match n with
  | O => Ok []
  | S n' =>
      let v := be_get (take 4 b) in
      if v <? prev then Err [ErrCorrupt]
      else vs ← parse_fanout n' v (drop 4 b); Ok (v :: vs)
  end.

Definition parseIndexSection (b : bytes) (keyCount : Z) : res (list Z * bytes) :=
  if MaxUint32 <? keyCount then Err [ErrCorrupt]
  else
    let want := u64 (fanoutSize + keyCount * Z.of_nat indexEntrySize) in
    if negb (zlen b =? want) then Err [ErrCorrupt]
    else
      fanout ← parse_fanout 256 0 b;
      if negb (nth 255 fanout 0 =? keyCount) then Err [ErrCorrupt]
      else Ok (fanout, drop (Z.to_nat fanoutSize) b).

(** ** The filter section *)

Definition filterHeaderSize : Z := 29.
Definition filterTypeBinaryFuse16 : byte := x01.

(** [binary.BigEndian.Uint64(k[key.Size-8:])] *)
Definition filterKey (k : Key) : Z := be_get (drop 24 (b32_bytes k)).

Definition u16_list (l : list Z) : bytes := concat (map (be_put 2) l).

(** [slices.Compact]: runs of equal elements become one. *)
Fixpoint compact (l : list Z) : list Z :=
  match l with
  | x :: ((y :: _) as l') => if x =? y then compact l' else x :: compact l'
  | _ => l
  end.
(** [slices.Sort] and [slices.Compact] on the tails. *)
Definition tail_keys (entries : list indexEntry) : list Z :=
  compact (merge_sort Z.le (map (fun e => filterKey (ie_k e)) entries)).

Section Filter.
Context `{Fuse}.

Definition buildFilterSection (entries : list indexEntry) : res bytes :=
  f ← NewBinaryFuse (tail_keys entries);
  Ok ([filterTypeBinaryFuse16] ++ be_put 8 (Seed f) ++ be_put 4 (SegmentLength f) ++
    be_put 4 (SegmentLengthMask f) ++ be_put 4 (SegmentCount f) ++ be_put 4 (SegmentCountLength f) ++
    be_put 4 (u32 (zlen (Fingerprints f))) ++ u16_list (Fingerprints f)).
End Filter.

Fixpoint read_u16s (n : nat) (b : bytes) : list Z :=
  match n with O => [] | S n' => be_get (take 2 b) :: read_u16s n' (drop 2 b) end.

Definition parseFilterSection (b : bytes) : res BinaryFuse :=
  if zlen b <? filterHeaderSize then Err [ErrCorrupt]
  else if negb (bool_decide (byte_at b 0 = filterTypeBinaryFuse16)) then Err [ErrCorrupt]
  else
    let fpCount := be_get (slice 25 29 b) in
    if negb (zlen b =? filterHeaderSize + 2 * fpCount) then Err [ErrCorrupt]
    else
      let segLen := be_get (slice 9 13 b) in
      let segLenMask := be_get (slice 13 17 b) in
      let segCount := be_get (slice 17 21 b) in
      let segCountLen := be_get (slice 21 25 b) in
      if segCount =? 0 then Err [ErrCorrupt]
      else if (segLen =? 0) || negb (Z.land segLen (u32 (segLen - 1)) =? 0) ||
              negb (segLenMask =? u32 (segLen - 1)) || negb (segCountLen =? segCount * segLen) ||
              negb (fpCount =? segCountLen + 2 * segLen) then Err [ErrCorrupt]
      else Ok (MkFuse (be_get (slice 1 9 b)) segLen segLenMask segCount segCountLen
                 (read_u16s (Z.to_nat fpCount) (drop 29 b))).

(** ** Search *)

(** [entries[pos*indexEntrySize:]], its first 32 bytes. *)
Definition entry_key (entries : bytes) (pos : nat) : bytes :=
  take 32 (drop (pos * indexEntrySize) entries).

Definition searchIndexPos (fanout : list Z) (entries : bytes) (k : Key) : option nat :=
  let b := Z.to_nat (lastb k) in
  let lo := match b with O => 0 | S b' => nth b' fanout 0 end in
  let n := Z.to_nat (u32 (nth b fanout 0 - lo)) in
  let i := sort_search n (fun i => bytes_leb (b32_bytes k) (entry_key entries (Z.to_nat lo + i))) in
  if (n <=? i)%nat then None
  else
    let pos := (Z.to_nat lo + i)%nat in
    if bool_decide (entry_key entries pos = b32_bytes k) then Some pos else None.

Definition searchIndex (fanout : list Z) (entries : bytes) (k : Key) : option (Z * Z) :=
  pos ← searchIndexPos fanout entries k;
  let e := drop (pos * indexEntrySize) entries in
  Some (be_get (slice 32 40 e), be_get (slice 40 44 e)).

(** ** The whole footer *)

Record footerView := MkFooter {
    fanout : list Z; entries : bytes; fv_filter : BinaryFuse;
    keyCount : Z; fv_bodyLen : Z; fv_indexOff : Z; fv_indexLen : Z
  }.

Section Footer.
Context `{Fuse}.

Definition buildFooter (bodyLen : Z) (entries : list indexEntry) : res bytes :=
  if (length entries =? 0)%nat then Err [EMsg "packstore: refusing to seal an empty segment"]
  else
  let idx := buildIndexSection entries in
  filt ← buildFilterSection entries;
  let indexOff := u64 (bodyLen + 1) in
  let covered := [tagSeal] ++ idx ++ filt ++
  be_put 8 indexOff ++ be_put 8 (zlen idx) ++ be_put 8 (u64 (indexOff + zlen idx)) ++
  be_put 8 (zlen filt) ++ be_put 8 (zlen entries) ++ be_put 8 bodyLen in
  Ok (covered ++ be_put 4 (crc_checksum covered) ++ replicate 4 x00 ++ magicTrailer).

Definition minSegment : Z :=
  zlen magicHeader + 1 + fanoutSize + Z.of_nat indexEntrySize + filterHeaderSize + trailerSize.

Definition parseFooter (mm : bytes) : res footerView :=
  if zlen mm <? minSegment then Err [ErrCorrupt]
  else if negb (bool_decide (take 8 mm = magicHeader)) then Err [ErrCorrupt]
  else
  let fileLen := zlen mm in
  let tr := drop (length mm - Z.to_nat trailerSize) mm in
  if negb (bool_decide (slice 56 64 tr = magicTrailer)) then Err [ErrCorrupt]
  else if negb (be_get (slice 52 56 tr) =? 0) then Err [ErrCorrupt]
  else
  let indexOff := be_get (slice 0 8 tr) in
  let indexLen := be_get (slice 8 16 tr) in
  let filterOff := be_get (slice 16 24 tr) in
  let filterLen := be_get (slice 24 32 tr) in
  let keyCount := be_get (slice 32 40 tr) in
  let bodyLen := be_get (slice 40 48 tr) in
  if (bodyLen <? zlen magicHeader) || (fileLen <=? bodyLen) ||
  (MaxUint32 <? keyCount) ||
  negb (indexOff =? u64 (bodyLen + 1)) ||
  negb (indexLen =? fanoutSize + keyCount * Z.of_nat indexEntrySize) ||
  negb (filterOff =? u64 (indexOff + indexLen)) ||
  (fileLen - trailerSize <? filterOff) ||
  negb (filterLen =? fileLen - trailerSize - filterOff) then Err [ErrCorrupt]
  else if negb (crc_checksum (slice (Z.to_nat bodyLen) (Z.to_nat (fileLen - 16)) mm) =?
            be_get (slice 48 52 tr)) then Err [ErrCorrupt]
  else if negb (bool_decide (byte_at mm (Z.to_nat bodyLen) = tagSeal)) then Err [ErrCorrupt]
  else
  '(fo, es) ← parseIndexSection (slice (Z.to_nat indexOff) (Z.to_nat (indexOff + indexLen)) mm) keyCount;
  filt ← parseFilterSection (slice (Z.to_nat filterOff) (Z.to_nat (filterOff + filterLen)) mm);
  Ok (MkFooter fo es filt keyCount bodyLen indexOff indexLen).

Definition lookup_ (fv : footerView) (k : Key) : option (Z * Z) := searchIndex (fanout fv) (entries fv) k.
Definition lookupPos (fv : footerView) (k : Key) : option nat := searchIndexPos (fanout fv) (entries fv) k.

(** ** Sealed segments *)

Record sealedSegment := MkSealed { sg_path : bytes; sg_id : Z; sg_mm : bytes; sg_fv : footerView }.

(** [os.Open], [Stat] and [Mmap] of a file that holds [mm]. *)
Definition openSealed (path : bytes) (id : Z) (mm : bytes) : res sealedSegment :=
  if zlen mm <? minSegment then Err [ErrCorrupt]
  else fv ← parseFooter mm; Ok (MkSealed path id mm fv).

Definition filter_has (g : sealedSegment) (k : Key) : bool := Contains (fv_filter (sg_fv g)) (filterKey k).

Definition seg_has (g : sealedSegment) (k : Key) : bool :=
  if negb (filter_has g k) then false
  else match lookup_ (sg_fv g) k with Some _ => true | None => false end.

(** The bounds check both reads make before touching the mapping. *)
Definition seg_bounds (g : sealedSegment) (off slen : Z) : bool :=
  let bodyLen := fv_bodyLen (sg_fv g) in
  negb ((off <? zlen magicHeader) || (bodyLen <? off) || (bodyLen - off <? Z.of_nat RecHeaderSize + slen)).

Definition seg_get `{Zstd} (g : sealedSegment) (k : Key) : res (option bytes) :=
  if negb (filter_has g k) then Ok None
  else
  match lookup_ (sg_fv g) k with
  | None => Ok None
  | Some (off, slen) =>
    if negb (seg_bounds g off slen) then Err [ErrCorrupt]
    else
    let o := Z.to_nat off in
    let h := slice o (o + RecHeaderSize) (sg_mm g) in
    let flags := byte_at h 33 in
    let ulen := be_get (slice 34 38 h) in
    data ← DecodePayload flags ulen (slice (o + RecHeaderSize) (o + RecHeaderSize + Z.to_nat slen) (sg_mm g));
    Ok (Some data)
  end.

Definition seg_getRecord (g : sealedSegment) (k : Key) : res (option bytes) :=
  if negb (filter_has g k) then Ok None
  else
  match lookup_ (sg_fv g) k with
  | None => Ok None
  | Some (off, slen) =>
    if negb (seg_bounds g off slen) then Err [ErrCorrupt]
    else
    let o := Z.to_nat off in
    Ok (Some (slice o (o + RecHeaderSize + Z.to_nat slen) (sg_mm g)))
  end.

Definition seg_storedSize (g : sealedSegment) (k : Key) : option Z :=
  if negb (filter_has g k) then None else snd <$> lookup_ (sg_fv g) k.

Definition seg_locate (g : sealedSegment) (k : Key) : option Z :=
  if negb (filter_has g k) then None else fst <$> lookup_ (sg_fv g) k.
End Footer.

(** * Fixed-width layouts *)

Lemma length_concat_fixed {A} n (l : list (list A)) :
  Forall (fun x => length x = n) l -> length (concat l) = (length l * n)%nat.
Proof. induction 1 as [|x l E _ IH]; [done|]. cbn [concat length]. rewrite length_app. lia. Qed.

Lemma drop_concat_fixed {A} n i (l : list (list A)) :
  Forall (fun x => length x = n) l -> drop (i * n) (concat l) = concat (drop i l).
Proof.
  intros F. revert i. induction F as [|x l E F IH]; intros [|i]; try done; [cbn [concat]; by rewrite !drop_nil|].
  cbn [concat drop]. rewrite <- IH, <- E. replace (S i * length x)%nat with (length x + i * length x)%nat by lia.
  rewrite <- drop_drop. by rewrite drop_app_length.
Qed.

Lemma length_entry_bytes e : length (entry_bytes e) = indexEntrySize.
Proof. unfold entry_bytes. by rewrite !length_app, b32_length, !length_be_put. Qed.
Lemma entry_bytes_fixed es : Forall (fun x => length x = indexEntrySize) (map entry_bytes es).
Proof. apply Forall_map, list.Forall_forall. intros. apply length_entry_bytes. Qed.
Lemma be_puts_fixed n l : Forall (fun x : bytes => length x = n) (map (be_put n) l).
Proof. apply Forall_map, list.Forall_forall. intros. apply length_be_put. Qed.

Lemma drop_entries i es :
  drop (i * indexEntrySize) (concat (map entry_bytes es)) = concat (map entry_bytes (drop i es)).
Proof. rewrite drop_concat_fixed by apply entry_bytes_fixed. by rewrite List.skipn_map. Qed.

Lemma entry_at es i e :
  es !! i = Some e ->
  exists rest, drop (i * indexEntrySize) (concat (map entry_bytes es)) = entry_bytes e ++ rest.
Proof. intros H. rewrite drop_entries, (drop_S _ _ _ H). cbn [map concat]. eauto. Qed.

Lemma entry_key_at es i e :
  es !! i = Some e -> entry_key (concat (map entry_bytes es)) i = b32_bytes (ie_k e).
Proof.
  intros (rest & E)%entry_at. unfold entry_key. rewrite E. unfold entry_bytes.
  rewrite <- app_assoc. by rewrite take_app_length' by (by rewrite b32_length).
Qed.

(** * The order of the index *)

Lemma compareEntries_antisym a b : compareEntries b a = CompOpp (compareEntries a b).
Proof.
  unfold compareEntries. rewrite Z.compare_antisym, (bytes_compare_antisym (b32_bytes (ie_k a))).
  by destruct (lastb (ie_k a) ?= lastb (ie_k b)).
Qed.

Lemma entry_le_iff a b :
  entry_le a b <-> lastb (ie_k a) < lastb (ie_k b) \/
    (lastb (ie_k a) = lastb (ie_k b) /\ bytes_le (b32_bytes (ie_k a)) (b32_bytes (ie_k b))).
Proof.
  unfold entry_le, compareEntries, bytes_le.
  destruct (Z.compare_spec (lastb (ie_k a)) (lastb (ie_k b))); intuition (congruence || lia).
Qed.

#[export] Instance entry_le_trans : Transitive entry_le.
Proof.
  intros a b c. rewrite !entry_le_iff. intros [?|[? ?]] [?|[? ?]]; try (left; lia).
  right. split; [lia|]. by etransitivity.
Qed.
#[export] Instance entry_le_total : Total entry_le.
Proof.
  intros a b. unfold entry_le. rewrite (compareEntries_antisym a b).
  destruct (compareEntries a b); cbn; auto.
Qed.

(** Entries whose last key byte is below [b]. *)
Definition below (b : Z) (es : list indexEntry) : list indexEntry :=
  filter (fun e => lastb (ie_k e) < b) es.
Definition at_least (b : Z) (es : list indexEntry) : list indexEntry :=
  filter (fun e => ~ lastb (ie_k e) < b) es.
Definition bucket (b : Z) (es : list indexEntry) : list indexEntry :=
  filter (fun e => lastb (ie_k e) = b) es.

Lemma below_prefix b es : StronglySorted entry_le es -> es = below b es ++ at_least b es.
Proof.
  unfold below, at_least. induction 1 as [|e es HS IH HF]; [done|].
  destruct (decide (lastb (ie_k e) < b)) as [Hlt|Hge].
  - rewrite filter_cons_True, filter_cons_False by naive_solver. cbn. by rewrite <- IH.
  - rewrite filter_cons_False by done. rewrite (filter_cons_True (fun e => ~ _)) by done.
    assert (filter (fun e => lastb (ie_k e) < b) es = []) as ->; [|cbn; f_equal].
    + apply filter_nothing. eapply list.Forall_impl; [exact HF|]. intros e'. cbn.
      rewrite entry_le_iff. lia.
    + symmetry. apply filter_all. eapply list.Forall_impl; [exact HF|]. intros e'. cbn.
      rewrite entry_le_iff. lia.
Qed.

Lemma at_least_bucket b es :
  StronglySorted entry_le es -> at_least b es = bucket b es ++ at_least (b + 1) es.
Proof.
  intros HS.
  assert (StronglySorted entry_le (at_least b es)) as HS'.
  { unfold at_least. clear -HS. induction HS as [|e es HS IH HF]; [constructor|].
    destruct (decide (~ lastb (ie_k e) < b)).
    - rewrite filter_cons_True by done. constructor; [done|].
      apply list.Forall_forall. intros x Hx. apply list_elem_of_filter in Hx as [_ Hx].
      rewrite list.Forall_forall in HF. by apply HF.
    - by rewrite filter_cons_False. }
  rewrite (below_prefix (b + 1) _ HS') at 1. unfold below, at_least, bucket.
  rewrite !list_filter_filter. f_equal; apply list_filter_iff; intros; lia.
Qed.

Lemma length_below_succ b es :
  StronglySorted entry_le es -> length (below (b + 1) es) = (length (below b es) + length (bucket b es))%nat.
Proof.
  intros HS. pose proof (below_prefix b es HS) as E1. pose proof (below_prefix (b + 1) es HS) as E2.
  rewrite (at_least_bucket b es HS) in E1. apply (f_equal length) in E1, E2.
  rewrite !length_app in *. lia.
Qed.

(** Where the bucket of [b] lies. *)
Lemma bucket_slice b es :
  StronglySorted entry_le es ->
  take (length (bucket b es)) (drop (length (below b es)) es) = bucket b es.
Proof.
  intros HS.
  replace (drop (length (below b es)) es) with (drop (length (below b es)) (below b es ++ at_least b es))
    by (by rewrite <- below_prefix).
  rewrite drop_app_length, (at_least_bucket b es HS).
  apply take_app_length.
Qed.

(** * The fanout table *)

Definition fanout_of (es : list indexEntry) : list Z := cumulate 0 (fold_left count_entry es (replicate 256 0)).

Lemma lastb_range k : 0 <= lastb k < 256.
Proof. apply u8_range. Qed.

Lemma length_counts es c : length (fold_left count_entry es c) = length c.
Proof.
  revert c. induction es as [|e es IH]; intros c; [done|]. cbn [fold_left]. rewrite IH.
  unfold count_entry. by rewrite length_alter.
Qed.
Lemma length_cumulate c l : length (cumulate c l) = length l.
Proof. revert c. induction l as [|x l IH]; intros c; [done|]. cbn. by rewrite IH. Qed.

Lemma counts_lookup es b :
  (b < 256)%nat -> zlen es < 2 ^ 32 ->
  fold_left count_entry es (replicate 256 0) !! b = Some (zlen (bucket (Z.of_nat b) es)).
Proof.
  intros Hb. induction es as [|e es IH] using rev_ind; intros Hl.
  - cbn [fold_left]. by rewrite lookup_replicate_2.
  - rewrite zlen_app in Hl. change (zlen [e]) with 1 in Hl. pose proof (zlen_nonneg es).
    rewrite fold_left_app. cbn [fold_left]. unfold count_entry at 1, bucket.
    rewrite list.filter_app, zlen_app. fold (bucket (Z.of_nat b) es).
    assert (zlen (bucket (Z.of_nat b) es) <= zlen es) as Hle
      by (unfold zlen, bucket; pose proof (length_filter (fun e => lastb (ie_k e) = Z.of_nat b) es); lia).
    pose proof (zlen_nonneg (bucket (Z.of_nat b) es)). pose proof (lastb_range (ie_k e)).
    destruct (decide (lastb (ie_k e) = Z.of_nat b)) as [E|N].
    + rewrite E, Nat2Z.id, list_lookup_alter_eq, IH by lia. cbn [fmap option_fmap option_map].
      rewrite filter_cons_True by done. unfold u32. change (zlen (e :: filter _ [])) with 1.
      rewrite Z.mod_small by lia. done.
    + rewrite list_lookup_alter_ne by lia. rewrite filter_cons_False by done.
      rewrite IH by lia. change (zlen (filter _ [])) with 0. f_equal. lia.
Qed.

Lemma cumulate_lookup (f : nat -> Z) counts j cum i :
  cum = f j -> (forall n, 0 <= f n < 2 ^ 32) ->
  (forall i c, counts !! i = Some c -> c = f (j + i + 1)%nat - f (j + i)%nat) ->
  (i < length counts)%nat -> cumulate cum counts !! i = Some (f (j + i + 1)%nat).
Proof.
  intros Hc Hf. revert j cum i Hc. induction counts as [|n counts IH]; intros j cum i Hc Hs Hi; [cbn in Hi; lia|].
  cbn [cumulate]. assert (u32 (cum + n) = f (S j)) as En.
  { pose proof (Hs 0%nat n eq_refl) as E0. rewrite Nat.add_0_r, Nat.add_1_r in E0.
    unfold u32. rewrite Z.mod_small; pose proof (Hf (S j)); lia. }
  destruct i as [|i]; cbn [lookup list_lookup].
  - rewrite En. do 2 f_equal. lia.
  - cbn in Hi. rewrite (IH (S j)); [do 2 f_equal; lia|done| |lia].
    intros i' c Hi'. pose proof (Hs (S i') c Hi') as E.
    replace (S j + i' + 1)%nat with (j + S i' + 1)%nat by lia.
    by replace (S j + i')%nat with (j + S i')%nat by lia.
Qed.

Lemma below_len_le b es : zlen (below b es) <= zlen es.
Proof. unfold zlen, below. pose proof (length_filter (fun e => lastb (ie_k e) < b) es). lia. Qed.

Lemma below_mono b1 b2 es : b1 <= b2 -> zlen (below b1 es) <= zlen (below b2 es).
Proof.
  intros Hb. unfold below, zlen. induction es as [|e es IH]; [done|].
  destruct (decide (lastb (ie_k e) < b1)), (decide (lastb (ie_k e) < b2)); try lia.
  - rewrite !filter_cons_True by done. cbn [length]. lia.
  - rewrite filter_cons_False by done. rewrite filter_cons_True by done. cbn [length]. lia.
  - by rewrite !filter_cons_False by done.
Qed.

Lemma fanout_lookup es b :
  StronglySorted entry_le es -> zlen es < 2 ^ 32 -> (b < 256)%nat ->
  fanout_of es !! b = Some (zlen (below (Z.of_nat b + 1) es)).
Proof.
  intros HS Hl Hb. unfold fanout_of.
  rewrite (cumulate_lookup (fun n => zlen (below (Z.of_nat n) es)) _ 0).
  - cbn [Nat.add]. do 4 f_equal. lia.
  - unfold below. rewrite filter_nothing; [done|]. apply list.Forall_forall. intros e _.
    pose proof (lastb_range (ie_k e)). cbn. lia.
  - intros n. pose proof (below_len_le (Z.of_nat n) es). pose proof (zlen_nonneg (below (Z.of_nat n) es)). lia.
  - intros i c Hi. pose proof (lookup_lt_Some _ _ _ Hi) as Hlt. rewrite length_counts, length_replicate in Hlt.
    rewrite counts_lookup in Hi by done. injection Hi as <-. cbn [Nat.add].
    replace (Z.of_nat (i + 1)) with (Z.of_nat i + 1) by lia.
    pose proof (length_below_succ (Z.of_nat i) es HS). unfold zlen. lia.
  - by rewrite length_counts, length_replicate.
Qed.

Lemma length_fanout_of es : length (fanout_of es) = 256%nat.
Proof. unfold fanout_of. by rewrite length_cumulate, length_counts, length_replicate. Qed.

(** ** Round trip of the table *)

Lemma parse_fanout_encode l prev r :
  StronglySorted Z.le (prev :: l) -> Forall (fun v => v < 2 ^ 32) l -> 0 <= prev ->
  parse_fanout (length l) prev (concat (map (be_put 4) l) ++ r) = Ok l.
Proof.
  revert prev. induction l as [|v l IH]; intros prev HS HF Hp; [done|].
  cbn [length parse_fanout map concat]. rewrite <- app_assoc.
  rewrite take_app_length' by (by rewrite length_be_put).
  rewrite drop_app_length' by (by rewrite length_be_put).
  inversion_clear HS as [|? ? HS' HP]. apply Forall_cons_1 in HP as [Hpv HP].
  apply Forall_cons_1 in HF as [Hv HF].
  rewrite be_get_put, Z.mod_small by (change (256 ^ Z.of_nat 4) with (2 ^ 32); lia).
  destruct (Z.ltb_spec v prev); [lia|]. by rewrite IH by (done || lia).
Qed.

Lemma parse_fanout_sorted n prev b l :
  parse_fanout n prev b = Ok l -> length l = n /\ StronglySorted Z.le (prev :: l).
Proof.
  revert prev b l. induction n as [|n IH]; intros prev b l E; cbn [parse_fanout] in E.
  - injection E as <-. split; [done|]. by repeat constructor.
  - destruct (Z.ltb_spec (be_get (take 4 b)) prev); [done|].
    apply res_bind_Ok in E as (vs & E & [= <-]). apply IH in E as [HL HS]. split; [cbn; lia|].
    constructor; [done|]. constructor; [done|].
    inversion_clear HS as [|? ? _ HF]. eapply list.Forall_impl; [exact HF|]. cbn. lia.
Qed.

Lemma sorted_by_lookup {A} (R : A -> A -> Prop) l :
  (forall i j x y, (i < j)%nat -> l !! i = Some x -> l !! j = Some y -> R x y) -> StronglySorted R l.
Proof.
  induction l as [|x l IH]; intros HL; constructor.
  - apply IH. intros i j a b Hij Ha Hb. by apply (HL (S i) (S j) a b); [lia|..].
  - apply list.Forall_forall. intros y Hy. apply list_elem_of_lookup in Hy as [j Hj].
    by apply (HL 0%nat (S j) x y); [lia|..].
Qed.

Lemma fanout_sorted es :
  StronglySorted entry_le es -> zlen es < 2 ^ 32 -> StronglySorted Z.le (0 :: fanout_of es).
Proof.
  intros HS Hl.
  assert (forall i x, fanout_of es !! i = Some x -> x = zlen (below (Z.of_nat i + 1) es)) as K.
  { intros i x Hi. pose proof (lookup_lt_Some _ _ _ Hi) as Hlt. rewrite length_fanout_of in Hlt.
    rewrite fanout_lookup in Hi by done. congruence. }
  constructor.
  - apply sorted_by_lookup. intros i j x y Hij Hx Hy. rewrite (K _ _ Hx), (K _ _ Hy). apply below_mono. lia.
  - apply Forall_lookup. intros i x Hx. rewrite (K _ _ Hx). apply zlen_nonneg.
Qed.

Lemma nth_lookup_Z (l : list Z) i x : l !! i = Some x -> nth i l 0 = x.
Proof. intros H. by apply nth_lookup_Some. Qed.

Lemma parseIndex_build entries0 :
  zlen entries0 < 2 ^ 32 ->
  let es := merge_sort entry_le entries0 in
  parseIndexSection (buildIndexSection entries0) (zlen entries0) = Ok (fanout_of es, concat (map entry_bytes es)).
Proof.
  intros Hl es.
  assert (StronglySorted entry_le es) as HS by (apply StronglySorted_merge_sort; apply _).
  assert (zlen es = zlen entries0) as EL by (unfold es, zlen; by rewrite merge_sort_Permutation).
  unfold parseIndexSection, buildIndexSection. fold es. fold (fanout_of es).
  destruct (Z.ltb_spec MaxUint32 (zlen entries0)) as [Hc|_]; [unfold MaxUint32 in Hc; lia|].
  assert (length (concat (map (be_put 4) (fanout_of es))) = 1024%nat) as L1.
  { rewrite (length_concat_fixed 4) by apply be_puts_fixed. by rewrite length_map, length_fanout_of. }
  assert (length (concat (map entry_bytes es)) = (length es * 44)%nat) as L2.
  { rewrite (length_concat_fixed 44) by apply entry_bytes_fixed. by rewrite length_map. }
  pose proof (zlen_nonneg entries0).
  assert (zlen (concat (map (be_put 4) (fanout_of es)) ++ concat (map entry_bytes es)) =
          u64 (fanoutSize + zlen entries0 * Z.of_nat indexEntrySize)) as Ez.
  { rewrite zlen_app. unfold zlen at 1 2. rewrite L1, L2. unfold u64, fanoutSize, indexEntrySize.
    rewrite Z.mod_small; unfold zlen in *; lia. }
  rewrite Ez, Z.eqb_refl. cbn [negb].
  replace 256%nat with (length (fanout_of es)) by apply length_fanout_of.
  rewrite parse_fanout_encode; [|apply fanout_sorted; [done|lia]| |done].
  2:{ apply Forall_lookup. intros i x Hx. pose proof (lookup_lt_Some _ _ _ Hx) as Hlt.
      rewrite length_fanout_of in Hlt. rewrite fanout_lookup in Hx by (done || lia). injection Hx as <-.
      pose proof (below_len_le (Z.of_nat i + 1) es). lia. }
  cbn [mbind res_bind].
  rewrite (nth_lookup_Z _ _ _ (fanout_lookup es 255 HS ltac:(lia) ltac:(lia))).
  assert (below (Z.of_nat 255 + 1) es = es) as ->.
  { apply filter_all, list.Forall_forall. intros e _. pose proof (lastb_range (ie_k e)). lia. }
  rewrite EL, Z.eqb_refl. cbn [negb]. by rewrite drop_app_length' by (rewrite L1; done).
Qed.

(** * Search *)

Lemma search_loop_ext fuel f g i j :
  (forall n, (n < j)%nat -> f n = g n) -> search_loop fuel f i j = search_loop fuel g i j.
Proof.
  revert i j. induction fuel as [|fuel IH]; intros i j HE; [done|]. cbn [search_loop].
  destruct (Nat.ltb_spec i j); [|done]. cbn zeta.
  assert ((i + j) / 2 < j)%nat by (apply Nat.Div0.div_lt_upper_bound; lia).
  rewrite HE by done. destruct (g _); apply IH; [|done]. intros; apply HE; lia.
Qed.
Lemma sort_search_ext n f g : (forall i, (i < n)%nat -> f i = g i) -> sort_search n f = sort_search n g.
Proof. apply search_loop_ext. Qed.

Definition keys_distinct (es : list indexEntry) : Prop := NoDup (map ie_k es).

Lemma distinct_pos es i j a b :
  keys_distinct es -> es !! i = Some a -> es !! j = Some b -> ie_k a = ie_k b -> i = j.
Proof.
  intros ND Ha Hb E. apply (NoDup_lookup (map ie_k es) i j (ie_k a) ND).
  - rewrite list_lookup_fmap, Ha. done.
  - rewrite list_lookup_fmap, Hb, E. done.
Qed.

Section Search.
Context (es : list indexEntry) (fo : list Z) (k : Key).
Hypothesis HS : StronglySorted entry_le es.
Hypothesis Hlen : zlen es < 2 ^ 32.
Hypothesis Hfo : forall b, (b < 256)%nat -> nth b fo 0 = zlen (below (Z.of_nat b + 1) es).

Let b := lastb k.
Let lo := length (below b es).
Let bk := bucket b es.

Lemma bucket_at i e : bk !! i = Some e -> es !! (lo + i)%nat = Some e.
Proof.
  intros Hi. subst bk lo. rewrite <- (bucket_slice b es HS) in Hi.
  apply lookup_take_Some in Hi as [Hi _]. by rewrite lookup_drop in Hi.
Qed.

Lemma bucket_order i j x y :
  (i <= j)%nat -> bk !! i = Some x -> bk !! j = Some y ->
  bytes_le (b32_bytes (ie_k x)) (b32_bytes (ie_k y)).
Proof.
  intros Hij Hx Hy. destruct (decide (i = j)) as [->|]; [by assert (x = y) as -> by congruence|].
  assert (lastb (ie_k x) = lastb (ie_k y)) as E.
  { apply list_elem_of_lookup_2, list_elem_of_filter in Hx as [-> _].
    by apply list_elem_of_lookup_2, list_elem_of_filter in Hy as [-> _]. }
  apply bucket_at in Hx, Hy.
  rewrite <- (take_drop (lo + j) es) in HS.
  assert (entry_le x y) as L.
  { clear -HS Hx Hy Hij n. rewrite (drop_S _ _ _ Hy) in HS.
    assert (x ∈ take (lo + j) es) as Hin
    by (apply (list_elem_of_lookup_2 _ (lo + i)); rewrite lookup_take_lt by lia; done).
    revert HS Hin. generalize (take (lo + j) es) as l. induction l as [|z l IH]; intros HS Hin.
    - by apply elem_of_nil in Hin.
    - inversion_clear HS as [|? ? HS' HF]. apply elem_of_cons in Hin as [->|Hin]; [|by apply IH].
      rewrite list.Forall_forall in HF. apply HF, elem_of_app. right. by left. }
  apply entry_le_iff in L as [?|[_ ?]]; [lia|done].
Qed.

Lemma search_range :
  (match Z.to_nat b with O => 0 | S b' => nth b' fo 0 end) = Z.of_nat lo /\
  Z.to_nat (u32 (nth (Z.to_nat b) fo 0 - Z.of_nat lo)) = length bk.
Proof.
  pose proof (lastb_range k) as Hb. fold b in Hb. split.
  - destruct (Z.to_nat b) as [|b'] eqn:E.
    + assert (b = 0) as E0 by lia. subst lo. rewrite E0. unfold below.
      rewrite filter_nothing; [done|]. apply list.Forall_forall. intros e _.
      pose proof (lastb_range (ie_k e)). cbn. lia.
    + rewrite Hfo by lia. replace (Z.of_nat b' + 1) with b by lia. done.
  - rewrite Hfo by lia. rewrite Z2Nat.id by lia.
    pose proof (length_below_succ b es HS) as L. fold lo bk in L. unfold zlen. rewrite L.
    pose proof (below_len_le (b + 1) es) as B. unfold zlen in B, Hlen. rewrite L in B.
    unfold u32. rewrite Z.mod_small; lia.
Qed.

Lemma searchIndexPos_found pos :
  searchIndexPos fo (concat (map entry_bytes es)) k = Some pos ->
  exists e, es !! pos = Some e /\ ie_k e = k.
Proof.
  unfold searchIndexPos. fold b. destruct search_range as [E1 E2]. rewrite E1, E2, Nat2Z.id.
  set (i := sort_search _ _). destruct (Nat.leb_spec (length bk) i) as [|Hi]; [done|].
  case_bool_decide as EK; [|done]. intros [= <-].
  destruct (lookup_lt_is_Some_2 bk i Hi) as [e He]. exists e. split; [by apply bucket_at|].
  apply b32_eq. rewrite <- EK. symmetry. by apply entry_key_at, bucket_at.
Qed.

Lemma searchIndexPos_complete e :
  e ∈ es -> ie_k e = k -> exists pos, searchIndexPos fo (concat (map entry_bytes es)) k = Some pos.
Proof.
  intros Hin Hk. unfold searchIndexPos. fold b. destruct search_range as [E1 E2]. rewrite E1, E2, Nat2Z.id.
  set (P := fun e => bytes_leb (b32_bytes k) (b32_bytes (ie_k e))).
  rewrite (sort_search_ext _ _ (fun i => from_option P false (bk !! i))).
  2:{ intros i Hi. destruct (lookup_lt_is_Some_2 bk i Hi) as [e' He']. rewrite He'. cbn [from_option].
  unfold P. by rewrite (entry_key_at es _ e') by (by apply bucket_at). }
  destruct (sort_search_split P bk) as [F1 F2].
  { intros i j x y Hij Hx Hy. unfold P. rewrite !bytes_leb_le. intros L.
    etransitivity; [exact L|]. by eapply bucket_order. }
  set (i := sort_search _ _) in *. clearbody i.
  assert (e ∈ drop i bk) as Hd.
  { assert (e ∈ bk) as Hb by (apply list_elem_of_filter; subst b; by rewrite Hk).
    rewrite <- (take_drop i bk) in Hb. apply elem_of_app in Hb as [Hb|Hb]; [|done].
    rewrite list.Forall_forall in F1. specialize (F1 e Hb). unfold P in F1. rewrite Hk in F1.
    by apply bytes_leb_false, bytes_lt_irrefl in F1. }
  apply list_elem_of_lookup in Hd as [j Hj]. rewrite lookup_drop in Hj.
  pose proof (lookup_lt_Some _ _ _ Hj) as Hlt.
  destruct (Nat.leb_spec (length bk) i) as [Hi|Hi]; [lia|].
  destruct (lookup_lt_is_Some_2 bk i Hi) as [e0 He0].
  rewrite (entry_key_at es _ e0) by (by apply bucket_at). exists (lo + i)%nat.
  rewrite bool_decide_eq_true_2; [done|].
  apply (anti_symm bytes_le).
  - rewrite <- Hk. eapply (bucket_order i (i + j)); [lia|done..].
  - rewrite list.Forall_forall in F2. apply bytes_leb_le, (F2 e0).
    apply (list_elem_of_lookup_2 _ 0). by rewrite lookup_drop, Nat.add_0_r.
Qed.
End Search.

(** * The filter section round trips *)

Lemma length_u16_list l : length (u16_list l) = (length l * 2)%nat.
Proof. unfold u16_list. rewrite (length_concat_fixed 2) by apply be_puts_fixed. by rewrite length_map. Qed.

Lemma read_u16s_list l r :
  Forall (fun x => 0 <= x < 2 ^ 16) l -> read_u16s (length l) (u16_list l ++ r) = l.
Proof.
  intros F. revert r. induction F as [|x l Hx F IH]; intros r; [done|].
  unfold u16_list in *. cbn [length read_u16s map concat]. rewrite <- app_assoc.
  rewrite take_app_length' by (by rewrite length_be_put).
  rewrite drop_app_length' by (by rewrite length_be_put).
  rewrite be_get_put, Z.mod_small by (change (256 ^ Z.of_nat 2) with (2 ^ 16); lia). by rewrite IH.
Qed.

(** Skips parts of known length up to the field read, then takes it. *)
Ltac read_field :=
  repeat (rewrite slice_skip with (n := 1%nat) by (rewrite ?length_be_put; cbn; lia); cbn [Nat.sub]);
  repeat first
    [ rewrite (slice_skip (be_put 8 _)) with (n := 8%nat) by (rewrite ?length_be_put; lia); cbn [Nat.sub]
    | rewrite (slice_skip (be_put 4 _)) with (n := 4%nat) by (rewrite ?length_be_put; lia); cbn [Nat.sub] ];
  rewrite slice_head by (by rewrite ?length_be_put).

Lemma be_get_put_small n v : 0 <= v < 256 ^ Z.of_nat n -> be_get (be_put n v) = v.
Proof. intros. by rewrite be_get_put, Z.mod_small. Qed.

Definition filter_bytes (f : BinaryFuse) : bytes :=
  [filterTypeBinaryFuse16] ++ be_put 8 (Seed f) ++ be_put 4 (SegmentLength f) ++
  be_put 4 (SegmentLengthMask f) ++ be_put 4 (SegmentCount f) ++ be_put 4 (SegmentCountLength f) ++
  be_put 4 (u32 (zlen (Fingerprints f))) ++ u16_list (Fingerprints f).

Lemma length_filter_bytes f : zlen (filter_bytes f) = filterHeaderSize + 2 * zlen (Fingerprints f).
Proof.
  unfold filter_bytes, filterHeaderSize, zlen. rewrite !length_app, !length_be_put, length_u16_list.
  cbn [length]. lia.
Qed.

Lemma pow2_land n : 0 <= n -> Z.land (2 ^ n) (2 ^ n - 1) = 0.
Proof.
  intros Hn. pose proof (Z.land_ones (2 ^ n) n Hn) as E. rewrite Z.ones_equiv in E.
  replace (2 ^ n - 1) with (Z.pred (2 ^ n)) by lia. rewrite E. apply Z.mod_same. lia.
Qed.

Lemma parseFilter_bytes f : fuse_geometry f -> parseFilterSection (filter_bytes f) = Ok f.
Proof.
  intros (Hseed & (n & Hn & HL) & HM & HC & HCL & HCL' & HF & HF' & HFP).
  assert (1 <= 2 ^ n < 2 ^ 32) as Hp.
  { split; [change 1 with (2 ^ 0); apply Z.pow_le_mono_r; lia|apply Z.pow_lt_mono_r; lia]. }
  pose proof (zlen_nonneg (Fingerprints f)) as Hz.
  assert (u32 (zlen (Fingerprints f)) = zlen (Fingerprints f)) as Eu by (unfold u32; rewrite Z.mod_small; lia).
  unfold parseFilterSection. rewrite length_filter_bytes.
  destruct (Z.ltb_spec (filterHeaderSize + 2 * zlen (Fingerprints f)) filterHeaderSize); [lia|].
  rewrite bool_decide_eq_true_2 by done. cbn [negb].
  assert (be_get (slice 25 29 (filter_bytes f)) = zlen (Fingerprints f)) as ->
    by (unfold filter_bytes; read_field; rewrite Eu, be_get_put_small; [done|change (256 ^ Z.of_nat 4) with (2 ^ 32); lia]).
  assert (be_get (slice 9 13 (filter_bytes f)) = SegmentLength f) as ->
    by (unfold filter_bytes; read_field; rewrite be_get_put_small; [done|change (256 ^ Z.of_nat 4) with (2 ^ 32); lia]).
  assert (be_get (slice 13 17 (filter_bytes f)) = SegmentLengthMask f) as ->
    by (unfold filter_bytes; read_field; rewrite be_get_put_small; [done|change (256 ^ Z.of_nat 4) with (2 ^ 32); lia]).
  assert (be_get (slice 17 21 (filter_bytes f)) = SegmentCount f) as ->
    by (unfold filter_bytes; read_field; rewrite be_get_put_small; [done|change (256 ^ Z.of_nat 4) with (2 ^ 32); lia]).
  assert (be_get (slice 21 25 (filter_bytes f)) = SegmentCountLength f) as ->
    by (unfold filter_bytes; read_field; rewrite be_get_put_small; [done|change (256 ^ Z.of_nat 4) with (2 ^ 32); nia]).
  assert (be_get (slice 1 9 (filter_bytes f)) = Seed f) as ->
    by (unfold filter_bytes; read_field; rewrite be_get_put_small; [done|change (256 ^ Z.of_nat 8) with (2 ^ 64); lia]).
  rewrite Z.eqb_refl. cbn [negb].
  assert (u32 (SegmentLength f - 1) = SegmentLength f - 1) as -> by (unfold u32; rewrite Z.mod_small; lia).
  destruct (Z.eqb_spec (SegmentCount f) 0); [lia|].
  assert (Z.land (SegmentLength f) (SegmentLength f - 1) = 0) as -> by (rewrite HL; apply pow2_land; lia).
  destruct (Z.eqb_spec (SegmentLength f) 0); [lia|].
  destruct (Z.eqb_spec (SegmentLengthMask f) (SegmentLength f - 1)); [|lia].
  destruct (Z.eqb_spec (SegmentCountLength f) (SegmentCount f * SegmentLength f)); [|lia].
  destruct (Z.eqb_spec (zlen (Fingerprints f)) (SegmentCountLength f + 2 * SegmentLength f)); [|lia].
  cbn [orb negb Z.eqb]. f_equal.
  assert (drop 29 (filter_bytes f) = u16_list (Fingerprints f) ++ []) as ->.
  { rewrite app_nil_r. unfold filter_bytes. rewrite !app_assoc.
    rewrite drop_app_length'; [done|]. rewrite !length_app, !length_be_put. done. }
  unfold zlen. rewrite Nat2Z.id, read_u16s_list by done. by destruct f.
Qed.

(** * The footer round trips *)

Section FooterProofs.
Context `{FuseOk}.

Lemma compact_elem l x : x ∈ compact l <-> x ∈ l.
Proof.
  induction l as [|y l IH]; [done|]. cbn [compact]. destruct l as [|z l]; [done|].
  destruct (Z.eqb_spec y z) as [->|].
  - rewrite IH, !elem_of_cons. naive_solver.
  - by rewrite elem_of_cons, IH, !elem_of_cons.
Qed.

Lemma tail_keys_elem es e : e ∈ es -> filterKey (ie_k e) ∈ tail_keys es.
Proof.
  intros He. unfold tail_keys. rewrite compact_elem, merge_sort_Permutation.
  apply (list_elem_of_fmap_2 (fun e => filterKey (ie_k e)) es e He).
Qed.

Definition entry_fits (e : indexEntry) : Prop := 0 <= ie_off e < 2 ^ 64 /\ 0 <= ie_slen e < 2 ^ 32.

Lemma buildFooter_Ok bodyLen es footer :
  buildFooter bodyLen es = Ok footer ->
  es <> [] /\ exists f, NewBinaryFuse (tail_keys es) = Ok f /\
  let idx := buildIndexSection es in
  let indexOff := u64 (bodyLen + 1) in
  let covered := [tagSeal] ++ idx ++ filter_bytes f ++
  be_put 8 indexOff ++ be_put 8 (zlen idx) ++ be_put 8 (u64 (indexOff + zlen idx)) ++
  be_put 8 (zlen (filter_bytes f)) ++ be_put 8 (zlen es) ++ be_put 8 bodyLen in
  footer = covered ++ be_put 4 (crc_checksum covered) ++ replicate 4 x00 ++ magicTrailer.
Proof.
  unfold buildFooter. destruct es as [|e es]; [done|]. cbn [length Nat.eqb].
  unfold buildFilterSection. intros E.
  apply res_bind_Ok in E as (filt & E1 & E). apply res_bind_Ok in E1 as (f & Ef & [= <-]).
  injection E as <-. split; [done|]. exists f. split; [done|]. done.
Qed.

Lemma length_index_section es :
  zlen (buildIndexSection es) = fanoutSize + zlen es * Z.of_nat indexEntrySize.
Proof.
  unfold buildIndexSection. fold (fanout_of (merge_sort entry_le es)). rewrite zlen_app. unfold zlen.
  rewrite (length_concat_fixed 4) by apply be_puts_fixed.
  rewrite (length_concat_fixed indexEntrySize) by apply entry_bytes_fixed.
  rewrite !length_map, length_fanout_of, merge_sort_Permutation. unfold fanoutSize. lia.
Qed.

(** The trailer's fields, read back. *)
Definition trailer48 (io il fo fl kc bl : Z) : bytes :=
  be_put 8 io ++ be_put 8 il ++ be_put 8 fo ++ be_put 8 fl ++ be_put 8 kc ++ be_put 8 bl.
Definition trailer (io il fo fl kc bl crc : Z) : bytes :=
  trailer48 io il fo fl kc bl ++ be_put 4 crc ++ replicate 4 x00 ++ magicTrailer.

Lemma length_trailer48 io il fo fl kc bl : length (trailer48 io il fo fl kc bl) = 48%nat.
Proof. unfold trailer48. by rewrite !length_app, !length_be_put. Qed.
Lemma length_trailer io il fo fl kc bl crc : length (trailer io il fo fl kc bl crc) = 64%nat.
Proof. unfold trailer. by rewrite !length_app, length_trailer48, length_be_put. Qed.

Lemma trailer_offsets io il fo fl kc bl crc :
  Forall (fun v => 0 <= v < 2 ^ 64) [io; il; fo; fl; kc; bl] ->
  let tr := trailer io il fo fl kc bl crc in
  be_get (slice 0 8 tr) = io /\ be_get (slice 8 16 tr) = il /\ be_get (slice 16 24 tr) = fo /\
  be_get (slice 24 32 tr) = fl /\ be_get (slice 32 40 tr) = kc /\ be_get (slice 40 48 tr) = bl.
Proof.
  intros HF tr. rewrite list.Forall_forall in HF.
  assert (forall v, v ∈ [io; il; fo; fl; kc; bl] -> be_get (be_put 8 v) = v) as G8
  by (intros v Hv; by apply be_get_put_small, HF).
  unfold tr, trailer, trailer48. rewrite <- !app_assoc.
  split_and!; read_field; apply G8; rewrite !elem_of_cons; auto 10.
Qed.

Lemma trailer_tail io il fo fl kc bl crc :
  0 <= crc < 2 ^ 32 ->
  let tr := trailer io il fo fl kc bl crc in
  slice 56 64 tr = magicTrailer /\ be_get (slice 52 56 tr) = 0 /\ be_get (slice 48 52 tr) = crc.
Proof.
  intros Hc tr. unfold tr, trailer.
  rewrite !(slice_skip (trailer48 _ _ _ _ _ _)) with (n := 48%nat) by (apply length_trailer48 || lia).
  cbn [Nat.sub].
  rewrite (slice_skip (be_put 4 _)) with (n := 4%nat) (i := 8%nat) by (rewrite ?length_be_put; lia).
  rewrite (slice_skip (be_put 4 _)) with (n := 4%nat) (i := 4%nat) by (rewrite ?length_be_put; lia).
  cbn [Nat.sub]. rewrite (slice_skip (replicate 4 x00)) with (n := 4%nat) by (done || lia).
  rewrite !slice_head by (by rewrite ?length_be_put). rewrite slice_all by done.
  split; [done|]. split; [done|]. by apply be_get_put_small.
Qed.

(** The parser, on an image cut into its parts. *)
Lemma parseFooter_image body idx filt kc crc fo es f :
  let bl := zlen body in
  let covered := [tagSeal] ++ idx ++ filt ++
  trailer48 (bl + 1) (zlen idx) (bl + 1 + zlen idx) (zlen filt) kc bl in
  let mm := body ++ covered ++ be_put 4 crc ++ replicate 4 x00 ++ magicTrailer in
  take 8 body = magicHeader -> crc = crc_checksum covered -> zlen mm < 2 ^ 63 -> minSegment <= zlen mm ->
  0 <= kc < 2 ^ 32 -> zlen idx = fanoutSize + kc * Z.of_nat indexEntrySize ->
  parseIndexSection idx kc = Ok (fo, es) -> parseFilterSection filt = Ok f ->
  parseFooter mm = Ok (MkFooter fo es f kc bl (bl + 1) (zlen idx)).
Proof.
  intros bl cov mm Hm Hcrc Hfl Hmin Hkc Hidx Hpi Hpf.
  set (tr := trailer (bl + 1) (zlen idx) (bl + 1 + zlen idx) (zlen filt) kc bl crc).
  assert (mm = (body ++ [tagSeal] ++ idx ++ filt) ++ tr) as Emm.
  { unfold mm, cov, tr, trailer. by rewrite <- !app_assoc. }
  assert (8 <= bl) as Hb8.
  { assert (length (take 8 body) = 8%nat) as T by (by rewrite Hm). rewrite length_take in T. unfold bl, zlen. lia. }
  assert (zlen mm = bl + 1 + zlen idx + zlen filt + 64) as Lmm.
  { rewrite Emm, !zlen_app. fold bl. change (zlen [tagSeal]) with 1.
    assert (zlen tr = 64) as -> by (unfold zlen, tr; by rewrite length_trailer). lia. }
  pose proof (zlen_nonneg idx). pose proof (zlen_nonneg filt).
  destruct (trailer_offsets (bl + 1) (zlen idx) (bl + 1 + zlen idx) (zlen filt) kc bl crc)
  as (F1 & F2 & F3 & F4 & F5 & F6); [repeat (apply List.Forall_cons; [lia|]); apply List.Forall_nil|].
  destruct (trailer_tail (bl + 1) (zlen idx) (bl + 1 + zlen idx) (zlen filt) kc bl crc)
  as (T1 & T2 & T3); [rewrite Hcrc; apply crc_checksum_32|]. fold tr in F1, F2, F3, F4, F5, F6, T1, T2, T3.
  unfold parseFooter. destruct (Z.ltb_spec (zlen mm) minSegment); [lia|].
  assert (take 8 mm = magicHeader) as -> by (unfold mm; rewrite take_app_le by (unfold bl, zlen in Hb8; lia); done).
  assert (drop (length mm - Z.to_nat trailerSize) mm = tr) as ->.
  { rewrite Emm. rewrite drop_app_length'; [done|]. rewrite (length_app _ tr). unfold tr.
    rewrite length_trailer. unfold trailerSize. lia. }
  rewrite T1, T2, T3, F1, F2, F3, F4, F5, F6.
  rewrite !bool_decide_eq_true_2 by done. cbn [negb Z.eqb].
  assert (forall v, 0 <= v < 2 ^ 63 -> u64 v = v) as U by (intros; unfold u64; rewrite Z.mod_small; lia).
  rewrite !U by lia. rewrite Hidx at 1. rewrite !Z.eqb_refl, Lmm.
  replace (bl + 1 + zlen idx + zlen filt + 64 - trailerSize) with (bl + 1 + zlen idx + zlen filt) by (unfold trailerSize; lia).
  replace (bl + 1 + zlen idx + zlen filt - (bl + 1 + zlen idx)) with (zlen filt) by lia.
  change (zlen magicHeader) with 8. rewrite Z.eqb_refl.
  destruct (Z.ltb_spec bl 8); [lia|]. destruct (Z.leb_spec (bl + 1 + zlen idx + zlen filt + 64) bl); [lia|].
  destruct (Z.ltb_spec MaxUint32 kc); [unfold MaxUint32 in *; lia|].
  destruct (Z.ltb_spec (bl + 1 + zlen idx + zlen filt) (bl + 1 + zlen idx)); [lia|]. cbn [negb orb].
  assert (slice (Z.to_nat bl) (Z.to_nat (bl + 1 + zlen idx + zlen filt + 64 - 16)) mm = cov) as ->.
  { apply slice_app_mid; [unfold bl, zlen; lia|]. unfold cov. rewrite !length_app, length_trailer48.
    cbn [length]. unfold bl, zlen. lia. }
  rewrite <- Hcrc, Z.eqb_refl. cbn [negb].
  assert (byte_at mm (Z.to_nat bl) = tagSeal) as ->.
  { unfold byte_at, mm. rewrite app_nth2; unfold bl, zlen; [|lia].
    by replace (Z.to_nat (Z.of_nat (length body)) - length body)%nat with 0%nat by lia. }
  rewrite bool_decide_eq_true_2 by done. cbn [negb].
  assert (slice (Z.to_nat (bl + 1)) (Z.to_nat (bl + 1 + zlen idx)) mm = idx) as ->.
  { rewrite Emm, <- !app_assoc. rewrite (app_assoc body). apply slice_app_mid.
    - rewrite length_app. cbn [length]. unfold bl, zlen. lia.
    - unfold bl, zlen. lia. }
  rewrite Hpi. cbn [mbind res_bind].
  assert (slice (Z.to_nat (bl + 1 + zlen idx)) (Z.to_nat (bl + 1 + zlen idx + zlen filt)) mm = filt) as ->.
  { rewrite Emm, <- !app_assoc. rewrite (app_assoc body), (app_assoc _ idx). apply slice_app_mid.
    - rewrite !length_app. cbn [length]. unfold bl, zlen. lia.
    - unfold bl, zlen. lia. }
  by rewrite Hpf.
Qed.

Lemma parse_built es footer body :
  buildFooter (zlen body) es = Ok footer -> zlen es < 2 ^ 32 ->
  take 8 body = magicHeader -> zlen (body ++ footer) < 2 ^ 63 ->
  exists f, NewBinaryFuse (tail_keys es) = Ok f /\
  minSegment <= zlen (body ++ footer) /\
  parseFooter (body ++ footer) =
  Ok (MkFooter (fanout_of (merge_sort entry_le es)) (concat (map entry_bytes (merge_sort entry_le es)))
    f (zlen es) (zlen body) (zlen body + 1) (zlen (buildIndexSection es))).
Proof.
  intros (Hne & f & Hf & E)%buildFooter_Ok Hl Hm Hfl. cbv zeta in E. exists f. split; [done|].
  pose proof (length_index_section es) as Lidx. pose proof (length_filter_bytes f) as Lfilt.
  pose proof (zlen_nonneg (Fingerprints f)). pose proof (zlen_nonneg body).
  pose proof (zlen_nonneg (filter_bytes f)). pose proof (zlen_nonneg (buildIndexSection es)).
  assert (1 <= zlen es) as Hes by (destruct es; [done|]; rewrite zlen_cons; pose proof (zlen_nonneg es); lia).
  assert (8 <= zlen body) as Hb8.
  { assert (length (take 8 body) = 8%nat) as T by (by rewrite Hm). rewrite length_take in T. unfold zlen. lia. }
  assert (zlen (body ++ footer) = zlen body + 1 + zlen (buildIndexSection es) + zlen (filter_bytes f) + 64) as Lmm.
  { rewrite E, !zlen_app. unfold zlen at 4 5 6 7 8 9 10 11 12. rewrite ?length_be_put.
    unfold zlen. rewrite !length_be_put. cbn [length replicate magicTrailer]. lia. }
  assert (minSegment <= zlen (body ++ footer)) as Hmin.
  { rewrite Lmm, Lidx, Lfilt. unfold minSegment, fanoutSize, filterHeaderSize, trailerSize, indexEntrySize.
    change (zlen magicHeader) with 8. lia. }
  split; [done|].
  assert (u64 (zlen body + 1) = zlen body + 1) as E1 by (unfold u64; rewrite Z.mod_small; lia).
  assert (u64 (zlen body + 1 + zlen (buildIndexSection es)) = zlen body + 1 + zlen (buildIndexSection es)) as E2
  by (unfold u64; rewrite Z.mod_small; lia).
  rewrite E1, E2 in E. rewrite E in *.
  eapply parseFooter_image; try done; [pose proof (zlen_nonneg es); lia|by apply parseIndex_build|].
  apply parseFilter_bytes. by eapply fuse_shape.
Qed.

Lemma length_footer n es footer :
  buildFooter n es = Ok footer -> zlen es < 2 ^ 32 -> zlen footer < 2 ^ 40.
Proof.
  intros (_ & f & Hf & ->)%buildFooter_Ok Hl. cbv zeta.
  pose proof (length_index_section es) as Li. pose proof (length_filter_bytes f) as Lf.
  destruct (fuse_shape _ _ Hf) as (_ & _ & _ & _ & _ & _ & _ & Hfp & _).
  rewrite !zlen_app. unfold zlen in *. rewrite !length_be_put. cbn [length replicate magicTrailer].
  unfold fanoutSize, filterHeaderSize, indexEntrySize in *. lia.
Qed.

(** The index and filter of a footer stand for the entries [es]. *)
Record indexes (fv : footerView) (es : list indexEntry) : Prop := {
    ix_fanout : fanout fv = fanout_of (merge_sort entry_le es);
    ix_entries : entries fv = concat (map entry_bytes (merge_sort entry_le es));
    ix_keyCount : keyCount fv = zlen es;
    ix_len : zlen es < 2 ^ 32;
    ix_distinct : keys_distinct es;
    ix_fits : Forall entry_fits es;
    ix_filter e : e ∈ es -> Contains (fv_filter fv) (filterKey (ie_k e)) = true
  }.

Lemma keys_distinct_entry es a b :
  keys_distinct es -> a ∈ es -> b ∈ es -> ie_k a = ie_k b -> a = b.
Proof.
  intros ND [i Hi]%list_elem_of_lookup [j Hj]%list_elem_of_lookup E.
  assert (i = j) as -> by (by eapply distinct_pos). congruence.
Qed.

Lemma entry_fields e rest :
  entry_fits e ->
  let row := entry_bytes e ++ rest in
  be_get (slice 32 40 row) = ie_off e /\ be_get (slice 40 44 row) = ie_slen e.
Proof.
  intros [Ho Hs] row. unfold row, entry_bytes. rewrite <- !app_assoc.
  rewrite !(slice_skip (b32_bytes _)) with (n := 32%nat) by (rewrite ?b32_length; lia). cbn [Nat.sub].
  rewrite (slice_skip (be_put 8 _)) with (n := 8%nat) (i := 8%nat) by (rewrite ?length_be_put; lia).
  cbn [Nat.sub]. rewrite !slice_head by (by rewrite ?length_be_put).
  by rewrite !be_get_put_small.
Qed.

(** The index spells out the entries [es], keys possibly repeated. *)
Record spelled (fv : footerView) (es : list indexEntry) : Prop := {
    sp_fanout : fanout fv = fanout_of (merge_sort entry_le es);
    sp_entries : entries fv = concat (map entry_bytes (merge_sort entry_le es));
    sp_len : zlen es < 2 ^ 32;
    sp_fits : Forall entry_fits es
  }.
Lemma indexes_spelled fv es : indexes fv es -> spelled fv es.
Proof. by intros []. Qed.

Section Spelled.
Context (fv : footerView) (es : list indexEntry).
Hypothesis Hsp : spelled fv es.
Let ses := merge_sort entry_le es.

Lemma ses_search_ctx :
  StronglySorted entry_le ses /\ zlen ses < 2 ^ 32 /\
  forall b, (b < 256)%nat -> nth b (fanout fv) 0 = zlen (below (Z.of_nat b + 1) ses).
Proof.
  assert (StronglySorted entry_le ses) as HS by (apply StronglySorted_merge_sort; apply _).
  assert (zlen ses < 2 ^ 32) as HL.
  { unfold ses, zlen. rewrite merge_sort_Permutation. apply (sp_len _ _ Hsp). }
  split_and!; [done..|]. intros b Hb. rewrite (sp_fanout _ _ Hsp). apply nth_lookup_Z. by apply fanout_lookup.
Qed.

Lemma lookupPos_sound k pos : lookupPos fv k = Some pos -> exists e, ses !! pos = Some e /\ ie_k e = k.
Proof.
  destruct ses_search_ctx as (HS & HL & Hf). unfold lookupPos. rewrite (sp_entries _ _ Hsp). fold ses.
  by apply searchIndexPos_found.
Qed.
Lemma lookupPos_complete e : e ∈ es -> is_Some (lookupPos fv (ie_k e)).
Proof.
  intros He. destruct ses_search_ctx as (HS & HL & Hf). unfold lookupPos. rewrite (sp_entries _ _ Hsp). fold ses.
  eapply searchIndexPos_complete; [done..| |done]. unfold ses. by rewrite merge_sort_Permutation.
Qed.

Lemma row_at e pos : ses !! pos = Some e ->
  let row := drop (pos * indexEntrySize) (entries fv) in
  be_get (slice 32 40 row) = ie_off e /\ be_get (slice 40 44 row) = ie_slen e.
Proof.
  intros He. rewrite (sp_entries _ _ Hsp). fold ses. destruct (entry_at ses pos e He) as (rest & ->).
  apply entry_fields. pose proof (sp_fits _ _ Hsp) as F. rewrite list.Forall_forall in F. apply F.
  apply list_elem_of_lookup_2 in He. unfold ses in He. by rewrite merge_sort_Permutation in He.
Qed.

Lemma lookup_sound k off slen : lookup_ fv k = Some (off, slen) -> MkIndexEntry k off slen ∈ es.
Proof.
  unfold lookup_, searchIndex. fold (lookupPos fv k).
  destruct (lookupPos fv k) as [pos|] eqn:E; [|done]. cbn [mbind option_bind]. intros [= <- <-].
  apply lookupPos_sound in E as (e & He & <-). destruct (row_at e pos He) as [-> ->].
  apply list_elem_of_lookup_2 in He. unfold ses in He. rewrite merge_sort_Permutation in He. by destruct e.
Qed.
Lemma lookup_complete e : e ∈ es -> is_Some (lookup_ fv (ie_k e)).
Proof.
  intros [pos E]%lookupPos_complete. unfold lookup_, searchIndex. fold (lookupPos fv (ie_k e)). rewrite E. by eexists.
Qed.
End Spelled.

Section Lookup.
Context (fv : footerView) (es : list indexEntry).
Hypothesis Hix : indexes fv es.
Let ses := merge_sort entry_le es.

Lemma lookupPos_Some k pos :
  lookupPos fv k = Some pos <-> exists e, ses !! pos = Some e /\ ie_k e = k.
Proof.
  pose proof (indexes_spelled _ _ Hix) as Hsp. split; [by apply lookupPos_sound|]. intros (e & He & Hk).
  assert (e ∈ es) as Hin by (apply list_elem_of_lookup_2 in He; unfold ses in He; by rewrite merge_sort_Permutation in He).
  destruct (lookupPos_complete fv es Hsp e Hin) as [pos' E]. rewrite Hk in E. rewrite E.
  destruct (lookupPos_sound fv es Hsp _ _ E) as (e' & He' & Hk').
  f_equal. eapply (distinct_pos ses); [|exact He'|exact He|congruence].
  unfold keys_distinct, ses. rewrite merge_sort_Permutation. apply (ix_distinct _ _ Hix).
Qed.

Lemma lookup_Some k off slen : lookup_ fv k = Some (off, slen) <-> MkIndexEntry k off slen ∈ es.
Proof.
  pose proof (indexes_spelled _ _ Hix) as Hsp. split; [by apply lookup_sound|]. intros Hin.
  destruct (lookup_complete fv es Hsp _ Hin) as [[off' slen'] E]. cbn [ie_k] in E. rewrite E.
  apply (lookup_sound fv es Hsp) in E. pose proof (keys_distinct_entry _ _ _ (ix_distinct _ _ Hix) E Hin eq_refl) as [= -> ->].
  done.
Qed.

Lemma lookup_None k : lookup_ fv k = None <-> forall e, e ∈ es -> ie_k e <> k.
Proof.
  split.
  - intros E [k' off slen] Hin <-. apply lookup_Some in Hin. cbn in *. congruence.
  - intros Hn. destruct (lookup_ fv k) as [[off slen]|] eqn:E; [|done].
    apply lookup_Some in E. by destruct (Hn _ E).
Qed.

Lemma lookup_filter k v : lookup_ fv k = Some v -> Contains (fv_filter fv) (filterKey k) = true.
Proof. destruct v. intros Hin%lookup_Some. apply (ix_filter _ _ Hix _ Hin). Qed.
End Lookup.

(** The filter never hides an indexed key. *)
Section SealedReads.
Context (g : sealedSegment) (es : list indexEntry).
Hypothesis Hix : indexes (sg_fv g) es.

Lemma seg_has_lookup k : seg_has g k = bool_decide (is_Some (lookup_ (sg_fv g) k)).
Proof.
  unfold seg_has, filter_has. destruct (lookup_ (sg_fv g) k) as [v|] eqn:E.
  - rewrite (lookup_filter _ _ Hix _ _ E). symmetry. by apply bool_decide_eq_true_2.
  - by destruct (Contains _ _).
Qed.
Lemma seg_locate_lookup k : seg_locate g k = fst <$> lookup_ (sg_fv g) k.
Proof.
  unfold seg_locate, filter_has. destruct (lookup_ (sg_fv g) k) as [v|] eqn:E.
  - by rewrite (lookup_filter _ _ Hix _ _ E).
  - by destruct (Contains _ _).
Qed.
Lemma seg_storedSize_lookup k : seg_storedSize g k = snd <$> lookup_ (sg_fv g) k.
Proof.
  unfold seg_storedSize, filter_has. destruct (lookup_ (sg_fv g) k) as [v|] eqn:E.
  - by rewrite (lookup_filter _ _ Hix _ _ E).
  - by destruct (Contains _ _).
Qed.
End SealedReads.

(** ** Building, then opening *)

Definition distinct_fits (es : list indexEntry) : Prop :=
  keys_distinct es /\ Forall entry_fits es /\ zlen es < 2 ^ 32.

Lemma open_built es footer body path id :
  buildFooter (zlen body) es = Ok footer -> distinct_fits es ->
  take 8 body = magicHeader -> zlen (body ++ footer) < 2 ^ 63 ->
  exists fv, openSealed path id (body ++ footer) = Ok (MkSealed path id (body ++ footer) fv) /\
  parseFooter (body ++ footer) = Ok fv /\ indexes fv es /\ fv_bodyLen fv = zlen body.
Proof.
  intros Hb (HD & HF & Hl) Hm Hfl.
  destruct (parse_built es footer body Hb Hl Hm Hfl) as (f & Hf & Hmin & E).
  eexists. unfold openSealed. destruct (Z.ltb_spec (zlen (body ++ footer)) minSegment); [lia|].
  rewrite E. cbn [mbind res_bind]. split_and!; [done|done| |done].
  split; cbn; try done. intros e He. eapply fuse_contains; [exact Hf|]. by apply tail_keys_elem.
Qed.
End FooterProofs.

(** * What an accepted footer satisfies *)

Definition tr_of (mm : bytes) : bytes := drop (length mm - Z.to_nat trailerSize) mm.
Definition fld (i j : nat) (mm : bytes) : Z := be_get (slice i j (tr_of mm)).

Record accepted (mm : bytes) (fv : footerView) : Prop := {
    ac_min : minSegment <= zlen mm;
    ac_head : take 8 mm = magicHeader;
    ac_magic : slice 56 64 (tr_of mm) = magicTrailer;
    ac_pad : fld 52 56 mm = 0;
    ac_body : zlen magicHeader <= fld 40 48 mm < zlen mm;
    ac_count : fld 32 40 mm <= MaxUint32;
    ac_ioff : fld 0 8 mm = u64 (fld 40 48 mm + 1);
    ac_ilen : fld 8 16 mm = fanoutSize + fld 32 40 mm * Z.of_nat indexEntrySize;
    ac_foff : fld 16 24 mm = u64 (fld 0 8 mm + fld 8 16 mm);
    ac_fend : fld 16 24 mm <= zlen mm - trailerSize;
    ac_flen : fld 24 32 mm = zlen mm - trailerSize - fld 16 24 mm;
    ac_crc : crc_checksum (slice (Z.to_nat (fld 40 48 mm)) (length mm - 16) mm) = fld 48 52 mm;
    ac_tag : byte_at mm (Z.to_nat (fld 40 48 mm)) = tagSeal;
    ac_index : parseIndexSection
      (slice (Z.to_nat (fld 0 8 mm)) (Z.to_nat (fld 0 8 mm + fld 8 16 mm)) mm) (fld 32 40 mm) =
    Ok (fanout fv, entries fv);
    ac_filter : parseFilterSection
      (slice (Z.to_nat (fld 16 24 mm)) (Z.to_nat (fld 16 24 mm + fld 24 32 mm)) mm) = Ok (fv_filter fv);
    ac_view : keyCount fv = fld 32 40 mm /\ fv_bodyLen fv = fld 40 48 mm /\
    fv_indexOff fv = fld 0 8 mm /\ fv_indexLen fv = fld 8 16 mm
  }.

Lemma parseFooter_accepted mm fv : parseFooter mm = Ok fv -> accepted mm fv.
Proof.
  unfold parseFooter. fold (tr_of mm). change (take 8 mm) with (take 8 mm). cbv zeta.
  fold (fld 0 8 mm) (fld 8 16 mm) (fld 16 24 mm) (fld 24 32 mm) (fld 32 40 mm) (fld 40 48 mm)
    (fld 48 52 mm) (fld 52 56 mm).
  intros H. do 7 (guard_in H; [done|]).
  apply res_bind_Ok in H as ([fo es] & HI & H). apply res_bind_Ok in H as (f & HF & [= <-]).
  apply negb_false_iff in E0, E1, E2, E4, E5.
  repeat match goal with HO : _ || _ = false |- _ => apply orb_false_iff in HO as [HO ?] end.
  repeat match goal with HO : negb _ = false |- _ => apply negb_false_iff in HO end.
  apply bool_decide_eq_true in E0, E1, E5.
  constructor; cbn [fanout entries fv_filter keyCount fv_bodyLen fv_indexOff fv_indexLen]; try done; try lia.
  replace (length mm - 16)%nat with (Z.to_nat (zlen mm - 16)) by (unfold zlen; lia). lia.
Qed.

Lemma parseIndexSection_Ok b kc fo es :
  parseIndexSection b kc = Ok (fo, es) -> 0 <= kc ->
  length fo = 256%nat /\ StronglySorted Z.le (0 :: fo) /\ nth 255 fo 0 = kc /\ kc <= MaxUint32 /\
  zlen es = kc * Z.of_nat indexEntrySize.
Proof.
  unfold parseIndexSection. intros H Hk. do 2 (guard_in H; [done|]).
  apply res_bind_Ok in H as (fanout & HF & H). guard_in H; [done|]. injection H as <- <-.
  apply parse_fanout_sorted in HF as [HL HS].
  apply negb_false_iff, Z.eqb_eq in E0, E1.
  split_and!; [done..|lia|].
  unfold u64, fanoutSize, indexEntrySize, MaxUint32 in *. rewrite Z.mod_small in E0 by lia.
  unfold zlen in *. rewrite length_drop. change (Z.to_nat (256 * 4)) with 1024%nat. lia.
Qed.

Lemma sorted_nth l i j : StronglySorted Z.le l -> (i <= j < length l)%nat -> nth i l 0 <= nth j l 0.
Proof.
  intros HS. revert i j. induction HS as [|x l HS IH HF]; intros i j Hij; [cbn in Hij; lia|].
  destruct j as [|j]; [by replace i with 0%nat by lia|]. cbn in Hij.
  destruct i as [|i]; [|cbn; apply IH; lia]. cbn.
  rewrite list.Forall_forall in HF. apply HF, list_elem_of_In, nth_In. lia.
Qed.

(** The rows a search may touch. *)
Definition probe_range (fo : list Z) (k : Key) : Z * Z :=
  let b := Z.to_nat (lastb k) in
  (match b with O => 0 | S b' => nth b' fo 0 end, nth b fo 0).

Lemma probe_in_table fo k :
  length fo = 256%nat -> StronglySorted Z.le (0 :: fo) ->
  0 <= fst (probe_range fo k) <= snd (probe_range fo k) /\ snd (probe_range fo k) <= nth 255 fo 0.
Proof.
  intros HL HS. unfold probe_range. pose proof (lastb_range k) as Hb.
  set (b := Z.to_nat (lastb k)). assert (b < 256)%nat as Hb' by lia. clearbody b. cbn [fst snd].
  assert (forall i j, (i <= j < 256)%nat -> nth i fo 0 <= nth j fo 0) as Mono.
  { intros i j Hij. apply (sorted_nth (0 :: fo) (S i) (S j) HS). cbn. lia. }
  assert (forall j, (j < 256)%nat -> 0 <= nth j fo 0) as Pos.
  { intros j Hj. apply (sorted_nth (0 :: fo) 0 (S j) HS). cbn. lia. }
  split; [|apply Mono; lia]. destruct b as [|b']; [split; [lia|apply Pos; lia]|].
  split; [apply Pos; lia|apply Mono; lia].
Qed.

Lemma parseFilterSection_geometry b f :
  parseFilterSection b = Ok f ->
  0 < SegmentCount f /\ SegmentLength f <> 0 /\
  Z.land (SegmentLength f) (SegmentLength f - 1) = 0 /\ SegmentLengthMask f = SegmentLength f - 1 /\
  SegmentCountLength f = SegmentCount f * SegmentLength f /\
  zlen (Fingerprints f) = SegmentCountLength f + 2 * SegmentLength f.
Proof.
  unfold parseFilterSection. intros H. repeat (guard_in H; [done|]). injection H as <-. cbn -[slice be_get].
  repeat match goal with HO : _ || _ = false |- _ => apply orb_false_iff in HO as [HO ?] end.
  repeat match goal with HO : negb _ = false |- _ => apply negb_false_iff in HO end.
  pose proof (be_get_range (slice 9 13 b)) as R. pose proof (be_get_range (slice 17 21 b)).
  assert (length (slice 9 13 b) <= 4)%nat as L by (unfold slice; rewrite length_take; lia).
  assert (256 ^ zlen (slice 9 13 b) <= 2 ^ 32).
  { change (2 ^ 32) with (256 ^ 4). apply Z.pow_le_mono_r; unfold zlen; lia. }
  assert (u32 (be_get (slice 9 13 b) - 1) = be_get (slice 9 13 b) - 1) as U.
  { unfold u32. apply Z.mod_small. unfold zlen in *. lia. }
  rewrite U in *.
  assert (forall n bs, length (read_u16s n bs) = n) as RL
    by (induction n as [|n IH]; intros bs; cbn; [done|by rewrite IH]).
  assert (zlen (read_u16s (Z.to_nat (be_get (slice 25 29 b))) (drop 29 b)) = be_get (slice 25 29 b)) as ->.
  { unfold zlen. rewrite RL. pose proof (be_get_range (slice 25 29 b)). lia. }
  lia.
Qed.

(** ** One changed byte *)

Lemma slice_insert_ne {A} (l : list A) i j n (x v : A) :
  (i <= n < j)%nat -> (j <= length l)%nat -> l !! n = Some v -> x <> v ->
  slice i j (<[n:=x]> l) <> slice i j l.
Proof.
  intros Hn Hj Hv Hx E. apply (f_equal (fun l => l !! (n - i)%nat)) in E. unfold slice in E.
  rewrite !lookup_take_lt, !lookup_drop in E by lia.
  replace (i + (n - i))%nat with n in E by lia.
  rewrite list_lookup_insert_eq, Hv in E by lia. congruence.
Qed.

Lemma be_slice_insert_ne l i j n x v :
  (i <= n < j)%nat -> (j <= length l)%nat -> l !! n = Some v -> x <> v ->
  be_get (slice i j (<[n:=x]> l)) <> be_get (slice i j l).
Proof.
  intros Hn Hj Hv Hx E. apply be_get_inj in E.
  - by eapply slice_insert_ne in E.
  - rewrite !length_slice; rewrite ?length_insert; lia.
Qed.

Section Flip.
Context (mm : bytes) (n : nat) (x v : byte) (fv fv' : footerView).
Let mm' := <[n:=x]> mm.
Hypothesis A : accepted mm fv.
Hypothesis A' : accepted mm' fv'.
Hypothesis Hv : mm !! n = Some v.
Hypothesis Hx : x <> v.
Let T := (length mm - 64)%nat.

Lemma flip_len : (64 <= length mm)%nat /\ length mm' = length mm /\ zlen mm' = zlen mm.
Proof.
  pose proof (ac_min _ _ A) as M. unfold minSegment, fanoutSize, filterHeaderSize, trailerSize, zlen in M.
  assert (length mm' = length mm) as L by apply length_insert.
  split_and!; [lia|done|]. unfold zlen. by rewrite L.
Qed.
Lemma fld_slice i j m : length m = length mm -> fld i j m = be_get (slice (T + i) (T + j) m).
Proof.
  intros L. unfold fld, tr_of, T, slice. rewrite L, drop_drop. change (Z.to_nat trailerSize) with 64%nat.
  by replace (length mm - 64 + j - (length mm - 64 + i))%nat with (j - i)%nat by lia.
Qed.
Lemma fld_same i j : (n < T + i \/ T + j <= n)%nat -> fld i j mm' = fld i j mm.
Proof.
  intros Hn. rewrite !fld_slice by (done || apply flip_len). unfold mm'. by rewrite slice_insert_out.
Qed.
Lemma fld_differs i j : (T + i <= n < T + j)%nat -> (j <= 64)%nat -> fld i j mm' <> fld i j mm.
Proof.
  intros Hn Hj. destruct flip_len as (L & L' & _). rewrite !fld_slice by done. unfold mm'.
  eapply be_slice_insert_ne; [exact Hn|unfold T; lia|exact Hv|exact Hx].
Qed.
Lemma fld_range i j m : (j - i <= 8)%nat -> 0 <= fld i j m < 2 ^ 64.
Proof.
  intros Hij. pose proof (be_get_range (slice i j (tr_of m))) as R.
  assert (length (slice i j (tr_of m)) <= 8)%nat by (unfold slice; rewrite length_take; lia).
  assert (256 ^ zlen (slice i j (tr_of m)) <= 256 ^ 8) by (apply Z.pow_le_mono_r; unfold zlen; lia).
  change (2 ^ 64) with (256 ^ 8). unfold fld. lia.
Qed.

Lemma fields_agree : (n < T + 48)%nat ->
  fld 0 8 mm' = fld 0 8 mm /\ fld 8 16 mm' = fld 8 16 mm /\ fld 16 24 mm' = fld 16 24 mm /\
  fld 24 32 mm' = fld 24 32 mm /\ fld 32 40 mm' = fld 32 40 mm /\ fld 40 48 mm' = fld 40 48 mm ->
  (n < T)%nat.
Proof.
  intros Hn (E0 & E1 & E2 & E3 & E4 & E5). destruct (decide (n < T)%nat) as [|Hge]; [done|exfalso].
  destruct (decide (n < T + 8)%nat); [apply (fld_differs 0 8); [lia|lia|done]|].
  destruct (decide (n < T + 16)%nat); [apply (fld_differs 8 16); [lia|lia|done]|].
  destruct (decide (n < T + 24)%nat); [apply (fld_differs 16 24); [lia|lia|done]|].
  destruct (decide (n < T + 32)%nat); [apply (fld_differs 24 32); [lia|lia|done]|].
  destruct (decide (n < T + 40)%nat); [apply (fld_differs 32 40); [lia|lia|done]|].
  apply (fld_differs 40 48); [lia|lia|done].
Qed.

(** The equations between the trailer's fields fix each of them from the others. *)
Lemma fields_forced :
  fld 0 8 mm' = fld 0 8 mm /\ fld 8 16 mm' = fld 8 16 mm /\ fld 16 24 mm' = fld 16 24 mm /\
  fld 24 32 mm' = fld 24 32 mm /\ fld 32 40 mm' = fld 32 40 mm /\ fld 40 48 mm' = fld 40 48 mm.
Proof.
  destruct flip_len as (_ & _ & LZ).
  pose proof (ac_ioff _ _ A) as I. pose proof (ac_ioff _ _ A') as I'.
  pose proof (ac_ilen _ _ A) as J. pose proof (ac_ilen _ _ A') as J'.
  pose proof (ac_foff _ _ A) as K. pose proof (ac_foff _ _ A') as K'.
  pose proof (ac_flen _ _ A) as L. pose proof (ac_flen _ _ A') as L'. rewrite LZ in L'.
  pose proof (fld_range 40 48 mm ltac:(lia)). pose proof (fld_range 40 48 mm' ltac:(lia)).
  assert (fld 0 8 mm' = fld 0 8 mm -> fld 40 48 mm' = fld 40 48 mm) as U.
  { intros E. rewrite E, I in I'. unfold u64 in I'.
    destruct (decide (fld 40 48 mm + 1 = 2 ^ 64)) as [E1|], (decide (fld 40 48 mm' + 1 = 2 ^ 64)) as [E2|];
    rewrite ?E1, ?E2 in I'; rewrite ?Z_mod_same_full in I'; rewrite ?Z.mod_small in I' by lia; lia. }
  destruct (decide (T + 8 <= n)%nat) as [H8|H8].
  - pose proof (fld_same 0 8 ltac:(lia)) as E0. pose proof (U E0) as E5.
    destruct (decide (n < T + 16 \/ T + 40 <= n)%nat) as [H16|H16].
    + pose proof (fld_same 32 40 ltac:(lia)) as E4.
      assert (fld 8 16 mm' = fld 8 16 mm) as E1 by congruence. split_and!; congruence || lia.
    + pose proof (fld_same 8 16 ltac:(lia)) as E1.
      assert (fld 32 40 mm' = fld 32 40 mm) as E4 by (unfold indexEntrySize in *; lia).
      split_and!; congruence || lia.
  - pose proof (fld_same 40 48 ltac:(lia)) as E5. pose proof (fld_same 8 16 ltac:(lia)) as E1.
    pose proof (fld_same 32 40 ltac:(lia)) as E4.
    assert (fld 0 8 mm' = fld 0 8 mm) as E0 by congruence. split_and!; congruence || lia.
Qed.

Lemma flip_impossible : (Z.to_nat (fld 40 48 mm) <= n)%nat -> False.
Proof.
  intros Hn. destruct flip_len as (L64 & L & LZ). pose proof (lookup_lt_Some _ _ _ Hv) as Hlt.
  destruct fields_forced as (E0 & E1 & E2 & E3 & E4 & E5).
  pose proof (ac_crc _ _ A) as C. pose proof (ac_crc _ _ A') as C'. rewrite L, E5 in C'.
  pose proof (ac_body _ _ A) as B.
  destruct (decide (n < length mm - 16)%nat) as [Hc|Hc].
  - rewrite (fld_same 48 52) in C' by (unfold T; lia). rewrite <- C in C'.
    set (b := Z.to_nat (fld 40 48 mm)) in *.
    assert (slice b (length mm - 16) mm' = <[(n - b)%nat:=x]> (slice b (length mm - 16) mm)) as ES.
    { unfold mm', slice. rewrite drop_insert_ge by lia. by rewrite take_insert_lt by lia. }
    rewrite ES in C'. eapply crc_insert; [|exact Hx|exact C'].
    unfold slice. rewrite lookup_take_lt, lookup_drop by lia. by replace (b + (n - b))%nat with n by lia.
  - destruct (decide (n < T + 52)%nat) as [H1|H1].
    + apply (fld_differs 48 52); [unfold T in *; lia|lia|]. rewrite <- C', <- C. f_equal.
      unfold mm'. by rewrite slice_insert_out by lia.
    + destruct (decide (n < T + 56)%nat) as [H2|H2].
      * apply (fld_differs 52 56); [lia|lia|]. by rewrite (ac_pad _ _ A), (ac_pad _ _ A').
      * apply (fld_differs 56 64); [unfold T in *; lia|lia|]. unfold fld.
        by rewrite (ac_magic _ _ A), (ac_magic _ _ A').
Qed.
End Flip.

(** * Properties *)

(** C34. A sealed segment answers for its records: the body followed by the footer that
    [buildFooter] makes from the entries of the active index - at most 2^32 of them, under
    distinct keys - opens, and then [has], [locate], [storedSize] and [getRecord] return
    exactly what the entries say, for every key. *)
Theorem sealed_segment_reads `{FuseOk} path id body es footer :
  buildFooter (zlen body) es = Ok footer -> distinct_fits es ->
  take 8 body = magicHeader -> zlen (body ++ footer) < 2 ^ 63 ->
  exists g, openSealed path id (body ++ footer) = Ok g /\
    (forall k, seg_has g k = bool_decide (k ∈ map ie_k es)) /\
    (forall k off slen, MkIndexEntry k off slen ∈ es ->
       seg_locate g k = Some off /\ seg_storedSize g k = Some slen /\
       (8 <= off -> off + Z.of_nat RecHeaderSize + slen <= zlen body ->
        seg_getRecord g k =
        Ok (Some (slice (Z.to_nat off) (Z.to_nat off + RecHeaderSize + Z.to_nat slen) body)))) /\
    (forall k, k ∉ map ie_k es -> seg_locate g k = None /\ seg_storedSize g k = None /\
       seg_getRecord g k = Ok None).
Proof.
  intros Hb HD Hm Hl. destruct (open_built es footer body path id Hb HD Hm Hl) as (fv & HO & _ & Hix & HB).
  eexists; split; [exact HO|]. set (g := MkSealed path id (body ++ footer) fv).
  assert (forall k, k ∈ map ie_k es <-> exists off slen, lookup_ fv k = Some (off, slen)) as K.
  { intros k. split.
    - intros ([k' off slen] & -> & Hin)%list_elem_of_fmap. exists off, slen. by apply (lookup_Some _ _ Hix).
    - intros (off & slen & Hin%(lookup_Some _ _ Hix)). by apply (list_elem_of_fmap_2 ie_k) in Hin. }
  split_and!.
  - intros k. rewrite (seg_has_lookup g es Hix). apply bool_decide_ext. cbn [sg_fv g]. rewrite K.
    split; [intros [[off slen] E]; eauto|intros (off & slen & ->); eauto].
  - intros k off slen Hin. apply (lookup_Some _ _ Hix) in Hin as E.
    rewrite (seg_locate_lookup g es Hix), (seg_storedSize_lookup g es Hix). cbn [sg_fv g]. rewrite E.
    split_and!; [done..|]. intros H8 Hend. unfold seg_getRecord, filter_has. cbn [sg_fv g].
    rewrite (lookup_filter _ _ Hix _ _ E), E. cbn [negb].
    unfold seg_bounds. cbn [sg_fv g]. rewrite HB. change (zlen magicHeader) with 8.
    pose proof (proj1 (proj2 HD)) as F. rewrite list.Forall_forall in F. destruct (F _ Hin) as [F1 F2].
    cbn [ie_off ie_slen] in F1, F2.
    rewrite (proj2 (Z.ltb_ge off 8)), (proj2 (Z.ltb_ge (zlen body) off)) by (unfold RecHeaderSize in *; lia).
    rewrite (proj2 (Z.ltb_ge (zlen body - off) _)) by lia. cbn [orb negb sg_mm g].
    do 2 f_equal. apply slice_prefix; unfold zlen, RecHeaderSize in *; lia.
  - intros k Hn. assert (lookup_ fv k = None) as E.
    { destruct (lookup_ fv k) as [[off slen]|] eqn:E; [|done]. destruct Hn. apply K. eauto. }
    rewrite (seg_locate_lookup g es Hix), (seg_storedSize_lookup g es Hix). unfold seg_getRecord. cbn [sg_fv g].
    rewrite E. split_and!; [done..|]. by destruct (filter_has g k).
Qed.

Definition sample_body : bytes := magicHeader ++ rec_bytes sample_key x00 3 [x61; x62; x63].
Definition sample_entries : list indexEntry := [MkIndexEntry sample_key 8 3].
Lemma sealed_segment_reads_witness :
  exists footer g, openSealed [] 1 (sample_body ++ footer) = Ok g /\
    seg_has g sample_key = true /\ seg_locate g sample_key = Some 8.
Proof.
  destruct (buildFooter (zlen sample_body) sample_entries) as [footer|] eqn:E; [|by vm_compute in E].
  assert (distinct_fits sample_entries) as HD.
  { split_and!; [apply list.NoDup_singleton| |done]. by repeat constructor. }
  assert (zlen (sample_body ++ footer) < 2 ^ 63) as HL.
  { vm_compute in E. injection E as <-. vm_compute. reflexivity. }
  destruct (sealed_segment_reads [] 1 sample_body sample_entries footer E HD eq_refl HL) as (g & HO & Hh & Hl & _).
  exists footer, g. split; [exact HO|]. split.
  - rewrite Hh. by apply bool_decide_eq_true_2, list_elem_of_singleton.
  - apply (Hl sample_key 8 3). by apply list_elem_of_singleton.
Defined.

Lemma entries_sort_order es es' :
  keys_distinct es -> es ≡ₚ es' -> merge_sort entry_le es = merge_sort entry_le es'.
Proof.
  intros ND HP. apply (StronglySorted_unique_strong entry_le); try (apply StronglySorted_merge_sort; apply _).
  - intros a b Ha Hb L1 L2. rewrite merge_sort_Permutation in Ha, Hb. rewrite <- HP in Hb.
    eapply keys_distinct_entry; [exact ND|done..|].
    apply entry_le_iff in L1 as [?|[? L1]], L2 as [?|[? L2]]; try lia. by apply b32_eq, (anti_symm bytes_le).
  - by rewrite !merge_sort_Permutation.
Qed.

(** Sealing does not depend on the order in which Go ranges over the active index: two
    orders of the same entries give the same footer. *)
Theorem seal_order_irrelevant `{Fuse} bodyLen es es' :
  keys_distinct es -> es ≡ₚ es' -> buildFooter bodyLen es = buildFooter bodyLen es'.
Proof.
  intros ND HP.
  pose proof (entries_sort_order es es' ND HP) as ES.
  assert (tail_keys es = tail_keys es') as ET.
  { unfold tail_keys. f_equal. apply (StronglySorted_unique Z.le).
    1, 2: apply StronglySorted_merge_sort; apply _.
    rewrite !merge_sort_Permutation. by apply Permutation_map. }
  unfold buildFooter, buildIndexSection, buildFilterSection, zlen.
  by rewrite ES, ET, (Permutation_length HP).
Qed.
Lemma seal_order_irrelevant_witness :
  buildFooter 100 [MkIndexEntry sample_key 8 3; MkIndexEntry (mk32 []) 60 3] =
  buildFooter 100 [MkIndexEntry (mk32 []) 60 3; MkIndexEntry sample_key 8 3].
Proof.
  apply (seal_order_irrelevant 100).
  - unfold keys_distinct. apply (bool_decide_unpack _). vm_compute. exact I.
  - apply Permutation_swap.
Defined.

(** C35. No read of a segment leaves its mapping: whatever bytes [parseFooter] accepted, every
    row that the search for any key probes lies inside the index, a position it returns is
    below the key count, and an entry that passes the bounds check lies inside the body, which
    lies inside the file. The filter's geometry is the one its lookups divide by. *)
Theorem parsed_footer_safe `{Fuse} mm fv :
  parseFooter mm = Ok fv ->
  zlen (entries fv) = keyCount fv * Z.of_nat indexEntrySize /\
  (forall k, 0 <= fst (probe_range (fanout fv) k) /\
     fst (probe_range (fanout fv) k) <= snd (probe_range (fanout fv) k) <= keyCount fv) /\
  (forall k pos, lookupPos fv k = Some pos -> Z.of_nat pos < keyCount fv) /\
  (forall path id off slen, seg_bounds (MkSealed path id mm fv) off slen = true -> 0 <= slen ->
     8 <= off /\ off + Z.of_nat RecHeaderSize + slen <= fv_bodyLen fv < zlen mm) /\
  (let f := fv_filter fv in
    0 < SegmentCount f /\ SegmentLength f <> 0 /\ Z.land (SegmentLength f) (SegmentLength f - 1) = 0 /\
    zlen (Fingerprints f) = SegmentCount f * SegmentLength f + 2 * SegmentLength f).
Proof.
  intros A%parseFooter_accepted. destruct (ac_view _ _ A) as (VK & VB & _).
  assert (0 <= fld 32 40 mm) as Pos by (unfold fld; apply be_get_range).
  destruct (parseIndexSection_Ok _ _ _ _ (ac_index _ _ A) Pos) as (HL & HS & H255 & Hmax & HE).
  assert (forall k, 0 <= fst (probe_range (fanout fv) k) /\
     fst (probe_range (fanout fv) k) <= snd (probe_range (fanout fv) k) <= keyCount fv) as PR.
  { intros k. pose proof (probe_in_table _ k HL HS). rewrite H255 in *. lia. }
  split_and!.
  - by rewrite VK.
  - apply PR.
  - intros k pos E. specialize (PR k). unfold lookupPos, searchIndexPos in E.
    change (match Z.to_nat (lastb k) with O => 0 | S b' => nth b' (fanout fv) 0 end) with
      (fst (probe_range (fanout fv) k)) in E.
    change (nth (Z.to_nat (lastb k)) (fanout fv) 0) with (snd (probe_range (fanout fv) k)) in E.
    set (lo := fst _) in *. set (hi := snd _) in *. clearbody lo hi.
    set (i := sort_search _ _) in *. clearbody i.
    destruct (Nat.leb_spec (Z.to_nat (u32 (hi - lo))) i) as [|Hi]; [done|].
    case_bool_decide; [|done]. injection E as <-. unfold MaxUint32 in Hmax.
    unfold u32 in *. rewrite Z.mod_small in Hi by lia. lia.
  - intros path id off slen HB Hs. unfold seg_bounds in HB. cbn [sg_fv] in HB.
    pose proof (ac_body _ _ A) as B. change (zlen magicHeader) with 8 in *. cbv zeta in HB. rewrite <- VB in B.
    apply negb_true_iff, orb_false_iff in HB as [HB H3]. apply orb_false_iff in HB as [H1 H2].
    unfold RecHeaderSize in *. apply Z.ltb_ge in H1, H2, H3. split; [exact H1|]. split; [lia|]. apply B.
  - destruct (parseFilterSection_geometry _ _ (ac_filter _ _ A)) as (? & ? & ? & ? & Es & ?). cbv zeta.
    split_and!; try done. by rewrite <- Es.
Qed.
Definition sample_segment : bytes :=
  match buildFooter (zlen sample_body) sample_entries with Ok f => sample_body ++ f | Err _ => [] end.
Lemma parsed_footer_safe_witness :
  exists fv, parseFooter sample_segment = Ok fv /\ zlen (entries fv) = 44.
Proof.
  destruct (parseFooter sample_segment) as [fv|] eqn:E; [|by vm_compute in E].
  exists fv. split; [done|]. destruct (parsed_footer_safe _ _ E) as [-> _].
  assert (keyCount fv = 1) as ->; [|done]. vm_compute in E. by injection E as <-.
Defined.

(** A byte of a footer that changed on disk is noticed when the segment is opened: a
    segment that opens does not open with any single byte at or after the end of its body
    replaced by another. *)
Theorem footer_corruption_detected `{Fuse} path id mm g n v x :
  openSealed path id mm = Ok g -> fv_bodyLen (sg_fv g) <= Z.of_nat n -> mm !! n = Some v -> x <> v ->
  exists e, openSealed path id (<[n:=x]> mm) = Err e.
Proof.
  unfold openSealed. intros HO Hn Hv Hx.
  destruct (_ <? minSegment); [done|]. apply res_bind_Ok in HO as (fv & HF & [= <-]). cbn [sg_fv] in Hn.
  destruct (_ <? minSegment); [by eexists|].
  destruct (parseFooter (<[n:=x]> mm)) as [fv'|e] eqn:E; [exfalso|by eexists].
  apply parseFooter_accepted in HF, E. destruct (ac_view _ _ HF) as (_ & VB & _). rewrite VB in Hn.
  eapply flip_impossible; [exact HF|exact E|exact Hv|exact Hx|lia].
Qed.
Lemma footer_corruption_detected_witness :
  exists g e, openSealed [] 1 sample_segment = Ok g /\ openSealed [] 1 (<[70%nat:=xff]> sample_segment) = Err e.
Proof.
  destruct (openSealed [] 1 sample_segment) as [g|] eqn:E; [|by vm_compute in E].
  exists g. destruct (footer_corruption_detected [] 1 sample_segment g 70 x00 xff E) as [e He].
  - vm_compute in E. injection E as <-. vm_compute. discriminate.
  - vm_compute. reflexivity.
  - discriminate.
  - exists e. split; [done|exact He].
Defined.
