(* ===== verification/Disk.v ===== *)
(** The store directory as package os shows it to packstore: names, files, the part of a
    file a successful fsync has made durable, and the answers of the operating system. A
    list of faults decides which calls fail: a faulty call returns an error and has done
    none, some or all of its work. The names of segment files and their parser
    (src/packstore/packstore.go) are here as well. *)
From S2P Require Import Prelude External Key.

(** ** Files and names *)

Record file := MkFile { f_data : bytes; f_synced : nat }.
Record Disk := MkDisk {
    names : gmap bytes nat;      (* directory entries, by inode *)
    inodes : gmap nat file;      (* an unlinked file stays while a descriptor is open *)
    next_ino : nat;
    faults : list (option nat)   (* one answer per call; none left: no more faults *)
  }.

Definition EIO : etag := EExt "input/output error".
Definition EEXIST : etag := EExt "file exists".

Definition set_faults (fs : list (option nat)) (d : Disk) : Disk :=
  MkDisk (names d) (inodes d) (next_ino d) fs.
Definition set_names (ns : gmap bytes nat) (d : Disk) : Disk :=
  MkDisk ns (inodes d) (next_ino d) (faults d).
Definition set_file (i : nat) (f : file) (d : Disk) : Disk :=
  MkDisk (names d) (<[i:=f]> (inodes d)) (next_ino d) (faults d).

Definition file_of (d : Disk) (i : nat) : file := default (MkFile [] 0) (inodes d !! i).
Definition data_of (d : Disk) (i : nat) : bytes := f_data (file_of d i).

(** One system call: [run] when it succeeds, [torn n] for a failure after [n] units of work. *)
Definition attempt {A} (run : M Disk A) (torn : nat -> Disk -> Disk) : M Disk A := fun d =>
  match faults d with
  | [] => run d
  | None :: fs => run (set_faults fs d)
  | Some n :: fs => (Err [EIO], torn n (set_faults fs d))
  end.
Definition keep (n : nat) (d : Disk) : Disk := d.
(** All or nothing, and an error either way. *)
Definition maybe (f : Disk -> Disk) (n : nat) (d : Disk) : Disk := match n with O => d | S _ => f d end.

(** ** Calls on descriptors *)

Definition write_at (b : bytes) (off : nat) (p : bytes) : bytes :=
  take off (b ++ replicate (off - length b) x00) ++ p ++ drop (off + length p) b.
Definition truncate_to (b : bytes) (n : nat) : bytes := take n (b ++ replicate (n - length b) x00).

Definition do_write (i : nat) (p : bytes) (off : Z) (d : Disk) : Disk :=
  let f := file_of d i in
  set_file i (MkFile (write_at (f_data f) (Z.to_nat off) p) (min (f_synced f) (Z.to_nat off))) d.
Definition WriteAt (i : nat) (p : bytes) (off : Z) : M Disk unit :=
  attempt (modify (do_write i p off)) (fun n => do_write i (take n p) off).

Definition do_truncate (i : nat) (size : Z) (d : Disk) : Disk :=
  let f := file_of d i in
  set_file i (MkFile (truncate_to (f_data f) (Z.to_nat size)) (min (f_synced f) (Z.to_nat size))) d.
Definition Truncate (i : nat) (size : Z) : M Disk unit :=
  attempt (modify (do_truncate i size)) (maybe (do_truncate i size)).

Definition do_sync (i : nat) (d : Disk) : Disk :=
  let f := file_of d i in set_file i (MkFile (f_data f) (length (f_data f))) d.
Definition Sync (i : nat) : M Disk unit := attempt (modify (do_sync i)) keep.

Definition ReadAt (i : nat) (len : nat) (off : Z) : M Disk bytes :=
  attempt (fun d =>
    let b := slice (Z.to_nat off) (Z.to_nat off + len) (data_of d i) in
    if (length b =? len)%nat then (Ok b, d) else (Err [EOF], d)) keep.

(** [f.Close], [dirF.Sync], [dirF.Close]. *)
Definition CloseFd : M Disk unit := attempt (mret tt) keep.
Definition SyncDir : M Disk unit := attempt (mret tt) keep.

(** ** Calls on names *)

Definition do_create (path : bytes) (d : Disk) : Disk :=
  MkDisk (<[path:=next_ino d]> (names d)) (<[next_ino d:=MkFile [] 0]> (inodes d)) (S (next_ino d)) (faults d).
(** [os.OpenFile] with [O_CREATE|O_EXCL]. *)
Definition CreateExcl (path : bytes) : M Disk nat :=
  attempt (fun d => match names d !! path with
                    | Some _ => (Err [EEXIST], d)
                    | None => (Ok (next_ino d), do_create path d)
                    end) keep.
Definition OpenFile (path : bytes) : M Disk nat :=
  attempt (fun d => match names d !! path with
                    | Some i => (Ok i, d)
                    | None => (Err [ErrNotExist], d)
                    end) keep.
(** [os.ReadFile], and the mapping of a file opened for reading. *)
Definition ReadWhole (path : bytes) : M Disk bytes :=
  attempt (fun d => match names d !! path with
                    | Some i => (Ok (data_of d i), d)
                    | None => (Err [ErrNotExist], d)
                    end) keep.

Definition do_remove (path : bytes) (d : Disk) : Disk := set_names (delete path (names d)) d.
Definition RemoveFile (path : bytes) : M Disk unit :=
  attempt (fun d => match names d !! path with
                    | Some _ => (Ok tt, do_remove path d)
                    | None => (Err [ErrNotExist], d)
                    end) (maybe (do_remove path)).

Definition do_rename (old new : bytes) (d : Disk) : Disk :=
  match names d !! old with
  | Some i => set_names (<[new:=i]> (delete old (names d))) d
  | None => d
  end.
Definition Rename (old new : bytes) : M Disk unit :=
  attempt (fun d => match names d !! old with
                    | Some _ => (Ok tt, do_rename old new d)
                    | None => (Err [ErrNotExist], d)
                    end) (maybe (do_rename old new)).

(** [os.ReadDir]: the names in byte order. *)
Definition dir_names (d : Disk) : list bytes := merge_sort bytes_le (elements (dom (names d))).
Definition ReadDirNames : M Disk (list bytes) := attempt (gets dir_names) keep.

(** ** Segment file names (packstore.go) *)

Definition sealedSuffix : bytes := [x2e; x73; x65; x67].                                (* ".seg" *)
Definition dotActive : bytes := [x2e; x61; x63; x74; x69; x76; x65].                    (* ".active" *)
Definition activeSuffix : bytes := sealedSuffix ++ dotActive.

Definition HasSuffix (s sfx : bytes) : bool :=
  bool_decide (length sfx <= length s)%nat && bool_decide (drop (length s - length sfx) s = sfx).
Definition TrimSuffix (s sfx : bytes) : bytes :=
  if HasSuffix s sfx then take (length s - length sfx) s else s.

(** [fmt.Sprintf("%016x%s", id, suffix)] *)
Definition segName (id : Z) (suffix : bytes) : bytes := hexEncode (be_put 8 id) ++ suffix.

(** [strconv.ParseUint(s, 16, 64)] *)
Fixpoint hex_value (acc : Z) (s : bytes) : option Z :=
  match s with
  | [] => Some acc
  | c :: s' => v ← fromHexChar c; hex_value (acc * 16 + v) s'
  end.
Definition ParseUint (s : bytes) : option Z :=
  match s with
  | [] => None
  | _ => v ← hex_value 0 s; if v <? 2 ^ 64 then Some v else None
  end.

Definition parseSegmentID (name suffix : bytes) : res Z :=
  let hex := TrimSuffix name suffix in
  match ParseUint hex with
  | Some id => if negb (length hex =? 16)%nat then Err [ErrCorrupt] else Ok id
  | None => Err [ErrCorrupt]
  end.

(** * Names and their parser *)

Lemma HasSuffix_app s sfx : HasSuffix (s ++ sfx) sfx = true.
Proof.
  unfold HasSuffix. rewrite length_app. rewrite bool_decide_eq_true_2 by lia.
  replace (length s + length sfx - length sfx)%nat with (length s) by lia.
  by rewrite drop_app_length, bool_decide_eq_true_2.
Qed.
Lemma TrimSuffix_app s sfx : TrimSuffix (s ++ sfx) sfx = s.
Proof.
  unfold TrimSuffix. rewrite HasSuffix_app, length_app.
  replace (length s + length sfx - length sfx)%nat with (length s) by lia. apply take_app_length.
Qed.
Lemma HasSuffix_inv s sfx : HasSuffix s sfx = true -> exists p, s = p ++ sfx.
Proof.
  unfold HasSuffix. intros [_ E%bool_decide_eq_true]%andb_true_iff.
  exists (take (length s - length sfx) s). by rewrite <- E at 2; rewrite take_drop.
Qed.

Lemma fromHexChar_hexdigit v : 0 <= v < 16 -> fromHexChar (hexdigit v) = Some v.
Proof.
  intros Hv. assert (v ∈ seqZ 0 16) as Hin by (apply elem_of_seqZ; lia). vm_compute in Hin.
  repeat (apply elem_of_cons in Hin as [->|Hin]; [done|]). by apply elem_of_nil in Hin.
Qed.

Lemma hex_value_encode b acc rest :
  hex_value acc (hexEncode b ++ rest) = hex_value (fold_left (fun a c => a * 256 + u8 c) b acc) rest.
Proof.
  revert acc. induction b as [|c b IH]; intros acc; [done|].
  unfold hexEncode. cbn [flat_map app hex_value]. fold (hexEncode b).
  pose proof (u8_range c). rewrite !fromHexChar_hexdigit by (split; [apply Z.div_pos||apply Z.mod_pos_bound; lia|
    first [apply Z.div_lt_upper_bound; lia|apply Z.mod_pos_bound; lia]]).
  cbn [mbind option_bind]. rewrite IH. cbn [fold_left]. do 2 f_equal.
  pose proof (Z.div_mod (u8 c) 16). lia.
Qed.

Lemma length_hexEncode b : length (hexEncode b) = (length b * 2)%nat.
Proof. induction b as [|c b IH]; [done|]. unfold hexEncode. cbn. fold (hexEncode b). lia. Qed.

Lemma parseSegmentID_segName id sfx : 0 <= id < 2 ^ 64 -> parseSegmentID (segName id sfx) sfx = Ok id.
Proof.
  intros Hid. unfold parseSegmentID, segName. rewrite TrimSuffix_app.
  assert (length (hexEncode (be_put 8 id)) = 16%nat) as L by (by rewrite length_hexEncode, length_be_put).
  assert (hex_value 0 (hexEncode (be_put 8 id)) = Some id) as E.
  { rewrite <- (app_nil_r (hexEncode _)), hex_value_encode. cbn [hex_value]. f_equal.
    change (be_get (be_put 8 id) = id). rewrite be_get_put. apply Z.mod_small.
    change (256 ^ Z.of_nat 8) with (2 ^ 64). lia. }
  unfold ParseUint. destruct (hexEncode (be_put 8 id)) as [|c h] eqn:EH; [done|].
  rewrite E. cbn [mbind option_bind]. rewrite (proj2 (Z.ltb_lt _ _)) by lia. by rewrite L.
Qed.

(** No sealed name is an active name. *)
Lemma segName_active_sealed i j : segName i activeSuffix <> segName j sealedSuffix.
Proof.
  intros E%(f_equal length). unfold segName, activeSuffix in E.
  rewrite !length_app, !length_hexEncode, !length_be_put in E. cbn in E. lia.
Qed.
