(* ===== verification/Scan.v ===== *)
(** Recovery of the active segment (src/packstore/recover.go): the tail scan that finds where
    the valid records of an active segment end. *)
From S2P Require Import Prelude External Concrete Key Crc32 Record Pack Footer.

Record activeLoc := MkLoc { al_off : Z; al_flags : byte; al_ulen : Z; al_slen : Z }.
#[export] Instance activeLoc_eq_dec : EqDecision activeLoc.
Proof. solve_decision. Defined.

Record scanResult := MkScan { sr_size : Z; sr_index : gmap Key activeLoc; sr_sealed : bool }.

Definition loc_of (off : Z) (h : RecordHdr) : activeLoc := MkLoc off (RFlags h) (RUlen h) (RSlen h).

Section Scan.
Context `{Fuse}.

(** The loop; every turn but the last consumes a record, so the length of the file is
    fuel enough ([scan_fuel_enough]). *)
Fixpoint scan_loop (fuel : nat) (b : bytes) (off : Z) (idx : gmap Key activeLoc) : res scanResult :=
  match fuel with
  | O => Err [OutOfFuel]
  | S fuel' =>
    if negb (off <? zlen b) then Ok (MkScan off idx false)
    else if bool_decide (byte_at b (Z.to_nat off) = tagSeal) then
    match parseFooter b with
    | Ok _ => Ok (MkScan (zlen b) idx true)
    | Err _ => Ok (MkScan off idx false)
    end
    else
    match ParseRecord (drop (Z.to_nat off) b) with
    | Err _ => Ok (MkScan off idx false)
    | Ok rec => scan_loop fuel' b (off + Z.of_nat RecHeaderSize + RSlen rec) (<[RKey rec := loc_of off rec]> idx)
    end
  end.

(** [scanActive] on the bytes that [os.ReadFile] returned. *)
Definition scanActive (b : bytes) : res scanResult :=
  if (zlen b <? zlen magicHeader) || negb (bool_decide (take 8 b = magicHeader)) then Ok (MkScan 0 ∅ false)
  else scan_loop (S (length b)) b (zlen magicHeader) ∅.
End Scan.

(** * What the scan computes *)

(** The index of records laid end to end from [off] on. *)
Fixpoint index_recs (off : Z) (recs : list bytes) (hdrs : list RecordHdr) (idx : gmap Key activeLoc)
  : gmap Key activeLoc :=
  match recs, hdrs with
  | rec :: recs', h :: hdrs' => index_recs (off + zlen rec) recs' hdrs' (<[RKey h := loc_of off h]> idx)
  | _, _ => idx
  end.

Lemma whole_len rec h : whole rec h -> zlen rec = Z.of_nat RecHeaderSize + RSlen h /\ 0 <= RSlen h.
Proof.
  intros [P L]. assert (0 <= RSlen h) by (rewrite (pr_slen _ _ P); apply be_get_range).
  unfold zlen. lia.
Qed.

Lemma whole_tag rec h rest n pre :
  whole rec h -> length pre = n -> byte_at (pre ++ rec ++ rest) n = tagChunk.
Proof.
  intros W <-. pose proof (whole_nonempty _ _ W) as L. destruct W as [P _]. rewrite <- (pr_tag _ _ P).
  unfold byte_at. rewrite app_nth2 by lia. rewrite Nat.sub_diag. destruct rec; [cbn in L; lia|done].
Qed.

Section ScanProofs.
Context `{Fuse}.

(** One whole record is stepped over. *)
Lemma scan_loop_record fuel pre rec h rest idx :
  whole rec h ->
  scan_loop (S fuel) (pre ++ rec ++ rest) (zlen pre) idx =
  scan_loop fuel (pre ++ rec ++ rest) (zlen pre + zlen rec) (<[RKey h := loc_of (zlen pre) h]> idx).
Proof.
  intros W. pose proof (whole_nonempty _ _ W) as Hne. destruct (whole_len _ _ W) as [HL _]. cbn [scan_loop].
  rewrite (proj2 (Z.ltb_lt _ _)) by (rewrite !zlen_app; pose proof (zlen_nonneg rest); unfold zlen; lia).
  assert (Z.to_nat (zlen pre) = length pre) as Ez by (unfold zlen; lia).
  cbn [negb]. rewrite Ez.
  rewrite (whole_tag _ _ _ _ _ W eq_refl), bool_decide_eq_false_2 by done.
  rewrite drop_app_length. destruct W as [P _].
  rewrite (proj2 (ParseRecord_Ok _ h)) by (by apply parsed_app). f_equal. lia.
Qed.

Lemma scan_loop_recs fuel pre recs hdrs rest idx :
  Forall2 whole recs hdrs ->
  scan_loop (length recs + fuel) (pre ++ concat recs ++ rest) (zlen pre) idx =
  scan_loop fuel (pre ++ concat recs ++ rest) (zlen pre + zlen (concat recs))
  (index_recs (zlen pre) recs hdrs idx).
Proof.
  intros F. revert pre idx. induction F as [|rec h recs hdrs W F IH]; intros pre idx.
  - cbn [length Nat.add concat index_recs app]. by rewrite Z.add_0_r.
  - cbn [length Nat.add concat index_recs]. rewrite <- app_assoc.
    rewrite (scan_loop_record _ _ _ _ _ _ W).
    specialize (IH (pre ++ rec)). rewrite !zlen_app in IH. rewrite <- app_assoc in IH.
    rewrite IH. f_equal. rewrite zlen_app. lia.
Qed.

(** Where the scan stops. *)
Definition no_record (b : bytes) (off : Z) : Prop :=
  off = zlen b \/
  off < zlen b /\ byte_at b (Z.to_nat off) <> tagSeal /\
  (exists e, ParseRecord (drop (Z.to_nat off) b) = Err e).

Lemma scan_loop_stop fuel b off idx :
  no_record b off -> scan_loop (S fuel) b off idx = Ok (MkScan off idx false).
Proof.
  intros [->|(Hlt & HT & e & HE)]; cbn [scan_loop].
  - by rewrite Z.ltb_irrefl.
  - rewrite (proj2 (Z.ltb_lt _ _) Hlt). cbn [negb]. rewrite bool_decide_eq_false_2 by done. by rewrite HE.
Qed.
Lemma scan_loop_seal fuel b off idx :
  off < zlen b -> byte_at b (Z.to_nat off) = tagSeal ->
  scan_loop (S fuel) b off idx =
  Ok (if is_ok (parseFooter b) then MkScan (zlen b) idx true else MkScan off idx false).
Proof.
  intros Hlt HT. cbn [scan_loop]. rewrite (proj2 (Z.ltb_lt _ _) Hlt). cbn [negb].
  rewrite bool_decide_eq_true_2 by done. by destruct (parseFooter b).
Qed.

(** The scan of a log: header, whole records, then [rest]. *)
Definition log (recs : list bytes) : bytes := magicHeader ++ concat recs.

Lemma length_recs_le recs hdrs : Forall2 whole recs hdrs -> (length recs <= length (concat recs))%nat.
Proof. apply length_concat_ge. Qed.

Lemma scanActive_log recs hdrs rest :
  Forall2 whole recs hdrs ->
  exists fuel, (length rest <= fuel)%nat /\
  scanActive (log recs ++ rest) =
  scan_loop (S fuel) (log recs ++ rest) (zlen (log recs)) (index_recs 8 recs hdrs ∅).
Proof.
  intros F. unfold scanActive, log. rewrite <- app_assoc.
  rewrite (proj2 (Z.ltb_ge _ _)) by (rewrite zlen_app; pose proof (zlen_nonneg (concat recs ++ rest)); lia).
  rewrite take_app_length' by done. rewrite bool_decide_eq_true_2 by done. cbn [orb negb].
  pose proof (length_recs_le _ _ F) as L.
  exists (8 + length (concat recs) + length rest - length recs)%nat. split; [lia|].
  replace (S (length (magicHeader ++ concat recs ++ rest))) with
  (length recs + S (8 + length (concat recs) + length rest - length recs))%nat
  by (rewrite !length_app; cbn [length magicHeader]; lia).
  rewrite (scan_loop_recs _ magicHeader recs hdrs rest ∅ F). by rewrite zlen_app.
Qed.

Lemma scanActive_stop recs hdrs rest :
  Forall2 whole recs hdrs -> no_record (log recs ++ rest) (zlen (log recs)) ->
  scanActive (log recs ++ rest) = Ok (MkScan (zlen (log recs)) (index_recs 8 recs hdrs ∅) false).
Proof.
  intros F N. destruct (scanActive_log recs hdrs rest F) as (fuel & _ & ->). by apply scan_loop_stop.
Qed.

(** A record cut short is not a record. *)
Lemma cut_record rec h n : whole rec h -> (n < length rec)%nat -> exists e, ParseRecord (take n rec) = Err e.
Proof.
  intros W Hn. destruct (ParseRecord (take n rec)) as [r|e] eqn:E; [exfalso|by eexists].
  apply ParseRecord_Ok in E. destruct W as [P L].
  pose proof (pr_len _ _ E) as L'. rewrite length_take in L'. unfold RecHeaderSize in *.
  pose proof (pr_slen _ _ E) as S'. rewrite slice_take in S' by lia. rewrite <- (pr_slen _ _ P) in S'. lia.
Qed.

Lemma no_record_cut recs rec h n :
  whole rec h -> (n < length rec)%nat -> no_record (log recs ++ take n rec) (zlen (log recs)).
Proof.
  intros W Hn. destruct (decide (n = 0%nat)) as [->|Hn0].
  - left. by rewrite take_0, app_nil_r.
  - right. rewrite zlen_app. unfold zlen. rewrite length_take, Nat2Z.id. split_and!; [lia| |].
    + intros E. pose proof (whole_tag rec h [] _ (log recs) W eq_refl) as T. rewrite app_nil_r in T.
      unfold byte_at in *. rewrite app_nth2 in E, T by lia. rewrite Nat.sub_diag in E, T.
      destruct rec as [|c rec]; [cbn in Hn; lia|]. destruct n; [lia|]. cbn in E, T. by rewrite E in T.
    + rewrite drop_app_length. by eapply cut_record.
Qed.
End ScanProofs.

(** ** The index of a log *)

Lemma parsed_take b r :
  parsed b r -> whole (take (RecHeaderSize + Z.to_nat (RSlen r)) b) r.
Proof.
  intros P. pose proof (pr_len _ _ P) as L. split; [|by rewrite length_take; lia].
  assert (forall i j, (i <= j <= 46)%nat ->
    slice i j (take (RecHeaderSize + Z.to_nat (RSlen r)) b) = slice i j b) as ES
    by (intros; apply slice_take; unfold RecHeaderSize; lia).
  assert (forall i, (i < 46)%nat -> byte_at (take (RecHeaderSize + Z.to_nat (RSlen r)) b) i = byte_at b i) as EB.
  { intros i Hi. unfold byte_at. rewrite <- (take_drop (RecHeaderSize + Z.to_nat (RSlen r)) b) at 2.
    rewrite app_nth1; [done|]. rewrite length_take. unfold RecHeaderSize in *. lia. }
  destruct P as [_ T F K U S R Z X C P].
  constructor; rewrite ?EB, ?ES by lia; try done.
  - rewrite length_take. lia.
  - unfold rec_crc in *. rewrite take_take, slice_take by (unfold RecHeaderSize; lia).
    by replace (min 42 (RecHeaderSize + Z.to_nat (RSlen r))) with 42%nat by (unfold RecHeaderSize; lia).
Qed.

Lemma index_recs_snoc off recs hdrs idx rec h :
  length recs = length hdrs ->
  index_recs off (recs ++ [rec]) (hdrs ++ [h]) idx =
  <[RKey h := loc_of (off + zlen (concat recs)) h]> (index_recs off recs hdrs idx).
Proof.
  revert off hdrs idx. induction recs as [|r recs IH]; intros off [|h' hdrs] idx HL; try done.
  - cbn. by rewrite Z.add_0_r.
  - cbn [app index_recs]. rewrite IH by (cbn in HL; lia). cbn [concat]. rewrite zlen_app. do 2 f_equal. lia.
Qed.

(** Every entry points at a whole record of its key, and every key of the log has an entry. *)
Lemma index_recs_lookup off recs hdrs idx k loc :
  Forall2 whole recs hdrs -> index_recs off recs hdrs idx !! k = Some loc ->
  (exists pre rec h post, recs = pre ++ rec :: post /\ whole rec h /\ RKey h = k /\
     loc = loc_of (off + zlen (concat pre)) h) \/ idx !! k = Some loc.
Proof.
  intros F. revert off idx. induction F as [|rec h recs hdrs W F IH]; intros off idx; [by right|].
  cbn [index_recs]. intros [(pre & rec' & h' & post & -> & W' & Hk & ->)|Hi]%IH.
  - left. exists (rec :: pre), rec', h', post. split_and!; [done..|]. cbn [concat]. rewrite zlen_app.
    f_equal. lia.
  - destruct (decide (RKey h = k)) as [Hk|Hk].
    + left. exists [], rec, h, recs. rewrite Hk, lookup_insert_eq in Hi. injection Hi as <-.
      split_and!; [done..|]. cbn. by rewrite Z.add_0_r.
    + rewrite lookup_insert_ne in Hi by done. by right.
Qed.

Lemma index_recs_is_Some off recs hdrs idx k :
  length recs = length hdrs ->
  is_Some (index_recs off recs hdrs idx !! k) <-> k ∈ map RKey hdrs \/ is_Some (idx !! k).
Proof.
  revert off hdrs idx. induction recs as [|r recs IH]; intros off [|h hdrs] idx HL; try done.
  - cbn [index_recs map]. rewrite elem_of_nil. naive_solver.
  - cbn [index_recs map]. rewrite IH by (cbn in HL; lia). rewrite elem_of_cons, lookup_insert_is_Some.
    destruct (decide (RKey h = k)); naive_solver.
Qed.

Section Shape.
Context `{Fuse}.

(** On any bytes, the loop consumes whole records and then stops. *)
Lemma scan_loop_shape fuel pre rest idx :
  (length rest < fuel)%nat ->
  exists recs hdrs tl, Forall2 whole recs hdrs /\ rest = concat recs ++ tl /\
  let idx' := index_recs (zlen pre) recs hdrs idx in
  (scan_loop fuel (pre ++ rest) (zlen pre) idx = Ok (MkScan (zlen pre + zlen (concat recs)) idx' false) \/
    (scan_loop fuel (pre ++ rest) (zlen pre) idx = Ok (MkScan (zlen (pre ++ rest)) idx' true) /\
      exists fv, parseFooter (pre ++ rest) = Ok fv)).
Proof.
  revert pre rest idx. induction fuel as [|fuel IH]; intros pre rest idx Hf; [lia|].
  assert (Z.to_nat (zlen pre) = length pre) as Ez by (unfold zlen; lia).
  cbn [scan_loop]. rewrite Ez, drop_app_length.
  assert (forall r, r = Ok (MkScan (zlen pre) idx false) ->
  exists recs hdrs tl, Forall2 whole recs hdrs /\ rest = concat recs ++ tl /\
  (r = Ok (MkScan (zlen pre + zlen (concat recs)) (index_recs (zlen pre) recs hdrs idx) false) \/
  (r = Ok (MkScan (zlen (pre ++ rest)) (index_recs (zlen pre) recs hdrs idx) true) /\
  exists fv, parseFooter (pre ++ rest) = Ok fv))) as Stop.
  { intros r ->. exists [], [], rest. split_and!; [constructor|done|]. left. cbn. by rewrite Z.add_0_r. }
  destruct (zlen pre <? zlen (pre ++ rest)); [|by apply Stop]. cbn [negb].
  destruct (bool_decide _).
  { destruct (parseFooter (pre ++ rest)) as [fv|e] eqn:E; [|by apply Stop].
    exists [], [], rest. split_and!; [constructor|done|]. right. split; [done|]. by exists fv. }
  destruct (ParseRecord rest) as [h|e] eqn:EP; [|by apply Stop].
  apply ParseRecord_Ok in EP. pose proof (parsed_take _ _ EP) as W.
  set (rec := take (RecHeaderSize + Z.to_nat (RSlen h)) rest) in *.
  assert (rest = rec ++ drop (RecHeaderSize + Z.to_nat (RSlen h)) rest) as Er by (unfold rec; by rewrite take_drop).
  set (rest' := drop _ rest) in *. destruct (whole_len _ _ W) as [HL _].
  destruct (IH (pre ++ rec) rest' (<[RKey h := loc_of (zlen pre) h]> idx)) as (recs & hdrs & tl & F & Et & HI).
  { rewrite Er, length_app in Hf. pose proof (whole_nonempty _ _ W). lia. }
  exists (rec :: recs), (h :: hdrs), tl. split; [by constructor|]. split.
  { cbn [concat]. rewrite <- app_assoc, <- Et. exact Er. }
  cbn [concat index_recs]. rewrite <- app_assoc, <- Er in HI. rewrite zlen_app in HI.
  replace (zlen pre + Z.of_nat RecHeaderSize + RSlen h) with (zlen pre + zlen rec) by lia.
  rewrite zlen_app. rewrite Z.add_assoc. exact HI.
Qed.

Lemma scanActive_shape b :
  scanActive b = Ok (MkScan 0 ∅ false) \/
  exists recs hdrs tl, Forall2 whole recs hdrs /\ b = log recs ++ tl /\
  let idx := index_recs 8 recs hdrs ∅ in
  (scanActive b = Ok (MkScan (zlen (log recs)) idx false) \/
    (scanActive b = Ok (MkScan (zlen b) idx true) /\ exists fv, parseFooter b = Ok fv)).
Proof.
  unfold scanActive. destruct (Z.ltb_spec (zlen b) (zlen magicHeader)); [by left|]. cbn [orb].
  case_bool_decide as HM; cbn [negb]; [|by left]. right.
  destruct (scan_loop_shape (S (length b)) magicHeader (drop 8 b) ∅) as (recs & hdrs & tl & F & E & HI).
  { rewrite length_drop. lia. }
  exists recs, hdrs, tl. split; [done|]. unfold log. rewrite <- app_assoc, <- E.
  rewrite <- HM in HI |- *. rewrite take_drop in HI |- *. split; [done|].
  rewrite HM in *. rewrite zlen_app. exact HI.
Qed.
End Shape.
