(* ===== verification/Store.v ===== *)
(** The pack store (src/packstore/packstore.go, prepare.go, barrier.go): its state, the write
    path - create, append, fsync, seal - and the reads. Methods run under the store's two
    locks, so each is one step of the state-error monad over [Store]; an error keeps the
    state reached when it occurred, as in Go. *)
From S2P Require Import Prelude External Concrete Key Crc32 Record Pack Footer Disk Scan.

(** ** State *)

Definition DefaultSegmentSize : Z := Z.shiftl 256 20.
Record config := MkConfig { segmentSize : Z; cfg_sync : bool }.
Definition defaultConfig : config := MkConfig DefaultSegmentSize true.
Definition WithSegmentSize (n : Z) (c : config) : config := MkConfig n (cfg_sync c).
Definition WithSync (b : bool) (c : config) : config := MkConfig (segmentSize c) b.

Record activeSegment := MkActive {
    a_id : Z; a_path : bytes; a_f : nat; a_size : Z; a_index : gmap Key activeLoc
  }.

Record Store := MkStore {
    st_disk : Disk;
    st_cfg : config;
    capturing : bool;
    grey : option (gset Key);        (* nil, or a set *)
    sealed : list sealedSegment;     (* ascending id; newest last *)
    active : option activeSegment;
    nextID : Z;
    closed : bool;
    failed : option error;
    fsyncs : Z
  }.

Definition set_disk (d : Disk) (s : Store) : Store :=
  MkStore d (st_cfg s) (capturing s) (grey s) (sealed s) (active s) (nextID s) (closed s) (failed s) (fsyncs s).
Definition set_barrier (c : bool) (g : option (gset Key)) (s : Store) : Store :=
  MkStore (st_disk s) (st_cfg s) c g (sealed s) (active s) (nextID s) (closed s) (failed s) (fsyncs s).
Definition set_segments (l : list sealedSegment) (a : option activeSegment) (s : Store) : Store :=
  MkStore (st_disk s) (st_cfg s) (capturing s) (grey s) l a (nextID s) (closed s) (failed s) (fsyncs s).
Definition set_active (a : option activeSegment) (s : Store) : Store := set_segments (sealed s) a s.
Definition set_sealed (l : list sealedSegment) (s : Store) : Store := set_segments l (active s) s.
Definition set_nextID (n : Z) (s : Store) : Store :=
  MkStore (st_disk s) (st_cfg s) (capturing s) (grey s) (sealed s) (active s) n (closed s) (failed s) (fsyncs s).
Definition set_closed (s : Store) : Store :=
  MkStore (st_disk s) (st_cfg s) (capturing s) (grey s) (sealed s) (active s) (nextID s) true (failed s) (fsyncs s).
Definition set_failed (e : option error) (s : Store) : Store :=
  MkStore (st_disk s) (st_cfg s) (capturing s) (grey s) (sealed s) (active s) (nextID s) (closed s) e (fsyncs s).
Definition count_fsync (s : Store) : Store :=
  MkStore (st_disk s) (st_cfg s) (capturing s) (grey s) (sealed s) (active s) (nextID s) (closed s) (failed s) (fsyncs s + 1).

(** ** Control *)

Definition io {A} (m : M Disk A) : M Store A := fun s =>
  let '(r, d) := m (st_disk s) in (r, set_disk d s).
Definition catch {A} (m : M Store A) (h : error -> M Store A) : M Store A := fun s =>
  match m s with (Ok x, s') => (Ok x, s') | (Err e, s') => h e s' end.
(** A call whose error the code drops. *)
Definition ignore {A} (m : M Store A) : M Store unit := fun s => (Ok tt, snd (m s)).
Definition when (b : bool) (m : M Store unit) : M Store unit := if b then m else mret tt.
(** A method that only reads the store. *)
Definition reads {A} (f : Store -> res A) : M Store A := fun s => (f s, s).

(** [setFailed]: only the first failure is kept. *)
Definition setFailed (e : error) : M Store unit :=
  modify (fun s => match failed s with None => set_failed (Some e) s | Some _ => s end).
(** [if err := m; err != nil { s.setFailed(err); return err }] *)
Definition poison {A} (m : M Store A) : M Store A :=
  catch m (fun e => _ ← setFailed e; fail e).

(** ** barrier.go *)

Definition BeginBarrier : M Store unit := modify (set_barrier true (Some ∅)).
Definition AbortBarrier : M Store unit := modify (set_barrier false None).
Definition ObserveKeys (keys : list Key) : M Store unit :=
  modify (fun s =>
    if negb (capturing s) then s
    else match grey s with
         | None => s
         | Some g => set_barrier (capturing s) (Some (list_to_set keys ∪ g)) s
         end).
Definition observe (k : Key) : M Store unit := ObserveKeys [k].
Definition takeGrey : M Store (gset Key) := fun s =>
  (Ok (default ∅ (grey s)), set_barrier false None s).

Section Store.
Context `{Blake3, Zstd, Fuse}.

(** ** Sealed segments from the directory *)

Definition open_path (path : bytes) (id : Z) : M Store sealedSegment :=
  mm ← io (ReadWhole path); lift (openSealed path id mm).

(** ** The write path *)

Definition createActive : M Store unit :=
  id ← gets nextID;
  _ ← modify (fun s => set_nextID (u64 (nextID s + 1)) s);
  let path := segName id activeSuffix in
  f ← io (CreateExcl path);
  let abandon (e : error) := _ ← ignore (io CloseFd); _ ← ignore (io (RemoveFile path)); fail e in
  _ ← catch (_ ← io (WriteAt f magicHeader 0); _ ← io (Sync f); io SyncDir) abandon;
  modify (set_active (Some (MkActive id path f (zlen magicHeader) ∅))).

Definition active_entries (a : activeSegment) : list indexEntry :=
  map (fun '(k, loc) => MkIndexEntry k (u64 (al_off loc)) (al_slen loc)) (map_to_list (a_index a)).

(** From the rename on: the segment is published under its sealed name. *)
Definition publish_sealed (a : activeSegment) : M Store unit :=
  let sealedPath := TrimSuffix (a_path a) dotActive in
  _ ← io (Rename (a_path a) sealedPath);
  _ ← io SyncDir;
  seg ← open_path sealedPath (a_id a);
  _ ← modify (fun s => set_segments (sealed s ++ [seg]) None s);
  io CloseFd.

Definition sealActiveLocked : M Store unit :=
  oa ← gets active;
  match oa with
  | None => mret tt
  | Some a =>
    if bool_decide (a_index a = ∅) then mret tt
    else
    footer ← lift (buildFooter (a_size a) (active_entries a));
    _ ← io (Truncate (a_f a) (a_size a));
    _ ← io (WriteAt (a_f a) footer (a_size a));
    _ ← io (Sync (a_f a));
    publish_sealed a
  end.

(** Writing the record, publishing it, then the optional fsync and rotation. *)
Definition append_record (a : activeSegment) (k : Key) (rec : bytes) (syncNow : bool) : M Store unit :=
  let off := a_size a in
  _ ← io (WriteAt (a_f a) rec off);
  let loc := MkLoc off (byte_at rec 33) (be_get (slice 34 38 rec)) (be_get (slice 38 42 rec)) in
  let a' := MkActive (a_id a) (a_path a) (a_f a) (off + zlen rec) (<[k:=loc]> (a_index a)) in
  _ ← modify (set_active (Some a'));
  cfg ← gets st_cfg;
  _ ← when (syncNow && cfg_sync cfg) (poison (io (Sync (a_f a))));
  when (segmentSize cfg <=? a_size a') (poison sealActiveLocked).

(** The checks every writer makes first, and the active segment it then writes to. *)
Definition writable : M Store unit :=
  s ← gets id;
  if closed s then fail [ErrClosed]
  else match failed s with Some e => fail e | None => mret tt end.
Definition ensure_active : M Store activeSegment :=
  _ ← (s ← gets id; match active s with None => createActive | Some _ => mret tt end);
  oa ← gets active; lift (from_opt [EMsg "no active segment"] oa).

Definition appendLocked (k : Key) (rec : bytes) (syncNow : bool) : M Store unit :=
  _ ← writable;
  a ← ensure_active;
  match a_index a !! k with
  | Some _ => mret tt
  | None => append_record a k rec syncNow
  end.

Definition syncActive : M Store unit :=
  _ ← writable;
  s ← gets id;
  match active s with
  | Some a =>
    if negb (cfg_sync (st_cfg s)) then mret tt
    else _ ← poison (io (Sync (a_f a))); modify count_fsync
  | None => mret tt
  end.

(** ** prepare.go and the verification of one object (verify.go) *)

Definition verifyObject (k : Key) (data : bytes) : res unit :=
  let sum := Sum256 data in
  want ← reerr ErrVerify (NewFromHash (Type_ k) (Length k) sum);
  if negb (bool_decide (want = k)) then Err [ErrVerify]
  else if ((Type_ k =? Blob) || (Type_ k =? XattrSet)) && negb (Length k =? zlen data) then Err [ErrVerify]
  else Ok tt.

Definition prepare (obj : StoreObject) (verify : bool) : res (bytes * Z) :=
  match SRecord obj with
  | None =>
    let data := default [] (SData obj) in
    _ ← (if verify then verifyObject (SKey obj) data else Ok tt);
    rec ← EncodeRecord (SKey obj) data;
    Ok (rec, zlen data)
  | Some record =>
    if bool_decide (is_Some (SData obj)) then Err [ErrCorrupt]
    else
    rec ← ParseRecord record;
    if negb (bool_decide (RKey rec = SKey obj)) then Err [ErrCorrupt]
    else if negb (zlen record =? Z.of_nat RecHeaderSize + RSlen rec) then Err [ErrCorrupt]
    else
    _ ← (if verify then
           data ← DecodePayload (RFlags rec) (RUlen rec) (drop RecHeaderSize record);
           verifyObject (SKey obj) data
         else Ok tt);
    Ok (record, RUlen rec)
  end.

(** ** Reads *)

(** The sealed segments are asked newest first. *)
Fixpoint newest {A} (f : sealedSegment -> res (option A)) (l : list sealedSegment) : res (option A) :=
  match l with
  | [] => Ok None
  | g :: l' => r ← f g; match r with Some x => Ok (Some x) | None => newest f l' end
  end.

Definition active_loc (s : Store) (k : Key) : option (activeSegment * activeLoc) :=
  a ← active s; loc ← a_index a !! k; Some (a, loc).

Definition Has (s : Store) (k : Key) : res bool :=
  if closed s then Err [ErrClosed]
  else match active_loc s k with
  | Some _ => Ok true
  | None => Ok (existsb (fun g => seg_has g k) (rev (sealed s)))
  end.

Definition Get (k : Key) : M Store bytes :=
  s ← gets id;
  if closed s then fail [ErrClosed]
  else match active_loc s k with
  | Some (a, loc) =>
     stored ← io (ReadAt (a_f a) (Z.to_nat (al_slen loc)) (al_off loc + Z.of_nat RecHeaderSize));
     lift (DecodePayload (al_flags loc) (al_ulen loc) stored)
  | None => lift (r ← newest (fun g => seg_get g k) (rev (sealed s)); from_opt [ErrNotFound] r)
  end.

Definition GetRecord (k : Key) : M Store bytes :=
  s ← gets id;
  if closed s then fail [ErrClosed]
  else match active_loc s k with
  | Some (a, loc) => io (ReadAt (a_f a) (RecHeaderSize + Z.to_nat (al_slen loc)) (al_off loc))
  | None => lift (r ← newest (fun g => seg_getRecord g k) (rev (sealed s)); from_opt [ErrNotFound] r)
  end.

(** [uint64(0), false] when absent. *)
Definition StoredSize (s : Store) (k : Key) : res (Z * bool) :=
  if closed s then Err [ErrClosed]
  else match active_loc s k with
  | Some (_, loc) => Ok (al_slen loc, true)
  | None =>
     r ← newest (fun g => Ok (seg_storedSize g k)) (rev (sealed s));
     Ok (match r with Some n => (n, true) | None => (0, false) end)
  end.

Definition locateLocked (s : Store) (k : Key) : option (Z * Z) :=
  match active_loc s k with
  | Some (a, loc) => Some (a_id a, u64 (al_off loc))
  | None =>
    match newest (fun g => Ok (pair (sg_id g) <$> seg_locate g k)) (rev (sealed s)) with
    | Ok r => r
    | Err _ => None
    end
  end.

(** [SortByLocation]: a stable order is not asked for; equal items carry the same key's
    position or are absent. *)
Definition located : Type := Key * option (Z * Z).
Definition located_le (a b : located) : Prop :=
  match snd a, snd b with
  | Some (sa, oa), Some (sb, ob) => sa < sb \/ (sa = sb /\ oa <= ob)
  | Some _, None => True
  | None, Some _ => False
  | None, None => True
  end.
#[export] Instance located_le_dec : RelDecision located_le.
Proof.
  intros [? [[sa oa]|]] [? [[sb ob]|]]; unfold located_le; cbn; apply _.
Defined.
Definition SortByLocation (s : Store) (keys : list Key) : list Key :=
  if closed s then keys
  else map fst (merge_sort located_le (map (fun k => (k, locateLocked s k)) keys)).

(** ** Writes *)

Definition append (k : Key) (rec : bytes) (syncNow : bool) : M Store unit := appendLocked k rec syncNow.

Definition Put (k : Key) (data : bytes) : M Store unit :=
  s ← gets id;
  match failed s with
  | Some e => fail e
  | None =>
    _ ← observe k;
    has ← reads (fun s => Has s k);
    if has : bool then mret tt
    else rec ← lift (EncodeRecord k data); append k rec true
  end.

(** One object of a batch: [true] when a record was appended. *)
Definition batch_object (obj : StoreObject) : M Store bool :=
  _ ← observe (SKey obj);
  has ← reads (fun s => Has s (SKey obj));
  if has : bool then mret false
  else
  '(rec, _) ← lift (prepare obj false);
  _ ← append (SKey obj) rec false;
  mret true.

(** The iterator yields objects or errors. *)
Fixpoint batch_loop (seq : list (res StoreObject)) (seen : gset Key) (appended : bool) : M Store unit :=
  let failing (appended : bool) (e : error) := _ ← when appended (ignore syncActive); fail e in
  match seq with
  | [] => syncActive
  | Err e :: _ => failing appended e
  | Ok obj :: seq' =>
    if bool_decide (SKey obj ∈ seen) then batch_loop seq' seen appended
    else
    b ← catch (batch_object obj) (fun e => _ ← failing appended e; mret false);
    batch_loop seq' ({[SKey obj]} ∪ seen) (b || appended)
  end.
Definition WriteBatch (seq : list (res StoreObject)) : M Store unit := batch_loop seq ∅ false.

(** gc.go: re-appending a record; [None] is a nil slice. *)
Definition AppendRecord (k : Key) (raw : option bytes) : M Store unit :=
  match raw with
  | None => fail [ErrCorrupt]
  | Some raw =>
    '(rec, _) ← lift (prepare (MkStoreObject k None (Some raw)) false);
    append k rec false
  end.

(** ** Opening, closing, wiping *)

(** The files of the directory, in name order; sealed ones are opened. *)
Fixpoint load_names (ns : list bytes) (actives : list bytes) : M Store (list bytes) :=
  match ns with
  | [] => mret actives
  | name :: ns' =>
    if HasSuffix name activeSuffix then load_names ns' (actives ++ [name])
    else if HasSuffix name sealedSuffix then
    id ← lift (parseSegmentID name sealedSuffix);
    seg ← open_path name id;
    _ ← modify (fun s => set_nextID (if nextID s <=? id then u64 (id + 1) else nextID s)
                         (set_sealed (sealed s ++ [seg]) s));
    load_names ns' actives
    else load_names ns' actives
  end.

Definition seg_le (a b : sealedSegment) : Prop := sg_id a <= sg_id b.
#[export] Instance seg_le_dec : RelDecision seg_le := fun a b => Z_le_dec (sg_id a) (sg_id b).
Definition sort_sealed : M Store unit := modify (fun s => set_sealed (merge_sort seg_le (sealed s)) s).

Definition recoverActive (name : bytes) : M Store unit :=
  id ← lift (parseSegmentID name activeSuffix);
  b ← io (ReadWhole name);
  res ← lift (scanActive b);
  _ ← modify (fun s => set_nextID (if nextID s <=? id then u64 (id + 1) else nextID s) s);
  if sr_sealed res then
  let sealedPath := TrimSuffix name dotActive in
  _ ← io (Rename name sealedPath);
  _ ← io SyncDir;
  seg ← open_path sealedPath id;
  _ ← modify (fun s => set_sealed (sealed s ++ [seg]) s);
  sort_sealed
  else
  f ← io (OpenFile name);
  let close_on (e : error) := _ ← ignore (io CloseFd); fail e in
  size ← (if sr_size res <? zlen magicHeader then
        _ ← catch (io (Truncate f 0)) close_on;
        _ ← catch (io (WriteAt f magicHeader 0)) close_on;
        mret (zlen magicHeader)
      else
        _ ← catch (io (Truncate f (sr_size res))) close_on;
        mret (sr_size res));
  modify (set_active (Some (MkActive id name f size (sr_index res)))).

Definition load : M Store unit :=
  ns ← io ReadDirNames;
  actives ← load_names ns [];
  _ ← sort_sealed;
  match actives with
  | [] => mret tt
  | [name] => recoverActive name
  | _ => fail [ErrCorrupt]
  end.

(** [Open] once the directory is locked: a fresh handle over the files found. *)
Definition Open (cfg : config) (d : Disk) : res unit * Store :=
  load (MkStore d cfg false None [] None 1 false None 0).

(** The first error of a sequence of calls that all run. *)
Fixpoint each_first (l : list (M Store unit)) : M Store unit := fun s =>
  match l with
  | [] => (Ok tt, s)
  | m :: l' =>
    let '(r, s1) := m s in
    let '(r', s2) := each_first l' s1 in
    (match r with Ok _ => r' | Err e => Err e end, s2)
  end.

Definition Wipe : M Store unit :=
  s ← gets id;
  if closed s then fail [ErrClosed]
  else
  _ ← modify (fun s => set_failed None (set_segments [] None s));
  each_first
  (match active s with
    | Some a => [io CloseFd; io (RemoveFile (a_path a))]
    | None => []
    end ++
    flat_map (fun g => [io CloseFd; io (RemoveFile (sg_path g))]) (sealed s) ++
    (if cfg_sync (st_cfg s) then [io SyncDir] else [])).

Definition Close : M Store unit :=
  s ← gets id;
  if closed s then mret tt
  else
  _ ← modify set_closed;
  each_first
  (match active s with
    | Some a => [io (Sync (a_f a)); io CloseFd; modify (set_active None)]
    | None => []
    end ++
    map (fun _ => io CloseFd) (sealed s) ++
    [modify (set_sealed []); io CloseFd]).
End Store.
