(* ===== verification/StoreInv.v ===== *)
(** The abstract view of the pack store and the invariant behind it. The view of a store is
    a finite function from keys to encoded records; the operations of Store.v are shown to
    keep the invariant and to change the view as they promise, whatever system calls fail. *)
From S2P Require Import Prelude External Concrete Key Crc32 Record Pack Footer Disk Scan Store.

(** * Outcomes of the system calls *)

Lemma attempt_cases {A} (run : M Disk A) torn d r d' :
  attempt run torn d = (r, d') ->
  exists fs, (run (set_faults fs d) = (r, d')) \/
             (exists n, r = Err [EIO] /\ d' = torn n (set_faults fs d)).
Proof.
  unfold attempt. intros E. destruct (faults d) as [|[n|] fs] eqn:EF.
  - exists []. left. rewrite <- E. f_equal. by rewrite <- EF; destruct d.
  - injection E as <- <-. exists fs. right. by exists n.
  - exists fs. by left.
Qed.

(** What holds of file [i]: it begins with [b]. *)
Definition log_at (d : Disk) (i : nat) (b : bytes) : Prop :=
  exists f tl, inodes d !! i = Some f /\ f_data f = b ++ tl.
(** It is [b]. *)
Definition holds (d : Disk) (i : nat) (b : bytes) : Prop :=
  exists f, inodes d !! i = Some f /\ f_data f = b.

Lemma holds_log d i b : holds d i b -> log_at d i b.
Proof. intros (f & Hf & Hd). exists f, []. by rewrite app_nil_r. Qed.

Lemma log_at_data d i b : log_at d i b -> exists tl, data_of d i = b ++ tl.
Proof. intros (f & tl & Hf & Hd). exists tl. unfold data_of, file_of. by rewrite Hf. Qed.
Lemma holds_data d i b : holds d i b -> data_of d i = b.
Proof. intros (f & Hf & Hd). unfold data_of, file_of. by rewrite Hf. Qed.

Lemma write_at_after b tl p : write_at (b ++ tl) (length b) p = b ++ p ++ drop (length p) tl.
Proof.
  unfold write_at. rewrite length_app. replace (length b - (length b + length tl))%nat with 0%nat by lia.
  rewrite app_nil_r, take_app_length. do 2 f_equal.
  rewrite drop_app. rewrite drop_ge by lia. cbn [app]. f_equal. lia.
Qed.
Lemma truncate_exact b tl : truncate_to (b ++ tl) (length b) = b.
Proof.
  unfold truncate_to. rewrite length_app. replace (length b - (length b + length tl))%nat with 0%nat by lia.
  rewrite app_nil_r. apply take_app_length.
Qed.

Lemma log_at_faults fs d i b : log_at (set_faults fs d) i b <-> log_at d i b.
Proof. done. Qed.

(** A write right behind the log keeps it, and extends it when it is whole. *)
Lemma do_write_log d i b p :
  log_at d i b -> log_at (do_write i p (zlen b) d) i (b ++ p).
Proof.
  intros (f & tl & Hf & Hd). unfold do_write, file_of. rewrite Hf. cbn [from_option id].
  eexists _, (drop (length p) tl). unfold set_file. cbn [inodes]. rewrite lookup_insert_eq. split; [done|].
  cbn [f_data]. rewrite Hd. unfold zlen. rewrite Nat2Z.id. rewrite write_at_after. by rewrite app_assoc.
Qed.
Lemma log_at_prefix d i b1 b2 : log_at d i (b1 ++ b2) -> log_at d i b1.
Proof. intros (f & tl & Hf & Hd). exists f, (b2 ++ tl). by rewrite app_assoc. Qed.

Lemma do_truncate_holds d i b : log_at d i b -> holds (do_truncate i (zlen b) d) i b.
Proof.
  intros (f & tl & Hf & Hd). unfold do_truncate, file_of. rewrite Hf. cbn [from_option id].
  eexists. unfold set_file. cbn [inodes]. rewrite lookup_insert_eq. split; [done|].
  cbn [f_data]. rewrite Hd. unfold zlen. rewrite Nat2Z.id. apply truncate_exact.
Qed.
Lemma do_write_holds d i b p : holds d i b -> holds (do_write i p (zlen b) d) i (b ++ p).
Proof.
  intros (f & Hf & Hd). unfold do_write, file_of. rewrite Hf. cbn [from_option id].
  eexists. unfold set_file. cbn [inodes]. rewrite lookup_insert_eq. split; [done|].
  cbn [f_data]. rewrite Hd. unfold zlen. rewrite Nat2Z.id.
  rewrite <- (app_nil_r b) at 1. rewrite write_at_after, drop_nil. by rewrite app_nil_r.
Qed.
Lemma do_sync_holds d i j b : holds d i b -> holds (do_sync j d) i b.
Proof.
  intros (f & Hf & Hd). unfold do_sync, set_file. destruct (decide (i = j)) as [->|N].
  - eexists. cbn [inodes]. rewrite lookup_insert_eq. split; [done|]. cbn. unfold file_of. by rewrite Hf.
  - exists f. cbn [inodes]. by rewrite lookup_insert_ne.
Qed.
Lemma do_sync_log d i j b : log_at d i b -> log_at (do_sync j d) i b.
Proof.
  intros (f & tl & Hf & Hd). destruct (do_sync_holds d i j (b ++ tl)) as (f' & Hf' & Hd'); [by exists f|].
  by exists f', tl.
Qed.

(** The outcome of each call, with the effect it had. *)
Lemma WriteAt_out i p off d r d' :
  WriteAt i p off d = (r, d') ->
  exists n fs, d' = do_write i (take n p) off (set_faults fs d) /\ (r = Ok tt -> take n p = p).
Proof.
  intros (fs & [[= <- <-]|(n & -> & ->)])%attempt_cases.
  - exists (length p), fs. by rewrite take_ge by done.
  - exists n, fs. done.
Qed.
Lemma Truncate_out i sz d r d' :
  Truncate i sz d = (r, d') ->
  exists fs, d' = do_truncate i sz (set_faults fs d) \/ (d' = set_faults fs d /\ r <> Ok tt).
Proof.
  intros (fs & [[= <- <-]|(n & -> & ->)])%attempt_cases; exists fs; [by left|].
  destruct n; [by right|by left].
Qed.
Lemma Sync_out i d r d' :
  Sync i d = (r, d') ->
  exists fs, (r = Ok tt /\ d' = do_sync i (set_faults fs d)) \/ (r <> Ok tt /\ d' = set_faults fs d).
Proof. intros (fs & [[= <- <-]|(n & -> & ->)])%attempt_cases; exists fs; [by left|by right]. Qed.
Lemma SyncDir_out d r d' : SyncDir d = (r, d') -> exists fs, d' = set_faults fs d.
Proof. intros (fs & [[= <- <-]|(n & -> & ->)])%attempt_cases; by exists fs. Qed.
Lemma CloseFd_out d r d' : CloseFd d = (r, d') -> exists fs, d' = set_faults fs d.
Proof. intros (fs & [[= <- <-]|(n & -> & ->)])%attempt_cases; by exists fs. Qed.
Lemma ReadWhole_out path d r d' :
  ReadWhole path d = (r, d') ->
  exists fs, d' = set_faults fs d /\
    forall b, r = Ok b -> exists i, names d !! path = Some i /\ b = data_of d i.
Proof.
  intros (fs & [E|(n & -> & ->)])%attempt_cases; exists fs; [|done].
  cbn in E. destruct (names d !! path) as [i|]; injection E as <- <-; split; try done.
  intros b [= <-]. by exists i.
Qed.
Lemma ReadAt_out i len off d r d' :
  ReadAt i len off d = (r, d') ->
  exists fs, d' = set_faults fs d /\
    forall b, r = Ok b -> b = slice (Z.to_nat off) (Z.to_nat off + len) (data_of d i).
Proof.
  intros (fs & [E|(n & -> & ->)])%attempt_cases; exists fs; [|done].
  cbn in E. unfold data_of, file_of in *. cbn in E.
  destruct (_ =? _)%nat; injection E as <- <-; split; try done. by intros b [= <-].
Qed.
Lemma Rename_out old new d r d' :
  Rename old new d = (r, d') ->
  exists fs, (d' = do_rename old new (set_faults fs d)) \/ (d' = set_faults fs d /\ r <> Ok tt).
Proof.
  intros (fs & [E|(n & -> & ->)])%attempt_cases; exists fs.
  - cbn in E. destruct (names d !! old); injection E as <- <-; [by left|by right].
  - destruct n; [by right|by left].
Qed.
Lemma RemoveFile_out path d r d' :
  RemoveFile path d = (r, d') ->
  exists fs, d' = do_remove path (set_faults fs d) \/ (d' = set_faults fs d).
Proof.
  intros (fs & [E|(n & -> & ->)])%attempt_cases; exists fs.
  - cbn in E. destruct (names d !! path); injection E as <- <-; [by left|by right].
  - destruct n; [by right|by left].
Qed.
Lemma CreateExcl_out path d r d' :
  CreateExcl path d = (r, d') ->
  exists fs, (exists i, r = Ok i /\ i = next_ino d /\ d' = do_create path (set_faults fs d)) \/
             (exists e, r = Err e) /\ d' = set_faults fs d.
Proof.
  intros (fs & [E|(n & -> & ->)])%attempt_cases; exists fs; [|right; split; [by eexists|done]].
  cbn in E. destruct (names d !! path); injection E as <- <-; [right; split; [by eexists|done]|].
  left. by eexists.
Qed.

(** Only names and faults change in a rename, a removal or a read. *)
Lemma do_rename_inodes old new d : inodes (do_rename old new d) = inodes d.
Proof. unfold do_rename. by destruct (names d !! old). Qed.

(** * The view *)

(** The record at [off] of stored length [slen]. *)
Definition rec_at (b : bytes) (off slen : Z) : bytes :=
  slice (Z.to_nat off) (Z.to_nat off + RecHeaderSize + Z.to_nat slen) b.

Section View.
Context `{Blake3} `{HZs : ZstdOk} `{HFu : FuseOk}.

Definition act_view (d : Disk) (a : activeSegment) (k : Key) : option bytes :=
  (fun loc => rec_at (data_of d (a_f a)) (al_off loc) (al_slen loc)) <$> a_index a !! k.
Definition seg_view (k : Key) (g : sealedSegment) : option bytes :=
  match seg_getRecord g k with Ok r => r | Err _ => None end.
Definition segs_view (l : list sealedSegment) (k : Key) : option bytes := head (omap (seg_view k) (rev l)).

(** The abstract state: what record the store holds for a key. *)
Definition view (s : Store) (k : Key) : option bytes :=
  match active s ≫= fun a => act_view (st_disk s) a k with
  | Some r => Some r
  | None => segs_view (sealed s) k
  end.

(** * The invariant *)

Definition SEG_MAX : Z := 2 ^ 36.

(** A sealed segment: its footer indexes whole records of its body. *)
Definition entry_ok (g : sealedSegment) (e : indexEntry) : Prop :=
  8 <= ie_off e /\ ie_off e + Z.of_nat RecHeaderSize + ie_slen e <= fv_bodyLen (sg_fv g) /\
  exists h, whole (rec_at (sg_mm g) (ie_off e) (ie_slen e)) h /\ RKey h = ie_k e /\ RSlen h = ie_slen e.
Definition seg_ok (g : sealedSegment) : Prop :=
  fv_bodyLen (sg_fv g) <= zlen (sg_mm g) /\
  exists es, indexes (sg_fv g) es /\ Forall (entry_ok g) es.

(** The active segment: its file starts with the log that its index describes. *)
Definition act_ok (d : Disk) (a : activeSegment) : Prop :=
  exists recs hdrs, Forall2 whole recs hdrs /\ log_at d (a_f a) (log recs) /\
  a_size a = zlen (log recs) /\ a_index a = index_recs 8 recs hdrs ∅.

(** What reads rely on. *)
Record core (s : Store) : Prop := {
    inv_segs : Forall seg_ok (sealed s);
    inv_act : forall a, active s = Some a -> act_ok (st_disk s) a
  }.
(** What further writes rely on: the file is still the one the name says, and rotation has
    kept it short. *)
Definition named (lim : Z) (s : Store) : Prop :=
  forall a, active s = Some a -> names (st_disk s) !! a_path a = Some (a_f a) /\ a_size a <= lim.
Record inv (s : Store) : Prop := {
    inv_cfg : segmentSize (st_cfg s) <= SEG_MAX;
    inv_core : core s;
    inv_path : failed s = None -> named SEG_MAX s
  }.

(** ** Sealed segments *)

Lemma segs_view_snoc l g k : segs_view (l ++ [g]) k = match seg_view k g with Some r => Some r | None => segs_view l k end.
Proof. unfold segs_view. rewrite rev_app_distr. cbn. by destruct (seg_view k g). Qed.

Lemma seg_view_lookup g k :
  seg_ok g -> seg_view k g = (fun '(off, slen) => rec_at (sg_mm g) off slen) <$> lookup_ (sg_fv g) k.
Proof.
  intros (HB & es & Hix & HE). unfold seg_view, seg_getRecord, filter_has.
  destruct (lookup_ (sg_fv g) k) as [[off slen]|] eqn:E.
  - rewrite (lookup_filter _ _ Hix _ _ E). cbn [negb].
    apply (lookup_Some _ _ Hix) in E. rewrite list.Forall_forall in HE.
    destruct (HE _ E) as (H8 & Hend & _). cbn [ie_off ie_slen] in *.
    pose proof (ix_fits _ _ Hix) as F. rewrite list.Forall_forall in F. destruct (F _ E) as [F1 F2].
    cbn [ie_off ie_slen] in *. unfold seg_bounds. change (zlen magicHeader) with 8.
    rewrite (proj2 (Z.ltb_ge off 8)), (proj2 (Z.ltb_ge _ off)), (proj2 (Z.ltb_ge _ (Z.of_nat RecHeaderSize + slen)))
    by (unfold RecHeaderSize in *; lia).
    done.
  - by destruct (Contains _ _).
Qed.

(** The record of a sealed segment is whole and of its key. *)
Lemma seg_view_whole g k r : seg_ok g -> seg_view k g = Some r -> exists h, whole r h /\ RKey h = k.
Proof.
  intros HG E. rewrite seg_view_lookup in E by done. destruct HG as (HB & es & Hix & HE).
  destruct (lookup_ (sg_fv g) k) as [[off slen]|] eqn:EL; [|done]. injection E as <-.
  apply (lookup_Some _ _ Hix) in EL. rewrite list.Forall_forall in HE.
  destruct (HE _ EL) as (_ & _ & h & W & Hk & _). by exists h.
Qed.

(** ** The active segment *)

Lemma rec_at_log recs hdrs b tl k loc :
  Forall2 whole recs hdrs -> b = log recs ++ tl -> index_recs 8 recs hdrs ∅ !! k = Some loc ->
  exists rec h, rec ∈ recs /\ whole rec h /\ RKey h = k /\ rec_at b (al_off loc) (al_slen loc) = rec /\
  8 <= al_off loc /\ al_off loc + Z.of_nat RecHeaderSize + al_slen loc <= zlen (log recs) /\
  0 <= al_slen loc /\ al_slen loc = RSlen h /\ al_flags loc = RFlags h /\ al_ulen loc = RUlen h.
Proof.
  intros F -> [(pre & rec & h & post & -> & W & Hk & ->)|Hi]%index_recs_lookup; [|by rewrite lookup_empty in Hi|done].
  destruct (whole_len _ _ W) as [HL Hs0]. exists rec, h. unfold loc_of. cbn [al_off al_slen al_flags al_ulen].
  split_and!; try done.
  - apply elem_of_app. right. by left.
  - unfold rec_at, log. rewrite concat_app. cbn [concat]. rewrite <- !app_assoc. rewrite (app_assoc magicHeader).
    apply slice_app_mid; unfold zlen in *; rewrite ?length_app; cbn [length magicHeader]; lia.
  - pose proof (zlen_nonneg (concat pre)). lia.
  - unfold log. rewrite concat_app, !zlen_app. cbn [concat]. rewrite zlen_app. change (zlen magicHeader) with 8.
    pose proof (zlen_nonneg (concat post)). lia.
Qed.

Lemma act_view_log d a recs hdrs k :
  Forall2 whole recs hdrs -> log_at d (a_f a) (log recs) -> a_index a = index_recs 8 recs hdrs ∅ ->
  act_view d a k = (fun loc => rec_at (log recs) (al_off loc) (al_slen loc)) <$> a_index a !! k.
Proof.
  intros F (tl & HD)%log_at_data HI. unfold act_view. destruct (a_index a !! k) as [loc|] eqn:E; [|done].
  cbn [fmap option_fmap option_map]. f_equal. rewrite HI in E.
  destruct (rec_at_log _ _ _ tl _ _ F eq_refl E) as (rec & h & _ & _ & _ & E1 & _).
  destruct (rec_at_log _ _ _ [] _ _ F eq_refl E) as (rec' & h' & _ & _ & _ & E2 & H8 & Hend & Hs0 & _).
  rewrite app_nil_r in E2. rewrite HD. unfold rec_at in *. unfold RecHeaderSize in *.
  apply slice_prefix; unfold zlen in *; lia.
Qed.

Lemma act_view_whole d a k r : act_ok d a -> act_view d a k = Some r -> exists h, whole r h /\ RKey h = k.
Proof.
  intros (recs & hdrs & F & (tl & HD)%log_at_data & _ & HI). unfold act_view.
  destruct (a_index a !! k) as [loc|] eqn:E; [|done]. cbn. intros [= <-]. rewrite HI in E.
  destruct (rec_at_log _ _ _ tl _ _ F HD E) as (rec & h & _ & W & Hk & -> & _). by exists h.
Qed.

Lemma segs_view_elem l k r : segs_view l k = Some r -> exists g, g ∈ l /\ seg_view k g = Some r.
Proof.
  intros Hh. assert (r ∈ omap (seg_view k) (rev l)) as (g & Hg & Hr)%list_elem_of_omap
  by (unfold segs_view in Hh; destruct (omap _ _); [done|injection Hh as ->; by left]).
  exists g. by rewrite list_elem_of_In, <- in_rev, <- list_elem_of_In in Hg.
Qed.

Lemma view_whole s k r : core s -> view s k = Some r -> exists h, whole r h /\ RKey h = k.
Proof.
  intros I. unfold view.
  assert (segs_view (sealed s) k = Some r -> exists h, whole r h /\ RKey h = k) as Segs.
  { intros (g & Hg & Hr)%segs_view_elem. pose proof (inv_segs _ I) as HS. rewrite list.Forall_forall in HS.
    eapply seg_view_whole; [by apply HS|done]. }
  destruct (active s) as [a|] eqn:EA; cbn [mbind option_bind]; [|exact Segs].
  destruct (act_view (st_disk s) a k) as [r'|] eqn:E; [|exact Segs].
  intros [= ->]. eapply act_view_whole; [by apply (inv_act _ I)|done].
Qed.

(** ** Disk steps that leave the log of the active segment alone *)

Definition keeps (s : Store) (d' : Disk) : Prop :=
  forall a recs, active s = Some a -> a_size a = zlen (log recs) ->
  log_at (st_disk s) (a_f a) (log recs) -> log_at d' (a_f a) (log recs).

Lemma keeps_refl s : keeps s (st_disk s).
Proof. by intros a recs _ _. Qed.
Lemma keeps_trans s d1 d2 : keeps s d1 -> keeps (set_disk d1 s) d2 -> keeps s d2.
Proof. intros K1 K2 a recs Ha Hs Hl. apply (K2 a recs Ha Hs), (K1 a recs Ha Hs Hl). Qed.
Lemma keeps_inodes s d' : inodes d' = inodes (st_disk s) -> keeps s d'.
Proof. intros E a recs _ _. unfold log_at. by rewrite E. Qed.
Lemma keeps_sync s fs i : keeps s (do_sync i (set_faults fs (st_disk s))).
Proof. intros a recs _ _ Hl. by apply do_sync_log. Qed.
Lemma keeps_write s fs a p :
  active s = Some a -> keeps s (do_write (a_f a) p (a_size a) (set_faults fs (st_disk s))).
Proof.
  intros Ha a' recs [= <-]%(eq_trans (eq_sym Ha)) -> Hl. eapply log_at_prefix. by apply do_write_log.
Qed.
Lemma keeps_truncate s fs a :
  active s = Some a -> keeps s (do_truncate (a_f a) (a_size a) (set_faults fs (st_disk s))).
Proof. intros Ha a' recs [= <-]%(eq_trans (eq_sym Ha)) -> Hl. by apply holds_log, do_truncate_holds. Qed.

Lemma act_ok_view d d' a :
  act_ok d a -> (forall recs, a_size a = zlen (log recs) -> log_at d (a_f a) (log recs) -> log_at d' (a_f a) (log recs)) ->
  act_ok d' a /\ forall k, act_view d' a k = act_view d a k.
Proof.
  intros (recs & hdrs & F & HL & HS & HI) K. specialize (K recs HS HL). split; [by exists recs, hdrs|].
  intros k. by rewrite (act_view_log d' a recs hdrs), (act_view_log d a recs hdrs).
Qed.

Lemma core_keeps s d' : core s -> keeps s d' -> core (set_disk d' s) /\ forall k, view (set_disk d' s) k = view s k.
Proof.
  intros [HS HA] K. split.
  - split; [done|]. cbn [active set_disk st_disk]. intros a Ha.
    destruct (act_ok_view _ d' a (HA a Ha)) as [HO _]; [intros recs HZ; by apply (K a recs Ha)|done].
  - intros k. unfold view. cbn [active set_disk st_disk sealed]. destruct (active s) as [a|] eqn:Ea; [|done].
    cbn [mbind option_bind]. destruct (act_ok_view _ d' a (HA a eq_refl)) as [_ ->]; [|done].
    intros recs HZ. by apply (K a recs).
Qed.

(** ** Running the monad *)

Lemma M_assoc {A B C} (m : M Store A) (f : A -> M Store B) (g : B -> M Store C) s :
  ((m ≫= f) ≫= g) s = (m ≫= fun x => f x ≫= g) s.
Proof. unfold mbind, M_bind. by destruct (m s) as [[x|e] s1]. Qed.

Lemma set_disk_twice d1 d2 s : set_disk d2 (set_disk d1 s) = set_disk d2 s.
Proof. done. Qed.

Lemma io_inv {A} (m : M Disk A) s r s' :
  io m s = (r, s') -> exists d', m (st_disk s) = (r, d') /\ s' = set_disk d' s.
Proof. unfold io. destruct (m (st_disk s)) as [r0 d']. intros [= <- <-]. by exists d'. Qed.
Lemma io_bind_inv {A B} (m : M Disk A) (f : A -> M Store B) s r s' :
  (io m ≫= f) s = (r, s') ->
  exists rx d', m (st_disk s) = (rx, d') /\
  match rx with Ok x => f x (set_disk d' s) = (r, s') | Err e => r = Err e /\ s' = set_disk d' s end.
Proof.
  unfold mbind, M_bind, io. destruct (m (st_disk s)) as [[x|e] d']; intros E; eexists _, d'; (split; [done|]); [done|].
  by injection E as <- <-.
Qed.

(** ** Sealing *)

Lemma whole_slen_bound rec h : whole rec h -> 0 <= RSlen h < 2 ^ 32.
Proof.
  intros [P _]. rewrite (pr_slen _ _ P). pose proof (be_get_range (slice 38 42 rec)) as R.
  assert (256 ^ zlen (slice 38 42 rec) <= 256 ^ 4); [|change (2 ^ 32) with (256 ^ 4); lia].
  apply Z.pow_le_mono_r; [lia|]. unfold zlen, slice. rewrite length_take. lia.
Qed.

Lemma recs_count recs hdrs : Forall2 whole recs hdrs -> 46 * zlen recs <= zlen (concat recs).
Proof.
  induction 1 as [|rec h recs hdrs W F IH]; [done|]. apply whole_nonempty in W.
  cbn [concat]. rewrite zlen_app, zlen_cons. unfold zlen in *. lia.
Qed.
Lemma index_recs_size off recs hdrs idx :
  Z.of_nat (size (index_recs off recs hdrs idx)) <= zlen recs + Z.of_nat (size idx).
Proof.
  revert off hdrs idx. induction recs as [|r recs IH]; intros off hdrs idx; [unfold zlen; destruct hdrs; cbn; lia|].
  destruct hdrs as [|h hdrs]; [cbn [index_recs]; pose proof (zlen_nonneg (r :: recs)); lia|]. cbn [index_recs].
  etransitivity; [apply IH|]. rewrite zlen_cons, map_size_insert. destruct (idx !! RKey h); cbn -[Z.of_nat]; unfold id; lia.
Qed.

Lemma active_entries_elem a k off slen :
  MkIndexEntry k off slen ∈ active_entries a <->
  exists loc, a_index a !! k = Some loc /\ off = u64 (al_off loc) /\ slen = al_slen loc.
Proof.
  unfold active_entries. rewrite list_elem_of_fmap. split.
  - intros ([k' loc] & [= -> -> ->] & Hin%elem_of_map_to_list). by exists loc.
  - intros (loc & Hin & -> & ->). exists (k, loc). by rewrite elem_of_map_to_list.
Qed.

Section SealLog.
Context (a : activeSegment) (recs : list bytes) (hdrs : list RecordHdr).
Hypothesis HF : Forall2 whole recs hdrs.
Hypothesis HI : a_index a = index_recs 8 recs hdrs ∅.
Hypothesis HS : a_size a = zlen (log recs).
Hypothesis Hlim : a_size a <= 2 * SEG_MAX.

Lemma log_entry k loc :
  a_index a !! k = Some loc ->
  u64 (al_off loc) = al_off loc /\ 8 <= al_off loc /\ 0 <= al_slen loc < 2 ^ 32 /\
  al_off loc + Z.of_nat RecHeaderSize + al_slen loc <= zlen (log recs) /\
  exists h, whole (rec_at (log recs) (al_off loc) (al_slen loc)) h /\ RKey h = k /\ RSlen h = al_slen loc.
Proof using HF HI HS Hlim.
  intros E. rewrite HI in E.
  destruct (rec_at_log _ _ (log recs) [] _ _ HF (eq_sym (app_nil_r _)) E)
  as (rec & h & _ & W & Hk & -> & H8 & Hend & Hs0 & Hs & _).
  pose proof (whole_slen_bound _ _ W). unfold SEG_MAX, RecHeaderSize in *.
  split_and!; [unfold u64; apply Z.mod_small; lia|lia..|]. by exists h.
Qed.

Lemma log_distinct_fits : distinct_fits (active_entries a).
Proof using HF HI HS Hlim.
  split_and!.
  - unfold keys_distinct, active_entries. rewrite map_map.
    rewrite (map_ext _ fst) by (by intros [? ?]). apply NoDup_fst_map_to_list.
  - apply list.Forall_forall. intros [k off slen] (loc & Hin & -> & ->)%active_entries_elem.
    destruct (log_entry _ _ Hin) as (-> & H8 & Hsl & Hend & _). unfold entry_fits. cbn [ie_off ie_slen].
    unfold SEG_MAX, RecHeaderSize in *. lia.
  - pose proof (index_recs_size 8 recs hdrs ∅) as Hz. rewrite <- HI, map_size_empty in Hz.
    pose proof (recs_count _ _ HF) as Hc. unfold active_entries, zlen at 1.
    rewrite length_map, length_map_to_list. unfold log in HS. rewrite zlen_app in HS.
    change (zlen magicHeader) with 8 in HS. unfold SEG_MAX in *. lia.
Qed.

Lemma sealed_of_log footer path id :
  buildFooter (a_size a) (active_entries a) = Ok footer ->
  exists g, openSealed path id (log recs ++ footer) = Ok g /\ seg_ok g /\ sg_path g = path /\ sg_id g = id /\
  forall k, seg_view k g = (fun loc => rec_at (log recs) (al_off loc) (al_slen loc)) <$> a_index a !! k.
Proof using HF HI HS Hlim HFu.
  intros Hb. pose proof log_distinct_fits as HD. rewrite HS in Hb.
  destruct (open_built _ _ _ path id Hb HD) as (fv & HO & _ & Hix & HB).
  { unfold log. by rewrite take_app_length' by done. }
  { pose proof (length_footer _ _ _ Hb (proj2 (proj2 HD))). rewrite zlen_app, <- HS. unfold SEG_MAX in *. lia. }
  assert (forall loc, 8 <= al_off loc -> 0 <= al_slen loc -> al_off loc + Z.of_nat RecHeaderSize + al_slen loc <= zlen (log recs) ->
  rec_at (log recs ++ footer) (al_off loc) (al_slen loc) = rec_at (log recs) (al_off loc) (al_slen loc)) as Pre.
  { intros loc ? ? ?. unfold rec_at. apply slice_prefix; unfold RecHeaderSize, zlen in *; lia. }
  assert (seg_ok (MkSealed path id (log recs ++ footer) fv)) as HG.
  { split; cbn [sg_fv sg_mm]; [rewrite HB, zlen_app; pose proof (zlen_nonneg footer); lia|].
    eexists; split; [exact Hix|]. apply list.Forall_forall.
    intros [k off slen] (loc & Hin & -> & ->)%active_entries_elem.
    destruct (log_entry _ _ Hin) as (Eu & H8 & Hsl & Hend & h & W & Hk & Hs).
    unfold entry_ok. cbn [ie_off ie_slen ie_k sg_fv sg_mm]. rewrite Eu, HB.
    split_and!; [lia..|]. exists h. by rewrite Pre by lia. }
  eexists; split; [exact HO|]. split; [exact HG|]. split_and!; [done..|]. intros k.
  rewrite seg_view_lookup by done. cbn [sg_fv sg_mm].
  destruct (a_index a !! k) as [loc|] eqn:E.
  - destruct (log_entry _ _ E) as (Eu & H8 & Hsl & Hend & _).
    rewrite (proj2 (lookup_Some fv _ Hix k (al_off loc) (al_slen loc))).
    + cbn [fmap option_fmap option_map]. by rewrite Pre by lia.
    + apply active_entries_elem. exists loc. by rewrite Eu.
  - rewrite (proj2 (lookup_None fv _ Hix k)); [done|].
    intros [k' off slen] (loc & Hin & _)%active_entries_elem. cbn. congruence.
Qed.
End SealLog.

(** ** What a step of the write path leaves alone *)

Record frame (s s' : Store) : Prop := {
    fr_cfg : st_cfg s' = st_cfg s;
    fr_closed : closed s' = closed s
  }.
#[export] Instance frame_pre : PreOrder frame.
Proof.
  split; [by split|]. intros a b c [] []. split; congruence.
Qed.
Lemma frame_disk s d : frame s (set_disk d s).
Proof. by split. Qed.

(** A step that keeps the core invariant, changes no view and fails cleanly. *)
Definition quiet (s s' : Store) : Prop :=
  core s' /\ (forall k, view s' k = view s k) /\ frame s s' /\ failed s' = failed s.
Lemma quiet_trans s1 s2 s3 : quiet s1 s2 -> quiet s2 s3 -> quiet s1 s3.
Proof.
  intros (_ & V1 & F1 & E1) (C2 & V2 & F2 & E2). split_and!; [done| |by etransitivity|congruence].
  intros k. by rewrite V2.
Qed.
Lemma quiet_keeps s d' : core s -> keeps s d' -> quiet s (set_disk d' s).
Proof. intros C K. destruct (core_keeps s d' C K) as [C' V']. by split_and!. Qed.

Lemma keeps_rename s d0 old new : inodes d0 = inodes (st_disk s) -> keeps s (do_rename old new d0).
Proof. intros E. apply keeps_inodes. by rewrite do_rename_inodes. Qed.

Lemma sealed_swap s a g d' :
  core s -> active s = Some a -> seg_ok g -> keeps s d' ->
  (forall k, seg_view k g = act_view (st_disk s) a k) ->
  quiet s (set_segments (sealed s ++ [g]) None (set_disk d' s)).
Proof.
  intros [HS HA] Ha HG HK HV. split_and!.
  - split; cbn [sealed active set_segments]; [|done]. apply Forall_app. split; [exact HS|]. by apply Forall_singleton.
  - intros k. unfold view. cbn [sealed active set_segments]. rewrite Ha. cbn [mbind option_bind].
    by rewrite segs_view_snoc, HV.
  - by split.
  - done.
Qed.

Lemma publish_spec s a g mm d r s' :
  core s -> active s = Some a -> keeps s d ->
  holds d (a_f a) mm -> names d !! a_path a = Some (a_f a) ->
  openSealed (TrimSuffix (a_path a) dotActive) (a_id a) mm = Ok g -> seg_ok g ->
  (forall k, seg_view k g = act_view (st_disk s) a k) ->
  publish_sealed a (set_disk d s) = (r, s') ->
  quiet s s' /\ (r = Ok tt -> active s' = None).
Proof.
  intros C Ha K Hh Hn HO HG HV E. unfold publish_sealed in E.
  apply io_bind_inv in E as (r1 & d1 & E1 & E). apply Rename_out in E1 as (fs1 & E1). rewrite set_disk_twice in E.
  assert (keeps s d1) as K1.
  { eapply keeps_trans; [exact K|]. destruct E1 as [->|[-> _]]; [by apply keeps_rename|by apply keeps_inodes]. }
  destruct r1 as [[]|e]; [|destruct E as [-> ->]; split; [by apply quiet_keeps|done]].
  destruct E1 as [E1|[_ E1]]; [|by destruct E1].
  assert (names d1 !! TrimSuffix (a_path a) dotActive = Some (a_f a) /\ holds d1 (a_f a) mm) as [N1 H1'].
  { subst d1. unfold do_rename. change (names (set_faults fs1 (st_disk (set_disk d s)))) with (names d). rewrite Hn.
    split; [|exact Hh].
    cbn [names set_names]. apply lookup_insert_eq. }
  clear E1. apply io_bind_inv in E as (r2 & d2 & E2 & E). apply SyncDir_out in E2 as (fs2 & ->).
  rewrite set_disk_twice in E. cbn [st_disk set_disk] in E.
  assert (keeps s (set_faults fs2 d1)) as K2 by (eapply keeps_trans; [exact K1|by apply keeps_inodes]).
  destruct r2 as [[]|e]; [|destruct E as [-> ->]; split; [by apply quiet_keeps|done]].
  unfold open_path in E. rewrite M_assoc in E.
  apply io_bind_inv in E as (r3 & d3 & E3 & E). apply ReadWhole_out in E3 as (fs3 & -> & Hr3).
  rewrite set_disk_twice in E. cbn [st_disk set_disk] in E.
  assert (keeps s (set_faults fs3 (set_faults fs2 d1))) as K3 by (eapply keeps_trans; [exact K2|by apply keeps_inodes]).
  destruct r3 as [b|e]; [|destruct E as [-> ->]; split; [by apply quiet_keeps|done]].
  destruct (Hr3 b eq_refl) as (i & Hi & ->). change (names d1 !! TrimSuffix (a_path a) dotActive = Some i) in Hi.
  rewrite N1 in Hi. injection Hi as <-.
  assert (data_of (set_faults fs2 d1) (a_f a) = mm) as Ed by (by apply holds_data).
  cbn [st_disk set_disk] in E. rewrite Ed, M_lift, HO, M_modify in E.
  apply io_inv in E as (d4 & E4 & ->). apply CloseFd_out in E4 as (fs4 & ->).
  split; [|done]. pose proof (sealed_swap s a g _ C Ha HG K3 HV) as Q.
  eapply quiet_trans; [exact Q|]. apply quiet_keeps; [apply Q|]. by apply keeps_inodes.
Qed.

Lemma seal_spec s r s' :
  core s -> named (2 * SEG_MAX) s -> sealActiveLocked s = (r, s') ->
  quiet s s' /\ (r = Ok tt -> active s' = None \/ (s' = s /\ forall a, active s = Some a -> a_index a = ∅)).
Proof.
  intros C N E. unfold sealActiveLocked in E. rewrite M_gets in E.
  assert (quiet s s) as Q0 by (by split_and!).
  destruct (active s) as [a|] eqn:Ea; [|injection E as <- <-; split; [done|by right]].
  case_bool_decide as EI; [injection E as <- <-; split; [done|]; intros _; right; by split; [|intros a' [= <-]]|].
  destruct (N a Ea) as [Hname Hlim].
  destruct (inv_act _ C a Ea) as (recs & hdrs & HF & HL & HS & HI).
  rewrite M_lift in E. destruct (buildFooter (a_size a) (active_entries a)) as [footer|e] eqn:Eb;
  [|injection E as <- <-; split; [done|discriminate]].
  destruct (sealed_of_log a recs hdrs HF HI HS Hlim footer (TrimSuffix (a_path a) dotActive) (a_id a) Eb)
  as (g & Hopen & HG & _ & _ & HV).
  assert (forall d', keeps s d' -> quiet s (set_disk d' s)) as Q by (intros; by apply quiet_keeps).
(* truncate *)
  apply io_bind_inv in E as (r1 & d1 & E1 & E). apply Truncate_out in E1 as (fs1 & E1).
  assert (keeps s d1) as K1 by (destruct E1 as [->|[-> _]]; [by apply keeps_truncate|by apply keeps_inodes]).
  destruct r1 as [[]|e]; [|destruct E as [-> ->]; split; [by apply Q|discriminate]].
  destruct E1 as [E1|[_ E1]]; [|by destruct E1].
  assert (holds d1 (a_f a) (log recs)) as H1' by (subst d1; rewrite HS; by apply do_truncate_holds).
  assert (names d1 = names (st_disk s)) as N1 by (by subst d1). clear E1.
(* footer *)
  apply io_bind_inv in E as (r2 & d2 & E2 & E). apply WriteAt_out in E2 as (n & fs2 & E2 & Hn).
  assert (keeps s d2) as K2.
  { eapply keeps_trans; [exact K1|]. subst d2. by apply (keeps_write (set_disk d1 s)). }
  rewrite set_disk_twice in E. destruct r2 as [[]|e]; [|destruct E as [-> ->]; split; [by apply Q|discriminate]].
  rewrite (Hn eq_refl) in E2.
  assert (holds d2 (a_f a) (log recs ++ footer)) as H2' by (subst d2; rewrite HS; by apply do_write_holds).
  assert (names d2 = names (st_disk s)) as N2 by (by subst d2). clear E2 Hn n.
(* fsync *)
  apply io_bind_inv in E as (r3 & d3 & E3 & E). apply Sync_out in E3 as (fs3 & E3).
  rewrite set_disk_twice in E.
  assert (keeps s d3) as K3.
  { eapply keeps_trans; [exact K2|]. destruct E3 as [[_ ->]|[_ ->]]; [apply keeps_sync|by apply keeps_inodes]. }
  destruct r3 as [[]|e]; [|destruct E as [-> ->]; split; [by apply Q|discriminate]].
  destruct E3 as [[_ E3]|[E3 _]]; [|by destruct E3].
  apply (publish_spec s a g (log recs ++ footer)) in E; try done.
  - split; [apply E|]. left. by apply E.
  - subst d3. by apply do_sync_holds.
  - subst d3. cbn. by rewrite N2.
  - intros k. by rewrite HV, (act_view_log _ a recs hdrs).
Qed.

(** ** Creating the active segment *)

Lemma ignore_inv {A} (m : M Store A) (B : Type) (f : unit -> M Store B) s :
  (ignore m ≫= f) s = f tt (snd (m s)).
Proof. done. Qed.

Lemma create_spec s r s' :
  core s -> active s = None -> createActive s = (r, s') ->
  quiet s s' /\ named 8 s' /\ (r = Ok tt -> exists a, active s' = Some a /\ a_index a = ∅).
Proof.
  intros C Ha E. unfold createActive in E. rewrite M_gets, M_modify in E.
  set (s1 := set_nextID _ s) in *.
  assert (core s1 /\ active s1 = None /\ quiet s s1) as (C1 & Ha1 & Q1).
  { destruct C as [CS CA]. split_and!; try done; split_and!; try done; by split. }
  assert (forall d', quiet s (set_disk d' s1)) as Q.
  { intros d'. eapply quiet_trans; [exact Q1|]. apply quiet_keeps; [done|]. intros a recs Ha'. congruence. }
  assert (forall d', named 8 (set_disk d' s1)) as Nm by (intros d' a Ha'; cbn in Ha'; congruence).
  apply io_bind_inv in E as (r1 & d1 & E1 & E).
  destruct r1 as [f|e]; [|destruct E as [-> ->]; split_and!; [apply Q|apply Nm|done]].
  apply CreateExcl_out in E1 as (fs1 & [(i & [= <-] & Hi & E1)|[[e He] _]]); [|done].
  unfold mbind at 1, M_bind at 1, catch at 1 in E.
  destruct ((_ ← io (WriteAt f magicHeader 0); _ ← io (Sync f); io SyncDir) (set_disk d1 s1)) as [[[]|e] s2] eqn:E2.
  - (* written *)
    apply io_bind_inv in E2 as (r2 & d2 & E2 & E3). apply WriteAt_out in E2 as (n & fs2 & E2 & Hn).
    destruct r2 as [[]|]; [|by destruct E3]. rewrite (Hn eq_refl) in E2.
    apply io_bind_inv in E3 as (r3 & d3 & E3 & E4). apply Sync_out in E3 as (fs3 & E3).
    destruct r3 as [[]|]; [|by destruct E4]. destruct E3 as [[_ E3]|[E3 _]]; [|by destruct E3].
    apply io_inv in E4 as (d4 & E4 & ->). apply SyncDir_out in E4 as (fs4 & ->).
    injection E as <- <-. rewrite !set_disk_twice.
    assert (holds (set_faults fs4 d3) f magicHeader) as Hh.
    { subst d3 d2 d1. apply do_sync_holds, (do_write_holds _ f [] magicHeader).
      exists (MkFile [] 0). split; [|done]. cbn [inodes do_create set_faults st_disk set_disk]. rewrite Hi. apply lookup_insert_eq. }
    assert (names (set_faults fs4 d3) !! segName (nextID s) activeSuffix = Some f) as Hnm.
    { subst d3 d2 d1. cbn [names do_create set_faults st_disk set_disk do_write do_sync set_file]. rewrite Hi. apply lookup_insert_eq. }
    set (a := MkActive _ _ _ _ _). set (d := set_faults fs4 d3) in *. clearbody d.
    split_and!; cycle 1.
    + intros a' [= <-]. cbn [a_path a_f a_size a set_active set_segments st_disk set_disk]. by split.
    + intros _. by exists a.
    + split_and!; [| |by split|done].
      * destruct C as [CS CA]. split; [done|]. intros a' [= <-]. exists [], []. split_and!; [constructor| |done|done].
        apply holds_log. unfold log. by rewrite app_nil_r.
      * intros k. unfold view. rewrite Ha. done.
  - (* abandoned *)
    assert (exists d2, s2 = set_disk d2 s1) as [d2 ->].
    { apply io_bind_inv in E2 as (r2 & d2 & E2 & E3). destruct r2 as [[]|]; [|destruct E3 as [_ ->]; by eexists].
      apply io_bind_inv in E3 as (r3 & d3 & E3 & E4). destruct r3 as [[]|]; [|destruct E4 as [_ ->]; by eexists].
      apply io_inv in E4 as (d4 & E4 & ->). by eexists. }
    assert (exists d', s' = set_disk d' s1 /\ r = Err e) as (d' & -> & ->).
    { unfold mbind, M_bind, ignore, fail, io in E.
      destruct (CloseFd _) as [r3 d3]. cbn [snd st_disk set_disk] in E.
      destruct (RemoveFile _ _) as [r4 d4]. cbn [snd] in E. injection E as <- <-. by eexists. }
    split_and!; [apply Q|apply Nm|done].
Qed.

(** ** Appending *)

Lemma whole_length_bound rec h : whole rec h -> zlen rec <= 46 + MaxPayload.
Proof.
  intros W. destruct (whole_len _ _ W) as [-> _]. destruct W as [P _].
  pose proof (pr_max _ _ P). unfold RecHeaderSize. destruct (flags_zstd (RFlags h)) eqn:E.
  - pose proof (pr_zstd _ _ P E). lia.
  - pose proof (pr_raw _ _ P E). lia.
Qed.

Lemma log_snoc recs rec : log (recs ++ [rec]) = log recs ++ rec.
Proof. unfold log. rewrite concat_app, app_assoc. cbn [concat]. by rewrite app_nil_r. Qed.

(** The active segment with one more record. *)
Definition grown (a : activeSegment) (k : Key) (rec : bytes) : activeSegment :=
  MkActive (a_id a) (a_path a) (a_f a) (a_size a + zlen rec)
  (<[k := MkLoc (a_size a) (byte_at rec 33) (be_get (slice 34 38 rec)) (be_get (slice 38 42 rec))]> (a_index a)).

Lemma grown_ok d d' a rec h :
  act_ok d a -> whole rec h ->
  (forall recs, a_size a = zlen (log recs) -> log_at d (a_f a) (log recs) -> log_at d' (a_f a) (log recs ++ rec)) ->
  act_ok d' (grown a (RKey h) rec) /\
  act_view d' (grown a (RKey h) rec) (RKey h) = Some rec /\
  forall k, k <> RKey h -> act_view d' (grown a (RKey h) rec) k = act_view d a k.
Proof.
  intros (recs & hdrs & F & HL & HS & HI) W K. specialize (K recs HS HL).
  assert (Forall2 whole (recs ++ [rec]) (hdrs ++ [h])) as F' by (apply Forall2_app; [done|constructor; [exact W|constructor]]).
  assert (a_index (grown a (RKey h) rec) = index_recs 8 (recs ++ [rec]) (hdrs ++ [h]) ∅) as HI'.
  { cbn [grown a_index]. rewrite index_recs_snoc by (by eapply Forall2_length). rewrite HI, HS. f_equal.
    unfold loc_of, log. rewrite zlen_app. destruct W as [P _].
    by rewrite <- (pr_flags _ _ P), <- (pr_ulen _ _ P), <- (pr_slen _ _ P). }
  assert (log_at d' (a_f (grown a (RKey h) rec)) (log (recs ++ [rec]))) as HL' by (by rewrite log_snoc).
  split_and!.
  - exists (recs ++ [rec]), (hdrs ++ [h]). split_and!; [done..| |done]. cbn [grown a_size]. by rewrite log_snoc, zlen_app, HS.
  - rewrite (act_view_log d' _ _ _ _ F' HL' HI'). cbn [grown a_index]. rewrite lookup_insert_eq. cbn [fmap option_fmap option_map].
    f_equal. unfold rec_at. cbn [al_off al_slen]. rewrite HS, log_snoc. destruct (whole_len _ _ W) as [Hz Hs].
    destruct W as [P _]. rewrite <- (pr_slen _ _ P). unfold zlen in *. rewrite Nat2Z.id.
    apply slice_app_end; [done|]. unfold RecHeaderSize in *. lia.
  - intros k Hk. rewrite (act_view_log d' _ _ _ _ F' HL' HI'), (act_view_log d _ _ _ _ F HL HI).
    cbn [grown a_index]. rewrite lookup_insert_ne by done. destruct (a_index a !! k) as [loc|] eqn:E; [|done].
    cbn [fmap option_fmap option_map]. f_equal. rewrite HI in E.
    destruct (rec_at_log _ _ (log recs) [] _ _ F (eq_sym (app_nil_r _)) E) as (_ & _ & _ & _ & _ & _ & H8 & Hend & Hs0 & _).
    unfold rec_at. rewrite log_snoc. apply slice_prefix; unfold RecHeaderSize, zlen in *; lia.
Qed.

Lemma poison_inv {A} (m : M Store A) s r s' :
  poison m s = (r, s') ->
  (exists x, r = Ok x /\ m s = (Ok x, s')) \/
  (exists e s1, r = Err e /\ m s = (Err e, s1) /\ failed s' <> None /\ s' = set_failed (failed s') s1).
Proof.
  unfold poison, catch. destruct (m s) as [[x|e] s1]; intros E.
  - injection E as <- <-. left. by exists x.
  - right. exists e, s1. unfold mbind, M_bind, setFailed, modify, fail in E. injection E as <- <-.
    split; [done|]. split; [done|]. destruct (failed s1) eqn:EF; cbn; rewrite ?EF; split; try done.
    by destruct s1; cbn in *; rewrite EF.
Qed.

Lemma when_inv b m s r s' : when b m s = (r, s') -> (b = true /\ m s = (r, s')) \/ (b = false /\ r = Ok tt /\ s' = s).
Proof. destruct b; [by left|]. intros [= <- <-]. by right. Qed.

(** The effect of one append on the view. *)
Record wrote (s s' : Store) (k : Key) (rec : bytes) (r : res unit) : Prop := {
    wr_inv : inv s';
    wr_frame : frame s s';
    wr_others : forall k', k' <> k -> view s' k' = view s k';
    wr_key : view s' k = Some rec \/ (view s' k = view s k /\ (r = Ok tt -> is_Some (view s k)))
  }.

Lemma inv_failed s1 s2 f : core s2 -> frame s1 s2 -> segmentSize (st_cfg s1) <= SEG_MAX -> f <> None -> inv (set_failed f s2).
Proof.
  intros [CS CA] F Hc Hf. split; [cbn; by rewrite (fr_cfg _ _ F)|by split|]. intros E. cbn in E. congruence.
Qed.

(** Rotation after the append: the new record is in place whatever happens next. *)
Lemma rotate_spec s1 b r s' :
  core s1 -> segmentSize (st_cfg s1) <= SEG_MAX -> named (2 * SEG_MAX) s1 ->
  (b = false -> failed s1 = None -> named SEG_MAX s1) ->
  when b (poison sealActiveLocked) s1 = (r, s') ->
  inv s' /\ frame s1 s' /\ forall k, view s' k = view s1 k.
Proof.
  intros C Hc N Hb [[-> E]|(-> & -> & ->)]%when_inv.
  - apply poison_inv in E as [(x & -> & E)|(e & s2 & -> & E & Hf & ->)];
    destruct (seal_spec _ _ _ C N E) as [(C' & V & F & EF) HA].
    + split_and!; [|done..]. split; [by rewrite (fr_cfg _ _ F)|done|]. intros _ a Ha.
      destruct x, (HA eq_refl) as [Hn|[-> HE]]; [congruence|].
      split; [by apply N|]. destruct (inv_act _ C a Ha) as (recs & hdrs & HF & _ & HS & HI). rewrite HE in HI by done.
      destruct HF as [|rec h recs hdrs W HF]; [rewrite HS; vm_compute; discriminate|].
      exfalso. pose proof (proj2 (index_recs_is_Some 8 (rec :: recs) (h :: hdrs) ∅ (RKey h) ltac:(cbn; f_equal; by eapply Forall2_length))) as K.
      rewrite <- HI, lookup_empty in K. by destruct K as [? K]; [left; left|].
    + split_and!; [by eapply inv_failed| |done]. by destruct F.
  - split_and!; [|by split|done]. split; [done|done|]. by apply Hb.
Qed.

Lemma append_record_spec s a h rec syncNow r s' :
  inv s -> failed s = None -> active s = Some a -> a_index a !! RKey h = None -> whole rec h ->
  append_record a (RKey h) rec syncNow s = (r, s') -> wrote s s' (RKey h) rec r.
Proof.
  intros I HN Ha Hk W E. destruct (inv_path _ I HN a Ha) as [Hnm Hsz].
  unfold append_record in E. apply io_bind_inv in E as (r1 & d1 & E1 & E).
  apply WriteAt_out in E1 as (n & fs1 & E1 & Hn).
  destruct r1 as [[]|e]; cycle 1.
  { destruct E as [-> ->].
    assert (keeps s d1) as K by (subst d1; by apply keeps_write).
    destruct (core_keeps _ _ (inv_core _ I) K) as [C' V]. split; [|by split|done|by right].
    split; [apply I|done|]. intros _ a' Ha'. subst d1. by apply (inv_path _ I HN). }
  rewrite (Hn eq_refl) in E1. clear Hn n. rewrite M_modify, M_gets in E.
  change (MkActive (a_id a) _ _ _ _) with (grown a (RKey h) rec) in E.
  destruct (grown_ok (st_disk s) d1 a rec h (inv_act _ (inv_core _ I) a Ha) W) as (GA & GV & GO).
  { intros recs HS HL. subst d1. rewrite HS. by apply do_write_log. }
  set (s2 := set_active _ (set_disk d1 s)) in *.
  assert (core s2) as C2. { split; [apply I|]. intros a' [= <-]. exact GA. }
  assert (view s2 (RKey h) = Some rec /\ (forall k', k' <> RKey h -> view s2 k' = view s k')) as [V2 O2].
  { unfold view. cbn [active s2 set_active set_segments sealed st_disk set_disk mbind option_bind]. rewrite GV. split; [done|].
    intros k' Hk'. rewrite (GO k' Hk'), Ha. done. }
  assert (frame s s2 /\ failed s2 = None) as [F2 EF2] by (by split; [split|]).
  assert (named (2 * SEG_MAX) s2) as N2.
  { intros a' [= <-]. cbn [grown a_path a_f a_size s2 set_active set_segments st_disk set_disk]. subst d1. split; [exact Hnm|].
    pose proof (whole_length_bound _ _ W) as B. unfold SEG_MAX in *. change MaxPayload with (2 ^ 28) in B. lia. }
  cbn [st_cfg s2 set_active set_segments set_disk] in E. fold s2 in E.
  unfold mbind at 1, M_bind at 1 in E.
  destruct (when _ _ s2) as [r3 s3] eqn:E3.
  assert (core s3 /\ frame s s3 /\ (forall k, view s3 k = view s2 k) /\
  (r3 = Ok tt -> named (2 * SEG_MAX) s3 /\ active s3 = active s2) /\ (r3 <> Ok tt -> inv s3)) as (C3 & F3 & V3 & N3 & I3).
  { apply when_inv in E3 as [[_ E3]|(_ & -> & ->)]; [|by split_and!].
    apply poison_inv in E3 as [([] & -> & E3)|(e & s4 & -> & E3 & Hf & ->)];
    apply io_inv in E3 as (d3 & E3 & E4); apply Sync_out in E3 as (fs3 & E3).
    - assert (keeps s2 d3) as K by (destruct E3 as [[_ ->]|[E3 _]]; [apply keeps_sync|done]).
      destruct (core_keeps _ _ C2 K) as [C' V']. subst s3. split_and!; try done.
      intros _. split; [|done]. intros a' Ha'. destruct E3 as [[_ ->]|[E3 _]]; [by apply N2|done].
    - assert (keeps s2 d3) as K by (destruct E3 as [[E3 _]|[_ ->]]; [done|by apply keeps_inodes]).
      destruct (core_keeps _ _ C2 K) as [C' V']. subst s4.
      split_and!; [by destruct C'|by destruct F2|done|done|].
      intros _. eapply (inv_failed s); [done|by destruct F2|apply I|done]. }
  destruct r3 as [[]|e]; cycle 1.
  { injection E as <- <-. split; [by apply I3|done| |left; by rewrite V3]. intros k' Hk'. by rewrite V3, O2. }
  destruct (N3 eq_refl) as [N3' A3].
  assert (inv s' /\ frame s3 s' /\ forall k, view s' k = view s3 k) as (I' & F' & V').
  { eapply rotate_spec; [exact C3| |exact N3'| |exact E].
    - rewrite (fr_cfg _ _ F3). apply I.
    - intros Hb _ a' Ha'. split; [by apply N3'|]. rewrite A3 in Ha'. injection Ha' as <-.
      cbn [grown a_size] in Hb |- *. apply Z.leb_gt in Hb. pose proof (inv_cfg _ I). lia. }
  split; [done|by etransitivity| |left; by rewrite V', V3].
  intros k' Hk'. by rewrite V', V3, O2.
Qed.

(** ** The whole append, and the fsync *)

(** Invariant, frame and view of a step that changes none of what a client sees. *)
Record same_view (s s' : Store) : Prop := {
    sv_inv : inv s';
    sv_frame : frame s s';
    sv_view : forall k, view s' k = view s k
  }.
Lemma same_view_refl s : inv s -> same_view s s.
Proof. by split. Qed.
Lemma same_view_trans s1 s2 s3 : same_view s1 s2 -> same_view s2 s3 -> same_view s1 s3.
Proof. intros [_ F1 V1] [I2 F2 V2]. split; [done|by etransitivity|]. intros k. by rewrite V2. Qed.

Lemma wrote_after s1 s2 s3 k rec r : same_view s1 s2 -> wrote s2 s3 k rec r -> wrote s1 s3 k rec r.
Proof.
  intros [_ F1 V1] [I2 F2 O2 K2]. split; [done|by etransitivity| |].
  - intros k' Hk'. by rewrite O2, V1.
  - by rewrite <- V1.
Qed.
Lemma wrote_nothing s s' k rec r : same_view s s' -> (r = Ok tt -> is_Some (view s k)) -> wrote s s' k rec r.
Proof. intros [I F V] Hr. split; [done..|]. right. by rewrite V. Qed.

Lemma writable_inv s r s' :
  writable s = (r, s') -> s' = s /\ (r = Ok tt -> closed s = false /\ failed s = None).
Proof.
  unfold writable. rewrite M_gets. cbn [id]. destruct (closed s); [by intros [= <- <-]|].
  destruct (failed s); intros [= <- <-]; by split.
Qed.

Lemma ensure_active_spec s r s' :
  inv s -> failed s = None -> ensure_active s = (r, s') ->
  same_view s s' /\ failed s' = None /\
  forall a, r = Ok a -> active s' = Some a /\ (active s = Some a \/ a_index a = ∅).
Proof.
  intros I HN E. unfold ensure_active in E. unfold mbind at 1, M_bind at 1 in E. rewrite M_gets in E. cbn [id] in E.
  destruct (active s) as [a|] eqn:Ea.
  - cbn [mret M_ret] in E. rewrite M_gets, Ea in E. injection E as <- <-.
    split_and!; [by apply same_view_refl|done|]. intros a' [= <-]. split; [done|by left].
  - destruct (createActive s) as [r1 s1] eqn:E1.
    destruct (create_spec _ _ _ (inv_core _ I) Ea E1) as ((C & V & F & EF) & Nm & HA).
    assert (same_view s s1) as SV.
    { split; [|done..]. split; [rewrite (fr_cfg _ _ F); apply I|done|]. intros _ a Ha.
      destruct (Nm a Ha). unfold SEG_MAX. split; [done|lia]. }
    destruct r1 as [[]|e]; [|injection E as <- <-; split_and!; [done|congruence|done]].
    destruct (HA eq_refl) as (a & Ha & Hi). rewrite M_gets, Ha in E. injection E as <- <-.
    split_and!; [done|congruence|]. intros a'. intros [= <-]. split; [done|by right].
Qed.

Lemma append_spec s h rec syncNow r s' :
  inv s -> whole rec h -> appendLocked (RKey h) rec syncNow s = (r, s') -> wrote s s' (RKey h) rec r.
Proof.
  intros I W E. unfold appendLocked in E. unfold mbind at 1, M_bind at 1 in E.
  destruct (writable s) as [r1 s1] eqn:E1. apply writable_inv in E1 as [-> H1'].
  destruct r1 as [[]|e]; [|injection E as <- <-; apply wrote_nothing; [by apply same_view_refl|done]].
  destruct (H1' eq_refl) as [_ HN]. unfold mbind at 1, M_bind at 1 in E.
  destruct (ensure_active s) as [r2 s2] eqn:E2. destruct (ensure_active_spec _ _ _ I HN E2) as (SV & HN2 & HA).
  destruct r2 as [a|e]; [|injection E as <- <-; by apply wrote_nothing].
  destruct (HA a eq_refl) as [Ha Hor]. destruct (a_index a !! RKey h) as [loc|] eqn:EI.
  - injection E as <- <-. apply wrote_nothing; [done|]. intros _. rewrite <- (sv_view _ _ SV).
    unfold view. rewrite Ha. cbn [mbind option_bind]. unfold act_view. by rewrite EI.
  - eapply wrote_after; [exact SV|]. eapply append_record_spec; [apply SV|done..].
Qed.

Lemma sync_poison_spec s a r s' : inv s -> poison (io (Sync (a_f a))) s = (r, s') -> same_view s s'.
Proof.
  intros I E. apply poison_inv in E as [([] & -> & E2)|(e & s4 & -> & E2 & Hf & ->)];
  apply io_inv in E2 as (d2 & E2 & E4); apply Sync_out in E2 as (fs & E2).
  - assert (keeps s d2) as K by (destruct E2 as [[_ ->]|[E2 _]]; [apply keeps_sync|done]).
    destruct (core_keeps _ _ (inv_core _ I) K) as [C' V']. subst s'. split; [|done..].
    split; [apply I|done|]. intros HN a' Ha'. destruct E2 as [[_ ->]|[E2 _]]; [by apply (inv_path _ I HN)|done].
  - assert (keeps s d2) as K by (destruct E2 as [[E2 _]|[_ ->]]; [done|by apply keeps_inodes]).
    destruct (core_keeps _ _ (inv_core _ I) K) as [C' V']. subst s4. split; [|done..].
    eapply (inv_failed s); [done|done|apply I|done].
Qed.
Lemma syncActive_spec s r s' : inv s -> syncActive s = (r, s') -> same_view s s'.
Proof.
  intros I E. unfold syncActive in E. unfold mbind at 1, M_bind at 1 in E.
  destruct (writable s) as [r1 s1] eqn:E1. apply writable_inv in E1 as [-> _].
  destruct r1 as [[]|e]; [|injection E as <- <-; by apply same_view_refl].
  rewrite M_gets in E. cbn [id] in E. destruct (active s) as [a|]; [|injection E as <- <-; by apply same_view_refl].
  destruct (negb _); [injection E as <- <-; by apply same_view_refl|].
  unfold mbind, M_bind in E. destruct (poison (io (Sync (a_f a))) s) as [r2 s2] eqn:E2.
  pose proof (sync_poison_spec s a r2 s2 I E2) as SV.
  destruct r2 as [[]|e]; injection E as <- <-; [|done].
  destruct SV as [[Hc [CS CA] HP] F V]. split; [|by destruct F|done]. split; [done|by split|done].
Qed.

(** ** prepare *)

Lemma EncodeRecord_whole k data rec :
  Validate k = Ok tt -> EncodeRecord k data = Ok rec ->
  exists h, whole rec h /\ RKey h = k /\ RUlen h = zlen data /\
  DecodePayload (RFlags h) (RUlen h) (drop RecHeaderSize rec) = Ok data.
Proof.
  intros Hk (h & P & HK & HU & HL & HD)%EncodeRecord_parsed; [|done]. by exists h.
Qed.

(** What [prepare] lets through is one whole record of the object's key, and the payload of
    an object given as data. *)
Lemma prepare_whole obj verify rec n :
  Validate (SKey obj) = Ok tt -> prepare obj verify = Ok (rec, n) ->
  exists h, whole rec h /\ RKey h = SKey obj /\
  (SRecord obj = None -> DecodePayload (RFlags h) (RUlen h) (drop RecHeaderSize rec) = Ok (default [] (SData obj))) /\
  (verify = true -> exists data, DecodePayload (RFlags h) (RUlen h) (drop RecHeaderSize rec) = Ok data /\
    verifyObject (SKey obj) data = Ok tt).
Proof.
  intros Hk. unfold prepare. destruct (SRecord obj) as [record|].
  - case_bool_decide; [done|]. intros (h & HP & E)%res_bind_Ok.
    case_bool_decide as Hkey; cbn [negb] in E; [|done].
    destruct (Z.eqb_spec (zlen record) (Z.of_nat RecHeaderSize + RSlen h)) as [HL|]; cbn [negb] in E; [|done].
    apply res_bind_Ok in E as ([] & HV & [= <- <-]). apply ParseRecord_Ok in HP.
    assert (0 <= RSlen h) by (rewrite (pr_slen _ _ HP); apply be_get_range).
    exists h. split; [split; [done|unfold zlen in HL; lia]|]. split; [done|]. split; [done|].
    intros ->. apply res_bind_Ok in HV as (data & HD & HV). by exists data.
  - intros ([] & HV & E)%res_bind_Ok. apply res_bind_Ok in E as (rec' & HE & [= <- <-]).
    destruct (EncodeRecord_whole _ _ _ Hk HE) as (h & W & HK & HU & HD). exists h. split_and!; [done..|].
    intros ->. by eexists.
Qed.
End View.
