(* ===== verification/StoreSpec.v ===== *)
(** What the pack store promises its clients: reads return what the view holds, and a write
    adds its record to the view and touches nothing else, whatever system calls fail. *)
From S2P Require Import Prelude External Concrete Key Crc32 Record Pack Footer Disk Scan Store StoreInv.

Section Spec.
Context `{Blake3} `{HZs : ZstdOk} `{HFu : FuseOk}.

(** * Reads *)

(** The object that a whole record carries. *)
Definition payload (rec : bytes) : res bytes :=
  h ← ParseRecord rec; DecodePayload (RFlags h) (RUlen h) (drop RecHeaderSize rec).

Lemma payload_whole rec h :
  whole rec h -> payload rec = DecodePayload (RFlags h) (RUlen h) (drop RecHeaderSize rec).
Proof. intros [P%ParseRecord_Ok _]. unfold payload. by rewrite P. Qed.

(** The abstract reads. *)
Definition found {A} (f : bytes -> res A) (o : option bytes) : res A :=
  match o with Some rec => f rec | None => Err [ErrNotFound] end.

Lemma newest_view {A} (f : sealedSegment -> res (option A)) (g : bytes -> res A) l k :
  Forall seg_ok l ->
  (forall sg, seg_ok sg -> f sg = match seg_view k sg with Some r => x ← g r; Ok (Some x) | None => Ok None end) ->
  (r ← newest f (rev l); from_opt [ErrNotFound] r) = found g (segs_view l k).
Proof.
  intros F Hf. induction l as [|x l IH] using rev_ind; [done|].
  apply Forall_app in F as [F Fx]. apply Forall_cons_1 in Fx as [Fx _].
  rewrite segs_view_snoc, rev_app_distr. cbn [rev app newest]. rewrite (Hf x Fx).
  destruct (seg_view k x) as [r|]; cbn [mbind res_bind found]; [|by apply IH].
  by destruct (g r).
Qed.

Lemma newest_Ok {A} (f : sealedSegment -> option A) l : newest (fun g => Ok (f g)) l = Ok (head (omap f l)).
Proof. induction l as [|g l IH]; [done|]. cbn. by destruct (f g). Qed.

Lemma seg_has_view g k : seg_ok g -> seg_has g k = bool_decide (is_Some (seg_view k g)).
Proof.
  intros HG. rewrite seg_view_lookup by done. destruct HG as (_ & es & Hix & _).
  rewrite (seg_has_lookup g es Hix). apply bool_decide_ext. by rewrite fmap_is_Some.
Qed.
Lemma seg_getRecord_view g k : seg_ok g -> seg_getRecord g k = Ok (seg_view k g).
Proof.
  intros HG. unfold seg_view. destruct (seg_getRecord g k) as [r|e] eqn:E; [done|exfalso].
  destruct HG as (HB & es & Hix & HE). unfold seg_getRecord in E. destruct (negb (filter_has g k)); [done|].
  destruct (lookup_ (sg_fv g) k) as [[off slen]|] eqn:EL; [|done].
  apply (lookup_Some _ _ Hix) in EL. rewrite list.Forall_forall in HE. destruct (HE _ EL) as (H8 & Hend & h & W & _ & Hs).
  cbn [ie_off ie_slen] in *. pose proof (whole_slen_bound _ _ W).
  unfold seg_bounds in E. change (zlen magicHeader) with 8 in E.
  rewrite (proj2 (Z.ltb_ge off 8)), (proj2 (Z.ltb_ge _ off)), (proj2 (Z.ltb_ge _ (Z.of_nat RecHeaderSize + slen))) in E
  by (unfold RecHeaderSize in *; lia).
  done.
Qed.

(** The header fields the reads pick out of a record are the parser's. *)
Lemma seg_reads_at g k off slen h :
  lookup_ (sg_fv g) k = Some (off, slen) -> filter_has g k = true ->
  8 <= off -> off + Z.of_nat RecHeaderSize + slen <= fv_bodyLen (sg_fv g) -> fv_bodyLen (sg_fv g) <= zlen (sg_mm g) ->
  whole (rec_at (sg_mm g) off slen) h -> RSlen h = slen ->
  seg_getRecord g k = Ok (Some (rec_at (sg_mm g) off slen)) /\
  seg_get g k = (x ← payload (rec_at (sg_mm g) off slen); Ok (Some x)).
Proof.
  intros EL HF H8 Hend HB W Hs. pose proof (whole_slen_bound _ _ W). unfold seg_getRecord, seg_get. rewrite HF, EL. cbn [negb].
  unfold seg_bounds. change (zlen magicHeader) with 8.
  rewrite (proj2 (Z.ltb_ge off 8)), (proj2 (Z.ltb_ge _ off)), (proj2 (Z.ltb_ge _ (Z.of_nat RecHeaderSize + slen)))
  by (unfold RecHeaderSize in *; lia).
  split; [done|].
  cbn [orb negb]. set (mm := sg_mm g) in *. set (o := Z.to_nat off).
  rewrite (payload_whole _ _ W). destruct W as [P _]. unfold rec_at in *. fold o in P |- *.
  assert (length (slice o (o + RecHeaderSize + Z.to_nat slen) mm) = (RecHeaderSize + Z.to_nat slen)%nat) as L.
  { rewrite length_slice; unfold zlen, RecHeaderSize in *; lia. }
  assert (forall i j, (i <= j <= 46)%nat -> slice i j (slice o (o + RecHeaderSize) mm) =
  slice i j (slice o (o + RecHeaderSize + Z.to_nat slen) mm)) as ES.
  { intros i j Hij. unfold slice. rewrite !skipn_firstn_comm, !take_take. f_equal. unfold RecHeaderSize. lia. }
  rewrite (ES 34 38)%nat by lia. rewrite <- (pr_ulen _ _ P).
  assert (byte_at (slice o (o + RecHeaderSize) mm) 33 = RFlags h) as ->.
  { rewrite (pr_flags _ _ P). unfold byte_at.
    pose proof (ES 33 34 ltac:(lia))%nat as E1. unfold slice at 1 3 in E1. cbn [Nat.sub] in E1.
    assert (forall l : bytes, nth 33 l x00 = nth 0 (take 1 (drop 33 l)) x00) as En.
    { intros l. rewrite <- (take_drop 33 l) at 1. destruct (decide (33 <= length l)%nat) as [Hl|Hl].
      - rewrite app_nth2 by (rewrite length_take; lia). rewrite length_take, min_l, Nat.sub_diag by lia.
        by destruct (drop 33 l).
      - rewrite (drop_ge l) by lia. rewrite app_nil_r, nth_overflow by (rewrite length_take; lia). done. }
    rewrite !En. by rewrite E1. }
  assert (slice (o + RecHeaderSize) (o + RecHeaderSize + Z.to_nat slen) mm =
  drop RecHeaderSize (slice o (o + RecHeaderSize + Z.to_nat slen) mm)) as ->; [|done].
  unfold slice. rewrite skipn_firstn_comm, drop_drop. f_equal. lia.
Qed.
Lemma seg_get_view g k :
  seg_ok g -> seg_get g k = match seg_view k g with Some r => x ← payload r; Ok (Some x) | None => Ok None end.
Proof.
  intros HG. rewrite seg_view_lookup by done. destruct HG as (HB & es & Hix & HE).
  destruct (lookup_ (sg_fv g) k) as [[off slen]|] eqn:EL; [|unfold seg_get; rewrite EL; by destruct (filter_has g k)].
  pose proof (lookup_filter _ _ Hix _ _ EL) as HF. cbn [fmap option_fmap option_map].
  pose proof (proj1 (lookup_Some _ _ Hix _ _ _) EL) as Hin. rewrite list.Forall_forall in HE.
  destruct (HE _ Hin) as (H8 & Hend & h & W & _ & Hs). by apply (seg_reads_at g k off slen h).
Qed.

Lemma seg_storedSize_view g k :
  seg_ok g -> Ok (seg_storedSize g k) = match seg_view k g with
  | Some r => x ← Ok (zlen r - Z.of_nat RecHeaderSize); Ok (Some x) | None => Ok None end :> res (option Z).
Proof.
  intros HG. rewrite seg_view_lookup by done. destruct HG as (HB & es & Hix & HE).
  rewrite (seg_storedSize_lookup g es Hix). destruct (lookup_ (sg_fv g) k) as [[off slen]|] eqn:EL; [|done].
  cbn [fmap option_fmap option_map mbind res_bind snd]. do 2 f_equal.
  apply (lookup_Some _ _ Hix) in EL. rewrite list.Forall_forall in HE. destruct (HE _ EL) as (_ & _ & h & W & _ & Hs).
  cbn [ie_off ie_slen] in *. destruct (whole_len _ _ W) as [-> _]. lia.
Qed.

(** ** The active segment's part *)

Lemma active_loc_view s k :
  core s ->
  match active_loc s k with
  | Some (a, loc) => active s = Some a /\ exists rec h, whole rec h /\ RKey h = k /\ view s k = Some rec /\
    rec_at (data_of (st_disk s) (a_f a)) (al_off loc) (al_slen loc) = rec /\ 8 <= al_off loc /\
    al_slen loc = RSlen h /\ al_flags loc = RFlags h /\ al_ulen loc = RUlen h
  | None => view s k = segs_view (sealed s) k
  end.
Proof.
  intros C. unfold active_loc, view. destruct (active s) as [a|] eqn:Ea; [|done]. cbn [mbind option_bind].
  unfold act_view. destruct (a_index a !! k) as [loc|] eqn:E; [|done].
  cbn [mbind option_bind fmap option_fmap option_map]. split; [done|].
  destruct (inv_act _ C a Ea) as (recs & hdrs & F & (tl & HD)%log_at_data & HS & HI). rewrite HI in E.
  destruct (rec_at_log _ _ _ tl _ _ F HD E) as (rec & h & _ & W & Hk & Er & H8 & _ & _ & E1 & E2 & E3).
  exists rec, h. rewrite Er. by split_and!.
Qed.

(** ** The reads of a store *)

Lemma existsb_view l k :
  Forall seg_ok l -> existsb (fun g => seg_has g k) (rev l) = bool_decide (is_Some (segs_view l k)).
Proof.
  induction l as [|g l IH] using rev_ind; [done|]. intros [F Fg]%Forall_app. apply Forall_cons_1 in Fg as [Fg _].
  rewrite segs_view_snoc, rev_app_distr. cbn [rev app existsb]. rewrite (seg_has_view _ _ Fg), IH by done.
  destruct (seg_view k g) as [r|]; [by rewrite bool_decide_eq_true_2 by eauto|].
  by rewrite (bool_decide_eq_false_2 (is_Some None)) by (by intros [? [=]]).
Qed.
Lemma existsb_view_true l k :
  Forall seg_ok l -> existsb (fun g => seg_has g k) (rev l) = true <-> is_Some (segs_view l k).
Proof. intros F. by rewrite existsb_view, bool_decide_eq_true. Qed.
Lemma Has_view s k : core s -> Has s k = if closed s then Err [ErrClosed] else Ok (bool_decide (is_Some (view s k))).
Proof.
  intros C. unfold Has. destruct (closed s); [done|]. pose proof (active_loc_view s k C) as A.
  destruct (active_loc s k) as [[a loc]|].
  - destruct A as (_ & rec & h & _ & _ & -> & _). by rewrite bool_decide_eq_true_2.
  - rewrite A. f_equal. apply existsb_view, C.
Qed.

(** Without faults a read is a function of the view; with faults it may fail instead, and
    never answers anything else. *)
Definition answers {A} (r : res A) (spec : res A) : Prop := r = spec \/ r = Err [EIO].

Lemma ReadAt_rec d i len off r d' b :
  ReadAt i len off d = (r, d') -> b = slice (Z.to_nat off) (Z.to_nat off + len) (data_of d i) -> length b = len ->
  (r = Ok b \/ r = Err [EIO]) /\ (faults d = [] -> r = Ok b).
Proof.
  intros E -> L. unfold ReadAt, attempt in E. destruct (faults d) as [|[n|] fs].
  - rewrite L, Nat.eqb_refl in E. injection E as <- _. by split; [left|].
  - injection E as <- _. by split; [right|].
  - change (data_of (set_faults fs d) i) with (data_of d i) in E. rewrite L, Nat.eqb_refl in E.
    injection E as <- _. by split; [left|].
Qed.

Lemma GetRecord_view s k r s' :
  core s -> GetRecord k s = (r, s') ->
  let spec := if closed s then Err [ErrClosed] else found (fun rec => Ok rec) (view s k) in
  answers r spec /\ (faults (st_disk s) = [] -> r = spec).
Proof.
  intros C E. unfold GetRecord in E. rewrite M_gets in E. cbn [id] in E.
  destruct (closed s); [injection E as <- _; by split; [left|]|]. cbv zeta.
  pose proof (active_loc_view s k C) as A. destruct (active_loc s k) as [[a loc]|].
  - destruct A as (Ha & rec & h & W & _ & -> & Er & H8 & Es & _). apply io_inv in E as (d' & E & ->).
    destruct (whole_len _ _ W) as [HL Hs0].
    apply (ReadAt_rec _ _ _ _ _ _ rec) in E; [exact E| |unfold zlen, RecHeaderSize in *; lia].
    rewrite <- Er. unfold rec_at. f_equal. lia.
  - unfold lift in E. injection E as <- _. rewrite A.
    rewrite (newest_view _ (fun rec => Ok rec) _ k (inv_segs _ C)); [by split; [left|]|].
    intros g HG. rewrite (seg_getRecord_view _ _ HG). by destruct (seg_view k g).
Qed.

Lemma Get_view s k r s' :
  core s -> Get k s = (r, s') ->
  let spec := if closed s then Err [ErrClosed] else found payload (view s k) in
  answers r spec /\ (faults (st_disk s) = [] -> r = spec).
Proof.
  intros C E. unfold Get in E. rewrite M_gets in E. cbn [id] in E.
  destruct (closed s); [injection E as <- _; by split; [left|]|]. cbv zeta.
  pose proof (active_loc_view s k C) as A. destruct (active_loc s k) as [[a loc]|].
  - destruct A as (Ha & rec & h & W & _ & -> & Er & H8 & Es & Ef & Eu).
    apply io_bind_inv in E as (rx & d' & E & E'). destruct (whole_len _ _ W) as [HL Hs0].
    apply (ReadAt_rec _ _ _ _ _ _ (drop RecHeaderSize rec)) in E.
    + cbn [found]. rewrite (payload_whole _ _ W). destruct E as [[-> | ->] E2].
      * unfold lift in E'. injection E' as <- _. rewrite Ef, Eu. by split; [left|].
      * destruct E' as [-> _]. split; [by right|]. intros HN. by specialize (E2 HN).
    + rewrite <- Er. unfold rec_at, slice. rewrite skipn_firstn_comm, drop_drop. f_equal; [lia|]. f_equal. lia.
    + rewrite length_drop. unfold zlen, RecHeaderSize in *. lia.
  - unfold lift in E. injection E as <- _. rewrite A.
    rewrite (newest_view _ payload _ k (inv_segs _ C)); [by split; [left|]|].
    intros g HG. by apply seg_get_view.
Qed.

Lemma StoredSize_view s k :
  core s -> StoredSize s k = if closed s then Err [ErrClosed]
  else Ok (match view s k with Some rec => (zlen rec - Z.of_nat RecHeaderSize, true) | None => (0, false) end).
Proof.
  intros C. unfold StoredSize. destruct (closed s); [done|]. pose proof (active_loc_view s k C) as A.
  destruct (active_loc s k) as [[a loc]|].
  - destruct A as (_ & rec & h & W & _ & -> & _ & _ & -> & _). destruct (whole_len _ _ W) as [-> _].
    do 2 f_equal. lia.
  - rewrite A. pose proof (newest_view (fun g => Ok (seg_storedSize g k)) (fun r => Ok (zlen r - Z.of_nat RecHeaderSize))
    (sealed s) k (inv_segs _ C) (fun g HG => seg_storedSize_view g k HG)) as N.
    destruct (newest _ _) as [[n|]|e] eqn:EN; cbn [mbind res_bind from_opt] in N |- *.
    + destruct (segs_view _ _); [|done]. cbn in N. by injection N as ->.
    + by destruct (segs_view _ _).
    + by rewrite newest_Ok in EN.
Qed.

(** * Writes *)

(** What a client may rely on: nothing stored is lost or altered. *)
Record grows (s s' : Store) : Prop := {
    gr_inv : inv s';
    gr_frame : frame s s';
    gr_kept : forall k rec, view s k = Some rec -> view s' k = Some rec
  }.
Lemma grows_refl s : inv s -> grows s s.
Proof. by split. Qed.
Lemma grows_trans s1 s2 s3 : grows s1 s2 -> grows s2 s3 -> grows s1 s3.
Proof. intros [_ F1 K1] [I2 F2 K2]. split; [done|by etransitivity|]. intros k rec Hr. by apply K2, K1. Qed.
Lemma same_view_grows s s' : same_view s s' -> grows s s'.
Proof. intros [I F V]. split; [done..|]. intros k rec. by rewrite V. Qed.

(** A step that may add a record for [k], of those [ok] allows. *)
Record adds (s s' : Store) (k : Key) (ok : bytes -> Prop) (succeeded : Prop) : Prop := {
    ad_inv : inv s';
    ad_frame : frame s s';
    ad_others : forall k', k' <> k -> view s' k' = view s k';
    ad_key : (view s' k = view s k /\ (succeeded -> is_Some (view s k))) \/
    (view s k = None /\ exists rec, ok rec /\ view s' k = Some rec)
  }.
Lemma adds_grows s s' k ok P : adds s s' k ok P -> grows s s'.
Proof.
  intros [I F O [[E _]|(E & _)]]; (split; [done..|]; intros k' rec Hv; destruct (decide (k' = k)) as [->|];
  [congruence|by rewrite O]).
Qed.

Lemma observe_same s k r s' : inv s -> observe k s = (r, s') -> r = Ok tt /\ same_view s s'.
Proof.
  intros I [= <- <-]. split; [done|].
  set (s' := if negb (capturing s) then s else _).
  assert (exists c g, s' = set_barrier c g s \/ s' = s) as (c & g & [E|E]).
  { unfold s'. destruct (negb _); [exists true, None; by right|]. destruct (grey s) as [g|]; [|exists true, None; by right].
    eexists _, _. by left. }
  - rewrite E. destruct I as [Hc [CS CA] HP]. by split.
  - rewrite E. by apply same_view_refl.
Qed.

Lemma adds_after s1 s2 s3 k ok P : same_view s1 s2 -> adds s2 s3 k ok P -> adds s1 s3 k ok P.
Proof.
  intros [_ F1 V1] [I2 F2 O2 K2]. split; [done|by etransitivity| |by rewrite <- V1].
  intros k' Hk'. by rewrite O2, V1.
Qed.
Lemma adds_nothing s k ok (P : Prop) : inv s -> (P -> is_Some (view s k)) -> adds s s k ok P.
Proof. intros I HP. split; [done..|by left]. Qed.

(** The shape all writers share: dedup, then encode, then append. *)
Lemma dedup_append s h rec b r s' (P : Prop) (ok : bytes -> Prop) :
  inv s -> view s (RKey h) = None -> whole rec h -> ok rec -> (P -> r = Ok tt) ->
  append (RKey h) rec b s = (r, s') -> adds s s' (RKey h) ok P.
Proof.
  intros I HN W Hok HP E. destruct (append_spec s h rec b r s' I W E) as [I' F O K].
  split; [done..|]. destruct K as [K|[K Hs]]; [right; eauto|]. left. split; [done|]. intros HPP. by apply Hs, HP.
Qed.

Lemma Put_spec s k data r s' :
  inv s -> Validate k = Ok tt -> Put k data s = (r, s') ->
  adds s s' k (fun rec => EncodeRecord k data = Ok rec) (r = Ok tt).
Proof.
  intros I Hk E. unfold Put in E. rewrite M_gets in E. cbn [id] in E.
  destruct (failed s); [injection E as <- <-; by apply adds_nothing|].
  unfold mbind at 1, M_bind at 1 in E. destruct (observe k s) as [r1 s1] eqn:E1.
  destruct (observe_same _ _ _ _ I E1) as [-> SV]. apply (adds_after s s1); [done|].
  unfold mbind at 1, M_bind at 1, reads in E. rewrite Has_view in E by apply SV.
  destruct (closed s1); [injection E as <- <-; apply adds_nothing; [apply SV|done]|].
  case_bool_decide as HS; [injection E as <- <-; apply adds_nothing; [apply SV|done]|].
  rewrite M_lift in E. destruct (EncodeRecord k data) as [rec|e] eqn:EE;
  [|injection E as <- <-; apply adds_nothing; [apply SV|done]].
  destruct (EncodeRecord_whole _ _ _ Hk EE) as (h & W & <- & _).
  eapply dedup_append; [apply SV| |exact W|done| |exact E]; [|done].
  by destruct (view s1 (RKey h)); [destruct HS; eauto|].
Qed.

Lemma batch_object_spec s obj r s' :
  inv s -> Validate (SKey obj) = Ok tt -> batch_object obj s = (r, s') ->
  adds s s' (SKey obj) (fun rec => exists n, prepare obj false = Ok (rec, n)) (is_ok r = true).
Proof.
  intros I Hk E. unfold batch_object in E.
  unfold mbind at 1, M_bind at 1 in E. destruct (observe (SKey obj) s) as [r1 s1] eqn:E1.
  destruct (observe_same _ _ _ _ I E1) as [-> SV]. apply (adds_after s s1); [done|].
  unfold mbind at 1, M_bind at 1, reads in E. rewrite Has_view in E by apply SV.
  destruct (closed s1); [injection E as <- <-; apply adds_nothing; [apply SV|done]|].
  case_bool_decide as HS; [injection E as <- <-; apply adds_nothing; [apply SV|done]|].
  rewrite M_lift in E. destruct (prepare obj false) as [[rec n]|e] eqn:EE;
  [|injection E as <- <-; apply adds_nothing; [apply SV|done]].
  destruct (prepare_whole _ _ _ _ Hk EE) as (h & W & Hh & _). rewrite <- Hh in E, HS |- *.
  unfold mbind, M_bind in E. destruct (append (RKey h) rec false s1) as [r2 s2] eqn:E2.
  assert (s' = s2 /\ (is_ok r = true -> r2 = Ok tt)) as [-> Hr].
  { destruct r2 as [[]|]; by injection E as <- <-. }
  eapply dedup_append; [apply SV| |exact W| |exact Hr|exact E2]; [|by exists n].
  by destruct (view s1 (RKey h)); [destruct HS; eauto|].
Qed.

(** A batch adds records of its objects only, and, when it reports success, all of them. *)
Lemma batch_loop_spec seq seen b s r s' :
  inv s -> Forall (fun x => forall obj, x = Ok obj -> Validate (SKey obj) = Ok tt) seq ->
  batch_loop seq seen b s = (r, s') ->
  grows s s' /\
  (forall k rec, view s k = None -> view s' k = Some rec ->
    exists obj n, Ok obj ∈ seq /\ SKey obj = k /\ prepare obj false = Ok (rec, n)) /\
  (r = Ok tt -> (forall k, k ∈ seen -> is_Some (view s k)) ->
    forall x, x ∈ seq -> exists obj, x = Ok obj /\ is_Some (view s' (SKey obj))).
Proof.
  intros I. revert seen b s I. induction seq as [|x seq IH]; intros seen b s I HF E.
  - cbn [batch_loop] in E. apply syncActive_spec in E; [|done].
    split; [by apply same_view_grows|]. split; [|intros _ _ x Hx; by apply elem_of_nil in Hx].
    intros k rec Hv0 Hv1. rewrite (sv_view _ _ E) in Hv1. congruence.
  - apply Forall_cons_1 in HF as [Hx HF]. destruct x as [obj|e]; cbn [batch_loop] in E; cycle 1.
    { assert (same_view s s' /\ r = Err e) as [SV ->].
      { destruct b; cbn [when] in E; [rewrite ignore_inv in E; destruct (syncActive s) as [r1 s1] eqn:E1|];
        injection E as <- <-; (split; [|done]); [by eapply syncActive_spec|by apply same_view_refl]. }
      split; [by apply same_view_grows|]. split; [|done]. intros k rec Hv0 Hv1. rewrite (sv_view _ _ SV) in Hv1. congruence. }
    case_bool_decide as Hseen.
    { destruct (IH seen b s I HF E) as (G & A & Hr). split; [done|]. split.
      - intros k rec Hv0 Hv1. destruct (A k rec Hv0 Hv1) as (o & n & Ho & ?). exists o, n. split; [by right|done].
      - intros HO Hs x [-> |Hin]%elem_of_cons; [|by apply Hr]. exists obj. split; [done|].
        destruct (Hs _ Hseen) as [rec Hrec]. exists rec. by apply G. }
    unfold mbind at 1, M_bind at 1, catch at 1 in E.
    destruct (batch_object obj s) as [r1 s1] eqn:E1. pose proof (batch_object_spec _ _ _ _ I (Hx obj eq_refl) E1) as Ad.
    assert (forall k rec, view s k = None -> view s1 k = Some rec ->
    exists obj' n, Ok obj' ∈ Ok obj :: seq /\ SKey obj' = k /\ prepare obj' false = Ok (rec, n)) as New.
    { intros k rec Hv0 Hv1. destruct (decide (k = SKey obj)) as [->|Hne]; [|rewrite (ad_others _ _ _ _ _ Ad) in Hv1 by done; congruence].
      destruct (ad_key _ _ _ _ _ Ad) as [[EV _]|(_ & rec' & (n & Hp) & EV)]; [congruence|].
      exists obj, n. split; [by left|]. split; [done|]. congruence. }
    destruct r1 as [b1|e].
    + destruct (IH ({[SKey obj]} ∪ seen) (b1 || b) s1) as (G & A & Hr); [apply Ad|done|done|].
      split; [eapply grows_trans; [by eapply adds_grows|done]|]. split.
      * intros k rec Hv0 Hv1. destruct (view s1 k) as [rec1|] eqn:Ev1.
        -- apply G in Ev1 as Ev2. rewrite Hv1 in Ev2. injection Ev2 as ->. by apply New.
        -- destruct (A k rec Ev1 Hv1) as (o & n & Ho & ?). exists o, n. split; [by right|done].
      * intros HO Hs. assert (is_Some (view s1 (SKey obj))) as Hobj.
        { destruct (ad_key _ _ _ _ _ Ad) as [[EV Hsome]|(_ & rec' & _ & EV)]; [rewrite EV; by apply Hsome|by exists rec']. }
        intros x [-> |Hin]%elem_of_cons.
        -- exists obj. split; [done|]. destruct Hobj as [rec Hrec]. exists rec. by apply G.
        -- apply Hr; [done| |done]. intros k [->%elem_of_singleton|Hk]%elem_of_union; [done|].
          destruct (Hs k Hk) as [rec Hrec]. exists rec. by eapply (gr_kept _ _ (adds_grows _ _ _ _ _ Ad)).
    + assert (same_view s1 s' /\ exists e', r = Err e') as [SV [e' ->]].
      { unfold mbind, M_bind, fail in E. destruct b; cbn [when mret M_ret] in E.
        - unfold ignore in E. destruct (syncActive s1) as [r3 s3] eqn:E3. cbn [snd] in E. injection E as <- <-.
          split; [|by eexists]. eapply syncActive_spec; [apply Ad|done].
        - injection E as <- <-. split; [apply same_view_refl, Ad|by eexists]. }
      split; [eapply grows_trans; [by eapply adds_grows|by apply same_view_grows]|].
      split; [|done]. intros k rec Hv0 Hv1. rewrite (sv_view _ _ SV) in Hv1. by apply New.
Qed.

(** An object just put reads back. *)
Lemma payload_EncodeRecord k data rec :
  Validate k = Ok tt -> EncodeRecord k data = Ok rec -> payload rec = Ok data.
Proof.
  intros Hk E. destruct (EncodeRecord_whole _ _ _ Hk E) as (h & W & _ & _ & HD).
  by rewrite (payload_whole _ _ W).
Qed.
End Spec.

(** * Properties *)

(** A store over an empty directory, as [Open] makes it. *)
Definition fresh (cfg : config) (d : Disk) : Store := MkStore d cfg false None [] None 1 false None 0.
Definition empty_disk (fs : list (option nat)) : Disk := MkDisk ∅ ∅ 0 fs.
Lemma inv_fresh `{Fuse} cfg d : segmentSize cfg <= SEG_MAX -> inv (fresh cfg d).
Proof. intros Hc. split; [done|by split|by intros _ a [=]]. Qed.
Lemma view_fresh `{Fuse} cfg d k : view (fresh cfg d) k = None.
Proof. done. Qed.

(** C15. Put, whichever system calls fail on the way (a torn write, a failed fsync, any step
    of a rotation): the invariant holds again, no other key is touched, an object already
    stored keeps its record, a record that appears decodes to the data put, and a success
    means that the key is stored. *)
Theorem put_correct `{ZstdOk} `{FuseOk} s k data r s' :
  inv s -> Validate k = Ok tt -> Put k data s = (r, s') ->
  inv s' /\ (forall k', k' <> k -> view s' k' = view s k') /\
  (forall rec, view s k = Some rec -> view s' k = Some rec) /\
  (forall rec, view s k = None -> view s' k = Some rec -> payload rec = Ok data) /\
  (r = Ok tt -> is_Some (view s' k)).
Proof.
  intros I Hk E. pose proof (Put_spec s k data r s' I Hk E) as A. split_and!; [apply A|apply A| | |].
  - by apply (adds_grows _ _ _ _ _ A).
  - intros rec Hn Hs. destruct (ad_key _ _ _ _ _ A) as [[EV _]|(_ & rec' & HE & EV)]; [congruence|].
    rewrite EV in Hs. injection Hs as ->. by eapply payload_EncodeRecord.
  - intros Hr. destruct (ad_key _ _ _ _ _ A) as [[EV HS]|(_ & rec' & _ & EV)]; rewrite EV; [by apply HS|by eexists].
Qed.
Definition sample_cfg : config := MkConfig 120 true.
Lemma put_correct_witness :
  exists r s', Put sample_key [x61; x62; x63] (fresh sample_cfg (empty_disk [None; None; None; None; Some 20%nat])) = (r, s') /\
    r = Err [EIO] /\ inv s' /\ view s' (mk32 []) = None.
Proof.
  destruct (Put sample_key [x61; x62; x63] (fresh sample_cfg (empty_disk [None; None; None; None; Some 20%nat]))) as [r s'] eqn:E.
  exists r, s'. split; [done|].
  assert (r = Err [EIO]) as -> by (apply (f_equal fst) in E; cbn [fst] in E; rewrite <- E; vm_compute; reflexivity).
  split; [done|].
  destruct (put_correct _ sample_key _ _ _ (inv_fresh sample_cfg _ ltac:(by vm_compute)) eq_refl E) as (I & O & _).
  split; [exact I|]. rewrite O; [done|]. intros Ek. apply (f_equal b32_bytes) in Ek. by vm_compute in Ek.
Defined.

(** WriteBatch, whichever system calls fail and whatever the iterator yields: nothing
    stored before is lost or altered, every record that appears is one that [prepare]
    accepted for an object of the batch, and a success means that every object of the batch
    is stored. *)
Theorem write_batch_correct `{Blake3} `{ZstdOk} `{FuseOk} s seq r s' :
  inv s -> Forall (fun x => forall obj, x = Ok obj -> Validate (SKey obj) = Ok tt) seq ->
  WriteBatch seq s = (r, s') ->
  grows s s' /\
  (forall k rec, view s k = None -> view s' k = Some rec ->
     exists obj n, Ok obj ∈ seq /\ SKey obj = k /\ prepare obj false = Ok (rec, n)) /\
  (r = Ok tt -> forall x, x ∈ seq -> exists obj, x = Ok obj /\ is_Some (view s' (SKey obj))).
Proof.
  intros I HF E. destruct (batch_loop_spec seq ∅ false s r s' I HF E) as (G & A & B).
  split_and!; [done..|]. intros Hr. apply B; [done|]. intros k Hk. by apply elem_of_empty in Hk.
Qed.
Definition sample_obj : StoreObject := MkStoreObject sample_key (Some [x61; x62; x63]) None.
Lemma write_batch_correct_witness :
  exists s', WriteBatch [Ok sample_obj; Ok sample_obj] (fresh sample_cfg (empty_disk [])) = (Ok tt, s') /\
    is_Some (view s' sample_key).
Proof.
  destruct (WriteBatch [Ok sample_obj; Ok sample_obj] (fresh sample_cfg (empty_disk []))) as [r s'] eqn:E.
  exists s'. assert (r = Ok tt) as -> by (apply (f_equal fst) in E; cbn [fst] in E; rewrite <- E; vm_compute; reflexivity).
  split; [done|].
  assert (Forall (fun x => forall obj, x = Ok obj -> Validate (SKey obj) = Ok tt) [Ok sample_obj; Ok sample_obj]) as HF
    by (repeat constructor; by intros obj [= <-]).
  destruct (write_batch_correct _ _ _ _ (inv_fresh sample_cfg (empty_disk []) ltac:(by vm_compute)) HF E) as (_ & _ & B).
  destruct (B eq_refl (Ok sample_obj) ltac:(by left)) as (obj & [= <-] & Hs). exact Hs.
Defined.

(** C19. The reads are functions of the view: Has, StoredSize, GetRecord and Get answer from
    the newest record of the key, wherever it lives - active segment or any sealed segment
    behind its filter and index - and a failing read answers an error, never other bytes. *)
Theorem reads_refine_view `{Zstd} `{FuseOk} s k :
  inv s -> closed s = false ->
  Has s k = Ok (bool_decide (is_Some (view s k))) /\
  StoredSize s k = Ok (match view s k with Some rec => (zlen rec - Z.of_nat RecHeaderSize, true) | None => (0, false) end) /\
  (forall r s', GetRecord k s = (r, s') ->
     answers r (found (fun rec => Ok rec) (view s k)) /\
     (faults (st_disk s) = [] -> r = found (fun rec => Ok rec) (view s k))) /\
  (forall r s', Get k s = (r, s') ->
     answers r (found payload (view s k)) /\ (faults (st_disk s) = [] -> r = found payload (view s k))).
Proof.
  intros I Hc. pose proof (inv_core _ I) as C. split_and!.
  - by rewrite (Has_view _ _ C), Hc.
  - by rewrite (StoredSize_view _ _ C), Hc.
  - intros r s' E. pose proof (GetRecord_view s k r s' C E) as G. by rewrite Hc in G.
  - intros r s' E. pose proof (Get_view s k r s' C E) as G. by rewrite Hc in G.
Qed.
Definition one_put : Store := snd (Put sample_key [x61; x62; x63] (fresh sample_cfg (empty_disk []))).
Lemma reads_refine_view_witness :
  inv one_put /\ Has one_put sample_key = Ok true.
Proof.
  assert (inv one_put) as I.
  { unfold one_put. destruct (Put _ _ _) as [r s'] eqn:E. cbn [snd].
    apply (Put_spec _ sample_key _ _ _ (inv_fresh sample_cfg (empty_disk []) ltac:(by vm_compute)) eq_refl E). }
  split; [exact I|]. rewrite (proj1 (reads_refine_view one_put sample_key I ltac:(vm_compute; reflexivity))).
  vm_compute. reflexivity.
Defined.
