(* ===== verification/Frame.v ===== *)
(** A frame property of the write path (src/packstore/packstore.go): appending, rotating and
    fsyncing never look at the sealed segments, they only add to the end of the list, under
    identifiers that come from [nextID]. So what they do to a store they do to the same store
    with any other list of sealed segments - the ones that survive a sweep, for instance. *)
From S2P Require Import Prelude External Concrete Key Crc32 Record Pack Footer Disk Scan Store StoreInv StoreSpec.

(** [P] holds of the identifiers the write path may still use. *)
Record fresh_ids (P : Z -> Prop) (s : Store) : Prop := {
    fi_active a : active s = Some a -> P (a_id a) /\ a_path a = segName (a_id a) activeSuffix;
    fi_next i : nextID s <= i -> P i
  }.
Definition sealed_as (P : Z -> Prop) (g : sealedSegment) : Prop := P (sg_id g) /\ sg_path g = segName (sg_id g) sealedSuffix.

(** [m], run in [s], adds [new] to the sealed segments and looks at none of them; it takes at
    most [b] identifiers. *)
Record framed {A} (b : Z) (m : M Store A) (s : Store) (r : res A) (s' : Store) (new : list sealedSegment) : Prop := {
    fr_run : m s = (r, s');
    fr_sealed : sealed s' = sealed s ++ new;
    fr_any l : m (set_sealed l s) = (r, set_sealed (l ++ new) s');
    fr_ids : 0 <= nextID s -> nextID s + b < 2 ^ 64 ->
    nextID s <= nextID s' <= nextID s + b /\
    forall P, fresh_ids P s -> fresh_ids P s' /\ Forall (sealed_as P) new
  }.
Definition frames {A} (b : Z) (m : M Store A) (s : Store) : Prop := exists r s' new, framed b m s r s' new.

Lemma set_sealed_same s : set_sealed (sealed s) s = s.
Proof. by destruct s. Qed.

Lemma M_bind_congr {S A B} (m : M S A) (f g : A -> M S B) s :
  (forall x s', f x s' = g x s') -> (m ≫= f) s = (m ≫= g) s.
Proof. intros HE. unfold mbind, M_bind. destruct (m s) as [[x|e] s']; [apply HE|done]. Qed.

Lemma frames_at {A} (m : M Store A) s r s' :
  m s = (r, s') -> sealed s' = sealed s -> (forall l, m (set_sealed l s) = (r, set_sealed l s')) ->
  nextID s' = nextID s -> (forall P, fresh_ids P s -> fresh_ids P s') -> frames 0 m s.
Proof.
  intros E ES EL EN EP. exists r, s', []. split; [done|by rewrite app_nil_r| |].
  - intros l. by rewrite app_nil_r.
  - intros Hnn _. split; [lia|]. intros P HP. split; [by apply EP|constructor].
Qed.

Lemma frames_weaken {A} b b' (m : M Store A) s : b <= b' -> frames b m s -> frames b' m s.
Proof.
  intros Hb (r & s' & new & [E ES EL EI]). exists r, s', new. split; [done..|].
  intros Hnn Hn. destruct (EI Hnn ltac:(lia)) as [HN HP]. split; [lia|done].
Qed.

Lemma frames_bind {A B} b1 b2 (m : M Store A) (f : A -> M Store B) s :
  0 <= b2 -> frames b1 m s -> (forall x s', m s = (Ok x, s') -> frames b2 (f x) s') -> frames (b1 + b2) (m ≫= f) s.
Proof.
  intros Hb2 (r & s1 & new1 & [E1 ES1 EL1 EI1]) Hf. destruct r as [x|e].
  - destruct (Hf x s1 E1) as (r & s2 & new2 & [E2 ES2 EL2 EI2]). exists r, s2, (new1 ++ new2). split.
    + unfold mbind, M_bind. by rewrite E1.
    + by rewrite ES2, ES1, app_assoc.
    + intros l. unfold mbind, M_bind. by rewrite EL1, EL2, app_assoc.
    + intros Hnn Hn. destruct (EI1 Hnn ltac:(lia)) as [HN1 HP1]. destruct (EI2 ltac:(lia) ltac:(lia)) as [HN2 HP2].
      split; [lia|]. intros P HP. destruct (HP1 P HP) as [HP' HF1]. destruct (HP2 P HP') as [HP'' HF2].
      split; [done|]. by apply Forall_app.
  - exists (Err e), s1, new1. split; [unfold mbind, M_bind; by rewrite E1|done| |].
    + intros l. unfold mbind, M_bind. by rewrite EL1.
    + intros Hnn Hn. destruct (EI1 Hnn ltac:(lia)) as [HN1 HP1]. split; [lia|done].
Qed.

Lemma frames_catch {A} b1 b2 (m : M Store A) (h : error -> M Store A) s :
  0 <= b2 -> frames b1 m s -> (forall e s', m s = (Err e, s') -> frames b2 (h e) s') -> frames (b1 + b2) (catch m h) s.
Proof.
  intros Hb2 (r & s1 & new1 & [E1 ES1 EL1 EI1]) Hh. destruct r as [x|e].
  - exists (Ok x), s1, new1. split; [unfold catch; by rewrite E1|done| |].
    + intros l. unfold catch. by rewrite EL1.
    + intros Hnn Hn. destruct (EI1 Hnn ltac:(lia)) as [HN1 HP1]. split; [lia|done].
  - destruct (Hh e s1 E1) as (r & s2 & new2 & [E2 ES2 EL2 EI2]). exists r, s2, (new1 ++ new2). split.
    + unfold catch. by rewrite E1.
    + by rewrite ES2, ES1, app_assoc.
    + intros l. unfold catch. by rewrite EL1, EL2, app_assoc.
    + intros Hnn Hn. destruct (EI1 Hnn ltac:(lia)) as [HN1 HP1]. destruct (EI2 ltac:(lia) ltac:(lia)) as [HN2 HP2].
      split; [lia|]. intros P HP. destruct (HP1 P HP) as [HP' HF1]. destruct (HP2 P HP') as [HP'' HF2].
      split; [done|]. by apply Forall_app.
Qed.

Lemma frames_io {A} (m : M Disk A) s : frames 0 (io m) s.
Proof.
  destruct (m (st_disk s)) as [r d] eqn:E.
  assert (forall s0, st_disk s0 = st_disk s -> io m s0 = (r, set_disk d s0)) as EI by (intros s0 H0; unfold io; by rewrite H0, E).
  apply (frames_at _ s r (set_disk d s)); [by apply EI|done|intros l; by rewrite EI|done|].
  intros P [HA HN]. by split.
Qed.
Lemma frames_done {A} (r : res A) s : frames 0 (fun s => (r, s)) s.
Proof. by apply (frames_at _ s r s). Qed.
Lemma frames_gets {A B} (f : Store -> A) (k : A -> M Store B) b s :
  (forall l, k (f (set_sealed l s)) = k (f s)) -> frames b (k (f s)) s -> frames b (gets f ≫= k) s.
Proof.
  intros HK (r & s' & new & [E ES EL EI]). exists r, s', new. split; [done..| |done].
  intros l. rewrite M_gets, HK. apply EL.
Qed.
Lemma frames_lift {A B} (x : res A) (k : A -> M Store B) b s :
  0 <= b -> (forall y, x = Ok y -> frames b (k y) s) -> frames b (lift x ≫= k) s.
Proof.
  intros Hb Hk. change b with (0 + b). apply frames_bind; [done|apply frames_done|].
  intros y s' [= -> <-]. by apply Hk.
Qed.
Lemma frames_ignore {A} b (m : M Store A) s : frames b m s -> frames b (ignore m) s.
Proof.
  intros (r & s' & new & [E ES EL EI]). exists (Ok tt), s', new. split; [unfold ignore; by rewrite E|done| |done].
  intros l. unfold ignore. by rewrite EL.
Qed.
Lemma frames_when b c (m : M Store unit) s : 0 <= b -> frames b m s -> frames b (when c m) s.
Proof. intros Hb Hm. destruct c; [done|]. eapply frames_weaken; [exact Hb|apply frames_done]. Qed.
Lemma frames_modify (f : Store -> Store) s :
  sealed (f s) = sealed s -> (forall l, f (set_sealed l s) = set_sealed l (f s)) -> nextID (f s) = nextID s ->
  (forall P, fresh_ids P s -> fresh_ids P (f s)) -> frames 0 (modify f) s.
Proof. intros ES EL EN EP. apply (frames_at _ s (Ok tt) (f s)); try done. intros l. unfold modify. by rewrite EL. Qed.
Lemma frames_poison {A} b (m : M Store A) s : 0 <= b -> frames b m s -> frames b (poison m) s.
Proof.
  intros Hb Hm. unfold poison. replace b with (b + (0 + 0)) by lia. apply frames_catch; [lia|done|]. intros e s' _.
  apply frames_bind; [lia| |intros; apply frames_done]. apply frames_modify; try (by destruct (failed s')).
  - intros l. cbn [failed set_sealed set_segments]. by destruct (failed s').
  - intros P [HA HN]. by destruct (failed s').
Qed.

(** * The write path *)

Section WritePath.
Context `{Blake3, Zstd, Fuse}.

Lemma frames_open path id s : frames 0 (open_path path id) s.
Proof. unfold open_path. apply (frames_bind 0 0); [lia|apply frames_io|]. intros mm s' _. apply frames_done. Qed.
Lemma open_path_inv path id s g s' : open_path path id s = (Ok g, s') ->
  active s' = active s /\ sg_path g = path /\ sg_id g = id.
Proof.
  unfold open_path. intros (mm & s1 & (d & _ & ->)%io_inv & E)%M_bind_Ok. cbn in E.
  unfold lift, openSealed in E. destruct (_ <? _); [done|]. destruct (parseFooter mm) as [fv|]; [|done].
  injection E as <- <-. done.
Qed.

Lemma frames_publish s a : active s = Some a -> frames 0 (publish_sealed a) s.
Proof.
  intros Ha. unfold publish_sealed. apply (frames_bind 0 0); [lia|apply frames_io|]. intros [] s1 (d1 & _ & ->)%io_inv.
  apply (frames_bind 0 0); [lia|apply frames_io|]. intros [] s2 (d2 & _ & ->)%io_inv.
  apply (frames_bind 0 0); [lia|apply frames_open|]. intros g s3 (Ha3 & Hp & Hi)%open_path_inv.
  apply (frames_bind 0 0); [lia| |intros; apply frames_io].
  exists (Ok tt), (set_segments (sealed s3 ++ [g]) None s3), [g]. split; [done..|].
  intros Hnn Hn. split; [cbn; lia|]. intros P [HA HN]. rewrite Ha3 in HA. destruct (HA a Ha) as [HP Ea].
  split; [by split|]. apply Forall_singleton. unfold sealed_as. rewrite Hi, Hp, Ea. split; [done|].
  unfold segName, activeSuffix. by rewrite app_assoc, TrimSuffix_app.
Qed.

Lemma frames_seal s : frames 0 sealActiveLocked s.
Proof.
  unfold sealActiveLocked. apply frames_gets; [done|]. destruct (active s) as [a|] eqn:Ha; [|apply frames_done].
  case_bool_decide; [apply frames_done|]. apply frames_lift; [done|]. intros footer _.
  apply (frames_bind 0 0); [lia|apply frames_io|]. intros [] s1 (d1 & _ & ->)%io_inv.
  apply (frames_bind 0 0); [lia|apply frames_io|]. intros [] s2 (d2 & _ & ->)%io_inv.
  apply (frames_bind 0 0); [lia|apply frames_io|]. intros [] s3 (d3 & _ & ->)%io_inv. by apply frames_publish.
Qed.

Lemma frames_create s : frames 1 createActive s.
Proof.
  set (id := nextID s). set (path := segName id activeSuffix).
  set (body := fun f : nat =>
  catch (_ ← io (WriteAt f magicHeader 0); _ ← io (Sync f); io SyncDir)
  (fun e => _ ← ignore (io CloseFd); _ ← ignore (io (RemoveFile path)); fail e)).
  set (mk := fun f : nat => MkActive id path f (zlen magicHeader) ∅).
  set (pre := f ← io (CreateExcl path); _ ← body f; mret f).
  set (bump := set_nextID (u64 (nextID s + 1))).
  assert (forall l, createActive (set_sealed l s) = (f ← pre; modify (set_active (Some (mk f)))) (bump (set_sealed l s))) as EC.
  { intros l. unfold createActive. rewrite M_gets, M_modify. unfold pre. rewrite M_assoc.
    apply M_bind_congr. intros f s1. rewrite M_assoc. by apply M_bind_congr. }
  assert (frames 0 pre (bump s)) as (r & s2 & new & [E2 ES2 EL2 EI2]).
  { unfold pre. apply (frames_bind 0 0); [lia|apply frames_io|]. intros f s1 _.
    apply (frames_bind 0 0); [lia| |intros; apply frames_done]. unfold body. apply (frames_catch 0 0); [lia| |].
    - apply (frames_bind 0 0); [lia|apply frames_io|]. intros [] s1' _.
      apply (frames_bind 0 0); [lia|apply frames_io|]. intros [] s1'' _. apply frames_io.
    - intros e s1' _. apply (frames_bind 0 0); [lia|apply frames_ignore, frames_io|]. intros [] s1'' _.
      apply (frames_bind 0 0); [lia|apply frames_ignore, frames_io|]. intros. apply frames_done. }
  assert (forall l, bump (set_sealed l s) = set_sealed l (bump s)) as EB by done.
  pose proof (EC (sealed s)) as EC0. rewrite set_sealed_same in EC0.
  assert (0 <= nextID s -> nextID s + 1 < 2 ^ 64 -> nextID (bump s) = nextID s + 1 /\
  forall P, fresh_ids P s -> fresh_ids P (bump s) /\ P id) as HB.
  { intros Hnn Hn. assert (nextID (bump s) = nextID s + 1) as EN by (cbn; unfold u64; rewrite Z.mod_small; lia).
    split; [done|]. intros P [HA HN]. split; [|by apply HN]. split; [done|]. intros i Hi. apply HN. lia. }
  destruct r as [f|e].
  - exists (Ok tt), (set_active (Some (mk f)) s2), new. split.
    + rewrite EC0. unfold mbind, M_bind. by rewrite E2.
    + exact ES2.
    + intros l. rewrite EC, EB. unfold mbind, M_bind. by rewrite EL2.
    + intros Hnn Hn. destruct (HB Hnn Hn) as [EN HP]. destruct (EI2 ltac:(lia) ltac:(lia)) as [HN2 HP2].
      split; [cbn; lia|]. intros P HPs. destruct (HP P HPs) as [HPb Pid]. destruct (HP2 P HPb) as [[HA' HN'] HF].
      split; [|done]. split; [by intros a [= <-]|done].
  - exists (Err e), s2, new. split.
    + rewrite EC0. unfold mbind, M_bind. by rewrite E2.
    + exact ES2.
    + intros l. rewrite EC, EB. unfold mbind, M_bind. by rewrite EL2.
    + intros Hnn Hn. destruct (HB Hnn Hn) as [EN HP]. destruct (EI2 ltac:(lia) ltac:(lia)) as [HN2 HP2].
      split; [lia|]. intros P HPs. destruct (HP P HPs) as [HPb _]. by apply HP2.
Qed.

Lemma frames_append_record a k rec b s : active s = Some a -> frames 0 (append_record a k rec b) s.
Proof.
  intros Ha. unfold append_record. apply (frames_bind 0 0); [lia|apply frames_io|]. intros [] s1 (d1 & _ & ->)%io_inv.
  apply (frames_bind 0 0); [lia| |].
  { apply frames_modify; try done. intros P [HA HN]. split; [|done]. intros a' [= <-]. exact (HA a Ha). }
  intros [] s2 [= <-]. apply frames_gets; [done|]. apply (frames_bind 0 0); [lia| |].
  - apply frames_when; [lia|]. apply frames_poison; [lia|]. apply frames_io.
  - intros [] s3 _. apply frames_when; [lia|]. apply frames_poison; [lia|]. apply frames_seal.
Qed.

Lemma frames_writable s : frames 0 writable s.
Proof. unfold writable. apply frames_gets; [done|]. cbn [id]. destruct (closed s), (failed s); apply frames_done. Qed.

Lemma frames_append k rec b s : frames 1 (appendLocked k rec b) s.
Proof.
  unfold appendLocked. apply (frames_bind 0 1); [lia|apply frames_writable|]. intros [] s1 _.
  apply (frames_bind 1 0); [lia| |].
  - unfold ensure_active. apply (frames_bind 1 0); [lia| |].
    + apply frames_gets; [done|]. cbn [id]. destruct (active s1); [eapply frames_weaken; [|apply frames_done]; lia|apply frames_create].
    + intros [] s2 _. apply frames_gets; [done|apply frames_done].
  - intros a s2 E. destruct (a_index a !! k); [apply frames_done|]. apply frames_append_record.
    unfold ensure_active in E. apply M_bind_Ok in E as ([] & s3 & _ & E). rewrite M_gets in E.
    destruct (active s3) as [a'|] eqn:Ha; [|done]. injection E as <- <-. done.
Qed.
End WritePath.
