(* ===== verification/Provenance.v ===== *)
(** Where the records of a store and the names of its segments come from: the write path
    (src/packstore/packstore.go) holds only records it held before or was given, and keeps
    the identifiers of the segments distinct and their files named after them. *)
From S2P Require Import Prelude External Concrete Key Crc32 Record Pack Footer Disk Scan Store StoreInv StoreSpec Frame.

Section Provenance.
Context `{Blake3} `{HZs : ZstdOk} `{HFu : FuseOk}.

(** The records a store holds, in whatever segment. *)
Definition held_in (s : Store) (k : Key) (rec : bytes) : Prop :=
  (exists a, active s = Some a /\ act_view (st_disk s) a k = Some rec) \/
  (exists g, g ∈ sealed s /\ seg_view k g = Some rec).
Lemma view_held s k rec : view s k = Some rec -> held_in s k rec.
Proof.
  unfold view. destruct (active s) as [a|] eqn:Ha; cbn [mbind option_bind].
  - destruct (act_view (st_disk s) a k) as [r|] eqn:E; [intros [= ->]; left; by exists a|].
    intros (g & Hg & Hr)%segs_view_elem. right. by exists g.
  - intros (g & Hg & Hr)%segs_view_elem. right. by exists g.
Qed.

(** * Names and sealing *)

(** Identifiers are distinct and below [nextID], and files are named after them. *)
Record well_named (s : Store) : Prop := {
    wn_sealed : Forall (sealed_as (fun i => i < nextID s)) (sealed s);
    wn_distinct : NoDup (map sg_id (sealed s));
    wn_active a : active s = Some a ->
    a_id a < nextID s /\ (a_id a ∉ map sg_id (sealed s)) /\ a_path a = segName (a_id a) activeSuffix;
    wn_next : 0 <= nextID s
  }.

(** The write barrier's state. *)
Definition barrier (s : Store) : bool * option (gset Key) := (capturing s, grey s).

Lemma seal_shape s r s' : sealActiveLocked s = (r, s') ->
  (nextID s' = nextID s /\ barrier s' = barrier s) /\
  ((sealed s' = sealed s /\ active s' = active s) \/
    exists a g, active s = Some a /\ active s' = None /\ sealed s' = sealed s ++ [g] /\ sg_id g = a_id a /\
    sg_path g = TrimSuffix (a_path a) dotActive).
Proof.
  intros E. unfold sealActiveLocked in E. rewrite M_gets in E.
  destruct (active s) as [a|] eqn:Ha; [|injection E as <- <-; split; [done|by left]].
  case_bool_decide; [injection E as <- <-; split; [done|by left]|].
  rewrite M_lift in E. destruct (buildFooter _ _); [|injection E as <- <-; split; [done|by left]].
  assert (forall d, nextID (set_disk d s) = nextID s /\ barrier (set_disk d s) = barrier s /\ sealed (set_disk d s) = sealed s /\ active (set_disk d s) = active s) as KD by done.
  apply io_bind_inv in E as (r1 & d1 & _ & E). destruct r1; [|destruct E as [-> ->]; rewrite <- Ha; split; [done|by left]].
  apply io_bind_inv in E as (r2 & d2 & _ & E). destruct r2; [|destruct E as [-> ->]; rewrite <- Ha; split; [done|by left]].
  apply io_bind_inv in E as (r3 & d3 & _ & E). destruct r3; [|destruct E as [-> ->]; rewrite <- Ha; split; [done|by left]].
  unfold publish_sealed in E.
  apply io_bind_inv in E as (r4 & d4 & _ & E). destruct r4; [|destruct E as [-> ->]; rewrite <- Ha; split; [done|by left]].
  apply io_bind_inv in E as (r5 & d5 & _ & E). destruct r5; [|destruct E as [-> ->]; rewrite <- Ha; split; [done|by left]].
  unfold mbind at 1, M_bind at 1 in E. destruct (open_path _ _ _) as [[g|e] s6] eqn:E6.
  - pose proof E6 as (Ha6 & Hp & Hi)%open_path_inv. unfold open_path in E6.
    apply M_bind_Ok in E6 as (mm & s7 & (d7 & _ & ->)%io_inv & E6). injection E6 as _ <-.
    rewrite M_modify in E. apply io_inv in E as (d8 & _ & ->). split; [done|]. right. by exists a, g.
  - injection E as <- <-. unfold open_path, mbind, M_bind in E6. destruct (io (ReadWhole _) _) as [[mm|e'] s7] eqn:E7;
    apply io_inv in E7 as (d7 & _ & ->); injection E6 as _ <-; rewrite <- Ha; (split; [done|by left]).
Qed.

Lemma poison_shape {A} (m : M Store A) s r s' : poison m s = (r, s') ->
  exists s1, m s = (r, s1) /\ (s' = s1 \/ exists f, s' = set_failed f s1).
Proof.
  intros [(x & -> & E)|(e & s1 & -> & E & _ & ->)]%poison_inv; eexists; (split; [exact E|]); [by left|]. right. by eexists.
Qed.

(** * The shape of an append *)

(** The active segment is the same file. *)
Definition kin (s s' : Store) : Prop :=
  forall a', active s' = Some a' -> exists a, active s = Some a /\ a_id a = a_id a' /\ a_path a = a_path a'.
Lemma kin_eq s s' : active s' = active s -> kin s s'.
Proof. intros E a' Ha. exists a'. by rewrite <- E. Qed.

(** The active segment is there or was created: at most one identifier is spent. *)
Definition opened (s s' : Store) : Prop :=
  (sealed s' = sealed s /\ barrier s' = barrier s) /\
  ((nextID s' = nextID s /\ kin s s') \/
    (nextID s' = u64 (nextID s + 1) /\ forall a, active s' = Some a -> a_id a = nextID s /\ a_path a = segName (nextID s) activeSuffix)).
(** It may have been sealed. *)
Definition rotated (s s' : Store) : Prop :=
  (nextID s' = nextID s /\ barrier s' = barrier s) /\
  ((sealed s' = sealed s /\ kin s s') \/
    exists a g, active s = Some a /\ active s' = None /\ sealed s' = sealed s ++ [g] /\ sg_id g = a_id a /\
    sg_path g = TrimSuffix (a_path a) dotActive).

Lemma rotated_refl s : rotated s s.
Proof. split; [done|]. left. split; [done|by apply kin_eq]. Qed.
Lemma rotated_seal s r s' : sealActiveLocked s = (r, s') -> rotated s s'.
Proof.
  intros (EN & [[ES EA]|HR])%seal_shape; (split; [done|]); [|by right]. left. split; [done|by apply kin_eq].
Qed.
Lemma rotated_failed s s' f : rotated s s' -> rotated s (set_failed f s').
Proof. intros HR. exact HR. Qed.
Lemma rotated_before s0 s s' : sealed s = sealed s0 -> nextID s = nextID s0 -> barrier s = barrier s0 -> kin s0 s -> rotated s s' -> rotated s0 s'.
Proof.
  intros ES EN EB K ([EN' EB'] & HR). split; [split; congruence|]. destruct HR as [[ES' K']|(a & g & Ha & Ha' & ES' & Hi & Hp)].
  - left. split; [congruence|]. intros a' (a1 & Ha1 & <- & <-)%K'. by apply K.
  - right. destruct (K a Ha) as (a0 & Ha0 & E1 & E2). exists a0, g. rewrite ES', ES, E1, E2. done.
Qed.

Lemma create_opened s r s' : active s = None -> createActive s = (r, s') -> opened s s'.
Proof.
  intros Ha E. unfold createActive in E. rewrite M_gets, M_modify in E. set (s1 := set_nextID _ s) in *.
  assert (forall d, opened s (set_disk d s1)) as Q.
  { intros d. split; [done|]. right. split; [done|]. intros a Ha'. cbn in Ha'. congruence. }
  apply io_bind_inv in E as (r1 & d1 & _ & E). destruct r1 as [f|e]; [|destruct E as [-> ->]; apply Q].
  unfold mbind at 1, M_bind at 1, catch at 1 in E.
  destruct ((_ ← io (WriteAt f magicHeader 0); _ ← io (Sync f); io SyncDir) (set_disk d1 s1)) as [r2 s2] eqn:E2.
  assert (exists d2, s2 = set_disk d2 s1) as [d2 ->].
  { apply io_bind_inv in E2 as (r3 & d2 & _ & E2). destruct r3; [|destruct E2 as [_ ->]; by eexists].
    apply io_bind_inv in E2 as (r4 & d4 & _ & E2). destruct r4; [|destruct E2 as [_ ->]; by eexists].
    apply io_inv in E2 as (d5 & _ & ->). by eexists. }
  destruct r2 as [[]|e].
  - injection E as <- <-. split; [done|]. right. split; [done|]. by intros a [= <-].
  - unfold mbind, M_bind, ignore, fail, io in E. destruct (CloseFd _) as [r3 d3]. cbn [snd st_disk set_disk] in E.
    destruct (RemoveFile _ _) as [r4 d4]. cbn [snd] in E. injection E as <- <-. apply Q.
Qed.

Lemma append_record_rotated a k rec b s r s' : active s = Some a -> append_record a k rec b s = (r, s') -> rotated s s'.
Proof.
  intros Ha E. unfold append_record in E. apply io_bind_inv in E as (r1 & d1 & _ & E).
  destruct r1 as [[]|e]; [|destruct E as [-> ->]; split; [done|]; left; split; [done|by apply kin_eq]].
  rewrite M_modify, M_gets in E. set (s1 := set_active _ _) in E.
  assert (kin s s1) as K1 by (intros a' [= <-]; by exists a).
  assert (rotated s s1) as R1 by (split; [done|]; left; by split).
  unfold mbind at 1, M_bind at 1 in E. destruct (when _ _ s1) as [r2 s2] eqn:E2.
  assert (rotated s s2 /\ sealed s2 = sealed s /\ nextID s2 = nextID s /\ barrier s2 = barrier s /\ kin s s2) as (R2 & ES2 & EN2 & EB2 & K2).
  { apply when_inv in E2 as [(_ & E2)|(_ & _ & ->)]; [|done].
    apply poison_shape in E2 as (s3 & (d3 & _ & ->)%io_inv & [->|(f & ->)]); by split_and!. }
  destruct r2 as [[]|e]; [|by injection E as <- <-].
  apply when_inv in E as [(_ & E)|(_ & _ & ->)]; [|done].
  apply poison_shape in E as (s3 & HR%rotated_seal & [->|(f & ->)]); by eapply rotated_before.
Qed.

Lemma append_stages k rec b s r s' : appendLocked k rec b s = (r, s') -> exists s1, opened s s1 /\ rotated s1 s'.
Proof.
  intros E. unfold appendLocked, mbind at 1, M_bind at 1 in E. destruct (writable s) as [r1 s1] eqn:E1.
  apply writable_inv in E1 as [-> _].
  assert (opened s s) as O0 by (split; [done|]; left; split; [done|by apply kin_eq]).
  destruct r1 as [[]|e]; [|injection E as <- <-; exists s; by split; [|apply rotated_refl]].
  unfold mbind at 1, M_bind at 1 in E. destruct (ensure_active s) as [r2 s2] eqn:E2.
  assert (opened s s2 /\ forall a, r2 = Ok a -> active s2 = Some a) as [O2 HA].
  { unfold ensure_active in E2. unfold mbind at 1, M_bind at 1 in E2. rewrite M_gets in E2. cbn [id] in E2.
    destruct (active s) as [a|] eqn:Ha.
    - cbn [mret M_ret] in E2. rewrite M_gets, Ha in E2. injection E2 as <- <-. split; [done|]. by intros a' [= <-].
    - destruct (createActive s) as [r3 s3] eqn:E3. apply create_opened in E3; [|done].
      destruct r3 as [[]|e]; [|by injection E2 as <- <-]. rewrite M_gets in E2. injection E2 as <- <-.
      split; [done|]. intros a. by destruct (active s3); intros [= <-]. }
  exists s2. split; [done|]. destruct r2 as [a|e]; [|injection E as <- <-; apply rotated_refl].
  destruct (a_index a !! k); [injection E as <- <-; apply rotated_refl|].
  eapply append_record_rotated; [|exact E]. by apply HA.
Qed.

(** * Names *)

Lemma opened_well_named s s' : well_named s -> nextID s + 1 < 2 ^ 64 -> opened s s' -> well_named s' /\ nextID s' <= nextID s + 1.
Proof.
  intros [WS WD WA WN] Hn ((ES & _) & [[EN K]|[EN HA]]).
  - split; [|lia]. split; rewrite ?ES, ?EN; try done. intros a' (a & Ha & <- & <-)%K. by apply WA.
  - assert (nextID s' = nextID s + 1) as EN' by (rewrite EN; unfold u64; rewrite Z.mod_small; lia).
    split; [|lia]. split; rewrite ?ES, ?EN'; [|done| |lia].
    + eapply list.Forall_impl; [exact WS|]. intros g [Hg Hp]. split; [lia|done].
    + intros a Ha. destruct (HA a Ha) as [-> ->]. split_and!; [lia| |done].
      intros (g & Ei & Hg)%list_elem_of_fmap. rewrite list.Forall_forall in WS. destruct (WS g Hg). lia.
Qed.
Lemma rotated_well_named s s' : well_named s -> rotated s s' -> well_named s' /\ nextID s' = nextID s.
Proof.
  intros [WS WD WA WN] ([EN _] & [[ES K]|(a & g & Ha & Ha' & ES & Hi & Hp)]); (split; [|done]).
  - split; rewrite ?ES, ?EN; try done. intros a' (a & Ha & <- & <-)%K. by apply WA.
  - destruct (WA a Ha) as (A1 & A2 & A3). split; rewrite ?ES, ?EN; [| | |done].
    + apply Forall_app. split; [done|]. apply Forall_singleton. unfold sealed_as. rewrite Hi, Hp, A3. split; [done|].
      unfold segName, activeSuffix. by rewrite app_assoc, TrimSuffix_app.
    + rewrite map_app. apply list.NoDup_app. split_and!; [done| |apply list.NoDup_singleton].
      intros i Hin ->%list_elem_of_singleton. by rewrite Hi in Hin.
    + intros a' Ha2. congruence.
Qed.
Lemma seal_well_named s r s' : well_named s -> sealActiveLocked s = (r, s') -> well_named s' /\ nextID s' = nextID s.
Proof. intros W E%rotated_seal. by apply rotated_well_named. Qed.
Lemma append_well_named k rec b s r s' :
  well_named s -> nextID s + 1 < 2 ^ 64 -> appendLocked k rec b s = (r, s') -> well_named s' /\ nextID s' <= nextID s + 1.
Proof.
  intros W Hn (s1 & O & R)%append_stages. destruct (opened_well_named _ _ W Hn O) as [W1 Hn1].
  destruct (rotated_well_named _ _ W1 R) as [W2 ->]. done.
Qed.

Lemma append_barrier k rec b s r s' : appendLocked k rec b s = (r, s') -> barrier s' = barrier s.
Proof. intros (s1 & [[_ <-] _] & [[_ <-] _])%append_stages. done. Qed.

(** * Records *)

Lemma inv_set_sealed l s : inv s -> Forall seg_ok l -> inv (set_sealed l s).
Proof. intros [Hc [CS CA] HP] F. split; [done| |done]. by split. Qed.

(** * Steps that hold what was held *)

Record same_held (s s' : Store) : Prop := {
    sh_view : same_view s s';
    sh_bare : same_view (set_sealed [] s) (set_sealed [] s');
    sh_sealed : sealed s' = sealed s;
    sh_active : active s' = active s;
    sh_next : nextID s' = nextID s
  }.
Lemma same_held_refl s : inv s -> same_held s s.
Proof. intros I. split; [by apply same_view_refl|by apply same_view_refl, inv_set_sealed|done..]. Qed.
Lemma same_held_trans s1 s2 s3 : same_held s1 s2 -> same_held s2 s3 -> same_held s1 s3.
Proof. intros [V1 B1 S1 A1 N1] [V2 B2 S2 A2 N2]. split; [by eapply same_view_trans..| | |]; congruence. Qed.

(** What is held is what the bare store sees and what the sealed segments hold. *)
Lemma held_bare s k rec : held_in s k rec <-> view (set_sealed [] s) k = Some rec \/ exists g, g ∈ sealed s /\ seg_view k g = Some rec.
Proof.
  assert (view (set_sealed [] s) k = Some rec <-> exists a, active s = Some a /\ act_view (st_disk s) a k = Some rec) as ->; [|done].
  unfold view. cbn [active set_sealed set_segments st_disk sealed]. destruct (active s) as [a|] eqn:Ha; cbn [mbind option_bind].
  - destruct (act_view (st_disk s) a k) as [r0|] eqn:Er; (split; [intros [= ->]; by exists a|intros (a' & [= <-] & ?); congruence]).
  - by split; [|intros (? & ? & _)].
Qed.
Lemma same_held_held s s' k rec : same_held s s' -> held_in s' k rec <-> held_in s k rec.
Proof. intros [_ [_ _ V] ES _ _]. by rewrite !held_bare, ES, V. Qed.

Lemma same_held_named s s' : well_named s -> same_held s s' -> well_named s'.
Proof. intros [WS WD WA WN] [_ _ ES EA EN]. split; rewrite ?ES, ?EA, ?EN; done. Qed.

Lemma disk_same_held s d :
  inv s -> keeps s d -> (forall a, active s = Some a -> names d !! a_path a = names (st_disk s) !! a_path a) ->
  same_held s (set_disk d s).
Proof.
  intros I K HN. assert (forall s0, inv s0 -> active s0 = active s -> st_disk s0 = st_disk s -> same_view s0 (set_disk d s0)) as Hd.
  { intros s0 I0 EA ED. assert (keeps s0 d) as K0 by (intros a recs Ha; rewrite ED; apply K; by rewrite <- EA).
    destruct (core_keeps _ _ (inv_core _ I0) K0) as [C' V']. split; [|done..]. split; [apply I0|done|].
    intros HF a Ha. destruct (inv_path _ I0 HF a Ha) as [Hp Hs]. split; [|done]. cbn [st_disk set_disk].
    rewrite HN by (by rewrite <- EA). by rewrite <- ED. }
  split; [by apply Hd| |done..]. apply (Hd (set_sealed [] s)); [by apply inv_set_sealed|done..].
Qed.

Lemma sync_any_sealed a s r s' l :
  poison (io (Sync (a_f a))) s = (r, s') ->
  sealed s' = sealed s /\ active s' = active s /\ nextID s' = nextID s /\
  poison (io (Sync (a_f a))) (set_sealed l s) = (r, set_sealed l s').
Proof.
  intros E. destruct (frames_poison 0 (io (Sync (a_f a))) s ltac:(lia) (frames_io _ _)) as (r1 & s1 & new & [E1 ES EL _]).
  rewrite E in E1. injection E1 as <- <-.
  assert (sealed s' = sealed s /\ active s' = active s /\ nextID s' = nextID s) as (ES' & EA & EN).
  { apply poison_shape in E as (s6 & (d & _ & ->)%io_inv & [->|[f ->]]); done. }
  assert (new = []) as -> by (rewrite ES' in ES; by rewrite <- (app_nil_r (sealed s)) in ES at 1; apply app_inv_head in ES).
  specialize (EL l). rewrite app_nil_r in EL. done.
Qed.
Lemma sync_same_held s a r s' : inv s -> poison (io (Sync (a_f a))) s = (r, s') -> same_held s s'.
Proof.
  intros I E. destruct (sync_any_sealed a s r s' [] E) as (ES & EA & EN & EL).
  split; [by eapply sync_poison_spec|eapply (sync_poison_spec (set_sealed [] s)); [by apply inv_set_sealed|exact EL]|done..].
Qed.

(** What is held after a step is in an old segment or in view of the new part alone. *)
Lemma held_split s s' new k rec :
  sealed s' = sealed s ++ new -> (new = [] \/ exists g, new = [g] /\ active s' = None) -> held_in s' k rec ->
  (exists g, g ∈ sealed s /\ seg_view k g = Some rec) \/ view (set_sealed new s') k = Some rec.
Proof.
  intros ES Hn [(a & Ha & Hr)|(g & Hg & Hr)].
  - right. unfold view. cbn [active set_sealed set_segments st_disk]. rewrite Ha. cbn [mbind option_bind]. by rewrite Hr.
  - rewrite ES in Hg. apply elem_of_app in Hg as [Hg|Hg]; [left; by exists g|]. right.
    destruct Hn as [->|(g' & -> & Ha)]; [by apply elem_of_nil in Hg|]. apply list_elem_of_singleton in Hg as ->.
    unfold view. cbn [active set_sealed set_segments st_disk sealed]. rewrite Ha. cbn [mbind option_bind].
    change [g'] with ([] ++ [g']). by rewrite segs_view_snoc, Hr.
Qed.
Lemma rotated_new s1 s2 s3 new : sealed s2 = sealed s1 -> rotated s2 s3 -> sealed s3 = sealed s1 ++ new ->
  new = [] \/ exists g, new = [g] /\ active s3 = None.
Proof.
  intros E1 (_ & [[E2 _]|(a & g & _ & Ha & E2 & _)]) E3; rewrite E2, E1 in E3.
  - left. rewrite <- (app_nil_r (sealed s1)) in E3 at 1. by apply app_inv_head in E3.
  - right. apply app_inv_head in E3. subst new. by exists g.
Qed.

(** ** Sealing *)

Lemma seal_held s r s' k rec :
  core s -> named (2 * SEG_MAX) s -> sealActiveLocked s = (r, s') -> held_in s' k rec -> held_in s k rec.
Proof.
  intros C N E Hh. destruct (frames_seal s) as (r1 & s1 & new & [E1 ES EL _]).
  rewrite E1 in E. injection E as -> ->. specialize (EL []). cbn [app] in EL.
  assert (core (set_sealed [] s)) as C0 by (destruct C; by split).
  destruct (seal_spec _ _ _ C0 N EL) as [(_ & V & _) _].
  apply held_bare. destruct (held_split s s' new k rec ES) as [Hg|Hv]; [|done|by right|left; by rewrite <- V].
  eapply rotated_new; [done|by eapply rotated_seal|done].
Qed.

(** ** Appending *)

(** An append holds what was held, and its record. *)
Lemma append_held s h rec b r s' k' rec' :
  inv s -> whole rec h -> appendLocked (RKey h) rec b s = (r, s') -> held_in s' k' rec' ->
  held_in s k' rec' \/ (k' = RKey h /\ rec' = rec).
Proof.
  intros I W E Hh. destruct (frames_append (RKey h) rec b s) as (r1 & s1 & new & [E1 ES EL _]).
  rewrite E1 in E. injection E as -> ->. specialize (EL []). cbn [app] in EL.
  pose proof (append_spec _ h rec b r _ (inv_set_sealed [] s I ltac:(constructor)) W EL) as [WI _ WO WK].
  destruct (held_split s s' new k' rec' ES) as [(g & Hg & Hr)|Hv]; [|done| |].
  { destruct (append_stages _ _ _ _ _ _ E1) as (s2 & [[ES2 _] _] & HR). by eapply rotated_new. }
  - left. right. by exists g.
  - assert (view (set_sealed [] s) k' = Some rec' -> held_in s k' rec') as HO by (intros Hb; apply held_bare; by left).
    destruct (decide (k' = RKey h)) as [->|Hne]; [|left; apply HO; by rewrite <- WO].
    destruct WK as [EK|[EK _]]; rewrite EK in Hv; [injection Hv as <-; by right|left; by apply HO].
Qed.
End Provenance.
