(* ===== verification/Reopen.v ===== *)
(** Durability of the pack store: what a directory holds after successful writes, and that
    opening it again - after a clean close, after a crash that lost unsynced bytes, or after
    a crash in the middle of a seal - gives back the same view. *)
From S2P Require Import Prelude External Concrete Key Crc32 Record Pack Footer Disk Scan Store StoreInv StoreSpec.

(** * Successful calls *)

Lemma attempt_Ok {A} (run : M Disk A) torn d x d' :
  attempt run torn d = (Ok x, d') -> exists fs, run (set_faults fs d) = (Ok x, d').
Proof. intros (fs & [E|(n & [=] & _)])%attempt_cases. by exists fs. Qed.
Lemma WriteAt_Ok i p off d d' : WriteAt i p off d = (Ok tt, d') -> exists fs, d' = set_faults fs (do_write i p off d).
Proof. intros (fs & [= <-])%attempt_Ok. by exists fs. Qed.
Lemma Truncate_Ok i n d d' : Truncate i n d = (Ok tt, d') -> exists fs, d' = set_faults fs (do_truncate i n d).
Proof. intros (fs & [= <-])%attempt_Ok. by exists fs. Qed.
Lemma Sync_Ok i d d' : Sync i d = (Ok tt, d') -> exists fs, d' = set_faults fs (do_sync i d).
Proof. intros (fs & [= <-])%attempt_Ok. by exists fs. Qed.
Lemma SyncDir_Ok d d' : SyncDir d = (Ok tt, d') -> exists fs, d' = set_faults fs d.
Proof. intros (fs & [= <-])%attempt_Ok. by exists fs. Qed.
Lemma CloseFd_Ok d d' : CloseFd d = (Ok tt, d') -> exists fs, d' = set_faults fs d.
Proof. intros (fs & [= <-])%attempt_Ok. by exists fs. Qed.
Lemma CreateExcl_Ok path d i d' :
  CreateExcl path d = (Ok i, d') ->
  names d !! path = None /\ i = next_ino d /\ exists fs, d' = set_faults fs (do_create path d).
Proof.
  intros (fs & E)%attempt_Ok. cbn in E. destruct (names d !! path); [done|]. injection E as <- <-. eauto.
Qed.
Lemma Rename_Ok old new d d' :
  Rename old new d = (Ok tt, d') -> exists i fs, names d !! old = Some i /\
    d' = set_faults fs (set_names (<[new:=i]> (delete old (names d))) d).
Proof.
  intros (fs & E)%attempt_Ok. cbn in E. destruct (names d !! old) as [i|] eqn:EO; [|done]. injection E as <-.
  exists i, fs. split; [done|]. unfold do_rename. change (names (set_faults fs d)) with (names d). by rewrite EO.
Qed.
Lemma ReadWhole_Ok path d b d' :
  ReadWhole path d = (Ok b, d') -> exists i fs, names d !! path = Some i /\ b = data_of d i /\ d' = set_faults fs d.
Proof.
  intros (fs & E)%attempt_Ok. cbn in E. destruct (names d !! path) as [i|]; [|done]. injection E as <- <-. eauto.
Qed.
Lemma io_Ok {A} (m : M Disk A) s x s' : io m s = (Ok x, s') -> exists d', m (st_disk s) = (Ok x, d') /\ s' = set_disk d' s.
Proof. apply io_inv. Qed.

Lemma catch_Ok {A} (m : M Store A) h s x s' :
  (forall e s1, fst (h e s1) <> Ok x) -> catch m h s = (Ok x, s') -> m s = (Ok x, s').
Proof.
  intros Hh. unfold catch. destruct (m s) as [[y|e] s1]; [done|]. intros E. exfalso. eapply Hh. by rewrite E.
Qed.
Lemma poison_Ok {A} (m : M Store A) s x s' : poison m s = (Ok x, s') -> m s = (Ok x, s').
Proof. by apply catch_Ok. Qed.

(** * The directory of a store *)

Definition seg_file (n : bytes) : bool := HasSuffix n activeSuffix || HasSuffix n sealedSuffix.

(** File [i] holds exactly [b], all of it durable. *)
Definition durable (d : Disk) (i : nat) (b : bytes) : Prop :=
  inodes d !! i = Some (MkFile b (length b)).

Section Dir.
Context `{Blake3} `{HZs : ZstdOk} `{HFu : FuseOk}.

Record seg_on (d : Disk) (g : sealedSegment) : Prop := {
    so_path : sg_path g = segName (sg_id g) sealedSuffix;
    so_open : openSealed (sg_path g) (sg_id g) (sg_mm g) = Ok g;
    so_file : exists i, names d !! sg_path g = Some i /\ durable d i (sg_mm g)
  }.
Record act_on (d : Disk) (a : activeSegment) : Prop := {
    ao_path : a_path a = segName (a_id a) activeSuffix;
    ao_name : names d !! a_path a = Some (a_f a);
    ao_head f : inodes d !! a_f a = Some f -> (8 <= f_synced f)%nat;
    ao_log : exists recs hdrs, Forall2 whole recs hdrs /\ holds d (a_f a) (log recs) /\
    a_size a = zlen (log recs) /\ a_index a = index_recs 8 recs hdrs ∅
  }.
Record on_disk (s : Store) : Prop := {
    od_core : core s;
    od_failed : failed s = None;
    od_fresh n i : names (st_disk s) !! n = Some i -> (i < next_ino (st_disk s))%nat;
    od_inj n1 n2 i : names (st_disk s) !! n1 = Some i -> names (st_disk s) !! n2 = Some i -> n1 = n2;
    od_dir n : is_Some (names (st_disk s) !! n) -> seg_file n = true ->
    (exists g, g ∈ sealed s /\ n = sg_path g) \/ (exists a, active s = Some a /\ n = a_path a);
    od_sealed g : g ∈ sealed s -> seg_on (st_disk s) g /\ 0 <= sg_id g < nextID s;
    od_sorted : StronglySorted Z.lt (map sg_id (sealed s));
    od_active a : active s = Some a ->
    act_on (st_disk s) a /\ 0 <= a_id a < nextID s /\ forall g, g ∈ sealed s -> sg_id g < a_id a;
    od_next : 0 < nextID s < 2 ^ 64
  }.

(** ** Steps that keep the directory *)

Lemma seg_on_ext d d' g :
  (forall j, names d !! sg_path g = Some j -> names d' !! sg_path g = Some j /\ inodes d' !! j = inodes d !! j) ->
  seg_on d g -> seg_on d' g.
Proof.
  intros K [Hp Ho (j & Hn & Hd)]. destruct (K j Hn) as [Hn' Hi]. split; [done..|].
  exists j. split; [done|]. unfold durable. by rewrite Hi.
Qed.

(** The active segment's file is no sealed segment's file. *)
Lemma active_apart s a g j :
  on_disk s -> active s = Some a -> g ∈ sealed s -> names (st_disk s) !! sg_path g = Some j -> a_f a <> j.
Proof.
  intros O Ha Hg Hj E. subst j. destruct (od_active _ O a Ha) as ([Pa Na _ _] & Ra & La).
  destruct (od_sealed _ O g Hg) as [[Pg _ _] Rg].
  pose proof (od_inj _ O _ _ _ Hj Na) as E. specialize (La g Hg).
  rewrite Pg, Pa in E. unfold segName, activeSuffix in E. rewrite app_assoc in E.
  apply (f_equal length) in E. rewrite !length_app, !length_hexEncode, !length_be_put in E. cbn in E. lia.
Qed.

(** Replacing the file, the size and the index of the active segment. *)
Lemma on_disk_active s a a' f fs recs hdrs :
  on_disk s -> active s = Some a ->
  a_id a' = a_id a -> a_path a' = a_path a -> a_f a' = a_f a ->
  Forall2 whole recs hdrs -> f_data f = log recs -> (8 <= f_synced f)%nat -> a_size a' = zlen (log recs) ->
  a_index a' = index_recs 8 recs hdrs ∅ ->
  let s' := set_active (Some a') (set_disk (set_faults fs (set_file (a_f a) f (st_disk s))) s) in
  on_disk s'.
Proof.
  intros O Ha Eid Ep Ef HF Hd Hsy HS HI s'. destruct (od_active _ O a Ha) as ([Pa Na _ _] & Ra & La).
  assert (holds (st_disk s') (a_f a') (log recs)) as Hh.
  { rewrite Ef. exists f. split; [|done]. cbn. apply lookup_insert_eq. }
  split; cbn [failed st_disk names next_ino sealed active nextID s' set_active set_segments set_disk set_faults set_file];
  try apply O; [| | |].
  - split; [apply O|]. intros a0 [= <-]. exists recs, hdrs. split_and!; [done|by apply holds_log|done..].
  - intros n Hn Hsf. destruct (od_dir _ O n Hn Hsf) as [HG|(a0 & Ha0 & ->)]; [by left|]. right.
    exists a'. split; [done|]. rewrite Ep. congruence.
  - intros g Hg. destruct (od_sealed _ O g Hg) as [SO R]. split; [|done].
    eapply seg_on_ext; [|exact SO]. intros j Hj. split; [done|]. cbn [inodes]. apply lookup_insert_ne.
    by eapply active_apart.
  - intros a0 [= <-]. rewrite Eid. split; [|done]. split; [congruence|cbn; congruence| |by exists recs, hdrs].
    intros f'. rewrite Ef. cbn [inodes set_file set_faults]. rewrite lookup_insert_eq. by intros [= <-].
Qed.


(** The disk after a segment file was created and its header made durable. *)
Lemma created_disk d path fs :
  let i := next_ino d in
  let D := set_faults fs (do_sync i (do_write i magicHeader 0 (do_create path d))) in
  names D = <[path:=i]> (names d) /\ next_ino D = S i /\
  durable D i magicHeader /\ (forall j, j <> i -> inodes D !! j = inodes d !! j).
Proof.
  cbv zeta. split_and!; try done.
  - unfold durable, do_sync, do_write, set_file, file_of. cbn [inodes do_create set_faults].
    by rewrite !lookup_insert_eq.
  - intros j Hj. unfold do_sync, do_write, set_file. cbn [inodes do_create set_faults].
    by rewrite !lookup_insert_ne by done.
Qed.

Lemma createActive_Ok s s' :
  createActive s = (Ok tt, s') ->
  let path := segName (nextID s) activeSuffix in
  let i := next_ino (st_disk s) in
  names (st_disk s) !! path = None /\ exists fs,
  s' = set_active (Some (MkActive (nextID s) path i 8 ∅))
  (set_disk (set_faults fs (do_sync i (do_write i magicHeader 0 (do_create path (st_disk s)))))
    (set_nextID (u64 (nextID s + 1)) s)).
Proof.
  intros E. cbv zeta. unfold createActive in E. rewrite M_gets, M_modify in E.
  apply M_bind_Ok in E as (f & s1 & (d1 & (Hn & -> & fs1 & ->)%CreateExcl_Ok & ->)%io_Ok & E).
  split; [exact Hn|]. apply M_bind_Ok in E as ([] & s2 & E1 & [= <-]).
  apply catch_Ok in E1; [|by intros e s0; rewrite !ignore_inv].
  apply M_bind_Ok in E1 as ([] & s3 & (d3 & (fs3 & ->)%WriteAt_Ok & ->)%io_Ok & E1).
  apply M_bind_Ok in E1 as ([] & s4 & (d4 & (fs4 & ->)%Sync_Ok & ->)%io_Ok & E1).
  apply io_Ok in E1 as (d5 & (fs5 & ->)%SyncDir_Ok & ->). by exists fs5.
Qed.

Lemma create_on_disk s s' :
  on_disk s -> active s = None -> nextID s + 1 < 2 ^ 64 -> createActive s = (Ok tt, s') ->
  on_disk s' /\ nextID s' = nextID s + 1 /\ exists a, active s' = Some a /\ a_index a = ∅.
Proof.
  intros O Ha Hid E. pose proof (create_spec _ _ _ (od_core _ O) Ha E) as ((C & _) & _ & HA).
  destruct (createActive_Ok _ _ E) as (Hn & fs & Es).
  destruct (created_disk (st_disk s) (segName (nextID s) activeSuffix) fs) as (DN & DI & DD & DO).
  set (D := set_faults fs _) in *. clearbody D. subst s'. pose proof (od_next _ O) as R.
  assert (u64 (nextID s + 1) = nextID s + 1) as U by (unfold u64; rewrite Z.mod_small; lia).
  assert (forall n i, names (st_disk s) !! n = Some i -> i <> next_ino (st_disk s)) as Fr
  by (intros n i Hi; pose proof (od_fresh _ O n i Hi); lia).
  split; [|split; [exact U|by apply HA]].
  split; [exact C|..]; cbn [failed st_disk sealed active nextID set_active set_segments set_disk set_nextID]; rewrite ?DN, ?DI, ?U.
  - apply O.
  - intros n i [[_ <-]|[_ Hi]]%lookup_insert_Some; [lia|]. pose proof (od_fresh _ O n i Hi). lia.
  - intros n1 n2 i [[<- <-]|[_ H1']]%lookup_insert_Some [[<- E2]|[_ H2']]%lookup_insert_Some; try done.
    + by apply Fr in H2'.
    + subst i. by apply Fr in H1'.
    + by eapply (od_inj _ O).
  - intros n Hs Hsf. rewrite lookup_insert_is_Some in Hs. destruct Hs as [<-|[_ Hs]]; [right; eauto|].
    destruct (od_dir _ O n Hs Hsf) as [HG|(a0 & Ha0 & _)]; [by left|congruence].
  - intros g Hg. destruct (od_sealed _ O g Hg) as [SO SR]. split; [|lia]. eapply seg_on_ext; [|exact SO].
    intros j Hj. rewrite DN. split; [|by eapply DO, Fr]. rewrite lookup_insert_ne; [done|].
    rewrite (so_path _ _ SO). apply segName_active_sealed.
  - apply O.
  - intros a [= <-]. cbn [a_id a_path a_f a_size a_index]. split_and!; try lia.
    + split; cbn [a_id a_path a_f a_size a_index]; [done|rewrite DN; apply lookup_insert_eq| |].
      { intros f. rewrite DD. by intros [= <-]. }
      exists [], []. split_and!; [constructor| |done..]. exists (MkFile magicHeader (length magicHeader)).
      split; [exact DD|]. unfold log. by rewrite app_nil_r.
    + intros g Hg. apply (od_sealed _ O g Hg).
  - lia.
Qed.

(** ** Sealing *)

Lemma TrimSuffix_segName id : TrimSuffix (segName id activeSuffix) dotActive = segName id sealedSuffix.
Proof. unfold segName, activeSuffix. rewrite app_assoc. apply TrimSuffix_app. Qed.

Lemma seal_Ok s a s' :
  active s = Some a -> a_index a <> ∅ -> sealActiveLocked s = (Ok tt, s') ->
  exists footer i g fs,
  buildFooter (a_size a) (active_entries a) = Ok footer /\
  let d3 := do_sync (a_f a) (do_write (a_f a) footer (a_size a) (do_truncate (a_f a) (a_size a) (st_disk s))) in
  let path := TrimSuffix (a_path a) dotActive in
  let d4 := set_names (<[path:=i]> (delete (a_path a) (names d3))) d3 in
  names (st_disk s) !! a_path a = Some i /\
  openSealed path (a_id a) (data_of d4 i) = Ok g /\
  s' = set_segments (sealed s ++ [g]) None (set_disk (set_faults fs d4) s).
Proof.
  intros Ha HI E. unfold sealActiveLocked in E. rewrite M_gets, Ha, bool_decide_eq_false_2 in E by done.
  rewrite M_lift in E. destruct (buildFooter _ _) as [footer|]; [|done].
  apply M_bind_Ok in E as ([] & s1 & (d1 & (fs1 & ->)%Truncate_Ok & ->)%io_Ok & E).
  apply M_bind_Ok in E as ([] & s2 & (d2 & (fs2 & ->)%WriteAt_Ok & ->)%io_Ok & E).
  apply M_bind_Ok in E as ([] & s3 & (d3 & (fs3 & ->)%Sync_Ok & ->)%io_Ok & E).
  unfold publish_sealed in E.
  apply M_bind_Ok in E as ([] & s4 & (d4 & (i & fs4 & Hi & ->)%Rename_Ok & ->)%io_Ok & E).
  apply M_bind_Ok in E as ([] & s5 & (d5 & (fs5 & ->)%SyncDir_Ok & ->)%io_Ok & E).
  apply M_bind_Ok in E as (g & s6 & E6 & E). unfold open_path in E6.
  apply M_bind_Ok in E6 as (b & s7 & (d7 & (j & fs7 & Hj & -> & ->)%ReadWhole_Ok & ->)%io_Ok & E6).
  unfold lift in E6. injection E6 as Hg <-. rewrite M_modify in E.
  apply io_Ok in E as (d8 & (fs8 & ->)%CloseFd_Ok & ->).
  exists footer, i, g, fs8. split; [done|]. cbv zeta. split; [exact Hi|]. split; [|done].
  change (<[TrimSuffix (a_path a) dotActive:=i]>
  (delete (a_path a) (names (st_disk s))) !! TrimSuffix (a_path a) dotActive = Some j) in Hj.
  rewrite lookup_insert_eq in Hj. injection Hj as <-. exact Hg.
Qed.

Lemma openSealed_fields path id mm g :
  openSealed path id mm = Ok g -> sg_path g = path /\ sg_id g = id /\ sg_mm g = mm.
Proof. unfold openSealed. destruct (_ <? _); [done|]. by intros (fv & _ & [= <-])%res_bind_Ok. Qed.

Lemma do_sync_durable d i b : holds d i b -> durable (do_sync i d) i b.
Proof.
  intros (f & Hf & Hd). unfold durable, do_sync, set_file, file_of. cbn [inodes].
  rewrite lookup_insert_eq, Hf. cbn [from_option id]. by rewrite Hd.
Qed.
Lemma sealing_other d i footer sz j :
  j <> i -> inodes (do_sync i (do_write i footer sz (do_truncate i sz d))) !! j = inodes d !! j.
Proof. intros Hj. unfold do_sync, do_write, do_truncate, set_file. cbn [inodes]. by rewrite !lookup_insert_ne by done. Qed.

Lemma StronglySorted_snoc_lt (l : list Z) x :
  StronglySorted Z.lt l -> (forall y, y ∈ l -> y < x) -> StronglySorted Z.lt (l ++ [x]).
Proof.
  induction 1 as [|y l HS IH HF]; intros Hx; [repeat constructor|]. cbn [app]. constructor.
  - apply IH. intros z Hz. apply Hx. by right.
  - apply Forall_app. split; [done|]. apply Forall_singleton. apply Hx. by left.
Qed.

Lemma seal_on_disk s s' :
  on_disk s -> named (2 * SEG_MAX) s -> sealActiveLocked s = (Ok tt, s') -> on_disk s' /\ nextID s' = nextID s.
Proof.
  intros O N E. pose proof (seal_spec _ _ _ (od_core _ O) N E) as [(C & _ & _) _].
  destruct (active s) as [a|] eqn:Ha; cycle 1.
  { unfold sealActiveLocked in E. rewrite M_gets, Ha in E. by injection E as <-. }
  destruct (decide (a_index a = ∅)) as [HI|HI].
  { unfold sealActiveLocked in E. rewrite M_gets, Ha, bool_decide_eq_true_2 in E by done. by injection E as <-. }
  destruct (seal_Ok s a s' Ha HI E) as (footer & i & g & fs & Hb & Hn & HO & Es). clear E.
  destruct (od_active _ O a Ha) as ([Pa Na Sa (recs & hdrs & HF & HL & HS & HX)] & Ra & La).
  assert (i = a_f a) as -> by congruence.
  set (d3 := do_sync _ _) in *. rewrite Pa, TrimSuffix_segName in *.
  assert (durable d3 (a_f a) (log recs ++ footer)) as D3.
  { apply do_sync_durable. rewrite HS. apply do_write_holds, do_truncate_holds, holds_log, HL. }
  assert (forall j, j <> a_f a -> inodes d3 !! j = inodes (st_disk s) !! j) as O3 by (intros j; apply sealing_other).
  assert (names d3 = names (st_disk s)) as N3 by done. assert (next_ino d3 = next_ino (st_disk s)) as X3 by done.
  clearbody d3. rewrite N3 in *.
  assert (data_of (set_names (<[segName (a_id a) sealedSuffix:=a_f a]>
  (delete (segName (a_id a) activeSuffix) (names (st_disk s)))) d3) (a_f a) = log recs ++ footer) as Ed.
  { unfold data_of, file_of. change (inodes (set_names _ d3)) with (inodes d3). by rewrite D3. }
  rewrite Ed in HO. destruct (openSealed_fields _ _ _ _ HO) as (GP & GI & GM).
  assert (forall n j, names (st_disk s) !! n = Some j -> n <> segName (a_id a) activeSuffix -> j <> a_f a) as Apart.
  { intros n j Hj Hne ->. apply Hne. by eapply (od_inj _ O). }
  subst s'. split; [|done].
  split; [exact C|..]; cbn [failed st_disk sealed active nextID set_active set_segments set_disk set_nextID names next_ino set_faults set_names]; rewrite ?X3.
  - apply O.
  - intros n j [[_ <-]|[_ [_ Hj]%lookup_delete_Some]]%lookup_insert_Some; by eapply (od_fresh _ O).
  - intros n1 n2 j [[<- <-]|[_ [K1 H1']%lookup_delete_Some]]%lookup_insert_Some
    [[<- E2]|[_ [K2 H2']%lookup_delete_Some]]%lookup_insert_Some; try done.
    + by destruct (Apart n2 _ H2').
    + subst j. by destruct (Apart n1 _ H1').
    + by eapply (od_inj _ O).
  - intros n Hs Hsf. left. rewrite lookup_insert_is_Some in Hs. destruct Hs as [<-|[Hne Hs]].
    + exists g. rewrite GP. split; [|done]. apply elem_of_app. right. by left.
    + rewrite lookup_delete_is_Some in Hs. destruct Hs as [Hne2 Hs].
      destruct (od_dir _ O n Hs Hsf) as [(g' & Hg' & ->)|(a0 & [= <-]%(eq_trans (eq_sym Ha)) & ->)]; [|congruence].
      exists g'. split; [|done]. apply elem_of_app. by left.
  - intros g' [Hg'| ->%list_elem_of_singleton]%elem_of_app.
    + destruct (od_sealed _ O g' Hg') as [SO SR]. split; [|done]. eapply seg_on_ext; [|exact SO].
      intros j Hj. rewrite (so_path _ _ SO) in *. pose proof (La g' Hg') as Hlt.
      assert (segName (sg_id g') sealedSuffix <> segName (a_id a) sealedSuffix) as Hne.
      { intros E. apply (f_equal (fun n => parseSegmentID n sealedSuffix)) in E. pose proof (od_next _ O).
        rewrite !parseSegmentID_segName in E by lia. injection E as E. lia. }
      cbn [names inodes set_faults set_names]. rewrite lookup_insert_ne by done.
      rewrite lookup_delete_ne by (apply segName_active_sealed). split; [done|]. apply O3.
      eapply Apart; [exact Hj|]. intros E. by apply (segName_active_sealed (a_id a) (sg_id g')).
    + rewrite GI. split; [|done]. split; rewrite ?GP, ?GI, ?GM; [done..|]. exists (a_f a). split; [|exact D3].
      apply lookup_insert_eq.
  - rewrite map_app. cbn [map]. rewrite GI. apply StronglySorted_snoc_lt; [apply O|].
    intros y (g' & -> & Hg')%list_elem_of_fmap. by apply La.
  - done.
  - apply O.
Qed.

(** ** Appending *)

Lemma holds_file d i b : holds d i b -> f_data (file_of d i) = b.
Proof. apply holds_data. Qed.

Lemma sync_on_disk s a fs :
  on_disk s -> active s = Some a -> on_disk (set_disk (set_faults fs (do_sync (a_f a) (st_disk s))) s).
Proof.
  intros O Ha. destruct (od_active _ O a Ha) as ([Pa Na Sa (recs & hdrs & HF & HL & HS & HX)] & _ & _).
  pose proof (on_disk_active s a a (MkFile (f_data (file_of (st_disk s) (a_f a))) (length (f_data (file_of (st_disk s) (a_f a)))))
  fs recs hdrs O Ha eq_refl eq_refl eq_refl HF (holds_file _ _ _ HL)) as K.
  assert (8 <= length (f_data (file_of (st_disk s) (a_f a))))%nat as L8
  by (rewrite (holds_file _ _ _ HL); unfold log; rewrite length_app; cbn; lia).
  specialize (K L8 HS HX).
  replace (set_disk (set_faults fs (do_sync (a_f a) (st_disk s))) s) with
  (set_active (Some a) (set_disk (set_faults fs (do_sync (a_f a) (st_disk s))) s)); [exact K|].
  destruct s; cbn in *. by rewrite Ha.
Qed.

Lemma write_on_disk s a rec h fs :
  on_disk s -> active s = Some a -> whole rec h ->
  on_disk (set_active (Some (grown a (RKey h) rec))
    (set_disk (set_faults fs (do_write (a_f a) rec (a_size a) (st_disk s))) s)).
Proof.
  intros O Ha W. destruct (od_active _ O a Ha) as ([Pa Na Sa (recs & hdrs & HF & HL & HS & HX)] & _ & _).
  eapply (on_disk_active s a (grown a (RKey h) rec) _ fs (recs ++ [rec]) (hdrs ++ [h])); try done.
  - apply Forall2_app; [done|]. constructor; [done|constructor].
  - cbn [f_data]. rewrite (holds_file _ _ _ HL), log_snoc, HS. unfold zlen. rewrite Nat2Z.id.
    rewrite <- (app_nil_r (log recs)) at 1. rewrite write_at_after, drop_nil. by rewrite app_nil_r.
  - cbn [f_synced]. destruct HL as (f & Hf & _). pose proof (Sa f Hf). unfold file_of. rewrite Hf. cbn [from_option id].
    rewrite HS. unfold log. rewrite zlen_app. change (zlen magicHeader) with 8. pose proof (zlen_nonneg (concat recs)). lia.
  - cbn [grown a_size]. by rewrite log_snoc, zlen_app, HS.
  - cbn [grown a_index]. rewrite index_recs_snoc by (by eapply Forall2_length). rewrite HX, HS. f_equal.
    unfold loc_of, log. rewrite zlen_app. destruct W as [P _].
    by rewrite <- (pr_flags _ _ P), <- (pr_ulen _ _ P), <- (pr_slen _ _ P).
Qed.

(** Everything written so far is durable. *)
Definition all_synced (s : Store) : Prop :=
  forall a, active s = Some a -> exists b, durable (st_disk s) (a_f a) b.

Lemma append_record_on_disk s a h rec b s' :
  inv s -> on_disk s -> active s = Some a -> whole rec h ->
  append_record a (RKey h) rec b s = (Ok tt, s') ->
  on_disk s' /\ nextID s' = nextID s /\ (b = true -> cfg_sync (st_cfg s) = true -> all_synced s').
Proof.
  intros I O Ha W E. unfold append_record in E.
  apply M_bind_Ok in E as ([] & s1 & (d1 & (fs1 & ->)%WriteAt_Ok & ->)%io_Ok & E).
  rewrite M_modify, M_gets in E. change (MkActive (a_id a) _ _ _ _) with (grown a (RKey h) rec) in E.
  pose proof (write_on_disk s a rec h fs1 O Ha W) as O2.
  set (s2 := set_active _ _) in *. cbn [st_cfg s2 set_active set_segments set_disk] in E. fold s2 in E.
  apply M_bind_Ok in E as ([] & s3 & E3 & E).
  assert (on_disk s3 /\ nextID s3 = nextID s /\ (b = true -> cfg_sync (st_cfg s) = true -> all_synced s3) /\
  active s3 = Some (grown a (RKey h) rec) /\ names (st_disk s3) = names (st_disk s)) as (O3 & X3 & Y3 & A3 & N3).
  { apply when_inv in E3 as [[Hb E3]|(Hb & _ & ->)].
    - apply poison_Ok, io_Ok in E3 as (d3 & (fs3 & ->)%Sync_Ok & ->).
      split; [by apply (sync_on_disk s2 (grown a (RKey h) rec))|]. split; [done|]. split; [|done].
      intros _ _ a' [= <-]. destruct (od_active _ O2 _ eq_refl) as ([_ _ _ (recs & hdrs & _ & HL & _)] & _).
      exists (log recs). by apply do_sync_durable.
    - split_and!; try done. intros -> Hc. by rewrite Hc in Hb. }
  apply when_inv in E as [[_ E]|(_ & _ & ->)]; [|by split_and!].
  apply poison_Ok in E. destruct (inv_path _ I (od_failed _ O) a Ha) as [Hn Hlim].
  assert (named (2 * SEG_MAX) s3) as N.
  { intros a' Ha'. rewrite A3 in Ha'. injection Ha' as <-. rewrite N3. split; [exact Hn|]. cbn [grown a_size].
    pose proof (whole_length_bound _ _ W) as B. unfold SEG_MAX in *. change MaxPayload with (2 ^ 28) in B. lia. }
  destruct (seal_on_disk s3 s' O3 N E) as [O' X']. split; [done|]. split; [congruence|].
  intros Hb Hc. destruct (seal_spec _ _ _ (od_core _ O3) N E) as [_ HA].
  destruct (HA eq_refl) as [Hnone|[-> _]]; [intros a' Ha'; congruence|by apply Y3].
Qed.

Lemma append_on_disk s h rec b s' :
  inv s -> on_disk s -> nextID s + 1 < 2 ^ 64 -> whole rec h ->
  appendLocked (RKey h) rec b s = (Ok tt, s') ->
  on_disk s' /\ nextID s' <= nextID s + 1 /\
  (b = true -> cfg_sync (st_cfg s) = true -> view s (RKey h) = None -> all_synced s').
Proof.
  intros I O Hid W E. unfold appendLocked in E.
  apply M_bind_Ok in E as ([] & s1 & [-> _]%writable_inv & E).
  apply M_bind_Ok in E as (a & s2 & E2 & E).
  destruct (ensure_active_spec _ _ _ I (od_failed _ O) E2) as (SV & HN2 & HA). destruct (HA a eq_refl) as [Ha _].
  assert (on_disk s2 /\ nextID s2 <= nextID s + 1) as [O2 X2].
  { unfold ensure_active in E2. apply M_bind_Ok in E2 as ([] & s3 & E3 & E4). rewrite M_gets in E3. cbn [id] in E3.
    rewrite M_gets in E4. unfold lift in E4. injection E4 as _ <-. destruct (active s) as [a0|] eqn:Ea.
    - injection E3 as <-. split; [done|lia].
    - destruct (create_on_disk s s3 O Ea Hid E3) as (? & -> & _). split; [done|lia]. }
  destruct (a_index a !! RKey h) as [loc|] eqn:EI.
  - injection E as <-. split; [done|]. split; [done|]. intros _ _ Hnone. exfalso.
    rewrite <- (sv_view _ _ SV) in Hnone. unfold view in Hnone. rewrite Ha in Hnone. cbn [mbind option_bind] in Hnone.
    unfold act_view in Hnone. by rewrite EI in Hnone.
  - destruct (append_record_on_disk s2 a h rec b s' (sv_inv _ _ SV) O2 Ha W E) as (O' & X' & Y').
    split; [done|]. split; [lia|]. intros Hb Hc _. apply Y'; [done|]. by rewrite (fr_cfg _ _ (sv_frame _ _ SV)).
Qed.

(** ** Loading the directory *)

Lemma segName_not_active id : HasSuffix (segName id sealedSuffix) activeSuffix = false.
Proof.
  destruct (HasSuffix _ _) eqn:E; [|done]. apply HasSuffix_inv in E as [p E].
  apply (f_equal list.last) in E. unfold segName, activeSuffix, sealedSuffix, dotActive in E.
  rewrite !last_app in E. done.
Qed.

Definition seg_by (l : list sealedSegment) (n : bytes) : option sealedSegment :=
  snd <$> list_find (fun g => sg_path g = n) l.
Lemma seg_by_Some l n g : seg_by l n = Some g -> g ∈ l /\ sg_path g = n.
Proof.
  unfold seg_by. destruct (list_find _ l) as [[i g']|] eqn:E; [|done]. intros [= <-].
  apply list_find_Some in E as (Hi & Hp & _). split; [by eapply list_elem_of_lookup_2|done].
Qed.
Lemma seg_by_elem l g :
  (forall g', g' ∈ l -> sg_path g' = sg_path g -> g' = g) -> g ∈ l -> seg_by l (sg_path g) = Some g.
Proof.
  intros U Hg. unfold seg_by. destruct (list_find (fun g' => sg_path g' = sg_path g) l) as [[i g']|] eqn:E.
  - apply list_find_Some in E as (Hi & Hp & _). cbn. f_equal. apply U; [by eapply list_elem_of_lookup_2|done].
  - apply list_find_None in E. rewrite list.Forall_forall in E. by destruct (E g Hg).
Qed.

Lemma NoDup_omap_inj {A B} (f : A -> option B) l :
  (forall x y z, f x = Some z -> f y = Some z -> x = y) -> NoDup l -> NoDup (omap f l).
Proof.
  intros Hf. induction 1 as [|x l Hx HN IH]; [constructor|]. cbn. destruct (f x) as [z|] eqn:E; [|done].
  constructor; [|done]. intros (y & Hy & Ey)%list_elem_of_omap. by rewrite (Hf _ _ _ E Ey) in Hx.
Qed.

Lemma filter_single {A} (P : A -> Prop) `{forall x, Decision (P x)} l p :
  NoDup l -> p ∈ l -> P p -> (forall x, x ∈ l -> P x -> x = p) -> filter P l = [p].
Proof.
  intros ND Hp HP U. assert (filter P l ≡ₚ [p]) as ->%Permutation_singleton_r; [|done].
  apply NoDup_Permutation; [by apply list.NoDup_filter|apply list.NoDup_singleton|].
  intros x. rewrite list_elem_of_filter, list_elem_of_singleton. split; [naive_solver|]. intros ->. done.
Qed.

Lemma attempt_quiet {A} (run : M Disk A) torn d : faults d = [] -> attempt run torn d = run d.
Proof. unfold attempt. by intros ->. Qed.

(** The directory [d] as the next process finds it. *)
Record dir_of (d : Disk) (s : Store) : Prop := {
    do_faults : faults d = [];
    do_names : names d = names (st_disk s);
    do_sealed g j : g ∈ sealed s -> names d !! sg_path g = Some j -> data_of d j = sg_mm g
  }.

Lemma ids_sorted l : StronglySorted Z.lt (map sg_id l) -> StronglySorted seg_le l.
Proof.
  induction l as [|x l IH]; intros HS; [constructor|]. inversion_clear HS as [|? ? HS' HF].
  constructor; [by apply IH|]. apply list.Forall_forall. intros y Hy. rewrite list.Forall_forall in HF.
  unfold seg_le. apply Z.lt_le_incl, HF. by apply (list_elem_of_fmap_2 sg_id).
Qed.
Lemma ids_NoDup (l : list sealedSegment) : StronglySorted Z.lt (map sg_id l) -> NoDup (map sg_id l).
Proof.
  intros HS. induction HS as [|x l' HS IH HF]; constructor; [|done].
  intros Hin. rewrite list.Forall_forall in HF. specialize (HF x Hin). lia.
Qed.
Lemma sort_sorted_ids l : StronglySorted Z.lt (map sg_id l) -> merge_sort seg_le l = l.
Proof.
  intros HS. apply (StronglySorted_unique_strong seg_le); [| |by apply ids_sorted|by rewrite merge_sort_Permutation].
  - intros x y Hx Hy L1 L2. rewrite merge_sort_Permutation in Hx. pose proof (ids_NoDup _ HS) as ND.
    apply list_elem_of_lookup in Hx as [i Hi], Hy as [j Hj].
    assert (i = j) as ->; [|congruence].
    apply (NoDup_lookup _ i j (sg_id x) ND); rewrite list_lookup_fmap, ?Hi, ?Hj; cbn; f_equal; unfold seg_le in *; lia.
  - assert (Transitive seg_le) by (intros x y z; unfold seg_le; lia).
    assert (Total seg_le) by (intros x y; unfold seg_le; lia).
    by apply StronglySorted_merge_sort.
Qed.

Section Load.
Context (s : Store) (d : Disk).
Hypothesis O : on_disk s.
Hypothesis D : dir_of d s.

Lemma ids_inj g g' : g ∈ sealed s -> g' ∈ sealed s -> sg_id g = sg_id g' -> g = g'.
Proof using O.
  pose proof (ids_NoDup _ (od_sorted _ O)) as ND.
  intros [i Hi]%list_elem_of_lookup [j Hj]%list_elem_of_lookup E.
  assert (i = j) as ->; [|congruence]. apply (NoDup_lookup _ i j (sg_id g) ND); rewrite list_lookup_fmap, ?Hi, ?Hj; cbn; congruence.
Qed.
Lemma paths_inj g g' : g ∈ sealed s -> g' ∈ sealed s -> sg_path g = sg_path g' -> g = g'.
Proof using O.
  intros Hg Hg' E. destruct (od_sealed _ O g Hg) as [S R], (od_sealed _ O g' Hg') as [S' R'].
  apply ids_inj; [done..|]. rewrite (so_path _ _ S), (so_path _ _ S') in E. pose proof (od_next _ O).
  apply (f_equal (fun n => parseSegmentID n sealedSuffix)) in E.
  rewrite !parseSegmentID_segName in E by lia. by injection E.
Qed.

Lemma ReadWhole_quiet path j : names d !! path = Some j -> ReadWhole path d = (Ok (data_of d j), d).
Proof using D. intros Hj. unfold ReadWhole. rewrite attempt_quiet by apply D. by rewrite Hj. Qed.

Lemma open_path_quiet g S0 :
  g ∈ sealed s -> st_disk S0 = d -> open_path (sg_path g) (sg_id g) S0 = (Ok g, S0).
Proof using O D.
  intros Hg HS. destruct (od_sealed _ O g Hg) as [[_ HO (j & Hj & _)] _]. unfold open_path, mbind, M_bind, io.
  rewrite <- (do_names _ _ D) in Hj. rewrite HS, (ReadWhole_quiet _ _ Hj), (do_sealed _ _ D g j Hg Hj).
  unfold lift. rewrite HO. destruct S0; cbn in *. by subst.
Qed.

Lemma load_names_spec ns acts S0 :
  st_disk S0 = d -> (forall n, n ∈ ns -> is_Some (names d !! n)) ->
  exists nid, load_names ns acts S0 =
  (Ok (acts ++ filter (fun n => HasSuffix n activeSuffix = true) ns),
    set_nextID nid (set_sealed (sealed S0 ++ omap (seg_by (sealed s)) ns) S0)) /\
  nextID S0 <= nid /\ (nextID S0 <= nextID s -> nid <= nextID s) /\ forall g, g ∈ omap (seg_by (sealed s)) ns -> sg_id g < nid.
Proof using O D.
  revert acts S0. induction ns as [|n ns IH]; intros acts S0 HS Hn.
  - exists (nextID S0). cbn. rewrite !app_nil_r. split; [by destruct S0|]. split; [done|]. split; [done|]. intros g Hg. by apply elem_of_nil in Hg.
  - assert (forall m, m ∈ ns -> is_Some (names d !! m)) as Hn' by (intros m Hm; apply Hn; by right).
    assert (is_Some (names d !! n)) as Hsome by (apply Hn; by left). cbn [load_names omap list_omap].
    assert (HasSuffix n activeSuffix = true -> seg_by (sealed s) n = None) as Hact.
    { intros Ha. destruct (seg_by (sealed s) n) as [g|] eqn:E; [|done]. apply seg_by_Some in E as [Hg <-].
      destruct (od_sealed _ O g Hg) as [SO _]. rewrite (so_path _ _ SO), segName_not_active in Ha. done. }
    destruct (HasSuffix n activeSuffix) eqn:EA.
    + rewrite (Hact eq_refl), filter_cons_True by done. destruct (IH (acts ++ [n]) S0 HS Hn') as (nid & -> & HB).
      exists nid. rewrite <- app_assoc. by split.
    + rewrite filter_cons_False by (by rewrite EA). destruct (HasSuffix n sealedSuffix) eqn:ES.
      * destruct (od_dir _ O n) as [(g & Hg & ->)|(a & Ha & ->)].
        { by rewrite <- (do_names _ _ D). }
        { unfold seg_file. by rewrite ES, orb_true_r. }
        2:{ destruct (od_active _ O a Ha) as ([Pa _ _ _] & _). rewrite Pa in EA. unfold segName in EA.
        by rewrite HasSuffix_app in EA. }
        destruct (od_sealed _ O g Hg) as [SO SR]. pose proof (od_next _ O).
        rewrite M_lift.
        assert (parseSegmentID (sg_path g) sealedSuffix = Ok (sg_id g)) as ->
        by (rewrite (so_path _ _ SO); apply parseSegmentID_segName; lia).
        unfold mbind at 1, M_bind at 1. rewrite (open_path_quiet g S0 Hg HS), M_modify.
        rewrite (seg_by_elem _ g) by (done || (intros g' Hg' E; by apply paths_inj)).
        match goal with |- context [load_names ns acts ?x] => set (S1 := x) end.
        destruct (IH acts S1 HS Hn') as (nid & -> & HB1 & HB2 & HB3). exists nid.
        assert (nextID S1 = Z.max (nextID S0) (sg_id g + 1)) as EN.
        { unfold S1. cbn. unfold u64. rewrite Z.mod_small by lia. destruct (Z.leb_spec (nextID S0) (sg_id g)); lia. }
        split; [|split; [lia|split; [lia|]]].
        { f_equal. unfold S1, set_nextID, set_sealed, set_segments. cbn. by rewrite <- app_assoc. }
        intros g' [-> |Hg']%elem_of_cons; [lia|by apply HB3].
      * assert (seg_by (sealed s) n = None) as ->.
        { destruct (seg_by (sealed s) n) as [g|] eqn:E; [|done]. apply seg_by_Some in E as [Hg <-].
          destruct (od_sealed _ O g Hg) as [SO _]. rewrite (so_path _ _ SO) in ES. unfold segName in ES.
          by rewrite HasSuffix_app in ES. }
        by apply IH.
Qed.

Lemma dir_names_elem n : n ∈ dir_names d <-> is_Some (names d !! n).
Proof. unfold dir_names. by rewrite merge_sort_Permutation, elem_of_elements, elem_of_dom. Qed.
Lemma dir_names_NoDup : NoDup (dir_names d).
Proof. unfold dir_names. rewrite merge_sort_Permutation. apply NoDup_elements. Qed.

Lemma loaded_sealed : merge_sort seg_le (omap (seg_by (sealed s)) (dir_names d)) = sealed s.
Proof using O D.
  assert (omap (seg_by (sealed s)) (dir_names d) ≡ₚ sealed s) as HP.
  { assert (NoDup (sealed s)) as ND by (eapply NoDup_fmap_1, ids_NoDup, O).
    apply NoDup_Permutation; [|done|].
    - apply NoDup_omap_inj; [|apply dir_names_NoDup]. intros x y z [_ <-]%seg_by_Some [_ <-]%seg_by_Some. done.
    - intros g. rewrite list_elem_of_omap. split; [by intros (n & _ & [Hg _]%seg_by_Some)|].
      intros Hg. exists (sg_path g). rewrite dir_names_elem. destruct (od_sealed _ O g Hg) as [[_ _ (j & Hj & _)] _].
      rewrite (do_names _ _ D). split; [by eexists|]. apply seg_by_elem; [|done]. intros g' Hg' E. by apply paths_inj. }
  apply (StronglySorted_unique_strong seg_le).
  - intros x y Hx Hy L1 L2. rewrite merge_sort_Permutation, HP in Hx. apply ids_inj; [done..|]. unfold seg_le in *. lia.
  - assert (Transitive seg_le) by (intros x y z; unfold seg_le; lia).
    assert (Total seg_le) by (intros x y; unfold seg_le; lia).
    by apply StronglySorted_merge_sort.
  - apply ids_sorted, O.
  - by rewrite merge_sort_Permutation.
Qed.

(** Up to the recovery of the active segment. *)
Lemma Open_to_recover cfg :
  exists nid : Z, 1 <= nid <= nextID s /\ (forall g, g ∈ sealed s -> sg_id g < nid) /\ let S1 := MkStore d cfg false None (sealed s) None nid false None 0 in
  Open cfg d = match active s with Some a => recoverActive (a_path a) S1 | None => (Ok tt, S1) end.
Proof using O D.
  unfold Open, load. set (S0 := MkStore d cfg false None [] None 1 false None 0).
  assert (io ReadDirNames S0 = (Ok (dir_names d), S0)) as E0.
  { unfold io, ReadDirNames. cbn [st_disk S0]. rewrite attempt_quiet by apply D. done. }
  unfold mbind at 1, M_bind at 1. rewrite E0.
  destruct (load_names_spec (dir_names d) [] S0 eq_refl) as (nid & E1 & HB1 & HB2 & HB3); [intros n; by rewrite dir_names_elem|].
  unfold mbind at 1, M_bind at 1. rewrite E1. cbn [app].
  unfold sort_sealed. rewrite M_modify. cbn [sealed S0 set_nextID set_sealed set_segments app].
  rewrite loaded_sealed. exists nid. cbv zeta. pose proof (od_next _ O). split; [cbn in *; lia|]. split.
  { intros g Hg. apply HB3. rewrite <- loaded_sealed in Hg. by rewrite merge_sort_Permutation in Hg. }
  destruct (active s) as [a|] eqn:Ha.
  - rewrite (filter_single _ _ (a_path a)); [done|apply dir_names_NoDup| | |].
    + rewrite dir_names_elem, (do_names _ _ D). destruct (od_active _ O a Ha) as ([_ Na _ _] & _). by eexists.
    + destruct (od_active _ O a Ha) as ([Pa _ _ _] & _). rewrite Pa. unfold segName. apply HasSuffix_app.
    + intros n Hn HA. rewrite dir_names_elem, (do_names _ _ D) in Hn.
      destruct (od_dir _ O n Hn) as [(g & Hg & ->)|(a' & Ha' & ->)]; [unfold seg_file; by rewrite HA| |congruence].
      destruct (od_sealed _ O g Hg) as [SO _]. by rewrite (so_path _ _ SO), segName_not_active in HA.
  - rewrite filter_nothing; [done|]. apply list.Forall_forall. intros n Hn HA.
    rewrite dir_names_elem, (do_names _ _ D) in Hn.
    destruct (od_dir _ O n Hn) as [(g & Hg & ->)|(a' & Ha' & _)]; [unfold seg_file; by rewrite HA| |congruence].
    destruct (od_sealed _ O g Hg) as [SO _]. by rewrite (so_path _ _ SO), segName_not_active in HA.
Qed.
End Load.

(** ** Recovering the active segment *)

Lemma io_quiet {A} (m : M Disk A) (s : Store) (d : Disk) (x : res A) (d' : Disk) : st_disk s = d -> m d = (x, d') -> io m s = (x, set_disk d' s).
Proof. intros HS E. unfold io. by rewrite HS, E. Qed.

Lemma recover_unsealed S1 d name id f sz idx :
  st_disk S1 = d -> faults d = [] -> parseSegmentID name activeSuffix = Ok id ->
  names d !! name = Some f -> scanActive (data_of d f) = Ok (MkScan sz idx false) ->
  recoverActive name S1 =
  (Ok tt, set_active (Some (if sz <? 8 then MkActive id name f 8 idx else MkActive id name f sz idx))
      (set_disk (if sz <? 8 then do_write f magicHeader 0 (do_truncate f 0 d) else do_truncate f sz d)
         (set_nextID (if nextID S1 <=? id then u64 (id + 1) else nextID S1) S1))).
Proof.
  intros HS HQ Hid Hn Hsc. unfold recoverActive. rewrite M_lift, Hid.
  assert (ReadWhole name d = (Ok (data_of d f), d)) as ER by (unfold ReadWhole; rewrite attempt_quiet by done; by rewrite Hn).
  unfold mbind at 1, M_bind at 1. rewrite (io_quiet _ _ _ _ _ HS ER). rewrite M_lift, Hsc, M_modify.
  cbn [sr_sealed sr_size sr_index].
  set (S2 := set_nextID _ (set_disk d S1)). assert (st_disk S2 = d) as HS2 by done.
  assert (OpenFile name d = (Ok f, d)) as EO by (unfold OpenFile; rewrite attempt_quiet by done; by rewrite Hn).
  unfold mbind at 1, M_bind at 1. rewrite (io_quiet _ _ _ _ _ HS2 EO). change (zlen magicHeader) with 8.
  unfold mbind at 1, M_bind at 1. destruct (Z.ltb_spec sz 8).
  - unfold mbind at 1, M_bind at 1. unfold catch at 1.
    assert (Truncate f 0 d = (Ok tt, do_truncate f 0 d)) as ET by (unfold Truncate; by rewrite attempt_quiet).
    rewrite (io_quiet _ (set_disk d S2) d _ _ eq_refl ET).
    unfold mbind at 1, M_bind at 1. unfold catch at 1.
    assert (WriteAt f magicHeader 0 (do_truncate f 0 d) = (Ok tt, do_write f magicHeader 0 (do_truncate f 0 d))) as EW
    by (unfold WriteAt; by rewrite attempt_quiet).
    by rewrite (io_quiet _ (set_disk (do_truncate f 0 d) (set_disk d S2)) _ _ _ eq_refl EW).
  - unfold mbind at 1, M_bind at 1. unfold catch at 1.
    assert (Truncate f sz d = (Ok tt, do_truncate f sz d)) as ET by (unfold Truncate; by rewrite attempt_quiet).
    by rewrite (io_quiet _ (set_disk d S2) d _ _ eq_refl ET).
Qed.

(** A crash may drop any part of a file that no fsync has covered. *)
Definition crash (d d' : Disk) : Prop :=
  faults d' = [] /\ names d' = names d /\
  forall i f, inodes d !! i = Some f -> exists m f', (f_synced f <= m)%nat /\
  inodes d' !! i = Some f' /\ f_data f' = take m (f_data f).

Lemma crash_dir s d' : on_disk s -> crash (st_disk s) d' -> dir_of d' s.
Proof.
  intros O (HQ & HN & HF). split; [done..|]. intros g j Hg Hj.
  destruct (od_sealed _ O g Hg) as [[_ _ (i & Hi & Hd)] _]. rewrite HN, Hi in Hj. injection Hj as <-.
  destruct (HF _ _ Hd) as (m & f' & Hm & Hf & Ef). cbn [f_synced f_data] in *.
  unfold data_of, file_of. rewrite Hf. cbn [from_option id]. rewrite Ef. by apply take_ge.
Qed.

(** The records that a cut log still holds. *)
Lemma take_concat m recs hdrs :
  Forall2 whole recs hdrs ->
  exists j, (j <= length recs)%nat /\
  ((take m (concat recs) = concat (take j recs) /\ ((length (concat recs) <= m)%nat -> j = length recs)) \/
    exists rec h n, rec ∈ recs /\ whole rec h /\ (n < length rec)%nat /\ (m < length (concat recs))%nat /\
    take m (concat recs) = concat (take j recs) ++ take n rec).
Proof.
  intros F. revert m. induction F as [|rec h recs hdrs W F IH]; intros m.
  - exists 0%nat. split; [done|]. left. by destruct m.
  - cbn [concat length]. rewrite length_app. destruct (decide (m < length rec)%nat) as [Hm|Hm].
    + exists 0%nat. split; [lia|]. right. exists rec, h, m. split_and!; [by left|done|done|lia|].
      cbn. by rewrite take_app_le by lia.
    + destruct (IH (m - length rec)%nat) as (j & Hj & HI). exists (S j). split; [lia|].
      rewrite take_app, take_ge by lia. cbn [take concat]. destruct HI as [[E Hfull]|(r & h' & n & Hr & W' & Hn & Hm' & E)].
      * left. rewrite E. split; [done|]. intros. f_equal. apply Hfull. lia.
      * right. exists r, h', n. split_and!; [by right|done|done|lia|]. rewrite E. by rewrite app_assoc.
Qed.

Lemma scan_cut_log m recs hdrs :
  Forall2 whole recs hdrs -> (8 <= m)%nat ->
  exists j, (j <= length recs)%nat /\
  scanActive (take m (log recs)) = Ok (MkScan (zlen (log (take j recs))) (index_recs 8 (take j recs) (take j hdrs) ∅) false) /\
  ((length (log recs) <= m)%nat -> j = length recs) /\
  exists tl, take m (log recs) = log (take j recs) ++ tl.
Proof.
  intros F Hm. destruct (take_concat (m - 8) recs hdrs F) as (j & Hj & HI). exists j. split; [done|].
  assert (take m (log recs) = magicHeader ++ take (m - 8) (concat recs)) as E
  by (unfold log; rewrite take_app, take_ge; [done|done]).
  assert (Forall2 whole (take j recs) (take j hdrs)) as Fj by (by apply Forall2_take).
  assert (length (log recs) = 8 + length (concat recs))%nat as L by (unfold log; by rewrite length_app).
  rewrite E, L.
  destruct HI as [[-> Hfull]|(rec & h & n & _ & W & Hn & Hm' & ->)].
  - change (magicHeader ++ concat (take j recs)) with (log (take j recs)). split_and!.
    + rewrite <- (app_nil_r (log (take j recs))). rewrite (scanActive_stop _ (take j hdrs)).
      * by rewrite app_nil_r.
      * done.
      * left. by rewrite app_nil_r.
    + intros. apply Hfull. lia.
    + exists []. by rewrite app_nil_r.
  - rewrite app_assoc. change (magicHeader ++ concat (take j recs)) with (log (take j recs)). split_and!.
    + apply scanActive_stop; [done|]. by eapply no_record_cut.
    + intros. lia.
    + by eexists.
Qed.

Lemma holds_unique d i f b : holds d i b -> inodes d !! i = Some f -> f_data f = b.
Proof. intros (f' & Hf & Hd) Hi. congruence. Qed.

(** Opening a directory whose active file is a prefix of the log. *)
Lemma open_cut cfg s d a recs hdrs m f :
  on_disk s -> dir_of d s -> active s = Some a -> Forall2 whole recs hdrs ->
  a_index a = index_recs 8 recs hdrs ∅ -> (8 <= m)%nat ->
  inodes d !! a_f a = Some f -> f_data f = take m (log recs) ->
  exists j s', (j <= length recs)%nat /\ Open cfg d = (Ok tt, s') /\ core s' /\ sealed s' = sealed s /\
  ((length (log recs) <= m)%nat -> j = length recs) /\
  exists (nid : Z) a', a' = MkActive (a_id a) (a_path a) (a_f a) (zlen (log (take j recs))) (index_recs 8 (take j recs) (take j hdrs) ∅) /\
  s' = MkStore (do_truncate (a_f a) (zlen (log (take j recs))) d) cfg false None (sealed s) (Some a') nid false None 0 /\
  log_at (st_disk s') (a_f a') (log (take j recs)) /\ 1 <= nid <= nextID s /\ a_id a < nid /\ (forall g, g ∈ sealed s -> sg_id g < nid).
Proof.
  intros O D Ha HF HI Hm Hf Hd. destruct (scan_cut_log m recs hdrs HF Hm) as (j & Hj & Hsc & Hfull & tl & Etl).
  destruct (Open_to_recover s d O D cfg) as (nid & Hnid & Hids & E). cbv zeta in E. rewrite Ha in E.
  destruct (od_active _ O a Ha) as ([Pa Na _ _] & Ra & _). pose proof (od_next _ O).
  assert (data_of d (a_f a) = take m (log recs)) as Ed by (unfold data_of, file_of; by rewrite Hf).
  set (S1 := MkStore _ _ _ _ _ _ _ _ _ _) in E.
  opose proof* (recover_unsealed S1 d (a_path a) (a_id a) (a_f a) (zlen (log (take j recs)))
  (index_recs 8 (take j recs) (take j hdrs) ∅)) as ER;
  [done|apply D|rewrite Pa; apply parseSegmentID_segName; lia|by rewrite (do_names _ _ D)|by rewrite Ed|].
  assert (8 <= zlen (log (take j recs))) as L8
  by (unfold log; rewrite zlen_app; change (zlen magicHeader) with 8; pose proof (zlen_nonneg (concat (take j recs))); lia).
  rewrite (proj2 (Z.ltb_ge _ _)) in ER by done. rewrite ER in E.
  assert (holds (do_truncate (a_f a) (zlen (log (take j recs))) d) (a_f a) (log (take j recs))) as Hh.
  { apply do_truncate_holds. exists f, tl. by rewrite Hd. }
  exists j. eexists. split; [done|]. split; [exact E|]. split; [|split; [done|split; [done|]]].
  - split; [apply (od_core _ O)|]. intros a' [= <-]. exists (take j recs), (take j hdrs).
    split_and!; [by apply Forall2_take|by apply holds_log|done..].
  - do 2 eexists. split; [reflexivity|]. split; [reflexivity|]. cbn [st_disk a_f]. split; [by apply holds_log|]. cbn [set_disk set_nextID nextID]. change (nextID S1) with nid.
    assert (u64 (a_id a + 1) = a_id a + 1) as U by (unfold u64; rewrite Z.mod_small by lia; done).
    rewrite U. destruct (Z.leb_spec nid (a_id a)); split; try lia; (split; [lia|]); intros g Hg; specialize (Hids g Hg); lia.
Qed.

Lemma open_cut_view s s' a a' recs hdrs j :
  core s -> active s = Some a -> Forall2 whole recs hdrs -> log_at (st_disk s) (a_f a) (log recs) ->
  a_index a = index_recs 8 recs hdrs ∅ -> sealed s' = sealed s -> active s' = Some a' ->
  a_index a' = index_recs 8 (take j recs) (take j hdrs) ∅ -> log_at (st_disk s') (a_f a') (log (take j recs)) ->
  (forall k, a_index a !! k = None -> view s' k = view s k) /\
  (j = length recs -> forall k, view s' k = view s k).
Proof.
  intros C Ha HF HL HI HS Ha' HI' HL'.
  assert (Forall2 whole (take j recs) (take j hdrs)) as Fj by (by apply Forall2_take).
  assert (length recs = length hdrs) as L by (by eapply Forall2_length). split.
  - intros k Hk. unfold view. rewrite Ha, Ha', HS. cbn [mbind option_bind]. unfold act_view. rewrite Hk.
    destruct (a_index a' !! k) as [loc|] eqn:E; [exfalso|done]. rewrite HI' in E.
    assert (is_Some (index_recs 8 (take j recs) (take j hdrs) ∅ !! k)) as K by eauto.
    apply index_recs_is_Some in K; [|by eapply Forall2_length]. rewrite lookup_empty in K.
    destruct K as [K|[? [=]]]. assert (k ∈ map RKey hdrs) as Hin.
    { apply list_elem_of_fmap in K as (h & -> & Hh). apply (list_elem_of_fmap_2 RKey).
      rewrite <- (take_drop j hdrs). apply elem_of_app. by left. }
    assert (is_Some (index_recs 8 recs hdrs ∅ !! k)) as [loc' E'] by (apply index_recs_is_Some; [done|by left]).
    congruence.
  - intros -> k. rewrite take_ge in HL', HI', Fj by done. rewrite take_ge in HI', Fj by lia.
    unfold view. rewrite Ha, Ha', HS. cbn [mbind option_bind].
    rewrite (act_view_log _ _ _ _ _ Fj HL' HI'), (act_view_log _ _ _ _ _ HF HL HI). by rewrite HI', HI.
Qed.

Lemma recover_view s d' cfg :
  on_disk s -> crash (st_disk s) d' ->
  exists s', Open cfg d' = (Ok tt, s') /\ core s' /\
  (forall k, (forall a, active s = Some a -> a_index a !! k = None) -> view s' k = view s k) /\
  (all_synced s -> forall k, view s' k = view s k).
Proof.
  intros O Cr. pose proof (crash_dir _ _ O Cr) as D. destruct (active s) as [a|] eqn:Ha.
  - destruct (od_active _ O a Ha) as ([Pa Na Sa (recs & hdrs & HF & HL & HS & HX)] & _ & _).
    destruct HL as (f & Hf & Hd). destruct Cr as (_ & _ & CF). destruct (CF _ _ Hf) as (m & f' & Hm & Hf' & Hd').
    rewrite Hd in Hd'. pose proof (Sa f Hf) as H8.
    destruct (open_cut cfg s d' a recs hdrs m f' O D Ha HF HX ltac:(lia) Hf' Hd')
    as (j & s' & Hj & E & C' & ES & Hfull & nid & a' & -> & Es & HL' & _).
    assert (log_at (st_disk s) (a_f a) (log recs)) as HL by (apply holds_log; by exists f).
    destruct (open_cut_view s s' a _ recs hdrs j (od_core _ O) Ha HF HL HX ES ltac:(by rewrite Es) eq_refl HL') as [V1 V2].
    exists s'. split_and!; [done|done|intros k Hk; apply V1; by apply Hk|].
    intros Sy. apply V2, Hfull. destruct (Sy a Ha) as (b & Hb). unfold durable in Hb. rewrite Hf in Hb.
    injection Hb as ->. cbn [f_synced f_data] in Hm, Hd. subst b. exact Hm.
  - destruct (Open_to_recover s d' O D cfg) as (nid & _ & _ & E). cbv zeta in E. rewrite Ha in E.
    eexists. split; [exact E|]. assert (forall k, view (MkStore d' cfg false None (sealed s) None nid false None 0) k = view s k) as V.
    { intros k. unfold view. by rewrite Ha. }
    split_and!; [|by intros|done]. split; [apply (od_core _ O)|done].
Qed.

(** ** Batches *)

Lemma observe_on_disk k s s' : on_disk s -> observe k s = (Ok tt, s') -> on_disk s' /\ nextID s' = nextID s /\ st_cfg s' = st_cfg s.
Proof.
  intros O [= <-]. destruct (negb (capturing s)); [done|]. destruct (grey s); [|done].
  split; [|done]. destruct O as [[CS CA] ? ? ? ? ? ? ? ?]. by split.
Qed.

Lemma Put_on_disk s k data s' :
  inv s -> on_disk s -> nextID s + 1 < 2 ^ 64 -> Validate k = Ok tt -> Put k data s = (Ok tt, s') ->
  on_disk s' /\ nextID s' <= nextID s + 1 /\ (cfg_sync (st_cfg s) = true -> view s k = None -> all_synced s').
Proof.
  intros I O Hid Hk E. unfold Put in E. rewrite M_gets in E. cbn [id] in E. rewrite (od_failed _ O) in E.
  apply M_bind_Ok in E as ([] & s1 & E1 & E). destruct (observe_same _ _ _ _ I E1) as [_ SV].
  destruct (observe_on_disk _ _ _ O E1) as (O1 & X1 & Y1).
  apply M_bind_Ok in E as (has & s2 & E2 & E). unfold reads in E2. injection E2 as E2 <-.
  rewrite Has_view in E2 by apply SV. destruct (closed s1); [done|]. injection E2 as <-.
  case_bool_decide as HS.
  - injection E as <-. split; [done|]. split; [lia|]. intros _ Hn. rewrite (sv_view _ _ SV), Hn in HS. by destruct HS.
  - rewrite M_lift in E. destruct (EncodeRecord k data) as [rec|] eqn:EE; [|done].
    destruct (EncodeRecord_whole _ _ _ Hk EE) as (h & W & <- & _).
    destruct (append_on_disk s1 h rec true s' (sv_inv _ _ SV) O1 ltac:(lia) W E) as (O' & X' & Y').
    split; [done|]. split; [lia|]. intros Hc Hn. apply Y'; [done|congruence|]. by rewrite (sv_view _ _ SV).
Qed.

Lemma batch_object_on_disk s obj b s' :
  inv s -> on_disk s -> nextID s + 1 < 2 ^ 64 -> Validate (SKey obj) = Ok tt -> batch_object obj s = (Ok b, s') ->
  on_disk s' /\ nextID s' <= nextID s + 1.
Proof.
  intros I O Hid Hk E. unfold batch_object in E.
  apply M_bind_Ok in E as ([] & s1 & E1 & E). destruct (observe_same _ _ _ _ I E1) as [_ SV].
  destruct (observe_on_disk _ _ _ O E1) as (O1 & X1 & Y1).
  apply M_bind_Ok in E as (has & s2 & E2 & E). unfold reads in E2. injection E2 as E2 <-.
  destruct has; [injection E as <- <-; split; [done|lia]|].
  rewrite M_lift in E. destruct (prepare obj false) as [[rec n]|] eqn:EE; [|done].
  apply M_bind_Ok in E as ([] & s2 & E3 & [= <- <-]).
  destruct (prepare_whole _ _ _ _ Hk EE) as (h & W & Hh & _). rewrite <- Hh in E3.
  destruct (append_on_disk s1 h rec false s2 (sv_inv _ _ SV) O1 ltac:(lia) W E3) as (O' & X' & _).
  split; [done|lia].
Qed.

Lemma syncActive_on_disk s s' :
  on_disk s -> syncActive s = (Ok tt, s') -> on_disk s' /\ (cfg_sync (st_cfg s) = true -> all_synced s').
Proof.
  intros O E. unfold syncActive in E. apply M_bind_Ok in E as ([] & s1 & [-> _]%writable_inv & E).
  rewrite M_gets in E. cbn [id] in E. destruct (active s) as [a|] eqn:Ha.
  - destruct (cfg_sync (st_cfg s)) eqn:Ec; cbn [negb] in E; [|by injection E as <-].
    apply M_bind_Ok in E as ([] & s1 & E1 & [= <-]). apply poison_Ok, io_Ok in E1 as (d1 & (fs & ->)%Sync_Ok & ->).
    pose proof (sync_on_disk s a fs O Ha) as O1. split.
    + destruct O1 as [[CS CA] ? ? ? ? ? ? ? ?]. by split.
    + intros _ a' Ha'. cbn in Ha'. assert (a' = a) as -> by congruence.
      destruct (od_active _ O a Ha) as ([_ _ _ (recs & hdrs & _ & HL & _)] & _).
      exists (log recs). by apply do_sync_durable.
  - injection E as <-. split; [done|]. intros _ a Ha'. congruence.
Qed.

Lemma batch_loop_on_disk seq seen b s s' :
  inv s -> on_disk s -> nextID s + zlen seq < 2 ^ 64 ->
  Forall (fun x => forall obj, x = Ok obj -> Validate (SKey obj) = Ok tt) seq ->
  batch_loop seq seen b s = (Ok tt, s') -> on_disk s' /\ (cfg_sync (st_cfg s) = true -> all_synced s').
Proof.
  revert seen b s. induction seq as [|x seq IH]; intros seen b s I O Hid HF E; [by apply syncActive_on_disk|].
  apply Forall_cons_1 in HF as [Hx HF]. rewrite zlen_cons in Hid. pose proof (zlen_nonneg seq).
  destruct x as [obj|e]; cbn [batch_loop] in E; cycle 1.
  { apply M_bind_Ok in E as (? & ? & _ & [=]). }
  case_bool_decide; [eapply IH; eauto; lia|].
  apply M_bind_Ok in E as (b1 & s1 & E1 & E). apply catch_Ok in E1.
  2:{ intros e s0. unfold mbind, M_bind, fail. by destruct b. }
  destruct (batch_object_on_disk _ _ _ _ I O ltac:(lia) (Hx obj eq_refl) E1) as [O1 X1].
  pose proof (batch_object_spec _ _ _ _ I (Hx obj eq_refl) E1) as Ad.
  rewrite <- (fr_cfg _ _ (ad_frame _ _ _ _ _ Ad)).
  eapply IH; [apply Ad|done|lia|done|exact E].
Qed.

(** ** A crash between the footer and the rename *)

Lemma footer_first n es footer : buildFooter n es = Ok footer -> exists tl, footer = tagSeal :: tl.
Proof. intros (_ & f & _ & ->)%buildFooter_Ok. cbn. by eexists. Qed.

Lemma recover_sealed S1 d name id f mm g idx :
  st_disk S1 = d -> faults d = [] -> parseSegmentID name activeSuffix = Ok id ->
  names d !! name = Some f -> data_of d f = mm -> scanActive mm = Ok (MkScan (zlen mm) idx true) ->
  openSealed (TrimSuffix name dotActive) id mm = Ok g ->
  exists nid, recoverActive name S1 =
  (Ok tt, set_sealed (merge_sort seg_le (sealed S1 ++ [g]))
    (set_disk (set_names (<[TrimSuffix name dotActive:=f]> (delete name (names d))) d) (set_nextID nid S1))).
Proof.
  intros HS HQ Hid Hn Hd Hsc HO. unfold recoverActive. rewrite M_lift, Hid.
  assert (ReadWhole name d = (Ok mm, d)) as ER
  by (unfold ReadWhole; rewrite attempt_quiet by done; by rewrite Hn, <- Hd).
  unfold mbind at 1, M_bind at 1. rewrite (io_quiet _ _ _ _ _ HS ER). rewrite M_lift, Hsc, M_modify.
  cbn [sr_sealed sr_size sr_index]. exists (if nextID S1 <=? id then u64 (id + 1) else nextID S1).
  set (S2 := set_nextID _ (set_disk d S1)). assert (st_disk S2 = d) as HS2 by done.
  set (sp := TrimSuffix name dotActive) in *.
  set (d2 := set_names (<[sp:=f]> (delete name (names d))) d).
  assert (Rename name sp d = (Ok tt, d2)) as EN.
  { unfold Rename. rewrite attempt_quiet by done. rewrite Hn. unfold do_rename. by rewrite Hn. }
  unfold mbind at 1, M_bind at 1. rewrite (io_quiet _ _ _ _ _ HS2 EN).
  assert (SyncDir d2 = (Ok tt, d2)) as ES by (unfold SyncDir; by rewrite attempt_quiet).
  unfold mbind at 1, M_bind at 1. rewrite (io_quiet _ (set_disk d2 S2) d2 _ _ eq_refl ES).
  assert (ReadWhole sp d2 = (Ok mm, d2)) as ER2.
  { unfold ReadWhole. rewrite attempt_quiet by done. cbn [names d2 set_names]. rewrite lookup_insert_eq.
    change (data_of d2 f) with (data_of d f). by rewrite Hd. }
  unfold open_path. rewrite M_assoc. unfold mbind at 1, M_bind at 1.
  rewrite (io_quiet _ (set_disk d2 (set_disk d2 S2)) d2 _ _ eq_refl ER2). rewrite M_lift, HO, M_modify. done.
Qed.

Lemma interrupted_seal_view s d cfg a recs hdrs footer :
  inv s -> on_disk s -> dir_of d s -> active s = Some a -> Forall2 whole recs hdrs ->
  a_index a = index_recs 8 recs hdrs ∅ -> a_size a = zlen (log recs) ->
  log_at (st_disk s) (a_f a) (log recs) ->
  buildFooter (a_size a) (active_entries a) = Ok footer -> data_of d (a_f a) = log recs ++ footer ->
  exists s', Open cfg d = (Ok tt, s') /\ active s' = None /\ core s' /\ forall k, view s' k = view s k.
Proof.
  intros I O D Ha HF HX HS HL Hb Hd. destruct (inv_path _ I (od_failed _ O) a Ha) as [_ Hlim].
  destruct (sealed_of_log a recs hdrs HF HX HS ltac:(unfold SEG_MAX in *; lia) footer
  (TrimSuffix (a_path a) dotActive) (a_id a) Hb) as (g & HO & HG & GP & GI & HV).
  destruct (Open_to_recover s d O D cfg) as (nid & _ & _ & E). cbv zeta in E. rewrite Ha in E.
  destruct (od_active _ O a Ha) as ([Pa Na Sa _] & Ra & La). pose proof (od_next _ O).
  set (S1 := MkStore _ _ _ _ _ _ _ _ _ _) in E.
  assert (exists fv, parseFooter (log recs ++ footer) = Ok fv) as [fv Hfv].
  { unfold openSealed in HO. destruct (_ <? _); [done|]. apply res_bind_Ok in HO as (fv & HO & _). by exists fv. }
  destruct (recover_sealed S1 d (a_path a) (a_id a) (a_f a) (log recs ++ footer) g (index_recs 8 recs hdrs ∅))
  as (nid' & ER); [done|apply D|rewrite Pa; apply parseSegmentID_segName; lia|by rewrite (do_names _ _ D)|done| |done|].
  { destruct (scanActive_log recs hdrs footer HF) as (fuel & _ & ->).
    destruct (footer_first _ _ _ Hb) as (tl & ->). rewrite scan_loop_seal.
    - by rewrite Hfv.
    - rewrite zlen_app, zlen_cons. pose proof (zlen_nonneg tl). lia.
    - unfold byte_at, zlen. rewrite Nat2Z.id, app_nth2 by lia. by rewrite Nat.sub_diag. }
  assert (merge_sort seg_le (sealed S1 ++ [g]) = sealed s ++ [g]) as EM.
  { apply sort_sorted_ids. change (sealed S1) with (sealed s).
    rewrite map_app. cbn [map]. rewrite GI. apply StronglySorted_snoc_lt; [apply O|].
    intros y (g' & -> & Hg')%list_elem_of_fmap. by apply La. }
  rewrite ER, EM in E. eexists. split; [exact E|].
  split; [done|]. split.
  - split; [|done]. cbn [sealed set_sealed set_segments]. apply Forall_app.
    split; [apply (od_core _ O)|by apply Forall_singleton].
  - intros k. unfold view. cbn [active set_sealed set_segments sealed set_disk set_nextID S1]. rewrite Ha.
    cbn [mbind option_bind]. by rewrite segs_view_snoc, HV, (act_view_log _ _ _ _ _ HF HL HX).
Qed.
End Dir.

(** * Properties *)

Lemma on_disk_fresh `{ZstdOk} `{FuseOk} cfg fs : on_disk (fresh cfg (empty_disk fs)).
Proof.
  split; cbn [st_disk names empty_disk fresh sealed active nextID]; try done.
  - intros n [i Hi]. by rewrite lookup_empty in Hi.
  - intros g Hg. by apply elem_of_nil in Hg.
  - constructor.
Qed.

(** C11. An acknowledged Put survives a crash. On a synced store whose writes have all
    succeeded so far, a Put of a new object that returns success leaves a directory from
    which, after a crash that cuts any file anywhere behind its last fsync, Open succeeds and
    sees every record the store held; in particular the object reads back. *)
Theorem acknowledged_put_survives_crash `{ZstdOk} `{FuseOk} s k data s' d' cfg :
  inv s -> on_disk s -> cfg_sync (st_cfg s) = true -> nextID s + 1 < 2 ^ 64 ->
  Validate k = Ok tt -> view s k = None -> Put k data s = (Ok tt, s') -> crash (st_disk s') d' ->
  exists s'', Open cfg d' = (Ok tt, s'') /\ (forall k', view s'' k' = view s' k') /\
    exists rec, view s'' k = Some rec /\ payload rec = Ok data.
Proof.
  intros I O Hc Hid Hk Hn E Cr. destruct (Put_on_disk s k data s' I O Hid Hk E) as (O' & _ & Sy).
  destruct (recover_view s' d' cfg O' Cr) as (s'' & EO & _ & _ & V). specialize (V (Sy Hc Hn)).
  exists s''. split_and!; [done..|]. pose proof (Put_spec s k data _ s' I Hk E) as A.
  destruct (ad_key _ _ _ _ _ A) as [[EV HS]|(_ & rec & HE & EV)].
  - destruct (HS eq_refl) as [rec Hr]. congruence.
  - exists rec. rewrite V. split; [done|]. by eapply payload_EncodeRecord.
Qed.

(** The crash that loses nothing. *)
Lemma crash_none d : crash d (set_faults [] d).
Proof.
  split_and!; [done..|]. intros i f Hi. exists (max (f_synced f) (length (f_data f))), f.
  split_and!; [lia|done|]. symmetry. apply take_ge. lia.
Qed.
Lemma acknowledged_put_survives_crash_witness :
  exists s'' rec, Open sample_cfg (set_faults [] (st_disk one_put)) = (Ok tt, s'') /\
    view s'' sample_key = Some rec /\ payload rec = Ok [x61; x62; x63].
Proof.
  destruct (Put sample_key [x61; x62; x63] (fresh sample_cfg (empty_disk []))) as [r s'] eqn:E.
  assert (r = Ok tt) as -> by (apply (f_equal fst) in E; cbn [fst] in E; rewrite <- E; vm_compute; reflexivity).
  assert (inv (fresh sample_cfg (empty_disk []))) as I by (by apply inv_fresh).
  pose proof (on_disk_fresh sample_cfg []) as O.
  assert (nextID (fresh sample_cfg (empty_disk [])) + 1 < 2 ^ 64) as Hid by done.
  assert (Validate sample_key = Ok tt) as Hk by done.
  pose proof (view_fresh sample_cfg (empty_disk []) sample_key) as Hn.
  pose proof (crash_none (st_disk s')) as Cr.
  destruct (acknowledged_put_survives_crash _ _ _ _ _ sample_cfg I O eq_refl Hid Hk Hn E Cr)
    as (s'' & EO & _ & rec & Hr & Hp).
  exists s'', rec. unfold one_put. rewrite E. cbn [snd]. split; [exact EO|]. split; [exact Hr|exact Hp].
Defined.

(** A committed batch survives a crash: when WriteBatch returns success on a synced
    store, a crash that cuts any file behind its last fsync loses nothing. *)
Theorem committed_batch_survives_crash `{Blake3} `{ZstdOk} `{FuseOk} s seq s' d' cfg :
  inv s -> on_disk s -> cfg_sync (st_cfg s) = true -> nextID s + zlen seq < 2 ^ 64 ->
  Forall (fun x => forall obj, x = Ok obj -> Validate (SKey obj) = Ok tt) seq ->
  WriteBatch seq s = (Ok tt, s') -> crash (st_disk s') d' ->
  exists s'', Open cfg d' = (Ok tt, s'') /\ (forall k, view s'' k = view s' k) /\
    forall obj, Ok obj ∈ seq -> is_Some (view s'' (SKey obj)).
Proof.
  intros I O Hc Hid HF E Cr. destruct (batch_loop_on_disk seq ∅ false s s' I O Hid HF E) as (O' & Sy).
  destruct (recover_view s' d' cfg O' Cr) as (s'' & EO & _ & _ & V). specialize (V (Sy Hc)).
  exists s''. split_and!; [done..|]. intros obj Ho.
  destruct (batch_loop_spec seq ∅ false s _ s' I HF E) as (_ & _ & B).
  destruct (B eq_refl) with (x := @Ok StoreObject obj) as (obj' & [= <-] & HS); [|done|by rewrite V].
  intros k Hk. by apply elem_of_empty in Hk.
Qed.
Lemma committed_batch_survives_crash_witness :
  exists s' s'', WriteBatch [Ok sample_obj; Ok sample_obj] (fresh sample_cfg (empty_disk [])) = (Ok tt, s') /\
    Open sample_cfg (set_faults [] (st_disk s')) = (Ok tt, s'') /\ is_Some (view s'' sample_key).
Proof.
  destruct (WriteBatch [Ok sample_obj; Ok sample_obj] (fresh sample_cfg (empty_disk []))) as [r s'] eqn:E.
  assert (r = Ok tt) as -> by (apply (f_equal fst) in E; cbn [fst] in E; rewrite <- E; vm_compute; reflexivity).
  assert (Forall (fun x => forall obj, x = Ok obj -> Validate (SKey obj) = Ok tt) [Ok sample_obj; Ok sample_obj]) as HF
    by (repeat constructor; by intros obj [= <-]).
  assert (inv (fresh sample_cfg (empty_disk []))) as I by (by apply inv_fresh).
  pose proof (on_disk_fresh sample_cfg []) as O.
  assert (nextID (fresh sample_cfg (empty_disk [])) + zlen [Ok sample_obj; Ok sample_obj] < 2 ^ 64) as Hid by done.
  pose proof (crash_none (st_disk s')) as Cr.
  destruct (committed_batch_survives_crash _ _ _ _ sample_cfg I O eq_refl Hid HF E Cr) as (s'' & EO & _ & B).
  exists s', s''. split; [done|]. split; [exact EO|]. apply (B sample_obj). by left.
Defined.

(** Recovery never loses sealed data and never fails: on a store whose writes have all
    succeeded, whatever the crash cut off behind the last fsync - also without any fsync of
    the records - Open succeeds, every key that is not in the active segment keeps its record,
    and nothing at all is lost when the active segment was synced. *)
Theorem crash_recovery `{ZstdOk} `{FuseOk} s d' cfg :
  on_disk s -> crash (st_disk s) d' ->
  exists s', Open cfg d' = (Ok tt, s') /\
    (forall k, (forall a, active s = Some a -> a_index a !! k = None) -> view s' k = view s k) /\
    (all_synced s -> forall k, view s' k = view s k).
Proof. intros O Cr. destruct (recover_view s d' cfg O Cr) as (s' & E & _ & V1 & V2). eauto. Qed.

(** The active file of [one_put] cut in the middle of its record, as if never synced. *)
Definition unsynced_put : Store :=
  snd (Put sample_key [x61; x62; x63] (fresh (MkConfig 120 false) (empty_disk []))).
Definition cut_disk : Disk :=
  MkDisk (names (st_disk unsynced_put))
    ((fun f => MkFile (take 20 (f_data f)) 20) <$> inodes (st_disk unsynced_put)) 1 [].
Lemma unsynced_on_disk : on_disk unsynced_put.
Proof.
  unfold unsynced_put. destruct (Put _ _ _) as [r s'] eqn:E. cbn [snd].
  assert (r = Ok tt) as -> by (apply (f_equal fst) in E; cbn [fst] in E; rewrite <- E; vm_compute; reflexivity).
  assert (inv (fresh (MkConfig 120 false) (empty_disk []))) as I by (by apply inv_fresh).
  pose proof (on_disk_fresh (MkConfig 120 false) []) as O.
  assert (nextID (fresh (MkConfig 120 false) (empty_disk [])) + 1 < 2 ^ 64) as Hid by done.
  assert (Validate sample_key = Ok tt) as Hk by done.
  apply (Put_on_disk _ _ _ _ I O Hid Hk E).
Qed.
Lemma cut_is_crash : crash (st_disk unsynced_put) cut_disk.
Proof.
  split_and!; [done..|]. intros i f Hi. exists 20%nat, (MkFile (take 20 (f_data f)) 20).
  split; [|split; [|done]].
  - assert (map_Forall (fun _ f => (f_synced f <= 20)%nat) (inodes (st_disk unsynced_put))) as HF
      by (apply (bool_decide_unpack _); vm_compute; exact I).
    by apply (HF i).
  - cbn [inodes cut_disk]. by rewrite lookup_fmap, Hi.
Qed.
Lemma crash_recovery_witness : exists s', Open sample_cfg cut_disk = (Ok tt, s') /\ view s' (mk32 []) = None.
Proof.
  destruct (crash_recovery unsynced_put cut_disk sample_cfg unsynced_on_disk cut_is_crash) as (s' & E & V & _).
  exists s'. split; [exact E|]. rewrite V; [vm_compute; reflexivity|].
  assert ((fun a => a_index a !! mk32 []) <$> active unsynced_put = Some None) as Hc by (vm_compute; reflexivity).
  intros a Ha. rewrite Ha in Hc. by injection Hc.
Defined.

(** A seal interrupted between its footer and its rename is completed by the next Open:
    the segment comes back sealed, and the view is the one before the seal. *)
Theorem interrupted_seal_recovers `{ZstdOk} `{FuseOk} s a footer d cfg :
  inv s -> on_disk s -> active s = Some a -> buildFooter (a_size a) (active_entries a) = Ok footer ->
  dir_of d s -> data_of d (a_f a) = data_of (st_disk s) (a_f a) ++ footer ->
  exists s', Open cfg d = (Ok tt, s') /\ active s' = None /\ forall k, view s' k = view s k.
Proof.
  intros I O Ha Hb D Hd. destruct (od_active _ O a Ha) as ([_ _ _ (recs & hdrs & HF & HL & HS & HX)] & _ & _).
  rewrite (holds_data _ _ _ HL) in Hd.
  destruct (interrupted_seal_view s d cfg a recs hdrs footer I O D Ha HF HX HS (holds_log _ _ _ HL) Hb Hd)
    as (s' & E & Hn & _ & V). eauto.
Qed.
Definition footer_disk (s : Store) (footer : bytes) : Disk :=
  set_file 0 (MkFile (data_of (st_disk s) 0 ++ footer) 0) (set_faults [] (st_disk s)).
Lemma interrupted_seal_recovers_witness :
  exists footer s', Open sample_cfg (footer_disk unsynced_put footer) = (Ok tt, s') /\ active s' = None.
Proof.
  assert ((fun a => (a_f a, is_ok (buildFooter (a_size a) (active_entries a)))) <$> active unsynced_put =
    Some (0%nat, true)) as Hc by (vm_compute; reflexivity).
  assert (sealed unsynced_put = []) as Hsg by (vm_compute; reflexivity).
  destruct (active unsynced_put) as [a|] eqn:Ha; [|done]. cbn [fmap option_fmap option_map] in Hc.
  destruct (buildFooter (a_size a) (active_entries a)) as [footer|e] eqn:Hb; [|by injection Hc].
  assert (inv unsynced_put) as I.
  { unfold unsynced_put. destruct (Put _ _ _) as [r s'] eqn:E. cbn [snd].
    eapply (Put_spec _ sample_key _ _ _ (inv_fresh (MkConfig 120 false) (empty_disk []) ltac:(by vm_compute)) eq_refl E). }
  assert (a_f a = 0%nat) as Hf by (by injection Hc).
  assert (dir_of (footer_disk unsynced_put footer) unsynced_put) as D.
  { split; [done..|]. intros g j Hg. rewrite Hsg in Hg. by apply elem_of_nil in Hg. }
  assert (data_of (footer_disk unsynced_put footer) (a_f a) = data_of (st_disk unsynced_put) (a_f a) ++ footer) as Hd.
  { rewrite Hf. unfold data_of at 1, file_of, footer_disk, set_file. cbn [inodes].
    by rewrite lookup_insert_eq. }
  destruct (interrupted_seal_recovers _ a footer _ sample_cfg I unsynced_on_disk Ha Hb D Hd) as (s' & E & Hn & _).
  exists footer, s'. split; [exact E|exact Hn].
Defined.

(** The bytes that a failed write leaves behind the log. *)
Definition forged_key : Key := mk32 ([x00; x04] ++ replicate 30 xcc).
Definition forged_payload : bytes := [x65; x76; x69; x6c].
Definition carrier : bytes := [x61; x62; x63] ++ rec_bytes forged_key x00 4 forged_payload.
Definition carrier_key : Key := mk32 ([x00; x35] ++ replicate 30 xaa).
(** The fifth call, the write of the carrier's record, fails after its work is done. *)
Definition torn_start : Store :=
  fresh (MkConfig 100000 true) (empty_disk [None; None; None; None; Some 1000%nat]).
Definition after_torn : Store := snd (Put carrier_key carrier torn_start).
Definition after_next : Store := snd (Put sample_key [x61; x62; x63] after_torn).
Definition after_reopen : res unit * Store := Open (MkConfig 100000 true) (st_disk (snd (Close after_next))).

(** Bytes that a failed append leaves behind the log are not discarded: the write of a
    record fails and is reported, a shorter record is then put successfully, the store is
    closed and opened again - and Get answers, for a key that was never stored, a payload
    that does not verify, because the tail scan found a record inside the payload of the
    write that had failed. (A seal truncates those bytes first; recovery has no such step.) *)
Theorem failed_append_tail_resurrected :
  fst (Put carrier_key carrier torn_start) = Err [EIO] /\
  fst (Put sample_key [x61; x62; x63] after_torn) = Ok tt /\
  Has after_next forged_key = Ok false /\
  fst after_reopen = Ok tt /\
  fst (Get forged_key (snd after_reopen)) = Ok forged_payload /\
  verifyObject forged_key forged_payload = Err [ErrVerify].
Proof. vm_compute. repeat split. Qed.
