(* ===== verification/Scrub.v ===== *)
(** The scrub and the bulk presence check of the pack store (src/packstore/verify.go,
    missing.go): what a segment that passes [verify] guarantees about every read of it, and
    that [Missing] filters its input whatever the number of workers. *)
From S2P Require Import Prelude External Concrete Key Crc32 Record Pack Walk Footer Disk Scan Store StoreInv StoreSpec.

Section Verify.
Context `{Blake3, Zstd, Fuse}.

(** The walk over the body. [ctx off] is what [ctx.Err()] returns before the record at
    [off]; every turn consumes a record, so the body's length is fuel enough. *)
Fixpoint verify_loop (fuel : nat) (ctx : Z -> option error) (g : sealedSegment) (off : Z) (es : list indexEntry)
  : res (Z * list indexEntry) :=
  let bodyLen := fv_bodyLen (sg_fv g) in
  if negb (off <? bodyLen) then Ok (off, es)
  else
  match fuel with
  | O => Err [OutOfFuel]
  | S fuel' =>
    match ctx off with
    | Some e => Err e
    | None =>
        let o := Z.to_nat off in
        rec ← ParseRecord (slice o (Z.to_nat bodyLen) (sg_mm g));
        payload ← DecodePayload (RFlags rec) (RUlen rec)
                    (slice (o + RecHeaderSize) (o + RecHeaderSize + Z.to_nat (RSlen rec)) (sg_mm g));
        _ ← wrap ErrCorrupt (verifyObject (RKey rec) payload);
        if negb (filter_has g (RKey rec)) then Err [ErrCorrupt]
        else verify_loop fuel' ctx g (off + Z.of_nat RecHeaderSize + RSlen rec)
               (es ++ [MkIndexEntry (RKey rec) (u64 off) (RSlen rec)])
    end
  end.

Definition seg_verify (ctx : Z -> option error) (g : sealedSegment) : res unit :=
  let fv := sg_fv g in
  '(off, es) ← verify_loop (S (length (sg_mm g))) ctx g (zlen magicHeader) [];
  if negb (off =? fv_bodyLen fv) then Err [ErrCorrupt]
  else if negb (zlen es =? keyCount fv) then Err [ErrCorrupt]
  else
  let rebuilt := buildIndexSection es in
  let stored := slice (Z.to_nat (fv_indexOff fv)) (Z.to_nat (fv_indexOff fv + fv_indexLen fv)) (sg_mm g) in
  if negb (bool_decide (rebuilt = stored)) then Err [ErrCorrupt]
  else Ok tt.

(** [Store.Verify]: the segments of the snapshot, in order. *)
Fixpoint verify_all (ctx : sealedSegment -> Z -> option error) (segs : list sealedSegment) : res unit :=
  match segs with
  | [] => Ok tt
  | g :: segs' => _ ← seg_verify (ctx g) g; verify_all ctx segs'
  end.
Definition Verify (ctx : sealedSegment -> Z -> option error) (s : Store) : res unit :=
  if closed s then Err [ErrClosed] else verify_all ctx (sealed s).
End Verify.

(** ** missing.go *)

Definition minMissingChunk : nat := 64.

Section Missing.
Context `{Errgroup}.
Context `{Fuse}.

Fixpoint missing_chunk (s : Store) (chunk : list Key) : res (list Key) :=
  match chunk with
  | [] => Ok []
  | k :: chunk' =>
    has ← Has s k;
    miss ← missing_chunk s chunk';
    Ok (if has : bool then miss else k :: miss)
  end.

(** [procs] is [runtime.GOMAXPROCS(0)]; each worker appends to its own slot. *)
Definition Missing (procs : nat) (s : Store) (keys : list Key) : res (list Key) :=
  let n := length keys in
  let m := ((n + minMissingChunk - 1) / minMissingChunk)%nat in
  let workers := if (m <? procs)%nat then m else procs in
  if (workers =? 0)%nat then Ok []
  else
  let chunkLen := ((n + workers - 1) / workers)%nat in
  let chunk i := slice (min (i * chunkLen) n) (min ((i + 1) * chunkLen) n) keys in
  results ← wait (map (fun i => missing_chunk s (chunk i)) (seq 0 workers));
  Ok (concat results).
End Missing.

(** * What the walk establishes *)

Section Sound.
Context `{Blake3} `{HZs : ZstdOk} `{HFu : FuseOk}.

(** A whole record whose payload hashes to its key. *)
Definition genuine (rec : bytes) (h : RecordHdr) : Prop :=
  whole rec h /\ exists data, payload rec = Ok data /\ verifyObject (RKey h) data = Ok tt.

Fixpoint body_entries (off : Z) (recs : list bytes) (hdrs : list RecordHdr) : list indexEntry :=
  match recs, hdrs with
  | rec :: recs', h :: hdrs' => MkIndexEntry (RKey h) (u64 off) (RSlen h) :: body_entries (off + zlen rec) recs' hdrs'
  | _, _ => []
  end.

Lemma length_body_entries off recs hdrs : length recs = length hdrs -> length (body_entries off recs hdrs) = length recs.
Proof.
  revert off hdrs. induction recs as [|r recs IH]; intros off [|h hdrs] HL; try done.
  cbn [body_entries length]. f_equal. apply IH. by injection HL.
Qed.
Lemma body_entries_keys off recs hdrs : length recs = length hdrs -> map ie_k (body_entries off recs hdrs) = map RKey hdrs.
Proof.
  revert off hdrs. induction recs as [|r recs IH]; intros off [|h hdrs] HL; try done.
  cbn [body_entries map]. f_equal. apply IH. by injection HL.
Qed.

(** An entry of the body gives back its record. *)
Lemma body_entries_elem pre recs hdrs tl k off slen :
  Forall2 genuine recs hdrs -> zlen (pre ++ concat recs) < 2 ^ 63 ->
  MkIndexEntry k off slen ∈ body_entries (zlen pre) recs hdrs ->
  zlen pre <= off /\ off + Z.of_nat RecHeaderSize + slen <= zlen (pre ++ concat recs) /\ 0 <= slen < 2 ^ 32 /\
  exists rec h, rec ∈ recs /\ genuine rec h /\ RKey h = k /\ RSlen h = slen /\ rec_at (pre ++ concat recs ++ tl) off slen = rec.
Proof.
  intros F. revert pre. induction F as [|rec h recs hdrs G F IH]; intros pre HL Hin; [by apply elem_of_nil in Hin|].
  destruct (whole_len _ _ (proj1 G)) as [Hz Hs]. pose proof (whole_slen_bound _ _ (proj1 G)) as Hs2.
  cbn [body_entries concat] in *. rewrite !zlen_app in HL. pose proof (zlen_nonneg (concat recs)). pose proof (zlen_nonneg pre).
  apply elem_of_cons in Hin as [[= -> -> ->]|Hin].
  - unfold u64. rewrite Z.mod_small by lia. rewrite !zlen_app. split_and!; try lia.
    exists rec, h. split_and!; [by left|done..|]. unfold rec_at. rewrite <- app_assoc.
    apply slice_app_mid; unfold zlen in *; lia.
  - rewrite <- zlen_app in Hin. destruct (IH (pre ++ rec)) as (I1 & I2 & I3 & rec' & h' & I4 & I5 & I6 & I7 & I8); [rewrite <- app_assoc, !zlen_app; exact HL|exact Hin|].
    rewrite <- app_assoc in I2, I8. rewrite zlen_app in I1. pose proof (zlen_nonneg rec).
    split_and!; [clear -I1 H4; lia|exact I2|apply I3..|].
    exists rec', h'. rewrite <- app_assoc. split_and!; [by right|done..].
Qed.

Lemma reparse rest h : parsed rest h ->
  let n := (RecHeaderSize + Z.to_nat (RSlen h))%nat in
  payload (take n rest) = DecodePayload (RFlags h) (RUlen h) (slice RecHeaderSize n rest).
Proof.
  intros P n. rewrite (payload_whole _ h) by (by apply parsed_take).
  unfold slice. by rewrite skipn_firstn_comm || rewrite firstn_skipn_comm.
Qed.

Lemma verify_loop_sound ctx g fuel pre rest es off' es' :
  sg_mm g = pre ++ rest -> zlen pre <= fv_bodyLen (sg_fv g) <= zlen (sg_mm g) ->
  verify_loop fuel ctx g (zlen pre) es = Ok (off', es') ->
  exists recs hdrs tl, Forall2 genuine recs hdrs /\ rest = concat recs ++ tl /\
  off' = zlen pre + zlen (concat recs) /\ off' = fv_bodyLen (sg_fv g) /\
  es' = es ++ body_entries (zlen pre) recs hdrs /\
  Forall (fun h => filter_has g (RKey h) = true) hdrs.
Proof.
  revert pre rest es. induction fuel as [|fuel IH]; intros pre rest es Emm HB E.
  - cbn [verify_loop] in E. destruct (Z.ltb_spec (zlen pre) (fv_bodyLen (sg_fv g))); [done|]. cbn [negb] in E.
    injection E as <- <-. exists [], [], rest. cbn [concat body_entries app]. rewrite app_nil_r, zlen_nil, Z.add_0_r.
    split; [by apply Forall2_nil|]. split_and!; [done|done|lia|done|by apply list.Forall_nil].
  - cbn [verify_loop] in E. destruct (Z.ltb_spec (zlen pre) (fv_bodyLen (sg_fv g))) as [Hlt|]; cbn [negb] in E; cycle 1.
    { injection E as <- <-. exists [], [], rest. cbn [concat body_entries app]. rewrite app_nil_r, zlen_nil, Z.add_0_r.
      split; [by apply Forall2_nil|]. split_and!; [done|done|lia|done|by apply list.Forall_nil]. }
    destruct (ctx (zlen pre)); [done|].
    assert (Z.to_nat (zlen pre) = length pre) as Ez by (unfold zlen; lia). rewrite Ez in E.
    set (n := (Z.to_nat (fv_bodyLen (sg_fv g)) - length pre)%nat).
    assert (slice (length pre) (Z.to_nat (fv_bodyLen (sg_fv g))) (sg_mm g) = take n rest) as Es.
    { unfold slice. by rewrite Emm, drop_app_length. }
    rewrite Es in E. apply res_bind_Ok in E as (h & EP & E). apply ParseRecord_Ok in EP.
    assert (length (take n rest) = n) as Ln.
    { rewrite length_take. rewrite Emm, zlen_app in HB. unfold zlen in *. lia. }
    pose proof (pr_len _ _ EP) as HL. rewrite Ln in HL.
    set (m := (RecHeaderSize + Z.to_nat (RSlen h))%nat) in *.
    apply res_bind_Ok in E as (data & ED & E). apply res_bind_Ok in E as ([] & EV & E).
    destruct (filter_has g (RKey h)) eqn:EF; [|done]. cbn [negb] in E.
    assert (genuine (take m (take n rest)) h) as G.
    { split; [by apply parsed_take|]. exists data. pose proof (reparse _ _ EP) as RP. cbv zeta in RP. fold m in RP.
      rewrite RP. split; [|by destruct (verifyObject _ _)]. rewrite <- ED. f_equal. rewrite Emm.
      rewrite slice_skip with (n := length pre) by lia. rewrite slice_take by lia. f_equal; lia. }
    rewrite take_take in G. replace (m `min` n)%nat with m in G by lia.
    destruct (whole_len _ _ (proj1 G)) as [Hz Hs].
    assert (rest = take m rest ++ drop m rest) as Er by (by rewrite take_drop).
    replace (zlen pre + Z.of_nat RecHeaderSize + RSlen h) with (zlen (pre ++ take m rest)) in E
    by (rewrite zlen_app; lia).
    rewrite Er, app_assoc in Emm.
    assert (zlen (pre ++ take m rest) <= fv_bodyLen (sg_fv g) <= zlen (sg_mm g)) as HB'.
    { rewrite zlen_app, Hz. unfold n, m, zlen in *. unfold RecHeaderSize in *. lia. }
    destruct (IH _ _ _ Emm HB' E) as (recs & hdrs & tl & F & Ed & -> & Eb & -> & FF).
    exists (take m rest :: recs), (h :: hdrs), tl. split; [by constructor|].
    cbn [concat body_entries]. rewrite <- app_assoc, <- Ed, <- !app_assoc. rewrite !zlen_app in Eb. rewrite !zlen_app.
    split_and!; [exact Er|lia|lia|done|by constructor].
Qed.

Lemma body_entries_fits off recs hdrs : Forall2 genuine recs hdrs -> Forall entry_fits (body_entries off recs hdrs).
Proof.
  intros F. revert off. induction F as [|rec h recs hdrs G F IH]; intros off; [by apply list.Forall_nil|].
  cbn [body_entries]. constructor; [|apply IH]. split; cbn [ie_off ie_slen].
  - apply Z.mod_pos_bound. lia.
  - apply (whole_slen_bound _ _ (proj1 G)).
Qed.

(** What a passed scrub says of a segment whose footer was accepted. *)
Record scrubbed (g : sealedSegment) (recs : list bytes) (hdrs : list RecordHdr) : Prop := {
    sc_genuine : Forall2 genuine recs hdrs;
    sc_image : exists tl, sg_mm g = log recs ++ tl;
    sc_body : fv_bodyLen (sg_fv g) = zlen (log recs);
    sc_count : keyCount (sg_fv g) = zlen recs;
    sc_index : spelled (sg_fv g) (body_entries 8 recs hdrs);
    sc_filter : Forall (fun h => filter_has g (RKey h) = true) hdrs
  }.

Lemma seg_verify_sound ctx g :
  parseFooter (sg_mm g) = Ok (sg_fv g) -> seg_verify ctx g = Ok tt -> exists recs hdrs, scrubbed g recs hdrs.
Proof.
  intros A%parseFooter_accepted E. unfold seg_verify in E. destruct (ac_view _ _ A) as (VK & VB & VO & VL).
  apply res_bind_Ok in E as ([off es] & EV & E).
  assert (sg_mm g = magicHeader ++ drop 8 (sg_mm g)) as Em by (rewrite <- (ac_head _ _ A); by rewrite take_drop).
  assert (zlen magicHeader <= fv_bodyLen (sg_fv g) <= zlen (sg_mm g)) as HB by (pose proof (ac_body _ _ A); lia).
  destruct (verify_loop_sound ctx g _ _ _ _ _ _ Em HB EV) as (recs & hdrs & tl & F & Er & -> & Eb & -> & FF).
  rewrite Eb, Z.eqb_refl in E. cbn [negb app] in E.
  destruct (Z.eqb_spec (zlen (body_entries (zlen magicHeader) recs hdrs)) (keyCount (sg_fv g))) as [EK|]; [|done].
  cbn [negb] in E. case_bool_decide as ER; [|done]. clear E.
  change (zlen magicHeader) with 8 in *. pose proof (Forall2_length F) as HL.
  assert (zlen (body_entries 8 recs hdrs) < 2 ^ 32) as HK.
  { pose proof (ac_count _ _ A). unfold MaxUint32 in *. lia. }
  exists recs, hdrs. split; [done| | | | |done].
  - exists tl. unfold log. by rewrite <- app_assoc, <- Er.
  - rewrite <- Eb. unfold log. by rewrite zlen_app.
  - rewrite <- EK. unfold zlen. by rewrite length_body_entries.
  - pose proof (parseIndex_build _ HK) as PB. cbv zeta in PB.
    rewrite ER, VO, VL, EK, VK, (ac_index _ _ A) in PB. injection PB as E1 E2.
    split; [done|done|done|by apply body_entries_fits].
Qed.

Section Scrubbed.
Context (g : sealedSegment) (recs : list bytes) (hdrs : list RecordHdr) (S : scrubbed g recs hdrs).
Context (Hlen : zlen (sg_mm g) < 2 ^ 63).

Lemma scrubbed_lookup k off slen : lookup_ (sg_fv g) k = Some (off, slen) ->
  exists rec h, rec ∈ recs /\ genuine rec h /\ RKey h = k /\
  seg_getRecord g k = Ok (Some rec) /\ seg_get g k = (x ← payload rec; Ok (Some x)).
Proof using S Hlen HFu HZs.
  intros E. pose proof (lookup_sound _ _ (sc_index _ _ _ S) _ _ _ E) as Hin.
  destruct (sc_image _ _ _ S) as (tl & Em). pose proof (sc_body _ _ _ S) as HB.
  assert (zlen (log recs) <= zlen (sg_mm g)) as HLe by (rewrite Em, zlen_app; pose proof (zlen_nonneg tl); lia).
  assert (filter_has g k = true) as HF.
  { pose proof (sc_filter _ _ _ S) as FF. rewrite list.Forall_forall in FF.
    apply (list_elem_of_fmap_2 ie_k) in Hin. change (ie_k <$> ?l) with (map ie_k l) in Hin. cbn [ie_k] in Hin.
    rewrite body_entries_keys in Hin by (apply (Forall2_length (sc_genuine _ _ _ S))).
    apply list_elem_of_fmap in Hin as (h & -> & Hh). by apply FF. }
  unfold log in HLe, Em, HB. rewrite <- app_assoc in Em.
  destruct (body_entries_elem magicHeader recs hdrs tl k off slen (sc_genuine _ _ _ S)) as
  (H8 & Hend & Hs & rec & h & Hr & G & Hk & Hsl & Ea); [lia|exact Hin|].
  rewrite <- Em in Ea. exists rec, h. split_and!; [done..| |].
  all: rewrite <- Ea in G |- *; apply (seg_reads_at g k off slen h); try done; [lia|lia|apply G].
Qed.

Lemma scrubbed_has k : seg_has g k = bool_decide (k ∈ map RKey hdrs).
Proof using S Hlen HFu HZs.
  pose proof (Forall2_length (sc_genuine _ _ _ S)) as HL. unfold seg_has.
  case_bool_decide as Hk.
  - rewrite <- (body_entries_keys 8 recs) in Hk by done. apply list_elem_of_fmap in Hk as (e & -> & He).
    destruct (lookup_complete _ _ (sc_index _ _ _ S) e He) as [[off slen] E]. rewrite E.
    pose proof (sc_filter _ _ _ S) as FF. rewrite list.Forall_forall in FF.
    apply (list_elem_of_fmap_2 ie_k) in He. change (ie_k <$> ?l) with (map ie_k l) in He.
    rewrite body_entries_keys in He by done. apply list_elem_of_fmap in He as (h & -> & Hh). by rewrite FF.
  - destruct (lookup_ (sg_fv g) k) as [[off slen]|] eqn:E; [|by destruct (filter_has g k)].
    destruct Hk. apply (lookup_sound _ _ (sc_index _ _ _ S)) in E.
    apply (list_elem_of_fmap_2 ie_k) in E. change (ie_k <$> ?l) with (map ie_k l) in E.
    by rewrite body_entries_keys in E.
Qed.
End Scrubbed.

(** ** A sealed log of genuine records passes *)

Lemma verify_loop_accepts ctx g pre recs hdrs tl es fuel :
  (forall off, ctx off = None) -> Forall2 genuine recs hdrs ->
  Forall (fun h => filter_has g (RKey h) = true) hdrs ->
  sg_mm g = pre ++ concat recs ++ tl -> fv_bodyLen (sg_fv g) = zlen pre + zlen (concat recs) ->
  verify_loop (length recs + fuel) ctx g (zlen pre) es =
  Ok (fv_bodyLen (sg_fv g), es ++ body_entries (zlen pre) recs hdrs).
Proof.
  intros Hc F. revert pre es. induction F as [|rec h recs hdrs G F IH]; intros pre es FF Em EB.
  - cbn [concat] in EB. rewrite zlen_nil, Z.add_0_r in EB. rewrite <- EB. cbn [length Nat.add body_entries].
    rewrite app_nil_r. destruct fuel; cbn [verify_loop]; by rewrite Z.ltb_irrefl.
  - apply Forall_cons_1 in FF as [Fh FF]. destruct G as [W (data & EP & EV)].
    destruct (whole_len _ _ W) as [Hz Hs]. pose proof (whole_nonempty _ _ W) as Hne.
    cbn [concat] in Em, EB. rewrite zlen_app in EB. rewrite <- app_assoc in Em. pose proof (zlen_nonneg (concat recs)).
    cbn [length Nat.add verify_loop]. rewrite (proj2 (Z.ltb_lt _ _)) by (unfold zlen in *; lia). cbn [negb].
    rewrite Hc. assert (Z.to_nat (zlen pre) = length pre) as -> by (unfold zlen; lia).
    assert (slice (length pre) (Z.to_nat (fv_bodyLen (sg_fv g))) (sg_mm g) = rec ++ concat recs) as ->.
    { rewrite Em, (app_assoc rec). apply slice_app_mid; [done|]. rewrite length_app. unfold zlen in *. lia. }
    rewrite (payload_whole _ _ W) in EP. pose proof W as [P _].
    rewrite (proj2 (ParseRecord_Ok _ h)) by (by apply parsed_app). cbn [mbind res_bind].
    assert (slice (length pre + RecHeaderSize) (length pre + RecHeaderSize + Z.to_nat (RSlen h)) (sg_mm g) =
    drop RecHeaderSize rec) as ->.
    { rewrite Em, slice_skip with (n := length pre) by lia.
      rewrite slice_prefix by (unfold RecHeaderSize in *; unfold zlen in *; lia).
      unfold slice. rewrite firstn_all2; [f_equal; lia|]. rewrite length_drop. unfold RecHeaderSize in *; unfold zlen in *; lia. }
    rewrite EP. cbn [mbind res_bind]. rewrite EV. cbn [wrap mbind res_bind]. rewrite Fh. cbn [negb].
    replace (zlen pre + Z.of_nat RecHeaderSize + RSlen h) with (zlen (pre ++ rec)) by (rewrite zlen_app; lia).
    rewrite IH; [|done|by rewrite <- app_assoc|rewrite zlen_app; lia].
    cbn [body_entries]. by rewrite <- app_assoc, zlen_app.
Qed.

Lemma seg_verify_accepts ctx path id recs hdrs es footer :
  (forall off, ctx off = None) -> Forall2 genuine recs hdrs -> NoDup (map RKey hdrs) ->
  es ≡ₚ body_entries 8 recs hdrs -> buildFooter (zlen (log recs)) es = Ok footer ->
  zlen recs < 2 ^ 32 -> zlen (log recs ++ footer) < 2 ^ 63 ->
  exists g, openSealed path id (log recs ++ footer) = Ok g /\ seg_verify ctx g = Ok tt.
Proof.
  intros Hc F ND HP Hb Hn Hl. pose proof (Forall2_length F) as HL.
  assert (distinct_fits es) as HD.
  { split_and!.
    - unfold keys_distinct. by rewrite HP, body_entries_keys.
    - rewrite HP. by apply body_entries_fits.
    - unfold zlen. rewrite HP, length_body_entries by done. exact Hn. }
  assert (take 8 (log recs) = magicHeader) as Hm by (unfold log; by rewrite take_app_length' by done).
  destruct (parse_built es footer (log recs) Hb ltac:(apply HD) Hm Hl) as (f & Hf & Hmin & EP).
  unfold openSealed. rewrite (proj2 (Z.ltb_ge _ _) Hmin), EP. cbn [mbind res_bind].
  eexists; split; [done|]. set (g := MkSealed _ _ _ _).
  assert (zlen es = zlen recs) as HK by (unfold zlen; by rewrite HP, length_body_entries).
  assert (Forall (fun h => filter_has g (RKey h) = true) hdrs) as FF.
  { apply list.Forall_forall. intros h Hh. unfold filter_has, g. cbn [sg_fv fv_filter].
    eapply fuse_contains; [exact Hf|]. apply (list_elem_of_fmap_2 RKey) in Hh. change (RKey <$> hdrs) with (map RKey hdrs) in Hh.
    rewrite <- (body_entries_keys 8 recs) in Hh by done. apply list_elem_of_fmap in Hh as (e & -> & He).
    apply tail_keys_elem. by rewrite HP. }
  unfold seg_verify.
  pose proof (verify_loop_accepts ctx g magicHeader recs hdrs footer []) as V.
  cbn [sg_mm g]. replace (S (length (log recs ++ footer))) with (length recs + (S (length (log recs ++ footer)) - length recs))%nat.
  2: { unfold log. rewrite !length_app. assert (length recs <= length (concat recs))%nat; [|lia].
    apply (length_concat_ge _ hdrs). clear -F. induction F as [|? ? ? ? [] ? IH]; by constructor. }
  assert (sg_mm g = magicHeader ++ concat recs ++ footer) as Em by (unfold g, log; cbn [sg_mm]; by rewrite <- app_assoc).
  assert (fv_bodyLen (sg_fv g) = zlen magicHeader + zlen (concat recs)) as EB
  by (unfold g, log; cbn [sg_fv fv_bodyLen]; by rewrite zlen_app).
  rewrite (V _ Hc F FF Em EB).
  clear V. cbn [mbind res_bind app]. unfold g. cbn [sg_fv fv_bodyLen keyCount fv_indexOff fv_indexLen sg_mm].
  rewrite Z.eqb_refl. cbn [negb]. change (zlen magicHeader) with 8.
  assert (zlen (body_entries 8 recs hdrs) = zlen es) as EK by (unfold zlen; by rewrite HP). rewrite EK, Z.eqb_refl. cbn [negb].
  assert (buildIndexSection (body_entries 8 recs hdrs) = buildIndexSection es) as EI.
  { unfold buildIndexSection. rewrite (entries_sort_order es (body_entries 8 recs hdrs)); [done|apply HD|done]. }
  rewrite EI, bool_decide_eq_true_2; [done|].
  apply buildFooter_Ok in Hb as (_ & f' & _ & ->). cbv zeta.
  symmetry. rewrite <- (app_assoc [tagSeal]), (app_assoc (log recs)), <- (app_assoc (buildIndexSection es)).
  pose proof (zlen_nonneg (log recs)). pose proof (zlen_nonneg (buildIndexSection es)).
  apply slice_app_mid; rewrite ?length_app; cbn [length]; unfold zlen in *; lia.
Qed.
End Sound.

(** * What [Missing] returns *)

Lemma windows_concat {A} (l : list A) c w :
  concat (map (fun i => slice (min (i * c) (length l)) (min ((i + 1) * c) (length l)) l) (seq 0 w)) = take (w * c) l.
Proof.
  induction w as [|w IH]; [by rewrite Nat.mul_0_l, take_0|].
  rewrite seq_S, map_app, concat_app, IH. cbn [map concat Nat.add]. rewrite app_nil_r.
  destruct (decide (w * c <= length l)%nat) as [Hle|Hgt].
  - rewrite min_l by done. replace (S w * c)%nat with (w * c + c)%nat by lia. rewrite <- (take_take_drop l (w * c) c). f_equal.
    unfold slice. destruct (decide ((w + 1) * c <= length l)%nat).
    + rewrite min_l by done. f_equal. lia.
    + rewrite min_r by lia. rewrite !firstn_all2; [done| |]; rewrite length_drop; lia.
  - rewrite !min_r by lia. unfold slice. rewrite Nat.sub_diag, take_0, app_nil_r.
    rewrite !firstn_all2 by lia. done.
Qed.

Section MissingProofs.
Context `{Blake3} `{HZs : ZstdOk} `{HFu : FuseOk} `{Errgroup}.

Lemma missing_chunk_view s chunk :
  core s -> closed s = false -> missing_chunk s chunk = Ok (filter (fun k => view s k = None) chunk).
Proof.
  intros C Hc. induction chunk as [|k chunk IH]; [done|]. cbn [missing_chunk].
  rewrite (Has_view _ _ C), Hc. cbn [mbind res_bind]. rewrite IH. cbn [mbind res_bind].
  destruct (view s k) as [r|] eqn:E.
  - rewrite bool_decide_eq_true_2 by eauto. by rewrite filter_cons_False by (rewrite E; done).
  - rewrite bool_decide_eq_false_2 by (by intros [? [=]]). by rewrite filter_cons_True.
Qed.

Lemma Missing_view procs s keys :
  core s -> closed s = false -> (0 < procs)%nat ->
  Missing procs s keys = Ok (filter (fun k => view s k = None) keys).
Proof.
  intros C Hc Hp. unfold Missing. set (n := length keys).
  set (m := ((n + minMissingChunk - 1) / minMissingChunk)%nat). set (w := if (m <? procs)%nat then m else procs).
  destruct (Nat.eqb_spec w 0) as [Ew|Hw].
  - assert (n = 0)%nat as En.
    { unfold w in Ew. destruct (Nat.ltb_spec m procs); [|lia]. unfold m, minMissingChunk in Ew.
      apply Nat.div_small_iff in Ew; lia. }
    apply nil_length_inv in En. by rewrite En.
  - set (c := ((n + w - 1) / w)%nat).
    assert (n <= w * c)%nat as Hcov.
    { unfold c. pose proof (Nat.div_mod (n + w - 1) w Hw). pose proof (Nat.mod_upper_bound (n + w - 1) w Hw). nia. }
    pose proof (windows_concat keys c w) as WC. fold n in WC. rewrite (firstn_all2 (n := w * c)) in WC by done.
    set (chunk := fun i => _) in WC.
    assert (map (fun i => missing_chunk s (chunk i)) (seq 0 w) =
    Ok <$> map (filter (fun k => view s k = None)) (map chunk (seq 0 w))) as E.
    { change (Ok <$> ?l) with (map Ok l). rewrite !map_map. apply map_ext. intros i. by apply missing_chunk_view. }
    change (wait _) with (wait (map (fun i => missing_chunk s (chunk i)) (seq 0 w))).
    rewrite (proj2 (wait_Ok _ _) E). cbn [mbind res_bind]. by rewrite <- filter_concat, WC.
Qed.
End MissingProofs.

(** * Properties *)

Section Scrubs.
Context `{Blake3} `{HZs : ZstdOk} `{HFu : FuseOk}.

Lemma verify_all_Ok ctx segs : verify_all ctx segs = Ok tt -> forall g, g ∈ segs -> seg_verify (ctx g) g = Ok tt.
Proof.
  induction segs as [|g segs IH]; intros E g' Hg; [by apply elem_of_nil in Hg|].
  cbn [verify_all] in E. apply res_bind_Ok in E as ([] & E1 & E). apply elem_of_cons in Hg as [->|Hg]; [done|by apply IH].
Qed.
Lemma newest_In {A} (f : sealedSegment -> res (option A)) l x :
  newest f l = Ok (Some x) -> exists g, g ∈ l /\ f g = Ok (Some x).
Proof.
  induction l as [|g l IH]; intros E; [done|]. cbn [newest] in E. apply res_bind_Ok in E as ([y|] & E1 & E).
  - injection E as ->. exists g. split; [by left|done].
  - destruct (IH E) as (g' & Hg & Ef). exists g'. split; [by right|done].
Qed.
Lemma opened_footer path id mm g : openSealed path id mm = Ok g -> sg_mm g = mm /\ parseFooter (sg_mm g) = Ok (sg_fv g).
Proof. unfold openSealed. destruct (_ <? _); [done|]. by intros (fv & E & [= <-])%res_bind_Ok. Qed.
End Scrubs.

(** C20. A clean scrub vouches for every sealed read: when [Verify] passes on a store whose
    sealed segments were opened from files, each segment's body is the header and a sequence
    of well-framed records whose payloads hash to their keys, the segment reports exactly the
    keys of those records and returns one of them for each, and whatever object [Get] serves
    from a sealed segment hashes to the key asked for. *)
Theorem scrub_vouches `{Blake3} `{ZstdOk} `{FuseOk} ctx s :
  Forall (fun g => exists path id, openSealed path id (sg_mm g) = Ok g /\ zlen (sg_mm g) < 2 ^ 63) (sealed s) ->
  Verify ctx s = Ok tt ->
  (forall g, g ∈ sealed s -> exists recs hdrs, Forall2 genuine recs hdrs /\
     (exists tl, sg_mm g = log recs ++ tl /\ fv_bodyLen (sg_fv g) = zlen (log recs)) /\
     (forall k, seg_has g k = bool_decide (k ∈ map RKey hdrs)) /\
     (forall k, k ∈ map RKey hdrs -> exists rec h, rec ∈ recs /\ genuine rec h /\ RKey h = k /\
        seg_getRecord g k = Ok (Some rec))) /\
  (forall k data s', active_loc s k = None -> Get k s = (Ok data, s') -> verifyObject k data = Ok tt).
Proof.
  intros HO E. unfold Verify in E. destruct (closed s) eqn:Ec; [done|]. rewrite list.Forall_forall in HO.
  assert (forall g, g ∈ sealed s -> zlen (sg_mm g) < 2 ^ 63 /\ exists recs hdrs, scrubbed g recs hdrs) as SC.
  { intros g Hg. destruct (HO g Hg) as (path & id & [_ HP]%opened_footer & HL). split; [done|].
    eapply seg_verify_sound; [exact HP|]. by eapply verify_all_Ok. }
  split.
  - intros g Hg. destruct (SC g Hg) as (HL & recs & hdrs & S). exists recs, hdrs. split; [apply S|]. split.
    { destruct (sc_image _ _ _ S) as (tl & Em). exists tl. split; [done|apply S]. }
    split; [by apply (scrubbed_has g recs)|]. intros k Hk.
    assert (seg_has g k = true) as Hh by (rewrite (scrubbed_has g recs hdrs S HL); by apply bool_decide_eq_true_2).
    unfold seg_has in Hh. destruct (negb _); [done|]. destruct (lookup_ (sg_fv g) k) as [[off slen]|] eqn:EL; [|done].
    destruct (scrubbed_lookup g recs hdrs S HL k off slen EL) as (rec & h & ? & ? & ? & ? & _). by exists rec, h.
  - intros k data s' Ha EG. unfold Get in EG. rewrite M_gets in EG. cbn [id] in EG. rewrite Ec, Ha in EG.
    injection EG as EG _. apply res_bind_Ok in EG as ([d|] & EN & EG); [|done]. injection EG as ->.
    apply newest_In in EN as (g & Hg & EF). rewrite list_elem_of_In, <- in_rev, <- list_elem_of_In in Hg.
    destruct (SC g Hg) as (HL & recs & hdrs & S).
    destruct (lookup_ (sg_fv g) k) as [[off slen]|] eqn:EL; cycle 1.
    { unfold seg_get in EF. rewrite EL in EF. by destruct (negb _). }
    destruct (scrubbed_lookup g recs hdrs S HL k off slen EL) as (rec & h & _ & (_ & d & EP & EV) & <- & _ & EGt).
    rewrite EGt, EP in EF. by injection EF as <-.
Qed.

(** A store whose one object was sealed. *)
Definition abc_key : Key := match NewFromHash Blob 3 (Sum256 [x61; x62; x63]) with Ok k => k | Err _ => mk32 [] end.
Definition sealing_cfg : config := MkConfig 50 true.
Definition one_sealed : Store := snd (Put abc_key [x61; x62; x63] (fresh sealing_cfg (empty_disk []))).
Lemma scrub_vouches_witness :
  Verify (fun _ _ => None) one_sealed = Ok tt /\ fst (Get abc_key one_sealed) = Ok [x61; x62; x63] /\
  verifyObject abc_key [x61; x62; x63] = Ok tt.
Proof.
  assert (Verify (fun _ _ => None) one_sealed = Ok tt) as EV by (vm_compute; reflexivity).
  assert (fst (Get abc_key one_sealed) = Ok [x61; x62; x63]) as EG by (vm_compute; reflexivity).
  assert (Forall (fun g => exists path id, openSealed path id (sg_mm g) = Ok g /\ zlen (sg_mm g) < 2 ^ 63) (sealed one_sealed)) as HO.
  { assert (exists g, sealed one_sealed = [g] /\ openSealed (sg_path g) (sg_id g) (sg_mm g) = Ok g /\ zlen (sg_mm g) < 2 ^ 63)
      as (g & -> & HO & HL).
    { eexists. split; [vm_compute; reflexivity|]. split; vm_compute; reflexivity. }
    apply Forall_singleton. exists (sg_path g), (sg_id g). exact (conj HO HL). }
  split; [exact EV|]. split; [exact EG|].
  assert (active_loc one_sealed abc_key = None) as EA by (vm_compute; reflexivity).
  destruct (Get abc_key one_sealed) as [r s'] eqn:E. cbn [fst] in EG. subst r.
  exact (proj2 (scrub_vouches (fun _ _ => None) one_sealed HO EV) abc_key _ s' EA E).
Defined.

(** A scrub raises no false alarm: a segment sealed over the log of records whose
    payloads hash to their keys, under distinct keys and whatever the order in which the
    seal enumerated the index, opens and passes. *)
Theorem scrub_accepts_sealed `{Blake3} `{ZstdOk} `{FuseOk} ctx path id recs hdrs es footer :
  (forall off, ctx off = None) -> Forall2 genuine recs hdrs -> NoDup (map RKey hdrs) ->
  es ≡ₚ body_entries 8 recs hdrs -> buildFooter (zlen (log recs)) es = Ok footer ->
  zlen recs < 2 ^ 32 -> zlen (log recs ++ footer) < 2 ^ 63 ->
  exists g, openSealed path id (log recs ++ footer) = Ok g /\ seg_verify ctx g = Ok tt.
Proof. apply seg_verify_accepts. Qed.

Lemma scrub_accepts_sealed_witness :
  exists rec h es footer g, EncodeRecord abc_key [x61; x62; x63] = Ok rec /\ es = body_entries 8 [rec] [h] /\
    buildFooter (zlen (log [rec])) es = Ok footer /\ openSealed [] 1 (log [rec] ++ footer) = Ok g /\
    seg_verify (fun _ => None) g = Ok tt.
Proof.
  destruct (EncodeRecord abc_key [x61; x62; x63]) as [rec|] eqn:ER; [|by vm_compute in ER].
  destruct (ParseRecord rec) as [h|] eqn:EP; [|vm_compute in ER; injection ER as <-; by vm_compute in EP].
  exists rec, h, (body_entries 8 [rec] [h]).
  destruct (buildFooter (zlen (log [rec])) (body_entries 8 [rec] [h])) as [footer|] eqn:EB; cycle 1.
  { vm_compute in ER. injection ER as <-. vm_compute in EP. injection EP as <-. by vm_compute in EB. }
  assert (genuine rec h) as G.
  { split.
    - split; [by apply ParseRecord_Ok|]. vm_compute in ER. injection ER as <-. vm_compute in EP. by injection EP as <-.
    - exists [x61; x62; x63]. vm_compute in ER. injection ER as <-. vm_compute in EP. injection EP as <-. by split; vm_compute. }
  assert (zlen (log [rec] ++ footer) < 2 ^ 63) as HL.
  { vm_compute in ER. injection ER as <-. vm_compute in EP. injection EP as <-. vm_compute in EB. injection EB as <-. by vm_compute. }
  exists footer. edestruct (scrub_accepts_sealed (fun _ => None) [] 1 [rec] [h]) as (g & HO & HV);
    [done|exact (List.Forall2_cons _ _ G (List.Forall2_nil _))|apply list.NoDup_singleton|reflexivity|exact EB|done|exact HL|].
  by exists g.
Defined.

(** [Missing] is a filter: on an open store it returns, in the input's order and with
    its repetitions, exactly the keys the store does not hold, whatever GOMAXPROCS is, so
    whatever the number of chunks the input is cut into. *)
Theorem missing_filters `{Zstd} `{FuseOk} `{Errgroup} procs s keys :
  inv s -> closed s = false -> (0 < procs)%nat ->
  Missing procs s keys = Ok (filter (fun k => view s k = None) keys).
Proof. intros I. apply Missing_view, I. Qed.
Lemma missing_filters_witness :
  Missing 4 one_sealed [mk32 []; abc_key; mk32 []] = Ok [mk32 []; mk32 []].
Proof.
  assert (inv one_sealed) as I.
  { unfold one_sealed. destruct (Put _ _ _) as [r s'] eqn:E. cbn [snd].
    apply (Put_spec _ abc_key _ _ _ (inv_fresh sealing_cfg (empty_disk []) ltac:(by vm_compute)) eq_refl E). }
  rewrite (missing_filters 4 one_sealed [mk32 []; abc_key; mk32 []] I eq_refl ltac:(lia)). vm_compute. reflexivity.
Defined.
