(* ===== verification/Marks.v ===== *)
(** The liveness mark of the collector (src/packstore/markset.go): one bit per sealed record,
    slotted by the position the footer's index gives its key, and a map for the active
    segment. The bits are the code's 64-bit words; the theorem is that they are a set. *)
From S2P Require Import Prelude External Concrete Key Crc32 Record Pack Footer Disk Scan Store StoreInv StoreSpec Scrub.

#[local] Arguments Nat.div : simpl never.
#[local] Arguments Nat.modulo : simpl never.

Record MarkSet := MkMarkSet {
    ms_segs : list sealedSegment;
    ms_bits : list (list Z);
    ms_active : gmap Key bool;   (* present in the active segment, value = marked *)
    ms_marked : Z
  }.

(** Where [locate] finds a key: the active segment, or a slot of a sealed one. *)
Inductive locus := InActive | InSeg (seg pos : nat).

Definition word (m : MarkSet) (seg i : nat) : Z := default 0 (ms_bits m !! seg ≫= fun ws => ws !! i).
Definition mask (pos : nat) : Z := Z.shiftl 1 (Z.of_nat (pos mod 64)).

Section MarkSet.
Context `{Fuse}.

Definition NewMarkSet (s : Store) : MarkSet :=
  MkMarkSet (sealed s)
  (map (fun g => replicate (Z.to_nat ((keyCount (sg_fv g) + 63) / 64)) 0) (sealed s))
  (match active s with Some a => (fun _ => false) <$> a_index a | None => ∅ end) 0.

(** The sealed segments below [i], newest first. *)
Fixpoint locate_sealed (i : nat) (segs : list sealedSegment) (k : Key) : option locus :=
  match i with
  | O => None
  | S i' =>
    match segs !! i' with
    | Some g =>
      if negb (filter_has g k) then locate_sealed i' segs k
      else match lookupPos (sg_fv g) k with
           | Some p => Some (InSeg i' p)
           | None => locate_sealed i' segs k
           end
    | None => None
    end
  end.
Definition locate (m : MarkSet) (k : Key) : option locus :=
  match ms_active m !! k with
  | Some _ => Some InActive
  | None => locate_sealed (length (ms_segs m)) (ms_segs m) k
  end.

(** [Mark] returns (newly, present) and the set with [k] marked. *)
Definition Mark (k : Key) (m : MarkSet) : bool * bool * MarkSet :=
  let count (newly : bool) := if newly then ms_marked m + 1 else ms_marked m in
  match locate m k with
  | None => (false, false, m)
  | Some InActive =>
    let newly := negb (default false (ms_active m !! k)) in
    (newly, true, MkMarkSet (ms_segs m) (ms_bits m) (<[k:=true]> (ms_active m)) (count newly))
  | Some (InSeg seg pos) =>
    let i := (pos / 64)%nat in
    let b := mask pos in
    let newly := Z.land (word m seg i) b =? 0 in
    (newly, true,
      MkMarkSet (ms_segs m) (alter (alter (fun w => Z.lor w b) i) seg (ms_bits m)) (ms_active m) (count newly))
  end.

Definition MarkContains (m : MarkSet) (k : Key) : bool :=
  match locate m k with
  | None => false
  | Some InActive => default false (ms_active m !! k)
  | Some (InSeg seg pos) => negb (Z.land (word m seg (pos / 64)) (mask pos) =? 0)
  end.

Definition Marked (m : MarkSet) : Z := ms_marked m.

(** A run of marks. *)
Definition mark_all (ks : list Key) (m : MarkSet) : MarkSet := fold_left (fun m k => snd (Mark k m)) ks m.
End MarkSet.

(** * Bits *)

Lemma mask_bit pos i : 0 <= i -> Z.testbit (mask pos) i = (i =? Z.of_nat (pos mod 64)).
Proof.
  intros Hi. unfold mask. rewrite Z.shiftl_1_l, Z.pow2_bits_eqb by lia. apply Z.eqb_sym.
Qed.
Lemma masked w pos : (Z.land w (mask pos) =? 0) = negb (Z.testbit w (Z.of_nat (pos mod 64))).
Proof.
  destruct (Z.eqb_spec (Z.land w (mask pos)) 0) as [E|E].
  - apply (f_equal (fun z => Z.testbit z (Z.of_nat (pos mod 64)))) in E.
    rewrite Z.land_spec, mask_bit, Z.eqb_refl, andb_true_r, Z.bits_0 in E by lia. by rewrite E.
  - destruct (Z.testbit w _) eqn:Eb; [done|]. destruct E. apply Z.bits_inj'. intros i Hi.
    rewrite Z.land_spec, mask_bit, Z.bits_0 by done.
    destruct (Z.eqb_spec i (Z.of_nat (pos mod 64))) as [->|]; [by rewrite Eb|apply andb_false_r].
Qed.

(** The bit of a slot. *)
Definition slot (m : MarkSet) (seg pos : nat) : bool := Z.testbit (word m seg (pos / 64)) (Z.of_nat (pos mod 64)).
Definition in_range (m : MarkSet) (seg pos : nat) : Prop :=
  exists ws, ms_bits m !! seg = Some ws /\ (pos / 64 < length ws)%nat.

Lemma slot_set m seg pos seg' pos' segs act n :
  in_range m seg pos ->
  slot (MkMarkSet segs (alter (alter (fun w => Z.lor w (mask pos)) (pos / 64)%nat) seg (ms_bits m)) act n) seg' pos' =
  bool_decide (seg = seg' /\ pos = pos') || slot m seg' pos'.
Proof.
  intros (ws & Hws & Hlt). unfold slot, word. cbn [ms_bits].
  destruct (decide (seg = seg')) as [<-|Hs]; cycle 1.
  { rewrite list_lookup_alter_ne by done. by rewrite (bool_decide_eq_false_2 (seg = seg' /\ _)) by naive_solver. }
  rewrite list_lookup_alter_eq, Hws. cbn [fmap option_fmap option_map mbind option_bind].
  pose proof (Nat.div_mod pos 64 ltac:(lia)) as D. pose proof (Nat.div_mod pos' 64 ltac:(lia)) as D'.
  destruct (decide (pos / 64 = pos' / 64)%nat) as [Hd|Hd]; cycle 1.
  { rewrite list_lookup_alter_ne by done. by rewrite (bool_decide_eq_false_2 (seg = seg /\ _)) by naive_solver. }
  rewrite <- Hd, list_lookup_alter_eq. destruct (lookup_lt_is_Some_2 ws _ Hlt) as [w Hw]. rewrite Hw.
  remember (Z.of_nat (pos' mod 64)) as b eqn:Eb. cbn. rewrite Z.lor_spec, mask_bit, orb_comm by lia. f_equal.
  apply Bool.eq_iff_eq_true. rewrite Z.eqb_eq, bool_decide_eq_true.
  split; [intros E; split; [done|lia]|intros [_ ->]; done].
Qed.

(** * The mark set is a set *)

Section MarkProofs.
Context `{HFu : FuseOk}.

Lemma lookup_pos fv k : is_Some (lookup_ fv k) <-> is_Some (lookupPos fv k).
Proof.
  unfold lookup_, searchIndex. fold (lookupPos fv k). destruct (lookupPos fv k); cbn; split; try done; by eexists.
Qed.
Lemma seg_view_pos g k : seg_ok g -> is_Some (seg_view k g) <-> is_Some (lookupPos (sg_fv g) k).
Proof. intros HG. rewrite seg_view_lookup by done. by rewrite fmap_is_Some, lookup_pos. Qed.

(** A position of the index belongs to one key and lies below the key count. *)
Lemma pos_range g k p : seg_ok g -> lookupPos (sg_fv g) k = Some p -> Z.of_nat p < keyCount (sg_fv g).
Proof.
  intros (_ & es & Hix & _) (e & He & _)%(lookupPos_Some _ _ Hix). apply lookup_lt_Some in He.
  rewrite merge_sort_Permutation in He. rewrite (ix_keyCount _ _ Hix). unfold zlen. lia.
Qed.
Lemma pos_inj g k1 k2 p : seg_ok g ->
  lookupPos (sg_fv g) k1 = Some p -> lookupPos (sg_fv g) k2 = Some p -> k1 = k2.
Proof.
  intros (_ & es & Hix & _) (e1 & E1 & <-)%(lookupPos_Some _ _ Hix) (e2 & E2 & <-)%(lookupPos_Some _ _ Hix).
  congruence.
Qed.

Lemma locate_sealed_spec i segs k :
  Forall seg_ok segs -> (i <= length segs)%nat ->
  match locate_sealed i segs k with
  | Some (InSeg j p) => exists g, segs !! j = Some g /\ lookupPos (sg_fv g) k = Some p /\ is_Some (segs_view (take i segs) k)
  | Some InActive => False
  | None => segs_view (take i segs) k = None
  end.
Proof.
  intros F. induction i as [|i IH]; intros Hi; [done|]. cbn [locate_sealed].
  destruct (lookup_lt_is_Some_2 segs i ltac:(lia)) as [g Hg]. rewrite Hg.
  pose proof F as F'. rewrite list.Forall_forall in F'. pose proof (F' g (list_elem_of_lookup_2 _ _ _ Hg)) as HG.
  pose proof (seg_view_pos g k HG) as VP.
  assert (filter_has g k = false -> lookupPos (sg_fv g) k = None) as HFl.
  { intros E. destruct (lookupPos (sg_fv g) k) as [p|] eqn:EP; [|done].
    assert (is_Some (lookup_ (sg_fv g) k)) as [v Hv] by (apply lookup_pos; by eexists).
    destruct HG as (_ & es & Hix & _). pose proof (lookup_filter _ _ Hix _ _ Hv). unfold filter_has in E. congruence. }
  rewrite (take_S_r _ _ _ Hg), segs_view_snoc. specialize (IH ltac:(lia)).
  destruct (lookupPos (sg_fv g) k) as [p|] eqn:EP.
  - destruct (filter_has g k); [|by specialize (HFl eq_refl)]. cbn [negb]. exists g. split_and!; [done..|].
    destruct (proj2 VP ltac:(by eexists)) as [r ->]. by eexists.
  - destruct (seg_view k g) as [r|] eqn:EV; [by destruct (proj1 VP ltac:(by eexists))|].
    destruct (negb (filter_has g k)); exact IH.
Qed.

(** The mark set over the snapshot [s] with [S] marked. *)
Record marks (s : Store) (m : MarkSet) (S : gset Key) : Prop := {
    mk_segs : ms_segs m = sealed s;
    mk_dom k : is_Some (ms_active m !! k) <-> exists a, active s = Some a /\ is_Some (a_index a !! k);
    mk_range seg pos g : sealed s !! seg = Some g -> Z.of_nat pos < keyCount (sg_fv g) -> in_range m seg pos;
    mk_sealed k seg pos : locate m k = Some (InSeg seg pos) -> slot m seg pos = bool_decide (k ∈ S);
    mk_active k b : ms_active m !! k = Some b -> b = bool_decide (k ∈ S);
    mk_present k : k ∈ S -> is_Some (locate m k);
    mk_count : ms_marked m = Z.of_nat (size S)
  }.

Section Snapshot.
Context (s : Store) (C : core s).

Lemma locate_view m S k : marks s m S -> is_Some (locate m k) <-> is_Some (view s k).
Proof using C HFu.
  intros MK. unfold locate, view. pose proof (mk_dom _ _ _ MK k) as D.
  pose proof (locate_sealed_spec (length (sealed s)) (sealed s) k (inv_segs _ C) ltac:(lia)) as L. rewrite take_ge in L by lia.
  rewrite (mk_segs _ _ _ MK).
  assert (is_Some (locate_sealed (length (sealed s)) (sealed s) k) <-> is_Some (segs_view (sealed s) k)) as LS.
  { destruct (locate_sealed _ _ _) as [[|j p]|]; [done| |by rewrite L]. destruct L as (g & _ & _ & L). split; [done|by eexists]. }
  destruct (active s) as [a|]; cbn [mbind option_bind].
  - unfold act_view. destruct (a_index a !! k) as [loc|] eqn:EI; cbn [fmap option_fmap option_map].
    + destruct (proj2 D) as [b ->]; [exists a; split; [done|by rewrite EI]|]. split; by eexists.
    + destruct (ms_active m !! k) as [b|]; [|exact LS].
      destruct (proj1 D ltac:(by eexists)) as (a' & [= <-] & Hs). rewrite EI in Hs. by destruct Hs.
  - destruct (ms_active m !! k) as [b|]; [|exact LS]. by destruct (proj1 D ltac:(by eexists)) as (a' & [=] & _).
Qed.

Lemma locate_slot m S k seg pos : marks s m S -> locate m k = Some (InSeg seg pos) ->
  ms_active m !! k = None /\ exists g, sealed s !! seg = Some g /\ lookupPos (sg_fv g) k = Some pos /\ in_range m seg pos.
Proof using C HFu.
  intros MK. unfold locate. destruct (ms_active m !! k); [done|]. intros E. split; [done|].
  rewrite (mk_segs _ _ _ MK) in E.
  pose proof (locate_sealed_spec (length (sealed s)) (sealed s) k (inv_segs _ C) ltac:(lia)) as L. rewrite E in L.
  destruct L as (g & Hg & Hp & _). exists g. split_and!; [done..|]. eapply (mk_range _ _ _ MK); [done|].
  pose proof (inv_segs _ C) as F. rewrite list.Forall_forall in F. eapply pos_range; [apply F; by eapply list_elem_of_lookup_2|done].
Qed.

Lemma locate_inj m S k1 k2 seg pos : marks s m S ->
  locate m k1 = Some (InSeg seg pos) -> locate m k2 = Some (InSeg seg pos) -> k1 = k2.
Proof using C HFu.
  intros MK (_ & g1 & G1 & P1 & _)%(locate_slot _ _ _ _ _ MK) (_ & g2 & G2 & P2 & _)%(locate_slot _ _ _ _ _ MK).
  pose proof (inv_segs _ C) as F. rewrite list.Forall_forall in F.
  eapply (pos_inj g1); [apply F; by eapply list_elem_of_lookup_2|done|congruence].
Qed.

Lemma marks_new : marks s (NewMarkSet s) ∅.
Proof using C HFu.
  unfold NewMarkSet. split; cbn [ms_segs ms_bits ms_active ms_marked].
  - done.
  - intros k. destruct (active s) as [a|].
    + rewrite lookup_fmap, fmap_is_Some. split; [intros ?; by exists a|by intros (a' & [= <-] & ?)].
    + rewrite lookup_empty. split; [by intros [? [=]]|by intros (? & [=] & _)].
  - intros seg pos g Hg Hp. unfold in_range. exists (replicate (Z.to_nat ((keyCount (sg_fv g) + 63) / 64)) 0).
    cbn [ms_bits]. rewrite list_lookup_fmap, Hg. split; [done|]. rewrite length_replicate.
    pose proof (Z.div_mod (keyCount (sg_fv g) + 63) 64 ltac:(lia)). pose proof (Z.mod_pos_bound (keyCount (sg_fv g) + 63) 64 ltac:(lia)).
    pose proof (Nat.div_mod pos 64 ltac:(lia)). lia.
  - intros k seg pos _. rewrite bool_decide_eq_false_2 by set_solver. unfold slot, word. cbn [ms_bits].
    assert (forall i, default 0 ((map (fun g => replicate (Z.to_nat ((keyCount (sg_fv g) + 63) / 64)) 0) (sealed s)) !! seg ≫=
    fun ws => ws !! i) = 0) as ->; [|by rewrite Z.bits_0].
    intros i. destruct (_ !! seg) as [ws|] eqn:E; [|done]. cbn [mbind option_bind].
    rewrite list_lookup_fmap in E. destruct (sealed s !! seg) as [g|]; [|done]. injection E as <-. destruct (replicate _ 0 !! i) as [z|] eqn:Ez; [|done].
    by apply lookup_replicate_1 in Ez as [-> _].
  - intros k b Hb. rewrite bool_decide_eq_false_2 by set_solver. destruct (active s); [|done].
    rewrite lookup_fmap in Hb. destruct (_ !! k); [|done]. by injection Hb as <-.
  - set_solver.
  - by rewrite size_empty.
Qed.

Lemma locate_dom m m' k : ms_segs m' = ms_segs m ->
  (forall k, is_Some (ms_active m' !! k) <-> is_Some (ms_active m !! k)) -> locate m' k = locate m k.
Proof.
  intros ES ED. unfold locate. rewrite ES. specialize (ED k).
  destruct (ms_active m !! k), (ms_active m' !! k); try done; [by destruct (proj2 ED ltac:(by eexists))|by destruct (proj1 ED ltac:(by eexists))].
Qed.

Lemma size_add (k : Key) (S : gset Key) n b :
  n = Z.of_nat (size S) -> b = negb (bool_decide (k ∈ S)) ->
  (if b : bool then n + 1 else n) = Z.of_nat (size ({[k]} ∪ S)).
Proof.
  intros -> ->. case_bool_decide as Hk; cbn [negb].
  - by rewrite subseteq_union_1_L by set_solver.
  - rewrite size_union by set_solver. rewrite size_singleton. lia.
Qed.

Lemma Mark_spec m S k newly present m' :
  marks s m S -> Mark k m = (newly, present, m') ->
  present = bool_decide (is_Some (view s k)) /\ newly = present && negb (bool_decide (k ∈ S)) /\
  marks s m' (if present then {[k]} ∪ S else S).
Proof using C HFu.
  intros MK E. pose proof (locate_view m S k MK) as LV. unfold Mark in E.
  destruct (locate m k) as [[|seg pos]|] eqn:EL; injection E as <- <- <-; cycle 2.
  { split_and!; [|done|done]. symmetry. apply bool_decide_eq_false_2. rewrite <- LV. by intros [? [=]]. }
  all: split; [symmetry; apply bool_decide_eq_true_2, LV; by eexists|].
  - assert (is_Some (ms_active m !! k)) as [b Hb].
    { unfold locate in EL. destruct (ms_active m !! k); [by eexists|].
      pose proof (locate_sealed_spec (length (ms_segs m)) (ms_segs m) k) as L. rewrite EL in L.
      rewrite (mk_segs _ _ _ MK) in L. by destruct (L (inv_segs _ C) ltac:(lia)). }
    pose proof (mk_active _ _ _ MK _ _ Hb) as Eb. rewrite Hb. cbn [default from_option id andb]. rewrite <- Eb.
    split; [done|].
    set (m' := MkMarkSet _ _ _ _).
    assert (forall k', is_Some (ms_active m' !! k') <-> is_Some (ms_active m !! k')) as ED.
    { intros k'. unfold m'. cbn [ms_active]. rewrite lookup_insert_is_Some. destruct (decide (k = k')) as [<-|]; [|naive_solver].
      split; [intros _; by eexists|by left]. }
    assert (forall k', locate m' k' = locate m k') as LD by (intros; by apply locate_dom).
    split.
    + apply MK.
    + intros k'. rewrite ED. apply MK.
    + apply MK.
    + intros k' seg pos. rewrite LD. intros EL'. change (slot m' seg pos) with (slot m seg pos).
      rewrite (mk_sealed _ _ _ MK _ _ _ EL'). apply bool_decide_ext. assert (k' <> k) by congruence. set_solver.
    + intros k' b'. unfold m'. cbn [ms_active]. destruct (decide (k = k')) as [<-|Hne].
      * rewrite lookup_insert_eq. intros [= <-]. symmetry. apply bool_decide_eq_true_2. set_solver.
      * rewrite lookup_insert_ne by done. intros ->%(mk_active _ _ _ MK). apply bool_decide_ext. set_solver.
    + intros k' [->%elem_of_singleton|Hk']%elem_of_union; rewrite LD; [by rewrite EL|by apply MK].
    + apply size_add; [apply MK|by rewrite Eb].
  - destruct (locate_slot _ _ _ _ _ MK EL) as (HN & _ & _ & _ & HR).
    pose proof (mk_sealed _ _ _ MK _ _ _ EL) as Eb. cbn [andb]. rewrite masked.
    pose proof Eb as Eb'. unfold slot in Eb'. rewrite Eb'. split; [done|].
    set (m' := MkMarkSet _ _ _ _).
    assert (forall k', locate m' k' = locate m k') as LD by done.
    split.
    + apply MK.
    + apply MK.
    + intros seg' pos' g Hg Hp. destruct (mk_range _ _ _ MK seg' pos' g Hg Hp) as (ws & Hws & Hlt).
      unfold in_range, m'. cbn [ms_bits]. destruct (decide (seg = seg')) as [<-|Hs].
      * rewrite list_lookup_alter_eq, Hws. eexists. split; [done|]. by rewrite length_alter.
      * rewrite list_lookup_alter_ne by done. by exists ws.
    + intros k' seg' pos'. rewrite LD. intros EL'. unfold m'. rewrite slot_set by done.
      rewrite (mk_sealed _ _ _ MK _ _ _ EL'). destruct (decide (k' = k)) as [->|Hne].
      * rewrite EL in EL'. injection EL' as <- <-. rewrite (bool_decide_eq_true_2 (seg = seg /\ _)) by done.
        symmetry. apply bool_decide_eq_true_2. set_solver.
      * rewrite (bool_decide_eq_false_2 (seg = seg' /\ _)); [apply bool_decide_ext; set_solver|].
        intros [<- <-]. by destruct Hne; eapply locate_inj.
    + intros k' b' Hb'. rewrite (mk_active _ _ _ MK k' b' Hb'). apply bool_decide_ext.
      change (ms_active m !! k' = Some b') in Hb'. assert (k' <> k) by congruence. set_solver.
    + intros k' [->%elem_of_singleton|Hk']%elem_of_union; rewrite LD; [by rewrite EL|by apply MK].
    + apply size_add; [apply MK|done].
Qed.

Lemma MarkContains_spec m S k : marks s m S -> MarkContains m k = bool_decide (k ∈ S).
Proof using C HFu.
  intros MK. unfold MarkContains. destruct (locate m k) as [[|seg pos]|] eqn:EL.
  - destruct (ms_active m !! k) as [b|] eqn:Hb; [by apply MK|].
    unfold locate in EL. rewrite Hb in EL. pose proof (locate_sealed_spec (length (ms_segs m)) (ms_segs m) k) as L.
    rewrite EL in L. rewrite (mk_segs _ _ _ MK) in L. by destruct (L (inv_segs _ C) ltac:(lia)).
  - rewrite masked, negb_involutive. by apply MK.
  - symmetry. apply bool_decide_eq_false_2. intros Hk. destruct (mk_present _ _ _ MK k Hk) as [l Hl]. congruence.
Qed.

(** The keys of [ks] the snapshot holds. *)
Definition held (ks : list Key) : gset Key := list_to_set (filter (fun k => is_Some (view s k)) ks).
Lemma mark_all_spec ks m S : marks s m S -> marks s (mark_all ks m) (held ks ∪ S).
Proof using C HFu.
  revert m S. induction ks as [|k ks IH]; intros m S MK.
  - unfold held. cbn. by rewrite union_empty_l_L.
  - unfold mark_all. cbn [fold_left]. fold (mark_all ks). destruct (Mark k m) as [[newly present] m'] eqn:E.
    destruct (Mark_spec _ _ _ _ _ _ MK E) as (Ep & _ & MK'). apply IH in MK'. cbn [snd].
    assert (held (k :: ks) ∪ S = held ks ∪ (if present then {[k]} ∪ S else S)) as ->; [|done].
    unfold held. rewrite filter_cons. subst present. destruct (decide _) as [Hd|Hd].
    + rewrite bool_decide_eq_true_2 by done. cbn [list_to_set]. set_solver.
    + by rewrite bool_decide_eq_false_2 by done.
Qed.
End Snapshot.
End MarkProofs.

(** * Property *)

(** The bitmap is a set: over the snapshot of any store, after any sequence of marks,
    [Mark k] reports present exactly when the snapshot holds [k] and newly exactly when it is
    present and was not marked before, [Contains] answers membership among the marked keys
    the snapshot holds, [Marked] is their number, and no slot of a located key is out of the
    range of its segment's words. *)
Theorem mark_set_is_a_set `{FuseOk} s ks k :
  core s ->
  let m := mark_all ks (NewMarkSet s) in
  fst (Mark k m) = (bool_decide (is_Some (view s k)) && negb (bool_decide (k ∈ ks)), bool_decide (is_Some (view s k))) /\
  MarkContains m k = bool_decide (k ∈ ks /\ is_Some (view s k)) /\
  Marked m = zlen (remove_dups (filter (fun k => is_Some (view s k)) ks)) /\
  (forall seg pos, locate m k = Some (InSeg seg pos) -> in_range m seg pos).
Proof.
  intros C m. pose proof (mark_all_spec s C ks _ _ (marks_new s C)) as MK. fold m in MK. rewrite union_empty_r_L in MK.
  assert (k ∈ held s ks <-> k ∈ ks /\ is_Some (view s k)) as HK.
  { unfold held. rewrite elem_of_list_to_set, list_elem_of_filter. naive_solver. }
  split_and!.
  - destruct (Mark k m) as [[newly present] m'] eqn:E. cbn [fst].
    destruct (Mark_spec s C _ _ _ _ _ _ MK E) as (-> & -> & _). f_equal.
    destruct (decide (is_Some (view s k))) as [Hs|Hs].
    + rewrite bool_decide_eq_true_2 by done. cbn [andb]. f_equal. apply bool_decide_ext. naive_solver.
    + by rewrite bool_decide_eq_false_2 by done.
  - rewrite (MarkContains_spec s C _ _ k MK). by apply bool_decide_ext.
  - unfold Marked. rewrite (mk_count _ _ _ MK). unfold held, zlen. f_equal.
    assert (forall l : list Key, list_to_set l = list_to_set (remove_dups l) :> gset Key) as ->.
    { intros l. apply set_eq. intros x. by rewrite !elem_of_list_to_set, elem_of_remove_dups. }
    apply size_list_to_set, NoDup_remove_dups.
  - intros seg pos E. by destruct (locate_slot s C _ _ _ _ _ MK E) as (_ & _ & _ & _ & HR).
Qed.

(** Two sealed objects and an active one. *)
Definition put (k : Key) (data : bytes) (s : Store) : Store := snd (Put k data s).
Lemma put_inv k data s : inv s -> Validate k = Ok tt -> inv (put k data s).
Proof. intros I Hk. unfold put. destruct (Put k data s) as [r s'] eqn:E. apply (Put_spec s k data r s' I Hk E). Qed.
Definition third_key : Key := mk32 ([x00; x01] ++ replicate 30 xcc).
Definition mixed : Store :=
  put third_key [x7a] (put sample_key [x64; x65; x66] (put abc_key [x61; x62; x63] (fresh (MkConfig 60 true) (empty_disk [])))).
Lemma mixed_inv : inv mixed.
Proof. apply put_inv; [|reflexivity]. apply put_inv; [|reflexivity]. apply put_inv; [|reflexivity]. by apply inv_fresh. Qed.
Lemma mark_set_is_a_set_witness :
  map (fun g => keyCount (sg_fv g)) (sealed mixed) = [2] /\ is_Some (active mixed) /\
  let m := mark_all [third_key; abc_key; mk32 []; abc_key] (NewMarkSet mixed) in
  fst (Mark third_key m) = (false, true) /\ fst (Mark sample_key m) = (true, true) /\
  MarkContains m abc_key = true /\ MarkContains m (mk32 []) = false /\ Marked m = 2.
Proof.
  split; [vm_compute; reflexivity|]. split; [vm_compute; by eexists|]. cbv zeta.
  set (ks := [third_key; abc_key; mk32 []; abc_key]).
  pose proof (fun k => mark_set_is_a_set mixed ks k (inv_core _ mixed_inv)) as MS. cbv zeta in MS.
  destruct (MS third_key) as (E1 & _). destruct (MS sample_key) as (E2 & _ & E3 & _).
  destruct (MS abc_key) as (_ & E4 & _). destruct (MS (mk32 [])) as (_ & E5 & _).
  rewrite E1, E2, E3, E4, E5. split_and!; vm_compute; reflexivity.
Defined.
