(* ===== verification/Compact.v ===== *)
(** The sweep of the pack store (src/packstore/compact.go): liveness reports, the selection of
    victims, and [Compact], whose copy phase is a pipeline of goroutines. A schedule says
    which goroutine moves next; every interleaving of the pipeline is one schedule. *)
From Stdlib Require Import Floats.SpecFloat.
From S2P Require Import Prelude External Concrete Key Crc32 Record Pack Footer Disk Scan Store StoreInv StoreSpec Scrub Marks.

(** ** float64, as IEEE 754 defines it (package SpecFloat) *)

Definition float64 (n : Z) : spec_float := binary_normalize 53 1024 n 0 false.
Definition fmul : spec_float -> spec_float -> spec_float := SFmul 53 1024.

(** ** Data *)

Record SegmentLiveness := MkLiveness {
    sl_ID : Z; sl_Sealed : bool; LiveKeys : Z; DeadKeys : Z; LiveBytes : Z; DeadBytes : Z
  }.
(** [Horizon]: [None] is the zero time. *)
Record CompactOpts := MkCompactOpts { MinDeadRatio : spec_float; Horizon : option Z }.
Record CompactStats := MkStats {
    SegmentsScanned : Z; SegmentsCompacted : Z; Victims : list Z;
    RecordsCopied : Z; BytesCopied : Z; BytesFreed : Z
  }.
Definition no_stats : CompactStats := MkStats 0 0 [] 0 0 0.

(** ** Liveness *)

(** [allEntries]: the rows of the index. *)
Definition entry_row (fv : footerView) (i : nat) : indexEntry :=
  let row := drop (i * indexEntrySize) (entries fv) in
  MkIndexEntry (mk32 (take 32 row)) (be_get (slice 32 40 row)) (be_get (slice 40 44 row)).
Definition allEntries (fv : footerView) : list indexEntry := map (entry_row fv) (seq 0 (Z.to_nat (keyCount fv))).

Definition liveness_add (isLive : bool) (slen : Z) (info : SegmentLiveness) : SegmentLiveness :=
  let n := u64 (Z.of_nat RecHeaderSize + slen) in
  if isLive then
    MkLiveness (sl_ID info) (sl_Sealed info) (LiveKeys info + 1) (DeadKeys info) (u64 (LiveBytes info + n)) (DeadBytes info)
  else
    MkLiveness (sl_ID info) (sl_Sealed info) (LiveKeys info) (DeadKeys info + 1) (LiveBytes info) (u64 (DeadBytes info + n)).

Definition liveness (live : Key -> bool) (g : sealedSegment) : SegmentLiveness :=
  fold_left (fun info e => liveness_add (live (ie_k e)) (ie_slen e) info) (allEntries (sg_fv g))
    (MkLiveness (sg_id g) true 0 0 0 0).
Definition active_liveness (live : Key -> bool) (a : activeSegment) : SegmentLiveness :=
  fold_left (fun info '(k, loc) => liveness_add (live k) (al_slen loc) info) (map_to_list (a_index a))
    (MkLiveness (a_id a) false 0 0 0 0).

Definition Liveness (live : Key -> bool) (s : Store) : res (list SegmentLiveness) :=
  if closed s then Err [ErrClosed]
  else Ok (map (liveness live) (sealed s) ++ match active s with Some a => [active_liveness live a] | None => [] end).

(** ** Selecting the victims *)

Section Compact.
Context `{Blake3, Zstd, Fuse}.
(** [os.Stat(g.path).ModTime()] *)
Context (modTime : bytes -> res Z).

(** Statistics are returned next to any error, so they are state. *)
Record Sweep := MkSweep { sw_store : Store; sw_stats : CompactStats }.
Definition on_store {A} (m : M Store A) : M Sweep A := fun w =>
  let '(r, s) := m (sw_store w) in (r, MkSweep s (sw_stats w)).
Definition on_stats (f : CompactStats -> CompactStats) : M Sweep unit :=
  modify (fun w => MkSweep (sw_store w) (f (sw_stats w))).

Definition eligible (opts : CompactOpts) (g : sealedSegment) : res bool :=
  match Horizon opts with
  | None => Ok true
  | Some h => t ← modTime (sg_path g); Ok (t <? h)
  end.
Definition over_line (opts : CompactOpts) (info : SegmentLiveness) : bool :=
  let total := u64 (LiveBytes info + DeadBytes info) in
  (0 <? DeadKeys info) && SFleb (fmul (MinDeadRatio opts) (float64 total)) (float64 (DeadBytes info)).

Fixpoint select_loop (live : Key -> bool) (opts : CompactOpts) (segs : list sealedSegment) : M Sweep (list sealedSegment) :=
  match segs with
  | [] => mret []
  | g :: segs' =>
    e ← lift (eligible opts g);
    if negb e then select_loop live opts segs'
    else if over_line opts (liveness live g) then
    _ ← on_stats (fun st => MkStats (SegmentsScanned st) (SegmentsCompacted st) (Victims st ++ [sg_id g])
                              (RecordsCopied st) (BytesCopied st) (BytesFreed st));
    vs ← select_loop live opts segs';
    mret (g :: vs)
    else select_loop live opts segs'
  end.
Definition selectVictims (live : Key -> bool) (opts : CompactOpts) : M Sweep (list sealedSegment) :=
  segs ← gets (fun w => sealed (sw_store w));
  _ ← on_stats (fun st => MkStats (zlen segs) (SegmentsCompacted st) (Victims st)
                        (RecordsCopied st) (BytesCopied st) (BytesFreed st));
  select_loop live opts segs.

(** ** Checking a record before copying it *)

Definition checkRecord (k : Key) (rec : bytes) : res unit :=
  parsed ← ParseRecord rec;
  if negb (bool_decide (RKey parsed = k)) then Err [EMsg "record keyed otherwise"]
  else
  payload ← DecodePayload (RFlags parsed) (RUlen parsed) (drop RecHeaderSize rec);
  verifyObject k payload.
Definition verifyRecord (k : Key) (rec : bytes) : res unit := wrap ErrCorrupt (checkRecord k rec).

(** ** The copy pipeline *)

Record copyRec := MkCopyRec { c_e : indexEntry; c_rec : bytes }.

(** The producer's position, the two channels, what each worker holds, and the store. *)
Record Pipe := MkPipe {
    p_todo : list (sealedSegment * indexEntry);   (* entries the producer has not reached *)
    p_pending : option copyRec;                   (* the candidate it is sending *)
    p_cands : list copyRec;                       (* channel cands *)
    p_busy : list copyRec;                        (* candidates the workers hold *)
    p_workers : nat;                              (* workers that have not returned *)
    p_verified : list copyRec;                    (* channel verified *)
    p_cancelled : bool;
    p_err : option error;                         (* what pipe.Wait will return *)
    p_appendErr : option error;
    p_sweep : Sweep
  }.
Definition set_producer (todo : list (sealedSegment * indexEntry)) (pend : option copyRec) (p : Pipe) : Pipe :=
  MkPipe todo pend (p_cands p) (p_busy p) (p_workers p) (p_verified p) (p_cancelled p) (p_err p) (p_appendErr p) (p_sweep p).
Definition set_cands (l : list copyRec) (p : Pipe) : Pipe :=
  MkPipe (p_todo p) (p_pending p) l (p_busy p) (p_workers p) (p_verified p) (p_cancelled p) (p_err p) (p_appendErr p) (p_sweep p).
Definition set_busy (l : list copyRec) (n : nat) (p : Pipe) : Pipe :=
  MkPipe (p_todo p) (p_pending p) (p_cands p) l n (p_verified p) (p_cancelled p) (p_err p) (p_appendErr p) (p_sweep p).
Definition set_verified (l : list copyRec) (p : Pipe) : Pipe :=
  MkPipe (p_todo p) (p_pending p) (p_cands p) (p_busy p) (p_workers p) l (p_cancelled p) (p_err p) (p_appendErr p) (p_sweep p).
(** [cancel()] with an error for the group, which keeps the first. *)
Definition cancel_with (e : error) (p : Pipe) : Pipe :=
  MkPipe (p_todo p) (p_pending p) (p_cands p) (p_busy p) (p_workers p) (p_verified p) true
  (match p_err p with Some e0 => Some e0 | None => Some e end) (p_appendErr p) (p_sweep p).
(** The outcome of one append. *)
Definition appended (n : Z) (r : res unit) (w : Sweep) (p : Pipe) : Pipe :=
  match r with
  | Err e => MkPipe (p_todo p) (p_pending p) (p_cands p) (p_busy p) (p_workers p) (p_verified p) true (p_err p) (Some e) w
  | Ok _ =>
    let st := sw_stats w in
    MkPipe (p_todo p) (p_pending p) (p_cands p) (p_busy p) (p_workers p) (p_verified p) (p_cancelled p) (p_err p) None
    (MkSweep (sw_store w) (MkStats (SegmentsScanned st) (SegmentsCompacted st) (Victims st)
        (RecordsCopied st + 1) (u64 (BytesCopied st + n)) (BytesFreed st)))
  end.

(** Which goroutine moves. *)
Inductive choice :=
  | Produce              (* the producer looks at its next entry *)
  | Send                 (* it sends its candidate *)
  | Quit                 (* it sees the cancellation instead *)
  | Take                 (* a worker receives a candidate *)
  | Finish (i : nat)     (* the i-th busy worker verifies and sends, or fails *)
  | Drop (i : nat)       (* it sees the cancellation instead of sending *)
  | Consume.             (* the caller receives and appends, or drains *)

Section Pipeline.
Context (live : Key -> bool) (victimID : gset Z) (procs : nat).
Definition cap : nat := 4 * procs.

Definition survivorHas (s : Store) (k : Key) : bool :=
  match active_loc s k with
  | Some _ => true
  | None => existsb (fun g => negb (bool_decide (sg_id g ∈ victimID)) && seg_has g k) (sealed s)
  end.

Definition entry_in_bounds (g : sealedSegment) (e : indexEntry) : bool :=
  let bodyLen := u64 (fv_bodyLen (sg_fv g)) in
  negb ((ie_off e <? zlen magicHeader) || (bodyLen <? ie_off e) ||
    (u64 (bodyLen - ie_off e) <? u64 (Z.of_nat RecHeaderSize + ie_slen e))).
Definition record_of (g : sealedSegment) (e : indexEntry) : bytes :=
  slice (Z.to_nat (ie_off e)) (Z.to_nat (ie_off e) + RecHeaderSize + Z.to_nat (ie_slen e)) (sg_mm g).

Definition produce (p : Pipe) : option Pipe :=
  match p_pending p, p_todo p with
  | None, (g, e) :: rest =>
    if negb (live (ie_k e)) || survivorHas (sw_store (p_sweep p)) (ie_k e) then Some (set_producer rest None p)
    else if negb (entry_in_bounds g e) then Some (set_producer [] None (cancel_with [ErrCorrupt] p))
    else Some (set_producer rest (Some (MkCopyRec e (record_of g e))) p)
  | _, _ => None
  end.
Definition send (p : Pipe) : option Pipe :=
  match p_pending p with
  | Some c => if (length (p_cands p) <? cap)%nat then Some (set_producer (p_todo p) None (set_cands (p_cands p ++ [c]) p)) else None
  | None => None
  end.
Definition quit (p : Pipe) : option Pipe :=
  match p_pending p with
  | Some _ => if p_cancelled p then Some (set_producer [] None p) else None
  | None => None
  end.
Definition take_cand (p : Pipe) : option Pipe :=
  match p_cands p with
  | c :: rest => if (length (p_busy p) <? p_workers p)%nat then Some (set_busy (p_busy p ++ [c]) (p_workers p) (set_cands rest p)) else None
  | [] => None
  end.
Definition finish (i : nat) (p : Pipe) : option Pipe :=
  c ← p_busy p !! i;
  match verifyRecord (ie_k (c_e c)) (c_rec c) with
  | Err e => Some (set_busy (delete i (p_busy p)) (p_workers p - 1) (cancel_with e p))
  | Ok _ =>
    if (length (p_verified p) <? cap)%nat then
    Some (set_busy (delete i (p_busy p)) (p_workers p) (set_verified (p_verified p ++ [c]) p))
    else None
  end.
Definition drop_busy (i : nat) (p : Pipe) : option Pipe :=
  c ← p_busy p !! i;
  match verifyRecord (ie_k (c_e c)) (c_rec c) with
  | Err _ => None
  | Ok _ => if p_cancelled p then Some (set_busy (delete i (p_busy p)) (p_workers p) p) else None
  end.
Definition consume (p : Pipe) : option Pipe :=
  match p_verified p with
  | [] => None
  | c :: rest =>
    let p := set_verified rest p in
    match p_appendErr p with
    | Some _ => Some p
    | None =>
      let '(r, w) := on_store (appendLocked (ie_k (c_e c)) (c_rec c) false) (p_sweep p) in
      Some (appended (zlen (c_rec c)) r w p)
    end
  end.

Definition pipe_step (c : choice) (p : Pipe) : option Pipe :=
  match c with
  | Produce => produce p
  | Send => send p
  | Quit => quit p
  | Take => take_cand p
  | Finish i => finish i p
  | Drop i => drop_busy i p
  | Consume => consume p
  end.
Fixpoint pipe_run (sched : list choice) (p : Pipe) : option Pipe :=
  match sched with [] => Some p | c :: sched' => p ← pipe_step c p; pipe_run sched' p end.

(** Both channels are closed and drained: the producer and the workers have returned. *)
Definition finished (p : Pipe) : bool :=
  match p_todo p, p_pending p, p_busy p, p_verified p with
  | [], None, [], [] => (length (p_cands p) =? 0)%nat || (p_workers p =? 0)%nat
  | _, _, _, _ => false
  end.
Definition start_pipe (victims : list sealedSegment) (w : Sweep) : Pipe :=
  MkPipe (concat (map (fun g => map (pair g) (allEntries (sg_fv g))) victims)) None [] [] procs [] false None None w.
(** [cmp.Or(appendErr, pipe.Wait())] *)
Definition pipe_result (p : Pipe) : res unit :=
  match p_appendErr p with
  | Some e => Err e
  | None => match p_err p with Some e => Err e | None => Ok tt end
  end.
End Pipeline.

Definition ids (l : list sealedSegment) : gset Z := list_to_set (map sg_id l).

(** A schedule that is not a complete run of the pipeline is no execution. *)
Definition copyLive (procs : nat) (sched : list choice) (live : Key -> bool) (victims : list sealedSegment) : M Sweep unit :=
  fun w =>
  match pipe_run live (ids victims) procs sched (start_pipe procs victims w) with
  | Some p => if finished p then (pipe_result p, p_sweep p) else (Err [OutOfFuel], w)
  | None => (Err [OutOfFuel], w)
  end.

(** ** Removing the victims *)

(** A call whose first error is remembered while the work goes on. *)
Definition noting {A} (m : M Sweep A) (firstErr : option error) : M Sweep (option error) := fun w =>
  let '(r, w') := m w in
  (Ok (match firstErr, r with None, Err e => Some e | _, _ => firstErr end), w').

Fixpoint remove_files (victims : list sealedSegment) (firstErr : option error) : M Sweep (option error) :=
  match victims with
  | [] => mret firstErr
  | g :: victims' =>
    _ ← on_stats (fun st => MkStats (SegmentsScanned st) (SegmentsCompacted st) (Victims st)
                            (RecordsCopied st) (BytesCopied st) (u64 (BytesFreed st + zlen (sg_mm g))));
    e ← noting (on_store (io CloseFd)) firstErr;
    e ← noting (on_store (io (RemoveFile (sg_path g)))) e;
    remove_files victims' e
  end.

Definition removeVictims (victims : list sealedSegment) : M Sweep unit :=
  _ ← on_store (modify (fun s => set_sealed (filter (fun g => sg_id g ∉ ids victims) (sealed s)) s));
  e ← remove_files victims None;
  _ ← on_stats (fun st => MkStats (SegmentsScanned st) (zlen victims) (Victims st)
                        (RecordsCopied st) (BytesCopied st) (BytesFreed st));
  cfg ← gets (fun w => st_cfg (sw_store w));
  e ← (if cfg_sync cfg then noting (on_store (io SyncDir)) e else mret e);
  match e with Some e => fail e | None => mret tt end.

(** ** Compact *)

Definition compact_with (procs : nat) (sched : list choice) (live : Key -> bool) (opts : CompactOpts) : M Sweep unit :=
  _ ← on_store writable;
  _ ← on_store (poison sealActiveLocked);
  victims ← selectVictims live opts;
  match victims with
  | [] => mret tt
  | _ =>
    _ ← copyLive procs sched live victims;
    s ← gets sw_store;
    _ ← match active s with
      | Some a => if cfg_sync (st_cfg s) then on_store (poison (io (Sync (a_f a)))) else mret tt
      | None => mret tt
      end;
    removeVictims victims
  end.

Definition Compact (procs : nat) (sched : list choice) (live : Key -> bool) (opts : CompactOpts) : M Sweep unit :=
  grey ← on_store takeGrey;
  compact_with procs sched (fun k => bool_decide (k ∈ grey) || live k) opts.
End Compact.
