(* ===== verification/Sweep.v ===== *)
(** What the sweep guarantees: the entries of a sealed segment as [allEntries] lists them, the
    invariant of the copy pipeline under every schedule, its termination, and that [Compact]
    keeps every live object and invents none. *)
From Stdlib Require Import Floats.SpecFloat.
From S2P Require Import Prelude External Concrete Key Crc32 Record Pack Footer Disk Scan Store StoreInv StoreSpec Frame Provenance Scrub Marks Compact.

(** * The entries of a segment *)

Section Entries.
Context `{HFu : FuseOk}.

Lemma entry_row_at fv es i e :
  spelled fv es -> merge_sort entry_le es !! i = Some e -> entry_row fv i = e.
Proof.
  intros Sp He. unfold entry_row. destruct (row_at fv es Sp e i He) as [-> ->].
  rewrite (sp_entries _ _ Sp). destruct (entry_at _ _ _ He) as (rest & ->).
  unfold entry_bytes. rewrite <- app_assoc, take_app_length' by (by rewrite b32_length). rewrite mk32_b32. by destruct e.
Qed.
Lemma allEntries_spelled fv es : spelled fv es -> keyCount fv = zlen es -> allEntries fv = merge_sort entry_le es.
Proof.
  intros Sp HK. unfold allEntries. apply list_eq. intros i. rewrite list_lookup_fmap, HK. unfold zlen. rewrite Nat2Z.id.
  assert (length (merge_sort entry_le es) = length es) as HL by (by rewrite merge_sort_Permutation).
  destruct (decide (i < length es)%nat) as [Hi|Hi].
  - rewrite lookup_seq_lt by done. cbn. destruct (lookup_lt_is_Some_2 (merge_sort entry_le es) i ltac:(lia)) as [e He].
    rewrite He. f_equal. by eapply entry_row_at.
  - rewrite lookup_seq_ge by lia. symmetry. apply lookup_ge_None. lia.
Qed.

Lemma allEntries_elem g e : seg_ok g -> e ∈ allEntries (sg_fv g) -> seg_view (ie_k e) g = Some (record_of g e).
Proof.
  intros HG He. rewrite seg_view_lookup by done. destruct HG as (_ & es & Hix & _).
  rewrite (allEntries_spelled _ es), merge_sort_Permutation in He; [|by apply indexes_spelled|apply Hix].
  rewrite (proj2 (lookup_Some _ es Hix (ie_k e) (ie_off e) (ie_slen e))) by (by destruct e). done.
Qed.
Lemma allEntries_complete g k r : seg_ok g -> seg_view k g = Some r -> exists e, e ∈ allEntries (sg_fv g) /\ ie_k e = k.
Proof.
  intros HG E. rewrite seg_view_lookup in E by done. destruct HG as (_ & es & Hix & _).
  rewrite (allEntries_spelled _ es) by (by apply indexes_spelled || apply (ix_keyCount _ _ Hix)).
  destruct (lookup_ _ k) as [[off slen]|] eqn:EL; [|done]. apply (lookup_Some _ _ Hix) in EL.
  eexists. rewrite merge_sort_Permutation. by split.
Qed.
End Entries.

(** * The store without its victims *)

Section Survivors.
Context `{Blake3} `{HZs : ZstdOk} `{HFu : FuseOk}.
Context (V : gset Z).

Definition kept (l : list sealedSegment) : list sealedSegment := filter (fun g => sg_id g ∉ V) l.
Definition survivors (s : Store) : Store := set_sealed (kept (sealed s)) s.

Lemma kept_app l new : Forall (sealed_as (fun i => i ∉ V)) new -> kept (l ++ new) = kept l ++ new.
Proof.
  intros F. unfold kept. rewrite list.filter_app. f_equal. induction F as [|g new [Hg _] F IH]; [done|].
  by rewrite filter_cons_True, IH.
Qed.

Lemma survivorHas_view s k : core (survivors s) -> survivorHas V s k = bool_decide (is_Some (view (survivors s) k)).
Proof.
  intros C. unfold survivorHas. pose proof (active_loc_view _ k C) as A.
  change (active_loc (survivors s) k) with (active_loc s k) in A. destruct (active_loc s k) as [[a loc]|].
  - destruct A as (_ & rec & h & _ & _ & -> & _). by rewrite bool_decide_eq_true_2.
  - rewrite A. cbn [sealed survivors set_sealed set_segments].
    rewrite <- existsb_view by apply C. clear A C. induction (sealed s) as [|g l IH]; [done|].
    unfold kept. destruct (decide (sg_id g ∈ V)) as [Hg|Hg].
    + rewrite filter_cons_False by (intros Hn; by apply Hn). cbn [existsb].
      by rewrite (bool_decide_eq_true_2 _ Hg), IH.
    + rewrite filter_cons_True by done. cbn [existsb rev]. rewrite (bool_decide_eq_false_2 _ Hg), existsb_app, IH. cbn.
      rewrite orb_false_r. apply orb_comm.
Qed.

Lemma held_survivors s k rec : held_in (survivors s) k rec -> held_in s k rec.
Proof.
  intros [HA|(g & Hg & Hr)]; [by left|]. right. exists g. split; [|done].
  unfold survivors, kept in Hg. cbn in Hg. by apply list_elem_of_filter in Hg as [_ Hg].
Qed.

(** One append, seen by the survivors. *)
Lemma append_survivors s h rec r s' :
  inv (survivors s) -> whole rec h -> fresh_ids (fun i => i ∉ V) s -> 0 <= nextID s -> nextID s + 1 < 2 ^ 64 ->
  appendLocked (RKey h) rec false s = (r, s') ->
  appendLocked (RKey h) rec false (survivors s) = (r, survivors s') /\
  wrote (survivors s) (survivors s') (RKey h) rec r /\ fresh_ids (fun i => i ∉ V) s' /\
  nextID s <= nextID s' <= nextID s + 1 /\
  exists new, sealed s' = sealed s ++ new /\ Forall (sealed_as (fun i => i ∉ V)) new.
Proof.
  intros I W FI Hn0 Hn1 E. destruct (frames_append (RKey h) rec false s) as (r1 & s1 & new & [E1 ES EL EI]).
  rewrite E1 in E. injection E as -> ->. destruct (EI Hn0 Hn1) as [HN HP]. destruct (HP _ FI) as [FI' FN].
  assert (survivors s' = set_sealed (kept (sealed s) ++ new) s') as ->.
  { unfold survivors. by rewrite ES, kept_app. }
  split_and!; [apply EL| |done|lia|lia|by exists new]. eapply append_spec; [exact I|exact W|apply EL].
Qed.
End Survivors.

(** * The copy pipeline under any schedule *)

(** Every candidate between the producer and the append. *)
Definition flight (p : Pipe) : list copyRec := option_list (p_pending p) ++ p_cands p ++ p_busy p ++ p_verified p.

(** Every move makes this smaller. *)
Definition weight (p : Pipe) : nat :=
  (5 * length (p_todo p) + 4 * length (option_list (p_pending p)) + 3 * length (p_cands p) +
    2 * length (p_busy p) + length (p_verified p))%nat.

Section PipeProofs.
Context `{Blake3} `{HZs : ZstdOk} `{HFu : FuseOk}.
Context (live : Key -> bool) (V : gset Z) (procs : nat) (Hprocs : (0 < procs)%nat).
#[local] Abbreviation step := (pipe_step live V procs).

Ltac fields := cbn [p_todo p_pending p_cands p_busy p_workers p_verified p_cancelled p_err p_appendErr p_sweep].

(** ** Termination *)

Lemma step_weight c p p' : step c p = Some p' -> (weight p' < weight p)%nat.
Proof using Type.
  clear Hprocs. unfold pipe_step. destruct c as [| | | |i|i|].
  - unfold produce, weight. destruct p as [[|[g e] rest] [pe|] ca bu wo ve can er ae sw]; try done. cbn [p_todo p_pending].
    destruct (_ || _); [|destruct (negb _)]; intros [= <-]; cbn; lia.
  - unfold send, weight. destruct p as [td [pe|] ca bu wo ve can er ae sw]; try done. cbn [p_todo p_pending p_cands].
    destruct (_ <? _)%nat; [|done]. intros [= <-]. cbn. rewrite length_app. cbn. lia.
  - unfold quit, weight. destruct p as [td [pe|] ca bu wo ve can er ae sw]; try done. cbn [p_cancelled p_pending].
    destruct can; [|done]. intros [= <-]. cbn. lia.
  - unfold take_cand, weight. destruct p as [td pe [|c ca] bu wo ve can er ae sw]; try done. cbn [p_cands p_busy p_workers].
    destruct (_ <? _)%nat; [|done]. intros [= <-]. cbn. rewrite length_app. cbn. lia.
  - unfold finish, weight. destruct (p_busy p !! i) as [c|] eqn:Ei; [|done]. cbn [mbind option_bind].
    pose proof (length_delete (p_busy p) i (mk_is_Some _ _ Ei)) as HL. apply lookup_lt_Some in Ei.
    destruct (verifyRecord _ _); [destruct (_ <? _)%nat; [|done]|]; intros [= <-]; destruct p; cbn in *; rewrite ?length_app; cbn; lia.
  - unfold drop_busy, weight. destruct (p_busy p !! i) as [c|] eqn:Ei; [|done]. cbn [mbind option_bind].
    pose proof (length_delete (p_busy p) i (mk_is_Some _ _ Ei)) as HL. apply lookup_lt_Some in Ei.
    destruct (verifyRecord _ _); [|done]. destruct (p_cancelled p); [|done]. intros [= <-]. destruct p; cbn in *. lia.
  - unfold consume, weight. destruct p as [td pe ca bu wo [|c ve] can er ae sw]; try done. cbn [p_verified set_verified p_appendErr].
    destruct ae; [intros [= <-]; cbn; lia|]. destruct (on_store _ _) as [[x|e] w]; intros [= <-]; cbn; lia.
Qed.

(** No deadlock: until both channels are closed and drained, some goroutine can move, or all
    the workers have returned after an error and the producer only waits for the cancellation. *)
Definition alive (p : Pipe) : Prop := p_workers p = 0%nat -> p_cancelled p = true.
Lemma step_exists p : (length (p_busy p) <= p_workers p)%nat -> alive p -> finished p = false -> exists c p', step c p = Some p'.
Proof.
  intros HB HA HF. destruct p as [td pe ca bu wo ve can er ae sw]. unfold alive in HA. cbn [p_busy p_workers p_cancelled] in *.
  destruct ve as [|v ve]; cycle 1.
  { exists Consume. cbn [pipe_step]. unfold consume. cbn [p_verified set_verified p_appendErr]. destruct ae; [by eexists|]. destruct (on_store _ _). by eexists. }
  destruct bu as [|b bu]; cycle 1.
  { exists (Finish 0). unfold pipe_step, finish. fields. change ((b :: bu) !! 0%nat) with (Some b). cbn [mbind option_bind].
    destruct (verifyRecord _ _); [|by eexists]. fields. unfold cap. rewrite (proj2 (Nat.ltb_lt _ _)) by (cbn [length]; lia). by eexists. }
  destruct pe as [c|].
  { destruct can; [exists Quit; by eexists|].
    assert (0 < wo)%nat as Hwo by (destruct wo; [by discriminate HA|lia]).
    destruct ca as [|c' ca]; cycle 1.
    { exists Take. unfold pipe_step, take_cand. fields. rewrite (proj2 (Nat.ltb_lt _ _)) by (cbn [length]; lia). by eexists. }
    exists Send. unfold pipe_step, send. fields. unfold cap. rewrite (proj2 (Nat.ltb_lt _ _)) by (cbn [length]; lia). by eexists. }
  destruct td as [|[g e] td]; cycle 1.
  { exists Produce. unfold pipe_step, produce. fields. destruct (_ || _); [by eexists|]. destruct (negb _); by eexists. }
  destruct ca as [|c' ca]; [done|]. unfold finished in HF. cbn in HF. destruct wo as [|wo]; [done|].
  exists Take. unfold pipe_step, take_cand. fields. by eexists.
Qed.

(** Workers and errors. *)
Record sane (p : Pipe) : Prop := {
    sn_busy : (length (p_busy p) <= p_workers p)%nat;
    sn_workers : p_err p = None -> p_workers p = procs;
    sn_err : p_err p <> None -> p_cancelled p = true;
    sn_append : p_appendErr p <> None -> p_cancelled p = true;
    sn_cancel : p_cancelled p = true -> p_err p <> None \/ p_appendErr p <> None
  }.
Lemma sane_start victims w : sane (start_pipe procs victims w).
Proof. by split; cbn; [lia|..]. Qed.
Lemma sane_step c p p' : sane p -> step c p = Some p' -> sane p'.
Proof using Hprocs.
  intros [SB SW SE SA SC]. destruct p as [td pe ca bu wo ve can er ae sw]. cbn [p_busy p_workers p_err p_cancelled p_appendErr] in *.
  assert (forall e, match er with Some e0 => Some e0 | None => Some e end <> None) as HE by (by destruct er).
  destruct c as [| | | |i|i|]; unfold pipe_step.
  - unfold produce. fields. destruct pe; [done|]. destruct td as [|[g e] td]; [done|].
    destruct (_ || _); [|destruct (negb _)]; intros [= <-]; split; cbn; try done; [by destruct er|by left].
  - unfold send. fields. destruct pe; [|done]. destruct (_ <? _)%nat; [|done]. by intros [= <-]; split.
  - unfold quit. fields. destruct pe; [|done]. destruct can; [|done]. by intros [= <-]; split.
  - unfold take_cand. fields. destruct ca as [|c ca]; [done|]. destruct (Nat.ltb_spec (length bu) wo); [|done].
    intros [= <-]; split; cbn; try done. rewrite length_app. cbn. lia.
  - unfold finish. fields. destruct (bu !! i) as [c|] eqn:Ei; [|done]. cbn [mbind option_bind].
    pose proof (length_delete bu i (mk_is_Some _ _ Ei)) as HL. apply lookup_lt_Some in Ei as Hlt.
    destruct (verifyRecord _ _); [destruct (_ <? _)%nat; [|done]|]; intros [= <-]; split; cbn; try done; try lia; [by destruct er|by left].
  - unfold drop_busy. fields. destruct (bu !! i) as [c|] eqn:Ei; [|done]. cbn [mbind option_bind].
    pose proof (length_delete bu i (mk_is_Some _ _ Ei)) as HL.
    destruct (verifyRecord _ _); [|done]. destruct can; [|done]. intros [= <-]; split; cbn; try done; lia.
  - unfold consume. fields. destruct ve as [|c ve]; [done|]. fields.
    destruct ae; [by intros [= <-]; split|]. destruct (on_store _ _) as [[x|e] w]; intros [= <-]; split; cbn; try done. by right.
Qed.

(** Every state of the pipeline can be driven to its end. *)
Lemma pipe_completes p : sane p -> exists sched p', pipe_run live V procs sched p = Some p' /\ finished p' = true.
Proof using Hprocs.
  remember (weight p) as n eqn:En. revert p En. induction (lt_wf n) as [n _ IH]. intros p -> S.
  destruct (finished p) eqn:EF; [by exists [], p|].
  destruct (step_exists p) as (c & p1 & E); [apply S| |done|].
  { intros Hw. destruct (p_err p) eqn:Ee; [apply S; by rewrite Ee|]. pose proof (sn_workers _ S Ee). lia. }
  destruct (IH (weight p1) ltac:(by eapply step_weight) p1 eq_refl (sane_step _ _ _ S E)) as (sched & p' & ER & EF').
  exists (c :: sched), p'. cbn [pipe_run]. by rewrite E.
Qed.

(** No schedule runs longer than the weight of the pipeline it starts from. *)
Lemma run_weight sched p p' : pipe_run live V procs sched p = Some p' -> (length sched + weight p' <= weight p)%nat.
Proof using Type.
  clear Hprocs.
  revert p. induction sched as [|c sched IH]; intros p E; [injection E as <-; cbn; lia|].
  cbn [pipe_run] in E. destruct (step c p) as [p1|] eqn:E1; [|done]. cbn in E.
  apply IH in E. apply step_weight in E1. cbn [length]. lia.
Qed.
End PipeProofs.

(** ** Safety *)

Section PipeSafety.
Context `{Blake3} `{HZs : ZstdOk} `{HFu : FuseOk}.
Context (live : Key -> bool) (V : gset Z) (procs : nat) (s1 : Store) (all : list (sealedSegment * indexEntry)).
Context (Hall : forall g e, (g, e) ∈ all -> g ∈ sealed s1 /\ seg_ok g /\ e ∈ allEntries (sg_fv g)).
#[local] Abbreviation step := (pipe_step live V procs).
#[local] Abbreviation unused := (fun i => i ∉ V).

(** What the appends so far have kept of the store the sweep started from. *)
Record copying (st : Store) : Prop := {
    cp_inv : inv (survivors V st);
    cp_fresh : fresh_ids unused st;
    cp_named : well_named st;
    cp_sealed : exists new, sealed st = sealed s1 ++ new /\ Forall (sealed_as unused) new;
    cp_frame : frame s1 st;
    cp_grow k : is_Some (view (survivors V s1) k) -> is_Some (view (survivors V st) k);
    cp_prov k rec : held_in (survivors V st) k rec -> held_in s1 k rec
  }.

(** A candidate is the record of a live entry of a victim. *)
Definition origin (c : copyRec) : Prop :=
  exists g e, (g, e) ∈ all /\ c = MkCopyRec e (record_of g e) /\ live (ie_k e) = true.

Record pipe_ok (p : Pipe) : Prop := {
    pk_store : copying (sw_store (p_sweep p));
    pk_next : nextID (sw_store (p_sweep p)) + Z.of_nat (weight p) < 2 ^ 64;
    pk_flight : Forall origin (flight p);
    pk_todo : forall x, x ∈ p_todo p -> x ∈ all;
    pk_cover : p_cancelled p = false -> forall g e, (g, e) ∈ all -> live (ie_k e) = true ->
    is_Some (view (survivors V (sw_store (p_sweep p))) (ie_k e)) \/ (g, e) ∈ p_todo p \/
    exists c, c ∈ flight p /\ ie_k (c_e c) = ie_k e
  }.

(** A move that only passes candidates on. *)
Lemma pass_on p p' :
  pipe_ok p -> p_sweep p' = p_sweep p -> p_todo p' = p_todo p -> (weight p' <= weight p)%nat ->
  flight p' ≡ₚ flight p -> (p_cancelled p' = false -> p_cancelled p = false) -> pipe_ok p'.
Proof.
  intros [PS PN PF PT PC] ES ET EW EP EC. split; rewrite ?ES, ?ET; try done.
  - lia.
  - by rewrite EP.
  - intros Hc g e Hin Hl. destruct (PC (EC Hc) g e Hin Hl) as [?|[?|(c & Hc' & ?)]]; [by left|by right; left|].
    right; right. exists c. by rewrite EP.
Qed.
(** A move that loses candidates, after a cancellation. *)
Lemma lose p p' :
  pipe_ok p -> p_sweep p' = p_sweep p -> (forall x, x ∈ p_todo p' -> x ∈ p_todo p) -> (weight p' <= weight p)%nat ->
  (forall c, c ∈ flight p' -> c ∈ flight p) -> p_cancelled p' = true -> pipe_ok p'.
Proof.
  intros [PS PN PF PT PC] ES ET EW EP EC. split; rewrite ?ES; try done.
  - lia.
  - rewrite list.Forall_forall in PF |- *. intros c Hc. by apply PF, EP.
  - intros x Hx. by apply PT, ET.
  - by rewrite EC.
Qed.

Lemma copying_append st c r w' st0 :
  copying st -> origin c -> nextID st + 1 < 2 ^ 64 ->
  on_store (appendLocked (ie_k (c_e c)) (c_rec c) false) (MkSweep st st0) = (r, w') ->
  copying (sw_store w') /\ nextID (sw_store w') <= nextID st + 1 /\
  (forall k, is_Some (view (survivors V st) k) -> is_Some (view (survivors V (sw_store w')) k)) /\
  (r = Ok tt -> is_Some (view (survivors V (sw_store w')) (ie_k (c_e c)))).
Proof.
  intros [CI CF CN (new & ES & FN) CFr CG CP] (g & e & Hin & -> & Hl) Hn E. cbn [c_e c_rec] in *. pose proof (wn_next _ CN) as CN0.
  destruct (Hall g e Hin) as (Hg1 & HG & He). pose proof (allEntries_elem g e HG He) as EV.
  destruct (seg_view_whole g _ _ HG EV) as (h & W & Hk). rewrite <- Hk in E, EV |- *.
  unfold on_store in E. cbn [sw_store sw_stats] in E.
  destruct (appendLocked (RKey h) (record_of g e) false st) as [r' s'] eqn:EA. injection E as <- <-. cbn [sw_store].
  destruct (append_survivors V st h _ _ _ CI W CF CN0 Hn EA) as (EV' & [WI WF WO WK] & FI' & HN & new' & ES' & FN').
  assert (forall k, is_Some (view (survivors V st) k) -> is_Some (view (survivors V s') k)) as Mono.
  { intros k Hs. destruct (decide (k = RKey h)) as [->|Hne]; [|by rewrite WO].
    destruct WK as [->|[-> _]]; [by eexists|done]. }
  split; [|split_and!; [lia|done|]].
  - destruct (append_well_named _ _ _ _ _ _ CN Hn EA) as [CN' _].
    split; [done|done|done| |by etransitivity; [exact CFr|split; apply WF]|by intros k Hs; apply Mono, CG|].
    + exists (new ++ new'). rewrite ES', ES, app_assoc. split; [done|]. by apply Forall_app.
    + intros k rec Hh. destruct (append_held _ _ _ _ _ _ _ _ CI W EV' Hh) as [Hh'|[-> ->]]; [by apply CP|]. right. by exists g.
  - intros ->. destruct WK as [->|[-> Hs]]; [by eexists|by apply Hs].
Qed.

Lemma flight_set_busy (p : Pipe) i c :
  p_busy p !! i = Some c -> flight p ≡ₚ c :: (option_list (p_pending p) ++ p_cands p ++ delete i (p_busy p) ++ p_verified p).
Proof.
  intros Ei. unfold flight. rewrite (delete_Permutation (p_busy p) i c Ei) at 1. cbn [app].
  by rewrite !Permutation_middle.
Qed.

Lemma pipe_ok_step c p p' : sane procs p -> pipe_ok p -> step c p = Some p' -> pipe_ok p'.
Proof using Hall HFu HZs.
  intros SN P E. pose proof (step_weight live V procs c p p' E) as HW. destruct c as [| | | |i|i|]; unfold pipe_step in E.
  - (* Produce *) unfold produce in E. destruct (p_pending p) eqn:Ep; [done|].
    destruct (p_todo p) as [|[g e] rest] eqn:Et; [done|].
    assert (copying (sw_store (p_sweep p))) as PS by apply P.
    destruct (negb (live (ie_k e)) || _) eqn:ESk; [|destruct (negb (entry_in_bounds g e))]; injection E as <-.
    + destruct P as [_ PN PF PT PC]. split; cbn [p_sweep p_todo set_producer p_cancelled]; [done|lia| | |].
      * unfold flight in PF |- *. cbn. by rewrite Ep in PF.
      * intros x Hx. apply PT. rewrite Et. by right.
      * intros Hc g' e' Hin Hl. destruct (PC Hc g' e' Hin Hl) as [?|[Hx|(c & Hc' & ?)]]; [by left| |].
        -- rewrite Et in Hx. apply elem_of_cons in Hx as [[= -> ->]|Hx]; [|by right; left]. left.
          rewrite Hl in ESk. cbn [negb orb] in ESk. rewrite survivorHas_view in ESk by apply PS.
          by apply bool_decide_eq_true in ESk.
        -- right; right. exists c. split; [|done]. unfold flight in Hc' |- *. cbn. by rewrite Ep in Hc'.
    + apply (lose p); [done|done| |lia| |done]; cbn; [intros x Hx; by apply elem_of_nil in Hx|].
      unfold flight. cbn. rewrite Ep. done.
    + destruct P as [_ PN PF PT PC]. split; cbn [p_sweep p_todo set_producer p_cancelled]; [done|lia| | |].
      * unfold flight in PF |- *. cbn. rewrite Ep in PF. constructor; [|done]. exists g, e.
        split; [apply PT; rewrite Et; by left|]. split; [done|].
        apply orb_false_iff in ESk as [ESk _]. by apply negb_false_iff in ESk.
      * intros x Hx. apply PT. rewrite Et. by right.
      * intros Hc g' e' Hin Hl. destruct (PC Hc g' e' Hin Hl) as [?|[Hx|(c & Hc' & ?)]]; [by left| |].
        -- rewrite Et in Hx. apply elem_of_cons in Hx as [[= -> ->]|Hx]; [|by right; left]. right; right.
          eexists. split; [unfold flight; cbn; by left|done].
        -- right; right. exists c. split; [|done]. unfold flight in Hc' |- *. cbn. rewrite Ep in Hc'. by right.
  - (* Send *) unfold send in E. destruct (p_pending p) as [c|] eqn:Ep; [|done]. destruct (_ <? _)%nat; [|done].
    injection E as <-. apply (pass_on p); try done; [lia|]. unfold flight. cbn. rewrite Ep. cbn.
    rewrite <- app_assoc. cbn [app]. symmetry. apply Permutation_middle.
  - (* Quit *) unfold quit in E. destruct (p_pending p) as [c|] eqn:Ep; [|done]. destruct (p_cancelled p) eqn:Ec; [|done].
    injection E as <-. apply (lose p); try done; [cbn; intros x Hx; by apply elem_of_nil in Hx|lia|].
    unfold flight. cbn. rewrite Ep. intros c' Hc'. by right.
  - (* Take *) unfold take_cand in E. destruct (p_cands p) as [|c rest] eqn:Eca; [done|]. destruct (_ <? _)%nat; [|done].
    injection E as <-. apply (pass_on p); try done; [lia|]. unfold flight. cbn. rewrite Eca.
    apply Permutation_app_head. cbn [app]. rewrite <- app_assoc. cbn [app]. by rewrite !Permutation_middle.
  - (* Finish *) unfold finish in E. destruct (p_busy p !! i) as [c|] eqn:Ei; [|done]. cbn [mbind option_bind] in E.
    pose proof (flight_set_busy p i c Ei) as FP. destruct (verifyRecord _ _) as [[]|e]; [destruct (_ <? _)%nat; [|done]|].
    + injection E as <-. apply (pass_on p); try done; [lia|]. rewrite FP. unfold flight. cbn.
      rewrite !(app_assoc _ _ [c]), !app_assoc. by rewrite <- Permutation_cons_append.
    + injection E as <-. apply (lose p); try done; [lia|]. intros c' Hc'. rewrite FP. right. exact Hc'.
  - (* Drop *) unfold drop_busy in E. destruct (p_busy p !! i) as [c|] eqn:Ei; [|done]. cbn [mbind option_bind] in E.
    pose proof (flight_set_busy p i c Ei) as FP. destruct (verifyRecord _ _) as [[]|e]; [|done].
    destruct (p_cancelled p) eqn:Ec; [|done]. injection E as <-. apply (lose p); try done; [lia|].
    intros c' Hc'. rewrite FP. right. exact Hc'.
  - (* Consume *) unfold consume in E. destruct (p_verified p) as [|c rest] eqn:Ev; [done|].
    assert (forall c', c' ∈ flight (set_verified rest p) -> c' ∈ flight p) as FL.
    { unfold flight. cbn. rewrite Ev. intros c'. rewrite !elem_of_app, elem_of_cons. tauto. }
    assert (origin c) as OC.
    { pose proof (pk_flight _ P) as PF. rewrite list.Forall_forall in PF. apply PF. unfold flight. rewrite Ev, !elem_of_app. right; right; right. by left. }
    cbn [p_appendErr set_verified p_sweep] in E.
    destruct (p_appendErr p) as [ea|] eqn:Ea.
    { injection E as <-. apply (lose p); try done; [lia|]. apply (sn_append _ _ SN). by rewrite Ea. }
    destruct (p_sweep p) as [st st0] eqn:Es. pose proof (pk_store _ P) as PS. rewrite Es in PS. cbn [sw_store] in PS.
    pose proof (pk_next _ P) as PN. rewrite Es in PN. cbn [sw_store] in PN.
    destruct (on_store _ (MkSweep st st0)) as [r w'] eqn:EO. injection E as <-.
    destruct (copying_append st c r w' st0 PS OC ltac:(lia) EO) as (PS' & HN & Mono & HOk).
    assert (forall x, x ∈ p_todo p -> x ∈ all) as PT by apply P.
    destruct r as [[]|e]; cbn [appended] in *; split; cbn [p_sweep p_todo p_cancelled sw_store]; try done.
    1, 4: cbn [sw_store]; lia.
    1, 3: pose proof (pk_flight _ P) as PF; rewrite list.Forall_forall in PF |- *; intros c' Hc'; by apply PF, FL.
    intros Hc g e Hin Hl. destruct (pk_cover _ P Hc g e Hin Hl) as [Hs|[Ht|(c' & Hc' & Hk)]].
    + left. apply Mono. by rewrite Es in Hs.
    + by right; left.
    + unfold flight in Hc'. rewrite Ev, !elem_of_app, elem_of_cons in Hc'.
      destruct Hc' as [?|[?|[?|[->|?]]]].
      4: left; rewrite <- Hk; by apply HOk.
      all: right; right; exists c'; split; [|done]; unfold flight; cbn; rewrite !elem_of_app; tauto.
Qed.

Lemma pipe_ok_run sched p p' : (0 < procs)%nat -> sane procs p -> pipe_ok p ->
  pipe_run live V procs sched p = Some p' -> sane procs p' /\ pipe_ok p'.
Proof using Hall HFu HZs.
  intros Hp. revert p. induction sched as [|c sched IH]; intros p SN P E; [by injection E as <-|].
  cbn [pipe_run] in E. destruct (step c p) as [p1|] eqn:E1; [|done]. cbn in E.
  eapply IH; [|by eapply pipe_ok_step|exact E]. by eapply sane_step.
Qed.
End PipeSafety.

(** * Compact *)

Section CompactProofs.
Context `{Blake3} `{HZs : ZstdOk} `{HFu : FuseOk}.

(** What a step of the sweep keeps: the invariant, the objects of [keep], and only records
    the store held before. *)
Record keeps_only (keep : Key -> Prop) (s s' : Store) : Prop := {
    ko_inv : inv s';
    ko_named : well_named s';
    ko_frame : frame s s';
    ko_keep k : keep k -> is_Some (view s k) -> is_Some (view s' k);
    ko_prov k rec : held_in s' k rec -> held_in s k rec
  }.
Lemma keeps_only_same keep s s1 s2 : keeps_only keep s s1 -> same_held s1 s2 -> keeps_only keep s s2.
Proof.
  intros [I N F K P] SH. destruct (sh_view _ _ SH) as [I2 F2 V2]. split; [done|by eapply same_held_named|by etransitivity| |].
  - intros k Hk Hs. rewrite V2. by apply K.
  - intros k rec Hh. apply P. by apply (same_held_held _ _ _ _ SH).
Qed.
Lemma keeps_only_refl keep s : inv s -> well_named s -> keeps_only keep s s.
Proof. by split. Qed.
Lemma same_keeps_only keep s s' : same_view s s' -> well_named s' -> (forall k rec, held_in s' k rec -> held_in s k rec) -> keeps_only keep s s'.
Proof. intros [I F V] N P. split; [done..| |done]. intros k _. by rewrite V. Qed.
Lemma keeps_only_weaken (keep keep' : Key -> Prop) s s' : (forall k, keep' k -> keep k) -> keeps_only keep s s' -> keeps_only keep' s s'.
Proof. intros HK [I N F K P]. split; [done..| |done]. intros k Hk. by apply K, HK. Qed.

Lemma remove_same s path r s' :
  inv s -> (forall a, active s = Some a -> a_path a <> path) -> io (RemoveFile path) s = (r, s') -> same_held s s'.
Proof.
  intros I Hp E. apply io_inv in E as (d & E & ->). apply RemoveFile_out in E as (fs & E).
  apply disk_same_held; [done|apply keeps_inodes; by destruct E as [->| ->]|].
  intros a Ha. destruct E as [->| ->]; [|done]. cbn. apply lookup_delete_ne. intros E. by apply (Hp a Ha).
Qed.
Lemma quiet_call_same (m : M Disk unit) s r s' :
  (forall d r d', m d = (r, d') -> exists fs, d' = set_faults fs d) -> inv s -> io m s = (r, s') -> same_held s s'.
Proof.
  intros Hm I E. apply io_inv in E as (d & (fs & ->)%Hm & ->). apply disk_same_held; [done|by apply keeps_inodes|done].
Qed.

(** ** Removing *)

Definition not_active (path : bytes) (s : Store) : Prop := forall a, active s = Some a -> a_path a <> path.

Lemma remove_files_same victims fe w r w' :
  inv (sw_store w) -> Forall (fun g => not_active (sg_path g) (sw_store w)) victims ->
  remove_files victims fe w = (r, w') -> same_held (sw_store w) (sw_store w').
Proof.
  revert fe w. induction victims as [|g victims IH]; intros fe w I F E; [injection E as <- <-; by apply same_held_refl|].
  apply Forall_cons_1 in F as [Fg F]. cbn [remove_files] in E.
  unfold on_stats in E. rewrite M_modify in E. set (w1 := MkSweep _ _) in E.
  unfold mbind at 1, M_bind at 1, noting at 1, on_store at 1 in E.
  destruct (io CloseFd (sw_store w1)) as [r1 s1] eqn:E1. apply (quiet_call_same _ _ _ _ CloseFd_out I) in E1.
  unfold mbind at 1, M_bind at 1, noting at 1, on_store at 1 in E. cbn [sw_store] in E.
  destruct (io (RemoveFile (sg_path g)) s1) as [r2 s2] eqn:E2.
  assert (same_held s1 s2) as SH2.
  { eapply remove_same; [apply E1| |exact E2]. intros a. rewrite (sh_active _ _ E1). apply Fg. }
  eapply same_held_trans; [exact E1|]. eapply same_held_trans; [exact SH2|].
  eapply (IH _ (MkSweep s2 _)); [apply SH2| |exact E]. cbn [sw_store].
  eapply list.Forall_impl; [exact F|]. intros g' Hg' a. rewrite (sh_active _ _ SH2), (sh_active _ _ E1). apply Hg'.
Qed.

Lemma removeVictims_spec V victims w r w' :
  V = ids victims -> inv (survivors V (sw_store w)) ->
  Forall (fun g => not_active (sg_path g) (sw_store w)) victims ->
  removeVictims victims w = (r, w') -> same_held (survivors V (sw_store w)) (sw_store w').
Proof.
  intros -> I F E. unfold removeVictims in E.
  unfold mbind at 1, M_bind at 1, on_store at 1, modify at 1 in E. fold (survivors (ids victims) (sw_store w)) in E.
  change (set_sealed _ (sw_store w)) with (survivors (ids victims) (sw_store w)) in E.
  unfold mbind at 1, M_bind at 1 in E. destruct (remove_files victims None _) as [r1 w1] eqn:E1.
  apply remove_files_same in E1; [|exact I|exact F]. cbn [sw_store] in E1.
  destruct r1 as [e|e]; [|by injection E as <- <-]. unfold on_stats in E. rewrite M_modify, M_gets in E. cbn [sw_store] in E.
  set (w2 := MkSweep _ _) in E. eapply same_held_trans; [exact E1|]. change (sw_store w1) with (sw_store w2).
  unfold mbind at 1, M_bind at 1 in E. destruct (cfg_sync _).
  - unfold noting, on_store in E. destruct (io SyncDir (sw_store w2)) as [r3 s3] eqn:E3.
    apply (quiet_call_same _ _ _ _ SyncDir_out (sv_inv _ _ (sh_view _ _ E1))) in E3.
    assert (sw_store w' = s3) as -> by (destruct e, r3; by injection E as <- <-). exact E3.
  - assert (w' = w2) as -> by (destruct e; by injection E as <- <-). apply same_held_refl, E1.
Qed.

(** ** Selecting *)

Definition picked (vs segs : list sealedSegment) : Prop := (forall g, g ∈ vs -> g ∈ segs) /\ (NoDup segs -> NoDup vs).
Lemma picked_skip vs g segs : picked vs segs -> picked vs (g :: segs).
Proof. intros [HI HN]. split; [intros g' Hg; right; by apply HI|]. intros [_ ND]%list.NoDup_cons. by apply HN. Qed.
Lemma picked_take vs g segs : picked vs segs -> picked (g :: vs) (g :: segs).
Proof.
  intros [HI HN]. split; [intros g' [->|Hg]%elem_of_cons; [by left|right; by apply HI]|].
  intros [Hn ND]%list.NoDup_cons. constructor; [|by apply HN]. intros Hg. by apply Hn, HI.
Qed.
Lemma select_loop_spec modTime live opts segs w r w' :
  select_loop modTime live opts segs w = (r, w') ->
  sw_store w' = sw_store w /\ forall vs, r = Ok vs -> picked vs segs.
Proof.
  revert w r w'. induction segs as [|g segs IH]; intros w r w' E.
  { injection E as <- <-. split; [done|]. intros vs [= <-]. by split. }
  cbn [select_loop] in E. rewrite M_lift in E. destruct (eligible modTime opts g) as [[]|e]; [| |by injection E as <- <-].
  - destruct (over_line opts (liveness live g)).
    + unfold on_stats in E. cbn [negb] in E. rewrite M_modify in E. unfold mbind, M_bind in E.
      destruct (select_loop modTime live opts segs _) as [r1 w1] eqn:E1. apply IH in E1 as [ES EV]. cbn [sw_store] in ES.
      destruct r1 as [vs|e]; injection E as <- <-; (split; [done|]); [|done].
      intros vs' [= <-]. by apply picked_take, EV.
    + apply IH in E as [ES EV]. split; [done|]. intros vs Hr. by apply picked_skip, EV.
  - apply IH in E as [ES EV]. split; [done|]. intros vs Hr. by apply picked_skip, EV.
Qed.
Lemma selectVictims_spec modTime live opts w r w' :
  selectVictims modTime live opts w = (r, w') ->
  sw_store w' = sw_store w /\ forall vs, r = Ok vs -> picked vs (sealed (sw_store w)).
Proof.
  unfold selectVictims. rewrite M_gets. unfold on_stats. rewrite M_modify. intros E. by apply select_loop_spec in E.
Qed.

(** ** Copying *)

Lemma segs_view_app l new k :
  segs_view (l ++ new) k = match segs_view new k with Some r => Some r | None => segs_view l k end.
Proof.
  induction new as [|g new IH] using rev_ind; [by rewrite app_nil_r|].
  rewrite app_assoc, !segs_view_snoc, IH. by destruct (seg_view k g).
Qed.
Lemma view_is_Some_app s l k :
  is_Some (view s k) -> sealed s = l -> forall st new, active st = active s -> st_disk st = st_disk s -> sealed st = l ++ new -> is_Some (view st k).
Proof.
  intros Hs <- st new EA ED ES. unfold view in *. rewrite EA, ED, ES, segs_view_app.
  destruct (active s ≫= _); [done|]. by destruct (segs_view new k).
Qed.

Lemma inv_survivors V s : inv s -> inv (survivors V s).
Proof.
  intros [Hc [CS CA] HP]. split; [done| |done]. split; [|done]. cbn. unfold kept.
  apply list.Forall_forall. intros g Hg. apply list_elem_of_filter in Hg as [_ Hg]. rewrite list.Forall_forall in CS. by apply CS.
Qed.

Lemma survivors_named V s : well_named s -> well_named (survivors V s).
Proof.
  intros [WS WD WA WN]. assert (forall g, g ∈ kept V (sealed s) -> g ∈ sealed s) as Sub by (by intros g [_ Hg]%list_elem_of_filter).
  split; [| | |done].
  - apply list.Forall_forall. intros g Hg%Sub. rewrite list.Forall_forall in WS. by apply WS.
  - cbn. clear -WD. unfold kept. induction (sealed s) as [|g l IH]; [constructor|]. cbn in WD. apply list.NoDup_cons in WD as [Hn ND].
    rewrite filter_cons. destruct (decide _); [|by apply IH]. cbn. constructor; [|by apply IH].
    intros (g' & E & Hg')%list_elem_of_fmap. apply list_elem_of_filter in Hg' as [_ Hg']. apply Hn. rewrite E.
    by apply (list_elem_of_fmap_2 sg_id).
  - intros a Ha. destruct (WA a Ha) as (? & Hn & ?). split_and!; [done| |done].
    intros (g & E & Hg%Sub)%list_elem_of_fmap. apply Hn. rewrite E. by apply (list_elem_of_fmap_2 sg_id).
Qed.

Section Copy.
Context (V : gset Z) (s1 : Store) (I1 : inv s1) (W1 : well_named s1).

Lemma copying_start : (forall i, i ∈ V -> i ∈ map sg_id (sealed s1)) -> copying V s1 s1.
Proof.
  intros HV. assert (forall i, i ∈ V -> i < nextID s1) as HVn.
  { intros i Hi. apply HV, list_elem_of_fmap in Hi as (g & -> & Hg).
    pose proof (wn_sealed _ W1) as F. rewrite list.Forall_forall in F. by apply F. }
  split.
  - by apply inv_survivors.
  - split.
    + intros a Ha. destruct (wn_active _ W1 a Ha) as (_ & Hn & Hp). split; [|done]. intros Hi. by apply Hn, HV.
    + intros i Hi HiV. specialize (HVn i HiV). lia.
  - done.
  - exists []. rewrite app_nil_r. by split.
  - by split.
  - done.
  - intros k rec. apply held_survivors.
Qed.

Lemma copying_keeps st : copying V s1 st -> keeps_only (fun _ => True) s1 st.
Proof.
  intros [CI CF CN (new & ES & FN) CFr CG CP].
  assert (kept V (sealed st) = kept V (sealed s1) ++ new) as EK by (by rewrite ES, kept_app).
  split; [|done|done| |].
  - destruct CI as [Hc [CS CA] HP]. split; [done| |done]. split; [|done]. rewrite ES. apply Forall_app. split; [apply I1|].
    cbn in CS. change (filter _ (sealed st)) with (kept V (sealed st)) in CS. rewrite EK in CS. by apply Forall_app in CS as [_ CS].
  - intros k _ Hs. destruct (active st ≫= fun a => act_view (st_disk st) a k) as [r|] eqn:EA; [unfold view; rewrite EA; by eexists|].
    unfold view. rewrite EA, ES, segs_view_app. destruct (segs_view new k) as [r|] eqn:EN; [by eexists|].
    destruct (segs_view (sealed s1) k) as [r|] eqn:E1; [by eexists|].
    assert (is_Some (view (survivors V s1) k)) as Hsv.
    { unfold view in Hs |- *. cbn. destruct (active s1 ≫= _); [done|]. rewrite E1 in Hs. by destruct Hs. }
    apply CG in Hsv. unfold view in Hsv. cbn in Hsv. rewrite EA in Hsv.
    change (filter _ (sealed st)) with (kept V (sealed st)) in Hsv. rewrite EK, segs_view_app, EN in Hsv.
    destruct Hsv as [r Hr]. apply segs_view_elem in Hr as (g & Hg & Hr). unfold kept in Hg. apply list_elem_of_filter in Hg as [_ Hg].
    exfalso. assert (is_Some (segs_view (sealed s1) k)) as [? ?]; [|congruence].
    apply (existsb_view_true (sealed s1) k); [apply I1|]. apply existsb_exists. exists g.
    split; [rewrite <- in_rev; by apply list_elem_of_In|].
    rewrite seg_has_view; [apply bool_decide_eq_true_2; by eexists|].
    pose proof (inv_segs _ (inv_core _ I1)) as F. rewrite list.Forall_forall in F. by apply F.
  - intros k rec [HA|(g & Hg & Hr)]; [apply CP; by left|]. rewrite ES in Hg. apply elem_of_app in Hg as [Hg|Hg]; [right; by exists g|].
    apply CP. right. exists g. split; [|done]. cbn. change (filter _ (sealed st)) with (kept V (sealed st)).
    rewrite EK. apply elem_of_app. by right.
Qed.
End Copy.

Lemma length_allEntries g : seg_ok g -> Z.of_nat (length (allEntries (sg_fv g))) < 2 ^ 32.
Proof.
  intros (_ & es & Hix & _). rewrite (allEntries_spelled _ es) by (by apply indexes_spelled || apply (ix_keyCount _ _ Hix)).
  rewrite merge_sort_Permutation. pose proof (ix_len _ _ Hix). unfold zlen in *. lia.
Qed.
Definition victim_entries (victims : list sealedSegment) : list (sealedSegment * indexEntry) :=
  concat (map (fun g => map (pair g) (allEntries (sg_fv g))) victims).
Lemma victim_entries_elem victims g e : (g, e) ∈ victim_entries victims <-> g ∈ victims /\ e ∈ allEntries (sg_fv g).
Proof.
  unfold victim_entries. rewrite list_elem_of_In, in_concat. split.
  - intros (l & (g' & <- & Hg')%in_map_iff & (e' & [= -> ->] & He)%in_map_iff). split; by apply list_elem_of_In.
  - intros [Hg He]. exists (map (pair g) (allEntries (sg_fv g))). apply list_elem_of_In in Hg, He. split.
    + apply in_map_iff. by exists g.
    + apply in_map_iff. by exists e.
Qed.
Lemma length_victim_entries victims : Forall seg_ok victims ->
  Z.of_nat (length (victim_entries victims)) <= 2 ^ 32 * zlen victims.
Proof.
  induction 1 as [|g victims HG F IH]; [done|]. unfold victim_entries in *. cbn [map concat].
  rewrite length_app, length_map, zlen_cons. pose proof (length_allEntries g HG). lia.
Qed.
Lemma NoDup_fmap_inj {A B} (f : A -> B) (l : list A) x y : NoDup (map f l) -> x ∈ l -> y ∈ l -> f x = f y -> x = y.
Proof.
  intros ND [i Hi]%list_elem_of_lookup [j Hj]%list_elem_of_lookup E.
  assert (i = j) as ->; [|congruence]. apply (NoDup_lookup (map f l) i j (f x) ND); rewrite list_lookup_fmap, ?Hi, ?Hj; cbn; congruence.
Qed.
Lemma sublist_length (l l' : list sealedSegment) : NoDup l -> (forall g, g ∈ l -> g ∈ l') -> zlen l <= zlen l'.
Proof.
  intros ND Hin. unfold zlen. apply Nat2Z.inj_le. apply NoDup_incl_length; [by apply NoDup_ListNoDup|].
  intros g Hg. apply list_elem_of_In, Hin. by apply list_elem_of_In.
Qed.

Lemma ids_elem victims i : i ∈ ids victims <-> exists g, g ∈ victims /\ sg_id g = i.
Proof.
  unfold ids. rewrite elem_of_list_to_set. split.
  - intros (g & -> & Hg)%list_elem_of_fmap. by exists g.
  - intros (g & Hg & <-). by apply (list_elem_of_fmap_2 sg_id).
Qed.
(** The pipeline as it starts, from the store that was sealed. *)
Lemma start_pipe_ok procs live victims w :
  let s1 := sw_store w in
  inv s1 -> well_named s1 -> NoDup victims -> (forall g, g ∈ victims -> g ∈ sealed s1) -> nextID s1 + 2 ^ 35 * zlen (sealed s1) < 2 ^ 64 ->
  (forall g e, (g, e) ∈ victim_entries victims -> g ∈ sealed s1 /\ seg_ok g /\ e ∈ allEntries (sg_fv g)) /\
  pipe_ok live (ids victims) s1 (victim_entries victims) (start_pipe procs victims w).
Proof.
  intros s1 I1 W1 NDv Hsub Hn. pose proof (inv_segs _ (inv_core _ I1)) as FS. rewrite list.Forall_forall in FS. split.
  { intros g e (Hg & He)%victim_entries_elem. split_and!; [by apply Hsub|by apply FS, Hsub|done]. }
  split; cbn [p_sweep p_todo p_cancelled start_pipe]; fold (victim_entries victims).
  - apply copying_start; [done|done|]. intros i (g & Hg & <-)%ids_elem. by apply (list_elem_of_fmap_2 sg_id), Hsub.
  - fold s1. unfold weight. cbn [p_todo p_pending p_cands p_busy p_verified start_pipe option_list length].
    fold (victim_entries victims). change (option_list (@None copyRec)) with (@nil copyRec). cbn [length].
    assert (Forall seg_ok victims) as Fv by (apply list.Forall_forall; intros g Hg; by apply FS, Hsub).
    pose proof (length_victim_entries victims Fv). pose proof (sublist_length _ _ NDv Hsub). pose proof (wn_next _ W1). pose proof (zlen_nonneg (sealed s1)). lia.
  - constructor.
  - done.
  - intros _ g e Hin _. right; left. exact Hin.
Qed.

(** Copying, from the store that was sealed. *)
Lemma copyLive_spec procs sched live victims w r w' :
  let s1 := sw_store w in
  (0 < procs)%nat -> inv s1 -> well_named s1 -> NoDup victims -> (forall g, g ∈ victims -> g ∈ sealed s1) ->
  nextID s1 + 2 ^ 35 * zlen (sealed s1) < 2 ^ 64 ->
  copyLive procs sched live victims w = (r, w') ->
  copying (ids victims) s1 (sw_store w') /\
  (r = Ok tt -> forall k, live k = true -> is_Some (view s1 k) -> is_Some (view (survivors (ids victims) (sw_store w')) k)).
Proof.
  intros s1 Hp I1 W1 NDv Hsub Hn E. destruct (start_pipe_ok procs live victims w I1 W1 NDv Hsub Hn) as [Hall P0].
  pose proof (inv_segs _ (inv_core _ I1)) as FS. rewrite list.Forall_forall in FS.
  set (V := ids victims) in *. pose proof (ids_elem victims) as HV. fold V in HV. pose proof (pk_store _ _ _ _ _ P0) as CP0. cbn in CP0. fold s1 in Hall, P0, CP0.
  unfold copyLive in E. fold V in E.
  destruct (pipe_run live V procs sched (start_pipe procs victims w)) as [p|] eqn:ER; [|injection E as <- <-; by split].
  destruct (finished p) eqn:EF; [|injection E as <- <-; by split]. injection E as <- <-.
  destruct (pipe_ok_run live V procs s1 (victim_entries victims) Hall sched _ p Hp (sane_start procs Hp victims w) P0 ER) as [SN PO].
  split; [apply PO|]. intros Hr k Hl Hs.
  unfold pipe_result in Hr. destruct (p_appendErr p) eqn:Eae; [done|]. destruct (p_err p) eqn:Ee; [done|].
  unfold finished in EF. destruct (p_todo p) as [|? ?] eqn:Et; [|done]. destruct (p_pending p) eqn:Epe; [done|].
  destruct (p_busy p) eqn:Eb; [|done]. destruct (p_verified p) eqn:Ev; [|done].
  assert (p_cands p = []) as Eca.
  { apply orb_true_iff in EF as [EF|EF]; [by destruct (p_cands p)|]. rewrite (sn_workers _ _ SN Ee) in EF. apply Nat.eqb_eq in EF. lia. }
  destruct (p_cancelled p) eqn:Ec; [by destruct (sn_cancel _ _ SN Ec) as [?|?]; congruence|].
  assert (flight p = []) as Efl by (unfold flight; by rewrite Epe, Eca, Eb, Ev).
  assert (forall g e, g ∈ victims -> e ∈ allEntries (sg_fv g) -> ie_k e = k ->
  is_Some (view (survivors V (sw_store (p_sweep p))) k)) as Covered.
  { intros g e Hg He Hk. destruct (pk_cover _ _ _ _ _ PO Ec g e) as [Hv|[Ht|(c & Hc & _)]].
    - by apply victim_entries_elem.
    - by rewrite Hk.
    - by rewrite Hk in Hv.
    - rewrite Et in Ht. by apply elem_of_nil in Ht.
    - rewrite Efl in Hc. by apply elem_of_nil in Hc. }
  pose proof (cp_grow _ _ _ (pk_store _ _ _ _ _ PO) k) as Grow.
  destruct (view (survivors V s1) k) as [r|] eqn:Ev1; [apply Grow; by eexists|].
  unfold view in Hs, Ev1. cbn in Ev1. destruct (active s1 ≫= _) as [r|]; [done|].
  destruct Hs as [r (g & Hg & Hgr)%segs_view_elem].
  destruct (allEntries_complete g k r (FS g Hg) Hgr) as (e & He & Hk).
  destruct (decide (sg_id g ∈ V)) as [HgV|HgV].
  - apply HV in HgV as (g' & Hg' & Eid). assert (g' = g) as ->; [|by eapply Covered].
    apply (NoDup_fmap_inj sg_id (sealed s1)); [apply W1|by apply Hsub|done|done].
  - exfalso. assert (is_Some (segs_view (kept V (sealed s1)) k)) as [? ?]; [|unfold kept in *; congruence].
    assert (Forall seg_ok (kept V (sealed s1))) as FK.
    { apply list.Forall_forall. intros g' Hg'. apply FS. unfold kept in Hg'. by apply list_elem_of_filter in Hg' as [_ ?]. }
    apply (existsb_view_true _ k FK), existsb_exists. exists g. split.
    + rewrite <- in_rev. apply list_elem_of_In. unfold kept. by apply list_elem_of_filter.
    + rewrite seg_has_view by (by apply FS). apply bool_decide_eq_true_2. by eexists.
Qed.

(** ** The whole sweep *)

Lemma keeps_only_trans keep s s1 s2 : keeps_only (fun _ => True) s s1 -> keeps_only keep s1 s2 -> keeps_only keep s s2.
Proof.
  intros [_ _ F1 K1 P1] [I2 N2 F2 K2 P2]. split; [done|done|by etransitivity| |].
  - intros k Hk Hs. apply K2; [done|]. by apply K1.
  - intros k rec Hh. by apply P1, P2.
Qed.

(** From the sealed store on. *)
Lemma sweep_spec procs sched modTime live opts w r w' :
  let s1 := sw_store w in
  (0 < procs)%nat -> inv s1 -> well_named s1 -> nextID s1 + 2 ^ 35 * zlen (sealed s1) < 2 ^ 64 ->
  (victims ← selectVictims modTime live opts;
    match victims with
    | [] => mret tt
    | _ =>
      _ ← copyLive procs sched live victims;
      s ← gets sw_store;
      _ ← match active s with
      | Some a => if cfg_sync (st_cfg s) then on_store (poison (io (Sync (a_f a)))) else mret tt
      | None => mret tt
      end;
      removeVictims victims
    end) w = (r, w') ->
  keeps_only (fun k => live k = true) s1 (sw_store w').
Proof.
  intros s1 Hp I1 W1 Hn E.
  assert (keeps_only (fun k => live k = true) s1 s1) as K0 by (by apply keeps_only_refl).
  unfold mbind at 1, M_bind at 1 in E. destruct (selectVictims modTime live opts w) as [r1 w1] eqn:E1.
  apply selectVictims_spec in E1 as [ES HV]. fold s1 in ES, HV.
  destruct r1 as [victims|e]; [|injection E as <- <-; by rewrite ES]. specialize (HV victims eq_refl) as [Hsub HND].
  assert (NoDup victims) as NDv by (apply HND; eapply NoDup_fmap_1; apply W1).
  destruct (decide (victims = [])) as [->|Hne]; [injection E as <- <-; by rewrite ES|].
  assert ((_ ← copyLive procs sched live victims;
  s ← gets sw_store;
  _ ← match active s with
      | Some a => if cfg_sync (st_cfg s) then on_store (poison (io (Sync (a_f a)))) else mret tt
      | None => mret tt
      end;
  removeVictims victims) w1 = (r, w')) as E2 by (by destruct victims). clear E. rename E2 into E.
  unfold mbind at 1, M_bind at 1 in E. destruct (copyLive procs sched live victims w1) as [r2 w2] eqn:E2.
  destruct (copyLive_spec procs sched live victims w1 r2 w2) as [CP CV]; rewrite ?ES; try done.
  rewrite ES in CP, CV. pose proof (copying_keeps _ s1 I1 _ CP) as K2.
  destruct r2 as [[]|e]; [|injection E as <- <-; by eapply keeps_only_weaken; [|exact K2]].
  rewrite M_gets in E. unfold mbind at 1, M_bind at 1 in E. set (sync := match active (sw_store w2) with Some _ => _ | None => _ end) in E.
  destruct (sync w2) as [r3 w3] eqn:E3.
  assert (same_held (sw_store w2) (sw_store w3) /\ same_held (survivors (ids victims) (sw_store w2)) (survivors (ids victims) (sw_store w3)))
  as [SH3 SS3].
  { assert (sync w2 = (Ok tt, w2) \/ exists a, active (sw_store w2) = Some a /\ sync w2 = on_store (poison (io (Sync (a_f a)))) w2) as [Hd|(a & Ha & Hd)].
    { unfold sync. destruct (active (sw_store w2)) as [a|]; [|by left]. destruct (cfg_sync _); [right; by exists a|by left]. }
    - rewrite Hd in E3. injection E3 as <- <-. split; apply same_held_refl; [apply K2|apply CP].
    - rewrite Hd in E3. unfold on_store in E3. destruct (poison (io (Sync (a_f a))) (sw_store w2)) as [r4 s4] eqn:E4. injection E3 as <- <-. cbn [sw_store].
      pose proof (sync_same_held _ _ _ _ (ko_inv _ _ _ K2) E4) as SH4. split; [done|].
      eapply sync_same_held; [apply CP|]. unfold survivors at 2. rewrite (sh_sealed _ _ SH4).
      by destruct (sync_any_sealed _ _ _ _ (kept (ids victims) (sealed (sw_store w2))) E4) as (_ & _ & _ & EL). }
  assert (keeps_only (fun k => live k = true) s1 (sw_store w3)) as K3.
  { eapply keeps_only_same; [|exact SH3]. by eapply keeps_only_weaken; [|exact K2]. }
  destruct r3 as [[]|e]; [|by injection E as <- <-].
  assert (keeps_only (fun k => live k = true) s1 (survivors (ids victims) (sw_store w3))) as KS.
  { eapply keeps_only_same; [|exact SS3]. split; [apply CP|apply survivors_named, CP|destruct (ko_frame _ _ _ K2); by split| |apply CP].
    intros k Hk Hs. by apply CV. }
  eapply keeps_only_same; [exact KS|]. eapply removeVictims_spec; [done|apply KS| |exact E].
  apply list.Forall_forall. intros g Hg a Ha Ep. rewrite (sh_active _ _ SH3) in Ha.
  destruct (fi_active _ _ (cp_fresh _ _ _ CP) a Ha) as [_ Ea].
  pose proof (wn_sealed _ W1) as FW. rewrite list.Forall_forall in FW. destruct (FW g (Hsub g Hg)) as [_ Eg].
  rewrite Ea, Eg in Ep. by apply segName_active_sealed in Ep.
Qed.

Lemma compact_with_spec procs sched modTime live opts w r w' :
  let s := sw_store w in
  (0 < procs)%nat -> inv s -> well_named s -> nextID s + 2 ^ 35 * (zlen (sealed s) + 1) < 2 ^ 64 ->
  compact_with modTime procs sched live opts w = (r, w') -> keeps_only (fun k => live k = true) s (sw_store w').
Proof.
  intros s Hp I W Hn E. unfold compact_with in E.
  unfold mbind at 1, M_bind at 1, on_store at 1 in E. fold s in E.
  destruct (writable s) as [r1 s1] eqn:E1. apply writable_inv in E1 as [-> HW].
  destruct r1 as [[]|e]; [|injection E as <- <-; by apply keeps_only_refl].
  destruct (HW eq_refl) as [_ HF]. unfold mbind at 1, M_bind at 1, on_store at 1 in E. cbn [sw_store sw_stats] in E.
  destruct (poison sealActiveLocked s) as [r2 s2] eqn:E2.
  assert (named (2 * SEG_MAX) s) as N2.
  { intros a Ha. destruct (inv_path _ I HF a Ha) as [? ?]. split; [done|]. unfold SEG_MAX in *. lia. }
  destruct (rotate_spec s true r2 s2 (inv_core _ I) (inv_cfg _ I) N2 ltac:(done) E2) as (I2 & F2 & V2).
  assert (same_view s s2) as SV2 by (by split).
  assert (forall k rec, held_in s2 k rec -> held_in s k rec) as HH.
  { intros k rec. destruct (poison_shape _ _ _ _ E2) as (s3 & E3 & HE). intros Hh. apply (seal_held s r2 s3); [apply I|exact N2|exact E3|]. destruct HE as [->|(f & ->)]; exact Hh. }
  assert (well_named s2) as W2.
  { destruct (poison_shape _ _ _ _ E2) as (s3 & E3 & HE). destruct (seal_well_named _ _ _ W E3) as [W3 _]. destruct HE as [->|(f & ->)]; [done|by destruct W3]. }
  pose proof (same_keeps_only (fun _ => True) s s2 SV2 W2 HH) as K2.
  destruct r2 as [[]|e]; [|injection E as <- <-; by eapply keeps_only_weaken; [|exact K2]].
  apply poison_inv in E2 as [([] & _ & E2)|(e & s3 & [=] & _)].
  destruct (seal_well_named _ _ _ W E2) as [_ EN2].
  eapply keeps_only_trans; [exact K2|].
  - apply (sweep_spec procs sched modTime live opts (MkSweep s2 (sw_stats w)) r w'); cbn [sw_store]; try done.
    rewrite EN2. destruct (seal_shape _ _ _ E2) as (_ & [[-> _]|(a & g & _ & _ & -> & _)]); [|rewrite zlen_app; change (zlen [g]) with 1; lia].
    pose proof (zlen_nonneg (sealed s)). lia.
Qed.

Lemma Compact_spec procs sched modTime live opts s st r w' :
  (0 < procs)%nat -> inv s -> well_named s -> nextID s + 2 ^ 35 * (zlen (sealed s) + 1) < 2 ^ 64 ->
  Compact modTime procs sched live opts (MkSweep s st) = (r, w') ->
  let s' := sw_store w' in
  inv s' /\ well_named s' /\
  (forall k, live k = true \/ k ∈ default ∅ (grey s) -> is_Some (view s k) -> is_Some (view s' k)) /\
  (forall k rec, held_in s' k rec -> held_in s k rec).
Proof.
  intros Hp I W Hn E. unfold Compact, mbind at 1, M_bind at 1, on_store at 1, takeGrey in E. cbn [sw_store sw_stats] in E.
  set (s0 := set_barrier false None s) in E.
  assert (inv s0 /\ well_named s0) as [I0 W0].
  { destruct I as [Hc [CS CA] HP]. split; [by split|]. by destruct W. }
  apply compact_with_spec in E as [I' N' F' K' P']; [|done..]. cbn [sw_store] in *.
  split; [done|]. split; [done|]. split; [|exact P']. intros k Hk. apply K'.
  apply orb_true_iff. destruct Hk as [Hk|Hk]; [by right|left]. by apply bool_decide_eq_true_2.
Qed.
End CompactProofs.

(** * Properties *)

(** C10. Compact loses no live object and invents none, whatever the schedule of its
    goroutines, the system calls that fail and the outcome: from a store that keeps its
    invariant, with segments named after distinct identifiers that cannot run out during the
    sweep, every object that is live or was greyed since the barrier, and that the store
    held, is still held; every record held afterwards, in any segment, is one the store held
    before for that key; and the invariant and the naming hold again. *)
Theorem compact_keeps_live `{Blake3} `{ZstdOk} `{FuseOk} procs sched modTime live opts s st r w' :
  (0 < procs)%nat -> inv s -> well_named s -> nextID s + 2 ^ 35 * (zlen (sealed s) + 1) < 2 ^ 64 ->
  Compact modTime procs sched live opts (MkSweep s st) = (r, w') ->
  let s' := sw_store w' in
  inv s' /\ well_named s' /\
  (forall k, live k = true \/ k ∈ default ∅ (grey s) -> is_Some (view s k) -> is_Some (view s' k)) /\
  (forall k rec, held_in s' k rec -> held_in s k rec).
Proof. apply Compact_spec. Qed.


(** A store of two sealed segments, of which only one record is live. *)
Definition only_abc (k : Key) : bool := bool_decide (k = abc_key).
Definition tenth : spec_float := SFdiv 53 1024 (float64 1) (float64 10).
Definition sweep_sched : list choice := [Produce; Send; Take; Finish 0; Consume; Produce; Produce].
Lemma put_named k data s : well_named s -> nextID s + 1 < 2 ^ 64 -> well_named (put k data s).
Proof.
  intros W Hn. unfold put. destruct (Put k data s) as [r s'] eqn:E. cbn [snd]. unfold Put in E.
  rewrite M_gets in E. cbn [id] in E. destruct (failed s); [by injection E as <- <-|].
  unfold mbind at 1, M_bind at 1 in E. destruct (observe k s) as [[[]|e] s1] eqn:E1; [|done].
  assert (well_named s1 /\ nextID s1 = nextID s) as [W1 En].
  { injection E1 as <-. destruct W. destruct (negb (capturing s)); [by split; [split|]|]. destruct (grey s); by split; [split|]. }
  unfold mbind at 1, M_bind at 1, reads in E. destruct (Has s1 k) as [[]|]; [by injection E as <- <-| |by injection E as <- <-].
  rewrite M_lift in E. destruct (EncodeRecord k data) as [rec|e]; [|by injection E as <- <-].
  eapply append_well_named; [exact W1|lia|exact E].
Qed.
Lemma fresh_named cfg d : well_named (fresh cfg d).
Proof. split; cbn; [constructor|constructor|done|lia]. Qed.
Lemma mixed_well_named : well_named mixed.
Proof. unfold mixed. do 3 (apply put_named; [|vm_compute; reflexivity]). apply fresh_named. Qed.
Lemma Has_true s k : core s -> Has s k = Ok true -> is_Some (view s k).
Proof. intros C. rewrite Has_view by done. destruct (closed s); [done|]. intros [= HE]. by apply bool_decide_eq_true in HE. Qed.
Lemma compact_keeps_live_witness :
  exists w', Compact (fun _ => Ok 0) 1 sweep_sched only_abc (MkCompactOpts tenth None) (MkSweep mixed no_stats) = (Ok tt, w') /\
    Victims (sw_stats w') = [1; 2] /\ RecordsCopied (sw_stats w') = 1 /\
    Has (sw_store w') third_key = Ok false /\ is_Some (view (sw_store w') abc_key).
Proof.
  destruct (Compact (fun _ => Ok 0) 1 sweep_sched only_abc (MkCompactOpts tenth None) (MkSweep mixed no_stats)) as [r w'] eqn:E.
  exists w'.
  assert (fst (Compact (fun _ => Ok 0) 1 sweep_sched only_abc (MkCompactOpts tenth None) (MkSweep mixed no_stats)) = Ok tt) as Er by (vm_compute; reflexivity).
  assert (let w := snd (Compact (fun _ => Ok 0) 1 sweep_sched only_abc (MkCompactOpts tenth None) (MkSweep mixed no_stats)) in
    (Victims (sw_stats w), RecordsCopied (sw_stats w), Has (sw_store w) third_key) = ([1; 2], 1, Ok false)) as Es by (vm_compute; reflexivity).
  rewrite E in Er, Es. cbn [fst snd] in Er, Es. subst r. injection Es as Es1 Es2 Es3.
  assert (nextID mixed + 2 ^ 35 * (zlen (sealed mixed) + 1) < 2 ^ 64) as Hn by (vm_compute; reflexivity).
  assert (Has mixed abc_key = Ok true) as Hh by (vm_compute; reflexivity).
  pose proof (Has_true _ _ (inv_core _ mixed_inv) Hh) as Hv.
  pose proof (compact_keeps_live 1 sweep_sched _ _ _ _ _ _ _ ltac:(lia) mixed_inv mixed_well_named Hn E) as (_ & _ & K & _).
  split; [reflexivity|]. split; [exact Es1|]. split; [exact Es2|]. split; [exact Es3|].
  apply K; [left; apply bool_decide_eq_true_2; reflexivity|exact Hv].
Defined.

(** What the barrier does not cover. [Put] of an object that is already stored takes no lock
    the sweep holds: one that lands between [takeGrey] and the removal of the victims is
    acknowledged, and the sweep, which had taken the grey set before, deletes the object. *)
Definition swept_under_put : res unit * res bool :=
  match takeGrey (snd (BeginBarrier mixed)) with
  | (Ok g, s1) =>
      let '(r, s2) := Put third_key [x7a] s1 in
      let w := snd (compact_with (fun _ => Ok 0) 1 sweep_sched (fun k => bool_decide (k ∈ g) || only_abc k) (MkCompactOpts tenth None) (MkSweep s2 no_stats)) in
      (r, Has (sw_store w) third_key)
  | (Err e, _) => (Err e, Err e)
  end.
Example dedup_hit_during_sweep_lost : swept_under_put = (Ok tt, Ok false).
Proof. vm_compute. reflexivity. Qed.

(** The copy pipeline ends: whatever the producer, the workers and the caller have done
    so far, some continuation drains and closes both channels - no goroutine is stuck for
    good, even after an error or with the buffers full - and no execution takes more moves
    than five per victim entry. *)
Theorem copy_pipeline_terminates `{Blake3} `{ZstdOk} `{FuseOk} live procs victims w sched p :
  (0 < procs)%nat ->
  pipe_run live (ids victims) procs sched (start_pipe procs victims w) = Some p ->
  (exists sched' p', pipe_run live (ids victims) procs sched' p = Some p' /\ finished p' = true) /\
  (length sched <= 5 * length (victim_entries victims))%nat.
Proof.
  intros Hp E. split.
  - apply pipe_completes; [done|]. assert (forall q, sane procs q -> pipe_run live (ids victims) procs sched q = Some p -> sane procs p) as HR.
    { clear E. induction sched as [|c sched IH]; intros q SN E; [by injection E as <-|]. cbn [pipe_run] in E.
      destruct (pipe_step live (ids victims) procs c q) as [q1|] eqn:E1; [|done]. cbn in E.
      eapply IH; [|exact E]. by eapply sane_step. }
    eapply HR; [|exact E]. by apply sane_start.
  - apply run_weight in E. unfold weight in E at 2. cbn [p_todo p_pending p_cands p_busy p_verified start_pipe length] in E.
    change (option_list (@None copyRec)) with (@nil copyRec) in E. cbn [length] in E. fold (victim_entries victims) in E. lia.
Qed.

Lemma copy_pipeline_terminates_witness :
  exists p, pipe_run (fun _ => true) (ids (sealed one_sealed)) 1 [Produce; Send] (start_pipe 1 (sealed one_sealed) (MkSweep one_sealed no_stats)) = Some p /\
    finished p = false /\
    exists sched' p', pipe_run (fun _ => true) (ids (sealed one_sealed)) 1 sched' p = Some p' /\ finished p' = true.
Proof.
  destruct (pipe_run (fun _ => true) (ids (sealed one_sealed)) 1 [Produce; Send] (start_pipe 1 (sealed one_sealed) (MkSweep one_sealed no_stats))) as [p|] eqn:E.
  - exists p. split; [reflexivity|]. split; [vm_compute in E; injection E as <-; reflexivity|].
    exact (proj1 (copy_pipeline_terminates (fun _ => true) 1 (sealed one_sealed) _ [Produce; Send] p ltac:(lia) E)).
  - exfalso. vm_compute in E. discriminate E.
Defined.
