(* ===== verification/Segments.v ===== *)
(** The garbage collector's view of the sealed segments (src/packstore/gc.go): listing,
    index scans, raw reads, [HasOutside], [Remove], and the writes in flight. *)
From S2P Require Import Prelude External Concrete Key Crc32 Record Pack Footer Disk Scan Store StoreInv StoreSpec Frame Provenance Scrub Marks Compact Sweep.

(** ** Writes in flight *)

(** The map from tokens to start times; a token is a fresh pointer. *)
Definition Writes := gmap nat Z.
Definition beginWrite (now : Z) (w : Writes) : nat * Writes :=
  let t := base.fresh (dom w) in (t, <[t:=now]> w).
Definition endWrite (t : nat) (w : Writes) : Writes := delete t w.
(** [None] is the zero time; the loop ranges over the map. *)
Definition older (min : option Z) (t : Z) : option Z :=
  match min with None => Some t | Some m => if t <? m then Some t else Some m end.
Definition OldestInflightWrite (w : Writes) : option Z := fold_left older (map snd (map_to_list w)) None.

(** ** Segments *)

Record SegmentInfo := MkSegmentInfo { si_ID : Z; si_Sealed : Z; si_Body : Z; si_Keys : Z }.

Section Segments.
Context `{Blake3, Zstd, Fuse}.

Definition Segments (modTime : bytes -> res Z) (s : Store) : res (list SegmentInfo) :=
  if closed s then Err [ErrClosed]
  else mapM (fun g =>
     t ← modTime (sg_path g);
     Ok (MkSegmentInfo (sg_id g) t (fv_bodyLen (sg_fv g) - zlen magicHeader) (keyCount (sg_fv g)))) (sealed s).

Definition pinSegment (s : Store) (id : Z) : res sealedSegment :=
  if closed s then Err [ErrClosed]
  else from_opt [ErrUnknownSegment] (head (filter (fun g => sg_id g = id) (sealed s))).

(** [ScanIndex] with a callback that collects its arguments. *)
Definition ScanIndex (s : Store) (id : Z) : res (list indexEntry) :=
  g ← pinSegment s id; Ok (allEntries (sg_fv g)).

Definition RecordAt (s : Store) (id off : Z) : res bytes :=
  g ← pinSegment s id;
  let body := u64 (fv_bodyLen (sg_fv g)) in
  if (off <? zlen magicHeader) || (body <? off) || (u64 (body - off) <? Z.of_nat RecHeaderSize) then Err [ErrCorrupt]
  else
  rec ← ParseRecord (slice (Z.to_nat off) (Z.to_nat body) (sg_mm g));
  let stop := u64 (off + Z.of_nat RecHeaderSize + RSlen rec) in
  Ok (slice (Z.to_nat off) (Z.to_nat stop) (sg_mm g)).

Definition HasOutside (s : Store) (id : Z) (k : Key) : res bool :=
  if closed s then Err [ErrClosed]
  else match active_loc s k with
   | Some _ => Ok true
   | None => Ok (existsb (fun g => negb (sg_id g =? id) && seg_has g k) (rev (sealed s)))
   end.

Definition Sync : M Store unit := syncActive.

(** The first segment with the identifier is taken out of the list. *)
Fixpoint without (id : Z) (l : list sealedSegment) : list sealedSegment :=
  match l with [] => [] | g :: l' => if sg_id g =? id then l' else g :: without id l' end.
Definition Remove (id : Z) : M Store unit :=
  s ← gets (fun s => s);
  g ← lift (pinSegment s id);
  _ ← modify (fun s => set_sealed (without id (sealed s)) s);
  each_first ([io CloseFd; io (RemoveFile (sg_path g))] ++ (if cfg_sync (st_cfg s) then [io SyncDir] else [])).
End Segments.

(** * Removing a segment *)

Section Proofs.
Context `{Blake3} `{HZs : ZstdOk} `{HFu : FuseOk}.

Lemma existsb_rev {A} (f : A -> bool) l : existsb f (rev l) = existsb f l.
Proof.
  induction l as [|x l IH]; [done|]. cbn [rev existsb]. rewrite existsb_app, IH. cbn. rewrite orb_false_r. apply orb_comm.
Qed.

Lemma without_kept id l : NoDup (map sg_id l) -> without id l = kept {[id]} l.
Proof.
  induction l as [|g l IH]; [done|]. cbn [map without]. intros [Hn ND]%list.NoDup_cons. unfold kept in *. rewrite filter_cons.
  destruct (Z.eqb_spec (sg_id g) id) as [<-|Hne].
  - rewrite decide_False by set_solver. symmetry. rewrite <- IH by done. clear IH.
    induction l as [|g' l IH]; [done|]. cbn [map] in Hn. rewrite not_elem_of_cons in Hn. destruct Hn as [Hn Hn'].
    cbn [without]. destruct (Z.eqb_spec (sg_id g') (sg_id g)); [congruence|]. f_equal. apply IH; [done|].
    by apply list.NoDup_cons in ND as [_ ND].
  - rewrite decide_True by set_solver. f_equal. by apply IH.
Qed.

Lemma HasOutside_view s id k : inv s -> closed s = false ->
  HasOutside s id k = Ok (bool_decide (is_Some (view (survivors {[id]} s) k))).
Proof.
  intros I Ec. rewrite <- survivorHas_view by (by apply inv_core, inv_survivors). unfold HasOutside, survivorHas. rewrite Ec.
  destruct (active_loc s k); [done|]. f_equal. rewrite existsb_rev. induction (sealed s) as [|g l IH]; [done|].
  cbn [existsb]. rewrite IH. do 3 f_equal. destruct (Z.eqb_spec (sg_id g) id) as [<-|Hne].
  - symmetry. apply bool_decide_eq_true_2. set_solver.
  - symmetry. apply bool_decide_eq_false_2. set_solver.
Qed.

Lemma pinSegment_inv s id g : pinSegment s id = Ok g -> closed s = false /\ g ∈ sealed s /\ sg_id g = id.
Proof.
  unfold pinSegment. destruct (closed s); [done|]. destruct (filter _ (sealed s)) as [|g' l] eqn:EF; [done|].
  intros [= ->]. split; [done|]. assert (g ∈ filter (fun g => sg_id g = id) (sealed s)) as Hg by (rewrite EF; by left).
  by apply list_elem_of_filter in Hg as [? ?].
Qed.

Lemma each_first_same ms s r s' :
  (forall m, m ∈ ms -> forall s0 r0 s1, inv s0 -> active s0 = active s -> m s0 = (r0, s1) -> same_held s0 s1) ->
  inv s -> each_first ms s = (r, s') -> same_held s s'.
Proof.
  intros Hm I. assert (forall s0 r0 s1, inv s0 -> active s0 = active s -> each_first ms s0 = (r0, s1) -> same_held s0 s1) as K.
  { clear I r s'. induction ms as [|m ms IH]; intros s0 r0 s1 I0 EA E; [injection E as <- <-; by apply same_held_refl|].
    cbn [each_first] in E. destruct (m s0) as [r2 s2] eqn:E2. destruct (each_first ms s2) as [r3 s3] eqn:E3. injection E as <- <-.
    assert (same_held s0 s2) as SH by (apply (Hm m ltac:(by left) s0 r2); done).
    eapply same_held_trans; [exact SH|]. eapply IH; [|apply SH| |exact E3].
    - intros m' Hm'. apply Hm. by right.
    - by rewrite (sh_active _ _ SH). }
  by apply K.
Qed.

(** Without the segment, every other key is where it was. *)
Lemma survivors_others s g k :
  inv s -> well_named s -> g ∈ sealed s -> seg_view k g = None -> is_Some (view s k) ->
  is_Some (view (survivors {[sg_id g]} s) k).
Proof.
  intros I W Hg HN Hs. unfold view in *. cbn [active survivors set_sealed set_segments st_disk sealed].
  destruct (active s ≫= _) as [r|]; [done|]. destruct Hs as [r (g' & Hg' & Hr)%segs_view_elem].
  assert (Forall seg_ok (kept {[sg_id g]} (sealed s))) as F by apply (inv_segs _ (inv_core _ (inv_survivors {[sg_id g]} s I))).
  apply (existsb_view_true _ k F), existsb_exists. exists g'.
  assert (g' ∈ kept {[sg_id g]} (sealed s)) as Hk.
  { apply list_elem_of_filter. split; [|done]. intros Hi%elem_of_singleton.
    assert (g' = g) as ->; [|congruence]. eapply (NoDup_fmap_inj sg_id (sealed s)); [apply W|done..]. }
  split; [rewrite <- in_rev; by apply list_elem_of_In|]. rewrite seg_has_view.
  - apply bool_decide_eq_true_2. by eexists.
  - rewrite list.Forall_forall in F. by apply F.
Qed.

Lemma Remove_spec s id es r s' :
  inv s -> well_named s -> ScanIndex s id = Ok es -> Remove id s = (r, s') ->
  inv s' /\ well_named s' /\ (forall k rec, held_in s' k rec -> held_in s k rec) /\
  (forall k, is_Some (view s k) -> (k ∈ map ie_k es -> HasOutside s id k = Ok true) -> is_Some (view s' k)).
Proof.
  intros I W ES E. unfold ScanIndex in ES. destruct (pinSegment s id) as [g|] eqn:EP; [|done]. injection ES as <-.
  unfold Remove in E. rewrite M_gets, M_lift, EP, M_modify in E. destruct (pinSegment_inv _ _ _ EP) as (Ec & Hg & Hi).
  rewrite without_kept in E by apply W. fold (survivors {[id]} s) in E.
  change (set_sealed (kept {[id]} (sealed s)) s) with (survivors {[id]} s) in E.
  assert (same_held (survivors {[id]} s) s') as SH.
  { eapply each_first_same; [|by apply inv_survivors|exact E]. intros m Hm s0 r0 s1 I0 EA Em.
    assert (m = io CloseFd \/ m = io (RemoveFile (sg_path g)) \/ m = io SyncDir) as [->|[->| ->]].
    { destruct (cfg_sync _); cbn in Hm; rewrite !elem_of_cons in Hm; [|rewrite elem_of_nil in Hm]; naive_solver by rewrite ?elem_of_nil in *. }
    - eapply quiet_call_same; [exact CloseFd_out|exact I0|exact Em].
    - eapply remove_same; [done| |exact Em]. intros a Ha Ep. rewrite EA in Ha.
      destruct (wn_active _ W a Ha) as (_ & _ & Ea). pose proof (wn_sealed _ W) as FW. rewrite list.Forall_forall in FW.
      destruct (FW g Hg) as [_ Eg]. rewrite Ea, Eg in Ep. by apply segName_active_sealed in Ep.
    - eapply quiet_call_same; [exact SyncDir_out|exact I0|exact Em]. }
  pose proof (sh_view _ _ SH) as [I' _ V']. split; [done|]. split; [eapply same_held_named; [|exact SH]; by apply survivors_named|].
  split; [intros k rec Hh; apply (held_survivors {[id]}); by apply (same_held_held _ _ _ _ SH)|].
  intros k Hs HO. rewrite V'. destruct (seg_view k g) as [r0|] eqn:Eg.
  - assert (seg_ok g) as HG by (pose proof (inv_segs _ (inv_core _ I)) as F; rewrite list.Forall_forall in F; by apply F).
    destruct (allEntries_complete g k r0 HG Eg) as (e & He & <-).
    specialize (HO ltac:(by apply (list_elem_of_fmap_2 ie_k))). rewrite HasOutside_view in HO by done.
    injection HO as HO. by apply bool_decide_eq_true in HO.
  - rewrite <- Hi. by apply survivors_others.
Qed.

(** A mapping has the length of a Go slice. *)
Definition mapped (s : Store) : Prop := Forall (fun g => zlen (sg_mm g) < 2 ^ 63) (sealed s).

(** A scanned entry reads back as a whole record that [AppendRecord] accepts. *)
Lemma scan_record s id es e :
  inv s -> mapped s -> ScanIndex s id = Ok es -> e ∈ es ->
  exists rec h n, RecordAt s id (ie_off e) = Ok rec /\ whole rec h /\ RKey h = ie_k e /\
  prepare (MkStoreObject (ie_k e) None (Some rec)) false = Ok (rec, n) /\ held_in s (ie_k e) rec.
Proof.
  intros I HM ES He. unfold ScanIndex in ES. destruct (pinSegment s id) as [g|] eqn:EP; [|done]. injection ES as <-.
  destruct (pinSegment_inv _ _ _ EP) as (Ec & Hg & Hi). unfold mapped in HM. rewrite list.Forall_forall in HM. specialize (HM g Hg). cbn beta in HM.
  assert (seg_ok g) as HG by (pose proof (inv_segs _ (inv_core _ I)) as F; rewrite list.Forall_forall in F; by apply F).
  pose proof (allEntries_elem g e HG He) as EV. destruct HG as (HB & es & Hix & F).
  assert (e ∈ es) as Hin.
  { rewrite (allEntries_spelled _ es) in He by (by apply indexes_spelled || apply (ix_keyCount _ _ Hix)). by rewrite merge_sort_Permutation in He. }
  rewrite list.Forall_forall in F. destruct (F e Hin) as (H8 & Hend & h & Wh & Hk & Hs).
  pose proof (whole_slen_bound _ _ Wh) as HsB.
  assert (entry_ok g e) as EO by (by apply F). clear F.
  exists (record_of g e), h. unfold RecordAt. rewrite EP. cbn [mbind res_bind].
  assert (u64 (fv_bodyLen (sg_fv g)) = fv_bodyLen (sg_fv g)) as Eb by (unfold u64; rewrite Z.mod_small; lia).
  rewrite Eb. change (zlen magicHeader) with 8.
  rewrite (proj2 (Z.ltb_ge (ie_off e) 8)), (proj2 (Z.ltb_ge _ (ie_off e))) by (unfold RecHeaderSize in *; lia).
  assert (u64 (fv_bodyLen (sg_fv g) - ie_off e) = fv_bodyLen (sg_fv g) - ie_off e) as -> by (unfold u64; rewrite Z.mod_small; unfold RecHeaderSize in *; lia).
  rewrite (proj2 (Z.ltb_ge _ (Z.of_nat RecHeaderSize))) by (unfold RecHeaderSize in *; lia). cbn [orb].
  assert (record_of g e = rec_at (sg_mm g) (ie_off e) (ie_slen e)) as ER by done.
  assert (ParseRecord (slice (Z.to_nat (ie_off e)) (Z.to_nat (fv_bodyLen (sg_fv g))) (sg_mm g)) = Ok h) as ->.
  { assert (exists rest, slice (Z.to_nat (ie_off e)) (Z.to_nat (fv_bodyLen (sg_fv g))) (sg_mm g) =
    rec_at (sg_mm g) (ie_off e) (ie_slen e) ++ rest) as (rest & ->).
    { eexists. unfold rec_at, slice. rewrite <- (take_drop (RecHeaderSize + Z.to_nat (ie_slen e))) at 1.
      rewrite take_take, min_l by (unfold RecHeaderSize in *; lia). f_equal. f_equal. lia. }
    apply ParseRecord_Ok, parsed_app, Wh. }
  cbn [mbind res_bind].
  assert (u64 (ie_off e + Z.of_nat RecHeaderSize + RSlen h) = ie_off e + Z.of_nat RecHeaderSize + ie_slen e) as -> by (unfold u64; rewrite Z.mod_small; unfold RecHeaderSize in *; lia).
  assert (slice (Z.to_nat (ie_off e)) (Z.to_nat (ie_off e + Z.of_nat RecHeaderSize + ie_slen e)) (sg_mm g) = record_of g e) as ->.
  { unfold record_of. f_equal. lia. }
  exists (RUlen h). split; [done|]. rewrite ER. split; [exact Wh|]. split; [exact Hk|]. split.
  - unfold prepare. cbn [SRecord SData SKey]. rewrite bool_decide_eq_false_2 by (by intros [? ?]).
    destruct Wh as [P HL]. rewrite (proj2 (ParseRecord_Ok _ _) P). cbn [mbind res_bind].
    rewrite bool_decide_eq_true_2 by done. cbn [negb].
    assert (zlen (rec_at (sg_mm g) (ie_off e) (ie_slen e)) = Z.of_nat RecHeaderSize + RSlen h) as -> by (unfold zlen; lia).
    by rewrite Z.eqb_refl.
  - right. exists g. split; [done|]. by rewrite <- ER.
Qed.
End Proofs.

(** * Property *)

(** Reaping a segment by hand loses nothing that is kept: every entry [ScanIndex] lists
    reads back as a whole record of its key, one the store holds, that [AppendRecord] accepts
    verbatim; and [Remove], whatever fails on the way, keeps the invariant, every object
    outside the segment and every object of it that [HasOutside] reported, and it never
    brings a record back. *)
Theorem reap_segment_safe `{Blake3} `{ZstdOk} `{FuseOk} s id es :
  inv s -> well_named s -> mapped s -> ScanIndex s id = Ok es ->
  (forall e, e ∈ es -> exists rec n, RecordAt s id (ie_off e) = Ok rec /\ held_in s (ie_k e) rec /\
     prepare (MkStoreObject (ie_k e) None (Some rec)) false = Ok (rec, n)) /\
  (forall r s', Remove id s = (r, s') ->
     inv s' /\ well_named s' /\ (forall k rec, held_in s' k rec -> held_in s k rec) /\
     (forall k, is_Some (view s k) -> (k ∈ map ie_k es -> HasOutside s id k = Ok true) -> is_Some (view s' k))).
Proof.
  intros I W HM ES. split.
  - intros e He. destruct (scan_record s id es e I HM ES He) as (rec & h & n & ? & _ & _ & ? & ?). by exists rec, n.
  - intros r s'. by apply Remove_spec.
Qed.

Lemma reap_segment_safe_witness :
  exists es s', ScanIndex mixed 1 = Ok es /\ length es = 2%nat /\ HasOutside mixed 1 abc_key = Ok false /\
    Remove 1 mixed = (Ok tt, s') /\ is_Some (view s' third_key) /\
    exists e rec, e ∈ es /\ RecordAt mixed 1 (ie_off e) = Ok rec.
Proof.
  destruct (ScanIndex mixed 1) as [es|] eqn:ES; [|exfalso; vm_compute in ES; discriminate ES].
  destruct (Remove 1 mixed) as [r s'] eqn:E. exists es, s'.
  assert (fst (Remove 1 mixed) = Ok tt) as Er by (vm_compute; reflexivity). rewrite E in Er. cbn [fst] in Er. subst r.
  assert (match ScanIndex mixed 1 with Ok l => length l | Err _ => 0%nat end = 2%nat) as HL by (vm_compute; reflexivity). rewrite ES in HL.
  assert (match ScanIndex mixed 1 with Ok l => negb (existsb (fun e => bool_decide (ie_k e = third_key)) l) | Err _ => false end = true) as HN
    by (vm_compute; reflexivity). rewrite ES in HN.
  assert (Forall (fun g => zlen (sg_mm g) < 2 ^ 63) (sealed mixed)) as HM.
  { assert (map (fun g => zlen (sg_mm g) <? 2 ^ 63) (sealed mixed) = [true]) as HB by (vm_compute; reflexivity).
    apply list.Forall_forall. intros g Hg. apply (list_elem_of_fmap_2 (fun g => zlen (sg_mm g) <? 2 ^ 63)) in Hg.
    change (fmap ?f ?l) with (map f l) in Hg. rewrite HB in Hg. apply list_elem_of_singleton in Hg. by apply Z.ltb_lt. }
  destruct (reap_segment_safe mixed 1 es mixed_inv mixed_well_named HM ES) as [HR HX].
  destruct (HX _ _ E) as (_ & _ & _ & HK).
  assert (Has mixed third_key = Ok true) as Hh by (vm_compute; reflexivity).
  assert (HasOutside mixed 1 abc_key = Ok false) as HO by (vm_compute; reflexivity).
  split; [reflexivity|]. split; [exact HL|]. split; [exact HO|]. split; [reflexivity|]. split.
  - apply HK; [exact (Has_true _ _ (inv_core _ mixed_inv) Hh)|]. intros (e & Ek & He)%list_elem_of_fmap. exfalso.
    apply negb_true_iff in HN. rewrite <- not_true_iff_false in HN. apply HN, existsb_exists.
    exists e. split; [by apply list_elem_of_In|]. by apply bool_decide_eq_true_2.
  - destruct es as [|e es]; [discriminate HL|]. destruct (HR e ltac:(left)) as (rec & n & HRec & _).
    exists e, rec. split; [left|exact HRec].
Defined.
