(* ===== verification/Reference.v ===== *)
(** References (src/reference/reference.go): the named-pointer record, its validation, its
    canonical encoding and the payload a signature runs over. Strings are byte strings;
    [unicode/utf8] is modelled from the Go specification of [range] over a string. *)
From S2P Require Import Prelude External Concrete Key.

(** ** unicode/utf8 *)

Definition RuneError : Z := 0xFFFD.
Definition cont (b : byte) : bool := (0x80 <=? u8 b) && (u8 b <=? 0xBF).
Definition within (lo hi : Z) (b : byte) : bool := (lo <=? u8 b) && (u8 b <=? hi).
(** The bounds on the second byte after the leading byte [b], and the rune's length. *)
Definition accept (b : byte) : option (Z * Z * nat) :=
  if within 0xC2 0xDF b then Some (0x80, 0xBF, 2%nat)
  else if within 0xE0 0xE0 b then Some (0xA0, 0xBF, 3%nat)
  else if within 0xE1 0xEC b || within 0xEE 0xEF b then Some (0x80, 0xBF, 3%nat)
  else if within 0xED 0xED b then Some (0x80, 0x9F, 3%nat)
  else if within 0xF0 0xF0 b then Some (0x90, 0xBF, 4%nat)
  else if within 0xF1 0xF3 b then Some (0x80, 0xBF, 4%nat)
  else if within 0xF4 0xF4 b then Some (0x80, 0x8F, 4%nat)
  else None.

(** [utf8.DecodeRuneInString]: the rune and its width, [None] for an invalid encoding,
    which is one byte wide. *)
Definition DecodeRune (s : bytes) : option (Z * nat) :=
  match s with
  | [] => None
  | b0 :: s1 =>
      if u8 b0 <? 0x80 then Some (u8 b0, 1%nat)
      else
        '(lo, hi, n) ← accept b0;
        match n, s1 with
        | 2%nat, b1 :: _ =>
            if within lo hi b1 then Some (Z.lor (Z.shiftl (Z.land (u8 b0) 0x1F) 6) (Z.land (u8 b1) 0x3F), 2%nat) else None
        | 3%nat, b1 :: b2 :: _ =>
            if within lo hi b1 && cont b2 then
              Some (Z.lor (Z.lor (Z.shiftl (Z.land (u8 b0) 0x0F) 12) (Z.shiftl (Z.land (u8 b1) 0x3F) 6)) (Z.land (u8 b2) 0x3F), 3%nat)
            else None
        | 4%nat, b1 :: b2 :: b3 :: _ =>
            if within lo hi b1 && cont b2 && cont b3 then
              Some (Z.lor (Z.lor (Z.lor (Z.shiftl (Z.land (u8 b0) 0x07) 18) (Z.shiftl (Z.land (u8 b1) 0x3F) 12))
                             (Z.shiftl (Z.land (u8 b2) 0x3F) 6)) (Z.land (u8 b3) 0x3F), 4%nat)
            else None
        | _, _ => None
        end
  end.

(** [for _, r := range s]; every rune is at least one byte wide. *)
Fixpoint runes_fuel (fuel : nat) (s : bytes) : list (option Z) :=
  match fuel, s with
  | S fuel', b :: s' =>
      match DecodeRune s with
      | Some (r, n) => Some r :: runes_fuel fuel' (drop n s)
      | None => None :: runes_fuel fuel' s'
      end
  | _, _ => []
  end.
Definition runes (s : bytes) : list (option Z) := runes_fuel (length s) s.
Definition ValidString (s : bytes) : bool := forallb (fun r => bool_decide (is_Some r)) (runes s).

(** ** The record *)

Definition MaxNameLen : Z := 1024.
Definition MaxUserLen : Z := 1024.
Definition MaxSignatureLen : Z := Z.shiftl 64 10.
Definition MaxPublicKeyLen : Z := Z.shiftl 16 10.

(** A nil slice is the empty list: both are omitted from the encoding. *)
Record Reference := MkReference {
    RefName : bytes; RefKey : bytes; RefUser : bytes; RefCreatedAt : Z;
    RefSignature : bytes; RefPublicKey : bytes
  }.
#[export] Instance Reference_eq_dec : EqDecision Reference.
Proof. solve_decision. Defined.

Definition control (r : Z) : bool := (r <? 0x20) || (r =? 0x7f).

(** The checks of the loop over the runes of a name, in order. *)
Fixpoint check_name_runes (rs : list (option Z)) : res unit :=
  match rs with
  | [] => Ok tt
  | r :: rs' =>
      let r := default RuneError r in
      if r =? 0x40 then Err [EMsg "reference name must not contain '@'"]
      else if control r then Err [EMsg "reference name must not contain control characters"]
      else check_name_runes rs'
  end.
Definition ValidateName (name : bytes) : res unit :=
  if bool_decide (name = []) then Err [EMsg "reference name must not be empty"]
  else if MaxNameLen <? zlen name then Err [EMsg "reference name exceeds bytes"]
  else if negb (ValidString name) then Err [EMsg "reference name must be valid UTF-8"]
  else check_name_runes (runes name).

Definition ValidateUser (user : bytes) : res unit :=
  if bool_decide (user = []) then Err [EMsg "user must not be empty"]
  else if MaxUserLen <? zlen user then Err [EMsg "user exceeds bytes"]
  else if negb (ValidString user) then Err [EMsg "user must be valid UTF-8"]
  else if existsb (fun r => control (default RuneError r)) (runes user) then Err [EMsg "user must not contain control characters"]
  else Ok tt.

Definition validate (r : Reference) : res unit :=
  _ ← ValidateName (RefName r);
  _ ← Parse (RefKey r);
  _ ← (if bool_decide (RefUser r = []) then Ok tt else ValidateUser (RefUser r));
  if MaxSignatureLen <? zlen (RefSignature r) then Err [EMsg "reference signature exceeds bytes"]
  else if MaxPublicKeyLen <? zlen (RefPublicKey r) then Err [EMsg "reference public key exceeds bytes"]
  else Ok tt.

Section Codec.
Context `{Cbor Reference}.

Definition Encode (r : Reference) : res bytes := _ ← validate r; Marshal r.
Definition Decode (b : bytes) : res Reference :=
  r ← Unmarshal b;
  _ ← validate r;
  canonical ← Marshal r;
  if negb (bool_decide (canonical = b)) then Err [EMsg "reference encoding is not canonical"] else Ok r.

Definition unsigned (r : Reference) : Reference :=
  MkReference (RefName r) (RefKey r) (RefUser r) (RefCreatedAt r) [] (RefPublicKey r).
Definition SignaturePayload (r : Reference) : res bytes := Encode (unsigned r).
End Codec.

(** * What the loops over the runes see *)

Lemma lor_ge n a b : 0 <= n -> 2 ^ n <= a -> 0 <= b -> 2 ^ n <= Z.lor a b.
Proof.
  intros Hn Ha Hb. assert (0 < 2 ^ n) by lia. assert (0 < Z.lor a b) as Hp.
  { assert (0 <= Z.lor a b) by (apply Z.lor_nonneg; lia). assert (Z.lor a b <> 0) by (intros E; apply Z.lor_eq_0_iff in E; lia). lia. }
  apply Z.log2_le_pow2; [done|]. rewrite Z.log2_lor by lia. apply Z.log2_le_pow2 in Ha; lia.
Qed.
Lemma land_nonneg_r a b : 0 <= b -> 0 <= Z.land a b.
Proof. intros Hb. apply Z.land_nonneg. by right. Qed.
Lemma shiftl_ge a n : 0 <= n -> 1 <= a -> 2 ^ n <= Z.shiftl a n.
Proof. intros Hn Ha. rewrite Z.shiftl_mul_pow2 by done. nia. Qed.

(** The payload bits of the leading byte and of the second one do not all vanish. *)
Lemma accept_spec b0 lo hi n : accept b0 = Some (lo, hi, n) ->
  0x80 <= u8 b0 /\ 0x80 <= lo /\ hi <= 0xBF /\
  ((n = 2%nat /\ 2 <= Z.land (u8 b0) 0x1F) \/
    (n = 3%nat /\ (1 <= Z.land (u8 b0) 0x0F \/ lo = 0xA0)) \/
    (n = 4%nat /\ (1 <= Z.land (u8 b0) 0x07 \/ lo = 0x90))).
Proof. destruct b0; vm_compute; intros [= <- <- <-]; do 3 (split; [discriminate|]); intuition discriminate. Qed.
Lemma second_bits lo hi b1 : within lo hi b1 = true -> 0x80 <= lo ->
  0x80 <= u8 b1 /\ ((lo = 0xA0 \/ lo = 0x90) -> hi <= 0xBF -> 16 <= Z.land (u8 b1) 0x3F).
Proof.
  unfold within. intros Hw Hlo. split; [lia|]. intros Hl Hh. revert Hw. destruct Hl as [-> | ->]; clear Hlo; intros Hw.
  - assert (0xA0 <= u8 b1 <= 0xBF) as Hr by lia. clear Hw. revert Hr. by destruct b1; vm_compute; intros [? ?].
  - assert (0x90 <= u8 b1 <= 0xBF) as Hr by lia. clear Hw. revert Hr. by destruct b1; vm_compute; intros [? ?].
Qed.

(** What one decoding step reads: an ASCII byte, or only bytes and a rune beyond ASCII. *)
Lemma DecodeRune_spec s r n : DecodeRune s = Some (r, n) ->
  (n = 1%nat /\ exists b s', s = b :: s' /\ r = u8 b /\ u8 b < 0x80) \/
  (0x80 <= r /\ (0 < n <= length s)%nat /\ Forall (fun b => 0x80 <= u8 b) (take n s)).
Proof.
  destruct s as [|b0 s1]; [done|]. unfold DecodeRune. destruct (Z.ltb_spec (u8 b0) 0x80) as [Ha|Ha].
  { intros [= <- <-]. left. split; [done|]. by exists b0, s1. }
  destruct (accept b0) as [[[lo hi] m]|] eqn:EA; [|done]. cbn [mbind option_bind].
  destruct (accept_spec _ _ _ _ EA) as (_ & Hlo & Hhi & HC). intros E. right.
  destruct HC as [[-> Hb]|[[-> Hb]|[-> Hb]]].
  - destruct s1 as [|b1 s1]; [done|]. destruct (within lo hi b1) eqn:EW; [|done]. injection E as <- <-.
    destruct (second_bits _ _ _ EW Hlo) as [H1 _]. split_and!; [|cbn; lia|cbn; lia|by repeat constructor].
    change 0x80 with (2 ^ 7). apply lor_ge; [done| |by apply land_nonneg_r]. rewrite Z.shiftl_mul_pow2 by done. lia.
  - destruct s1 as [|b1 [|b2 s1]]; try done. destruct (within lo hi b1 && cont b2) eqn:EW; [|done].
    apply andb_true_iff in EW as [EW EC]. injection E as <- <-. destruct (second_bits _ _ _ EW Hlo) as [H1 H1'].
    assert (0x80 <= u8 b2) as H2 by (unfold cont in EC; lia).
    split_and!; [|cbn; lia|cbn; lia|by repeat constructor].
    apply (lor_ge 7); [done| |by apply land_nonneg_r]. destruct Hb as [Hb|Hb].
    + apply (lor_ge 7); [done| |apply Z.shiftl_nonneg; by apply land_nonneg_r]. pose proof (shiftl_ge _ 12 ltac:(lia) Hb). lia.
    + rewrite Z.lor_comm. apply (lor_ge 7); [done| |apply Z.shiftl_nonneg; by apply land_nonneg_r].
      specialize (H1' (or_introl Hb) Hhi). rewrite Z.shiftl_mul_pow2 by done. lia.
  - destruct s1 as [|b1 [|b2 [|b3 s1]]]; try done. destruct (within lo hi b1 && cont b2 && cont b3) eqn:EW; [|done].
    apply andb_true_iff in EW as [EW EC3]. apply andb_true_iff in EW as [EW EC]. injection E as <- <-.
    destruct (second_bits _ _ _ EW Hlo) as [H1 H1'].
    assert (0x80 <= u8 b2 /\ 0x80 <= u8 b3) as [H2 H3] by (unfold cont in EC, EC3; lia).
    split_and!; [|cbn; lia|cbn; lia|by repeat constructor].
    apply (lor_ge 7); [done| |by apply land_nonneg_r]. apply (lor_ge 7); [done| |apply Z.shiftl_nonneg; by apply land_nonneg_r].
    destruct Hb as [Hb|Hb].
    + apply (lor_ge 7); [done| |apply Z.shiftl_nonneg; by apply land_nonneg_r]. pose proof (shiftl_ge _ 18 ltac:(lia) Hb). lia.
    + rewrite Z.lor_comm. apply (lor_ge 7); [done| |apply Z.shiftl_nonneg; by apply land_nonneg_r].
      specialize (H1' (or_intror Hb) Hhi). rewrite Z.shiftl_mul_pow2 by done. lia.
Qed.

(** The ASCII runes of a valid string are its ASCII bytes. *)
Lemma runes_ascii_fuel fuel s c :
  (length s <= fuel)%nat -> Forall (fun r => is_Some r) (runes_fuel fuel s) -> c < 0x80 ->
  Some c ∈ runes_fuel fuel s <-> exists b, b ∈ s /\ u8 b = c.
Proof.
  revert s. induction fuel as [|fuel IH]; intros s Hf F Hc.
  { destruct s; [|cbn in Hf; lia]. cbn. split; [by intros ?%elem_of_nil|by intros (b & ?%elem_of_nil & _)]. }
  destruct s as [|b0 s]; [cbn; split; [by intros ?%elem_of_nil|by intros (b & ?%elem_of_nil & _)]|].
  cbn [runes_fuel] in F |- *. destruct (DecodeRune (b0 :: s)) as [[r n]|] eqn:ED; cycle 1.
  { apply Forall_cons_1 in F as [[? [=]] _]. }
  apply Forall_cons_1 in F as [_ F]. destruct (DecodeRune_spec _ _ _ ED) as [[-> (b & s' & [= <- <-] & -> & Ha)]|(Hr & Hn & FB)].
  - change (drop 1 (b0 :: s)) with s in *. cbn [length] in Hf. rewrite elem_of_cons, IH; [|lia|done..]. split.
    + intros [[= ->]|(b & Hb & <-)]; [exists b0; split; [by left|done]|exists b; split; [by right|done]].
    + intros (b & [->|Hb]%elem_of_cons & <-); [by left|right; by exists b].
  - rewrite elem_of_cons, IH; [|rewrite length_drop; cbn [length] in *; lia|done..]. split.
    + intros [[= ->]|(b & Hb & <-)]; [lia|]. exists b. split; [|done]. rewrite <- (take_drop n (b0 :: s)). apply elem_of_app. by right.
    + intros (b & Hb & <-). right. exists b. split; [|done]. rewrite <- (take_drop n (b0 :: s)) in Hb.
      apply elem_of_app in Hb as [Hb|Hb]; [|done]. rewrite list.Forall_forall in FB. specialize (FB b Hb). cbn beta in FB. lia.
Qed.
Lemma runes_ascii s c : ValidString s = true -> c < 0x80 -> Some c ∈ runes s <-> exists b, b ∈ s /\ u8 b = c.
Proof.
  intros HV. apply runes_ascii_fuel; [done|]. unfold ValidString in HV. rewrite forallb_forall in HV.
  apply list.Forall_forall. intros r Hr. apply list_elem_of_In in Hr. specialize (HV r Hr). by apply bool_decide_eq_true in HV.
Qed.

Definition clean_name_byte (b : byte) : Prop := u8 b <> 0x40 /\ 0x20 <= u8 b /\ u8 b <> 0x7f.

Lemma check_name_runes_spec rs : Forall (fun r => is_Some r) rs ->
  check_name_runes rs = Ok tt <-> forall r, Some r ∈ rs -> r <> 0x40 /\ control r = false.
Proof.
  induction 1 as [|r rs [c ->] F IH]; [cbn; split; [intros _ r Hr; by apply elem_of_nil in Hr|done]|]. cbn [check_name_runes]. change (default RuneError (Some c)) with c. cbv zeta.
  destruct (Z.eqb_spec c 0x40) as [->|Hc].
  { split; [done|]. intros Hr. destruct (Hr 0x40); [by left|done]. }
  destruct (control c) eqn:EC.
  { split; [done|]. intros Hr. destruct (Hr c) as [_ E]; [by left|congruence]. }
  rewrite IH. split.
  - intros Hr r [[= ->]|Hin]%elem_of_cons; [done|by apply Hr].
  - intros Hr r Hin. apply Hr. by right.
Qed.
Lemma ValidString_runes s : ValidString s = true -> Forall (fun r => is_Some r) (runes s).
Proof.
  unfold ValidString. rewrite forallb_forall. intros HV. apply list.Forall_forall. intros r Hr.
  apply list_elem_of_In in Hr. specialize (HV r Hr). by apply bool_decide_eq_true in HV.
Qed.

Lemma ValidateName_spec name :
  ValidateName name = Ok tt <->
  1 <= zlen name <= MaxNameLen /\ ValidString name = true /\ Forall clean_name_byte name.
Proof.
  unfold ValidateName. case_bool_decide as Hne.
  { subst. split; [done|]. intros [[H _] _]. by vm_compute in H. }
  destruct (Z.ltb_spec MaxNameLen (zlen name)) as [Hl|Hl]; [split; [done|]; intros [[_ ?] _]; lia|].
  destruct (ValidString name) eqn:EV; [|by split; [|intros (_ & ? & _)]]. cbn [negb].
  assert (1 <= zlen name) as H1 by (destruct name; [done|]; rewrite zlen_cons; pose proof (zlen_nonneg name); lia).
  rewrite check_name_runes_spec by (by apply ValidString_runes). rewrite list.Forall_forall. split.
  - intros Hr. split_and!; [done..|]. intros b Hb. unfold clean_name_byte.
    destruct (Z.lt_ge_cases (u8 b) 0x80) as [Ha|Ha]; [|lia].
    destruct (Hr (u8 b)) as [H2 H3]; [apply runes_ascii; [done|lia|by exists b]|]. unfold control in H3. lia.
  - intros (_ & _ & Hb) r Hin. destruct (Z.lt_ge_cases r 0x80) as [Ha|Ha]; [|unfold control; lia].
    apply runes_ascii in Hin as (b & Hb' & <-); [|done|lia]. destruct (Hb b Hb') as (? & ? & ?). unfold control. lia.
Qed.

(** * Properties *)

(** The marshaller's domain: validated records whose creation time is an int64. *)
Definition created_ok (r : Reference) : Prop := - 2 ^ 63 <= RefCreatedAt r < 2 ^ 63.
Definition reference_wf (r : Reference) : Prop := validate r = Ok tt /\ created_ok r.

Lemma Encode_inv `{Cbor Reference} r b : Encode r = Ok b -> validate r = Ok tt /\ Marshal r = Ok b.
Proof. unfold Encode. destruct (validate r) as [[]|e]; [by split|done]. Qed.
Lemma Decode_inv `{Cbor Reference} b r : Decode b = Ok r -> Encode r = Ok b /\ Unmarshal b = Ok r.
Proof.
  unfold Decode, Encode. destruct (Unmarshal b) as [r'|] eqn:EU; [|done]. cbn [mbind res_bind].
  destruct (validate r') as [[]|] eqn:EV; [|done]. cbn [mbind res_bind].
  destruct (Marshal r') as [c|] eqn:EM; [|done]. cbn [mbind res_bind]. case_bool_decide as Hc; [|done].
  cbn [negb]. intros [= <-]. rewrite EV. cbn [mbind res_bind]. by rewrite EM, Hc.
Qed.
Lemma Decode_Encode `{CborOk Reference reference_wf} r b : created_ok r -> Encode r = Ok b -> Decode b = Ok r.
Proof.
  intros Hr [EV EM]%Encode_inv. unfold Decode.
  rewrite (cbor_roundtrip (wf := reference_wf) r b) by (done || by split). cbn [mbind res_bind]. rewrite EV.
  cbn [mbind res_bind]. rewrite EM. cbn [mbind res_bind]. by rewrite bool_decide_eq_true_2.
Qed.

(** C32. A reference has exactly one encoding: what [Encode] writes [Decode] reads back, what
    [Decode] accepts is byte for byte what [Encode] writes for the record it returns - so no
    two encodings decode to the same record - and the name it returns is 1 to 1024 bytes of
    valid UTF-8 without '@' and control characters. *)
Theorem reference_canonical `{CborOk Reference reference_wf} :
  (forall r b, created_ok r -> Encode r = Ok b -> Decode b = Ok r) /\
  (forall b r, Decode b = Ok r -> Encode r = Ok b) /\
  (forall b1 b2 r, Decode b1 = Ok r -> Decode b2 = Ok r -> b1 = b2) /\
  (forall b r, Decode b = Ok r ->
     1 <= zlen (RefName r) <= MaxNameLen /\ ValidString (RefName r) = true /\ Forall clean_name_byte (RefName r)).
Proof.
  split_and!.
  - intros r b. apply Decode_Encode.
  - by intros b r [? _]%Decode_inv.
  - intros b1 b2 r [E1 _]%Decode_inv [E2 _]%Decode_inv. congruence.
  - intros b r [[EV _]%Encode_inv _]%Decode_inv. apply ValidateName_spec. unfold validate in EV.
    by destruct (ValidateName (RefName r)) as [[]|].
Qed.

(** A signature payload binds every field but the signature: two records with the same
    payload have the same name, key, user, creation time and public key, and the payload does
    not depend on the signature, so signing a record keeps it. *)
Theorem signature_payload_binds `{CborOk Reference reference_wf} r1 r2 p :
  created_ok r1 -> created_ok r2 -> SignaturePayload r1 = Ok p ->
  (SignaturePayload r2 = Ok p <-> unsigned r1 = unsigned r2).
Proof.
  intros H1 H2 E1. unfold SignaturePayload in *. split; [|by intros <-].
  intros E2. apply Decode_Encode in E1, E2; [congruence|done..].
Qed.

#[export] Instance codec_reference : Codec Reference :=
  codec_iso (fun r => (RefName r, (RefKey r, (RefUser r, (RefCreatedAt r, (RefSignature r, RefPublicKey r))))))
    (fun '(a, (b, (c, (d, (e, f))))) => MkReference a b c d e f).
#[export] Instance codec_reference_ok : CodecOk Reference.
Proof. apply codec_iso_ok. by intros []. Qed.
#[export] Instance cbor_reference : Cbor Reference := toy_cbor Reference.
#[export] Instance cbor_reference_ok : CborOk Reference reference_wf := toy_cbor_ok Reference reference_wf.

(** "a/b" in UTF-8, with a two-byte letter, naming a blob of three bytes. *)
Definition sample_reference : Reference :=
  MkReference [x61; x2f; xc3; xa9] (b32_bytes (mk32 ([x01; x03] ++ replicate 30 xaa))) [x6d; x40] 7 [x01] [].
Lemma reference_canonical_witness :
  exists b, Encode sample_reference = Ok b /\ Decode b = Ok sample_reference /\
    is_ok (ValidateName [x61; x40]) = false /\ is_ok (ValidateName [xc0; xa9]) = false.
Proof.
  destruct (Encode sample_reference) as [b|] eqn:E; [|by vm_compute in E]. exists b.
  split; [reflexivity|]. split; [|split; vm_compute; reflexivity].
  exact (proj1 reference_canonical sample_reference b ltac:(vm_compute; split; congruence) E).
Defined.
Lemma signature_payload_binds_witness :
  exists p, SignaturePayload sample_reference = Ok p /\ SignaturePayload (unsigned sample_reference) = Ok p.
Proof.
  destruct (SignaturePayload sample_reference) as [p|] eqn:E; [|by vm_compute in E]. exists p. split; [reflexivity|].
  assert (created_ok sample_reference) as HC by (vm_compute; split; congruence).
  exact (proj2 (signature_payload_binds sample_reference (unsigned sample_reference) p HC HC E) eq_refl).
Defined.
