(* ===== verification/Refstore.v ===== *)
(** The reference store (src/refstore/refstore.go): names to records in a Pebble database.
    The database is an interface; its documented behaviour is that of an ordered map whose
    writes may fail. *)
From S2P Require Import Prelude External.

(** ** github.com/cockroachdb/pebble/v2 *)

(** [db_set], [db_delete] and the commit of a batch of deletes take the sync option;
    [db_get] answers [None] for [pebble.ErrNotFound]; [db_iter] lists from [First] on. *)
Class Pebble := {
    DB : Type;
    db_set : bytes -> bytes -> bool -> M DB unit;
    db_get : bytes -> M DB (option bytes);
    db_delete : bytes -> bool -> M DB unit;
    db_iter : M DB (list (bytes * bytes));
    db_commit : list bytes -> bool -> M DB unit
  }.

(** A write that fails may have been applied; reads change nothing. *)
Class PebbleOk `{Pebble} := {
    contents : DB -> gmap bytes bytes;
    set_ok k v b db r db' : db_set k v b db = (r, db') ->
    contents db' = <[k:=v]> (contents db) \/ (r <> Ok tt /\ contents db' = contents db);
    get_ok k db r db' : db_get k db = (r, db') ->
    contents db' = contents db /\ forall o, r = Ok o -> o = contents db !! k;
    delete_ok k b db r db' : db_delete k b db = (r, db') ->
    contents db' = delete k (contents db) \/ (r <> Ok tt /\ contents db' = contents db);
    iter_ok db r db' : db_iter db = (r, db') ->
    contents db' = contents db /\
    forall l, r = Ok l -> StronglySorted bytes_lt (map fst l) /\ forall k v, (k, v) ∈ l <-> contents db !! k = Some v;
    commit_ok ks b db r db' : db_commit ks b db = (r, db') ->
    contents db' = filter (fun '(k, _) => k ∉ ks) (contents db) \/ (r <> Ok tt /\ contents db' = contents db);
  (* a database none of whose calls will fail *)
    healthy : DB -> Prop;
    set_healthy k v b db : healthy db -> is_ok (fst (db_set k v b db)) = true /\ healthy (snd (db_set k v b db));
    get_healthy k db : healthy db -> is_ok (fst (db_get k db)) = true /\ healthy (snd (db_get k db));
    delete_healthy k b db : healthy db -> is_ok (fst (db_delete k b db)) = true /\ healthy (snd (db_delete k b db));
    iter_healthy db : healthy db -> is_ok (fst (db_iter db)) = true /\ healthy (snd (db_iter db));
    commit_healthy ks b db : healthy db -> is_ok (fst (db_commit ks b db)) = true /\ healthy (snd (db_commit ks b db))
  }.

(** ** The store *)

Section Refstore.
Context `{Pebble}.

Record RefStore := MkRefStore { rs_db : DB; rs_sync : bool }.
Definition on_db {A} (m : bool -> M DB A) : M RefStore A := fun s =>
  let '(r, db) := m (rs_sync s) (rs_db s) in (r, MkRefStore db (rs_sync s)).

Definition Put (name record : bytes) : M RefStore unit := on_db (db_set name record).
Definition Get (name : bytes) : M RefStore bytes :=
  o ← on_db (fun _ => db_get name);
  lift (from_opt [ErrRefNotFound] o).
Definition Delete (name : bytes) : M RefStore unit :=
  _ ← Get name;
  on_db (db_delete name).
Record RefRecord := MkRefRecord { rr_Name : bytes; rr_Data : bytes }.
Definition All : M RefStore (list RefRecord) :=
  l ← on_db (fun _ => db_iter);
  mret (map (fun '(k, v) => MkRefRecord k v) l).
Definition Wipe : M RefStore unit :=
  l ← on_db (fun _ => db_iter);
  on_db (db_commit (map fst l)).
End Refstore.

(** ** A database over a list of failures: the first answers, then none *)

Record toy_db := MkToyDB { td_map : gmap bytes bytes; td_fails : list bool }.
Definition toy_call {A} (f : gmap bytes bytes -> A * gmap bytes bytes) : M toy_db A := fun db =>
  match td_fails db with
  | true :: fs => (Err [EExt "pebble"], MkToyDB (td_map db) fs)
  | fs => let '(x, m) := f (td_map db) in (Ok x, MkToyDB m (drop 1 fs))
  end.
Definition pair_le (a b : bytes * bytes) : Prop := bytes_le a.1 b.1.
#[export] Instance pair_le_dec : RelDecision pair_le := fun a b => bytes_le_dec a.1 b.1.
#[export] Instance pair_le_trans : Transitive pair_le.
Proof. intros a b c. apply bytes_le_trans. Qed.
#[export] Instance pair_le_total : Total pair_le.
Proof. intros a b. apply bytes_le_total. Qed.
#[export] Instance toy_pebble : Pebble := {
    DB := toy_db;
    db_set k v _ := toy_call (fun m => (tt, <[k:=v]> m));
    db_get k := toy_call (fun m => (m !! k, m));
    db_delete k _ := toy_call (fun m => (tt, delete k m));
    db_iter := toy_call (fun m => (merge_sort pair_le (map_to_list m), m));
    db_commit ks _ := toy_call (fun m => (tt, filter (fun '(k, _) => k ∉ ks) m))
  }.

Lemma toy_call_spec {A} (f : gmap bytes bytes -> A * gmap bytes bytes) db r db' :
  toy_call f db = (r, db') ->
  (r = Ok (fst (f (td_map db))) /\ td_map db' = snd (f (td_map db))) \/ ((forall x, r <> Ok x) /\ td_map db' = td_map db).
Proof.
  unfold toy_call. destruct (td_fails db) as [|[] fs]; [| by intros [= <- <-]; right|];
    destruct (f (td_map db)) as [x m]; intros [= <- <-]; by left.
Qed.
Lemma bytes_le_lt a b : bytes_le a b -> a <> b -> bytes_lt a b.
Proof. unfold bytes_le, bytes_lt. intros Hle Hne. destruct (bytes_compare a b) eqn:E; [|done..]. by apply bytes_compare_eq in E. Qed.
Lemma sorted_pairs (l : list (bytes * bytes)) :
  StronglySorted pair_le l -> NoDup (map fst l) -> StronglySorted bytes_lt (map fst l).
Proof.
  induction 1 as [|[k v] l HS IH F]; [constructor|]. cbn. intros [Hn ND]%list.NoDup_cons. constructor; [by apply IH|].
  apply list.Forall_forall. intros k' Hk'. pose proof Hk' as ([k2 v2] & -> & Hin)%list_elem_of_fmap.
  rewrite list.Forall_forall in F. apply bytes_le_lt; [by apply (F _ Hin)|]. by intros ->.
Qed.
Lemma toy_call_healthy {A} (f : gmap bytes bytes -> A * gmap bytes bytes) db :
  Forall (eq false) (td_fails db) -> is_ok (fst (toy_call f db)) = true /\ Forall (eq false) (td_fails (snd (toy_call f db))).
Proof.
  unfold toy_call. intros HF. destruct (td_fails db) as [|[] fs] eqn:E; [|by inversion HF|]; destruct (f (td_map db)) as [x m]; (split; [done|]); [done|].
  by inversion HF.
Qed.
#[export] Instance toy_pebble_ok : PebbleOk.
Proof.
  refine {| contents := td_map : DB -> _; healthy := fun db : DB => Forall (eq false) (td_fails db) |}.
  - intros k v b db r db' [[-> E]|[Hr E]]%toy_call_spec; [left|right]; done.
  - intros k db r db' [[-> E]|[Hr E]]%toy_call_spec; (split; [exact E|]); intros o Ho; [by injection Ho as <-|by destruct (Hr o)].
  - intros k b db r db' [[-> E]|[Hr E]]%toy_call_spec; [left|right]; done.
  - intros db r db' [[-> E]|[Hr E]]%toy_call_spec; (split; [exact E|]); intros l Hl; [|by destruct (Hr l)].
    injection Hl as <-. cbn [fst]. split.
    + apply sorted_pairs.
      * apply (StronglySorted_merge_sort pair_le).
      * rewrite merge_sort_Permutation. apply NoDup_fst_map_to_list.
    + intros k v. rewrite merge_sort_Permutation. apply elem_of_map_to_list.
  - intros ks b db r db' [[-> E]|[Hr E]]%toy_call_spec; [left|right]; done.
  - intros k v b db. apply toy_call_healthy.
  - intros k db. apply toy_call_healthy.
  - intros k b db. apply toy_call_healthy.
  - intros db. apply toy_call_healthy.
  - intros ks b db. apply toy_call_healthy.
Defined.

(** * The store is a map *)

Section Spec.
Context `{PebbleOk}.
Definition refs (s : RefStore) : gmap bytes bytes := contents (rs_db s).

Lemma Put_out name rec s r s' : Put name rec s = (r, s') ->
  refs s' = <[name:=rec]> (refs s) \/ (r <> Ok tt /\ refs s' = refs s).
Proof. unfold Put, on_db, refs. destruct (db_set _ _ _ _) as [r1 db] eqn:E. intros [= <- <-]. by eapply set_ok. Qed.
Lemma Get_out name s r s' : Get name s = (r, s') ->
  refs s' = refs s /\ match r with Ok v => refs s !! name = Some v | Err _ => True end.
Proof.
  unfold Get, on_db, refs, mbind, M_bind. destruct (db_get name (rs_db s)) as [r1 db] eqn:E.
  apply get_ok in E as [EC HO]. destruct r1 as [o|e]; intros [= <- <-]; (split; [done|]); [|done].
  rewrite <- (HO o eq_refl). by destruct o.
Qed.
Lemma Delete_out name s r s' : Delete name s = (r, s') ->
  (refs s' = delete name (refs s) /\ is_Some (refs s !! name)) \/ (r <> Ok tt /\ refs s' = refs s).
Proof.
  unfold Delete, mbind at 1, M_bind at 1. destruct (Get name s) as [r1 s1] eqn:E1. apply Get_out in E1 as [EC HG].
  destruct r1 as [v|e]; [|intros [= <- <-]; by right]. unfold on_db. destruct (db_delete _ _ _) as [r2 db] eqn:E2.
  intros [= <- <-]. apply delete_ok in E2. unfold refs in *. cbn [rs_db]. rewrite EC in E2.
  destruct E2 as [->|[? ->]]; [left|by right]. by rewrite HG.
Qed.
Lemma All_out s r s' : All s = (r, s') ->
  refs s' = refs s /\
  match r with
  | Ok l => StronglySorted bytes_lt (map rr_Name l) /\ forall k v, MkRefRecord k v ∈ l <-> refs s !! k = Some v
  | Err _ => True
  end.
Proof.
  unfold All, on_db, refs, mbind, M_bind. destruct (db_iter (rs_db s)) as [r1 db] eqn:E.
  apply iter_ok in E as [EC HL]. destruct r1 as [l|e]; intros [= <- <-]; (split; [done|]); [|done].
  destruct (HL l eq_refl) as [HS HI]. split.
  - rewrite map_map. erewrite map_ext; [exact HS|]. by intros [].
  - intros k v. rewrite <- HI. split.
    + by intros ([k' v'] & [= -> ->] & Hin)%list_elem_of_fmap.
    + intros Hin. by apply (list_elem_of_fmap_2 (fun '(k, v) => MkRefRecord k v)) in Hin.
Qed.
Lemma Wipe_out s r s' : Wipe s = (r, s') -> refs s' = ∅ \/ (r <> Ok tt /\ refs s' = refs s).
Proof.
  unfold Wipe, on_db, refs, mbind, M_bind. destruct (db_iter (rs_db s)) as [r1 db] eqn:E.
  apply iter_ok in E as [EC HL]. destruct r1 as [l|e]; [|intros [= <- <-]; by right].
  cbn [rs_db rs_sync]. destruct (db_commit _ _ _) as [r2 db2] eqn:E2. intros [= <- <-]. cbn [rs_db].
  apply commit_ok in E2. rewrite EC in E2. destruct E2 as [E2|[? E2]]; [left|by right]. rewrite E2.
  apply map_eq. intros k. rewrite lookup_empty. apply map_lookup_filter_None. right. intros v Hv Hk. apply Hk.
  destruct (HL l eq_refl) as [_ HI]. apply HI in Hv. by apply (list_elem_of_fmap_2 fst) in Hv.
Qed.

(** ** Calls and what a map answers *)

Inductive refop := OPut (name record : bytes) | OGet (name : bytes) | ODelete (name : bytes) | OAll | OWipe.
Inductive refans := ADone | AValue (b : bytes) | AList (l : list RefRecord).
Definition exec (op : refop) : M RefStore refans :=
  match op with
  | OPut name record => _ ← Put name record; mret ADone
  | OGet name => v ← Get name; mret (AValue v)
  | ODelete name => _ ← Delete name; mret ADone
  | OAll => l ← All; mret (AList l)
  | OWipe => _ ← Wipe; mret ADone
  end.
Fixpoint exec_all (ops : list refop) (s : RefStore) : list (res refans) * RefStore :=
  match ops with
  | [] => ([], s)
  | op :: ops => let '(r, s) := exec op s in let '(rs, s) := exec_all ops s in (r :: rs, s)
  end.

Definition map_answers (op : refop) (m : gmap bytes bytes) (r : res refans) (m' : gmap bytes bytes) : Prop :=
  match op with
  | OPut name record => r = Ok ADone /\ m' = <[name:=record]> m
  | OGet name => r = match m !! name with Some v => Ok (AValue v) | None => Err [ErrRefNotFound] end /\ m' = m
  | ODelete name => r = match m !! name with Some _ => Ok ADone | None => Err [ErrRefNotFound] end /\ m' = delete name m
  | OAll => exists l, r = Ok (AList l) /\ m' = m /\ StronglySorted bytes_lt (map rr_Name l) /\ forall k v, MkRefRecord k v ∈ l <-> m !! k = Some v
  | OWipe => r = Ok ADone /\ m' = ∅
  end.
Fixpoint map_answers_all (ops : list refop) (m : gmap bytes bytes) (rs : list (res refans)) (m' : gmap bytes bytes) : Prop :=
  match ops, rs with
  | [], [] => m' = m
  | op :: ops, r :: rs => exists m1, map_answers op m r m1 /\ map_answers_all ops m1 rs m'
  | _, _ => False
  end.

(** Only an unhealthy database makes a call answer anything else. *)
Definition unhealthy (s : RefStore) (r : res refans) : Prop := is_ok r = false /\ ~ healthy (rs_db s).

Ltac pebble_call := match goal with
  | Hh : healthy ?db |- context [db_set ?k ?v ?b ?db] => pose proof (set_healthy k v b db Hh) as [? ?]; destruct (db_set k v b db) as [[?|?] ?]
  | Hh : healthy ?db |- context [db_get ?k ?db] => pose proof (get_healthy k db Hh) as [? ?]; destruct (db_get k db) as [[?|?] ?]
  | Hh : healthy ?db |- context [db_delete ?k ?b ?db] => pose proof (delete_healthy k b db Hh) as [? ?]; destruct (db_delete k b db) as [[?|?] ?]
  | Hh : healthy ?db |- context [db_iter ?db] => pose proof (iter_healthy db Hh) as [? ?]; destruct (db_iter db) as [[?|?] ?]
  | Hh : healthy ?db |- context [db_commit ?k ?b ?db] => pose proof (commit_healthy k b db Hh) as [? ?]; destruct (db_commit k b db) as [[?|?] ?]
  end; cbn [fst snd is_ok rs_db rs_sync] in *; try done.
Lemma exec_healthy op s : healthy (rs_db s) ->
  healthy (rs_db (snd (exec op s))) /\
  (is_ok (fst (exec op s)) = true \/ exists name, (op = OGet name \/ op = ODelete name) /\ fst (exec op s) = Err [ErrRefNotFound]).
Proof.
  intros Hh. destruct op as [name rec|name|name| |]; cbn [exec]; unfold Put, Delete, Get, All, Wipe, on_db, mbind, M_bind.
  - pebble_call. by split; [|left].
  - pebble_call. destruct x as [v|]; cbn; (split; [done|]); [by left|right; exists name; by split_and!; [left|..]].
  - pebble_call. destruct x as [v|]; cbn -[db_delete]; [pebble_call; by split; [|left]|].
    split; [done|]. right. exists name. by split_and!; [right|..].
  - pebble_call. by split; [|left].
  - pebble_call. pebble_call. by split; [|left].
Qed.

Lemma Get_absent name s s' e : healthy (rs_db s) -> Get name s = (Err e, s') -> e = [ErrRefNotFound] /\ refs s !! name = None.
Proof.
  intros Hh. unfold Get, on_db, mbind, M_bind. pose proof (get_healthy name (rs_db s) Hh) as [Ho _].
  destruct (db_get name (rs_db s)) as [[o|] db] eqn:E; [|done]. apply get_ok in E as [_ HO]. unfold refs. rewrite <- (HO o eq_refl).
  destruct o; [done|]. by intros [= <- <-].
Qed.

Lemma Get_error name s s' e : Get name s = (Err e, s') -> (refs s !! name = None /\ e = [ErrRefNotFound]) \/ ~ healthy (rs_db s).
Proof.
  intros E. destruct (refs s !! name) as [v|] eqn:Ev.
  - right. intros Hy. apply (Get_absent _ _ _ _ Hy) in E as [_ ?]. congruence.
  - unfold Get, on_db, mbind, M_bind in E. destruct (db_get name (rs_db s)) as [[o|e1] db] eqn:EG.
    + left. split; [done|]. apply get_ok in EG as [_ HO]. unfold refs in Ev. rewrite <- (HO o eq_refl) in Ev. subst o. by injection E as <- <-.
    + right. intros Hy. pose proof (get_healthy name _ Hy) as [Ho _]. by rewrite EG in Ho.
Qed.

Lemma exec_answers op s r s' : exec op s = (r, s') ->
  map_answers op (refs s) r (refs s') \/ (unhealthy s r /\ (refs s' = refs s \/ exists r0, map_answers op (refs s) r0 (refs s'))).
Proof.
  intros E. unfold unhealthy. pose proof (exec_healthy op s) as Hh. rewrite E in Hh. cbn [fst snd] in Hh.
  destruct op as [name rec|name|name| |]; cbn [exec] in E; unfold mbind, M_bind in E.
  - destruct (Put name rec s) as [[[]|e] s1] eqn:EP; apply Put_out in EP; injection E as <- <-.
    + left. destruct EP as [EP|[? _]]; done.
    + right. split; [split; [done|]; by intros [_ [?|(n & [?|?] & _)]]%Hh|].
      destruct EP as [EP|[_ EP]]; [right; by exists (Ok ADone)|by left].
  - destruct (Get name s) as [[v|e] s1] eqn:EP; pose proof (Get_out _ _ _ _ EP) as [HE HG]; injection E as <- <-; cbn [map_answers].
    + left. by rewrite HG.
    + destruct (Get_error _ _ _ _ EP) as [[Ev ->]|Hn]; [left; by rewrite Ev|right]. split; [done|by left].
  - destruct (Delete name s) as [[[]|e] s1] eqn:ED; pose proof (Delete_out _ _ _ _ ED) as HD; injection E as <- <-; cbn [map_answers].
    + left. by destruct HD as [[-> [v ->]]|[? _]].
    + unfold Delete, mbind, M_bind in ED. destruct (Get name s) as [[v|e1] s2] eqn:EP; pose proof (Get_out _ _ _ _ EP) as [HE HG].
      * right. split; [split; [done|]|].
        -- intros Hy. destruct (Hh Hy) as [_ [?|(n & _ & He)]]; [done|]. pose proof (exec_healthy (OGet name) s Hy) as [Hy2 _].
          cbn [exec] in Hy2. unfold mbind, M_bind in Hy2. rewrite EP in Hy2. cbn [snd mret M_ret] in Hy2.
          unfold on_db in ED. pose proof (delete_healthy name (rs_sync s2) _ Hy2) as [Ho _]. by destruct (db_delete _ _ _) as [[] ?].
        -- destruct HD as [[-> [w Hw]]|[_ ->]]; [right; exists (Ok ADone); by rewrite Hw|by left].
      * injection ED as <- <-. destruct (Get_error _ _ _ _ EP) as [[Ev ->]|Hn]; [left|right; split; [done|by left]].
        rewrite Ev, HE. by rewrite delete_id.
  - destruct (All s) as [[l|e] s1] eqn:EA; pose proof (All_out _ _ _ EA) as [HE HL]; injection E as <- <-; cbn [map_answers].
    + left. exists l. by split_and!; [..|apply HL|apply HL].
    + right. split; [split; [done|]; by intros [_ [?|(n & [?|?] & _)]]%Hh|by left].
  - destruct (Wipe s) as [[[]|e] s1] eqn:EW; apply Wipe_out in EW; injection E as <- <-; cbn [map_answers].
    + left. destruct EW as [EW|[? _]]; done.
    + right. split; [split; [done|]; by intros [_ [?|(n & [?|?] & _)]]%Hh|].
      destruct EW as [EW|[_ EW]]; [right; by exists (Ok ADone)|by left].
Qed.

Lemma exec_all_answers ops s : healthy (rs_db s) ->
  map_answers_all ops (refs s) (fst (exec_all ops s)) (refs (snd (exec_all ops s))).
Proof.
  revert s. induction ops as [|op ops IH]; intros s Hh; [done|]. cbn [exec_all].
  destruct (exec op s) as [r s1] eqn:E. pose proof (exec_healthy op s Hh) as [Hh1 _]. rewrite E in Hh1. cbn [snd] in Hh1.
  specialize (IH s1 Hh1). destruct (exec_all ops s1) as [rs s2]. cbn [fst snd map_answers_all] in *. exists (refs s1). split; [|done].
  by destruct (exec_answers _ _ _ _ E) as [?|[[_ ?] _]].
Qed.
End Spec.

(** C33. The reference store is a map: over a database that behaves as documented and does not
    fail, any sequence of calls answers as a map does - [Get] and [Delete] of an absent name
    [ErrNotFound] and nothing else, [All] the whole map in strict byte order of the names,
    [Wipe] the empty map - and over one that may fail, a call answers as the map does or
    reports an error of the database, with its effect applied whole or not at all. *)
Theorem refstore_is_a_map `{PebbleOk} ops s :
  (healthy (rs_db s) -> map_answers_all ops (refs s) (fst (exec_all ops s)) (refs (snd (exec_all ops s)))) /\
  (forall op r s', exec op s = (r, s') ->
     map_answers op (refs s) r (refs s') \/ (unhealthy s r /\ (refs s' = refs s \/ exists r0, map_answers op (refs s) r0 (refs s')))).
Proof. split; [apply exec_all_answers|intros op r s'; apply exec_answers]. Qed.

Definition no_refs : RefStore (H := toy_pebble) := @MkRefStore toy_pebble (MkToyDB ∅ []) true.
Lemma refstore_is_a_map_witness :
  map_answers_all [OPut [x61] [x01]; ODelete [x62]; OAll] ∅
    (fst (exec_all [OPut [x61] [x01]; ODelete [x62]; OAll] no_refs)) (refs (snd (exec_all [OPut [x61] [x01]; ODelete [x62]; OAll] no_refs))) /\
  fst (exec_all [OPut [x61] [x01]; ODelete [x62]; OAll] no_refs) = [Ok ADone; Err [ErrRefNotFound]; Ok (AList [MkRefRecord [x61] [x01]])].
Proof. split; [exact (proj1 (refstore_is_a_map [OPut [x61] [x01]; ODelete [x62]; OAll] no_refs) (List.Forall_nil _))|reflexivity]. Defined.
