(* ===== verification/Collector.v ===== *)
(** The collector (src/gc): options and pacing, the reference roots, the mark, one cycle, the
    reference hook [PrepareRef], and the reports [Status] and [Why]. Everything here runs
    alone; the interleaving of a cycle with writers is in Barrier.v. *)
From Stdlib Require Import Floats.SpecFloat.
From S2P Require Import Prelude External Concrete Chunker Key Crc32 Record Pack Objects Readers Walk Reference Refstore Footer Disk Scan Store StoreInv StoreSpec Frame Provenance Scrub Marks Compact Sweep Segments.

(** ** gc.go *)

(** Durations are nanoseconds. *)
Definition Second : Z := 10 ^ 9.
Definition DefaultGrace : Z := 3600 * Second.
Definition fdiv : spec_float -> spec_float -> spec_float := SFdiv 53 1024.
Definition DefaultGarbage : spec_float := fdiv (float64 1) (float64 2).
Definition minFreeGarbage : spec_float := fdiv (float64 1) (float64 10).

Record Options := MkOptions {
    Grace : Z; Garbage : spec_float; MinFree : Z; Rate : Z; Interval : Z; Jobs : Z
  }.
Definition withDefaults (gomaxprocs : Z) (o : Options) : Options :=
  MkOptions (if Grace o <=? 0 then DefaultGrace else Grace o)
    (if SFleb (Garbage o) (float64 0) then DefaultGarbage else Garbage o)
    (MinFree o) (Rate o) (Interval o) (if Jobs o <=? 0 then gomaxprocs else Jobs o).

Definition throttleOwed (n rate : Z) : Z :=
  s64 (s64 (Z.quot n rate * Second) + Z.quot (s64 (Z.rem n rate * Second)) rate).
(** [pace]: the bytes so far and, [elapsed] after the start, how long to sleep. *)
Definition pace (rate elapsed n bytes : Z) : Z * Z :=
  if rate <=? 0 then (bytes, 0)
  else
    let bytes := s64 (bytes + n) in
    let ahead := s64 (throttleOwed bytes rate - elapsed) in
    (bytes, if 0 <? ahead then ahead else 0).

(** [unix.Statfs]: blocks, block size and available blocks, or an error. *)
Definition freeBelow (st : option (Z * Z * Z)) (min : Z) : bool :=
  match st with
  | None => false
  | Some (blocks, bsize, bavail) =>
      let min := if min =? 0 then u64 (blocks * bsize) / 20 else min in
      u64 (bavail * bsize) <? min
  end.

Section Collector.
Context `{Blake3, Zstd, Fuse} `{Cbor (list bytes), Cbor (list DirPair), Cbor (list Entry), Cbor Reference} `{Errgroup} `{Pebble}.

(** The stores a collector sits next to. *)
Record Stores := MkStores { c_objects : Store; c_refs : RefStore }.
Definition on_objects {A} (m : M Store A) : M Stores A := fun w =>
  let '(r, s) := m (c_objects w) in (r, MkStores s (c_refs w)).
Definition on_refs {A} (m : M RefStore A) : M Stores A := fun w =>
  let '(r, s) := m (c_refs w) in (r, MkStores (c_objects w) s).

(** ** collector.go: roots and mark *)

Definition root_of (r : RefRecord) : res Key :=
  ref ← Decode (rr_Data r); Parse (RefKey ref).
Definition roots : M Stores (list Key) :=
  recs ← on_refs All; lift (mapM root_of recs).

(** One turn of the loop, after the pop; the head of the list is the top of the stack. *)
Definition mark_one (k : Key) (live : MarkSet) (stack : list Key) : M Store (MarkSet * list Key) :=
  let '(newly, present, live) := Mark k live in
  if negb present then fail [EMsg "gc: mark: object missing from store"]
  else if negb newly then mret (live, stack)
  else if is_leaf k then mret (live, stack)
  else
  data ← Store.Get k;
  children ← lift (ChildKeys k data);
  mret (live, rev children ++ stack).

(** [ctx n] is the answer of [ctx.Err()] on turn [n]. *)
Fixpoint mark_loop (ctx : nat -> option error) (fuel n : nat) (live : MarkSet) (stack : list Key) : M Store MarkSet :=
  match stack with
  | [] => mret live
  | k :: stack =>
    match fuel with
    | O => fail [OutOfFuel]
    | S fuel =>
      _ ← lift (match (if (n mod 1024 =? 0)%nat then ctx n else None) with Some e => Err e | None => Ok tt end);
      '(live, stack) ← mark_one k live stack;
      mark_loop ctx fuel (S n) live stack
    end
  end.
Definition markFrom (ctx : nat -> option error) (fuel : nat) (live : MarkSet) (root : Key) : M Store MarkSet :=
  mark_loop ctx fuel 0 live [root].

Fixpoint mark_roots (ctx : nat -> option error) (fuel : nat) (live : MarkSet) (rs : list Key) : M Store MarkSet :=
  match rs with
  | [] => mret live
  | root :: rs => live ← markFrom ctx fuel live root; mark_roots ctx fuel live rs
  end.
Definition markLive (ctx : nat -> option error) (fuel : nat) (rs : list Key) : M Store MarkSet :=
  live ← gets NewMarkSet; mark_roots ctx fuel live rs.

(** ** collector.go: PrepareRef *)

(** The lock is held until the caller commits or aborts. *)
Definition PrepareRef (fuel : nat) (root : Key) : M Store unit :=
  keys ← (fun s => (CheckComplete fuel root (fun k => fst (Store.Get k s)) (Has s), s));
  ObserveKeys keys.

(** ** cycle.go *)

Definition catch_world {A} (m : M Stores A) (h : error -> M Stores A) : M Stores A := fun s =>
  match m s with (Ok x, s') => (Ok x, s') | (Err e, s') => h e s' end.
(** [if err != nil { c.objects.AbortBarrier(); return err }] *)
Definition aborting {A} (m : M Stores A) : M Stores A :=
  catch_world m (fun e => _ ← on_objects AbortBarrier; fail e).

(** Under the reference lock. *)
Definition snapshot : M Stores (list Key) :=
  _ ← on_objects BeginBarrier; aborting roots.

Definition threshold (opts : Options) (garbage : spec_float) (low : bool) : spec_float :=
  if SFltb garbage (float64 0) then (if low then minFreeGarbage else Garbage opts) else garbage.

Record CycleStats := MkCycleStats {
    Threshold : spec_float; cs_Marked : Z; Scored : Z; Reaped : list Z;
    CopiedRecords : Z; CopiedBytes : Z; FreedBytes : Z
  }.
(** What the run of the sweep's goroutines was, and the files' modification times. *)
Record SweepEnv := MkSweepEnv { se_procs : nat; se_sched : list choice; se_modTime : bytes -> res Z }.

(** Under the reference lock; the statistics are returned next to any error. *)
Definition sweep_phase (env : SweepEnv) (opts : Options) (now : Z) (th : spec_float) (live : MarkSet) (w : Stores)
  : res unit * CycleStats * Stores :=
  let copts := MkCompactOpts th (Some (now - Grace opts)) in
  let '(r, sw) := Compact (se_modTime env) (se_procs env) (se_sched env) (MarkContains live) copts (MkSweep (c_objects w) no_stats) in
  let cs := sw_stats sw in
  (r, MkCycleStats th (Marked live) (SegmentsScanned cs) (Victims cs) (RecordsCopied cs) (s64 (BytesCopied cs)) (s64 (BytesFreed cs)),
    MkStores (sw_store sw) (c_refs w)).

(** [ctx_end]: [ctx.Err()] before the sweep. *)
Definition cycle (env : SweepEnv) (opts : Options) (now : Z) (garbage : spec_float) (low : bool)
  (ctx : nat -> option error) (ctx_end : option error) (fuel : nat) (w : Stores) : res unit * CycleStats * Stores :=
  let th := threshold opts garbage low in
  let none := MkCycleStats th 0 0 [] 0 0 0 in
  match (rs ← snapshot; aborting (on_objects (markLive ctx fuel rs))) w with
  | (Err e, w) => (Err e, none, w)
  | (Ok live, w) =>
    let marked := MkCycleStats th (Marked live) 0 [] 0 0 0 in
    match ctx_end with
    | Some e => (Err e, marked, snd (on_objects AbortBarrier w))
    | None => sweep_phase env opts now th live w
    end
  end.

(** ** status.go *)

(** [reaches], with the visited set and the stack of the loop. *)
Fixpoint reaches_loop (fuel : nat) (k : Key) (visited : gset Key) (stack : list Key) : M Store bool :=
  match stack with
  | [] => mret false
  | cur :: stack =>
    match fuel with
    | O => fail [OutOfFuel]
    | S fuel =>
      if bool_decide (cur = k) then mret true
      else if bool_decide (cur ∈ visited) then reaches_loop fuel k visited stack
      else if is_leaf cur then reaches_loop fuel k ({[cur]} ∪ visited) stack
      else
        data ← Store.Get cur;
        children ← lift (ChildKeys cur data);
        reaches_loop fuel k ({[cur]} ∪ visited) (rev children ++ stack)
    end
  end.
Definition reaches (fuel : nat) (root k : Key) : M Store bool := reaches_loop fuel k ∅ [root].

Fixpoint why_loop (fuel : nat) (k : Key) (recs : list RefRecord) : M Store (list bytes) :=
  match recs with
  | [] => mret []
  | r :: recs =>
    root ← lift (root_of r);
    found ← reaches fuel root k;
    names ← why_loop fuel k recs;
    mret (if found : bool then rr_Name r :: names else names)
  end.
Definition Why (fuel : nat) (k : Key) : M Stores (list bytes) :=
  recs ← on_refs All;
  names ← on_objects (why_loop fuel k recs);
  mret (merge_sort bytes_le names).

Record PackStatus := MkPackStatus {
    ps_ID : Z; ps_Sealed : Z; Body : Z; ps_Keys : Z; Live : Z; ps_Garbage : spec_float; Eligible : bool
  }.
Record GcStatus := MkStatus {
    Packs : list PackStatus; st_LiveBytes : Z; GarbageBytes : Z; Refs : Z; st_Marked : Z
  }.

(** Times are ordered integers; a pack that is not listed has the zero time, [zero]. *)
Definition pack_status (horizon zero : Z) (sealedAt : gmap Z Z) (sl : SegmentLiveness) : PackStatus :=
  let body := s64 (u64 (LiveBytes sl + DeadBytes sl)) in
  let sealed := default zero (sealedAt !! sl_ID sl) in
  MkPackStatus (sl_ID sl) sealed body (u64 (LiveKeys sl + DeadKeys sl)) (s64 (LiveBytes sl))
  (if 0 <? body then fdiv (float64 (DeadBytes sl)) (float64 body) else float64 0) (sealed <? horizon).
Definition add_pack (horizon zero : Z) (sealedAt : gmap Z Z) (st : GcStatus) (sl : SegmentLiveness) : GcStatus :=
  if negb (sl_Sealed sl) then st
  else
  let ps := pack_status horizon zero sealedAt sl in
  MkStatus (Packs st ++ [ps]) (s64 (st_LiveBytes st + Live ps)) (s64 (GarbageBytes st + s64 (DeadBytes sl))) (Refs st) (st_Marked st).
Definition Status (modTime : bytes -> res Z) (now zero : Z) (opts : Options) (ctx : nat -> option error) (fuel : nat) : M Stores GcStatus :=
  recs ← on_refs All;
  rs ← roots;
  live ← on_objects (markLive ctx fuel rs);
  report ← on_objects (reads (Liveness (MarkContains live)));
  segs ← on_objects (reads (Segments modTime));
  let sealedAt := fold_left (fun m si => <[si_ID si:=si_Sealed si]> m) segs (∅ : gmap Z Z) in
  mret (fold_left (add_pack (now - Grace opts) zero sealedAt) report (MkStatus [] 0 0 (zlen recs) (Marked live))).
End Collector.

(** * Pacing *)

(** The pacing arithmetic is exact: for a rate whose product with a second fits an int64,
    and a total that fits as well, the time a copy of [n] bytes should have taken is
    n * 10^9 / rate nanoseconds, rounded down, although n * 10^9 itself may overflow. Above
    that rate the code's own product overflows: the remainder's share comes out negative. *)
Theorem throttle_owed_exact n rate :
  0 <= n -> 0 < rate -> rate * Second < 2 ^ 63 -> (n / rate + 1) * Second < 2 ^ 63 ->
  throttleOwed n rate = n * Second / rate /\ throttleOwed (2 ^ 34 - 1) (2 ^ 34) < 0.
Proof.
  intros Hn Hr Hb Hq. split; [|vm_compute; reflexivity]. unfold throttleOwed.
  rewrite Z.quot_div_nonneg, Z.rem_mod_nonneg by lia.
  pose proof (Z.div_mod n rate ltac:(lia)) as D. pose proof (Z.mod_pos_bound n rate Hr) as HM.
  pose proof (Z.div_pos n rate Hn Hr) as HQ. set (q := n / rate) in *. set (m := n mod rate) in *.
  assert (0 < Second) as HS by done. assert (0 <= m * Second < 2 ^ 63) as HmS by nia.
  rewrite (s64_id (m * Second)) by lia. rewrite Z.quot_div_nonneg by lia.
  assert (0 <= m * Second / rate < Second) as Hd.
  { split; [apply Z.div_pos; lia|]. apply Z.div_lt_upper_bound; [lia|nia]. }
  rewrite (s64_id (q * Second)) by nia. rewrite s64_id by nia.
  rewrite D, Z.mul_add_distr_r, (Z.mul_comm rate q), <- Z.mul_assoc, (Z.mul_comm rate), Z.mul_assoc.
  by rewrite Z.div_add_l by lia.
Qed.
Lemma throttle_owed_exact_witness : 2 ^ 63 < 2 ^ 34 * Second /\ throttleOwed (2 ^ 34) (2 ^ 20) = 2 ^ 34 * Second / 2 ^ 20.
Proof.
  split; [vm_compute; reflexivity|].
  exact (proj1 (throttle_owed_exact (2 ^ 34) (2 ^ 20) ltac:(done) ltac:(done) ltac:(vm_compute; reflexivity) ltac:(vm_compute; reflexivity))).
Defined.
