(* ===== verification/Restart.v ===== *)
(** What keeps a store's directory in order: opening it again after a clean exit or a crash
    (src/packstore/packstore.go), a sweep that reports success (compact.go), and a collection
    cycle (src/gc/cycle.go). Complements Reopen.v, which has the writes. *)
From Stdlib Require Import Floats.SpecFloat.
From S2P Require Import Prelude External Concrete Key Crc32 Record Pack Footer Disk Scan Store StoreInv StoreSpec Reopen Objects Reference Refstore Frame Provenance Marks Compact Sweep Collector.

(** * Opening again *)

Section Reopened.
Context `{Blake3} `{HZs : ZstdOk} `{HFu : FuseOk}.

(** The directory as the next process finds it: [crash], and what was durable still is. *)
Record restart (d d' : Disk) : Prop := {
    rt_crash : crash d d';
    rt_ino : next_ino d' = next_ino d;
    rt_synced i f f' : inodes d !! i = Some f -> inodes d' !! i = Some f' ->
    (f_synced f <= f_synced f')%nat /\ ((f_synced f <= length (f_data f))%nat -> (f_synced f' <= length (f_data f'))%nat)
  }.

Lemma restart_durable d d' i b : restart d d' -> durable d i b -> durable d' i b.
Proof.
  intros [(_ & _ & HC) _ HS] Hd. destruct (HC _ _ Hd) as (m & f' & Hm & Hf' & Ed). destruct (HS _ _ _ Hd Hf') as [H1' H2'].
  cbn [f_synced f_data] in *. rewrite take_ge in Ed by done. unfold durable. rewrite Hf'. destruct f' as [b' n]. cbn in *. subst b'.
  do 2 f_equal. specialize (H2' (le_n _)). lia.
Qed.
Lemma restart_refl d : restart d (set_faults [] d).
Proof. split; [apply crash_none|done|]. intros i f f' Hi. cbn [inodes set_faults]. rewrite Hi. intros [= <-]. split; [lia|done]. Qed.
Lemma restart_trans d1 d2 d3 : restart d1 d2 -> restart d2 d3 -> restart d1 d3.
Proof.
  intros [(_ & N1 & C1) I1 S1] [(F2 & N2 & C2) I2 S2]. split; [split; [done|split; [congruence|]]|congruence|].
  - intros i f Hi. destruct (C1 _ _ Hi) as (m1 & f1 & Hm1 & Hi1 & E1). destruct (C2 _ _ Hi1) as (m2 & f2 & Hm2 & Hi2 & E2).
    destruct (S1 _ _ _ Hi Hi1) as [HS _]. exists (Nat.min m2 m1), f2. split; [lia|]. split; [done|]. by rewrite E2, E1, take_take.
  - intros i f f3 Hi Hi3. destruct (C1 _ _ Hi) as (m1 & f1 & _ & Hi1 & _). destruct (S1 _ _ _ Hi Hi1) as [? ?]. destruct (S2 _ _ _ Hi1 Hi3) as [? ?]. split; [lia|auto].
Qed.
Lemma truncate_durable d i b : durable d i b -> durable (do_truncate i (zlen b) d) i b.
Proof.
  intros Hd. unfold durable, do_truncate, set_file, file_of. cbn [inodes]. rewrite lookup_insert_eq, Hd. cbn. do 2 f_equal.
  - unfold truncate_to, zlen. rewrite Nat2Z.id, Nat.sub_diag, app_nil_r. by apply take_ge.
  - unfold zlen. lia.
Qed.

(** Names follow from what the directory holds. *)
Lemma on_disk_named s : on_disk s -> well_named s.
Proof.
  intros O. pose proof (od_next _ O). split; [|by apply ids_NoDup, O| |lia].
  - apply list.Forall_forall. intros g Hg. destruct (od_sealed _ O g Hg) as [SO R]. split; [exact (proj2 R)|apply SO].
  - intros a Ha. destruct (od_active _ O a Ha) as ([Pa _ _ _] & R & L). split; [apply R|]. split; [|done].
    intros (g & E & Hg)%list_elem_of_fmap. specialize (L g Hg). lia.
Qed.

(** A store whose writes have succeeded and are all durable, opened again. *)
Lemma reopen_on_disk s d' cfg : inv s -> on_disk s -> all_synced s -> restart (st_disk s) d' -> segmentSize cfg <= SEG_MAX ->
  exists s', Open cfg d' = (Ok tt, s') /\ inv s' /\ on_disk s' /\ all_synced s' /\ nextID s' <= nextID s /\
  st_cfg s' = cfg /\ closed s' = false /\ faults (st_disk s') = [] /\
  (forall k, view s' k = view s k) /\ (forall k rec, held_in s' k rec -> held_in s k rec).
Proof.
  intros I O Sy RT Hcfg. pose proof (crash_dir _ _ O (rt_crash _ _ RT)) as D. pose proof (rt_crash _ _ RT) as (Hq & Hnames & _).
  assert (forall g, g ∈ sealed s -> seg_on d' g) as HG.
  { intros g Hg. destruct (od_sealed _ O g Hg) as [[Hp Ho (i & Hi & Hd)] _]. split; [done..|]. exists i. rewrite Hnames. split; [done|]. by apply (restart_durable (st_disk s)). }
  destruct (active s) as [a|] eqn:Ha.
  - destruct (od_active _ O a Ha) as ([Pa Na Sa (recs & hdrs & HF & HL & HS & HX)] & Ra & La). destruct (Sy a Ha) as [b Hb].
    assert (b = log recs) as -> by (exact (holds_unique _ _ _ _ HL Hb)).
    pose proof (restart_durable _ _ _ _ RT Hb) as Hb'.
    assert (8 <= length (log recs))%nat as H8 by (unfold log; rewrite length_app; cbn; lia).
    destruct (open_cut cfg s d' a recs hdrs (length (log recs)) _ O D Ha HF HX H8 Hb' ltac:(by rewrite take_ge)) as (j & s' & _ & E & C' & ES & Hfull & nid & a' & -> & -> & HL' & Hnid & Hid & Hids).
    specialize (Hfull ltac:(done)). subst j. assert (length recs = length hdrs) as EL by (by eapply Forall2_length).
    rewrite !take_ge in * by lia. eexists. split; [exact E|]. pose proof (truncate_durable _ _ _ Hb') as HT.
    set (d2 := do_truncate (a_f a) (zlen (log recs)) d') in *. set (a' := MkActive _ _ _ _ _) in *.
    assert (names d2 = names (st_disk s)) as N2 by exact Hnames.
    assert (forall i, i <> a_f a -> inodes d2 !! i = inodes d' !! i) as Hother by (intros i Hi; unfold d2, do_truncate, set_file; cbn [inodes]; by rewrite lookup_insert_ne).
    assert (forall k, act_view d2 a' k = act_view (st_disk s) a k) as EA.
    { intros k. rewrite (act_view_log d2 a' recs hdrs k HF HL' eq_refl). by rewrite (act_view_log _ a recs hdrs k HF (holds_log _ _ _ HL) HX), HX. }
    pose proof (inv_path _ I (od_failed _ O) a Ha) as [Hn Hlim]. pose proof (od_next _ O) as Hnx.
    split; [|split; [|split; [|split; [cbn; lia|split; [done|split; [done|split; [exact Hq|split]]]]]]].
    + split; [done|exact C'|]. intros _ a0 [= <-]. cbn [st_disk a_path a_f a_size a']. by rewrite N2, <- HS.
    + split; cbn [failed st_disk sealed active nextID]; rewrite ?N2.
      * exact C'.
      * done.
      * intros n i Hi. change (next_ino d2) with (next_ino d'). rewrite (rt_ino _ _ RT). by apply (od_fresh _ O n).
      * apply O.
      * intros n Hs Hsf. destruct (od_dir _ O n Hs Hsf) as [HD|(a0 & Ha0 & ->)]; [by left|]. right. exists a'. split; [done|]. assert (a0 = a) as -> by congruence. done.
      * intros g Hg. split; [|specialize (Hids g Hg); destruct (od_sealed _ O g Hg); lia]. apply (seg_on_ext d'); [|by apply HG].
        intros i Hi. rewrite N2, <- Hnames. split; [done|]. apply Hother. intros ->. rewrite Hnames in Hi. by apply (active_apart s a g (a_f a) O Ha Hg Hi).
      * apply O.
      * intros a0 [= <-]. cbn [a_id a']. split; [|split; [lia|done]]. split; cbn [a_path a_id a_f a_size a_index a']; [done|by rewrite N2| |].
        { intros f. rewrite HT. by intros [= <-]. }
        exists recs, hdrs. split; [done|]. split; [by exists (MkFile (log recs) (length (log recs)))|done].
      * lia.
    + intros a0 [= <-]. by exists (log recs).
    + intros k. unfold view. cbn [active sealed st_disk mbind option_bind]. by rewrite Ha, EA.
    + intros k rec [(a0 & [= <-] & Hv)|HS']; [|by right]. left. exists a. split; [done|]. by rewrite <- EA.
  - destruct (Open_to_recover s d' O D cfg) as (nid & Hnid & Hids & E). cbv zeta in E. rewrite Ha in E.
    eexists. split; [exact E|]. pose proof (od_next _ O) as Hnx.
    split; [|split; [|split; [|split; [cbn; lia|split; [done|split; [done|split; [exact Hq|split]]]]]]].
    + split; [done|split; [apply (od_core _ O)|done]|done].
    + split; cbn [failed st_disk sealed active nextID]; rewrite ?Hnames; try done; try apply O.
      * split; [apply (od_core _ O)|done].
      * intros n i Hi. rewrite (rt_ino _ _ RT). by apply (od_fresh _ O n).
      * intros n Hs Hsf. destruct (od_dir _ O n Hs Hsf) as [HD|(a0 & Ha0 & ->)]; [by left|congruence].
      * intros g Hg. split; [by apply HG|]. specialize (Hids g Hg). destruct (od_sealed _ O g Hg). lia.
      * lia.
    + done.
    + intros k. unfold view. by rewrite Ha.
    + intros k rec [(a0 & [=] & _)|HS']. by right.
Qed.
End Reopened.

(** * Calls that succeed do what they do on a disk without faults *)

Definition faultless (d : Disk) : Disk := set_faults [] d.
Definition calm {A} (m : M Disk A) : Prop := forall d x d', m d = (Ok x, d') -> m (faultless d) = (Ok x, faultless d').
Lemma attempt_calm {A} (run : M Disk A) torn :
  (forall fs d, run (set_faults fs d) = (fst (run d), set_faults fs (snd (run d)))) -> calm (attempt run torn).
Proof.
  intros HR d x d' (fs & E)%attempt_Ok. unfold attempt. cbn [faults faultless set_faults].
  rewrite HR in E. injection E as Ex <-. unfold faultless. rewrite HR, Ex. done.
Qed.
Ltac calm_call := apply attempt_calm; intros; unfold gets, modify, mret, M_ret, do_write, do_truncate, do_sync, do_create, do_remove, do_rename, set_file, file_of, data_of, set_names; cbn; repeat case_match; done.
Lemma ReadDirNames_calm : calm ReadDirNames.
Proof. calm_call. Qed.
Lemma ReadWhole_calm p : calm (ReadWhole p).
Proof. calm_call. Qed.
Lemma OpenFile_calm p : calm (OpenFile p).
Proof. calm_call. Qed.
Lemma Truncate_calm i n : calm (Truncate i n).
Proof. calm_call. Qed.
Lemma WriteAt_calm i b off : calm (WriteAt i b off).
Proof. calm_call. Qed.
Lemma Rename_calm p q : calm (Rename p q).
Proof. calm_call. Qed.
Lemma SyncDir_calm : calm SyncDir.
Proof. calm_call. Qed.

Definition rested (s : Store) : Store := set_disk (faultless (st_disk s)) s.
Definition calms {A} (m : M Store A) : Prop := forall s x s', m s = (Ok x, s') -> m (rested s) = (Ok x, rested s').
Lemma io_calms {A} (m : M Disk A) : calm m -> calms (io m).
Proof. intros HM s x s' (d & E & ->)%io_Ok. unfold io. cbn [st_disk rested set_disk]. by rewrite (HM _ _ _ E). Qed.
Lemma bind_calms {A B} (m : M Store A) (f : A -> M Store B) : calms m -> (forall x, calms (f x)) -> calms (m ≫= f).
Proof. intros HM HF s y s2 (x & s1 & E1 & E2)%M_bind_Ok. apply M_bind_Ok. exists x, (rested s1). split; [by apply HM|by apply HF]. Qed.
Lemma lift_calms {A} (r : res A) : calms (lift r).
Proof. intros s x s' E. unfold lift in *. by injection E as -> <-. Qed.
Lemma ret_calms {A} (x : A) : calms (mret x).
Proof. intros s y s' E. by injection E as <- <-. Qed.
Lemma fail_calms {A} e : calms (fail (A := A) e).
Proof. intros s y s' E. done. Qed.
Lemma modify_calms f : (forall s, f (rested s) = rested (f s)) -> calms (modify f).
Proof. intros HF s x s' E. injection E as <- <-. unfold modify. by rewrite HF. Qed.
Lemma catch_calms {A} (m : M Store A) h : calms m -> (forall e s x, fst (h e s) <> Ok x) -> calms (catch m h).
Proof. intros HM Hh s x s' E. apply catch_Ok in E; [|intros; apply Hh]. unfold catch. by rewrite (HM _ _ _ E). Qed.

Section OpenCalm.
Context `{Fuse}.
Lemma open_path_calms p id : calms (open_path p id).
Proof. apply bind_calms; [apply io_calms, ReadWhole_calm|intros; apply lift_calms]. Qed.
Lemma load_names_calms ns actives : calms (load_names ns actives).
Proof.
  revert actives. induction ns as [|n ns IH]; intros actives; cbn [load_names]; [apply ret_calms|].
  repeat case_match; try apply IH. apply bind_calms; [apply lift_calms|]. intros id. apply bind_calms; [apply open_path_calms|]. intros seg.
  apply bind_calms; [by apply modify_calms|]. intros _. apply IH.
Qed.
Lemma sort_sealed_calms : calms sort_sealed.
Proof. by apply modify_calms. Qed.
Lemma recoverActive_calms n : calms (recoverActive n).
Proof.
  unfold recoverActive. assert (forall (e : error) s (x : unit), fst ((_ ← ignore (io CloseFd); fail e) s) <> Ok x) as HC by (intros; unfold ignore, fail, mbind, M_bind; done).
  repeat (apply bind_calms; [first [apply lift_calms|apply io_calms, ReadWhole_calm|by apply modify_calms]|intros ?]).
  destruct (sr_sealed _).
  - repeat (apply bind_calms; [first [apply io_calms, Rename_calm|apply io_calms, SyncDir_calm|apply open_path_calms|by apply modify_calms]|intros ?]). apply sort_sealed_calms.
  - apply bind_calms; [apply io_calms, OpenFile_calm|]. intros f. apply bind_calms; [|intros; by apply modify_calms].
    destruct (_ <? _).
    + apply bind_calms; [apply catch_calms; [apply io_calms, Truncate_calm|done]|]. intros _. apply bind_calms; [apply catch_calms; [apply io_calms, WriteAt_calm|done]|]. intros _. apply ret_calms.
    + apply bind_calms; [apply catch_calms; [apply io_calms, Truncate_calm|done]|]. intros _. apply ret_calms.
Qed.
Lemma load_calms : calms load.
Proof.
  apply bind_calms; [apply io_calms, ReadDirNames_calm|]. intros ns. apply bind_calms; [apply load_names_calms|]. intros actives.
  apply bind_calms; [apply sort_sealed_calms|]. intros _. destruct actives as [|n [|? ?]]; [apply ret_calms|apply recoverActive_calms|apply fail_calms].
Qed.
(** Open, when it succeeds, gives the handle it gives when no call fails. *)
Lemma Open_calm cfg d s' : Open cfg d = (Ok tt, s') -> Open cfg (faultless d) = (Ok tt, rested s').
Proof. apply (load_calms (MkStore d cfg false None [] None 1 false None 0)). Qed.
End OpenCalm.

(** * The sweep, when it reports success *)

Section SweepDurable.
Context `{Blake3} `{HZs : ZstdOk} `{HFu : FuseOk}.

(** Calls that only read or touch the barrier. *)
Definition reading (s s' : Store) : Prop := exists fs c g, s' = set_barrier c g (set_disk (set_faults fs (st_disk s)) s).
Lemma reading_refl s : reading s s.
Proof. exists (faults (st_disk s)), (capturing s), (grey s). destruct s as [[] ? ? ? ? ? ? ? ? ?]. done. Qed.
Lemma reading_trans s1 s2 s3 : reading s1 s2 -> reading s2 s3 -> reading s1 s3.
Proof. intros (fs & c & g & ->) (fs' & c' & g' & ->). by exists fs', c', g'. Qed.
Lemma reading_barrier s c g : reading s (set_barrier c g s).
Proof. exists (faults (st_disk s)), c, g. destruct s as [[] ? ? ? ? ? ? ? ? ?]. done. Qed.
Lemma rested_reading s : reading (rested s) s.
Proof. exists (faults (st_disk s)), (capturing s), (grey s). destruct s as [[] ? ? ? ? ? ? ? ? ?]. done. Qed.
Lemma reading_on_disk s s' : on_disk s -> reading s s' ->
  on_disk s' /\ (all_synced s -> all_synced s') /\ nextID s' = nextID s /\ st_cfg s' = st_cfg s.
Proof.
  intros O (fs & c & g & ->). split; [|done]. destruct O as [[CS CA] ? ? ? ? OS ? OA ?]. split; try done.
  - intros x Hx. by destruct (OS x Hx) as [[? ? ?] ?].
  - intros x Hx. by destruct (OA x Hx) as [[? ? ? ?] ?].
Qed.

Lemma Get_reading k s r s' : Store.Get k s = (r, s') -> reading s s'.
Proof.
  unfold Store.Get. rewrite M_gets. cbn [id]. destruct (closed s); [intros [= _ <-]; apply reading_refl|].
  destruct (active_loc s k) as [[a loc]|]; [|unfold lift; intros [= _ <-]; apply reading_refl].
  intros (rx & d & (fs & -> & _)%ReadAt_out & E')%io_bind_inv.
  assert (s' = set_disk (set_faults fs (st_disk s)) s) as -> by (destruct rx; [unfold lift in E'; by injection E' as _ <-|by destruct E'; subst]).
  by exists fs, (capturing s), (grey s).
Qed.

(** ** The copy pipeline *)

Section Copying.
Context (live : Key -> bool) (V : gset Z) (procs : nat) (s1 : Store) (all : list (sealedSegment * indexEntry)).
Context (I1 : inv s1).
Context (Hall : forall g e, (g, e) ∈ all -> g ∈ sealed s1 /\ seg_ok g /\ e ∈ allEntries (sg_fv g)).
Definition unfailed (p : Pipe) : Prop := p_appendErr p = None -> on_disk (sw_store (p_sweep p)).

Lemma pipe_step_on_disk c p p' : sane procs p -> pipe_ok live V s1 all p -> unfailed p -> pipe_step live V procs c p = Some p' -> unfailed p'.
Proof using I1 Hall HFu HZs.
  intros SN P U E. assert (p_sweep p' = p_sweep p -> p_appendErr p' = p_appendErr p -> unfailed p') as Same by (intros ES EA; unfold unfailed; by rewrite ES, EA).
  unfold pipe_step in E. destruct c as [| | | |i|i|].
  - unfold produce in E. destruct (p_pending p), (p_todo p) as [|[g e] rest]; try done. repeat case_match; injection E as <-; by apply Same.
  - unfold send in E. destruct (p_pending p); [|done]. case_match; [|done]. injection E as <-. by apply Same.
  - unfold quit in E. destruct (p_pending p); [|done]. case_match; [|done]. injection E as <-. by apply Same.
  - unfold take_cand in E. destruct (p_cands p); [done|]. case_match; [|done]. injection E as <-. by apply Same.
  - unfold finish in E. destruct (p_busy p !! i); [|done]. cbn [mbind option_bind] in E. repeat case_match; try done; injection E as <-; by apply Same.
  - unfold drop_busy in E. destruct (p_busy p !! i); [|done]. cbn [mbind option_bind] in E. repeat case_match; try done; injection E as <-; by apply Same.
  - unfold consume in E. destruct (p_verified p) as [|c rest] eqn:EV; [done|]. cbn [p_appendErr set_verified] in E.
    destruct (p_appendErr p) eqn:EA; [injection E as <-; by apply Same|]. cbn [p_sweep set_verified] in E. unfold on_store in E.
    destruct (appendLocked _ _ _ _) as [r s'] eqn:EL. injection E as <-. unfold unfailed. destruct r as [[]|e]; cbn [appended p_appendErr p_sweep sw_store]; [|done]. intros _.
    pose proof (pk_flight _ _ _ _ _ P) as F. rewrite list.Forall_forall in F. destruct (F c) as (g & e & Hin & -> & Hl); [unfold flight; rewrite EV, !elem_of_app; do 3 right; by left|].
    cbn [c_e c_rec] in EL. destruct (Hall g e Hin) as (Hg1 & HG & He). pose proof (allEntries_elem g e HG He) as Ev. destruct (seg_view_whole g _ _ HG Ev) as (h & W & Hk).
    rewrite <- Hk in EL. pose proof (copying_keeps V s1 I1 _ (pk_store _ _ _ _ _ P)) as KO. pose proof (pk_next _ _ _ _ _ P) as Hn.
    assert (1 <= Z.of_nat (weight p)) by (unfold weight; rewrite EV; cbn [length]; lia).
    by destruct (append_on_disk (sw_store (p_sweep p)) h _ false s' (ko_inv _ _ _ KO) (U EA) ltac:(lia) W EL) as (O' & _).
Qed.
Lemma pipe_run_on_disk sched p p' : (0 < procs)%nat -> sane procs p -> pipe_ok live V s1 all p -> unfailed p -> pipe_run live V procs sched p = Some p' -> unfailed p'.
Proof using I1 Hall HFu HZs.
  intros Hp. revert p. induction sched as [|c sched IH]; intros p SN P U E; [by injection E as <-|].
  cbn [pipe_run] in E. destruct (pipe_step live V procs c p) as [p1|] eqn:E1; [|done]. cbn in E.
  eapply IH; [by eapply sane_step|by eapply pipe_ok_step|by eapply pipe_step_on_disk|exact E].
Qed.
End Copying.

(** ** Removal *)

Lemma RemoveFile_Ok path d d' : RemoveFile path d = (Ok tt, d') -> exists fs, d' = set_faults fs (do_remove path d).
Proof. intros (fs & E)%attempt_Ok. cbn in E. destruct (names d !! path); [|done]. injection E as <-. by exists fs. Qed.

(** The disk without some names. *)
Record unlinked (ps : list bytes) (d d' : Disk) : Prop := {
    ul_inodes : inodes d' = inodes d;
    ul_ino : next_ino d' = next_ino d;
    ul_names n : names d' !! n = if bool_decide (n ∈ ps) then None else names d !! n
  }.
Lemma unlinked_nil d fs : unlinked [] d (set_faults fs d).
Proof. split; [done..|]. intros n. rewrite bool_decide_eq_false_2; [done|]. apply not_elem_of_nil. Qed.
Lemma unlinked_cons p ps d d' fs : unlinked ps (set_faults fs (do_remove p d)) d' -> unlinked (p :: ps) d d'.
Proof.
  intros [EI EN HN]. split; [by rewrite EI|by rewrite EN|]. intros n. rewrite HN. cbn [names set_faults do_remove set_names].
  destruct (decide (n = p)) as [-> |Hne].
  - rewrite lookup_delete_eq, (bool_decide_eq_true_2 (p ∈ p :: ps)) by left. by destruct (bool_decide _).
  - rewrite lookup_delete_ne by done. case_bool_decide as C1; case_bool_decide as C2; try done.
    + destruct C2. by right.
    + apply elem_of_cons in C2 as [?|?]; done.
Qed.

Lemma noting_None {A} (m : M Sweep A) fe w w' : noting m fe w = (Ok None, w') -> fe = None /\ exists x, m w = (Ok x, w').
Proof. unfold noting. destruct (m w) as [r w1]. destruct fe, r; intros [=]; subst; eauto. Qed.
Lemma noting_Ok {A} (m : M Sweep A) fe w r w' : noting m fe w = (r, w') -> exists e, r = Ok e.
Proof. unfold noting. destruct (m w). intros [= <- _]. by eexists. Qed.
Lemma remove_files_disk victims fe w w' : remove_files victims fe w = (Ok None, w') ->
  fe = None /\ exists d', sw_store w' = set_disk d' (sw_store w) /\ unlinked (map sg_path victims) (st_disk (sw_store w)) d'.
Proof.
  revert fe w. induction victims as [|g victims IH]; intros fe w E.
  - injection E as -> <-. split; [done|]. exists (set_faults (faults (st_disk (sw_store w))) (st_disk (sw_store w))). split; [|apply unlinked_nil].
    by destruct w as [[[] ? ? ? ? ? ? ? ? ?] ?].
  - cbn [remove_files] in E. unfold on_stats in E. rewrite M_modify in E. set (w1 := MkSweep _ _) in E.
    apply M_bind_Ok in E as (e1 & w2 & E1 & E). apply M_bind_Ok in E as (e2 & w3 & E2 & E).
    destruct (IH _ _ E) as (-> & d' & Es & HU). apply noting_None in E2 as (-> & x2 & E2). apply noting_None in E1 as (-> & x1 & E1). split; [done|].
    unfold on_store in E1, E2. destruct (io CloseFd (sw_store w1)) as [r1 s1] eqn:C1. injection E1 as -> <-. cbn [sw_store] in E2.
    destruct (io (RemoveFile (sg_path g)) s1) as [r2 s2] eqn:C2. injection E2 as -> <-. cbn [sw_store] in Es, HU. destruct x1, x2.
    apply io_Ok in C1 as (d1 & (fs1 & ->)%CloseFd_Ok & ->). apply io_Ok in C2 as (d2 & (fs2 & ->)%RemoveFile_Ok & ->).
    exists d'. split; [exact Es|]. cbn [map]. eapply unlinked_cons. exact HU.
Qed.

Lemma StronglySorted_sublist_ids (l l' : list sealedSegment) : l' `sublist_of` l -> StronglySorted Z.lt (map sg_id l) -> StronglySorted Z.lt (map sg_id l').
Proof.
  induction 1 as [|x l1 l2 HS IH|x l1 l2 HS IH]; [done| |]; cbn [map]; intros [HSS HF]%StronglySorted_inv.
  - constructor; [by apply IH|]. apply list.Forall_forall. intros y (g & -> & Hg)%list_elem_of_fmap. rewrite list.Forall_forall in HF. apply HF.
    apply (list_elem_of_fmap_2 sg_id). by eapply elem_of_sublist.
  - by apply IH.
Qed.
Lemma removed_on_disk s V victims d' : on_disk s -> V = ids victims -> (forall g, g ∈ victims -> g ∈ sealed s) ->
  unlinked (map sg_path victims) (st_disk s) d' -> let s' := set_disk d' (survivors V s) in core s' -> on_disk s' /\ (all_synced s -> all_synced s').
Proof.
  intros O -> Hsub [EI EN HN] s' C.
  assert (forall g, g ∈ kept (ids victims) (sealed s) <-> g ∈ sealed s /\ g ∉ victims) as HK.
  { intros g. unfold kept. rewrite list_elem_of_filter. split.
    - intros [Hid Hg]. split; [done|]. intros Hv. apply Hid. unfold ids. rewrite elem_of_list_to_set. by apply (list_elem_of_fmap_2 sg_id).
    - intros [Hg Hv]. split; [|done]. unfold ids. rewrite elem_of_list_to_set. intros (g' & Eid & Hg')%list_elem_of_fmap. apply Hv.
      by rewrite (ids_inj s O g g' Hg (Hsub g' Hg') Eid). }
  assert (forall g, g ∈ sealed s -> g ∉ victims -> sg_path g ∉ map sg_path victims) as HP.
  { intros g Hg Hv (g' & Ep & Hg')%list_elem_of_fmap. apply Hv. by rewrite (paths_inj s O g g' Hg (Hsub g' Hg') Ep). }
  assert (forall a, active s = Some a -> a_path a ∉ map sg_path victims) as HA.
  { intros a Ha (g' & Ep & Hg')%list_elem_of_fmap. destruct (od_active _ O a Ha) as ([Pa _ _ _] & _). destruct (od_sealed _ O g' (Hsub g' Hg')) as [SO _].
    rewrite Pa, (so_path _ _ SO) in Ep. by apply segName_active_sealed in Ep. }
  assert (forall n i, names d' !! n = Some i -> names (st_disk s) !! n = Some i /\ n ∉ map sg_path victims) as Hold by (intros n i; rewrite HN; case_bool_decide; done).
  assert (forall n, n ∉ map sg_path victims -> names d' !! n = names (st_disk s) !! n) as Hsame by (intros n Hn; rewrite HN; by rewrite bool_decide_eq_false_2).
  split; [|intros Sy a Ha; destruct (Sy a Ha) as [b Hb]; exists b; unfold durable in *; cbn [st_disk s' set_disk]; by rewrite EI].
  split; cbn [failed st_disk sealed active nextID s' set_disk survivors set_sealed set_segments]; rewrite ?EN; try apply O.
  - exact C.
  - intros n i [Hn _]%Hold. by apply (od_fresh _ O n).
  - intros n1 n2 i [N1 _]%Hold [N2 _]%Hold. by apply (od_inj _ O n1 n2 i).
  - intros n [i [Hn Hv]%Hold] Hsf. destruct (od_dir _ O n (mk_is_Some _ _ Hn) Hsf) as [(g & Hg & ->)|?]; [left|by right].
    exists g. split; [|done]. apply HK. split; [done|]. intros Hv'. apply Hv. by apply (list_elem_of_fmap_2 sg_path).
  - intros g [Hg Hv]%HK. destruct (od_sealed _ O g Hg) as [SO R]. split; [|done]. eapply seg_on_ext; [|exact SO].
    intros j Hj. rewrite Hsame by (by apply HP). by rewrite EI.
  - apply (StronglySorted_sublist_ids (sealed s)); [|apply O]. unfold kept. apply sublist_filter.
  - intros a Ha. destruct (od_active _ O a Ha) as ([Pa Na Sa L] & R & La). split; [|split; [done|]].
    + split; [done|by rewrite Hsame by (by apply HA)| |].
      * intros f. rewrite EI. apply Sa.
      * destruct L as (recs & hdrs & HF & (f & Hf & Hd) & HS). exists recs, hdrs. split; [done|]. split; [|done]. exists f. by rewrite EI.
    + intros g [Hg _]%HK. by apply La.
Qed.
End SweepDurable.

(** ** Compact *)

Section CompactDurable.
Context `{Blake3} `{HZs : ZstdOk} `{HFu : FuseOk}.

(** The store and its directory agree, and nothing waits for a sync. *)
Record stable (s : Store) : Prop := {
    st_inv : inv s;
    st_disk_ok : on_disk s;
    st_synced : all_synced s;
    st_sync : cfg_sync (st_cfg s) = true
  }.
Lemma stable_reading s s' : stable s -> reading s s' -> stable s'.
Proof.
  intros [I O Sy Hc] R. destruct (reading_on_disk _ _ O R) as (O' & Sy' & _ & Ec). split; [|done|by apply Sy'|by rewrite Ec].
  destruct R as (fs & c & g & ->). destruct I as [Hcfg [CS CA] HP]. by split.
Qed.

Lemma seal_stable s s' : stable s -> sealActiveLocked s = (Ok tt, s') -> stable s' /\ nextID s' = nextID s.
Proof.
  intros [I O Sy Hc] E. pose proof (od_failed _ O) as HF.
  assert (named (2 * SEG_MAX) s) as N2.
  { intros a Ha. destruct (inv_path _ I HF a Ha) as [? ?]. split; [done|]. unfold SEG_MAX in *. lia. }
  destruct (seal_on_disk _ _ O N2 E) as [O' EN]. split; [|done].
  pose proof (seal_spec _ _ _ (od_core _ O) N2 E) as [(C' & _ & F' & _) HS].
  destruct (HS eq_refl) as [HA|[-> _]]; [|by split]. split; [|done| |by rewrite (fr_cfg _ _ F')].
  - split; [by rewrite (fr_cfg _ _ F'); apply I|done|]. intros _ a Ha. congruence.
  - intros a Ha. congruence.
Qed.

Lemma sync_stable s a s' : inv s -> on_disk s -> cfg_sync (st_cfg s) = true -> active s = Some a -> io (Sync (a_f a)) s = (Ok tt, s') -> stable s' /\ nextID s' = nextID s.
Proof.
  intros I O Hc Ha E. pose proof (sync_same_held s a (Ok tt) s' I ltac:(by unfold poison, catch; rewrite E)) as [SV _ _ _ _].
  apply io_Ok in E as (d1 & (fs & ->)%Sync_Ok & ->). split; [|done]. split; [apply SV|by apply sync_on_disk| |done].
  intros a' Ha'. cbn in Ha'. assert (a' = a) as -> by congruence. destruct (od_active _ O a Ha) as ([_ _ _ (recs & hdrs & _ & HL & _)] & _).
  exists (log recs). by apply do_sync_durable.
Qed.

Lemma copyLive_stable procs sched live victims w w' :
  let s1 := sw_store w in
  (0 < procs)%nat -> stable s1 -> NoDup victims -> (forall g, g ∈ victims -> g ∈ sealed s1) -> nextID s1 + 2 ^ 35 * zlen (sealed s1) < 2 ^ 64 ->
  copyLive procs sched live victims w = (Ok tt, w') -> copying (ids victims) s1 (sw_store w') /\ on_disk (sw_store w').
Proof.
  intros s1 Hp [I1 O1 Sy Hc] NDv Hsub Hn E. pose proof (on_disk_named _ O1) as W1.
  destruct (start_pipe_ok procs live victims w I1 W1 NDv Hsub Hn) as [Hall P0].
  destruct (copyLive_spec procs sched live victims w _ _ Hp I1 W1 NDv Hsub Hn E) as [CP _]. split; [done|].
  unfold copyLive in E. destruct (pipe_run live (ids victims) procs sched (start_pipe procs victims w)) as [p|] eqn:ER; [|done].
  destruct (finished p); [|done]. injection E as HR <-.
  apply (pipe_run_on_disk live (ids victims) procs s1 (victim_entries victims) I1 Hall sched _ p Hp (sane_start procs Hp victims w) P0); [by intros _|exact ER|].
  unfold pipe_result in HR. by destruct (p_appendErr p).
Qed.

Lemma removeVictims_stable victims w w' :
  stable (sw_store w) -> (forall g, g ∈ victims -> g ∈ sealed (sw_store w)) -> inv (survivors (ids victims) (sw_store w)) ->
  removeVictims victims w = (Ok tt, w') -> stable (sw_store w').
Proof.
  intros [I O Sy Hc] Hsub IS E.
  assert (Forall (fun g => not_active (sg_path g) (sw_store w)) victims) as HA.
  { apply list.Forall_forall. intros g Hg a Ha Ep. destruct (od_active _ O a Ha) as ([Pa _ _ _] & _). destruct (od_sealed _ O g (Hsub g Hg)) as [SO _].
    rewrite Pa, (so_path _ _ SO) in Ep. by apply segName_active_sealed in Ep. }
  pose proof (removeVictims_spec _ _ _ _ _ eq_refl IS HA E) as SH.
  unfold removeVictims in E. apply M_bind_Ok in E as ([] & w1 & E1 & E). injection E1 as <-.
  apply M_bind_Ok in E as (e & w2 & E2 & E). unfold on_stats in E. rewrite M_modify, M_gets in E. cbn [sw_store] in E.
  assert (e = None /\ exists fs, sw_store w' = set_disk (set_faults fs (st_disk (sw_store w2))) (sw_store w2)) as (-> & fs & Es).
  { apply M_bind_Ok in E as (e2 & w3 & E3 & E). destruct e2 as [?|]; [done|]. injection E as <-. destruct (cfg_sync (st_cfg (sw_store w2))).
    - apply noting_None in E3 as (-> & x & E3). split; [done|]. unfold on_store in E3. destruct (io SyncDir _) as [r3 s3] eqn:E4. injection E3 as -> <-. destruct x.
      apply io_Ok in E4 as (d & (fs & ->)%SyncDir_Ok & ->). by exists fs.
    - injection E3 as -> <-. split; [done|]. exists (faults (st_disk (sw_store w2))). by destruct w2 as [[[] ? ? ? ? ? ? ? ? ?] ?]. }
  apply remove_files_disk in E2 as (_ & d' & E2 & HU). cbn [sw_store] in E2, HU.
  change (sw_store w2 = set_disk d' (survivors (ids victims) (sw_store w))) in E2.
  destruct (sh_view _ _ SH) as [I' F' _]. rewrite Es, E2 in I' |- *.
  assert (core (set_disk d' (survivors (ids victims) (sw_store w)))) as C'.
  { destruct I' as [_ [CS CA] _]. by split. }
  destruct (removed_on_disk _ _ victims d' O eq_refl Hsub HU C') as [O' Sy'].
  assert (reading (set_disk d' (survivors (ids victims) (sw_store w))) (set_disk (set_faults fs d') (survivors (ids victims) (sw_store w)))) as R.
  { exists fs, (capturing (sw_store w)), (grey (sw_store w)). by destruct (sw_store w). }
  destruct (reading_on_disk _ _ O' R) as (O2 & Sy2 & _ & _). by split; [|exact O2|apply Sy2, Sy'|].
Qed.

Lemma compact_stable modTime procs sched live opts w w' :
  let s := sw_store w in
  (0 < procs)%nat -> stable s -> nextID s + 2 ^ 35 * (zlen (sealed s) + 1) < 2 ^ 64 ->
  compact_with modTime procs sched live opts w = (Ok tt, w') -> stable (sw_store w').
Proof.
  intros s Hp ST Hn E. unfold compact_with in E.
  apply M_bind_Ok in E as ([] & w1 & E1 & E). unfold on_store in E1. destruct (writable (sw_store w)) as [r1 s1] eqn:EW.
  apply writable_inv in EW as [-> _]. injection E1 as -> <-. cbn [sw_store sw_stats] in E.
  apply M_bind_Ok in E as ([] & w2 & E2 & E). unfold on_store in E2. cbn [sw_store sw_stats] in E2. fold s in E2.
  destruct (poison sealActiveLocked s) as [r2 s2] eqn:EP. injection E2 as -> <-. apply poison_Ok in EP.
  destruct (seal_stable _ _ ST EP) as [ST2 EN2].
  assert (zlen (sealed s2) <= zlen (sealed s) + 1) as HL.
  { destruct (seal_shape _ _ _ EP) as (_ & [[-> _]|(a & g & _ & _ & -> & _)]); [lia|]. rewrite zlen_app. change (zlen [g]) with 1. lia. }
  assert (nextID s2 + 2 ^ 35 * zlen (sealed s2) < 2 ^ 64) as Hn2 by (pose proof (zlen_nonneg (sealed s)); lia).
  clear EP HL. apply M_bind_Ok in E as (victims & w3 & (ES & HV)%selectVictims_spec & E). cbn [sw_store] in ES, HV.
  specialize (HV victims eq_refl) as [Hsub HND]. rewrite <- ES in ST2, Hn2, Hsub, HND.
  assert (NoDup victims) as NDv.
  { apply HND. eapply NoDup_fmap_1. apply (wn_distinct _ (on_disk_named _ (st_disk_ok _ ST2))). }
  destruct (decide (victims = [])) as [->|Hne]; [by injection E as <-|].
  assert ((_ ← copyLive procs sched live victims;
  s ← gets sw_store;
  _ ← match active s with
      | Some a => if cfg_sync (st_cfg s) then on_store (poison (io (Sync (a_f a)))) else mret tt
      | None => mret tt
      end;
  removeVictims victims) w3 = (Ok tt, w')) as E' by (by destruct victims). clear E Hne.
  apply M_bind_Ok in E' as ([] & w4 & E4 & E). destruct (copyLive_stable _ _ _ _ _ _ Hp ST2 NDv Hsub Hn2 E4) as [CP O4]. clear E4.
  assert (cfg_sync (st_cfg (sw_store w4)) = true) as Hc4 by (rewrite (fr_cfg _ _ (cp_frame _ _ _ CP)); apply ST2).
  pose proof (ko_inv _ _ _ (copying_keeps _ _ (st_inv _ ST2) _ CP)) as I4.
  rewrite M_gets in E. apply M_bind_Ok in E as ([] & w5 & E5 & E).
  assert (stable (sw_store w5) /\ sealed (sw_store w5) = sealed (sw_store w4) /\ inv (survivors (ids victims) (sw_store w5))) as (ST5 & ES5 & IS5).
  { destruct (active (sw_store w4)) as [a|] eqn:Ha.
    - rewrite Hc4 in E5. unfold on_store in E5. destruct (poison (io (Sync (a_f a))) (sw_store w4)) as [r5 s5] eqn:EP. injection E5 as -> <-. cbn [sw_store].
      destruct (sync_any_sealed _ _ _ _ (kept (ids victims) (sealed (sw_store w4))) EP) as (ES5 & _ & _ & EL).
      split; [|split; [done|]].
      + apply poison_Ok in EP. by destruct (sync_stable _ _ _ I4 O4 Hc4 Ha EP) as [? _].
      + apply (sync_same_held _ _ _ _ (cp_inv _ _ _ CP)) in EL as [SV _ _ _ _]. unfold survivors. rewrite ES5. apply SV.
    - injection E5 as <-. split; [split; [done..| |done]|split; [done|apply CP]]. intros a Ha'. congruence. }
  apply (removeVictims_stable victims w5); [done| |done|exact E].
  intros g Hg. rewrite ES5. destruct (cp_sealed _ _ _ CP) as (new & -> & _). apply elem_of_app. left. by apply Hsub.
Qed.

Lemma Compact_stable modTime procs sched live opts s st w' :
  (0 < procs)%nat -> stable s -> nextID s + 2 ^ 35 * (zlen (sealed s) + 1) < 2 ^ 64 ->
  Compact modTime procs sched live opts (MkSweep s st) = (Ok tt, w') -> stable (sw_store w').
Proof.
  intros Hp ST Hn E. unfold Compact, mbind at 1, M_bind at 1, on_store at 1, takeGrey in E. cbn [sw_store sw_stats] in E.
  apply compact_stable in E; [done|done| |done]. cbn [sw_store]. apply (stable_reading s); [done|apply reading_barrier].
Qed.
End CompactDurable.

(** ** The cycle *)

Section CycleDurable.
Context `{Blake3} `{HZs : ZstdOk} `{HFu : FuseOk} `{Cbor (list bytes), Cbor (list DirPair), Cbor (list Entry), Cbor Reference} `{Errgroup} `{PebbleOk}.

Lemma mark_one_reading k live stack s r s' : mark_one k live stack s = (r, s') -> reading s s'.
Proof.
  unfold mark_one. destruct (Mark k live) as [[newly present] live1]. repeat case_match; try (intros [= _ <-]; apply reading_refl).
  unfold mbind, M_bind. destruct (Store.Get k s) as [r1 s1] eqn:EG. apply Get_reading in EG. destruct r1 as [data|e]; [|by intros [= _ <-]].
  unfold lift. destruct (ChildKeys k data); by intros [= _ <-].
Qed.
Lemma mark_loop_reading ctx fuel n live stack s r s' : mark_loop ctx fuel n live stack s = (r, s') -> reading s s'.
Proof.
  revert n live stack s. induction fuel as [|fuel IH]; intros n live [|k stack] s E; cbn [mark_loop] in E; try (injection E as _ <-; apply reading_refl).
  rewrite M_lift in E. destruct (match (if (n mod 1024 =? 0)%nat then ctx n else None) with Some e => Err e | None => Ok tt end); [|injection E as _ <-; apply reading_refl].
  unfold mbind, M_bind in E. destruct (mark_one k live stack s) as [r1 s1] eqn:E1. apply mark_one_reading in E1.
  destruct r1 as [[live1 stack1]|e]; [|by injection E as _ <-]. eapply reading_trans; [exact E1|]. by eapply IH.
Qed.
Lemma mark_roots_reading ctx fuel live rs s r s' : mark_roots ctx fuel live rs s = (r, s') -> reading s s'.
Proof.
  revert live s. induction rs as [|root rs IH]; intros live s E; cbn [mark_roots] in E; [injection E as _ <-; apply reading_refl|].
  unfold mbind, M_bind in E. destruct (markFrom ctx fuel live root s) as [r1 s1] eqn:E1. apply mark_loop_reading in E1.
  destruct r1 as [live1|e]; [|by injection E as _ <-]. eapply reading_trans; [exact E1|]. by eapply IH.
Qed.

Lemma sweep_phase_stable env opts now th live w st w' :
  (0 < se_procs env)%nat -> stable (c_objects w) -> nextID (c_objects w) + 2 ^ 35 * (zlen (sealed (c_objects w)) + 1) < 2 ^ 64 ->
  sweep_phase env opts now th live w = (Ok tt, st, w') -> stable (c_objects w').
Proof.
  intros Hp ST Hn E. unfold sweep_phase in E. destruct (Compact _ _ _ _ _ _) as [r sw] eqn:EC. injection E as -> _ <-.
  by eapply Compact_stable.
Qed.

(** Snapshot and mark only read the objects. *)
Lemma marked_reading ctx fuel (w : Stores) live (w' : Stores) : (rs ← snapshot; aborting (on_objects (markLive ctx fuel rs))) w = (Ok live, w') ->
  reading (c_objects w) (c_objects w') /\ refs (c_refs w') = refs (c_refs w).
Proof.
  intros E. apply M_bind_Ok in E as (rs & w2 & E2 & E3).
  assert (c_refs w' = c_refs w2 /\ reading (c_objects w2) (c_objects w')) as [-> R2].
  { unfold aborting, catch_world, on_objects in E3. destruct (markLive ctx fuel rs (c_objects w2)) as [r6 s6] eqn:E6. destruct r6; [|done]. injection E3 as _ <-.
    split; [done|]. cbn [c_objects]. unfold markLive in E6. rewrite M_gets in E6. by eapply mark_roots_reading. }
  unfold snapshot in E2. apply M_bind_Ok in E2 as ([] & w3 & E4 & E5). injection E4 as <-.
  unfold aborting, catch_world in E5. destruct (roots _) as [r6 w6] eqn:E6. destruct r6; [|done]. injection E5 as <- <-.
  unfold roots in E6. apply M_bind_Ok in E6 as (recs & w7 & E7 & E8). injection E8 as _ <-. unfold on_refs in E7. destruct (All _) as [r8 s8] eqn:E9. injection E7 as -> <-.
  cbn [c_objects c_refs] in *. split; [eapply reading_trans; [apply reading_barrier|exact R2]|]. by apply All_out in E9 as [? _].
Qed.

(** A collection cycle that reports success leaves the directory in order. *)
Lemma cycle_stable env opts now garbage low ctx ctx_end fuel w st w' :
  (0 < se_procs env)%nat -> stable (c_objects w) -> nextID (c_objects w) + 2 ^ 35 * (zlen (sealed (c_objects w)) + 1) < 2 ^ 64 ->
  cycle env opts now garbage low ctx ctx_end fuel w = (Ok tt, st, w') -> stable (c_objects w').
Proof.
  intros Hp ST Hn E. unfold cycle in E. destruct ((rs ← snapshot; aborting (on_objects (markLive ctx fuel rs))) w) as [r1 w1] eqn:E1. destruct r1 as [live|e]; [|done].
  destruct ctx_end; [done|]. apply marked_reading in E1 as [R _].
  eapply sweep_phase_stable; [exact Hp|by eapply stable_reading| |exact E]. destruct R as (fs & c & g & ->). exact Hn.
Qed.
End CycleDurable.
