(* ===== verification/Barrier.v ===== *)
(** A collection cycle among its writers (src/gc/cycle.go, collector.go and
    src/packstore/barrier.go): a state machine whose steps are the critical sections of the
    goroutines - a writer's observation, append or fsync, a read, one round of a reference
    PUT's walk, its commit, the snapshot of the roots, one turn of the mark, the sweep. The
    theorem is that no published reference ever dangles. *)
From Stdlib Require Import Floats.SpecFloat.
From S2P Require Import Prelude External Concrete Chunker Key Crc32 Record Pack Objects Readers Walk Reference Refstore Footer Disk Scan Store StoreInv StoreSpec Frame Provenance Scrub Marks Compact Sweep Segments Collector.

(** ** The machine *)

(** Who holds the reference lock shared: a PUT that walks its root, or one that has walked
    it and observed its closure. *)
Inductive holder :=
  | Walking (root : Key) (seen : gset Key) (out frontier : list Key)
  | Prepared (root : Key).

(** Where the collector is; the reference lock is held exclusively within the steps that
    leave [Idle] and that sweep, never between steps. *)
Inductive phase :=
  | Idle
  | Snapped (rs : list Key)                                       (* barrier on, roots listed *)
  | Marking (live : MarkSet) (stack : list Key) (rs : list Key).  (* roots left to walk *)

Section Machine.
Context `{Blake3, Zstd, Fuse} `{Cbor (list bytes), Cbor (list DirPair), Cbor (list Entry), Cbor Reference} `{Errgroup} `{Pebble}.

Record World := MkWorld { w_stores : Stores; w_holders : list holder; w_phase : phase }.

Inductive event :=
(* any writer *)
  | Observe (k : Key)
  | Append (k : Key) (rec : bytes) (syncNow : bool)
  | Fsync
  | Read (k : Key)
(* reference PUTs and deletes *)
  | Lock (root : Key)
  | Walk (i : nat)
  | Grey (i : nat)
  | Commit (i : nat) (name data : bytes)
  | Abandon (i : nat)
  | DeleteRef (name : bytes)
(* the collector *)
  | Start
  | StartMark
  | MarkTurn
  | Cancel
  | SweepNow (env : SweepEnv) (opts : Options) (now : Z) (th : spec_float).

Definition objects (w : World) : Store := c_objects (w_stores w).
Definition set_stores (st : Stores) (w : World) : World := MkWorld st (w_holders w) (w_phase w).
Definition set_holders (hs : list holder) (w : World) : World := MkWorld (w_stores w) hs (w_phase w).
Definition set_phase (p : phase) (w : World) : World := MkWorld (w_stores w) (w_holders w) p.
(** A call whose outcome only its caller sees. *)
Definition run_objects {A} (m : M Store A) (w : World) : World := set_stores (snd (on_objects m (w_stores w))) w.
Definition run_refs {A} (m : M RefStore A) (w : World) : World := set_stores (snd (on_refs m (w_stores w))) w.

(** One round of [CheckComplete]. *)
Definition walk_round (s : Store) (root : Key) (seen : gset Key) (out frontier : list Key) : res holder :=
  lists ← wait (map (check_step (fun k => fst (Store.Get k s)) (Has s)) frontier);
  let '(seen, out, next) := fold_left discover (concat lists) (seen, out, []) in
  Ok (Walking root seen out next).

Definition abort_cycle (w : World) : World := set_phase Idle (run_objects AbortBarrier w).

Definition step (ev : event) (w : World) : option World :=
  match ev with
  | Observe k => Some (run_objects (observe k) w)
  | Append k rec syncNow => Some (run_objects (appendLocked k rec syncNow) w)
  | Fsync => Some (run_objects syncActive w)
  | Read k => Some (run_objects (Store.Get k) w)
  | Lock root => Some (set_holders (w_holders w ++ [Walking root {[root]} [root] [root]]) w)
  | Walk i =>
    match w_holders w !! i with
    | Some (Walking root seen out (k :: frontier)) =>
      match walk_round (objects w) root seen out (k :: frontier) with
      | Ok h => Some (set_holders (<[i:=h]> (w_holders w)) w)
      | Err _ => Some (set_holders (delete i (w_holders w)) w)
      end
    | _ => None
    end
  | Grey i =>
    match w_holders w !! i with
    | Some (Walking root seen out []) =>
      Some (run_objects (ObserveKeys out) (set_holders (<[i:=Prepared root]> (w_holders w)) w))
    | _ => None
    end
  | Commit i name data =>
    match w_holders w !! i with
    | Some (Prepared root) => Some (set_holders (delete i (w_holders w)) (run_refs (Refstore.Put name data) w))
    | _ => None
    end
  | Abandon i => Some (set_holders (delete i (w_holders w)) w)
  | DeleteRef name => Some (run_refs (Refstore.Delete name) w)
  | Start =>
    match w_holders w, w_phase w with
    | [], Idle =>
      let '(r, st) := snapshot (w_stores w) in
      Some (MkWorld st [] (match r with Ok rs => Snapped rs | Err _ => Idle end))
    | _, _ => None
    end
  | StartMark =>
    match w_phase w with Snapped rs => Some (set_phase (Marking (NewMarkSet (objects w)) [] rs) w) | _ => None end
  | MarkTurn =>
    match w_phase w with
    | Marking live [] (root :: rs) => Some (set_phase (Marking live [root] rs) w)
    | Marking live (k :: stack) rs =>
      let '(r, st) := on_objects (mark_one k live stack) (w_stores w) in
      match r with
      | Ok (live, stack) => Some (set_phase (Marking live stack rs) (set_stores st w))
      | Err _ => Some (abort_cycle (set_stores st w))
      end
    | _ => None
    end
  | Cancel => match w_phase w with Idle => None | _ => Some (abort_cycle w) end
  | SweepNow env opts now th =>
    match w_holders w, w_phase w with
    | [], Marking live [] [] => Some (set_phase Idle (set_stores (snd (sweep_phase env opts now th live (w_stores w))) w))
    | _, _ => None
    end
  end.

Fixpoint run (evs : list event) (w : World) : option World :=
  match evs with [] => Some w | ev :: evs => w ← step ev w; run evs w end.
End Machine.

(** * What holds at every step *)

Section Safety.
Context `{Blake3} `{HZs : ZstdOk} `{HFu : FuseOk} `{HC1 : Cbor (list bytes)} `{HC2 : Cbor (list DirPair)} `{HC3 : Cbor (list Entry)}
  `{HC4 : Cbor Reference} `{HEg : ErrgroupOk} `{HPb : PebbleOk}.

(** The content of each key: records of one key carry one payload, as content addressing
    intends. Over it the object graph does not depend on the store. *)
Context (obj : Key -> bytes).
Definition children (k : Key) : res (list Key) := reach_step (fun k => Ok (obj k)) k.
Definition reach (root k : Key) : Prop := reachable children root k.

Definition addressed (s : Store) : Prop := forall k rec, held_in s k rec -> payload rec = Ok (obj k).
Definition there (s : Store) (k : Key) : Prop := is_Some (view s k).
(** Everything [root] reaches is stored and decodes. *)
Definition complete (s : Store) (root : Key) : Prop :=
  forall k, reach root k -> there s k /\ exists cs, children k = Ok cs.

(** The references, with the roots they name. *)
Definition names_root (w : World) (root : Key) : Prop :=
  exists name data, refs (c_refs (w_stores w)) !! name = Some data /\ root_of (MkRefRecord name data) = Ok root.
Definition holder_ok (s : Store) (h : holder) : Prop :=
  match h with
  | Walking root seen out frontier =>
    swept children root seen out frontier /\ forall k, k ∈ out -> k ∈ frontier \/ there s k
  | Prepared root => complete s root
  end.

(** What keeps a root's objects through the sweep: the mark will reach the root, or the
    barrier has its closure. *)
Definition grey_ok (G : gset Key) (root : Key) : Prop := forall k, reach root k -> k ∈ G.
Definition covered (w : World) (G : gset Key) (P : Key -> Prop) : Prop :=
  (forall root, names_root w root -> P root \/ grey_ok G root) /\
  (forall root, Prepared root ∈ w_holders w -> grey_ok G root).
Definition marking_ok (live : MarkSet) (stack : list Key) (S : gset Key) : Prop :=
  (exists s0, core s0 /\ marks s0 live S) /\
  forall k c, k ∈ S -> edge children k c -> c ∈ S \/ c ∈ stack.
Definition phase_ok (w : World) : Prop :=
  match w_phase w with
  | Idle => True
  | Snapped rs => exists G, barrier (objects w) = (true, Some G) /\ covered w G (fun r => r ∈ rs)
  | Marking live stack rs =>
    exists G S, barrier (objects w) = (true, Some G) /\ marking_ok live stack S /\
    covered w G (fun r => r ∈ S \/ r ∈ stack \/ r ∈ rs)
  end.

Record safe (w : World) : Prop := {
    sf_inv : inv (objects w);
    sf_named : well_named (objects w);
    sf_addr : addressed (objects w);
    sf_decodes name data : refs (c_refs (w_stores w)) !! name = Some data -> exists root, root_of (MkRefRecord name data) = Ok root;
    sf_refs root : names_root w root -> complete (objects w) root;
    sf_holders : Forall (holder_ok (objects w)) (w_holders w);
    sf_phase : phase_ok w
  }.

(** The clients' side: writers append whole records of the content they name, a PUT
    publishes the root it prepared, and the identifiers last. *)
Definition fair (ev : event) (w : World) : Prop :=
  match ev with
  | Append k rec _ => (exists h, whole rec h /\ RKey h = k) /\ payload rec = Ok (obj k) /\ nextID (objects w) + 1 < 2 ^ 64
  | Commit i name data => forall root, w_holders w !! i = Some (Prepared root) -> root_of (MkRefRecord name data) = Ok root
  | SweepNow env _ _ _ => (0 < se_procs env)%nat /\ nextID (objects w) + 2 ^ 35 * (zlen (sealed (objects w)) + 1) < 2 ^ 64
  | _ => True
  end.
Fixpoint fair_run (evs : list event) (w : World) : Prop :=
  match evs with
  | [] => True
  | ev :: evs => fair ev w /\ forall w', step ev w = Some w' -> fair_run evs w'
  end.

(** ** Stores that only grow *)

Record onward (s s' : Store) : Prop := {
    ow_inv : inv s';
    ow_named : well_named s';
    ow_addr : addressed s';
    ow_there k : there s k -> there s' k
  }.
Lemma onward_same s s' : well_named s -> addressed s -> same_held s s' -> onward s s'.
Proof.
  intros W A SH. split; [apply SH|by eapply same_held_named| |].
  - intros k rec Hh. apply A. by apply (same_held_held _ _ _ _ SH).
  - intros k. unfold there. by rewrite (sv_view _ _ (sh_view _ _ SH)).
Qed.
Lemma complete_onward s s' root : onward s s' -> complete s root -> complete s' root.
Proof. intros O C k Hk. destruct (C k Hk) as [Ht Hc]. split; [by apply O|done]. Qed.
Lemma holder_onward s s' h : onward s s' -> holder_ok s h -> holder_ok s' h.
Proof.
  intros O. destruct h as [root seen out frontier|root]; [|by apply complete_onward].
  intros [W HT]. split; [done|]. intros k Hk. destruct (HT k Hk); [by left|right; by apply O].
Qed.

(** A step of the object store alone. *)
Lemma safe_objects w s' :
  safe w -> onward (objects w) s' ->
  (forall G, barrier (objects w) = (true, Some G) -> exists G', barrier s' = (true, Some G') /\ G ⊆ G') ->
  safe (set_stores (MkStores s' (c_refs (w_stores w))) w).
Proof.
  intros [I W A D R HF P] O HB. split; cbn [w_stores set_stores c_refs objects c_objects w_holders]; [apply O|apply O|apply O|done| | |].
  - intros root Hn. by apply (complete_onward (objects w)), R.
  - eapply list.Forall_impl; [exact HF|]. intros h. by apply holder_onward.
  - unfold phase_ok in *. cbn [w_phase set_stores].
    assert (forall G G' Q, G ⊆ G' -> covered w G Q -> covered (set_stores (MkStores s' (c_refs (w_stores w))) w) G' Q) as HCv.
    { intros G G' Q Sub [C1 C2]. split.
      - intros root Hn. destruct (C1 root Hn) as [?|HG]; [by left|right]. intros k Hk. by apply Sub, HG.
      - intros root Hp k Hk. by apply Sub, (C2 root Hp). }
    destruct (w_phase w) as [|rs|live stack rs]; [done| |].
    + destruct P as (G & HG & Cv). destruct (HB G HG) as (G' & HG' & Sub). exists G'. split; [done|]. by eapply HCv.
    + destruct P as (G & S & HG & MK & Cv). destruct (HB G HG) as (G' & HG' & Sub). exists G', S. split_and!; [done|done|]. by eapply HCv.
Qed.
Lemma same_barrier s s' : barrier s' = barrier s ->
  forall G, barrier s = (true, Some G) -> exists G', barrier s' = (true, Some G') /\ G ⊆ G'.
Proof. intros E G HG. exists G. by rewrite E. Qed.

(** ** The store's steps *)

Lemma Get_same k s r s' : inv s -> Store.Get k s = (r, s') -> same_held s s' /\ barrier s' = barrier s.
Proof.
  intros I E. unfold Store.Get in E. rewrite M_gets in E. cbn [id] in E.
  destruct (closed s); [injection E as <- <-; split; [by apply same_held_refl|done]|].
  destruct (active_loc s k) as [[a loc]|]; [|unfold lift in E; injection E as <- <-; split; [by apply same_held_refl|done]].
  apply io_bind_inv in E as (rx & d & (fs & -> & _)%ReadAt_out & E').
  assert (s' = set_disk (set_faults fs (st_disk s)) s) as ->.
  { destruct rx; [unfold lift in E'; by injection E' as _ <-|by destruct E'; subst]. }
  split; [|done]. apply disk_same_held; [done|by apply keeps_inodes|done].
Qed.
Lemma sync_same s r s' : inv s -> syncActive s = (r, s') -> same_held s s' /\ barrier s' = barrier s.
Proof.
  intros I E. unfold syncActive in E. unfold mbind at 1, M_bind at 1 in E.
  destruct (writable s) as [r1 s1] eqn:E1. apply writable_inv in E1 as [-> _].
  destruct r1 as [[]|e]; [|injection E as <- <-; split; [by apply same_held_refl|done]].
  rewrite M_gets in E. cbn [id] in E. destruct (active s) as [a|]; [|injection E as <- <-; split; [by apply same_held_refl|done]].
  destruct (negb _); [injection E as <- <-; split; [by apply same_held_refl|done]|].
  unfold mbind, M_bind in E. destruct (poison (io (Disk.Sync (a_f a))) s) as [r2 s2] eqn:E2.
  pose proof (sync_same_held s a r2 s2 I E2) as SH.
  assert (barrier s2 = barrier s) as EB by (apply poison_shape in E2 as (s3 & (d & _ & ->)%io_inv & [->|(f & ->)]); done).
  destruct r2 as [[]|e]; injection E as <- <-; [|by split]. split; [|done].
  destruct SH as [[I2 F2 V2] [I3 F3 V3] ES EA EN]. split; [| |done..].
  - split; [|by destruct F2|done]. destruct I2 as [Hc [CS CA] HP]. split; [done|by split|done].
  - split; [|by destruct F3|done]. destruct I3 as [Hc [CS CA] HP]. split; [done|by split|done].
Qed.
Lemma observe_onward ks s r s' : inv s -> well_named s -> addressed s -> ObserveKeys ks s = (r, s') ->
  onward s s' /\ forall G, barrier s = (true, Some G) -> barrier s' = (true, Some (list_to_set ks ∪ G)).
Proof.
  intros I W A [= <- <-].
  assert (same_held s (if negb (capturing s) then s else match grey s with None => s | Some g => set_barrier (capturing s) (Some (list_to_set ks ∪ g)) s end)) as SH.
  { destruct (negb _); [by apply same_held_refl|]. destruct (grey s) as [g|]; [|by apply same_held_refl].
    destruct I as [Hc [CS CA] HP]. split; [| |done..].
    - split; [split; [done|by split|done]|by split|done].
    - split; [split; [done|split; [constructor|done]|done]|by split|done]. }
  split; [by apply onward_same|]. unfold barrier. intros G [= EC EG]. by rewrite EC, EG.
Qed.
Lemma append_onward h rec b s r s' :
  inv s -> well_named s -> addressed s -> whole rec h -> payload rec = Ok (obj (RKey h)) -> nextID s + 1 < 2 ^ 64 ->
  appendLocked (RKey h) rec b s = (r, s') -> onward s s'.
Proof.
  intros I W A Wh Hp Hn E. destruct (append_spec s h rec b r s' I Wh E) as [I' _ O K]. split; [done|by eapply append_well_named| |].
  - intros k rec' Hh. destruct (append_held _ _ _ _ _ _ _ _ I Wh E Hh) as [Hh'|[-> ->]]; [by apply A|done].
  - intros k Hk. unfold there in *. destruct (decide (k = RKey h)) as [->|Hne]; [|by rewrite O].
    destruct K as [->|[-> _]]; [by eexists|done].
Qed.

(** ** Holders and references *)

Lemma safe_holders w hs :
  safe w -> Forall (holder_ok (objects w)) hs -> (forall root, Prepared root ∈ hs -> Prepared root ∈ w_holders w) ->
  safe (set_holders hs w).
Proof.
  intros [I W A D R HF P] F Sub. split; try done. unfold phase_ok in *. cbn [w_phase set_holders].
  assert (forall G Q, covered w G Q -> covered (set_holders hs w) G Q) as HCv.
  { intros G Q [C1 C2]. split; [exact C1|]. intros root Hp. apply C2, Sub, Hp. }
  destruct (w_phase w) as [|rs|live stack rs]; [done| |].
  - destruct P as (G & HG & Cv). exists G. split; [done|]. by apply HCv.
  - destruct P as (G & S & HG & MK & Cv). exists G, S. split_and!; [done|done|]. by apply HCv.
Qed.
Lemma elem_of_delete {A} (l : list A) i x : x ∈ delete i l -> x ∈ l.
Proof.
  intros Hx. rewrite <- (take_drop i l). rewrite delete_take_drop in Hx. apply elem_of_app in Hx as [Hx|Hx]; apply elem_of_app; [by left|right].
  rewrite <- (take_drop 1 (drop i l)), drop_drop, Nat.add_1_r. apply elem_of_app. by right.
Qed.
Lemma safe_drop_holder w i : safe w -> safe (set_holders (delete i (w_holders w)) w).
Proof.
  intros S. apply safe_holders; [done|by apply Forall_delete, S|]. intros root. apply elem_of_delete.
Qed.

Lemma safe_refs w rs :
  safe w -> (forall name data, refs rs !! name = Some data ->
    refs (c_refs (w_stores w)) !! name = Some data \/
    exists root, root_of (MkRefRecord name data) = Ok root /\ Prepared root ∈ w_holders w) ->
  safe (set_stores (MkStores (objects w) rs) w).
Proof.
  intros [I W A D R HF P] HR.
  assert (forall root, names_root (set_stores (MkStores (objects w) rs) w) root -> names_root w root \/ Prepared root ∈ w_holders w) as HN.
  { intros root (name & data & Hn & Hr). destruct (HR name data Hn) as [?|(root' & Hr' & Hp)]; [left; by exists name, data|right; congruence]. }
  split; try done; cbn [w_stores set_stores c_refs objects c_objects w_holders].
  - intros name data Hn. destruct (HR name data Hn) as [Ho|(root & Hr & _)]; [by eapply D|by exists root].
  - intros root [Ho|Hp]%HN; [by apply R|]. rewrite list.Forall_forall in HF. by apply (HF (Prepared root)).
  - unfold phase_ok in *. cbn [w_phase set_stores].
    assert (forall G Q, covered w G Q -> covered (set_stores (MkStores (objects w) rs) w) G Q) as HCv.
    { intros G Q [C1 C2]. split; [|done]. intros root [Ho|Hp]%HN; [by apply C1|right; by apply C2]. }
    destruct (w_phase w) as [|rl|live stack rl]; [done| |].
    + destruct P as (G & HG & Cv). exists G. split; [done|]. by apply HCv.
    + destruct P as (G & S & HG & MK & Cv). exists G, S. split_and!; [done|done|]. by apply HCv.
Qed.

(** ** The walk of a PUT *)

Lemma check_step_children s k cs :
  inv s -> addressed s -> check_step (fun k => fst (Store.Get k s)) (Has s) k = Ok cs -> there s k /\ children k = Ok cs.
Proof.
  intros I A. unfold check_step, children, reach_step. destruct (is_leaf k) eqn:EL.
  - rewrite (Has_view _ _ (inv_core _ I)). destruct (closed s); [done|]. cbn [mbind res_bind].
    case_bool_decide as Hs; [|done]. by intros [= <-].
  - unfold node_children. destruct (Store.Get k s) as [r s'] eqn:EG. cbn [fst].
    pose proof (Get_view s k r s' (inv_core _ I) EG) as [HA _]. cbv zeta in HA. destruct r as [data|e]; [|done].
    cbn [mbind res_bind]. destruct HA as [HA|[=]]. destruct (closed s); [done|]. unfold found in HA.
    destruct (view s k) as [rec|] eqn:Ev; [|done]. pose proof (A k rec (view_held _ _ _ Ev)) as HO.
    intros E. split; [by eexists|]. congruence.
Qed.
Lemma walk_round_ok s root seen out frontier h :
  inv s -> addressed s -> holder_ok s (Walking root seen out frontier) ->
  walk_round s root seen out frontier = Ok h -> holder_ok s h /\ forall root', h <> Prepared root'.
Proof.
  intros I A [SW HT] E. unfold walk_round in E.
  destruct (wait _) as [lists|] eqn:EW; [|done]. cbn [mbind res_bind] in E. apply wait_Ok in EW.
  assert (forall k, k ∈ frontier -> exists cs, check_step (fun k => fst (Store.Get k s)) (Has s) k = Ok cs) as HS.
  { intros k Hk. apply (list_elem_of_fmap_2 (check_step (fun k => fst (Store.Get k s)) (Has s))) in Hk.
    change (fmap ?f ?l) with (map f l) in Hk. rewrite EW in Hk. apply list_elem_of_fmap in Hk as (cs & ? & _). by exists cs. }
  assert (map children frontier = Ok <$> lists) as EC.
  { rewrite <- EW. apply map_ext_in. intros k Hk. apply list_elem_of_In in Hk. destruct (HS k Hk) as [cs Hc]. rewrite Hc.
    by destruct (check_step_children _ _ _ I A Hc). }
  destruct (swept_round children root seen out frontier lists SW EC) as (new & EF & SW' & _).
  rewrite EF in E. injection E as <-. split; [|done]. split; [done|]. intros k Hk.
  apply elem_of_app in Hk as [Hk|Hk]; [|by left]. right. destruct (HT k Hk) as [Hf|Ht]; [|done].
  destruct (HS k Hf) as [cs Hc]. by destruct (check_step_children _ _ _ I A Hc).
Qed.
Lemma walked_complete s root seen out : holder_ok s (Walking root seen out []) -> complete s root.
Proof.
  intros [SW HT] k Hk. destruct (swept_done children root seen out k SW) as [HI HC]. apply HI in Hk.
  split; [|by apply HC]. by destruct (HT k Hk) as [?%elem_of_nil|].
Qed.
Lemma walked_all s root seen out k : holder_ok s (Walking root seen out []) -> reach root k -> k ∈ out.
Proof. intros [SW _] Hk. by apply (swept_done children root seen out k SW). Qed.

(** ** The collector's steps *)

Lemma barrier_same_held s c g : inv s -> same_held s (set_barrier c g s).
Proof.
  intros [Hc [CS CA] HP]. split; [| |done..].
  - split; [split; [done|by split|done]|by split|done].
  - split; [split; [done|split; [constructor|done]|done]|by split|done].
Qed.
Lemma safe_idle w : safe w -> safe (set_phase Idle w).
Proof. intros [I W A D R HF P]. by split. Qed.
Lemma abort_safe w : safe w -> safe (abort_cycle w).
Proof.
  intros S. destruct (safe_idle w S) as [I W A D R HF P]. unfold abort_cycle, run_objects, on_objects. cbn.
  pose proof (onward_same _ _ W A (barrier_same_held _ false None I)) as O.
  split; cbn; [apply O|apply O|apply O|done| | |done].
  - intros root Hn. by apply (complete_onward (objects w)), R.
  - eapply list.Forall_impl; [exact HF|]. intros h. by apply holder_onward.
Qed.

Lemma mapM_root_of recs rs r : mapM root_of recs = Ok rs -> r ∈ recs -> exists root, root_of r = Ok root /\ root ∈ rs.
Proof.
  revert rs. induction recs as [|r0 recs IH]; intros rs E Hin; [by apply elem_of_nil in Hin|].
  cbn in E. destruct (root_of r0) as [root|] eqn:E0; [|done]. cbn in E.
  destruct (mapM root_of recs) as [rs'|] eqn:E1; [|done]. cbn in E. injection E as <-.
  apply elem_of_cons in Hin as [->|Hin]; [exists root; split; [done|by left]|].
  destruct (IH rs' eq_refl Hin) as (root' & ? & ?). exists root'. split; [done|by right].
Qed.

Lemma start_safe w w' : safe w -> step Start w = Some w' -> safe w'.
Proof.
  intros SF E. cbn in E. destruct (w_holders w) as [|? ?] eqn:Eh; [|done]. destruct (w_phase w); try done.
  unfold snapshot, aborting, catch_world, roots in E. unfold mbind at 1, M_bind at 1, on_objects at 1 in E.
  cbn [BeginBarrier modify c_objects c_refs] in E. unfold mbind at 1, M_bind at 1, on_refs at 1 in E.
  cbn [c_objects c_refs] in E. destruct (All (c_refs (w_stores w))) as [rr rs'] eqn:EA.
  apply All_out in EA as [ER HL]. pose proof (sf_inv _ SF) as I.
  assert (forall c g ph, (ph = Idle \/ exists rl, ph = Snapped rl /\ (c, g) = (true, Some ∅) /\ forall root, names_root w root -> root ∈ rl) ->
  safe (MkWorld (MkStores (set_barrier c g (objects w)) rs') [] ph)) as K.
  { intros c g ph Hph. destruct SF as [_ W A D R HF P].
    pose proof (onward_same _ _ W A (barrier_same_held _ c g I)) as O.
    assert (forall root, names_root (MkWorld (MkStores (set_barrier c g (objects w)) rs') [] ph) root -> names_root w root) as HN.
    { intros root (name & data & Hn & Hr). exists name, data. cbn in Hn. by rewrite ER in Hn. }
    split; cbn [objects w_stores c_objects c_refs w_holders]; [apply O|apply O|apply O| | |constructor|].
    - intros name data. rewrite ER. apply D.
    - intros root Hn%HN. by apply (complete_onward (objects w)), R.
    - destruct Hph as [->|(rl & -> & [= -> ->] & HC)]; [done|]. exists ∅. split; [done|]. split.
      + intros root Hn%HN. left. by apply HC.
      + intros root Hp. by apply elem_of_nil in Hp. }
  destruct rr as [recs|e]; cycle 1.
  { unfold fail in E. cbn in E. injection E as <-. apply K. by left. }
  unfold lift in E. destruct (mapM root_of recs) as [rl|e] eqn:EM; cycle 1.
  { cbn in E. injection E as <-. apply K. by left. }
  injection E as <-. apply K. right. exists rl. split_and!; [done..|]. intros root (name & data & Hn & Hr).
  destruct HL as [_ HI]. apply HI in Hn. destruct (mapM_root_of _ _ _ EM Hn) as (root' & Hr' & Hin). congruence.
Qed.

Lemma mark_one_ok s k live stack r s' S :
  inv s -> well_named s -> addressed s -> marking_ok live (k :: stack) S ->
  mark_one k live stack s = (r, s') ->
  onward s s' /\ barrier s' = barrier s /\
  forall live' stack', r = Ok (live', stack') ->
  exists S', marking_ok live' stack' S' /\ S ⊆ S' /\ k ∈ S' /\ forall c, c ∈ stack -> c ∈ stack'.
Proof.
  intros I W A [(s0 & C0 & MK) HE] E. unfold mark_one in E.
  destruct (Mark k live) as [[newly present] live1] eqn:EM.
  destruct (Mark_spec s0 C0 _ _ _ _ _ _ MK EM) as (_ & EN & MK1).
  assert (onward s s) as O0 by (by apply onward_same; [..|apply same_held_refl]).
  destruct present; cbn [negb] in E; [|injection E as <- <-; by split_and!].
  assert (forall st, (forall c, edge children k c -> c ∈ {[k]} ∪ S \/ c ∈ st) -> (forall c, c ∈ stack -> c ∈ st) ->
  marking_ok live1 st ({[k]} ∪ S)) as HM.
  { intros st Hk Hst. split; [by exists s0|]. intros k' c [->%elem_of_singleton|Hk']%elem_of_union Hc; [by apply Hk|].
    destruct (HE k' c Hk' Hc) as [?|[->|?]%elem_of_cons]; [left; set_solver|left; set_solver|right; by apply Hst]. }
  destruct newly; cbn [negb andb] in E, EN; cycle 1.
  { injection E as <- <-. split_and!; [done..|]. intros live' stack' [= <- <-]. exists ({[k]} ∪ S).
    assert (k ∈ S) as HkS by (symmetry in EN; apply negb_false_iff in EN; by apply bool_decide_eq_true in EN).
    split_and!; [|set_solver|set_solver|done]. apply HM; [|done]. intros c Hc.
    destruct (HE k c HkS Hc) as [?|[->|?]%elem_of_cons]; [left; set_solver|left; set_solver|by right]. }
  destruct (is_leaf k) eqn:EL.
  { injection E as <- <-. split_and!; [done..|]. intros live' stack' [= <- <-]. exists ({[k]} ∪ S).
    split_and!; [|set_solver|set_solver|done]. apply HM; [|done]. intros c (cs & Ec & Hc). unfold children, reach_step in Ec.
    rewrite EL in Ec. injection Ec as <-. by apply elem_of_nil in Hc. }
  unfold mbind at 1, M_bind at 1 in E. destruct (Store.Get k s) as [r1 s1] eqn:EG.
  destruct (Get_same _ _ _ _ I EG) as [SH EB]. pose proof (onward_same _ _ W A SH) as O1.
  destruct r1 as [data|e]; [|injection E as <- <-; by split_and!]. rewrite M_lift in E.
  destruct (ChildKeys k data) as [cs|e] eqn:EC; [|injection E as <- <-; by split_and!].
  injection E as <- <-. split_and!; [done..|]. intros live' stack' [= <- <-]. exists ({[k]} ∪ S).
  assert (forall c, c ∈ stack -> c ∈ rev cs ++ stack) as Hst by (intros c Hc; apply elem_of_app; by right).
  split_and!; [|set_solver|set_solver|done]. apply HM; [|done].
  intros c (cs' & Ec & Hc). right. apply elem_of_app. left. rewrite list_elem_of_In, <- in_rev, <- list_elem_of_In.
  assert (cs' = cs) as ->; [|done]. unfold children, reach_step in Ec. rewrite EL in Ec. unfold node_children in Ec. cbn [mbind res_bind] in Ec.
  pose proof (Get_view s k _ s1 (inv_core _ I) EG) as [HA _]. cbv zeta in HA. destruct HA as [HA|[=]].
  destruct (closed s); [done|]. unfold found in HA. destruct (view s k) as [rec|] eqn:Ev; [|done].
  pose proof (A k rec (view_held _ _ _ Ev)). congruence.
Qed.

(** A mark that is done has marked all a root reaches. *)
Lemma marked_closed live S root k : marking_ok live [] S -> root ∈ S -> reach root k -> k ∈ S.
Proof.
  intros [_ HE] Hr Hk. unfold reach, reachable in Hk. induction Hk as [root|root c k Hc _ IH]; [done|].
  apply IH. destruct (HE root c Hr Hc) as [?|?%elem_of_nil]; done.
Qed.

Lemma sweep_safe w env opts now th w' :
  safe w -> fair (SweepNow env opts now th) w -> step (SweepNow env opts now th) w = Some w' -> safe w'.
Proof.
  intros [I W A D R HF P] [Hp Hn] E. cbn in E. destruct (w_holders w) as [|? ?] eqn:Eh; [|done].
  unfold phase_ok in P. destruct (w_phase w) as [| |live [|? ?] [|? ?]] eqn:Eph; try done.
  destruct P as (G & S & HB & MK & [C1 _]). unfold sweep_phase in E. fold (objects w) in E.
  destruct (Compact _ _ _ _ _ _) as [r sw] eqn:EC. cbn [snd] in E. injection E as <-.
  apply Compact_spec in EC as (I' & W' & K & Hh); [|done..].
  assert (forall root k, names_root w root -> reach root k -> there (objects w) k -> there (sw_store sw) k) as Keep.
  { intros root k Hroot Hk Ht. apply K; [|exact Ht]. destruct (C1 root Hroot) as [[Hs|[?%elem_of_nil|?%elem_of_nil]]|HG]; [|done..|].
    - left. destruct MK as [(s0 & C0 & MK) HE]. rewrite (MarkContains_spec s0 C0 _ _ k MK). apply bool_decide_eq_true_2.
      eapply marked_closed; [|exact Hs|exact Hk]. split; [by exists s0|exact HE].
    - right. injection HB as _ ->. by apply HG. }
  split; cbn [objects w_stores c_objects c_refs set_phase set_stores w_holders w_phase]; [done|done| |done| |by rewrite Eh|done].
  - intros k rec Hk. by apply A, Hh.
  - intros root Hroot k Hk. destruct (R root Hroot k Hk) as [Ht Hc]. split; [|done]. by eapply Keep.
Qed.

(** ** Every step *)

Lemma safe_run_objects {A} (m : M Store A) w :
  safe w -> (forall r s', m (objects w) = (r, s') -> onward (objects w) s' /\
    forall G, barrier (objects w) = (true, Some G) -> exists G', barrier s' = (true, Some G') /\ G ⊆ G') ->
  safe (run_objects m w).
Proof.
  intros SF Hm. unfold run_objects, on_objects. fold (objects w). destruct (m (objects w)) as [r s'] eqn:E.
  destruct (Hm r s' eq_refl) as [O HB]. by apply safe_objects.
Qed.

Lemma observe_safe ks w : safe w -> safe (run_objects (ObserveKeys ks) w).
Proof.
  intros SF. apply safe_run_objects; [done|]. intros r s' E.
  destruct (observe_onward ks _ _ _ (sf_inv _ SF) (sf_named _ SF) (sf_addr _ SF) E) as [O HB].
  split; [done|]. intros G HG. eexists. split; [by apply HB|set_solver].
Qed.

Lemma grey_safe w i root seen out :
  safe w -> w_holders w !! i = Some (Walking root seen out []) ->
  safe (run_objects (ObserveKeys out) (set_holders (<[i:=Prepared root]> (w_holders w)) w)).
Proof.
  intros SF Hi. pose proof (sf_holders _ SF) as HF. rewrite list.Forall_forall in HF.
  pose proof (HF _ (list_elem_of_lookup_2 _ _ _ Hi)) as HO.
  change (safe (set_holders (<[i:=Prepared root]> (w_holders w)) (run_objects (ObserveKeys out) w))).
  pose proof (observe_safe out w SF) as SF1. set (w1 := run_objects (ObserveKeys out) w) in *.
  assert (w_holders w1 = w_holders w) as Eh by done.
  destruct (ObserveKeys out (objects w)) as [r s'] eqn:EO.
  assert (objects w1 = s') as Eo by (unfold w1, run_objects, on_objects; fold (objects w); by rewrite EO).
  destruct (observe_onward out _ _ _ (sf_inv _ SF) (sf_named _ SF) (sf_addr _ SF) EO) as [O HB].
  assert (complete (objects w1) root) as HC by (rewrite Eo; eapply complete_onward; [exact O|by eapply walked_complete]).
  destruct SF1 as [I W A D R HF1 P]. split; try done.
  - cbn [w_holders set_holders]. rewrite <- Eh. by apply Forall_insert.
  - unfold phase_ok in *. cbn [w_phase set_holders].
    assert (forall G, barrier (objects w1) = (true, Some G) -> grey_ok G root) as HG.
    { intros G EG. rewrite Eo in EG. assert (barrier (objects w) = (true, grey (objects w))) as EB.
      { unfold barrier in EG |- *. injection EO as _ <-. destruct (capturing (objects w)) eqn:Ec; [done|]. cbn in EG. congruence. }
      destruct (grey (objects w)) as [G0|] eqn:EG0; cycle 1.
      { exfalso. unfold barrier in EG, EB. injection EO as _ <-. injection EB as Ec. rewrite Ec in EG. cbn in EG. rewrite EG0 in EG. congruence. }
      rewrite (HB G0 EB) in EG. injection EG as <-. intros k Hk. apply elem_of_union. left. apply elem_of_list_to_set.
      by eapply walked_all. }
    assert (forall G Q, barrier (objects w1) = (true, Some G) -> covered w1 G Q ->
    covered (set_holders (<[i:=Prepared root]> (w_holders w)) w1) G Q) as HCv.
    { intros G Q EG [C1 C2]. split; [exact C1|]. intros root' Hp. cbn [w_holders set_holders] in Hp.
      apply list_elem_of_lookup in Hp as [j Hj]. destruct (decide (i = j)) as [<-|Hne].
      - rewrite list_lookup_insert_eq in Hj by (by eapply lookup_lt_Some). injection Hj as <-. by apply HG.
      - rewrite list_lookup_insert_ne in Hj by done. apply C2. rewrite Eh. by eapply list_elem_of_lookup_2. }
    destruct (w_phase w1) as [|rl|live stack rl]; [done| |].
    + destruct P as (G & EG & Cv). exists G. split; [done|]. by apply HCv.
    + destruct P as (G & S & EG & MK & Cv). exists G, S. split_and!; [done|done|]. by apply HCv.
Qed.

Lemma mark_turn_safe w w' : safe w -> step MarkTurn w = Some w' -> safe w'.
Proof.
  intros SF E. cbn in E. destruct (w_phase w) as [|rl|live [|k stack] rs] eqn:Eph; try done.
  - destruct rs as [|root rs]; [done|]. injection E as <-. destruct SF as [I W A D R HF P]. split; try done.
    unfold phase_ok in *. rewrite Eph in P. cbn. destruct P as (G & S & HB & [MK HE] & [C1 C2]).
    exists G, S. split; [done|]. split; [split; [done|]|split; [|done]].
    + intros k c Hk Hc. destruct (HE k c Hk Hc) as [?|?%elem_of_nil]; [by left|done].
    + intros root' Hn. destruct (C1 root' Hn) as [[?|[?%elem_of_nil|[->|?]%elem_of_cons]]|?]; [by left; left|done| |by left; right; right|by right].
      left; right; left. by apply list_elem_of_singleton.
  - pose proof (sf_phase _ SF) as P. unfold phase_ok in P. rewrite Eph in P. destruct P as (G & S & HB & MK & [C1 C2]).
    unfold on_objects in E. fold (objects w) in E. destruct (mark_one k live stack (objects w)) as [r s'] eqn:EM.
    destruct (mark_one_ok _ _ _ _ _ _ _ (sf_inv _ SF) (sf_named _ SF) (sf_addr _ SF) MK EM) as (O & EB & HM).
    assert (safe (set_stores (MkStores s' (c_refs (w_stores w))) w)) as SF1 by (apply safe_objects; [done..|by apply same_barrier]).
    destruct r as [[live' stack']|e].
    + injection E as <-. destruct (HM _ _ eq_refl) as (S' & MK' & HS & Hk & Hst).
      destruct SF1 as [I W A D R HF P]. split; try done. unfold phase_ok. cbn [w_phase set_phase].
      exists G, S'. split; [cbn; by rewrite EB|]. split; [done|]. split; [|done].
      intros root' Hn. destruct (C1 root' Hn) as [[?|[[->|?]%elem_of_cons|?]]|?].
      * left; left. by apply HS.
      * left; by left.
      * left; right; left. by apply Hst.
      * left; by right; right.
      * by right.
    + injection E as <-. by apply abort_safe.
Qed.

Lemma step_safe ev w w' : safe w -> fair ev w -> step ev w = Some w' -> safe w'.
Proof.
  intros SF HF E. pose proof (sf_inv _ SF) as I. pose proof (sf_named _ SF) as W. pose proof (sf_addr _ SF) as A.
  destruct ev as [k|k rec b| |k|root|i|i|i name data|i|name| | | | |env opts now th].
  - injection E as <-. by apply (observe_safe [k]).
  - injection E as <-. destruct HF as ((h & Wh & <-) & Hp & Hn). apply safe_run_objects; [done|]. intros r s' E. split.
    + by eapply append_onward.
    + apply same_barrier. by eapply append_barrier.
  - injection E as <-. apply safe_run_objects; [done|]. intros r s' E. destruct (sync_same _ _ _ I E) as [SH EB]. split; [by apply onward_same|by apply same_barrier].
  - injection E as <-. apply safe_run_objects; [done|]. intros r s' E. destruct (Get_same _ _ _ _ I E) as [SH EB]. split; [by apply onward_same|by apply same_barrier].
  - injection E as <-. apply safe_holders; [done| |].
    + apply Forall_app. split; [apply SF|]. apply Forall_singleton. split; [apply swept_start|]. intros k Hk. by left.
    + intros root' [Hp|[=]%list_elem_of_singleton]%elem_of_app. done.
  - cbn [step] in E. destruct (w_holders w !! i) as [[root seen out [|k frontier]|]|] eqn:Hi; try done.
    pose proof (sf_holders _ SF) as HFo. rewrite list.Forall_forall in HFo. pose proof (HFo _ (list_elem_of_lookup_2 _ _ _ Hi)) as HO.
    destruct (walk_round _ _ _ _ _) as [h|e] eqn:EW; injection E as <-; [|by apply safe_drop_holder].
    destruct (walk_round_ok _ _ _ _ _ _ I A HO EW) as [HO' Hne]. apply safe_holders; [done|by apply Forall_insert; [apply SF|]|].
    intros root' Hp. apply list_elem_of_lookup in Hp as [j Hj]. destruct (decide (i = j)) as [<-|Hij].
    + rewrite list_lookup_insert_eq in Hj by (by eapply lookup_lt_Some). injection Hj as ->. by destruct (Hne root').
    + rewrite list_lookup_insert_ne in Hj by done. by eapply list_elem_of_lookup_2.
  - cbn [step] in E. destruct (w_holders w !! i) as [[root seen out [|? ?]|]|] eqn:Hi; try done. injection E as <-. by apply (grey_safe w i root seen out).
  - cbn [step] in E. destruct (w_holders w !! i) as [[|root]|] eqn:Hi; try done. injection E as <-.
    assert (safe (run_refs (Refstore.Put name data) w)) as SF1; [|by apply (safe_drop_holder (run_refs (Refstore.Put name data) w))].
    unfold run_refs, on_refs. destruct (Refstore.Put name data (c_refs (w_stores w))) as [r rs] eqn:EP. apply Put_out in EP.
    apply (safe_refs w rs SF). intros name' data' Hn.
    destruct EP as [EP|[_ EP]]; rewrite EP in Hn; [|by left]. destruct (decide (name = name')) as [<-|Hne].
    + rewrite lookup_insert_eq in Hn. injection Hn as <-. right. exists root. split; [by apply HF|by eapply list_elem_of_lookup_2].
    + rewrite lookup_insert_ne in Hn by done. by left.
  - injection E as <-. by apply safe_drop_holder.
  - injection E as <-. unfold run_refs, on_refs. destruct (Refstore.Delete name (c_refs (w_stores w))) as [r rs] eqn:EP. apply Delete_out in EP.
    apply (safe_refs w rs SF). intros name' data' Hn. left. destruct EP as [[EP _]|[_ EP]]; rewrite EP in Hn; [|done].
    by apply lookup_delete_Some in Hn as [_ ?].
  - by apply (start_safe w).
  - cbn [step] in E. destruct (w_phase w) as [|rl|] eqn:Eph; try done. injection E as <-. pose proof (sf_phase _ SF) as P.
    unfold phase_ok in P. rewrite Eph in P. destruct P as (G & HB & C1 & C2). destruct SF as [_ _ _ D R HFo _]. split; try done.
    unfold phase_ok. cbn [w_phase set_phase]. exists G, ∅. split; [done|]. split.
    + split; [exists (objects w); split; [apply I|by apply marks_new, I]|]. intros k c Hk. set_solver.
    + split; [|done]. intros root Hn. destruct (C1 root Hn); [by left; right; right|by right].
  - by apply (mark_turn_safe w).
  - cbn [step] in E. destruct (w_phase w); try done; injection E as <-; by apply abort_safe.
  - by apply (sweep_safe w env opts now th).
Qed.
Lemma run_safe evs w w' : safe w -> fair_run evs w -> run evs w = Some w' -> safe w'.
Proof.
  revert w. induction evs as [|ev evs IH]; intros w SF HF E; [by injection E as <-|]. destruct HF as [HF HFs].
  cbn [run] in E. destruct (step ev w) as [w1|] eqn:E1; [|done]. cbn in E. apply (IH w1); [by eapply step_safe|by apply HFs|done].
Qed.

Lemma fair_run_intro evs w :
  (forall i ev w1, evs !! i = Some ev -> run (take i evs) w = Some w1 -> fair ev w1) -> fair_run evs w.
Proof.
  revert w. induction evs as [|ev evs IH]; intros w HF; [done|]. split; [by apply (HF 0%nat ev w)|].
  intros w' E. apply IH. intros i ev' w1 Hi E1. apply (HF (S i) ev' w1 Hi). cbn [take run]. by rewrite E.
Qed.

(** The references all name roots whose trees are stored and decode. *)
Definition intact (w : World) : Prop :=
  forall name data, refs (c_refs (w_stores w)) !! name = Some data ->
  exists root, root_of (MkRefRecord name data) = Ok root /\ complete (objects w) root.

Lemma safe_intact w : safe w -> intact w.
Proof.
  intros SF name data Hn. destruct (sf_decodes _ SF name data Hn) as (root & Hr). exists root. split; [done|].
  apply (sf_refs _ SF). by exists name, data.
Qed.
Lemma quiet_safe st : inv (c_objects st) -> well_named (c_objects st) -> addressed (c_objects st) ->
  intact (MkWorld st [] Idle) -> safe (MkWorld st [] Idle).
Proof.
  intros I W A HI. split; try done.
  - intros name data Hn. destruct (HI name data Hn) as (root & ? & _). by exists root.
  - intros root (name & data & Hn & Hr). destruct (HI name data Hn) as (root' & Hr' & HC). assert (root = root') as -> by congruence. exact HC.
Qed.
End Safety.

(** * Property *)

(** C1. No published reference ever dangles, whatever the interleaving: start two stores
    and an idle collector from a state in which every reference's tree is complete; let
    writers observe, append and fsync, readers read, reference PUTs lock, walk round by
    round, observe and commit, references be deleted, and cycles start, mark turn by turn,
    be cancelled or sweep - in any order the reference lock allows and with any system
    or database call failing. If writers append the content their keys name and a PUT
    publishes the root it walked, then at every point every reference decodes, all it
    reaches is stored and decodes, and an open store without read errors serves it. *)
Theorem no_reference_dangles `{Blake3} `{ZstdOk} `{FuseOk} `{Cbor (list bytes)} `{Cbor (list DirPair)} `{Cbor (list Entry)}
    `{Cbor Reference} `{ErrgroupOk} `{PebbleOk} (obj : Key -> bytes) st evs w :
  inv (c_objects st) -> well_named (c_objects st) -> addressed obj (c_objects st) -> intact obj (MkWorld st [] Idle) ->
  fair_run obj evs (MkWorld st [] Idle) -> run evs (MkWorld st [] Idle) = Some w ->
  forall name data, refs (c_refs (w_stores w)) !! name = Some data ->
    exists root, root_of (MkRefRecord name data) = Ok root /\
    forall k, reach obj root k ->
      is_Some (view (objects w) k) /\ (exists cs, children obj k = Ok cs) /\
      (closed (objects w) = false -> faults (st_disk (objects w)) = [] -> fst (Store.Get k (objects w)) = Ok (obj k)).
Proof.
  intros I W A HI HF E name data Hn. pose proof (run_safe obj evs _ w (quiet_safe obj st I W A HI) HF E) as SF.
  destruct (safe_intact obj w SF name data Hn) as (root & Hr & HC). exists root. split; [done|]. intros k Hk.
  destruct (HC k Hk) as [Ht Hcs]. split; [done|]. split; [done|]. intros Hc Hf.
  destruct (Store.Get k (objects w)) as [r s'] eqn:EG.
  destruct (Get_view _ k r s' (inv_core _ (sf_inv _ _ SF)) EG) as [_ HA]. cbn [fst]. rewrite (HA Hf), Hc.
  destruct Ht as [rec Hrec]. unfold found. rewrite Hrec. apply (sf_addr _ _ SF). by apply view_held.
Qed.

(** ** A published blob, a greyed one and garbage *)

Lemma put_addressed (obj : Key -> bytes) k s :
  inv s -> addressed obj s -> Validate k = Ok tt -> addressed obj (put k (obj k) s).
Proof.
  intros I A Hk. unfold put. destruct (Put k (obj k) s) as [r s'] eqn:E. cbn [snd]. unfold Store.Put in E.
  rewrite M_gets in E. cbn [id] in E. destruct (failed s); [by injection E as <- <-|].
  unfold mbind at 1, M_bind at 1 in E. destruct (observe k s) as [r1 s1] eqn:E1.
  assert (addressed obj s1) as A1.
  { injection E1 as _ <-. intros k' rec Hh. apply A. clear -Hh. destruct (negb (capturing s)); [done|]. by destruct (grey s). }
  destruct (observe_same _ _ _ _ I E1) as [-> [I1 _ _]]. clear E1.
  unfold mbind at 1, M_bind at 1, reads in E. destruct (Has s1 k) as [[]|]; [by injection E as <- <-| |by injection E as <- <-].
  rewrite M_lift in E. destruct (EncodeRecord k (obj k)) as [rec|e] eqn:EE; [|by injection E as <- <-].
  destruct (EncodeRecord_whole _ _ _ Hk EE) as (h & Wh & Ek & _). rewrite <- Ek in E.
  intros k' rec' Hh. destruct (append_held _ _ _ _ _ _ _ _ I1 Wh E Hh) as [Hh'|[-> ->]]; [by apply A1|].
  rewrite Ek. by apply (payload_EncodeRecord k).
Qed.

(** A file of two blobs, next to the store of three blobs. *)
Definition file_object : Object :=
  match EncodeFileNode [abc_key; sample_key] with Ok o => o | Err _ => MkObject (mk32 []) [] end.
Definition file_key : Key := OKey file_object.
Definition content (k : Key) : bytes :=
  if bool_decide (k = abc_key) then [x61; x62; x63] else if bool_decide (k = sample_key) then [x64; x65; x66]
  else if bool_decide (k = file_key) then OBytes file_object else [x7a].
Definition stocked : Store := put file_key (content file_key) mixed.
Definition ref_data : bytes := match Encode (MkReference [x72] (b32_bytes file_key) [] 0 [] []) with Ok b => b | Err _ => [] end.
Definition small_sweep : SweepEnv := MkSweepEnv 1 [Produce; Send; Take; Finish 0; Consume; Produce] (fun _ => Ok 0).
Definition publish_and_collect : list event :=
  [Lock file_key; Walk 0; Walk 0; Grey 0; Commit 0 [x72] ref_data; Start; StartMark; MarkTurn; MarkTurn; MarkTurn; MarkTurn;
   SweepNow small_sweep (withDefaults 4 (MkOptions 0 (float64 0) 0 0 0 0)) (2 * DefaultGrace) tenth].
Definition quiet_stores : Stores := MkStores stocked no_refs.
Definition w0 : World := MkWorld quiet_stores [] Idle.
(** What a prefix of the run leads to. *)
Definition after {A} (f : World -> A) (n : nat) : option A := f <$> run (take n publish_and_collect) w0.
Lemma after_eq {A} (f : World -> A) n w x : run (take n publish_and_collect) w0 = Some w -> after f n = Some x -> f w = x.
Proof. unfold after. intros ->. by intros [= <-]. Qed.

Lemma stocked_inv : inv stocked.
Proof. apply put_inv; [exact mixed_inv|vm_compute; reflexivity]. Qed.
Lemma stocked_named : well_named stocked.
Proof. apply put_named; [exact mixed_well_named|vm_compute; reflexivity]. Qed.
Lemma stocked_addressed : addressed content stocked.
Proof.
  assert (content third_key = [x7a]) as E1 by (vm_compute; reflexivity).
  assert (content sample_key = [x64; x65; x66]) as E2 by (vm_compute; reflexivity).
  assert (content abc_key = [x61; x62; x63]) as E3 by (vm_compute; reflexivity).
  apply put_addressed; [exact mixed_inv| |vm_compute; reflexivity].
  unfold mixed. rewrite <- E1, <- E2, <- E3.
  assert (inv (fresh (MkConfig 60 true) (empty_disk []))) as I0 by (by apply inv_fresh).
  assert (inv (put abc_key (content abc_key) (fresh (MkConfig 60 true) (empty_disk [])))) as I1 by (by apply put_inv).
  assert (inv (put sample_key (content sample_key) (put abc_key (content abc_key) (fresh (MkConfig 60 true) (empty_disk []))))) as I2 by (by apply put_inv).
  apply put_addressed; [exact I2| |reflexivity]. apply put_addressed; [exact I1| |reflexivity].
  apply put_addressed; [exact I0| |reflexivity].
  intros k rec [(a & [=] & _)|(g & Hg & _)]. by apply elem_of_nil in Hg.
Qed.

Lemma file_children : children content file_key = Ok [abc_key; sample_key].
Proof. vm_compute. reflexivity. Qed.
Lemma file_abc : edge (children content) file_key abc_key.
Proof. exists [abc_key; sample_key]. split; [exact file_children|left]. Qed.
Lemma file_reaches : reach content file_key sample_key.
Proof. apply rtc_once. exists [abc_key; sample_key]. split; [exact file_children|]. right; left. Qed.
Lemma in_three {A} (P : A -> Prop) a b c x : P a -> P b -> P c -> x ∈ [a; b; c] -> P x.
Proof. intros Pa Pb Pc [->|[->|[->|Hx]%elem_of_cons]%elem_of_cons]%elem_of_cons; [done..|]. by apply elem_of_nil in Hx. Qed.
Lemma in_three' {A} (P : A -> Prop) a b c : P a -> P b -> P c -> forall x, x ∈ [a; b; c] -> P x.
Proof. intros Pa Pb Pc x. by apply in_three. Qed.
Lemma reach_within (obj : Key -> bytes) (l : list Key) root k :
  root ∈ l -> (forall x, x ∈ l -> exists cs, children obj x = Ok cs /\ forall c, c ∈ cs -> c ∈ l) -> reach obj root k -> k ∈ l.
Proof.
  intros Hr HC Hk. unfold reach, reachable in Hk. induction Hk as [x|x y z (cs & Ec & Hy) _ IH]; [done|].
  apply IH. destruct (HC x Hr) as (cs' & Ec' & Hin). apply Hin. congruence.
Qed.
Lemma file_complete : complete content stocked file_key.
Proof.
  assert (Has stocked file_key = Ok true) as E1 by (vm_compute; reflexivity).
  assert (Has stocked abc_key = Ok true) as E2 by (vm_compute; reflexivity).
  assert (Has stocked sample_key = Ok true) as E3 by (vm_compute; reflexivity).
  assert (children content abc_key = Ok []) as EA by (vm_compute; reflexivity).
  assert (children content sample_key = Ok []) as ES by (vm_compute; reflexivity).
  set (l := [file_key; abc_key; sample_key]).
  assert (forall x, x ∈ l -> exists cs, children content x = Ok cs /\ forall c, c ∈ cs -> c ∈ l) as HC.
  { assert (forall c, c ∈ [abc_key; sample_key] -> c ∈ l) as Sub by (intros c Hc; right; exact Hc).
    assert (forall c : Key, c ∈ [] -> c ∈ l) as Nil by (intros c Hc; destruct (proj1 (elem_of_nil c) Hc)).
    intros x. exact (in_three (fun x => exists cs, children content x = Ok cs /\ forall c, c ∈ cs -> c ∈ l) _ _ _ x
      (ex_intro _ _ (conj file_children Sub)) (ex_intro _ _ (conj EA Nil)) (ex_intro _ _ (conj ES Nil))). }
  intros k Hk. assert (k ∈ l) as Hin by (exact (reach_within content l file_key k ltac:(left) HC Hk)).
  split; [|destruct (HC k Hin) as (cs & Ec & _); by exists cs]. unfold there. apply (Has_true stocked k (inv_core stocked stocked_inv)).
  exact (in_three (fun x => Has stocked x = Ok true) _ _ _ k E1 E2 E3 Hin).
Qed.
Lemma sample_fair : fair_run content publish_and_collect w0.
Proof.
  apply fair_run_intro. intros i ev w1 Hi E1.
  assert (i = 4%nat \/ i = 11%nat \/ (forall obj, fair obj ev w1)) as [-> |[-> |HF]]; [|injection Hi as <-|injection Hi as <-|apply HF].
  - clear E1. do 12 (destruct i as [|i]; [injection Hi as <-; (left; reflexivity) || (right; left; reflexivity) || (right; right; intros obj; exact Logic.I)|]). discriminate Hi.
  - intros root Hr. assert (after w_holders 4 = Some [Prepared file_key]) as EA by (vm_compute; reflexivity).
    rewrite (after_eq w_holders 4 w1 _ E1 EA) in Hr. injection Hr as <-. vm_compute. reflexivity.
  - split; [apply Nat.lt_0_1|].
    assert (after (fun w => nextID (objects w) + 2 ^ 35 * (zlen (sealed (objects w)) + 1) <? 2 ^ 64) 11 = Some true) as EA by (vm_compute; reflexivity).
    apply Z.ltb_lt. exact (after_eq (fun w => nextID (objects w) + 2 ^ 35 * (zlen (sealed (objects w)) + 1) <? 2 ^ 64) 11 w1 _ E1 EA).
Qed.

Lemma no_reference_dangles_witness :
  exists w, run publish_and_collect w0 = Some w /\ Has (objects w) third_key = Ok false /\
    refs (c_refs (w_stores w)) !! [x72] = Some ref_data /\ is_Some (view (objects w) sample_key).
Proof.
  assert (take 12 publish_and_collect = publish_and_collect) as ET by reflexivity.
  assert (match run publish_and_collect w0 with Some _ => true | None => false end = true) as EB by (vm_compute; reflexivity).
  destruct (run publish_and_collect w0) as [w|] eqn:E; [clear EB|discriminate EB]. exists w.
  assert (run (take 12 publish_and_collect) w0 = Some w) as E' by (rewrite ET; exact E).
  assert (after (fun w => Has (objects w) third_key) 12 = Some (Ok false)) as E1 by (vm_compute; reflexivity).
  assert (after (fun w => refs (c_refs (w_stores w)) !! [x72]) 12 = Some (Some ref_data)) as E2 by (vm_compute; reflexivity).
  assert (refs (c_refs (w_stores w)) !! [x72] = Some ref_data) as E3 by exact (after_eq (fun w => refs (c_refs (w_stores w)) !! [x72]) 12 w _ E' E2).
  split; [reflexivity|]. split; [exact (after_eq (fun w => Has (objects w) third_key) 12 w _ E' E1)|]. split; [exact E3|].
  assert (intact content w0) as HI by (intros name data Hn; discriminate Hn).
  destruct (no_reference_dangles content quiet_stores publish_and_collect w stocked_inv stocked_named stocked_addressed HI sample_fair E [x72] ref_data E3)
    as (root & Hr & HC).
  assert (root_of (MkRefRecord [x72] ref_data) = Ok file_key) as Hr' by (vm_compute; reflexivity).
  assert (root = file_key) as -> by (rewrite Hr' in Hr; injection Hr as ->; reflexivity).
  exact (proj1 (HC sample_key file_reaches)).
Defined.
