(* ===== verification/Marking.v ===== *)
(** What the collector computes when it runs alone (src/gc/collector.go, cycle.go,
    status.go): the mark is reachability and ends, [cycle] is a run of the machine of
    Barrier.v, and [Why] names the references that reach a key. *)
From Stdlib Require Import Floats.SpecFloat.
From S2P Require Import Prelude External Concrete Chunker Key Crc32 Record Pack Objects Readers Walk Reference Refstore Footer Disk Scan Store StoreInv StoreSpec Frame Provenance Scrub Marks Compact Sweep Segments Collector Barrier.

Lemma size_room (X Y : gset Key) k : k ∈ X -> k ∉ Y -> (size (X ∖ ({[k]} ∪ Y)) < size (X ∖ Y))%nat.
Proof. intros Hx Hy. apply subset_size. set_solver. Qed.

Section Alone.
Context `{Blake3} `{HZs : ZstdOk} `{HFu : FuseOk} `{HC1 : Cbor (list bytes)} `{HC2 : Cbor (list DirPair)} `{HC3 : Cbor (list Entry)}
  `{HC4 : Cbor Reference}.

(** * A store at rest *)

Lemma set_disk_same s : set_disk (st_disk s) s = s.
Proof. by destruct s. Qed.

Lemma Get_quiet s k r s' : faults (st_disk s) = [] -> Store.Get k s = (r, s') -> s' = s.
Proof.
  intros Hf E. unfold Store.Get in E. rewrite M_gets in E. cbn [id] in E. destruct (closed s); [by injection E|].
  destruct (active_loc s k) as [[a loc]|]; [|unfold lift in E; by injection E].
  apply io_bind_inv in E as (rx & d & E & E').
  assert (d = st_disk s) as ->.
  { unfold ReadAt, attempt in E. rewrite Hf in E. destruct (_ =? _)%nat; by injection E. }
  rewrite set_disk_same in E'. destruct rx; [unfold lift in E'; by injection E'|by destruct E'; subst].
Qed.

(** The keys a store holds are finitely many. *)
Definition store_keys (s : Store) : gset Key :=
  match active s with Some a => dom (a_index a) | None => ∅ end ∪
  list_to_set (concat (map (fun g => map ie_k (allEntries (sg_fv g))) (sealed s))).
Lemma store_keys_spec s k : inv s -> there s k -> k ∈ store_keys s.
Proof.
  intros I [rec [(a & Ha & Hr)|(g & Hg & Hr)]%view_held]; apply elem_of_union.
  - left. rewrite Ha. apply elem_of_dom. unfold act_view in Hr. destruct (a_index a !! k); [by eexists|done].
  - right. pose proof (inv_segs _ (inv_core _ I)) as F. rewrite list.Forall_forall in F.
    destruct (allEntries_complete g k rec (F g Hg) Hr) as (e & He & <-).
    apply elem_of_list_to_set, list_elem_of_In, in_concat. eexists. split.
    + apply in_map_iff. exists g. split; [done|]. by apply list_elem_of_In.
    + by apply list_elem_of_In, (list_elem_of_fmap_2 ie_k).
Qed.

Section Store.
Context (obj : Key -> bytes) (s : Store) (I : inv s) (A : addressed obj s) (Ho : closed s = false) (Hf : faults (st_disk s) = []).
#[local] Abbreviation children := (children obj).
#[local] Abbreviation edge := (Walk.edge children).

Lemma Get_there k : there s k -> Store.Get k s = (Ok (obj k), s).
Proof using A HFu HZs Hf Ho I.
  intros [rec Hr]. destruct (Store.Get k s) as [r s'] eqn:E. pose proof (Get_quiet _ _ _ _ Hf E) as ->.
  destruct (Get_view _ _ _ _ (inv_core _ I) E) as [_ HA]. rewrite (HA Hf), Ho, Hr. cbn [found].
  by rewrite (A k rec (view_held _ _ _ Hr)).
Qed.

(** The nodes a walk may meet: stored and decoding. *)
Definition sound (k : Key) : Prop := there s k /\ exists cs, children k = Ok cs.
Lemma node_step k cs : is_leaf k = false -> children k = Ok cs -> ChildKeys k (obj k) = Ok cs.
Proof. unfold Barrier.children, reach_step. by intros ->. Qed.

(** A set of keys that grows towards what the store holds. *)
Definition room (S : gset Key) : nat := size (store_keys s ∖ S).
Lemma room_add k S : there s k -> k ∉ S -> (room ({[k]} ∪ S) < room S)%nat.
Proof using I HFu.
  intros Ht Hk. apply size_room; [by apply store_keys_spec|done].
Qed.

(** ** The mark *)

Lemma mark_one_step s0 live S k stack :
  core s0 -> marks s0 live S -> (forall k, there s k <-> there s0 k) -> sound k ->
  exists live' stack', mark_one k live stack s = (Ok (live', stack'), s) /\ marks s0 live' ({[k]} ∪ S) /\
  ((k ∈ S /\ stack' = stack) \/ (k ∉ S /\ exists cs, children k = Ok cs /\ stack' = rev cs ++ stack)).
Proof using A HFu HZs Hf Ho I.
  intros C0 MK HT [Ht [cs Hc]]. unfold mark_one. destruct (Mark k live) as [[newly present] live1] eqn:EM.
  destruct (Mark_spec s0 C0 _ _ _ _ _ _ MK EM) as (EP & EN & MK1).
  assert (present = true) as -> by (rewrite EP; apply bool_decide_eq_true_2; by apply HT). cbn [negb andb] in *.
  destruct newly; cbn [negb].
  - assert (k ∉ S) as HkS by (symmetry in EN; apply negb_true_iff in EN; by apply bool_decide_eq_false in EN).
    destruct (is_leaf k) eqn:EL.
    + exists live1, stack. split; [done|]. split; [done|]. right. split; [done|]. exists [].
      by unfold Barrier.children, reach_step in Hc |- *; rewrite EL in *.
    + unfold mbind at 1, M_bind at 1. rewrite (Get_there k Ht), M_lift, (node_step k cs EL Hc).
      exists live1, (rev cs ++ stack). split; [done|]. split; [done|]. right. split; [done|]. by exists cs.
  - exists live1, stack. split; [done|]. split; [done|]. left. split; [|done].
    symmetry in EN. apply negb_false_iff in EN. by apply bool_decide_eq_true in EN.
Qed.

(** The mark set's keys, all met from [roots], closed but for the stack. *)
Record marked (rs : list Key) (S : gset Key) (stack : list Key) : Prop := {
    md_from k : k ∈ S \/ k ∈ stack -> exists root, root ∈ rs /\ reach obj root k;
    md_closed k c : k ∈ S -> edge k c -> c ∈ S \/ c ∈ stack
  }.

Lemma mark_loop_total ctx rs s0 stack live S n :
  core s0 -> (forall k, there s k <-> there s0 k) -> (forall n, ctx n = None) ->
  (forall root k, root ∈ rs -> reach obj root k -> sound k) ->
  marks s0 live S -> marked rs S stack ->
  exists N live' S', (forall fuel, (N <= fuel)%nat -> mark_loop ctx fuel n live stack s = (Ok live', s)) /\
  marks s0 live' S' /\ marked rs S' [] /\ S ⊆ S' /\ forall k, k ∈ stack -> k ∈ S'.
Proof using A HFu HZs Hf Ho I.
  intros C0 HT Hctx HR. remember (room S) as m eqn:Em. revert n stack live S Em.
  induction (lt_wf m) as [m _ IHm]. intros n stack. revert n. induction stack as [|k stack IHs]; intros n live S -> MK MD.
  { exists 0%nat, live, S. split_and!; try done; [intros [|fuel] _; done|]. intros k Hk. by apply elem_of_nil in Hk. }
  destruct (md_from _ _ _ MD k ltac:(right; by left)) as (root & Hroot & Hk).
  destruct (mark_one_step s0 live S k stack C0 MK HT (HR root k Hroot Hk)) as (live1 & stack1 & E1 & MK1 & HC).
  assert (exists N live' S', (forall fuel, (N <= fuel)%nat -> mark_loop ctx fuel (Datatypes.S n) live1 stack1 s = (Ok live', s)) /\
  marks s0 live' S' /\ marked rs S' [] /\ {[k]} ∪ S ⊆ S' /\ forall k', k' ∈ stack -> k' ∈ S') as (N & live' & S' & HN & MK' & MD' & Sub & HS).
  { destruct HC as [[HkS ->]|(HkS & cs & Hc & ->)].
    - assert ({[k]} ∪ S = S) as ES by set_solver. rewrite ES in *.
      destruct (IHs (Datatypes.S n) live1 S eq_refl MK1) as (N & live' & S' & ?); [|by exists N, live', S'].
      split; [intros k' Hk'; apply MD; destruct Hk'; [by left|right; by right]|].
      intros k' c Hk' He. destruct (md_closed _ _ _ MD k' c Hk' He) as [?|[->|?]%elem_of_cons]; [by left|by left|by right].
    - destruct (IHm (room ({[k]} ∪ S)) ltac:(apply room_add; [by apply (HR root)|done]) (Datatypes.S n) (rev cs ++ stack) live1 _ eq_refl MK1)
      as (N & live' & S' & HN & MK' & MD' & Sub & HS).
      + assert (forall c, c ∈ rev cs <-> c ∈ cs) as Hrev by (intros c; rewrite !list_elem_of_In, <- in_rev; done).
        split.
        * intros k' [[->%elem_of_singleton|Hk']%elem_of_union|[Hk'%Hrev|Hk']%elem_of_app];
          [by exists root|apply MD; by left| |apply MD; right; by right].
          exists root. split; [done|]. eapply rtc_r; [exact Hk|]. by exists cs.
        * intros k' c [->%elem_of_singleton|Hk']%elem_of_union He.
          -- destruct He as (cs' & Hc' & Hin). right. apply elem_of_app. left. apply Hrev. congruence.
          -- destruct (md_closed _ _ _ MD k' c Hk' He) as [?|[->|?]%elem_of_cons]; [left; set_solver|left; set_solver|right; apply elem_of_app; by right].
      + exists N, live', S'. split_and!; [done..|]. intros k' Hk'. apply HS, elem_of_app. by right. }
  exists (Datatypes.S N), live', S'. split_and!; [|done|done|set_solver|].
  - intros [|fuel] Hfu; [lia|]. cbn [mark_loop].
    assert ((if (n mod 1024 =? 0)%nat then ctx n else None) = None) as -> by (rewrite Hctx; by destruct (_ =? _)%nat).
    rewrite M_lift. unfold mbind at 1, M_bind at 1. rewrite E1. apply HN. lia.
  - intros k' [->|Hk']%elem_of_cons; [set_solver|by apply HS].
Qed.

Lemma mark_roots_total ctx all rs live S :
  (forall n, ctx n = None) -> (forall root k, root ∈ all -> reach obj root k -> sound k) ->
  (forall r, r ∈ rs -> r ∈ all) -> marks s live S -> marked all S [] ->
  exists N live' S', (forall fuel, (N <= fuel)%nat -> mark_roots ctx fuel live rs s = (Ok live', s)) /\
  marks s live' S' /\ marked all S' [] /\ S ⊆ S' /\ forall r, r ∈ rs -> r ∈ S'.
Proof using A HFu HZs Hf Ho I.
  intros Hctx HR. revert live S. induction rs as [|root rs IH]; intros live S Hin MK MD.
  { exists 0%nat, live, S. split_and!; try done. intros k Hk. by apply elem_of_nil in Hk. }
  destruct (mark_loop_total ctx all s [root] live S 0 (inv_core _ I) ltac:(done) Hctx HR MK) as (N1 & live1 & S1 & HN1 & MK1 & MD1 & Sub1 & HS1).
  { split.
    - intros k [Hk| ->%list_elem_of_singleton]; [apply MD; by left|]. exists root. split; [apply Hin; by left|apply rtc_refl].
    - intros k c Hk He. destruct (md_closed _ _ _ MD k c Hk He) as [?|?%elem_of_nil]; [by left|done]. }
  destruct (IH live1 S1 ltac:(intros r Hr; apply Hin; by right) MK1 MD1) as (N2 & live2 & S2 & HN2 & MK2 & MD2 & Sub2 & HS2).
  exists (N1 `max` N2)%nat, live2, S2. split_and!; [|done|done|set_solver|].
  - intros fuel Hfu. cbn [mark_roots]. unfold markFrom, mbind, M_bind. rewrite HN1 by lia. apply HN2. lia.
  - intros r [->|Hr]%elem_of_cons; [|by apply HS2]. apply Sub2, HS1. by apply list_elem_of_singleton.
Qed.

Lemma mark_live_total ctx rs :
  (forall n, ctx n = None) -> (forall root, root ∈ rs -> complete obj s root) ->
  exists N live, (forall fuel, (N <= fuel)%nat -> markLive ctx fuel rs s = (Ok live, s)) /\
  forall k, MarkContains live k = true <-> exists root, root ∈ rs /\ reach obj root k.
Proof using A HFu HZs Hf Ho I.
  intros Hctx HR. destruct (mark_roots_total ctx rs rs (NewMarkSet s) ∅ Hctx) as (N & live & S & HN & MK & MD & _ & HS).
  - intros root k Hroot Hk. by apply (HR root).
  - done.
  - by apply marks_new, I.
  - split; [|set_solver]. intros k [?|?%elem_of_nil]; [set_solver|done].
  - exists N, live. split.
    + intros fuel Hfu. unfold markLive. rewrite M_gets. by apply HN.
    + intros k. rewrite (MarkContains_spec s (inv_core _ I) _ _ k MK). rewrite bool_decide_eq_true. split.
      * intros Hk. apply MD. by left.
      * intros (root & Hroot & Hk). eapply (marked_closed obj live S root k); [|by apply HS|exact Hk].
        split; [exists s; split; [apply I|done]|]. intros k' c Hk'. by apply MD.
Qed.

(** ** The reports *)

Lemma reaches_total root k stack visited :
  (forall c, reach obj root c -> sound c) -> marked [root] visited stack -> k ∉ visited ->
  exists N b, (forall fuel, (N <= fuel)%nat -> reaches_loop fuel k visited stack s = (Ok b, s)) /\
  if b : bool then reach obj root k
  else exists V, visited ⊆ V /\ (forall c, c ∈ stack -> c ∈ V) /\ marked [root] V [] /\ k ∉ V.
Proof using A HFu HZs Hf Ho I.
  intros HR. remember (room visited) as m eqn:Em. revert stack visited Em.
  induction (lt_wf m) as [m _ IHm]. intros stack. induction stack as [|cur stack IHs]; intros visited -> MD Hk.
  { exists 0%nat, false. split; [by intros [|fuel] _|]. exists visited. split_and!; try done. intros c Hc. by apply elem_of_nil in Hc. }
  destruct (md_from _ _ _ MD cur ltac:(right; by left)) as (root' & ->%list_elem_of_singleton & Hcur).
  destruct (decide (cur = k)) as [->|Hne].
  { exists 1%nat, true. split; [|done]. intros [|fuel] Hfu; [lia|]. cbn [reaches_loop]. by rewrite bool_decide_eq_true_2. }
  destruct (HR cur Hcur) as [Ht [cs Hc]]. destruct (decide (cur ∈ visited)) as [Hin|Hnin].
  - destruct (IHs visited eq_refl) as (N & b & HN & HB); [|done|].
    { split; [intros c [?|?]; apply MD; [by left|right; by right]|].
      intros c c' Hc' He. destruct (md_closed _ _ _ MD c c' Hc' He) as [?|[->|?]%elem_of_cons]; [by left|by left|by right]. }
    exists (Datatypes.S N), b. split.
    + intros [|fuel] Hfu; [lia|]. cbn [reaches_loop]. rewrite bool_decide_eq_false_2, bool_decide_eq_true_2 by done. apply HN. lia.
    + destruct b; [done|]. destruct HB as (V & Sub & HS & MV & HkV). exists V. split_and!; try done.
      intros c [->|?]%elem_of_cons; [by apply Sub|by apply HS].
  - assert (forall c, c ∈ rev cs <-> c ∈ cs) as Hrev by (intros c; rewrite !list_elem_of_In, <- in_rev; done).
    destruct (IHm (room ({[cur]} ∪ visited)) ltac:(by apply room_add) (rev cs ++ stack) _ eq_refl) as (N & b & HN & HB); [|set_solver|].
    { split.
      - intros c [[->%elem_of_singleton|Hc']%elem_of_union|[Hc'%Hrev|Hc']%elem_of_app];
        [exists root; split; [by apply list_elem_of_singleton|done]|apply MD; by left| |apply MD; right; by right].
        exists root. split; [by apply list_elem_of_singleton|]. eapply rtc_r; [exact Hcur|]. by exists cs.
      - intros c c' [->%elem_of_singleton|Hc']%elem_of_union He.
        + destruct He as (cs' & Hc' & Hin). right. apply elem_of_app. left. apply Hrev. congruence.
        + destruct (md_closed _ _ _ MD c c' Hc' He) as [?|[->|?]%elem_of_cons]; [left; set_solver|left; set_solver|right; apply elem_of_app; by right]. }
    exists (Datatypes.S N), b. split.
    + intros [|fuel] Hfu; [lia|]. cbn [reaches_loop]. rewrite !bool_decide_eq_false_2 by done.
      destruct (is_leaf cur) eqn:EL.
      * assert (cs = []) as -> by (unfold Barrier.children, reach_step in Hc; rewrite EL in Hc; by injection Hc as <-). apply HN. lia.
      * unfold mbind at 1, M_bind at 1. rewrite (Get_there cur Ht), M_lift, (node_step cur cs EL Hc). apply HN. lia.
    + destruct b; [done|]. destruct HB as (V & Sub & HS & MV & HkV). exists V. split_and!; [set_solver| |done|done].
      intros c [->|?]%elem_of_cons; [set_solver|apply HS, elem_of_app; by right].
Qed.

Lemma reaches_spec root k : (forall c, reach obj root c -> sound c) ->
  exists N b, (forall fuel, (N <= fuel)%nat -> reaches fuel root k s = (Ok b, s)) /\ (b = true <-> reach obj root k).
Proof using A HFu HZs Hf Ho I.
  intros HR. destruct (reaches_total root k [root] ∅ HR) as (N & b & HN & HB); [|set_solver|].
  { split; [|set_solver]. intros c [?| ->%list_elem_of_singleton]; [set_solver|]. exists root. split; [by apply list_elem_of_singleton|apply rtc_refl]. }
  exists N, b. split; [exact HN|]. destruct b; [done|]. split; [done|]. destruct HB as (V & _ & HS & [_ MV] & HkV). intros Hk.
  exfalso. apply HkV. assert (root ∈ V) as Hr by (apply HS; by apply list_elem_of_singleton). clear HN HkV HS HR.
  unfold reach, reachable in Hk. induction Hk as [root|root c k Hc _ IH]; [done|].
  apply IH. destruct (MV root c Hr Hc) as [?|?%elem_of_nil]; done.
Qed.

Lemma why_loop_spec k recs :
  (forall r, r ∈ recs -> exists root, root_of r = Ok root /\ complete obj s root) ->
  exists N names, (forall fuel, (N <= fuel)%nat -> why_loop fuel k recs s = (Ok names, s)) /\
  forall name, name ∈ names <-> exists r root, r ∈ recs /\ rr_Name r = name /\ root_of r = Ok root /\ reach obj root k.
Proof using A HFu HZs Hf Ho I.
  induction recs as [|r recs IH]; intros HR.
  { exists 0%nat, []. split; [done|]. intros name. split; [by intros ?%elem_of_nil|by intros (r & root & ?%elem_of_nil & _)]. }
  destruct (HR r ltac:(by left)) as (root & Hr & HC). destruct IH as (N2 & names & HN2 & Hnames); [intros r' Hr'; apply HR; by right|].
  destruct (reaches_spec root k HC) as (N1 & b & HN1 & HB).
  exists (N1 `max` N2)%nat, (if b then rr_Name r :: names else names). split.
  - intros fuel Hfu. cbn [why_loop]. rewrite M_lift, Hr. unfold mbind, M_bind. rewrite HN1 by lia. by rewrite HN2 by lia.
  - intros name. transitivity ((b = true /\ name = rr_Name r) \/ name ∈ names); [destruct b; rewrite ?elem_of_cons; naive_solver|].
    rewrite HB, Hnames. split.
    + intros [[Hk ->]|(r' & root' & Hin & ?)]; [exists r, root; split_and!; [by left|done..]|exists r', root'; split; [by right|done]].
    + intros (r' & root' & [->|Hin]%elem_of_cons & <- & Hr' & Hk); [left; split; [congruence|done]|right; by exists r', root'].
Qed.
End Store.
End Alone.

(** * A cycle on its own is a run of the machine *)

Section CycleRun.
Context `{Blake3, Zstd, Fuse} `{Cbor (list bytes), Cbor (list DirPair), Cbor (list Entry), Cbor Reference} `{Errgroup} `{Pebble}.

Lemma run_app evs1 evs2 w w1 : run evs1 w = Some w1 -> run (evs1 ++ evs2) w = run evs2 w1.
Proof.
  revert w. induction evs1 as [|ev evs1 IH]; intros w E; [by injection E as <-|].
  cbn [run app] in *. destruct (step ev w) as [w2|]; [|done]. cbn in *. by apply IH.
Qed.

(** Steps that ask nothing of the clients. *)
Definition undemanding (ev : event) : Prop :=
  match ev with Start | StartMark | MarkTurn | Cancel => True | _ => False end.
Definition ended (st : Stores) : World := MkWorld (snd (on_objects AbortBarrier st)) [] Idle.

Lemma mark_loop_run ctx fuel n live stack s rf rs r s' :
  mark_loop ctx fuel n live stack s = (r, s') ->
  exists evs, Forall undemanding evs /\ run evs (MkWorld (MkStores s rf) [] (Marking live stack rs)) =
  Some (match r with Ok live' => MkWorld (MkStores s' rf) [] (Marking live' [] rs) | Err _ => ended (MkStores s' rf) end).
Proof.
  revert n live stack s. induction fuel as [|fuel IH]; intros n live stack s E;
  (destruct stack as [|k stack]; [injection E as <- <-; by exists []|]); cbn [mark_loop] in E.
  { injection E as <- <-. exists [Cancel]. split; [by repeat constructor|done]. }
  rewrite M_lift in E. destruct (if (n mod 1024 =? 0)%nat then ctx n else None) as [e|]; [injection E as <- <-; exists [Cancel]; split; [by repeat constructor|done]|].
  unfold mbind at 1, M_bind at 1 in E. destruct (mark_one k live stack s) as [[[live1 stack1]|e] s1] eqn:E1.
  - destruct (IH _ _ _ _ E) as (evs & HU & ER). exists (MarkTurn :: evs). split; [by constructor|]. cbn [run step w_phase w_stores on_objects c_objects c_refs].
    unfold on_objects. cbn [c_objects c_refs]. rewrite E1. exact ER.
  - injection E as <- <-. exists [MarkTurn]. split; [by repeat constructor|]. cbn [run step w_phase w_stores]. unfold on_objects. cbn [c_objects c_refs]. by rewrite E1.
Qed.
Lemma mark_roots_run ctx fuel live rs s rf r s' :
  mark_roots ctx fuel live rs s = (r, s') ->
  exists evs, Forall undemanding evs /\ run evs (MkWorld (MkStores s rf) [] (Marking live [] rs)) =
  Some (match r with Ok live' => MkWorld (MkStores s' rf) [] (Marking live' [] []) | Err _ => ended (MkStores s' rf) end).
Proof.
  revert live s. induction rs as [|root rs IH]; intros live s E; [injection E as <- <-; by exists []|].
  cbn [mark_roots] in E. unfold mbind at 1, M_bind at 1, markFrom in E.
  destruct (mark_loop ctx fuel 0 live [root] s) as [r1 s1] eqn:E1.
  destruct (mark_loop_run _ _ _ _ _ _ rf rs _ _ E1) as (evs1 & HU1 & ER1). destruct r1 as [live1|e].
  - destruct (IH _ _ E) as (evs2 & HU2 & ER2). exists (MarkTurn :: evs1 ++ evs2). split; [constructor; [done|by apply Forall_app]|].
    change (run (MarkTurn :: evs1 ++ evs2) ?w) with (run (evs1 ++ evs2) (MkWorld (MkStores s rf) [] (Marking live [root] rs))).
    by rewrite (run_app _ _ _ _ ER1).
  - injection E as <- <-. exists (MarkTurn :: evs1). split; [by constructor|exact ER1].
Qed.

(** Snapshot and mark, when both succeed. *)
Lemma marked_run ctx fuel st live st' :
  (rs ← snapshot; aborting (on_objects (markLive ctx fuel rs))) st = (Ok live, st') ->
  exists evs, Forall undemanding evs /\ run evs (MkWorld st [] Idle) = Some (MkWorld st' [] (Marking live [] [])).
Proof.
  intros E. apply M_bind_Ok in E as (rs & st1 & ES & E). unfold aborting, catch_world, on_objects in E.
  destruct (markLive ctx fuel rs (c_objects st1)) as [r2 s2] eqn:EM. destruct r2; [|done]. injection E as -> <-. unfold markLive in EM. rewrite M_gets in EM.
  destruct (mark_roots_run _ _ _ _ _ (c_refs st1) _ _ EM) as (evs & HU & ER). exists ([Start; StartMark] ++ evs). split; [by repeat constructor|].
  rewrite (run_app [Start; StartMark] evs _ (MkWorld st1 [] (Marking (NewMarkSet (c_objects st1)) [] rs))); [by destruct st1|].
  cbn [run step w_holders w_phase w_stores]. by rewrite ES.
Qed.
Lemma cycle_run env opts now garbage low ctx ctx_end fuel st r cs st' :
  cycle env opts now garbage low ctx ctx_end fuel st = (r, cs, st') ->
  exists evs, run evs (MkWorld st [] Idle) = Some (MkWorld st' [] Idle).
Proof.
  unfold cycle. unfold mbind at 1, M_bind at 1. destruct (snapshot st) as [[rs|e] st1] eqn:ES.
  - unfold aborting, catch_world, markLive. destruct st1 as [s1 rf]. unfold on_objects at 1. cbn [c_objects c_refs]. rewrite M_gets.
    destruct (mark_roots ctx fuel (NewMarkSet s1) rs s1) as [r2 s2] eqn:EM.
    destruct (mark_roots_run _ _ _ _ _ rf _ _ EM) as (evs & _ & ER).
    assert (run [Start; StartMark] (MkWorld st [] Idle) = Some (MkWorld (MkStores s1 rf) [] (Marking (NewMarkSet s1) [] rs))) as E0.
    { cbn [run step w_holders w_phase w_stores]. by rewrite ES. }
    pose proof (run_app _ evs _ _ E0) as E1. rewrite ER in E1. destruct r2 as [live|e].
    + destruct ctx_end as [e|].
      * intros [= <- <- <-]. exists (([Start; StartMark] ++ evs) ++ [Cancel]). by rewrite (run_app _ _ _ _ E1).
      * intros E. exists (([Start; StartMark] ++ evs) ++ [SweepNow env opts now (threshold opts garbage low)]).
        rewrite (run_app _ _ _ _ E1). cbn [run step w_holders w_phase w_stores]. rewrite E. done.
    + intros [= <- <- <-]. exists ([Start; StartMark] ++ evs). by rewrite E1.
  - intros [= <- <- <-]. exists [Start]. cbn [run step w_holders w_phase w_stores]. by rewrite ES.
Qed.
End CycleRun.

(** * Properties *)

(** C13. The mark is reachability, and it ends: over a store at rest whose roots' trees are
    complete, enough turns finish the depth-first walk of every root, the result does not
    depend on how many more were allowed, the store is untouched, and exactly the keys that
    some root reaches are marked - shared subtrees, repeated roots and leaves that are never
    read included. *)
Theorem mark_is_reachability `{Blake3} `{ZstdOk} `{FuseOk} `{Cbor (list bytes)} `{Cbor (list DirPair)} `{Cbor (list Entry)}
    (obj : Key -> bytes) s ctx rs :
  inv s -> addressed obj s -> closed s = false -> faults (st_disk s) = [] -> (forall n, ctx n = None) ->
  (forall root, root ∈ rs -> complete obj s root) ->
  exists N live, (forall fuel, (N <= fuel)%nat -> markLive ctx fuel rs s = (Ok live, s)) /\
    forall k, MarkContains live k = true <-> exists root, root ∈ rs /\ reach obj root k.
Proof. intros. by apply mark_live_total. Qed.
Lemma mark_is_reachability_witness :
  exists N live, markLive (fun _ => None) N [file_key; file_key; abc_key] stocked = (Ok live, stocked) /\
    MarkContains live sample_key = true.
Proof.
  assert (forall root, root ∈ [file_key; file_key; abc_key] -> complete content stocked root) as HC.
  { apply in_three'. 1, 2: exact file_complete. intros k Hk. apply file_complete. exact (rtc_l _ _ _ _ file_abc Hk). }
  destruct (mark_is_reachability content stocked (fun _ => None) [file_key; file_key; abc_key] stocked_inv stocked_addressed
    ltac:(vm_compute; reflexivity) ltac:(vm_compute; reflexivity) (fun _ => eq_refl) HC) as (N & live & HN & HK).
  exists N, live. split; [exact (HN N (le_n N))|]. apply HK. exists file_key. split; [left|exact file_reaches].
Defined.

(** C21. [Why] explains liveness: over stores at rest whose references are intact, with
    enough turns it returns, sorted, exactly the names of the references whose root reaches
    the key. *)
Theorem why_names_what_reaches `{Blake3} `{ZstdOk} `{FuseOk} `{Cbor (list bytes)} `{Cbor (list DirPair)} `{Cbor (list Entry)}
    `{Cbor Reference} `{PebbleOk} (obj : Key -> bytes) st rf recs k :
  let s := c_objects st in
  inv s -> addressed obj s -> closed s = false -> faults (st_disk s) = [] ->
  intact obj (MkWorld st [] Idle) -> All (c_refs st) = (Ok recs, rf) ->
  exists N names, (forall fuel, (N <= fuel)%nat -> Why fuel k st = (Ok names, MkStores s rf)) /\
    Sorted bytes_le names /\
    forall name, name ∈ names <->
      exists data root, refs (c_refs st) !! name = Some data /\ root_of (MkRefRecord name data) = Ok root /\ reach obj root k.
Proof.
  intros s I A Ho Hf HI EA. destruct (All_out _ _ _ EA) as [_ [_ HL]].
  destruct (why_loop_spec obj s I A Ho Hf k recs) as (N & names & HN & Hn).
  { intros [name data] Hr. apply HL in Hr. exact (HI name data Hr). }
  exists N, (merge_sort bytes_le names). split_and!.
  - intros fuel Hfu. unfold Why. unfold mbind at 1, M_bind at 1, on_refs at 1. rewrite EA.
    unfold mbind at 1, M_bind at 1, on_objects at 1. cbn [c_objects c_refs]. fold s. by rewrite (HN fuel Hfu).
  - apply Sorted_merge_sort, _.
  - intros name. rewrite merge_sort_Permutation, Hn. split.
    + intros ([name' data] & root & Hr & <- & Hroot & Hk). exists data, root. split_and!; [by apply HL|done..].
    + intros (data & root & Hr & Hroot & Hk). exists (MkRefRecord name data), root. split_and!; [by apply HL|done..].
Qed.

(** A cycle is a run of the machine: what [cycle] does on its own - snapshot of the
    roots, mark of every root turn by turn, cancellation or failure anywhere, sweep - is a
    sequence of the machine's steps from idle to idle with the same stores at the end, so
    the machine's theorem covers the code's own composition. *)
Theorem cycle_is_a_run `{Blake3} `{Zstd} `{Fuse} `{Cbor (list bytes)} `{Cbor (list DirPair)} `{Cbor (list Entry)} `{Cbor Reference}
    `{Errgroup} `{Pebble} env opts now garbage low ctx ctx_end fuel st r cs st' :
  cycle env opts now garbage low ctx ctx_end fuel st = (r, cs, st') ->
  exists evs, run evs (MkWorld st [] Idle) = Some (MkWorld st' [] Idle).
Proof. apply cycle_run. Qed.

Definition referenced : Stores := MkStores stocked (@MkRefStore toy_pebble (MkToyDB {[ [x72] := ref_data ]} []) true).
Lemma why_names_what_reaches_witness :
  exists N names, fst (Why N sample_key referenced) = Ok names /\ [x72] ∈ names.
Proof.
  assert (intact content (MkWorld referenced [] Idle)) as HI.
  { intros name data Hn. assert (name = [x72] /\ data = ref_data) as [-> ->].
    { change (refs _) with ({[ [x72] := ref_data ]} : gmap bytes bytes) in Hn. apply lookup_singleton_Some in Hn as [-> ->]. done. }
    exists file_key. split; [vm_compute; reflexivity|exact file_complete]. }
  assert (All (c_refs referenced) = (Ok [MkRefRecord [x72] ref_data], c_refs referenced)) as EA by reflexivity.
  destruct (why_names_what_reaches content referenced _ _ sample_key stocked_inv stocked_addressed ltac:(vm_compute; reflexivity)
    ltac:(vm_compute; reflexivity) HI EA) as (N & names & HN & _ & HK).
  exists N, names. split; [rewrite (HN N (le_n N)); reflexivity|]. apply HK. exists ref_data, file_key.
  split; [apply lookup_singleton_eq|]. split; [vm_compute; reflexivity|exact file_reaches].
Defined.
Lemma cycle_is_a_run_witness :
  exists r cs st' evs, cycle small_sweep (withDefaults 4 (MkOptions 0 (float64 0) 0 0 0 0)) (2 * DefaultGrace) tenth false
    (fun _ => None) None 10 referenced = (r, cs, st') /\ cs_Marked cs = 3 /\ Reaped cs = [2] /\
    run evs (MkWorld referenced [] Idle) = Some (MkWorld st' [] Idle).
Proof.
  destruct (cycle small_sweep (withDefaults 4 (MkOptions 0 (float64 0) 0 0 0 0)) (2 * DefaultGrace) tenth false (fun _ => None) None 10 referenced)
    as [[r cs] st'] eqn:E.
  assert (let '(_, c, _) := cycle small_sweep (withDefaults 4 (MkOptions 0 (float64 0) 0 0 0 0)) (2 * DefaultGrace) tenth false (fun _ => None) None 10 referenced
    in (cs_Marked c, Reaped c) = (3, [2])) as EC by (vm_compute; reflexivity).
  rewrite E in EC. injection EC as E1 E2. destruct (cycle_is_a_run _ _ _ _ _ _ _ _ _ _ _ _ E) as (evs & ER).
  exists r, cs, st', evs. split; [reflexivity|]. split; [exact E1|]. split; [exact E2|exact ER].
Defined.
