(* ===== verification/Runs.v ===== *)
(** The collector as its callers see it (src/gc/collector.go, and [Run] of cycle.go): any number
    of concurrent calls of Run, Close and Wipe and the background loop, over the machine of
    Barrier.v. A call's program counter names the statement it is about to execute; a critical
    section of the collector's [mu] is one step. *)
From Stdlib Require Import Floats.SpecFloat.
From S2P Require Import Prelude External Concrete Chunker Key Crc32 Record Pack Objects Readers Walk Reference Refstore Footer Disk Scan Store StoreInv StoreSpec Frame Provenance Scrub Marks Compact Sweep Segments Collector Barrier Marking.

(** ** Calls *)

(** In [cycle]: after the snapshot, then in [markLive] with what it has on its stack; the
    variables are the call's own. *)
Inductive cycle_pc :=
  | CSnapped (rs : list Key)
  | CMarking (live : MarkSet) (stack : list Key) (rs : list Key).
Inductive run_pc :=
  | RTry                                        (* before cycleMu.TryLock *)
  | RArm                                        (* before c.cancelCycle = cancel *)
  | RReady                                      (* before the roots' snapshot *)
  | RCycle (th : spec_float) (m : cycle_pc)     (* marking, and the sweep *)
  | RPublish (r : res unit) (cs : CycleStats)   (* before c.last = &stats *)
  | RDisarm (r : res unit) (cs : CycleStats)    (* deferred: before c.cancelCycle = nil *)
  | RUnlock (r : res unit) (cs : CycleStats)    (* deferred: before cycleMu.Unlock *)
  | RReturned (r : res unit) (cs : CycleStats).
Inductive close_pc :=
  | KStop                                       (* before c.stop() *)
  | KJoin                                       (* before <-c.done *)
  | KCancel                                     (* before c.cancelCycle() *)
  | KLock | KUnlock                             (* cycleMu.Lock(); cycleMu.Unlock() *)
  | KReturned.
Inductive wipe_pc :=
  | WCancel | WLock
  | WReset                                      (* before reset() *)
  | WClear                                      (* before c.last, c.lastErr = nil, nil *)
  | WUnlock (r : res unit) | WReturned (r : res unit).
Inductive call :=
  | RunCall (garbage : spec_float) (pc : run_pc)
  | CloseCall (pc : close_pc)
  | WipeCall (pc : wipe_pc).
(** The background goroutine: absent, in its select, inside its call of [Run], gone. *)
Inductive loop_pc := LNone | LSelect | LInRun (i : nat) | LGone.

(** The call holds [cycleMu]; its cancel function is installed; it is between the snapshot
    and the end of the sweep. *)
Definition owns (c : call) : bool :=
  match c with
  | RunCall _ (RArm | RReady | RCycle _ _ | RPublish _ _ | RDisarm _ _ | RUnlock _ _) => true
  | CloseCall KUnlock | WipeCall (WReset | WClear | WUnlock _) => true
  | _ => false
  end.
Definition armed (c : call) : bool :=
  match c with RunCall _ (RReady | RCycle _ _ | RPublish _ _ | RDisarm _ _) => true | _ => false end.
Definition cycling (c : call) : bool := match c with RunCall _ (RCycle _ _) => true | _ => false end.
Definition returned (c : call) : bool :=
  match c with RunCall _ (RReturned _ _) | CloseCall KReturned | WipeCall (WReturned _) => true | _ => false end.
(** A [Close] that has seen the loop end. *)
Definition joined (c : call) : bool := match c with CloseCall (KCancel | KLock | KUnlock | KReturned) => true | _ => false end.
Definition no_loop (l : loop_pc) : Prop := l = LNone \/ l = LGone.
Definition invocation (c : call) : bool :=
  match c with RunCall _ RTry | CloseCall KStop | WipeCall WCancel => true | _ => false end.

Definition no_cycle_stats (th : spec_float) : CycleStats := MkCycleStats th 0 0 [] 0 0 0.

Section Runs.
Context `{Blake3, Zstd, Fuse} `{Cbor (list bytes), Cbor (list DirPair), Cbor (list Entry), Cbor Reference} `{Errgroup} `{Pebble}.
Context (opts : Options) (reset : Stores -> res unit * Stores).

(** The stores and the holders of the reference lock are shared; where a cycle is, only the
    call in it knows. *)
Record Coll := MkColl {
    g_stores : Stores; g_holders : list holder; g_slot : option nat; g_cancel : option nat; g_cancelled : gset nat;
    g_last : option CycleStats; g_lastErr : option error;
    g_calls : list call; g_loop : loop_pc; g_stopped : bool
  }.
Definition set_shared (st : Stores) (hs : list holder) (g : Coll) : Coll :=
  MkColl st hs (g_slot g) (g_cancel g) (g_cancelled g) (g_last g) (g_lastErr g) (g_calls g) (g_loop g) (g_stopped g).
Definition set_slot (o : option nat) (g : Coll) : Coll :=
  MkColl (g_stores g) (g_holders g) o (g_cancel g) (g_cancelled g) (g_last g) (g_lastErr g) (g_calls g) (g_loop g) (g_stopped g).
Definition set_cancel (o : option nat) (g : Coll) : Coll :=
  MkColl (g_stores g) (g_holders g) (g_slot g) o (g_cancelled g) (g_last g) (g_lastErr g) (g_calls g) (g_loop g) (g_stopped g).
Definition cancel_call (o : option nat) (g : Coll) : Coll :=
  MkColl (g_stores g) (g_holders g) (g_slot g) (g_cancel g) (match o with Some i => {[i]} ∪ g_cancelled g | None => g_cancelled g end)
    (g_last g) (g_lastErr g) (g_calls g) (g_loop g) (g_stopped g).
Definition set_last (cs : option CycleStats) (e : option error) (g : Coll) : Coll :=
  MkColl (g_stores g) (g_holders g) (g_slot g) (g_cancel g) (g_cancelled g) cs e (g_calls g) (g_loop g) (g_stopped g).
Definition set_calls (cs : list call) (g : Coll) : Coll :=
  MkColl (g_stores g) (g_holders g) (g_slot g) (g_cancel g) (g_cancelled g) (g_last g) (g_lastErr g) cs (g_loop g) (g_stopped g).
Definition set_loop (l : loop_pc) (stopped : bool) (g : Coll) : Coll :=
  MkColl (g_stores g) (g_holders g) (g_slot g) (g_cancel g) (g_cancelled g) (g_last g) (g_lastErr g) (g_calls g) l stopped.
Definition put_call (i : nat) (c : call) (g : Coll) : Coll := set_calls (<[i := c]> (g_calls g)) g.

Definition put_stores (st : Stores) (g : Coll) : Coll := set_shared st (g_holders g) g.

(** The machine's view: its phase is that of the call which is in a cycle. *)
Definition phase_at (m : cycle_pc) : phase := match m with CSnapped rs => Snapped rs | CMarking live stack rs => Marking live stack rs end.
Fixpoint current (cs : list call) : phase :=
  match cs with
  | [] => Idle
  | RunCall _ (RCycle _ m) :: _ => phase_at m
  | _ :: cs => current cs
  end.
Definition g_world (g : Coll) : World := MkWorld (g_stores g) (g_holders g) (current (g_calls g)).

(** [Open]'s collector, its loop started when there is an interval. *)
Definition new_collector (st : Stores) : Coll :=
  MkColl st [] None None ∅ None None [] (if 0 <? Interval opts then LSelect else LNone) false.

Inductive move :=
  | Env (ev : event)                  (* a client of the stores *)
  | Invoke (c : call)                 (* a client calls the collector *)
  | UserCancel (i : nat)              (* the context a client passed to Run ends *)
  | Tick | LoopBack | LoopExit        (* the loop: <-t.C, Run returns, <-ctx.Done() *)
  | Go (i : nat)                      (* the call's next statement outside a cycle *)
  | Starved (i : nat)                 (* TryLock fails: the slot is promised to a waiter *)
  | GoStart (i : nat) (low : bool)    (* [low]: freeBelow's answer *)
  | GoMark (i : nat)
  | GoCancel (i : nat) (e : error)    (* ctx.Err() is not nil *)
  | GoSweep (i : nat) (env : SweepEnv) (now : Z).

(** Events of the machine that are not the collector's own. *)
Definition outside (ev : event) : bool :=
  match ev with Start | StartMark | MarkTurn | Cancel | SweepNow _ _ _ _ => false | _ => true end.

(** [Run], outside the cycle. *)
Definition go_run (i : nat) (gb : spec_float) (pc : run_pc) (g : Coll) : option Coll :=
  match pc with
  | RTry =>
      match g_slot g with
      | None => Some (put_call i (RunCall gb RArm) (set_slot (Some i) g))
      | Some _ => Some (put_call i (RunCall gb (RReturned (Err [ErrCycleRunning]) (no_cycle_stats (float64 0)))) g)
      end
  | RArm => Some (put_call i (RunCall gb RReady) (set_cancel (Some i) g))
  | RPublish r cs =>
      Some (put_call i (RunCall gb (RDisarm r cs)) (set_last (Some cs) (match r with Err e => Some e | Ok _ => None end) g))
  | RDisarm r cs => Some (put_call i (RunCall gb (RUnlock r cs)) (set_cancel None (cancel_call (Some i) g)))
  | RUnlock r cs => Some (put_call i (RunCall gb (RReturned r cs)) (set_slot None g))
  | _ => None
  end.
Definition go_close (i : nat) (pc : close_pc) (g : Coll) : option Coll :=
  match pc with
  | KStop =>
      match g_loop g with
      | LNone => Some (put_call i (CloseCall KCancel) g)
      | l => Some (put_call i (CloseCall KJoin) (set_loop l true (cancel_call (match l with LInRun j => Some j | _ => None end) g)))
      end
  | KJoin => match g_loop g with LGone => Some (put_call i (CloseCall KCancel) g) | _ => None end
  | KCancel => Some (put_call i (CloseCall KLock) (cancel_call (g_cancel g) g))
  | KLock => match g_slot g with None => Some (put_call i (CloseCall KUnlock) (set_slot (Some i) g)) | Some _ => None end
  | KUnlock => Some (put_call i (CloseCall KReturned) (set_slot None g))
  | KReturned => None
  end.
Definition go_wipe (i : nat) (pc : wipe_pc) (g : Coll) : option Coll :=
  match pc with
  | WCancel => Some (put_call i (WipeCall WLock) (cancel_call (g_cancel g) g))
  | WLock => match g_slot g with None => Some (put_call i (WipeCall WReset) (set_slot (Some i) g)) | Some _ => None end
  | WReset =>
      let '(r, st) := reset (g_stores g) in
      Some (put_call i (WipeCall (match r with Ok _ => WClear | Err e => WUnlock (Err e) end)) (put_stores st g))
  | WClear => Some (put_call i (WipeCall (WUnlock (Ok tt))) (set_last None None g))
  | WUnlock r => Some (put_call i (WipeCall (WReturned r)) (set_slot None g))
  | WReturned _ => None
  end.
Definition go (i : nat) (g : Coll) : option Coll :=
  c ← g_calls g !! i;
  match c with
  | RunCall gb pc => go_run i gb pc g
  | CloseCall pc => go_close i pc g
  | WipeCall pc => go_wipe i pc g
  end.

(** The background goroutine's select, and the return of the Run it called. *)
Definition loop_tick (g : Coll) : option Coll :=
  match g_loop g with
  | LSelect =>
      let i := length (g_calls g) in
      Some (set_calls (g_calls g ++ [RunCall (float64 (-1)) RTry])
              (set_loop (LInRun i) (g_stopped g) (cancel_call (if g_stopped g then Some i else None) g)))
  | _ => None
  end.
Definition loop_back (g : Coll) : option Coll :=
  match g_loop g with
  | LInRun i => match g_calls g !! i with Some (RunCall _ (RReturned _ _)) => Some (set_loop LSelect (g_stopped g) g) | _ => None end
  | _ => None
  end.
Definition loop_exit (g : Coll) : option Coll :=
  match g_loop g with LSelect => if g_stopped g then Some (set_loop LGone true g) else None | _ => None end.

(** [cycle] in call [i]. Snapshot and sweep wait for the reference lock. *)
Definition go_start (i : nat) (low : bool) (g : Coll) : option Coll :=
  match g_calls g !! i, g_holders g with
  | Some (RunCall gb RReady), [] =>
      let th := threshold opts gb low in
      let '(r, st) := snapshot (g_stores g) in
      Some (put_call i (RunCall gb (match r with Ok rs => RCycle th (CSnapped rs) | Err e => RPublish (Err e) (no_cycle_stats th) end)) (put_stores st g))
  | _, _ => None
  end.
Definition aborted (st : Stores) : Stores := snd (on_objects AbortBarrier st).
Definition go_mark (i : nat) (g : Coll) : option Coll :=
  match g_calls g !! i with
  | Some (RunCall gb (RCycle th (CSnapped rs))) =>
      Some (put_call i (RunCall gb (RCycle th (CMarking (NewMarkSet (c_objects (g_stores g))) [] rs))) g)
  | Some (RunCall gb (RCycle th (CMarking live [] (root :: rs)))) => Some (put_call i (RunCall gb (RCycle th (CMarking live [root] rs))) g)
  | Some (RunCall gb (RCycle th (CMarking live (k :: stack) rs))) =>
      let '(r, st) := on_objects (mark_one k live stack) (g_stores g) in
      Some (match r with
            | Ok (live, stack) => put_call i (RunCall gb (RCycle th (CMarking live stack rs))) (put_stores st g)
            | Err e => put_call i (RunCall gb (RPublish (Err e) (no_cycle_stats th))) (put_stores (aborted st) g)
            end)
  | _ => None
  end.
(** [ctx.Err()], in the mark and before the sweep. *)
Definition go_cancel (i : nat) (e : error) (g : Coll) : option Coll :=
  match g_calls g !! i with
  | Some (RunCall gb (RCycle th (CMarking live stack rs))) =>
      if bool_decide (i ∈ g_cancelled g) then
        let marked := match stack, rs with [], [] => Marked live | _, _ => 0 end in
        Some (put_call i (RunCall gb (RPublish (Err e) (MkCycleStats th marked 0 [] 0 0 0))) (put_stores (aborted (g_stores g)) g))
      else None
  | _ => None
  end.
Definition go_sweep (i : nat) (env : SweepEnv) (now : Z) (g : Coll) : option Coll :=
  match g_calls g !! i, g_holders g with
  | Some (RunCall gb (RCycle th (CMarking live [] []))), [] =>
      let '(r, cs, st) := sweep_phase env opts now th live (g_stores g) in
      Some (put_call i (RunCall gb (RPublish r cs)) (put_stores st g))
  | _, _ => None
  end.

(** A client's call touches what is shared. *)
Definition go_env (ev : event) (g : Coll) : option Coll :=
  if outside ev then w ← step ev (MkWorld (g_stores g) (g_holders g) Idle); Some (set_shared (w_stores w) (w_holders w) g) else None.

Definition coll_step (m : move) (g : Coll) : option Coll :=
  match m with
  | Env ev => go_env ev g
  | Invoke c => if invocation c then Some (set_calls (g_calls g ++ [c]) g) else None
  | UserCancel i => Some (cancel_call (Some i) g)
  | Tick => loop_tick g
  | LoopBack => loop_back g
  | LoopExit => loop_exit g
  | Go i => go i g
  | Starved i =>
      match g_calls g !! i with
      | Some (RunCall gb RTry) =>
          if existsb (fun c => match c with CloseCall KLock | WipeCall WLock => true | _ => false end) (g_calls g)
          then Some (put_call i (RunCall gb (RReturned (Err [ErrCycleRunning]) (no_cycle_stats (float64 0)))) g) else None
      | _ => None
      end
  | GoStart i low => go_start i low g
  | GoMark i => go_mark i g
  | GoCancel i e => go_cancel i e g
  | GoSweep i env now => go_sweep i env now g
  end.

Fixpoint coll_run (ms : list move) (g : Coll) : option Coll :=
  match ms with [] => Some g | m :: ms => g' ← coll_step m g; coll_run ms g' end.

(** ** What holds at every step *)

(** The option names the one call that satisfies [P]. *)
Definition tracks (P : call -> bool) (o : option nat) (cs : list call) : Prop :=
  forall i, (exists c, cs !! i = Some c /\ P c = true) <-> o = Some i.

Lemma tracks_same P o cs i c c' : cs !! i = Some c -> P c' = P c -> tracks P o cs -> tracks P o (<[i := c']> cs).
Proof.
  intros Hi HP HT j. rewrite <- (HT j). destruct (decide (i = j)) as [<-|Hne].
  - rewrite list_lookup_insert_eq by (by apply lookup_lt_Some in Hi). split.
    + intros (x & [= <-] & Hx). exists c. split; [done|congruence].
    + intros (x & Hx & HPx). exists c'. split; [done|congruence].
  - by rewrite list_lookup_insert_ne.
Qed.
Lemma tracks_take P cs i c c' : cs !! i = Some c -> P c' = true -> tracks P None cs -> tracks P (Some i) (<[i := c']> cs).
Proof.
  intros Hi HP HT j. destruct (decide (i = j)) as [<-|Hne].
  - rewrite list_lookup_insert_eq by (by apply lookup_lt_Some in Hi). split; [done|]. intros _. by exists c'.
  - rewrite list_lookup_insert_ne by done. rewrite (HT j). split; [done|congruence].
Qed.
Lemma tracks_drop P o cs i c c' : cs !! i = Some c -> P c = true -> P c' = false -> tracks P o cs -> tracks P None (<[i := c']> cs).
Proof.
  intros Hi HP HP' HT j. assert (o = Some i) as -> by (apply HT; by exists c). destruct (decide (i = j)) as [<-|Hne].
  - rewrite list_lookup_insert_eq by (by apply lookup_lt_Some in Hi). split; [|done]. intros (x & [= <-] & Hx). congruence.
  - rewrite list_lookup_insert_ne by done. rewrite (HT j). split; [congruence|done].
Qed.
Lemma tracks_snoc P o cs c : P c = false -> tracks P o cs -> tracks P o (cs ++ [c]).
Proof.
  intros HP HT j. rewrite <- (HT j). split; intros (x & Hx & HPx); exists x; (split; [|done]).
  - apply lookup_app_Some in Hx as [Hx|[_ Hx]]; [done|]. apply list_lookup_singleton_Some in Hx as [_ <-]. congruence.
  - by apply lookup_app_l_Some.
Qed.
Lemma tracks_owner P o cs i c : tracks P o cs -> cs !! i = Some c -> P c = true -> o = Some i.
Proof. intros HT Hi HP. apply HT. by exists c. Qed.

(** The result a call of [Run] has published. *)
Definition report_of (c : call) : option (res unit * CycleStats) :=
  match c with RunCall _ (RDisarm r x | RUnlock r x | RReturned r x) => Some (r, x) | _ => None end.
(** What the collector reports of its last cycle is some call's result. *)
Definition reported (cs : option CycleStats) (e : option error) (calls : list call) : Prop :=
  match cs with
  | None => e = None
  | Some x => exists i c r, calls !! i = Some c /\ report_of c = Some (r, x) /\ e = match r with Err e => Some e | Ok _ => None end
  end.

Record ok (g : Coll) : Prop := {
    ok_slot : tracks owns (g_slot g) (g_calls g);
    ok_cancel : tracks armed (g_cancel g) (g_calls g);
    ok_loop : match g_loop g with LInRun i => exists gb pc, g_calls g !! i = Some (RunCall gb pc) | _ => True end;
    ok_join i : g_calls g !! i = Some (CloseCall KJoin) -> g_stopped g = true /\ g_loop g <> LNone;
    ok_joined i c : g_calls g !! i = Some c -> joined c = true -> no_loop (g_loop g);
    ok_last : reported (g_last g) (g_lastErr g) (g_calls g)
  }.

Lemma new_ok st : ok (new_collector st).
Proof.
  assert (forall P, tracks P None []) as HT by (intros P i; split; [by intros (c & Hc & _)|done]).
  split; cbn; [apply HT|apply HT|by destruct (0 <? Interval opts)|done..].
Qed.

(** A call moves on: what becomes of each of the three trackers. *)
Lemma reported_put cs e calls i c c' : calls !! i = Some c -> reported cs e calls ->
  (forall y, report_of c = Some y -> report_of c' = Some y) -> reported cs e (<[i := c']> calls).
Proof.
  intros Hi HR HC. unfold reported in *. destruct cs as [x|]; [|done]. destruct HR as (j & d & r & Hj & Hd & ->).
  destruct (decide (i = j)) as [<-|Hne].
  - exists i, c', r. rewrite list_lookup_insert_eq by (by apply lookup_lt_Some in Hi). rewrite Hi in Hj. injection Hj as ->. auto.
  - exists j, d, r. by rewrite list_lookup_insert_ne.
Qed.
Lemma reported_snoc cs e calls c : reported cs e calls -> reported cs e (calls ++ [c]).
Proof.
  unfold reported. destruct cs as [x|]; [|done]. intros (j & d & r & Hj & Hd & ->). exists j, d, r.
  by rewrite (lookup_app_l_Some _ _ _ _ Hj).
Qed.

(** A call's step from [c] to [c'] either leaves the option alone, takes it, or clears it. *)
Definition moves (P : call -> bool) (o o' : option nat) (i : nat) (c c' : call) : Prop :=
  (P c' = P c /\ o' = o) \/ (P c' = true /\ o = None /\ o' = Some i) \/ (P c = true /\ P c' = false /\ o' = None).
Lemma tracks_moves P o o' i c c' cs : cs !! i = Some c -> tracks P o cs -> moves P o o' i c c' -> tracks P o' (<[i := c']> cs).
Proof.
  intros Hi HT [[HP ->]|[(HP & -> & ->)|(HP & HP' & ->)]];
    [by eapply tracks_same|by eapply tracks_take|by eapply tracks_drop].
Qed.
Definition is_run (c : call) : bool := match c with RunCall _ _ => true | _ => false end.

Lemma ok_call g g' i c c' : ok g -> g_calls g !! i = Some c -> g_calls g' = <[i := c']> (g_calls g) ->
  moves owns (g_slot g) (g_slot g') i c c' -> moves armed (g_cancel g) (g_cancel g') i c c' ->
  is_run c' = is_run c -> g_loop g' = g_loop g -> (g_stopped g = true -> g_stopped g' = true) ->
  (c' = CloseCall KJoin -> g_stopped g' = true /\ g_loop g' <> LNone) ->
  (joined c' = true -> joined c = true \/ no_loop (g_loop g')) ->
  reported (g_last g') (g_lastErr g') (<[i := c']> (g_calls g)) -> ok g'.
Proof.
  intros [OS OC OL OJ OG OR] Hi EC MS MC HR EL HS HJ HG HRep. split; rewrite ?EC, ?EL; [by eapply tracks_moves..| | | |done].
  - destruct (g_loop g) as [| |j|] eqn:E; try done. destruct OL as (gb & pc & Hj). destruct (decide (i = j)) as [<-|Hne].
    + rewrite list_lookup_insert_eq by (by apply lookup_lt_Some in Hi). rewrite Hi in Hj. injection Hj as ->.
      destruct c' as [gb' pc'| |]; try done. by exists gb', pc'.
    + rewrite list_lookup_insert_ne by done. eauto.
  - intros j. destruct (decide (i = j)) as [<-|Hne].
    + rewrite list_lookup_insert_eq by (by apply lookup_lt_Some in Hi). intros [= ->]. rewrite <- EL. by apply HJ.
    + rewrite list_lookup_insert_ne by done. intros Hj. destruct (OJ j Hj) as [? ?]. auto.
  - intros j d. destruct (decide (i = j)) as [<-|Hne].
    + rewrite list_lookup_insert_eq by (by apply lookup_lt_Some in Hi). intros [= <-] Hd. rewrite <- EL.
      destruct (HG Hd) as [Hc|Hl]; [|done]. rewrite EL. eauto.
    + rewrite list_lookup_insert_ne by done. eauto.
Qed.


Lemma slot_owner g i j c c' : ok g -> g_calls g !! i = Some c -> g_calls g !! j = Some c' -> owns c = true -> owns c' = true -> i = j.
Proof. intros OK Hi Hj Hc Hc'. pose proof (proj1 (ok_slot _ OK i)). pose proof (proj1 (ok_slot _ OK j)). naive_solver. Qed.
Lemma armed_owns c : armed c = true -> owns c = true.
Proof. by destruct c as [? []| |]. Qed.
Lemma cycling_owns c : cycling c = true -> owns c = true.
Proof. by destruct c as [? []| |]. Qed.
Lemma owner_cancel g i c : ok g -> g_calls g !! i = Some c -> owns c = true -> armed c = false -> g_cancel g = None.
Proof.
  intros OK Hi Ho Ha. destruct (g_cancel g) as [j|] eqn:E; [|done].
  apply (ok_cancel _ OK) in E as (d & Hd & HA). assert (i = j) as <- by (eapply slot_owner; eauto using armed_owns). congruence.
Qed.

(** Closes the conditions of [ok_call] for a step whose new call and state are known. *)
Ltac call_step OK Hi :=
  eapply (ok_call _ _ _ _ _ OK Hi); [reflexivity|..]; try (unfold moves; cbn; tauto);
  try (eapply reported_put; [exact Hi|apply OK|done]); try (intros [=]; done); try (cbn; unfold no_loop; by auto).

Lemma go_ok i g g' : ok g -> go i g = Some g' -> ok g'.
Proof.
  intros OK. unfold go, go_run, go_close, go_wipe. destruct (g_calls g !! i) as [c|] eqn:Hi; [|done]. cbn [mbind option_bind].
  destruct c as [gb [| | |th|r cs|r cs|r cs|r cs]|[| | | | |]|[| | | |r|r]]; try done.
  - destruct (g_slot g) as [j|] eqn:ES; intros [= <-]; call_step OK Hi.
  - intros [= <-]. pose proof (owner_cancel _ _ _ OK Hi eq_refl eq_refl) as EC. call_step OK Hi.
  - intros [= <-]. call_step OK Hi. exists i, (RunCall gb (RDisarm r cs)), r.
    by rewrite list_lookup_insert_eq by (by apply lookup_lt_Some in Hi).
  - intros [= <-]. call_step OK Hi.
  - intros [= <-]. call_step OK Hi.
  - destruct (g_loop g) eqn:EL; intros [= <-]; call_step OK Hi; cbn; rewrite ?EL; done.
  - destruct (g_loop g) eqn:EL; try done. intros [= <-]; call_step OK Hi.
  - intros [= <-]. call_step OK Hi.
  - destruct (g_slot g) eqn:ES; intros [= <-]; call_step OK Hi.
  - intros [= <-]. call_step OK Hi.
  - intros [= <-]. call_step OK Hi.
  - destruct (g_slot g) eqn:ES; intros [= <-]; call_step OK Hi.
  - destruct (reset _) as [r st]. intros [= <-]. destruct r; call_step OK Hi.
  - intros [= <-]. call_step OK Hi.
  - intros [= <-]. call_step OK Hi.
Qed.

(** Changes of what is shared, the cancelled contexts and the loop. *)
Lemma ok_shared st hs g : ok g -> ok (set_shared st hs g).
Proof. by intros [OS OC OL OJ OG OR]. Qed.
Lemma ok_cancelled o g : ok g -> ok (cancel_call o g).
Proof. by intros [OS OC OL OJ OG OR]. Qed.
Lemma ok_invoke c g : ok g -> invocation c = true -> ok (set_calls (g_calls g ++ [c]) g).
Proof.
  intros [OS OC OL OJ OG OR] HI.
  assert (owns c = false /\ armed c = false /\ c <> CloseCall KJoin) as (H1' & H2' & HJ) by (by destruct c as [? []|[]|[]]).
  split; cbn.
  - by apply tracks_snoc.
  - by apply tracks_snoc.
  - destruct (g_loop g); try done. destruct OL as (gb & pc & E). exists gb, pc. by apply lookup_app_l_Some.
  - intros j Hj. apply lookup_app_Some in Hj as [Hj|[_ Hj]]; [eauto|]. apply list_lookup_singleton_Some in Hj as [_ Hc]. done.
  - intros j d Hj Hd. apply lookup_app_Some in Hj as [Hj|[_ Hj]]; [eauto|]. apply list_lookup_singleton_Some in Hj as [_ <-]. by destruct c as [|[]|].
  - by apply reported_snoc.
Qed.
Lemma ok_set_loop l b g : ok g -> (forall i, l = LInRun i -> exists gb pc, g_calls g !! i = Some (RunCall gb pc)) ->
  (g_stopped g = true -> b = true) -> (g_loop g <> LNone -> l <> LNone) -> ~ no_loop (g_loop g) -> ok (set_loop l b g).
Proof.
  intros [OS OC OL OJ OG OR] HL Hb Hn. split; try done; cbn.
  - destruct l; try done. by apply HL.
  - intros i Hi. destruct (OJ i Hi). auto.
  - intros i c Hi Hc. exfalso. eauto.
Qed.

(** The cycle's own steps: the slot and the cancel function stay with the call. *)
Lemma cycle_ok gb pc gb' pc' i st g : ok g -> g_calls g !! i = Some (RunCall gb pc) ->
  owns (RunCall gb pc) = true -> armed (RunCall gb pc) = true -> report_of (RunCall gb pc) = None ->
  owns (RunCall gb' pc') = true -> armed (RunCall gb' pc') = true -> ok (put_call i (RunCall gb' pc') (put_stores st g)).
Proof.
  intros OK Hi Ho Ha Hr Ho' Ha'. eapply (ok_call g); [exact OK|exact Hi|reflexivity|..]; try done; try (left; split; [congruence|reflexivity]).
  eapply reported_put; [exact Hi|apply OK|]. intros y. by rewrite Hr.
Qed.
Lemma put_stores_id g : put_stores (g_stores g) g = g.
Proof. by destruct g. Qed.
Lemma go_start_ok i low g g' : ok g -> go_start i low g = Some g' -> ok g'.
Proof.
  intros OK. unfold go_start. destruct (g_calls g !! i) as [[gb []| |]|] eqn:Hi; try done. destruct (g_holders g); [|done].
  destruct (snapshot _) as [[rs|e] st]; intros [= <-]; by eapply cycle_ok.
Qed.
Lemma go_mark_ok i g g' : ok g -> go_mark i g = Some g' -> ok g'.
Proof.
  intros OK. unfold go_mark. destruct (g_calls g !! i) as [[gb [| | |th m| | | |]| |]|] eqn:Hi; try done.
  destruct m as [rs|live [|k stack] rs]; [| |].
  - intros [= <-]. rewrite <- (put_stores_id g) at 2. by eapply cycle_ok.
  - destruct rs as [|root rs]; [done|]. intros [= <-]. rewrite <- (put_stores_id g). by eapply cycle_ok.
  - destruct (on_objects _ _) as [[[live' stack']|e] st]; intros [= <-]; by eapply cycle_ok.
Qed.
Lemma go_cancel_ok i e g g' : ok g -> go_cancel i e g = Some g' -> ok g'.
Proof.
  intros OK. unfold go_cancel. destruct (g_calls g !! i) as [[gb [| | |th [|live stack rs]| | | |]| |]|] eqn:Hi; try done.
  destruct (bool_decide _); [|done]. intros [= <-]. by eapply cycle_ok.
Qed.
Lemma go_sweep_ok i env now g g' : ok g -> go_sweep i env now g = Some g' -> ok g'.
Proof.
  intros OK. unfold go_sweep. destruct (g_calls g !! i) as [[gb [| | |th [|live [|] [|]]| | | |]| |]|] eqn:Hi; try done. destruct (g_holders g); [|done].
  destruct (sweep_phase _ _ _ _ _ _) as [[r cs] st]. intros [= <-]. by eapply cycle_ok.
Qed.

Lemma coll_step_ok m g g' : ok g -> coll_step m g = Some g' -> ok g'.
Proof.
  intros OK. destruct m as [ev|c|i| | | |i|i|i low|i|i e|i env now]; cbn [coll_step]; unfold loop_tick, loop_back, loop_exit.
  - unfold go_env. destruct (outside ev); [|done]. destruct (step ev _) as [w|]; [|done]. intros [= <-]. by apply ok_shared.
  - destruct (invocation c) eqn:EI; [|done]. intros [= <-]. by apply ok_invoke.
  - intros [= <-]. by apply ok_cancelled.
  - destruct (g_loop g) eqn:EL; try done. intros [= <-].
    pose proof (ok_invoke (RunCall (float64 (-1)) RTry) _ (ok_cancelled (if g_stopped g then Some (length (g_calls g)) else None) _ OK) eq_refl) as OK'.
    apply (ok_set_loop (LInRun (length (g_calls g))) (g_stopped g)) in OK'; [exact OK'| |done|done|cbn; rewrite EL; by intros []].
    intros j [= <-]. exists (float64 (-1)), RTry. cbn. by rewrite lookup_app_r, Nat.sub_diag by lia.
  - destruct (g_loop g) as [| |i|] eqn:EL; try done. destruct (g_calls g !! i) as [[gb []| |]|]; try done. intros [= <-].
    apply ok_set_loop; [done..|rewrite EL; by intros []].
  - destruct (g_loop g) eqn:EL; try done. destruct (g_stopped g) eqn:ES; [|done]. intros [= <-]. apply ok_set_loop; [done..|rewrite EL; by intros []].
  - by apply go_ok.
  - destruct (g_calls g !! i) as [[gb []| |]|] eqn:Hi; try done. destruct (existsb _ _); [|done]. intros [= <-]. call_step OK Hi.
  - by apply go_start_ok.
  - by apply go_mark_ok.
  - by apply go_cancel_ok.
  - by apply go_sweep_ok.
Qed.

Lemma coll_run_ok ms g g' : ok g -> coll_run ms g = Some g' -> ok g'.
Proof.
  revert g. induction ms as [|m ms IH]; intros g OK E; [by injection E as <-|]. cbn [coll_run] in E.
  destruct (coll_step m g) as [g1|] eqn:E1; [|done]. apply (IH g1); [by eapply coll_step_ok|done].
Qed.

(** ** The calls run the machine *)

Definition no_wipe (m : move) : Prop := match m with Invoke (WipeCall _) => False | _ => True end.
Definition not_wipe (c : call) : Prop := match c with WipeCall _ => False | _ => True end.
(** What the stores' clients and the sweep's environment promise, move by move. *)
Definition fair_move (obj : Key -> bytes) (m : move) (g : Coll) : Prop :=
  match m with
  | Env ev => fair obj ev (g_world g)
  | GoSweep _ env now => fair obj (SweepNow env opts now (float64 0)) (g_world g)
  | _ => True
  end.
Fixpoint fair_calls (obj : Key -> bytes) (ms : list move) (g : Coll) : Prop :=
  match ms with
  | [] => True
  | m :: ms => fair_move obj m g /\ forall g', coll_step m g = Some g' -> fair_calls obj ms g'
  end.

(** At most one event of the machine, allowed by [fair]. *)
Definition one_event (obj : Key -> bytes) (w w' : World) (promise : Prop) : Prop :=
  w' = w \/ exists ev, step ev w = Some w' /\ (promise -> fair obj ev w).

(** The machine's phase is that of the one call in a cycle. *)
Lemma current_cases cs : (current cs = Idle /\ forall i c, cs !! i = Some c -> cycling c = false) \/
  exists i gb th m, cs !! i = Some (RunCall gb (RCycle th m)) /\ current cs = phase_at m.
Proof.
  induction cs as [|c cs IH]; [by left|].
  assert (cycling c = false /\ current (c :: cs) = current cs \/ exists gb th m, c = RunCall gb (RCycle th m)) as [[HC EC]|(gb & th & m & ->)];
    [destruct c as [gb []|[]|[]]; (by left) || (right; by eauto)| |right; by exists 0%nat, gb, th, m].
  destruct IH as [[EI HN]|(i & gb & th & m & Hi & EI)].
  - left. split; [by rewrite EC|]. intros [|i] d Hd; [by injection Hd as <-|by apply (HN i)].
  - right. exists (S i), gb, th, m. by rewrite EC.
Qed.
Lemma current_cycle g i gb th m : ok g -> g_calls g !! i = Some (RunCall gb (RCycle th m)) -> current (g_calls g) = phase_at m.
Proof.
  intros OK Hi. destruct (current_cases (g_calls g)) as [[_ HN]|(j & gb' & th' & m' & Hj & ->)]; [by specialize (HN _ _ Hi)|].
  assert (i = j) as <- by (by eapply slot_owner). rewrite Hi in Hj. by injection Hj as <- <- <-.
Qed.
Lemma current_idle g i c : ok g -> g_calls g !! i = Some c -> owns c = true -> cycling c = false -> current (g_calls g) = Idle.
Proof.
  intros OK Hi Ho Hc. destruct (current_cases (g_calls g)) as [[-> _]|(j & gb & th & m & Hj & _)]; [done|].
  assert (i = j) as <- by (by eapply slot_owner). rewrite Hi in Hj. by injection Hj as ->.
Qed.
Lemma current_put cs i c c' : cs !! i = Some c -> cycling c = false -> cycling c' = false -> current (<[i:=c']> cs) = current cs.
Proof.
  revert i. induction cs as [|d cs IH]; intros [|i] Hi Hc Hc'; try done; cbn in Hi |- *.
  - injection Hi as ->. by destruct c as [? []|[]|[]], c' as [? []|[]|[]].
  - destruct d as [? []|[]|[]]; try (by apply IH); done.
Qed.
Lemma current_snoc cs c : cycling c = false -> current (cs ++ [c]) = current cs.
Proof. intros Hc. induction cs as [|d cs IH]; [by destruct c as [? []|[]|[]]|]. by destruct d as [? []|[]|[]]. Qed.

Lemma outside_step ev st hs ph w' : outside ev = true -> step ev (MkWorld st hs Idle) = Some w' ->
  step ev (MkWorld st hs ph) = Some (MkWorld (w_stores w') (w_holders w') ph).
Proof.
  destruct ev; try done; intros _ E; cbn [step] in E |- *; unfold objects in *; cbn [w_holders w_stores] in *;
    repeat (case_match; try done); injection E as <-; try reflexivity.
Qed.

(** The owner of the slot moves from [c] to [c']: the machine sees the phases of the two. *)
Definition seen (c : call) : phase := match c with RunCall _ (RCycle _ m) => phase_at m | _ => Idle end.
Lemma owner_seen g i c : ok g -> g_calls g !! i = Some c -> owns c = true -> current (g_calls g) = seen c.
Proof.
  intros OK Hi Ho. destruct (cycling c) eqn:Hc; [|rewrite (current_idle g i c); [by destruct c as [? []| |]|done..]].
  destruct c as [gb [| | |th m| | | |]| |]; try done. by eapply current_cycle.
Qed.
Lemma owner_event obj i ev c c' st g promise : ok g -> ok (put_call i c' (put_stores st g)) -> g_calls g !! i = Some c -> owns c = true -> owns c' = true ->
  (promise -> fair obj ev (g_world g)) -> step ev (MkWorld (g_stores g) (g_holders g) (seen c)) = Some (MkWorld st (g_holders g) (seen c')) ->
  one_event obj (g_world g) (g_world (put_call i c' (put_stores st g))) promise.
Proof.
  intros OK OK' Hi Ho Ho' HF ES. right. exists ev. split; [|done]. unfold g_world. rewrite (owner_seen g i c), (owner_seen _ i c' OK'); [done|..|done]; [|done..].
  cbn. by rewrite list_lookup_insert_eq by (by apply lookup_lt_Some in Hi).
Qed.

Lemma go_event obj i g g' promise : Forall not_wipe (g_calls g) -> go i g = Some g' ->
  Forall not_wipe (g_calls g') /\ one_event obj (g_world g) (g_world g') promise.
Proof.
  intros HN. unfold go, go_run, go_close, go_wipe. destruct (g_calls g !! i) as [c|] eqn:Hi; [|done]. cbn [mbind option_bind].
  assert (not_wipe c) as Hc by (by eapply Forall_lookup_1 in HN).
  destruct c as [gb pc|pc|]; [| |done]; destruct pc; try done; try (destruct (g_slot g)); try (destruct (g_loop g)); intros [= <-];
    (split; [by apply Forall_insert|left; unfold g_world; cbn; by erewrite current_put]).
Qed.
Lemma go_start_event obj i low g g' promise : ok g -> go_start i low g = Some g' -> one_event obj (g_world g) (g_world g') promise.
Proof.
  intros OK E. pose proof (go_start_ok _ _ _ _ OK E) as OK'. unfold go_start in E. destruct (g_calls g !! i) as [[gb []| |]|] eqn:Hi; try done.
  destruct (g_holders g) eqn:EH; [|done]. destruct (snapshot (g_stores g)) as [r st] eqn:ES.
  destruct r as [rs|e]; injection E as <-; (eapply (owner_event obj i Start); [done|done|exact Hi|done..|]);
    cbn [step w_holders w_phase w_stores seen]; by rewrite EH, ES.
Qed.
Lemma go_mark_event obj i g g' promise : ok g -> go_mark i g = Some g' -> one_event obj (g_world g) (g_world g') promise.
Proof.
  intros OK E. pose proof (go_mark_ok _ _ _ OK E) as OK'. unfold go_mark in E. destruct (g_calls g !! i) as [[gb [| | |th m| | | |]| |]|] eqn:Hi; try done.
  destruct m as [rs|live [|k stack] rs]; [| |].
  - injection E as <-. rewrite <- (put_stores_id g) in OK' at 2 |- * at 2. by eapply (owner_event obj i StartMark).
  - destruct rs as [|root rs]; [done|]. injection E as <-. rewrite <- (put_stores_id g) in OK' |- * at 2. by eapply (owner_event obj i MarkTurn).
  - destruct (on_objects (mark_one k live stack) (g_stores g)) as [r st] eqn:EM.
    destruct r as [[live' stack']|e]; injection E as <-; (eapply (owner_event obj i MarkTurn); [done|done|exact Hi|done..|]);
      cbn [step w_holders w_phase w_stores seen phase_at]; by rewrite EM.
Qed.
Lemma go_cancel_event obj i e g g' promise : ok g -> go_cancel i e g = Some g' -> one_event obj (g_world g) (g_world g') promise.
Proof.
  intros OK E. pose proof (go_cancel_ok _ _ _ _ OK E) as OK'. unfold go_cancel in E. destruct (g_calls g !! i) as [[gb [| | |th [|live stack rs]| | | |]| |]|] eqn:Hi; try done.
  destruct (bool_decide _); [|done]. injection E as <-. by eapply (owner_event obj i Cancel).
Qed.
Lemma go_sweep_event obj i env now g g' (promise : Prop) : ok g -> (promise -> forall th, fair obj (SweepNow env opts now th) (g_world g)) ->
  go_sweep i env now g = Some g' -> one_event obj (g_world g) (g_world g') promise.
Proof.
  intros OK HF E. pose proof (go_sweep_ok _ _ _ _ _ OK E) as OK'. unfold go_sweep in E. destruct (g_calls g !! i) as [[gb [| | |th [|live [|] [|]]| | | |]| |]|] eqn:Hi; try done.
  destruct (g_holders g) eqn:EH; [|done]. destruct (sweep_phase env opts now th live (g_stores g)) as [[r cs] st] eqn:ES. injection E as <-.
  eapply (owner_event obj i (SweepNow env opts now th)); [done|done|exact Hi|done|done|by auto|].
  cbn [step w_holders w_phase w_stores seen phase_at]. by rewrite EH, ES.
Qed.

Lemma calls_kept i c st g : Forall not_wipe (g_calls g) -> not_wipe c -> Forall not_wipe (g_calls (put_call i c (put_stores st g))).
Proof. intros HN Hc. by apply Forall_insert. Qed.
Lemma coll_step_calls m g g' : Forall not_wipe (g_calls g) -> no_wipe m -> coll_step m g = Some g' -> Forall not_wipe (g_calls g').
Proof.
  intros HN Hm. destruct m as [ev|c|i| | | |i|i|i low|i|i e|i env now]; cbn [coll_step]; unfold loop_tick, loop_back, loop_exit.
  - unfold go_env. destruct (outside ev); [|done]. destruct (step ev _); [|done]. by intros [= <-].
  - destruct (invocation c); [|done]. intros [= <-]. apply Forall_app. split; [done|]. by repeat constructor; destruct c.
  - by intros [= <-].
  - destruct (g_loop g); try done. intros [= <-]. apply Forall_app. split; [done|]. by repeat constructor.
  - destruct (g_loop g); try done. destruct (g_calls g !! i) as [[gb []| |]|]; try done. by intros [= <-].
  - destruct (g_loop g); try done. destruct (g_stopped g); [|done]. by intros [= <-].
  - intros E. by destruct (go_event (fun _ => []) i g g' True HN E).
  - destruct (g_calls g !! i) as [[gb []| |]|]; try done. destruct (existsb _ _); [|done]. intros [= <-]. by apply Forall_insert.
  - unfold go_start. repeat (case_match; try done); intros [= <-]; by apply calls_kept.
  - unfold go_mark. repeat (case_match; try done); intros [= <-]; try (by apply calls_kept); by apply Forall_insert.
  - unfold go_cancel. repeat (case_match; try done); intros [= <-]; by apply calls_kept.
  - unfold go_sweep. repeat (case_match; try done); intros [= <-]; by apply calls_kept.
Qed.
Lemma coll_step_event obj m g g' : ok g -> Forall not_wipe (g_calls g) -> no_wipe m -> coll_step m g = Some g' ->
  one_event obj (g_world g) (g_world g') (fair_move obj m g).
Proof.
  intros OK HN Hm. destruct m as [ev|c|i| | | |i|i|i low|i|i e|i env now]; cbn [coll_step]; unfold loop_tick, loop_back, loop_exit.
  - unfold go_env. destruct (outside ev) eqn:EO; [|done]. destruct (step ev _) as [w|] eqn:ES; [|done]. intros [= <-].
    right. exists ev. split; [|done]. exact (outside_step ev _ _ _ w EO ES).
  - destruct (invocation c) eqn:EI; [|done]. intros [= <-]. left. unfold g_world. cbn. rewrite current_snoc; [done|]. by destruct c as [? []|[]|[]].
  - intros [= <-]. by left.
  - destruct (g_loop g); try done. intros [= <-]. left. unfold g_world. cbn. by rewrite current_snoc.
  - destruct (g_loop g); try done. destruct (g_calls g !! i) as [[gb []| |]|]; try done. intros [= <-]. by left.
  - destruct (g_loop g); try done. destruct (g_stopped g); [|done]. intros [= <-]. by left.
  - intros E. by destruct (go_event obj i g g' (fair_move obj (Go i) g) HN E).
  - destruct (g_calls g !! i) as [[gb []| |]|] eqn:Hi; try done. destruct (existsb _ _); [|done]. intros [= <-].
    left. unfold g_world. cbn. by erewrite current_put.
  - by apply go_start_event.
  - by apply go_mark_event.
  - by apply go_cancel_event.
  - intros E. eapply go_sweep_event; [done| |exact E]. by intros HF th.
Qed.

Lemma calls_run obj ms g g' : ok g -> Forall not_wipe (g_calls g) -> Forall no_wipe ms -> fair_calls obj ms g -> coll_run ms g = Some g' ->
  exists evs, fair_run obj evs (g_world g) /\ run evs (g_world g) = Some (g_world g').
Proof.
  revert g. induction ms as [|m ms IH]; intros g OK HN HM HF E; [injection E as <-; by exists []|].
  apply Forall_cons_1 in HM as [Hm HM]. destruct HF as [Hf HF]. cbn [coll_run] in E. destruct (coll_step m g) as [g1|] eqn:E1; [|done].
  pose proof (coll_step_event obj _ _ _ OK HN Hm E1) as HO. pose proof (coll_step_calls _ _ _ HN Hm E1) as HN1. pose proof (coll_step_ok _ _ _ OK E1) as OK1.
  destruct (IH g1 OK1 HN1 HM (HF _ eq_refl) E) as (evs & Hevs & ER).
  destruct HO as [EW|(ev & ES & HP)]; [exists evs; by rewrite <- EW|].
  exists (ev :: evs). cbn [fair_run run]. rewrite ES. split; [|done]. split; [auto|]. by intros w [= <-].
Qed.

(** ** Somebody can go on *)

(** A step of the collector's calls or loop, not of its clients. *)
Definition own_move (m : move) : bool :=
  match m with Go _ | GoStart _ _ | GoMark _ | LoopBack | LoopExit => true | _ => false end.
(** A call or the loop can take its next step; a sweep can, whatever its environment. *)
Definition can_go (g : Coll) : Prop :=
  (exists m, own_move m = true /\ is_Some (coll_step m g)) \/ (exists i, forall env now, is_Some (coll_step (GoSweep i env now) g)).

Lemma owner_can_go g i c : g_calls g !! i = Some c -> owns c = true -> w_holders (g_world g) = [] -> can_go g.
Proof.
  intros Hi Ho HW. cbn [g_world w_holders] in HW.
  assert ((exists gb, c = RunCall gb RReady) \/ (exists gb th m, c = RunCall gb (RCycle th m)) \/ is_Some (go i g)) as [(gb & ->)|[(gb & th & m & ->)|HG]].
  { unfold go, go_run, go_close, go_wipe. rewrite Hi. cbn [mbind option_bind]. destruct c as [gb []|[]|[]]; try done; eauto 8; try (right; right; by eexists).
    right; right. destruct (reset _). by eexists. }
  - left. exists (GoStart i false). split; [done|]. cbn [coll_step]. unfold go_start. rewrite Hi, HW. destruct (snapshot _). by eexists.
  - destruct m as [rs|live stack rs]; [left; exists (GoMark i); split; [done|]; cbn [coll_step]; unfold go_mark; rewrite Hi; by eexists|].
    destruct (decide (stack = [] /\ rs = [])) as [[-> ->]|Hne].
    + right. exists i. intros env now. cbn [coll_step]. unfold go_sweep. rewrite Hi, HW. destruct (sweep_phase _ _ _ _ _ _) as [[r cs] st']. by eexists.
    + left. exists (GoMark i). split; [done|]. cbn [coll_step]. unfold go_mark. rewrite Hi.
      destruct stack as [|k stack]; [destruct rs; [naive_solver|by eexists]|]. destruct (on_objects _ _) as [r st]. by eexists.
  - left. by exists (Go i).
Qed.

Lemma pending_can_go g i c : ok g -> g_calls g !! i = Some c -> returned c = false -> w_holders (g_world g) = [] -> can_go g.
Proof.
  intros OK Hi HR HW. destruct (g_slot g) as [o|] eqn:ES.
  { destruct (proj2 (ok_slot _ OK o) ES) as (d & Hd & Ho). by eapply owner_can_go. }
  assert (forall j d, g_calls g !! j = Some d -> owns d = false) as HN.
  { intros j d Hj. destruct (owns d) eqn:Ho; [|done]. pose proof (tracks_owner _ _ _ _ _ (ok_slot _ OK) Hj Ho). congruence. }
  left. destruct (match c with CloseCall KJoin => true | _ => false end) eqn:EJ.
  - assert (c = CloseCall KJoin) as -> by (by destruct c as [|[]|]). destruct (ok_join _ OK i Hi) as [HS HL]. pose proof (ok_loop _ OK) as OL. destruct (g_loop g) as [| |j|] eqn:EL; [done| | |].
    + exists LoopExit. split; [done|]. cbn [coll_step]; unfold loop_tick, loop_back, loop_exit. rewrite EL, HS. eexists. reflexivity.
    + destruct OL as (gb & pc & Hj). destruct (match pc with RReturned _ _ => true | _ => false end) eqn:EP.
      * exists LoopBack. split; [done|]. cbn [coll_step]; unfold loop_tick, loop_back, loop_exit. rewrite EL, Hj. by destruct pc.
      * exists (Go j). split; [done|]. cbn [coll_step]; unfold loop_tick, loop_back, loop_exit. unfold go, go_run, go_close, go_wipe. rewrite Hj. pose proof (HN j _ Hj).
        destruct pc; try done. cbn [mbind option_bind]. rewrite ES. by eexists.
    + exists (Go i). split; [done|]. cbn [coll_step]; unfold loop_tick, loop_back, loop_exit. unfold go, go_run, go_close, go_wipe. rewrite Hi. cbn [mbind option_bind]. rewrite EL. by eexists.
  - exists (Go i). split; [done|]. cbn [coll_step]; unfold loop_tick, loop_back, loop_exit. unfold go, go_run, go_close, go_wipe. rewrite Hi. cbn [mbind option_bind]. pose proof (HN i c Hi).
    destruct c as [gb []|[]|[]]; try done; rewrite ?ES; try by eexists. destruct (g_loop g); by eexists.
Qed.
End Runs.

(** [Open]: the leftovers of an older collector's directory are removed; the calls' results
    are the operating system's. *)
Definition open_collector `{Blake3, Zstd, Fuse, Pebble} (gomaxprocs : Z) (o : Options) (mkdirAll : res unit) (readDir : res (list bytes))
  (removeAll : bytes -> res unit) (st : Stores) : res Coll :=
  _ ← wrap (EMsg "gc: creating directory") mkdirAll;
  entries ← readDir;
  _ ← foldr (fun e rest => _ ← wrap (EMsg "gc: sweeping stale closure state") (removeAll e); rest) (Ok tt) entries;
  Ok (new_collector (withDefaults gomaxprocs o) st).

(** * Properties *)

Section Property.
Context `{Blake3, Zstd, Fuse} `{Cbor (list bytes), Cbor (list DirPair), Cbor (list Entry), Cbor Reference} `{Errgroup} `{Pebble}.
Context (opts : Options) (reset : Stores -> res unit * Stores).

(** C22. The collector's interface refines the machine: whatever clients and the background loop
    do with Run and Close - overlapping Runs, Closes during a cycle, contexts that end - next to
    the clients of the stores, what happens to the stores is a run of the machine, in which
    cycles never overlap, and it is a fair one when the clients are. A call in a cycle knows
    only its own position in it and changes the stores without looking at the other calls; that
    no second cycle starts meanwhile is what the slot achieves. *)
Theorem calls_refine_machine obj st ms g :
  Forall no_wipe ms -> fair_calls opts reset obj ms (new_collector opts st) ->
  coll_run opts reset ms (new_collector opts st) = Some g ->
  exists evs, fair_run obj evs (MkWorld st [] Idle) /\ run evs (MkWorld st [] Idle) = Some (g_world g).
Proof. apply (calls_run opts reset obj ms (new_collector opts st) g); [apply new_ok|constructor]. Qed.

(** C23. Single flight: after any sequence of steps at most one call holds the cycle slot; a
    cycle is in progress only for the Run that holds it, at that Run's position; a Wipe that
    resets the stores and a Close that has waited see no cycle; a Run that finds one is refused
    and changes nothing; once a Close is past its join there is no background loop; and what
    Status reports is the result of some Run, or nothing. *)
Theorem single_flight st ms g : coll_run opts reset ms (new_collector opts st) = Some g ->
  (forall i j c d, g_calls g !! i = Some c -> g_calls g !! j = Some d -> owns c = true -> owns d = true -> i = j) /\
  (w_phase (g_world g) <> Idle -> exists i gb th m, g_calls g !! i = Some (RunCall gb (RCycle th m)) /\ w_phase (g_world g) = phase_at m /\ g_slot g = Some i) /\
  (forall i c, g_calls g !! i = Some c -> c = WipeCall WReset \/ c = CloseCall KUnlock -> w_phase (g_world g) = Idle /\ forall j d, g_calls g !! j = Some d -> cycling d = false) /\
  (forall i gb, g_calls g !! i = Some (RunCall gb RTry) -> w_phase (g_world g) <> Idle ->
    go reset i g = Some (put_call i (RunCall gb (RReturned (Err [ErrCycleRunning]) (no_cycle_stats (float64 0)))) g)) /\
  (forall i c, g_calls g !! i = Some c -> joined c = true -> no_loop (g_loop g)) /\
  reported (g_last g) (g_lastErr g) (g_calls g).
Proof.
  intros E. pose proof (coll_run_ok opts reset _ _ _ (new_ok opts st) E) as OK. cbn [g_world w_phase].
  assert (current (g_calls g) <> Idle -> exists i gb th m, g_calls g !! i = Some (RunCall gb (RCycle th m)) /\ current (g_calls g) = phase_at m /\ g_slot g = Some i) as HC.
  { intros HP. destruct (current_cases (g_calls g)) as [[EC _]|(i & gb & th & m & Hi & EC)]; [done|]. exists i, gb, th, m. split; [done|]. split; [done|].
    by apply (tracks_owner _ _ _ _ _ (ok_slot _ OK) Hi). }
  split; [intros i j c d; by apply slot_owner|]. split; [done|]. split_and!.
  - intros i c Hi Hc. assert (owns c = true /\ cycling c = false) as [Ho Hn] by (by destruct Hc as [-> | ->]). split; [by apply (current_idle g i c)|].
    intros j d Hj. destruct (cycling d) eqn:ED; [|done]. assert (i = j) as <- by (apply (slot_owner g i j c d); eauto using cycling_owns). congruence.
  - intros i gb Hi HP. destruct (HC HP) as (j & _ & _ & _ & _ & _ & ES). unfold go, go_run, go_close, go_wipe. rewrite Hi. cbn [mbind option_bind]. by rewrite ES.
  - by apply OK.
  - by apply OK.
Qed.

(** C24. No deadlock: as long as a Run, a Close or a Wipe has not returned, some call or the
    background loop can take its next step - no wait for the slot, for the loop or for a cycle
    is circular - unless a reference PUT holds the reference lock. *)
Theorem collector_never_stuck st ms g i c :
  coll_run opts reset ms (new_collector opts st) = Some g -> g_calls g !! i = Some c -> returned c = false ->
  w_holders (g_world g) <> [] \/ can_go opts reset g.
Proof.
  intros E Hi HR. destruct (w_holders (g_world g)) as [|h hs] eqn:HW; [right|by left].
  by apply (pending_can_go opts reset g i c (coll_run_ok opts reset _ _ _ (new_ok opts st) E)).
Qed.
End Property.

(** ** Two Runs and a Close, with a background loop *)

Definition hourly : Options := withDefaults 4 (MkOptions 0 (float64 0) 0 0 1 0).
Definition no_reset (st : Stores) : res unit * Stores := (Ok tt, st).
Definition closing_early : list move :=
  [Invoke (RunCall tenth RTry); Invoke (RunCall tenth RTry); Go 0; Go 1; Go 0; GoStart 0 false; Env (Read abc_key); GoMark 0;
   Invoke (CloseCall KStop); Go 2; LoopExit; Go 2; Go 2; GoCancel 0 [EExt "context canceled"]; Go 0; Go 0; Go 0; Go 2; Go 2].
Definition closing_run (n : nat) : option Coll := coll_run hourly no_reset (take n closing_early) (new_collector hourly quiet_stores).

Lemma closing_some n : match closing_run n with Some _ => true | None => false end = true -> exists g, closing_run n = Some g.
Proof. destruct (closing_run n) as [g|]; [by exists g|done]. Qed.
Lemma closing_at {A} (f : Coll -> A) n g x : closing_run n = Some g -> f <$> closing_run n = Some x -> f g = x.
Proof. intros ->. by intros [= <-]. Qed.

Lemma calls_refine_machine_witness :
  exists g, closing_run 19 = Some g /\ g_calls g !! 2%nat = Some (CloseCall KReturned) /\
  exists evs, fair_run content evs w0 /\ run evs w0 = Some (g_world g).
Proof.
  destruct (closing_some 19 ltac:(vm_compute; reflexivity)) as [g E].
  exists g. split; [exact E|]. split; [apply (closing_at (fun g => g_calls g !! 2%nat) 19 g); [exact E|vm_compute; reflexivity]|].
  apply (calls_refine_machine hourly no_reset content quiet_stores (take 19 closing_early)); [by repeat constructor| |exact E].
  cbn [closing_early take]. repeat (split; [exact Logic.I|intros ? _]). exact Logic.I.
Defined.

Lemma single_flight_witness :
  exists g, closing_run 8 = Some g /\ (g_calls g !! 1%nat = Some (RunCall tenth (RReturned (Err [ErrCycleRunning]) (no_cycle_stats (float64 0))))) /\
  exists i gb th m, g_calls g !! i = Some (RunCall gb (RCycle th m)) /\ w_phase (g_world g) = phase_at m /\ g_slot g = Some i.
Proof.
  destruct (closing_some 8 ltac:(vm_compute; reflexivity)) as [g E].
  exists g. split; [exact E|]. split; [apply (closing_at (fun g => g_calls g !! 1%nat) 8 g); [exact E|vm_compute; reflexivity]|].
  apply (single_flight hourly no_reset quiet_stores (take 8 closing_early) g E). intros HP.
  assert (match w_phase (g_world g) with Idle => true | _ => false end = false) as E2
    by (apply (closing_at (fun g => match w_phase (g_world g) with Idle => true | _ => false end) 8 g); [exact E|vm_compute; reflexivity]).
  rewrite HP in E2. discriminate E2.
Defined.

Lemma collector_never_stuck_witness :
  exists g, closing_run 13 = Some g /\ g_calls g !! 2%nat = Some (CloseCall KLock) /\ (w_holders (g_world g) <> [] \/ can_go hourly no_reset g).
Proof.
  destruct (closing_some 13 ltac:(vm_compute; reflexivity)) as [g E].
  assert (g_calls g !! 2%nat = Some (CloseCall KLock)) as E1
    by (apply (closing_at (fun g => g_calls g !! 2%nat) 13 g); [exact E|vm_compute; reflexivity]).
  exists g. split; [exact E|]. split; [exact E1|].
  exact (collector_never_stuck hourly no_reset quiet_stores (take 13 closing_early) g 2 (CloseCall KLock) E E1 eq_refl).
Defined.
