(* ===== verification/ParWrite.v ===== *)
(** Concurrent writes (src/packstore/parallel.go): [WriteParallel] as a machine whose steps are
    the atomic sections of its goroutines - the distributor, the channel, each worker's
    observation, deduplication, lookup, append and fsync - and a schedule that says which
    moves next. *)
From S2P Require Import Prelude External Chunker Concrete Key Crc32 Record Pack Footer Disk Scan Store StoreInv StoreSpec.

Definition DefaultBatchSize : Z := Z.shiftl 16 20.
Record WriteStats := MkWriteStats { Stored : Z; Deduped : Z; BytesStored : Z }.
Record WriteOpts := MkWriteOpts { Writers : Z; BatchSize : Z; Verify : bool }.

(** ** seenSet: a set of keys, sharded on the last byte *)

Definition seenSet := gmap Z (gset Key).
Definition shard (m : seenSet) (k : Key) : gset Key := default ∅ (m !! lastb k).
Definition addIfAbsent (k : Key) (m : seenSet) : bool * seenSet :=
  if bool_decide (k ∈ shard m k) then (false, m) else (true, <[lastb k := {[k]} ∪ shard m k]> m).

(** ** The machine *)

(** Where a worker is in the body of its loop. *)
Inductive wstate :=
  | WIdle                                                    (* at the select *)
  | WGot (obj : StoreObject)                                 (* received *)
  | WObserved (obj : StoreObject)                            (* after s.observe *)
  | WNew (obj : StoreObject)                                 (* first to see the key *)
  | WReady (obj : StoreObject) (rec : bytes) (ulen : Z)      (* absent and prepared *)
  | WFlush                                                   (* the batch is full *)
  | WDone.
Record writer := MkWriter { wr_state : wstate; wr_pending : Z }.

Record PRun := MkPRun {
    q_todo : list (res StoreObject);      (* what the iterator will yield *)
    q_pending : option StoreObject;       (* what the distributor is sending *)
    q_ch : list StoreObject;
    q_writers : list writer;
    q_seen : seenSet;
    q_stats : WriteStats;
    q_cancelled : bool;
    q_err : option error;                 (* what eg.Wait will return *)
    q_store : Store
  }.

Inductive pchoice := PProduce | PSend | PQuit | PWork (i : nat) | PStop (i : nat).

Section ParWrite.
Context `{Blake3, Zstd, Fuse}.
Context (verify : bool) (batchSize : Z) (cap : nat).

Definition put_dist (todo : list (res StoreObject)) (pend : option StoreObject) (q : PRun) : PRun :=
  MkPRun todo pend (q_ch q) (q_writers q) (q_seen q) (q_stats q) (q_cancelled q) (q_err q) (q_store q).
Definition put_ch (ch : list StoreObject) (q : PRun) : PRun :=
  MkPRun (q_todo q) (q_pending q) ch (q_writers q) (q_seen q) (q_stats q) (q_cancelled q) (q_err q) (q_store q).
Definition put_writer (i : nat) (w : writer) (q : PRun) : PRun :=
  MkPRun (q_todo q) (q_pending q) (q_ch q) (<[i:=w]> (q_writers q)) (q_seen q) (q_stats q) (q_cancelled q) (q_err q) (q_store q).
Definition put_seen (m : seenSet) (q : PRun) : PRun :=
  MkPRun (q_todo q) (q_pending q) (q_ch q) (q_writers q) m (q_stats q) (q_cancelled q) (q_err q) (q_store q).
Definition put_stats (st : WriteStats) (q : PRun) : PRun :=
  MkPRun (q_todo q) (q_pending q) (q_ch q) (q_writers q) (q_seen q) st (q_cancelled q) (q_err q) (q_store q).
Definition put_store (s : Store) (q : PRun) : PRun :=
  MkPRun (q_todo q) (q_pending q) (q_ch q) (q_writers q) (q_seen q) (q_stats q) (q_cancelled q) (q_err q) s.
(** [cancel()], and the error for the group, which keeps the first. *)
Definition put_error (e : error) (q : PRun) : PRun :=
  MkPRun (q_todo q) (q_pending q) (q_ch q) (q_writers q) (q_seen q) (q_stats q) true
  (match q_err q with Some e0 => Some e0 | None => Some e end) (q_store q).

Definition count_dedup (st : WriteStats) : WriteStats := MkWriteStats (Stored st) (Deduped st + 1) (BytesStored st).
Definition count_stored (ulen : Z) (st : WriteStats) : WriteStats := MkWriteStats (Stored st + 1) (Deduped st) (s64 (BytesStored st + ulen)).

(** The distributor has returned, so the channel is closed. *)
Definition dist_done (q : PRun) : bool :=
  match q_todo q, q_pending q with [], None => true | _, _ => false end.

Definition work (i : nat) (q : PRun) : option PRun :=
  w ← q_writers q !! i;
  let to (st : wstate) := put_writer i (MkWriter st (wr_pending w)) in
  let failing (e : error) (q : PRun) := put_error e (put_writer i (MkWriter WDone (wr_pending w)) q) in
  match wr_state w with
  | WIdle =>
    match q_ch q with
    | obj :: ch => Some (to (WGot obj) (put_ch ch q))
    | [] => if dist_done q then Some (to WDone q) else None
    end
  | WGot obj => Some (to (WObserved obj) (put_store (snd (observe (SKey obj) (q_store q))) q))
  | WObserved obj =>
    let '(newly, seen) := addIfAbsent (SKey obj) (q_seen q) in
    if newly : bool then Some (to (WNew obj) (put_seen seen q))
    else Some (to WIdle (put_stats (count_dedup (q_stats q)) q))
  | WNew obj =>
    match Has (q_store q) (SKey obj) with
    | Err e => Some (failing e q)
    | Ok true => Some (to WIdle (put_stats (count_dedup (q_stats q)) q))
    | Ok false =>
      match prepare obj verify with
      | Err e => Some (failing e q)
      | Ok (rec, ulen) => Some (to (WReady obj rec ulen) q)
      end
    end
  | WReady obj rec ulen =>
    let '(r, s) := append (SKey obj) rec false (q_store q) in
    match r with
    | Err e => Some (failing e (put_store s q))
    | Ok _ =>
      let q := put_stats (count_stored ulen (q_stats q)) (put_store s q) in
      let pending := wr_pending w + zlen rec in
      Some (if batchSize <=? pending then put_writer i (MkWriter WFlush 0) q else put_writer i (MkWriter WIdle pending) q)
    end
  | WFlush =>
    let '(r, s) := syncActive (q_store q) in
    match r with
    | Err e => Some (failing e (put_store s q))
    | Ok _ => Some (to WIdle (put_store s q))
    end
  | WDone => None
  end.

Definition par_step (c : pchoice) (q : PRun) : option PRun :=
  match c with
  | PProduce =>
    match q_pending q, q_todo q with
    | None, Ok obj :: todo => Some (put_dist todo (Some obj) q)
    | None, Err e :: _ => Some (put_dist [] None (put_error e q))
    | _, _ => None
    end
  | PSend =>
    match q_pending q with
    | Some obj => if (length (q_ch q) <? cap)%nat then Some (put_dist (q_todo q) None (put_ch (q_ch q ++ [obj]) q)) else None
    | None => None
    end
  | PQuit =>   (* the distributor sees ctx.Done *)
    match q_pending q with
    | Some _ => if q_cancelled q then Some (put_dist [] None q) else None
    | None => None
    end
  | PWork i => work i q
  | PStop i => (* a worker sees ctx.Done *)
    w ← q_writers q !! i;
    match wr_state w with
    | WIdle => if q_cancelled q then Some (put_writer i (MkWriter WDone (wr_pending w)) q) else None
    | _ => None
    end
  end.
Fixpoint par_run (sched : list pchoice) (q : PRun) : option PRun :=
  match sched with [] => Some q | c :: sched => q ← par_step c q; par_run sched q end.

Definition is_done (w : writer) : bool := match wr_state w with WDone => true | _ => false end.
Definition par_finished (q : PRun) : bool := dist_done q && forallb is_done (q_writers q).
End ParWrite.

Section WriteParallel.
Context `{Blake3, Zstd, Fuse}.

Definition start_run (writers : nat) (seq : list (res StoreObject)) (s : Store) : PRun :=
  MkPRun seq None [] (replicate writers (MkWriter WIdle 0)) ∅ (MkWriteStats 0 0 0) false None s.

(** A schedule that is not a complete run is no execution. [gomaxprocs] is positive. *)
Definition WriteParallel (gomaxprocs : nat) (sched : list pchoice) (opts : WriteOpts) (seq : list (res StoreObject)) (s : Store)
  : res unit * WriteStats * Store :=
  let writers := if Writers opts <=? 0 then gomaxprocs else Z.to_nat (Writers opts) in
  let batchSize := if BatchSize opts <=? 0 then DefaultBatchSize else BatchSize opts in
  match par_run (Verify opts) batchSize (writers * 2) sched (start_run writers seq s) with
  | Some q =>
    if par_finished q then
    let '(r, s) := syncActive (q_store q) in
    (match q_err q with Some e => Err e | None => r end, q_stats q, s)
    else (Err [OutOfFuel], MkWriteStats 0 0 0, s)
  | None => (Err [OutOfFuel], MkWriteStats 0 0 0, s)
  end.
End WriteParallel.

(** * What a run keeps *)

(** The key set behaves as one set. *)
Lemma addIfAbsent_spec k m b m' : addIfAbsent k m = (b, m') ->
  (b = false -> k ∈ shard m k) /\ (b = true -> k ∉ shard m k) /\ (forall k', k' ∈ shard m' k' <-> k' = k \/ k' ∈ shard m k').
Proof.
  unfold addIfAbsent. case_bool_decide as Hk; intros [= <- <-]; (split_and!; [done..|]); intros k'.
  - split; [by right|]. by intros [-> |].
  - unfold shard at 1. destruct (decide (lastb k' = lastb k)) as [E|E].
    + rewrite E. unfold seenSet. rewrite lookup_insert_eq. cbn [default]. unfold shard. rewrite E. set_solver.
    + unfold shard at 1, seenSet. rewrite lookup_insert_ne by done. fold (shard m k'). split; [by right|]. by intros [-> |].
Qed.

Definition carries (w : writer) : option StoreObject :=
  match wr_state w with WGot o | WObserved o | WNew o | WReady o _ _ => Some o | _ => None end.
Definition owns (w : writer) : option Key :=
  match wr_state w with WNew o | WReady o _ _ => Some (SKey o) | _ => None end.

Lemma owns_carries w k : owns w = Some k -> exists o, carries w = Some o /\ SKey o = k.
Proof. unfold owns, carries. destruct (wr_state w); intros [= <-]; by eexists. Qed.

(** The objects between the iterator and the store, and the keys workers are storing. *)
Definition moving (q : PRun) : list StoreObject :=
  option_list (q_pending q) ++ q_ch q ++ omap carries (q_writers q).
Definition owned (q : PRun) : list Key := omap owns (q_writers q).

Lemma owned_moving q k : k ∈ owned q -> exists o, o ∈ moving q /\ SKey o = k.
Proof.
  intros (w & Hw & (o & Ho & <-)%owns_carries)%list_elem_of_omap. exists o. split; [|done].
  unfold moving. rewrite !elem_of_app. do 2 right. apply list_elem_of_omap. by exists w.
Qed.

Section Run.
Context `{Blake3} `{HZs : ZstdOk} `{HFu : FuseOk}.
Context (verify : bool) (batchSize : Z) (cap : nat) (seq : list (res StoreObject)) (s0 : Store).
Context (valid_keys : Forall (fun x => forall obj, x = Ok obj -> Validate (SKey obj) = Ok tt) seq).

Definition made (k : Key) (rec : bytes) : Prop :=
  exists obj n, Ok obj ∈ seq /\ SKey obj = k /\ prepare obj verify = Ok (rec, n).
Definition stored (q : PRun) (k : Key) : Prop := is_Some (view (q_store q) k).
Definition covered (q : PRun) (k : Key) : Prop := stored q k \/ exists o, o ∈ moving q /\ SKey o = k.
Definition total (q : PRun) : Z := Stored (q_stats q) + Deduped (q_stats q) + zlen (q_todo q) + zlen (moving q).

Definition wr_ok (q : PRun) (w : writer) : Prop :=
  match wr_state w with
  | WReady o rec n => prepare o verify = Ok (rec, n) /\ view (q_store q) (SKey o) = None
  | WDone => q_cancelled q = true \/ (dist_done q = true /\ q_ch q = [])
  | _ => True
  end.

(** A run that no error has stopped has lost nothing. *)
Record lossless (q : PRun) : Prop := {
    ll_err : q_err q = None;
    ll_seq : forall x, x ∈ seq -> x ∈ q_todo q \/ exists obj, x = Ok obj /\ covered q (SKey obj);
    ll_seen : forall k, k ∈ shard (q_seen q) k -> stored q k \/ k ∈ owned q;
    ll_total : total q = zlen seq
  }.
Record pinv (q : PRun) : Prop := {
    pi_grows : grows s0 (q_store q);
    pi_made : forall k rec, view s0 k = None -> view (q_store q) k = Some rec -> made k rec;
    pi_todo : forall x, x ∈ q_todo q -> x ∈ seq;
    pi_moving : forall o, o ∈ moving q -> Ok o ∈ seq;
    pi_writers : Forall (wr_ok q) (q_writers q);
    pi_nodup : NoDup (owned q);
    pi_seen : forall k, k ∈ owned q -> k ∈ shard (q_seen q) k;
    pi_live : q_cancelled q = false -> lossless q
  }.

(** What a step may do. *)
Record fair (q q' : PRun) : Prop := {
    fa_live : q_cancelled q = false;
    fa_err : q_err q' = q_err q;
    fa_total : total q' = total q;
    fa_todo : forall x, x ∈ q_todo q -> x ∈ q_todo q' \/ exists obj, x = Ok obj /\ covered q' (SKey obj);
    fa_moving : forall o, o ∈ moving q -> covered q' (SKey o);
    fa_seen : forall k, k ∈ shard (q_seen q') k -> (k ∈ shard (q_seen q) k /\ k ∉ owned q) \/ stored q' k \/ k ∈ owned q'
  }.
Lemma pinv_step q q' :
  pinv q -> grows (q_store q) (q_store q') ->
  (forall k rec, view (q_store q) k = None -> view (q_store q') k = Some rec -> made k rec) ->
  (forall x, x ∈ q_todo q' -> x ∈ q_todo q) -> (forall o, o ∈ moving q' -> o ∈ moving q \/ Ok o ∈ q_todo q) ->
  Forall (wr_ok q') (q_writers q') -> NoDup (owned q') -> (forall k, k ∈ owned q' -> k ∈ shard (q_seen q') k) ->
  (q_cancelled q' = false -> fair q q') -> pinv q'.
Proof.
  intros I G M T O W N S F. assert (forall k, stored q k -> stored q' k) as Keep.
  { intros k [rec Hr]. exists rec. by apply G. }
  split; [eapply grows_trans; [apply I|done]| |intros x Hx; by apply I, T| |done..|].
  - intros k rec Hn Hs. destruct (view (q_store q) k) as [rec1|] eqn:E; [|by apply M].
    apply (pi_made _ I); [done|]. apply G in E as E'. congruence.
  - intros o [Ho|Ho]%O; [by apply (pi_moving _ I)|]. by apply (pi_todo _ I).
  - intros HC. destruct (F HC) as [HL FE FT FD FM FS]. destruct (pi_live _ I HL) as [LE LS LK LT].
    split; [congruence| | |lia].
    + intros x [Hx|(obj & -> & [Hs|(o & Ho & Ek)])]%LS; [by apply FD| |].
      * right. exists obj. split; [done|]. left. by apply Keep.
      * right. exists obj. split; [done|]. rewrite <- Ek. by apply FM.
    + intros k [[Hk Hn]|?]%FS; [|done]. apply LK in Hk as [?|?]; [|done]. left. by apply Keep.
Qed.

(** ** A worker's turn *)

(** What one turn changes: the worker, perhaps the channel, the key set, the counters and the
    store; [d] is the object it is through with. *)
Record turn (q q' : PRun) (l1 l2 : list writer) (w w' : writer) (d : option StoreObject) : Prop := {
    tu_ws : q_writers q = l1 ++ w :: l2;
    tu_ws' : q_writers q' = l1 ++ w' :: l2;
    tu_todo : q_todo q' = q_todo q;
    tu_pending : q_pending q' = q_pending q;
    tu_ch : q_ch q = [] -> q_ch q' = [];
    tu_moves : q_ch q ++ option_list (carries w) ≡ₚ option_list d ++ q_ch q' ++ option_list (carries w');
    tu_view : forall k, owns w <> Some k -> view (q_store q') k = view (q_store q) k;
    tu_grows : grows (q_store q) (q_store q');
    tu_made : forall k rec, view (q_store q) k = None -> view (q_store q') k = Some rec -> made k rec;
    tu_ok : wr_ok q' w';
    tu_own : owns w' = None \/ owns w' = owns w \/ exists k, owns w' = Some k /\ k ∉ shard (q_seen q) k;
    tu_seen : forall k, k ∈ shard (q_seen q') k <-> owns w' = Some k \/ k ∈ shard (q_seen q) k;
    tu_cancel : q_cancelled q = true -> q_cancelled q' = true;
    tu_live : q_cancelled q' = false ->
    q_err q' = q_err q /\
    Stored (q_stats q') + Deduped (q_stats q') = Stored (q_stats q) + Deduped (q_stats q) + zlen (option_list d) /\
    (forall o, d = Some o -> covered q' (SKey o)) /\
    (forall k, owns w = Some k -> owns w' = Some k \/ stored q' k)
  }.

Lemma turn_moving q q' l1 l2 w w' d : turn q q' l1 l2 w w' d -> moving q ≡ₚ option_list d ++ moving q'.
Proof.
  intros T. unfold moving. rewrite (tu_ws _ _ _ _ _ _ _ T), (tu_ws' _ _ _ _ _ _ _ T), (tu_pending _ _ _ _ _ _ _ T), !omap_middle.
  rewrite (app_assoc (q_ch q)), (tu_moves _ _ _ _ _ _ _ T). set (a := option_list _). set (b := option_list _).
  set (c := q_ch q'). set (e := option_list (carries w')). set (g := omap _ _). solve_Permutation.
Qed.

Lemma wr_ok_mono q q' w :
  wr_ok q w -> (forall k, owns w = Some k -> view (q_store q') k = view (q_store q) k) ->
  (q_cancelled q = true -> q_cancelled q' = true) -> (dist_done q = true -> q_ch q = [] -> dist_done q' = true /\ q_ch q' = []) ->
  wr_ok q' w.
Proof.
  unfold wr_ok, owns. destruct (wr_state w) as [| | | |o rec n| |]; [done..| |done|].
  - intros [? Hv] HV _ _. split; [done|]. by rewrite HV.
  - intros [?|[? ?]] _ HC HD; [left; by apply HC|right; by apply HD].
Qed.

Lemma turn_pinv q q' l1 l2 w w' d : pinv q -> turn q q' l1 l2 w w' d -> pinv q'.
Proof.
  intros I T. pose proof (turn_moving _ _ _ _ _ _ _ T) as PM.
  assert (owned q ≡ₚ option_list (owns w) ++ omap owns (l1 ++ l2)) as PO by (unfold owned; rewrite (tu_ws _ _ _ _ _ _ _ T); apply omap_middle).
  assert (owned q' ≡ₚ option_list (owns w') ++ omap owns (l1 ++ l2)) as PO' by (unfold owned; rewrite (tu_ws' _ _ _ _ _ _ _ T); apply omap_middle).
  pose proof (pi_nodup _ I) as ND. rewrite PO in ND. apply list.NoDup_app in ND as (ND1 & NDx & ND2).
  assert (forall k, k ∈ omap owns (l1 ++ l2) -> owns w <> Some k /\ k ∈ shard (q_seen q) k) as Others.
  { intros k Hk. split; [intros E; apply (NDx k); [rewrite E; by left|done]|]. apply (pi_seen _ I). rewrite PO. apply elem_of_app. by right. }
  apply (pinv_step q); [done|apply T|apply T|by rewrite (tu_todo _ _ _ _ _ _ _ T)| | | | |].
  - intros o Ho. left. rewrite PM. apply elem_of_app. by right.
  - pose proof (pi_writers _ I) as W. rewrite (tu_ws _ _ _ _ _ _ _ T) in W. rewrite (tu_ws' _ _ _ _ _ _ _ T).
    apply Forall_app in W as [W1 W2]. apply Forall_cons_1 in W2 as [_ W2].
    assert (Forall (wr_ok q') (l1 ++ l2)) as W.
    { apply list.Forall_forall. intros x Hx. apply (wr_ok_mono q); [| |apply T|].
      - assert (Forall (wr_ok q) (l1 ++ l2)) as F by (apply Forall_app; done). rewrite list.Forall_forall in F. by apply F.
      - intros k Hk. apply (tu_view _ _ _ _ _ _ _ T). apply Others, list_elem_of_omap. by exists x.
      - intros HD HC. split; [|by apply T]. revert HD. unfold dist_done. by rewrite (tu_todo _ _ _ _ _ _ _ T), (tu_pending _ _ _ _ _ _ _ T). }
    apply Forall_app in W as [W1' W2']. apply Forall_app. split; [done|]. constructor; [apply T|done].
  - rewrite PO'. apply list.NoDup_app. split_and!; [by destruct (owns w'); cbn; [apply list.NoDup_singleton|constructor]| |done].
    intros k Hk Hr. destruct (Others k Hr) as [H1' H2']. destruct (owns w') as [k'|] eqn:E; cbn in Hk; [|by apply elem_of_nil in Hk].
    apply list_elem_of_singleton in Hk as ->. destruct (tu_own _ _ _ _ _ _ _ T) as [E'|[E'|(k2 & E' & Hk2)]]; congruence.
  - intros k Hk. rewrite PO' in Hk. apply (tu_seen _ _ _ _ _ _ _ T). apply elem_of_app in Hk as [Hk|Hk]; [left|right; by apply Others].
    destruct (owns w'); cbn in Hk; [|by apply elem_of_nil in Hk]. by apply list_elem_of_singleton in Hk as ->.
  - intros HC. destruct (tu_live _ _ _ _ _ _ _ T HC) as (HE & HS & HD & HO). split; [|done| | | |].
    + destruct (q_cancelled q) eqn:E; [|done]. rewrite (tu_cancel _ _ _ _ _ _ _ T E) in HC. done.
    + unfold total. rewrite HS, (tu_todo _ _ _ _ _ _ _ T). unfold zlen. rewrite (Permutation_length PM), length_app. lia.
    + intros x Hx. left. by rewrite (tu_todo _ _ _ _ _ _ _ T).
    + intros o Ho. rewrite PM in Ho. apply elem_of_app in Ho as [Ho|Ho]; [|right; by exists o]. apply HD.
      destruct d; cbn in Ho; [|by apply elem_of_nil in Ho]. by apply list_elem_of_singleton in Ho as ->.
    + intros k [E|Hk]%(tu_seen _ _ _ _ _ _ _ T); [right; right; rewrite PO', E; by left|].
      destruct (decide (k ∈ owned q)) as [Hown|]; [|by left]. right. rewrite PO in Hown. rewrite PO'.
      apply elem_of_app in Hown as [Hown|Hown]; [|right; apply elem_of_app; by right].
      destruct (owns w) as [k'|] eqn:E; cbn in Hown; [|by apply elem_of_nil in Hown].
      apply list_elem_of_singleton in Hown as ->. destruct (HO k' eq_refl) as [->|]; [right; by left|by left].
Qed.

(** A turn that leaves the store alone. *)
Lemma calm_turn q q' l1 l2 w w' d :
  pinv q -> q_writers q = l1 ++ w :: l2 -> q_writers q' = l1 ++ w' :: l2 -> q_todo q' = q_todo q -> q_pending q' = q_pending q ->
  (q_ch q = [] -> q_ch q' = []) -> q_ch q ++ option_list (carries w) ≡ₚ option_list d ++ q_ch q' ++ option_list (carries w') ->
  same_view (q_store q) (q_store q') -> wr_ok q' w' -> (owns w' = None \/ owns w' = owns w) -> q_seen q' = q_seen q ->
  (q_cancelled q' = q_cancelled q /\ q_err q' = q_err q /\
    Stored (q_stats q') + Deduped (q_stats q') = Stored (q_stats q) + Deduped (q_stats q) + zlen (option_list d) /\
    (forall o, d = Some o -> covered q' (SKey o)) /\ (forall k, owns w = Some k -> owns w' = Some k \/ stored q' k)
    \/ q_cancelled q' = true) ->
  turn q q' l1 l2 w w' d.
Proof.
  intros I W W' ET EP EC EM SV OK EO ES L. split; try done.
  - intros k _. apply SV.
  - by apply same_view_grows.
  - intros k rec Hn. rewrite (sv_view _ _ SV). congruence.
  - destruct EO as [E|E]; [by left|right; by left].
  - intros k. rewrite ES. split; [by right|]. intros [E|?]; [|done]. apply (pi_seen _ I). unfold owned. rewrite W.
    apply list_elem_of_omap. exists w. split; [apply elem_of_app; right; by left|]. destruct EO; congruence.
  - intros E. destruct L as [(-> & _)| ->]; done.
  - intros E. destruct L as [(_ & L)|E']; [done|congruence].
Qed.

(** An append by the only worker that stores the key. *)
Lemma append_turn q o rec n r s' :
  pinv q -> Ok o ∈ seq -> prepare o verify = Ok (rec, n) -> view (q_store q) (SKey o) = None ->
  append (SKey o) rec false (q_store q) = (r, s') ->
  grows (q_store q) s' /\ (forall k, k <> SKey o -> view s' k = view (q_store q) k) /\
  (forall k rec, view (q_store q) k = None -> view s' k = Some rec -> made k rec) /\ (r = Ok tt -> is_Some (view s' (SKey o))).
Proof.
  intros I Ho HP HN E. assert (Validate (SKey o) = Ok tt) as HV by (rewrite list.Forall_forall in valid_keys; by apply (valid_keys _ Ho)).
  destruct (prepare_whole _ _ _ _ HV HP) as (h & W & Hk & _). rewrite <- Hk in E, HN |- *.
  assert (adds (q_store q) s' (RKey h) (fun x => x = rec) (r = Ok tt)) as A by (eapply dedup_append; [apply I|done|done|done| |done]; done).
  split; [by eapply adds_grows|]. split; [apply A|]. split.
  - intros k rec' Hv Hv'. destruct (decide (k = RKey h)) as [->|Hne]; [|rewrite (ad_others _ _ _ _ _ A) in Hv' by done; congruence].
    destruct (ad_key _ _ _ _ _ A) as [[EV _]|(_ & x & -> & EV)]; [congruence|]. exists o, n. split_and!; [done..|]. congruence.
  - intros Hr. destruct (ad_key _ _ _ _ _ A) as [[EV HS]|(_ & x & _ & EV)]; [rewrite EV; by apply HS|by exists x].
Qed.

Lemma still_moving q l1 l2 w k : q_writers q = l1 ++ w :: l2 -> k ∈ omap owns (l1 ++ l2) -> exists o, o ∈ moving q /\ SKey o = k.
Proof.
  intros E Hk. apply owned_moving. unfold owned. rewrite E, omap_middle. apply elem_of_app. by right.
Qed.
Lemma perm_dropped {A} (l : list A) x : l ++ [x] ≡ₚ x :: l ++ [].
Proof. rewrite app_nil_r. symmetry. apply Permutation_cons_append. Qed.

Lemma work_pinv i q q' : pinv q -> work verify batchSize i q = Some q' -> pinv q'.
Proof.
  intros I E. unfold work in E. destruct (q_writers q !! i) as [w|] eqn:Ew; [|done]. cbn [mbind option_bind] in E.
  destruct (swap_worker _ _ _ Ew) as (l1 & l2 & EW & EI).
  assert (wr_ok q w) as Hw by (pose proof (pi_writers _ I) as F; rewrite list.Forall_forall in F; apply F; by eapply list_elem_of_lookup_2).
  assert (forall o, carries w = Some o -> o ∈ moving q) as HM.
  { intros o Ho. unfold moving. rewrite !elem_of_app. do 2 right. apply list_elem_of_omap. exists w. split; [by eapply list_elem_of_lookup_2|done]. }
  assert (forall d w', turn q q' l1 l2 w w' d -> pinv q') as Done by (intros d w' T; by eapply turn_pinv).
  unfold wr_ok in Hw. destruct w as [ws pnd]. cbn [wr_state wr_pending] in *. destruct ws as [|o|o|o|o rec n| |].
  - destruct (q_ch q) as [|o ch] eqn:Ech.
    + destruct (dist_done q) eqn:ED; [|done]. injection E as <-. apply (Done None (MkWriter WDone pnd)).
      apply calm_turn; cbn; try done; [apply same_view_refl, I|by right; split; [done|]|by left|].
      left. split_and!; [done..|unfold zlen; cbn; lia|done|done].
    + injection E as <-. apply (Done None (MkWriter (WGot o) pnd)).
      apply calm_turn; cbn; try done; [by rewrite Ech|rewrite Ech, app_nil_r; apply Permutation_cons_append|apply same_view_refl, I|by left|].
      left. split_and!; [done..|unfold zlen; cbn; lia|done|done].
  - injection E as <-. apply (Done None (MkWriter (WObserved o) pnd)).
    apply calm_turn; cbn; try done; [ |by left|left; split_and!; [done..|unfold zlen; cbn; lia|done|done]].
    destruct (observe (SKey o) (q_store q)) as [r s'] eqn:Eo. eapply observe_same; [apply I|done].
  - destruct (addIfAbsent (SKey o) (q_seen q)) as [b m] eqn:Ea. apply addIfAbsent_spec in Ea as (Hf & Ht & Hm). destruct b; injection E as <-.
    + apply (Done None (MkWriter (WNew o) pnd)). specialize (Ht eq_refl).
      split; cbn; try done; [apply grows_refl, I|congruence|right; right; by eexists| |intros _; split_and!; [done|unfold zlen; cbn; lia|done|done]].
      intros k. rewrite Hm. split; [intros [-> |]; [by left|by right]|intros [[= ->]|]; [by left|by right]].
    + apply (Done (Some o) (MkWriter WIdle pnd)).
      apply calm_turn; cbn; try done; [rewrite app_nil_r; symmetry; apply Permutation_cons_append|apply same_view_refl, I|by left|].
      destruct (q_cancelled q) eqn:EC; [by right|left]. split_and!; [done..|unfold zlen; cbn; lia| |done].
      intros o' [= <-]. destruct (ll_seen _ (pi_live _ I EC) _ (Hf eq_refl)) as [|HO]; [by left|right].
      eapply (still_moving _ l1 l2); [cbn; apply EI|]. unfold owned in HO. by rewrite EW, omap_middle in HO.
  - rewrite Has_view in E by apply I. destruct (closed (q_store q)).
    { injection E as <-. apply (Done (Some o) (MkWriter WDone pnd)).
      apply calm_turn; cbn; try done; [apply perm_dropped|apply same_view_refl, I|by left|by left|by right]. }
    case_bool_decide as HS.
    { injection E as <-. apply (Done (Some o) (MkWriter WIdle pnd)).
      apply calm_turn; cbn; try done; [apply perm_dropped|apply same_view_refl, I|by left|left].
      split_and!; [done..|unfold zlen; cbn; lia|intros ? [= <-]; by left|intros ? [= <-]; by right]. }
    destruct (prepare o verify) as [[rec n]|e] eqn:EP; injection E as <-.
    + apply (Done None (MkWriter (WReady o rec n) pnd)).
      apply calm_turn; cbn; try done; [apply same_view_refl, I|by split; [|apply eq_None_not_Some]|by right|left].
      split_and!; [done..|unfold zlen; cbn; lia|done|intros ? [= <-]; by left].
    + apply (Done (Some o) (MkWriter WDone pnd)).
      apply calm_turn; cbn; try done; [apply perm_dropped|apply same_view_refl, I|by left|by left|by right].
  - destruct Hw as [HP HN]. destruct (append (SKey o) rec false (q_store q)) as [r s'] eqn:Ea.
    destruct (append_turn _ _ _ _ _ _ I (pi_moving _ I _ (HM _ eq_refl)) HP HN Ea) as (G & O & M & S).
    assert (forall k, Some (SKey o) <> Some k -> view s' k = view (q_store q) k) as O' by (intros k Hk; apply O; congruence).
    destruct r as [[]|e].
    + assert (exists w', owns w' = None /\ carries w' = None /\ wr_state w' <> WDone /\ q' =
      put_writer i w' (put_stats (count_stored n (q_stats q)) (put_store s' q)) /\ wr_ok q' w') as (w' & E1 & E2 & E3 & E' & E4).
      { destruct (batchSize <=? _); injection E as <-; eexists; split_and!; cbn; try reflexivity; done. }
      subst q'. apply (Done (Some o) w'). split; cbn; try done; rewrite ?E2; cbn; [apply perm_dropped|by left|rewrite E1; intros k; split; [by right|by intros [[=]|]]|].
      intros _. split_and!; [done|unfold zlen; cbn; lia|intros ? [= <-]; left; by apply S|intros ? [= <-]; right; by apply S].
    + injection E as <-. apply (Done (Some o) (MkWriter WDone pnd)).
      split; cbn; try done; [apply perm_dropped|by left|by left|intros k; split; [by right|by intros [[=]|]]].
  - destruct (syncActive (q_store q)) as [r s'] eqn:Es. apply syncActive_spec in Es as SV; [|apply I].
    destruct r as [[]|e]; injection E as <-.
    + apply (Done None (MkWriter WIdle pnd)). apply calm_turn; cbn; try done; [by left|left].
      split_and!; [done..|unfold zlen; cbn; lia|done|done].
    + apply (Done None (MkWriter WDone pnd)). apply calm_turn; cbn; try done; [by left|by left|by right].
  - done.
Qed.

(** ** The distributor's turn, and a whole run *)

(** The workers are untouched and the store is. *)
Lemma dist_pinv q q' :
  pinv q -> q_writers q' = q_writers q -> q_store q' = q_store q -> q_seen q' = q_seen q -> q_stats q' = q_stats q ->
  dist_done q = false -> (q_cancelled q = true -> q_cancelled q' = true) ->
  (forall x, x ∈ q_todo q' -> x ∈ q_todo q) -> (forall o, o ∈ moving q' -> o ∈ moving q \/ Ok o ∈ q_todo q) ->
  (q_cancelled q' = false -> q_err q' = q_err q /\ zlen (q_todo q') + zlen (moving q') = zlen (q_todo q) + zlen (moving q) /\
    (forall x, x ∈ q_todo q -> x ∈ q_todo q' \/ exists obj, x = Ok obj /\ obj ∈ moving q') /\ (forall o, o ∈ moving q -> o ∈ moving q')) ->
  pinv q'.
Proof.
  intros I EW ES EK ET ED EC T M L. assert (owned q' = owned q) as EO by (unfold owned; by rewrite EW).
  apply (pinv_step q); [done|rewrite ES; apply grows_refl, I|rewrite ES; congruence|done|done| |rewrite EO; apply I|rewrite EO, EK; apply I|].
  - rewrite EW. eapply list.Forall_impl; [apply I|]. intros w Hw. apply (wr_ok_mono q); [done|by rewrite ES|done|congruence].
  - intros HC. destruct (L HC) as (E1 & E2 & E3 & E4). split; [|done| | | |].
    + destruct (q_cancelled q); [|done]. by rewrite EC in HC.
    + unfold total. rewrite ET. lia.
    + intros x [?|(obj & -> & ?)]%E3; [by left|right]. exists obj. split; [done|]. right. by exists obj.
    + intros o Ho%E4. right. by exists o.
    + rewrite EK, EO. intros k Hk. destruct (decide (k ∈ owned q)); [by right; right|by left].
Qed.

Lemma par_step_pinv c q q' : pinv q -> par_step verify batchSize cap c q = Some q' -> pinv q'.
Proof.
  intros I E. destruct c as [| | |i|i]; cbn [par_step] in E.
  - destruct (q_pending q) eqn:EP; [done|]. destruct (q_todo q) as [|[obj|e] todo] eqn:ET; [done|injection E as <-..].
    + apply (dist_pinv q); try done; cbn; [unfold dist_done; by rewrite ET|rewrite ET; by right| |]; unfold moving; cbn; rewrite EP, ET; cbn.
      * intros o [-> |Ho]%elem_of_cons; [right; by left|by left].
      * intros _. split_and!; [done|unfold zlen; cbn; lia| |by right]. intros x [-> |Hx]%elem_of_cons; [right|by left].
        exists obj. split; [done|by left].
    + apply (dist_pinv q); try done; cbn; [unfold dist_done; by rewrite ET|intros x Hx; by apply elem_of_nil in Hx|].
      intros o Ho. left. unfold moving. by rewrite EP.
  - destruct (q_pending q) as [obj|] eqn:EP; [|done]. destruct (_ <? _)%nat; [|done]. injection E as <-.
    apply (dist_pinv q); try done; cbn; [unfold dist_done; rewrite EP; by destruct (q_todo q)| |]; unfold moving; cbn; rewrite EP, <- ?app_assoc; cbn.
    + intros o. rewrite !elem_of_app, !elem_of_cons, elem_of_app. tauto.
    + intros _. split_and!; [done|unfold zlen; rewrite !length_app; cbn; rewrite length_app; lia|by left|].
      intros o. rewrite !elem_of_app, !elem_of_cons, elem_of_app. tauto.
  - destruct (q_pending q) as [obj|] eqn:EP; [|done]. destruct (q_cancelled q) eqn:EC; [|done]. injection E as <-.
    apply (dist_pinv q); try done; cbn; [unfold dist_done; rewrite EP; by destruct (q_todo q)|intros x Hx; by apply elem_of_nil in Hx| |by rewrite EC].
    intros o Ho. left. unfold moving. rewrite EP. by right.
  - by eapply work_pinv.
  - destruct (q_writers q !! i) as [[ws pnd]|] eqn:Ew; [|done]. cbn [mbind option_bind wr_state] in E.
    destruct ws; try done. destruct (q_cancelled q) eqn:EC; [|done]. injection E as <-.
    destruct (swap_worker _ _ _ Ew) as (l1 & l2 & EW & EI). apply (turn_pinv q _ l1 l2 (MkWriter WIdle pnd) (MkWriter WDone pnd) None); [done|].
    apply calm_turn; cbn; try done; [apply same_view_refl, I|by left|by left|by right].
Qed.

Lemma par_run_pinv sched q q' : pinv q -> par_run verify batchSize cap sched q = Some q' -> pinv q'.
Proof.
  revert q. induction sched as [|c sched IH]; intros q I E; cbn [par_run] in E; [by injection E as <-|].
  apply bind_Some in E as (q1 & E1 & E2). eapply IH; [|done]. by eapply par_step_pinv.
Qed.

Lemma idle_none {B} (f : writer -> option B) n : f (MkWriter WIdle 0) = None -> omap f (replicate n (MkWriter WIdle 0)) = [].
Proof. intros E. induction n; [done|]. cbn. by rewrite E. Qed.
Lemma start_pinv n : inv s0 -> pinv (start_run n seq s0).
Proof.
  intros I. assert (moving (start_run n seq s0) = [] /\ owned (start_run n seq s0) = []) as [EM EO] by (unfold moving, owned; cbn; by rewrite !idle_none).
  assert (forall k, k ∉ shard (∅ : seenSet) k) as NS by (intros k; unfold shard, seenSet; rewrite lookup_empty; apply not_elem_of_empty).
  split; rewrite ?EM, ?EO; cbn; [by apply grows_refl|congruence|done|intros o Ho; by apply elem_of_nil in Ho| |constructor|intros k Hk; by apply elem_of_nil in Hk|].
  - apply Forall_replicate. done.
  - intros _. split; [done|by left|intros k Hk; by apply NS in Hk|]. unfold total. rewrite EM. unfold zlen. cbn. lia.
Qed.

(** A finished run that nothing cancelled stored everything. *)
Lemma finished_lossless q :
  pinv q -> par_finished q = true -> q_cancelled q = false -> q_writers q <> [] ->
  q_err q = None /\ (forall x, x ∈ seq -> exists obj, x = Ok obj /\ stored q (SKey obj)) /\
  Stored (q_stats q) + Deduped (q_stats q) = zlen seq.
Proof.
  intros I (HD & HW)%andb_true_iff HC HN. destruct (pi_live _ I HC) as [LE LS LK LT].
  rewrite forallb_forall in HW. assert (forall w, w ∈ q_writers q -> wr_state w = WDone) as AD.
  { intros w Hw%list_elem_of_In%HW. unfold is_done in Hw. by destruct (wr_state w). }
  assert (q_ch q = []) as EC.
  { destruct (q_writers q) as [|w ws] eqn:E; [done|]. pose proof (pi_writers _ I) as F. rewrite E in F.
    apply Forall_cons_1 in F as [Hw _]. unfold wr_ok in Hw. rewrite (AD w) in Hw by (by left). destruct Hw as [|[_ ?]]; [congruence|done]. }
  assert (q_todo q = [] /\ q_pending q = None) as [ET EP] by (unfold dist_done in HD; by destruct (q_todo q), (q_pending q)).
  assert (moving q = []) as EM.
  { unfold moving. rewrite EC, EP. cbn. destruct (omap _ _) as [|o l] eqn:E; [done|].
    assert (o ∈ omap carries (q_writers q)) as (w & Hw & Ho)%list_elem_of_omap by (rewrite E; by left). unfold carries in Ho. by rewrite (AD w Hw) in Ho. }
  split; [done|]. split.
  - intros x [Hx|(obj & -> & [Hs|(o & Ho & _)])]%LS; [rewrite ET in Hx; by apply elem_of_nil in Hx|by exists obj|rewrite EM in Ho; by apply elem_of_nil in Ho].
  - unfold total in LT. rewrite ET, EM in LT. unfold zlen in LT |- *. cbn in LT. lia.
Qed.

(** ** Progress *)

(** How far a worker and the run are from the end. *)
Definition left_w (w : writer) : nat :=
  match wr_state w with WIdle => 1 | WGot _ => 7 | WObserved _ => 6 | WNew _ => 5 | WReady _ _ _ => 4 | WFlush => 3 | WDone => 0 end.
Definition left_q (q : PRun) : nat :=
  9 * length (q_todo q) + 8 * length (option_list (q_pending q)) + 7 * length (q_ch q) + sum_list_with left_w (q_writers q).

(** Only an error cancels a run. *)
Definition stops (q q' : PRun) : Prop :=
  (q_cancelled q' = q_cancelled q /\ q_err q' = q_err q) \/ is_Some (q_err q').
Lemma put_error_stops e q q0 : stops q (put_error e q0).
Proof. right. cbn. destruct (q_err q0); by eexists. Qed.
Lemma same_stops q q' : q_cancelled q' = q_cancelled q -> q_err q' = q_err q -> stops q q'.
Proof. by left. Qed.

Lemma work_shape i q q' : work verify batchSize i q = Some q' -> exists w w',
  q_writers q !! i = Some w /\ q_writers q' = <[i:=w']> (q_writers q) /\ q_todo q' = q_todo q /\ q_pending q' = q_pending q /\
  (7 * length (q_ch q') + left_w w' < 7 * length (q_ch q) + left_w w)%nat /\ stops q q'.
Proof.
  intros E. unfold work in E. destruct (q_writers q !! i) as [[ws pnd]|] eqn:Ew; [|done]. cbn [mbind option_bind wr_state wr_pending] in E.
  eexists _. destruct ws as [|o|o|o|o rec n| |]; repeat case_match; simplify_eq; eexists; (split; [reflexivity|]); split_and!; try reflexivity;
  first [by apply put_error_stops|by apply same_stops|cbn in *; lia|match goal with C : q_ch q = _ |- _ => cbn; rewrite C; cbn; lia end].
Qed.

Lemma left_swap l i w w' : l !! i = Some w -> (sum_list_with left_w (<[i:=w']> l) + left_w w = sum_list_with left_w l + left_w w')%nat.
Proof. intros (l1 & l2 & EW & EI)%swap_worker. rewrite EI, EW, !sum_list_with_app. cbn. lia. Qed.

Lemma par_step_left c q q' : par_step verify batchSize cap c q = Some q' ->
  (left_q q' < left_q q)%nat /\ length (q_writers q') = length (q_writers q) /\ stops q q'.
Proof.
  intros E. unfold left_q. destruct c as [| | |i|i]; cbn [par_step] in E.
  - destruct (q_pending q) eqn:EP; [done|]. destruct (q_todo q) as [|[obj|e] todo] eqn:ET; [done|injection E as <-..]; cbn -[Nat.mul].
    + split_and!; [lia|done|by apply same_stops].
    + split_and!; [lia|done|apply put_error_stops].
  - destruct (q_pending q) as [obj|] eqn:EP; [|done]. destruct (_ <? _)%nat; [|done]. injection E as <-. cbn -[Nat.mul].
    rewrite length_app. cbn -[Nat.mul]. split_and!; [lia|done|by apply same_stops].
  - destruct (q_pending q) as [obj|] eqn:EP; [|done]. destruct (q_cancelled q) eqn:EC; [|done]. injection E as <-. cbn -[Nat.mul].
    split_and!; [lia|done|by apply same_stops].
  - apply work_shape in E as (w & w' & Ew & EW & ET & EP & EL & ES). apply (left_swap _ _ _ w') in Ew.
    rewrite EW, ET, EP, length_insert. split_and!; [lia|done..].
  - destruct (q_writers q !! i) as [[ws pnd]|] eqn:Ew; [|done]. cbn [mbind option_bind wr_state] in E.
    destruct ws; try done. destruct (q_cancelled q) eqn:EC; [|done]. injection E as <-.
    apply (left_swap _ _ _ (MkWriter WDone pnd)) in Ew. cbn -[Nat.mul insert] in *. rewrite length_insert.
    split_and!; [lia|done|by apply same_stops].
Qed.

Lemma par_run_left sched q q' : par_run verify batchSize cap sched q = Some q' ->
  (length sched + left_q q' <= left_q q)%nat /\ length (q_writers q') = length (q_writers q) /\
  ((q_cancelled q = true -> is_Some (q_err q)) -> q_cancelled q' = true -> is_Some (q_err q')).
Proof.
  revert q. induction sched as [|c sched IH]; intros q E; cbn [par_run] in E; [injection E as <-; split_and!; [cbn; lia|done..]|].
  apply bind_Some in E as (q1 & E1 & E2). apply par_step_left in E1 as (L1 & W1 & S1). destruct (IH _ E2) as (L2 & W2 & S2).
  cbn [length]. split_and!; [lia|congruence|]. intros HC. apply S2. destruct S1 as [[-> ->]|S1]; done.
Qed.

Definition is_idle (w : writer) : Prop := wr_state w = WIdle.
#[export] Instance is_idle_dec w : Decision (is_idle w).
Proof. unfold is_idle. destruct (wr_state w); [by left|by right..]. Defined.
(** Until the run has finished, some goroutine can move. *)
Lemma never_stuck q : pinv q -> (0 < cap)%nat -> q_writers q <> [] ->
  par_finished q = true \/ exists c q', par_step verify batchSize cap c q = Some q'.
Proof.
  intros I HC HN. destruct (par_finished q) eqn:EF; [by left|right].
  assert ((exists i w, q_writers q !! i = Some w /\ wr_state w <> WDone) \/ forall w, w ∈ q_writers q -> wr_state w = WDone) as D.
  { clear -q. induction (q_writers q) as [|w l IH]; [right; intros w Hw; by apply elem_of_nil in Hw|].
    destruct (decide (is_done w = true)) as [Hd|Hd]; unfold is_done in Hd; [|left; exists 0%nat, w; split; [done|intros E; by rewrite E in Hd]].
    destruct IH as [(i & w' & ? & ?)|IH]; [left; by exists (S i), w'|right]. intros w' [-> |Hw]%elem_of_cons; [by destruct (wr_state w)|by apply IH]. }
  assert (forall i w, q_writers q !! i = Some w -> wr_state w <> WDone -> wr_state w <> WIdle -> exists q', work verify batchSize i q = Some q') as Busy.
  { intros i w Hw H1' H2'. unfold work. rewrite Hw. cbn [mbind option_bind].
    destruct (wr_state w); try done; repeat case_match; by eexists. }
  destruct (q_pending q) as [obj|] eqn:EP.
  - destruct (length (q_ch q) <? cap)%nat eqn:EL; [exists PSend; cbn [par_step]; rewrite EP, EL; by eexists|]. apply Nat.ltb_ge in EL.
    destruct D as [(i & w & Hw & Hd)|D].
    + exists (PWork i). cbn [par_step]. destruct (decide (is_idle w)) as [Hi|Hi]; [|by eapply Busy].
      unfold work. rewrite Hw. cbn [mbind option_bind]. unfold is_idle in Hi. rewrite Hi. destruct (q_ch q); [cbn in EL; lia|by eexists].
    + exists PQuit. cbn. rewrite EP. destruct (q_writers q) as [|w ws] eqn:EW; [done|]. pose proof (pi_writers _ I) as F. rewrite EW in F.
      apply Forall_cons_1 in F as [Hw _]. unfold wr_ok in Hw. rewrite (D w) in Hw by (by left).
      destruct Hw as [-> |[Hd _]]; [by eexists|]. unfold dist_done in Hd. rewrite EP in Hd. by destruct (q_todo q).
  - destruct (q_todo q) as [|[obj|e] todo] eqn:ET; [|exists PProduce; cbn; rewrite EP, ET; by eexists..].
    assert (dist_done q = true) as ED by (unfold dist_done; by rewrite ET, EP).
    destruct D as [(i & w & Hw & Hd)|D].
    + exists (PWork i). cbn [par_step]. destruct (decide (is_idle w)) as [Hi|Hi]; [|by eapply Busy].
      unfold work. rewrite Hw. cbn [mbind option_bind]. unfold is_idle in Hi. rewrite Hi, ED. destruct (q_ch q); by eexists.
    + exfalso. unfold par_finished in EF. rewrite ED in EF. cbn in EF. apply not_true_iff_false in EF. apply EF.
      apply forallb_forall. intros w Hw%list_elem_of_In. unfold is_done. by rewrite (D w Hw).
Qed.
Lemma completes n q : (left_q q <= n)%nat -> pinv q -> (0 < cap)%nat -> q_writers q <> [] ->
  exists sched q', par_run verify batchSize cap sched q = Some q' /\ par_finished q' = true.
Proof.
  revert q. induction n as [|n IH]; intros q Hn I HC HN.
  all: destruct (never_stuck q I HC HN) as [HF|(c & q1 & E1)]; [by exists [], q|].
  all: destruct (par_step_left _ _ _ E1) as (L1 & W1 & _).
  - lia.
  - destruct (IH q1) as (sched & q2 & E2 & HF); [lia|by eapply par_step_pinv|done|by destruct (q_writers q1), (q_writers q)|].
    exists (c :: sched), q2. split; [|done]. cbn [par_run]. by rewrite E1.
Qed.
End Run.

(** * Properties *)

(** What a complete run, or none, leaves behind. *)
Lemma parallel_writes `{Blake3} `{ZstdOk} `{FuseOk} procs sched opts seq s r st s' :
  (0 < procs)%nat -> inv s -> Forall (fun x => forall obj, x = Ok obj -> Validate (SKey obj) = Ok tt) seq ->
  WriteParallel procs sched opts seq s = (r, st, s') ->
  grows s s' /\
  (forall k rec, view s k = None -> view s' k = Some rec ->
     exists obj n, Ok obj ∈ seq /\ SKey obj = k /\ prepare obj (Verify opts) = Ok (rec, n)) /\
  (r = Ok tt -> (forall x, x ∈ seq -> exists obj, x = Ok obj /\ is_Some (view s' (SKey obj))) /\ Stored st + Deduped st = zlen seq).
Proof.
  intros HP I HV E. unfold WriteParallel in E. set (n := if Writers opts <=? 0 then _ else _) in E.
  assert (0 < n)%nat as Hn by (subst n; destruct (Z.leb_spec (Writers opts) 0); lia).
  assert (forall e, (Err e, MkWriteStats 0 0 0, s) = (r, st, s') -> grows s s' /\
    (forall k rec, view s k = None -> view s' k = Some rec -> made (Verify opts) seq k rec) /\ (r = Ok tt -> False)) as Out.
  { intros e [= <- <- <-]. split_and!; [by apply grows_refl|congruence|done]. }
  destruct (par_run _ _ _ sched _) as [q|] eqn:ER; [|destruct (Out _ E) as (? & ? & ?); by split_and!].
  destruct (par_finished q) eqn:EF; [|destruct (Out _ E) as (? & ? & ?); by split_and!].
  pose proof (par_run_pinv _ _ _ _ _ HV _ _ _ (start_pinv (Verify opts) seq s n I) ER) as PI.
  destruct (par_run_left _ _ _ _ _ _ ER) as (_ & EL & EC). specialize (EC ltac:(done)).
  destruct (syncActive (q_store q)) as [r1 s1] eqn:ES. apply syncActive_spec in ES as SV; [|apply PI]. injection E as Er <- <-.
  split; [eapply grows_trans; [apply PI|by apply same_view_grows]|]. split.
  { intros k rec Hn0. rewrite (sv_view _ _ SV). by apply PI. }
  intros ->. destruct (q_err q) as [e|] eqn:EE; [done|].
  destruct (finished_lossless _ _ _ _ PI EF) as (_ & HS & HT).
  - destruct (q_cancelled q); [|done]. by destruct (EC eq_refl).
  - intros EW. rewrite EW in EL. cbn in EL. rewrite length_replicate in EL. lia.
  - split; [|done]. intros x Hx. destruct (HS x Hx) as (obj & -> & Hs). exists obj. split; [done|]. by rewrite (sv_view _ _ SV).
Qed.

(** C12. However the goroutines of WriteParallel interleave and whichever system calls fail:
    nothing stored before is lost or altered, every record that appears is one that [prepare]
    accepted for an object of the stream, and when the run reports success the stream held no
    error, each of its objects is stored and the two counters account for all of them. *)
Theorem write_parallel_correct `{Blake3} `{ZstdOk} `{FuseOk} procs sched opts seq s r st s' :
  (0 < procs)%nat -> inv s -> Forall (fun x => forall obj, x = Ok obj -> Validate (SKey obj) = Ok tt) seq ->
  WriteParallel procs sched opts seq s = (r, st, s') ->
  grows s s' /\
  (forall k rec, view s k = None -> view s' k = Some rec ->
     exists obj n, Ok obj ∈ seq /\ SKey obj = k /\ prepare obj (Verify opts) = Ok (rec, n)) /\
  (r = Ok tt -> (forall x, x ∈ seq -> exists obj, x = Ok obj /\ is_Some (view s' (SKey obj))) /\ Stored st + Deduped st = zlen seq).
Proof. by apply parallel_writes. Qed.

(** Two workers, the same object twice in the stream, an fsync after every append. *)
Definition twice : list (res StoreObject) := let o := MkStoreObject sample_key (Some [x61; x62; x63]) None in [Ok o; Ok o].
Definition two_writers : list pchoice :=
  [PProduce; PSend; PProduce; PWork 0; PSend; PWork 1; PWork 1; PWork 1; PWork 0; PWork 0; PWork 1; PWork 1; PWork 0; PWork 1; PWork 1].
Lemma write_parallel_correct_witness :
  exists st s', WriteParallel 1 two_writers (MkWriteOpts 2 1 false) twice (fresh sample_cfg (empty_disk [])) = (Ok tt, st, s') /\
    st = MkWriteStats 1 1 3 /\ is_Some (view s' sample_key).
Proof.
  destruct (WriteParallel 1 two_writers (MkWriteOpts 2 1 false) twice (fresh sample_cfg (empty_disk []))) as [[r st] s'] eqn:E.
  exists st, s'. assert (r = Ok tt) as -> by (apply (f_equal (fun x => fst (fst x))) in E; cbn [fst] in E; rewrite <- E; vm_compute; reflexivity).
  assert (st = MkWriteStats 1 1 3) as -> by (apply (f_equal (fun x => snd (fst x))) in E; cbn [fst snd] in E; rewrite <- E; vm_compute; reflexivity).
  split; [reflexivity|]. split; [reflexivity|].
  destruct (write_parallel_correct 1 _ _ twice _ _ _ _ ltac:(lia) (inv_fresh sample_cfg _ ltac:(by vm_compute))
    ltac:(repeat constructor; intros obj [= <-]; reflexivity) E) as (_ & _ & HS).
  destruct (HS eq_refl) as [HA _]. destruct (HA (Ok (MkStoreObject sample_key (Some [x61; x62; x63]) None)) ltac:(by left)) as (obj & [= <-] & Hs).
  exact Hs.
Defined.

(** WriteParallel neither runs on for ever nor gets stuck: with any positive number of
    workers, whatever has happened so far took at most nine steps per object and one per
    worker, and from there the goroutines can be scheduled until the distributor and every
    worker have returned. *)
Theorem write_parallel_terminates `{Blake3} `{ZstdOk} `{FuseOk} verify batchSize writers sched seq s q :
  (0 < writers)%nat -> inv s -> Forall (fun x => forall obj, x = Ok obj -> Validate (SKey obj) = Ok tt) seq ->
  par_run verify batchSize (writers * 2) sched (start_run writers seq s) = Some q ->
  (length sched <= 9 * length seq + writers)%nat /\
  exists sched' q', par_run verify batchSize (writers * 2) sched' q = Some q' /\ par_finished q' = true.
Proof.
  intros Hn I HV E. destruct (par_run_left _ _ _ _ _ _ E) as (L & EL & _). cbn in EL. rewrite length_replicate in EL.
  split.
  - set (l0 := left_q (start_run writers seq s)) in L. assert (l0 = 9 * length seq + sum_list_with left_w (replicate writers (MkWriter WIdle 0)))%nat as E0
      by (unfold l0, left_q; cbn -[Nat.mul]; lia).
    assert (sum_list_with left_w (replicate writers (MkWriter WIdle 0)) = writers) as ES by (clear; induction writers as [|n IH]; [done|cbn in *; by rewrite IH]).
    lia.
  - eapply (completes verify batchSize _ seq s HV (left_q q)); [done|eapply par_run_pinv; [done|by apply start_pinv|done]|lia|].
    intros EW. rewrite EW in EL. cbn in EL. lia.
Qed.
Lemma write_parallel_terminates_witness :
  exists q, par_run false 1 4 (take 5 two_writers) (start_run 2 twice (fresh sample_cfg (empty_disk []))) = Some q /\
    exists sched' q', par_run false 1 4 sched' q = Some q' /\ par_finished q' = true.
Proof.
  destruct (par_run false 1 4 (take 5 two_writers) (start_run 2 twice (fresh sample_cfg (empty_disk [])))) as [q|] eqn:E.
  - exists q. split; [reflexivity|].
    exact (proj2 (write_parallel_terminates false 1 2 _ twice _ _ ltac:(lia) (inv_fresh sample_cfg _ ltac:(by vm_compute))
      ltac:(repeat constructor; intros obj [= <-]; reflexivity) E)).
  - exfalso. apply (f_equal (fun o => match o with Some _ => true | None => false end)) in E. vm_compute in E. congruence.
Defined.
