(* ===== verification/Filepath.v ===== *)
(** Package path/filepath, lexically: cleaning, joining and taking apart slash-separated paths,
    and the laws of what [Clean] leaves. *)
From S2P Require Import Prelude External Readers.

(** * path/filepath *)

Abbreviation slash := x2f.
Abbreviation dot := x2e.
Definition rooted (p : bytes) : bool := match p with c :: _ => bool_decide (c = slash) | [] => false end.
Fixpoint join (cs : list bytes) : bytes :=
  match cs with [] => [] | [c] => c | c :: cs' => c ++ slash :: join cs' end.

(** A component that names an entry of the directory it is looked up in. *)
Definition plain_name (c : bytes) : Prop := c <> [] /\ c <> [dot] /\ c <> [dot; dot].

(** One component of [filepath.Clean]. *)
Definition clean_step (abs : bool) (out : list bytes) (c : bytes) : list bytes :=
  if bool_decide (c = [] \/ c = [dot]) then out
  else if bool_decide (c = [dot; dot]) then
    match list.last out with
    | Some l => if bool_decide (l = [dot; dot]) then out ++ [c] else removelast out
    | None => if abs then out else [c]
    end
  else out ++ [c].
Definition clean_comps (abs : bool) (cs : list bytes) : list bytes := fold_left (clean_step abs) cs [].
Definition Clean (p : bytes) : bytes :=
  let cs := clean_comps (rooted p) (SplitSlash p) in
  if rooted p then slash :: join cs else match cs with [] => [dot] | _ => join cs end.
(** [filepath.Join] of two elements, of which the second is not empty. *)
Definition Join (a b : bytes) : bytes := Clean (match a with [] => b | _ => a ++ slash :: b end).

(** What precedes the last separator, and whether there is one. *)
Definition up_to_slash (p : bytes) : option bytes :=
  match removelast (SplitSlash p) with [] => None | cs => Some (join cs) end.
(** [filepath.Dir]. *)
Definition Dir (p : bytes) : bytes := Clean (match up_to_slash p with Some d => d ++ [slash] | None => [] end).

Definition HasPrefix (s pre : bytes) : bool := bool_decide (take (length pre) s = pre).
Definition TrimPrefix (s pre : bytes) : bytes := if HasPrefix s pre then drop (length pre) s else s.

(** ** Their laws *)

Lemma split_nonempty s : SplitSlash s <> [].
Proof. unfold SplitSlash. destruct s as [|c s]; [done|]. cbn. destruct (bool_decide _); [done|]. by destruct (split_on _ _). Qed.
Lemma split_app a b : SplitSlash (a ++ slash :: b) = SplitSlash a ++ SplitSlash b.
Proof.
  unfold SplitSlash. induction a as [|c a IH]; cbn [app split_on]; [by rewrite bool_decide_eq_true_2|].
  rewrite IH. destruct (bool_decide (c = slash)); [done|].
  pose proof (split_nonempty a). unfold SplitSlash in *. by destruct (split_on slash a).
Qed.
Lemma split_no_slash c : slash ∉ c -> SplitSlash c = [c].
Proof.
  unfold SplitSlash. induction c as [|x c IH]; intros Hn; [done|]. cbn [split_on].
  apply not_elem_of_cons in Hn as [Hx Hn]. by rewrite bool_decide_eq_false_2, IH.
Qed.
Lemma split_part s : Forall (fun c => slash ∉ c) (SplitSlash s).
Proof.
  unfold SplitSlash. induction s as [|x s IH]; [repeat constructor; apply not_elem_of_nil|]. cbn [split_on].
  case_bool_decide as Hx; [constructor; [apply not_elem_of_nil|done]|].
  assert (forall l : bytes, slash ∉ l -> slash ∉ x :: l) as Cons by (intros l Hl [E|?]%elem_of_cons; [by subst x|done]).
  destruct (split_on slash s) as [|l ls]; [constructor; [apply Cons, not_elem_of_nil|constructor]|].
  apply Forall_cons_1 in IH as [Hl Hls]. constructor; [by apply Cons|done].
Qed.
Lemma join_cons c cs : cs <> [] -> join (c :: cs) = c ++ slash :: join cs.
Proof. by destruct cs. Qed.
Lemma split_join cs : cs <> [] -> Forall (fun c => slash ∉ c) cs -> SplitSlash (join cs) = cs.
Proof.
  induction cs as [|c cs IH]; [done|]. intros _ [Hc Hcs]%Forall_cons_1. destruct cs as [|c2 cs]; [by apply split_no_slash|].
  rewrite join_cons, split_app, split_no_slash, IH; done.
Qed.
Lemma join_split s : join (SplitSlash s) = s.
Proof.
  unfold SplitSlash. induction s as [|x s IH]; [done|]. cbn [split_on]. case_bool_decide as Hx.
  - subst x. rewrite join_cons by (apply split_nonempty). by rewrite IH.
  - pose proof (split_nonempty s) as HN. unfold SplitSlash in HN. destruct (split_on slash s) as [|l ls] eqn:E; [done|].
    destruct ls; cbn in *; by rewrite <- IH.
Qed.
Lemma join_app a b : a <> [] -> b <> [] -> join (a ++ b) = join a ++ slash :: join b.
Proof.
  intros Ha Hb. induction a as [|c a IH]; [done|]. destruct a as [|c2 a]; [by apply join_cons|].
  change ((c :: c2 :: a) ++ b) with (c :: ((c2 :: a) ++ b)). rewrite (join_cons c), (join_cons c (c2 :: a)), IH by done.
  by rewrite <- app_assoc.
Qed.
Lemma rooted_split p : rooted p = match SplitSlash p with c :: _ :: _ => bool_decide (c = []) | _ => false end.
Proof.
  unfold SplitSlash. destruct p as [|x p]; [done|]. cbn [rooted split_on]. case_bool_decide.
  - pose proof (split_nonempty p) as HN. unfold SplitSlash in HN. by destruct (split_on slash p).
  - destruct (split_on slash p) as [|l [|]]; [done|done|]. by rewrite bool_decide_eq_false_2.
Qed.
Lemma HasPrefix_true s pre : HasPrefix s pre = true <-> exists r, s = pre ++ r.
Proof.
  unfold HasPrefix. rewrite bool_decide_eq_true. split.
  - intros E. exists (drop (length pre) s). by rewrite <- E at 1; rewrite take_drop.
  - intros [r ->]. by rewrite take_app_length.
Qed.

Lemma clean_plain abs cs out : Forall plain_name cs -> fold_left (clean_step abs) cs out = out ++ cs.
Proof.
  revert out. induction cs as [|c cs IH]; intros out HF; [by rewrite app_nil_r|].
  apply Forall_cons_1 in HF as [(H1' & H2' & H3') HF]. cbn [fold_left]. unfold clean_step at 2.
  rewrite bool_decide_eq_false_2, bool_decide_eq_false_2 by tauto. rewrite IH by done. by rewrite <- app_assoc.
Qed.
Lemma clean_comps_app abs a b : Forall plain_name b -> clean_comps abs (a ++ b) = clean_comps abs a ++ b.
Proof. intros Hb. unfold clean_comps. rewrite fold_left_app. by apply clean_plain. Qed.
Lemma length_removelast {A} (l : list A) : (length (removelast l) <= length l)%nat.
Proof. induction l as [|x [|]]; cbn in *; lia. Qed.
Lemma clean_length abs cs out : (length (fold_left (clean_step abs) cs out) <= length out + length cs)%nat.
Proof.
  revert out. induction cs as [|c cs IH]; intros out; cbn [fold_left length]; [lia|]. etransitivity; [apply IH|].
  assert (length (clean_step abs out c) <= S (length out))%nat; [|lia]. unfold clean_step. repeat case_bool_decide; [lia| |rewrite length_app; cbn; lia].
  destruct (list.last out) as [l|]; [case_bool_decide; [rewrite length_app; cbn; lia|]|destruct abs; cbn; lia].
  pose proof (length_removelast out). lia.
Qed.
(** Without [..] the result is made of the input's own plain components. *)
Lemma clean_no_dotdot abs cs out :
  Forall (fun c => c <> [dot; dot]) cs -> exists r, fold_left (clean_step abs) cs out = out ++ r /\ Forall plain_name r /\ incl r cs.
Proof.
  revert out. induction cs as [|c cs IH]; intros out HF; [exists []; rewrite app_nil_r; split_and!; [done|constructor|apply incl_nil_l]|].
  apply Forall_cons_1 in HF as [Hc HF]. cbn [fold_left].
  destruct (decide (c = [] \/ c = [dot])) as [Hs|Hs].
  - destruct (IH out HF) as (r & E & P & I). exists r. unfold clean_step at 2. rewrite bool_decide_eq_true_2 by done.
    split_and!; [done..|]. intros x Hx. right. by apply I.
  - destruct (IH (out ++ [c]) HF) as (r & E & P & I). exists (c :: r). unfold clean_step at 2.
    rewrite bool_decide_eq_false_2, bool_decide_eq_false_2 by done. rewrite E, <- app_assoc. split_and!; [done| |].
    + constructor; [|done]. unfold plain_name. tauto.
    + intros x [<-|Hx]; [by left|right; by apply I].
Qed.

(** What [Clean] leaves: the way up first, and none of it from the root. *)
Definition canon (abs : bool) (cs : list bytes) : Prop :=
  exists n pl, cs = replicate n [dot; dot] ++ pl /\ Forall plain_name pl /\ (abs = true -> n = 0%nat).
Lemma last_replicate_dots n (pl : list bytes) : list.last (replicate n [dot; dot] ++ pl) =
  match list.last pl with Some l => Some l | None => match n with O => None | S _ => Some [dot; dot] end end.
Proof.
  rewrite last_app. destruct (list.last pl); [done|]. induction n as [|n IH]; [done|]. cbn. destruct n; [done|]. cbn in *. by rewrite IH.
Qed.
Lemma clean_step_canon abs out c : canon abs out -> canon abs (clean_step abs out c).
Proof.
  intros (n & pl & -> & HP & HN). unfold clean_step. case_bool_decide as H1'; [by exists n, pl|]. case_bool_decide as H2'.
  - subst c. rewrite last_replicate_dots. destruct (decide (pl = [])) as [->|Hne].
    + cbn. destruct n as [|n]; [destruct abs; [by exists 0%nat, []|by exists 1%nat, []]|]. rewrite bool_decide_eq_true_2 by done.
      exists (S (S n)), []. rewrite !app_nil_r. split_and!; [|done|by intros E%HN]. by rewrite <- replicate_S_end.
    + destruct (exists_last Hne) as (pl' & l & ->). rewrite last_snoc. apply Forall_app in HP as [HP HL]. apply Forall_cons_1 in HL as [(_ & _ & Hl) _].
      rewrite bool_decide_eq_false_2 by done. rewrite app_assoc, removelast_last. by exists n, pl'.
  - exists n, (pl ++ [c]). rewrite app_assoc. split_and!; [done| |done]. apply Forall_app. split; [done|]. constructor; [|done]. unfold plain_name. tauto.
Qed.
Lemma clean_canon abs cs : canon abs (clean_comps abs cs).
Proof.
  unfold clean_comps. assert (canon abs []) as HC by (by exists 0%nat, []). revert HC. generalize (@nil bytes).
  induction cs as [|c cs IH]; intros out HC; [done|]. cbn [fold_left]. by apply IH, clean_step_canon.
Qed.
Lemma canon_clean abs cs : canon abs cs -> clean_comps abs cs = cs.
Proof.
  intros (n & pl & -> & HP & HN). rewrite clean_comps_app by done. f_equal. destruct abs; [by rewrite HN|]. clear. unfold clean_comps.
  assert (forall m, fold_left (clean_step false) (replicate n [dot; dot]) (replicate m [dot; dot]) = replicate (m + n) [dot; dot]) as E; [|apply (E 0%nat)].
  induction n as [|n IH]; intros m; [by rewrite Nat.add_0_r|]. cbn [replicate fold_left].
  assert (clean_step false (replicate m [dot; dot]) [dot; dot] = replicate (S m) [dot; dot]) as ->.
  { unfold clean_step. rewrite bool_decide_eq_false_2 by (by intros [|]). rewrite bool_decide_eq_true_2 by done.
    pose proof (last_replicate_dots m []) as E. rewrite app_nil_r in E. rewrite E. cbn. destruct m; [done|]. by rewrite bool_decide_eq_true_2, <- replicate_S_end. }
  rewrite IH. f_equal. lia.
Qed.
