(* ===== verification/Tar.v ===== *)
(** Package archive/tar, at the level of members, as tarexport writes archives and tarextract
    reads them: headers, the writer's accounting of a member's size, and what a reader makes
    of a header. *)
From S2P Require Import Prelude External Objects.

Definition TypeReg : byte := x30.
Definition TypeSymlink : byte := x32.
Definition TypeChar : byte := x33.
Definition TypeBlock : byte := x34.
Definition TypeDir : byte := x35.
Definition TypeFifo : byte := x36.

(** [PAXRecords] is listed in the order in which Go ranges over the map; [h_ModTime] is in
    nanoseconds. *)
Record Header := MkHeader {
    h_Name : bytes; h_Typeflag : byte; h_Mode : Z; h_Uid : Z; h_Gid : Z; h_Size : Z; h_ModTime : Z;
    h_Linkname : bytes; h_Devmajor : Z; h_Devminor : Z; h_PAXRecords : list (bytes * bytes)
  }.
(** A member and what reading its body yields: bytes, then perhaps an error. *)
Record Member := MkMember { m_hdr : Header; m_body : bytes; m_err : option error }.

(** * The writer *)

(** What has been written, the last member being open while [tw_left] bytes of it are due. A
    fault makes the underlying write of the operation at hand fail. *)
Record TarWriter := MkTarWriter {
    tw_members : list (Header * bytes); tw_left : Z; tw_closed : bool; tw_faults : list (option error)
  }.
Definition NewTarWriter (faults : list (option error)) : TarWriter := MkTarWriter [] 0 false faults.

(** The write below, which may fail. *)
Definition sink : M TarWriter unit := fun w =>
  match tw_faults w with
  | [] => (Ok tt, w)
  | f :: fs => (match f with Some e => Err e | None => Ok tt end, MkTarWriter (tw_members w) (tw_left w) (tw_closed w) fs)
  end.
Definition ErrWriteTooLong : error := [EExt "archive/tar: write too long"].
Definition missed : error := [EExt "archive/tar: missed writing bytes"].
(** Appends to the body of the member that is open. *)
Definition grow (b : bytes) (ms : list (Header * bytes)) : list (Header * bytes) :=
  match list.last ms with Some (h, d) => removelast ms ++ [(h, d ++ b)] | None => ms end.
Definition put_body (b : bytes) : M TarWriter unit :=
  modify (fun w => MkTarWriter (grow b (tw_members w)) (tw_left w - zlen b) (tw_closed w) (tw_faults w)).

Section Writer.
(** The headers that the format can express. *)
Context (encodable : Header -> res unit).

Definition header_only (h : Header) : bool := negb (bool_decide (h_Typeflag h = TypeReg)).
Definition WriteHeader (h : Header) : M TarWriter unit :=
  left ← gets tw_left;
  if 0 <? left then fail missed
  else if negb (header_only h) && (h_Size h <? 0) then fail [EExt "archive/tar: negative size"]
  else
    _ ← lift (encodable h);
    _ ← sink;
    modify (fun w => MkTarWriter (tw_members w ++ [(h, [])]) (if header_only h then 0 else h_Size h) (tw_closed w) (tw_faults w)).
Definition tw_Write (b : bytes) : M TarWriter unit :=
  left ← gets tw_left;
  let fit := take (Z.to_nat left) b in
  _ ← (if 0 <? zlen fit then sink else mret tt);
  _ ← put_body fit;
  if left <? zlen b then fail ErrWriteTooLong else mret tt.
Definition tw_Close : M TarWriter unit :=
  left ← gets tw_left;
  if 0 <? left then fail missed
  else _ ← sink; modify (fun w => MkTarWriter (tw_members w) (tw_left w) true (tw_faults w)).
End Writer.

(** * Reading back *)

Definition xattrPrefix : bytes :=
  [x53; x43; x48; x49; x4c; x59; x2e; x78; x61; x74; x74; x72; x2e].          (* "SCHILY.xattr." *)
