(* ===== verification/TarExport.v ===== *)
(** Export of a directory as a tar (src/tarexport/tarexport.go). Composed with the walk: the
    archive of a tree that mirrors a source lists the source, entry by entry. *)
From S2P Require Import Prelude External Concrete Key Cborx Pack Chunker Objects Readers Builder Trees Amberignore Ingest Mirror Filepath Tar.

(** * tarexport.go *)

Section Exporter.
Context `{Cbor (list bytes)} `{Cbor (list Entry)} `{Cbor (list DirPair)}.
Context (encodable : Header -> res unit) (get : Key -> res bytes).

(** The records of an entry's attributes, inline or spilled. *)
Definition setXattrs (ent : Entry) : res (list (bytes * bytes)) :=
  let records (m : Xattrs) := (fun kv : bytes * bytes => (xattrPrefix ++ kv.1, kv.2)) <$> map_to_list m in
  if 0 <? zlen (XattrsIn ent) then m ← DecodeXattrs (XattrsIn ent); Ok (records m)
  else if (length (XattrsKey ent) =? Size)%nat then
    xk ← Parse (XattrsKey ent);
    data ← get xk;
    m ← DecodeXattrs data; Ok (records m)
  else Ok [].

Definition writeContent (fuel : nat) (k : Key) : M TarWriter unit := WriteContent get tw_Write fuel k.

(** The header, up to what depends on the file type. *)
Definition base_header (name : bytes) (ent : Entry) (xs : list (bytes * bytes)) (flag : byte) : Header :=
  MkHeader name flag (Z.land (Mode ent) 4095) (s64 (UID ent)) (s64 (GID ent)) 0 (Mtime ent) [] 0 0 xs.
Definition set_size (n : Z) (h : Header) : Header :=
  MkHeader (h_Name h) (h_Typeflag h) (h_Mode h) (h_Uid h) (h_Gid h) n (h_ModTime h) (h_Linkname h) (h_Devmajor h) (h_Devminor h) (h_PAXRecords h).
Definition set_link (l : bytes) (h : Header) : Header :=
  MkHeader (h_Name h) (h_Typeflag h) (h_Mode h) (h_Uid h) (h_Gid h) (h_Size h) (h_ModTime h) l (h_Devmajor h) (h_Devminor h) (h_PAXRecords h).
Definition set_dev (major minor : Z) (h : Header) : Header :=
  MkHeader (h_Name h) (h_Typeflag h) (h_Mode h) (h_Uid h) (h_Gid h) (h_Size h) (h_ModTime h) (h_Linkname h) major minor (h_PAXRecords h).

Definition unsafe_name (comp : bytes) : bool :=
  bool_decide (comp = []) || bool_decide (comp = [dot]) || bool_decide (comp = [dot; dot]) || existsb (fun c => bool_decide (c = slash)) comp.

Section Switch.
(** [dir] writes a subdirectory's entries. *)
Context (dir : Key -> bytes -> M TarWriter unit) (fuel : nat).
(** [entry]'s switch on the file type. *)
Definition entry_switch (name : bytes) (ent : Entry) (xs : list (bytes * bytes)) : M TarWriter unit :=
  let fmt := Z.land (Mode ent) S_IFMT in
  if fmt =? S_IFDIR then
    _ ← WriteHeader encodable (base_header (name ++ [slash]) ent xs TypeDir);
    ck ← lift (Parse (ContentKey ent));
    dir ck name
  else if fmt =? S_IFREG then
    ck ← lift (Parse (ContentKey ent));
    _ ← WriteHeader encodable (set_size (s64 (Length ck)) (base_header name ent xs TypeReg));
    writeContent fuel ck
  else if fmt =? S_IFLNK then WriteHeader encodable (set_link (LinkTarget ent) (base_header name ent xs TypeSymlink))
  else if fmt =? S_IFIFO then WriteHeader encodable (base_header name ent xs TypeFifo)
  else if (fmt =? S_IFCHR) || (fmt =? S_IFBLK) then
    match Rdev ent with
    | [major; minor] =>
        WriteHeader encodable (set_dev (s64 major) (s64 minor) (base_header name ent xs (if fmt =? S_IFCHR then TypeChar else TypeBlock)))
    | _ => fail [EMsg "device entry missing [major, minor]"]
    end
  else if fmt =? S_IFSOCK then mret tt
  else fail [EMsg "unsupported file type"].
Definition entry (prefix : bytes) (ent : Entry) : M TarWriter unit :=
  let comp := Name ent in
  if unsafe_name comp then fail [EMsg "refusing unsafe entry name"]
  else xs ← lift (setXattrs ent); entry_switch (Join prefix comp) ent xs.
End Switch.

Fixpoint dir (fuel : nat) (dirKey : Key) (prefix : bytes) : M TarWriter unit :=
  match fuel with
  | O => fail [OutOfFuel]
  | S fuel =>
      entries ← lift (CollectEntries get (S fuel) dirKey);
      each (entry (dir fuel) (S fuel) prefix) entries
  end.

Definition Write (fuel : nat) (root : Key) : M TarWriter unit :=
  if negb (Type_ root =? DirLeaf) && negb (Type_ root =? DirNode) then fail [EMsg "root is not a directory object"]
  else
    _ ← dir fuel root [];
    tw_Close.
End Exporter.

(** * What an archive of a source is *)

Definition records (xs : Xattrs) : list (bytes * bytes) := (fun kv : bytes * bytes => (xattrPrefix ++ kv.1, kv.2)) <$> map_to_list xs.
Definition meta_header (name : bytes) (flag : byte) (st : Stat) (xs : Xattrs) : Header :=
  MkHeader name flag (Z.land (st_mode st) 4095) (st_uid st) (st_gid st) 0 (st_mtime st) [] 0 0 (records xs).

Section Source.
Context `{Gitignore} `{Os}.

Section SourceEntry.
Context (dir_at : list bytes -> path -> option Matcher -> list (Header * bytes) -> Prop).
(** The members that stand for the entry [name] of the directory whose name in the archive
    has the components [rel]. *)
Definition archived_entry (rel : list bytes) (full : path) (name : bytes) (ign : option Matcher) (ms : list (Header * bytes)) : Prop :=
  let nm := join (rel ++ [name]) in
  exists st xs, Lstat full = Ok st /\
  (if file_type st =? S_IFLNK then xs = ∅ else readXattrsWith Llistxattr Lgetxattr full = Ok xs) /\
  ((file_type st = S_IFREG /\ exists data, ReadFile full = Ok data /\ ms = [(set_size (zlen data) (meta_header nm TypeReg st xs), data)]) \/
    (file_type st = S_IFDIR /\ exists sub below, Descend ign full name = Ok sub /\ dir_at (rel ++ [name]) full sub below /\
      ms = (meta_header (nm ++ [slash]) TypeDir st xs, []) :: below) \/
    (file_type st = S_IFLNK /\ exists target, Readlink full = Ok target /\ ms = [(set_link target (meta_header nm TypeSymlink st xs), [])]) \/
    (file_type st = S_IFIFO /\ ms = [(meta_header nm TypeFifo st xs, [])]) \/
    (file_type st = S_IFCHR /\ ms = [(set_dev (st_major st) (st_minor st) (meta_header nm TypeChar st xs), [])]) \/
    (file_type st = S_IFBLK /\ ms = [(set_dev (st_major st) (st_minor st) (meta_header nm TypeBlock st xs), [])]) \/
    (file_type st = S_IFSOCK /\ ms = [])).
End SourceEntry.
Fixpoint archived (n : nat) (rel : list bytes) (p : path) (ign : option Matcher) (ms : list (Header * bytes)) : Prop :=
  match n with
  | O => False
  | S n' => exists ents mss, ReadDir p = Ok ents /\ ms = concat mss /\
    Forall2 (fun de ms => archived_entry (archived n') rel (p ++ [de.1]) de.1 ign ms) (kept ign ents) mss
  end.

(** The archive format can express the headers of the archive. It cannot always: a record's
    keyword may not contain an equals sign, so not an attribute whose name has one. *)
Definition expressible (encodable : Header -> res unit) (n : nat) (p : path) (ign : option Matcher) : Prop :=
  forall ms, archived n [] p ign ms -> Forall (fun m => encodable m.1 = Ok tt) ms.

(** What a file system offers: sorted names that are names, links with a target, and numbers
    of their width. *)
Section Properness.
Context (dir_at : path -> option Matcher -> Prop).
Definition proper_entry (full : path) (name : bytes) (ign : option Matcher) : Prop :=
  plain_name name /\ (slash ∉ name) /\
  (forall st, Lstat full = Ok st -> 0 <= st_uid st < 2 ^ 63 /\ 0 <= st_gid st < 2 ^ 63 /\ 0 <= st_major st < 2 ^ 32 /\ 0 <= st_minor st < 2 ^ 32) /\
  (forall data, ReadFile full = Ok data -> zlen data < 2 ^ 63) /\
  (forall target, Readlink full = Ok target -> target <> []) /\
  (forall sub, Descend ign full name = Ok sub -> dir_at full sub).
End Properness.
Fixpoint proper (n : nat) (p : path) (ign : option Matcher) : Prop :=
  match n with
  | O => True
  | S n' => forall ents, ReadDir p = Ok ents -> StronglySorted bytes_lt (ents.*1) /\
    Forall (fun de => proper_entry (proper n') (p ++ [de.1]) de.1 ign) ents
  end.

(** A member's records are the attributes of a file of the source. *)
Lemma archived_records n rel p ign ms : archived n rel p ign ms ->
  Forall (fun m => exists full xs, h_PAXRecords m.1 = records xs /\ (xs = ∅ \/ readXattrsWith Llistxattr Lgetxattr full = Ok xs)) ms.
Proof.
  revert rel p ign ms. induction n as [|n IH]; intros rel p ign ms; [done|]. intros (ents & mss & _ & -> & HF). apply List.Forall_concat.
  induction HF as [|de ms ents1 mss1 (st & xs & _ & EX & HC) HF IHF]; constructor; [|done].
  assert (xs = ∅ \/ readXattrsWith Llistxattr Lgetxattr (p ++ [de.1]) = Ok xs) as HX by (destruct (_ =? S_IFLNK); auto).
  assert (forall m rest, h_PAXRecords m.1 = records xs -> Forall (fun m => exists full xs, h_PAXRecords m.1 = records xs /\ (xs = ∅ \/ readXattrsWith Llistxattr Lgetxattr full = Ok xs)) rest ->
    Forall (fun m : Header * bytes => exists full xs, h_PAXRecords m.1 = records xs /\ (xs = ∅ \/ readXattrsWith Llistxattr Lgetxattr full = Ok xs)) (m :: rest)) as One.
  { intros m rest Em HR. constructor; [|done]. by exists (p ++ [de.1]), xs. }
  destruct HC as [(_ & data & _ & ->)|[(_ & sub & below & _ & HB & ->)|[(_ & target & _ & ->)|[(_ & ->)|[(_ & ->)|[(_ & ->)|(_ & ->)]]]]]]; [..|constructor].
  all: apply One; [done|]; first [constructor|by eapply IH].
Qed.
End Source.

(** * Members as sequences of writes *)

Section Puts.
Context (encodable : Header -> res unit).
Definition put_member (mc : Header * list bytes) : M TarWriter unit :=
  _ ← WriteHeader encodable mc.1;
  each tw_Write mc.2.
Definition sized (mc : Header * list bytes) : Prop :=
  if header_only mc.1 then mc.2 = [] else h_Size mc.1 = zlen (concat mc.2).
Definition whole (mc : Header * list bytes) : Header * bytes := (mc.1, concat mc.2).

Lemma bind_ret {S} (m : M S unit) s : mbind (fun _ => mret tt) m s = m s.
Proof. unfold mbind, M_bind. by destruct (m s) as [[[]|] ?]. Qed.
Lemma put_plain h w : put_member (h, []) w = WriteHeader encodable h w.
Proof. apply bind_ret. Qed.

Lemma grow_snoc ms h d b : grow b (ms ++ [(h, d)]) = ms ++ [(h, d ++ b)].
Proof. unfold grow. by rewrite last_snoc, removelast_last. Qed.

Definition no_faults (w : TarWriter) : Prop := tw_faults w = [].
Lemma sink_inv w r w' : sink w = (r, w') ->
  tw_members w' = tw_members w /\ tw_left w' = tw_left w /\ tw_closed w' = tw_closed w /\ (no_faults w -> r = Ok tt /\ no_faults w').
Proof. unfold sink, no_faults. destruct (tw_faults w) as [|f fs] eqn:EF; intros [= <- <-]; cbn; by split_and!. Qed.

(** Writing chunks that fit the open member. *)
Lemma writes_inv cs ms h d w r w' :
  tw_members w = ms ++ [(h, d)] -> zlen (concat cs) <= tw_left w -> each tw_Write cs w = (r, w') ->
  (r = Ok tt -> tw_members w' = ms ++ [(h, d ++ concat cs)] /\ tw_left w' = tw_left w - zlen (concat cs) /\ tw_closed w' = tw_closed w) /\
  (no_faults w -> r = Ok tt /\ no_faults w').
Proof.
  revert d w. induction cs as [|c cs IH]; intros d w Hm Hl E; cbn [each concat] in *.
  { injection E as <- <-. rewrite app_nil_r, zlen_nil. split; [intros _; split_and!; [done|lia|done]|done]. }
  rewrite zlen_app in Hl. pose proof (zlen_nonneg c). pose proof (zlen_nonneg (concat cs)).
  assert (take (Z.to_nat (tw_left w)) c = c) as ET by (apply take_ge; unfold zlen in *; lia).
  unfold mbind at 1, M_bind at 1 in E. unfold tw_Write in E. rewrite M_gets in E. cbv zeta in E. rewrite ET in E.
  rewrite (proj2 (Z.ltb_ge _ _)) in E by lia. unfold mbind at 1, M_bind at 1 in E.
  destruct ((if 0 <? zlen c then sink else mret tt) w) as [r1 w1] eqn:E1.
  assert (tw_members w1 = tw_members w /\ tw_left w1 = tw_left w /\ tw_closed w1 = tw_closed w /\ (no_faults w -> r1 = Ok tt /\ no_faults w1)) as (Em & El & Ec & En).
  { destruct (0 <? zlen c); [by apply sink_inv|]. by injection E1 as <- <-. }
  destruct r1 as [[]|e]; [|injection E as <- <-; split; [done|]; intros HN; by destruct (En HN)].
  unfold mbind, M_bind, put_body, modify in E. cbn [mret M_ret] in E.
  match type of E with each _ _ ?x = _ => set (w2 := x) in E end.
  assert (tw_members w2 = ms ++ [(h, d ++ c)]) as Hm2 by (cbn; by rewrite Em, Hm, grow_snoc).
  destruct (IH (d ++ c) w2 Hm2 ltac:(cbn; lia) E) as [IH1 IH2]. split.
  - intros Hr. destruct (IH1 Hr) as (E1' & E2' & E3'). cbn in E2', E3'. rewrite E1', E2', E3', zlen_app, app_assoc, El, Ec.
    split_and!; [done|lia|done].
  - intros HN. apply IH2. by apply En.
Qed.

Lemma put_member_inv mc w r w' : sized mc -> tw_left w = 0 -> put_member mc w = (r, w') ->
  (r = Ok tt -> tw_members w' = tw_members w ++ [whole mc] /\ tw_left w' = 0 /\ tw_closed w' = tw_closed w) /\
  (no_faults w -> encodable mc.1 = Ok tt -> r = Ok tt /\ no_faults w').
Proof.
  destruct mc as [h cs]. unfold sized, whole, put_member. cbn [fst snd]. intros HS Hl E. unfold mbind at 1, M_bind at 1, WriteHeader in E. rewrite M_gets, Hl in E.
  cbn [Z.ltb Z.compare] in E.
  assert (negb (header_only h) && (h_Size h <? 0) = false) as EN.
  { destruct (header_only h); [done|]. rewrite HS. cbn [negb andb]. apply Z.ltb_ge, zlen_nonneg. }
  rewrite EN in E. destruct (encodable h) as [[]|e] eqn:EE; [|by injection E as <- <-]. rewrite M_lift in E.
  unfold mbind at 1, M_bind at 1 in E. destruct (sink w) as [r1 w1] eqn:E1. apply sink_inv in E1 as (Em & El & Ec & En).
  destruct r1 as [[]|e]; [|injection E as <- <-; split; [done|]; intros HN _; by destruct (En HN)]. cbn [modify] in E.
  apply (writes_inv cs (tw_members w) h []) in E as [H1' H2'].
  - cbn in H1', H2'. split; [|intros HN _; apply H2'; by apply En]. intros Hr. destruct (H1' Hr) as (E1 & E2 & E3). split_and!; [done| |by rewrite E3].
    rewrite E2. destruct (header_only h); [by rewrite HS|]. rewrite HS. apply Z.sub_diag.
  - cbn. by rewrite Em.
  - cbn [tw_left]. destruct (header_only h); [by rewrite HS|]. by rewrite HS.
Qed.
Lemma puts_inv mcs w r w' : Forall sized mcs -> tw_left w = 0 -> each put_member mcs w = (r, w') ->
  (r = Ok tt -> tw_members w' = tw_members w ++ (whole <$> mcs) /\ tw_left w' = 0 /\ tw_closed w' = tw_closed w) /\
  (no_faults w -> Forall (fun mc => encodable mc.1 = Ok tt) mcs -> r = Ok tt /\ no_faults w').
Proof.
  revert w. induction mcs as [|mc mcs IH]; intros w HF Hl E; cbn [each] in E.
  { injection E as <- <-. cbn. rewrite app_nil_r. done. }
  apply Forall_cons_1 in HF as [Hs HF]. unfold mbind, M_bind in E. destruct (put_member mc w) as [r1 w1] eqn:E1.
  destruct (put_member_inv _ _ _ _ Hs Hl E1) as [P1 P2]. destruct r1 as [[]|e].
  - destruct (P1 eq_refl) as (Em & El & Ec). destruct (IH w1 HF El E) as [I1 I2]. split.
    + intros Hr. destruct (I1 Hr) as (? & ? & ?). rewrite fmap_cons. change (whole mc :: (whole <$> mcs)) with ([whole mc] ++ (whole <$> mcs)).
      rewrite app_assoc, <- Em. split_and!; [done|done|congruence].
    + intros HN HE. apply Forall_cons_1 in HE as [He HE]. apply I2; [by apply P2|done].
  - injection E as <- <-. split; [done|]. intros HN HE. apply Forall_cons_1 in HE as [He HE]. by destruct (P2 HN He).
Qed.
(** All the members, then the trailer. *)
Lemma puts_close mcs faults r w : Forall sized mcs -> (_ ← each put_member mcs; tw_Close) (NewTarWriter faults) = (r, w) ->
  (r = Ok tt -> tw_members w = whole <$> mcs /\ tw_left w = 0 /\ tw_closed w = true) /\
  (faults = [] -> Forall (fun mc => encodable mc.1 = Ok tt) mcs -> r = Ok tt).
Proof.
  intros HZ E. unfold mbind, M_bind in E. destruct (each put_member mcs (NewTarWriter faults)) as [r1 w1] eqn:E1.
  destruct (puts_inv mcs (NewTarWriter faults) r1 w1 HZ eq_refl E1) as [P1 P2].
  destruct r1 as [[]|e]; [|injection E as <- <-; split; [done|]; intros -> HE; by apply P2].
  destruct (P1 eq_refl) as (Em & El & _). unfold tw_Close in E. rewrite M_gets, El in E. cbn [Z.ltb Z.compare] in E.
  unfold mbind, M_bind in E. destruct (sink w1) as [r2 w2] eqn:E2. apply sink_inv in E2 as (Em2 & El2 & _ & En). destruct r2 as [[]|e].
  - injection E as <- <-. split; [|done]. intros _. cbn. rewrite Em2, Em, El2. done.
  - injection E as <- <-. split; [done|]. intros -> HE. destruct (En (proj2 (P2 eq_refl HE))). done.
Qed.
End Puts.

(** * The traversal, as members put one after another *)

Lemma not_rooted c : slash ∉ c -> rooted c = false.
Proof. destruct c as [|x c]; [done|]. intros Hn. apply bool_decide_eq_false_2. intros ->. apply Hn. by left. Qed.
Lemma rooted_join rel : Forall plain_name rel -> Forall (fun c => slash ∉ c) rel -> rooted (join rel) = false.
Proof.
  intros HP HS. destruct rel as [|c rel]; [done|]. apply Forall_cons_1 in HP as [(Hc & _) _]. apply Forall_cons_1 in HS as [Hs _].
  apply not_rooted in Hs. destruct rel; [done|]. by destruct c.
Qed.
Lemma Join_rel rel name :
  Forall plain_name rel -> Forall (fun c => slash ∉ c) rel -> plain_name name -> (slash ∉ name) -> Join (join rel) name = join (rel ++ [name]).
Proof.
  intros HP HS Hn Hs. pose proof (Forall_app_2 _ _ _ HP (proj2 (Forall_singleton plain_name name) Hn)) as HP'.
  destruct (decide (rel = [])) as [->|Hne].
  - cbn [join app]. unfold Join, Clean. rewrite not_rooted, split_no_slash by done. unfold clean_comps. by rewrite clean_plain.
  - assert (join rel <> []) as Hj.
    { destruct rel as [|c rel]; [done|]. apply Forall_cons_1 in HP as [(Hc & _) _]. destruct c; [done|]. by destruct rel. }
    assert (rooted (join rel ++ slash :: name) = false) as ER by (rewrite <- (rooted_join rel) by done; by destruct (join rel)).
    unfold Join. destruct (join rel) as [|x l] eqn:Ej; [done|]. rewrite <- Ej in ER |- *. unfold Clean.
    rewrite ER, split_app, split_join, split_no_slash by done. unfold clean_comps. rewrite clean_plain by done. cbn [app].
    by destruct (rel ++ [name]) eqn:E; [destruct rel|].
Qed.
Lemma safe_name c : plain_name c -> slash ∉ c -> unsafe_name c = false.
Proof.
  intros (? & ? & ?) Hs. unfold unsafe_name. rewrite !bool_decide_eq_false_2 by done. cbn [orb].
  apply not_true_is_false. intros (x & Hx%list_elem_of_In & ->%bool_decide_eq_true)%existsb_exists. done.
Qed.

(** Sublists of sorted lists are sorted. *)
Lemma sorted_filter {A} (P : A * bool -> Prop) `{forall x, Decision (P x)} (R : A -> A -> Prop) (l : list (A * bool)) :
  StronglySorted R l.*1 -> StronglySorted R (filter P l).*1.
Proof.
  induction l as [|x l IH]; [done|]. intros HS. inversion_clear HS as [|? ? HS' HF]. specialize (IH HS').
  destruct (decide (P x)); [|by rewrite filter_cons_False]. rewrite filter_cons_True by done. cbn. constructor; [done|].
  apply list.Forall_forall. intros y (z & -> & [_ Hz]%list_elem_of_filter)%list_elem_of_fmap.
  rewrite list.Forall_forall in HF. apply HF. apply list_elem_of_fmap. by exists z.
Qed.

Section Traversal.
Context `{Cbor (list bytes)} `{Cbor (list Entry)} `{Cbor (list DirPair)} `{Gitignore} `{Os}.
Context (encodable : Header -> res unit) (get : Key -> res bytes).

Lemma decode_nonempty b m : DecodeXattrs b = Ok m -> (0 <? zlen b) = true.
Proof. by destruct b. Qed.
Lemma setXattrs_stored xs e : stores_xattrs get xs e -> setXattrs get e = Ok (records xs).
Proof.
  intros [(-> & E1 & E2)|(_ & b & ED & [[E1 E2]|[E1 (k & EP & _ & Eg)]])]; unfold setXattrs; cbv zeta; rewrite E1.
  - by rewrite E2.
  - rewrite (decode_nonempty _ _ ED), ED. done.
  - cbn [zlen length]. apply Parse_Ok in EP as EP'. destruct EP' as [EX _]. rewrite EX in EP |- *. rewrite b32_length. cbn [Nat.eqb Size].
    change (0 <? Z.of_nat 0) with false. cbv iota. rewrite EP. cbn [mbind res_bind]. rewrite Eg. cbn [mbind res_bind]. by rewrite ED.
Qed.

(** A directory's traversal, as the recursion below it sees it. *)
Definition dir_puts (dir_at : path -> option Matcher -> Key -> Prop) (arch : list bytes -> path -> option Matcher -> list (Header * bytes) -> Prop)
  (rel : list bytes) (p : path) (ign : option Matcher) : Prop :=
  forall k, dir_at p ign k -> exists mcs N, arch rel p ign (whole <$> mcs) /\ Forall sized mcs /\
  forall fuel, (N <= fuel)%nat -> forall w, dir encodable get fuel k (join rel) w = each (put_member encodable) mcs w.

Lemma entry_puts dir_at arch rel full name ign e :
  Forall plain_name rel -> Forall (fun c => slash ∉ c) rel ->
  mirrors_entry get dir_at full name ign e -> proper_entry (dir_puts dir_at arch (rel ++ [name])) full name ign ->
  exists mcs N, archived_entry arch rel full name ign (whole <$> mcs) /\ Forall sized mcs /\
  forall fuel, (N <= fuel)%nat -> forall w, entry encodable get (dir encodable get fuel) (S fuel) (join rel) e w = each (put_member encodable) mcs w.
Proof.
  intros HP HS (st & EL & EN & EM & EU & EG & ET & Pay & xs & ES & EX) (Hn & Hsl & Hst & Hdata & _ & Hsub).
  destruct (Hst st EL) as (Hu & Hg & Hma & Hmi). clear Hst.
  assert (forall flag nm, base_header nm e (records xs) flag = meta_header nm flag st xs) as EB.
  { intros flag nm. unfold base_header, meta_header. rewrite EM, EU, EG, ET, !s64_id by lia. done. }
  set (nm := join (rel ++ [name])).
  assert (forall dirf fuel w, entry encodable get dirf fuel (join rel) e w = entry_switch encodable get dirf fuel nm e (records xs) w) as Run.
  { intros dirf fuel w. unfold entry. rewrite EN, safe_name, Join_rel by done. cbv zeta. by rewrite M_lift, (setXattrs_stored xs e ES). }
  assert (forall t, Z.land (st_mode st) S_IFMT = t -> file_type st = t) as FT by done.
  assert (forall mc, sized mc -> (forall dirf fuel w, entry_switch encodable get dirf fuel nm e (records xs) w = put_member encodable mc w) ->
    archived_entry arch rel full name ign [whole mc] -> exists mcs N, archived_entry arch rel full name ign (whole <$> mcs) /\ Forall sized mcs /\
    forall fuel, (N <= fuel)%nat -> forall w, entry encodable get (dir encodable get fuel) (S fuel) (join rel) e w = each (put_member encodable) mcs w) as One.
  { intros mc Hz Hw Ha. exists [mc], 0%nat. split; [done|]. split; [by constructor|]. intros fuel _ w. rewrite Run, Hw. symmetry. apply bind_ret. }
  destruct Pay as [(T & _ & _ & data & k & h & cs & ER & EK & EH & FT' & Ecat)|
    [(T & _ & _ & sub & k & ED & EK & HD)|[(T & _ & _ & ER)|[(T & _ & _ & ER)|(T & _ & _ & ER)]]]].
  all: assert (Z.land (st_mode st) S_IFMT = file_type st) as TT by done.
  - subst data. exists [(set_size (zlen (concat cs)) (meta_header nm TypeReg st xs), cs)], h. split; [|split; [constructor; [done|constructor]|]].
    + exists st, xs. split; [done|]. split; [done|]. left. split; [done|]. by exists (concat cs).
    + intros fuel Hf w. rewrite Run. unfold entry_switch. rewrite EM, TT, T. cbv zeta. eval_types. rewrite M_lift, EK, EB, EH.
      specialize (Hdata _ ER). pose proof (zlen_nonneg (concat cs)). unfold u64. rewrite Z.mod_small, s64_id by lia.
      cbn [each]. rewrite bind_ret. unfold put_member. cbn [fst snd]. unfold mbind, M_bind. destruct (WriteHeader _ _ w) as [[[]|e1] w1]; [|done].
      unfold writeContent. apply WriteContent_ftree with h; [done|lia].
  - destruct (Hsub sub ED k HD) as (mcs & N & HA & HZ & HW).
    exists ((meta_header (nm ++ [slash]) TypeDir st xs, []) :: mcs), N. split; [|split; [by constructor|]].
    + exists st, xs. split; [done|]. split; [done|]. right; left. split; [done|]. by exists sub, (whole <$> mcs).
    + intros fuel Hf w. rewrite Run. unfold entry_switch. rewrite EM, TT, T. cbv zeta. eval_types. rewrite EB. cbn [each].
      unfold mbind, M_bind. rewrite put_plain. destruct (WriteHeader _ _ w) as [[[]|e1] w1]; [|done]. unfold lift. rewrite EK. by apply HW.
  - apply (One (set_link (LinkTarget e) (meta_header nm TypeSymlink st xs), [])); [done| |].
    + intros dirf fuel w. unfold entry_switch. rewrite EM, TT, T. cbv zeta. eval_types. by rewrite EB, put_plain.
    + exists st, xs. split; [done|]. split; [done|]. right; right; left. split; [done|]. by exists (LinkTarget e).
  - apply list_elem_of_In in T as [T'|[T'|[]]]; symmetry in T'.
    + apply (One (set_dev (st_major st) (st_minor st) (meta_header nm TypeChar st xs), [])); [done| |].
      * intros dirf fuel w. unfold entry_switch. rewrite EM, TT, T', ER. cbv zeta. eval_types. by rewrite EB, put_plain, !s64_id by lia.
      * exists st, xs. split; [done|]. split; [done|]. do 4 right. left. done.
    + apply (One (set_dev (st_major st) (st_minor st) (meta_header nm TypeBlock st xs), [])); [done| |].
      * intros dirf fuel w. unfold entry_switch. rewrite EM, TT, T', ER. cbv zeta. eval_types. by rewrite EB, put_plain, !s64_id by lia.
      * exists st, xs. split; [done|]. split; [done|]. do 5 right. left. done.
  - apply list_elem_of_In in T as [T'|[T'|[]]]; symmetry in T'.
    + apply (One (meta_header nm TypeFifo st xs, [])); [done| |].
      * intros dirf fuel w. unfold entry_switch. rewrite EM, TT, T'. cbv zeta. eval_types. by rewrite EB, put_plain.
      * exists st, xs. split; [done|]. split; [done|]. do 3 right. left. done.
    + exists [], 0%nat. split; [|split; [constructor|]].
      * exists st, xs. split; [done|]. split; [done|]. do 6 right. done.
      * intros fuel _ w. rewrite Run. unfold entry_switch. rewrite EM, TT, T'. cbv zeta. by eval_types.
Qed.

(** A directory's entries are in the order of the listing's names. *)
Lemma mirrored_in_order dir_at p ign (ents : list (bytes * bool)) es : StronglySorted bytes_lt (ents.*1) ->
  Forall2 (fun de e => mirrors_entry get dir_at (p ++ [de.1]) de.1 ign e) (kept ign ents) es -> in_order es.
Proof.
  intros HO HF. pose proof (sorted_filter (fun de => Ignored ign de.1 de.2 = false) bytes_lt ents HO) as HK. unfold kept in HF. clear -HF HK.
  induction HF as [|de e l es (st & _ & EN & _) HF IH]; [constructor|]. inversion_clear HK as [|? ? HK' HF']. constructor; [by apply IH|].
  apply list.Forall_forall. intros e' He'. apply list_elem_of_lookup in He' as [i Hi].
  destruct (Forall2_lookup_r _ _ _ _ _ HF Hi) as (de' & Hde & (st' & _ & EN' & _)).
  unfold name_lt. rewrite EN, EN'. rewrite list.Forall_forall in HF'. apply HF'. apply list_elem_of_fmap. exists de'. split; [done|]. by eapply list_elem_of_lookup_2.
Qed.
Lemma dir_archived n rel p ign : Forall plain_name rel -> Forall (fun c => slash ∉ c) rel -> proper n p ign -> dir_puts (fun p ign k => mirrors get n p ign k) (archived n) rel p ign.
Proof.
  revert rel p ign. induction n as [|n IH]; intros rel p ign HP HS HR k HM; [done|].
  destruct HM as (ents & es & h & ED & HT & HF). destruct (HR ents ED) as [HO HE].
  assert (in_order es) as Ord by (by eapply mirrored_in_order).
  assert (exists mss N, Forall2 (fun de ms => archived_entry (archived n) rel (p ++ [de.1]) de.1 ign ms) (kept ign ents) (fmap (M:=list) whole <$> mss) /\
    Forall (Forall sized) mss /\
    forall fuel, (N <= fuel)%nat -> Forall2 (fun e mcs => forall w, entry encodable get (dir encodable get fuel) (S fuel) (join rel) e w = each (put_member encodable) mcs w) es mss) as (mss & N & HA & HZ & HW).
  { assert (Forall (fun de => proper_entry (proper n) (p ++ [de.1]) de.1 ign) (kept ign ents)) as HE' by (apply list.Forall_forall; intros de [_ Hde]%list_elem_of_filter; rewrite list.Forall_forall in HE; by apply HE).
    revert HE'. clear -IH HP HS HF. induction HF as [|de e l es HM HF IHl]; intros HE.
    { exists [], 0%nat. split_and!; [constructor|constructor|intros; constructor]. }
    apply Forall_cons_1 in HE as [He HE]. destruct (IHl HE) as (mss & N & HA & HZ & HW).
    destruct (entry_puts _ (archived n) rel _ _ _ _ HP HS HM) as (mcs & N' & HA' & HZ' & HW').
    { destruct He as (Hn & Hsl & ? & ? & ? & Hsub). split_and!; [done..|]. intros sub Hd. apply IH; [by apply Forall_app_2, Forall_singleton|by apply Forall_app_2, Forall_singleton|by apply Hsub]. }
    exists (mcs :: mss), (Nat.max N N'). split; [by constructor|]. split; [by constructor|]. intros fuel Hf. constructor; [|apply HW; lia].
    intros w. apply HW'. lia. }
  exists (concat mss), (S (Nat.max N h)). split; [|split].
  - exists ents, (fmap (M:=list) whole <$> mss). split; [done|]. split; [|done]. clear. induction mss as [|mcs mss IH]; [done|]. cbn. by rewrite fmap_app, IH.
  - clear -HZ. induction HZ; [constructor|]. cbn. by apply Forall_app_2.
  - intros [|fuel] Hf w; [lia|]. cbn [dir]. rewrite M_lift. unfold CollectEntries. rewrite (collectEntries_dtree _ h k es) by (done || lia).
    rewrite collect_all by done. cbn [app]. apply each_concat. apply HW. lia.
Qed.

(** A run of [Write] is a run of the members, then of [Close]. *)
Lemma Write_puts n p ign k : proper n p ign -> mirrors get n p ign k ->
  exists mcs N, archived n [] p ign (whole <$> mcs) /\ Forall sized mcs /\
  forall fuel, (N <= fuel)%nat -> forall w, Write encodable get fuel k w = (each (put_member encodable) mcs ≫= fun _ => tw_Close) w.
Proof.
  intros HR HM. destruct (dir_archived n [] p ign ltac:(constructor) ltac:(constructor) HR k HM) as (mcs & N & HA & HZ & HW).
  exists mcs, N. split; [done|]. split; [done|]. intros fuel Hf w. unfold Write.
  assert (negb (Type_ k =? DirLeaf) && negb (Type_ k =? DirNode) = false) as ->.
  { destruct n as [|n]; [done|]. destruct HM as (_ & es & [|h] & _ & HT & _); [done|]. destruct HT as (data & _ & [[-> _]|[-> _]]); reflexivity. }
  specialize (HW fuel Hf w). cbn [join] in HW. unfold mbind, M_bind. by rewrite HW.
Qed.
End Traversal.

Section ExportProperty.
Context `{Cbor (list bytes)} `{Cbor (list Entry)} `{Cbor (list DirPair)} `{Gitignore} `{Os}.
(** Export is faithful: from a root that mirrors a source (as [ingest_mirrors] gives it),
    [Write] produces the archive of that source - each entry once, in the order of the walk,
    directories before what they hold, under its full name, with its metadata, attributes,
    link target, device numbers and bytes; sockets left out - and closes it. It succeeds when
    the format can express the headers and the writes below succeed, and it never reports
    success for an archive that is not complete. *)
Theorem export_lists_source encodable get n p ign k :
  proper n p ign -> mirrors get n p ign k ->
  exists ms N, archived n [] p ign ms /\ forall fuel faults r w, (N <= fuel)%nat ->
  Write encodable get fuel k (NewTarWriter faults) = (r, w) ->
  (r = Ok tt -> tw_members w = ms /\ tw_left w = 0 /\ tw_closed w = true) /\
  (faults = [] -> Forall (fun m => encodable m.1 = Ok tt) ms -> r = Ok tt).
Proof.
  intros HR HM. destruct (Write_puts encodable get n p ign k HR HM) as (mcs & N & HA & HZ & HW).
  exists (whole <$> mcs), N. split; [done|]. intros fuel faults r w Hf E. rewrite HW in E by done.
  destruct (puts_close encodable mcs faults r w HZ E) as [P1 P2]. split; [done|]. intros HF HE. apply P2; [done|]. by apply Forall_fmap in HE.
Qed.
End ExportProperty.

(** The objects of a log, as a store. *)
Definition log_get (objs : list Object) (k : Key) : res bytes :=
  match List.find (fun o => bool_decide (OKey o = k)) objs with Some o => Ok (OBytes o) | None => no_such end.
Definition log_serves (objs : list Object) : bool := forallb (fun o => match log_get objs (OKey o) with Ok b => bool_decide (b = OBytes o) | Err _ => false end) objs.
Lemma log_serves_spec objs : log_serves objs = true -> serves (log_get objs) objs.
Proof. unfold log_serves. rewrite forallb_forall. intros HF o Ho%list_elem_of_In. specialize (HF o Ho). cbv beta in HF.
  destruct (log_get objs (OKey o)); [|done]. by apply bool_decide_eq_true in HF as ->. Qed.

Definition sample_built : res Key * list Object := buildDir sample_driver log_emit 2 [] sample_ignore [].
Definition sample_key : Key := match sample_built.1 with Ok k => k | Err _ => mk32 [] end.
Lemma sample_exports : mirrors (log_get sample_built.2) 2 [] sample_ignore sample_key.
Proof.
  destruct (opts_driver_ok 1 0 sample_driver sample_bits sample_driver_eq) as [Hc Hm].
  destruct (buildDir_ok sample_driver Hc Hm 2 [] sample_ignore 2 sample_readable (le_n 2) []) as (k & new & E & _ & HM).
  unfold sample_key, sample_built. rewrite E. cbn [fst snd app]. apply HM. apply log_serves_spec.
  assert (log_serves (buildDir sample_driver log_emit 2 [] sample_ignore []).2 = true) as ES by (vm_compute; reflexivity).
  rewrite E in ES. exact ES.
Qed.

Ltac proper_tac :=
  split; [split_and!; discriminate|]; split; [by apply (bool_decide_unpack _)|];
  split; [intros st E; vm_compute in E; first [discriminate E|injection E as <-; split_and!; done]|];
  split; [intros data E; vm_compute in E; first [discriminate E|injection E as <-; reflexivity]|];
  split; [intros target E; vm_compute in E; first [discriminate E|injection E as <-; discriminate]|].
Lemma sample_proper : proper 2 [] sample_ignore.
Proof.
  intros ents [= <-]. split; [repeat constructor|].
  repeat (apply List.Forall_cons; [proper_tac; intros sub _|]); [..|apply List.Forall_nil].
  all: intros ents E; vm_compute in E; try discriminate E; injection E as <-. split; [repeat constructor|].
  repeat (apply List.Forall_cons; [proper_tac; intros sub' _; exact I|]). apply List.Forall_nil.
Qed.
Lemma export_lists_source_witness :
  exists ms N, forall fuel r w, (N <= fuel)%nat ->
  Write (fun _ => Ok tt) (log_get sample_built.2) fuel sample_key (NewTarWriter []) = (r, w) -> r = Ok tt /\ tw_members w = ms.
Proof.
  destruct (export_lists_source (fun _ => Ok tt) (log_get sample_built.2) 2 [] sample_ignore sample_key sample_proper sample_exports) as (ms & N & _ & HW).
  exists ms, N. intros fuel r w Hf E. destruct (HW fuel [] r w Hf E) as [H1' H2'].
  assert (r = Ok tt) as Hr by (apply H2'; [reflexivity|apply list.Forall_forall; intros m _; reflexivity]).
  split; [exact Hr|apply H1', Hr].
Defined.
