(* ===== verification/Hostfs.v ===== *)
(** The file system as packages os and golang.org/x/sys/unix show it to tarextract: a tree of
    nodes, the kernel's resolution of a path through symbolic links, and the calls, any of
    which may fail. *)
From S2P Require Import Prelude External Readers Filepath.

(** * The file system *)

Record attrs := MkAttrs { at_mode : Z; at_uid : Z; at_gid : Z; at_mtime : Z; at_xattrs : gmap bytes bytes }.
Inductive kind := KDir | KFile (data : bytes) | KLink (target : bytes) | KFifo | KDev (block : bool) (major minor : Z).
Record node := MkNode { n_kind : kind; n_attrs : attrs }.
Definition is_KDir (k : kind) : bool := match k with KDir => true | _ => false end.

(** Nodes by physical path. A fault makes the call at hand fail with its error, after [n]
    bytes if it writes. *)
Record FS := MkFS {
    tree : gmap path node; cwd : path; euid : Z; egid : Z; umask : Z; clock : Z; fs_faults : list (option (nat * error))
  }.
Definition set_tree (t : gmap path node) (f : FS) : FS :=
  MkFS t (cwd f) (euid f) (egid f) (umask f) (clock f) (fs_faults f).
Definition set_fs_faults (l : list (option (nat * error))) (f : FS) : FS :=
  MkFS (tree f) (cwd f) (euid f) (egid f) (umask f) (clock f) l.

Definition EEXIST : etag := EExt "file exists".
Definition ENOTDIR : etag := EExt "not a directory".
Definition ELOOP : etag := EExt "too many levels of symbolic links".
Definition EPERM : etag := EExt "operation not permitted".
Definition EACCES : etag := EExt "permission denied".

(** ** Resolving a path *)

Definition skip (c : bytes) : bool := bool_decide (c = [] \/ c = [dot]).

Section Walk.
Context (t : gmap path node) (follow : bool) (again : path -> list bytes -> res path).
(** The components left to walk from the directory [cur]; [again] walks with one symbolic
    link fewer to spare. The last component need not exist. *)
Fixpoint walk (cur : path) (todo : list bytes) : res path :=
  match todo with
  | [] => Ok cur
  | c :: todo =>
      if skip c then walk cur todo
      else if bool_decide (c = [dot; dot]) then walk (removelast cur) todo
      else
        match n_kind <$> t !! (cur ++ [c]) with
        | None => if forallb skip todo then Ok (cur ++ [c]) else Err [ErrNotExist]
        | Some KDir => walk (cur ++ [c]) todo
        | Some (KLink target) =>
            if match todo with [] => negb follow | _ => false end then Ok (cur ++ [c])
            else again (if rooted target then [] else cur) (SplitSlash target ++ todo)
        | Some _ => match todo with [] => Ok (cur ++ [c]) | _ => Err [ENOTDIR] end
        end
  end.
End Walk.
Fixpoint resolve (links : nat) (t : gmap path node) (follow : bool) (cur : path) (todo : list bytes) : res path :=
  match links with
  | O => Err [ELOOP]
  | S links => walk t follow (resolve links t follow) cur todo
  end.
Definition MAXSYMLINKS : nat := 40.
Definition start (f : FS) (p : bytes) : path := if rooted p then [] else cwd f.
Definition lookup_path (follow : bool) (p : bytes) (f : FS) : res path :=
  match p with
  | [] => Err [ErrNotExist]
  | _ => resolve (S MAXSYMLINKS) (tree f) follow (start f p) (SplitSlash p)
  end.

(** ** Calls *)

(** A failure of the system never claims that the file is not there. *)
Definition fault_error (e : error) : error := if bool_decide (ErrNotExist ∈ e) then [EExt "input/output error"] else e.
Definition call {A} (run : M FS A) (torn : nat -> M FS unit) : M FS A := fun f =>
  match fs_faults f with
  | [] => run f
  | None :: l => run (set_fs_faults l f)
  | Some (n, e) :: l => (Err (fault_error e), snd (torn n (set_fs_faults l f)))
  end.
Definition intact_ (n : nat) : M FS unit := mret tt.

Definition at_path (follow : bool) (p : bytes) : M FS (path * node) := fun f =>
  (r ← lookup_path follow p f; n ← from_opt [ErrNotExist] (tree f !! r); Ok (r, n), f).
Definition Stat (p : bytes) : M FS node := call ('(_, n) ← at_path true p; mret n) intact_.
Definition Lstat (p : bytes) : M FS node := call ('(_, n) ← at_path false p; mret n) intact_.

Definition alter_node (g : node -> node) (r : path) : M FS unit := modify (fun f => set_tree (alter g r (tree f)) f).
Definition set_attrs (g : attrs -> attrs) (n : node) : node := MkNode (n_kind n) (g (n_attrs n)).

(** A new entry, which changes its directory's modification time. *)
Definition create (k : kind) (mode : Z) (p : bytes) : M FS path := fun f =>
  match lookup_path false p f with
  | Err e => (Err e, f)
  | Ok r =>
      match tree f !! r with
      | Some _ => (Err [EEXIST], f)
      | None =>
          let n := MkNode k (MkAttrs (Z.land mode (Z.lnot (umask f))) (euid f) (egid f) (clock f) ∅) in
          let touch := set_attrs (fun a => MkAttrs (at_mode a) (at_uid a) (at_gid a) (clock f) (at_xattrs a)) in
          (Ok r, set_tree (<[r:=n]> (alter touch (removelast r) (tree f))) f)
      end
  end.
Definition Mkdir (p : bytes) (mode : Z) : M FS unit := call (_ ← create KDir mode p; mret tt) intact_.
(** [os.OpenFile] with [O_CREATE|O_EXCL], [os.Symlink], [unix.Mkfifo], [unix.Mknod]. *)
Definition CreateFile (p : bytes) (mode : Z) : M FS path := call (create (KFile []) mode p) intact_.
Definition Symlink (target p : bytes) : M FS unit :=
  call (match target with [] => fail [ErrNotExist] | _ => _ ← create (KLink target) 511 p; mret tt end) intact_.
Definition Mkfifo (p : bytes) (mode : Z) : M FS unit := call (_ ← create KFifo mode p; mret tt) intact_.
Definition Mknod (p : bytes) (block : bool) (mode major minor : Z) : M FS unit :=
  call (_ ← create (KDev block major minor) mode p; mret tt) intact_.

Definition append_data (data : bytes) (n : node) : node :=
  MkNode (match n_kind n with KFile d => KFile (d ++ data) | k => k end) (n_attrs n).
Definition WriteData (r : path) (data : bytes) : M FS unit :=
  call (alter_node (append_data data) r) (fun n => alter_node (append_data (take n data)) r).
Definition CloseFile : M FS unit := call (mret tt) intact_.

Definition on_attrs (follow : bool) (p : bytes) (g : node -> attrs -> attrs) : M FS unit :=
  call ('(r, n) ← at_path follow p; alter_node (set_attrs (g n)) r) intact_.
(** Changing the owner clears a regular file's set-id bits. *)
Definition Lchown (p : bytes) (uid gid : Z) : M FS unit :=
  on_attrs false p (fun n a =>
    MkAttrs (match n_kind n with KFile _ => Z.land (at_mode a) (Z.lnot 3072) | _ => at_mode a end) uid gid (at_mtime a) (at_xattrs a)).
Definition Chmod (p : bytes) (mode : Z) : M FS unit :=
  on_attrs true p (fun _ a => MkAttrs mode (at_uid a) (at_gid a) (at_mtime a) (at_xattrs a)).
Definition Lsetxattr (p name value : bytes) : M FS unit :=
  on_attrs false p (fun _ a => MkAttrs (at_mode a) (at_uid a) (at_gid a) (at_mtime a) (<[name:=value]> (at_xattrs a))).
Definition UtimesNano (p : bytes) (ns : Z) (follow : bool) : M FS unit :=
  on_attrs follow p (fun _ a => MkAttrs (at_mode a) (at_uid a) (at_gid a) ns (at_xattrs a)).

Definition orelse {A} (m : M FS A) (h : error -> M FS A) : M FS A := fun f =>
  match m f with (Ok x, f') => (Ok x, f') | (Err e, f') => h e f' end.
(** [os.MkdirAll]: nothing if the directory is there, else its parent first; a directory that
    is there by now is no error. *)
Fixpoint MkdirAll_fuel (fuel : nat) (p : bytes) (mode : Z) : M FS unit :=
  match fuel with
  | O => fail [OutOfFuel]
  | S fuel =>
      st ← orelse (n ← Stat p; mret (Some n)) (fun _ => mret None);
      match st with
      | Some n => if is_KDir (n_kind n) then mret tt else fail [ENOTDIR]
      | None =>
          _ ← match up_to_slash p with
              | None | Some [] => mret tt
              | Some parent => MkdirAll_fuel fuel parent mode
              end;
          orelse (Mkdir p mode) (fun e =>
            st ← orelse (n ← Lstat p; mret (Some n)) (fun _ => mret None);
            match st with
            | Some n => if is_KDir (n_kind n) then mret tt else fail e
            | None => fail e
            end)
      end
  end.
Definition MkdirAll (p : bytes) (mode : Z) : M FS unit := MkdirAll_fuel (S (length (SplitSlash p))) p mode.

(** * Resolution *)

Definition kind_at (t : gmap path node) (p : path) : option kind := n_kind <$> t !! p.
Record tree_wf (t : gmap path node) : Prop := {
    tw_root : kind_at t [] = Some KDir;
    tw_parent : forall p c, is_Some (t !! (p ++ [c])) -> kind_at t p = Some KDir
  }.
Definition kinds_kept (t t' : gmap path node) : Prop := forall p k, kind_at t p = Some k -> kind_at t' p = Some k.

Lemma kind_at_Some t p k : kind_at t p = Some k -> is_Some (t !! p).
Proof. unfold kind_at. rewrite fmap_Some. intros (n & -> & _). by eexists. Qed.
Lemma kind_at_is_Some t p : is_Some (kind_at t p) <-> is_Some (t !! p).
Proof. apply fmap_is_Some. Qed.
Lemma kind_at_None t p : kind_at t p = None <-> t !! p = None.
Proof. apply fmap_None. Qed.

(** Above an entry there are only directories. *)
Lemma wf_above t p q : tree_wf t -> is_Some (t !! (p ++ q)) -> q <> [] -> kind_at t p = Some KDir.
Proof.
  intros W. revert p. induction q as [|c q IH]; intros p Hs Hq; [done|].
  destruct (decide (q = [])) as [->|Hne]; [by eapply tw_parent|].
  apply (tw_parent _ W _ c). apply (kind_at_Some _ _ KDir). apply IH; [by rewrite <- app_assoc|done].
Qed.
Lemma wf_removelast t p : tree_wf t -> kind_at t p = Some KDir -> kind_at t (removelast p) = Some KDir.
Proof.
  intros W Hk. destruct (decide (p = [])) as [->|Hne]; [done|]. destruct (exists_last Hne) as (p0 & c & ->).
  rewrite removelast_last. apply (tw_parent _ W _ c). by apply kind_at_Some in Hk.
Qed.

Lemma skip_plain c : plain_name c -> skip c = false /\ bool_decide (c = [dot; dot]) = false.
Proof. intros (? & ? & ?). unfold skip. split; apply bool_decide_eq_false_2; tauto. Qed.
Lemma plain_skips cs : Forall plain_name cs -> cs <> [] -> forallb skip cs = false.
Proof. intros HF HN. destruct cs as [|c cs]; [done|]. apply Forall_cons_1 in HF as [Hc _]. cbn. by rewrite (proj1 (skip_plain _ Hc)). Qed.

(** Resolution looks at kinds only. *)
Lemma resolve_kinds t t' l f cur todo : (forall p, kind_at t' p = kind_at t p) -> resolve l t' f cur todo = resolve l t f cur todo.
Proof.
  intros HK. revert cur todo. induction l as [|l IHl]; intros cur todo; [done|]. cbn [resolve].
  revert cur. induction todo as [|c todo IH]; intros cur; [done|]. cbn [walk].
  destruct (skip c); [by apply IH|]. destruct (bool_decide _); [by apply IH|].
  pose proof (HK (cur ++ [c])) as E. unfold kind_at in E. rewrite E. destruct (n_kind <$> t !! (cur ++ [c])) as [[]|]; try done.
  destruct (match todo with [] => _ | _ => _ end); [done|]. by apply IHl.
Qed.
(** A path that leads somewhere keeps leading there as the tree grows. *)
Lemma resolve_grow t t' l f cur todo x :
  kinds_kept t t' -> resolve l t f cur todo = Ok x -> is_Some (t !! x) -> resolve l t' f cur todo = Ok x.
Proof.
  intros HK. revert cur todo. induction l as [|l IHl]; intros cur todo; [done|]. cbn [resolve].
  revert cur. induction todo as [|c todo IH]; intros cur; [done|]. cbn [walk].
  destruct (skip c); [by apply IH|]. destruct (bool_decide _); [by apply IH|].
  destruct (n_kind <$> t !! (cur ++ [c])) as [k|] eqn:E.
  - pose proof (HK _ _ E) as E'. unfold kind_at in E'. rewrite E'. destruct k; try done; [by apply IH|].
    destruct (match todo with [] => _ | _ => _ end); [done|]. by apply IHl.
  - destruct (forallb skip todo); [|done]. intros [= <-] [n Hn]. by rewrite Hn in E.
Qed.
(** Following the last component makes no difference to a path that leads to a directory. *)
Lemma resolve_follow t l cur todo D :
  kind_at t D = Some KDir -> resolve l t false cur todo = Ok D -> resolve l t true cur todo = Ok D.
Proof.
  intros HD. revert cur todo. induction l as [|l IHl]; intros cur todo; [done|]. cbn [resolve].
  revert cur. induction todo as [|c todo IH]; intros cur; [done|]. cbn [walk].
  destruct (skip c); [by apply IH|]. destruct (bool_decide _); [by apply IH|].
  destruct (n_kind <$> t !! (cur ++ [c])) as [[]|] eqn:E; try done; [by apply IH|].
  destruct todo as [|c2 todo]; cbn [negb]; [|by apply IHl]. intros [= <-]. unfold kind_at in HD. congruence.
Qed.
(** Past a directory, resolution goes on from there. *)
Lemma resolve_app t l f cur a b D :
  kind_at t D = Some KDir -> resolve l t true cur a = Ok D -> b <> [] ->
  exists l', resolve l t f cur (a ++ b) = resolve (S l') t f D b.
Proof.
  intros HD. revert cur a. induction l as [|l IHl]; intros cur a; [done|]. cbn [resolve].
  revert cur. induction a as [|c a IH]; intros cur E Hb.
  { injection E as ->. by exists l. }
  cbn [walk app] in *. destruct (skip c); [by apply IH|]. destruct (bool_decide _); [by apply IH|].
  destruct (n_kind <$> t !! (cur ++ [c])) as [[]|] eqn:Ek.
  - by apply IH.
  - destruct a; [injection E as <-; unfold kind_at in HD; congruence|done].
  - assert (match a ++ b with [] => negb f | _ => false end = false) as -> by (by destruct a, b).
    assert (match a with [] => negb true | _ => false end = false) as EF by (by destruct a). rewrite EF in E.
    rewrite app_assoc. by apply IHl.
  - destruct a; [injection E as <-; unfold kind_at in HD; congruence|done].
  - destruct a; [injection E as <-; unfold kind_at in HD; congruence|done].
  - destruct (forallb skip a); [injection E as <-; unfold kind_at in HD; congruence|done].
Qed.

(** Between [D] and the last component of [rel] there is nothing but directories. *)
Definition clear (t : gmap path node) (D rel : path) : Prop :=
  forall i, (0 < i < length rel)%nat -> kind_at t (D ++ take i rel) = None \/ kind_at t (D ++ take i rel) = Some KDir.
Definition is_link (k : option kind) : Prop := exists tgt, k = Some (KLink tgt).

Lemma resolve_plain t l f D rel p :
  Forall plain_name rel -> clear t D rel -> (f = true -> ~ is_link (kind_at t (D ++ rel))) ->
  resolve (S l) t f D rel = Ok p -> p = D ++ rel.
Proof.
  intros HF. cbn [resolve]. revert D. induction rel as [|c rel IH]; intros D HC HL E; [injection E as <-; by rewrite app_nil_r|].
  apply Forall_cons_1 in HF as [Hc HF]. destruct (skip_plain _ Hc) as [E1 E2]. cbn [walk] in E. rewrite E1, E2 in E.
  assert (rel <> [] -> kind_at t (D ++ [c]) = None \/ kind_at t (D ++ [c]) = Some KDir) as HK.
  { intros Hne. apply (HC 1%nat). destruct rel; [done|cbn; lia]. }
  fold (kind_at t (D ++ [c])) in E. destruct (kind_at t (D ++ [c])) as [[]|] eqn:Ek.
  - replace (D ++ c :: rel) with ((D ++ [c]) ++ rel) by (by rewrite <- app_assoc). apply IH; [done| | |done].
    + intros i Hi. rewrite <- app_assoc. apply (HC (S i)). cbn. lia.
    + intros Hf. rewrite <- app_assoc. by apply HL.
  - destruct rel; [by injection E as <-|]. by destruct (HK ltac:(done)).
  - destruct rel; [|by destruct (HK ltac:(done))]. destruct f; cbn [negb] in E; [|by injection E as <-].
    destruct (HL eq_refl). rewrite Ek. by eexists.
  - destruct rel; [by injection E as <-|]. by destruct (HK ltac:(done)).
  - destruct rel; [by injection E as <-|]. by destruct (HK ltac:(done)).
  - destruct (decide (rel = [])) as [->|Hne]; [by injection E as <-|]. by rewrite plain_skips in E.
Qed.

(** Through directories, resolution arrives. *)
Lemma resolve_reach t l D rel :
  Forall plain_name rel -> (forall i, (0 < i < length rel)%nat -> kind_at t (D ++ take i rel) = Some KDir) ->
  is_Some (t !! (D ++ rel)) -> resolve (S l) t false D rel = Ok (D ++ rel).
Proof.
  intros HF. cbn [resolve]. revert D. induction rel as [|c rel IH]; intros D HC HS; [by rewrite app_nil_r|].
  apply Forall_cons_1 in HF as [Hc HF]. destruct (skip_plain _ Hc) as [E1 E2]. cbn [walk]. rewrite E1, E2.
  destruct (decide (rel = [])) as [->|Hne].
  - apply kind_at_is_Some in HS as [k Hk]. unfold kind_at in Hk. rewrite Hk. by destruct k.
  - assert (kind_at t (D ++ [c]) = Some KDir) as Hk by (apply (HC 1%nat); destruct rel; [done|cbn; lia]).
    unfold kind_at in Hk. rewrite Hk. replace (D ++ c :: rel) with ((D ++ [c]) ++ rel) in HS |- * by (by rewrite <- app_assoc).
    apply IH; [done| |done]. intros i Hi. rewrite <- app_assoc. apply (HC (S i)). cbn. lia.
Qed.

(** The beginning of a path that leads somewhere leads somewhere. *)
Lemma resolve_prefix t l f cur a b D p :
  tree_wf t -> kind_at t cur = Some KDir -> is_Some (t !! D) -> b <> [] ->
  resolve l t true cur (a ++ b) = Ok D -> resolve l t f cur a = Ok p -> is_Some (t !! p).
Proof.
  intros W Hcur HD Hb. revert cur a Hcur. induction l as [|l IHl]; intros cur a Hcur; [done|]. cbn [resolve].
  revert cur Hcur. induction a as [|c a IH]; intros cur Hcur E E'.
  { injection E' as <-. by apply kind_at_Some in Hcur. }
  cbn [walk app] in *. destruct (skip c); [by apply (IH cur)|].
  destruct (bool_decide _); [apply (IH (removelast cur)); [by apply wf_removelast|done..]|].
  assert (a ++ b <> []) as Hab by (by destruct a).
  destruct (n_kind <$> t !! (cur ++ [c])) as [[]|] eqn:Ek.
  - by apply (IH (cur ++ [c])).
  - by destruct (a ++ b).
  - destruct (match a with [] => negb f | _ => false end) eqn:Ef.
    + injection E' as <-. by apply kind_at_Some in Ek.
    + assert (match a ++ b with [] => negb true | _ => false end = false) as EF by (by destruct (a ++ b)). rewrite EF, app_assoc in E.
      eapply IHl; [|exact E|exact E']. destruct (rooted target); [apply W|done].
  - by destruct (a ++ b).
  - by destruct (a ++ b).
  - destruct (forallb skip (a ++ b)); [injection E as <-|done]. destruct HD as [n Hn]. by rewrite Hn in Ek.
Qed.
(** Where nothing is yet, there is a directory to put it in. *)
Lemma resolve_parent t l f cur todo p :
  tree_wf t -> kind_at t cur = Some KDir -> resolve l t f cur todo = Ok p -> t !! p = None ->
  exists p0 c, p = p0 ++ [c] /\ kind_at t p0 = Some KDir.
Proof.
  intros W Hcur. revert cur todo Hcur. induction l as [|l IHl]; intros cur todo Hcur; [done|]. cbn [resolve].
  revert cur Hcur. induction todo as [|c todo IH]; intros cur Hcur E Hp.
  { injection E as <-. apply kind_at_None in Hp. congruence. }
  cbn [walk] in E. destruct (skip c); [by apply (IH cur)|].
  destruct (bool_decide _); [apply (IH (removelast cur)); [by apply wf_removelast|done..]|].
  destruct (n_kind <$> t !! (cur ++ [c])) as [[]|] eqn:Ek.
  - by apply (IH (cur ++ [c])).
  - destruct todo; [|done]. injection E as <-. apply kind_at_None in Hp. unfold kind_at in Hp. congruence.
  - destruct (match todo with [] => negb f | _ => false end) eqn:Ef.
    + injection E as <-. apply kind_at_None in Hp. unfold kind_at in Hp. congruence.
    + eapply IHl; [|exact E|done]. destruct (rooted target); [apply W|done].
  - destruct todo; [|done]. injection E as <-. apply kind_at_None in Hp. unfold kind_at in Hp. congruence.
  - destruct todo; [|done]. injection E as <-. apply kind_at_None in Hp. unfold kind_at in Hp. congruence.
  - destruct (forallb skip todo); [|done]. injection E as <-. by exists cur, c.
Qed.

(** * What calls do *)

Record fs_wf (f : FS) : Prop := { fw_tree : tree_wf (tree f); fw_cwd : kind_at (tree f) (cwd f) = Some KDir }.

(** Everything outside [D] is as it was, and nothing inside changed its kind or content. *)
Record inside (D : path) (f f' : FS) : Prop := {
    in_wf : fs_wf f';
    in_cwd : cwd f' = cwd f;
    in_kinds : kinds_kept (tree f) (tree f');
    in_outside : forall p, ~ D `prefix_of` p -> tree f' !! p = tree f !! p
  }.
Lemma inside_refl D f : fs_wf f -> inside D f f.
Proof. split; [done|done|by intros p k|done]. Qed.
Lemma inside_trans D f1 f2 f3 : inside D f1 f2 -> inside D f2 f3 -> inside D f1 f3.
Proof.
  intros [_ C1 K1 O1] [W2 C2 K2 O2]. split; [done|congruence| |intros p Hp; by rewrite O2, O1].
  intros p k Hk. by apply K2, K1.
Qed.
(** Only attributes below [D] change. *)
Record attrs_inside (D : path) (f f' : FS) : Prop := {
    ai_cwd : cwd f' = cwd f;
    ai_kinds : forall p, kind_at (tree f') p = kind_at (tree f) p;
    ai_outside : forall p, ~ D `prefix_of` p -> tree f' !! p = tree f !! p
  }.
Lemma attrs_inside_refl D f : attrs_inside D f f.
Proof. by split. Qed.
Lemma attrs_inside_trans D f1 f2 f3 : attrs_inside D f1 f2 -> attrs_inside D f2 f3 -> attrs_inside D f1 f3.
Proof. intros [C1 K1 O1] [C2 K2 O2]. split; [congruence|intros p; by rewrite K2|intros p Hp; by rewrite O2, O1]. Qed.
Lemma same_tree_attrs D f f' : cwd f' = cwd f -> tree f' = tree f -> attrs_inside D f f'.
Proof. intros E1 E2. split; [done|intros p; by rewrite E2|intros p _; by rewrite E2]. Qed.
Lemma attrs_is_inside D f f' : fs_wf f -> attrs_inside D f f' -> inside D f f'.
Proof.
  intros [[WR WP] WC] [C K O]. split; [|done| |done].
  - split; [split|]; [by rewrite K| |by rewrite C, K]. intros p c Hs. rewrite K. apply (WP p c).
    apply kind_at_is_Some. rewrite <- K. by apply kind_at_is_Some.
  - intros p k. by rewrite K.
Qed.

Lemma call_inv {A} (run : M FS A) torn f r f' : call run torn f = (r, f') ->
  exists l, run (set_fs_faults l f) = (r, f') \/ exists n e, r = Err (fault_error e) /\ f' = snd (torn n (set_fs_faults l f)).
Proof.
  unfold call. destruct (fs_faults f) as [|[[n e]|] l] eqn:E.
  - intros E'. exists []. left. rewrite <- E' at 1. f_equal. destruct f. cbn in *. by subst.
  - intros [= <- <-]. exists l. right. by exists n, e.
  - intros E'. exists l. by left.
Qed.
Lemma faults_attrs D l f : attrs_inside D f (set_fs_faults l f).
Proof. by apply same_tree_attrs. Qed.
Lemma lookup_faults follow p l f : lookup_path follow p (set_fs_faults l f) = lookup_path follow p f.
Proof. done. Qed.

Lemma at_path_inv follow p f r f' : at_path follow p f = (r, f') -> f' = f /\
  forall q n, r = Ok (q, n) -> lookup_path follow p f = Ok q /\ tree f !! q = Some n.
Proof.
  unfold at_path. intros E. injection E as <- <-. split; [done|]. intros q n.
  destruct (lookup_path follow p f) as [q0|]; cbn [mbind res_bind]; [|done]. destruct (tree f !! q0) as [n0|] eqn:En; [|done].
  cbn. by intros [= -> ->].
Qed.
Lemma fault_not_missing e : ErrNotExist ∉ fault_error e.
Proof. unfold fault_error. case_bool_decide; [|done]. intros HE%list_elem_of_singleton. done. Qed.
(** What the kernel answers for a path. *)
Definition node_at (follow : bool) (p : bytes) (f : FS) : res (path * node) := fst (at_path follow p f).
Lemma stat_inv follow p f r f' : call ('(_, n) ← at_path follow p; mret n) intact_ f = (r, f') ->
  (exists l, f' = set_fs_faults l f) /\
  (forall n, r = Ok n -> exists q, node_at follow p f = Ok (q, n)) /\
  (forall e, r = Err e -> ErrNotExist ∈ e -> node_at follow p f = Err e).
Proof.
  intros (l & [E|(n & e & -> & ->)])%call_inv; [|split; [by exists l|]; split; [done|]; intros e' [= <-] He; by apply fault_not_missing in He]. unfold mbind, M_bind in E.
  assert (node_at follow p f = fst (at_path follow p (set_fs_faults l f))) as EN by done.
  destruct (at_path follow p (set_fs_faults l f)) as [r1 f1] eqn:EA. apply at_path_inv in EA as [-> HA].
  destruct r1 as [[q n]|e]; injection E as <- <-; (split; [by exists l|]); split; try done.
  - intros n' [= <-]. by exists q.
  - intros e' [= <-] _. done.
Qed.
Lemma node_at_Ok follow p f q n : node_at follow p f = Ok (q, n) <-> lookup_path follow p f = Ok q /\ tree f !! q = Some n.
Proof.
  unfold node_at, at_path. cbn [fst]. split.
  - intros (q0 & EL & E)%res_bind_Ok. apply res_bind_Ok in E as (n0 & En & [= <- <-]). split; [done|]. by destruct (tree f !! q0); [injection En as <-|].
  - intros [-> E]. cbn [mbind res_bind]. by rewrite E.
Qed.

Lemma alter_kind t q g p : (forall n, n_kind (g n) = n_kind n) -> kind_at (alter g q t) p = kind_at t p.
Proof.
  intros Hg. unfold kind_at. destruct (decide (q = p)) as [->|Hne].
  - rewrite lookup_alter_eq. destruct (t !! p); [|done]. cbn. by rewrite Hg.
  - by rewrite lookup_alter_ne.
Qed.
Lemma on_attrs_inside D follow p g f r f' :
  (forall q, lookup_path follow p f = Ok q -> D `prefix_of` q) -> on_attrs follow p g f = (r, f') -> attrs_inside D f f'.
Proof.
  intros HP (l & [E|(n & e & -> & ->)])%call_inv; [|by apply faults_attrs]. unfold mbind, M_bind in E.
  destruct (at_path follow p (set_fs_faults l f)) as [r1 f1] eqn:EA. apply at_path_inv in EA as [-> HA].
  destruct r1 as [[q n]|e]; injection E as _ <-; [|by apply faults_attrs]. destruct (HA q n eq_refl) as [HL _].
  split; [done|intros x; by apply alter_kind|]. intros x Hx. cbn [tree set_tree set_fs_faults]. apply lookup_alter_ne.
  intros <-. by destruct (Hx (HP _ HL)).
Qed.

(** A new entry below [D], whatever its content becomes before anyone looks. *)
Definition placed (D q : path) (k : kind) (f f' : FS) : Prop :=
  inside D f f' /\ tree f !! q = None /\ kind_at (tree f') q = Some k /\
  (forall p, p <> q -> kind_at (tree f') p = kind_at (tree f) p).

Lemma placed_intro D q p0 c k m f f' :
  fs_wf f -> q = p0 ++ [c] -> kind_at (tree f) p0 = Some KDir -> D `prefix_of` p0 -> tree f !! q = None ->
  cwd f' = cwd f -> n_kind m = k -> tree f' !! q = Some m ->
  (forall p, p <> q -> kind_at (tree f') p = kind_at (tree f) p) -> (forall p, p <> q -> ~ D `prefix_of` p -> tree f' !! p = tree f !! p) ->
  placed D q k f f'.
Proof.
  intros [[WR WP] WC] Eq Hp0 HD Hq Hc Hm Hm' HK HO.
  assert (kind_at (tree f) q = None) as Hq' by (by apply kind_at_None).
  assert (forall p, kind_at (tree f) p = Some KDir -> kind_at (tree f') p = Some KDir) as Dirs.
  { intros p Hp. rewrite HK; [done|]. intros ->. congruence. }
  split_and!; [split| | |]; try done.
  - split; [split|]; [by apply Dirs| |rewrite Hc; by apply Dirs].
    intros p c' Hs. apply Dirs. destruct (decide (p ++ [c'] = q)) as [E|Hne].
    + rewrite Eq in E. apply app_inj_tail in E as [-> _]. done.
    + apply (WP p c'). apply kind_at_is_Some. rewrite <- HK by done. by apply kind_at_is_Some.
  - intros p k' Hk. rewrite HK; [done|]. intros ->. congruence.
  - intros p Hp. apply HO; [|done]. intros ->. apply Hp. rewrite Eq. by apply prefix_app_r.
  - unfold kind_at. rewrite Hm'. cbn. by rewrite Hm.
Qed.

Lemma create_inv D k mode p f r f' :
  fs_wf f -> (forall q, lookup_path false p f = Ok q -> tree f !! q = None -> exists c, c <> [] /\ q = D ++ c) -> create k mode p f = (r, f') ->
  (f' = f /\ ~ is_ok r = true) \/
  exists q, r = Ok q /\ lookup_path false p f = Ok q /\ tree f !! q = None /\ placed D q k f f' /\ exists n, tree f' !! q = Some n /\ n_kind n = k.
Proof.
  intros W HP. unfold create. destruct (lookup_path false p f) as [q|e] eqn:EL; [|intros [= <- <-]; by left].
  destruct (tree f !! q) as [n0|] eqn:Eq; [intros [= <- <-]; by left|]. intros [= <- <-]. right.
  destruct (HP q eq_refl Eq) as (cs & Hcs & Eqq).
  assert (exists p0 c, q = p0 ++ [c] /\ kind_at (tree f) p0 = Some KDir) as (p0 & c & Eq0 & Hp0).
  { unfold lookup_path in EL. destruct p; [done|]. eapply resolve_parent; [apply W| |exact EL|done].
    unfold start. destruct (rooted _); [apply (tw_root _ (fw_tree _ W))|apply W]. }
  assert (D `prefix_of` p0) as HD.
  { destruct (exists_last Hcs) as (cs0 & c1 & ->). rewrite Eq0, app_assoc in Eqq. apply app_inj_tail in Eqq as [-> _]. by exists cs0. }
  assert (removelast q = p0) as Erm by (rewrite Eq0; apply removelast_last).
  exists q. split; [done|]. split; [done|]. split; [done|]. cbn [tree set_tree]. split.
  - eapply (placed_intro D q p0 c); try done; cbn [tree set_tree cwd]. 2: apply lookup_insert_eq.
    + done.
    + intros x Hx. unfold kind_at. rewrite lookup_insert_ne by done. by apply alter_kind.
    + intros x Hx Hd. rewrite lookup_insert_ne by done. rewrite lookup_alter_ne; [done|]. rewrite Erm. by intros <-.
  - rewrite lookup_insert_eq. by eexists.
Qed.
