(* ===== verification/TarExtract.v ===== *)
(** Extraction of a tar (src/tarextract/tarextract.go): what the reader yields is turned into
    nodes below a destination, directory metadata last. The theorem is that no archive, with
    whatever names, links and failures, reaches outside the destination. *)
From S2P Require Import Prelude External Readers Tar Filepath Hostfs.

(** * tarextract.go *)

Definition isPrivilegeError (e : error) : bool := bool_decide (e = [EPERM] \/ e = [EACCES] \/ e = [ENOTSUP]).

Definition safeJoin (dest name : bytes) : res bytes :=
  let refuse := Err [EMsg "refusing unsafe entry name"] in
  if existsb (fun part => bool_decide (part = [dot; dot])) (SplitSlash name) then refuse
  else
    let clean := Clean (slash :: name) in
    let target := Join dest clean in
    if negb (bool_decide (target = dest)) && negb (HasPrefix target (dest ++ [slash])) then refuse
    else Ok target.

(** Each turn goes to the parent, so the components of the path are enough. *)
Fixpoint reject_loop (fuel : nat) (dest p : bytes) : M FS unit :=
  if negb (HasPrefix p (dest ++ [slash])) then mret tt
  else
    match fuel with
    | O => fail [OutOfFuel]
    | S fuel =>
        fi ← orelse (n ← Lstat p; mret (Some n))
               (fun e => if bool_decide (ErrNotExist ∈ e) then mret None else fail e);
        match fi with
        | None => reject_loop fuel dest (Dir p)
        | Some n =>
            if negb (is_KDir (n_kind n)) then fail [EMsg "refusing to extract through non-directory"]
            else reject_loop fuel dest (Dir p)
        end
    end.
Definition rejectSymlinkComponents (dest p : bytes) : M FS unit := reject_loop (length (SplitSlash p)) dest p.

Definition writeRegular (target : bytes) (m : Member) : M FS unit :=
  f ← CreateFile target 384;
  _ ← orelse (_ ← WriteData f (m_body m); match m_err m with Some e => fail e | None => mret tt end)
        (fun e => _ ← orelse CloseFile (fun _ => mret tt); fail e);
  CloseFile.

Definition setMtime (target : bytes) (ns : Z) (isSymlink : bool) : M FS unit := UtimesNano target ns (negb isSymlink).

Definition setXattr (target : bytes) (kv : bytes * bytes) : M FS unit :=
  if negb (HasPrefix kv.1 xattrPrefix) then mret tt
  else orelse (Lsetxattr target (TrimPrefix kv.1 xattrPrefix) kv.2)
         (fun e => if isPrivilegeError e then mret tt else fail e).

Definition applyMeta (target : bytes) (h : Header) (isSymlink : bool) : M FS unit :=
  uid ← gets euid;
  _ ← (if uid =? 0 then Lchown target (h_Uid h) (h_Gid h) else mret tt);
  _ ← (if isSymlink then mret tt
       else _ ← Chmod target (Z.land (h_Mode h) 4095); each (setXattr target) (h_PAXRecords h));
  setMtime target (h_ModTime h) isSymlink.

(** One member; [true] asks for its metadata to be applied at the end. *)
Definition extract_member (destDir : bytes) (m : Member) : M FS bool :=
  let h := m_hdr m in
  target ← lift (safeJoin destDir (h_Name h));
  _ ← rejectSymlinkComponents destDir target;
  let now (make : M FS unit) (isSymlink : bool) := _ ← make; _ ← applyMeta target h isSymlink; mret false in
  if bool_decide (h_Typeflag h = TypeDir) then _ ← MkdirAll target 448; mret true
  else if bool_decide (h_Typeflag h = TypeReg) then now (writeRegular target m) false
  else if bool_decide (h_Typeflag h = TypeSymlink) then now (Symlink (h_Linkname h) target) true
  else if bool_decide (h_Typeflag h = TypeFifo) then now (Mkfifo target (Z.land (h_Mode h) 4095)) false
  else if bool_decide (h_Typeflag h = TypeChar \/ h_Typeflag h = TypeBlock) then
    made ← orelse
      (_ ← Mknod target (bool_decide (h_Typeflag h = TypeBlock)) (Z.land (h_Mode h) 4095) (u32 (h_Devmajor h)) (u32 (h_Devminor h)); mret true)
      (fun e => if isPrivilegeError e then mret false else fail e);
    (if made : bool then now (mret tt) false else mret false)
  else fail [EMsg "unsupported tar type"].

(** [tr.Next] until it reports the end of the archive, or an error. *)
Fixpoint extract_loop (destDir : bytes) (r : list (res Member)) (dirs : list Header) : M FS (list Header) :=
  match r with
  | [] => mret dirs
  | Err e :: _ => fail e
  | Ok m :: r =>
      isDir ← extract_member destDir m;
      extract_loop destDir r (if isDir : bool then dirs ++ [m_hdr m] else dirs)
  end.

Definition Extract (r : list (res Member)) (destDir : bytes) : M FS unit :=
  _ ← MkdirAll destDir 493;
  dirs ← extract_loop destDir r [];
  each (fun h => target ← lift (safeJoin destDir (h_Name h)); applyMeta target h false) dirs.

(** * Names *)

(** The path of the entry [rel] below the destination. *)
Definition under (dest : bytes) (rel : path) : bytes := match rel with [] => dest | _ => dest ++ slash :: join rel end.
Definition entry_path (rel : path) : Prop := Forall plain_name rel /\ Forall (fun c => slash ∉ c) rel.

Lemma clean_parts (P : bytes -> Prop) abs cs out : Forall P cs -> Forall P out -> Forall P (fold_left (clean_step abs) cs out).
Proof.
  revert out. induction cs as [|c cs IH]; intros out Hcs Ho; [done|]. apply Forall_cons_1 in Hcs as [Hc Hcs]. cbn [fold_left].
  apply IH; [done|]. assert (Forall P (out ++ [c])) as Hsn by (apply Forall_app; split; [done|by constructor]).
  unfold clean_step. repeat case_bool_decide; try done. destruct (list.last out); [|destruct abs; [done|by constructor]].
  case_bool_decide; [done|]. clear -Ho. induction out as [|x [|]]; try done. apply Forall_cons_1 in Ho as [Hx Ho]. constructor; [done|by apply IHout].
Qed.
Lemma split_suffix (a b r : list bytes) s : a ++ s = b ++ r -> (length b <= length a)%nat -> exists k, r = k ++ s.
Proof.
  intros [(k & _ & E)|(k & -> & ->)]%app_eq_inv HL; [by exists k|]. rewrite length_app in HL. destruct k; [by exists []|cbn in HL; lia].
Qed.

(** A destination that [Clean] leaves alone. *)
Definition dest_comps (dest : bytes) : list bytes := if rooted dest then tail (SplitSlash dest) else SplitSlash dest.
Definition clean_dest (dest : bytes) : Prop := canon (rooted dest) (dest_comps dest).

Lemma cleaned_away abs dc cd k : cd = clean_comps abs dc -> dc = cd ++ k -> Forall plain_name k -> canon abs dc.
Proof.
  intros Hcd E HK. pose proof (clean_canon abs dc) as HC. rewrite <- Hcd in HC.
  assert (clean_comps abs dc = cd ++ k) as E2 by (rewrite E, clean_comps_app by done; by rewrite (canon_clean _ _ HC)).
  rewrite <- Hcd in E2. assert (k = []) as -> by (apply (f_equal length) in E2; rewrite length_app in E2; destruct k; [done|cbn in E2; lia]).
  by rewrite E, app_nil_r.
Qed.

(** What [safeJoin] lets through is a path of plain components below the destination. *)
Lemma safeJoin_spec dest name t : dest <> [] -> safeJoin dest name = Ok t -> exists rel, entry_path rel /\ t = under dest rel /\ (rel <> [] -> clean_dest dest).
Proof.
  intros Hd. unfold safeJoin. destruct (existsb _ _) eqn:EX; [done|]. cbv zeta.
  assert (Forall (fun c => c <> [dot; dot]) (SplitSlash name)) as Hdd.
  { apply list.Forall_forall. intros c Hc%list_elem_of_In ->. assert (existsb (fun part => bool_decide (part = [dot; dot])) (SplitSlash name) = true) as E; [|congruence].
    apply existsb_exists. exists [dot; dot]. split; [done|by apply bool_decide_eq_true_2]. }
  destruct (clean_no_dotdot true (SplitSlash name) [] Hdd) as (r & Er & Hr & Hin). cbn [app] in Er.
  assert (Forall (fun c => slash ∉ c) r) as Hrs.
  { apply list.Forall_forall. intros c Hc. pose proof (split_part name) as F. rewrite list.Forall_forall in F. apply F, list_elem_of_In, Hin. by apply list_elem_of_In. }
  assert (Clean (slash :: name) = slash :: join r) as ->.
  { unfold Clean. change (SplitSlash (slash :: name)) with ([] :: SplitSlash name). cbn [rooted]. rewrite bool_decide_eq_true_2 by done.
    unfold clean_comps. cbn [fold_left]. change (clean_step true [] []) with (@nil bytes). by rewrite Er. }
  destruct (bool_decide (Join dest (slash :: join r) = dest)) eqn:Et; cbn [negb andb].
  { intros [= <-]. exists []. split; [by split; constructor|]. split; [by apply bool_decide_eq_true in Et|done]. }
  destruct (HasPrefix _ _) eqn:EH; cbn [negb]; [|done]. intros [= <-]. apply HasPrefix_true in EH as (rest & EH).
  rewrite <- app_assoc in EH. cbn [app] in EH.
  assert ((exists k, r = k ++ SplitSlash rest) /\ clean_dest dest) as ((k & Ek) & HCD).
  { set (tg := Join dest (slash :: join r)) in *. pose proof (split_app dest rest) as ES. rewrite <- EH in ES.
    pose proof (split_part dest) as Hdp. pose proof (split_nonempty rest) as HR. pose proof (split_nonempty dest) as HDn.
    assert (forall abs dc, clean_comps abs (dc ++ [] :: SplitSlash (join r)) = clean_comps abs dc ++ r) as CC.
    { intros abs dc. unfold clean_comps. rewrite fold_left_app. cbn [fold_left]. destruct r as [|c r'].
      - cbn. by rewrite app_nil_r.
      - rewrite split_join by done. by rewrite clean_plain. }
    assert (tg = if rooted dest then slash :: join (clean_comps true (SplitSlash dest) ++ r)
      else match clean_comps false (SplitSlash dest) ++ r with [] => [dot] | _ => join (clean_comps false (SplitSlash dest) ++ r) end) as Etg.
    { unfold tg, Join. destruct dest as [|d0 dest']; [done|]. unfold Clean. rewrite split_app.
      change (SplitSlash (slash :: join r)) with ([] :: SplitSlash (join r)). rewrite CC. cbn [app rooted].
      by destruct (bool_decide (d0 = slash)). }
    rewrite Etg in ES. destruct (rooted dest) eqn:Er0.
    - change (SplitSlash (slash :: join (clean_comps true (SplitSlash dest) ++ r))) with ([] :: SplitSlash (join (clean_comps true (SplitSlash dest) ++ r))) in ES.
      destruct dest as [|d0 dest']; [done|]. cbn [rooted] in Er0. apply bool_decide_eq_true in Er0 as ->.
      change (SplitSlash (slash :: dest')) with ([] :: SplitSlash dest') in ES, Hdp. cbn [app] in ES. injection ES as ES.
      change (clean_comps true ([] :: SplitSlash dest')) with (clean_comps true (SplitSlash dest')) in ES.
      pose proof (clean_length true (SplitSlash dest') []) as HL. cbn [length] in HL. fold (clean_comps true (SplitSlash dest')) in HL.
      apply Forall_cons_1 in Hdp as [_ Hdp].
      pose proof (clean_parts _ true (SplitSlash dest') [] Hdp ltac:(constructor)) as HP. fold (clean_comps true (SplitSlash dest')) in HP.
      destruct (decide (clean_comps true (SplitSlash dest') ++ r = [])) as [E0|E0].
      + rewrite E0 in ES. apply (f_equal length) in ES. rewrite length_app in ES. cbn in ES.
        pose proof (split_nonempty dest'). destruct (SplitSlash dest'), (SplitSlash rest); cbn in ES; try done; lia.
      + rewrite split_join in ES; [|done|by apply Forall_app]. symmetry in ES. destruct (split_suffix _ _ _ _ ES) as (k & Ek); [lia|].
        split; [by exists k|]. unfold clean_dest, dest_comps. cbn [rooted]. rewrite bool_decide_eq_true_2 by done.
        change (SplitSlash (slash :: dest')) with ([] :: SplitSlash dest'). cbn [tail]. rewrite Ek, app_assoc in ES. apply app_inv_tail in ES.
        eapply cleaned_away; [done|exact ES|]. rewrite Ek in Hr. by apply Forall_app in Hr as [? _].
    - pose proof (clean_length false (SplitSlash dest) []) as HL. cbn [length] in HL. fold (clean_comps false (SplitSlash dest)) in HL.
      pose proof (clean_parts _ false (SplitSlash dest) [] Hdp ltac:(constructor)) as HP. fold (clean_comps false (SplitSlash dest)) in HP.
      destruct (clean_comps false (SplitSlash dest) ++ r) as [|c0 l0] eqn:E0.
      + change (SplitSlash [dot]) with [[dot]] in ES. apply (f_equal length) in ES. rewrite length_app in ES. cbn in ES. destruct (SplitSlash dest), (SplitSlash rest); cbn in ES; try done; lia.
      + rewrite split_join in ES; [|done|by rewrite <- E0; apply Forall_app]. symmetry in ES. rewrite <- E0 in ES.
        destruct (split_suffix _ _ _ _ ES) as (k & Ek); [lia|]. split; [by exists k|]. unfold clean_dest, dest_comps. rewrite Er0.
        rewrite Ek, app_assoc in ES. apply app_inv_tail in ES. eapply cleaned_away; [done|exact ES|]. rewrite Ek in Hr. by apply Forall_app in Hr as [? _]. }
  exists (SplitSlash rest). rewrite Ek in Hr. apply Forall_app in Hr as [_ Hr]. split; [split; [done|apply split_part]|].
  split; [|done]. rewrite EH. unfold under. pose proof (split_nonempty rest) as HR. destruct (SplitSlash rest) eqn:E; [done|]. by rewrite <- E, join_split.
Qed.

(** On a destination that is clean, every name without [..] is let through, and read from the
    destination's root. *)
Lemma Join_under dest r : dest <> [] -> clean_dest dest -> entry_path r -> Join dest (slash :: join r) = under dest r.
Proof.
  intros HN HC [HP HS]. pose proof (split_nonempty dest) as HSN.
  assert (forall abs dc, clean_comps abs (dc ++ [] :: SplitSlash (join r)) = clean_comps abs dc ++ r) as CC.
  { intros abs dc. unfold clean_comps. rewrite fold_left_app. cbn [fold_left]. destruct r as [|c r']; [by rewrite app_nil_r|].
    rewrite split_join by done. by rewrite clean_plain. }
  assert (join (SplitSlash dest ++ r) = under dest r) as EU.
  { destruct r as [|c r]; [by rewrite app_nil_r, join_split|]. by rewrite join_app, join_split. }
  unfold Join. destruct dest as [|d0 dest'] eqn:Ed; [done|]. rewrite <- Ed in *. unfold Clean.
  assert (rooted (dest ++ slash :: slash :: join r) = rooted dest) as -> by (by rewrite Ed).
  rewrite split_app. change (SplitSlash (slash :: join r)) with ([] :: SplitSlash (join r)). rewrite CC.
  unfold clean_dest, dest_comps in HC. destruct (rooted dest) eqn:Er.
  - rewrite Ed in Er. cbn [rooted] in Er. apply bool_decide_eq_true in Er as ->. rewrite Ed in *.
    change (SplitSlash (slash :: dest')) with ([] :: SplitSlash dest') in *. cbn [tail] in HC.
    change (clean_comps true ([] :: SplitSlash dest')) with (clean_comps true (SplitSlash dest')). rewrite (canon_clean _ _ HC). rewrite <- EU.
    pose proof (split_nonempty dest'). cbn [app]. by rewrite join_cons by (by destruct (SplitSlash dest')).
  - rewrite (canon_clean _ _ HC), <- EU. by destruct (SplitSlash dest ++ r) eqn:E; [destruct (SplitSlash dest)|].
Qed.
Definition no_dotdot (name : bytes) : Prop := Forall (fun c => c <> [dot; dot]) (SplitSlash name).
(** The components of the name's path below the destination. *)
Definition name_comps (name : bytes) : path := clean_comps true (SplitSlash name).
Lemma name_comps_entry name : no_dotdot name -> entry_path (name_comps name).
Proof.
  intros Hdd. destruct (clean_no_dotdot true (SplitSlash name) [] Hdd) as (r & Er & Hr & Hin). unfold name_comps, clean_comps. rewrite Er. split; [done|].
  apply list.Forall_forall. intros c Hc. pose proof (split_part name) as F. rewrite list.Forall_forall in F. apply F, list_elem_of_In, Hin. by apply list_elem_of_In.
Qed.
Lemma safeJoin_exact dest name :
  dest <> [] -> clean_dest dest -> no_dotdot name -> safeJoin dest name = Ok (under dest (name_comps name)).
Proof.
  intros HN HC Hdd. pose proof (name_comps_entry name Hdd) as HE. unfold safeJoin.
  assert (existsb (fun part => bool_decide (part = [dot; dot])) (SplitSlash name) = false) as ->.
  { apply not_true_is_false. intros (c & Hc & E%bool_decide_eq_true)%existsb_exists. unfold no_dotdot in Hdd. rewrite list.Forall_forall in Hdd.
    by apply (Hdd c); [apply list_elem_of_In|]. }
  assert (Clean (slash :: name) = slash :: join (name_comps name)) as ->.
  { unfold Clean. change (SplitSlash (slash :: name)) with ([] :: SplitSlash name). cbn [rooted]. by rewrite bool_decide_eq_true_2. }
  cbv zeta. rewrite Join_under by done. destruct (decide (under dest (name_comps name) = dest)) as [E|E].
  { by rewrite bool_decide_eq_true_2. }
  rewrite bool_decide_eq_false_2 by done. assert (HasPrefix (under dest (name_comps name)) (dest ++ [slash]) = true) as ->; [|done].
  unfold under in *. destruct (name_comps name); [done|]. apply HasPrefix_true. eexists. by rewrite <- app_assoc.
Qed.

(** On any other destination nothing but the destination itself gets through. *)
Lemma canon_app abs cs r : canon abs cs -> Forall plain_name r -> canon abs (cs ++ r).
Proof. intros (n & pl & -> & HP & HN) Hr. exists n, (pl ++ r). rewrite app_assoc. split_and!; [done|by apply Forall_app_2|done]. Qed.
Lemma canon_rooted cs : canon false cs -> Forall (fun c => slash ∉ c) cs -> rooted (join cs) = false.
Proof.
  intros (n & pl & -> & HP & _) HS. destruct n as [|n]; cbn [replicate app] in *.
  - destruct pl as [|c pl]; [done|]. apply Forall_cons_1 in HP as [(Hc & _) _]. apply Forall_cons_1 in HS as [Hs _].
    assert (rooted c = false) as E by (destruct c as [|x c]; [done|]; apply bool_decide_eq_false_2; intros ->; apply Hs; by left).
    destruct pl; [done|]. by destruct c.
  - by destruct (replicate n [dot; dot] ++ pl).
Qed.
Lemma Join_clean dest r : dest <> [] -> r <> [] -> entry_path r -> clean_dest (Join dest (slash :: join r)).
Proof.
  intros HN Hr [HP HS]. pose proof (split_part dest) as Hdp.
  assert (forall abs dc, clean_comps abs (dc ++ [] :: SplitSlash (join r)) = clean_comps abs dc ++ r) as CC.
  { intros abs dc. unfold clean_comps. rewrite fold_left_app. cbn [fold_left]. rewrite split_join by done. by rewrite clean_plain. }
  assert (forall abs, let l := clean_comps abs (SplitSlash dest) ++ r in l <> [] /\ canon abs l /\ Forall (fun c => slash ∉ c) l) as HL.
  { intros abs. split; [by destruct r; [|intros [_ ?]%app_eq_nil]|]. split; [apply canon_app; [apply clean_canon|done]|].
    apply Forall_app_2; [|done]. apply (clean_parts _ abs (SplitSlash dest) [] Hdp ltac:(constructor)). }
  unfold Join. destruct dest as [|d0 dest'] eqn:Ed; [done|]. rewrite <- Ed in *. unfold Clean.
  assert (rooted (dest ++ slash :: slash :: join r) = rooted dest) as -> by (by rewrite Ed).
  rewrite split_app. change (SplitSlash (slash :: join r)) with ([] :: SplitSlash (join r)). rewrite CC.
  destruct (HL (rooted dest)) as (H1' & H2' & H3'). set (l := clean_comps (rooted dest) (SplitSlash dest) ++ r) in *.
  unfold clean_dest, dest_comps. destruct (rooted dest).
  - cbn [rooted]. rewrite bool_decide_eq_true_2 by done. change (SplitSlash (slash :: join l)) with ([] :: SplitSlash (join l)). cbn [tail]. by rewrite split_join.
  - destruct l as [|c0 l0] eqn:El; [done|]. rewrite <- El in *. by rewrite canon_rooted, split_join.
Qed.

(** A destination that is not written the way [filepath.Clean] writes it - [./out],
    [/tmp/out/], [out//x], [.] - refuses every entry below it, for the entry's path is
    cleaned and then compared with the destination as it was given. *)
Theorem unclean_destination_refused dest name :
  dest <> [] -> ~ clean_dest dest -> name_comps name <> [] -> is_ok (safeJoin dest name) = false.
Proof.
  intros HN HC Hr. destruct (safeJoin dest name) as [t|e] eqn:E; [|done]. exfalso.
  destruct (safeJoin_spec dest name t HN E) as (rel & _ & -> & HD). destruct rel as [|c rel]; [|by apply HC, HD]. cbn [under] in E.
  unfold safeJoin in E. destruct (existsb _ _) eqn:EX; [done|]. cbv zeta in E.
  assert (no_dotdot name) as Hdd.
  { apply list.Forall_forall. intros c Hc%list_elem_of_In ->. assert (existsb (fun part => bool_decide (part = [dot; dot])) (SplitSlash name) = true) as E'; [|congruence].
    apply existsb_exists. exists [dot; dot]. split; [done|by apply bool_decide_eq_true_2]. }
  assert (Clean (slash :: name) = slash :: join (name_comps name)) as EC.
  { unfold Clean. change (SplitSlash (slash :: name)) with ([] :: SplitSlash name). cbn [rooted]. by rewrite bool_decide_eq_true_2. }
  rewrite EC in E. apply HC. assert (Join dest (slash :: join (name_comps name)) = dest) as <- by (by destruct (_ && _); [|injection E]).
  apply Join_clean; [done|done|by apply name_comps_entry].
Qed.
Lemma unclean_destination_refused_witness : is_ok (safeJoin [dot; slash; x6f] [x61]) = false.
Proof.
  assert (~ clean_dest [dot; slash; x6f]) as HC.
  { intros HC. apply canon_clean in HC. vm_compute in HC. discriminate HC. }
  exact (unclean_destination_refused [dot; slash; x6f] [x61] ltac:(discriminate) HC ltac:(vm_compute; discriminate)).
Defined.

(** * Containment *)

Section Contained.
Context (dest : bytes) (D : path).

(** The destination's path leads to the directory [D], and not through a link at its end. *)
Record dest_at (f : FS) : Prop := {
    da_wf : fs_wf f;
    da_name : dest <> [];
    da_lookup : lookup_path false dest f = Ok D;
    da_dir : kind_at (tree f) D = Some KDir
  }.

Lemma dest_inside f f' : dest_at f -> inside D f f' -> dest_at f'.
Proof.
  intros [W N L K] [W' C' K' _]. split; [done|done| |by apply K']. unfold lookup_path, start in *. destruct dest; [done|]. rewrite C'.
  eapply resolve_grow; [exact K'|done|]. by apply kind_at_Some in K.
Qed.
Lemma dest_attrs f f' : dest_at f -> attrs_inside D f f' -> dest_at f'.
Proof. intros HD A. eapply dest_inside; [done|]. apply attrs_is_inside; [apply HD|done]. Qed.
Lemma clear_attrs f f' rel : clear (tree f) D rel -> attrs_inside D f f' -> clear (tree f') D rel.
Proof. intros HC A i Hi. rewrite !(ai_kinds _ _ _ A). by apply HC. Qed.

Lemma under_split rel : Forall (fun c => slash ∉ c) rel -> SplitSlash (under dest rel) = SplitSlash dest ++ rel.
Proof.
  intros HF. destruct rel as [|c rel]; [by rewrite app_nil_r|]. unfold under. by rewrite split_app, split_join.
Qed.
Lemma under_rooted rel : dest <> [] -> rooted (under dest rel) = rooted dest.
Proof. intros Hd. unfold under. destruct rel; [done|]. by destruct dest. Qed.

Lemma lookup_under f follow rel p :
  dest_at f -> entry_path rel -> clear (tree f) D rel -> (follow = true -> ~ is_link (kind_at (tree f) (D ++ rel))) ->
  lookup_path follow (under dest rel) f = Ok p -> p = D ++ rel.
Proof.
  intros HD [HP HS] HC HL E. pose proof (da_name _ HD) as HN.
  assert (resolve (S MAXSYMLINKS) (tree f) false (start f dest) (SplitSlash dest) = Ok D) as EL
    by (pose proof (da_lookup _ HD) as EL; unfold lookup_path in EL; by destruct dest).
  pose proof (resolve_follow _ _ _ _ _ (da_dir _ HD) EL) as EL'.
  assert (resolve (S MAXSYMLINKS) (tree f) follow (start f dest) (SplitSlash dest ++ rel) = Ok p) as E'.
  { rewrite <- under_split by done. unfold lookup_path, start in E |- *. rewrite under_rooted in E by done.
    destruct (under dest rel) eqn:Eu; [|done]. exfalso. unfold under in Eu. destruct rel; [done|by destruct dest]. }
  destruct (decide (rel = [])) as [->|Hne].
  - rewrite app_nil_r in E' |- *. destruct follow; congruence.
  - destruct (resolve_app _ _ follow _ _ rel _ (da_dir _ HD) EL' Hne) as (l' & Ea). rewrite Ea in E'. by eapply resolve_plain.
Qed.

(** ** Rejecting components *)

(** Looking at a path changes nothing but the list of faults. *)
Lemma look_inv follow p f r f' :
  orelse (n ← call ('(_, n) ← at_path follow p; mret n) intact_; mret (Some n)) (fun _ => mret None) f = (r, f') ->
  (exists l, f' = set_fs_faults l f) /\ exists o, r = Ok o /\
  forall n, o = Some n -> exists q, node_at follow p f = Ok (q, n).
Proof.
  unfold orelse, mbind at 1, M_bind at 1. destruct (call _ intact_ f) as [r1 f1] eqn:E. apply stat_inv in E as ((l & ->) & HQ & _).
  destruct r1 as [n|e]; cbn; intros [= <- <-]; (split; [by exists l|]); eexists; (split; [done|]).
  - intros n' [= <-]. by apply HQ.
  - done.
Qed.

Lemma Dir_under rel c : dest <> [] -> clean_dest dest -> entry_path (rel ++ [c]) -> Dir (under dest (rel ++ [c])) = under dest rel.
Proof.
  intros HN HC [HP HS]. pose proof (split_nonempty dest) as HSN. unfold Dir, up_to_slash.
  rewrite under_split, app_assoc, removelast_last by done. apply Forall_app in HP as [HP _]. apply Forall_app in HS as [HS _].
  destruct (SplitSlash dest ++ rel) as [|x xs] eqn:E; [by destruct (SplitSlash dest)|]. rewrite <- E. clear x xs E.
  assert (join (SplitSlash dest ++ rel) = under dest rel) as ->.
  { destruct (decide (rel = [])) as [->|Hne]; [by rewrite app_nil_r, join_split|]. rewrite join_app, join_split by done. unfold under. by destruct rel. }
  assert (rooted (under dest rel ++ [slash]) = rooted dest) as ER.
  { rewrite <- (under_rooted rel HN). assert (under dest rel <> []) as Hu by (unfold under; destruct rel; [done|by destruct dest]). by destruct (under dest rel). }
  unfold Clean. rewrite ER, (split_app (under dest rel) []), under_split by done. change (SplitSlash []) with [@nil byte].
  assert (forall abs cs, clean_comps abs (cs ++ [[]]) = clean_comps abs cs) as CC by (intros abs cs; unfold clean_comps; by rewrite fold_left_app).
  rewrite CC, clean_comps_app by done. unfold clean_dest, dest_comps in HC. destruct (rooted dest) eqn:Er.
  - destruct dest as [|d0 dest']; [done|]. cbn [rooted] in Er. apply bool_decide_eq_true in Er as ->.
    change (SplitSlash (slash :: dest')) with ([] :: SplitSlash dest') in HC |- *. cbn [tail] in HC.
    change (clean_comps true ([] :: SplitSlash dest')) with (clean_comps true (SplitSlash dest')). rewrite (canon_clean _ _ HC).
    pose proof (split_nonempty dest') as HN'. unfold under. destruct rel as [|c1 rel]; [by rewrite app_nil_r, join_split|].
    rewrite join_app, join_split by done. done.
  - rewrite (canon_clean _ _ HC). destruct (SplitSlash dest ++ rel) as [|x xs] eqn:E; [by destruct (SplitSlash dest)|]. rewrite <- E.
    unfold under. destruct rel as [|c1 rel]; [by rewrite app_nil_r, join_split|]. by rewrite join_app, join_split.
Qed.

Definition looked (f : FS) (rel : path) : Prop :=
  (exists e, node_at false (under dest rel) f = Err e /\ ErrNotExist ∈ e) \/
  (exists q n, node_at false (under dest rel) f = Ok (q, n) /\ is_KDir (n_kind n) = true).
Lemma under_prefix rel : HasPrefix (under dest rel) (dest ++ [slash]) = true <-> rel <> [].
Proof.
  rewrite HasPrefix_true. split.
  - intros [r E] ->. apply (f_equal length) in E. rewrite !length_app in E. cbn in E. lia.
  - intros Hne. destruct rel as [|c rel]; [done|]. exists (join (c :: rel)). unfold under. by rewrite <- app_assoc.
Qed.
Lemma reject_inv fuel rel f r f' :
  dest <> [] -> (rel <> [] -> clean_dest dest) -> entry_path rel -> reject_loop fuel dest (under dest rel) f = (r, f') ->
  (exists l, f' = set_fs_faults l f) /\
  (r = Ok tt -> forall i, (0 < i <= length rel)%nat -> looked f (take i rel)).
Proof.
  intros HN. revert rel f r f'. induction fuel as [|fuel IH]; intros rel f r f' HC HP E; cbn [reject_loop] in E.
  all: destruct (HasPrefix (under dest rel) (dest ++ [slash])) eqn:EH; cbn [negb] in E.
  2, 4: injection E as <- <-; (split; [exists (fs_faults f); by destruct f|]); intros _ i Hi; apply not_true_iff_false in EH;
    rewrite under_prefix in EH; destruct rel; [cbn in Hi; lia|by destruct EH].
  - injection E as <- <-. split; [exists (fs_faults f); by destruct f|done].
  - apply under_prefix in EH. destruct (exists_last EH) as (rel0 & c & ->). pose proof (HC EH) as HCD. rewrite Dir_under in E by done.
    assert (entry_path rel0) as HP0 by (destruct HP as [P1 P2]; apply Forall_app in P1 as [? _]; apply Forall_app in P2 as [? _]; done).
    unfold mbind at 1, M_bind at 1, orelse at 1 in E. unfold mbind at 1, M_bind at 1 in E. unfold Lstat at 1 in E.
    destruct (call _ intact_ f) as [r1 f1] eqn:EL. apply stat_inv in EL as ((l & ->) & HQ & HE).
    assert (forall r f', reject_loop fuel dest (under dest rel0) (set_fs_faults l f) = (r, f') -> looked f (rel0 ++ [c]) ->
      (exists l', f' = set_fs_faults l' f) /\ (r = Ok tt -> forall i, (0 < i <= length (rel0 ++ [c]))%nat -> looked f (take i (rel0 ++ [c])))) as Next.
    { intros r2 f2 E2 HL. apply IH in E2 as ((l2 & ->) & HI); [|done..]. split; [by exists l2|]. intros Hr i Hi. rewrite length_app in Hi. cbn in Hi.
      destruct (decide (i = S (length rel0))) as [->|Hne]; [by rewrite take_ge by (rewrite length_app; cbn; lia)|].
      rewrite take_app_le by lia. apply (HI Hr). lia. }
    destruct r1 as [n|e]; cbn [mret M_ret] in E.
    + destruct (HQ n eq_refl) as [q Hq]. destruct (is_KDir (n_kind n)) eqn:Ek; cbn [negb] in E.
      * apply (Next _ _ E). right. by exists q, n.
      * injection E as <- <-. by split; [exists l|].
    + case_bool_decide as He; [|injection E as <- <-; by split; [exists l|]].
      apply (Next _ _ E). left. exists e. split; [by apply HE|done].
Qed.

(** So a path that passes has only directories on it, as far as it exists. *)
Definition open_way (f : FS) (rel : path) : Prop :=
  forall i, (0 < i <= length rel)%nat -> kind_at (tree f) (D ++ take i rel) = None \/ kind_at (tree f) (D ++ take i rel) = Some KDir.
Lemma open_way_clear f rel : open_way f rel -> clear (tree f) D rel.
Proof. intros HO i Hi. apply HO. lia. Qed.
Lemma entry_take i rel : entry_path rel -> entry_path (take i rel).
Proof. intros [? ?]. split; by apply Forall_take. Qed.
Lemma lookup_reach f rel :
  dest_at f -> entry_path rel -> is_Some (tree f !! (D ++ rel)) -> lookup_path false (under dest rel) f = Ok (D ++ rel).
Proof.
  intros HD [HP HS] Hs. pose proof (da_name _ HD) as HN.
  assert (resolve (S MAXSYMLINKS) (tree f) false (start f dest) (SplitSlash dest) = Ok D) as EL
    by (pose proof (da_lookup _ HD) as EL; unfold lookup_path in EL; by destruct dest).
  destruct (decide (rel = [])) as [->|Hne]; [rewrite app_nil_r; apply HD|].
  destruct (resolve_app _ _ false _ _ rel _ (da_dir _ HD) (resolve_follow _ _ _ _ _ (da_dir _ HD) EL) Hne) as (l' & Ea).
  rewrite <- under_split in Ea by done. unfold lookup_path, start in *. rewrite under_rooted by done.
  destruct (under dest rel) eqn:Eu; [unfold under in Eu; destruct rel; [done|by destruct dest]|]. rewrite Ea. apply resolve_reach; [done| |done].
  intros i Hi. apply (wf_above _ _ (drop i rel)); [apply HD| |intros E; apply (f_equal length) in E; rewrite length_drop in E; cbn in E; lia].
  by rewrite <- app_assoc, take_drop.
Qed.
Lemma looked_open f rel :
  dest_at f -> entry_path rel -> (forall i, (0 < i <= length rel)%nat -> looked f (take i rel)) -> open_way f rel.
Proof.
  intros HD HP HL i. induction (lt_wf i) as [i _ IH]. intros Hi.
  destruct (kind_at (tree f) (D ++ take i rel)) as [k|] eqn:Ek; [right|by left].
  apply kind_at_Some in Ek as Hs. pose proof (lookup_reach f (take i rel) HD (entry_take _ _ HP) Hs) as EL.
  destruct Hs as [n Hn]. assert (node_at false (under dest (take i rel)) f = Ok (D ++ take i rel, n)) as EN by (by apply node_at_Ok).
  destruct (HL i Hi) as [(e & E & _)|(q & m & E & Hk)]; [congruence|]. rewrite EN in E. injection E as <- <-.
  unfold kind_at in Ek. rewrite Hn in Ek. cbn in Ek. injection Ek as <-. by destruct (n_kind n).
Qed.

(** ** Making directories *)

(** A path on the way to [under dest rel]. *)
Definition on_way (p : bytes) (rel : path) : Prop := p <> [] /\ SplitSlash p `prefix_of` SplitSlash dest ++ rel.
(** Nothing but the way to [rel] has changed its kind. *)
Definition only_way (rel : path) (f f' : FS) : Prop :=
  inside D f f' /\ forall q, (forall i, q <> D ++ take i rel) -> kind_at (tree f') q = kind_at (tree f) q.
Definition made_way (rel : path) (p : bytes) (f f' : FS) (r : res unit) : Prop :=
  only_way rel f f' /\ open_way f' rel /\
  (r = Ok tt -> SplitSlash p = SplitSlash dest ++ rel -> kind_at (tree f') (D ++ rel) = Some KDir).

Lemma on_way_rooted p rel : dest <> [] -> on_way p rel -> SplitSlash p `prefix_of` SplitSlash dest -> rooted p = rooted dest.
Proof.
  intros HN [Hp _] [b E]. rewrite !rooted_split, E. destruct (SplitSlash p) as [|c [|c2 l]] eqn:Ep; [by apply split_nonempty in Ep| |done].
  cbn [app]. destruct b; [done|]. symmetry. apply bool_decide_eq_false_2. intros ->. apply Hp. by rewrite <- (join_split p), Ep.
Qed.
Lemma on_way_cases p rel : on_way p rel ->
  (exists b, b <> [] /\ SplitSlash dest = SplitSlash p ++ b) \/ exists i, (i <= length rel)%nat /\ p = under dest (take i rel) /\ SplitSlash p = SplitSlash dest ++ take i rel.
Proof.
  intros [Hp [k E]]. apply app_eq_inv in E as [(k' & E1 & E2)|(k' & E1 & E2)].
  - destruct k' as [|c k']; [right|left; by exists (c :: k')]. rewrite app_nil_r in E1. exists 0%nat. split; [lia|].
    rewrite take_0, app_nil_r. split; [|done]. cbn. by rewrite <- (join_split p), <- E1, join_split.
  - right. exists (length k'). rewrite E2, take_app_length, length_app. split; [lia|]. split; [|done].
    pose proof (split_nonempty dest). destruct k' as [|c k']; [cbn; by rewrite <- (join_split p), E1, app_nil_r, join_split|].
    rewrite <- (join_split p), E1, join_app, join_split by done. done.
Qed.
Lemma only_way_attrs rel f f' : fs_wf f -> attrs_inside D f f' -> only_way rel f f'.
Proof. intros W A. split; [by apply attrs_is_inside|]. intros q _. by apply (ai_kinds _ _ _ A). Qed.
Lemma only_way_trans rel f1 f2 f3 : only_way rel f1 f2 -> only_way rel f2 f3 -> only_way rel f1 f3.
Proof. intros [I1 K1] [I2 K2]. split; [by eapply inside_trans|]. intros q Hq. by rewrite K2, K1. Qed.
Lemma open_way_attrs f f' rel : open_way f rel -> attrs_inside D f f' -> open_way f' rel.
Proof. intros HO A i Hi. rewrite !(ai_kinds _ _ _ A). by apply HO. Qed.
Lemma made_way_same f f' rel p r : dest_at f -> open_way f rel -> attrs_inside D f f' ->
  (r = Ok tt -> SplitSlash p = SplitSlash dest ++ rel -> kind_at (tree f) (D ++ rel) = Some KDir) -> made_way rel p f f' r.
Proof.
  intros HD HO A HK. split; [apply only_way_attrs; [apply HD|done]|]. split; [by eapply open_way_attrs|].
  intros Hr Hp. rewrite (ai_kinds _ _ _ A). by apply HK.
Qed.

Lemma mkdir_inv rel p mode f r f' :
  dest_at f -> entry_path rel -> open_way f rel -> on_way p rel -> Mkdir p mode f = (r, f') -> made_way rel p f f' r.
Proof.
  intros HD HP HO HW (l & [E|(n & e & -> & ->)])%call_inv; [|by apply made_way_same; [..|apply faults_attrs|]].
  set (f1 := set_fs_faults l f) in *. assert (attrs_inside D f f1) as A1 by apply faults_attrs.
  pose proof (dest_attrs _ _ HD A1) as HD1. pose proof (open_way_attrs _ _ _ HO A1) as HO1.
  unfold mbind, M_bind in E. destruct (create KDir mode p f1) as [r1 f2] eqn:EC.
  assert (forall q, lookup_path false p f1 = Ok q -> tree f1 !! q = None -> exists i, (0 < i <= length rel)%nat /\ SplitSlash p = SplitSlash dest ++ take i rel /\ q = D ++ take i rel) as HQ.
  { intros q EL Hq. destruct (on_way_cases _ _ HW) as [(b & Hb & Ed)|(i & Hi & -> & Es)].
    - exfalso. pose proof (da_lookup _ HD1) as Edl. unfold lookup_path, start in EL, Edl. destruct HW as [Hp HW'].
      rewrite (on_way_rooted p rel) in EL; [|apply HD|done|by exists b]. destruct p as [|p0 p']; [done|]. destruct dest as [|d0 dest']; [by destruct (da_name _ HD)|].
      pose proof (resolve_follow _ _ _ _ _ (da_dir _ HD1) Edl) as Edt. rewrite Ed in Edt.
      assert (is_Some (tree f1 !! q)) as [m Hm]; [|congruence].
      eapply (resolve_prefix (tree f1) _ false _ _ b D q); [apply (da_wf _ HD1)| | |exact Hb|exact Edt|exact EL].
      + destruct (rooted _); [apply (tw_root _ (fw_tree _ (da_wf _ HD1)))|apply (fw_cwd _ (da_wf _ HD1))].
      + pose proof (da_dir _ HD1) as HK. by apply kind_at_Some in HK.
    - assert (clear (tree f1) D (take i rel)) as HC.
      { intros j Hj. rewrite length_take in Hj. rewrite take_take, Nat.min_l by lia. apply HO1. lia. }
      pose proof (lookup_under f1 false (take i rel) q HD1 (entry_take _ _ HP) HC ltac:(done) EL) as ->.
      destruct (decide (i = 0%nat)) as [->|Hne]; [|exists i; split; [lia|done]].
      exfalso. rewrite take_0, app_nil_r in Hq. pose proof (da_dir _ HD1) as HK. apply kind_at_Some in HK as [m Hm]. congruence. }
  destruct (create_inv D KDir mode p f1 r1 f2 (da_wf _ HD1)) as [[-> Hr]|(q & -> & EL & Hq & (IN & _ & HK & HO2) & _)]; [|done| |].
  - intros q EL Hq. destruct (HQ q EL Hq) as (i & Hi & _ & ->). exists (take i rel). split; [|done]. intros E0. apply (f_equal length) in E0. rewrite length_take in E0. cbn in E0. lia.
  - destruct r1; [done|]. injection E as <- <-. by apply made_way_same.
  - injection E as <- <-. destruct (HQ q EL Hq) as (i & Hi & Es & ->). split_and!.
    + split; [eapply inside_trans; [apply attrs_is_inside; [apply HD|exact A1]|done]|]. intros x Hx. rewrite HO2 by (apply Hx). by apply (ai_kinds _ _ _ A1).
    + intros j Hj. destruct (decide (D ++ take j rel = D ++ take i rel)) as [->|Hne]; [by right|]. rewrite HO2 by done. by apply HO1.
    + intros _ Ep. rewrite Ep in Es. apply app_inv_head in Es. by rewrite Es.
Qed.

Lemma look_way rel p follow f r f' :
  dest_at f -> entry_path rel -> open_way f rel -> on_way p rel ->
  orelse (n ← call ('(_, n) ← at_path follow p; mret n) intact_; mret (Some n)) (fun _ => mret None) f = (r, f') ->
  attrs_inside D f f' /\ exists o, r = Ok o /\
    (forall n, o = Some n -> is_KDir (n_kind n) = true -> SplitSlash p = SplitSlash dest ++ rel -> kind_at (tree f) (D ++ rel) = Some KDir).
Proof.
  intros HD HP HO HW E. apply look_inv in E as ((l & ->) & o & -> & HQ). split; [apply faults_attrs|]. exists o. split; [done|].
  intros n -> Hk Hp. destruct (HQ n eq_refl) as (q & [EL En]%node_at_Ok). destruct (on_way_cases _ _ HW) as [(b & Hb & Ed)|(i & Hi & -> & Es)].
  - rewrite Hp in Ed. apply (f_equal length) in Ed. rewrite !length_app in Ed. destruct b; [done|cbn in Ed; lia].
  - rewrite Hp in Es. apply app_inv_head in Es. rewrite <- Es in EL.
    apply lookup_under in EL as ->; [|done|done|by apply open_way_clear|].
    + unfold kind_at. rewrite En. cbn. by destruct (n_kind n).
    + intros _ [tgt Ht]. destruct (decide (rel = [])) as [->|Hne].
      * rewrite app_nil_r in Ht. pose proof (da_dir _ HD). congruence.
      * destruct (HO (length rel)) as [E|E]; [destruct rel; [done|cbn; lia]|rewrite take_ge in E by lia; congruence..].
Qed.

Lemma mkdirall_inv fuel rel p mode f r f' :
  dest_at f -> entry_path rel -> open_way f rel -> on_way p rel -> MkdirAll_fuel fuel p mode f = (r, f') -> made_way rel p f f' r.
Proof.
  revert p f r f'. induction fuel as [|fuel IH]; intros p f r f' HD HP HO HW E; cbn [MkdirAll_fuel] in E.
  { injection E as <- <-. apply made_way_same; [done|done|apply attrs_inside_refl|done]. }
  unfold mbind at 1, M_bind at 1 in E. unfold Stat at 1 in E. destruct (orelse _ _ f) as [r1 f1] eqn:ES.
  destruct (look_way rel p true f r1 f1 HD HP HO HW ES) as (A1 & o & -> & HK).
  pose proof (dest_attrs _ _ HD A1) as HD1. pose proof (open_way_attrs _ _ _ HO A1) as HO1. pose proof (only_way_attrs rel _ _ (da_wf _ HD) A1) as IN1.
  destruct o as [n|].
  { destruct (is_KDir (n_kind n)) eqn:Ek; injection E as <- <-; apply made_way_same; try done. intros _. by apply (HK n). }
  unfold mbind at 1, M_bind at 1 in E. set (parent := match up_to_slash p with None | Some [] => _ | Some _ => _ end) in E.
  destruct (parent f1) as [r2 f2] eqn:EP.
  assert (only_way rel f1 f1) as IN0 by (apply only_way_attrs; [apply HD1|apply attrs_inside_refl]).
  assert (only_way rel f1 f2 /\ open_way f2 rel) as [IN2 HO2].
  { unfold parent in EP. unfold up_to_slash in EP. destruct (removelast (SplitSlash p)) as [|c cs] eqn:Erm; [by injection EP as <- <-|].
    destruct (join (c :: cs)) as [|j0 js] eqn:Ej; [by injection EP as <- <-|].
    change (MkdirAll_fuel fuel (j0 :: js) mode f1 = (r2, f2)) in EP. rewrite <- Ej in EP. assert (on_way (join (c :: cs)) rel) as HW'.
    { split; [by rewrite Ej|]. destruct (exists_last (split_nonempty p)) as (cs' & c' & Es). rewrite Es, removelast_last in Erm. subst cs'.
      pose proof (split_part p) as F. rewrite Es in F. apply Forall_app in F as [F _]. rewrite split_join by done.
      destruct HW as [_ HW]. rewrite Es in HW. etransitivity; [|exact HW]. by apply prefix_app_r. }
    destruct (IH _ _ _ _ HD1 HP HO1 HW' EP) as (? & ? & _). done. }
  pose proof (dest_inside _ _ HD1 (proj1 IN2)) as HD2. assert (only_way rel f f2) as IN by (by eapply only_way_trans).
  destruct r2 as [[]|e]; [|by injection E as <- <-].
  unfold orelse at 1 in E. destruct (Mkdir p mode f2) as [r3 f3] eqn:EM. destruct (mkdir_inv _ _ _ _ _ _ HD2 HP HO2 HW EM) as (IN3 & HO3 & HK3).
  assert (only_way rel f f3) as IN' by (by eapply only_way_trans). destruct r3 as [[]|e]; [by injection E as <- <-|].
  pose proof (dest_inside _ _ HD2 (proj1 IN3)) as HD3. unfold mbind at 1, M_bind at 1 in E. unfold Lstat at 1 in E. destruct (orelse _ _ f3) as [r4 f4] eqn:EL.
  destruct (look_way rel p false f3 r4 f4 HD3 HP HO3 HW EL) as (A4 & o & -> & HK4).
  assert (forall r, (r = Ok tt -> SplitSlash p = SplitSlash dest ++ rel -> kind_at (tree f3) (D ++ rel) = Some KDir) -> made_way rel p f f4 r) as End_.
  { intros r0 Hr0. destruct (made_way_same f3 f4 rel p r0 HD3 HO3 A4 Hr0) as (IN4 & ? & ?). split; [by eapply only_way_trans|done]. }
  destruct o as [n|]; [destruct (is_KDir (n_kind n)) eqn:Ek|]; injection E as <- <-; apply End_; try done. intros _. by apply (HK4 n).
Qed.

(** ** Metadata *)

Lemma attrs_bind {A B} (m : M FS A) (k : A -> M FS B) f r f' :
  (m ≫= k) f = (r, f') -> (forall r1 f1, m f = (r1, f1) -> attrs_inside D f f1) ->
  (forall x f1, attrs_inside D f f1 -> forall r2 f2, k x f1 = (r2, f2) -> attrs_inside D f1 f2) -> attrs_inside D f f'.
Proof.
  unfold mbind, M_bind. intros E Hm Hk. destruct (m f) as [[x|e] f1] eqn:Em; [|injection E as _ <-; by apply (Hm (Err e))].
  pose proof (Hm _ _ eq_refl) as A1. eapply attrs_inside_trans; [exact A1|]. by eapply Hk.
Qed.
Lemma attrs_orelse {A} (m : M FS A) (h : error -> M FS A) f r f' :
  orelse m h f = (r, f') -> (forall r1 f1, m f = (r1, f1) -> attrs_inside D f f1) ->
  (forall e f1, attrs_inside D f f1 -> forall r2 f2, h e f1 = (r2, f2) -> attrs_inside D f1 f2) -> attrs_inside D f f'.
Proof.
  unfold orelse. intros E Hm Hk. destruct (m f) as [[x|e] f1] eqn:Em; [injection E as _ <-; by apply (Hm (Ok x))|].
  pose proof (Hm _ _ eq_refl) as A1. eapply attrs_inside_trans; [exact A1|]. by eapply Hk.
Qed.
Lemma attrs_pure {A} (x : res A) f r f' : (x, f) = (r, f') -> attrs_inside D f f'.
Proof. intros [= _ <-]. apply attrs_inside_refl. Qed.

(** Where metadata may be applied: nothing on the way but directories, and no link at the end
    that would be followed. *)
Record settled (rel : path) (isSymlink : bool) (f : FS) : Prop := {
    se_dest : dest_at f;
    se_clear : clear (tree f) D rel;
    se_end : isSymlink = false -> ~ is_link (kind_at (tree f) (D ++ rel))
  }.
Lemma settled_attrs rel b f f' : settled rel b f -> attrs_inside D f f' -> settled rel b f'.
Proof.
  intros [HD HC HE] A. split; [by eapply dest_attrs|by eapply clear_attrs|]. intros Hb. rewrite (ai_kinds _ _ _ A). by apply HE.
Qed.
Lemma on_attrs_settled rel b follow g f r f' :
  entry_path rel -> settled rel b f -> (follow = true -> b = false) -> on_attrs follow (under dest rel) g f = (r, f') -> attrs_inside D f f'.
Proof.
  intros HP [HD HC HE] Hb. apply on_attrs_inside. intros q EL.
  apply lookup_under in EL as ->; [by apply prefix_app_r|done|done|done|]. intros Hf. apply HE. by apply Hb.
Qed.
Lemma setXattrs_inv rel kvs f r f' : entry_path rel -> settled rel false f -> each (setXattr (under dest rel)) kvs f = (r, f') -> attrs_inside D f f'.
Proof.
  intros HP. revert f r f'. induction kvs as [|kv kvs IH]; intros f r f' HS E; cbn [each] in E; [by eapply attrs_pure|].
  eapply attrs_bind; [exact E| |].
  - intros r1 f1. unfold setXattr. destruct (HasPrefix _ _); cbn [negb]; [|apply attrs_pure]. intros E1. eapply attrs_orelse; [exact E1| |].
    + intros r2 f2. by eapply on_attrs_settled.
    + intros e f2 _ r3 f3. cbv beta. destruct (isPrivilegeError e); apply attrs_pure.
  - intros [] f1 A1 r2 f2 E2. eapply IH; [|exact E2]. by eapply settled_attrs.
Qed.
Lemma applyMeta_inv rel h b f r f' : entry_path rel -> settled rel b f -> applyMeta (under dest rel) h b f = (r, f') -> attrs_inside D f f'.
Proof.
  intros HP HS E. unfold applyMeta in E. eapply attrs_bind; [exact E|intros r1 f1; apply attrs_pure|]. intros uid f1 A1 r1 f1' E1.
  pose proof (settled_attrs _ _ _ _ HS A1) as S1. eapply attrs_bind; [exact E1| |].
  { intros r2 f2. destruct (uid =? 0); [by eapply on_attrs_settled|apply attrs_pure]. }
  intros [] f2 A2 r2 f2' E2. pose proof (settled_attrs _ _ _ _ S1 A2) as S2. eapply attrs_bind; [exact E2| |].
  { intros r3 f3 E3. destruct b; [by eapply attrs_pure|]. eapply attrs_bind; [exact E3|intros r4 f4; by eapply on_attrs_settled|].
    intros [] f4 A4 r5 f5. apply setXattrs_inv; [done|]. by eapply settled_attrs. }
  intros [] f3 A3 r3 f3' E3. eapply on_attrs_settled; [done|by eapply settled_attrs| |exact E3]. by destruct b.
Qed.

(** ** New entries *)

Definition new_entry (rel : path) (b : bool) (f f' : FS) (r : res unit) : Prop :=
  inside D f f' /\ (r = Ok tt -> settled rel b f').

Lemma open_settled f rel b : dest_at f -> open_way f rel -> settled rel b f.
Proof.
  intros HD HO. split; [done|by apply open_way_clear|]. intros _ [tgt Ht]. destruct (decide (rel = [])) as [->|Hne].
  - rewrite app_nil_r in Ht. pose proof (da_dir _ HD). congruence.
  - destruct (HO (length rel)) as [E|E]; [destruct rel; [done|cbn; lia]|rewrite take_ge in E by lia; congruence..].
Qed.
Lemma create_under rel k mode f r f' :
  dest_at f -> entry_path rel -> open_way f rel -> create k mode (under dest rel) f = (r, f') ->
  (f' = f /\ ~ is_ok r = true) \/ (r = Ok (D ++ rel) /\ rel <> [] /\ placed D (D ++ rel) k f f').
Proof.
  intros HD HP HO E.
  assert (forall q, lookup_path false (under dest rel) f = Ok q -> q = D ++ rel) as HQ.
  { intros q EL. apply lookup_under in EL; [done..|by apply open_way_clear|done]. }
  assert (tree f !! (D ++ rel) = None -> rel <> []) as Hne.
  { intros Hq ->. rewrite app_nil_r in Hq. pose proof (da_dir _ HD) as HK. apply kind_at_Some in HK as [m Hm]. congruence. }
  destruct (create_inv D k mode (under dest rel) f r f' (da_wf _ HD)) as [?|(q & -> & EL & Hq & PL & _)]; [|done|by left|].
  - intros q EL Hq. rewrite (HQ q EL) in Hq |- *. exists rel. split; [by apply Hne|done].
  - right. rewrite (HQ q EL) in Hq, PL |- *. split_and!; [done|by apply Hne|done].
Qed.
Lemma placed_settled rel k b f f' :
  dest_at f -> open_way f rel -> rel <> [] -> placed D (D ++ rel) k f f' -> (b = false -> ~ is_link (Some k)) -> settled rel b f'.
Proof.
  intros HD HO Hne (IN & _ & HK & HO') Hb. split; [by eapply dest_inside| |].
  - intros i Hi. rewrite HO'; [apply HO; lia|]. intros E. apply app_inv_head in E. apply (f_equal length) in E. rewrite length_take in E. lia.
  - intros E. rewrite HK. by apply Hb.
Qed.
(** [os.Symlink], [unix.Mkfifo] and [unix.Mknod]. *)
Lemma make_inv rel k mode b f r f' :
  dest_at f -> entry_path rel -> open_way f rel -> (b = false -> ~ is_link (Some k)) ->
  call (_ ← create k mode (under dest rel); mret tt) intact_ f = (r, f') -> new_entry rel b f f' r.
Proof.
  intros HD HP HO Hb (l & [E|(n & e & -> & ->)])%call_inv; [|split; [apply attrs_is_inside; [apply HD|apply faults_attrs]|done]].
  pose proof (faults_attrs D l f) as A1. pose proof (dest_attrs _ _ HD A1) as HD1. pose proof (open_way_attrs _ _ _ HO A1) as HO1.
  unfold mbind, M_bind in E. destruct (create _ _ _ _) as [r1 f2] eqn:EC.
  destruct (create_under _ _ _ _ _ _ HD1 HP HO1 EC) as [[-> Hr]|(-> & Hne & PL)].
  - destruct r1; [done|]. injection E as <- <-. split; [by apply attrs_is_inside; [apply HD|]|done].
  - injection E as <- <-. split; [|intros _; by eapply placed_settled]. eapply inside_trans; [apply attrs_is_inside; [apply HD|exact A1]|apply PL].
Qed.

(** Writing to the file just made. *)
Lemma append_placed q d data f f1 f2 :
  fs_wf f -> D `prefix_of` q -> placed D q (KFile d) f f1 -> tree f2 = alter (append_data data) q (tree f1) -> cwd f2 = cwd f1 ->
  placed D q (KFile (d ++ data)) f f2.
Proof.
  intros W HDq (IN & Hq & HK & HO) ET EC.
  assert (forall p, p <> q -> tree f2 !! p = tree f1 !! p) as Same by (intros p Hp; rewrite ET; by apply lookup_alter_ne).
  assert (kind_at (tree f2) q = Some (KFile (d ++ data))) as HK2.
  { unfold kind_at in *. rewrite ET, lookup_alter_eq. destruct (tree f1 !! q) as [n|]; [|done]. cbn in *. injection HK as HK. by rewrite HK. }
  assert (forall p, p <> q -> kind_at (tree f2) p = kind_at (tree f1) p) as SK by (intros p Hp; unfold kind_at; by rewrite Same).
  assert (forall p, kind_at (tree f1) p = Some KDir -> kind_at (tree f2) p = Some KDir) as Dirs by (intros p Hp; rewrite SK; [done|]; intros ->; congruence).
  split_and!; [|done|done|intros p Hp; rewrite SK by done; by apply HO].
  destruct IN as [[[WR WP] WC] C K O]. split; [split; [split|]| | |].
  - by apply Dirs.
  - intros p c Hs. apply Dirs, (WP p c). destruct (decide (p ++ [c] = q)) as [->|Hne]; [by apply kind_at_Some in HK|]. by rewrite <- Same.
  - rewrite EC. by apply Dirs.
  - by rewrite EC.
  - intros p k Hk. rewrite SK; [by apply K|]. intros ->. apply kind_at_None in Hq. congruence.
  - intros p Hp. rewrite Same; [by apply O|]. by intros ->.
Qed.
Lemma placed_after q k f f1 f2 : fs_wf f1 -> attrs_inside D f f1 -> placed D q k f1 f2 -> fs_wf f -> placed D q k f f2.
Proof.
  intros W1 A (IN & Hq & HK & HO) W. split_and!; [eapply inside_trans; [by apply attrs_is_inside|done]| |done|].
  - apply kind_at_None. rewrite <- (ai_kinds _ _ _ A). by apply kind_at_None.
  - intros p Hp. by rewrite HO, (ai_kinds _ _ _ A).
Qed.
Lemma placed_attrs q k f f1 f2 : fs_wf f1 -> placed D q k f f1 -> attrs_inside D f1 f2 -> placed D q k f f2.
Proof.
  intros W1 (IN & Hq & HK & HO) A. split_and!; [eapply inside_trans; [done|by apply attrs_is_inside]|done|by rewrite (ai_kinds _ _ _ A)|].
  intros p Hp. by rewrite (ai_kinds _ _ _ A), HO.
Qed.
Lemma close_attrs f r f' : CloseFile f = (r, f') -> attrs_inside D f f'.
Proof. intros (l & [E|(n & e & -> & ->)])%call_inv; [injection E as _ <-|]; apply faults_attrs. Qed.

Lemma writeRegular_inv rel m f r f' :
  dest_at f -> entry_path rel -> open_way f rel -> writeRegular (under dest rel) m f = (r, f') -> new_entry rel false f f' r.
Proof.
  intros HD HP HO E. pose proof (da_wf _ HD) as W. unfold writeRegular in E. unfold mbind at 1, M_bind at 1 in E.
  destruct (CreateFile (under dest rel) 384 f) as [r1 f1] eqn:E1.
  assert ((attrs_inside D f f1 /\ is_ok r1 = false) \/ (r1 = Ok (D ++ rel) /\ rel <> [] /\ placed D (D ++ rel) (KFile []) f f1)) as H1'.
  { apply call_inv in E1 as (l & [EC|(n & e & -> & ->)]); [|left; by split; [apply faults_attrs|]].
    pose proof (faults_attrs D l f) as A1. pose proof (dest_attrs _ _ HD A1) as HD1. pose proof (open_way_attrs _ _ _ HO A1) as HO1.
    destruct (create_under _ _ _ _ _ _ HD1 HP HO1 EC) as [[-> Hr]|(-> & Hne & PL)]; [left; split; [done|by destruct r1]|].
    right. split_and!; [done|done|]. eapply placed_after; [apply (da_wf _ HD1)|done|done|done]. }
  destruct H1' as [[A1 Hr1]|(-> & Hne & PL)].
  { destruct r1; [done|]. injection E as <- <-. split; [by apply attrs_is_inside|done]. }
  assert (forall d g, placed D (D ++ rel) (KFile d) f g -> fs_wf g) as PW by (intros d g (IN & _); apply IN).
  assert (forall d g r0, placed D (D ++ rel) (KFile d) f g -> new_entry rel false f g r0) as Fin.
  { intros d g r0 P. split; [apply P|]. intros _. eapply placed_settled; [done|done|done|exact P|]. intros _ [tgt Ht]. done. }
  unfold mbind at 1, M_bind at 1, orelse at 1 in E. unfold mbind at 1, M_bind at 1 in E.
  destruct (WriteData (D ++ rel) (m_body m) f1) as [r2 f2] eqn:E2.
  assert (exists d, placed D (D ++ rel) (KFile d) f f2) as [d P2].
  { assert (forall l, placed D (D ++ rel) (KFile []) f (set_fs_faults l f1)) as PF by (intros l; eapply placed_attrs; [by eapply PW|done|apply faults_attrs]).
    apply call_inv in E2 as (l & [EW|(n & e & -> & ->)]).
    - injection EW as _ <-. exists (m_body m). by eapply (append_placed _ []); [done|by apply prefix_app_r|apply (PF l)|..].
    - exists (take n (m_body m)). by eapply (append_placed _ []); [done|by apply prefix_app_r|apply (PF l)|..]. }
  assert (forall e g r0 g', placed D (D ++ rel) (KFile d) f g ->
    (_ ← orelse CloseFile (fun _ => mret tt); @fail FS unit e) g = (r0, g') -> r0 = Err e /\ placed D (D ++ rel) (KFile d) f g') as Abandon.
  { intros e g r0 g' Pg. unfold mbind, M_bind, orelse. destruct (CloseFile g) as [r3 g3] eqn:E3. apply close_attrs in E3.
    destruct r3; intros [= <- <-]; (split; [done|]); by eapply placed_attrs; [eapply PW| |]. }
  assert (forall e, (match (_ ← orelse CloseFile (fun _ => mret tt); @fail FS unit e) f2 with (Ok _, f) => CloseFile f | (Err e, f) => (Err e, f) end) = (r, f') -> new_entry rel false f f' r) as Bad.
  { intros e E3. destruct ((_ ← orelse CloseFile (fun _ => mret tt); @fail FS unit e) f2) as [r3 f3] eqn:E4.
    destruct (Abandon _ _ _ _ P2 E4) as [-> P3]. injection E3 as <- <-. by eapply Fin. }
  destruct r2 as [[]|e2]; [|by apply (Bad e2)]. destruct (m_err m) as [e|]; [by apply (Bad e)|]. cbn [mret M_ret] in E.
  apply close_attrs in E. eapply Fin. eapply placed_attrs; [by eapply PW|exact P2|done].
Qed.

(** ** One member, and the archive *)

(** A directory whose metadata is still to be applied. *)
Definition dir_due (f : FS) (h : Header) : Prop :=
  exists rel, entry_path rel /\ safeJoin dest (h_Name h) = Ok (under dest rel) /\ kind_at (tree f) (D ++ rel) = Some KDir.
Lemma dir_due_inside f f' h : inside D f f' -> dir_due f h -> dir_due f' h.
Proof. intros IN (rel & ? & ? & ?). exists rel. split_and!; [done..|]. by apply (in_kinds _ _ _ IN). Qed.
Lemma dir_settled f rel : dest_at f -> kind_at (tree f) (D ++ rel) = Some KDir -> settled rel false f.
Proof.
  intros HD HK. split; [done| |intros _ [tgt Ht]; congruence]. intros i Hi. right.
  apply (wf_above _ _ (drop i rel)); [apply HD| |intros E; apply (f_equal length) in E; rewrite length_drop in E; cbn in E; lia].
  rewrite <- app_assoc, take_drop. by apply kind_at_Some in HK.
Qed.

Lemma now_inv rel h b (make : M FS unit) f r f' :
  entry_path rel -> (forall r1 f1, make f = (r1, f1) -> new_entry rel b f f1 r1) ->
  (_ ← make; _ ← applyMeta (under dest rel) h b; mret false) f = (r, f') -> inside D f f' /\ r <> Ok true.
Proof.
  intros HP HM. unfold mbind at 1, M_bind at 1. destruct (make f) as [r1 f1] eqn:E1. destruct (HM _ _ eq_refl) as [IN1 HS].
  destruct r1 as [[]|e]; [|by intros [= <- <-]]. unfold mbind at 1, M_bind at 1. destruct (applyMeta _ _ _ f1) as [r2 f2] eqn:E2.
  pose proof (applyMeta_inv _ _ _ _ _ _ HP (HS eq_refl) E2) as A2.
  assert (inside D f f2) as IN2 by (eapply inside_trans; [done|]; apply attrs_is_inside; [apply IN1|done]).
  by destruct r2; intros [= <- <-].
Qed.

Lemma extract_member_inv m f r f' : dest_at f -> extract_member dest m f = (r, f') ->
  inside D f f' /\ (r = Ok true -> dir_due f' (m_hdr m)).
Proof.
  intros HD E. unfold extract_member in E. unfold mbind at 1, M_bind at 1, lift at 1 in E.
  destruct (safeJoin dest (h_Name (m_hdr m))) as [t|e] eqn:EJ; [|injection E as <- <-; split; [apply inside_refl, HD|done]].
  destruct (safeJoin_spec _ _ _ (da_name _ HD) EJ) as (rel & HP & -> & HC). unfold mbind at 1, M_bind at 1 in E.
  destruct (rejectSymlinkComponents dest (under dest rel) f) as [r1 f1] eqn:ER.
  destruct (reject_inv _ _ _ _ _ (da_name _ HD) HC HP ER) as ((l & ->) & HL).
  pose proof (faults_attrs D l f) as A1. pose proof (dest_attrs _ _ HD A1) as HD1. pose proof (attrs_is_inside _ _ _ (da_wf _ HD) A1) as IN1.
  destruct r1 as [[]|e]; [|injection E as <- <-; by split].
  assert (open_way (set_fs_faults l f) rel) as HO by (eapply (open_way_attrs f); [apply looked_open; [done|done|exact (HL eq_refl)]|exact A1]).
  set (f1 := set_fs_faults l f) in *. cbv zeta in E.
  assert (forall r f', inside D f1 f' /\ r <> Ok true -> inside D f f' /\ (r = Ok true -> dir_due f' (m_hdr m))) as Plain.
  { intros r0 f0 [IN0 Hr]. split; [by eapply inside_trans|done]. }
  assert (forall k b, (b = false -> ~ is_link (Some k)) -> forall mode r1 f2, call (_ ← create k mode (under dest rel); mret tt) intact_ f1 = (r1, f2) -> new_entry rel b f1 f2 r1) as Make.
  { intros k b Hb mode r1 f2. by apply make_inv. }
  case_bool_decide.
  { unfold mbind, M_bind in E. destruct (MkdirAll (under dest rel) 448 f1) as [r2 f2] eqn:EM.
    assert (on_way (under dest rel) rel) as HW.
    { split; [|by rewrite under_split by apply HP]. unfold under. destruct rel; [apply HD|]. by destruct dest. }
    destruct (mkdirall_inv _ _ _ _ _ _ _ HD1 HP HO HW EM) as ([IN2 _] & _ & HK).
    destruct r2 as [[]|e]; injection E as <- <-; (split; [by eapply inside_trans|]); [|done].
    intros _. exists rel. split_and!; [done..|]. apply HK; [done|]. by apply under_split, HP. }
  case_bool_decide; [apply Plain; eapply now_inv; [done| |exact E]; intros r2 f2; by apply writeRegular_inv|].
  case_bool_decide.
  { apply Plain. eapply now_inv; [done| |exact E]. intros r2 f2 E2. unfold Symlink in E2. destruct (h_Linkname (m_hdr m)) as [|c lk]; [|by eapply (Make (KLink (c :: lk)) true)].
    apply call_inv in E2 as (l2 & [E2|(n & e & -> & ->)]); [injection E2 as <- <-|]; (split; [|done]); apply attrs_is_inside; try apply HD1; apply faults_attrs. }
  case_bool_decide; [apply Plain; eapply now_inv; [done| |exact E]; intros r2 f2; apply (Make KFifo false); intros _ [? ?]; done|].
  case_bool_decide; [|injection E as <- <-; by split].
  unfold mbind at 1, M_bind at 1, orelse at 1 in E. unfold mbind at 1, M_bind at 1 in E. unfold Mknod in E. destruct (call _ intact_ f1) as [r2 f2] eqn:EK.
  apply (Make _ false) in EK as [IN2 HS]; [|intros _ [? ?]; done]. destruct r2 as [[]|e].
  - cbn [mret M_ret] in E. assert (inside D f f2) as IN by (by eapply inside_trans).
    destruct (now_inv rel (m_hdr m) false (mret tt) f2 r f' HP) as [IN3 Hr]; [|exact E|split; [by eapply inside_trans|done]].
    intros r3 f3 [= <- <-]. split; [apply inside_refl, IN2|done].
  - assert (r <> Ok true /\ f' = f2) as [Hr ->] by (destruct (isPrivilegeError e); by injection E as <- <-). apply Plain. done.
Qed.

Lemma extract_loop_inv ms dirs f r f' : dest_at f -> Forall (dir_due f) dirs -> extract_loop dest ms dirs f = (r, f') ->
  inside D f f' /\ forall ds, r = Ok ds -> Forall (dir_due f') ds.
Proof.
  revert dirs f. induction ms as [|[m|e] ms IH]; intros dirs f HD HF E; cbn [extract_loop] in E.
  - injection E as <- <-. split; [apply inside_refl, HD|]. by intros ds [= <-].
  - unfold mbind, M_bind in E. destruct (extract_member dest m f) as [r1 f1] eqn:E1.
    destruct (extract_member_inv _ _ _ _ HD E1) as [IN1 HK]. destruct r1 as [b|e]; [|injection E as <- <-; by split].
    assert (Forall (dir_due f1) dirs) as HF1 by (eapply list.Forall_impl; [exact HF|]; intros h; by apply dir_due_inside).
    assert (Forall (dir_due f1) (if b then dirs ++ [m_hdr m] else dirs)) as HFb.
    { destruct b; [|done]. apply Forall_app. split; [done|]. constructor; [by apply HK|constructor]. }
    destruct (IH _ _ (dest_inside _ _ HD IN1) HFb E) as [IN2 HF2].
    split; [by eapply inside_trans|done].
  - injection E as <- <-. split; [apply inside_refl, HD|done].
Qed.

Lemma final_inv dirs f r f' : dest_at f -> Forall (dir_due f) dirs ->
  each (fun h => target ← lift (safeJoin dest (h_Name h)); applyMeta target h false) dirs f = (r, f') -> attrs_inside D f f'.
Proof.
  revert f r f'. induction dirs as [|h dirs IH]; intros f r f' HD HF E; cbn [each] in E; [by eapply attrs_pure|].
  apply Forall_cons_1 in HF as [(rel & HP & EJ & HK) HF]. eapply attrs_bind; [exact E| |].
  - intros r1 f1. rewrite EJ. unfold mbind, M_bind, lift. apply applyMeta_inv; [done|]. by apply dir_settled.
  - intros [] f1 A1 r2 f2. apply IH; [by eapply dest_attrs|]. eapply list.Forall_impl; [exact HF|]. intros h'. apply dir_due_inside.
    apply attrs_is_inside; [apply HD|done].
Qed.

Lemma Extract_inside ms f r f' : dest_at f -> Extract ms dest f = (r, f') -> inside D f f'.
Proof.
  intros HD E. unfold Extract in E. unfold mbind at 1, M_bind at 1 in E. destruct (MkdirAll dest 493 f) as [r1 f1] eqn:E1.
  assert (inside D f f1) as IN1.
  { assert (open_way f []) as HO by (intros i Hi; cbn in Hi; lia).
    destruct (mkdirall_inv _ [] _ _ _ _ _ HD ltac:(by split) HO ltac:(split; [apply HD|by rewrite app_nil_r]) E1) as ([? _] & _). done. }
  destruct r1 as [[]|e]; [|by injection E as <- <-]. pose proof (dest_inside _ _ HD IN1) as HD1.
  unfold mbind at 1, M_bind at 1 in E. destruct (extract_loop dest ms [] f1) as [r2 f2] eqn:E2.
  destruct (extract_loop_inv _ _ _ _ _ HD1 ltac:(constructor) E2) as [IN2 HF]. destruct r2 as [ds|e]; [|injection E as <- <-; by eapply inside_trans].
  apply final_inv in E; [|by eapply dest_inside|by apply HF]. eapply inside_trans; [exact IN1|]. eapply inside_trans; [exact IN2|].
  apply attrs_is_inside; [apply IN2|done].
Qed.
End Contained.

(** C8. Extraction stays inside: whatever the archive holds - absolute names, dots, links made
    by earlier members that point anywhere, repeated names - whatever the destination already
    holds and whichever system calls fail, [Extract] into a directory changes nothing outside
    that directory, and inside it nothing that was there is removed, replaced or rewritten:
    only attributes may change. *)
Theorem extract_contained ms dest D f r f' :
  fs_wf f -> dest <> [] -> lookup_path false dest f = Ok D -> kind_at (tree f) D = Some KDir ->
  Extract ms dest f = (r, f') ->
  (forall p, ~ D `prefix_of` p -> tree f' !! p = tree f !! p) /\
  (forall p k, kind_at (tree f) p = Some k -> kind_at (tree f') p = Some k).
Proof.
  intros W HN HL HK E. destruct (Extract_inside dest D ms f r f') as [_ _ K O]; [by split|done|]. by split.
Qed.

(** An archive that plants a link to [/etc] and then writes through it. *)
Definition plain_attrs : attrs := MkAttrs 493 0 0 0 ∅.
Definition c_out : bytes := [x6f; x75; x74].
Definition c_etc : bytes := [x65; x74; x63].
Definition c_a : bytes := [x61].
Definition c_p : bytes := [x70].
Definition sample_fs (faults : list (option (nat * error))) : FS :=
  MkFS (list_to_map [([], MkNode KDir plain_attrs); ([c_out], MkNode KDir plain_attrs); ([c_etc], MkNode KDir plain_attrs);
                     ([c_etc; c_p], MkNode (KFile [x31]) plain_attrs)]) [] 1000 1000 18 7 faults.
Definition hdr (name : bytes) (flag : byte) (link : bytes) : Header := MkHeader name flag 420 0 0 0 5 link 0 0 [].
Definition planted : list (res Member) :=
  [Ok (MkMember (hdr c_a TypeSymlink (slash :: c_etc)) [] None);
   Ok (MkMember (hdr (c_a ++ slash :: c_p) TypeReg []) [x32] None)].
Lemma sample_wf faults : fs_wf (sample_fs faults).
Proof.
  split; [split|]; [reflexivity| |reflexivity]. intros p c [n Hn].
  apply elem_of_list_to_map_2 in Hn. unfold kind_at. change (tree (sample_fs faults)) with (tree (sample_fs [])) in *.
  repeat (apply elem_of_cons in Hn as [[= E En]|Hn]); [| | | |by apply elem_of_nil in Hn].
  - by destruct p.
  - destruct p as [|? [|]]; [reflexivity|done|done].
  - destruct p as [|? [|]]; [reflexivity|done|done].
  - destruct p as [|? [|? [|]]]; try done. injection E as -> ->. reflexivity.
Qed.
Lemma extract_contained_witness :
  exists f', Extract planted (slash :: c_out) (sample_fs []) = (Err [EMsg "refusing to extract through non-directory"], f') /\
    kind_at (tree f') [c_out; c_a] = Some (KLink (slash :: c_etc)) /\ tree f' !! [c_etc; c_p] = Some (MkNode (KFile [x31]) plain_attrs).
Proof.
  destruct (Extract planted (slash :: c_out) (sample_fs [])) as [r f'] eqn:E. exists f'.
  assert (fst (Extract planted (slash :: c_out) (sample_fs [])) = Err [EMsg "refusing to extract through non-directory"]) as Er by (vm_compute; reflexivity).
  assert (kind_at (tree (snd (Extract planted (slash :: c_out) (sample_fs [])))) [c_out; c_a] = Some (KLink (slash :: c_etc))) as Ek by (vm_compute; reflexivity).
  rewrite E in Er, Ek. cbn [fst snd] in Er, Ek. subst r. split; [reflexivity|]. split; [exact Ek|].
  destruct (extract_contained planted (slash :: c_out) [c_out] (sample_fs []) _ f' (sample_wf []) ltac:(discriminate) ltac:(vm_compute; reflexivity) ltac:(vm_compute; reflexivity) E) as [O _].
  rewrite O; [reflexivity|]. intros [k Hk]. discriminate Hk.
Defined.
