(* ===== verification/Restore.v ===== *)
(** What extraction makes of an archive when nothing fails (src/tarextract/tarextract.go): an
    archive that lists directories before what they hold, extracted into an empty directory,
    becomes exactly its nodes, each with its content and metadata. *)
From S2P Require Import Prelude External Readers Tar Filepath Hostfs TarExtract.

(** * Resolution arrives *)

Lemma resolve_arrive t l follow D rel :
  Forall plain_name rel -> (forall i, (0 < i < length rel)%nat -> kind_at t (D ++ take i rel) = Some KDir) ->
  (follow = true -> ~ is_link (kind_at t (D ++ rel))) -> resolve (S l) t follow D rel = Ok (D ++ rel).
Proof.
  intros HF. cbn [resolve]. revert D. induction rel as [|c rel IH]; intros D HC HL; [by rewrite app_nil_r|].
  apply Forall_cons_1 in HF as [Hc HF]. destruct (skip_plain _ Hc) as [E1 E2]. cbn [walk]. rewrite E1, E2. fold (kind_at t (D ++ [c])).
  destruct (decide (rel = [])) as [->|Hne].
  - destruct (kind_at t (D ++ [c])) as [[]|] eqn:Ek; try done. destruct follow; [|done]. destruct (HL eq_refl). by eexists.
  - assert (kind_at t (D ++ [c]) = Some KDir) as -> by (apply (HC 1%nat); destruct rel; [done|cbn; lia]).
    replace (D ++ c :: rel) with ((D ++ [c]) ++ rel) in HL |- * by (by rewrite <- app_assoc).
    apply IH; [done| |done]. intros i Hi. rewrite <- app_assoc. apply (HC (S i)). cbn. lia.
Qed.

Lemma alter_insert {A} (g : A -> A) (q : path) (t : gmap path A) n : t !! q = Some n -> alter g q t = <[q:=g n]> t.
Proof.
  intros E. apply map_eq. intros p. destruct (decide (q = p)) as [<-|Hne]; [by rewrite lookup_alter_eq, lookup_insert_eq, E|].
  by rewrite lookup_alter_ne, lookup_insert_ne.
Qed.

Section Restore.
Context (dest : bytes) (D : path).

(** The way to [rel] is made of directories. *)
Definition way_dirs (f : FS) (rel : path) : Prop := forall i, (0 < i < length rel)%nat -> kind_at (tree f) (D ++ take i rel) = Some KDir.

Lemma lookup_arrive follow f rel :
  dest_at dest D f -> entry_path rel -> way_dirs f rel -> (follow = true -> ~ is_link (kind_at (tree f) (D ++ rel))) ->
  lookup_path follow (under dest rel) f = Ok (D ++ rel).
Proof.
  intros HD [HP HS] HW HL. pose proof (da_name _ _ _ HD) as HN.
  assert (resolve (S MAXSYMLINKS) (tree f) false (start f dest) (SplitSlash dest) = Ok D) as EL
    by (pose proof (da_lookup _ _ _ HD) as EL; unfold lookup_path in EL; by destruct dest).
  pose proof (resolve_follow _ _ _ _ _ (da_dir _ _ _ HD) EL) as EL'.
  assert (lookup_path follow (under dest rel) f = resolve (S MAXSYMLINKS) (tree f) follow (start f dest) (SplitSlash dest ++ rel)) as ->.
  { rewrite <- under_split by done. unfold lookup_path, start. rewrite under_rooted by done.
    destruct (under dest rel) eqn:Eu; [|done]. exfalso. unfold under in Eu. destruct rel; [done|by destruct dest]. }
  destruct (decide (rel = [])) as [->|Hne]; [rewrite !app_nil_r; destruct follow; [exact EL'|exact EL]|].
  destruct (resolve_app _ _ follow _ _ rel _ (da_dir _ _ _ HD) EL' Hne) as (l' & Ea). rewrite Ea. clear Ea EL EL'. apply resolve_arrive; [exact HP|exact HW|exact HL].
Qed.

(** ** One node's attributes *)

Definition put_attrs (rel : path) (k : kind) (a : attrs) (f : FS) : FS := set_tree (<[D ++ rel := MkNode k a]> (tree f)) f.
Record at_node (rel : path) (k : kind) (a : attrs) (f : FS) : Prop := {
    an_dest : dest_at dest D f;
    an_entry : entry_path rel;
    an_way : way_dirs f rel;
    an_calm : fs_faults f = [];
    an_here : tree f !! (D ++ rel) = Some (MkNode k a)
  }.
Lemma put_kinds rel k a a' f p : tree f !! (D ++ rel) = Some (MkNode k a) -> kind_at (tree (put_attrs rel k a' f)) p = kind_at (tree f) p.
Proof.
  intros E. unfold kind_at, put_attrs. cbn [tree set_tree]. destruct (decide (D ++ rel = p)) as [<-|Hne]; [by rewrite lookup_insert_eq, E|by rewrite lookup_insert_ne].
Qed.
Lemma put_inside rel k a a' f : tree f !! (D ++ rel) = Some (MkNode k a) -> attrs_inside D f (put_attrs rel k a' f).
Proof.
  intros E. split; [done|intros p; by eapply put_kinds|]. intros p Hp. apply lookup_insert_ne. intros <-. apply Hp. by apply prefix_app_r.
Qed.
Lemma at_node_put rel k a a' f : at_node rel k a f -> at_node rel k a' (put_attrs rel k a' f).
Proof.
  intros [HD HE HW HC HH]. split; [|done| |done|apply lookup_insert_eq].
  - eapply dest_attrs; [done|by eapply put_inside].
  - intros i Hi. erewrite put_kinds by done. by apply HW.
Qed.
Lemma put_put rel k a a' f : put_attrs rel k a' (put_attrs rel k a f) = put_attrs rel k a' f.
Proof. unfold put_attrs, set_tree. cbn. by rewrite insert_insert_eq. Qed.
Lemma put_same rel k a f : tree f !! (D ++ rel) = Some (MkNode k a) -> put_attrs rel k a f = f.
Proof. intros E. unfold put_attrs, set_tree. rewrite insert_id by done. by destruct f. Qed.

Lemma call_calm {A} (run : M FS A) torn f : fs_faults f = [] -> call run torn f = run f.
Proof. unfold call. by intros ->. Qed.
Lemma at_path_run follow rel k a f : at_node rel k a f -> (follow = true -> ~ is_link (Some k)) ->
  at_path follow (under dest rel) f = (Ok (D ++ rel, MkNode k a), f).
Proof.
  intros HN HL. unfold at_path. rewrite lookup_arrive; [|apply HN..|].
  - cbn [mbind res_bind]. by rewrite (an_here _ _ _ _ HN).
  - unfold kind_at. rewrite (an_here _ _ _ _ HN). done.
Qed.
Lemma on_attrs_run follow g rel k a f : at_node rel k a f -> (follow = true -> ~ is_link (Some k)) ->
  on_attrs follow (under dest rel) g f = (Ok tt, put_attrs rel k (g (MkNode k a) a) f).
Proof.
  intros HN HL. unfold on_attrs. rewrite call_calm by apply HN. rewrite (M_step _ _ _ _ _ (at_path_run _ _ _ _ _ HN HL)).
  unfold alter_node, modify, put_attrs. by rewrite (alter_insert _ _ _ _ (an_here _ _ _ _ HN)).
Qed.

(** ** Metadata *)

(** The attributes that [applyMeta] leaves, from those the node has. *)
Definition xattrs_step (m : gmap bytes bytes) (kv : bytes * bytes) : gmap bytes bytes :=
  if HasPrefix kv.1 xattrPrefix then <[TrimPrefix kv.1 xattrPrefix := kv.2]> m else m.
Definition xattrs_of (kvs : list (bytes * bytes)) (m : gmap bytes bytes) : gmap bytes bytes := fold_left xattrs_step kvs m.
Definition final_attrs (uid0 : bool) (h : Header) (link : bool) (a : attrs) : attrs :=
  MkAttrs (if link then at_mode a else Z.land (h_Mode h) 4095)
    (if uid0 then h_Uid h else at_uid a) (if uid0 then h_Gid h else at_gid a) (h_ModTime h)
    (if link then at_xattrs a else xattrs_of (h_PAXRecords h) (at_xattrs a)).
Definition is_KLink (k : kind) : bool := match k with KLink _ => true | _ => false end.

Lemma setXattrs_run rel k a kvs f : at_node rel k a f ->
  each (setXattr (under dest rel)) kvs f =
    (Ok tt, put_attrs rel k (MkAttrs (at_mode a) (at_uid a) (at_gid a) (at_mtime a) (xattrs_of kvs (at_xattrs a))) f).
Proof.
  revert a f. induction kvs as [|kv kvs IH]; intros a f HN; cbn [each].
  { cbn. rewrite put_same; [done|]. rewrite (an_here _ _ _ _ HN). by destruct a. }
  assert (setXattr (under dest rel) kv f =
    (Ok tt, put_attrs rel k (MkAttrs (at_mode a) (at_uid a) (at_gid a) (at_mtime a) (xattrs_step (at_xattrs a) kv)) f)) as E.
  { unfold setXattr, xattrs_step. destruct (HasPrefix kv.1 xattrPrefix); cbn [negb].
    - unfold orelse, Lsetxattr. by rewrite (on_attrs_run _ _ _ _ _ _ HN).
    - rewrite put_same; [done|]. rewrite (an_here _ _ _ _ HN). by destruct a. }
  rewrite (M_step _ _ _ _ _ E), (IH _ _ (at_node_put _ _ _ _ _ HN)). cbn. by rewrite put_put.
Qed.
Lemma applyMeta_run rel k a h f : at_node rel k a f ->
  applyMeta (under dest rel) h (is_KLink k) f = (Ok tt, put_attrs rel k (final_attrs (euid f =? 0) h (is_KLink k) a) f).
Proof.
  intros HN. unfold applyMeta. rewrite M_gets.
  assert (exists a1, (if euid f =? 0 then Lchown (under dest rel) (h_Uid h) (h_Gid h) else mret tt) f = (Ok tt, put_attrs rel k a1 f) /\
    at_uid a1 = (if euid f =? 0 then h_Uid h else at_uid a) /\ at_gid a1 = (if euid f =? 0 then h_Gid h else at_gid a) /\
    at_xattrs a1 = at_xattrs a /\ (is_KLink k = true -> at_mode a1 = at_mode a)) as (a1 & E1 & Hu & Hg & Hx & Hm).
  { destruct (euid f =? 0).
    - unfold Lchown. rewrite (on_attrs_run _ _ _ _ _ _ HN) by done. eexists. split; [done|]. cbn. split_and!; [done..|]. by destruct k.
    - exists a. rewrite put_same by apply HN. done. }
  rewrite (M_step _ _ _ _ _ E1). pose proof (at_node_put _ _ _ a1 _ HN) as HN1. unfold setMtime, UtimesNano, final_attrs.
  destruct (is_KLink k) eqn:Ek.
  - rewrite (M_step (mret tt) _ _ tt _ eq_refl). cbn [negb]. rewrite (on_attrs_run _ _ _ _ _ _ HN1) by done.
    cbn. by rewrite put_put, Hu, Hg, Hx, (Hm eq_refl).
  - assert (forall b, b = true -> ~ is_link (Some k)) as NL by (intros b _ [tgt [= ->]]; done).
    assert (forall m s, (_ ← Chmod (under dest rel) m; each (setXattr (under dest rel)) s) (put_attrs rel k a1 f) =
      (Ok tt, put_attrs rel k (MkAttrs m (at_uid a1) (at_gid a1) (at_mtime a1) (xattrs_of s (at_xattrs a1))) f)) as E2.
    { intros m s. unfold Chmod. rewrite (M_step _ _ _ _ _ (on_attrs_run _ _ _ _ _ _ HN1 (NL _))). rewrite (setXattrs_run _ _ _ _ _ (at_node_put _ _ _ _ _ HN1)). cbn. by rewrite !put_put. }
    rewrite (M_step _ _ _ _ _ (E2 _ _)). cbn [negb].
    rewrite (on_attrs_run _ _ _ _ _ _ (at_node_put _ _ _ _ _ HN) (NL _)). cbn. by rewrite put_put, Hu, Hg, Hx.
Qed.

(** ** A new node *)

(** Where the next entry goes: the way is made of directories and nothing is there yet. *)
Record ready (rel : path) (f : FS) : Prop := {
    re_dest : dest_at dest D f;
    re_entry : entry_path rel;
    re_below : rel <> [];
    re_way : way_dirs f rel;
    re_free : tree f !! (D ++ rel) = None;
    re_calm : fs_faults f = []
  }.
Lemma removelast_below (rel : path) : rel <> [] -> removelast (D ++ rel) = D ++ removelast rel.
Proof. intros Hne. by apply removelast_app. Qed.
Lemma way_take f rel i : way_dirs f rel -> way_dirs f (take i rel).
Proof. intros HW j Hj. rewrite length_take in Hj. rewrite take_take, Nat.min_l by lia. apply HW. lia. Qed.
Lemma way_parent f rel c : dest_at dest D f -> way_dirs f (rel ++ [c]) -> kind_at (tree f) (D ++ rel) = Some KDir.
Proof.
  intros HD HW. destruct (decide (rel = [])) as [->|Hne]; [rewrite app_nil_r; apply HD|].
  specialize (HW (length rel)). rewrite take_app_length, length_app in HW. apply HW. cbn. destruct rel; [done|cbn; lia].
Qed.
Lemma way_init f rel c : way_dirs f (rel ++ [c]) -> way_dirs f rel.
Proof. intros HW i Hi. specialize (HW i). rewrite take_app_le, length_app in HW by lia. apply HW. cbn. lia. Qed.
Lemma entry_init rel c : entry_path (rel ++ [c]) -> entry_path rel.
Proof. intros [[? _]%Forall_app [? _]%Forall_app]. done. Qed.

Definition retime (m : Z) (a : attrs) : attrs := MkAttrs (at_mode a) (at_uid a) (at_gid a) m (at_xattrs a).
(** [f'] has the node [n] at [q] as well, and at most the times of directories differ. *)
Record grown (q : path) (n : node) (f f' : FS) : Prop := {
    gr_inside : inside D f f';
    gr_ids : euid f' = euid f /\ egid f' = egid f;
    gr_here : tree f' !! q = Some n;
    gr_else : forall p, p <> q -> tree f' !! p = tree f !! p \/
    exists n0 m, tree f !! p = Some n0 /\ n_kind n0 = KDir /\ tree f' !! p = Some (set_attrs (retime m) n0)
  }.
(** The attributes of a node just made. *)
Definition fresh_attrs (f : FS) (a : attrs) : Prop := at_uid a = euid f /\ at_gid a = egid f /\ at_xattrs a = ∅.

Lemma grown_put rel k k' a a' f f1 f2 :
  dest_at dest D f -> at_node rel k a f1 -> is_KDir k = is_KDir k' -> tree f !! (D ++ rel) = None -> grown (D ++ rel) (MkNode k a) f f1 ->
  f2 = set_tree (<[D ++ rel := MkNode k' a']> (tree f1)) f1 -> at_node rel k' a' f2 /\ grown (D ++ rel) (MkNode k' a') f f2.
Proof.
  intros HD0 [HD HE HW HC HH] Hk Hfree [[W C K O] I _ EL] ->.
  assert (forall p, p <> D ++ rel -> (<[D ++ rel := MkNode k' a']> (tree f1)) !! p = tree f1 !! p) as Same by (intros p Hp; by apply lookup_insert_ne).
  assert (forall p, kind_at (tree f1) p = Some KDir -> kind_at (<[D ++ rel := MkNode k' a']> (tree f1)) p = Some KDir) as Dirs.
  { intros p. unfold kind_at. destruct (decide (D ++ rel = p)) as [<-|Hne]; [rewrite lookup_insert_eq, HH; cbn|by rewrite lookup_insert_ne].
    intros [= ->]. by destruct k'. }
  assert (inside D f (set_tree (<[D ++ rel := MkNode k' a']> (tree f1)) f1)) as IN.
  { split; cbn [tree set_tree cwd]; [|done| |].
    - split; [split|]; cbn [tree set_tree cwd]; [by apply Dirs; apply W| |apply Dirs, W].
      intros p c Hs. apply Dirs. apply (tw_parent _ (fw_tree _ W) p c).
      destruct (decide (p ++ [c] = D ++ rel)) as [->|Hne]; [by rewrite HH|by rewrite Same in Hs].
    - intros p k0 Hp. unfold kind_at. destruct (decide (p = D ++ rel)) as [->|Hne]; [apply kind_at_None in Hfree; congruence|].
      rewrite Same by done. by apply K.
    - intros p Hp. rewrite Same; [by apply O|]. intros ->. apply Hp. by apply prefix_app_r. }
  split.
  - split; [exact (dest_inside _ _ _ _ HD0 IN)|done| |done|apply lookup_insert_eq]. intros i Hi. apply Dirs, HW, Hi.
  - split; [exact IN|done|apply lookup_insert_eq|]. intros p Hp. cbn [tree set_tree]. rewrite Same by done. by apply EL.
Qed.

Definition made (rel : path) (k : kind) (a : attrs) (f : FS) : FS :=
  set_tree (<[D ++ rel := MkNode k a]> (alter (set_attrs (retime (clock f))) (removelast (D ++ rel)) (tree f))) f.
Lemma create_run rel k mode f : ready rel f -> exists a, fresh_attrs f a /\ create k mode (under dest rel) f = (Ok (D ++ rel), made rel k a f) /\
  at_node rel k a (made rel k a f) /\ grown (D ++ rel) (MkNode k a) f (made rel k a f).
Proof.
  intros [HD HE HN HW HF HC]. eexists (MkAttrs _ _ _ _ _). split; [|split].
  2: { unfold create. rewrite lookup_arrive by done. by rewrite HF. }
  { by cbn. }
  set (a := MkAttrs _ _ _ _ _).
  assert (create k mode (under dest rel) f = (Ok (D ++ rel), made rel k a f)) as E by (unfold create; rewrite lookup_arrive by done; by rewrite HF).
  assert (open_way D f rel) as HO.
  { intros i Hi. destruct (decide (i = length rel)) as [->|Hne]; [left; rewrite take_ge by lia; by apply kind_at_None|right; apply HW; lia]. }
  destruct (create_under _ _ _ _ _ _ _ _ HD HE HO E) as [[_ Hr]|(_ & _ & (IN & _ & _ & HK))]; [by destruct Hr|].
  split; [split|split]; try done.
  - by eapply dest_inside.
  - intros i Hi. rewrite HK; [by apply HW|]. intros E0%app_inv_head. apply (f_equal length) in E0. rewrite length_take in E0. lia.
  - apply lookup_insert_eq.
  - apply lookup_insert_eq.
  - intros p Hp. cbn [made tree set_tree]. rewrite lookup_insert_ne by done. destruct (decide (removelast (D ++ rel) = p)) as [<-|Hne]; [|left; by apply lookup_alter_ne].
    right. rewrite removelast_below by done. destruct (exists_last HN) as (rel0 & c & ->). rewrite removelast_last. pose proof (way_parent _ _ _ HD HW) as HP.
    unfold kind_at in HP. destruct (tree f !! (D ++ rel0)) as [n0|] eqn:E0; [|done]. exists n0, (clock f). cbn in HP. injection HP as HP. rewrite lookup_alter_eq, E0. done.
Qed.
(** ** The checks on the way pass *)

Context (HC : clean_dest dest).
Lemma look_run rel f : dest_at dest D f -> entry_path rel -> way_dirs f rel -> fs_faults f = [] ->
  Lstat (under dest rel) f = (match tree f !! (D ++ rel) with Some n => Ok n | None => Err [ErrNotExist] end, f).
Proof.
  intros HD HE HW HCl. unfold Lstat. rewrite call_calm by done. unfold mbind, M_bind, at_path. rewrite lookup_arrive by done.
  cbn [mbind res_bind]. by destruct (tree f !! (D ++ rel)).
Qed.
Lemma reject_run fuel rel f : dest_at dest D f -> entry_path rel -> way_dirs f rel -> fs_faults f = [] ->
  (kind_at (tree f) (D ++ rel) = None \/ kind_at (tree f) (D ++ rel) = Some KDir) -> (length rel <= fuel)%nat ->
  reject_loop fuel dest (under dest rel) f = (Ok tt, f).
Proof.
  intros HD HE HW HCl. revert fuel HE HW. induction rel as [|c rel IH] using rev_ind; intros fuel HE HW HK Hf.
  - destruct fuel; cbn [reject_loop]; (destruct (HasPrefix (under dest []) (dest ++ [slash])) eqn:EH; [|done]); by apply under_prefix in EH.
  - rewrite length_app in Hf. cbn in Hf. destruct fuel as [|fuel]; [lia|]. cbn [reject_loop].
    destruct (HasPrefix (under dest (rel ++ [c])) (dest ++ [slash])) eqn:EH; cbn [negb]; [|done].
    rewrite Dir_under by (done || apply (da_name _ _ _ HD)).
    assert (reject_loop fuel dest (under dest rel) f = (Ok tt, f)) as ER.
    { apply IH; [by eapply entry_init|by eapply way_init| |lia]. right. by eapply way_parent. }
    unfold mbind at 1, M_bind at 1, orelse at 1. unfold mbind at 1, M_bind at 1. rewrite look_run by done.
    unfold kind_at in HK. destruct (tree f !! (D ++ rel ++ [c])) as [n|].
    + cbn in HK. destruct HK as [|[= HK]]; [done|]. cbn [mret M_ret]. rewrite HK. cbn [is_KDir negb]. exact ER.
    + rewrite bool_decide_eq_true_2 by (by apply list_elem_of_singleton). cbn [mret M_ret]. exact ER.
Qed.

Lemma up_under rel c : dest <> [] -> entry_path (rel ++ [c]) -> up_to_slash (under dest (rel ++ [c])) = Some (under dest rel).
Proof.
  intros HN [HP HS]. pose proof (split_nonempty dest) as HSN. unfold up_to_slash. rewrite under_split, app_assoc, removelast_last by done.
  destruct (SplitSlash dest ++ rel) as [|x xs] eqn:E; [by destruct (SplitSlash dest)|]. rewrite <- E. clear x xs E. f_equal.
  destruct rel as [|c0 rel]; [by rewrite app_nil_r, join_split|]. by rewrite join_app, join_split.
Qed.
Lemma under_nonempty rel : dest <> [] -> under dest rel <> [].
Proof. intros Hd. unfold under. destruct rel; [done|]. by destruct dest. Qed.
Lemma stat_dir rel f : dest_at dest D f -> entry_path rel -> way_dirs f rel -> fs_faults f = [] -> kind_at (tree f) (D ++ rel) = Some KDir ->
  exists n, is_KDir (n_kind n) = true /\ Stat (under dest rel) f = (Ok n, f).
Proof.
  intros HD HE HW HCl HK. unfold kind_at in HK. destruct (tree f !! (D ++ rel)) as [n|] eqn:En; [|done]. cbn in HK. injection HK as HK.
  exists n. split; [by rewrite HK|]. unfold Stat. rewrite call_calm by done. unfold mbind, M_bind, at_path.
  rewrite lookup_arrive by (try done; unfold kind_at; rewrite En; cbn; rewrite HK; by intros _ [? ?]). cbn [mbind res_bind]. by rewrite En.
Qed.
Lemma mkdir_present fuel rel mode f : dest_at dest D f -> entry_path rel -> way_dirs f rel -> fs_faults f = [] -> kind_at (tree f) (D ++ rel) = Some KDir ->
  MkdirAll_fuel (S fuel) (under dest rel) mode f = (Ok tt, f).
Proof.
  intros HD HE HW HCl HK. destruct (stat_dir rel f HD HE HW HCl HK) as (n & Hn & E). cbn [MkdirAll_fuel].
  unfold mbind at 1, M_bind at 1, orelse at 1. rewrite (M_step _ _ _ _ _ E). cbn [mret M_ret]. by rewrite Hn.
Qed.
Lemma mkdir_run rel mode f : ready rel f -> exists a, fresh_attrs f a /\ MkdirAll (under dest rel) mode f = (Ok tt, made rel KDir a f) /\
  at_node rel KDir a (made rel KDir a f) /\ grown (D ++ rel) (MkNode KDir a) f (made rel KDir a f).
Proof.
  intros HR. pose proof HR as [HD HE HN HW HF HCl]. destruct (create_run rel KDir mode f HR) as (a & Ha & EC & HA & HG). exists a. split; [done|].
  split; [|done]. destruct (exists_last HN) as (rel0 & c & ->). pose proof (da_name _ _ _ HD) as Hd. unfold MkdirAll.
  rewrite under_split, length_app by apply HE. pose proof (split_nonempty dest) as HSN. destruct (length (SplitSlash dest)) as [|l] eqn:El; [by destruct (SplitSlash dest)|].
  cbn [Nat.add]. set (fuel := (l + length (rel0 ++ [c]))%nat).
  assert (orelse (n ← Stat (under dest (rel0 ++ [c])); mret (Some n)) (fun _ => mret None) f = (Ok None, f)) as ES.
  { unfold orelse, Stat. unfold mbind at 1, M_bind at 1. rewrite call_calm by done. unfold mbind at 1, M_bind at 1, at_path.
    rewrite lookup_arrive; [|done..|]; [cbn [mbind res_bind]; by rewrite HF|]. intros _ [tgt Ht]. apply kind_at_None in HF. congruence. }
  change (MkdirAll_fuel (S (S fuel)) (under dest (rel0 ++ [c])) mode f = (Ok tt, made (rel0 ++ [c]) KDir a f)).
  remember (S fuel) as fuel1 eqn:Ef. cbn [MkdirAll_fuel]. rewrite (M_step _ _ _ _ _ ES). subst fuel1.
  rewrite up_under by done. pose proof (under_nonempty rel0 Hd) as Hu. destruct (under dest rel0) as [|u0 ul] eqn:Eu; [done|]. rewrite <- Eu.
  rewrite (M_step _ _ _ _ _ (mkdir_present fuel rel0 mode f HD (entry_init _ _ HE) (way_init _ _ _ HW) HCl (way_parent _ _ _ HD HW))).
  unfold orelse, Mkdir. rewrite call_calm by done. by rewrite (M_step _ _ _ _ _ EC).
Qed.
(** ** One member *)

(** The node a member stands for, and where. *)
Definition kind_of (h : Header) (body : bytes) : option kind :=
  if bool_decide (h_Typeflag h = TypeDir) then Some KDir
  else if bool_decide (h_Typeflag h = TypeReg) then Some (KFile body)
  else if bool_decide (h_Typeflag h = TypeSymlink) then match h_Linkname h with [] => None | l => Some (KLink l) end
  else if bool_decide (h_Typeflag h = TypeFifo) then Some KFifo
  else if bool_decide (h_Typeflag h = TypeChar \/ h_Typeflag h = TypeBlock) then
    Some (KDev (bool_decide (h_Typeflag h = TypeBlock)) (u32 (h_Devmajor h)) (u32 (h_Devminor h)))
  else None.
Definition rel_of (h : Header) : path := name_comps (h_Name h).
(** Metadata applied, to a node as it was made. *)
Definition applied (f : FS) (h : Header) (k : kind) (a : attrs) : Prop :=
  exists a0, fresh_attrs f a0 /\ a = final_attrs (euid f =? 0) h (is_KLink k) a0.

Lemma now_run rel h k a f f1 : dest_at dest D f -> tree f !! (D ++ rel) = None -> fresh_attrs f a ->
  at_node rel k a f1 -> grown (D ++ rel) (MkNode k a) f f1 -> is_KDir k = false -> forall make : M FS unit, make f = (Ok tt, f1) ->
  exists a' f', (_ ← make; _ ← applyMeta (under dest rel) h (is_KLink k); mret false) f = (Ok false, f') /\ at_node rel k a' f' /\
    grown (D ++ rel) (MkNode k a') f f' /\ applied f h k a'.
Proof.
  intros HD HF Ha HA HG Hk make E. pose proof (gr_ids _ _ _ _ HG) as [Eu _]. exists (final_attrs (euid f1 =? 0) h (is_KLink k) a), (put_attrs rel k (final_attrs (euid f1 =? 0) h (is_KLink k) a) f1).
  split; [by rewrite (M_step _ _ _ _ _ E), (M_step _ _ _ _ _ (applyMeta_run _ _ _ h _ HA))|].
  destruct (grown_put rel k k a (final_attrs (euid f1 =? 0) h (is_KLink k) a) f f1 _ HD HA eq_refl HF HG eq_refl) as [HA' HG'].
  split; [done|]. split; [done|]. exists a. by rewrite Eu.
Qed.

Lemma member_run h b f k : ready (rel_of h) f -> no_dotdot (h_Name h) -> kind_of h b = Some k ->
  exists a f', extract_member dest (MkMember h b None) f = (Ok (is_KDir k), f') /\ at_node (rel_of h) k a f' /\
    grown (D ++ rel_of h) (MkNode k a) f f' /\ (if is_KDir k then fresh_attrs f a else applied f h k a).
Proof.
  intros HR Hdd EK. pose proof HR as [HD HE HN HW HF HCl]. set (rel := rel_of h) in *. unfold extract_member. cbn [m_hdr m_body].
  rewrite M_lift, (safeJoin_exact _ _ (da_name _ _ _ HD) HC Hdd). fold (rel_of h). fold rel. unfold rejectSymlinkComponents.
  assert (length rel <= length (SplitSlash (under dest rel)))%nat as Hl by (rewrite under_split, length_app by apply HE; lia).
  rewrite (M_step _ _ _ _ _ (reject_run _ rel f HD HE HW HCl (or_introl (proj2 (kind_at_None _ _) HF)) Hl)).
  cbv zeta. unfold kind_of in EK.
  assert (forall k0 mode, is_KDir k0 = false -> exists a f1, fresh_attrs f a /\ call (_ ← create k0 mode (under dest rel); mret tt) intact_ f = (Ok tt, f1) /\
    at_node rel k0 a f1 /\ grown (D ++ rel) (MkNode k0 a) f f1) as Make.
  { intros k0 mode _. destruct (create_run rel k0 mode f HR) as (a & Ha & EC & HA & HG). exists a, (made rel k0 a f). split; [done|]. split; [|done].
    rewrite call_calm by done. by rewrite (M_step _ _ _ _ _ EC). }
  case_bool_decide.
  { injection EK as <-. destruct (mkdir_run rel 448 f HR) as (a & Ha & E & HA & HG). exists a, (made rel KDir a f). split; [by rewrite (M_step _ _ _ _ _ E)|done]. }
  case_bool_decide.
  { injection EK as <-. destruct (create_run rel (KFile []) 384 f HR) as (a & Ha & EC & HA & HG).
    set (f2 := set_tree (<[D ++ rel := MkNode (KFile b) a]> (tree (made rel (KFile []) a f))) (made rel (KFile []) a f)).
    destruct (grown_put rel (KFile []) (KFile b) a a f _ f2 HD HA eq_refl HF HG eq_refl) as [HA2 HG2].
    apply (now_run rel h (KFile b) a f f2); try done. unfold writeRegular. cbn [m_body m_err].
    assert (CreateFile (under dest rel) 384 f = (Ok (D ++ rel), made rel (KFile []) a f)) as E1 by (unfold CreateFile; by rewrite call_calm).
    assert (WriteData (D ++ rel) b (made rel (KFile []) a f) = (Ok tt, f2)) as E2.
    { unfold WriteData. rewrite call_calm by apply HA. unfold alter_node, modify, f2. by rewrite (alter_insert _ _ _ _ (an_here _ _ _ _ HA)). }
    rewrite (M_step _ _ _ _ _ E1). assert (CloseFile f2 = (Ok tt, f2)) as E3 by (unfold CloseFile; by rewrite call_calm by apply HA).
    assert (orelse (_ ← WriteData (D ++ rel) b; mret tt) (fun e => _ ← orelse CloseFile (fun _ => mret tt); fail e) (made rel (KFile []) a f) = (Ok tt, f2)) as E4
      by (unfold orelse at 1; by rewrite (M_step _ _ _ _ _ E2)).
    by rewrite (M_step _ _ _ _ _ E4). }
  case_bool_decide.
  { destruct (h_Linkname h) as [|l0 l] eqn:El; [done|]. injection EK as <-. destruct (Make (KLink (l0 :: l)) 511 eq_refl) as (a & f1 & Ha & E & HA & HG).
    by apply (now_run rel h (KLink (l0 :: l)) a f f1). }
  case_bool_decide.
  { injection EK as <-. destruct (Make KFifo (Z.land (h_Mode h) 4095) eq_refl) as (a & f1 & Ha & E & HA & HG). by apply (now_run rel h KFifo a f f1). }
  case_bool_decide as Hdev; [|done]. injection EK as <-.
  destruct (Make (KDev (bool_decide (h_Typeflag h = TypeBlock)) (u32 (h_Devmajor h)) (u32 (h_Devminor h))) (Z.land (h_Mode h) 4095) eq_refl) as (a & f1 & Ha & E & HA & HG).
  destruct (now_run rel h _ a f f1 HD HF Ha HA HG eq_refl (Mknod (under dest rel) (bool_decide (h_Typeflag h = TypeBlock)) (Z.land (h_Mode h) 4095) (u32 (h_Devmajor h)) (u32 (h_Devminor h))) E) as (a' & f' & E' & HA' & HG' & HM').
  exists a', f'. split; [|done]. unfold orelse at 1. unfold Mknod in E' |- *. unfold mbind at 1, M_bind at 1. unfold mbind at 1, M_bind at 1. rewrite E. cbn [mret M_ret].
  rewrite (M_step _ _ _ _ _ E) in E'. exact E'.
Qed.
(** ** The archive *)

Definition read (ms : list (Header * bytes)) : list (res Member) := (fun m : Header * bytes => Ok (MkMember m.1 m.2 None)) <$> ms.
(** After [past], directories come before what they hold, and no path comes twice. *)
Fixpoint orderly (past ms : list (Header * bytes)) : Prop :=
  match ms with
  | [] => True
  | (h, b) :: ms =>
      no_dotdot (h_Name h) /\ rel_of h <> [] /\ is_Some (kind_of h b) /\ (forall h' b', (h', b') ∈ past -> rel_of h' <> rel_of h) /\
      (removelast (rel_of h) = [] \/ exists h' b', (h', b') ∈ past /\ h_Typeflag h' = TypeDir /\ rel_of h' = removelast (rel_of h)) /\
      orderly (past ++ [(h, b)]) ms
  end.
Lemma orderly_app past ms1 ms2 : orderly past (ms1 ++ ms2) <-> orderly past ms1 /\ orderly (past ++ ms1) ms2.
Proof.
  revert past. induction ms1 as [|[h b] ms1 IH]; intros past; cbn [app orderly]; [rewrite app_nil_r; tauto|].
  rewrite IH, <- app_assoc. cbn [app]. tauto.
Qed.
Lemma kind_of_dir h b k : kind_of h b = Some k -> is_KDir k = bool_decide (h_Typeflag h = TypeDir).
Proof. unfold kind_of. destruct (bool_decide _); [by intros [= <-]|]. repeat case_bool_decide; try (by intros [= <-]); try done. by destruct (h_Linkname h); [|intros [= <-]]. Qed.
Definition dirs_of (ms : list (Header * bytes)) : list Header := (filter (fun m : Header * bytes => h_Typeflag m.1 = TypeDir) ms).*1.
Lemma orderly_distinct past ms : orderly past ms ->
  NoDup (rel_of <$> ms.*1) /\ (forall h h' b', h ∈ ms.*1 -> (h', b') ∈ past -> rel_of h' <> rel_of h).
Proof.
  revert past. induction ms as [|[h b] ms IH]; intros past HO; [by split; [constructor|intros h h' b' Hh%elem_of_nil]|].
  destruct HO as (_ & _ & _ & Hs & _ & HO). destruct (IH _ HO) as [HN HF]. cbn. split.
  - constructor; [|done]. intros (h' & E & Hh')%list_elem_of_fmap. apply (HF h' h b Hh'); [by apply elem_of_app; right; left|done].
  - intros h1 h' b' [->|Hh']%elem_of_cons Hin; [by eapply Hs|]. eapply HF; [done|]. by apply elem_of_app; left.
Qed.

Section Stages.
Context (f0 : FS).
(** What has been extracted is there, with attributes as [P] tells, and nothing else is. *)
Record stage (P : Header -> kind -> attrs -> Prop) (L : list (Header * bytes)) (f : FS) : Prop := {
    sg_dest : dest_at dest D f;
    sg_calm : fs_faults f = [];
    sg_ids : euid f = euid f0 /\ egid f = egid f0;
    sg_node : forall h b, (h, b) ∈ L -> no_dotdot (h_Name h) /\
    exists k a, kind_of h b = Some k /\ tree f !! (D ++ rel_of h) = Some (MkNode k a) /\ P h k a;
    sg_only : forall rel, rel <> [] -> is_Some (tree f !! (D ++ rel)) -> exists h b, (h, b) ∈ L /\ rel = rel_of h
  }.
Definition made_P (h : Header) (k : kind) (a : attrs) : Prop := if is_KDir k then fresh_attrs f0 a else applied f0 h k a.

Lemma stage_ready P L f rel :
  stage P L f -> entry_path rel -> rel <> [] -> (forall h b, (h, b) ∈ L -> rel_of h <> rel) ->
  kind_at (tree f) (D ++ removelast rel) = Some KDir -> ready rel f.
Proof.
  intros HG HE HN Hs HK. split; [apply HG|done|done| | |apply HG].
  - intros i Hi. destruct (exists_last HN) as (rel0 & c & ->). rewrite removelast_last in HK. rewrite length_app in Hi. cbn in Hi.
    rewrite take_app_le by lia. destruct (decide (i = length rel0)) as [->|Hne]; [by rewrite firstn_all|].
    apply (wf_above _ _ (drop i rel0)); [apply (sg_dest _ _ _ HG)| |intros E; apply (f_equal length) in E; rewrite length_drop in E; cbn in E; lia].
    rewrite <- app_assoc, take_drop. by apply kind_at_Some in HK.
  - destruct (tree f !! (D ++ rel)) as [n|] eqn:E; [|done]. destruct (sg_only _ _ _ HG rel HN (mk_is_Some _ _ E)) as (h & b & Hin & Er). by destruct (Hs h b Hin).
Qed.
Lemma stage_step L f h b k a f' : stage made_P L f -> (forall h' b', (h', b') ∈ L -> rel_of h' <> rel_of h) ->
  no_dotdot (h_Name h) -> kind_of h b = Some k -> at_node (rel_of h) k a f' -> grown (D ++ rel_of h) (MkNode k a) f f' ->
  (if is_KDir k then fresh_attrs f a else applied f h k a) -> stage made_P (L ++ [(h, b)]) f'.
Proof.
  intros [HD HCl [Iu Ig] HN HO] Hdis Hdd EK HA HG HP. pose proof (gr_ids _ _ _ _ HG) as [Eu Eg].
  assert (made_P h k a) as HP' by (unfold made_P, applied, fresh_attrs in *; by rewrite Iu, Ig in HP).
  split; [apply HA|apply HA|split; congruence| |].
  - intros h' b' [Hin|[= -> ->]%list_elem_of_singleton]%elem_of_app; [|split; [done|]; exists k, a; split_and!; [done|apply HA|done]].
    destruct (HN h' b' Hin) as (Hd & k' & a' & EK' & E & HP1). split; [done|]. exists k'.
    destruct (gr_else _ _ _ _ HG (D ++ rel_of h')) as [Es|(n0 & m & E0 & Ek & Es)]; [intros E0%app_inv_head; by eapply Hdis| |].
    + exists a'. split_and!; [done|by rewrite Es|done].
    + rewrite E in E0. injection E0 as <-. cbn in Ek. subst k'. exists (retime m a'). split_and!; [done|by rewrite Es|]. exact HP1.
  - intros rel Hne Hs. destruct (decide (rel = rel_of h)) as [->|Hn]; [exists h, b; split; [by apply elem_of_app; right; left|done]|].
    destruct (HO rel Hne) as (h' & b' & Hin & ->); [|exists h', b'; split; [by apply elem_of_app; left|done]].
    destruct (gr_else _ _ _ _ HG (D ++ rel)) as [Es|(n0 & m & E0 & _)]; [by intros E0%app_inv_head|by rewrite <- Es|by rewrite E0].
Qed.

Lemma loop_run ms L acc f :
  orderly L ms -> stage made_P L f -> exists f', extract_loop dest (read ms) acc f = (Ok (acc ++ dirs_of ms), f') /\ stage made_P (L ++ ms) f'.
Proof.
  revert L acc f. induction ms as [|[h b] ms IH]; intros L acc f HO HG.
  { exists f. cbn. by rewrite !app_nil_r. }
  destruct HO as (Hdd & Hne & [k EK] & Hs & Hpar & HO). pose proof (name_comps_entry _ Hdd) as HE.
  assert (kind_at (tree f) (D ++ removelast (rel_of h)) = Some KDir) as HK.
  { destruct Hpar as [->|(h' & b' & Hin & HT & <-)]; [rewrite app_nil_r; apply (sg_dest _ _ _ HG)|].
    destruct (sg_node _ _ _ HG h' b' Hin) as (_ & k' & a' & EK' & E' & _). unfold kind_at. rewrite E'. cbn.
    apply kind_of_dir in EK'. rewrite bool_decide_eq_true_2 in EK' by done. by destruct k'. }
  pose proof (stage_ready _ _ _ _ HG HE Hne Hs HK) as HR.
  destruct (member_run h b f k HR Hdd EK) as (a & f1 & E & HA & HGr & HP).
  assert (stage made_P (L ++ [(h, b)]) f1) as HG1 by (by eapply stage_step).
  destruct (IH (L ++ [(h, b)]) (if is_KDir k then acc ++ [h] else acc) f1 HO HG1) as (f' & E' & HG').
  exists f'. split; [|by rewrite <- app_assoc in HG']. cbn [read fmap list_fmap extract_loop fst snd]. rewrite (M_step _ _ _ _ _ E). cbn [m_hdr].
  rewrite (kind_of_dir _ _ _ EK) in E' |- *. unfold dirs_of in E' |- *. destruct (bool_decide (h_Typeflag h = TypeDir)) eqn:Eb.
  - apply bool_decide_eq_true in Eb. rewrite filter_cons_True by done. cbn [fmap list_fmap fst]. rewrite <- app_assoc in E'. exact E'.
  - apply bool_decide_eq_false in Eb. rewrite filter_cons_False by done. exact E'.
Qed.

(** The directories' metadata. *)
Definition due_P (ds : list Header) (h : Header) (k : kind) (a : attrs) : Prop :=
  (h ∈ ds -> is_KDir k = true /\ fresh_attrs f0 a) /\ (h ∉ ds -> applied f0 h k a).
Lemma final_run ds L f : NoDup (rel_of <$> L.*1) -> NoDup ds -> (forall h, h ∈ ds -> exists b, (h, b) ∈ L) -> stage (due_P ds) L f ->
  exists f', each (fun h => target ← lift (safeJoin dest (h_Name h)); applyMeta target h false) ds f = (Ok tt, f') /\ stage (due_P []) L f'.
Proof.
  intros HL. revert f. induction ds as [|h ds IH]; intros f HN HS HG; [by exists f|].
  apply list.NoDup_cons in HN as [Hh HN]. destruct (HS h) as [b Hb]; [by left|].
  destruct (sg_node _ _ _ HG h b Hb) as (Hdd & k & a & EK & E & HP). destruct HP as [HP _]. destruct HP as [Hk Hf]; [by left|]. destruct k; try done.
  pose proof HG as [HD HCl [Iu Ig] HNd HO]. pose proof (name_comps_entry _ Hdd) as HE.
  assert (at_node (rel_of h) KDir a f) as HA.
  { split; try done. intros i Hi. apply (wf_above _ _ (drop i (rel_of h))); [apply HD| |intros E0; apply (f_equal length) in E0; rewrite length_drop in E0; cbn in E0; lia].
    by rewrite <- app_assoc, take_drop, E. }
  set (a1 := final_attrs (euid f =? 0) h false a). set (f1 := put_attrs (rel_of h) KDir a1 f).
  assert (applyMeta (under dest (rel_of h)) h false f = (Ok tt, f1)) as EM by (apply (applyMeta_run _ KDir a h f HA)).
  pose proof (at_node_put _ _ _ a1 _ HA) as HA1. fold f1 in HA1.
  assert (forall p, p <> D ++ rel_of h -> tree f1 !! p = tree f !! p) as Same by (intros p Hp; by apply lookup_insert_ne).
  destruct (IH f1) as (f' & E' & HG'); [done|by intros h' Hh'; apply HS; right| |].
  - split; [apply HA1|apply HA1|done| |].
    + intros h' b' Hin. destruct (HNd h' b' Hin) as (Hd' & k' & a' & EK' & E1 & HP1). split; [done|]. destruct (decide (rel_of h' = rel_of h)) as [Er|Er].
      * assert (h' = h) as ->.
        { apply list_elem_of_lookup in Hin as [i Hi]. apply list_elem_of_lookup in Hb as [j Hj].
          assert (i = j) as ->; [|congruence]. eapply (NoDup_lookup _ i j (rel_of h) HL); [rewrite !list_lookup_fmap, Hi; cbn; by rewrite Er|by rewrite !list_lookup_fmap, Hj]. }
        exists KDir, a1. rewrite E in E1. injection E1 as <- <-. split_and!; [done|apply HA1|]. split; [done|]. intros _. exists a. unfold a1. by rewrite Iu.
      * exists k', a'. split_and!; [done|rewrite Same; [done|]; by intros E0%app_inv_head|]. destruct HP1 as [P1 P2]. split.
        -- intros Hin'. apply P1. by right.
        -- intros Hn. apply P2. intros [->|?]%elem_of_cons; [by destruct Er|done].
    + intros rel Hne Hs. apply HO; [done|]. destruct (decide (rel = rel_of h)) as [->|Hn]; [by rewrite E|]. rewrite <- Same; [done|]. by intros E0%app_inv_head.
  - exists f'. split; [|done]. cbn [each]. rewrite (safeJoin_exact _ _ (da_name _ _ _ HD) HC Hdd).
    unfold mbind at 1, M_bind at 1. rewrite M_lift. fold (rel_of h). rewrite EM. exact E'.
Qed.
End Stages.
End Restore.

(** The metadata a restored node carries: the owner if the process may set it. *)
Definition restored_meta (f : FS) (h : Header) (k : kind) (a : attrs) : Prop :=
  at_uid a = (if euid f =? 0 then h_Uid h else euid f) /\ at_gid a = (if euid f =? 0 then h_Gid h else egid f) /\
  at_mtime a = h_ModTime h /\
  if is_KLink k then at_xattrs a = ∅ else at_mode a = Z.land (h_Mode h) 4095 /\ at_xattrs a = xattrs_of (h_PAXRecords h) ∅.
Lemma applied_meta f h k a : applied f h k a -> restored_meta f h k a.
Proof.
  intros (a0 & (Hu & Hg & Hx) & ->). unfold restored_meta, final_attrs. cbn. rewrite Hu, Hg, Hx. destruct (is_KLink k); by split_and!.
Qed.

Definition empty_at (f : FS) (D : path) : Prop := forall rel, rel <> [] -> tree f !! (D ++ rel) = None.
Lemma Extract_run dest D ms f : dest_at dest D f -> clean_dest dest -> fs_faults f = [] -> empty_at f D -> orderly [] ms ->
  exists f', Extract (read ms) dest f = (Ok tt, f') /\
  (forall h b, (h, b) ∈ ms -> exists k a, kind_of h b = Some k /\ tree f' !! (D ++ rel_of h) = Some (MkNode k a) /\ restored_meta f h k a) /\
  (forall rel, rel <> [] -> is_Some (tree f' !! (D ++ rel)) -> exists h b, (h, b) ∈ ms /\ rel = rel_of h) /\ inside D f f'.
Proof.
  intros HD HC HCl HE HO. destruct (orderly_distinct _ _ HO) as [HN _].
  assert (MkdirAll dest 493 f = (Ok tt, f)) as E1.
  { apply (mkdir_present dest D _ [] 493 f HD); [by split|by intros i Hi; cbn in Hi; lia|done|rewrite app_nil_r; apply HD]. }
  assert (stage dest D f (made_P f) [] f) as HG.
  { split; [done|done|done|by intros h b Hin%elem_of_nil|]. intros rel Hne [n Hn]. by rewrite HE in Hn. }
  destruct (loop_run dest D HC f ms [] [] f HO HG) as (f1 & E2 & HG1).
  cbn [app] in E2, HG1.
  assert (forall h, h ∈ dirs_of ms <-> exists b, (h, b) ∈ ms /\ h_Typeflag h = TypeDir) as HDs.
  { intros h. unfold dirs_of. rewrite list_elem_of_fmap. split.
    - intros ([h' b] & -> & [HT Hin]%list_elem_of_filter). by exists b.
    - intros (b & Hin & HT). exists (h, b). split; [done|]. by apply list_elem_of_filter. }
  destruct (final_run dest D HC f (dirs_of ms) ms f1 HN) as (f' & E3 & HG2).
  - apply (NoDup_fmap_1 rel_of). eapply sublist_NoDup; [exact HN|]. unfold dirs_of. apply (fmap_sublist _), (fmap_sublist _), sublist_filter.
  - intros h (b & Hin & _)%HDs. by exists b.
  - destruct HG1 as [A1 A2 A3 A4 A5]. split; try done. intros h b Hin. destruct (A4 h b Hin) as (Hdd & k & a & EK & E & HP). split; [done|].
    exists k, a. split_and!; [done..|]. unfold made_P in HP. rewrite (kind_of_dir _ _ _ EK) in HP. split.
    + intros (b' & _ & HT)%HDs. rewrite (kind_of_dir _ _ _ EK). rewrite bool_decide_eq_true_2 in HP |- * by done. done.
    + intros Hn. rewrite bool_decide_eq_false_2 in HP; [done|]. intros HT. apply Hn, HDs. by exists b.
  - assert (Extract (read ms) dest f = (Ok tt, f')) as E by (unfold Extract; by rewrite (M_step _ _ _ _ _ E1), (M_step _ _ _ _ _ E2)).
    exists f'. split; [done|]. split; [|split; [apply HG2|by eapply Extract_inside]].
    intros h b Hin. destruct (sg_node _ _ _ _ _ _ HG2 h b Hin) as (_ & k & a & EK & E' & _ & HP). exists k, a. split_and!; [done..|]. apply applied_meta, HP, not_elem_of_nil.
Qed.

(** C17. Restore is exact: an archive whose directories come before what they hold, without
    [..], repeated paths or unsupported members, extracted without failures into an empty
    directory under a cleaned path, succeeds and leaves there exactly one node for each
    member - with the member's content, modification time, permission bits, attributes and,
    for the superuser, owner, directories included - and nothing else, inside or outside. *)
Theorem extract_exact dest D ms f :
  fs_wf f -> dest <> [] -> clean_dest dest -> lookup_path false dest f = Ok D -> kind_at (tree f) D = Some KDir ->
  fs_faults f = [] -> empty_at f D -> orderly [] ms ->
  exists f', Extract (read ms) dest f = (Ok tt, f') /\
  (forall h b, (h, b) ∈ ms -> exists k a, kind_of h b = Some k /\ tree f' !! (D ++ rel_of h) = Some (MkNode k a) /\ restored_meta f h k a) /\
  (forall rel, rel <> [] -> is_Some (tree f' !! (D ++ rel)) -> exists h b, (h, b) ∈ ms /\ rel = rel_of h) /\
  (forall p, ~ D `prefix_of` p -> tree f' !! p = tree f !! p).
Proof.
  intros W HN HC HL HK HCl HE HO. destruct (Extract_run dest D ms f) as (f' & E & H1' & H2' & H3'); try done.
  exists f'. split_and!; [done..|]. by destruct H3'.
Qed.

(** A directory [d] that holds a file [a] and a link [p]. *)
Definition small_archive : list (Header * bytes) :=
  [(MkHeader [x64; slash] TypeDir 448 0 0 0 9 [] 0 0 [], []);
   (MkHeader [x64; slash; x61] TypeReg 420 0 0 1 8 [] 0 0 [(xattrPrefix ++ [x75], [x01])], [x32]);
   (MkHeader [x64; slash; x70] TypeSymlink 511 0 0 0 7 [x61] 0 0 [], [])].
Lemma clean_out : clean_dest (slash :: c_out).
Proof. exists 0%nat, [c_out]. split; [reflexivity|]. split; [repeat constructor; discriminate|reflexivity]. Qed.
Lemma out_empty : empty_at (sample_fs []) [c_out].
Proof.
  intros rel Hne. destruct (tree (sample_fs []) !! ([c_out] ++ rel)) as [n|] eqn:Hn; [|done]. exfalso. apply elem_of_list_to_map_2 in Hn.
  repeat (apply elem_of_cons in Hn as [[= E En]|Hn]); [..|by apply elem_of_nil in Hn]; by destruct rel.
Qed.
Ltac dotdot_tac := repeat (apply List.Forall_cons; [discriminate|]); apply List.Forall_nil.
Lemma small_orderly : orderly [] small_archive.
Proof.
  cbn [orderly small_archive app]. split_and!; try (by eexists); try discriminate; try dotdot_tac; try exact I.
  - by intros h b Hin%elem_of_nil.
  - by left.
  - intros h b [= -> ->]%list_elem_of_singleton. discriminate.
  - right. eexists _, _. split; [by apply list_elem_of_singleton|]. by split.
  - intros h b [[= -> ->]|[= -> ->]%list_elem_of_singleton]%elem_of_cons; discriminate.
  - right. eexists _, _. split; [by left|]. by split.
Qed.
Lemma extract_exact_witness : exists f', Extract (read small_archive) (slash :: c_out) (sample_fs []) = (Ok tt, f').
Proof.
  destruct (extract_exact (slash :: c_out) [c_out] small_archive (sample_fs []) (sample_wf []) ltac:(discriminate) clean_out
    ltac:(vm_compute; reflexivity) ltac:(vm_compute; reflexivity) eq_refl out_empty small_orderly) as (f' & E & _).
  exists f'. exact E.
Defined.
