(* ===== verification/Backup.v ===== *)
(** Backing up and restoring (src/ingest, src/tarexport, src/tarextract): a file tree that is
    ingested, exported from the stored objects, read back and extracted is the tree it was. *)
From S2P Require Import Hostfs TarExtract Restore Prelude External Concrete Key Cborx Pack Chunker Objects Readers Builder Trees Amberignore Ingest Mirror Filepath Tar TarExport.

(** * What a reader makes of a member *)

(** Package archive/tar gives back what it was given; of the PAX records only those that name
    attributes matter, and a map has no order. *)
Definition is_xattr (kv : bytes * bytes) : Prop := HasPrefix kv.1 xattrPrefix = true.
Definition same_header (h h' : Header) : Prop :=
  h_Name h' = h_Name h /\ h_Typeflag h' = h_Typeflag h /\ h_Mode h' = h_Mode h /\ h_Uid h' = h_Uid h /\ h_Gid h' = h_Gid h /\
  h_ModTime h' = h_ModTime h /\ h_Linkname h' = h_Linkname h /\ h_Devmajor h' = h_Devmajor h /\ h_Devminor h' = h_Devminor h /\
  filter is_xattr (h_PAXRecords h') ≡ₚ filter is_xattr (h_PAXRecords h).
Definition same_member (m m' : Header * bytes) : Prop := same_header m.1 m'.1 /\ m'.2 = m.2.

Lemma same_rel h h' : same_header h h' -> rel_of h' = rel_of h.
Proof. unfold rel_of. by intros (-> & _). Qed.
Lemma same_kind h h' b : same_header h h' -> kind_of h' b = kind_of h b.
Proof. unfold kind_of. by intros (_ & -> & _ & _ & _ & _ & -> & -> & -> & _). Qed.
Lemma same_orderly past past' ms ms' : Forall2 same_member past past' -> Forall2 same_member ms ms' -> orderly past ms -> orderly past' ms'.
Proof.
  intros HP HM. revert past past' HP. induction HM as [|[h b] [h' b'] ms ms' [HH HB] HM IH]; intros past past' HP HO; [done|].
  cbn [fst snd] in *. subst b'. destruct HO as (Hdd & Hne & HK & HD & HPar & HO). cbn [orderly]. rewrite (same_rel _ _ HH), (same_kind _ _ _ HH).
  assert (forall h1 b1, (h1, b1) ∈ past' -> exists h0 b0, (h0, b0) ∈ past /\ same_header h0 h1) as Back.
  { intros h1 b1 (i & Hi)%list_elem_of_lookup. destruct (Forall2_lookup_r _ _ _ _ _ HP Hi) as ([h0 b0] & E0 & S0 & _).
    exists h0, b0. split; [by eapply list_elem_of_lookup_2|done]. }
  split_and!; [unfold no_dotdot; by rewrite (proj1 HH)|done|done| | |].
  - intros h1 b1 (h0 & b0 & Hin & Hs)%Back. rewrite (same_rel _ _ Hs). by eapply HD.
  - destruct HPar as [->|(h0 & b0 & Hin & HT & HR)]; [by left|right]. apply list_elem_of_lookup in Hin as [i Hi].
    destruct (Forall2_lookup_l _ _ _ _ _ HP Hi) as ([h1 b1] & E1 & S1 & _). exists h1, b1. split; [by eapply list_elem_of_lookup_2|].
    cbn [fst] in S1. rewrite (same_rel _ _ S1). destruct S1 as (_ & -> & _). done.
  - apply (IH (past ++ [(h, b)])); [|done]. apply Forall2_app; [done|]. constructor; [by split|constructor].
Qed.

(** Attributes come back whatever the order of the records. *)
Lemma xattrs_filter kvs m : xattrs_of kvs m = xattrs_of (filter is_xattr kvs) m.
Proof.
  revert m. induction kvs as [|kv kvs IH]; intros m; [done|]. unfold xattrs_of in *. cbn [fold_left].
  destruct (decide (is_xattr kv)) as [Hx|Hx]; [rewrite filter_cons_True by done; cbn [fold_left]; apply IH|].
  rewrite filter_cons_False by done. unfold xattrs_step at 2. unfold is_xattr in Hx. apply not_true_is_false in Hx. rewrite Hx. apply IH.
Qed.
Definition unprefixed (kv : bytes * bytes) : bytes * bytes := (TrimPrefix kv.1 xattrPrefix, kv.2).
Lemma xattrs_map kvs m : Forall is_xattr kvs -> NoDup (unprefixed <$> kvs).*1 ->
  xattrs_of kvs m = list_to_map (unprefixed <$> kvs) ∪ m.
Proof.
  intros HF. revert m. induction HF as [|kv kvs Hx HF IH]; intros m HN; [unfold xattrs_of; cbn; by rewrite (left_id_L ∅ _)|].
  cbn in HN. apply list.NoDup_cons in HN as [Hn HN]. unfold xattrs_of in *. cbn [fold_left]. rewrite IH by done. unfold xattrs_step. unfold is_xattr in Hx. rewrite Hx.
  cbn. rewrite <- insert_union_l, insert_union_r; [done|]. by apply not_elem_of_list_to_map_1.
Qed.
Lemma unprefixed_records xs : unprefixed <$> records xs = map_to_list xs.
Proof.
  unfold records. rewrite <- list_fmap_compose. rewrite <- (list_fmap_id (map_to_list xs)) at 2. apply list_fmap_ext. by intros i [k v] _.
Qed.
Lemma records_xattr xs : Forall is_xattr (records xs).
Proof.
  unfold records. apply Forall_fmap, list.Forall_forall. intros [k v] _. unfold is_xattr. cbn. apply HasPrefix_true. by exists k.
Qed.
Lemma same_xattrs h h' xs : same_header h h' -> h_PAXRecords h = records xs -> xattrs_of (h_PAXRecords h') ∅ = xs.
Proof.
  intros (_ & _ & _ & _ & _ & _ & _ & _ & _ & HP) E. rewrite E, (filter_all _ _ (records_xattr xs)) in HP.
  pose proof (fmap_Permutation unprefixed _ _ HP) as HP'. rewrite unprefixed_records in HP'.
  assert (NoDup (unprefixed <$> filter is_xattr (h_PAXRecords h')).*1) as HN.
  { rewrite (fmap_Permutation fst _ _ HP'). apply NoDup_fst_map_to_list. }
  rewrite xattrs_filter, xattrs_map, (right_id_L ∅ _); [|apply list.Forall_forall; by intros kv [? _]%list_elem_of_filter|done].
  rewrite (list_to_map_proper _ _ HN HP'). apply list_to_map_to_list.
Qed.

(** * What a restored tree is *)

Section Backup.
Context `{Gitignore} `{Os}.

Definition source_kind (full : path) (st : Stat) (k : kind) : Prop :=
  (file_type st = S_IFREG /\ exists data, ReadFile full = Ok data /\ k = KFile data) \/
  (file_type st = S_IFDIR /\ k = KDir) \/
  (file_type st = S_IFLNK /\ exists target, Readlink full = Ok target /\ k = KLink target) \/
  (file_type st = S_IFIFO /\ k = KFifo) \/
  (file_type st = S_IFCHR /\ k = KDev false (st_major st) (st_minor st)) \/
  (file_type st = S_IFBLK /\ k = KDev true (st_major st) (st_minor st)).
(** Only the superuser can give a node its owner; a link has no permission bits of its own. *)
Definition source_meta (f0 : Hostfs.FS) (st : Stat) (xs : Xattrs) (k : kind) (a : attrs) : Prop :=
  at_uid a = (if euid f0 =? 0 then st_uid st else euid f0) /\ at_gid a = (if euid f0 =? 0 then st_gid st else egid f0) /\
  at_mtime a = st_mtime st /\ at_xattrs a = xs /\ (is_KLink k = false -> at_mode a = Z.land (st_mode st) 4095).

Section RestoredEntry.
Context (dir_at : path -> option Matcher -> path -> Prop) (f0 : Hostfs.FS) (t : gmap path node).
Definition restored_entry (full : path) (name : bytes) (ign : option Matcher) (q : path) : Prop :=
  exists st, Lstat full = Ok st /\
  if file_type st =? S_IFSOCK then t !! (q ++ [name]) = None
  else exists xs k a, (if file_type st =? S_IFLNK then xs = ∅ else readXattrsWith Llistxattr Lgetxattr full = Ok xs) /\
    t !! (q ++ [name]) = Some (MkNode k a) /\ source_kind full st k /\ source_meta f0 st xs k a /\
    (file_type st = S_IFDIR -> exists sub, Descend ign full name = Ok sub /\ dir_at full sub (q ++ [name])).
End RestoredEntry.
(** The directory [q] of the tree [t] holds the entries of [p] that are not ignored, and no others. *)
Fixpoint restored (f0 : Hostfs.FS) (t : gmap path node) (n : nat) (p : path) (ign : option Matcher) (q : path) : Prop :=
  match n with
  | O => False
  | S n' => exists ents, ReadDir p = Ok ents /\
    (forall name, is_Some (t !! (q ++ [name])) -> name ∈ (kept ign ents).*1) /\
    Forall (fun de => restored_entry (restored f0 t n') f0 t (p ++ [de.1]) de.1 ign q) (kept ign ents)
  end.

(** * The archive of a source, taken apart *)

Lemma comps_join rel : rel <> [] -> entry_path rel -> name_comps (join rel) = rel /\ name_comps (join rel ++ [slash]) = rel /\
  no_dotdot (join rel) /\ no_dotdot (join rel ++ [slash]).
Proof.
  intros Hne [HP HS]. unfold name_comps, no_dotdot. rewrite (split_app (join rel) []), split_join by done. change (SplitSlash []) with [@nil byte].
  assert (clean_comps true rel = rel) as E by (unfold clean_comps; by rewrite clean_plain).
  assert (Forall (fun c => c <> [dot; dot]) rel) as HD by (eapply list.Forall_impl; [exact HP|]; by intros c (_ & _ & ?)).
  split_and!; [done| |done|apply Forall_app_2; [done|by constructor]].
  unfold clean_comps in *. by rewrite fold_left_app, E.
Qed.

(** A member's header carries the entry's metadata. *)
Definition header_meta (st : Stat) (xs : Xattrs) (h : Header) : Prop :=
  h_Mode h = Z.land (st_mode st) 4095 /\ h_Uid h = st_uid st /\ h_Gid h = st_gid st /\ h_ModTime h = st_mtime st /\ h_PAXRecords h = records xs.
Definition small_dev (st : Stat) : Prop := 0 <= st_major st < 2 ^ 32 /\ 0 <= st_minor st < 2 ^ 32.

Lemma entry_shape arch rel full name ign ms :
  entry_path (rel ++ [name]) -> (forall st, Lstat full = Ok st -> small_dev st) -> (forall target, Readlink full = Ok target -> target <> []) ->
  archived_entry arch rel full name ign ms ->
  exists st xs, Lstat full = Ok st /\ (if file_type st =? S_IFLNK then xs = ∅ else readXattrsWith Llistxattr Lgetxattr full = Ok xs) /\
  ((file_type st = S_IFSOCK /\ ms = []) \/
    (file_type st <> S_IFSOCK /\ exists h b below k, ms = (h, b) :: below /\ rel_of h = rel ++ [name] /\ no_dotdot (h_Name h) /\ kind_of h b = Some k /\
      source_kind full st k /\ header_meta st xs h /\
      ((h_Typeflag h = TypeDir /\ exists sub, Descend ign full name = Ok sub /\ arch (rel ++ [name]) full sub below) \/
        (file_type st <> S_IFDIR /\ below = [])))).
Proof.
  intros HE Hdev Hlk (st & xs & EL & EX & HA). exists st, xs. split; [done|]. split; [done|].
  destruct (Hdev st EL) as [Hma Hmi]. assert (rel ++ [name] <> []) as Hne by (by destruct rel).
  destruct (comps_join _ Hne HE) as (C1 & C2 & N1 & N2). unfold rel_of.
  assert (forall z, 0 <= z < 2 ^ 32 -> u32 z = z) as U by (intros z Hz; unfold u32; by apply Z.mod_small).
  destruct HA as [(T & data & ER & ->)|[(T & sub & below & ED & HA & ->)|[(T & target & ER & ->)|[(T & ->)|[(T & ->)|[(T & ->)|(T & ->)]]]]]];
    [right..|by left]; (split; [by rewrite T|]).
  - eexists _, _, [], _. split_and!; [done|exact C1|exact N1|done| |done|by right; rewrite T]. left. split; [done|]. by exists data.
  - eexists _, _, below, _. split_and!; [done|exact C2|exact N2|done| |done|]. { right; left. by split. } left. split; [done|]. by exists sub.
  - pose proof (Hlk _ ER). destruct target as [|c0 l]; [done|].
    eexists _, _, [], _. split_and!; [done|exact C1|exact N1|done| |done|by right; rewrite T]. right; right; left. split; [done|]. by exists (c0 :: l).
  - eexists _, _, [], _. split_and!; [done|exact C1|exact N1|done| |done|by right; rewrite T]. do 3 right. left. by split.
  - eexists _, _, [], _. split_and!; [done|exact C1|exact N1|done| |done|by right; rewrite T]. do 4 right. left. split; [done|]. cbn. by rewrite !U.
  - eexists _, _, [], _. split_and!; [done|exact C1|exact N1|done| |done|by right; rewrite T]. do 5 right. split; [done|]. cbn. by rewrite !U.
Qed.

(** What [proper] gives for one entry. *)
Definition good_entry (rel : path) (full : path) (name : bytes) : Prop :=
  entry_path (rel ++ [name]) /\ (forall st, Lstat full = Ok st -> small_dev st) /\ (forall target, Readlink full = Ok target -> target <> []).
Lemma proper_good (P : path -> option Matcher -> Prop) rel full name ign : entry_path rel -> proper_entry P full name ign -> good_entry rel full name.
Proof.
  intros [HP HS] (Hn & Hsl & Hst & _ & Hlk & _). split_and!; [|intros st Hs; destruct (Hst st Hs) as (_ & _ & ?); done|done].
  split; by apply Forall_app_2, Forall_singleton.
Qed.

Lemma proper_S n p ign ents : proper (S n) p ign -> ReadDir p = Ok ents ->
  StronglySorted bytes_lt (ents.*1) /\ Forall (fun de => proper_entry (proper n) (p ++ [de.1]) de.1 ign) ents.
Proof. intros HP HR. exact (HP ents HR). Qed.
Lemma proper_sub (P : path -> option Matcher -> Prop) full name ign sub : proper_entry P full name ign -> Descend ign full name = Ok sub -> P full sub.
Proof. intros (_ & _ & _ & _ & _ & HS). apply HS. Qed.

(** Every member is below its directory. *)
Definition below_dir (rel : path) (ms : list (Header * bytes)) : Prop := forall h b, (h, b) ∈ ms -> exists c r, rel_of h = rel ++ c :: r.
Lemma entry_below arch rel full name ign ms : good_entry rel full name ->
  (forall sub below, Descend ign full name = Ok sub -> arch (rel ++ [name]) full sub below -> below_dir (rel ++ [name]) below) ->
  archived_entry arch rel full name ign ms -> forall h b, (h, b) ∈ ms -> exists r, rel_of h = rel ++ name :: r.
Proof.
  intros (HE & Hd & Hl) HB HA h b Hin. destruct (entry_shape arch rel full name ign ms HE Hd Hl HA) as (st & xs & _ & _ & [[_ ->]|(_ & h0 & b0 & below & k & -> & HR & _ & _ & _ & _ & HT)]); [by apply elem_of_nil in Hin|].
  apply elem_of_cons in Hin as [[= -> ->]|Hin]; [by exists []|]. destruct HT as [(_ & sub & ED & HA')|[_ ->]]; [|by apply elem_of_nil in Hin].
  destruct (HB sub below ED HA' h b Hin) as (c & r & ->). exists (c :: r). by rewrite <- app_assoc.
Qed.
Lemma kept_proper (P : path -> option Matcher -> Prop) (p : path) ign ents :
  Forall (fun de => proper_entry P (p ++ [de.1]) de.1 ign) ents -> Forall (fun de => proper_entry P (p ++ [de.1]) de.1 ign) (kept ign ents).
Proof. intros HF. apply list.Forall_forall. intros de [_ Hde]%list_elem_of_filter. rewrite list.Forall_forall in HF. by apply HF. Qed.
Lemma kept_NoDup ign (ents : list (bytes * bool)) : StronglySorted bytes_lt (ents.*1) -> NoDup (kept ign ents).*1.
Proof.
  intros HS. pose proof (sorted_filter (fun de => Ignored ign de.1 de.2 = false) bytes_lt ents HS) as HK. fold (kept ign ents) in HK.
  induction HK as [|x l HK IH HF]; [constructor|]. constructor; [|done]. intros Hin. rewrite list.Forall_forall in HF. by apply (bytes_lt_irrefl x), HF.
Qed.
Lemma archived_below n rel p ign ms : entry_path rel -> proper n p ign -> archived n rel p ign ms -> below_dir rel ms.
Proof.
  revert rel p ign ms. induction n as [|n IH]; intros rel p ign ms HE HP HA h b Hin; [done|].
  destruct HA as (ents & mss & ED & -> & HF). destruct (proper_S _ _ _ _ HP ED) as [_ HPE]. apply kept_proper in HPE.
  apply list_elem_of_In, in_concat in Hin as (ms & Hms%list_elem_of_In & Hin%list_elem_of_In). apply list_elem_of_lookup in Hms as [i Hi].
  destruct (Forall2_lookup_r _ _ _ _ _ HF Hi) as (de & Hde & HA). pose proof (Forall_lookup_1 _ _ _ _ HPE Hde) as HD. cbv beta in HD.
  pose proof (proper_good _ rel _ _ _ HE HD) as HG.
  destruct (entry_below (archived n) rel _ de.1 ign ms HG) with (h := h) (b := b) as [r ->]; [|done|done|by eexists _, _].
  intros sub below Hs. apply IH; [apply HG|]. by eapply proper_sub.
Qed.

(** The archive of a source is orderly. *)
Definition apart (rel : path) (past : list (Header * bytes)) : Prop := forall h b, (h, b) ∈ past -> ~ rel `prefix_of` rel_of h.
Definition has_dir (rel : path) (past : list (Header * bytes)) : Prop :=
  rel = [] \/ exists h b, (h, b) ∈ past /\ h_Typeflag h = TypeDir /\ rel_of h = rel.
Lemma has_dir_app rel past ms : has_dir rel past -> has_dir rel (past ++ ms).
Proof. intros [->|(h & b & Hin & HT & HR)]; [by left|right]. exists h, b. split_and!; [apply elem_of_app; by left|done..]. Qed.
Lemma archived_orderly n rel p ign ms past : entry_path rel -> proper n p ign -> archived n rel p ign ms ->
  has_dir rel past -> (forall c, apart (rel ++ [c]) past) -> orderly past ms.
Proof.
  revert rel p ign ms past. induction n as [|n IH]; intros rel p ign ms past HE HP HA HD HAp; [done|].
  destruct HA as (ents & mss & ED & -> & HF). destruct (proper_S _ _ _ _ HP ED) as [HO HPE]. apply kept_proper in HPE.
  pose proof (kept_NoDup ign ents HO) as HN. clear ED HO HP.
  assert (forall de, de ∈ kept ign ents -> apart (rel ++ [de.1]) past) as HAp' by (intros de _; apply HAp). clear HAp.
  revert past HD HAp'. induction HF as [|de ms1 l mss HA HF IHl]; intros past HD HAp; [done|]. cbn in HN. apply list.NoDup_cons in HN as [Hn HN].
  apply Forall_cons_1 in HPE as [Hde HPE]. cbn [concat]. apply orderly_app. pose proof (proper_good _ rel _ _ _ HE Hde) as HG.
  assert (forall sub below, Descend ign (p ++ [de.1]) de.1 = Ok sub -> archived n (rel ++ [de.1]) (p ++ [de.1]) sub below -> below_dir (rel ++ [de.1]) below) as HB.
  { intros sub below Hs. apply archived_below; [apply HG|]. by eapply proper_sub. }
  split.
  - destruct HG as (HE1 & Hdv & Hlk). destruct (entry_shape (archived n) rel _ _ ign ms1 HE1 Hdv Hlk HA) as (st & xs & _ & _ & [[_ ->]|(_ & h & b & below & k & -> & HR & Hdd & EK & _ & _ & HT)]); [done|].
    cbn [orderly]. rewrite HR, removelast_last. split_and!; [done|by destruct rel|by eexists| |done|].
    + intros h' b' Hin Er. apply (HAp de ltac:(by left) h' b' Hin). by rewrite Er.
    + destruct HT as [(HT & sub & Es & HA')|[_ ->]]; [|done].
      apply (IH (rel ++ [de.1]) (p ++ [de.1]) sub below); [done| |done| |].
      * by eapply proper_sub.
      * right. exists h, b. split_and!; [apply elem_of_app; right; by left|done..].
      * intros c h' b' [Hin|[= -> ->]%list_elem_of_singleton]%elem_of_app Hpre.
        -- apply (HAp de ltac:(by left) h' b' Hin). etransitivity; [|exact Hpre]. by apply prefix_app_r.
        -- rewrite HR in Hpre. apply prefix_length in Hpre. rewrite !length_app in Hpre. cbn in Hpre. lia.
  - apply IHl; [done|done|by apply has_dir_app|]. intros de' Hde' h b [Hin|Hin]%elem_of_app; [by eapply HAp; [right|]|].
    destruct (entry_below (archived n) rel _ de.1 ign ms1 HG HB HA h b Hin) as [r ->]. intros Hpre. apply Hn. apply list_elem_of_fmap. exists de'.
    split; [|done]. apply prefix_app_inv in Hpre. destruct Hpre as [k Hk]. by injection Hk.
Qed.

(** * From the members laid out to the tree restored *)

Section Laid.
Context (f0 : Hostfs.FS) (t : gmap path node) (D : path).
Definition laid (ms : list (Header * bytes)) : Prop := forall h b, (h, b) ∈ ms ->
  exists h' k a, same_header h h' /\ kind_of h b = Some k /\ t !! (D ++ rel_of h) = Some (MkNode k a) /\ restored_meta f0 h' k a.
Definition only (rel : path) (ms : list (Header * bytes)) : Prop :=
  forall c r, is_Some (t !! (D ++ rel ++ c :: r)) -> exists h b, (h, b) ∈ ms /\ rel_of h = rel ++ c :: r.

Lemma source_meta_restored st xs h h' k a : header_meta st xs h -> same_header h h' -> restored_meta f0 h' k a ->
  (is_KLink k = true -> xs = ∅) -> source_meta f0 st xs k a.
Proof.
  intros (Em & Eu & Eg & Et & Ex) HS (Mu & Mg & Mt & Mx) HL. pose proof (same_xattrs _ _ _ HS Ex) as EX.
  destruct HS as (_ & _ & Sm & Su & Sg & St & _). unfold source_meta. rewrite Mu, Mg, Mt, Su, Sg, St, Eu, Eg, Et. split_and!; [done..| |].
  - destruct (is_KLink k); [by rewrite Mx, HL|]. by destruct Mx as [_ ->].
  - intros Hk. rewrite Hk in Mx. destruct Mx as [-> _]. rewrite Sm, Em. by rewrite <- Z.land_assoc.
Qed.
Lemma source_link full st k : source_kind full st k -> is_KLink k = (file_type st =? S_IFLNK).
Proof.
  by intros [(-> & ? & _ & ->)|[(-> & ->)|[(-> & ? & _ & ->)|[(-> & ->)|[(-> & ->)|(-> & ->)]]]]].
Qed.

(** The entry that a member of the directory comes from. *)
Lemma owner n rel p ign ents mss h b : entry_path rel ->
  Forall (fun de => proper_entry (proper n) (p ++ [de.1]) de.1 ign) (kept ign ents) ->
  Forall2 (fun de ms => archived_entry (archived n) rel (p ++ [de.1]) de.1 ign ms) (kept ign ents) mss -> (h, b) ∈ concat mss ->
  exists i de ms r, kept ign ents !! i = Some de /\ mss !! i = Some ms /\ (h, b) ∈ ms /\ rel_of h = rel ++ de.1 :: r.
Proof.
  intros HE HPE HF Hin. apply list_elem_of_In, in_concat in Hin as (ms & Hms%list_elem_of_In & Hin%list_elem_of_In). apply list_elem_of_lookup in Hms as [i Hi].
  destruct (Forall2_lookup_r _ _ _ _ _ HF Hi) as (de & Hde & HA). pose proof (Forall_lookup_1 _ _ _ _ HPE Hde) as HD. cbv beta in HD.
  pose proof (proper_good _ rel _ _ _ HE HD) as HG.
  destruct (entry_below (archived n) rel _ de.1 ign ms HG) with (h := h) (b := b) as [r Hr]; [|done|done|by exists i, de, ms, r].
  intros sub below Hs. apply archived_below; [apply HG|]. by eapply proper_sub.
Qed.

Lemma archived_restored n rel p ign ms : entry_path rel -> proper n p ign -> archived n rel p ign ms ->
  laid ms -> only rel ms -> restored f0 t n p ign (D ++ rel).
Proof.
  revert rel p ign ms. induction n as [|n IH]; intros rel p ign ms HE HP HA HL HO; [done|].
  destruct HA as (ents & mss & ED & -> & HF). destruct (proper_S _ _ _ _ HP ED) as [Hord HPE]. apply kept_proper in HPE.
  pose proof (kept_NoDup ign ents Hord) as HN. exists ents. split; [done|]. split.
  { intros name Hs. rewrite <- app_assoc in Hs. destruct (HO name [] Hs) as (h & b & Hin & HR).
    destruct (owner n rel p ign ents mss h b HE HPE HF Hin) as (i & de & ms & r & Hde & _ & _ & HR'). rewrite HR in HR'.
    apply app_inv_head in HR'. injection HR' as -> _. apply list_elem_of_fmap. exists de. split; [done|]. by eapply list_elem_of_lookup_2. }
  assert (forall i j de de', kept ign ents !! i = Some de -> kept ign ents !! j = Some de' -> de.1 = de'.1 -> i = j) as Uniq.
  { intros i j de de' Hi Hj E. eapply (NoDup_lookup _ i j (de.1) HN); [by rewrite list_lookup_fmap, Hi|by rewrite list_lookup_fmap, Hj, E]. }
  apply Forall_lookup. intros i de Hde. pose proof (Forall_lookup_1 _ _ _ _ HPE Hde) as HD. cbv beta in HD.
  pose proof (proper_good _ rel _ _ _ HE HD) as (HE1 & Hdv & Hlk). destruct (Forall2_lookup_l _ _ _ _ _ HF Hde) as (ms & Hms & HA).
  assert (forall h b r, (h, b) ∈ concat mss -> rel_of h = rel ++ de.1 :: r -> (h, b) ∈ ms) as Mine.
  { intros h b r Hin HR. destruct (owner n rel p ign ents mss h b HE HPE HF Hin) as (j & de' & ms' & r' & Hde' & Hms' & Hin' & HR'). rewrite HR in HR'.
    apply app_inv_head in HR'. injection HR' as E _. by rewrite (Uniq _ _ _ _ Hde Hde' E), Hms' in Hms; injection Hms as <-. }
  destruct (entry_shape (archived n) rel _ _ ign ms HE1 Hdv Hlk HA) as (st & xs & EL & EX & HSh). exists st. split; [done|].
  destruct HSh as [[HT ->]|(HT & h & b & below & k & -> & HR & _ & EK & SK & HM & HB)].
  { rewrite HT. cbn [Z.eqb]. rewrite Z.eqb_refl. destruct (t !! ((D ++ rel) ++ [de.1])) as [n0|] eqn:E; [|done]. exfalso. rewrite <- app_assoc in E.
    destruct (HO (de.1) [] (mk_is_Some _ _ E)) as (h & b & Hin & HR). specialize (Mine h b [] Hin HR). by apply elem_of_nil in Mine. }
  rewrite (proj2 (Z.eqb_neq _ _) HT).
  assert (forall m, m ∈ (h, b) :: below -> m ∈ concat mss) as Up.
  { intros m Hm. apply list_elem_of_In, in_concat. exists ((h, b) :: below). split; apply list_elem_of_In; [by eapply list_elem_of_lookup_2|done]. }
  destruct (HL h b) as (h' & k' & a & HS & EK' & Et & Meta); [apply Up; by left|]. rewrite EK in EK'. injection EK' as <-.
  exists xs, k, a. split; [done|]. split; [by rewrite <- app_assoc, <- HR|]. split; [done|]. split.
  { eapply source_meta_restored; [done..|]. rewrite (source_link _ _ _ SK). intros Hk. by rewrite Hk in EX. }
  intros HTd. destruct HB as [(_ & sub & ES & HA')|[Hn _]]; [|done]. exists sub. split; [done|]. rewrite <- app_assoc.
  apply (IH (rel ++ [de.1]) (p ++ [de.1]) sub below); [done|by eapply proper_sub|done| |].
  - intros h1 b1 Hin. apply HL, Up. by right.
  - intros c r Hs. rewrite <- app_assoc in Hs. destruct (HO (de.1) (c :: r) Hs) as (h1 & b1 & Hin & HR1).
    specialize (Mine h1 b1 (c :: r) Hin HR1). apply elem_of_cons in Mine as [[= -> ->]|Hin1]; [|exists h1, b1; split; [done|by rewrite <- app_assoc]].
    rewrite HR in HR1. apply app_inv_head in HR1. done.
Qed.
End Laid.
End Backup.

(** * The round trip *)

Section RoundTrip.
Context `{Blake3} `{Cbor (list bytes)} `{Cbor Entry} `{Cbor (list Entry)} `{Cbor DirPair}
  `{Cbor (list DirPair)} `{Cdc} `{Gitignore} `{Os}.
Context `{!CborOk (list bytes) (array_wf any)} `{!CborOk Entry entry_wf}
  `{!CborOk (list Entry) (array_wf entry_wf)} `{!CborOk DirPair any}
  `{!CborOk (list DirPair) (array_wf any)} `{!CdcOk}.

(** An empty directory, under a cleaned path, where calls do not fail. *)
Record fresh_dest (dest : bytes) (D : path) (f : Hostfs.FS) : Prop := {
    fd_wf : fs_wf f;
    fd_name : dest <> [];
    fd_clean : clean_dest dest;
    fd_lookup : Hostfs.lookup_path false dest f = Ok D;
    fd_dir : kind_at (tree f) D = Some KDir;
    fd_empty : empty_at f D;
    fd_calm : fs_faults f = []
  }.

(** What package archive/tar promises of its reader: the archive of a source, closed and
    complete, yields its members again. *)
Definition reads_back (tar_reader : res unit * TarWriter -> list (res Member)) (n : nat) (p : path) (ign : option Matcher) : Prop :=
  forall w, tw_closed w = true -> tw_left w = 0 -> archived n [] p ign (tw_members w) ->
  exists back, Forall2 same_member (tw_members w) back /\ tar_reader (Ok tt, w) = read back.

(** A tree that mirrors a source is exported, and the archive extracted, as the source. *)
Lemma restore_mirrored encodable get n p ign k : proper n p ign -> mirrors get n p ign k ->
  exists N, forall fuel faults r w, (N <= fuel)%nat -> Write encodable get fuel k (NewTarWriter faults) = (r, w) ->
  (r = Ok tt -> (tw_closed w = true /\ tw_left w = 0 /\ archived n [] p ign (tw_members w)) /\ forall back dest D f, Forall2 same_member (tw_members w) back -> fresh_dest dest D f ->
    exists f', Extract (read back) dest f = (Ok tt, f') /\ restored f (tree f') n p ign D /\ (forall q, ~ D `prefix_of` q -> tree f' !! q = tree f !! q)) /\
  (faults = [] -> expressible encodable n p ign -> r = Ok tt).
Proof.
  intros HP HM. destruct (Write_puts encodable get n p ign k HP HM) as (mcs & N & HA & HZ & HW). exists N. intros fuel faults r w Hf EW.
  rewrite HW in EW by done. destruct (puts_close encodable mcs faults r w HZ EW) as [P1 P2]. split; [|intros Hfa HE; apply P2; [done|]; pose proof (HE _ HA) as HF; by apply Forall_fmap in HF].
  intros Hr. destruct (P1 Hr) as (Em & El & Ecl). split; [by rewrite Em|].
  intros back dest D f HB [W HN HC HL HK HE HCl]. rewrite Em in HB.
  assert (entry_path []) as HE0 by (by split).
  assert (orderly [] back) as HO.
  { eapply same_orderly; [constructor|exact HB|]. eapply archived_orderly; [exact HE0|exact HP|exact HA|by left|]. intros c h b Hin. by apply elem_of_nil in Hin. }
  destruct (Extract_run dest D back f) as (f' & EX & HN1 & HO1 & HI); [by split|done..|]. exists f'. split; [done|]. split; [|apply HI].
  rewrite <- (app_nil_r D). eapply archived_restored; [exact HE0|exact HP|exact HA| |].
  - intros h b (i & Hi)%list_elem_of_lookup. destruct (Forall2_lookup_l _ _ _ _ _ HB Hi) as ([h' b'] & Hb' & HS' & Eb). cbn [fst snd] in HS', Eb. subst b'.
    destruct (HN1 h' b) as (k0 & a & EK & Et & HMt); [by eapply list_elem_of_lookup_2|]. exists h', k0, a.
    rewrite (same_kind _ _ _ HS') in EK. rewrite (same_rel _ _ HS') in Et. done.
  - intros c r0 Hs. destruct (HO1 (c :: r0) ltac:(done) Hs) as (h' & b & (i & Hi)%list_elem_of_lookup & HR').
    destruct (Forall2_lookup_r _ _ _ _ _ HB Hi) as ([h b0] & Hb0 & HS' & _). exists h, b0. split; [by eapply list_elem_of_lookup_2|].
    rewrite HR'. symmetry. by apply same_rel.
Qed.
Lemma backup_steps itemBits inlineMax d n p ign fuel :
  0 <= itemBits <= 15 -> opts_driver itemBits inlineMax = Ok d -> readable n p ign -> proper n p ign -> (n <= fuel)%nat ->
  exists k objs, buildDir d log_emit fuel p ign [] = (Ok k, objs) /\
  forall get encodable, serves get objs -> exists N, forall fuel' faults w, (N <= fuel')%nat ->
  Write encodable get fuel' k (NewTarWriter faults) = (Ok tt, w) -> tw_closed w = true /\
  forall back dest D f, Forall2 same_member (tw_members w) back -> fresh_dest dest D f ->
  exists f', Extract (read back) dest f = (Ok tt, f') /\ restored f (tree f') n p ign D /\
  (forall q, ~ D `prefix_of` q -> tree f' !! q = tree f !! q).
Proof.
  intros Hb Hd HR HP Hf. destruct (opts_driver_ok _ _ _ Hb Hd) as [Hc Hm].
  destruct (buildDir_ok d Hc Hm n p ign fuel HR Hf []) as (k & objs & E & _ & HM). exists k, objs. split; [done|]. intros get encodable HS.
  destruct (restore_mirrored encodable get n p ign k HP (HM get HS)) as (N & HN). exists N. intros fuel' faults w Hf' EW. destruct (HN _ _ _ _ Hf' EW) as [HOk _]. by destruct (HOk eq_refl) as [(? & _ & _) ?].
Qed.

(** Backup and restore: a source that can be read is ingested without error; from any
    store that serves the objects, an export that reports success has closed an archive
    which, read back in whatever order the attribute records come, is extracted without
    error into an empty directory, and that directory then holds the source - the entries
    not ignored and no others, sockets apart, recursively, each with its kind, bytes, link
    target or device numbers, modification time, permission bits, attributes and, for the
    superuser, owner - while nothing outside it has changed. *)
Theorem backup_roundtrip itemBits inlineMax d n p ign fuel :
  0 <= itemBits <= 15 -> opts_driver itemBits inlineMax = Ok d -> readable n p ign -> proper n p ign -> (n <= fuel)%nat ->
  exists k objs, buildDir d log_emit fuel p ign [] = (Ok k, objs) /\
  forall get encodable, serves get objs -> exists N, forall fuel' faults w, (N <= fuel')%nat ->
  Write encodable get fuel' k (NewTarWriter faults) = (Ok tt, w) -> tw_closed w = true /\
  forall back dest D f, Forall2 same_member (tw_members w) back -> fresh_dest dest D f ->
  exists f', Extract (read back) dest f = (Ok tt, f') /\ restored f (tree f') n p ign D /\
  (forall q, ~ D `prefix_of` q -> tree f' !! q = tree f !! q).
Proof. by apply backup_steps. Qed.
End RoundTrip.

Lemma same_members_refl ms : Forall2 same_member ms ms.
Proof.
  apply Forall2_same_length_lookup_2; [reflexivity|]. intros i x y Hx Hy. rewrite Hx in Hy. injection Hy as <-. split; [|reflexivity]. repeat (split; [reflexivity|]). reflexivity.
Qed.
Lemma sample_fresh : fresh_dest (slash :: c_out) [c_out] (sample_fs []).
Proof.
  split; [apply sample_wf|discriminate|apply clean_out|vm_compute; reflexivity|vm_compute; reflexivity|apply out_empty|reflexivity].
Qed.
(** A format that refuses the keywords that archive/tar refuses, and a reader. *)
Definition equals_sign : byte := x3d.
Definition pax_keyword (k : bytes) : bool := negb (bool_decide (k = [])) && negb (existsb (fun c => bool_decide (c = equals_sign)) k).
Definition pax_format (h : Header) : res unit :=
  if forallb (fun kv => pax_keyword kv.1) (h_PAXRecords h) then Ok tt else Err [EExt "archive/tar: cannot encode header: invalid PAX record"].
Definition plain_reader (x : res unit * TarWriter) : list (res Member) := match x.1 with Ok _ => read (tw_members x.2) | Err e => read (tw_members x.2) ++ [Err e] end.
Lemma plain_reads_back n p ign : reads_back plain_reader n p ign.
Proof. intros w _ _ _. exists (tw_members w). split; [apply same_members_refl|reflexivity]. Qed.

Lemma small_attributes full xs : readXattrsWith Llistxattr Lgetxattr full = Ok xs -> xs = ∅ \/ xs = {[ [x75] := [x01] ]}.
Proof.
  intros E. destruct (decide (full = [[x61]])) as [->|Hne].
  - right. assert (readXattrsWith Llistxattr Lgetxattr [[x61]] = Ok {[ [x75] := [x01] ]}) as E2 by (vm_compute; reflexivity). congruence.
  - left. assert (Llistxattr full = Err [ENOTSUP]) as EL by (destruct full as [|[|b [|? ?]] [|? ?]]; try reflexivity; destruct b; by try reflexivity).
    unfold readXattrsWith in E. rewrite EL in E. unfold ignoreUnsupported in E. case_decide as Hin; [by injection E|by destruct Hin; left].
Qed.
Lemma small_expressible n p ign : expressible pax_format n p ign.
Proof.
  intros ms HA. eapply List.Forall_impl; [|exact (archived_records _ _ _ _ _ HA)]. intros [h b] (full & xs & ER & HX). cbn [fst] in *.
  unfold pax_format. rewrite ER. assert (xs = ∅ \/ xs = {[ [x75] := [x01] ]}) as [-> | ->]; [|reflexivity|reflexivity].
  destruct HX as [-> |HX]; [by left|by eapply small_attributes].
Qed.
(** An attribute whose name holds an equals sign has no header. *)
Example equals_sign_refused st : is_ok (pax_format (meta_header [x61] TypeReg st {[ [x61; x3d; x62] := [x01] ]})) = false.
Proof. reflexivity. Qed.
Lemma backup_roundtrip_witness :
  exists k objs N, buildDir sample_driver log_emit 2 [] sample_ignore [] = (Ok k, objs) /\
  forall w, Write (fun _ => Ok tt) (log_get objs) N k (NewTarWriter []) = (Ok tt, w) ->
  exists f', Extract (read (tw_members w)) (slash :: c_out) (sample_fs []) = (Ok tt, f') /\ restored (sample_fs []) (tree f') 2 [] sample_ignore [c_out].
Proof.
  destruct (backup_roundtrip 1 0 sample_driver 2 [] sample_ignore 2 sample_bits sample_driver_eq sample_readable sample_proper (le_n 2)) as (k & objs & E & HB).
  assert (log_serves (buildDir sample_driver log_emit 2 [] sample_ignore []).2 = true) as ES by (vm_compute; reflexivity).
  rewrite E in ES. destruct (HB (log_get objs) (fun _ => Ok tt) (log_serves_spec objs ES)) as (N & HN).
  exists k, objs, N. split; [exact E|]. intros w EW. destruct (HN N [] w (le_n N) EW) as [_ HX].
  destruct (HX (tw_members w) (slash :: c_out) [c_out] (sample_fs [])) as (f' & EX & HR & _); [|exact sample_fresh|exists f'; split; [exact EX|exact HR]].
  apply same_members_refl.
Defined.
