(* ===== verification/Prescan.v ===== *)
(** Package ingest, scan.go (src/ingest/scan.go): the concurrent walk that totals the files a
    build will read. A process is the tree of calls in progress - a loop over a directory with
    its inline call and the pooled goroutines its wait group counts - and a schedule is a list
    of positions in that tree. *)
From S2P Require Import Prelude External Concrete Key Cborx Pack Chunker Objects Readers Builder Trees Amberignore Ingest Mirror.

(** ** The file modes Go derives from [st_mode] *)

Definition ModeDir : Z := 2 ^ 31.
Definition ModeSymlink : Z := 2 ^ 27.
Definition ModeDevice : Z := 2 ^ 26.
Definition ModeNamedPipe : Z := 2 ^ 25.
Definition ModeSocket : Z := 2 ^ 24.
Definition ModeCharDevice : Z := 2 ^ 21.
(** [info.Mode() & os.ModeType] *)
Definition mode_type (info : Stat) : Z :=
  let fmt := Z.land (st_mode info) S_IFMT in
  if fmt =? S_IFBLK then ModeDevice
  else if fmt =? S_IFCHR then Z.lor ModeDevice ModeCharDevice
  else if fmt =? S_IFDIR then ModeDir
  else if fmt =? S_IFIFO then ModeNamedPipe
  else if fmt =? S_IFLNK then ModeSymlink
  else if fmt =? S_IFSOCK then ModeSocket
  else 0.

(** ** The scanner *)

Record scanner := MkScanner { s_files : Z; s_bytes : Z; s_sem : Z; firstErr : option error }.
Definition setErr (e : error) (s : scanner) : scanner :=
  MkScanner (s_files s) (s_bytes s) (s_sem s) (match firstErr s with None => Some e | Some e0 => Some e0 end).
Definition add_file (s : scanner) : scanner := MkScanner (s64 (s_files s + 1)) (s_bytes s) (s_sem s) (firstErr s).
Definition add_bytes (n : Z) (s : scanner) : scanner := MkScanner (s_files s) (s64 (s_bytes s + n)) (s_sem s) (firstErr s).
Definition set_sem (n : Z) (s : scanner) : scanner := MkScanner (s_files s) (s_bytes s) n (firstErr s).

Section Scanner.
Context `{Gitignore} `{Os}.

(** A call in progress. *)
#[warnings="-register-all"]
Inductive proc :=
  | PWalk (dir : path) (ign : option Matcher)                       (* walk, before ReadDir *)
  | PRange (dir : path) (ign : option Matcher) (ents : list (bytes * bool))
    (inline : option proc) (pool : list proc)                     (* walk's loop, then wg.Wait *)
  | PDo (full : path) (name : bytes) (ign : option Matcher)         (* do, before Lstat *)
  | PDescend (full : path) (name : bytes) (ign : option Matcher)    (* do, case os.ModeDir *)
  | PFile (size : Z)                                                (* do, case 0 *)
  | PBytes (size : Z)                                               (* after s.files.Add *)
  | PFail (e : error)                                               (* before s.setErr *)
  | PDone                                                           (* returned *)
  | PReleased.                                                      (* a goroutine before wg.Done *)

Definition after_stat (full : path) (name : bytes) (ign : option Matcher) (r : res Stat) : proc :=
  match r with
  | Err e => PFail e
  | Ok info =>
      let mt := mode_type info in
      if mt =? ModeDir then PDescend full name ign
      else if mt =? 0 then PFile (st_size info)
      else PDone
  end.

(** One step at a position: [[]] is the call itself, [0 :: c] its inline call, [S i :: c] the
    pooled goroutine [i] of its wait group. *)
Fixpoint sc_move (jobs : Z) (c : list nat) (s : scanner) (p : proc) : option (scanner * proc) :=
  match p, c with
  | PWalk dir ign, [] =>
      Some (s, match ReadDir dir with Err e => PFail e | Ok ents => PRange dir ign ents None [] end)
  | PRange dir ign ents None pool, [] =>
      match ents with
      | [] => match pool with [] => Some (s, PDone) | _ => None end
      | (name, isDir) :: ents =>
          if Ignored ign name isDir then Some (s, PRange dir ign ents None pool)
          else
            let call := PDo (dir ++ [name]) name ign in
            if s_sem s <? jobs then Some (set_sem (s_sem s + 1) s, PRange dir ign ents None (pool ++ [call]))
            else Some (s, PRange dir ign ents (Some call) pool)
      end
  | PRange dir ign ents (Some q) pool, O :: c =>
      match q with
      | PDone => Some (s, PRange dir ign ents None pool)
      | _ => '(s', q') ← sc_move jobs c s q; Some (s', PRange dir ign ents (Some q') pool)
      end
  | PRange dir ign ents inline pool, S i :: c =>
      q ← pool !! i;
      match q with
      | PDone => if 0 <? s_sem s then Some (set_sem (s_sem s - 1) s, PRange dir ign ents inline (<[i := PReleased]> pool)) else None
      | PReleased => Some (s, PRange dir ign ents inline (delete i pool))
      | _ => '(s', q') ← sc_move jobs c s q; Some (s', PRange dir ign ents inline (<[i := q']> pool))
      end
  | PDo full name ign, [] => Some (s, after_stat full name ign (Lstat full))
  | PDescend full name ign, [] =>
      Some (s, match Descend ign full name with Err e => PFail e | Ok sub => PWalk full sub end)
  | PFile size, [] => Some (add_file s, PBytes size)
  | PBytes size, [] => Some (add_bytes size s, PDone)
  | PFail e, [] => Some (setErr e s, PDone)
  | _, _ => None
  end.

Fixpoint sc_run (jobs : Z) (cs : list (list nat)) (st : scanner * proc) : option (scanner * proc) :=
  match cs with
  | [] => Some st
  | c :: cs => st' ← sc_move jobs c st.1 st.2; sc_run jobs cs st'
  end.

Definition new_scanner : scanner := MkScanner 0 0 0 None.
Definition clamp_jobs (jobs : Z) : Z := if jobs <? 1 then 1 else jobs.
Definition scan_start (dir : path) (ign : option Matcher) : scanner * proc := (new_scanner, PWalk dir ign).
Definition scan_totals (s : scanner) : res (Z * Z) :=
  match firstErr s with Some e => Err e | None => Ok (s_files s, s_bytes s) end.
(** [None]: the schedule does not run the walk to its return. *)
Definition scanTree (dir : path) (ign : option Matcher) (jobs : Z) (cs : list (list nat)) : option (res (Z * Z)) :=
  st ← sc_run (clamp_jobs jobs) cs (scan_start dir ign);
  match st.2 with PDone => Some (scan_totals st.1) | _ => None end.
Definition scan_ignore (dir : path) (noIgnore : bool) : res (option Matcher) :=
  if noIgnore then Ok None else m ← Root dir; Ok (Some m).
Definition Scan (dir : path) (noIgnore : bool) (jobs : Z) (cs : list (list nat)) : option (res (Z * Z)) :=
  match scan_ignore dir noIgnore with
  | Err e => Some (Err e)
  | Ok ign => scanTree dir ign jobs cs
  end.

(** ** The reference traversal *)

(** What a scan does to its totals. *)
Inductive event := EFile | EBytes (n : Z) | EError (e : error).
Definition note (s : scanner) (ev : event) : scanner :=
  match ev with EFile => add_file s | EBytes n => add_bytes n s | EError e => setErr e s end.

Section Entry.
Context (sub_tally : path -> option Matcher -> list event) (sub_cost : path -> option Matcher -> nat)
  (sub_shallow : path -> option Matcher -> Prop).
Definition descend_tally (full : path) (name : bytes) (ign : option Matcher) : list event :=
  match Descend ign full name with Err e => [EError e] | Ok m => sub_tally full m end.
Definition entry_tally (ign : option Matcher) (full : path) (name : bytes) : list event :=
  match Lstat full with
  | Err e => [EError e]
  | Ok info =>
      if mode_type info =? ModeDir then descend_tally full name ign
      else if mode_type info =? 0 then [EFile; EBytes (st_size info)] else []
  end.
Definition ents_tally (dir : path) (ign : option Matcher) (ents : list (bytes * bool)) : list event :=
  concat (map (fun de => entry_tally ign (dir ++ [de.1]) de.1) (kept ign ents)).

Definition descend_cost (full : path) (name : bytes) (ign : option Matcher) : nat :=
  S match Descend ign full name with Err _ => 2 | Ok m => sub_cost full m end.
Definition entry_cost (ign : option Matcher) (full : path) (name : bytes) : nat :=
  S match Lstat full with
    | Err _ => 2
    | Ok info => if mode_type info =? ModeDir then descend_cost full name ign else if mode_type info =? 0 then 3 else 1
    end.
Definition ents_cost (dir : path) (ign : option Matcher) (ents : list (bytes * bool)) : nat :=
  sum_list_with (fun de => if Ignored ign de.1 de.2 then 1 else 2 + entry_cost ign (dir ++ [de.1]) de.1)%nat ents.

Definition descend_shallow (full : path) (name : bytes) (ign : option Matcher) : Prop :=
  forall m, Descend ign full name = Ok m -> sub_shallow full m.
Definition entry_shallow (ign : option Matcher) (full : path) (name : bytes) : Prop :=
  forall info, Lstat full = Ok info -> mode_type info = ModeDir -> descend_shallow full name ign.
Definition ents_shallow (dir : path) (ign : option Matcher) (ents : list (bytes * bool)) : Prop :=
  Forall (fun de => entry_shallow ign (dir ++ [de.1]) de.1) (kept ign ents).
End Entry.

(** The scan, sequentially; [n] is more than the depth of the tree. *)
Fixpoint tally (n : nat) (dir : path) (ign : option Matcher) : list event :=
  match n with
  | O => []
  | S n => match ReadDir dir with Err e => [EError e] | Ok ents => ents_tally (tally n) dir ign ents end
  end.
(** The steps a scan of the tree takes, whatever the schedule. *)
Fixpoint dir_cost (n : nat) (dir : path) (ign : option Matcher) : nat :=
  match n with
  | O => 0%nat
  | S n => match ReadDir dir with Err _ => 3 | Ok ents => 3 + ents_cost (dir_cost n) dir ign ents end%nat
  end.
Fixpoint shallow (n : nat) (dir : path) (ign : option Matcher) : Prop :=
  match n with
  | O => False
  | S n => forall ents, ReadDir dir = Ok ents -> ents_shallow (shallow n) dir ign ents
  end.

Lemma entry_shallow_impl (P Q : path -> option Matcher -> Prop) ign full name :
  (forall p m, P p m -> Q p m) -> entry_shallow P ign full name -> entry_shallow Q ign full name.
Proof. unfold entry_shallow, descend_shallow. eauto. Qed.

Section Ext.
Context (P : path -> option Matcher -> Prop) (f g : path -> option Matcher -> list event)
  (cf cg : path -> option Matcher -> nat).
Hypothesis Hfg : forall p m, P p m -> f p m = g p m.
Hypothesis Hc : forall p m, P p m -> cf p m = cg p m.
Lemma entry_tally_ext ign full name : entry_shallow P ign full name -> entry_tally f ign full name = entry_tally g ign full name.
Proof.
  unfold entry_shallow, descend_shallow, entry_tally, descend_tally. intros HS. destruct (Lstat full) as [info|]; [|done].
  destruct (Z.eqb_spec (mode_type info) ModeDir) as [E|]; [|done].
  destruct (Descend ign full name) as [m|]; [|done]. apply Hfg. eauto.
Qed.
Lemma entry_cost_ext ign full name : entry_shallow P ign full name -> entry_cost cf ign full name = entry_cost cg ign full name.
Proof.
  unfold entry_shallow, descend_shallow, entry_cost, descend_cost. intros HS. destruct (Lstat full) as [info|]; [|done].
  destruct (Z.eqb_spec (mode_type info) ModeDir) as [E|]; [|done].
  destruct (Descend ign full name) as [m|]; [|done]. do 2 f_equal. apply Hc. eauto.
Qed.
Lemma ents_tally_ext dir ign ents : ents_shallow P dir ign ents -> ents_tally f dir ign ents = ents_tally g dir ign ents.
Proof.
  unfold ents_shallow, ents_tally. intros HF. f_equal. apply map_ext_in. intros de Hin%list_elem_of_In.
  apply entry_tally_ext. rewrite list.Forall_forall in HF. by apply HF.
Qed.
Lemma ents_cost_ext dir ign ents : ents_shallow P dir ign ents -> ents_cost cf dir ign ents = ents_cost cg dir ign ents.
Proof.
  unfold ents_shallow, ents_cost, kept. induction ents as [|de ents IH]; [done|]. cbn [sum_list_with].
  rewrite filter_cons. destruct (decide _) as [E|E].
  - intros [HE HF]%list.Forall_cons. rewrite E, (entry_cost_ext _ _ _ HE). by rewrite IH.
  - apply not_false_is_true in E. rewrite E. intros HF. by rewrite IH.
Qed.
End Ext.

Lemma shallow_mono n m dir ign : shallow n dir ign -> (n <= m)%nat ->
  shallow m dir ign /\ tally m dir ign = tally n dir ign /\ dir_cost m dir ign = dir_cost n dir ign.
Proof.
  revert m dir ign. induction n as [|n IH]; intros [|m] dir ign HS Hm; try done; [lia|].
  cbn [shallow tally dir_cost] in *. assert (n <= m)%nat as Hm' by lia. split_and!.
  - intros ents E. eapply list.Forall_impl; [by apply HS|]. intros de. apply entry_shallow_impl. intros p i HP. by apply IH.
  - destruct (ReadDir dir) as [ents|]; [|done]. apply (ents_tally_ext (shallow n)); [|by apply HS]. intros p i HP. by apply IH.
  - destruct (ReadDir dir) as [ents|]; [|done]. f_equal. apply (ents_cost_ext (shallow n)); [|by apply HS]. intros p i HP. by apply IH.
Qed.

(** ** What a process still owes *)

Section Owes.
Context (N : nat).
Fixpoint todo (p : proc) : list event :=
  match p with
  | PWalk dir ign => tally N dir ign
  | PRange dir ign ents inline pool =>
      ents_tally (tally N) dir ign ents ++ match inline with Some q => todo q | None => [] end ++ concat (map todo pool)
  | PDo full name ign => entry_tally (tally N) ign full name
  | PDescend full name ign => descend_tally (tally N) full name ign
  | PFile size => [EFile; EBytes size]
  | PBytes size => [EBytes size]
  | PFail e => [EError e]
  | PDone | PReleased => []
  end.
Fixpoint cost (p : proc) : nat :=
  match p with
  | PWalk dir ign => dir_cost N dir ign
  | PRange dir ign ents inline pool =>
      2 + ents_cost (dir_cost N) dir ign ents + match inline with Some q => S (cost q) | None => 0 end
        + sum_list_with (fun q => S (cost q)) pool
  | PDo full name ign => entry_cost (dir_cost N) ign full name
  | PDescend full name ign => descend_cost (dir_cost N) full name ign
  | PFile _ => 3
  | PBytes _ | PFail _ => 2
  | PDone => 1
  | PReleased => 0
  end%nat.
(** The semaphore slots its goroutines hold. *)
Fixpoint held (p : proc) : nat :=
  match p with
  | PRange _ _ _ inline pool =>
      match inline with Some q => held q | None => 0 end
        + sum_list_with (fun q => match q with PReleased => 0 | _ => 1 end + held q) pool
  | _ => 0
  end%nat.
(** The tree below is shallow enough, and only pooled goroutines release. *)
Fixpoint fits (p : proc) : Prop :=
  match p with
  | PWalk dir ign => shallow N dir ign
  | PRange dir ign ents inline pool =>
      ents_shallow (shallow N) dir ign ents /\
      match inline with Some q => fits q /\ q <> PReleased | None => True end /\
      foldr (fun q P => fits q /\ P) True pool
  | PDo full name ign => entry_shallow (shallow N) ign full name
  | PDescend full name ign => descend_shallow (shallow N) full name ign
  | _ => True
  end.

Lemma all_fit pool : foldr (fun q P => fits q /\ P) True pool <-> Forall fits pool.
Proof. induction pool as [|q pool IH]; cbn [foldr]; [by split; [constructor|]|]. by rewrite IH, list.Forall_cons. Qed.

(** A step from [p] to [p'] turns the scanner [s] into [s']: what is noted was owed. *)
Definition advances (jobs : Z) (s : scanner) (p : proc) (s' : scanner) (p' : proc) : Prop :=
  fits p' /\ (cost p' < cost p)%nat /\
  s_sem s' - Z.of_nat (held p') = s_sem s - Z.of_nat (held p) /\
  (s_sem s <= jobs -> s_sem s' <= jobs) /\
  exists evs, foldl note s evs = set_sem (s_sem s) s' /\ todo p ≡ₚ evs ++ todo p'.

Lemma set_sem_id s : set_sem (s_sem s) s = s.
Proof. by destruct s. Qed.
Lemma silent s n : foldl note s [] = set_sem (s_sem s) (set_sem n s).
Proof. by destruct s. Qed.

Lemma pool_split (pool : list proc) i q : pool !! i = Some q -> exists l1 l2, pool = l1 ++ q :: l2 /\
  delete i pool = l1 ++ l2 /\ forall q', <[i := q']> pool = l1 ++ q' :: l2.
Proof.
  intros E. exists (take i pool), (drop (S i) pool). split; [symmetry; by apply take_drop_middle|].
  split; [apply delete_take_drop|]. intros q'. apply insert_take_drop. by apply lookup_lt_Some in E.
Qed.

Lemma ents_cost_cons f dir ign de ents : ents_cost f dir ign (de :: ents) =
  ((if Ignored ign de.1 de.2 then 1 else 2 + entry_cost f ign (dir ++ [de.1]) de.1) + ents_cost f dir ign ents)%nat.
Proof. done. Qed.
Lemma ents_tally_cons f dir ign de ents : ents_tally f dir ign (de :: ents) =
  (if Ignored ign de.1 de.2 then [] else entry_tally f ign (dir ++ [de.1]) de.1) ++ ents_tally f dir ign ents.
Proof.
  unfold ents_tally, kept. rewrite filter_cons. destruct (decide _) as [E|E]; [by rewrite E|].
  apply not_false_is_true in E. by rewrite E.
Qed.
Lemma ents_shallow_cons P dir ign de ents : ents_shallow P dir ign (de :: ents) <->
  (if Ignored ign de.1 de.2 then True else entry_shallow P ign (dir ++ [de.1]) de.1) /\ ents_shallow P dir ign ents.
Proof.
  unfold ents_shallow, kept. rewrite filter_cons. destruct (decide _) as [E|E]; [by rewrite E, list.Forall_cons|].
  apply not_false_is_true in E. rewrite E. tauto.
Qed.

(** A call steps inside its caller. *)
Lemma advances_inline jobs s s' q q' dir ign ents pool :
  fits (PRange dir ign ents (Some q) pool) -> q' <> PReleased -> advances jobs s q s' q' ->
  advances jobs s (PRange dir ign ents (Some q) pool) s' (PRange dir ign ents (Some q') pool).
Proof.
  intros (FE & _ & FP) Hq (F' & C & S & J & evs & E & T). split; [by repeat split|].
  cbn [cost held todo]. split; [lia|]. split; [lia|]. split; [done|]. exists evs. split; [done|].
  rewrite T. solve_Permutation.
Qed.

Lemma advances_pool jobs s s' q q' dir ign ents inline l1 l2 :
  fits (PRange dir ign ents inline (l1 ++ q :: l2)) -> q <> PReleased -> q' <> PReleased -> advances jobs s q s' q' ->
  advances jobs s (PRange dir ign ents inline (l1 ++ q :: l2)) s' (PRange dir ign ents inline (l1 ++ q' :: l2)).
Proof.
  intros (FE & FI & FP) Hq Hq' (F' & C & S & J & evs & E & T). split; [|].
  { split; [done|]. split; [done|]. rewrite all_fit, Forall_app, list.Forall_cons in *. tauto. }
  cbn [cost held todo]. rewrite !sum_list_with_app, !map_app, !concat_app. cbn [sum_list_with map concat].
  split; [lia|]. split; [destruct q, q'; (done || lia)|]. split; [done|]. exists evs. split; [done|].
  rewrite T. solve_Permutation.
Qed.

Ltac quiet := cbn [cost held todo fits]; split_and!; try done; try lia; try (exists []; split; [match goal with s : scanner |- _ => by destruct s end|done]).

Lemma walk_move jobs s dir ign : shallow N dir ign ->
  advances jobs s (PWalk dir ign) s match ReadDir dir with Err e => PFail e | Ok ents => PRange dir ign ents None [] end.
Proof.
  intros HF. unfold advances. destruct N as [|n] eqn:EN; [done|].
  assert (forall p m, shallow n p m -> shallow N p m /\ tally N p m = tally n p m /\ dir_cost N p m = dir_cost n p m) as Mono.
  { intros p m HP. apply shallow_mono; [done|lia]. }
  cbn [cost held todo]. replace (tally N dir ign) with (tally (S n) dir ign) by (by rewrite EN).
  replace (dir_cost N dir ign) with (dir_cost (S n) dir ign) by (by rewrite EN). cbn [tally dir_cost shallow] in *.
  destruct (ReadDir dir) as [ents|e]; [|quiet]. pose proof (HF ents eq_refl) as HS. cbn [fits cost held todo sum_list_with map concat].
  rewrite (ents_cost_ext (shallow n) (dir_cost N) (dir_cost n)), (ents_tally_ext (shallow n) (tally N) (tally n))
    by (done || (intros ? ? HP; by apply Mono)).
  split_and!; try done; try lia.
  - eapply list.Forall_impl; [exact HS|]. intros de. apply entry_shallow_impl. intros p m HP. by apply Mono.
  - exists []. split; [by destruct s|]. by rewrite !app_nil_r.
Qed.

Lemma leaf_move jobs s p s' p' : (forall dir ign ents inline pool, p <> PRange dir ign ents inline pool) ->
  sc_move jobs [] s p = Some (s', p') -> fits p -> advances jobs s p s' p' /\ p' <> PReleased.
Proof.
  intros Hne HM HF. destruct p as [dir ign|dir ign ents inline pool|full name ign|full name ign|size|size|e| |]; cbn [sc_move fits] in *; simplify_eq.
  - split; [by apply walk_move|by destruct (ReadDir dir)].
  - by destruct (Hne dir ign ents inline pool).
  - unfold advances, entry_tally, entry_cost, entry_shallow, after_stat in *. cbn [cost todo held].
    unfold entry_tally, entry_cost. destruct (Lstat full) as [info|e]; [|by quiet].
    destruct (Z.eqb_spec (mode_type info) ModeDir) as [E|E]; [split; [|done]; cbn [fits]; quiet; by apply (HF info)|].
    destruct (mode_type info =? 0); by quiet.
  - unfold advances, descend_shallow in *. cbn [cost todo held]. unfold descend_tally, descend_cost.
    destruct (Descend ign full name) as [m|e]; [|by quiet]. split; [|done]. cbn [fits]. quiet. by apply HF.
  - split; [|done]. unfold advances. quiet. by exists [EFile].
  - split; [|done]. unfold advances. quiet. by exists [EBytes size].
  - split; [|done]. unfold advances. quiet. by exists [EError e].
Qed.

(** The loop takes its next entry, or returns when its wait group is empty. *)
Lemma range_move jobs s dir ign ents inline pool s' p' :
  sc_move jobs [] s (PRange dir ign ents inline pool) = Some (s', p') -> fits (PRange dir ign ents inline pool) ->
  advances jobs s (PRange dir ign ents inline pool) s' p' /\ p' <> PReleased.
Proof.
  destruct inline as [q|]; [done|]. cbn [sc_move]. unfold advances. destruct ents as [|[name isDir] ents].
  - destruct pool; [|done]. intros [= <- <-] _. cbn [sum_list_with]. by quiet.
  - cbn [fits]. rewrite ents_shallow_cons. cbn [cost todo held]. rewrite ents_cost_cons, ents_tally_cons. cbn [fst snd].
    destruct (Ignored ign name isDir); [intros [= <- <-] ([_ HS] & _ & FP); split; [|done]; by quiet|].
    destruct (Z.ltb_spec (s_sem s) jobs) as [Hs|Hs]; intros [= <- <-] ([HE HS] & _ & FP); (split; [|done]);
      cbn [fits cost held todo]; rewrite ?sum_list_with_app, ?map_app, ?concat_app; cbn [sum_list_with map concat s_sem set_sem cost held todo].
    + split; [rewrite all_fit in *; split; [done|]; split; [done|]; apply Forall_app; split; [done|]; by constructor|].
      split_and!; try lia. exists []. split; [by destruct s|]. solve_Permutation.
    + split_and!; try done; try lia. exists []. split; [by destruct s|]. solve_Permutation.
Qed.

(** A goroutine gives its slot back, then leaves the wait group. *)
Lemma pool_exit jobs s s' dir ign ents inline l1 l2 q rest :
  fits (PRange dir ign ents inline (l1 ++ q :: l2)) ->
  (q = PDone /\ s' = set_sem (s_sem s - 1) s /\ rest = [PReleased]) \/ (q = PReleased /\ s' = s /\ rest = []) ->
  advances jobs s (PRange dir ign ents inline (l1 ++ q :: l2)) s' (PRange dir ign ents inline (l1 ++ rest ++ l2)).
Proof.
  intros (FE & FI & FP) HR. rewrite all_fit, Forall_app, list.Forall_cons in FP. destruct FP as (F1 & _ & F2). unfold advances.
  destruct HR as [(-> & -> & ->)|(-> & -> & ->)]; cbn [app fits cost held todo]; rewrite !sum_list_with_app, !map_app, !concat_app, all_fit, Forall_app;
    cbn [sum_list_with map concat cost held todo s_sem set_sem app]; (split_and!; try done; try lia; try (by repeat constructor));
    exists []; (split; [by destruct s|done]).
Qed.

Lemma move_ok jobs c s p s' p' : sc_move jobs c s p = Some (s', p') -> fits p -> advances jobs s p s' p' /\ p' <> PReleased.
Proof.
  revert s p s' p'. induction c as [|i c IH]; intros s p s' p' HM HF.
  - destruct (match p with PRange _ _ _ _ _ => true | _ => false end) eqn:EP.
    + destruct p; try done. by apply range_move.
    + apply leaf_move; [by intros * ->|done|done].
  - destruct p as [| dir ign ents inline pool | | | | | | | ]; try done. destruct i as [|i].
    + destruct inline as [q|]; [|done]. pose proof HF as (FE & [Fq Hq] & FP).
      destruct (match q with PDone => true | _ => false end) eqn:ED.
      * destruct q; try done. cbn [sc_move] in HM. simplify_eq. split; [|done]. unfold advances. by quiet.
      * assert (exists q', sc_move jobs c s q = Some (s', q') /\ p' = PRange dir ign ents (Some q') pool) as (q' & Eq & ->).
        { cbn [sc_move] in HM. destruct q; try done; (destruct (sc_move jobs c s _) as [[s1 q1]|]; [|done]); cbn [mbind option_bind] in HM; simplify_eq; eauto. }
        destruct (IH _ _ _ _ Eq Fq) as [HA Hq']. split; [|done]. by apply advances_inline.
    + cbn [sc_move] in HM. destruct (pool !! i) as [q|] eqn:Ei; [|destruct inline; done].
      assert (match q with
        | PDone => if 0 <? s_sem s then Some (set_sem (s_sem s - 1) s, PRange dir ign ents inline (<[i:=PReleased]> pool)) else None
        | PReleased => Some (s, PRange dir ign ents inline (delete i pool))
        | _ => '(s', q') ← sc_move jobs c s q; Some (s', PRange dir ign ents inline (<[i:=q']> pool))
        end = Some (s', p')) as HM' by (destruct inline; exact HM). clear HM.
      destruct (pool_split _ _ _ Ei) as (l1 & l2 & -> & ED & EI). rewrite EI, ED in HM'.
      pose proof HF as (FE & FI & FP). rewrite all_fit, Forall_app, list.Forall_cons in FP. destruct FP as (F1 & Fq & F2).
      destruct (match q with PDone | PReleased => true | _ => false end) eqn:EQ.
      * destruct q; try done; [destruct (0 <? s_sem s); [|done]|]; simplify_eq; (split; [|done]).
        -- apply (pool_exit _ _ _ _ _ _ _ _ _ PDone [PReleased]); auto.
        -- apply (pool_exit _ _ _ _ _ _ _ _ _ PReleased []); auto.
      * assert (exists q', sc_move jobs c s q = Some (s', q') /\ p' = PRange dir ign ents inline (l1 ++ q' :: l2)) as (q' & Eq & ->).
        { destruct q; try done; (destruct (sc_move jobs c s _) as [[s1 q1]|]; [|done]); cbn [mbind option_bind] in HM'; rewrite EI in HM'; simplify_eq; eauto. }
        destruct (IH _ _ _ _ Eq Fq) as [HA Hq']. split; [|done]. apply advances_pool; try done. by destruct q.
Qed.

(** While the slots held do not exceed the semaphore's count some call can go on: a full pool
    makes the next entry run inline, and a finished goroutine can always give its slot back. *)
Lemma can_move jobs s p : fits p -> Z.of_nat (held p) <= s_sem s -> p <> PDone -> p <> PReleased ->
  exists c, is_Some (sc_move jobs c s p).
Proof.
  remember (cost p) as n eqn:En. revert p En. induction n as [n IH] using lt_wf_ind. intros p -> HF HS HD HR.
  destruct p as [| dir ign ents inline pool | | | | | | | ]; try done; try (by exists []).
  destruct HF as (_ & FI & FP). cbn [held cost] in *. destruct inline as [q|].
  - destruct FI as [Fq Hq]. destruct (match q with PDone => true | _ => false end) eqn:ED; [destruct q; try done; exists [O]; by eexists|].
    destruct (IH (cost q) ltac:(lia) q eq_refl Fq) as [c [[s' q'] E]]; [lia|by destruct q|done|].
    exists (O :: c). cbn [sc_move]. rewrite E. destruct q; try done; by eexists.
  - destruct ents as [|[name isDir] ents].
    + destruct pool as [|q pool]; [exists []; by eexists|]. cbn [foldr sum_list_with] in *. destruct FP as [Fq _].
      destruct (match q with PReleased => true | _ => false end) eqn:ER; [destruct q; try done; exists [1%nat]; by eexists|].
      destruct (match q with PDone => true | _ => false end) eqn:ED.
      * destruct q; try done. exists [1%nat]. cbn [sc_move lookup list_lookup mbind option_bind].
        destruct (Z.ltb_spec 0 (s_sem s)); [by eexists|lia].
      * destruct (IH (cost q) ltac:(lia) q eq_refl Fq) as [c [[s' q'] E]]; [lia|by destruct q|by destruct q|].
        exists (1%nat :: c). cbn [sc_move lookup list_lookup mbind option_bind]. rewrite E. destruct q; try done; by eexists.
    + exists []. cbn [sc_move]. destruct (Ignored _ _ _); [by eexists|]. destruct (_ <? _); by eexists.
Qed.

(** What holds after any schedule. *)
Record reached (jobs : Z) (start : proc) (spent : nat) (st : scanner * proc) : Prop := {
    r_fits : fits st.2;
    r_live : st.2 <> PReleased;
    r_held : s_sem st.1 = Z.of_nat (held st.2);
    r_jobs : s_sem st.1 <= jobs;
    r_cost : (spent + cost st.2 <= cost start)%nat;
    r_noted : exists evs, foldl note new_scanner evs = set_sem 0 st.1 /\ todo start ≡ₚ evs ++ todo st.2
  }.

Lemma note_sem s ev n : note (set_sem n s) ev = set_sem n (note s ev).
Proof. by destruct ev. Qed.
Lemma notes_sem evs s n : foldl note (set_sem n s) evs = set_sem n (foldl note s evs).
Proof. revert s. induction evs as [|ev evs IH]; intros s; [done|]. cbn [foldl]. by rewrite note_sem, IH. Qed.

Lemma reached_step jobs start spent st c st' : reached jobs start spent st -> sc_move jobs c st.1 st.2 = Some st' ->
  reached jobs start (S spent) st'.
Proof.
  intros [HF HL HH HJ HC (evs & E & T)] HM. destruct st as [s p], st' as [s' p']. cbn [fst snd] in *.
  destruct (move_ok _ _ _ _ _ _ HM HF) as [(F' & C & S & J & evs' & E' & T') L']. constructor; cbn [fst snd]; try done; try lia.
  exists (evs ++ evs'). rewrite foldl_app, E, notes_sem, E', T, T'. by rewrite <- app_assoc.
Qed.

Lemma run_reached jobs start cs spent st st' : reached jobs start spent st -> sc_run jobs cs st = Some st' ->
  reached jobs start (spent + length cs) st'.
Proof.
  revert spent st. induction cs as [|c cs IH]; intros spent st HR; cbn [sc_run length].
  - intros [= <-]. by rewrite Nat.add_0_r.
  - destruct (sc_move _ _ _ _) as [st1|] eqn:E; [|done]. cbn [mbind option_bind]. intros HM.
    rewrite Nat.add_succ_r. apply (IH (S spent) st1); [by eapply reached_step|done].
Qed.

Lemma start_reached jobs dir ign : 0 <= jobs -> shallow N dir ign -> reached jobs (PWalk dir ign) 0 (scan_start dir ign).
Proof. intros. constructor; try done. by exists []. Qed.
End Owes.

(** ** The totals *)

Definition file_count (evs : list event) : Z := foldr (fun ev n => match ev with EFile => 1 + n | _ => n end) 0 evs.
Definition byte_count (evs : list event) : Z := foldr (fun ev n => match ev with EBytes k => k + n | _ => n end) 0 evs.
Definition errors_of (evs : list event) : list error := omap (fun ev => match ev with EError e => Some e | _ => None end) evs.
(** The totals of a traversal without errors, or one of its errors. *)
Definition outcome (evs : list event) (r : res (Z * Z)) : Prop :=
  match r with
  | Ok (files, bytes) => errors_of evs = [] /\ files = s64 (file_count evs) /\ bytes = s64 (byte_count evs)
  | Err e => e ∈ errors_of evs
  end.

Lemma s64_add a b : s64 (s64 a + b) = s64 (a + b).
Proof.
  unfold s64. f_equal. replace ((a + 2 ^ 63) mod 2 ^ 64 - 2 ^ 63 + b + 2 ^ 63) with ((a + 2 ^ 63) mod 2 ^ 64 + b) by lia.
  rewrite Zplus_mod_idemp_l. f_equal. lia.
Qed.

Lemma notes_totals evs s : s_files s = s64 (s_files s) -> s_bytes s = s64 (s_bytes s) ->
  s_files (foldl note s evs) = s64 (s_files s + file_count evs) /\
  s_bytes (foldl note s evs) = s64 (s_bytes s + byte_count evs) /\
  firstErr (foldl note s evs) = match firstErr s with Some e => Some e | None => head (errors_of evs) end.
Proof.
  revert s. induction evs as [|ev evs IH]; intros s HF HB.
  - cbn [foldl file_count byte_count foldr]. rewrite !Z.add_0_r. split; [done|]. split; [done|]. by destruct (firstErr s).
  - cbn [foldl]. destruct (IH (note s ev)) as (-> & -> & ->).
    + destruct ev; cbn [note s_files add_file add_bytes setErr]; [|done|done]. by rewrite <- (Z.add_0_r (s64 _)) at 2; rewrite s64_add, Z.add_0_r.
    + destruct ev; cbn [note s_bytes add_file add_bytes setErr]; [done| |done]. by rewrite <- (Z.add_0_r (s64 _)) at 2; rewrite s64_add, Z.add_0_r.
    + destruct ev; cbn [note s_files s_bytes firstErr add_file add_bytes setErr file_count byte_count foldr]; rewrite ?s64_add, ?Z.add_assoc; (split; [done|]; split; [done|]); try done.
      by destruct (firstErr s).
Qed.

Lemma counts_Permutation evs evs' : evs ≡ₚ evs' -> file_count evs = file_count evs' /\ byte_count evs = byte_count evs' /\ errors_of evs ≡ₚ errors_of evs'.
Proof.
  intros HP. split; [|split].
  - unfold file_count. induction HP as [|ev|ev ev'|]; [done|by destruct ev; cbn; lia|by destruct ev, ev'; cbn; lia|by etrans].
  - unfold byte_count. induction HP as [|ev|ev ev'|]; [done|by destruct ev; cbn; lia|by destruct ev, ev'; cbn; lia|by etrans].
  - by apply omap_Permutation.
Qed.

Lemma finished_outcome N jobs start spent s : reached N jobs start spent (s, PDone) -> outcome (todo N start) (scan_totals s).
Proof.
  intros [_ _ _ _ _ (evs & E & T)]. cbn [fst snd todo] in *. rewrite app_nil_r in T.
  destruct (notes_totals evs new_scanner eq_refl eq_refl) as (EF & EB & EE). rewrite E in EF, EB, EE. cbn in EF, EB, EE.
  destruct (counts_Permutation _ _ T) as (CF & CB & PE). unfold scan_totals, outcome. rewrite EE.
  destruct (errors_of evs) as [|e es] eqn:EV; cbn [head].
  - symmetry in PE. apply Permutation_nil_l in PE. by rewrite PE, EF, EB, CF, CB.
  - rewrite PE. by left.
Qed.

Lemma scanTree_reached n dir ign jobs cs r : shallow n dir ign -> scanTree dir ign jobs cs = Some r ->
  exists s, reached n (clamp_jobs jobs) (PWalk dir ign) (length cs) (s, PDone) /\ r = scan_totals s.
Proof.
  intros HS. unfold scanTree. destruct (sc_run _ _ _) as [[s p]|] eqn:E; [|done]. cbn [mbind option_bind fst snd].
  destruct p; try done. intros [= <-]. exists s. split; [|done].
  apply (run_reached n _ _ cs 0 (scan_start dir ign)); [|done]. apply start_reached; [|done].
  unfold clamp_jobs. destruct (Z.ltb_spec jobs 1); lia.
Qed.
End Scanner.

(** ** The totals and the stored tree *)

Section Stored.
Context `{Cbor (list Entry)} `{Cbor (list DirPair)} (get : Key -> res bytes).
(** The lengths of the regular files below a stored directory. *)
Definition entry_files (sub : Key -> list Z -> Prop) (e : Entry) (sizes : list Z) : Prop :=
  let fmt := Z.land (Mode e) S_IFMT in
  if fmt =? S_IFREG then exists k, Parse (ContentKey e) = Ok k /\ sizes = [Length k]
  else if fmt =? S_IFDIR then exists k, Parse (ContentKey e) = Ok k /\ sub k sizes
  else sizes = [].
Fixpoint stored_files (n : nat) (k : Key) (sizes : list Z) : Prop :=
  match n with
  | O => False
  | S n => exists es h parts, dtree get h k es /\ Forall2 (entry_files (stored_files n)) es parts /\ sizes = concat parts
  end.
End Stored.

(** Regular files are as long as their [Stat] says. *)
Definition settled `{Os} : Prop := forall full info data, Lstat full = Ok info -> file_type info = S_IFREG ->
  ReadFile full = Ok data -> st_size info = zlen data /\ zlen data < 2 ^ 63.

Section Match.
Context `{Blake3} `{Cbor (list bytes)} `{Cbor Entry} `{Cbor (list Entry)} `{Cbor DirPair} `{Cbor (list DirPair)} `{Cdc} `{Gitignore} `{Os}.
Definition file_events (size : Z) : list event := [EFile; EBytes size].

Lemma mode_type_of info fmt : file_type info = fmt -> mode_type info = mode_type (MkStat fmt 0 0 0 0 0 0) \/ Z.land fmt S_IFMT <> fmt.
Proof.
  unfold file_type. intros E. destruct (decide (Z.land fmt S_IFMT = fmt)) as [Ef|]; [left|by right].
  unfold mode_type. cbn [st_mode]. by rewrite E, Ef.
Qed.

Lemma entry_scanned get (sub : path -> option Matcher -> Key -> Prop) (files : Key -> list Z -> Prop)
  (P : path -> option Matcher -> Prop) (sub_tally : path -> option Matcher -> list event) full name ign e :
  settled -> (forall p m k, sub p m k -> P p m /\ exists sizes, files k sizes /\ sub_tally p m = concat (map file_events sizes)) ->
  mirrors_entry get sub full name ign e ->
  entry_shallow P ign full name /\
  exists sizes, entry_files files e sizes /\ entry_tally sub_tally ign full name = concat (map file_events sizes).
Proof.
  intros HS Hsub (st & EL & _ & EM & _ & _ & _ & HP & _). unfold entry_shallow, entry_files, entry_tally. rewrite EL, EM.
  fold (file_type st). destruct HP as [(T & _ & _ & data & k & h & chunks & ER & EP & EK & _)|[(T & _ & _ & m & k & ED & EP & HD)|HP]].
  - destruct (mode_type_of st _ T) as [EM'|[]]; [|done]. rewrite EM', T. split; [by intros ? [= <-]; rewrite EM'|].
    destruct (HS _ _ _ EL T ER) as [-> Hlt]. exists [zlen data]. split; [|done]. exists k. split; [done|].
    rewrite EK. unfold u64. rewrite Z.mod_small; [done|]. pose proof (zlen_nonneg data). lia.
  - destruct (mode_type_of st _ T) as [->|[]]; [|done]. rewrite T. destruct (Hsub _ _ _ HD) as (HP & sizes & HF & ET).
    unfold descend_shallow, descend_tally. rewrite ED. split; [by intros ? _ _ ? [= <-]|]. exists sizes. split; [by exists k|done].
  - assert (mode_type st <> ModeDir /\ mode_type st <> 0 /\ file_type st <> S_IFREG /\ file_type st <> S_IFDIR) as (N1 & N2 & N3 & N4).
    { assert (file_type st ∈ [S_IFLNK; S_IFCHR; S_IFBLK; S_IFIFO; S_IFSOCK]) as HT
        by (destruct HP as [(T & _)|[(T & _)|(T & _)]]; rewrite !elem_of_cons in *; tauto).
      repeat (apply elem_of_cons in HT as [HT|HT]; [destruct (mode_type_of st _ HT) as [->|[]]; [rewrite HT; by vm_compute|done]|]); by apply not_elem_of_nil in HT. }
    split; [by intros ? [= <-] ?%N1|]. exists []. do 2 (rewrite (proj2 (Z.eqb_neq _ _)) by done).
    do 2 (rewrite (proj2 (Z.eqb_neq _ _)) by done). done.
Qed.

Lemma mirrors_scanned get n p ign k : settled -> mirrors get n p ign k ->
  shallow n p ign /\ exists sizes, stored_files get n k sizes /\ tally n p ign = concat (map file_events sizes).
Proof.
  intros HS. revert p ign k. induction n as [|n IH]; intros p ign k; [done|].
  intros (ents & es & h & EE & HT & HF). cbn [shallow tally stored_files]. rewrite EE.
  assert (ents_shallow (shallow n) p ign ents /\ exists parts, Forall2 (entry_files (stored_files get n)) es parts /\
    ents_tally (tally n) p ign ents = concat (map file_events (concat parts))) as (HSh & parts & HP & ET).
  { unfold ents_shallow, ents_tally. clear HT EE. induction HF as [|de e des es HE HF IHF].
    - split; [constructor|]. by exists [].
    - destruct IHF as (HSh & parts & HP & ET). destruct (entry_scanned get _ (stored_files get n) (shallow n) (tally n) _ _ _ _ HS IH HE) as (HE' & sizes & HF1 & ET1).
      split; [by constructor|]. exists (sizes :: parts). split; [by constructor|].
      cbn [map concat]. by rewrite ET, ET1, map_app, concat_app. }
  split; [by intros ? [= <-]|]. exists (concat parts). split; [|done]. by exists es, h, parts.
Qed.

Lemma file_events_counts sizes : file_count (concat (map file_events sizes)) = zlen sizes /\
  byte_count (concat (map file_events sizes)) = foldr Z.add 0 sizes /\ errors_of (concat (map file_events sizes)) = [].
Proof.
  induction sizes as [|z sizes (IF & IB & IE)]; [done|]. unfold file_count, byte_count, errors_of in *.
  cbn [map concat file_events app foldr omap list_omap]. rewrite IF, IB, zlen_cons. split; [lia|]. split; [done|exact IE].
Qed.
End Match.

(** * Properties *)

Section Property.
Context `{Blake3} `{Cbor (list bytes)} `{Cbor Entry} `{Cbor (list Entry)} `{Cbor DirPair} `{Cbor (list DirPair)} `{Cdc} `{Gitignore} `{Os}.

(** A scan's result does not depend on its schedule: when it returns it has either the
    number of regular files below the directory and the sum of their sizes (as 64-bit
    integers), everything ignored left out, or an error that a call on the tree returned -
    and it has totals only when no call failed. *)
Theorem scan_counts_tree n dir noIgnore ign jobs cs r :
  scan_ignore dir noIgnore = Ok ign -> shallow n dir ign -> Scan dir noIgnore jobs cs = Some r ->
  outcome (tally n dir ign) r.
Proof.
  unfold Scan. intros -> HS HR. destruct (scanTree_reached _ _ _ _ _ _ HS HR) as (s & HRe & ->).
  by apply finished_outcome in HRe.
Qed.

(** C29. A scan never deadlocks and ends: under every schedule it makes at most [dir_cost] steps,
    it holds at most [jobs] slots of its semaphore, and unless it has returned some goroutine
    can go on - whatever the shape of the tree and however small the pool. *)
Theorem scan_terminates n dir ign jobs cs st :
  shallow n dir ign -> sc_run (clamp_jobs jobs) cs (scan_start dir ign) = Some st ->
  (length cs <= dir_cost n dir ign)%nat /\ 0 <= s_sem st.1 <= clamp_jobs jobs /\
  (st.2 = PDone \/ exists c, is_Some (sc_move (clamp_jobs jobs) c st.1 st.2)).
Proof.
  intros HS HR. assert (1 <= clamp_jobs jobs) as HJ by (unfold clamp_jobs; destruct (Z.ltb_spec jobs 1); lia).
  destruct (run_reached n _ _ _ 0 _ _ (start_reached n (clamp_jobs jobs) dir ign ltac:(lia) HS) HR) as [HF HL HH HB HC _].
  cbn [cost] in HC. split; [lia|]. split; [lia|].
  destruct (match st.2 with PDone => true | _ => false end) eqn:ED; [left; by destruct st.2|right].
  apply (can_move n); [done|lia|intros E; by rewrite E in ED|done].
Qed.

(** C28. The pre-scan matches the build: on a readable source whose files are as long as [Lstat]
    says, ingest succeeds, and whatever schedule a scan ran under it returned the number of
    regular files in the stored tree and the sum of their stored lengths. *)
Theorem scan_matches_ingest
  `{!CborOk (list bytes) (array_wf any)} `{!CborOk Entry entry_wf} `{!CborOk (list Entry) (array_wf entry_wf)}
  `{!CborOk DirPair any} `{!CborOk (list DirPair) (array_wf any)} `{!CdcOk} itemBits inlineMax d n p ign :
  0 <= itemBits <= 15 -> opts_driver itemBits inlineMax = Ok d -> readable n p ign -> settled ->
  exists k objs, buildDir d log_emit n p ign [] = (Ok k, objs) /\
  forall get, serves get objs -> exists sizes, stored_files get n k sizes /\
  forall jobs cs r, scanTree p ign jobs cs = Some r -> r = Ok (s64 (zlen sizes), s64 (foldr Z.add 0 sizes)).
Proof.
  intros Hb Hd HR HS. destruct (opts_driver_ok _ _ _ Hb Hd) as [Hc Hm].
  destruct (buildDir_ok d Hc Hm n p ign n HR (le_n n) []) as (k & objs & E & _ & HM). exists k, objs. split; [exact E|].
  intros get Hget. destruct (mirrors_scanned get n p ign k HS (HM get Hget)) as (HSh & sizes & HF & ET).
  exists sizes. split; [done|]. intros jobs cs r HRun. destruct (scanTree_reached _ _ _ _ _ _ HSh HRun) as (s & HRe & ->).
  apply finished_outcome in HRe. cbn [todo] in HRe. rewrite ET in HRe.
  destruct (file_events_counts sizes) as (CF & CB & CE). unfold outcome in HRe. rewrite CF, CB, CE in HRe.
  destruct (scan_totals s) as [[f b]|e]; [by destruct HRe as (_ & -> & ->)|by apply not_elem_of_nil in HRe].
Qed.
End Property.

(** ** Witnesses *)

(** Two goroutines at a time, one of them in the subdirectory. *)
Definition two_at_a_time : list (list nat) :=
  [[]; []; []; [1]; []; [1]; [0]; [1]; [0]; [1; 1]; [0]; [1; 1]; [0]; [1]; [0; 1]; [1]; [0; 1]; [1]; [0; 1]; [1; 1]; [0]; [1; 1]; [0]; []; []]%nat.

Lemma sample_shallow : shallow 2 [] sample_ignore.
Proof.
  intros ents [= <-]. apply Forall_forall. intros de Hde info EL ED m EM. vm_compute in Hde. cbn [app] in *.
  destruct Hde as [<-|[<-|[<-|[]]]]; cbn [fst] in *; [vm_compute in EL; injection EL as <-; by vm_compute in ED|vm_compute in EL; injection EL as <-; by vm_compute in ED|].
  vm_compute in EM. injection EM as <-.
  intros ents [= <-]. apply Forall_forall. intros de Hde info' EL' ED'. vm_compute in Hde. destruct Hde as [<-|[]].
  vm_compute in EL'. injection EL' as <-. by vm_compute in ED'.
Qed.

Lemma sample_settled : settled.
Proof.
  intros full info data EL ET ER. cbn [Lstat ReadFile toy_os] in *. repeat (case_match; simplify_eq; try done).
Qed.

Lemma scan_counts_tree_witness :
  Scan [] false 2 two_at_a_time = Some (Ok (2, 12)) /\ outcome (tally 2 [] sample_ignore) (Ok (2, 12)).
Proof.
  split; [by vm_compute|]. apply (scan_counts_tree 2 [] false sample_ignore 2 two_at_a_time); [by vm_compute|apply sample_shallow|by vm_compute].
Defined.

Lemma scan_terminates_witness :
  exists st, sc_run (clamp_jobs 0) [[]; []; []]%nat (scan_start [] sample_ignore) = Some st /\
  (3 <= dir_cost 2 [] sample_ignore)%nat /\ 0 <= s_sem st.1 <= clamp_jobs 0 /\
  (st.2 = PDone \/ exists c, is_Some (sc_move (clamp_jobs 0) c st.1 st.2)).
Proof.
  assert (is_Some (sc_run (clamp_jobs 0) [[]; []; []]%nat (scan_start [] sample_ignore))) as [st E] by (vm_compute; by eexists).
  exists st. split; [done|]. by apply (scan_terminates 2 [] sample_ignore 0 [[]; []; []]%nat); [apply sample_shallow|].
Defined.

Lemma scan_matches_ingest_witness :
  exists k objs, buildDir sample_driver log_emit 2 [] sample_ignore [] = (Ok k, objs) /\
  forall get, serves get objs -> exists sizes, stored_files get 2 k sizes /\
  s64 (zlen sizes) = 2 /\ s64 (foldr Z.add 0 sizes) = 12.
Proof.
  destruct (scan_matches_ingest 1 0 sample_driver 2 [] sample_ignore sample_bits sample_driver_eq sample_readable sample_settled)
    as (k & objs & E & HS).
  exists k, objs. split; [exact E|]. intros get Hget. destruct (HS get Hget) as (sizes & HF & HR). exists sizes. split; [exact HF|].
  assert (scanTree [] sample_ignore 2 two_at_a_time = Some (Ok (2, 12))) as ER by (by vm_compute).
  specialize (HR _ _ _ ER). revert HR. generalize (s64 (zlen sizes)) (s64 (foldr Z.add 0 sizes)).
  intros files bytes HR. injection HR as <- <-. split; reflexivity.
Defined.
