(* ===== verification/Inbox.v ===== *)
(** Package inbox (src/inbox/entry.go, inbox.go): packs that have been received and wait to be
    stored. The inbox is a machine whose steps are the system calls and critical sections of
    the clients that commit entries and of the workers that drain them. *)
From S2P Require Import Prelude External Concrete Chunker Key Crc32 Record Pack Footer Disk Scan Store StoreInv StoreSpec ParWrite.

(** * entry.go *)

Record Meta := MkMeta { Ref : bytes; Root : bytes; ReceivedAt : Z }.

Section Entry.
Context `{Cbor Meta}.

Definition writeMetaHeader (m : Meta) : res bytes := b ← Marshal m; Ok (be_put 4 (u32 (zlen b)) ++ b).
(** The meta and what follows it. *)
Definition readMetaHeader (r : bytes) : res (Meta * bytes) :=
  if (length r <? 4)%nat then Err [EMsg "reading inbox meta length"]
  else
    let n := Z.to_nat (be_get (take 4 r)) in
    let r := drop 4 r in
    if (length r <? n)%nat then Err [EMsg "reading inbox meta"]
    else m ← reerr (EMsg "decoding inbox meta") (Unmarshal (take n r)); Ok (m, drop n r).

Lemma header_put b body : zlen b < 2 ^ 32 -> readMetaHeader (be_put 4 (u32 (zlen b)) ++ b ++ body) = m' ← reerr (EMsg "decoding inbox meta") (Unmarshal b); Ok (m', body).
Proof.
  intros Hl. pose proof (zlen_nonneg b) as Hn. unfold readMetaHeader. rewrite (proj2 (Nat.ltb_ge _ 4)) by (rewrite length_app, length_be_put; lia).
  rewrite take_app_length', drop_app_length' by (by rewrite length_be_put).
  assert (be_get (be_put 4 (u32 (zlen b))) = zlen b) as -> by (rewrite be_get_put; unfold u32; rewrite !Z.mod_small by (rewrite ?Z.mod_small; cbn; lia); done).
  cbv zeta. assert (Z.to_nat (zlen b) = length b) as -> by (unfold zlen; lia).
  rewrite (proj2 (Nat.ltb_ge _ _)) by (rewrite length_app; lia). by rewrite take_app_length, drop_app_length.
Qed.
End Entry.

(** * inbox.go *)

Definition packSuffix : bytes := [x2e; x70; x61; x63; x6b].                             (* ".pack" *)
Definition entry_name (bodyHash : b32) : bytes := hexEncode (b32_bytes bodyHash) ++ packSuffix.

Definition workItem : Type := bytes * Key.
(** Where a worker is: in [processLoop] and in [process]. *)
Inductive worker :=
  | WIdle
  | WTaken (item : workItem)
  | WOpened (item : workItem) (f : bytes)
  | WWritten (item : workItem) (r : res unit)
  | WProcessed (item : workItem)
  | WExited.
(** Where a client is in [Commit]. *)
Inductive committing :=
  | CStatted (tmpPath name : bytes) (root : Key)
  | CRenamed (name : bytes) (root : Key)
  | CSynced (name : bytes) (root : Key).

(** The three directories hold files by name; [groups] counts unprocessed entries. *)
Record Inbox := MkInbox {
    ib_tmp : gmap bytes bytes; ib_dir : gmap bytes bytes; ib_failed : gmap bytes bytes;
    ib_store : Store; ib_work : list workItem; ib_groups : gmap Key Z; ib_closed : bool;
    ib_workers : list worker; ib_commits : list committing
  }.
Definition set_files (tmp dir failed : gmap bytes bytes) (s : Inbox) : Inbox :=
  MkInbox tmp dir failed (ib_store s) (ib_work s) (ib_groups s) (ib_closed s) (ib_workers s) (ib_commits s).
Definition set_store (st : Store) (s : Inbox) : Inbox :=
  MkInbox (ib_tmp s) (ib_dir s) (ib_failed s) st (ib_work s) (ib_groups s) (ib_closed s) (ib_workers s) (ib_commits s).
Definition set_queue (w : list workItem) (g : gmap Key Z) (s : Inbox) : Inbox :=
  MkInbox (ib_tmp s) (ib_dir s) (ib_failed s) (ib_store s) w g (ib_closed s) (ib_workers s) (ib_commits s).
Definition set_worker (i : nat) (w : worker) (s : Inbox) : Inbox :=
  MkInbox (ib_tmp s) (ib_dir s) (ib_failed s) (ib_store s) (ib_work s) (ib_groups s) (ib_closed s) (<[i:=w]> (ib_workers s)) (ib_commits s).
Definition set_commits (l : list committing) (s : Inbox) : Inbox :=
  MkInbox (ib_tmp s) (ib_dir s) (ib_failed s) (ib_store s) (ib_work s) (ib_groups s) (ib_closed s) (ib_workers s) l.
Definition set_closed (s : Inbox) : Inbox :=
  MkInbox (ib_tmp s) (ib_dir s) (ib_failed s) (ib_store s) (ib_work s) (ib_groups s) true (ib_workers s) (ib_commits s).

(** A reading of [groups], which has no entry for an absent root. *)
Definition group (s : Inbox) (root : Key) : Z := default 0 (ib_groups s !! root).
Definition grow_group (root : Key) (g : gmap Key Z) : gmap Key Z := <[root := default 0 (g !! root) + 1]> g.
Definition shrink_group (root : Key) (g : gmap Key Z) : gmap Key Z :=
  let n := default 0 (g !! root) in
  if 0 <? n then if n =? 1 then delete root g else <[root := n - 1]> g else g.
(** [WaitFor] returns when it finds this. *)
Definition waited (s : Inbox) (root : Key) : bool := group s root <=? 0.

(** A client's or a worker's next step; [fault] makes the system call at hand fail. *)
Inductive event :=
  | Stage (tmpPath : bytes) (meta : Meta) (body : bytes) (fault : option error)
  | Discard (tmpPath : bytes)
  | CommitStat (tmpPath : bytes) (bodyHash : b32) (root : Key) (fault : option error)
  | CommitRename (i : nat) (fault : option error)
  | CommitSync (i : nat) (fault : option error)
  | CommitEnqueue (i : nat)
  | Take (i : nat)
  | OpenEntry (i : nat) (fault : option error)
  | Ingest (i : nat) (sched : list pchoice)
  | Settle (i : nat) (fault : option error)
  | Count (i : nat)
  | CloseInbox.

Section Inbox.
Context `{Blake3, Zstd, Fuse} `{Cbor Meta}.
Context (gomaxprocs : nat).

(** The pack's objects, as [process] hands them to the store. *)
Definition pack_seq (body : bytes) : list (res StoreObject) :=
  (fun x : res Object => o ← x; Ok (MkStoreObject (OKey o) (Some (OBytes o)) None)) <$> All body.

(** A step, and what [Stage] or [Commit] returns if that was its last. *)
Definition outcome : Type := option (Inbox * option (res bool)).
Definition quiet (s : Inbox) : outcome := Some (s, None).
Definition returns (r : res bool) (s : Inbox) : outcome := Some (s, Some r).

(** ** Stage, Discard and Commit *)

(** [os.CreateTemp] picks a name that is free; a failure removes the file again. *)
Definition stage (tmpPath : bytes) (meta : Meta) (body : bytes) (fault : option error) (s : Inbox) : outcome :=
  match ib_tmp s !! tmpPath, fault, writeMetaHeader meta with
  | Some _, _, _ => None
  | None, Some e, _ | None, None, Err e => returns (Err e) s
  | None, None, Ok hdr => quiet (set_files (<[tmpPath := hdr ++ body]> (ib_tmp s)) (ib_dir s) (ib_failed s) s)
  end.
Definition discard (tmpPath : bytes) (s : Inbox) : Inbox := set_files (delete tmpPath (ib_tmp s)) (ib_dir s) (ib_failed s) s.
Definition commit_stat (tmpPath : bytes) (bodyHash : b32) (root : Key) (fault : option error) (s : Inbox) : outcome :=
  let name := entry_name bodyHash in
  match fault, ib_dir s !! name with
  | Some e, _ => returns (Err e) s
  | None, Some _ => returns (Ok false) (discard tmpPath s)
  | None, None => quiet (set_commits (ib_commits s ++ [CStatted tmpPath name root]) s)
  end.
Definition commit_rename (i : nat) (fault : option error) (s : Inbox) : outcome :=
  match ib_commits s !! i with
  | Some (CStatted tmpPath name root) =>
      match fault, ib_tmp s !! tmpPath with
      | Some e, _ => returns (Err e) (set_commits (delete i (ib_commits s)) s)
      | None, None => returns (Err [ErrNotExist]) (set_commits (delete i (ib_commits s)) s)
      | None, Some f =>
          quiet (set_files (delete tmpPath (ib_tmp s)) (<[name := f]> (ib_dir s)) (ib_failed s)
            (set_commits (<[i := CRenamed name root]> (ib_commits s)) s))
      end
  | _ => None
  end.
Definition commit_sync (i : nat) (fault : option error) (s : Inbox) : outcome :=
  match ib_commits s !! i with
  | Some (CRenamed name root) =>
      match fault with
      | Some e => returns (Err e) (set_commits (delete i (ib_commits s)) s)
      | None => quiet (set_commits (<[i := CSynced name root]> (ib_commits s)) s)
      end
  | _ => None
  end.
Definition commit_enqueue (i : nat) (s : Inbox) : outcome :=
  match ib_commits s !! i with
  | Some (CSynced name root) =>
      returns (Ok true) (set_commits (delete i (ib_commits s)) (set_queue (ib_work s ++ [(name, root)]) (grow_group root (ib_groups s)) s))
  | _ => None
  end.

(** ** The workers *)

Definition take_item (i : nat) (s : Inbox) : outcome :=
  match ib_workers s !! i, ib_work s with
  | Some WIdle, item :: rest => quiet (set_worker i (WTaken item) (set_queue rest (ib_groups s) s))
  | Some WIdle, [] => if ib_closed s then quiet (set_worker i WExited s) else None
  | _, _ => None
  end.
Definition open_entry (i : nat) (fault : option error) (s : Inbox) : outcome :=
  match ib_workers s !! i with
  | Some (WTaken item) =>
      match fault, ib_dir s !! item.1 with
      | None, Some f => quiet (set_worker i (WOpened item f) s)
      | _, _ => quiet (set_worker i (WProcessed item) s)
      end
  | _ => None
  end.
(** The goroutines of [WriteParallel] have returned at the end of the schedule. *)
Definition complete_run (sched : list pchoice) (body : bytes) (st : Store) : bool :=
  match par_run true DefaultBatchSize (gomaxprocs * 2) sched (start_run gomaxprocs (pack_seq body) st) with
  | Some q => par_finished q
  | None => false
  end.
Definition ingest (i : nat) (sched : list pchoice) (s : Inbox) : outcome :=
  match ib_workers s !! i with
  | Some (WOpened item f) =>
      match readMetaHeader f with
      | Err e => quiet (set_worker i (WWritten item (Err e)) s)
      | Ok (_, body) =>
          if complete_run sched body (ib_store s) then
            let '(r, _, st) := WriteParallel gomaxprocs sched (MkWriteOpts 0 0 true) (pack_seq body) (ib_store s) in
            quiet (set_worker i (WWritten item r) (set_store st s))
          else None
      end
  | _ => None
  end.
(** The entry is removed, or on an error quarantined; failures of these calls are logged. *)
Definition settle (i : nat) (fault : option error) (s : Inbox) : outcome :=
  match ib_workers s !! i with
  | Some (WWritten item r) =>
      let s' := set_worker i (WProcessed item) s in
      match fault, r, ib_dir s !! item.1 with
      | None, Ok _, Some _ => quiet (set_files (ib_tmp s) (delete item.1 (ib_dir s)) (ib_failed s) s')
      | None, Err _, Some f => quiet (set_files (ib_tmp s) (delete item.1 (ib_dir s)) (<[item.1 := f]> (ib_failed s)) s')
      | _, _, _ => quiet s'
      end
  | _ => None
  end.
Definition count_down (i : nat) (s : Inbox) : outcome :=
  match ib_workers s !! i with
  | Some (WProcessed item) => quiet (set_worker i WIdle (set_queue (ib_work s) (shrink_group item.2 (ib_groups s)) s))
  | _ => None
  end.

Definition step (ev : event) (s : Inbox) : outcome :=
  match ev with
  | Stage tmpPath meta body fault => stage tmpPath meta body fault s
  | Discard tmpPath => quiet (discard tmpPath s)
  | CommitStat tmpPath bodyHash root fault => commit_stat tmpPath bodyHash root fault s
  | CommitRename i fault => commit_rename i fault s
  | CommitSync i fault => commit_sync i fault s
  | CommitEnqueue i => commit_enqueue i s
  | Take i => take_item i s
  | OpenEntry i fault => open_entry i fault s
  | Ingest i sched => ingest i sched s
  | Settle i fault => settle i fault s
  | Count i => count_down i s
  | CloseInbox => quiet (set_closed s)
  end.

(** ** Recovery *)

(** Which calls fail while the inbox is opened. *)
Record RecoverEnv := MkRecoverEnv {
    re_tmp : option error; re_dir : option error; re_remove : bytes -> bool; re_read : bytes -> option error; re_rename : bytes -> bool
  }.
Definition readRoot (env : RecoverEnv) (name : bytes) (s : Inbox) : res Key :=
  match re_read env name, ib_dir s !! name with
  | Some e, _ => Err e
  | None, None => Err [ErrNotExist]
  | None, Some f => '(m, _) ← readMetaHeader f; Parse (Root m)
  end.
Definition recover_entry (env : RecoverEnv) (name : bytes) (s : Inbox) : Inbox :=
  if negb (HasSuffix name packSuffix) then s
  else
    match readRoot env name s with
    | Err _ =>
        if re_rename env name then s
        else match ib_dir s !! name with
             | Some f => set_files (ib_tmp s) (delete name (ib_dir s)) (<[name := f]> (ib_failed s)) s
             | None => s
             end
    | Ok root => set_queue (ib_work s ++ [(name, root)]) (grow_group root (ib_groups s)) s
    end.
Definition listing (d : gmap bytes bytes) : list bytes := merge_sort bytes_le (elements (dom d)).
Definition recover (env : RecoverEnv) (s : Inbox) : res Inbox :=
  match re_tmp env with
  | Some e => Err e
  | None =>
      let tmp := filter (fun '(n, _) => re_remove env n = true) (ib_tmp s) in
      match re_dir env with
      | Some e => Err e
      | None => Ok (fold_left (fun s name => recover_entry env name s) (listing (ib_dir s)) (set_files tmp (ib_dir s) (ib_failed s) s))
      end
  end.
Definition OpenInbox (env : RecoverEnv) (tmp dir failed : gmap bytes bytes) (store : Store) (workers : Z) : res Inbox :=
  let n := if workers <=? 0 then gomaxprocs else Z.to_nat workers in
  s ← recover env (MkInbox tmp dir failed store [] ∅ false [] []);
  Ok (MkInbox (ib_tmp s) (ib_dir s) (ib_failed s) (ib_store s) (ib_work s) (ib_groups s) false (replicate n WIdle) []).
End Inbox.

(** * What the pack reader yields has valid keys *)

Lemma records_valid fuel br raw : Ok raw ∈ records_loop fuel br -> Validate (RKey (RawHdr raw)) = Ok tt.
Proof.
  revert br. induction fuel as [|fuel IH]; intros br; cbn [records_loop]; [by intros ?%list_elem_of_singleton|].
  destruct br as [|tag br1]; [by intros ?%list_elem_of_singleton|].
  destruct (bool_decide (tag = tagEnd)); [by intros ?%elem_of_nil|]. destruct (bool_decide (tag = tagChunk)); [|by intros ?%list_elem_of_singleton].
  destruct (_ <? _)%nat; [by intros ?%list_elem_of_singleton|]. cbv zeta. destruct (_ <? _); [by intros ?%list_elem_of_singleton|].
  destruct (_ <? _); [by intros ?%list_elem_of_singleton|]. destruct (ParseRecord _) as [rec|] eqn:E; [|by intros ?%list_elem_of_singleton].
  intros [[= ->]|Hin]%elem_of_cons; [|by eapply IH]. cbn. apply ParseRecord_Ok in E. pose proof (pr_key _ _ E) as [_ HV]%Parse_Ok. done.
Qed.
Lemma all_valid `{Zstd} rs o : (forall raw, Ok raw ∈ rs -> Validate (RKey (RawHdr raw)) = Ok tt) -> Ok o ∈ all_loop rs -> Validate (OKey o) = Ok tt.
Proof.
  induction rs as [|[raw|e] rs IH]; intros HV; cbn [all_loop]; [by intros ?%elem_of_nil| |by intros ?%list_elem_of_singleton].
  destruct (DecodePayload _ _ _) as [d|]; [|by intros ?%list_elem_of_singleton].
  intros [[= ->]|Hin]%elem_of_cons; [apply HV; by left|]. apply IH; [|done]. intros raw' Hr. apply HV. by right.
Qed.
Lemma All_valid `{Zstd} b o : Ok o ∈ All b -> Validate (OKey o) = Ok tt.
Proof.
  apply all_valid. intros raw. unfold Records. destruct (_ <? _)%nat; [by intros ?%list_elem_of_singleton|].
  destruct (negb _); [by intros ?%list_elem_of_singleton|]. apply records_valid.
Qed.

(** * Accounting *)

Definition held (w : worker) : option workItem :=
  match w with WTaken it | WOpened it _ | WWritten it _ | WProcessed it => Some it | _ => None end.
(** What is queued or in a worker's hands. *)
Definition pending (s : Inbox) : list workItem := ib_work s ++ omap held (ib_workers s).
Definition count (root : Key) (l : list workItem) : Z := zlen (filter (fun it : workItem => it.2 = root) l).
Record counted (s : Inbox) : Prop := {
    ct_exact : forall root, group s root = count root (pending s);
    ct_positive : forall root n, ib_groups s !! root = Some n -> 0 < n
  }.

Lemma count_perm root l l' : l ≡ₚ l' -> count root l = count root l'.
Proof. intros E. unfold count, zlen. by rewrite E. Qed.
Lemma count_cons root it l : count root (it :: l) = (if decide (it.2 = root) then 1 else 0) + count root l.
Proof.
  unfold count. destruct (decide (it.2 = root)); [rewrite filter_cons_True by done; rewrite zlen_cons; lia|by rewrite filter_cons_False].
Qed.
Lemma count_pos root l : 0 < count root l <-> exists it, it ∈ l /\ it.2 = root.
Proof.
  unfold count. split.
  - destruct (filter _ l) as [|it l'] eqn:E; [done|]. intros _. assert (it ∈ filter (fun it : workItem => it.2 = root) l) as Hin by (rewrite E; by left).
    apply list_elem_of_filter in Hin as [? ?]. by exists it.
  - intros (it & Hin & HR). assert (it ∈ filter (fun it : workItem => it.2 = root) l) as Hf by (by apply list_elem_of_filter).
    destruct (filter _ l); [by apply elem_of_nil in Hf|]. rewrite zlen_cons. pose proof (zlen_nonneg l0). lia.
Qed.
Lemma counted_perm s s' : counted s -> ib_groups s' = ib_groups s -> pending s' ≡ₚ pending s -> counted s'.
Proof. intros [CE CP] EG EP. split; [|by rewrite EG]. intros root. unfold group in *. by rewrite EG, (count_perm _ _ _ EP). Qed.

Lemma counted_grow s s' it : counted s -> ib_groups s' = grow_group it.2 (ib_groups s) -> pending s' ≡ₚ it :: pending s -> counted s'.
Proof.
  intros [CE CP] EG EP. split.
  - intros root. unfold group in *. rewrite EG, (count_perm _ _ _ EP), count_cons. unfold grow_group.
    destruct (decide (it.2 = root)) as [->|Hne]; [rewrite lookup_insert_eq; cbn; specialize (CE root); lia|by rewrite lookup_insert_ne].
  - intros root n. rewrite EG. unfold grow_group. destruct (decide (it.2 = root)) as [->|Hne]; [|rewrite lookup_insert_ne by done; apply CP].
    rewrite lookup_insert_eq. intros [= <-]. destruct (ib_groups s !! root) as [m|] eqn:E; [specialize (CP _ _ E); cbn; lia|done].
Qed.
Lemma counted_shrink s s' it : counted s -> ib_groups s' = shrink_group it.2 (ib_groups s) -> pending s ≡ₚ it :: pending s' -> counted s'.
Proof.
  intros [CE CP] EG EP.
  assert (forall root, count root (pending s) = (if decide (it.2 = root) then 1 else 0) + count root (pending s')) as EC
    by (intros root; by rewrite (count_perm _ _ _ EP), count_cons).
  assert (0 <= count it.2 (pending s')) as Hn by apply zlen_nonneg.
  pose proof (CE it.2) as E0. rewrite EC, decide_True in E0 by done. unfold group in E0.
  assert (0 < default 0 (ib_groups s !! it.2)) as Hpos by lia. unfold shrink_group in EG. cbv zeta in EG. rewrite (proj2 (Z.ltb_lt _ _) Hpos) in EG.
  split.
  - intros root. specialize (CE root). rewrite EC in CE. unfold group in *. rewrite EG. destruct (decide (it.2 = root)) as [->|Hne].
    + destruct (Z.eqb_spec (default 0 (ib_groups s !! root)) 1) as [E|E]; [rewrite lookup_delete_eq; cbn; lia|rewrite lookup_insert_eq; cbn; lia].
    + destruct (_ =? 1); [rewrite lookup_delete_ne by done|rewrite lookup_insert_ne by done]; lia.
  - intros root n. rewrite EG. destruct (Z.eqb_spec (default 0 (ib_groups s !! it.2)) 1) as [E|E].
    + intros [_ E']%lookup_delete_Some. by eapply CP.
    + destruct (decide (it.2 = root)) as [<-|Hne]; [rewrite lookup_insert_eq; intros [= <-]; lia|rewrite lookup_insert_ne by done; apply CP].
Qed.

Lemma waited_pending s root : counted s -> waited s root = true <-> forall it, it ∈ pending s -> it.2 <> root.
Proof.
  intros [CE _]. unfold waited. rewrite Z.leb_le, CE. split.
  - intros Hc it Hit HR. assert (0 < count root (pending s)); [|lia]. apply count_pos. by exists it.
  - intros HF. destruct (Z.lt_ge_cases 0 (count root (pending s))) as [Hc|]; [|done]. apply count_pos in Hc as (it & Hit & HR). by destruct (HF it Hit).
Qed.

(** A worker's move leaves what is pending alone, or passes an item on. *)
Lemma pending_worker s i w w' : ib_workers s !! i = Some w ->
  option_list (held w) ++ pending (set_worker i w' s) ≡ₚ option_list (held w') ++ pending s.
Proof.
  intros (l1 & l2 & EW & EI)%swap_worker. unfold pending. cbn [ib_work ib_workers set_worker]. rewrite EI, EW, !omap_middle.
  generalize (option_list (held w)) (option_list (held w')) (omap held (l1 ++ l2)) (ib_work s). intros a b c d. solve_Permutation.
Qed.
Lemma counted_worker s i w w' : counted s -> ib_workers s !! i = Some w -> held w' = held w -> counted (set_worker i w' s).
Proof.
  intros C E EH. eapply counted_perm; [exact C|done|]. pose proof (pending_worker s i w w' E) as P. rewrite EH in P. by apply Permutation_app_inv_l in P.
Qed.

Section Steps.
Context `{Blake3, Zstd, Fuse} `{Cbor Meta}.
Context (gomaxprocs : nat).

(** Destructs the cases of a step that succeeded. *)
Ltac step_cases E :=
  repeat match type of E with
  | context [match ?x with _ => _ end] => let EE := fresh "E" in destruct x eqn:EE
  end; try discriminate E; try (injection E as <- <-).

Lemma step_counted ev s s' r : counted s -> step gomaxprocs ev s = Some (s', r) -> counted s'.
Proof.
  intros C E. assert (forall s1, ib_groups s1 = ib_groups s -> ib_work s1 = ib_work s -> ib_workers s1 = ib_workers s -> counted s1) as Same.
  { intros s1 EG EW EL. eapply counted_perm; [exact C|done|]. unfold pending. by rewrite EW, EL. }
  assert (forall i w w' s1, ib_workers s !! i = Some w -> held w' = held w -> ib_groups s1 = ib_groups s -> ib_work s1 = ib_work s -> ib_workers s1 = <[i:=w']> (ib_workers s) -> counted s1) as Move.
  { intros i w w' s1 EL EH EG EW EN. eapply counted_perm; [exact (counted_worker s i w w' C EL EH)|done|]. unfold pending. cbn. by rewrite EW, EN. }
  destruct ev; cbn [step] in E.
  - unfold stage, returns, quiet in E. step_cases E; by apply Same.
  - injection E as <- <-. by apply Same.
  - unfold commit_stat, returns, quiet in E. cbv zeta in E. step_cases E; by apply Same.
  - unfold commit_rename, returns, quiet in E. step_cases E; by apply Same.
  - unfold commit_sync, returns, quiet in E. step_cases E; by apply Same.
  - unfold commit_enqueue, returns in E. step_cases E. eapply (counted_grow s _ (name, root)); [done|done|]. unfold pending. cbn [ib_work ib_workers set_commits set_queue]. rewrite <- app_assoc. symmetry. apply Permutation_middle.
  - unfold take_item, quiet in E. step_cases E; [by eapply (Move i WIdle WExited)|].
    eapply counted_perm; [exact C|done|]. pose proof (pending_worker (set_queue l (ib_groups s) s) i WIdle (WTaken w0) E0) as P. cbn in P. rewrite P.
    unfold pending. cbn. by rewrite E2.
  - unfold open_entry, quiet in E. step_cases E; (eapply Move; [eassumption|..|reflexivity]; done).
  - unfold ingest, quiet in E. step_cases E; (eapply Move; [eassumption|..|reflexivity]; done).
  - unfold settle, quiet in E. cbv zeta in E. step_cases E; (eapply Move; [eassumption|..|reflexivity]; done).
  - unfold count_down, quiet in E. step_cases E. eapply (counted_shrink s _ item); [done|done|].
    pose proof (pending_worker (set_queue (ib_work s) (shrink_group item.2 (ib_groups s)) s) i (WProcessed item) WIdle E0) as P. cbn in P. by rewrite P.
  - injection E as <- <-. by apply Same.
Qed.

(** * No entry is lost *)

Definition stored (st : Store) (body : bytes) : Prop := forall x, x ∈ All body -> exists o, x = Ok o /\ is_Some (view st (OKey o)).
(** The pack of that name is in the store, or its file in quarantine. *)
Definition settled (s : Inbox) (name : bytes) : Prop :=
  (exists body, name = entry_name (Sum256 body) /\ stored (ib_store s) body) \/ is_Some (ib_failed s !! name).
Definition there (s : Inbox) (name : bytes) : Prop := is_Some (ib_dir s !! name) \/ settled s name.
(** A file has the name of its body. *)
Definition named (name f : bytes) : Prop := forall m body, readMetaHeader f = Ok (m, body) -> name = entry_name (Sum256 body).

Definition worker_ok (s : Inbox) (w : worker) : Prop :=
  match w with
  | WTaken it | WWritten it (Err _) => there s it.1
  | WOpened it f => there s it.1 /\ named it.1 f
  | WWritten it (Ok _) | WProcessed it => settled s it.1
  | WIdle | WExited => True
  end.
Definition commit_ok (s : Inbox) (c : committing) : Prop :=
  match c with
  | CStatted tmpPath name _ => forall f, ib_tmp s !! tmpPath = Some f -> named name f
  | CRenamed name _ | CSynced name _ => there s name
  end.
Record sound (s : Inbox) : Prop := {
    so_store : inv (ib_store s);
    so_named : forall name f, ib_dir s !! name = Some f -> named name f;
    so_work : forall it, it ∈ ib_work s -> there s it.1;
    so_workers : forall w, w ∈ ib_workers s -> worker_ok s w;
    so_commits : forall c, c ∈ ib_commits s -> commit_ok s c
  }.

(** Clients commit what they staged under its hash, and a fresh name is nobody else's. *)
Definition honest (ev : event) (s : Inbox) : Prop :=
  match ev with
  | Stage tmpPath _ _ _ => forall name root, CStatted tmpPath name root ∉ ib_commits s
  | CommitStat tmpPath bodyHash _ _ => forall f, ib_tmp s !! tmpPath = Some f -> named (entry_name bodyHash) f
  | _ => True
  end.
(** The calls with which a worker handles an entry do not fail; everything else may. *)
Definition calm (ev : event) : Prop :=
  match ev with OpenEntry _ (Some _) | Settle _ (Some _) => False | _ => True end.

(** Knowledge about entries is not lost along a step. *)
Record later (s s' : Inbox) : Prop := {
    la_settled : forall name, settled s name -> settled s' name;
    la_there : forall name, there s name -> there s' name
  }.
Lemma later_files s s' : (forall body, stored (ib_store s) body -> stored (ib_store s') body) ->
  (forall name, is_Some (ib_failed s !! name) -> is_Some (ib_failed s' !! name)) ->
  (forall name, is_Some (ib_dir s !! name) -> is_Some (ib_dir s' !! name) \/ settled s' name) -> later s s'.
Proof.
  intros HS HF HD. assert (forall name, settled s name -> settled s' name) as L.
  { intros name [(body & -> & Hb)|Hf]; [left; exists body; split; [done|by apply HS]|right; by apply HF]. }
  split; [done|]. intros name [Hd|Hs]; [|by right; apply L]. by destruct (HD name Hd); [left|right].
Qed.
Lemma later_same s s' : ib_store s' = ib_store s -> ib_failed s' = ib_failed s -> ib_dir s' = ib_dir s -> later s s'.
Proof. intros E1 E2 E3. apply later_files; intros x; rewrite ?E1, ?E2, ?E3; auto. Qed.
Lemma worker_later s s' w : later s s' -> worker_ok s w -> worker_ok s' w.
Proof. intros [LS LT]. destruct w as [|it|it f|it [[]|e]|it|]; cbn; auto. intros [? ?]. split; auto. Qed.

(** What a step must still show: the parts it changed. *)
Lemma sound_step1 s s' : sound s -> later s s' -> inv (ib_store s') ->
  (forall name f, ib_dir s' !! name = Some f -> ib_dir s !! name = Some f \/ named name f) ->
  (forall it, it ∈ ib_work s' -> it ∈ ib_work s \/ there s' it.1) ->
  (forall w, w ∈ ib_workers s' -> w ∈ ib_workers s \/ worker_ok s' w) ->
  (forall t f, ib_tmp s' !! t = Some f -> ib_tmp s !! t = Some f \/ forall name root, CStatted t name root ∉ ib_commits s') ->
  (forall c, c ∈ ib_commits s' -> c ∈ ib_commits s \/ commit_ok s' c) -> sound s'.
Proof.
  intros [S1 S2 S3 S4 S5] L HI HD HW HWs HT HC. split; [done| | | |].
  - intros name f Hf. destruct (HD _ _ Hf); [by apply S2|done].
  - intros it Hit. destruct (HW _ Hit); [by apply L, S3|done].
  - intros w Hw. destruct (HWs _ Hw); [by eapply worker_later, S4|done].
  - intros c Hc. destruct (HC _ Hc) as [Hin|]; [|done]. specialize (S5 c Hin). destruct c as [t name root|name root|name root]; cbn in *; [|by apply L..].
    intros f Hf. destruct (HT _ _ Hf) as [?|Hn]; [by apply S5|]. by destruct (Hn name root).
Qed.
Lemma sound_step s s' : sound s -> later s s' -> inv (ib_store s') ->
  (forall name f, ib_dir s' !! name = Some f -> ib_dir s !! name = Some f \/ named name f) ->
  (forall it, it ∈ ib_work s' -> it ∈ ib_work s \/ there s' it.1) ->
  (forall w, w ∈ ib_workers s' -> w ∈ ib_workers s \/ worker_ok s' w) ->
  (forall t f, ib_tmp s' !! t = Some f -> ib_tmp s !! t = Some f \/ forall name root, CStatted t name root ∉ ib_commits s') ->
  (forall c, c ∈ ib_commits s' -> c ∈ ib_commits s \/ commit_ok s' c) -> sound s' /\ later s s'.
Proof. intros. split; [by eapply sound_step1|done]. Qed.
Lemma in_set_worker i w s w' : w' ∈ ib_workers (set_worker i w s) -> w' ∈ ib_workers s \/ w' = w.
Proof.
  cbn. intros (j & Hj)%list_elem_of_lookup. destruct (decide (i = j)) as [<-|Hne].
  - right. destruct (decide (i < length (ib_workers s))%nat); [by rewrite list_lookup_insert_eq in Hj by done; injection Hj|].
    rewrite list_insert_ge in Hj by lia. apply lookup_lt_Some in Hj. lia.
  - left. rewrite list_lookup_insert_ne in Hj by done. by eapply list_elem_of_lookup_2.
Qed.
Lemma in_delete {A} i (l : list A) x : x ∈ delete i l -> x ∈ l.
Proof. intros Hx. eapply elem_of_submseteq; [exact Hx|]. apply sublist_submseteq, sublist_delete. Qed.
Lemma in_insert {A} i (l : list A) x y : x ∈ <[i:=y]> l -> x ∈ l \/ x = y.
Proof.
  intros (j & Hj)%list_elem_of_lookup. destruct (decide (i = j)) as [<-|Hne].
  - destruct (decide (i < length l)%nat); [right; by rewrite list_lookup_insert_eq in Hj by done; injection Hj|].
    left. rewrite list_insert_ge in Hj by lia. by eapply list_elem_of_lookup_2.
  - left. rewrite list_lookup_insert_ne in Hj by done. by eapply list_elem_of_lookup_2.
Qed.

Context `{!ZstdOk, !FuseOk} `{!CborOk Meta (fun _ => True)}.
Hypothesis Hprocs : (0 < gomaxprocs)%nat.

(** The pack that [process] reads from a file of the right name. *)
Lemma pack_seq_stored body st : (forall x, x ∈ pack_seq body -> exists obj, x = Ok obj /\ is_Some (view st (SKey obj))) -> stored st body.
Proof.
  intros HS x Hx. destruct (HS (o ← x; Ok (MkStoreObject (OKey o) (Some (OBytes o)) None))) as (obj & E & Hv).
  { unfold pack_seq. apply list_elem_of_fmap. by exists x. }
  destruct x as [o|e]; [|done]. exists o. cbn in E. injection E as <-. done.
Qed.
Lemma pack_seq_valid body : Forall (fun x => forall obj, x = Ok obj -> Validate (SKey obj) = Ok tt) (pack_seq body).
Proof.
  apply list.Forall_forall. intros x (y & -> & Hy)%list_elem_of_fmap obj E. destruct y as [o|e]; [|done]. cbn in E. injection E as <-. cbn. by eapply All_valid.
Qed.
Lemma ingest_stores sched body st r stats st' : inv st -> WriteParallel gomaxprocs sched (MkWriteOpts 0 0 true) (pack_seq body) st = (r, stats, st') ->
  inv st' /\ (forall body, stored st body -> stored st' body) /\ (r = Ok tt -> stored st' body).
Proof.
  intros I E. destruct (parallel_writes gomaxprocs sched (MkWriteOpts 0 0 true) (pack_seq body) st r stats st' Hprocs I (pack_seq_valid body) E) as (G & _ & HS).
  split; [apply G|]. split; [|intros Hr; apply pack_seq_stored; by apply HS].
  intros b' Hb x Hx. destruct (Hb x Hx) as (o & -> & [rec Hv]). exists o. split; [done|]. exists rec. by apply (gr_kept _ _ G).
Qed.

Lemma step_sound ev s s' r : sound s -> honest ev s -> calm ev -> step gomaxprocs ev s = Some (s', r) -> sound s' /\ later s s'.
Proof.
  intros S HH HC E. pose proof S as [S1 S2 S3 S4 S5].
  assert (forall j, sound (set_commits (delete j (ib_commits s)) s) /\ later s (set_commits (delete j (ib_commits s)) s)) as Drop.
 
  { intros j. eapply sound_step; [done|by apply later_same|done|auto..]. cbn. intros c Hc%in_delete. by left. }
  destruct ev; cbn [step] in E.
  - unfold stage, returns, quiet in E. step_cases E; try (by split; [|by apply later_same]). eapply sound_step; [done|by apply later_same|done|auto..].
    intros t f. cbn. intros [[<- <-]|[Hne Hf]]%lookup_insert_Some; [by right|by left].
  - injection E as <- <-. eapply sound_step; [done|by apply later_same|done|auto..]. intros t f; cbn; intros [_ Hf]%lookup_delete_Some. by left.
  - unfold commit_stat, returns, quiet in E. cbv zeta in E. step_cases E; [by split; [|by apply later_same]|..].
    + eapply sound_step; [done|by apply later_same|done|auto..]. intros t f; cbn; intros [_ Hf]%lookup_delete_Some. by left.
    + eapply sound_step; [done|by apply later_same|done|auto..]. intros c [Hc| ->%list_elem_of_singleton]%elem_of_app; [by left|right]. exact HH.
  - unfold commit_rename, returns, quiet in E. step_cases E.
    1, 3: apply Drop.
    assert (commit_ok s (CStatted tmpPath name root)) as HN by (apply S5; by eapply list_elem_of_lookup_2). cbn in HN. eapply sound_step; [done| |done|..]; auto.
    + apply later_files; cbn; [done|done|]. intros n Hd. left. apply lookup_insert_is_Some'. by right.
    + cbn. intros n f [[<- <-]|[_ Hf]]%lookup_insert_Some; [right; by apply HN|by left].
    + intros t f; cbn; intros [_ Hf]%lookup_delete_Some. by left.
    + cbn. intros c1 [Hc| ->]%in_insert; [by left|right]. left. cbn. by rewrite lookup_insert_eq.
  - unfold commit_sync, returns, quiet in E. step_cases E.
    + apply Drop.
    + eapply sound_step; [done|by apply later_same|done|auto..]. cbn. intros c1 [Hc| ->]%in_insert; [by left|right].
      exact (S5 _ (list_elem_of_lookup_2 _ _ _ E0)).
  - unfold commit_enqueue, returns in E. step_cases E. eapply sound_step; [done|by apply later_same|done|auto..].
    + intros it [Hit| ->%list_elem_of_singleton]%elem_of_app; [by left|right]. exact (S5 _ (list_elem_of_lookup_2 _ _ _ E0)).
    + cbn. intros c1 Hc%in_delete. by left.
  - unfold take_item, quiet in E. step_cases E.
    + eapply sound_step; [done|by apply later_same|done|auto..]. intros w1 [Hw| ->]%in_set_worker; [by left|by right].
    + eapply sound_step; [done|by apply later_same|done|auto..].
      * cbn. intros it Hit. left. rewrite E2. by right.
      * intros w1 [Hw| ->]%in_set_worker; [by left|right]. apply (S3 w0). by left.
  - unfold open_entry, quiet in E. step_cases E; [done| |].
    + assert (worker_ok s (WTaken item)) as HT by (apply S4; by eapply list_elem_of_lookup_2). eapply sound_step; [done|by apply later_same|done|auto..].
      intros w1 [Hw| ->]%in_set_worker; [by left|right]. split; [exact HT|by apply S2].
    + assert (worker_ok s (WTaken item)) as HT by (apply S4; by eapply list_elem_of_lookup_2). eapply sound_step; [done|by apply later_same|done|auto..].
      intros w1 [Hw| ->]%in_set_worker; [by left|right]. destruct HT as [[f Hf]|HT]; [congruence|exact HT].
  - unfold ingest, quiet in E. step_cases E.
    + assert (worker_ok s (WOpened item f)) as [HT HN] by (apply S4; by eapply list_elem_of_lookup_2).
      match goal with X : WriteParallel _ _ _ _ _ = _ |- _ => destruct (ingest_stores _ _ _ _ _ _ S1 X) as (I & HM & HS) end. assert (later s (set_worker i (WWritten item r0) (set_store s0 s))) as L by (apply later_files; auto).
      eapply sound_step; [done|exact L|done|auto..]. intros w1 [Hw| ->]%in_set_worker; [by left|right]. cbn. destruct r0 as [[]|e]; [|by apply L].
      left. match goal with X : readMetaHeader f = Ok (_, ?b) |- _ => exists b; split; [by eapply HN|] end. by apply HS.
    + assert (worker_ok s (WOpened item f)) as [HT HN] by (apply S4; by eapply list_elem_of_lookup_2).
      eapply sound_step; [done|by apply later_same|done|auto..]. intros w1 [Hw| ->]%in_set_worker; [by left|by right].
  - unfold settle, quiet in E. cbv zeta in E. assert (forall it x, ib_workers s !! i = Some (WWritten it x) -> worker_ok s (WWritten it x)) as HT by (intros; apply S4; by eapply list_elem_of_lookup_2).
    step_cases E; try done; specialize (HT _ _ eq_refl); cbn in HT.
    + eapply sound_step; [done| |done|..]; auto.
      * apply later_files; auto. intros name Hd. destruct (decide (item.1 = name)) as [<-|Hne]; [right; exact HT|left]. cbn. by rewrite lookup_delete_ne.
      * cbn. intros name f [_ Hf]%lookup_delete_Some. by left.
      * intros w1 [Hw| ->]%in_set_worker; [by left|right]. exact HT.
    + eapply sound_step; [done|by apply later_same|done|auto..]. intros w1 [Hw| ->]%in_set_worker; [by left|right]. exact HT.
    + match goal with |- sound (set_files _ _ (<[_ := ?x]> _) _) /\ _ => set (b := x) end.
      assert (is_Some ((<[item.1 := b]> (ib_failed s)) !! item.1)) as HF by (rewrite lookup_insert_eq; by eexists).
      eapply sound_step; [done| |done|..]; auto.
      * apply later_files; cbn; auto.
        -- intros name [g Hg]. destruct (decide (item.1 = name)) as [<-|Hne]; [done|rewrite lookup_insert_ne by done; by eexists].
        -- intros name Hd. destruct (decide (item.1 = name)) as [<-|Hne]; [right; right; exact HF|left; by rewrite lookup_delete_ne].
      * cbn. intros name f [_ Hf]%lookup_delete_Some. by left.
      * intros w1 [Hw| ->]%in_set_worker; [by left|right]. right. exact HF.
    + eapply sound_step; [done|by apply later_same|done|auto..]. intros w1 [Hw| ->]%in_set_worker; [by left|right].
      destruct HT as [[f Hf]|HT]; [congruence|exact HT].
  - unfold count_down, quiet in E. step_cases E. eapply sound_step; [done|by apply later_same|done|auto..]. intros w1 [Hw| ->]%in_set_worker; [by left|by right].
  - injection E as <- <-. eapply sound_step; [done|by apply later_same|done|auto..].
Qed.

(** ** Opening *)

Lemma recover_entry_inv env name s : counted s -> sound s -> ib_workers s = [] -> counted (recover_entry env name s) /\ sound (recover_entry env name s) /\ ib_workers (recover_entry env name s) = [].
Proof.
  intros C S EW. unfold recover_entry. destruct (negb _); [done|]. pose proof S as [S1 S2 S3 S4 S5].
  destruct (readRoot env name s) as [root|e] eqn:ER.
  - split; [|split; [|done]].
    + eapply (counted_grow s _ (name, root)); [done|done|]. unfold pending. cbn [ib_work ib_workers set_queue]. rewrite <- app_assoc. symmetry. apply Permutation_middle.
    + eapply sound_step1; [done|by apply later_same|done|auto..]. intros it [Hit| ->%list_elem_of_singleton]%elem_of_app; [by left|right]. left. cbn.
      unfold readRoot in ER. destruct (re_read env name); [done|]. by destruct (ib_dir s !! name).
  - destruct (re_rename env name); [done|]. destruct (ib_dir s !! name) as [f|] eqn:Ef; [|done]. split; [|split; [|done]].
    + by eapply counted_perm.
    + assert (is_Some ((<[name := f]> (ib_failed s)) !! name)) as HF by (rewrite lookup_insert_eq; by eexists).
      eapply sound_step1; [done| |done|..]; auto.
      * apply later_files; cbn; [done| |].
        -- intros n Hn. apply lookup_insert_is_Some'. by right.
        -- intros n Hd. destruct (decide (name = n)) as [<-|Hne]; [right; right; exact HF|left; by rewrite lookup_delete_ne].
      * cbn. intros n g [_ Hg]%lookup_delete_Some. by left.
Qed.
Lemma recover_fold_inv env names s : counted s -> sound s -> ib_workers s = [] ->
  let s' := fold_left (fun s name => recover_entry env name s) names s in counted s' /\ sound s' /\ ib_workers s' = [].
Proof.
  revert s. induction names as [|n names IH]; intros s C S EW; [done|]. cbn [fold_left].
  destruct (recover_entry_inv env n s C S EW) as (C' & S' & EW'). by apply IH.
Qed.
Lemma omap_idle n : omap held (replicate n WIdle) = [].
Proof. by induction n. Qed.
Lemma open_inv env tmp dir failed st workers s : inv st -> (forall name f, dir !! name = Some f -> named name f) ->
  OpenInbox gomaxprocs env tmp dir failed st workers = Ok s -> counted s /\ sound s.
Proof.
  intros I HN E. unfold OpenInbox in E. cbv zeta in E. apply res_bind_Ok in E as (s1 & E1 & E). injection E as <-.
  unfold recover in E1. destruct (re_tmp env); [done|]. cbv zeta in E1. destruct (re_dir env); [done|]. injection E1 as <-.
  match goal with |- context [fold_left ?g ?l ?x] => destruct (recover_fold_inv env l x) as (C & S & EW) end.
  - split; [by intros root|by intros root n].
  - split; cbn; [done|done|by intros it Hit%elem_of_nil|by intros w Hw%elem_of_nil|by intros c Hc%elem_of_nil].
  - done.
  - set (s1 := fold_left _ _ _) in *. clearbody s1. split.
    + eapply counted_perm; [exact C|done|]. unfold pending. cbn. rewrite omap_idle, EW. done.
    + eapply sound_step1; [exact S|by apply later_same|apply S|auto..].
      * cbn. intros w Hw%elem_of_replicate_inv. right. by subst w.
      * cbn. intros c Hc. by apply elem_of_nil in Hc.
Qed.

(** ** Runs *)

Definition ok_step (s s' : Inbox) : Prop := exists ev r, honest ev s /\ calm ev /\ step gomaxprocs ev s = Some (s', r).
Definition started (s : Inbox) : Prop := exists env tmp dir failed st workers,
  inv st /\ (forall name f, dir !! name = Some f -> named name f) /\ OpenInbox gomaxprocs env tmp dir failed st workers = Ok s.
Definition reachable (s : Inbox) : Prop := exists s0, started s0 /\ rtc ok_step s0 s.

Lemma ok_step_inv s s' : counted s -> sound s -> ok_step s s' -> counted s' /\ sound s' /\ later s s'.
Proof.
  intros C S (ev & r & HH & HC & E). destruct (step_sound _ _ _ _ S HH HC E) as [S' L]. split; [by eapply step_counted|done].
Qed.
Lemma run_inv s s' : counted s -> sound s -> rtc ok_step s s' -> counted s' /\ sound s'.
Proof. intros C S R. induction R as [|s s1 s' E R IH]; [done|]. destruct (ok_step_inv _ _ C S E) as (C1 & S1 & _). by apply IH. Qed.
Lemma reachable_inv s : reachable s -> counted s /\ sound s.
Proof. intros (s0 & (env & tmp & dir & failed & st & workers & I & HN & E) & R). destruct (open_inv _ _ _ _ _ _ _ I HN E). by eapply run_inv. Qed.

(** An item stays in hand until it is settled. *)
Lemma step_pending ev s s' r it : sound s -> sound s' -> step gomaxprocs ev s = Some (s', r) -> it ∈ pending s -> it ∈ pending s' \/ settled s' it.1.
Proof.
  intros S S' E Hin.
  assert (forall i w w' s1, ib_workers s !! i = Some w -> held w' = held w -> ib_work s1 = ib_work s -> ib_workers s1 = <[i:=w']> (ib_workers s) -> it ∈ pending s1) as Move.
  { intros i w w' s1 EL EH EW EN. pose proof (pending_worker s i w w' EL) as P. rewrite EH in P. apply Permutation_app_inv_l in P.
    unfold pending in *. cbn in P. rewrite EW, EN. by rewrite P. }
  destruct ev; cbn [step] in E.
  - unfold stage, returns, quiet in E. left. by step_cases E.
  - left. by injection E as <- <-.
  - unfold commit_stat, returns, quiet in E. cbv zeta in E. left. by step_cases E.
  - unfold commit_rename, returns, quiet in E. left. by step_cases E.
  - unfold commit_sync, returns, quiet in E. left. by step_cases E.
  - unfold commit_enqueue, returns in E. left. step_cases E. unfold pending in *. cbn in *. apply elem_of_app in Hin as [?|?]; [|by apply elem_of_app; right].
    apply elem_of_app; left. by apply elem_of_app; left.
  - unfold take_item, quiet in E. left. step_cases E; [eapply Move; [eassumption|..|reflexivity]; done|].
    pose proof (pending_worker (set_queue l (ib_groups s) s) i WIdle (WTaken w0) ltac:(done)) as P. cbn in P. rewrite P.
    unfold pending in Hin. match goal with X : ib_work s = _ |- _ => rewrite X in Hin end. exact Hin.
  - unfold open_entry, quiet in E. left. step_cases E; (eapply Move; [eassumption|..|reflexivity]; done).
  - unfold ingest, quiet in E. left. step_cases E; (eapply Move; [eassumption|..|reflexivity]; done).
  - unfold settle, quiet in E. cbv zeta in E. left. step_cases E; (eapply Move; [eassumption|..|reflexivity]; done).
  - unfold count_down, quiet in E. step_cases E.
    match goal with X : ib_workers s !! i = Some (WProcessed item) |- _ =>
      pose proof (pending_worker s i (WProcessed item) WIdle X) as P; pose proof (so_workers _ S _ (list_elem_of_lookup_2 _ _ _ X)) as HS end.
    cbn in P. rewrite <- P in Hin. apply elem_of_cons in Hin as [->|Hin]; [right; exact HS|left; exact Hin].
  - left. by injection E as <- <-.
Qed.
Lemma run_pending s s' it : counted s -> sound s -> rtc ok_step s s' -> it ∈ pending s \/ settled s it.1 -> it ∈ pending s' \/ settled s' it.1.
Proof.
  intros C S R. induction R as [|s s1 s' E R IH]; [done|]. intros Hit. destruct (ok_step_inv _ _ C S E) as (C1 & S1 & L). apply IH; [done..|].
  destruct Hit as [Hit|Hs]; [|right; by apply L]. destruct E as (ev & r & _ & _ & E). exact (step_pending ev s s1 r it S S1 E Hit).
Qed.
(** ** Progress *)

Definition weight (w : worker) : nat := match w with WTaken _ => 4 | WOpened _ _ => 3 | WWritten _ _ => 2 | WProcessed _ => 1 | WIdle | WExited => 0 end.
Definition left_to_do (s : Inbox) : nat := 5 * length (ib_work s) + sum_list_with weight (ib_workers s).
Definition alive (s : Inbox) : Prop := exists w, w ∈ ib_workers s /\ w <> WExited.

Lemma weight_swap l i w w' : l !! i = Some w -> (sum_list_with weight (<[i:=w']> l) + weight w = sum_list_with weight l + weight w')%nat.
Proof. intros (l1 & l2 & EW & EI)%swap_worker. rewrite EI, EW, !sum_list_with_app. cbn. lia. Qed.
Lemma alive_swap s s' i w' : ib_workers s' = <[i:=w']> (ib_workers s) -> w' <> WExited -> is_Some (ib_workers s !! i) -> alive s'.
Proof. intros E Hw Hi%lookup_lt_is_Some. exists w'. split; [|done]. rewrite E. eapply list_elem_of_lookup_2. by apply list_lookup_insert_eq. Qed.

Lemma complete_schedule body st : inv st -> exists sched, complete_run gomaxprocs sched body st = true.
Proof.
  intros I. destruct (completes true DefaultBatchSize (gomaxprocs * 2) (pack_seq body) st (pack_seq_valid body) (left_q (start_run gomaxprocs (pack_seq body) st))
    (start_run gomaxprocs (pack_seq body) st)) as (sched & q & E & HF); [done|by apply start_pinv|lia|cbn; by destruct gomaxprocs; [lia|]|].
  exists sched. unfold complete_run. by rewrite E.
Qed.

(** A worker that holds an item can go on. *)
Lemma busy_step s i w : sound s -> ib_workers s !! i = Some w -> (0 < weight w)%nat ->
  exists s', ok_step s s' /\ alive s' /\ (left_to_do s' < left_to_do s)%nat.
Proof.
  intros S E HW.
  assert (forall ev w' s', honest ev s -> calm ev -> step gomaxprocs ev s = Some (s', None) -> ib_work s' = ib_work s -> ib_workers s' = <[i:=w']> (ib_workers s) ->
    (weight w' < weight w)%nat -> w' <> WExited -> exists s', ok_step s s' /\ alive s' /\ (left_to_do s' < left_to_do s)%nat) as Go.
  { intros ev w' s' HH HC ES EQ EN HL Hx. exists s'. split; [by exists ev, None|]. split; [by eapply alive_swap|].
    unfold left_to_do. rewrite EQ, EN. pose proof (weight_swap (ib_workers s) i w w' E). lia. }
  destruct w as [|it|it f|it r|it|]; cbn in HW; try lia.
  - destruct (ib_dir s !! it.1) as [f|] eqn:Ef.
    + eapply (Go (OpenEntry i None) (WOpened it f)); cbn; [done|done|unfold open_entry, quiet; by rewrite E, Ef|done|done|lia|done].
    + eapply (Go (OpenEntry i None) (WProcessed it)); cbn; [done|done|unfold open_entry, quiet; by rewrite E, Ef|done|done|lia|done].
  - destruct (readMetaHeader f) as [[m body]|e] eqn:Ef.
    + destruct (complete_schedule body (ib_store s) (so_store _ S)) as [sched Hs].
      destruct (WriteParallel gomaxprocs sched (MkWriteOpts 0 0 true) (pack_seq body) (ib_store s)) as [[r stats] st] eqn:EW.
      eapply (Go (Ingest i sched) (WWritten it r)); cbn; [done|done|unfold ingest, quiet; by rewrite E, Ef, Hs, EW|done|done|lia|done].
    + eapply (Go (Ingest i []) (WWritten it (Err e))); cbn; [done|done|unfold ingest, quiet; by rewrite E, Ef|done|done|lia|done].
  - assert (exists s', step gomaxprocs (Settle i None) s = Some (s', None) /\ ib_work s' = ib_work s /\ ib_workers s' = <[i:=WProcessed it]> (ib_workers s)) as (s' & ES & EQ & EN).
    { cbn [step]. unfold settle, quiet. rewrite E. cbv zeta. destruct r, (ib_dir s !! it.1); by eexists. }
    eapply (Go (Settle i None) (WProcessed it)); [done|done|exact ES|done|done|cbn; lia|done].
  - eapply (Go (Count i) WIdle); cbn; [done|done|unfold count_down, quiet; by rewrite E|done|done|lia|done].
Qed.
Lemma weightless l : sum_list_with weight l = 0%nat -> omap held l = [] /\ forall w, w ∈ l -> w = WIdle \/ w = WExited.
Proof.
  induction l as [|w l IH]; [split; [done|by intros w ?%elem_of_nil]|]. cbn. intros E. destruct IH as [IH1 IH2]; [lia|].
  destruct w; cbn in E; try lia; cbn; (split; [done|]); intros w' [->|Hw]%elem_of_cons; auto.
Qed.
Lemma busy_worker l : sum_list_with weight l <> 0%nat -> exists i w, l !! i = Some w /\ (0 < weight w)%nat.
Proof.
  induction l as [|w l IH]; [done|]. cbn. intros E. destruct (weight w) eqn:Ew; [|exists 0%nat, w; split; [done|lia]].
  destruct IH as (i & w' & ? & ?); [lia|]. by exists (S i), w'.
Qed.
Lemma drain_step s : sound s -> alive s -> pending s = [] \/ exists s', ok_step s s' /\ alive s' /\ (left_to_do s' < left_to_do s)%nat.
Proof.
  intros S (w & Hin & Hx). destruct (decide (sum_list_with weight (ib_workers s) = 0%nat)) as [EW|EW].
  2: { right. destruct (busy_worker _ EW) as (i & w' & Ei & Hw). by eapply busy_step. }
  destruct (weightless _ EW) as [EH HI]. destruct (ib_work s) as [|it rest] eqn:EQ; [left; unfold pending; by rewrite EQ, EH|right].
  destruct (HI w Hin) as [->|]; [|done]. apply list_elem_of_lookup in Hin as [i Hi].
  exists (set_worker i (WTaken it) (set_queue rest (ib_groups s) s)). split; [|split].
  - exists (Take i), None. split_and!; [done|done|]. cbn [step]. unfold take_item. by rewrite Hi, EQ.
  - by eapply (alive_swap s _ i (WTaken it)).
  - unfold left_to_do. cbn [ib_work ib_workers set_worker set_queue]. rewrite EQ. pose proof (weight_swap (ib_workers s) i WIdle (WTaken it) Hi) as HS. cbn in HS |- *. lia.
Qed.
Lemma drain n s : (left_to_do s <= n)%nat -> counted s -> sound s -> alive s -> exists s', rtc ok_step s s' /\ pending s' = [].
Proof.
  revert s. induction n as [|n IH]; intros s Hn C S HA; (destruct (drain_step s S HA) as [EP|(s1 & OK & A1 & L1)]; [by exists s|]); [lia|].
  destruct (ok_step_inv _ _ C S OK) as (C1 & S1 & _). destruct (IH s1) as (s' & R & EP); [lia|done..|]. exists s'. split; [by eapply rtc_l|done].
Qed.

(** ** A file nobody accounts for *)

Definition commit_name (c : committing) : bytes :=
  match c with CStatted _ name _ | CRenamed name _ | CSynced name _ => name end.
(** The file is there, and the queue, the workers and the clients hold other names. *)
Record stranded (name f : bytes) (s : Inbox) : Prop := {
    sd_file : ib_dir s !! name = Some f;
    sd_pending : forall it, it ∈ pending s -> it.1 <> name;
    sd_commits : forall c, c ∈ ib_commits s -> commit_name c <> name
  }.
(** A step of anybody, whatever fails. *)
Definition any_step (s s' : Inbox) : Prop := exists ev r, step gomaxprocs ev s = Some (s', r).

Lemma held_pending s i w it : ib_workers s !! i = Some w -> held w = Some it -> it ∈ pending s.
Proof. intros E EH. apply elem_of_app. right. apply list_elem_of_omap. exists w. split; [by eapply list_elem_of_lookup_2|done]. Qed.
Lemma pending_after s s' i w w' it : ib_workers s !! i = Some w -> (forall it, held w' = Some it -> it ∈ pending s) ->
  (forall it, it ∈ ib_work s' -> it ∈ ib_work s) -> ib_workers s' = <[i:=w']> (ib_workers s) -> it ∈ pending s' -> it ∈ pending s.
Proof.
  intros E EH EW EL. unfold pending at 1. rewrite EL. intros [Hw|(x & Hx & Eh)%list_elem_of_omap]%elem_of_app; [apply elem_of_app; left; by apply EW|].
  apply in_insert in Hx as [Hx| ->]; [apply elem_of_app; right; apply list_elem_of_omap; by exists x|by apply EH].
Qed.
Lemma stranded_step ev s s' r name f : stranded name f s -> step gomaxprocs ev s = Some (s', r) -> stranded name f s'.
Proof.
  intros [F P C] E. assert (forall i w it, ib_workers s !! i = Some w -> held w = Some it -> it.1 <> name) as PW by (intros; eapply P, held_pending; eassumption).
  assert (forall i c, ib_commits s !! i = Some c -> commit_name c <> name) as CL by (intros; eapply C, list_elem_of_lookup_2; eassumption).
  assert (forall i w w' s1, ib_workers s !! i = Some w -> (forall it, held w' = Some it -> it ∈ pending s) -> ib_dir s1 !! name = ib_dir s !! name ->
    (forall it, it ∈ ib_work s1 -> it ∈ ib_work s) -> ib_workers s1 = <[i:=w']> (ib_workers s) -> ib_commits s1 = ib_commits s -> stranded name f s1) as Move.
  { intros i w w' s1 EL EH ED EW EN EC. split; [by rewrite ED|intros it Hit; apply P; by eapply pending_after|by rewrite EC]. }
  destruct ev; cbn [step] in E.
  - unfold stage, returns, quiet in E. by step_cases E.
  - by injection E as <- <-.
  - unfold commit_stat, returns, quiet in E. cbv zeta in E. step_cases E; [done..|]. split; [done|done|].
    intros c [Hc| ->%list_elem_of_singleton]%elem_of_app; [by apply C|]. cbn. congruence.
  - unfold commit_rename, returns, quiet in E. step_cases E; try (split; [done|done|intros c' Hc%in_delete; by apply C]).
    specialize (CL _ _ E0). cbn in CL. split; [cbn; by rewrite lookup_insert_ne|done|]. cbn. intros c' [Hc| ->]%in_insert; [by apply C|done].
  - unfold commit_sync, returns, quiet in E. step_cases E; [split; [done|done|intros c' Hc%in_delete; by apply C]|].
    split; [done|done|]. cbn. intros c' [Hc| ->]%in_insert; [by apply C|by apply (CL _ _ E0)].
  - unfold commit_enqueue, returns in E. step_cases E. split; [done| |intros c' Hc%in_delete; by apply C].
    intros it. unfold pending. cbn. intros [[Hw| ->%list_elem_of_singleton]%elem_of_app|Hh]%elem_of_app; [|by apply (CL _ _ E0)|];
      apply P, elem_of_app; tauto.
  - unfold take_item, quiet in E. step_cases E; (eapply Move; [eassumption|..|reflexivity|reflexivity]; try done).
    + cbn. by rewrite E2.
    + cbn. intros it [= <-]. apply elem_of_app; left. rewrite E2. by left.
    + cbn. intros it Hit. by right.
  - unfold open_entry, quiet in E. step_cases E; (eapply Move; [eassumption|..|reflexivity|reflexivity]; try done; intros it [= <-]; by eapply held_pending).
  - unfold ingest, quiet in E. step_cases E; (eapply Move; [eassumption|..|reflexivity|reflexivity]; try done; intros it [= <-]; by eapply held_pending).
  - unfold settle, quiet in E. cbv zeta in E. step_cases E; (eapply Move; [eassumption|..|reflexivity|reflexivity]; try done; try (intros it [= <-]; by eapply held_pending));
      cbn; rewrite lookup_delete_ne; [done|by eapply PW|done|by eapply PW].
  - unfold count_down, quiet in E. step_cases E. eapply Move; [eassumption|..|reflexivity|reflexivity]; done.
  - by injection E as <- <-.
Qed.
Lemma stranded_run s s' name f : stranded name f s -> rtc any_step s s' -> stranded name f s'.
Proof. intros HS R. induction R as [|s s1 s' (ev & r & E) R IH]; [done|]. by eapply IH, stranded_step. Qed.

(** ** What recovery does with each file *)

Definition entry_root (env : RecoverEnv) (name f : bytes) : res Key :=
  match re_read env name with Some e => Err e | None => '(m, _) ← readMetaHeader f; Parse (Root m) end.
Definition fate (env : RecoverEnv) (name f : bytes) (s : Inbox) : Prop :=
  if HasSuffix name packSuffix then
    match entry_root env name f with
    | Ok root => ib_dir s !! name = Some f /\ (name, root) ∈ ib_work s
    | Err _ => if re_rename env name then ib_dir s !! name = Some f else ib_dir s !! name = None /\ ib_failed s !! name = Some f
    end
  else ib_dir s !! name = Some f.
(** Nothing but the entries [names] was touched or queued, each once at most. *)
Record recovered (env : RecoverEnv) (names : list bytes) (s s' : Inbox) : Prop := {
    rv_rest : ib_tmp s' = ib_tmp s /\ ib_store s' = ib_store s;
    rv_else : forall n, n ∉ names -> ib_dir s' !! n = ib_dir s !! n /\ ib_failed s' !! n = ib_failed s !! n;
    rv_fate : forall n f, n ∈ names -> ib_dir s !! n = Some f -> fate env n f s';
    rv_work : exists new, ib_work s' = ib_work s ++ new /\ NoDup new.*1 /\ forall it, it ∈ new -> it.1 ∈ names
  }.

Lemma recover_entry_one env n s : recovered env [n] s (recover_entry env n s).
Proof.
  unfold recover_entry. destruct (HasSuffix n packSuffix) eqn:EX; cbn [negb].
  2: { split; [done|done| |exists []; split_and!; [by rewrite app_nil_r|constructor|by intros it ?%elem_of_nil]].
       intros n' f ->%list_elem_of_singleton Hf. unfold fate. by rewrite EX. }
  assert (forall f, ib_dir s !! n = Some f -> readRoot env n s = entry_root env n f) as ER by (intros f Hf; unfold readRoot, entry_root; rewrite Hf; by destruct (re_read env n)).
  destruct (readRoot env n s) as [root|e] eqn:E.
  - split; [done|done| |].
    + intros n' f ->%list_elem_of_singleton Hf. unfold fate. rewrite EX, <- (ER f Hf). split; [done|]. cbn. apply elem_of_app; right. by left.
    + exists [(n, root)]. split_and!; [done|by apply list.NoDup_singleton|]. intros it ->%list_elem_of_singleton. by left.
  - assert (exists new, ib_work s = ib_work s ++ new /\ NoDup new.*1 /\ forall it : workItem, it ∈ new -> it.1 ∈ [n]) as HW
      by (exists []; split_and!; [by rewrite app_nil_r|constructor|by intros it ?%elem_of_nil]).
    destruct (re_rename env n) eqn:EN.
    { split; [done|done| |done]. intros n' f ->%list_elem_of_singleton Hf. unfold fate. by rewrite EX, <- (ER f Hf), EN. }
    destruct (ib_dir s !! n) as [g|] eqn:Eg; [|split; [done|done| |done]; intros n' f ->%list_elem_of_singleton Hf; congruence].
    split; [done| | |done].
    + intros n' Hn'. cbn. apply not_elem_of_cons in Hn' as [Hne _]. by rewrite lookup_delete_ne, lookup_insert_ne by done.
    + intros n' f ->%list_elem_of_singleton [= <-]%(eq_trans (eq_sym Eg)). unfold fate. rewrite EX, <- (ER g eq_refl), EN. cbn. by rewrite lookup_delete_eq, lookup_insert_eq.
Qed.
Lemma recovered_cons env n names s s1 s2 : n ∉ names -> recovered env [n] s s1 -> recovered env names s1 s2 -> recovered env (n :: names) s s2.
Proof.
  intros Hn [[T1 St1] E1 F1 (w1 & EW1 & N1 & I1)] [[T2 St2] E2 F2 (w2 & EW2 & N2 & I2)]. split.
  - by rewrite T2, St2.
  - intros m [Hm Hm2]%not_elem_of_cons. destruct (E2 m Hm2) as [-> ->]. apply E1. by intros ->%list_elem_of_singleton.
  - intros m f Hm Hf. destruct (decide (m = n)) as [->|Hne].
    + specialize (F1 n f ltac:(by left) Hf). destruct (E2 n Hn) as [Ed Ef]. unfold fate in *. destruct (HasSuffix n packSuffix); [|by rewrite Ed].
      destruct (entry_root env n f); [|by rewrite Ed, Ef]. rewrite Ed, EW2. split; [apply F1|]. apply elem_of_app; left. apply F1.
    + apply elem_of_cons in Hm as [->|Hm]; [done|]. apply F2; [done|]. rewrite (proj1 (E1 m ltac:(by intros ->%list_elem_of_singleton))). exact Hf.
  - exists (w1 ++ w2). split_and!; [by rewrite EW2, EW1, app_assoc| |].
    + rewrite fmap_app. apply list.NoDup_app. split_and!; [done| |done]. intros x (it & -> & Hit)%list_elem_of_fmap (it2 & E & Hit2)%list_elem_of_fmap.
      specialize (I1 _ Hit). apply list_elem_of_singleton in I1. specialize (I2 _ Hit2). apply Hn. by rewrite <- I1, E.
    + intros it [Hit|Hit]%elem_of_app; [specialize (I1 _ Hit); apply list_elem_of_singleton in I1; rewrite I1; by left|right; by apply I2].
Qed.
Lemma recover_fold env names s : NoDup names -> recovered env names s (fold_left (fun s name => recover_entry env name s) names s).
Proof.
  intros HN. revert s. induction HN as [|n names Hn HN IH]; intros s.
  - split; [done|done|by intros n f ?%elem_of_nil|]. exists []. split_and!; [by rewrite app_nil_r|constructor|by intros it ?%elem_of_nil].
  - cbn [fold_left]. eapply recovered_cons; [done|apply recover_entry_one|apply IH].
Qed.
Lemma listing_spec d n : n ∈ listing d <-> is_Some (d !! n).
Proof. unfold listing. rewrite merge_sort_Permutation, elem_of_elements. apply elem_of_dom. Qed.
Lemma listing_NoDup d : NoDup (listing d).
Proof. unfold listing. rewrite merge_sort_Permutation. apply NoDup_elements. Qed.
End Steps.

(** * Properties *)

(** The meta header is read back from what was written, whatever the body that follows,
    and a file that was cut inside it is refused. *)
Theorem meta_header_roundtrip `{Cbor Meta} `{!CborOk Meta (fun _ => True)} m hdr body n :
  writeMetaHeader m = Ok hdr -> zlen hdr < 2 ^ 32 -> (n < length hdr)%nat ->
  readMetaHeader (hdr ++ body) = Ok (m, body) /\ is_ok (readMetaHeader (take n hdr)) = false.
Proof.
  intros (b & EM & E)%res_bind_Ok Hl Hn. assert (hdr = be_put 4 (u32 (zlen b)) ++ b) as -> by congruence. rewrite zlen_app in Hl. assert (zlen (be_put 4 (u32 (zlen b))) = 4) as E4 by (unfold zlen; by rewrite length_be_put).
  rewrite E4 in Hl. split.
  - rewrite <- app_assoc. rewrite (header_put b body) by lia. by rewrite (cbor_roundtrip m b I EM).
  - rewrite length_app, length_be_put in Hn. unfold readMetaHeader. destruct (Nat.ltb_spec (length (take n (be_put 4 (u32 (zlen b)) ++ b))) 4) as [H4|H4]; [done|].
    rewrite length_take, length_app, length_be_put in H4. cbv zeta.
    assert (take 4 (take n (be_put 4 (u32 (zlen b)) ++ b)) = be_put 4 (u32 (zlen b))) as -> by (rewrite take_take, Nat.min_l by lia; apply take_app_length'; by rewrite length_be_put).
    assert (be_get (be_put 4 (u32 (zlen b))) = zlen b) as ->.
    { pose proof (zlen_nonneg b). rewrite be_get_put. unfold u32. rewrite !Z.mod_small by (rewrite ?Z.mod_small; cbn; lia). done. }
    assert (Z.to_nat (zlen b) = length b) as -> by (unfold zlen; lia).
    rewrite (proj2 (Nat.ltb_lt _ _)); [done|]. rewrite length_drop, length_take, length_app, length_be_put. lia.
Qed.

(** C9. No committed pack is lost, and [WaitFor] waits for it: however clients and workers
    interleave, whatever the packs hold and whichever calls of the clients or of the store
    fail, once [WaitFor] on its root returns, an entry that was queued - by [Commit], which
    then reported it added, or by the recovery of an earlier run - is no longer on its way:
    every object of the pack of that name is stored, or its file is in quarantine. Only a
    failure of the calls by which a worker opens or moves the entry itself is excluded. *)
Theorem queued_entry_settles `{Blake3} `{ZstdOk} `{FuseOk} `{Cbor Meta} gomaxprocs s1 s2 name root :
  (0 < gomaxprocs)%nat -> reachable gomaxprocs s1 -> (name, root) ∈ ib_work s1 -> rtc (ok_step gomaxprocs) s1 s2 ->
  waited s2 root = true -> settled s2 name.
Proof.
  intros Hp HR Hin R HW. destruct (reachable_inv gomaxprocs Hp s1 HR) as [C S]. destruct (run_inv gomaxprocs Hp s1 s2 C S R) as [C2 S2].
  destruct (run_pending gomaxprocs Hp s1 s2 (name, root) C S R) as [Hpe|]; [left; unfold pending; by apply elem_of_app; left| |done].
  apply (waited_pending s2 root C2) with (it := (name, root)) in HW; [done|exact Hpe].
Qed.

(** C30. While a worker lives, the inbox can always be drained: from every reachable state the
    workers can go on, in a bounded number of steps, until nothing is pending and [WaitFor]
    returns for every root. *)
Theorem inbox_drains `{Blake3} `{ZstdOk} `{FuseOk} `{Cbor Meta} gomaxprocs s :
  (0 < gomaxprocs)%nat -> reachable gomaxprocs s -> alive s ->
  exists s', rtc (ok_step gomaxprocs) s s' /\ pending s' = [] /\ forall root, waited s' root = true.
Proof.
  intros Hp HR HA. destruct (reachable_inv gomaxprocs Hp s HR) as [C S].
  destruct (drain gomaxprocs Hp (left_to_do s) s (le_n _) C S HA) as (s' & R & EP). exists s'. split; [done|]. split; [done|].
  intros root. destruct (run_inv gomaxprocs Hp s s' C S R) as [C' _]. apply waited_pending; [done|]. rewrite EP. by intros it ?%elem_of_nil.
Qed.

(** C31. Recovery resumes: [Open] clears what was being staged, queues every entry whose header
    can be read under the root the header names, once, quarantines the others, and leaves
    every other file and the store as they were. *)
Theorem recover_resumes `{Cbor Meta} gomaxprocs env tmp dir failed st workers s :
  OpenInbox gomaxprocs env tmp dir failed st workers = Ok s ->
  ib_tmp s = filter (fun '(n, _) => re_remove env n = true) tmp /\ ib_store s = st /\
  (forall name f, dir !! name = Some f -> fate env name f s) /\
  NoDup (ib_work s).*1 /\ (forall it, it ∈ ib_work s -> is_Some (dir !! it.1)) /\
  (forall name, dir !! name = None -> ib_dir s !! name = None /\ ib_failed s !! name = failed !! name).
Proof.
  intros E. unfold OpenInbox in E. cbv zeta in E. apply res_bind_Ok in E as (s1 & E1 & E). injection E as <-.
  unfold recover in E1. destruct (re_tmp env); [done|]. cbv zeta in E1. destruct (re_dir env); [done|]. injection E1 as <-.
  match goal with |- context [fold_left ?g ?l ?x] => destruct (recover_fold env l x (listing_NoDup _)) as [[ET ES] EE EF (new & EW & EN & EI)]; set (s1 := fold_left g l x) in * end.
  clearbody s1. cbn in EW, ET, ES, EE, EF. cbn [ib_tmp ib_store ib_work ib_dir ib_failed]. split_and!; [done|done| |by rewrite EW| |].
  - intros name f Hf. specialize (EF name f). cbn in EF. apply EF in Hf as HF; [exact HF|]. apply listing_spec. by eexists.
  - rewrite EW. intros it Hit. apply listing_spec. by apply EI.
  - intros name Hn. destruct (EE name) as [-> ->]; [|done]. rewrite listing_spec, Hn. by intros [? ?].
Qed.

(** C39. A commit whose directory sync fails strands its entry. The call reports the failure after
    the file has got its final name, and if that name is in no queue and in no other client's
    hands, then whatever clients and workers do afterwards, and whatever fails, no step before
    a restart moves or removes the file or queues its name, and every retry of the commit
    reports that the entry is there, and gives up its own copy. [WaitFor] meanwhile does not
    wait for it: the workers can still drain the inbox until it returns for every root. *)
Theorem failed_commit_strands `{Blake3} `{ZstdOk} `{FuseOk} `{Cbor Meta} gomaxprocs s i name root (f : bytes) e :
  (0 < gomaxprocs)%nat -> reachable gomaxprocs s -> alive s -> ib_commits s !! i = Some (CRenamed name root) -> ib_dir s !! name = Some f ->
  (forall it, it ∈ pending s -> it.1 <> name) -> (forall c, c ∈ delete i (ib_commits s) -> commit_name c <> name) ->
  exists s1 : Inbox, step gomaxprocs (CommitSync i (Some e)) s = Some (s1, Some (Err e)) /\
    (forall s2, rtc (any_step gomaxprocs) s1 s2 -> ib_dir s2 !! name = Some f /\ (forall it, it ∈ pending s2 -> it.1 <> name) /\
       forall tmpPath bodyHash root2, entry_name bodyHash = name ->
         step gomaxprocs (CommitStat tmpPath bodyHash root2 None) s2 = Some (discard tmpPath s2, Some (Ok false))) /\
    exists s2, rtc (ok_step gomaxprocs) s1 s2 /\ ib_dir s2 !! name = Some f /\ forall root2, waited s2 root2 = true.
Proof.
  intros Hp HR HA EC EF EP EN. set (s1 := set_commits (delete i (ib_commits s)) s).
  assert (step gomaxprocs (CommitSync i (Some e)) s = Some (s1, Some (Err e))) as E1 by (cbn [step]; unfold commit_sync, returns; by rewrite EC).
  assert (stranded name f s1) as HS by (by split). exists s1. split; [exact E1|]. split.
  - intros s2 R. destruct (stranded_run gomaxprocs _ _ _ _ HS R) as [F P C]. split; [exact F|]. split; [exact P|]. intros tmpPath bodyHash root2 <-.
    cbn [step]. unfold commit_stat, returns. cbv zeta. by rewrite F.
  - assert (ok_step gomaxprocs s s1) as OK by (exists (CommitSync i (Some e)), (Some (Err e)); by split). destruct (reachable_inv gomaxprocs Hp s HR) as [C S].
    destruct (ok_step_inv gomaxprocs Hp _ _ C S OK) as (C1 & S1 & _). destruct (drain gomaxprocs Hp (left_to_do s1) s1 (le_n _) C1 S1 HA) as (s2 & R & E2).
    exists s2. split; [exact R|]. split; [|intros root2; apply waited_pending; [by apply (run_inv gomaxprocs Hp _ _ C1 S1 R)|rewrite E2; by intros it ?%elem_of_nil]].
    apply (stranded_run gomaxprocs s1 s2 name f HS). eapply rtc_subrel; [|exact R]. intros x y (ev & r & _ & _ & Ex). by exists ev, r.
Qed.

(** * A small inbox *)

#[export] Instance codec_meta : Codec Meta :=
  codec_iso (fun m => (Ref m, (Root m, ReceivedAt m))) (fun '(a, (b, c)) => MkMeta a b c).
#[export] Instance codec_meta_ok : CodecOk Meta.
Proof. apply codec_iso_ok. by intros []. Qed.
#[export] Instance cbor_meta : Cbor Meta := toy_cbor Meta.
#[export] Instance cbor_meta_ok : CborOk Meta (fun _ => True) := toy_cbor_ok Meta (fun _ => True).

Definition small_body : bytes := Eval vm_compute in Pack.bw (snd ((Pack.AddAll Pack.never [Pack.MkObject sample_key [x61; x62; x63]] ≫= fun _ => Pack.Close Pack.never) Pack.NewWriter)).
Definition small_meta : Meta := MkMeta [x72] (b32_bytes sample_key) 0.
Definition small_name : bytes := Eval vm_compute in entry_name (Sum256 small_body).
Definition good_env : RecoverEnv := MkRecoverEnv None None (fun _ => false) (fun _ => None) (fun _ => false).
Definition empty_inbox : Inbox := MkInbox ∅ ∅ ∅ (fresh sample_cfg (empty_disk [])) [] ∅ false [WIdle] [].
Lemma empty_opens : OpenInbox 1 good_env ∅ ∅ ∅ (fresh sample_cfg (empty_disk [])) 1 = Ok empty_inbox.
Proof. vm_compute. reflexivity. Qed.
Lemma empty_started : started 1 empty_inbox.
Proof.
  exists good_env, ∅, ∅, ∅, (fresh sample_cfg (empty_disk [])), 1. split; [apply inv_fresh; by vm_compute|]. split; [by intros name f|apply empty_opens].
Qed.
(** One pack is staged, committed and processed. *)
Definition one_worker : list pchoice := [PProduce; PSend; PWork 0; PWork 0; PWork 0; PWork 0].
Definition life : list event :=
  [Stage [x74] small_meta small_body None; CommitStat [x74] (Sum256 small_body) sample_key None; CommitRename 0 None; CommitSync 0 None;
   CommitEnqueue 0; Take 0; OpenEntry 0 None; Ingest 0 one_worker; Settle 0 None; Count 0].
Definition advance (s : Inbox) (ev : event) : Inbox := match step 1 ev s with Some (s', _) => s' | None => s end.
Definition after (n : nat) : Inbox := foldl advance empty_inbox (take n life).
Lemma next n ev : life !! n = Some ev -> honest ev (after n) -> calm ev -> (if step 1 ev (after n) is Some _ then true else false) = true -> ok_step 1 (after n) (after (S n)).
Proof.
  intros EL HH HC HS. unfold after at 2. rewrite (take_S_r _ _ _ EL), foldl_app. cbn [foldl]. fold (after n). unfold advance.
  destruct (step 1 ev (after n)) as [[s' r]|] eqn:E; [by exists ev, r|discriminate HS].
Qed.
Ltac small_step := eapply rtc_l; [eapply next; [reflexivity|try exact I|exact I|vm_compute; reflexivity]|].
Lemma committed : rtc (ok_step 1) (after 0) (after 5).
Proof.
  small_step. { intros name root Hin. by apply elem_of_nil in Hin. }
  small_step.
  { intros f Hf m body Er. vm_compute in Hf. injection Hf as <-. vm_compute in Er. injection Er as <- <-. vm_compute. reflexivity. }
  do 3 small_step. apply rtc_refl.
Qed.
Lemma processed : rtc (ok_step 1) (after 5) (after 10).
Proof. do 5 small_step. apply rtc_refl. Qed.
Lemma committed_reachable : reachable 1 (after 5).
Proof. exists empty_inbox. split; [apply empty_started|apply committed]. Qed.

Lemma queued_entry_settles_witness : ib_work (after 5) = [(small_name, sample_key)] /\ waited (after 10) sample_key = true /\ settled (after 10) small_name.
Proof.
  assert (ib_work (after 5) = [(small_name, sample_key)]) as EW by (vm_compute; reflexivity).
  assert (waited (after 10) sample_key = true) as EG by (vm_compute; reflexivity).
  split; [exact EW|]. split; [exact EG|].
  apply (queued_entry_settles 1 (after 5) (after 10) small_name sample_key ltac:(lia) committed_reachable); [rewrite EW; by left|exact processed|exact EG].
Defined.
Lemma inbox_drains_witness : exists s', rtc (ok_step 1) (after 5) s' /\ pending s' = [].
Proof.
  assert (alive (after 5)) as HA by (exists WIdle; split; [by left|discriminate]).
  destruct (inbox_drains 1 (after 5) ltac:(lia) committed_reachable HA) as (s' & R & EP & _). exists s'. split; [exact R|exact EP].
Defined.
Lemma meta_header_roundtrip_witness : exists hdr, writeMetaHeader small_meta = Ok hdr /\ readMetaHeader (hdr ++ small_body) = Ok (small_meta, small_body).
Proof.
  destruct (writeMetaHeader small_meta) as [hdr|e] eqn:E; [|discriminate E]. exists hdr. split; [reflexivity|].
  assert (zlen hdr < 2 ^ 32 /\ (0 < length hdr)%nat) as [Hl Hn].
  { assert (hdr = match writeMetaHeader small_meta with Ok h => h | Err _ => [] end) as -> by (rewrite E; reflexivity). split; vm_compute; [reflexivity|lia]. }
  apply (meta_header_roundtrip small_meta hdr small_body 0 E Hl Hn).
Defined.
(** A crash right after the commit. *)
Lemma recover_resumes_witness :
  exists s, OpenInbox 1 good_env ∅ (ib_dir (after 5)) ∅ (fresh sample_cfg (empty_disk [])) 1 = Ok s /\ NoDup (ib_work s).*1 /\ is_ok (entry_root good_env small_name []) = false.
Proof.
  destruct (OpenInbox 1 good_env ∅ (ib_dir (after 5)) ∅ (fresh sample_cfg (empty_disk [])) 1) as [s|e] eqn:E.
  - exists s. split; [reflexivity|]. destruct (recover_resumes 1 good_env ∅ (ib_dir (after 5)) ∅ _ 1 s E) as (_ & _ & _ & HN & _). split; [exact HN|reflexivity].
  - exfalso. assert (is_ok (OpenInbox 1 good_env ∅ (ib_dir (after 5)) ∅ (fresh sample_cfg (empty_disk [])) 1) = true) as E' by (vm_compute; reflexivity).
    rewrite E in E'. discriminate E'.
Defined.
(** The sync of the pack's directory fails, and the commit is tried again. *)
Lemma renamed_reachable : reachable 1 (after 3).
Proof.
  exists empty_inbox. split; [apply empty_started|]. change empty_inbox with (after 0).
  small_step. { intros name root Hin. by apply elem_of_nil in Hin. }
  small_step.
  { intros f Hf m body Er. vm_compute in Hf. injection Hf as <-. vm_compute in Er. injection Er as <- <-. vm_compute. reflexivity. }
  small_step. apply rtc_refl.
Qed.
Lemma failed_commit_strands_witness :
  exists f s1, step 1 (CommitSync 0 (Some [ErrNotExist])) (after 3) = Some (s1, Some (Err [ErrNotExist])) /\
    step 1 (CommitStat [x74] (Sum256 small_body) sample_key None) s1 = Some (discard [x74] s1, Some (Ok false)) /\
    exists s2, rtc (ok_step 1) s1 s2 /\ ib_dir s2 !! small_name = Some f /\ waited s2 sample_key = true.
Proof.
  assert (alive (after 3)) as HA by (exists WIdle; split; [by left|discriminate]).
  assert (ib_commits (after 3) = [CRenamed small_name sample_key]) as EC by (vm_compute; reflexivity).
  assert (pending (after 3) = []) as EP by (vm_compute; reflexivity).
  destruct (ib_dir (after 3) !! small_name) as [f|] eqn:Ef.
  2: { assert ((if ib_dir (after 3) !! small_name is Some _ then true else false) = true) as HS by (vm_compute; reflexivity). rewrite Ef in HS. discriminate HS. }
  destruct (failed_commit_strands 1 (after 3) 0 small_name sample_key f [ErrNotExist] ltac:(lia) renamed_reachable HA) as (s1 & E1 & HF & s2 & R & F2 & HW).
  - rewrite EC. reflexivity.
  - exact Ef.
  - rewrite EP. intros it Hit. by apply elem_of_nil in Hit.
  - rewrite EC. intros c Hc. by apply elem_of_nil in Hc.
  - exists f, s1. split; [exact E1|]. split; [|exists s2; split; [exact R|split; [exact F2|apply HW]]].
    destruct (HF s1 (rtc_refl _ _)) as (_ & _ & HC). apply HC. vm_compute. reflexivity.
Defined.
