(* ===== verification/IngestDir.v ===== *)
(** The ingest as its callers see it (src/ingest/ingest.go): [Objects] streams what the walk
    builds through a channel, [Dir] hands the stream to [WriteParallel]. Composed with the
    export and the extraction: what was ingested into a store can be restored from it. *)
From S2P Require Import Hostfs TarExtract Restore Prelude External Concrete Key Cborx Crc32 Record Pack Chunker Objects Readers Builder Trees Amberignore Ingest Mirror Parallel Footer Disk Scan Store StoreInv StoreSpec ParWrite Filepath Tar TarExport Backup.

(** * Every object the walk emits has a valid key *)

Definition keyed (o : Object) : Prop := Validate (OKey o) = Ok tt.
Definition emits {B A} (m : M (B * list Object) A) : Prop := forall s, Forall keyed s.2 -> Forall keyed (m s).2.2.
Definition emits0 {A} (m : M (list Object) A) : Prop := forall l, Forall keyed l -> Forall keyed (m l).2.

Section Emits.
Context {B : Type}.
Lemma emits_bind {A A'} (m : M (B * list Object) A) (k : A -> M (B * list Object) A') : emits m -> (forall x, emits (k x)) -> emits (m ≫= k).
Proof.
  intros Hm Hk s Hs. unfold mbind, M_bind. specialize (Hm s Hs). destruct (m s) as [[x|e] s']; [by apply Hk|done].
Qed.
Lemma emits_mret {A} (x : A) : emits (B:=B) (mret x).
Proof. by intros s. Qed.
Lemma emits_fail {A} e : emits (B:=B) (A:=A) (fail e).
Proof. by intros s. Qed.
Lemma emits_lift {A A'} (r : res A) (k : A -> M (B * list Object) A') : (forall x, r = Ok x -> emits (k x)) -> emits (x ← lift r; k x).
Proof. intros Hk s Hs. destruct r as [x|e]; [by apply (Hk x eq_refl)|done]. Qed.
Lemma emits_upd (f : B -> B) : emits (upd f).
Proof. by intros [b l]. Qed.
Lemma emits_emit o : keyed o -> emits (B:=B) (run_emit log_emit o).
Proof. intros Ho [b l] Hl. apply Forall_app; split; [done|by constructor]. Qed.
Lemma emits_gets {X A} (g : B * list Object -> X) (k : X -> M (B * list Object) A) : (forall x, emits (k x)) -> emits (gets g ≫= k).
Proof. intros Hk s Hs. rewrite M_gets. by apply Hk. Qed.
Lemma emits_each {X} (f : X -> M (B * list Object) unit) l : (forall x, emits (f x)) -> emits (each f l).
Proof. intros Hf. induction l as [|x l IH]; [apply emits_mret|]. cbn [each]. by apply emits_bind. Qed.
End Emits.

Lemma emits0_bind {A A'} (m : M (list Object) A) (k : A -> M (list Object) A') : emits0 m -> (forall x, emits0 (k x)) -> emits0 (m ≫= k).
Proof. intros Hm Hk l Hl. unfold mbind, M_bind. specialize (Hm l Hl). destruct (m l) as [[x|e] l']; [by apply Hk|done]. Qed.
Lemma emits0_mret {A} (x : A) : emits0 (mret x).
Proof. by intros l. Qed.
Lemma emits0_lift {A A'} (r : res A) (k : A -> M (list Object) A') : (forall x, r = Ok x -> emits0 (k x)) -> emits0 (x ← lift r; k x).
Proof. intros Hk l Hl. destruct r as [x|e]; [by apply (Hk x eq_refl)|done]. Qed.
Lemma emits_on_st {B A} (m : M (list Object) A) : emits0 m -> emits (B:=B) (on_st m).
Proof. intros Hm [b l] Hl. unfold on_st. specialize (Hm l Hl). by destruct (m l). Qed.

Create HintDb emits.
#[export] Hint Resolve emits_mret emits_fail emits_upd emits_each emits0_mret emits_on_st : emits.

Section EmitsBuild.
Context `{Blake3} `{Cbor (list bytes)} `{Cbor Entry} `{Cbor (list Entry)} `{Cbor DirPair} `{Cbor (list DirPair)} `{Cdc} `{Gitignore} `{Os}.

Lemma new_object_keyed t len b o : 0 <= t -> new_object t (u64 len) b = Ok o -> keyed o.
Proof. intros Ht E. apply new_object_Ok in E as (_ & V & _); [done|done|apply u64_range]. Qed.
Lemma buildNode_keyed isDir L obj sep : buildNode isDir L = Ok (obj, sep) -> keyed obj.
Proof.
  unfold buildNode. destruct isDir.
  - cbv zeta. intros (o & (b & _ & (sub & _ & E)%res_bind_Ok)%res_bind_Ok & (x & _ & [= <- <-])%res_bind_Ok)%res_bind_Ok. by apply new_object_keyed in E.
  - intros (o & E & [= <- <-])%res_bind_Ok. by apply EncodeFileNode_Ok in E as (_ & V & _).
Qed.

Lemma emits_add_fuel fuel l ck sep : emits (add_fuel log_emit fuel l ck sep).
Proof.
  revert l ck sep. induction fuel as [|fuel IH]; intros l ck sep; cbn [add_fuel]; [apply emits_fail|].
  apply emits_bind; [apply emits_upd|intros _]. apply emits_bind; [apply emits_upd|intros _]. apply emits_gets; intros ib.
  apply emits_lift; intros enc _. destruct (IsBoundary _ _ _); [|apply emits_mret]. unfold closeLevel.
  apply emits_gets; intros ib1. apply emits_lift; intros [obj sep'] E. apply buildNode_keyed in E.
  apply emits_bind; [apply emits_upd|intros _]. apply emits_bind; [by apply emits_emit|intros _]. apply IH.
Qed.
Lemma emits_add l ck sep : emits (add log_emit l ck sep).
Proof. unfold add. apply emits_gets; intros ib. apply emits_add_fuel. Qed.
Lemma emits_finish fuel l : emits (finish_loop log_emit fuel l).
Proof.
  revert l. induction fuel as [|fuel IH]; intros l; cbn [finish_loop]; [apply emits_fail|].
  apply emits_gets; intros ib. destruct (_ <? _)%nat; [|apply emits_fail]. destruct (_ =? 0); [apply IH|]. destruct (_ =? 1).
  - apply emits_bind; [apply emits_upd|intros _]. destruct (_ =? _)%nat; [apply emits_mret|]. apply emits_bind; [apply emits_add|intros _; apply IH].
  - apply emits_lift; intros [obj sep] E. apply buildNode_keyed in E. apply emits_bind; [apply emits_upd|intros _].
    apply emits_bind; [by apply emits_emit|intros _]. apply emits_bind; [apply emits_add|intros _; apply IH].
Qed.
Lemma emits_Finish : emits (Finish log_emit).
Proof. unfold Finish. apply emits_gets; intros ib. apply emits_finish. Qed.
Lemma emits_on_idx {A} (m : M (IndexBuilder * list Object) A) : emits m -> emits (on_idx m).
Proof. intros Hm [db l] Hl. unfold on_idx. specialize (Hm (idx db, l) Hl). cbn [snd] in *. by destruct (m (idx db, l)) as [r [ib l']]. Qed.
Lemma emits_on_ib {A} (m : M (IndexBuilder * list Object) A) : emits m -> emits (on_ib m).
Proof. intros Hm [[ib saw] l] Hl. unfold on_ib. specialize (Hm (ib, l) Hl). cbn [snd] in *. by destruct (m (ib, l)) as [r [ib' l']]. Qed.
Lemma emits_closeLeaf : emits (closeLeaf log_emit).
Proof.
  unfold closeLeaf. apply emits_gets; intros db. apply emits_lift; intros obj (b & _ & (sub & _ & E)%res_bind_Ok)%res_bind_Ok.
  apply new_object_keyed in E; [|done]. apply emits_bind; [apply emits_upd|intros _]. apply emits_bind; [by apply emits_emit|intros _]. apply emits_on_idx, emits_add.
Qed.
Lemma emits_AddEntry e : emits (AddEntry log_emit e).
Proof.
  unfold AddEntry. apply emits_lift; intros enc _. apply emits_bind; [apply emits_upd|intros _]. apply emits_gets; intros db.
  destruct (IsBoundary _ _ _); [apply emits_closeLeaf|apply emits_mret].
Qed.
Lemma emits_FinishDir : emits (FinishDir log_emit).
Proof.
  unfold FinishDir. apply emits_gets; intros db. apply emits_bind; [destruct (_ || _); [apply emits_closeLeaf|apply emits_mret]|].
  intros _. apply emits_on_idx, emits_Finish.
Qed.

Lemma emits_add_blob chunk : emits (add_blob log_emit chunk).
Proof.
  unfold add_blob. apply emits_lift; intros obj (_ & V & _)%EncodeBlob_Ok. apply emits_bind; [by apply emits_emit|intros _]. apply emits_on_ib, emits_add.
Qed.
Lemma emits_split_loop fuel c : emits (split_loop (file_chunk log_emit) fuel c).
Proof.
  revert c. induction fuel as [|fuel IH]; intros c; cbn [split_loop]; [apply emits_fail|]. destruct (Next c) as [[chunk err] c']. apply emits_bind.
  - destruct (0 <? zlen chunk); [|apply emits_mret]. apply emits_bind; [apply emits_upd|intros _; apply emits_add_blob].
  - intros _. destruct err as [[]|]; first [apply IH|apply emits_mret|apply emits_fail].
Qed.
Context (d : driver).
Lemma emits0_buildFile full : emits0 (buildFile d log_emit full).
Proof.
  intros l Hl. unfold buildFile. assert (emits (buildFile_body log_emit full)) as HB; [|specialize (HB ((NewFileIndexBuilder (d_ic d), false), l) Hl); by destruct (buildFile_body _ _ _) as [r [? l']]].
  unfold buildFile_body. apply emits_lift; intros f _. apply emits_bind; [unfold SplitBytes; apply emits_lift; intros c _; apply emits_split_loop|].
  intros _. apply emits_gets; intros saw. apply emits_bind; [destruct (negb saw); [apply emits_add_blob|apply emits_mret]|intros _]. apply emits_on_ib, emits_Finish.
Qed.
Lemma emits0_build_xattrs full e : emits0 (build_xattrs d log_emit full e).
Proof.
  unfold build_xattrs. destruct (_ =? S_IFLNK); [apply emits0_mret|]. apply emits0_lift; intros xs _. destruct (_ =? _)%nat; [apply emits0_mret|].
  cbv zeta. destruct (_ <=? _); [apply emits0_mret|]. apply emits0_lift; intros obj E. assert (keyed obj) as V by (by apply new_object_keyed in E).
  apply emits0_bind; [|intros; apply emits0_mret]. intros l Hl. apply Forall_app; split; [done|by constructor].
Qed.
Lemma emits0_buildEntry build full name ign : (forall p i, emits0 (build p i)) -> emits0 (buildEntry d log_emit full name ign build).
Proof.
  intros Hb. unfold buildEntry. apply emits0_lift; intros info _. cbv zeta. apply emits0_bind; [|intros; apply emits0_build_xattrs]. unfold build_payload. cbv zeta.
  destruct (_ =? S_IFREG); [apply emits0_bind; [apply emits0_buildFile|intros; apply emits0_mret]|].
  destruct (_ =? S_IFDIR); [apply emits0_lift; intros sub _; apply emits0_bind; [apply Hb|intros; apply emits0_mret]|].
  destruct (_ =? S_IFLNK); [apply emits0_lift; intros; apply emits0_mret|].
  destruct (_ || _); [apply emits0_mret|]. destruct (_ || _); [apply emits0_mret|by intros l].
Qed.
Lemma emits0_buildDir fuel p ign : emits0 (buildDir d log_emit fuel p ign).
Proof.
  revert p ign. induction fuel as [|fuel IH]; intros p ign l Hl; [done|]. cbn [buildDir].
  set (body := lift (ReadDir p) ≫= _). assert (emits (B:=DirBuilder) body) as HB.
  { apply emits_lift; intros ents _. apply emits_bind; [|intros _; apply emits_FinishDir]. apply emits_each; intros [name isDir].
    destruct (Ignored ign name isDir); [apply emits_mret|]. apply emits_bind; [by apply emits_on_st, emits0_buildEntry|intros e; apply emits_AddEntry]. }
  specialize (HB (NewDirBuilder (d_ic d), l) Hl). by destruct (body (NewDirBuilder (d_ic d), l)) as [r [db l']].
Qed.
End EmitsBuild.

(** * ingest.go *)

(** The chunker's options are part of [Cdc]; progress reports are left out. *)
Record Opts := MkOpts { Jobs : Z; ItemBits : Z; XattrInlineMax : Z; NoIgnore : bool }.

Definition storeObject (o : Object) : StoreObject := MkStoreObject (OKey o) (Some (OBytes o)) None.
(** What the consumer of the stream sees when it does not stop early. *)
Definition stream (r : res Key) (objs : list Object) : list (res Object) :=
  (Ok <$> objs) ++ match r with Ok _ => [] | Err e => [Err e] end.

Section Objects.
Context `{Blake3} `{Cbor (list bytes)} `{Cbor Entry} `{Cbor (list Entry)} `{Cbor DirPair} `{Cbor (list DirPair)} `{Cdc} `{Gitignore} `{Os}.
(** What [Objects] has settled before the walk starts. *)
Record Plan := MkPlan { pl_dir : bool; pl_path : path; pl_ign : option Matcher; pl_driver : driver; pl_buf : Z }.
(** [os.Stat] follows links, and runtime.GOMAXPROCS. *)
Context (os_Stat : path -> res External.Stat) (gomaxprocs : nat).

Definition jobs (o : Opts) : Z := if Jobs o <? 1 then Z.of_nat gomaxprocs else Jobs o.
Definition statPath (p : path) : res bool :=
  info ← os_Stat p;
  let fmt := Z.land (st_mode info) S_IFMT in
  if fmt =? S_IFDIR then Ok true
  else if fmt =? S_IFREG then Ok false
  else Err [EMsg "is neither a regular file nor a directory"].
Definition Objects (p : path) (opts : Opts) : res Plan :=
  isDir ← statPath p;
  ign ← (if isDir && negb (NoIgnore opts) then m ← Root p; Ok (Some m) else Ok None);
  d ← opts_driver (ItemBits opts) (XattrInlineMax opts);
  Ok (MkPlan isDir p ign d (Z.max 1 (jobs opts * 2))).

(** The outcomes of [buildRoot] when its consumer does not stop it. *)
Definition buildRoot (n : nat) (pl : Plan) (r : res Key) (objs : list Object) : Prop :=
  if pl_dir pl then par_builds (pl_driver pl) n (pl_path pl) (pl_ign pl) r objs
  else buildFile (pl_driver pl) log_emit (pl_path pl) [] = (r, objs).
End Objects.

(** ** The channel between the walk and the consumer *)

(** [ob_todo] is what the walk still emits; [ob_open] while it runs. *)
Record Pipe := MkPipe {
    ob_todo : list Object; ob_open : bool; ob_ch : list Object; ob_cancelled : bool;
    ob_root : option Key; ob_err : option error; ob_out : list (res Object); ob_done : bool
  }.
Inductive move := OSend | OStopped | OReturn | OYield (more : bool) | ODrain | OEnd.

Section Channel.
Context (r : res Key) (buf : Z).
Definition start_pipe (objs : list Object) : Pipe := MkPipe objs true [] false None None [] false.
Definition ob_move (m : move) (s : Pipe) : option Pipe :=
  match m with
  | OSend =>       (* case ch <- o *)
      match ob_todo s with
      | o :: todo =>
          if ob_open s && (zlen (ob_ch s) <? buf) then
            Some (MkPipe todo true (ob_ch s ++ [o]) (ob_cancelled s) (ob_root s) (ob_err s) (ob_out s) (ob_done s))
          else None
      | [] => None
      end
  | OStopped =>    (* case <-ctx.Done(): the walk ends with errStopped *)
      match ob_todo s with
      | _ :: _ =>
          if ob_open s && ob_cancelled s then Some (MkPipe [] false (ob_ch s) true (ob_root s) (ob_err s) (ob_out s) (ob_done s)) else None
      | [] => None
      end
  | OReturn =>
      match ob_todo s with
      | [] =>
          if ob_open s then
            Some (MkPipe [] false (ob_ch s) (ob_cancelled s) (match r with Ok k => Some k | Err _ => ob_root s end)
                    (match r with Ok _ => ob_err s | Err e => Some e end) (ob_out s) (ob_done s))
          else None
      | _ => None
      end
  | OYield more => (* for o := range ch; false cancels *)
      match ob_ch s with
      | o :: ch =>
          if negb (ob_cancelled s) && negb (ob_done s) then
            Some (MkPipe (ob_todo s) (ob_open s) ch (negb more) (ob_root s) (ob_err s) (ob_out s ++ [Ok o]) (ob_done s))
          else None
      | [] => None
      end
  | ODrain =>
      match ob_ch s with
      | _ :: ch => if ob_cancelled s then Some (MkPipe (ob_todo s) (ob_open s) ch true (ob_root s) (ob_err s) (ob_out s) (ob_done s)) else None
      | [] => None
      end
  | OEnd =>        (* the channel is closed and empty *)
      match ob_ch s with
      | [] =>
          if negb (ob_open s) && negb (ob_done s) then
            Some (MkPipe (ob_todo s) false [] (ob_cancelled s) (ob_root s) (ob_err s)
                    (ob_out s ++ if ob_cancelled s then [] else match ob_err s with Some e => [Err e] | None => [] end) true)
          else None
      | _ => None
      end
  end.
Fixpoint ob_run (ms : list move) (s : Pipe) : option Pipe :=
  match ms with [] => Some s | m :: ms => s ← ob_move m s; ob_run ms s end.

(** ** What the channel keeps *)

Definition last_word : list (res Object) := match r with Ok _ => [] | Err e => [Err e] end.
Record piped (objs : list Object) (s : Pipe) : Prop := {
    pi_flow : exists outs rest, ob_out s = (Ok <$> outs) ++ (if ob_done s && negb (ob_cancelled s) then last_word else []) /\
    objs = outs ++ rest /\ (ob_cancelled s = false -> rest = ob_ch s ++ ob_todo s);
    pi_root : forall k, ob_root s = Some k -> r = Ok k;
    pi_open : ob_open s = true -> ob_root s = None /\ ob_err s = None /\ ob_done s = false;
    pi_closed : ob_open s = false -> ob_todo s = [] /\
    (ob_cancelled s = false -> ob_root s = match r with Ok k => Some k | _ => None end /\ ob_err s = match r with Ok _ => None | Err e => Some e end);
    pi_done : ob_done s = true -> ob_open s = false /\ ob_ch s = []
  }.
Lemma start_piped objs : piped objs (start_pipe objs).
Proof. split; cbn; try done. by exists [], objs. Qed.
Lemma move_piped objs m s s' : piped objs s -> ob_move m s = Some s' -> piped objs s'.
Proof.
  intros [(outs & rest & EO & ER & EF) PR PO PC PD] E. destruct s as [todo opn ch can root err out dn]. cbn in *. destruct m; cbn in E.
  - destruct todo as [|o todo]; [done|]. destruct opn; [|done]. cbn in E. destruct (_ <? _); [|done]. injection E as <-. destruct (PO eq_refl) as (-> & -> & ->).
    split; cbn; try done. exists outs, rest. split; [done|]. split; [done|]. intros Hc. rewrite (EF Hc), <- app_assoc. done.
  - destruct todo as [|o todo]; [done|]. destruct opn, can; try done. injection E as <-. destruct (PO eq_refl) as (-> & -> & ->).
    split; cbn; try done. by exists outs, rest.
  - destruct todo as [|o todo]; [|done]. destruct opn; [|done]. injection E as <-. destruct (PO eq_refl) as (-> & -> & ->).
    split; cbn.
    + by exists outs, rest.
    + intros k. destruct r; congruence.
    + done.
    + intros _. split; [done|]. by destruct r.
    + done.
  - destruct ch as [|o ch]; [done|]. destruct can, dn; try done. injection E as <-. cbn in EO. rewrite app_nil_r in EO. specialize (EF eq_refl).
    split; cbn; try done.
    + exists (outs ++ [o]), (ch ++ todo). split; [by rewrite app_nil_r, fmap_app, EO|]. split; [by rewrite ER, EF, <- app_assoc|done].
    + intros Ho. destruct (PC Ho) as [-> HP]. split; [done|]. intros _. by apply HP.
  - destruct ch as [|o ch]; [done|]. destruct can; [|done]. injection E as <-. split; cbn; try done; [by exists outs, rest|].
    intros Hd. destruct (PD Hd) as [_ Hch]. done.
  - destruct ch as [|o ch]; [|done]. destruct opn, dn; try done. injection E as <-. destruct (PC eq_refl) as [-> HP]. cbn in EO. rewrite app_nil_r in EO.
    split; cbn; try done. exists outs, rest. split; [|done]. rewrite EO. f_equal. destruct can; [done|]. destruct (HP eq_refl) as [_ ->]. unfold last_word. by destruct r.
Qed.
Lemma run_piped objs ms s s' : piped objs s -> ob_run ms s = Some s' -> piped objs s'.
Proof.
  revert s. induction ms as [|m ms IH]; intros s HP E; cbn in E; [by injection E as <-|].
  destruct (ob_move m s) as [s1|] eqn:E1; [|done]. eapply IH; [by eapply move_piped|exact E].
Qed.

(** Every move brings the end nearer, and some move is possible until then. *)
Definition pipe_left (s : Pipe) : nat := 2 * length (ob_todo s) + length (ob_ch s) + (if ob_open s then 1 else 0) + (if ob_done s then 0 else 1).
Lemma move_left m s s' : ob_move m s = Some s' -> (pipe_left s' < pipe_left s)%nat.
Proof.
  intros E. destruct s as [todo opn ch can root err out dn]. unfold pipe_left. cbn [ob_todo ob_ch ob_open ob_done]. destruct m; cbn in E.
  - destruct todo as [|o todo]; [done|]. destruct opn; [|done]. cbn [andb] in E. destruct (_ <? _); [|done]. injection E as <-. cbn [ob_todo ob_ch ob_open ob_done length].
    rewrite length_app. cbn [length]. destruct dn; lia.
  - destruct todo as [|o todo]; [done|]. destruct opn, can; try done. injection E as <-. cbn [ob_todo ob_ch ob_open ob_done length]. destruct dn; lia.
  - destruct todo as [|o todo]; [|done]. destruct opn; [|done]. injection E as <-. cbn [ob_todo ob_ch ob_open ob_done length]. destruct dn; lia.
  - destruct ch as [|o ch]; [done|]. destruct can, dn; try done. injection E as <-. cbn [ob_todo ob_ch ob_open ob_done length]. destruct opn; lia.
  - destruct ch as [|o ch]; [done|]. destruct can; [|done]. injection E as <-. cbn [ob_todo ob_ch ob_open ob_done length]. destruct opn, dn; lia.
  - destruct ch as [|o ch]; [|done]. destruct opn, dn; try done. injection E as <-. cbn [ob_todo ob_ch ob_open ob_done length]. lia.
Qed.
Lemma run_left ms s s' : ob_run ms s = Some s' -> (length ms + pipe_left s' <= pipe_left s)%nat.
Proof.
  revert s. induction ms as [|m ms IH]; intros s E; cbn in E; [injection E as <-; cbn [length]; lia|].
  destruct (ob_move m s) as [s1|] eqn:E1; [|done]. apply move_left in E1. apply IH in E. cbn [length]. lia.
Qed.
Lemma move_on objs s : 0 < buf -> piped objs s -> ob_done s = false -> exists m s', ob_move m s = Some s'.
Proof.
  intros Hb HP Hd. destruct s as [todo opn ch can root err out dn]. cbn in Hd. subst dn. destruct ch as [|o ch].
  - destruct opn; [|by exists OEnd; eexists]. destruct todo as [|o todo]; [by exists OReturn; eexists|].
    exists OSend. cbn. change (zlen (@nil Object)) with 0. rewrite (proj2 (Z.ltb_lt 0 buf) Hb). by eexists.
  - destruct can; [by exists ODrain; eexists|by exists (OYield true); eexists].
Qed.
Lemma pipe_ends n objs s : 0 < buf -> (pipe_left s <= n)%nat -> piped objs s -> exists ms s', ob_run ms s = Some s' /\ ob_done s' = true.
Proof.
  intros Hb. revert s. induction n as [|n IH]; intros s Hn HP; (destruct (ob_done s) eqn:Hd; [by exists [], s|]).
  - unfold pipe_left in Hn. rewrite Hd in Hn. lia.
  - destruct (move_on objs s Hb HP Hd) as (m & s1 & E). pose proof (move_left _ _ _ E) as HL. destruct (IH s1) as (ms & s' & ER & Hd'); [lia|by eapply move_piped|].
    exists (m :: ms), s'. cbn. by rewrite E.
Qed.
End Channel.

(** ** Dir *)

Section Dir.
Context `{Blake3, Zstd, Fuse} (gomaxprocs : nat).
(** The root's cell is the zero key until the walk sets it; [out] is what the walk does. *)
Definition root_cell (r : res Key) : Key := match r with Ok k => k | Err _ => mk32 [] end.
Definition Dir (opts : Opts) (sched : list pchoice) (out : res Key * list Object) (st : Store) : res Key * WriteStats * Store :=
  let seq := (fun x : res Object => o ← x; Ok (storeObject o)) <$> stream out.1 out.2 in
  let '(r, stats, st) := WriteParallel gomaxprocs sched (MkWriteOpts (Jobs opts) 0 false) seq st in
  (_ ← r; Ok (root_cell out.1), stats, st).
End Dir.

(** Objects that share a key have the same bytes, in the log and in the store. *)
Definition unambiguous `{Zstd, Fuse} (s : Store) (objs : list Object) : Prop :=
  (forall o o', o ∈ objs -> o' ∈ objs -> OKey o = OKey o' -> OBytes o = OBytes o') /\
  (forall o rec, o ∈ objs -> view s (OKey o) = Some rec -> payload rec = Ok (OBytes o)).
(** The store answers each object's bytes. *)
Definition holds `{Zstd, Fuse} (s : Store) (objs : list Object) : Prop := serves (fun k => found payload (view s k)) objs.

Lemma stream_objects r objs o : Ok o ∈ stream r objs <-> o ∈ objs.
Proof.
  unfold stream. rewrite elem_of_app. split.
  - intros [(o' & [= <-] & Ho)%list_elem_of_fmap|Hin]; [done|]. destruct r; [by apply elem_of_nil in Hin|by apply list_elem_of_singleton in Hin].
  - intros Ho. left. by apply list_elem_of_fmap_2.
Qed.

Lemma dir_holds `{Blake3} `{ZstdOk} `{FuseOk} gomaxprocs opts sched r objs s k stats s' :
  (0 < gomaxprocs)%nat -> inv s -> Forall keyed objs -> unambiguous s objs ->
  Dir gomaxprocs opts sched (r, objs) s = (Ok k, stats, s') ->
  r = Ok k /\ grows s s' /\ holds s' objs /\ Stored stats + Deduped stats = zlen objs.
Proof.
  intros Hp I HK [HU1 HU2] E. unfold Dir in E. cbn [fst snd] in E. cbv zeta in E. set (seq := _ <$> stream r objs) in E.
  destruct (WriteParallel _ _ _ seq s) as [[r1 st1] s1] eqn:EW. injection E as E <- <-. destruct r1 as [[]|e]; [|done]. injection E as EK.
  assert (Forall (fun x => forall obj, x = Ok obj -> Validate (SKey obj) = Ok tt) seq) as HV.
  { apply Forall_fmap, list.Forall_forall. intros [o|e] Ho obj Eo; [|done]. cbn in Eo. injection Eo as <-. apply stream_objects in Ho. cbn. rewrite list.Forall_forall in HK. by apply HK. }
  destruct (parallel_writes gomaxprocs sched _ seq s _ _ _ Hp I HV EW) as (G & HN & HS). destruct (HS eq_refl) as [HA HC].
  assert (exists k', r = Ok k') as [k' ->].
  { destruct r as [k'|e]; [by exists k'|]. destruct (HA (Err e)) as (obj & Eo & _); [|done]. apply list_elem_of_fmap. exists (Err e). split; [done|].
    unfold stream. apply elem_of_app. right. by left. }
  split; [by rewrite <- EK|]. split; [done|]. split.
  - intros o Ho. destruct (HA (Ok (storeObject o))) as (obj & [= <-] & [rec Hv]).
    { apply list_elem_of_fmap. exists (Ok o). split; [done|]. by apply stream_objects. }
    cbn [storeObject SKey] in Hv. unfold holds, serves in *. cbv beta. rewrite Hv. cbn [found]. destruct (view s (OKey o)) as [rec0|] eqn:E0.
    + rewrite (gr_kept _ _ G _ _ E0) in Hv. injection Hv as <-. by apply HU2.
    + destruct (HN _ _ E0 Hv) as (obj & n & Hin & EKo & EP). apply list_elem_of_fmap in Hin as (x & Ex & Hx). destruct x as [o'|]; [|done]. cbn in Ex. injection Ex as ->. cbn in EKo.
      apply stream_objects in Hx. assert (keyed o') as HKo by (rewrite list.Forall_forall in HK; by apply HK).
      destruct (prepare_whole (storeObject o') _ _ _ HKo EP) as (h & W & _ & HD & _).
      rewrite (payload_whole _ _ W), (HD eq_refl). cbn. f_equal. by apply HU1.
  - rewrite HC. subst seq. unfold zlen. rewrite length_fmap. unfold stream. by rewrite app_nil_r, length_fmap.
Qed.

Section Keyed.
Context `{Blake3} `{Cbor (list bytes)} `{Cbor Entry} `{Cbor (list Entry)} `{Cbor DirPair} `{Cbor (list DirPair)} `{Cdc} `{Gitignore} `{Os}.
Context (d : driver).

Lemma emits_assemble outs : emits (assemble outs).
Proof.
  unfold assemble. apply emits_bind; [|intros _; apply emits_FinishDir]. apply emits_each. intros r. apply emits_lift. intros e _. apply emits_AddEntry.
Qed.
Lemma par_keyed n p ign r objs : par_builds d n p ign r objs -> Forall keyed objs.
Proof.
  revert p ign r objs. induction n as [|n IH]; intros p ign r objs; cbn [par_builds]; [by intros [_ ->]|].
  destruct (ReadDir p) as [ents|e]; [|by intros [_ ->]]. intros (build & merged & Hb & HI & db' & EA). cbv zeta in *.
  set (outs := map _ (kept ign ents)) in *. assert (Forall keyed merged) as HM.
  { apply interleaves_Permutation in HI. rewrite HI. apply Forall_concat, Forall_fmap, list.Forall_forall. intros x (de & -> & _)%list_elem_of_fmap. cbn.
    apply (emits0_buildEntry d build); [|done]. intros p' i' l Hl. destruct (Hb p' i') as (r' & objs' & HB & Hlog). rewrite Hlog. apply Forall_app. split; [done|by eapply IH]. }
  pose proof (emits_assemble (map fst outs) (NewDirBuilder (d_ic d), merged) HM) as HE. by rewrite EA in HE.
Qed.
End Keyed.

(** * Properties *)

Section Properties.
Context `{Blake3} `{ZstdOk} `{FuseOk} `{Cbor (list bytes)} `{Cbor Entry} `{Cbor (list Entry)} `{Cbor DirPair} `{Cbor (list DirPair)} `{Cdc} `{Gitignore} `{Os}.
Context `{!CborOk (list bytes) (array_wf any)} `{!CborOk Entry entry_wf} `{!CborOk (list Entry) (array_wf entry_wf)}
  `{!CborOk DirPair any} `{!CborOk (list DirPair) (array_wf any)} `{!CdcOk}.
Context (os_Stat : path -> res External.Stat) (gomaxprocs : nat).

Lemma buildRoot_keyed n pl r objs : buildRoot n pl r objs -> Forall keyed objs.
Proof.
  unfold buildRoot. destruct (pl_dir pl).
  - by apply par_keyed.
  - intros E. pose proof (emits0_buildFile (pl_driver pl) (pl_path pl) [] ltac:(done)) as HE. by rewrite E in HE.
Qed.

(** C27. The stream is the walk's: at every moment the consumer has been given a prefix of the
    objects, in order; if it never stops, then when the iteration ends it has been given all
    of them and at last the walk's error if there is one, and the root cell holds the walk's
    root. The root is never set to anything else, the goroutines take a bounded number of
    steps, whenever the consumer stops, and they can always go on to the end. *)
Theorem objects_stream_complete r buf objs ms s :
  0 < buf -> ob_run r buf ms (start_pipe objs) = Some s ->
  ob_out s `prefix_of` stream r objs /\
  (ob_done s = true -> ob_cancelled s = false -> ob_out s = stream r objs /\ ob_root s = match r with Ok k => Some k | Err _ => None end) /\
  (forall k, ob_root s = Some k -> r = Ok k) /\
  (length ms <= 2 * length objs + 2)%nat /\
  exists ms' s', ob_run r buf ms' s = Some s' /\ ob_done s' = true.
Proof.
  intros Hb E. pose proof (run_piped r buf objs ms _ _ (start_piped r objs) E) as HP. pose proof (run_left r buf ms _ _ E) as HL.
  pose proof HP as [(outs & rest & EO & ER & EF) PR PO PC PD]. split_and!.
  - rewrite EO, ER. unfold stream. rewrite fmap_app, <- app_assoc. apply prefix_app. destruct (ob_done s) eqn:Hd; [|apply prefix_nil]. destruct (ob_cancelled s) eqn:Hc; [apply prefix_nil|].
    cbn. destruct (PD eq_refl) as [Ho Hch]. destruct (PC Ho) as [Ht _]. rewrite (EF eq_refl), Hch, Ht. done.
  - intros Hd Hc. destruct (PD Hd) as [Ho Hch]. destruct (PC Ho) as [Ht HR]. destruct (HR Hc) as [-> _]. split; [|done].
    rewrite EO, ER, (EF Hc), Hch, Ht, Hd, Hc. unfold stream. by rewrite !app_nil_r.
  - exact PR.
  - unfold pipe_left in HL. cbn in HL. lia.
  - by apply (pipe_ends r buf (pipe_left s) objs).
Qed.

(** C7. [Dir] stores what it reports: whatever order the walk's workers emit in, however the
    writers interleave and whichever calls of the store fail, a [Dir] that returns a root has
    walked the source to the end and returns the root of the sequential walk; the store then
    answers every object of the tree with its bytes, holds everything it held before, and the
    statistics count each emitted object once. *)
Theorem dir_stores_tree p opts pl n r objs sched s k stats s' :
  (0 < gomaxprocs)%nat -> inv s -> Objects os_Stat gomaxprocs p opts = Ok pl ->
  buildRoot n pl r objs -> unambiguous s objs ->
  Dir gomaxprocs opts sched (r, objs) s = (Ok k, stats, s') ->
  holds s' objs /\ grows s s' /\ Stored stats + Deduped stats = zlen objs /\
  (if pl_dir pl then exists objs', buildDir (pl_driver pl) log_emit n p (pl_ign pl) [] = (Ok k, objs') /\ objs' ≡ₚ objs
    else buildFile (pl_driver pl) log_emit p [] = (Ok k, objs)).
Proof.
  intros Hp I EO HB HU E. destruct (dir_holds gomaxprocs opts sched r objs s k stats s' Hp I (buildRoot_keyed _ _ _ _ HB) HU E) as (-> & G & HH & HC).
  split; [done|]. split; [done|]. split; [done|]. unfold Objects in EO. apply res_bind_Ok in EO as (isDir & _ & EO). apply res_bind_Ok in EO as (ign & _ & EO).
  apply res_bind_Ok in EO as (d & _ & [= <-]). unfold buildRoot in HB. cbn [pl_dir pl_driver pl_path pl_ign] in *. destruct isDir; [|done]. by apply par_psim.
Qed.

Lemma holds_serves s s' objs : inv s' -> (forall k rec, view s k = Some rec -> view s' k = Some rec) -> closed s' = false -> faults (st_disk s') = [] -> holds s objs -> serves (fun k => fst (Get k s')) objs.
Proof.
  intros I G Hc Hf HH o Ho. specialize (HH o Ho). cbv beta in *. destruct (Get (OKey o) s') as [r s1] eqn:E. cbn [fst].
  pose proof (Get_view s' (OKey o) r s1 (inv_core _ I) E) as HG. rewrite Hc in HG. cbv zeta in HG. destruct HG as [_ HG]. rewrite (HG Hf).
  destruct (view s (OKey o)) as [rec|] eqn:Ev; [|done]. by rewrite (G _ _ Ev).
Qed.

(** What was ingested can be restored: a directory that [Dir] reported stored - whatever
    the interleavings and whichever store calls failed on the way - is exported from that
    store, or from whatever the store has grown into since, as an archive that, read back, is
    extracted into an empty directory without error, and that directory then holds the
    source: its entries not ignored and no others, sockets apart, with their contents and
    metadata, and nothing outside it has changed. *)
Theorem ingest_then_restore p opts pl n r objs sched s k stats s1 s2 encodable :
  0 <= ItemBits opts <= 15 -> (0 < gomaxprocs)%nat -> inv s ->
  Objects os_Stat gomaxprocs p opts = Ok pl -> pl_dir pl = true -> readable n p (pl_ign pl) -> proper n p (pl_ign pl) ->
  buildRoot n pl r objs -> unambiguous s objs -> Dir gomaxprocs opts sched (r, objs) s = (Ok k, stats, s1) ->
  grows s1 s2 -> closed s2 = false -> faults (st_disk s2) = [] ->
  exists N, forall fuel tarfaults w, (N <= fuel)%nat ->
  Write encodable (fun k => fst (Get k s2)) fuel k (NewTarWriter tarfaults) = (Ok tt, w) -> tw_closed w = true /\
  forall back dest D f, Forall2 same_member (tw_members w) back -> fresh_dest dest D f ->
  exists f', Extract (read back) dest f = (Ok tt, f') /\ restored f (tree f') n p (pl_ign pl) D /\
  (forall q, ~ D `prefix_of` q -> tree f' !! q = tree f !! q).
Proof.
  intros Hbits Hp I EO Hd HR HP HB HU E G Hc Hf. destruct (dir_holds gomaxprocs opts sched r objs s k stats s1 Hp I (buildRoot_keyed _ _ _ _ HB) HU E) as (-> & _ & HH & _).
  pose proof (holds_serves s1 s2 objs (gr_inv _ _ G) (gr_kept _ _ G) Hc Hf HH) as HS.
  unfold buildRoot in HB. rewrite Hd in HB. destruct (par_psim _ _ _ _ _ _ HB) as (objs' & EB & P).
  unfold Objects in EO. apply res_bind_Ok in EO as (isDir & _ & EO). apply res_bind_Ok in EO as (ign & _ & EO). apply res_bind_Ok in EO as (d & ED & [= <-]).
  cbn [pl_dir pl_driver pl_path pl_ign] in *. destruct (backup_steps _ _ d n p ign n Hbits ED HR HP (le_n n)) as (k' & objs1 & EB1 & HBk).
  rewrite EB in EB1. injection EB1 as <- <-. destruct (HBk (fun k => fst (Get k s2)) encodable) as (N & HN); [|by exists N].
  intros o Ho. apply HS. by rewrite <- P.
Qed.
End Properties.

(** * The sample source *)

Definition os_dir (_ : path) : res External.Stat := Ok (MkStat 16877 0 0 0 0 0 0).
Definition small_opts : Opts := MkOpts 1 1 0 false.
Definition small_plan : Plan := MkPlan true [] sample_ignore sample_driver 2.
Lemma small_planned : Objects os_dir 1 [] small_opts = Ok small_plan.
Proof. vm_compute. reflexivity. Qed.
Definition walked_root : Key := Eval vm_compute in root_cell (par_inline sample_driver 2 [] sample_ignore []).1.
Definition walked : list Object := Eval vm_compute in (par_inline sample_driver 2 [] sample_ignore []).2.
Lemma small_walk : buildRoot 2 small_plan (Ok walked_root) walked.
Proof.
  destruct (par_inline_builds sample_driver 2 [] sample_ignore) as (r & objs & HP & HI). specialize (HI []).
  assert (par_inline sample_driver 2 [] sample_ignore [] = (Ok walked_root, walked)) as E by (vm_compute; reflexivity). rewrite E in HI. by injection HI as -> ->.
Qed.

(** A schedule in which a writer moves when it can. *)
Fixpoint eager (fuel : nat) (q : PRun) : list pchoice :=
  match fuel with
  | O => []
  | S fuel =>
      match par_step false DefaultBatchSize 2 (PWork 0) q, par_step false DefaultBatchSize 2 PSend q, par_step false DefaultBatchSize 2 PProduce q with
      | Some q, _, _ => PWork 0 :: eager fuel q
      | None, Some q, _ => PSend :: eager fuel q
      | None, None, Some q => PProduce :: eager fuel q
      | None, None, None => []
      end
  end.
Definition empty_store : Store := fresh sample_cfg (empty_disk []).
Definition small_sched : list pchoice := Eval vm_compute in
  eager 100 (start_run 1 ((fun x : res Object => o ← x; Ok (storeObject o)) <$> stream (Ok walked_root) walked) empty_store).
Definition dir_result : res Key * WriteStats * Store := Dir 1 small_opts small_sched (Ok walked_root, walked) empty_store.
Lemma small_dir : Dir 1 small_opts small_sched (Ok walked_root, walked) empty_store = (Ok walked_root, MkWriteStats 9 1 870, dir_result.2).
Proof. vm_compute. reflexivity. Qed.
Definition same_objects (objs : list Object) : bool :=
  forallb (fun o => forallb (fun o' => negb (bool_decide (OKey o = OKey o')) || bool_decide (OBytes o = OBytes o')) objs) objs.
Lemma small_unambiguous : unambiguous empty_store walked.
Proof.
  split; [|intros o rec _ Hv; unfold empty_store in Hv; rewrite view_fresh in Hv; discriminate Hv].
  assert (same_objects walked = true) as E by (vm_compute; reflexivity). unfold same_objects in E. rewrite forallb_forall in E. intros o o' Ho%list_elem_of_In Ho'%list_elem_of_In EK.
  specialize (E o Ho). rewrite forallb_forall in E. specialize (E o' Ho'). rewrite bool_decide_true in E by exact EK. by apply bool_decide_eq_true in E.
Qed.
Lemma small_store_ok : inv empty_store.
Proof. by apply inv_fresh. Qed.

Lemma objects_stream_complete_witness : exists s,
  ob_run (Ok walked_root) 2 [OSend; OSend; OYield true; OSend; OYield false; OStopped; ODrain; OEnd] (start_pipe walked) = Some s /\ ob_out s = Ok <$> take 2 walked /\ ob_root s = None /\
  ob_out s `prefix_of` stream (Ok walked_root) walked.
Proof.
  destruct (ob_run (Ok walked_root) 2 [OSend; OSend; OYield true; OSend; OYield false; OStopped; ODrain; OEnd] (start_pipe walked)) as [s|] eqn:E; [|vm_compute in E; discriminate E].
  exists s. split; [reflexivity|]. destruct (objects_stream_complete (Ok walked_root) 2 walked _ s ltac:(lia) E) as (HP & _).
  assert (Some (ob_out s, ob_root s) = Some (Ok <$> take 2 walked, None)) as [= EO ER].
  { transitivity ((fun s => (ob_out s, ob_root s)) <$> ob_run (Ok walked_root) 2 [OSend; OSend; OYield true; OSend; OYield false; OStopped; ODrain; OEnd] (start_pipe walked)); [rewrite E; reflexivity|vm_compute; reflexivity]. }
  split; [exact EO|]. split; [exact ER|exact HP].
Defined.
Lemma dir_stores_tree_witness : holds dir_result.2 walked /\ grows empty_store dir_result.2.
Proof.
  destruct (dir_stores_tree os_dir 1 [] small_opts small_plan 2 (Ok walked_root) walked small_sched empty_store walked_root (MkWriteStats 9 1 870) dir_result.2
    ltac:(lia) small_store_ok small_planned small_walk small_unambiguous small_dir) as (HH & G & _). split; [exact HH|exact G].
Defined.
Lemma ingest_then_restore_witness : exists N, forall w,
  Write (fun _ => Ok tt) (fun k => fst (Get k dir_result.2)) N walked_root (NewTarWriter []) = (Ok tt, w) ->
  exists f', Extract (read (tw_members w)) (slash :: c_out) (sample_fs []) = (Ok tt, f') /\ restored (sample_fs []) (tree f') 2 [] sample_ignore [c_out].
Proof.
  destruct (ingest_then_restore os_dir 1 [] small_opts small_plan 2 (Ok walked_root) walked small_sched empty_store walked_root (MkWriteStats 9 1 870) dir_result.2 dir_result.2 (fun _ => Ok tt)
    sample_bits ltac:(lia) small_store_ok small_planned eq_refl sample_readable sample_proper small_walk small_unambiguous small_dir) as (N & HN).
  - apply grows_refl. eapply gr_inv. destruct (dir_holds 1 small_opts small_sched (Ok walked_root) walked empty_store walked_root (MkWriteStats 9 1 870) dir_result.2 ltac:(lia) small_store_ok
      (buildRoot_keyed 2 small_plan (Ok walked_root) walked small_walk) small_unambiguous small_dir) as (_ & G & _). exact G.
  - vm_compute. reflexivity.
  - vm_compute. reflexivity.
  - exists N. intros w EW. destruct (HN N [] w (le_n N) EW) as [_ HX].
    destruct (HX (tw_members w) (slash :: c_out) [c_out] (sample_fs [])) as (f' & EX & HR & _); [|exact sample_fresh|exists f'; split; [exact EX|exact HR]]. apply same_members_refl.
Defined.
