(* ===== verification/Cli.v ===== *)
(** The command line's own logic (src/cmd/amber-store spec.go, ref.go, ls.go, main.go,
    restore.go, export.go, ingest.go): content specs, listings, reference updates and the
    commands as compositions of the library's parts. Flags, terminals and printing to a
    writer that fails are left out. *)
From Stdlib Require Import DecimalString.
From S2P Require Import Hostfs TarExtract Restore Prelude External Concrete Key Cborx Crc32 Record Pack Chunker Objects Readers Builder Trees Walk Reference Refstore Amberignore Ingest Mirror Parallel Footer Disk Scan Store StoreInv StoreSpec Collector ParWrite Filepath Tar TarExport Backup IngestDir.

(** * spec.go *)

(** [strings.Cut] at a one-byte separator: before and after, the latter empty without one. *)
Fixpoint cut (sep : byte) (s : bytes) : bytes * bytes :=
  match s with
  | [] => ([], [])
  | c :: s' => if bool_decide (c = sep) then ([], s') else let '(a, b) := cut sep s' in (c :: a, b)
  end.
Definition at_sign : byte := x40.
Definition refPrefix : bytes := [x72; x65; x66; x3a].                                   (* "ref:" *)

Definition parseHexKey (s : bytes) : res Key :=
  raw ← wrap (EMsg "invalid key") (hexDecode s);
  wrap (EMsg "invalid key") (Parse raw).
Definition parseKeyPath (s : bytes) : res (Key * bytes) :=
  let '(keyPart, path) := cut slash s in
  k ← parseHexKey keyPart; Ok (k, path).

Section Spec.
Context `{Pebble} `{Cbor Reference}.
(** The key a stored record points at; the tags name the failing step. *)
Definition record_key (t1 t2 : etag) (raw : bytes) : res Key := rec ← wrap t1 (Decode raw); wrap t2 (Parse (RefKey rec)).
Definition resolveSpec (s : bytes) : M RefStore (Key * bytes) :=
  if negb (HasPrefix s refPrefix) then lift (parseKeyPath s)
  else
    let '(name, path) := cut at_sign (drop (length refPrefix) s) in
    _ ← lift (wrap (EMsg "invalid reference spec") (ValidateName name));
    raw ← Refstore.Get name;
    k ← lift (record_key (EMsg "reference") (EMsg "reference: stored key") raw);
    mret (k, path).
End Spec.

Section Descend.
Context `{Cbor (list Entry)} `{Cbor (list DirPair)} (get : Key -> res bytes) (fuel : nat).
Fixpoint descend_segs (segs : list bytes) (k : Key) : res Key :=
  match segs with
  | [] => Ok k
  | seg :: segs =>
      if bool_decide (seg = []) then descend_segs segs k
      else
        e ← wrap (EMsg "resolving") (LookupEntry get fuel k seg);
        ck ← reerr (EMsg "resolving: is not a file or directory") (Parse (ContentKey e));
        descend_segs segs ck
  end.
Definition descend (root : Key) (path : bytes) : res Key := descend_segs (SplitSlash path) root.
End Descend.

(** ** Specs are read back *)

Lemma cut_here a b sep : sep ∉ a -> cut sep (a ++ sep :: b) = (a, b).
Proof.
  induction a as [|c a IH]; intros Hn; cbn [cut app]; [by rewrite bool_decide_true|].
  apply not_elem_of_cons in Hn as [Hc Hn]. rewrite bool_decide_false by congruence. by rewrite (IH Hn).
Qed.
Lemma cut_absent a sep : sep ∉ a -> cut sep a = (a, []).
Proof.
  induction a as [|c a IH]; intros Hn; cbn [cut]; [done|].
  apply not_elem_of_cons in Hn as [Hc Hn]. rewrite bool_decide_false by congruence. by rewrite (IH Hn).
Qed.

(** A digit is written as one of 0-9 and a-f and read back. *)
Definition digit_ok (d : Z) : bool :=
  match fromHexChar (hexdigit d) with Some x => (x =? d) && negb (bool_decide (hexdigit d = slash)) && negb (bool_decide (hexdigit d = x72)) | None => false end.
Lemma digits d : 0 <= d < 16 -> fromHexChar (hexdigit d) = Some d /\ hexdigit d <> slash /\ hexdigit d <> x72.
Proof.
  intros Hd. assert (digit_ok d = true) as E by (apply (forallb_range digit_ok 16); [by vm_compute|lia]). unfold digit_ok in E.
  destruct (fromHexChar (hexdigit d)) as [x|]; [|done]. apply andb_prop in E as [E E3]. apply andb_prop in E as [E1 E2]. apply Z.eqb_eq in E1 as ->.
  apply negb_true_iff, bool_decide_eq_false in E2. by apply negb_true_iff, bool_decide_eq_false in E3.
Qed.
Lemma nibbles b : 0 <= u8 b / 16 < 16 /\ 0 <= u8 b mod 16 < 16.
Proof. pose proof (u8_range b). split; [|by apply Z.mod_pos_bound]. split; [apply Z.div_pos; lia|apply Z.div_lt_upper_bound; lia]. Qed.
Lemma hexDecode_encode b : hexDecode (hexEncode b) = Ok b.
Proof.
  induction b as [|c b IH]; [done|]. cbn [hexEncode flat_map app hexDecode]. destruct (nibbles c) as [H1 H2].
  rewrite (proj1 (digits _ H1)), (proj1 (digits _ H2)). fold (hexEncode b). rewrite IH. cbn. do 2 f_equal.
  rewrite <- (b8_u8 c) at 3. f_equal. pose proof (Z.div_mod (u8 c) 16 ltac:(done)). lia.
Qed.
Lemma hex_clean b c : c ∈ hexEncode b -> c <> slash /\ c <> x72.
Proof.
  induction b as [|x b IH]; cbn [hexEncode flat_map app]; [by intros ?%elem_of_nil|]. destruct (nibbles x) as [H1 H2].
  intros [->|[->|Hc]%elem_of_cons]%elem_of_cons; [apply (digits _ H1)|apply (digits _ H2)|by apply IH].
Qed.
Lemma key_spec k path : Validate k = Ok tt -> parseKeyPath (String_ k ++ slash :: path) = Ok (k, path) /\ parseKeyPath (String_ k) = Ok (k, []).
Proof.
  intros HV. assert (slash ∉ String_ k) as Hs by (by intros [? _]%hex_clean).
  unfold parseKeyPath, parseHexKey. rewrite (cut_here _ _ _ Hs), (cut_absent _ _ Hs). unfold String_. rewrite hexDecode_encode. cbn. by rewrite (Parse_bytes _ HV).
Qed.
Lemma key_spec_prefix k rest : HasPrefix (String_ k ++ rest) refPrefix = false.
Proof.
  apply bool_decide_eq_false. intros E. assert (x72 ∈ String_ k) as Hr; [|by apply hex_clean in Hr as [_ ?]].
  pose proof (b32_length k) as HL. unfold String_ in *. destruct (b32_bytes k) as [|c b]; [done|]. cbn [hexEncode flat_map app length refPrefix take] in *. injection E as E _. rewrite E. by left.
Qed.

(** * ls.go *)

Definition lsPageSize : Z := 4096.
Section List.
Context `{Cbor (list Entry)} `{Cbor (list DirPair)} (get : Key -> res bytes) (fuel : nat).
(** The loop of [runLs]: [more] promises a page that is not empty. *)
Fixpoint list_pages (pages : nat) (dir : Key) (after : bytes) (entries : list Entry) : res (list Entry) :=
  match pages with
  | O => Err [OutOfFuel]
  | S pages =>
      '(page, more) ← ListEntries get fuel dir after lsPageSize;
      let entries := entries ++ page in
      if negb more then Ok entries
      else
        e ← from_opt [EMsg "panic: index out of range"] (list.last page);
        list_pages pages dir (Name e) entries
  end.
End List.

(** [strconv.FormatUint(n, 10)], and [%*d] and [%*s]. *)
Definition decimal (n : Z) : bytes := String.list_byte_of_string (NilZero.string_of_uint (N.to_uint (Z.to_N n))).
Definition pad (w : nat) (s : bytes) : bytes := replicate (w - length s) x20 ++ s.

Definition sizeString (e : Entry) : bytes :=
  let linkLen := decimal (zlen (LinkTarget e)) in
  match Rdev e with
  | [major; minor] => decimal major ++ [x2c] ++ decimal minor
  | _ =>
      if 0 <? zlen (ContentKey e) then match Parse (ContentKey e) with Ok ck => decimal (Length ck) | Err _ => linkLen end
      else linkLen
  end.

Definition type_char (mode : Z) : byte :=
  let fmt := Z.land mode S_IFMT in
  if fmt =? S_IFDIR then x64 else if fmt =? S_IFLNK then x6c else if fmt =? S_IFCHR then x63 else if fmt =? S_IFBLK then x62
  else if fmt =? S_IFIFO then x70 else if fmt =? S_IFSOCK then x73 else if fmt =? S_IFREG then x2d else x3f.
Definition rwx : bytes := [x72; x77; x78; x72; x77; x78; x72; x77; x78].
Definition setBit (mode : Z) (pos : nat) (bit : Z) (withX withoutX : byte) (b : bytes) : bytes :=
  if Z.land mode bit =? 0 then b else <[pos := if bool_decide (byte_at b pos = x78) then withX else withoutX]> b.
Definition modeString (mode : Z) : bytes :=
  let perms := imap (fun i c => if Z.land mode (Z.shiftl 1 (8 - Z.of_nat i)) =? 0 then x2d else c) rwx in
  let b := type_char mode :: perms in
  setBit mode 9 512 x74 x54 (setBit mode 6 1024 x73 x53 (setBit mode 3 2048 x73 x53 b)).

Section Render.
(** Package time: six calendar months back, and the two layouts in the local zone. *)
Context (six_months_before : Z -> Z) (format_year format_clock : Z -> bytes).
Definition formatMtime (t now : Z) : bytes := if (now <? t) || (t <? six_months_before now) then format_year t else format_clock t.
Definition name_column (showKeys : bool) (e : Entry) : bytes :=
  let name := if 0 <? zlen (LinkTarget e) then Name e ++ [x20; x2d; x3e; x20] ++ LinkTarget e else Name e in
  if showKeys && (0 <? zlen (ContentKey e)) then match Parse (ContentKey e) with Ok ck => name ++ [x20] ++ String_ ck | Err _ => name end else name.
Definition widest (f : Entry -> bytes) (es : list Entry) : nat := fold_left (fun w e => Nat.max w (length (f e))) es 0%nat.
Definition uid_column (e : Entry) : bytes := decimal (UID e).
Definition gid_column (e : Entry) : bytes := decimal (GID e).
Definition columns (uidW gidW sizeW : nat) (e : Entry) : bytes :=
  modeString (Mode e) ++ [x20] ++ pad uidW (uid_column e) ++ [x20] ++ pad gidW (gid_column e) ++ [x20] ++ pad sizeW (sizeString e) ++ [x20].
Definition renderLs (entries : list Entry) (now : Z) (showKeys : bool) : bytes :=
  let uidW := widest uid_column entries in
  let gidW := widest gid_column entries in
  let sizeW := widest sizeString entries in
  concat (map (fun e => columns uidW gidW sizeW e ++ formatMtime (Mtime e) now ++ [x20] ++ name_column showKeys e ++ [x0a]) entries).
End Render.

(** ** The listing *)

Lemma entries_after_last es1 es2 e : in_order (es1 ++ es2) -> list.last es1 = Some e -> entries_after (Name e) (es1 ++ es2) = es2.
Proof.
  intros HO HL. apply last_Some in HL as [es0 ->]. unfold entries_after. rewrite list.filter_app, filter_nothing, filter_all; [done|..].
  - apply in_order_app in HO as (_ & _ & X). apply list.Forall_forall. intros x Hx. unfold bytes_ltb. specialize (X e x). unfold name_lt, bytes_lt in X. rewrite X; [done| |done]. apply elem_of_app. right. by left.
  - apply in_order_app in HO as (HO & _ & _). apply in_order_app in HO as (_ & _ & X). apply Forall_app. split.
    + apply list.Forall_forall. intros x Hx. specialize (X x e Hx ltac:(by left)). unfold name_lt, bytes_lt in X. unfold bytes_ltb. rewrite bytes_compare_antisym, X. by cbn.
    + constructor; [|constructor]. unfold bytes_ltb. rewrite bytes_compare_refl. done.
Qed.

Section Pages.
Context `{Cbor (list Entry)} `{Cbor (list DirPair)} (get : Key -> res bytes).
Lemma list_pages_rest n dir es fuel pages es1 es2 after :
  dtree get n dir es -> in_order es -> (n <= fuel)%nat -> es = es1 ++ es2 -> entries_after after es = es2 ->
  (length es2 <= pages * 4096)%nat -> (0 < pages)%nat -> list_pages get fuel pages dir after es1 = Ok es.
Proof.
  intros HT HO Hf. revert es1 es2 after. induction pages as [|pages IH]; intros es1 es2 after HE HA HL Hp; [lia|]. cbn [list_pages].
  rewrite (list_entries_correct get n dir es fuel after lsPageSize HT HO Hf ltac:(done)), HA. cbn [mbind res_bind]. change (Z.to_nat lsPageSize) with 4096%nat.
  destruct (Z.ltb_spec lsPageSize (zlen es2)) as [Hm|Hm]; cbn [negb]; unfold lsPageSize, zlen in Hm.
  - assert (length (take 4096 es2) = 4096%nat) as Hlen by (rewrite length_take; lia).
    destruct (list.last (take 4096 es2)) as [e|] eqn:EL; [|apply last_None in EL; by rewrite EL in Hlen]. cbn [from_opt mbind res_bind].
    assert (es = (es1 ++ take 4096 es2) ++ drop 4096 es2) as HE' by (by rewrite <- app_assoc, take_drop).
    apply (IH _ (drop 4096 es2)); [exact HE'| |rewrite length_drop; lia|lia].
    assert (list.last (es1 ++ take 4096 es2) = Some e) as EL2 by (by rewrite last_app, EL). pose proof (entries_after_last (es1 ++ take 4096 es2) (drop 4096 es2) e) as EA. rewrite <- HE' in EA. by apply EA.
  - rewrite take_ge by lia. by rewrite <- HE.
Qed.
Lemma list_pages_all n dir es fuel pages :
  dtree get n dir es -> in_order es -> Forall (fun e => Name e <> []) es -> (n <= fuel)%nat -> (length es <= pages * 4096)%nat -> (0 < pages)%nat ->
  list_pages get fuel pages dir [] [] = Ok es.
Proof.
  intros HT HO HN Hf Hl Hp. apply (list_pages_rest n dir es fuel pages [] es []); try done. unfold entries_after. apply filter_all.
  eapply list.Forall_impl; [exact HN|]. intros e He. cbv beta in *. destruct (Name e); [by destruct He|done].
Qed.
End Pages.

(** Every column but the last two has one width. *)
Lemma widest_ge f es : forall e, e ∈ es -> (length (f e) <= widest f es)%nat.
Proof.
  unfold widest. assert (forall es w, (w <= fold_left (fun w e => Nat.max w (length (f e))) es w)%nat /\
    forall e, e ∈ es -> (length (f e) <= fold_left (fun w e => Nat.max w (length (f e))) es w)%nat) as G; [|intros e He; by apply G].
  clear. induction es as [|x es IH]; intros w; cbn [fold_left]; [split; [done|by intros e ?%elem_of_nil]|].
  destruct (IH (Nat.max w (length (f x)))) as [H1 H2]. split; [lia|]. intros e [->|He]%elem_of_cons; [lia|by apply H2].
Qed.
Lemma length_pad w s : (length s <= w)%nat -> length (pad w s) = w.
Proof. intros Hl. unfold pad. rewrite length_app, length_replicate. lia. Qed.
Lemma length_setBit mode pos bit a c b : length (setBit mode pos bit a c b) = length b.
Proof. unfold setBit. destruct (_ =? 0); [done|]. by rewrite length_insert. Qed.
Lemma length_modeString mode : length (modeString mode) = 10%nat.
Proof. unfold modeString. cbv zeta. rewrite !length_setBit. cbn [length]. by rewrite length_imap. Qed.
Lemma length_columns uidW gidW sizeW e : (length (uid_column e) <= uidW)%nat -> (length (gid_column e) <= gidW)%nat -> (length (sizeString e) <= sizeW)%nat ->
  length (columns uidW gidW sizeW e) = (14 + uidW + gidW + sizeW)%nat.
Proof. intros H1 H2 H3. unfold columns. rewrite !length_app, length_modeString, !length_pad by done. cbn [length]. lia. Qed.

(** ** Modes *)

(** What a reader of the nine permission characters makes of them. *)
Definition read_perm (i : nat) (c : byte) : Z :=
  (if bool_decide (c ∈ [x72; x77; x78; x73; x74]) then Z.shiftl 1 (8 - Z.of_nat i) else 0) +
  (if bool_decide (c ∈ [x73; x53; x74; x54]) then Z.shiftl 512 (2 - Z.of_nat i / 3) else 0).
Definition read_perms (s : bytes) : Z := foldr Z.add 0 (imap read_perm s).
Lemma setBit_perms m pos bit a c b : Z.land 4095 bit = bit -> setBit (Z.land m 4095) pos bit a c b = setBit m pos bit a c b.
Proof. intros Hb. unfold setBit. by rewrite <- Z.land_assoc, Hb. Qed.
Lemma setBit_cons m pos bit a c t l : setBit m (S pos) bit a c (t :: l) = t :: setBit m pos bit a c l.
Proof. unfold setBit. by destruct (_ =? 0). Qed.
Definition perm_chars (m : Z) : bytes :=
  setBit m 8 512 x74 x54 (setBit m 5 1024 x73 x53 (setBit m 2 2048 x73 x53 (imap (fun i c => if Z.land m (Z.shiftl 1 (8 - Z.of_nat i)) =? 0 then x2d else c) rwx))).
Lemma modeString_split m : modeString m = type_char m :: perm_chars m.
Proof. unfold modeString. cbv zeta. by rewrite !setBit_cons. Qed.
Lemma perm_chars_low m : perm_chars (Z.land m 4095) = perm_chars m.
Proof. unfold perm_chars. rewrite !setBit_perms by done. do 3 f_equal. unfold rwx. cbn -[Z.land Z.shiftl Z.sub Z.of_nat]. rewrite <- !Z.land_assoc. reflexivity. Qed.
Lemma perms_read p : 0 <= p < 4096 -> read_perms (perm_chars p) = p.
Proof.
  intros Hp. apply Z.eqb_eq. apply (forallb_range (fun p => read_perms (perm_chars p) =? p) 4096); [by vm_compute|lia].
Qed.
Lemma land_4095 m : 0 <= Z.land m 4095 < 4096.
Proof. change 4095 with (Z.ones 12). rewrite Z.land_ones by done. by apply Z.mod_pos_bound. Qed.

(** * ref.go *)

Section Refs.
Context `{Blake3, Zstd, Fuse} `{Cbor (list bytes), Cbor (list DirPair), Cbor (list Entry), Cbor Reference} `{Errgroup} `{Pebble}.
Context (fuel : nat).

(** The commit or abort that releases the reference lock is not modelled. *)
Definition oldRoot (name : bytes) : M Stores (option Key) :=
  prev ← catch_world (prev ← on_refs (Refstore.Get name); mret (Some prev)) (fun e => if bool_decide (ErrRefNotFound ∈ e) then mret None else fail e);
  match prev with
  | Some prev => k ← lift (record_key (EMsg "existing reference") (EMsg "existing reference") prev); mret (Some k)
  | None => mret None
  end.
(** [ReleaseRef] of the old root does nothing. *)
Definition putRef (name : bytes) (root : Key) (raw : bytes) : M Stores unit :=
  _ ← oldRoot name;
  _ ← on_objects (PrepareRef fuel root);
  on_refs (Refstore.Put name raw).
Definition rmRef (name : bytes) : M Stores unit :=
  prev ← on_refs (Refstore.Get name);
  _ ← lift (record_key (EMsg "reference") (EMsg "reference") prev);
  on_refs (Refstore.Delete name).

(** The record a command writes at the time [now]. *)
Definition new_record (name : bytes) (root : Key) (now : Z) : Reference := MkReference name (b32_bytes root) [] now [] [].
Definition runRefSet (name keyArg : bytes) (now : Z) : M Stores unit :=
  k ← lift (parseHexKey keyArg);
  raw ← lift (Encode (new_record name k now));
  putRef name k raw.
Definition runRefGet (name : bytes) : M Stores bytes :=
  '(k, _) ← on_refs (resolveSpec (refPrefix ++ name)); mret (String_ k ++ [x0a]).
(** [format] is the creation time's RFC 3339 form. *)
Definition ref_line (format : Z -> bytes) (r : RefRecord) : res bytes :=
  rec ← wrap (EMsg "reference") (Decode (rr_Data r));
  k ← wrap (EMsg "reference: stored key") (Parse (RefKey rec));
  Ok (RefName rec ++ [x20] ++ String_ k ++ [x20] ++ format (RefCreatedAt rec) ++ (if bool_decide (RefUser rec = []) then [] else [x20] ++ RefUser rec) ++ [x0a]).
Definition runRefList (format : Z -> bytes) : M Stores (list bytes) :=
  recs ← on_refs Refstore.All; lift (mapM (ref_line format) recs).

(** ** What a reference update leaves *)

(** Every object of the tree is there, and its interior decodes. *)
Definition complete_tree (s : Store) (root : Key) : Prop := forall k, rtc (child_of (fun k => fst (Store.Get k s))) root k ->
  if is_leaf k then Has s k = Ok true else exists data cs, fst (Store.Get k s) = Ok data /\ ChildKeys k data = Ok cs.

Lemma PrepareRef_out root s r s' : PrepareRef fuel root s = (r, s') ->
  (exists c g, s' = set_barrier c g s) /\ (r = Ok tt -> exists ks, CheckComplete fuel root (fun k => fst (Store.Get k s)) (Has s) = Ok ks).
Proof.
  assert (forall s : Store, s = set_barrier (capturing s) (grey s) s) as Id by (by intros []).
  unfold PrepareRef, mbind, M_bind. destruct (CheckComplete _ _ _ _) as [ks|e] eqn:E.
  - unfold ObserveKeys, modify. intros [= <- <-]. split; [|by eexists]. destruct (negb (capturing s)); [by eexists _, _|]. destruct (grey s) as [g|] eqn:Eg; [by eexists _, _|]. exists (capturing s), (grey s). apply Id.
  - intros [= <- <-]. split; [exists (capturing s), (grey s); apply Id|done].
Qed.

Lemma on_refs_run {A} (m : M RefStore A) w : on_refs m w = (fst (m (c_refs w)), MkStores (c_objects w) (snd (m (c_refs w)))).
Proof. unfold on_refs. by destruct (m (c_refs w)). Qed.
End Refs.

Section RefSpec.
Context `{Blake3, Zstd, Fuse} `{Cbor (list bytes), Cbor (list DirPair), Cbor (list Entry), Cbor Reference} `{ErrgroupOk} `{PebbleOk}.

(** A command's effect on the references, when the objects only change in their barrier. *)
Definition refs_of (w : Stores) : gmap bytes bytes := refs (c_refs w).
Definition barrier_only (w w' : Stores) : Prop := exists c g, c_objects w' = set_barrier c g (c_objects w).
Definition decodes (raw : bytes) : Prop := exists rec k, Decode raw = Ok rec /\ Parse (RefKey rec) = Ok k.
Lemma record_key_Ok t1 t2 raw k : record_key t1 t2 raw = Ok k -> decodes raw.
Proof. unfold record_key. destruct (Decode raw) as [rec|] eqn:E; [|done]. cbn. destruct (Parse (RefKey rec)) as [k'|] eqn:EP; [|done]. intros _. by exists rec, k'. Qed.
Lemma barrier_refl w w' : c_objects w' = c_objects w -> barrier_only w w'.
Proof. intros E. unfold barrier_only. rewrite E. exists (capturing (c_objects w)), (grey (c_objects w)). by destruct (c_objects w). Qed.

Lemma oldRoot_out name w r w' : oldRoot name w = (r, w') ->
  c_objects w' = c_objects w /\ refs_of w' = refs_of w /\ (is_ok r = true -> forall prev, refs_of w !! name = Some prev -> healthy (rs_db (c_refs w)) -> decodes prev).
Proof.
  unfold oldRoot, catch_world. unfold mbind at 1, M_bind at 1. unfold mbind at 1, M_bind at 1. rewrite on_refs_run. destruct (Refstore.Get name (c_refs w)) as [r1 s1] eqn:E1. cbn [fst snd].
  pose proof (Get_out _ _ _ _ E1) as [ER HV]. unfold refs_of. destruct r1 as [prev|e].
  - cbn -[record_key refs]. unfold mbind, M_bind, lift. destruct (record_key _ _ prev) as [k|e] eqn:EK; intros [= <- <-]; cbn [c_objects c_refs]; (split; [done|]); (split; [done|]); [|done].
    intros _ prev' Hp _. rewrite HV in Hp. injection Hp as <-. by eapply record_key_Ok.
  - case_bool_decide as Hnf; cbn -[refs]; intros [= <- <-]; cbn [c_objects c_refs]; (split; [done|]); (split; [done|]); [|done].
    intros _ prev' Hp Hh. destruct (Get_absent _ _ _ _ Hh E1) as [_ Hn]. congruence.
Qed.
Lemma putRef_out fuel name root raw w r w' : putRef fuel name root raw w = (r, w') ->
  barrier_only w w' /\ (r = Ok tt -> refs_of w' = <[name:=raw]> (refs_of w)) /\
  (refs_of w' = refs_of w \/
    (refs_of w' = <[name:=raw]> (refs_of w) /\ complete_tree (c_objects w) root /\ (healthy (rs_db (c_refs w)) -> forall prev, refs_of w !! name = Some prev -> decodes prev))).
Proof.
  unfold putRef. unfold mbind at 1, M_bind at 1. destruct (oldRoot name w) as [r1 [o1 s1]] eqn:E1. apply oldRoot_out in E1 as (EO & ER & HD). cbn [c_objects] in EO. subst o1.
  destruct r1 as [old|e]; [|intros [= <- <-]; split; [by apply barrier_refl|]; split; [done|by left]].
  unfold mbind at 1, M_bind at 1. unfold on_objects. cbn [c_objects c_refs]. destruct (PrepareRef fuel root (c_objects w)) as [r2 s2] eqn:E2. apply PrepareRef_out in E2 as [(c & g & ->) HC].
  destruct r2 as [[]|e]; [|intros [= <- <-]; split; [by exists c, g|]; split; [done|by left]]. rewrite on_refs_run. cbn [c_refs c_objects].
  destruct (Refstore.Put name raw s1) as [r3 s3] eqn:E3. cbn [fst snd]. intros [= <- <-]. split; [by exists c, g|]. apply Put_out in E3. unfold refs_of in *. cbn [c_refs] in *. rewrite ER in E3.
  destruct E3 as [E3|[Hne E3]]; [|split; [done|by left]]. split; [done|]. right. split; [done|]. split; [|intros Hh prev Hp; by apply HD].
  intros k' Hk'. destruct (HC eq_refl) as [ks EC]. apply check_complete_Ok in EC as (_ & _ & HK & HL & HI & _). apply HK in Hk'.
  destruct (is_leaf k') eqn:El; [by apply HL|]. destruct (HI k' Hk' El) as (d & cs & ? & ? & _). by exists d, cs.
Qed.
Lemma rmRef_out name w r w' : rmRef name w = (r, w') ->
  c_objects w' = c_objects w /\ (r = Ok tt -> refs_of w' = delete name (refs_of w)) /\
  (refs_of w' = refs_of w \/ (refs_of w' = delete name (refs_of w) /\ exists prev, refs_of w !! name = Some prev /\ decodes prev)).
Proof.
  unfold rmRef. unfold mbind at 1, M_bind at 1. rewrite on_refs_run. destruct (Refstore.Get name (c_refs w)) as [r1 s1] eqn:E1. cbn [fst snd]. apply Get_out in E1 as [ER HV]. unfold refs_of.
  destruct r1 as [prev|e]; [|intros [= <- <-]; cbn [c_objects c_refs]; split; [done|]; split; [done|by left]].
  unfold mbind at 1, M_bind at 1, lift. destruct (record_key _ _ prev) as [k|e] eqn:EK; [|intros [= <- <-]; cbn [c_objects c_refs]; split; [done|]; split; [done|by left]].
  rewrite on_refs_run. cbn [c_objects c_refs]. destruct (Refstore.Delete name s1) as [r3 s3] eqn:E3. cbn [fst snd]. intros [= <- <-]. cbn [c_objects c_refs]. split; [done|].
  apply Delete_out in E3. rewrite ER in E3. destruct E3 as [[E3 _]|[Hne E3]]; [|split; [done|by left]]. split; [done|]. right. split; [done|]. exists prev. split; [done|]. by eapply record_key_Ok.
Qed.
End RefSpec.

(** * The commands *)

(** The chunking flags: sizes are given all three or none. *)
Record chunkConfig := MkChunkConfig { cc_min : Z; cc_avg : Z; cc_max : Z; cc_itemBits : Z; cc_xattrInlineMax : Z }.
Definition chunkOpts (cc : chunkConfig) : res (option (Z * Z * Z) * Z * Z) :=
  if (cc_min cc =? 0) && (cc_avg cc =? 0) && (cc_max cc =? 0) then Ok (None, cc_itemBits cc, cc_xattrInlineMax cc)
  else if (cc_min cc <=? 0) || (cc_avg cc <=? 0) || (cc_max cc <=? 0) then Err [EMsg "--min, --avg and --max must all be set together"]
  else Ok (Some (cc_min cc, cc_avg cc, cc_max cc), cc_itemBits cc, cc_xattrInlineMax cc).
Lemma chunkOpts_all_or_none cc : is_ok (chunkOpts cc) = true <->
  (cc_min cc = 0 /\ cc_avg cc = 0 /\ cc_max cc = 0) \/ (0 < cc_min cc /\ 0 < cc_avg cc /\ 0 < cc_max cc).
Proof.
  unfold chunkOpts. destruct (Z.eqb_spec (cc_min cc) 0), (Z.eqb_spec (cc_avg cc) 0), (Z.eqb_spec (cc_max cc) 0); cbn [andb];
    destruct (Z.leb_spec (cc_min cc) 0), (Z.leb_spec (cc_avg cc) 0), (Z.leb_spec (cc_max cc) 0); cbn [orb is_ok]; intuition lia.
Qed.

Section Commands.
Context `{Blake3, Zstd, Fuse} `{Cbor (list bytes), Cbor (list DirPair), Cbor (list Entry), Cbor Reference} `{Errgroup} `{Pebble}.
Context (gomaxprocs : nat).
(** What package archive/tar makes of headers, and its reader of a stream that the writer
    ended with the given result. *)
Context (encodable : Header -> res unit) (tar_reader : res unit * TarWriter -> list (res Member)).

(** [out] is what the walk of PATH does; Scan and the progress display are left out. *)
Definition runIngest (opts : Opts) (ref : bytes) (now : Z) (fuel : nat) (sched : list pchoice) (out : res Key * list Object) : M Stores Key :=
  _ ← lift (if bool_decide (ref = []) then Ok tt else ValidateName ref);
  root ← on_objects (fun s => let '(r, _, s) := Dir gomaxprocs opts sched out s in (r, s));
  _ ← (if bool_decide (ref = []) then mret tt
       else
         raw ← lift (Encode (new_record ref root now));
         putRef fuel ref root raw);
  mret root.

(** The start of [runLs], [runExport] and [runRestore]. *)
Definition spec_dir (fuel : nat) (spec : bytes) : M Stores Key :=
  '(k, path) ← on_refs (resolveSpec spec);
  s ← gets c_objects;
  lift (descend (fun k => fst (Store.Get k s)) fuel k path).
Definition runLs (fuel pages : nat) (spec : bytes) : M Stores (list Entry) :=
  dir ← spec_dir fuel spec;
  s ← gets c_objects;
  lift (list_pages (fun k => fst (Store.Get k s)) fuel pages dir [] []).
Definition runExport (fuel : nat) (spec : bytes) (faults : list (option error)) : M Stores (res unit * TarWriter) :=
  dir ← spec_dir fuel spec;
  s ← gets c_objects;
  mret (Write encodable (fun k => fst (Store.Get k s)) fuel dir (NewTarWriter faults)).
(** The export runs into a pipe that the extraction reads. *)
Definition runRestore (fuel : nat) (spec dest : bytes) (f : Hostfs.FS) : M Stores (res unit * Hostfs.FS) :=
  written ← runExport fuel spec [];
  mret (Extract (tar_reader written) dest f).
End Commands.

(** ** Paths below an ingested source *)

Lemma find_name_elem seg es e : in_order es -> e ∈ es -> Name e = seg -> find_name seg es = Some e.
Proof.
  intros HO (es1 & es2 & ->)%list_elem_of_split <-. pose proof HO as (HO1 & HO2 & HX)%in_order_app. rewrite find_name_skip.
  - unfold find_name. by rewrite filter_cons_True.
  - intros x Hx EN. specialize (HX x e Hx ltac:(by left)). unfold name_lt in HX. rewrite EN in HX. by apply bytes_lt_irrefl in HX.
Qed.

Section Source.
Context `{Gitignore} `{Os}.
(** The names lead from one directory of the source, through entries that are not ignored,
    to another. *)
Inductive leads : nat -> path -> option Matcher -> list bytes -> nat -> path -> option Matcher -> Prop :=
  | leads_here n p ign : leads n p ign [] n p ign
  | leads_down n p ign ents seg isDir st sub segs m q ign' :
      ReadDir p = Ok ents -> (seg, isDir) ∈ kept ign ents -> Lstat (p ++ [seg]) = Ok st -> file_type st = S_IFDIR ->
      Descend ign (p ++ [seg]) seg = Ok sub -> leads n (p ++ [seg]) sub segs m q ign' -> leads (S n) p ign (seg :: segs) m q ign'.

Lemma leads_proper n p ign segs m q ign' : leads n p ign segs m q ign' -> proper n p ign -> proper m q ign' /\ Forall plain_name segs /\ Forall (fun c => slash ∉ c) segs.
Proof.
  induction 1 as [n p ign|n p ign ents seg isDir st sub segs m q ign' ER Hin EL EF ED HL IH]; intros HP; [done|]. destruct (HP ents ER) as [_ HE].
  rewrite list.Forall_forall in HE. apply list_elem_of_filter in Hin as [_ Hin]. destruct (HE _ Hin) as (Hn & Hs & _ & _ & _ & Hsub). cbn [fst] in *.
  destruct (IH (Hsub sub ED)) as (H1' & H2' & H3'). split; [done|]. split; by constructor.
Qed.

Context `{Cbor (list bytes)} `{Cbor (list Entry)} `{Cbor (list DirPair)} (get : Key -> res bytes).
Lemma descend_finds n p ign segs m q ign' k : leads n p ign segs m q ign' -> proper n p ign -> mirrors get n p ign k ->
  exists N k', mirrors get m q ign' k' /\ forall fuel, (N <= fuel)%nat -> descend_segs get fuel segs k = Ok k'.
Proof.
  intros HL. revert k. induction HL as [n p ign|n p ign ents seg isDir st sub segs m q ign' ER Hin EL EF ED HL IH]; intros k HP HM; [by exists 0%nat, k|].
  destruct HM as (ents' & es & h & ER' & HT & HF). rewrite ER in ER'. injection ER' as <-. destruct (HP ents ER) as [HO HE].
  pose proof (mirrored_in_order get (mirrors get n) p ign ents es HO HF) as Ord.
  apply list_elem_of_lookup in Hin as Hi. destruct Hi as [i Hi]. destruct (Forall2_lookup_l _ _ _ _ _ HF Hi) as (e & He & (st' & EL' & EN & EM & _ & _ & _ & Pay & _)). cbn [fst] in *.
  rewrite EL in EL'. injection EL' as <-.
  assert (exists k', Parse (ContentKey e) = Ok k' /\ mirrors get n (p ++ [seg]) sub k') as (k' & EP & HM').
  { destruct Pay as [[E _]|[(_ & _ & _ & sub' & k' & ED' & EP & HM')|[[E _]|[[E _]|[E _]]]]]; try (rewrite EF in E; (discriminate E || by vm_compute in E)).
    - rewrite ED in ED'. injection ED' as <-. by exists k'.
    - rewrite EF in E. apply elem_of_cons in E as [E|E%list_elem_of_singleton]; discriminate E.
    - rewrite EF in E. apply elem_of_cons in E as [E|E%list_elem_of_singleton]; discriminate E. }
  apply list_elem_of_filter in Hin as [_ Hin]. rewrite list.Forall_forall in HE. destruct (HE _ Hin) as (Hn & _ & _ & _ & _ & Hsub). cbn [fst] in *.
  destruct (IH k' (Hsub sub ED) HM') as (N & k2 & HM2 & HN). exists (Nat.max h N), k2. split; [done|]. intros fuel Hf.
  cbn [descend_segs]. rewrite bool_decide_false by apply Hn. rewrite (LookupEntry_dtree get h k es fuel seg HT Ord ltac:(lia)).
  rewrite (find_name_elem seg es e Ord); [|by eapply list_elem_of_lookup_2|done]. cbn. rewrite EP. cbn. apply HN. lia.
Qed.
End Source.

Section RefSpecs.
Context `{Pebble} `{!PebbleOk} `{Cbor Reference} `{!CborOk Reference reference_wf}.
(** A reference spec resolves to what the record of that name points at. *)
Lemma ref_spec name path s raw rec k : healthy (rs_db s) -> ValidateName name = Ok tt -> refs s !! name = Some raw -> Decode raw = Ok rec -> Parse (RefKey rec) = Ok k ->
  exists s', refs s' = refs s /\ resolveSpec (refPrefix ++ name ++ at_sign :: path) s = (Ok (k, path), s').
Proof.
  intros Hh HV Hr HD HP. assert (at_sign ∉ name) as Hat.
  { apply ValidateName_spec in HV as (_ & _ & HF). rewrite list.Forall_forall in HF. intros Hin. destruct (HF _ Hin) as (Hne & _). by apply Hne. }
  unfold resolveSpec. assert (HasPrefix (refPrefix ++ name ++ at_sign :: path) refPrefix = true) as -> by (apply bool_decide_eq_true; apply take_app_length). cbn [negb].
  rewrite drop_app_length, (cut_here _ _ _ Hat), M_lift, HV. cbn [wrap].
  unfold mbind at 1, M_bind at 1. destruct (Refstore.Get name s) as [r1 s1] eqn:E1. pose proof (Get_out _ _ _ _ E1) as [ER HG].
  destruct r1 as [v|e].
  - rewrite Hr in HG. injection HG as <-. exists s1. split; [done|]. rewrite M_lift. unfold record_key. rewrite HD. cbn. by rewrite HP.
  - destruct (Get_absent _ _ _ _ Hh E1) as [_ Hn]. congruence.
Qed.
End RefSpecs.

(** * Properties *)

Section Properties.
Context `{Blake3} `{ZstdOk} `{FuseOk} `{Cbor (list bytes)} `{Cbor Entry} `{Cbor (list Entry)} `{Cbor DirPair} `{Cbor (list DirPair)} `{Cbor Reference}
  `{Cdc} `{Gitignore} `{Os} `{ErrgroupOk} `{PebbleOk}.
Context `{!CborOk (list bytes) (array_wf any)} `{!CborOk Entry entry_wf} `{!CborOk (list Entry) (array_wf entry_wf)}
  `{!CborOk DirPair any} `{!CborOk (list DirPair) (array_wf any)} `{!CborOk Reference reference_wf} `{!CdcOk}.

(** What a successful ingest under a name leaves. *)
Lemma runIngest_out gomaxprocs fuel opts ref now sched out w k w' : ref <> [] -> runIngest gomaxprocs opts ref now fuel sched out w = (Ok k, w') ->
  exists stats s1 raw c g, Dir gomaxprocs opts sched out (c_objects w) = (Ok k, stats, s1) /\ Encode (new_record ref k now) = Ok raw /\
  c_objects w' = set_barrier c g s1 /\ refs_of w' = <[ref:=raw]> (refs_of w) /\ ValidateName ref = Ok tt /\
  (refs_of w' = refs_of w \/ complete_tree s1 k).
Proof.
  intros Hne E. unfold runIngest in E. rewrite !bool_decide_false in E by done. apply M_bind_Ok in E as (u & w0 & E0 & E). rewrite (surjective_pairing (lift _ w)) in E0. unfold lift in E0. cbn in E0.
  destruct (ValidateName ref) as [[]|] eqn:EV; [|done]. injection E0 as _ <-.
  apply M_bind_Ok in E as (root & w1 & E1 & E). unfold on_objects in E1. destruct (Dir _ _ _ _ _) as [[r stats] s1] eqn:ED. injection E1 as -> <-.
  apply M_bind_Ok in E as ([] & w2 & E2 & E). injection E as <- <-. apply M_bind_Ok in E2 as (raw & w3 & E3 & E2). unfold lift in E3. injection E3 as EE <-.
  apply putRef_out in E2 as ((c & g & EB) & HR & HC). exists stats, s1, raw, c, g.
  split_and!; [done|done|done|by apply HR|done|]. destruct HC as [HC|(_ & HC & _)]; [by left|by right].
Qed.

(** Whatever serves the walk's objects mirrors the source below the walk's root. *)
Lemma ingested_mirrors os_Stat gomaxprocs p opts pl n k objs get :
  0 <= ItemBits opts <= 15 -> Objects os_Stat gomaxprocs p opts = Ok pl -> pl_dir pl = true -> readable n p (pl_ign pl) ->
  buildRoot n pl (Ok k) objs -> serves get objs -> Validate k = Ok tt /\ mirrors get n p (pl_ign pl) k.
Proof.
  intros Hbits EO Hd HR HB HS. unfold buildRoot in HB. rewrite Hd in HB. destruct (par_psim _ _ _ _ _ _ HB) as (objs' & EBd & P).
  unfold Objects in EO. apply res_bind_Ok in EO as (isDir & _ & EO). apply res_bind_Ok in EO as (ign & _ & EO). apply res_bind_Ok in EO as (d & EDr & [= <-]).
  cbn [pl_dir pl_driver pl_path pl_ign] in *. destruct (opts_driver_ok _ _ _ Hbits EDr) as [Hcd Hmd].
  destruct (buildDir_ok d Hcd Hmd n p ign n HR (le_n n) []) as (k0 & objs0 & EB0 & HV & HM). rewrite EBd in EB0. injection EB0 as <- <-.
  split; [done|]. apply HM. intros o Ho. apply HS. by rewrite <- P.
Qed.

(** A store that serves the ingested tree, and the name's record, are all a restore needs. *)
Lemma named_tree_restores encodable tar_reader n p ign segs m q sub ref raw k now w :
  - 2 ^ 63 <= now < 2 ^ 63 -> Validate k = Ok tt -> proper n p ign -> leads n p ign segs m q sub ->
  mirrors (fun k => fst (Store.Get k (c_objects w))) n p ign k ->
  ValidateName ref = Ok tt -> Encode (new_record ref k now) = Ok raw -> refs_of w !! ref = Some raw -> healthy (rs_db (c_refs w)) ->
  expressible encodable m q sub ->
  reads_back tar_reader m q sub ->
  exists N, forall fuel dest D f, (N <= fuel)%nat -> fresh_dest dest D f ->
  exists w' f', runRestore encodable tar_reader fuel (refPrefix ++ ref ++ at_sign :: join segs) dest f w = (Ok (Ok tt, f'), w') /\
  restored f (tree f') m q sub D /\ (forall q', ~ D `prefix_of` q' -> tree f' !! q' = tree f !! q').
Proof.
  intros Hnow HV HP HL HMk EV EE Hraw Hh Henc Hread. set (get := fun k => fst (Store.Get k (c_objects w))) in *.
  destruct (descend_finds get n p ign segs m q sub k HL HP HMk) as (N1 & k' & HMk' & HN1). destruct (leads_proper _ _ _ _ _ _ _ HL HP) as (HPm & Hpl & Hsl).
  destruct (restore_mirrored encodable get m q sub k' HPm HMk') as (N2 & HN2). exists (Nat.max N1 N2). intros fuel' dest D f Hfu HD.
  assert (descend get fuel' k (join segs) = Ok k') as EDe.
  { unfold descend. destruct segs as [|s0 segs']; [by apply (HN1 fuel'); lia|]. rewrite split_join by done. apply HN1. lia. }
  assert (exists s2, resolveSpec (refPrefix ++ ref ++ at_sign :: join segs) (c_refs w) = (Ok (k, join segs), s2)) as (s2 & Espec).
  { destruct (ref_spec ref (join segs) (c_refs w) raw (new_record ref k now) k Hh EV Hraw) as (s2 & _ & Es); [by apply Decode_Encode|by apply Parse_bytes|by exists s2]. }
  destruct (Write encodable get fuel' k' (NewTarWriter [])) as [r tw] eqn:EW. destruct (HN2 fuel' [] r tw ltac:(lia) EW) as [HOk HSucc]. assert (r = Ok tt) as -> by (by apply HSucc).
  destruct (HOk eq_refl) as [(Hcl & Hleft & HAr) HX]. destruct (Hread tw Hcl Hleft HAr) as (back & HB2 & ERd). destruct (HX back dest D f HB2 HD) as (f' & EX & HRes & HOut).
  exists (MkStores (c_objects w) s2), f'. split; [|by split]. unfold runRestore, runExport, spec_dir. unfold mbind at 1, M_bind at 1. unfold mbind at 1, M_bind at 1. unfold mbind at 1, M_bind at 1.
  rewrite on_refs_run, Espec. cbn [fst snd]. rewrite M_gets. cbn [c_objects]. fold get. unfold lift at 1. rewrite EDe. rewrite M_gets. cbn [c_objects]. fold get. rewrite EW. unfold mret, M_ret. by rewrite ERd, EX.
Qed.

(** C5. Backup from the command line: [ingest --ref NAME] of a readable directory that reported
    success - whatever the interleavings and the failing store calls - followed, on that store
    or on what it has grown into while the name kept its record, by [restore ref:NAME@PATH]
    into an empty directory, PATH naming any directory of the source the headers of whose
    members the archive format can express (no attribute name with an equals sign): the
    restore succeeds and the directory holds what the source has at PATH, with contents and
    metadata, and nothing else; nothing outside it has changed. *)
Theorem ingested_reference_restores os_Stat gomaxprocs encodable tar_reader p opts pl n r objs sched ref now fuel w0 k w1 w2 segs m q sub :
  0 <= ItemBits opts <= 15 -> (0 < gomaxprocs)%nat -> - 2 ^ 63 <= now < 2 ^ 63 -> inv (c_objects w0) ->
  Objects os_Stat gomaxprocs p opts = Ok pl -> pl_dir pl = true -> readable n p (pl_ign pl) -> proper n p (pl_ign pl) ->
  buildRoot n pl r objs -> unambiguous (c_objects w0) objs -> ref <> [] ->
  runIngest gomaxprocs opts ref now fuel sched (r, objs) w0 = (Ok k, w1) ->
  grows (c_objects w1) (c_objects w2) -> closed (c_objects w2) = false -> faults (st_disk (c_objects w2)) = [] ->
  healthy (rs_db (c_refs w2)) -> refs_of w2 !! ref = refs_of w1 !! ref -> leads n p (pl_ign pl) segs m q sub ->
  expressible encodable m q sub ->
  reads_back tar_reader m q sub ->
  exists N, forall fuel dest D f, (N <= fuel)%nat -> fresh_dest dest D f ->
  exists w3 f', runRestore encodable tar_reader fuel (refPrefix ++ ref ++ at_sign :: join segs) dest f w2 = (Ok (Ok tt, f'), w3) /\
  restored f (tree f') m q sub D /\ (forall q', ~ D `prefix_of` q' -> tree f' !! q' = tree f !! q').
Proof.
  intros Hbits Hp Hnow I EO Hd HR HP HB HU Hne E G Hc Hf Hh Hkeep HL Henc Hread.
  apply runIngest_out in E as (stats & s1 & raw & c & g & ED & EE & EB & ER & EV & _); [|done].
  destruct (dir_holds gomaxprocs opts sched r objs (c_objects w0) k stats s1 Hp I (buildRoot_keyed _ _ _ _ HB) HU ED) as (-> & _ & HH & _).
  assert (serves (fun k => fst (Store.Get k (c_objects w2))) objs) as HS.
  { apply (holds_serves s1); [apply (gr_inv _ _ G)| |done|done|done]. intros k' rec Hv. apply (gr_kept _ _ G). rewrite EB. exact Hv. }
  destruct (ingested_mirrors os_Stat gomaxprocs p opts pl n k objs _ Hbits EO Hd HR HB HS) as [HV HM].
  apply (named_tree_restores encodable tar_reader n p (pl_ign pl) segs m q sub ref raw k now w2); try done.
  rewrite Hkeep, ER. by rewrite lookup_insert_eq.
Qed.

(** Specs are unambiguous: a key prints as a spec that is never taken for a reference and
    is read back as that key with the path after the first slash; [ref:NAME@PATH], with a
    valid name, resolves to the key the name's record points at, with that path, and reading
    changes no reference. *)
Theorem specs_read_back s k path :
  (Validate k = Ok tt -> resolveSpec (String_ k ++ slash :: path) s = (Ok (k, path), s) /\ resolveSpec (String_ k) s = (Ok (k, []), s)) /\
  (forall name raw rec, healthy (rs_db s) -> ValidateName name = Ok tt -> refs s !! name = Some raw -> Decode raw = Ok rec -> Parse (RefKey rec) = Ok k ->
    exists s', refs s' = refs s /\ resolveSpec (refPrefix ++ name ++ at_sign :: path) s = (Ok (k, path), s')).
Proof.
  split; [|intros name raw rec Hh HV Hr HD HP; by eapply ref_spec]. intros HV. destruct (key_spec k path HV) as [E1 E2]. pose proof (key_spec_prefix k []) as HN. rewrite app_nil_r in HN.
  unfold resolveSpec. rewrite key_spec_prefix, HN. cbn [negb]. unfold lift. by rewrite E1, E2.
Qed.

(** C25. A reference update is safe: whatever the database does, [putRef] either leaves every
    reference as it was or points the name at the new record, and the latter only when every
    object of the tree is in the store and its interior decodes, and never over a record it
    could not read; [rmRef] removes at most the name it was given; both touch nothing of the
    objects but the barrier, and a reported success means the update happened. *)
Theorem reference_update_safe fuel name root raw w r w' :
  (putRef fuel name root raw w = (r, w') ->
    barrier_only w w' /\ (r = Ok tt -> refs_of w' = <[name:=raw]> (refs_of w)) /\
    (refs_of w' = refs_of w \/
      (refs_of w' = <[name:=raw]> (refs_of w) /\ complete_tree (c_objects w) root /\ (healthy (rs_db (c_refs w)) -> forall prev, refs_of w !! name = Some prev -> decodes prev)))) /\
  (rmRef name w = (r, w') ->
    c_objects w' = c_objects w /\ (r = Ok tt -> refs_of w' = delete name (refs_of w)) /\
    (refs_of w' = refs_of w \/ (refs_of w' = delete name (refs_of w) /\ exists prev, refs_of w !! name = Some prev /\ decodes prev))).
Proof. split; [apply putRef_out|apply rmRef_out]. Qed.
End Properties.

(** C26. [ls] is complete: over a directory whose names increase and are not empty the loop
    over pages ends and collects every entry once, in order; and each printed line has the
    mode, owner, group and size in columns of one width for the whole listing, so that the
    time, the name and the rest start at the same offset in every line. *)
Theorem ls_lists_directory `{Cbor (list Entry)} `{Cbor (list DirPair)} get n dir es fuel pages six format_year format_clock now showKeys :
  dtree get n dir es -> in_order es -> Forall (fun e => Name e <> []) es -> (n <= fuel)%nat -> (length es <= pages * 4096)%nat -> (0 < pages)%nat ->
  list_pages get fuel pages dir [] [] = Ok es /\
  exists cols rest, renderLs six format_year format_clock es now showKeys = concat (zip_with (fun a b => a ++ b ++ [x0a]) cols rest) /\
    length cols = length es /\ length rest = length es /\
    (forall c c', c ∈ cols -> c' ∈ cols -> length c = length c') /\
    (forall i e c r, es !! i = Some e -> cols !! i = Some c -> rest !! i = Some r ->
       take 10 c = modeString (Mode e) /\ r = formatMtime six format_year format_clock (Mtime e) now ++ [x20] ++ name_column showKeys e).
Proof.
  intros HT HO HN Hf Hl Hp. split; [by eapply list_pages_all|].
  set (W := (widest uid_column es, widest gid_column es, widest sizeString es)).
  exists (map (columns W.1.1 W.1.2 W.2) es), (map (fun e => formatMtime six format_year format_clock (Mtime e) now ++ [x20] ++ name_column showKeys e) es).
  split; [|split; [apply length_map|split; [apply length_map|split]]].
  - unfold renderLs. cbv zeta. f_equal. change (widest uid_column es) with W.1.1. change (widest gid_column es) with W.1.2. change (widest sizeString es) with W.2.
    generalize (columns W.1.1 W.1.2 W.2). intros f. clear. induction es as [|e es IH]; [done|]. cbn [map zip_with]. rewrite IH. by rewrite <- !app_assoc.
  - assert (forall c, c ∈ map (columns W.1.1 W.1.2 W.2) es -> length c = (14 + W.1.1 + W.1.2 + W.2)%nat) as HC; [|intros c c' Hc Hc'; by rewrite (HC c), (HC c')].
    intros c (e & -> & He)%list_elem_of_fmap. apply length_columns; [by apply widest_ge..].
  - intros i e c r He Hc Hr. change (map (columns W.1.1 W.1.2 W.2) es) with ((columns W.1.1 W.1.2 W.2) <$> es) in Hc. rewrite list_lookup_fmap, He in Hc. injection Hc as <-.
    match type of Hr with map ?f es !! _ = _ => change (map f es) with (f <$> es) in Hr end. rewrite list_lookup_fmap, He in Hr. injection Hr as <-. split; [|done].
    unfold columns. apply take_app_length'. by rewrite length_modeString.
Qed.

(** The mode column loses nothing: two modes that print alike agree on all twelve
    permission bits and on the file type, unless neither type is known. *)
Theorem mode_string_lossless m1 m2 : modeString m1 = modeString m2 ->
  Z.land m1 4095 = Z.land m2 4095 /\ (type_char m1 <> x3f -> Z.land m1 S_IFMT = Z.land m2 S_IFMT).
Proof.
  rewrite !modeString_split. intros [= ET EP]. split.
  - rewrite <- (perms_read (Z.land m1 4095)), <- (perms_read (Z.land m2 4095)) by apply land_4095. by rewrite !perm_chars_low, EP.
  - unfold type_char in ET |- *. cbv zeta in *.
    repeat match type of ET with context [Z.land ?m S_IFMT =? ?t] => destruct (Z.eqb_spec (Z.land m S_IFMT) t) end; try discriminate ET; intros Hn; congruence.
Qed.

(** * The sample source, by name *)

Definition no_refs_yet : RefStore (H := toy_pebble) := @MkRefStore toy_pebble (MkToyDB ∅ []) true.
Definition world0 : Stores := MkStores empty_store no_refs_yet.
Definition ref_b : bytes := [x62].
Definition other_root : Key := mk32 ([x01; x03] ++ replicate 30 xaa).
Definition ingested : res Key * Stores := runIngest 1 small_opts ref_b 7 100 small_sched (Ok walked_root, walked) world0.
Lemma small_ingest : runIngest 1 small_opts ref_b 7 100 small_sched (Ok walked_root, walked) world0 = (Ok walked_root, ingested.2).
Proof.
  assert (ingested.1 = Ok walked_root) as E by (vm_compute; reflexivity). rewrite <- E. unfold ingested. apply surjective_pairing.
Qed.
Lemma healthy_after : healthy (rs_db (c_refs ingested.2)).
Proof. assert (td_fails (rs_db (c_refs ingested.2)) = []) as E by (vm_compute; reflexivity). unfold healthy. cbn. rewrite E. constructor. Qed.

(** The source's directory [d]. *)
Definition below_d : option Matcher := match Descend sample_ignore [[x64]] [x64] with Ok m => m | Err _ => None end.
Lemma leads_to_d : leads 2 [] sample_ignore [[x64]] 1 [[x64]] below_d.
Proof.
  eapply (leads_down 1 [] sample_ignore _ [x64] true); [reflexivity| |reflexivity|vm_compute; reflexivity|vm_compute; reflexivity|apply leads_here].
  apply list_elem_of_filter. split; [vm_compute; reflexivity|]. right. right. left.
Qed.
Lemma barrier_inv s c g : inv s -> inv (set_barrier c g s).
Proof. intros [Hc [CS CA] HP]. split; [done|by split|done]. Qed.
Lemma grown_store : grows (c_objects ingested.2) (c_objects ingested.2).
Proof.
  apply grows_refl. destruct (runIngest_out 1 100 small_opts ref_b 7 small_sched (Ok walked_root, walked) world0 walked_root ingested.2 ltac:(discriminate) small_ingest) as (stats & s1 & raw & c & g & ED & _ & -> & _).
  assert (inv s1) as I; [|by apply barrier_inv].
  destruct (dir_holds 1 small_opts small_sched (Ok walked_root) walked empty_store walked_root stats s1 ltac:(lia) small_store_ok (buildRoot_keyed 2 small_plan (Ok walked_root) walked small_walk) small_unambiguous ED) as (_ & G & _). apply G.
Qed.
Lemma ingested_reference_restores_witness : exists N w3 f',
  runRestore pax_format plain_reader N (refPrefix ++ ref_b ++ at_sign :: [x64]) (slash :: c_out) (sample_fs []) ingested.2 = (Ok (Ok tt, f'), w3) /\
  restored (sample_fs []) (tree f') 1 [[x64]] below_d [c_out].
Proof.
  destruct (ingested_reference_restores os_dir 1 pax_format plain_reader [] small_opts small_plan 2 (Ok walked_root) walked small_sched ref_b 7 100 world0 walked_root ingested.2 ingested.2 [[x64]] 1 [[x64]] below_d
    sample_bits ltac:(lia) ltac:(lia) small_store_ok small_planned eq_refl sample_readable sample_proper small_walk small_unambiguous ltac:(discriminate) small_ingest) as (N & HN).
  - exact grown_store.
  - vm_compute. reflexivity.
  - vm_compute. reflexivity.
  - exact healthy_after.
  - reflexivity.
  - exact leads_to_d.
  - apply small_expressible.
  - apply plain_reads_back.
  - destruct (HN N (slash :: c_out) [c_out] (sample_fs []) (le_n N) sample_fresh) as (w3 & f' & ER & HR & _). exists N, w3, f'. split; [exact ER|exact HR].
Defined.

Definition ref_c : bytes := [x63].
Definition raw_c : bytes := Eval vm_compute in match Encode (new_record ref_c walked_root 8) with Ok b => b | Err _ => [] end.
Definition one_ref : RefStore (H := toy_pebble) := @MkRefStore toy_pebble (MkToyDB {[ref_c := raw_c]} []) true.
Lemma one_ref_healthy : healthy (rs_db one_ref).
Proof. constructor. Qed.
Lemma specs_read_back_witness : exists s', resolveSpec (refPrefix ++ ref_c ++ at_sign :: [x64]) one_ref = (Ok (walked_root, [x64]), s').
Proof.
  assert (Decode raw_c = Ok (new_record ref_c walked_root 8)) as ED by (vm_compute; reflexivity).
  assert (ValidateName ref_c = Ok tt) as EV by (vm_compute; reflexivity). assert (refs one_ref !! ref_c = Some raw_c) as Er by (vm_compute; reflexivity).
  assert (Parse (RefKey (new_record ref_c walked_root 8)) = Ok walked_root) as EP by (vm_compute; reflexivity).
  destruct (proj2 (specs_read_back one_ref walked_root [x64]) ref_c raw_c (new_record ref_c walked_root 8) one_ref_healthy EV Er ED EP) as (s' & _ & E).
  exists s'. exact E.
Defined.
Definition put_c : res unit * Stores := putRef 100 ref_c walked_root raw_c ingested.2.
Lemma reference_update_safe_witness : refs_of put_c.2 = <[ref_c:=raw_c]> (refs_of ingested.2) /\ (rmRef ref_c put_c.2).1 = Ok tt /\ (putRef 100 ref_c other_root raw_c ingested.2).1 <> Ok tt.
Proof.
  assert (put_c.1 = Ok tt) as E by (vm_compute; reflexivity). split; [|split].
  - destruct (proj1 (reference_update_safe 100 ref_c walked_root raw_c ingested.2 put_c.1 put_c.2) ltac:(unfold put_c; apply surjective_pairing)) as (_ & HOk & _). exact (HOk E).
  - vm_compute. reflexivity.
  - assert (is_ok (putRef 100 ref_c other_root raw_c ingested.2).1 = false) as E2 by (vm_compute; reflexivity). intros E3. rewrite E3 in E2. discriminate E2.
Defined.
Lemma ls_lists_directory_witness : list_pages sample_get 2 1 (OKey sample_root) [] [] = Ok sample_dir.
Proof.
  apply (ls_lists_directory sample_get 2 (OKey sample_root) sample_dir 2 1 (fun t => t) (fun _ => []) (fun _ => []) 0 true sample_dtree sample_in_order); [|lia|vm_compute; lia|lia].
  assert (forallb (fun e => negb (bool_decide (Name e = []))) sample_dir = true) as E by (vm_compute; reflexivity). apply list.Forall_forall. intros e He%list_elem_of_In. rewrite forallb_forall in E. specialize (E e He).
  by apply negb_true_iff, bool_decide_eq_false in E.
Defined.
Lemma mode_string_lossless_witness : Z.land (33261 + 2 ^ 16) 4095 = Z.land 33261 4095.
Proof. apply (mode_string_lossless (33261 + 2 ^ 16) 33261). vm_compute. reflexivity. Defined.
