(* ===== verification/Survival.v ===== *)
(** Backups and collection together: what an ingest stored under a name can be restored after
    any number of collection cycles, next to any clients. Joins the writers' machine
    (ParWrite.v), the commands (Cli.v), the barrier machine (Barrier.v) and the collector's
    interface (Runs.v). *)
From Stdlib Require Import Floats.SpecFloat.
From S2P Require Import Hostfs TarExtract Restore Prelude External Concrete Chunker Key Cborx Crc32 Record Pack Objects Readers Builder Trees Walk Amberignore Ingest Mirror Parallel Footer Disk Scan Store StoreInv StoreSpec Frame Provenance ParWrite Reference Refstore Marks Compact Sweep Collector Barrier Marking Runs Filepath Tar TarExport Backup IngestDir Cli.

(** * The writers keep what the machine assumes *)

Section Writers.
Context `{Blake3} `{HZs : ZstdOk} `{HFu : FuseOk} `{HC1 : Cbor (list bytes)} `{HC2 : Cbor (list DirPair)} `{HC3 : Cbor (list Entry)}.
Context (obj : Key -> bytes).

Lemma put_error_none e q : q_err (put_error e q) = None -> False.
Proof. cbn. by destruct (q_err q). Qed.
(** What a step of a parallel write does to the store. *)
Lemma par_step_store verify batchSize cap c q q' : par_step verify batchSize cap c q = Some q' ->
  q_store q' = q_store q \/ (exists k, q_store q' = snd (observe k (q_store q))) \/
  (q_store q' = snd (syncActive (q_store q)) /\ (q_err q' = None -> fst (syncActive (q_store q)) = Ok tt)) \/
  (exists w o rec n, w ∈ q_writers q /\ wr_state w = WReady o rec n /\ q_store q' = snd (append (SKey o) rec false (q_store q)) /\
    (q_err q' = None -> fst (append (SKey o) rec false (q_store q)) = Ok tt)).
Proof.
  destruct c as [| | |i|i]; cbn [par_step].
  - destruct (q_pending q); [done|]. destruct (q_todo q) as [|[] ?]; [done|intros [= <-]; by left..].
  - destruct (q_pending q); [|done]. destruct (_ <? _)%nat; [|done]. intros [= <-]. by left.
  - destruct (q_pending q); [|done]. destruct (q_cancelled q); [|done]. intros [= <-]. by left.
  - unfold work. destruct (q_writers q !! i) as [[ws pnd]|] eqn:Ew; [|done]. cbn [mbind option_bind wr_state wr_pending].
    apply list_elem_of_lookup_2 in Ew. destruct ws as [|o|o|o|o rec n| |].
    + destruct (q_ch q); [destruct (dist_done q); [|done]|]; intros [= <-]; by left.
    + intros [= <-]. right; left. by exists (SKey o).
    + destruct (addIfAbsent _ _) as [[] m]; intros [= <-]; by left.
    + destruct (Has _ _) as [[]|]; [|destruct (prepare _ _) as [[]|]|]; intros [= <-]; by left.
    + destruct (append _ _ _ _) as [[[]|e] s] eqn:EA; [destruct (batchSize <=? _)|]; intros [= <-]; do 3 right; exists (MkWriter (WReady o rec n) pnd), o, rec, n;
        rewrite EA; (split_and!; [done..|]); [done|done|by intros ?%put_error_none].
    + destruct (syncActive _) as [[[]|e] s]; intros [= <-]; right; right; left; (split; [done|]); [done|by intros ?%put_error_none].
    + done.
  - destruct (q_writers q !! i) as [[[] pnd]|]; cbn [mbind option_bind wr_state]; try done. destruct (q_cancelled q); [|done]. intros [= <-]. by left.
Qed.

(** The objects of the stream carry the content of their keys. *)
Definition faithful (seq : list (res StoreObject)) : Prop :=
  forall o, Ok o ∈ seq -> Validate (SKey o) = Ok tt /\ SRecord o = None /\ SData o = Some (obj (SKey o)).

Lemma onward_refl s : inv s -> well_named s -> addressed obj s -> onward obj s s.
Proof. by split. Qed.
Lemma onward_trans s1 s2 s3 : onward obj s1 s2 -> onward obj s2 s3 -> onward obj s1 s3.
Proof. intros [_ _ _ T] [I W A T']. split; auto. Qed.

Lemma prepared_payload o verify rec n : Validate (SKey o) = Ok tt -> SRecord o = None -> SData o = Some (obj (SKey o)) ->
  prepare o verify = Ok (rec, n) -> exists h, Pack.whole rec h /\ RKey h = SKey o /\ payload rec = Ok (obj (RKey h)).
Proof.
  intros HV HR HD HP. destruct (prepare_whole _ _ _ _ HV HP) as (h & W & Hk & HDec & _). exists h. split; [done|]. split; [done|].
  rewrite (payload_whole _ _ W), Hk. specialize (HDec HR). by rewrite HD in HDec.
Qed.

Lemma syncActive_onward s : inv s -> well_named s -> addressed obj s -> onward obj s (snd (syncActive s)) /\ nextID (snd (syncActive s)) = nextID s.
Proof.
  intros I W A. destruct (syncActive s) as [r s'] eqn:E. destruct (sync_same _ _ _ I E) as [SH _]. split; [by apply onward_same|apply SH].
Qed.

Lemma par_step_onward s0 seq verify batchSize cap c q q' :
  pinv verify seq s0 q -> faithful seq -> well_named (q_store q) -> addressed obj (q_store q) -> nextID (q_store q) + 1 < 2 ^ 64 ->
  par_step verify batchSize cap c q = Some q' ->
  onward obj (q_store q) (q_store q') /\ nextID (q_store q') <= nextID (q_store q) + 1.
Proof.
  intros PI HF W A Hn E. pose proof (gr_inv _ _ (pi_grows _ _ _ _ PI)) as I.
  apply par_step_store in E as [-> |[(k & ->)|[[-> _]|(w & o & rec & n & Hw & Hs & -> & _)]]].
  - split; [by apply onward_refl|lia].
  - destruct (observe k (q_store q)) as [r s'] eqn:E. change (ObserveKeys [k] (q_store q) = (r, s')) in E.
    split; [by apply (observe_onward obj [k] _ r)|]. cbn [snd]. injection E as _ <-. destruct (negb _); [lia|]. destruct (grey _); cbn; lia.
  - destruct (syncActive_onward (q_store q)) as [HO ->]; [done..|]. split; [done|lia].
  - pose proof (pi_writers _ _ _ _ PI) as F. rewrite list.Forall_forall in F. specialize (F w Hw). unfold wr_ok in F. rewrite Hs in F. destruct F as [HP _].
    destruct (HF o) as (HV & HR & HD).
    { apply (pi_moving _ _ _ _ PI). unfold moving. rewrite !elem_of_app. do 2 right. apply list_elem_of_omap. exists w. split; [done|]. destruct w as [ws pnd]. cbn in *. by rewrite Hs. }
    destruct (prepared_payload _ _ _ _ HV HR HD HP) as (h & Wh & Hk & Hp). rewrite <- Hk.
    destruct (append (RKey h) rec false (q_store q)) as [r s'] eqn:EA. cbn [snd]. split; [by eapply append_onward|].
    by apply (append_well_named _ _ _ _ _ _ W Hn EA).
Qed.

Lemma par_run_onward s0 seq verify batchSize cap sched q q' :
  Forall (fun x => forall o, x = Ok o -> Validate (SKey o) = Ok tt) seq -> pinv verify seq s0 q -> faithful seq ->
  well_named (q_store q) -> addressed obj (q_store q) -> nextID (q_store q) + zlen sched < 2 ^ 64 ->
  par_run verify batchSize cap sched q = Some q' -> onward obj (q_store q) (q_store q').
Proof.
  intros HV PI HF. revert q PI. induction sched as [|c sched IH]; intros q PI W A Hn E; cbn [par_run] in E.
  - injection E as <-. apply onward_refl; [apply PI|done..].
  - destruct (par_step _ _ _ c q) as [q1|] eqn:E1; [|done]. rewrite zlen_cons in Hn. pose proof (zlen_nonneg sched).
    destruct (par_step_onward _ _ _ _ _ _ _ _ PI HF W A ltac:(lia) E1) as [HO HN].
    eapply onward_trans; [exact HO|]. apply (IH q1); [by eapply par_step_pinv|apply HO|apply HO|lia|exact E].
Qed.

(** A parallel write of faithful objects keeps the store addressed and its names in order. *)
Lemma WriteParallel_onward procs sched opts seq s r st s' :
  inv s -> well_named s -> addressed obj s -> faithful seq -> nextID s + zlen sched < 2 ^ 64 ->
  WriteParallel procs sched opts seq s = (r, st, s') -> onward obj s s'.
Proof.
  intros I W A HF Hn E. unfold WriteParallel in E. set (n := if Writers opts <=? 0 then _ else _) in E.
  assert (Forall (fun x => forall o, x = Ok o -> Validate (SKey o) = Ok tt) seq) as HV.
  { apply list.Forall_forall. intros x Hx o ->. by destruct (HF o Hx). }
  destruct (par_run _ _ _ sched _) as [q|] eqn:ER; [|injection E as _ _ <-; by apply onward_refl].
  destruct (par_finished q); [|injection E as _ _ <-; by apply onward_refl].
  pose proof (start_pinv (Verify opts) seq s n I) as PI. pose proof (par_run_onward _ _ _ _ _ _ _ _ HV PI HF W A Hn ER) as HO.
  destruct (syncActive_onward (q_store q)) as [HS _]; [apply HO..|].
  destruct (syncActive (q_store q)) as [r1 s1]. injection E as _ _ <-. by eapply onward_trans.
Qed.

Lemma Dir_onward gomaxprocs opts sched out s r st s' :
  inv s -> well_named s -> addressed obj s -> Forall keyed out.2 -> (forall o, o ∈ out.2 -> obj (OKey o) = OBytes o) ->
  nextID s + zlen sched < 2 ^ 64 -> Dir gomaxprocs opts sched out s = (r, st, s') -> onward obj s s'.
Proof.
  intros I W A HK HO Hn E. unfold Dir in E. cbv zeta in E. set (seq := _ <$> stream out.1 out.2) in E.
  destruct (WriteParallel _ _ _ seq s) as [[r1 st1] s1] eqn:EW. injection E as _ _ <-.
  eapply WriteParallel_onward; [done..| |exact Hn|exact EW]. intros o Ho. subst seq.
  apply list_elem_of_fmap in Ho as (x & Ex & Hx). destruct x as [x|e]; [|done]. injection Ex as ->. apply stream_objects in Hx.
  rewrite list.Forall_forall in HK. cbn. split; [by apply HK|]. split; [done|]. f_equal. symmetry. by apply HO.
Qed.
End Writers.

(** * Trees seen through what they reach *)

Section Reach.
Context `{HC1 : Cbor (list bytes)} `{HC2 : Cbor (list Entry)} `{HC3 : Cbor (list DirPair)} `{Gitignore} `{Os}.
Context (get get' : Key -> res bytes).
Definition below (root k : Key) : Prop := reachable (reach_step get) root k.
(** Below the root every interior object decodes, and [get'] answers as [get] does. *)
Definition agrees (root : Key) : Prop :=
  forall k, below root k -> is_ok (reach_step get k) = true /\ (forall data, get k = Ok data -> get' k = Ok data).

Lemma agrees_down root cs c : agrees root -> reach_step get root = Ok cs -> c ∈ cs -> agrees c.
Proof. intros HA E Hc k Hk. apply HA. eapply rtc_l; [|exact Hk]. by exists cs. Qed.
Lemma agrees_here root data : agrees root -> get root = Ok data -> get' root = Ok data.
Proof. intros HA. apply HA. constructor. Qed.
Lemma interior k data : get k = Ok data -> (Type_ k =? Blob) || (Type_ k =? XattrSet) = false -> reach_step get k = ChildKeys k data.
Proof. intros Hg Hl. unfold reach_step, is_leaf, node_children. rewrite Hl, Hg. cbn [mbind res_bind]. done. Qed.

Lemma ftree_agrees h k cs : ftree get h k cs -> agrees k -> ftree get' h k cs.
Proof.
  revert k cs. induction h as [|h IH]; intros k cs; [done|]. cbn [ftree]. intros (data & Hg & D) HA.
  exists data. split; [by apply (agrees_here k)|]. destruct D as [?|(T & ks & css & ED & F & ->)]; [by left|right].
  split; [done|]. exists ks, css. split; [done|]. split; [|done].
  assert (reach_step get k = Ok ks) as ES by (rewrite (interior k data); [unfold ChildKeys; by rewrite T|done|by rewrite T]).
  assert (forall c, c ∈ ks -> agrees c) as HC by (intros c; by apply (agrees_down k ks)). clear -F HC IH.
  induction F as [|c cs' ks css Hc F IHF]; constructor; [apply IH; [done|apply HC; by left]|]. apply IHF. intros x Hx. apply HC. by right.
Qed.

Lemma dtree_agrees h k es : dtree get h k es -> agrees k -> dtree get' h k es.
Proof.
  revert k es. induction h as [|h IH]; intros k es; [done|]. cbn [dtree]. intros (data & Hg & D) HA.
  exists data. split; [by apply (agrees_here k)|]. destruct D as [?|(T & ps & ess & ED & F & ->)]; [by left|right].
  split; [done|]. exists ps, ess. split; [done|]. split; [|done].
  destruct (HA k ltac:(constructor)) as [HOk _]. destruct (reach_step get k) as [cks|] eqn:ES; [|done].
  pose proof ES as EM. rewrite (interior k data) in EM by (done || by rewrite T). unfold ChildKeys in EM. rewrite T, ED in EM.
  cbn -[Parse] in EM. apply res_mapM_Ok in EM. assert (forall c, c ∈ cks -> agrees c) as HC by (intros c; by apply (agrees_down k cks)).
  clear -F EM HC IH. revert cks EM HC. induction F as [|q es' ps ess (ck & EP & HT & HL) F IHF]; intros cks EM HC; [constructor|].
  inversion EM as [|? ck' ? cks' EP' EM']; subst. assert (ck' = ck) as -> by congruence. constructor.
  - exists ck. split; [done|]. split; [|done]. apply IH; [done|]. apply HC. by left.
  - apply (IHF cks'); [done|]. intros c Hc. apply HC. by right.
Qed.

(** What an entry of the directory names is below its root. *)
Lemma entry_agrees h k es e : dtree get h k es -> agrees k -> e ∈ es -> exists l, entry_children e = Ok l /\ forall c, c ∈ l -> agrees c.
Proof.
  revert k es. induction h as [|h IH]; intros k es; [done|]. cbn [dtree]. intros (data & Hg & D) HA He.
  destruct (HA k ltac:(constructor)) as [HOk _]. destruct (reach_step get k) as [cks|] eqn:ES; [|done].
  pose proof ES as EM. destruct D as [[T ED]|(T & ps & ess & ED & F & ->)]; rewrite (interior k data) in EM by (done || by rewrite T);
    unfold ChildKeys in EM; rewrite T, ED in EM; cbn -[Parse entry_children] in EM.
  - apply res_bind_Ok in EM as (ls & EM & [= <-]). apply res_mapM_Ok in EM. apply list_elem_of_lookup in He as [i Hi].
    destruct (Forall2_lookup_l _ _ _ _ _ EM Hi) as (l & Hl & El). exists l. split; [done|]. intros c Hc.
    apply (agrees_down k (concat ls)); [done|done|]. apply list_elem_of_In, in_concat. exists l. split; apply list_elem_of_In; [by eapply list_elem_of_lookup_2|done].
  - apply res_mapM_Ok in EM. apply list_elem_of_In, in_concat in He as (es' & He' & He). apply list_elem_of_In in He', He.
    apply list_elem_of_lookup in He' as [i Hi]. destruct (Forall2_lookup_r _ _ _ _ _ F Hi) as (q & Hq & ck & EP & HT & _).
    destruct (Forall2_lookup_l _ _ _ _ _ EM Hq) as (ck' & Hck & EP'). assert (ck' = ck) as -> by congruence.
    apply (IH ck es'); [done| |done]. apply (agrees_down k cks); [done|done|]. by eapply list_elem_of_lookup_2.
Qed.

Lemma entry_named e l k : entry_children e = Ok l ->
  (Parse (ContentKey e) = Ok k -> k ∈ l) /\ (Parse (XattrsKey e) = Ok k -> k ∈ l).
Proof.
  assert (is_ok (Parse []) = false) as HN by (by vm_compute). unfold entry_children. intros E.
  apply res_bind_Ok in E as (l1 & E1 & E). apply res_bind_Ok in E as (l2 & E2 & [= <-]). split; intros EP.
  - destruct (ContentKey e) as [|b ck]; [by rewrite EP in HN|]. rewrite EP in E1. injection E1 as <-. apply elem_of_app. left. by left.
  - destruct (XattrsKey e) as [|b ck]; [by rewrite EP in HN|]. rewrite EP in E2. injection E2 as <-. apply elem_of_app. right. by left.
Qed.

Lemma mirrors_agrees n p ign k : mirrors get n p ign k -> agrees k -> mirrors get' n p ign k.
Proof.
  revert p ign k. induction n as [|n IH]; intros p ign k; [done|]. cbn [mirrors]. intros (ents & es & h & ER & HT & HF) HA.
  exists ents, es, h. split; [done|]. split; [by apply dtree_agrees|].
  assert (forall e, e ∈ es -> exists l, entry_children e = Ok l /\ forall c, c ∈ l -> agrees c) as HE by (intros e; by apply (entry_agrees h k)).
  clear HT HA ER. induction HF as [|de e des es HM HF IHF]; constructor; [|apply IHF; intros x Hx; apply HE; by right].
  destruct (HE e ltac:(by left)) as (l & El & Hl). destruct HM as (st & EL & EN & EM & EU & EG & ET & HP & xs & HX & EX).
  exists st. split_and!; [done..| |].
  - destruct HP as [(T & L & R & data & ck & h1 & chunks & EF & EP & EK & HFt & EC)|[(T & L & R & sub & ck & ED & EP & HD)|HP]].
    + left. split_and!; [done..|]. exists data, ck, h1, chunks. split_and!; [done..| |done]. apply ftree_agrees; [done|]. apply Hl. by apply (proj1 (entry_named e l ck El)).
    + right; left. split_and!; [done..|]. exists sub, ck. split_and!; [done..|]. apply IH; [done|]. apply Hl. by apply (proj1 (entry_named e l ck El)).
    + right; right. exact HP.
  - exists xs. split; [|done]. destruct HX as [HX|(HN & b & EDc & HX)]; [by left|right]. split; [done|]. exists b. split; [done|].
    destruct HX as [HX|(EI & xk & EP & T & Hg)]; [by left|right]. split; [done|]. exists xk. split_and!; [done..|].
    apply (agrees_here xk); [|done]. apply Hl. by apply (proj2 (entry_named e l xk El)).
Qed.
End Reach.

(** * Ingest leaves a safe world *)

Section Ingested.
Context `{Blake3} `{HZs : ZstdOk} `{HFu : FuseOk} `{HC1 : Cbor (list bytes)} `{HC2 : Cbor (list Entry)} `{HC3 : Cbor (list DirPair)}
  `{HC4 : Cbor Reference} `{HEg : ErrgroupOk} `{HPb : PebbleOk}.
Context (obj : Key -> bytes).

(** A tree the completeness walk accepts is complete over the content. *)
Lemma complete_tree_complete s root : inv s -> addressed obj s -> complete_tree s root -> complete obj s root.
Proof.
  intros I A HC. set (get := fun k => fst (Store.Get k s)).
  assert (forall k, rtc (child_of get) root k -> exists cs, check_step get (Has s) k = Ok cs /\ there s k /\ children obj k = Ok cs) as HK.
  { intros k Hk. specialize (HC k Hk). assert (exists cs, check_step get (Has s) k = Ok cs) as [cs E].
    { unfold check_step, node_children. destruct (is_leaf k); [rewrite HC; by exists []|]. destruct HC as (data & cs & Hg & Hcs). change (get k = Ok data) in Hg. rewrite Hg. by exists cs. }
    exists cs. split; [done|]. by apply check_step_children. }
  intros k Hk. assert (rtc (child_of get) root k) as Hr.
  { revert k Hk. apply rtc_ind_r; [done|]. intros y z _ (cs & Ecs & Hz) IH. eapply rtc_r; [exact IH|].
    destruct (HK y IH) as (cs' & ES & _ & EC). apply (check_edge get (Has s)). exists cs'. split; [done|]. congruence. }
  destruct (HK k Hr) as (cs & _ & Ht & EC). split; [done|]. by exists cs.
Qed.

(** In a safe world a reference's tree is served with its content. *)
Lemma safe_serves w name data root k :
  safe obj w -> refs_of (w_stores w) !! name = Some data -> root_of (MkRefRecord name data) = Ok root -> reach obj root k ->
  closed (objects w) = false -> faults (st_disk (objects w)) = [] ->
  (exists cs, children obj k = Ok cs) /\ fst (Store.Get k (objects w)) = Ok (obj k).
Proof.
  intros SF Hn Hr Hk Hc Hf. assert (complete obj (objects w) root) as HC by (apply (sf_refs _ _ SF); by exists name, data).
  destruct (HC k Hk) as [[rec Hrec] Hcs]. split; [done|]. destruct (Store.Get k (objects w)) as [r s'] eqn:EG.
  destruct (Get_view _ k r s' (inv_core _ (sf_inv _ _ SF)) EG) as [_ HA]. cbn [fst]. rewrite (HA Hf), Hc.
  unfold found. rewrite Hrec. apply (sf_addr _ _ SF). by apply view_held.
Qed.
End Ingested.

Section Survive.
Context `{Blake3} `{ZstdOk} `{FuseOk} `{Cbor (list bytes)} `{Cbor Entry} `{Cbor (list Entry)} `{Cbor DirPair} `{Cbor (list DirPair)} `{Cbor Reference}
  `{Cdc} `{Gitignore} `{Os} `{ErrgroupOk} `{PebbleOk}.
Context `{!CborOk (list bytes) (array_wf any)} `{!CborOk Entry entry_wf} `{!CborOk (list Entry) (array_wf entry_wf)}
  `{!CborOk DirPair any} `{!CborOk (list DirPair) (array_wf any)} `{!CborOk Reference reference_wf} `{!CdcOk}.
Context (obj : Key -> bytes).

(** Two stores that the machine may start from. *)
Record sound_stores (st : Stores) : Prop := {
    ss_inv : inv (c_objects st);
    ss_named : well_named (c_objects st);
    ss_addressed : addressed obj (c_objects st);
    ss_intact : intact obj (MkWorld st [] Idle)
  }.

Lemma content_unambiguous s objs : addressed obj s -> (forall o, o ∈ objs -> obj (OKey o) = OBytes o) -> unambiguous s objs.
Proof.
  intros A HO. split.
  - intros o o' Ho Ho' E. rewrite <- (HO o Ho), <- (HO o' Ho'). by rewrite E.
  - intros o rec Ho Hv. rewrite <- (HO o Ho). apply A. by apply view_held.
Qed.

Lemma own_record_root ref raw k now : - 2 ^ 63 <= now < 2 ^ 63 -> Validate k = Ok tt -> Encode (new_record ref k now) = Ok raw ->
  root_of (MkRefRecord ref raw) = Ok k.
Proof.
  intros Hnow HV EE. unfold root_of. cbn [rr_Data rr_Name]. assert (Decode raw = Ok (new_record ref k now)) as -> by (by apply Decode_Encode).
  cbn -[Parse]. by rewrite (Parse_bytes k HV).
Qed.

(** What an ingest under a name leaves: stores that are sound again, and the name's record. *)
Lemma ingest_keeps_sound gomaxprocs opts ref now fuel sched r objs w0 k w1 :
  (0 < gomaxprocs)%nat -> - 2 ^ 63 <= now < 2 ^ 63 -> sound_stores w0 -> nextID (c_objects w0) + zlen sched < 2 ^ 64 ->
  Forall keyed objs -> (forall o, o ∈ objs -> obj (OKey o) = OBytes o) -> (r = Ok k -> Validate k = Ok tt) -> ref <> [] ->
  runIngest gomaxprocs opts ref now fuel sched (r, objs) w0 = (Ok k, w1) ->
  r = Ok k /\ sound_stores w1 /\ ValidateName ref = Ok tt /\
  exists raw, Encode (new_record ref k now) = Ok raw /\ refs_of w1 !! ref = Some raw /\ root_of (MkRefRecord ref raw) = Ok k.
Proof.
  intros Hp Hnow [I W A HI] Hn HK HO HV Hne E.
  apply runIngest_out in E as (stats & s1 & raw & c & g & ED & EE & EB & ER & EV & HC); [|done].
  destruct (dir_holds gomaxprocs opts sched r objs (c_objects w0) k stats s1 Hp I HK (content_unambiguous _ _ A HO) ED) as (-> & _ & _ & _).
  specialize (HV eq_refl). pose proof (own_record_root ref raw k now Hnow HV EE) as HRo.
  pose proof (Dir_onward obj gomaxprocs opts sched (Ok k, objs) _ _ _ _ I W A HK HO Hn ED) as O1.
  assert (onward obj (c_objects w0) (c_objects w1)) as O2.
  { rewrite EB. eapply onward_trans; [exact O1|]. apply onward_same; [apply O1..|]. apply barrier_same_held, O1. }
  assert (forall name data, refs_of w0 !! name = Some data -> exists root, root_of (MkRefRecord name data) = Ok root /\ complete obj (c_objects w1) root) as Old.
  { intros name data Hd. destruct (HI name data Hd) as (root & Hr & Hcm). exists root. split; [done|]. by eapply complete_onward. }
  assert (complete obj (c_objects w1) k) as HCk.
  { destruct HC as [HC|HC].
    - destruct (Old ref raw) as (root & Hr & Hcm); [rewrite <- HC, ER; apply lookup_insert_eq|]. by assert (root = k) as -> by congruence.
    - rewrite EB. apply (complete_onward obj s1); [|apply complete_tree_complete; [apply O1..|done]].
      apply onward_same; [apply O1..|]. apply barrier_same_held, O1. }
  split; [done|]. split; [|split; [done|]].
  - split; [apply O2..|]. intros name data Hd. change (refs_of w1 !! name = Some data) in Hd. rewrite ER in Hd.
    apply lookup_insert_Some in Hd as [[<- <-]|[_ Hd]]; [by exists k|by apply Old].
  - exists raw. split; [done|]. split; [rewrite ER; apply lookup_insert_eq|done].
Qed.

(** C2. A backup survives collection: a directory is ingested under a name into sound stores;
    then clients write, read, publish and delete other references while any number of Runs,
    Closes and the background loop collect, overlap, are cancelled or fail - any execution of
    the collector's machine with fair clients. If at its end the name still has its record and
    the stores answer, and if the archive format can express the headers of what is at PATH (it
    cannot when an attribute's name holds an equals sign), [restore ref:NAME@PATH] into an empty
    directory succeeds and yields what the source had at PATH, and nothing else. *)
Theorem backup_survives_collection os_Stat gomaxprocs encodable tar_reader p opts pl n r objs sched ref now fuel w0 k w1 gcopts reset ms g segs m q sub :
  0 <= ItemBits opts <= 15 -> (0 < gomaxprocs)%nat -> - 2 ^ 63 <= now < 2 ^ 63 -> sound_stores w0 -> nextID (c_objects w0) + zlen sched < 2 ^ 64 ->
  Objects os_Stat gomaxprocs p opts = Ok pl -> pl_dir pl = true -> readable n p (pl_ign pl) -> proper n p (pl_ign pl) ->
  buildRoot n pl r objs -> (forall o, o ∈ objs -> obj (OKey o) = OBytes o) -> ref <> [] ->
  runIngest gomaxprocs opts ref now fuel sched (r, objs) w0 = (Ok k, w1) ->
  Forall no_wipe ms -> fair_calls gcopts reset obj ms (new_collector gcopts w1) -> coll_run gcopts reset ms (new_collector gcopts w1) = Some g ->
  let w2 := w_stores (g_world g) in
  closed (c_objects w2) = false -> faults (st_disk (c_objects w2)) = [] -> healthy (rs_db (c_refs w2)) -> refs_of w2 !! ref = refs_of w1 !! ref ->
  leads n p (pl_ign pl) segs m q sub -> expressible encodable m q sub ->
  reads_back tar_reader m q sub ->
  exists N, forall fuel dest D f, (N <= fuel)%nat -> fresh_dest dest D f ->
  exists w3 f', runRestore encodable tar_reader fuel (refPrefix ++ ref ++ at_sign :: join segs) dest f w2 = (Ok (Ok tt, f'), w3) /\
  restored f (tree f') m q sub D /\ (forall q', ~ D `prefix_of` q' -> tree f' !! q' = tree f !! q').
Proof.
  intros Hbits Hp Hnow SS Hn EO Hd HR HP HB HO Hne E HNW HFair ERun w2 Hc Hf Hh Hkeep HL Henc Hread.
  assert (forall k, r = Ok k -> Validate k = Ok tt /\ mirrors (fun k => Ok (obj k)) n p (pl_ign pl) k) as HM.
  { intros k' ->. apply (ingested_mirrors os_Stat gomaxprocs p opts pl n k' objs); try done. intros o Ho. cbn. f_equal. by apply HO. }
  destruct (ingest_keeps_sound gomaxprocs opts ref now fuel sched r objs w0 k w1 Hp Hnow SS Hn (buildRoot_keyed _ _ _ _ HB) HO) as (-> & SS1 & EV & raw & EE & Href & HRo);
    [by intros E'; apply HM|done|done|]. destruct (HM k eq_refl) as [HV HMk].
  destruct (calls_run gcopts reset obj ms (new_collector gcopts w1) g (new_ok gcopts w1) (List.Forall_nil not_wipe) HNW HFair ERun) as (evs & Hevs & ER).
  destruct SS1 as [I1 W1 A1 HI1]. pose proof (run_safe obj evs _ (g_world g) (quiet_safe obj w1 I1 W1 A1 HI1) Hevs ER) as SF.
  apply (named_tree_restores encodable tar_reader n p (pl_ign pl) segs m q sub ref raw k now w2); try done; [|by rewrite Hkeep].
  apply (mirrors_agrees (fun k => Ok (obj k))); [done|]. intros x Hx.
  destruct (safe_serves obj (g_world g) ref raw k x SF) as [[cs Hcs] Hg]; [by rewrite <- Href|done|done|done|done|].
  unfold children in Hcs. rewrite Hcs. split; [done|]. intros data [= <-]. exact Hg.
Qed.
End Survive.

(** ** The sample source, collected once *)

Lemma fair_calls_intro `{Blake3, Zstd, Fuse} `{Cbor (list bytes), Cbor (list DirPair), Cbor (list Entry), Cbor Reference} `{Errgroup} `{Pebble} opts reset obj ms g :
  (forall i m g1, ms !! i = Some m -> coll_run opts reset (take i ms) g = Some g1 -> fair_move opts obj m g1) -> fair_calls opts reset obj ms g.
Proof.
  revert g. induction ms as [|m ms IH]; intros g HF; [done|]. split; [by apply (HF 0%nat m g)|].
  intros g' E. apply IH. intros i m' g1 Hi E1. apply (HF (S i) m' g1 Hi). cbn [take coll_run]. by rewrite E.
Qed.

Definition walked_content (k : Key) : bytes :=
  match filter (fun o => OKey o = k) walked with o :: _ => OBytes o | [] => [] end.
Lemma walked_contents o : o ∈ walked -> walked_content (OKey o) = OBytes o.
Proof.
  assert (forallb (fun o => bool_decide (walked_content (OKey o) = OBytes o)) walked = true) as E by (vm_compute; reflexivity).
  intros Ho. rewrite forallb_forall in E. specialize (E o (proj1 (list_elem_of_In _ _) Ho)). by apply bool_decide_eq_true in E.
Qed.
Lemma world0_sound : sound_stores walked_content world0.
Proof.
  split; [exact small_store_ok|apply fresh_named| |].
  - intros k rec [(a & [=] & _)|(s & Hs & _)]. by apply elem_of_nil in Hs.
  - intros name data Hn. discriminate Hn.
Qed.

Definition no_victims : SweepEnv := MkSweepEnv 1 [] (fun _ => Ok 0).
Definition collect_once : list Runs.move :=
  [Invoke (RunCall tenth RTry); Go 0; Go 0; GoStart 0 false] ++ repeat (GoMark 0) 12 ++ [GoSweep 0 no_victims (2 * DefaultGrace); Go 0; Go 0; Go 0].
Definition collected (n : nat) : option Coll := coll_run hourly no_reset (take n collect_once) (new_collector hourly ingested.2).
Lemma collected_at {A} (f : Coll -> A) n g x : collected n = Some g -> f <$> collected n = Some x -> f g = x.
Proof. intros ->. by intros [= <-]. Qed.
Lemma collected_all g : collected 20 = Some g -> coll_run hourly no_reset collect_once (new_collector hourly ingested.2) = Some g.
Proof. unfold collected. assert (take 20 collect_once = collect_once) as -> by reflexivity. intros E. exact E. Qed.
Definition room (g : Coll) : bool := nextID (objects (g_world g)) + 2 ^ 35 * (zlen (sealed (objects (g_world g))) + 1) <? 2 ^ 64.
Lemma collect_fair : fair_calls hourly no_reset walked_content collect_once (new_collector hourly ingested.2).
Proof.
  apply fair_calls_intro. intros i m g1 Hi E1.
  assert (i = 16%nat \/ fair_move hourly walked_content m g1) as [-> |HF]; [|injection Hi as <-|exact HF].
  - clear E1. do 20 (destruct i as [|i]; [injection Hi as <-; (left; reflexivity) || (right; exact Logic.I)|]). discriminate Hi.
  - split; [apply Nat.lt_0_1|]. assert (room <$> collected 16 = Some true) as EA by (vm_compute; reflexivity).
    apply Z.ltb_lt. exact (collected_at room 16 g1 _ E1 EA).
Qed.
Definition settled (g : Coll) : bool :=
  let w := w_stores (g_world g) in
  negb (closed (c_objects w)) && (length (faults (st_disk (c_objects w))) =? 0)%nat && (length (td_fails (rs_db (c_refs w))) =? 0)%nat &&
  bool_decide (refs_of w !! ref_b = refs_of ingested.2 !! ref_b).
Lemma backup_survives_collection_witness : exists g N w3 f', collected 20 = Some g /\
  runRestore pax_format plain_reader N (refPrefix ++ ref_b ++ at_sign :: [x64]) (slash :: c_out) (sample_fs []) (w_stores (g_world g)) = (Ok (Ok tt, f'), w3) /\
  restored (sample_fs []) (tree f') 1 [[x64]] below_d [c_out].
Proof.
  destruct (collected 20) as [g|] eqn:E;
    [|assert (match collected 20 with Some _ => true | None => false end = true) as E2 by (vm_compute; reflexivity); rewrite E in E2; discriminate E2].
  assert (settled g = true) as ES by (apply (collected_at settled 20 g _ E); vm_compute; reflexivity).
  apply andb_true_iff in ES as [ES E4%bool_decide_eq_true]. apply andb_true_iff in ES as [ES E3]. apply andb_true_iff in ES as [E1%negb_true_iff E2].
  destruct (backup_survives_collection walked_content os_dir 1 pax_format plain_reader [] small_opts small_plan 2 (Ok walked_root) walked small_sched ref_b 7 100 world0 walked_root ingested.2 hourly no_reset collect_once g [[x64]] 1 [[x64]] below_d
    sample_bits ltac:(lia) ltac:(lia) world0_sound ltac:(vm_compute; reflexivity) small_planned eq_refl sample_readable sample_proper small_walk walked_contents ltac:(discriminate) small_ingest) as (N & HN).
  - by repeat constructor.
  - exact collect_fair.
  - exact (collected_all g E).
  - exact E1.
  - by apply nil_length_inv, Nat.eqb_eq.
  - unfold healthy. cbn. apply Nat.eqb_eq, nil_length_inv in E3. cbn in E3. rewrite E3. constructor.
  - exact E4.
  - exact leads_to_d.
  - apply small_expressible.
  - apply plain_reads_back.
  - destruct (HN N (slash :: c_out) [c_out] (sample_fs []) (le_n N) sample_fresh) as (w3 & f' & ER & HR & _). exists g, N, w3, f'. split; [reflexivity|]. split; [exact ER|exact HR].
Defined.
