(* ===== verification/Durable.v ===== *)
(** Backups that outlive the process: the object store and the references across any sequence
    of ingests, reference updates, collection cycles, and crashes or clean exits followed by a
    new Open. Joins the durability of the store (Reopen.v, Restart.v), the writers' machine
    (ParWrite.v), the collector (Marking.v) and the commands (Cli.v, Survival.v). *)
From Stdlib Require Import Floats.SpecFloat.
From S2P Require Import Hostfs TarExtract Restore Prelude External Concrete Chunker Key Cborx Crc32 Record Pack Objects Readers Builder Trees Walk Amberignore Ingest Mirror Parallel Footer Disk Scan Store StoreInv StoreSpec Reopen Frame Provenance ParWrite Reference Refstore Marks Compact Sweep Collector Restart Barrier Marking Runs Filepath Tar TarExport Backup IngestDir Cli Survival.

(** * The writers, when they report success *)

Section WritersDurable.
Context `{Blake3} `{HZs : ZstdOk} `{HFu : FuseOk}.

Lemma par_step_err verify batchSize cap c q q' : par_step verify batchSize cap c q = Some q' -> q_err q' = None -> q_err q = None.
Proof. intros (_ & _ & [[_ ->]|[e He]])%par_step_left HN; congruence. Qed.
Lemma par_run_err verify batchSize cap sched q q' : par_run verify batchSize cap sched q = Some q' -> q_err q' = None -> q_err q = None.
Proof.
  revert q. induction sched as [|c sched IH]; intros q E HN; cbn [par_run] in E; [by injection E as <-|].
  destruct (par_step _ _ _ c q) as [q1|] eqn:E1; [|done]. eapply par_step_err; [exact E1|]. by eapply IH.
Qed.

Lemma par_step_on_disk verify seq s0 batchSize cap c q q' :
  Forall (fun x => forall o, x = Ok o -> Validate (SKey o) = Ok tt) seq -> pinv verify seq s0 q -> on_disk (q_store q) -> nextID (q_store q) + 1 < 2 ^ 64 ->
  par_step verify batchSize cap c q = Some q' -> q_err q' = None -> on_disk (q_store q') /\ nextID (q_store q') <= nextID (q_store q) + 1.
Proof.
  intros HV PI O Hn E HN. pose proof (gr_inv _ _ (pi_grows _ _ _ _ PI)) as I.
  apply par_step_store in E as [-> |[(k & ->)|[[-> HS]|(w & o & rec & n & Hw & Hs & -> & HS)]]].
  - split; [done|lia].
  - destruct (observe_on_disk k (q_store q) (snd (observe k (q_store q))) O) as (? & -> & _); [by unfold observe|]. split; [done|lia].
  - specialize (HS HN). destruct (syncActive (q_store q)) as [r s'] eqn:ES. cbn in HS |- *. subst r. split; [by eapply syncActive_on_disk|].
    destruct (sync_same _ _ _ I ES) as [SH _]. rewrite (sh_next _ _ SH). lia.
  - specialize (HS HN). destruct (append (SKey o) rec false (q_store q)) as [r s'] eqn:ES. cbn in HS |- *. subst r.
    pose proof (pi_writers _ _ _ _ PI) as F. rewrite list.Forall_forall in F. specialize (F w Hw). unfold wr_ok in F. rewrite Hs in F. destruct F as [HP _].
    assert (Validate (SKey o) = Ok tt) as Hk.
    { rewrite list.Forall_forall in HV. apply (HV (Ok o)); [|done]. apply (pi_moving _ _ _ _ PI). unfold moving. rewrite !elem_of_app. do 2 right.
      apply list_elem_of_omap. exists w. split; [done|]. destruct w as [ws pnd]. cbn in *. by rewrite Hs. }
    destruct (prepare_whole _ _ _ _ Hk HP) as (h & W & Eh & _). rewrite <- Eh in ES.
    destruct (append_on_disk (q_store q) h rec false s' I O Hn W ES) as (O' & X' & _). done.
Qed.

Lemma par_run_on_disk verify seq s0 batchSize cap sched q q' :
  Forall (fun x => forall o, x = Ok o -> Validate (SKey o) = Ok tt) seq -> pinv verify seq s0 q -> on_disk (q_store q) -> nextID (q_store q) + zlen sched < 2 ^ 64 ->
  par_run verify batchSize cap sched q = Some q' -> q_err q' = None -> on_disk (q_store q') /\ nextID (q_store q') <= nextID (q_store q) + zlen sched.
Proof.
  intros HV. revert q. induction sched as [|c sched IH]; intros q PI O Hn E HN; cbn [par_run] in E.
  - injection E as <-. split; [done|]. unfold zlen. cbn. lia.
  - destruct (par_step _ _ _ c q) as [q1|] eqn:E1; [|done]. rewrite zlen_cons in *. pose proof (zlen_nonneg sched).
    destruct (par_step_on_disk _ _ _ _ _ _ _ _ HV PI O ltac:(lia) E1) as [O1 X1]; [by eapply par_run_err|].
    destruct (IH q1) as [O2 X2]; [by eapply par_step_pinv|done|lia|done|done|]. split; [done|lia].
Qed.

(** A parallel write that succeeds leaves everything durable. *)
Lemma WriteParallel_on_disk procs sched opts seq s st s' :
  inv s -> on_disk s -> Forall (fun x => forall o, x = Ok o -> Validate (SKey o) = Ok tt) seq -> nextID s + zlen sched < 2 ^ 64 ->
  WriteParallel procs sched opts seq s = (Ok tt, st, s') ->
  on_disk s' /\ nextID s' <= nextID s + zlen sched /\ st_cfg s' = st_cfg s /\ (cfg_sync (st_cfg s) = true -> all_synced s').
Proof.
  intros I O HV Hn E. unfold WriteParallel in E. set (n := if Writers opts <=? 0 then _ else _) in E.
  destruct (par_run _ _ _ sched _) as [q|] eqn:ER; [|done]. destruct (par_finished q); [|done].
  destruct (syncActive (q_store q)) as [r s1] eqn:ES. destruct (q_err q) eqn:EE; [done|]. injection E as -> _ <-.
  pose proof (start_pinv (Verify opts) seq s n I) as PI.
  destruct (par_run_on_disk _ _ _ _ _ _ _ _ HV PI O Hn ER EE) as [O1 X1].
  assert (pinv (Verify opts) seq s q) as PI' by (by eapply par_run_pinv).
  destruct (syncActive_on_disk _ _ O1 ES) as [O2 Sy]. destruct (sync_same _ _ _ (gr_inv _ _ (pi_grows _ _ _ _ PI')) ES) as [SH _].
  pose proof (fr_cfg _ _ (gr_frame _ _ (pi_grows _ _ _ _ PI'))) as Ec. split; [done|]. split; [rewrite (sh_next _ _ SH); exact X1|].
  split; [|by rewrite <- Ec]. rewrite <- Ec. apply (fr_cfg _ _ (sv_frame _ _ (sh_view _ _ SH))).
Qed.

Lemma Dir_on_disk gomaxprocs opts sched r objs s k st s' :
  inv s -> on_disk s -> Forall keyed objs -> nextID s + zlen sched < 2 ^ 64 ->
  Dir gomaxprocs opts sched (r, objs) s = (Ok k, st, s') ->
  on_disk s' /\ nextID s' <= nextID s + zlen sched /\ st_cfg s' = st_cfg s /\ (cfg_sync (st_cfg s) = true -> all_synced s').
Proof.
  intros I O HK Hn E. unfold Dir in E. cbn [fst snd] in E. cbv zeta in E. set (seq := _ <$> stream r objs) in E.
  destruct (WriteParallel _ _ _ seq s) as [[r1 st1] s1] eqn:EW. injection E as E <- <-. destruct r1 as [[]|e]; [|done].
  eapply WriteParallel_on_disk; [done|done| |exact Hn|exact EW].
  apply Forall_fmap, list.Forall_forall. intros [o|e] Ho obj Eo; [|done]. cbn in Eo. injection Eo as <-. apply stream_objects in Ho. cbn.
  rewrite list.Forall_forall in HK. by apply HK.
Qed.
End WritersDurable.

(** * The life of the stores *)

Section Life.
Context `{Blake3} `{HZs : ZstdOk} `{HFu : FuseOk} `{HC1 : Cbor (list bytes)} `{HC2 : Cbor (list Entry)} `{HC3 : Cbor (list DirPair)}
  `{HC4 : Cbor Reference} `{HEg : ErrgroupOk} `{HPb : PebbleOk} `{!CborOk Reference reference_wf}.
Context (obj : Key -> bytes).

(** Sound, and nothing that was written waits for a sync. *)
Record lasting (w : Stores) : Prop := {
    la_sound : sound_stores obj w;
    la_stable : stable (c_objects w)
  }.

(** What one command, one collection cycle, or the end of the process does to the stores.
    The commands' writes report success; the identifiers last; a read may leave any faults to
    come, so that every call of a later step can fail. *)
Inductive life (w w' : Stores) : Prop :=
  | life_ingest gomaxprocs opts ref now fuel sched r objs k :
      (0 < gomaxprocs)%nat -> - 2 ^ 63 <= now < 2 ^ 63 -> nextID (c_objects w) + zlen sched < 2 ^ 64 ->
      Forall keyed objs -> (forall o, o ∈ objs -> obj (OKey o) = OBytes o) -> (r = Ok k -> Validate k = Ok tt) -> ref <> [] ->
      runIngest gomaxprocs opts ref now fuel sched (r, objs) w = (Ok k, w') -> life w w'
  | life_put_ref fuel name root raw r : root_of (MkRefRecord name raw) = Ok root -> putRef fuel name root raw w = (r, w') -> life w w'
  | life_rm_ref name r : rmRef name w = (r, w') -> life w w'
  | life_read : reading (c_objects w) (c_objects w') -> refs_of w' = refs_of w -> life w w'
  | life_cycle env opts now garbage low ctx ctx_end fuel st :
      (0 < se_procs env)%nat -> nextID (c_objects w) + 2 ^ 35 * (zlen (sealed (c_objects w)) + 1) < 2 ^ 64 ->
      cycle env opts now garbage low ctx ctx_end fuel w = (Ok tt, st, w') -> life w w'
  | life_restart cfg d' : restart (st_disk (c_objects w)) (faultless d') -> segmentSize cfg <= SEG_MAX -> cfg_sync cfg = true ->
      Open cfg d' = (Ok tt, c_objects w') -> refs_of w' = refs_of w -> life w w'.

(** Soundness follows from the references' trees staying complete. *)
Lemma sound_onward w w' : sound_stores obj w -> onward obj (c_objects w) (c_objects w') ->
  (forall name data, refs_of w' !! name = Some data -> refs_of w !! name = Some data \/
    exists root, root_of (MkRefRecord name data) = Ok root /\ complete obj (c_objects w') root) -> sound_stores obj w'.
Proof.
  intros [_ _ _ HI] O HR. split; [apply O..|]. intros name data Hd. destruct (HR name data Hd) as [Hd'|?]; [|done].
  destruct (HI name data Hd') as (root & Hr & HC). exists root. split; [done|]. by eapply complete_onward.
Qed.
Lemma reading_onward s s' : inv s -> well_named s -> addressed obj s -> reading s s' -> onward obj s s'.
Proof.
  intros I W A (fs & c & g & ->). destruct I as [Hc [CS CA] HP]. destruct W. split; [by split|done|done|done].
Qed.

Lemma reading_lasting w w' : lasting w -> reading (c_objects w) (c_objects w') -> refs_of w' = refs_of w -> lasting w'.
Proof.
  intros [SS ST] HR ER. split; [|by eapply stable_reading]. apply (sound_onward w); [done| |].
  - apply reading_onward; [apply SS..|done].
  - intros nm data Hd. left. by rewrite <- ER.
Qed.
Lemma open_lasting w cfg d' : lasting w -> restart (st_disk (c_objects w)) d' -> segmentSize cfg <= SEG_MAX -> cfg_sync cfg = true ->
  exists s', Open cfg d' = (Ok tt, s') /\ closed s' = false /\ faults (st_disk s') = [] /\
  forall rf, refs rf = refs_of w -> lasting (MkStores s' rf).
Proof.
  intros [SS [I O Sy Hc]] RT Hcfg Hsync.
  destruct (reopen_on_disk _ d' cfg I O Sy RT Hcfg) as (s' & E & I' & O' & Sy' & _ & Ec & Hcl & Hf & HV & HH).
  exists s'. split; [done|]. split; [done|]. split; [done|]. intros rf Hrf. split; [|split; cbn [c_objects]; [done..|congruence]].
  apply (sound_onward w); [done| |].
  - split; [done|by apply on_disk_named| |]; cbn [c_objects].
    + intros k rec Hk. apply (ss_addressed _ _ SS). by apply HH.
    + intros k. unfold there. by rewrite HV.
  - intros name data Hd. left. unfold refs_of in *. cbn [c_refs] in Hd. by rewrite Hrf in Hd.
Qed.
(** Whatever calls fail while it runs, an Open that succeeds is that one. *)
Lemma opened_lasting w cfg d' s' rf : lasting w -> restart (st_disk (c_objects w)) (faultless d') -> segmentSize cfg <= SEG_MAX -> cfg_sync cfg = true ->
  Open cfg d' = (Ok tt, s') -> refs rf = refs_of w -> lasting (MkStores s' rf).
Proof.
  intros L RT Hcfg Hs E Hrf. apply Open_calm in E. destruct (open_lasting w cfg _ L RT Hcfg Hs) as (s1 & E1 & _ & _ & HL).
  rewrite E in E1. injection E1 as <-. apply (reading_lasting (MkStores (rested s') rf)); [by apply HL|apply rested_reading|done].
Qed.

Lemma put_ref_lasting fuel name root raw w r w' : lasting w -> root_of (MkRefRecord name raw) = Ok root -> putRef fuel name root raw w = (r, w') -> lasting w'.
Proof.
  intros [SS ST] HRo E. apply putRef_out in E as ((c & g & EB) & _ & HC).
  assert (reading (c_objects w) (c_objects w')) as R by (rewrite EB; apply reading_barrier).
  pose proof (reading_onward _ _ (ss_inv _ _ SS) (ss_named _ _ SS) (ss_addressed _ _ SS) R) as O.
  split; [|by eapply stable_reading]. apply (sound_onward w); [done|done|]. intros nm data Hd.
  destruct HC as [HC|(ER & HC & _)]; [left; by rewrite <- HC|]. rewrite ER in Hd.
  apply lookup_insert_Some in Hd as [[<- <-]|[_ Hd]]; [right|by left]. exists root. split; [done|].
  eapply complete_onward; [exact O|]. apply complete_tree_complete; [apply SS|apply SS|done].
Qed.
Lemma rm_ref_lasting name w r w' : lasting w -> rmRef name w = (r, w') -> lasting w'.
Proof.
  intros [SS ST] E. apply rmRef_out in E as (EB & _ & HC). split; [|by rewrite EB]. apply (sound_onward w); [done| |].
  - rewrite EB. apply onward_refl; apply SS.
  - intros nm data Hd. left. destruct HC as [HC|(ER & _)]; [by rewrite <- HC|]. rewrite ER in Hd. by apply lookup_delete_Some in Hd as [_ ?].
Qed.

Lemma cycle_sound env opts now garbage low ctx ctx_end fuel w st w' :
  (0 < se_procs env)%nat -> sound_stores obj w -> nextID (c_objects w) + 2 ^ 35 * (zlen (sealed (c_objects w)) + 1) < 2 ^ 64 ->
  cycle env opts now garbage low ctx ctx_end fuel w = (Ok tt, st, w') -> sound_stores obj w'.
Proof.
  intros Hp SS Hn E. unfold cycle in E. destruct ((rs ← snapshot; aborting (on_objects (markLive ctx fuel rs))) w) as [r1 w1] eqn:E1.
  destruct r1 as [live|e]; [|done]. destruct ctx_end; [done|].
  pose proof (marked_reading _ _ _ _ _ E1) as [(fs & c & g & ER) _]. apply marked_run in E1 as (evs & HU & Hrun).
  assert (safe obj (MkWorld w1 [] (Marking live [] []))) as SF.
  { eapply run_safe; [apply (quiet_safe obj w); apply SS| |exact Hrun]. apply fair_run_intro. intros i ev w2 Hi _.
    rewrite list.Forall_forall in HU. specialize (HU ev (list_elem_of_lookup_2 _ _ _ Hi)). by destruct ev. }
  assert (safe obj (MkWorld w' [] Idle)) as SF'.
  { eapply (step_safe obj (SweepNow env opts now (threshold opts garbage low))); [exact SF| |].
    - split; [done|]. cbn [objects w_stores]. unfold objects. cbn [w_stores]. rewrite ER. exact Hn.
    - cbn [step w_holders w_phase w_stores]. rewrite E. done. }
  split; [apply SF'..|]. by apply safe_intact.
Qed.

Lemma ingest_lasting gomaxprocs opts ref now fuel sched r objs w k w' :
  (0 < gomaxprocs)%nat -> - 2 ^ 63 <= now < 2 ^ 63 -> lasting w -> nextID (c_objects w) + zlen sched < 2 ^ 64 ->
  Forall keyed objs -> (forall o, o ∈ objs -> obj (OKey o) = OBytes o) -> (r = Ok k -> Validate k = Ok tt) -> ref <> [] ->
  runIngest gomaxprocs opts ref now fuel sched (r, objs) w = (Ok k, w') -> lasting w'.
Proof.
  intros Hp Hnow [SS [I O Sy Hc]] Hn HK HO HV Hne E.
  pose proof (ingest_keeps_sound obj gomaxprocs opts ref now fuel sched r objs w k w' Hp Hnow SS Hn HK HO HV Hne E) as (-> & SS' & _). split; [done|].
  apply runIngest_out in E as (stats & s1 & raw & c & g & ED & _ & EB & _); [|done].
  destruct (Dir_on_disk _ _ _ _ _ _ _ _ _ I O HK Hn ED) as (O1 & _ & Ec & Sy1).
  assert (stable s1) as ST1.
  { split; [|done|by apply Sy1|by rewrite Ec]. pose proof (ss_inv _ _ SS') as I'. rewrite EB in I'. destruct I' as [? [? ?] ?]. by split. }
  rewrite EB. eapply stable_reading; [exact ST1|apply reading_barrier].
Qed.

Lemma life_lasting w w' : lasting w -> life w w' -> lasting w'.
Proof.
  intros L. destruct 1 as [gm opts ref now fuel sched r objs k Hp Hnow Hn HK HO HV Hne E|fuel name root raw r HRo E|name r E|HR ER|env opts now garbage low ctx ctx_end fuel st Hp Hn E|cfg d' RT Hcfg Hs E ER].
  - by eapply ingest_lasting.
  - by eapply put_ref_lasting.
  - by eapply rm_ref_lasting.
  - by eapply reading_lasting.
  - destruct L as [SS ST]. split; [by eapply cycle_sound|by eapply cycle_stable].
  - pose proof (opened_lasting w cfg d' (c_objects w') (c_refs w') L RT Hcfg Hs E ER) as HL. by destruct w'.
Qed.
Lemma lives_lasting w w' : lasting w -> rtc life w w' -> lasting w'.
Proof. intros L HR. induction HR as [|w w1 w2 HL HR IH]; [done|]. apply IH. by eapply life_lasting. Qed.
End Life.

(** * Property *)

Section Outlive.
Context `{Blake3} `{ZstdOk} `{FuseOk} `{Cbor (list bytes)} `{Cbor Entry} `{Cbor (list Entry)} `{Cbor DirPair} `{Cbor (list DirPair)} `{Cbor Reference}
  `{Cdc} `{Gitignore} `{Os} `{ErrgroupOk} `{PebbleOk}.
Context `{!CborOk (list bytes) (array_wf any)} `{!CborOk Entry entry_wf} `{!CborOk (list Entry) (array_wf entry_wf)}
  `{!CborOk DirPair any} `{!CborOk (list DirPair) (array_wf any)} `{!CborOk Reference reference_wf} `{!CdcOk}.

(** Sound stores that answer restore a named tree that mirrors a source. *)
Lemma served_restores (obj : Key -> bytes) encodable tar_reader n p ign segs m q sub ref raw k now w :
  sound_stores obj w -> closed (c_objects w) = false -> faults (st_disk (c_objects w)) = [] ->
  - 2 ^ 63 <= now < 2 ^ 63 -> Validate k = Ok tt -> proper n p ign -> leads n p ign segs m q sub -> mirrors (fun k => Ok (obj k)) n p ign k ->
  ValidateName ref = Ok tt -> Encode (new_record ref k now) = Ok raw -> refs_of w !! ref = Some raw -> healthy (rs_db (c_refs w)) ->
  expressible encodable m q sub ->
  reads_back tar_reader m q sub ->
  exists N, forall fuel dest D f, (N <= fuel)%nat -> fresh_dest dest D f ->
  exists w' f', runRestore encodable tar_reader fuel (refPrefix ++ ref ++ at_sign :: join segs) dest f w = (Ok (Ok tt, f'), w') /\
  restored f (tree f') m q sub D /\ (forall q', ~ D `prefix_of` q' -> tree f' !! q' = tree f !! q').
Proof.
  intros [I W A HI] Hc Hf Hnow HV HP HL HM EV EE Href Hh Henc Hread. pose proof (own_record_root ref raw k now Hnow HV EE) as HRo.
  apply (named_tree_restores encodable tar_reader n p ign segs m q sub ref raw k now w); try done.
  apply (mirrors_agrees (fun k => Ok (obj k))); [done|]. intros x Hx.
  destruct (safe_serves obj (MkWorld w [] Idle) ref raw k x (quiet_safe obj _ I W A HI) Href HRo Hx Hc Hf) as [[cs Hcs] Hg].
  unfold children in Hcs. rewrite Hcs. split; [done|]. intros data [= <-]. exact Hg.
Qed.

(** A backup outlives the process: a directory is ingested under a name into synced stores
    whose directory is in order; then any sequence of commands follows - other ingests,
    references set and removed, reads, collection cycles that succeed, process ends and crashes
    with a new Open. If the name still has its record when the process ends or crashes once
    more, in any way that keeps what fsync promised, then the next Open succeeds, and, where
    the archive format can express the headers of what is at PATH, [restore ref:NAME@PATH] on
    it into an empty directory succeeds and yields what the source had there, and nothing else. *)
Theorem backups_outlive_processes (obj : Key -> bytes) os_Stat gomaxprocs encodable tar_reader p opts pl n r objs sched ref now fuel w0 k w1 w2 cfg d' rf segs m q sub :
  0 <= ItemBits opts <= 15 -> (0 < gomaxprocs)%nat -> - 2 ^ 63 <= now < 2 ^ 63 -> lasting obj w0 -> nextID (c_objects w0) + zlen sched < 2 ^ 64 ->
  Objects os_Stat gomaxprocs p opts = Ok pl -> pl_dir pl = true -> readable n p (pl_ign pl) -> proper n p (pl_ign pl) ->
  buildRoot n pl r objs -> (forall o, o ∈ objs -> obj (OKey o) = OBytes o) -> ref <> [] ->
  runIngest gomaxprocs opts ref now fuel sched (r, objs) w0 = (Ok k, w1) ->
  rtc (life obj) w1 w2 -> refs_of w2 !! ref = refs_of w1 !! ref ->
  restart (st_disk (c_objects w2)) d' -> segmentSize cfg <= SEG_MAX -> cfg_sync cfg = true -> refs rf = refs_of w2 -> healthy (rs_db rf) ->
  leads n p (pl_ign pl) segs m q sub -> expressible encodable m q sub ->
  reads_back tar_reader m q sub ->
  exists s', Open cfg d' = (Ok tt, s') /\ exists N, forall fuel dest D f, (N <= fuel)%nat -> fresh_dest dest D f ->
  exists w3 f', runRestore encodable tar_reader fuel (refPrefix ++ ref ++ at_sign :: join segs) dest f (MkStores s' rf) = (Ok (Ok tt, f'), w3) /\
  restored f (tree f') m q sub D /\ (forall q', ~ D `prefix_of` q' -> tree f' !! q' = tree f !! q').
Proof.
  intros Hbits Hp Hnow LA Hn EO Hd HR HP HB HO Hne E HLife Hkeep RT Hcfg Hs Hrf Hh HL Henc Hread.
  assert (forall k, r = Ok k -> Validate k = Ok tt /\ mirrors (fun k => Ok (obj k)) n p (pl_ign pl) k) as HM.
  { intros k' ->. apply (ingested_mirrors os_Stat gomaxprocs p opts pl n k' objs); try done. intros o Ho. cbn. f_equal. by apply HO. }
  pose proof (buildRoot_keyed _ _ _ _ HB) as HK. assert (r = Ok k -> Validate k = Ok tt) as HV by (intros E'; by apply HM).
  destruct (ingest_keeps_sound obj gomaxprocs opts ref now fuel sched r objs w0 k w1 Hp Hnow (la_sound _ _ LA) Hn HK HO HV Hne E) as (-> & _ & EV & raw & EE & Href & HRo).
  pose proof (ingest_lasting obj gomaxprocs opts ref now fuel sched (Ok k) objs w0 k w1 Hp Hnow LA Hn HK HO HV Hne E) as LA1.
  pose proof (lives_lasting obj w1 w2 LA1 HLife) as LA2.
  destruct (open_lasting obj w2 cfg d' LA2 RT Hcfg Hs) as (s' & EOp & Hc & Hf & LA3). exists s'. split; [done|].
  specialize (LA3 rf Hrf). destruct (HM k eq_refl) as [HVk HMk].
  apply (served_restores obj encodable tar_reader n p (pl_ign pl) segs m q sub ref raw k now (MkStores s' rf)); try done; [apply LA3|].
  unfold refs_of. cbn [c_refs]. by rewrite Hrf, Hkeep.
Qed.
End Outlive.

(** ** The sample source, collected and reopened *)

Definition next_cycle : res unit * CycleStats * Stores := cycle no_victims hourly (2 * DefaultGrace) tenth false (fun _ => None) None 100 put_c.2.
Lemma succeeded {A B C} (x : res A * B * C) y : x.1.1 = Ok y -> x = (Ok y, x.1.2, x.2).
Proof. destruct x as [[r c] w]. cbn. by intros ->. Qed.
Lemma next_cycled : cycle no_victims hourly (2 * DefaultGrace) tenth false (fun _ => None) None 100 put_c.2 = (Ok tt, next_cycle.1.2, next_cycle.2).
Proof. unfold next_cycle. apply succeeded. vm_compute. reflexivity. Qed.
Lemma healthy_toy (d : toy_db) : td_fails d = [] -> healthy (H := toy_pebble) d.
Proof. unfold healthy. cbn. intros ->. constructor. Qed.
Lemma world0_lasting : lasting walked_content world0.
Proof.
  split; [apply world0_sound|]. split; [exact small_store_ok|apply on_disk_fresh| |reflexivity]. intros a Ha. discriminate Ha.
Qed.
Lemma backups_outlive_processes_witness : exists s' N w3 f', Open sample_cfg (set_faults [] (st_disk (c_objects next_cycle.2))) = (Ok tt, s') /\
  runRestore pax_format plain_reader N (refPrefix ++ ref_b ++ at_sign :: [x64]) (slash :: c_out) (sample_fs []) (MkStores s' (c_refs next_cycle.2)) = (Ok (Ok tt, f'), w3) /\
  restored (sample_fs []) (tree f') 1 [[x64]] below_d [c_out].
Proof.
  destruct (backups_outlive_processes walked_content os_dir 1 pax_format plain_reader [] small_opts small_plan 2 (Ok walked_root) walked small_sched ref_b 7 100 world0 walked_root ingested.2
    next_cycle.2 sample_cfg (set_faults [] (st_disk (c_objects next_cycle.2))) (c_refs next_cycle.2) [[x64]] 1 [[x64]] below_d
    sample_bits ltac:(lia) ltac:(lia) world0_lasting ltac:(vm_compute; reflexivity) small_planned eq_refl sample_readable sample_proper small_walk walked_contents ltac:(discriminate) small_ingest) as (s' & EO & N & HN).
  - apply (rtc_l _ _ put_c.2); [|apply rtc_once].
    + apply (life_put_ref _ _ _ 100 ref_c walked_root raw_c put_c.1); [vm_compute; reflexivity|unfold put_c; apply surjective_pairing].
    + apply (life_cycle _ _ _ no_victims hourly (2 * DefaultGrace) tenth false (fun _ => None) None 100 next_cycle.1.2); [apply Nat.lt_0_1|vm_compute; reflexivity|].
      exact next_cycled.
  - vm_compute. reflexivity.
  - apply restart_refl.
  - vm_compute. discriminate.
  - reflexivity.
  - unfold refs_of. reflexivity.
  - assert (td_fails (rs_db (c_refs next_cycle.2)) = []) as E by (vm_compute; reflexivity). exact (healthy_toy _ E).
  - exact leads_to_d.
  - apply small_expressible.
  - apply plain_reads_back.
  - destruct (HN N (slash :: c_out) [c_out] (sample_fs []) (le_n N) sample_fresh) as (w3 & f' & ER & HR & _). exists s', N, w3, f'. split; [exact EO|]. split; [exact ER|exact HR].
Defined.
