(* ===== verification/Float.v ===== *)
(** float64 arithmetic (package SpecFloat of the Standard Library) as far as the program uses
    it: what rounding does to a quotient of integers, conversions from integers, division,
    and the decimal digits that fmt prints. *)
From Stdlib Require Import Floats.SpecFloat.
From S2P Require Import Prelude Compact Collector.

Definition binary64_round : bool -> Z -> Z -> location -> spec_float := binary_round_aux 53 1024.

(** [a / b] rounded to the nearest integer, ties to even. *)
Definition rne (a b : Z) : Z :=
  let q := a / b in
  match 2 * (a mod b) ?= b with
  | Lt => q
  | Gt => q + 1
  | Eq => if Z.even q then q else q + 1
  end.

Lemma rne_near a b : 0 < b -> 2 * Z.abs (b * rne a b - a) <= b.
Proof.
  intros Hb. pose proof (Z.div_mod a b ltac:(lia)) as E. pose proof (Z.mod_pos_bound a b Hb).
  unfold rne. destruct (Z.compare_spec (2 * (a mod b)) b); try destruct (Z.even (a / b)); nia.
Qed.
Lemma rne_exact q b : 0 < b -> rne (q * b) b = q.
Proof. intros Hb. unfold rne. rewrite Z.mod_mul, Z.div_mul by lia. cbn. destruct b; done || lia. Qed.
Lemma rne_bounds a b q : 0 < b -> (q * b <= a -> q <= rne a b) /\ (a <= q * b -> rne a b <= q).
Proof. intros Hb. pose proof (rne_near a b Hb). nia. Qed.
Lemma rne_mono a a' b : 0 < b -> a <= a' -> rne a b <= rne a' b.
Proof.
  intros Hb Ha. pose proof (Z.div_mod a b ltac:(lia)) as E. pose proof (Z.mod_pos_bound a b Hb).
  pose proof (Z.div_mod a' b ltac:(lia)) as E'. pose proof (Z.mod_pos_bound a' b Hb). pose proof (Z.div_le_mono a a' b Hb Ha).
  unfold rne. destruct (Z.eq_dec (a / b) (a' / b)) as [Q|Q].
  - rewrite Q in *. assert (a mod b <= a' mod b) by lia. destruct (Z.compare_spec (2 * (a mod b)) b), (Z.compare_spec (2 * (a' mod b)) b); repeat case_match; lia.
  - destruct (2 * (a mod b) ?= b), (2 * (a' mod b) ?= b); repeat case_match; lia.
Qed.
Lemma rne_scale a b c : 0 < b -> 0 < c -> rne (a * c) (b * c) = rne a b.
Proof.
  intros Hb Hc. unfold rne. rewrite Z.div_mul_cancel_r, Z.mul_mod_distr_r by lia.
  replace (2 * (a mod b * c)) with (2 * (a mod b) * c) by lia. rewrite <- (Zmult_compare_compat_r _ _ c) by lia. done.
Qed.

(** ** The shifts of SpecFloat *)

(** A mantissa with its round and sticky bits stands for the quotient [a / b]. *)
Definition rep (mrs : shr_record) (a b : Z) : Prop :=
  shr_m mrs = a / b /\ shr_r mrs = (b <=? 2 * (a mod b)) /\ shr_s mrs = negb ((2 * (a mod b)) mod b =? 0).

Lemma rep_round mrs a b : 0 < b -> rep mrs a b -> round_nearest_even (shr_m mrs) (loc_of_shr_record mrs) = rne a b.
Proof.
  destruct mrs as [m r s]. intros Hb (Em & Er & Es). cbn in *. subst m. pose proof (Z.mod_pos_bound a b Hb) as HM. unfold rne. subst r s.
  destruct (Z.leb_spec b (2 * (a mod b))) as [HL|HL].
  - replace ((2 * (a mod b)) mod b) with (2 * (a mod b) - b) by (apply (Z.mod_unique_pos _ _ 1); lia).
    destruct (Z.eqb_spec (2 * (a mod b) - b) 0), (Z.compare_spec (2 * (a mod b)) b); cbn; done || lia.
  - rewrite (Z.mod_small (2 * (a mod b)) b) by lia.
    destruct (Z.eqb_spec (2 * (a mod b)) 0), (Z.compare_spec (2 * (a mod b)) b); cbn; done || lia.
Qed.

Lemma shr_1_half m r s : 0 <= m -> shr_1 (Build_shr_record m r s) = Build_shr_record (m / 2) (Z.odd m) (r || s).
Proof.
  destruct m as [|p|p]; [done| |done]. intros _. rewrite <- Z.div2_div. by destruct p.
Qed.
Lemma rep_shr_1 mrs a b : 0 <= a -> 0 < b -> rep mrs a b -> rep (shr_1 mrs) a (b * 2).
Proof.
  destruct mrs as [m r s]. intros Ha Hb (Em & Er & Es). cbn [shr_m shr_r shr_s] in *. pose proof (Z.mod_pos_bound a b Hb) as HM. pose proof (Z.div_pos a b Ha Hb) as HD.
  rewrite shr_1_half by lia. subst m.
  assert (a mod (b * 2) = a mod b + b * ((a / b) mod 2)) as E by (apply Z.rem_mul_r; lia).
  pose proof (Z.mod_pos_bound (a / b) 2 eq_refl) as H2. rewrite (Zmod_odd (a / b)) in *.
  split; [|split]; cbn [shr_m shr_r shr_s].
  - by rewrite Z.div_div by lia.
  - rewrite E. destruct (Z.odd (a / b)); symmetry; [apply Z.leb_le|apply Z.leb_gt]; lia.
  - rewrite E. replace (2 * (a mod b + b * (if Z.odd (a / b) then 1 else 0))) with (2 * (a mod b) + (if Z.odd (a / b) then 1 else 0) * (b * 2)) by (destruct (Z.odd (a / b)); lia).
    rewrite Z.mod_add by lia. rewrite (Z.mod_small (2 * (a mod b)) (b * 2)) by lia. subst r s.
    destruct (Z.leb_spec b (2 * (a mod b))) as [HL|HL]; cbn.
    + destruct (Z.eqb_spec (2 * (a mod b)) 0); [lia|done].
    + by rewrite (Z.mod_small (2 * (a mod b)) b) by lia.
Qed.
Lemma iter_pos_steps {A} (f : A -> A) n x : SpecFloat.iter_pos f n x = Nat.iter (Pos.to_nat n) f x.
Proof.
  revert x. induction n as [n IH|n IH|]; intros x; cbn [SpecFloat.iter_pos]; [| |done].
  - rewrite !IH, Pos2Nat.inj_xI, Nat.iter_succ_r. replace (2 * Pos.to_nat n)%nat with (Pos.to_nat n + Pos.to_nat n)%nat by lia. by rewrite Nat.iter_add.
  - rewrite !IH, Pos2Nat.inj_xO. replace (2 * Pos.to_nat n)%nat with (Pos.to_nat n + Pos.to_nat n)%nat by lia. by rewrite Nat.iter_add.
Qed.
Lemma rep_shr mrs a b e n : 0 <= a -> 0 < b -> 0 <= n -> rep mrs a b -> exists mrs', shr mrs e n = (mrs', e + n) /\ rep mrs' a (b * 2 ^ n).
Proof.
  intros Ha Hb Hn HR. destruct n as [|p|p]; [|cbn [shr]|lia].
  - exists mrs. cbn. by rewrite Z.add_0_r, Z.mul_1_r.
  - exists (SpecFloat.iter_pos shr_1 p mrs). split; [done|]. rewrite iter_pos_steps. rewrite <- (positive_nat_Z p).
    induction (Pos.to_nat p) as [|k IH]; [by rewrite Z.mul_1_r|]. rewrite Nat2Z.inj_succ, Z.pow_succ_r by lia. cbn [Nat.iter].
    replace (b * (2 * 2 ^ Z.of_nat k)) with (b * 2 ^ Z.of_nat k * 2) by lia. apply rep_shr_1; [done|nia|done].
Qed.

Lemma Zdigits2_log2 m : 0 < m -> Zdigits2 m = Z.log2 m + 1.
Proof.
  destruct m as [|p|p]; [done| |done]. intros _. cbn [Zdigits2]. induction p as [p IH|p IH|]; cbn [digits2_pos]; [| |done].
  - rewrite Pos2Z.inj_succ, IH, Pos2Z.inj_xI. rewrite Z.log2_succ_double by lia. lia.
  - rewrite Pos2Z.inj_succ, IH, Pos2Z.inj_xO. rewrite Z.log2_double by lia. lia.
Qed.

(** The float of mantissa [q], at most [2 ^ 53], and exponent [e]. *)
Definition pack (s : bool) (q e : Z) : spec_float :=
  if q =? 2 ^ 53 then S754_finite s (2 ^ 52)%positive (e + 1) else S754_finite s (Z.to_pos q) e.

Lemma fexp_normal d : -1021 <= d -> fexp 53 1024 d = d - 53.
Proof. intros Hd. unfold fexp, emin. lia. Qed.
Lemma rep_exact m : rep (shr_record_of_loc m loc_Exact) m 1.
Proof. split; [|split]; cbn; [by rewrite Z.div_1_r|by rewrite Z.mod_1_r|by rewrite Z.mod_1_r]. Qed.

Lemma shr_fexp_normal m e l a b : 0 < b -> 0 <= a -> 0 < m -> rep (shr_record_of_loc m l) a b -> 52 <= Z.log2 m -> -1022 <= Z.log2 m + e ->
  exists mrs, shr_fexp 53 1024 m e l = (mrs, Z.log2 m + e - 52) /\ rep mrs a (b * 2 ^ (Z.log2 m - 52)).
Proof.
  intros Hb Ha Hm HR HL HE. unfold shr_fexp. rewrite Zdigits2_log2 by done. rewrite fexp_normal by lia.
  replace (Z.log2 m + 1 + e - 53 - e) with (Z.log2 m - 52) by lia.
  destruct (rep_shr _ a b e (Z.log2 m - 52) Ha Hb ltac:(lia) HR) as (mrs & E & R). exists mrs. rewrite E. split; [f_equal; lia|done].
Qed.

Lemma round_spec s m e l a b : 0 < b -> 0 <= a -> 0 < m -> rep (shr_record_of_loc m l) a b -> 52 <= Z.log2 m -> -1022 <= Z.log2 m + e <= 1022 ->
  let q := rne a (b * 2 ^ (Z.log2 m - 52)) in
  2 ^ 52 <= q <= 2 ^ 53 /\ binary_round_aux 53 1024 s m e l = pack s q (Z.log2 m + e - 52).
Proof.
  intros Hb Ha Hm HR HL HE q. destruct (shr_fexp_normal m e l a b) as (mrs & E & R); try done; [lia|].
  assert (m = a / b) as Em by (by destruct HR as [<- _]; destruct l as [|[]]).
  set (k := Z.log2 m - 52) in *. assert (0 < 2 ^ k) as Hk by (apply Z.pow_pos_nonneg; lia).
  pose proof (Z.log2_spec m Hm) as [H1 H2]. replace (Z.log2 m) with (52 + k) in H1, H2 by lia. rewrite <- Z.add_succ_l in H2. rewrite !Z.pow_add_r in H1, H2 by lia.
  pose proof (Z.div_mod a b ltac:(lia)) as ED. pose proof (Z.mod_pos_bound a b Hb) as HM. rewrite <- Em in ED.
  assert (2 ^ 52 <= q <= 2 ^ 53) as HQ.
  { assert (b * (2 ^ 52 * 2 ^ k) <= b * m) by (apply Z.mul_le_mono_nonneg_l; lia).
    assert (b * (m + 1) <= b * (2 ^ 53 * 2 ^ k)) by (apply Z.mul_le_mono_nonneg_l; [lia|]; change (Z.succ 52) with 53 in H2; lia).
    split; apply rne_bounds; [apply Z.mul_pos_pos; lia|lia|apply Z.mul_pos_pos; lia|lia]. }
  split; [done|]. unfold binary_round_aux. rewrite E, (rep_round _ _ _ (Z.mul_pos_pos _ _ Hb Hk) R). fold k q.
  unfold pack. destruct (Z.eqb_spec q (2 ^ 53)) as [->|HN].
  - assert (shr_fexp 53 1024 (2 ^ 53) (Z.log2 m + e - 52) loc_Exact = (Build_shr_record (2 ^ 52) false false, Z.log2 m + e - 52 + 1)) as ->.
    { unfold shr_fexp. change (Zdigits2 (2 ^ 53)) with 54. rewrite fexp_normal by lia. replace (54 + (Z.log2 m + e - 52) - 53 - (Z.log2 m + e - 52)) with 1 by lia. done. }
    cbn [shr_m]. assert ((Z.log2 m + e - 52 + 1 <=? 1024 - 53) = true) as EL by (apply Z.leb_le; lia). by rewrite EL.
  - clearbody q. assert (Z.log2 q = 52) as Eq by (apply Z.log2_unique; [lia|]; change (2 ^ Z.succ 52) with (2 ^ 53); lia).
    destruct (shr_fexp_normal q (Z.log2 m + e - 52) loc_Exact q 1) as (mrs' & -> & R'); [lia..|apply rep_exact|lia|lia|].
    rewrite Eq in *. destruct R' as (E' & _ & _). cbn [Z.sub Z.pow] in E'. rewrite Z.mul_1_r, Z.div_1_r in E'. rewrite E'.
    destruct q as [|q'|q']; [lia| |lia]. replace (52 + (Z.log2 m + e - 52) - 52) with (Z.log2 m + e - 52) by lia.
    assert ((Z.log2 m + e - 52 <=? 1024 - 53) = true) as EL by (apply Z.leb_le; lia). by rewrite EL.
Qed.

(** A positive float in the normal range, and its parts. *)
Definition normal (m : positive) (e : Z) : Prop := 2 ^ 52 <= Z.pos m < 2 ^ 53 /\ -500 <= e <= 500.

Lemma pack_normal s q e : 2 ^ 52 <= q <= 2 ^ 53 -> -500 <= e < 500 ->
  exists m e', pack s q e = S754_finite s m e' /\ normal m e' /\ (e' = e /\ Z.pos m = q \/ e' = e + 1 /\ Z.pos m = 2 ^ 52 /\ q = 2 ^ 53).
Proof.
  intros Hq He. unfold pack. destruct (Z.eqb_spec q (2 ^ 53)) as [->|HN].
  - exists (2 ^ 52)%positive, (e + 1). split; [done|]. split; [split; [done|lia]|right; done].
  - exists (Z.to_pos q), e. rewrite Z2Pos.id by lia. split; [done|]. unfold normal. rewrite Z2Pos.id by lia. split; [lia|by left].
Qed.

Lemma iter_xO p d : Z.pos (Pos.iter xO p d) = Z.pos p * 2 ^ Z.pos d.
Proof.
  rewrite Pos2Nat.inj_iter, <- (positive_nat_Z d). induction (Pos.to_nat d) as [|k IH]; [cbn; lia|].
  rewrite Nat2Z.inj_succ, Z.pow_succ_r by lia. cbn [Nat.iter nat_rect]. rewrite Pos2Z.inj_xO. cbn in IH. lia.
Qed.
Lemma float64_spec n : 0 < n -> Z.log2 n <= 400 -> let q := rne (n * 2 ^ 52) (2 ^ Z.log2 n) in 2 ^ 52 <= q <= 2 ^ 53 /\ float64 n = pack false q (Z.log2 n - 52).
Proof.
  intros Hn HL q. pose proof (Z.log2_nonneg n) as H0.
  assert (exists mz ez, float64 n = binary_round_aux 53 1024 false mz ez loc_Exact /\ mz = n * 2 ^ (Z.max 0 (52 - Z.log2 n)) /\ ez = Z.min 0 (Z.log2 n - 52)) as (mz & ez & -> & Em & Ee).
  { destruct n as [|p|p]; [lia| |lia]. unfold float64. cbn [binary_normalize]. unfold binary_round, shl_align.
    change (Z.pos (digits2_pos p)) with (Zdigits2 (Z.pos p)). rewrite Zdigits2_log2, Z.add_0_r, fexp_normal by lia.
    replace (Z.log2 (Z.pos p) + 1 - 53 - 0) with (Z.log2 (Z.pos p) - 52) by lia.
    destruct (Z.log2 (Z.pos p) - 52) as [|d|d] eqn:ED.
    - exists (Z.pos p), 0. split; [done|]. rewrite Z.max_l by lia. lia.
    - exists (Z.pos p), 0. split; [done|]. rewrite Z.max_l by lia. lia.
    - exists (Z.pos (Pos.iter xO p d)), (Z.log2 (Z.pos p) + 1 - 53). split; [done|]. split; [|lia]. rewrite Z.max_r by lia.
      replace (52 - Z.log2 (Z.pos p)) with (Z.pos d) by lia. apply iter_xO. }
  assert (0 < 2 ^ Z.max 0 (52 - Z.log2 n)) as HP by (apply Z.pow_pos_nonneg; lia).
  assert (Z.log2 mz = Z.max (Z.log2 n) 52) as EL.
  { rewrite Em, Z.log2_mul_pow2 by lia. lia. }
  destruct (round_spec false mz ez loc_Exact mz 1 eq_refl ltac:(nia) ltac:(nia) (rep_exact mz) ltac:(lia) ltac:(lia)) as [HQ ->].
  assert (rne mz (1 * 2 ^ (Z.log2 mz - 52)) = q) as Eq.
  { unfold q. rewrite EL, Em, Z.mul_1_l. destruct (Z.le_gt_cases (Z.log2 n) 52) as [HL'|HL'].
    - rewrite !Z.max_r by lia. replace (n * 2 ^ 52) with (n * 2 ^ (52 - Z.log2 n) * 2 ^ Z.log2 n) by (rewrite <- Z.mul_assoc, <- Z.pow_add_r by lia; do 2 f_equal; lia).
      rewrite rne_exact by (apply Z.pow_pos_nonneg; lia). change (2 ^ (52 - 52)) with 1. rewrite <- (Z.mul_1_r (n * 2 ^ (52 - Z.log2 n))) at 1. by apply rne_exact.
    - rewrite Z.max_l, (Z.max_l (Z.log2 n)) by lia. replace (2 ^ Z.log2 n) with (2 ^ (Z.log2 n - 52) * 2 ^ 52) by (rewrite <- Z.pow_add_r by lia; f_equal; lia).
      rewrite rne_scale by (apply Z.pow_pos_nonneg; lia). by rewrite Z.mul_1_r. }
  rewrite Eq in *. split; [done|]. f_equal. lia.
Qed.

Lemma new_location_rep a b : 0 < b -> 0 <= a -> rep (shr_record_of_loc (a / b) (new_location b (a mod b))) a b.
Proof.
  intros Hb Ha. pose proof (Z.mod_pos_bound a b Hb) as HM. unfold rep.
  assert (b <= 2 * (a mod b) -> (2 * (a mod b)) mod b = 2 * (a mod b) - b) as E1 by (intros ?; symmetry; apply (Z.mod_unique_pos _ _ 1); lia).
  assert (2 * (a mod b) < b -> (2 * (a mod b)) mod b = 2 * (a mod b)) as E2 by (intros ?; apply Z.mod_small; lia).
  unfold new_location, new_location_even, new_location_odd. rewrite <- Z.negb_odd. pose proof (Zmod_odd b) as HO.
  destruct (Z.odd b) eqn:EO; cbn [negb].
  - assert (b <> 2 * (a mod b)) by (intros E; rewrite E, Z.mul_comm, Z.mod_mul in HO; lia).
    destruct (Z.eqb_spec (a mod b) 0) as [E0|N0]; [|destruct (Z.compare_spec (2 * (a mod b) + 1) b)]; cbn; (split; [done|]);
    (destruct (Z.leb_spec b (2 * (a mod b))) as [HL|HL]; [rewrite E1 by done|rewrite E2 by done]); (split; [done || lia|]);
    match goal with |- context [?x =? 0] => destruct (Z.eqb_spec x 0) end; done || lia.
  - destruct (Z.eqb_spec (a mod b) 0) as [E0|N0]; [|destruct (Z.compare_spec (2 * (a mod b)) b)]; cbn; (split; [done|]);
    (destruct (Z.leb_spec b (2 * (a mod b))) as [HL|HL]; [rewrite E1 by done|rewrite E2 by done]); (split; [done || lia|]);
    match goal with |- context [?x =? 0] => destruct (Z.eqb_spec x 0) end; done || lia.
Qed.

Lemma fdiv_spec m1 e1 m2 e2 : normal m1 e1 -> normal m2 e2 -> exists k q : Z, (k = 0 /\ Z.pos m1 < Z.pos m2 \/ k = 1 /\ Z.pos m2 <= Z.pos m1) /\
  q = rne (Z.pos m1 * 2 ^ 53) (Z.pos m2 * 2 ^ k) /\ 2 ^ 52 <= q <= 2 ^ 53 /\ fdiv (S754_finite false m1 e1) (S754_finite false m2 e2) = pack false q (e1 - e2 - 53 + k).
Proof.
  intros [B1 R1] [B2 R2].
  assert (forall m, 2 ^ 52 <= Z.pos m < 2 ^ 53 -> Z.log2 (Z.pos m) = 52) as L52 by (intros m Hm; apply Z.log2_unique; [lia|exact Hm]).
  assert (fdiv (S754_finite false m1 e1) (S754_finite false m2 e2) =
    binary_round_aux 53 1024 false ((Z.pos m1 * 2 ^ 53) / Z.pos m2) (e1 - e2 - 53) (new_location (Z.pos m2) ((Z.pos m1 * 2 ^ 53) mod Z.pos m2))) as ->.
  { unfold fdiv, SFdiv, SFdiv_core_binary. rewrite !Zdigits2_log2, !L52 by done. rewrite fexp_normal by lia.
    replace (Z.min (52 + 1 + e1 - (52 + 1 + e2) - 53) (e1 - e2)) with (e1 - e2 - 53) by lia.
    replace (e1 - e2 - (e1 - e2 - 53)) with 53 by lia. rewrite Z.shiftl_mul_pow2 by lia.
    unfold Z.div, Z.modulo. by destruct (Z.div_eucl (Z.pos m1 * 2 ^ 53) (Z.pos m2)) as [q r]. }
  set (a := Z.pos m1 * 2 ^ 53). pose proof (Z.div_mod a (Z.pos m2) ltac:(lia)) as ED. pose proof (Z.mod_pos_bound a (Z.pos m2) eq_refl) as HM.
  assert (exists k, (k = 0 /\ Z.pos m1 < Z.pos m2 \/ k = 1 /\ Z.pos m2 <= Z.pos m1) /\ Z.log2 (a / Z.pos m2) = 52 + k /\ 0 < a / Z.pos m2) as (k & Hk & EL & HP).
  { destruct (Z.lt_ge_cases (Z.pos m1) (Z.pos m2)) as [HL|HL]; [exists 0|exists 1]; (split; [lia|]).
    - assert (2 ^ 52 <= a / Z.pos m2 < 2 ^ 53) as HB by (unfold a in *; split; [apply Z.div_le_lower_bound|apply Z.div_lt_upper_bound]; lia).
      split; [|lia]. apply Z.log2_unique; [lia|exact HB].
    - assert (2 ^ 53 <= a / Z.pos m2 < 2 ^ 54) as HB by (unfold a in *; split; [apply Z.div_le_lower_bound|apply Z.div_lt_upper_bound]; lia).
      split; [|lia]. apply Z.log2_unique; [lia|exact HB]. }
  destruct (round_spec false (a / Z.pos m2) (e1 - e2 - 53) _ a (Z.pos m2) eq_refl ltac:(lia) HP (new_location_rep a (Z.pos m2) eq_refl ltac:(lia)) ltac:(lia) ltac:(lia)) as [HQ ->].
  rewrite EL in *. replace (52 + k - 52) with k in * by lia. exists k, (rne a (Z.pos m2 * 2 ^ k)). split; [done|]. split; [done|]. split; [done|]. f_equal. lia.
Qed.

(** Division by a power of two only moves the exponent. *)
Lemma float64_pow2 k : 0 <= k <= 400 -> float64 (2 ^ k) = S754_finite false (2 ^ 52)%positive (k - 52).
Proof.
  intros Hk. destruct (float64_spec (2 ^ k)) as [_ ->]; [apply Z.pow_pos_nonneg; lia|rewrite Z.log2_pow2; lia|].
  rewrite Z.log2_pow2 by lia. rewrite (Z.mul_comm (2 ^ k)), rne_exact by (apply Z.pow_pos_nonneg; lia). done.
Qed.
Lemma fdiv_pow2 m e k : normal m e -> 0 <= k <= 400 -> fdiv (S754_finite false m e) (float64 (2 ^ k)) = S754_finite false m (e - k).
Proof.
  intros HN Hk. rewrite float64_pow2 by done. destruct (fdiv_spec m e (2 ^ 52)%positive (k - 52)) as (k' & q & Hk' & -> & _ & ->); [done|split; [done|lia]|].
  destruct HN as [HB HE]. change (Z.pos (2 ^ 52)) with (2 ^ 52) in *. assert (k' = 1) as -> by lia.
  change (Z.pos m * 2 ^ 53) with (Z.pos m * (2 ^ 52 * 2 ^ 1)). rewrite rne_exact by done.
  unfold pack. destruct (Z.eqb_spec (Z.pos m) (2 ^ 53)); [lia|]. cbn [Z.to_pos]. f_equal. lia.
Qed.

Lemma fmul_spec m1 e1 m2 e2 : normal m1 e1 -> normal m2 e2 -> -500 <= e1 + e2 <= 400 ->
  exists k q, (k = 52 \/ k = 53) /\ 2 ^ (52 + k) <= Z.pos m1 * Z.pos m2 < 2 ^ (53 + k) /\ q = rne (Z.pos m1 * Z.pos m2) (2 ^ k) /\ 2 ^ 52 <= q <= 2 ^ 53 /\
  fmul (S754_finite false m1 e1) (S754_finite false m2 e2) = pack false q (e1 + e2 + k).
Proof.
  intros [B1 R1] [B2 R2] HE. set (a := Z.pos m1 * Z.pos m2).
  assert (2 ^ 52 * 2 ^ 52 <= a < 2 ^ 53 * 2 ^ 53) as HB by (unfold a; nia).
  assert (exists k, (k = 52 \/ k = 53) /\ 2 ^ (52 + k) <= a < 2 ^ (53 + k)) as (k & Hk & HA) by (destruct (Z.lt_ge_cases a (2 ^ 105)); [exists 52|exists 53]; lia).
  assert (Z.log2 a = 52 + k) as EL by (apply Z.log2_unique; [lia|]; by replace (Z.succ (52 + k)) with (53 + k) by lia).
  exists k, (rne a (2 ^ k)). split; [done|]. split; [done|]. split; [done|].
  destruct (round_spec false a (e1 + e2) loc_Exact a 1 eq_refl ltac:(lia) ltac:(lia) (rep_exact a) ltac:(lia) ltac:(lia)) as [HQ EQ].
  rewrite EL, Z.mul_1_l in *. replace (52 + k - 52) with k in * by lia. split; [done|].
  transitivity (binary_round_aux 53 1024 false a (e1 + e2) loc_Exact); [done|]. rewrite EQ. f_equal. lia.
Qed.
Lemma fmul_pow2 m e k : normal m e -> 0 <= k <= 400 -> -400 <= e <= 0 -> fmul (S754_finite false m e) (float64 (2 ^ k)) = S754_finite false m (e + k).
Proof.
  intros HN Hk HE. rewrite float64_pow2 by done. destruct (fmul_spec m e (2 ^ 52)%positive (k - 52)) as (k' & q & Hk' & HA & -> & _ & ->); [done|split; [done|lia]|lia|].
  destruct HN as [HB _]. change (Z.pos (2 ^ 52)) with (2 ^ 52) in *. assert (k' = 52) as -> by (destruct Hk' as [-> | ->]; [done|change (2 ^ (52 + 53)) with (2 ^ 52 * 2 ^ 53) in HA; nia]).
  rewrite rne_exact by done. unfold pack. destruct (Z.eqb_spec (Z.pos m) (2 ^ 53)); [lia|]. cbn [Z.to_pos]. f_equal. lia.
Qed.

(** Comparisons of positive floats in the normal range. *)
Lemma leb_mantissa a m : match PosDef.Pos.compare_cont Eq a m with Gt => false | _ => true end = true <-> Z.pos a <= Z.pos m.
Proof.
  change (PosDef.Pos.compare_cont Eq a m) with (a ?= m)%positive. destruct (Pos.compare_spec a m); (split; [lia || discriminate|lia || done]).
Qed.
Lemma ltb_mantissa a m : match PosDef.Pos.compare_cont Eq a m with Lt => true | _ => false end = true <-> Z.pos a < Z.pos m.
Proof.
  change (PosDef.Pos.compare_cont Eq a m) with (a ?= m)%positive. destruct (Pos.compare_spec a m); (split; [lia || discriminate|lia || done]).
Qed.
Definition below (m1 : positive) (e1 : Z) (m2 : positive) (e2 : Z) : Prop := e1 < e2 \/ e1 = e2 /\ Z.pos m1 <= Z.pos m2.
Lemma SFleb_below m1 e1 m2 e2 : SFleb (S754_finite false m1 e1) (S754_finite false m2 e2) = true <-> below m1 e1 m2 e2.
Proof.
  unfold SFleb, below. cbn [SFcompare]. destruct (Z.compare_spec e1 e2) as [<-|HE|HE]; [|split; [by left|done]|split; [done|lia]].
  rewrite leb_mantissa. split; [by right|]. intros [?|[_ ?]]; [lia|done].
Qed.
Lemma SFltb_below m1 e1 m2 e2 : SFltb (S754_finite false m1 e1) (S754_finite false m2 e2) = false <-> below m2 e2 m1 e1.
Proof.
  rewrite <- not_true_iff_false. unfold SFltb, below. cbn [SFcompare]. destruct (Z.compare_spec e1 e2) as [<-|HE|HE]; [|split; [done|lia]|split; [by left|done]].
  rewrite ltb_mantissa. split; [right; split; [done|lia]|]. intros [?|[_ ?]] ?; lia.
Qed.

(** Conversion keeps the order. *)
Lemma float64_normal n : 0 < n < 2 ^ 64 -> exists m e, float64 n = S754_finite false m e /\ normal m e /\ -52 <= e <= 12.
Proof.
  intros Hn. pose proof (Z.log2_nonneg n) as H0. assert (Z.log2 n < 64) as HL by (apply Z.log2_lt_pow2; lia).
  destruct (float64_spec n) as [HQ ->]; [lia..|]. destruct (pack_normal false _ (Z.log2 n - 52) HQ) as (m & e & -> & HN & HC); [lia|].
  exists m, e. split; [done|]. split; [done|lia].
Qed.
Lemma float64_mono n1 n2 m1 e1 m2 e2 : 0 < n1 <= n2 -> n2 < 2 ^ 64 -> float64 n1 = S754_finite false m1 e1 -> float64 n2 = S754_finite false m2 e2 -> below m1 e1 m2 e2.
Proof.
  intros Hn H64 E1 E2. pose proof (Z.log2_nonneg n1) as H0. pose proof (Z.log2_le_mono n1 n2 ltac:(lia)) as HM. assert (Z.log2 n2 < 64) as HL by (apply Z.log2_lt_pow2; lia).
  destruct (float64_spec n1) as [HQ1 F1]; [lia..|]. destruct (pack_normal false _ (Z.log2 n1 - 52) HQ1) as (m1' & e1' & P1 & [N1 _] & C1); [lia|].
  destruct (float64_spec n2) as [HQ2 F2]; [lia..|]. destruct (pack_normal false _ (Z.log2 n2 - 52) HQ2) as (m2' & e2' & P2 & [N2 _] & C2); [lia|].
  rewrite F1, P1 in E1. rewrite F2, P2 in E2. injection E1 as -> ->. injection E2 as -> ->. unfold below.
  destruct (Z.eq_dec (Z.log2 n1) (Z.log2 n2)) as [EL|NL]; [|lia]. rewrite <- EL in *.
  pose proof (rne_mono (n1 * 2 ^ 52) (n2 * 2 ^ 52) (2 ^ Z.log2 n1) ltac:(apply Z.pow_pos_nonneg; lia) ltac:(lia)). lia.
Qed.
