(* ===== verification/Progress.v ===== *)
(** The progress line of an ingest (src/cmd/amber-store/progress.go): the counters, the
    rendering of byte counts, durations and the bar, and the loop that draws. *)
From Stdlib Require Import Floats.SpecFloat.
From S2P Require Import Prelude Chunker Compact Collector Cli Float.

(** * Package fmt *)

Definition bs (s : string) : bytes := String.list_byte_of_string s.
Arguments bs _%_string_scope.
(** [%0*d] of a number that is not negative; [%d] of any. *)
Definition zpad (w : nat) (s : bytes) : bytes := replicate (w - length s) x30 ++ s.
Definition signed (n : Z) : bytes := if n <? 0 then x2d :: decimal (- n) else decimal n.

(** [t] units of [10 ^ -p] in decimal. *)
Definition point (p : nat) (t : Z) : bytes :=
  let u := 10 ^ Z.of_nat p in
  match p with
  | O => decimal t
  | S _ => decimal (t / u) ++ [x2e] ++ zpad p (decimal (t mod u))
  end.
(** The nearest multiple of [10 ^ -p], ties to even. *)
Definition tenths (p : nat) (m : positive) (e : Z) : Z :=
  if 0 <=? e then Z.pos m * 2 ^ e * 10 ^ Z.of_nat p else rne (Z.pos m * 10 ^ Z.of_nat p) (2 ^ (- e)).
(** [%.*f]. *)
Definition fixed (p : nat) (x : spec_float) : bytes :=
  match x with
  | S754_zero s => (if s then [x2d] else []) ++ point p 0
  | S754_finite s m e => (if s then [x2d] else []) ++ point p (tenths p m e)
  | S754_infinity s => if s then bs "-Inf" else bs "+Inf"
  | S754_nan => bs "NaN"
  end.

(** * Byte counts *)

Definition units : bytes := bs "KMGTPE".
Definition unit_ : Z := 1024.
(** The loop of [humanBytes], at most once for every ten bits of [m]. *)
Fixpoint unit_loop (fuel : nat) (m div : Z) (exp : nat) : Z * nat :=
  match fuel with
  | O => (div, exp)
  | S fuel => if unit_ <=? m then unit_loop fuel (m / unit_) (u64 (div * unit_)) (S exp) else (div, exp)
  end.
(** 1023.95 as a float64 constant. *)
Definition boundary : spec_float := fdiv (float64 102395) (float64 100).
Definition humanBytes (n : Z) : res bytes :=
  if n <? unit_ then Ok (decimal n ++ bs " B")
  else
    let '(div, exp) := unit_loop 7 (n / unit_) unit_ 0 in
    let val := fdiv (float64 n) (float64 div) in
    let '(val, exp) := if SFleb boundary val && (exp <? 5)%nat then (fdiv (float64 n) (float64 (u64 (div * unit_))), S exp) else (val, exp) in
    c ← from_opt [EMsg "panic: index out of range"] (units !! exp);
    Ok (fixed 1 val ++ [x20; c] ++ bs "iB").

(** * Durations *)

(** [time.Duration] counts nanoseconds in 64 bits; [Hour], [Minute] and [Second] are multiples. *)
Definition Minute : Z := 60 * Second.
Definition Hour : Z := 60 * Minute.
Definition maxDuration : Z := 2 ^ 63 - 1.
(** [Duration.Round] of a duration that is not negative. *)
Definition round_up_half (d m : Z) : Z :=
  let r := Z.rem d m in
  if r + r <? m then d - r
  else let d1 := s64 (d + m - r) in if d <? d1 then d1 else maxDuration.
(** [Duration.Seconds]. *)
Definition fadd : spec_float -> spec_float -> spec_float := SFadd 53 1024.
Definition Seconds (d : Z) : spec_float := fadd (float64 (Z.quot d Second)) (fdiv (float64 (Z.rem d Second)) (float64 Second)).
Definition colon : byte := x3a.
Definition fmtDuration (d : Z) : bytes :=
  let d := if d <? 0 then 0 else d in
  let d := round_up_half d Second in
  let h := Z.quot d Hour in
  let d := d - h * Hour in
  let m := Z.quot d Minute in
  let d := d - m * Minute in
  let s := Z.quot d Second in
  if 0 <? h then decimal h ++ [colon] ++ zpad 2 (decimal m) ++ [colon] ++ zpad 2 (decimal s)
  else decimal m ++ [colon] ++ zpad 2 (decimal s).

(** * The progress line *)

(** A nil [*Progress] is [None]. *)
Record Progress := MkProgress { totalFiles : Z; totalBytes : Z; bytesDone : Z; filesDone : Z }.
Definition NewProgress (totalFiles totalBytes : Z) : Progress := MkProgress totalFiles totalBytes 0 0.
Definition AddBytes (n : Z) (p : option Progress) : option Progress :=
  match p with
  | None => None
  | Some p => Some (MkProgress (totalFiles p) (totalBytes p) (u64 (bytesDone p + u64 n)) (filesDone p))
  end.
Definition FileDone (p : option Progress) : option Progress :=
  match p with
  | None => None
  | Some p => Some (MkProgress (totalFiles p) (totalBytes p) (bytesDone p) (u64 (filesDone p + 1)))
  end.

Definition full_block : bytes := [xe2; x96; x88].
Definition light_block : bytes := [xe2; x96; x91].
Definition ellipsis : bytes := [xe2; x80; xa6].
(** [strings.Repeat], which panics on a negative count. *)
Definition Repeat (s : bytes) (n : Z) : res bytes :=
  if n <? 0 then Err [EMsg "panic: strings: negative Repeat count"] else Ok (concat (replicate (Z.to_nat n) s)).

(** A conversion to an integer type cuts the fraction off. *)
Definition trunc (x : spec_float) : option Z :=
  match x with
  | S754_zero _ => Some 0
  | S754_finite s m e => let v := if 0 <=? e then Z.pos m * 2 ^ e else Z.pos m / 2 ^ (- e) in Some (if s : bool then - v else v)
  | _ => None
  end.

Section Render.
(** The language leaves to the implementation which 64 bits a conversion gives outside the
    type's range. *)
Context (out_of_range : spec_float -> Z).
Definition to_uint64 (x : spec_float) : Z :=
  match trunc x with Some v => if (0 <=? v) && (v <? 2 ^ 64) then v else u64 (out_of_range x) | None => u64 (out_of_range x) end.
Definition to_int64 (x : spec_float) : Z :=
  match trunc x with Some v => if (- 2 ^ 63 <=? v) && (v <? 2 ^ 63) then v else s64 (out_of_range x) | None => s64 (out_of_range x) end.

Definition bar (pct : spec_float) (width : Z) : res bytes :=
  let pct := if SFltb pct (float64 0) then float64 0 else pct in
  let pct := if SFltb (float64 100) pct then float64 100 else pct in
  let filled := to_int64 (fmul (fdiv pct (float64 100)) (float64 width)) in
  full ← Repeat full_block filled;
  rest ← Repeat light_block (s64 (width - filled));
  Ok ([x5b] ++ full ++ rest ++ [x5d]).

Definition percent (done total : Z) : spec_float :=
  if 0 <? total then
    let pct := fmul (fdiv (float64 done) (float64 total)) (float64 100) in
    if SFltb (float64 100) pct then float64 100 else pct
  else float64 100.
Definition mean_rate (done elapsed : Z) : spec_float :=
  let secs := Seconds elapsed in if SFltb (float64 0) secs then fdiv (float64 done) secs else float64 0.
Definition eta (done total : Z) (rate : spec_float) : bytes :=
  if (0 <? total) && (0 <? done) && (done <? total) && SFltb (float64 0) rate then
    fmtDuration (s64 (to_int64 (fdiv (float64 (total - done)) rate) * Second))
  else bs "--:--".
Definition render (p : Progress) (elapsed : Z) : res bytes :=
  let done := bytesDone p in
  let total := u64 (totalBytes p) in
  let rate := mean_rate done elapsed in
  let pct := percent done total in
  let tail := if (0 <? total) && (total <=? done) then bs "  finalizing" ++ ellipsis else [] in
  b ← bar pct 16;
  hd ← humanBytes done;
  ht ← humanBytes total;
  hr ← humanBytes (to_uint64 rate);
  Ok (bs "ingest " ++ pad 5 (fixed 1 pct) ++ bs "% " ++ b ++ bs "  " ++ hd ++ bs "/" ++ ht ++ bs "  " ++ hr ++ bs "/s  elapsed " ++
      fmtDuration elapsed ++ bs "  eta " ++ eta done total rate ++ bs "  files " ++ decimal (filesDone p) ++ bs "/" ++ signed (totalFiles p) ++ tail).

(** [Run]: a frame at once, one per tick, and on the end of the context the bar is erased or
    a last line is left. The frames are the progress and the elapsed time at each draw. *)
Definition erase : bytes := [x0d; x1b; x5b; x4b].
Definition draw (isTTY : bool) (frame : Progress * Z) : res bytes :=
  line ← render frame.1 frame.2;
  Ok (if isTTY then erase ++ line else line ++ [x0a]).
Fixpoint draws (isTTY : bool) (frames : list (Progress * Z)) : res bytes :=
  match frames with
  | [] => Ok []
  | f :: frames => a ← draw isTTY f; b ← draws isTTY frames; Ok (a ++ b)
  end.
Definition Run (isTTY : bool) (first : Progress * Z) (ticks : list (Progress * Z)) (last : Progress * Z) : res bytes :=
  out ← draws isTTY (first :: ticks);
  last ← (if isTTY then Ok erase else draw isTTY last);
  Ok (out ++ last).
End Render.

(** ** What it prints *)

Lemma unit_loop_spec n fuel : forall div exp m, div = 2 ^ (10 * (Z.of_nat exp + 1)) -> m = n / div -> div <= n < 2 ^ 64 -> m < 1024 ^ (Z.of_nat fuel + 1) ->
  exists u, unit_loop fuel m div exp = (2 ^ (10 * (Z.of_nat u + 1)), u) /\ 2 ^ (10 * (Z.of_nat u + 1)) <= n < 2 ^ (10 * (Z.of_nat u + 2)).
Proof.
  assert (forall exp, 2 ^ (10 * (Z.of_nat exp + 2)) = 2 ^ (10 * (Z.of_nat exp + 1)) * 1024) as EP.
  { intros exp. change 1024 with (2 ^ 10). rewrite <- Z.pow_add_r by lia. f_equal. lia. }
  induction fuel as [|fuel IH]; intros div exp m Ed Em Hn Hm; cbn [unit_loop].
  - exists exp. split; [by subst div|]. rewrite EP, <- Ed. split; [lia|]. pose proof (Z.mul_succ_div_gt n div ltac:(lia)). change (1024 ^ (Z.of_nat 0 + 1)) with 1024 in Hm. nia.
  - unfold unit_. destruct (Z.leb_spec 1024 m) as [HL|HL].
    + assert (div * 1024 <= n) as HD by (pose proof (Z.mul_div_le n div ltac:(lia)); nia).
      apply IH; [unfold u64; rewrite Z.mod_small by lia| |unfold u64; rewrite Z.mod_small by lia; lia|].
      * rewrite Ed, <- EP. f_equal. lia.
      * unfold u64. rewrite Z.mod_small by lia. by rewrite Em, Z.div_div by lia.
      * apply Z.div_lt_upper_bound; [lia|]. rewrite Nat2Z.inj_succ, Z.add_succ_l, Z.pow_succ_r in Hm by lia. lia.
    + exists exp. split; [by subst div|]. rewrite EP, <- Ed. split; [lia|]. pose proof (Z.mul_succ_div_gt n div ltac:(lia)). nia.
Qed.

(** The quotient by a power of two that [fixed 1] prints is within half a tenth of [n / 2 ^ d],
    but for what the conversion to float64 lost. *)
Lemma quotient_shown n : 0 < n < 2 ^ 64 -> exists m e, 2 ^ 52 <= Z.pos m < 2 ^ 53 /\ Z.log2 n - 52 <= e <= Z.log2 n - 51 /\
  forall d, 0 <= d <= 100 -> fdiv (float64 n) (float64 (2 ^ d)) = S754_finite false m (e - d) /\
  (0 < - (e - d) -> 2 * Z.abs (rne (Z.pos m * 10) (2 ^ (- (e - d))) * 2 ^ d - 10 * n) <= 2 ^ d + 20480).
Proof.
  intros Hn. pose proof (Z.log2_nonneg n) as H0. assert (Z.log2 n <= 63) as HL by (assert (Z.log2 n < 64) by (apply Z.log2_lt_pow2; lia); lia).
  destruct (float64_spec n) as [HQ EF]; [lia..|]. set (q := rne (n * 2 ^ 52) (2 ^ Z.log2 n)) in *.
  destruct (pack_normal false q (Z.log2 n - 52)) as (m & e & EP & HN & HC); [done|lia|]. rewrite EF, EP.
  exists m, e. split; [apply HN|]. split; [lia|]. intros d Hd. rewrite fdiv_pow2 by (done || lia). split; [done|]. intros He.
  pose proof (rne_near (n * 2 ^ 52) (2 ^ Z.log2 n) ltac:(apply Z.pow_pos_nonneg; lia)) as H1. fold q in H1.
  pose proof (rne_near (Z.pos m * 10) (2 ^ (- (e - d))) ltac:(apply Z.pow_pos_nonneg; lia)) as H2.
  set (t := rne (Z.pos m * 10) (2 ^ (- (e - d)))) in *. clearbody q t.
  assert (2 ^ Z.log2 n <= 2 ^ 63) as H3 by (apply Z.pow_le_mono_r; lia).
  assert (exists j, 0 <= j <= 1 /\ e = Z.log2 n - 52 + j /\ q = Z.pos m * 2 ^ j) as (j & Hj & -> & Eq) by (destruct HC as [[-> <-]|(-> & -> & ->)]; [exists 0|exists 1]; lia).
  assert (2 ^ (- (Z.log2 n - 52 + j - d)) * 2 ^ j * 2 ^ Z.log2 n = 2 ^ d * 2 ^ 52) as E2 by (rewrite <- !Z.pow_add_r by lia; f_equal; lia).
  subst q. set (A := 2 ^ (- (Z.log2 n - 52 + j - d))) in *. set (B := 2 ^ j) in *. set (L := 2 ^ Z.log2 n) in *.
  assert (0 < B * L) as HBL by (apply Z.mul_pos_pos; apply Z.pow_pos_nonneg; lia).
  assert (2 * Z.abs (t * 2 ^ d * 2 ^ 52 - 10 * (Z.pos m * B * L)) <= 2 ^ d * 2 ^ 52) as H4.
  { rewrite <- E2. replace (t * 2 ^ d * 2 ^ 52) with (t * (2 ^ d * 2 ^ 52)) by lia. rewrite <- E2.
    replace (t * (A * B * L) - 10 * (Z.pos m * B * L)) with ((A * t - Z.pos m * 10) * (B * L)) by lia.
    rewrite Z.abs_mul, (Z.abs_eq (B * L)) by lia. nia. }
  assert (2 * Z.abs (Z.pos m * B * L - n * 2 ^ 52) <= L) as H5 by lia.
  set (D := 2 ^ d) in *. lia.
Qed.

Lemma boundary_leb m e : 2 ^ 52 <= Z.pos m < 2 ^ 53 -> SFleb boundary (S754_finite false m e) = true <-> -42 <= e \/ e = -43 /\ 9006759450089882 <= Z.pos m.
Proof.
  intros Hm. assert (boundary = S754_finite false 9006759450089882 (-43)) as -> by (vm_compute; reflexivity). rewrite SFleb_below. unfold below. lia.
Qed.

Lemma fixed_1 m e : 0 < - e -> fixed 1 (S754_finite false m e) = point 1 (rne (Z.pos m * 10) (2 ^ (- e))).
Proof. intros He. cbn [fixed app]. unfold tenths. destruct (Z.leb_spec 0 e); [lia|done]. Qed.
Lemma unit_loop_bound n : 1024 <= n < 2 ^ 64 -> exists u, (u < 6)%nat /\ unit_loop 7 (n / unit_) unit_ 0 = (2 ^ (10 * (Z.of_nat u + 1)), u) /\ 2 ^ (10 * (Z.of_nat u + 1)) <= n < 2 ^ (10 * (Z.of_nat u + 2)).
Proof.
  intros Hn. destruct (unit_loop_spec n 7 1024 0 (n / 1024)) as (u & E & HU); [done|done|lia|apply Z.div_lt_upper_bound; lia|].
  exists u. split; [|done]. destruct (Nat.lt_ge_cases u 6) as [?|HG]; [done|]. pose proof (Z.pow_le_mono_r 2 64 (10 * (Z.of_nat u + 1)) ltac:(lia) ltac:(lia)). lia.
Qed.
Lemma units_lookup u : (u < 6)%nat -> exists c, units !! u = Some c.
Proof. intros Hu. do 6 (destruct u as [|u]; [by eexists|]). lia. Qed.

(** The tenths shown stay in range, in the unit chosen and after a promotion. *)
Lemma shown_tenths m e : 2 ^ 52 <= Z.pos m < 2 ^ 53 -> 0 < - e <= 52 -> 48 <= - e \/ SFleb boundary (S754_finite false m e) <> true ->
  10 <= rne (Z.pos m * 10) (2 ^ (- e)) <= 10239.
Proof.
  intros Hm He HB. assert (0 < 2 ^ (- e)) as HP by (apply Z.pow_pos_nonneg; lia). assert (2 ^ (- e) <= 2 ^ 52) as H2 by (apply Z.pow_le_mono_r; lia).
  split; [apply (rne_bounds _ _ 10); lia|]. rewrite boundary_leb in HB by done.
  destruct (Z.eq_dec e (-43)) as [-> |HN].
  - etransitivity; [apply (rne_mono _ (9006759450089881 * 10)); [done|lia]|]. vm_compute. discriminate.
  - assert (2 ^ 44 <= 2 ^ (- e)) by (apply Z.pow_le_mono_r; lia). apply (rne_bounds _ _ 10239); lia.
Qed.
Lemma promoted_tenths m e : 2 ^ 52 <= Z.pos m < 2 ^ 53 -> e = -52 \/ e = -53 /\ 9006759450089882 <= Z.pos m -> 10 <= rne (Z.pos m * 10) (2 ^ (- e)) <= 10239.
Proof.
  intros Hm [-> |[-> HL]]; cbn [Z.opp]; split; try (apply rne_bounds; lia).
  etransitivity; [|apply (rne_mono (9006759450089882 * 10)); [done|lia]]. vm_compute. discriminate.
Qed.

(** C37. A byte count is shown correctly: below 1024 it is printed as it is; from there up to
    the largest unsigned integer it is printed in one of the six binary units, with one
    decimal between 1.0 and 1023.9 (never 1024.0), and the number shown is within half a tenth
    of the count in that unit, but for what a float64 cannot represent. *)
Theorem human_bytes_scaled n : 0 <= n < 2 ^ 64 ->
  (n < 1024 -> humanBytes n = Ok (decimal n ++ bs " B")) /\
  (1024 <= n -> exists u c t, units !! u = Some c /\ humanBytes n = Ok (point 1 t ++ [x20; c] ++ bs "iB") /\ 10 <= t <= 10239 /\
     let size := 1024 ^ (Z.of_nat u + 1) in 2 * Z.abs (t * size - 10 * n) <= size + 20480).
Proof.
  intros Hn. unfold humanBytes, unit_. split; intros H1; [by rewrite (proj2 (Z.ltb_lt _ _) H1)|]. rewrite (proj2 (Z.ltb_ge _ _) H1).
  destruct (unit_loop_bound n) as (u & Hu & E & HU); [lia|]. unfold unit_ in E. rewrite E.
  assert (forall v : nat, 1024 ^ (Z.of_nat v + 1) = 2 ^ (10 * (Z.of_nat v + 1))) as EU by (intros v; change 1024 with (2 ^ 10); rewrite <- Z.pow_mul_r by lia; done).
  set (d := 10 * (Z.of_nat u + 1)) in *. replace (10 * (Z.of_nat u + 2)) with (d + 10) in HU by lia.
  assert (d <= Z.log2 n < d + 10) as HL by (split; [apply Z.log2_le_pow2|apply Z.log2_lt_pow2]; lia).
  destruct (quotient_shown n) as (m & e & Hm & He & HQ); [lia|]. destruct (HQ d) as [-> HS]; [lia|]. specialize (HS ltac:(lia)).
  destruct (SFleb boundary (S754_finite false m (e - d)) && (u <? 5)%nat) eqn:EB.
  - apply andb_true_iff in EB as [EB%boundary_leb Hu5%Nat.ltb_lt]; [|done]. destruct (units_lookup (S u)) as [c Hc]; [lia|].
    assert (2 ^ d * 1024 = 2 ^ (d + 10)) as E10 by (change 1024 with (2 ^ 10); by rewrite <- Z.pow_add_r by lia).
    assert (2 ^ (d + 10) <= 2 ^ 60) as HD by (apply Z.pow_le_mono_r; lia). unfold u64. rewrite E10, Z.mod_small by lia.
    destruct (HQ (d + 10)) as [-> HS']; [lia|]. specialize (HS' ltac:(lia)). rewrite Hc. cbn [from_opt]. rewrite fixed_1 by lia.
    exists (S u), c, (rne (Z.pos m * 10) (2 ^ (- (e - (d + 10))))). split; [done|]. split; [done|]. rewrite EU. replace (10 * (Z.of_nat (S u) + 1)) with (d + 10) by lia.
    split; [|done]. apply promoted_tenths; [done|lia].
  - destruct (units_lookup u Hu) as [c Hc]. rewrite Hc. cbn [from_opt]. rewrite fixed_1 by lia.
    exists u, c, (rne (Z.pos m * 10) (2 ^ (- (e - d)))). split; [done|]. split; [done|]. split; [|by rewrite EU].
    apply shown_tenths; [done|lia|]. apply andb_false_iff in EB as [EB|Hu5%Nat.ltb_ge]; [right; by rewrite EB|left].
    assert (Z.log2 n < 64) by (apply Z.log2_lt_pow2; lia). lia.
Qed.

Lemma humanBytes_total n : 0 <= n < 2 ^ 64 -> exists s, humanBytes n = Ok s.
Proof.
  intros Hn. unfold humanBytes. destruct (Z.ltb_spec n unit_) as [HL|HL]; [by eexists|]. destruct (unit_loop_bound n) as (u & Hu & -> & _); [unfold unit_ in HL; lia|].
  destruct (SFleb boundary _) eqn:EB; cbn [andb]; [destruct (Nat.ltb_spec u 5) as [H5|H5]|];
    [destruct (units_lookup (S u)) as [c ->]; [lia|]|destruct (units_lookup u Hu) as [c ->]..]; by eexists.
Qed.

(** ** The line *)

Definition hundred : spec_float := S754_finite false 7036874417766400 (-46).
Lemma float64_hundred : float64 100 = hundred.
Proof. vm_compute. reflexivity. Qed.
Lemma normal_hundred : normal 7036874417766400 (-46).
Proof. by vm_compute. Qed.
(** A percentage: zero, or a positive float up to 100. *)
Definition percentage (x : spec_float) : Prop :=
  x = S754_zero false \/ exists m e, x = S754_finite false m e /\ normal m e /\ -300 <= e /\ below m e 7036874417766400 (-46).

Lemma percent_range done total : 0 <= done < 2 ^ 64 -> 0 <= total < 2 ^ 64 ->
  percentage (percent done total) /\ (0 < total <= done -> percent done total = hundred).
Proof.
  intros Hd Ht. unfold percent. rewrite float64_hundred.
  assert (percentage hundred) as HH by (right; do 2 eexists; split; [done|]; split; [apply normal_hundred|split; [lia|by right]]).
  destruct (Z.ltb_spec 0 total) as [HT|HT]; [|split; [done|lia]].
  destruct (float64_normal total) as (m2 & e2 & E2 & N2 & R2); [lia|]. rewrite E2.
  destruct (Z.eq_dec done 0) as [-> |Hz]; [split; [by left|lia]|].
  destruct (float64_normal done) as (m1 & e1 & E1 & N1 & R1); [lia|]. rewrite E1.
  destruct (fdiv_spec m1 e1 m2 e2 N1 N2) as (k & q & Hk & _ & Hq & ->).
  destruct (pack_normal false q (e1 - e2 - 53 + k) Hq) as (m3 & e3 & -> & N3 & C3); [lia|].
  destruct (fmul_spec m3 e3 7036874417766400 (-46) N3 normal_hundred) as (k' & q' & Hk' & HA & Eq' & Hq' & EM); [lia|].
  fold hundred in EM. rewrite EM. destruct (pack_normal false q' (e3 + -46 + k') Hq') as (m4 & e4 & -> & N4 & C4); [lia|].
  assert (0 < total <= done -> below 7036874417766400 (-46) m4 e4) as Hfull.
  { intros Hf. pose proof (float64_mono total done m2 e2 m1 e1 ltac:(lia) ltac:(lia) E2 E1) as HB. assert (-52 <= e3) as H3 by (unfold below in HB; lia).
    unfold below. destruct N3 as [N3 _]. destruct Hk' as [-> | ->]; [|lia]. destruct (Z.eq_dec e3 (-52)) as [-> |]; [|lia].
    assert (7036874417766400 <= q') by (subst q'; apply rne_bounds; lia). lia. }
  destruct (SFltb hundred (S754_finite false m4 e4)) eqn:EL; [split; done|]. apply SFltb_below in EL. split.
  - right. exists m4, e4. repeat split; try done; try apply N4; lia.
  - intros Hf. specialize (Hfull Hf). assert (e4 = -46 /\ Z.pos m4 = 7036874417766400) as [-> Em] by (unfold below in *; lia). by injection Em as ->.
Qed.

Definition cells (f : nat) : bytes := [x5b] ++ concat (replicate f full_block) ++ concat (replicate (16 - f) light_block) ++ [x5d].
Lemma bar_cells out pct f : (f <= 16)%nat ->
  to_int64 out (fmul (fdiv (if SFltb (float64 100) (if SFltb pct (float64 0) then float64 0 else pct) then float64 100 else if SFltb pct (float64 0) then float64 0 else pct) (float64 100)) (float64 16)) = Z.of_nat f ->
  bar out pct 16 = Ok (cells f).
Proof.
  intros Hf E. unfold bar. cbv zeta. rewrite E. clear E. unfold Repeat. rewrite (proj2 (Z.ltb_ge (Z.of_nat f) 0)) by lia. rewrite Nat2Z.id.
  assert (s64 (16 - Z.of_nat f) = 16 - Z.of_nat f) as -> by (apply s64_id; lia).
  cbn [mbind res_bind]. rewrite (proj2 (Z.ltb_ge (16 - Z.of_nat f) 0)) by lia. cbn. do 4 f_equal. replace (Z.to_nat (16 - Z.of_nat f)) with (16 - f)%nat by lia. done.
Qed.
Lemma bar_whole out pct : percentage pct -> exists f, (f <= 16)%nat /\ bar out pct 16 = Ok (cells f) /\ (pct = hundred -> f = 16%nat).
Proof.
  intros [-> |(m & e & -> & N & R & HB)].
  - exists 0%nat. split; [lia|]. split; [vm_compute; reflexivity|done].
  - assert (exists m3 e3, fdiv (S754_finite false m e) hundred = S754_finite false m3 e3 /\ normal m3 e3 /\ -400 <= e3 <= 0 /\ below m3 e3 (2 ^ 52) (-52)) as (m3 & e3 & E3 & N3 & R3 & B3).
    { unfold hundred. destruct (fdiv_spec m e 7036874417766400 (-46) N normal_hundred) as (k & q & Hk & Eq & Hq & ->).
      destruct (pack_normal false q (e - -46 - 53 + k) Hq) as (m3 & e3 & -> & N3 & C3); [unfold below in HB; lia|].
      exists m3, e3. split; [done|]. split; [done|]. unfold below in *. destruct N3 as [N3 _]. split; [lia|].
      destruct Hk as [[-> Hk]|[-> Hk]]; [lia|]. destruct (Z.eq_dec e (-46)) as [-> |]; [|lia].
      assert (Z.pos m = 7036874417766400) as Em by lia. rewrite Em in Eq.
      assert (q = 2 ^ 52) as Eq2 by (rewrite Eq; vm_compute; reflexivity). lia. }
    assert (SFltb (S754_finite false m e) (float64 0) = false) as E0 by reflexivity.
    assert (SFltb (float64 100) (S754_finite false m e) = false) as E1 by (rewrite float64_hundred; by apply SFltb_below).
    pose proof N3 as [M3 _]. assert (0 < 2 ^ (- (e3 + 4))) as HP by (apply Z.pow_pos_nonneg; unfold below in B3; lia).
    assert (0 <= Z.pos m3 / 2 ^ (- (e3 + 4)) <= 16) as HF.
    { split; [apply Z.div_pos; lia|]. apply Z.div_le_upper_bound; [lia|]. destruct B3 as [B3|[-> B3]]; [|change (2 ^ (- (-52 + 4))) with (2 ^ 48); lia].
      assert (2 ^ 49 <= 2 ^ (- (e3 + 4))) by (apply Z.pow_le_mono_r; lia). lia. }
    exists (Z.to_nat (Z.pos m3 / 2 ^ (- (e3 + 4)))). split; [lia|]. split.
    + apply bar_cells; [lia|]. rewrite E0, E1, float64_hundred, E3. change (float64 16) with (float64 (2 ^ 4)). rewrite fmul_pow2 by (done || lia).
      unfold to_int64, trunc. rewrite (proj2 (Z.leb_gt 0 _)) by (unfold below in B3; lia). rewrite (proj2 (Z.leb_le _ _)), (proj2 (Z.ltb_lt _ _)) by lia. cbn [andb]. lia.
    + intros [= -> ->]. vm_compute in E3. injection E3 as <- <-. vm_compute. reflexivity.
Qed.

Lemma percentage_tenths pct : percentage pct -> exists t, 0 <= t <= 1000 /\ fixed 1 pct = point 1 t /\ (pct = hundred -> t = 1000).
Proof.
  intros [-> |(m & e & -> & [N _] & R & HB)]; [exists 0; by vm_compute|]. exists (rne (Z.pos m * 10) (2 ^ (- e))).
  assert (0 < 2 ^ (- e)) as HP by (apply Z.pow_pos_nonneg; unfold below in HB; lia). split; [|split; [apply fixed_1; unfold below in HB; lia|]].
  - split; [apply (rne_bounds _ _ 0); lia|]. destruct HB as [HB|[-> HB]]; [|apply (rne_bounds _ _ 1000); lia].
    assert (2 ^ 47 <= 2 ^ (- e)) by (apply Z.pow_le_mono_r; lia). apply (rne_bounds _ _ 1000); lia.
  - intros [= -> ->]. by vm_compute.
Qed.
Lemma to_uint64_range out x : 0 <= to_uint64 out x < 2 ^ 64.
Proof.
  unfold to_uint64, u64. destruct (trunc x) as [v|]; [|apply Z.mod_pos_bound; lia].
  destruct (Z.leb_spec 0 v), (Z.ltb_spec v (2 ^ 64)); cbn; (apply Z.mod_pos_bound; lia) || lia.
Qed.

(** The calls of the workers, in the order in which the counters were changed. *)
Inductive call := Bytes (n : Z) | File.
Definition play (c : call) (p : option Progress) : option Progress := match c with Bytes n => AddBytes n p | File => FileDone p end.
Definition read_bytes (cs : list call) : Z := foldr (fun c n => match c with Bytes b => b | File => 0 end + n) 0 cs.
Definition files_done (cs : list call) : Z := zlen (List.filter (fun c => match c with File => true | Bytes _ => false end) cs).
Definition counted (c : call) : Prop := match c with Bytes b => 0 <= b | File => True end.
Lemma read_bytes_cons c cs : read_bytes (c :: cs) = match c with Bytes b => b | File => 0 end + read_bytes cs.
Proof. done. Qed.
Lemma files_done_cons c cs : files_done (c :: cs) = match c with Bytes _ => 0 | File => 1 end + files_done cs.
Proof. unfold files_done. destruct c; cbn; rewrite ?zlen_cons; lia. Qed.
Lemma read_bytes_nonneg cs : Forall counted cs -> 0 <= read_bytes cs.
Proof. induction 1 as [|[b|] cs Hc HF IH]; [done|..]; rewrite read_bytes_cons; cbn in Hc; lia. Qed.
Lemma play_counts cs p : Forall counted cs -> 0 <= bytesDone p -> 0 <= filesDone p -> bytesDone p + read_bytes cs < 2 ^ 64 -> filesDone p + files_done cs < 2 ^ 64 ->
  foldl (fun p c => play c p) (Some p) cs = Some (MkProgress (totalFiles p) (totalBytes p) (bytesDone p + read_bytes cs) (filesDone p + files_done cs)).
Proof.
  intros HF. revert p. induction HF as [|c cs Hc HF IH]; intros p H0 H1 H2 H3; cbn [foldl].
  - change (read_bytes []) with 0. change (files_done []) with 0. rewrite !Z.add_0_r. by destruct p.
  - pose proof (read_bytes_nonneg cs HF) as HR. pose proof (zlen_nonneg (List.filter (fun c => match c with File => true | Bytes _ => false end) cs)) as HL. fold (files_done cs) in HL.
    rewrite read_bytes_cons, files_done_cons in *. destruct c as [b|]; cbn [play AddBytes FileDone]; cbn in Hc.
    + assert (u64 (bytesDone p + u64 b) = bytesDone p + b) as -> by (unfold u64; rewrite (Z.mod_small b), Z.mod_small by lia; done).
      rewrite IH by (cbn; lia). cbn. do 2 f_equal; lia.
    + assert (u64 (filesDone p + 1) = filesDone p + 1) as -> by (unfold u64; rewrite Z.mod_small by lia; done).
      rewrite IH by (cbn; lia). cbn. do 2 f_equal; lia.
Qed.

(** C38. The progress line never lies about being done and never panics: whatever was read, in
    any number of calls, and whatever the clock says, [render] returns a line with the bytes
    and files counted, a percentage from 0.0 to 100.0 and a bar of sixteen cells; once all of
    the total is read it shows 100.0, the full bar and the finalizing suffix. *)
Theorem progress_line_sound out cs files total elapsed :
  Forall counted cs -> read_bytes cs < 2 ^ 64 -> files_done cs < 2 ^ 64 -> 0 <= total < 2 ^ 63 ->
  exists p, foldl (fun p c => play c p) (Some (NewProgress files total)) cs = Some p /\
  exists t f read_ total_ rate_ eta_ tail, 0 <= t <= 1000 /\ (f <= 16)%nat /\
    humanBytes (read_bytes cs) = Ok read_ /\ humanBytes total = Ok total_ /\
    render out p elapsed = Ok (bs "ingest " ++ pad 5 (point 1 t) ++ bs "% " ++ cells f ++ bs "  " ++ read_ ++ bs "/" ++ total_ ++ bs "  " ++ rate_ ++ bs "/s  elapsed " ++
      fmtDuration elapsed ++ bs "  eta " ++ eta_ ++ bs "  files " ++ decimal (files_done cs) ++ bs "/" ++ signed files ++ tail) /\
    (0 < total <= read_bytes cs -> t = 1000 /\ f = 16%nat /\ eta_ = bs "--:--" /\ tail = bs "  finalizing" ++ ellipsis).
Proof.
  intros HF HR HC Ht. rewrite (play_counts cs (NewProgress files total)) by (done || cbn; lia). eexists; split; [done|]. cbn [totalFiles totalBytes bytesDone filesDone NewProgress].
  pose proof (read_bytes_nonneg cs HF) as H0. rewrite !Z.add_0_l.
  destruct (percent_range (read_bytes cs) total) as [HP HH]; [lia..|].
  destruct (percentage_tenths _ HP) as (t & Bt & Et & Ht1). destruct (bar_whole out _ HP) as (f & Bf & Ef & Hf1).
  destruct (humanBytes_total (read_bytes cs)) as [hd Ehd]; [lia|]. destruct (humanBytes_total total) as [ht Eht]; [lia|].
  unfold render. cbn [totalFiles totalBytes bytesDone filesDone]. assert (u64 total = total) as -> by (unfold u64; rewrite Z.mod_small; lia).
  destruct (humanBytes_total (to_uint64 out (mean_rate (read_bytes cs) elapsed))) as [hr Ehr]; [apply to_uint64_range|].
  rewrite Ef, Ehd, Eht, Ehr, Et. cbn [mbind res_bind].
  do 7 eexists. split; [exact Bt|]. split; [exact Bf|]. split; [done|]. split; [done|]. split; [done|].
  intros HT. split; [by apply Ht1, HH|]. split; [by apply Hf1, HH|]. unfold eta.
  rewrite (proj2 (Z.ltb_lt 0 total)), (proj2 (Z.leb_le total (read_bytes cs))), (proj2 (Z.ltb_ge (read_bytes cs) total)) by lia. by rewrite andb_false_r.
Qed.

(** A duration is shown as hours, minutes and seconds, minutes and seconds below 60 on two
    digits, and adds up to the duration rounded to a whole second; a negative one is shown as
    zero, and in the last second before the largest duration the time is cut off instead. *)
Theorem fmt_duration_reads d : - 2 ^ 63 <= d < 2 ^ 63 -> exists h m s, 0 <= h /\ 0 <= m < 60 /\ 0 <= s < 60 /\
  fmtDuration d = (if 0 <? h then decimal h ++ [colon] ++ zpad 2 (decimal m) ++ [colon] ++ zpad 2 (decimal s) else decimal m ++ [colon] ++ zpad 2 (decimal s)) /\
  let shown := (h * 3600 + m * 60 + s) * Second in
  2 * Z.abs (shown - Z.max 0 d) <= Second \/ maxDuration - Second < d /\ shown <= d < shown + Second.
Proof.
  intros Hd. unfold fmtDuration, round_up_half. assert ((if d <? 0 then 0 else d) = Z.max 0 d) as -> by (destruct (Z.ltb_spec d 0); lia).
  set (x := Z.max 0 d) in *. pose proof (Z.quot_rem' x Second) as EQ. pose proof (Z.rem_bound_pos x Second ltac:(lia) eq_refl) as HR.
  set (v := if Z.rem x Second + Z.rem x Second <? Second then _ else _).
  assert (0 <= v <= maxDuration /\ (2 * Z.abs (v - x) <= Second /\ (exists q, v = q * Second) \/ v = maxDuration /\ 9223372036 * Second <= d)) as [Hv HX].
  { unfold v, maxDuration, s64 in *. unfold Second in *. destruct (Z.ltb_spec (Z.rem x (10 ^ 9) + Z.rem x (10 ^ 9)) (10 ^ 9)) as [HL|HL].
    - split; [lia|]. left. split; [lia|]. exists (Z.quot x (10 ^ 9)). lia.
    - destruct (Z.lt_ge_cases (x + 10 ^ 9 - Z.rem x (10 ^ 9)) (2 ^ 63)) as [H63|H63].
      + rewrite Z.mod_small by lia. rewrite (proj2 (Z.ltb_lt _ _)) by lia. split; [lia|]. left. split; [lia|]. exists (Z.quot x (10 ^ 9) + 1). lia.
      + replace ((x + 10 ^ 9 - Z.rem x (10 ^ 9) + 2 ^ 63) mod 2 ^ 64) with (x + 10 ^ 9 - Z.rem x (10 ^ 9) + 2 ^ 63 - 2 ^ 64) by (apply (Z.mod_unique_pos _ _ 1); lia).
        rewrite (proj2 (Z.ltb_ge _ _)) by lia. split; [lia|]. right. lia. }
  clearbody v. set (h := Z.quot v Hour). set (v1 := v - h * Hour). set (m := Z.quot v1 Minute). set (v2 := v1 - m * Minute). set (s := Z.quot v2 Second).
  pose proof (Z.quot_rem' v Hour) as E1. pose proof (Z.rem_bound_pos v Hour ltac:(lia) eq_refl) as R1.
  pose proof (Z.quot_rem' v1 Minute) as E2. pose proof (Z.rem_bound_pos v1 Minute ltac:(lia) eq_refl) as R2.
  pose proof (Z.quot_rem' v2 Second) as E3. pose proof (Z.rem_bound_pos v2 Second ltac:(lia) eq_refl) as R3.
  assert (v = (h * 3600 + m * 60 + s) * Second + Z.rem v2 Second) as EV by (unfold v2, v1, Hour, Minute in *; lia).
  exists h, m, s. unfold Hour, Minute, Second, maxDuration in *. split; [lia|]. split; [lia|]. split; [lia|]. split; [done|]. cbv zeta.
  destruct HX as [[HX [q Eq]]|[-> HX]]; [left; assert (Z.rem v2 (10 ^ 9) = 0) by lia; lia|].
  right. lia.
Qed.

(** The multiplication by a second wraps: 16 seconds short of five centuries before the end,
    the time left is shown as nothing. *)
Lemma eta_wraps : eta (fun _ => 0) 1 (10 ^ 11) (mean_rate 1 (150 * 10 ^ 6)) = bs "0:00".
Proof. vm_compute. reflexivity. Qed.

Example human_bytes_cases :
  humanBytes 0 = Ok (bs "0 B") /\ humanBytes 512 = Ok (bs "512 B") /\ humanBytes 1024 = Ok (bs "1.0 KiB") /\ humanBytes 1536 = Ok (bs "1.5 KiB") /\
  humanBytes (2 ^ 20) = Ok (bs "1.0 MiB") /\ humanBytes 1048575 = Ok (bs "1.0 MiB") /\ humanBytes (2 ^ 64 - 1) = Ok (bs "16.0 EiB").
Proof. repeat split; vm_compute; reflexivity. Qed.

Example progress_line :
  let p := AddBytes 500 (Some (MkProgress 10 1000 0 5)) in
  match p with Some p => render (fun _ => 0) p (10 * Second) | None => Err [] end =
  Ok (bs "ingest  50.0% [" ++ concat (replicate 8 full_block ++ replicate 8 light_block) ++ bs "]  500 B/1000 B  50 B/s  elapsed 0:10  eta 0:10  files 5/10").
Proof. vm_compute. reflexivity. Qed.

Lemma human_bytes_scaled_witness : humanBytes 512 = Ok (decimal 512 ++ bs " B") /\
  exists u c t, units !! u = Some c /\ humanBytes 1048575 = Ok (point 1 t ++ [x20; c] ++ bs "iB") /\ 10 <= t <= 10239.
Proof.
  split.
  - apply (proj1 (human_bytes_scaled 512 ltac:(lia))). lia.
  - destruct (proj2 (human_bytes_scaled 1048575 ltac:(lia)) ltac:(lia)) as (u & c & t & Hu & E & Ht & _). exists u, c, t. split; [exact Hu|split; [exact E|exact Ht]].
Defined.
Lemma progress_line_sound_witness : exists p line, foldl (fun p c => play c p) (Some (NewProgress 2 1000)) [Bytes 600; File; Bytes 400; File] = Some p /\
  render (fun _ => 0) p (10 * Second) = Ok line /\ exists front, line = front ++ bs "  finalizing" ++ ellipsis.
Proof.
  destruct (progress_line_sound (fun _ => 0) [Bytes 600; File; Bytes 400; File] 2 1000 (10 * Second) ltac:(by repeat constructor) ltac:(by vm_compute) ltac:(by vm_compute) ltac:(lia))
    as (p & E & t & f & rd & tt & rt & et & tl & _ & _ & _ & _ & ER & HD).
  destruct (HD ltac:(vm_compute; split; [reflexivity|discriminate])) as (_ & _ & _ & ->). exists p. eexists. split; [exact E|]. split; [exact ER|]. eexists. rewrite !app_assoc. reflexivity.
Defined.
Lemma fmt_duration_reads_witness : exists h m s, fmtDuration (3725 * Second + 1) = decimal h ++ [colon] ++ zpad 2 (decimal m) ++ [colon] ++ zpad 2 (decimal s) /\ h = 1 /\ m = 2 /\ s = 5.
Proof.
  destruct (fmt_duration_reads (3725 * Second + 1)) as (h & m & s & Hh & Hm & Hs & E & HD); [unfold Second; lia|].
  assert (h = 1 /\ m = 2 /\ s = 5) as (-> & -> & ->) by (unfold maxDuration, Second in HD; cbv zeta in HD; lia).
  exists 1, 2, 5. split; [exact E|repeat split].
Defined.
