(* ===== verification/Session.v ===== *)
(** The commands as whole processes (src/cmd/amber-store/store.go, ingest.go, ref.go, gc.go):
    opening and closing the stores of a directory, every command between the two, and what a
    backup survives when only commands touch the directory. *)
From Stdlib Require Import Floats.SpecFloat.
From S2P Require Import Hostfs TarExtract Restore Prelude External Concrete Chunker Key Cborx Crc32 Record Pack Objects Readers Builder Trees Walk Amberignore Ingest Mirror Parallel Footer Disk Scan Store StoreInv StoreSpec Reopen Frame Provenance ParWrite Reference Refstore Marks Compact Sweep Segments Collector Restart Barrier Marking Runs Filepath Tar TarExport Backup IngestDir Cli Survival Durable Float Progress.

(** ** pebble.Open and DB.Close *)

Class PebbleFiles `{Pebble} := { db_open : M DB unit; db_close : M DB unit }.
(** Opening and closing keep what the database holds. *)
Class PebbleFilesOk `{PebbleOk} `{!PebbleFiles} := {
    open_contents db r db' : db_open db = (r, db') -> contents db' = contents db;
    close_contents db r db' : db_close db = (r, db') -> contents db' = contents db;
    open_healthy db : healthy db -> is_ok (fst (db_open db)) = true /\ healthy (snd (db_open db));
    close_healthy db : healthy db -> is_ok (fst (db_close db)) = true
  }.

(** * The stores of a directory *)

(** [errors.Join] of two errors is both. *)
Definition Join (r1 r2 : res unit) : res unit :=
  match r1, r2 with
  | Ok _, _ => r2
  | Err e, Ok _ => Err e
  | Err e1, Err e2 => Err (e1 ++ e2)
  end.

Section Stores.
Context `{Fuse} `{PebbleFiles}.

(** refstore.go: Open and Close. *)
Definition RefOpen (sync : bool) : M DB RefStore := fun db =>
  let '(r, db) := db_open db in (_ ← wrap (EMsg "refstore: opening pebble") r; Ok (MkRefStore db sync), db).
Definition RefClose : M RefStore unit := on_db (fun _ => db_close).

(** The packstore and refs directories between processes. *)
Record Home := MkHome { ho_disk : Disk; ho_db : DB }.
Definition leave (w : Stores) : Home := MkHome (st_disk (c_objects w)) (rs_db (c_refs w)).

(** store.go; [dir] and [segment] are the flags of the command line. *)
Definition openStore (dir : bytes) (segment : Z) : M Home Stores := fun h =>
  if bool_decide (dir = []) then (Err [EMsg "no store directory: set --store or $AMBER_STORE"], h)
  else
  match Open (MkConfig segment true) (ho_disk h) with
  | (Err e, s) => (Err e, MkHome (st_disk s) (ho_db h))
  | (Ok _, s) =>
    match RefOpen true (ho_db h) with
    | (Err e, db) => (Err e, MkHome (st_disk (snd (Store.Close s))) db)
    | (Ok refs, db) => (Ok (MkStores s refs), leave (MkStores s refs))
    end
  end.
Definition closeStore : M Stores unit := fun w =>
  let '(r1, refs) := RefClose (c_refs w) in
  let '(r2, s) := Store.Close (c_objects w) in
  (Join r1 r2, MkStores s refs).

(** What a command makes of the error of [closeStore]: a deferred call drops it, ingest returns
    it when nothing else failed, a reference update joins it. *)
Definition deferred {A} (r : res A) (c : res unit) : res A := r.
Definition checked {A} (r : res A) (c : res unit) : res A := x ← r; _ ← c; Ok x.
Definition joined (r : res unit) (c : res unit) : res unit := Join r c.
(** A command around its work on the open stores; [setup] is what opening the collector's
    directory answered, where the command does that first. The collector's own Close has
    nothing to wait for in a process that ran no cycle in the background. *)
Definition in_store {A} (dir : bytes) (segment : Z) (setup : res unit) (policy : res A -> res unit -> res A) (body : M Stores A) : M Home A := fun h =>
  match openStore dir segment h with
  | (Err e, h) => (Err e, h)
  | (Ok w, _) =>
    match setup with
    | Err e => (Err e, leave (snd (closeStore w)))
    | Ok _ =>
      let '(r, w) := body w in
      let '(c, w) := closeStore w in
      (policy r c, leave w)
    end
  end.
End Stores.

(** * The commands *)

Definition one_arg (what : string) (args : list bytes) : res bytes :=
  match args with [a] => Ok a | _ => Err [EMsg what] end.

Section Commands.
Context `{Blake3, Zstd, Fuse} `{Cbor (list bytes), Cbor (list DirPair), Cbor (list Entry), Cbor Reference} `{Errgroup} `{PebbleFiles}.
Context (gomaxprocs : nat) (dir : bytes) (segment : Z).

(** ** ingest *)

Record ingestConfig := MkIngestConfig { ic_chunk : chunkConfig; ic_ref : bytes; ic_jobs : Z; ic_noIgnore : bool; ic_noProgress : bool }.
(** The totals the display is sized by; [info] is whether PATH is a directory, and its size. *)
Definition sized (noProgress : bool) (info : bool * Z) (scan : res (Z * Z)) : res (option Progress) :=
  if noProgress then Ok None
  else '(files, bytes) ← (if fst info then scan else Ok (1, snd info)); Ok (Some (NewProgress files bytes)).
Definition ingest_opts (cfg : ingestConfig) (chunk : option (Z * Z * Z) * Z * Z) : Opts :=
  MkOpts (ic_jobs cfg) chunk.1.2 chunk.2 (ic_noIgnore cfg).
Definition wrapped {S A} (t : etag) (m : M S A) : M S A := fun s => let '(r, s') := m s in (wrap t r, s').
(** [coll] is gc.Open's answer. *)
Definition ingest_body (opts : Opts) (ref : bytes) (now : Z) (coll : res unit) (fuel : nat) (sched : list pchoice) (out : res Key * list Object) : M Stores Key :=
  root ← on_objects (fun s => let '(r, _, s) := Dir gomaxprocs opts sched out s in (r, s));
  _ ← (if bool_decide (ref = []) then mret tt
       else
         wrapped (EMsg "tree stored but creating reference failed")
           (raw ← lift (Encode (new_record ref root now));
            _ ← lift coll;
            putRef fuel ref root raw));
  mret root.
(** [out] is what the walk of PATH does with the options, [scan] what the pre-scan returns. *)
Definition ingest_command (cfg : ingestConfig) (args : list bytes) (info : res (bool * Z)) (scan : res (Z * Z)) (coll : res unit) (now : Z) (fuel : nat)
    (sched : list pchoice) (out : Opts -> res Key * list Object) : M Home bytes :=
  _ ← lift (one_arg "ingest requires exactly one PATH argument" args);
  _ ← lift (if bool_decide (ic_ref cfg = []) then Ok tt else ValidateName (ic_ref cfg));
  chunk ← lift (chunkOpts (ic_chunk cfg));
  info ← lift (wrap (EMsg "PATH argument") info);
  _ ← lift (sized (ic_noProgress cfg) info scan);
  let opts := ingest_opts cfg chunk in
  root ← in_store dir segment (Ok tt) checked (ingest_body opts (ic_ref cfg) now coll fuel sched (out opts));
  mret (String_ root ++ [x0a]).

(** ** ref *)

Definition ref_set_command (args : list bytes) (coll : res unit) (now : Z) (fuel : nat) : M Home unit :=
  match args with
  | [name; keyArg] =>
    k ← lift (parseHexKey keyArg);
    raw ← lift (Encode (new_record name k now));
    in_store dir segment coll joined (putRef fuel name k raw)
  | _ => fail [EMsg "ref set requires NAME KEY arguments"]
  end.
Definition ref_rm_command (args : list bytes) (coll : res unit) : M Home unit :=
  name ← lift (one_arg "ref rm requires exactly one NAME argument" args);
  in_store dir segment coll joined (rmRef name).
Definition ref_get_command (args : list bytes) : M Home bytes :=
  name ← lift (one_arg "ref get requires exactly one NAME argument" args);
  in_store dir segment (Ok tt) deferred (runRefGet name).
Definition ref_list_command (args : list bytes) (format : Z -> bytes) : M Home (list bytes) :=
  match args with
  | [] => in_store dir segment (Ok tt) deferred (runRefList format)
  | _ => fail [EMsg "ref list takes no arguments"]
  end.

(** ** gc *)

Context (env : SweepEnv) (show_time show_duration : Z -> bytes).
Definition rpad (w : nat) (s : bytes) : bytes := s ++ replicate (w - length s) x20.
Definition show_bool (b : bool) : bytes := if b then bs "true" else bs "false".
Definition newline : bytes := [x0a].

Definition status_head : bytes :=
  rpad 16 (bs "PACK") ++ bs "  " ++ rpad 20 (bs "SEALED") ++ bs "  " ++ pad 10 (bs "BYTES") ++ bs "  " ++ pad 7 (bs "GARBAGE") ++ bs "  " ++ bs "ELIGIBLE" ++ newline.
Definition status_row (p : PackStatus) : res bytes :=
  b ← humanBytes (u64 (Body p));
  Ok (hexEncode (be_put 8 (ps_ID p)) ++ bs "  " ++ rpad 20 (show_time (ps_Sealed p)) ++ bs "  " ++ pad 10 b ++ bs "  " ++
      pad 6 (fixed 1 (fmul (float64 100) (ps_Garbage p))) ++ bs "%  " ++ show_bool (Eligible p) ++ newline).
Definition status_totals (st : GcStatus) : res bytes :=
  l ← humanBytes (u64 (st_LiveBytes st));
  g ← humanBytes (u64 (Z.max (GarbageBytes st) 0));
  Ok (bs "live " ++ l ++ bs ", garbage " ++ g ++ bs "; " ++ decimal (Refs st) ++ bs " refs, " ++ decimal (st_Marked st) ++ bs " live objects marked" ++ newline).
(** A collector that was just opened has run no cycle. *)
Definition runGCStatus (now zero : Z) (ctx : nat -> option error) (fuel : nat) : M Stores (list bytes) :=
  st ← Status (se_modTime env) now zero (withDefaults (Z.of_nat gomaxprocs) (MkOptions 0 (float64 0) 0 0 0 0)) ctx fuel;
  lift (rows ← mapM status_row (Packs st); totals ← status_totals st; Ok ([status_head] ++ rows ++ [totals])).
Definition gc_status_command (coll : res unit) (now zero : Z) (ctx : nat -> option error) (fuel : nat) : M Home (list bytes) :=
  in_store dir segment coll deferred (runGCStatus now zero ctx fuel).

Record gcRunConfig := MkGcRunConfig { gr_garbage : spec_float; gr_grace : Z; gr_rate : Z; gr_minFree : Z }.
Definition run_options (cfg : gcRunConfig) : Options :=
  withDefaults (Z.of_nat gomaxprocs) (MkOptions (gr_grace cfg) (float64 0) (gr_minFree cfg) (gr_rate cfg) 0 0).
(** The durations that the clock measured: the whole cycle, the mark, the sweep. *)
Definition run_line (st : CycleStats) (times : Z * Z * Z) : res bytes :=
  let '(whole, mark, sweep) := times in
  c ← humanBytes (u64 (CopiedBytes st));
  f ← humanBytes (u64 (Z.max (FreedBytes st) 0));
  Ok (decimal (Scored st) ++ bs " packs scored, " ++ decimal (zlen (Reaped st)) ++ bs " reaped, " ++ decimal (CopiedRecords st) ++ bs " records (" ++ c ++ bs ") copied, " ++
      f ++ bs " freed in " ++ show_duration whole ++ bs " (mark " ++ show_duration mark ++ bs ", sweep " ++ show_duration sweep ++ bs "; " ++ decimal (cs_Marked st) ++ bs " objects marked)" ++ newline).
(** [low] is what freeBelow answers for the collector's directory. *)
Definition runGCRun (cfg : gcRunConfig) (now : Z) (low : bool) (ctx : nat -> option error) (ctx_end : option error) (fuel : nat) (times : Z * Z * Z) : M Stores bytes := fun w =>
  let '(r, st, w) := cycle env (run_options cfg) now (gr_garbage cfg) low ctx ctx_end fuel w in
  (_ ← r; run_line st times, w).
Definition gc_run_command (cfg : gcRunConfig) (coll : res unit) (now : Z) (low : bool) (ctx : nat -> option error) (ctx_end : option error) (fuel : nat) (times : Z * Z * Z) : M Home bytes :=
  in_store dir segment coll deferred (runGCRun cfg now low ctx ctx_end fuel times).

Definition runGCWhy (fuel : nat) (k : Key) : M Stores (list bytes) :=
  names ← Why fuel k;
  mret (match names with [] => [bs "unreferenced" ++ newline] | _ => map (fun n => n ++ newline) names end).
Definition gc_why_command (args : list bytes) (coll : res unit) (fuel : nat) : M Home (list bytes) :=
  arg ← lift (one_arg "gc why requires exactly one KEY argument" args);
  k ← lift (parseHexKey arg);
  in_store dir segment coll deferred (runGCWhy fuel k).

(** ** ls, export, restore *)

Context (encodable : Header -> res unit) (tar_reader : res unit * TarWriter -> list (res Member)).
Definition ls_command (args : list bytes) (fuel pages : nat) : M Home (list Entry) :=
  spec ← lift (one_arg "ls requires exactly one KEY[/PATH] argument" args);
  in_store dir segment (Ok tt) deferred (runLs fuel pages spec).
Definition restore_command (args : list bytes) (fuel : nat) (f : Hostfs.FS) : M Home (res unit * Hostfs.FS) :=
  match args with
  | [spec; dest] => in_store dir segment (Ok tt) deferred (runRestore encodable tar_reader fuel spec dest f)
  | _ => fail [EMsg "restore requires KEY[/PATH] and DEST arguments"]
  end.
End Commands.

(** * Commands that only read *)

Section Readers.
Context `{Blake3, Zstd, Fuse} `{Cbor (list bytes), Cbor (list DirPair), Cbor (list Entry), Cbor Reference} `{Errgroup} `{PebbleOk}.

Definition reader {A} (body : M Stores A) : Prop := forall w r w', body w = (r, w') -> reading (c_objects w) (c_objects w') /\ refs_of w' = refs_of w.
Lemma reader_bind {A B} (m : M Stores A) (f : A -> M Stores B) : reader m -> (forall x, reader (f x)) -> reader (m ≫= f).
Proof.
  intros Hm Hf w r w' E. unfold mbind, M_bind in E. destruct (m w) as [r1 w1] eqn:E1. destruct (Hm _ _ _ E1) as [R1 F1].
  destruct r1 as [x|e]; [|by injection E as _ <-]. destruct (Hf x _ _ _ E) as [R2 F2]. split; [by eapply reading_trans|congruence].
Qed.
Lemma reader_pure {A} (m : M Stores A) : (forall w, snd (m w) = w) -> reader m.
Proof. intros Hm w r w' E. specialize (Hm w). rewrite E in Hm. cbn in Hm. subst w'. split; [apply reading_refl|done]. Qed.
Lemma reader_refs {A} (m : M RefStore A) : (forall s r s', m s = (r, s') -> refs s' = refs s) -> reader (on_refs m).
Proof.
  intros Hm w r w' E. unfold on_refs in E. destruct (m (c_refs w)) as [r1 s1] eqn:E1. injection E as _ <-. split; [apply reading_refl|].
  by apply Hm in E1.
Qed.
Lemma reader_objects {A} (m : M Store A) : (forall s r s', m s = (r, s') -> reading s s') -> reader (on_objects m).
Proof. intros Hm w r w' E. unfold on_objects in E. destruct (m (c_objects w)) as [r1 s1] eqn:E1. injection E as _ <-. split; [by apply Hm in E1|done]. Qed.
Lemma reader_reads {A} (f : Store -> res A) : reader (on_objects (reads f)).
Proof. apply reader_objects. intros s r s' [= _ <-]. apply reading_refl. Qed.

Lemma resolveSpec_refs spec s r s' : resolveSpec spec s = (r, s') -> refs s' = refs s.
Proof.
  unfold resolveSpec. destruct (negb _); [by intros [= _ <-]|]. destruct (cut _ _) as [name path]. rewrite M_lift. destruct (wrap _ _); [|by intros [= _ <-]].
  unfold mbind, M_bind. destruct (Refstore.Get name s) as [r1 s1] eqn:E1. apply Get_out in E1 as [ER _].
  destruct r1; [|intros [= _ <-]; done]. unfold lift. destruct (record_key _ _ _); intros [= _ <-]; done.
Qed.
Lemma All_reader : reader (on_refs All).
Proof. apply reader_refs. intros s r s' E. by apply All_out in E as [? _]. Qed.
Lemma spec_dir_reader fuel spec : reader (spec_dir fuel spec).
Proof.
  apply reader_bind; [apply reader_refs; intros s r s'; apply resolveSpec_refs|]. intros [k path]. apply reader_bind; [by apply reader_pure|]. intros s. by apply reader_pure.
Qed.
Lemma runLs_reader fuel pages spec : reader (runLs fuel pages spec).
Proof. apply reader_bind; [apply spec_dir_reader|]. intros k. apply reader_bind; [by apply reader_pure|]. intros s. by apply reader_pure. Qed.
Lemma runRestore_reader encodable tar_reader fuel spec dest f : reader (runRestore encodable tar_reader fuel spec dest f).
Proof.
  apply reader_bind; [|intros; by apply reader_pure]. apply reader_bind; [apply spec_dir_reader|]. intros k. apply reader_bind; [by apply reader_pure|]. intros s. by apply reader_pure.
Qed.
Lemma runRefGet_reader name : reader (runRefGet name).
Proof. apply reader_bind; [apply reader_refs; intros s r s'; apply resolveSpec_refs|]. intros [k path]. by apply reader_pure. Qed.
Lemma runRefList_reader format : reader (runRefList format).
Proof. apply reader_bind; [apply All_reader|]. intros. by apply reader_pure. Qed.

Lemma reaches_loop_reading fuel k visited stack s r s' : reaches_loop fuel k visited stack s = (r, s') -> reading s s'.
Proof.
  revert visited stack s. induction fuel as [|fuel IH]; intros visited [|cur stack] s E; cbn [reaches_loop] in E; try (injection E as _ <-; apply reading_refl).
  repeat case_match; try (injection E as _ <-; apply reading_refl); try by eapply IH.
  unfold mbind at 1, M_bind at 1 in E. destruct (Store.Get cur s) as [r1 s1] eqn:EG. apply Get_reading in EG. destruct r1 as [data|e]; [|by injection E as _ <-].
  rewrite M_lift in E. destruct (ChildKeys cur data); [|by injection E as _ <-]. eapply reading_trans; [exact EG|by eapply IH].
Qed.
Lemma why_loop_reading fuel k recs s r s' : why_loop fuel k recs s = (r, s') -> reading s s'.
Proof.
  revert s r s'. induction recs as [|rec recs IH]; intros s r s' E; cbn [why_loop] in E; [injection E as _ <-; apply reading_refl|].
  rewrite M_lift in E. destruct (root_of rec) as [root|]; [|injection E as _ <-; apply reading_refl].
  unfold mbind at 1, M_bind at 1 in E. destruct (reaches fuel root k s) as [r1 s1] eqn:E1. apply reaches_loop_reading in E1. destruct r1; [|by injection E as _ <-].
  unfold mbind, M_bind in E. destruct (why_loop fuel k recs s1) as [r2 s2] eqn:E2. apply IH in E2.
  destruct r2; injection E as _ <-; by eapply reading_trans.
Qed.
Lemma runGCWhy_reader fuel k : reader (runGCWhy fuel k).
Proof.
  apply reader_bind; [|intros; by apply reader_pure]. apply reader_bind; [apply All_reader|]. intros recs.
  apply reader_bind; [apply reader_objects; intros s r s'; apply why_loop_reading|]. intros. by apply reader_pure.
Qed.
Lemma runGCStatus_reader gomaxprocs env show_time now zero ctx fuel : reader (runGCStatus gomaxprocs env show_time now zero ctx fuel).
Proof.
  apply reader_bind; [|intros; by apply reader_pure]. apply reader_bind; [apply All_reader|]. intros recs.
  apply reader_bind; [apply reader_bind; [apply All_reader|]; intros; by apply reader_pure|]. intros rs.
  apply reader_bind; [|intros live; repeat (apply reader_bind; [apply reader_reads|intros ?]); by apply reader_pure].
  apply reader_objects. intros s r s' E. unfold markLive in E. rewrite M_gets in E. by eapply mark_roots_reading.
Qed.
End Readers.

(** * What a command leaves in the directory *)

Section Sessions.
Context `{Blake3} `{HZs : ZstdOk} `{HFu : FuseOk} `{HC1 : Cbor (list bytes)} `{HC2 : Cbor (list Entry)} `{HC3 : Cbor (list DirPair)}
  `{HC4 : Cbor Reference} `{HEg : ErrgroupOk} `{HPf : PebbleFilesOk} `{!CborOk Reference reference_wf}.
Context (obj : Key -> bytes).

Definition names_of (h : Home) : gmap bytes bytes := contents (ho_db h).
(** What some process left of lasting stores, whether it closed them or not. *)
Definition resting (h : Home) : Prop :=
  exists w, lasting obj w /\ restart (st_disk (c_objects w)) (faultless (ho_disk h)) /\ names_of h = refs_of w.

Lemma resting_again h h' : resting h -> restart (faultless (ho_disk h)) (faultless (ho_disk h')) -> names_of h' = names_of h -> resting h'.
Proof. intros (w & L & RT & EN) RT' EN'. exists w. split; [done|]. split; [by eapply restart_trans|congruence]. Qed.

Lemma openStore_lasting dir segment h w h1 : segment <= SEG_MAX -> resting h -> openStore dir segment h = (Ok w, h1) ->
  lasting obj w /\ refs_of w = names_of h.
Proof.
  intros Hseg (w0 & L & RT & EN) E. unfold openStore in E. case_bool_decide; [done|].
  destruct (Open _ (ho_disk h)) as [[[]|e] s] eqn:EO; [|done]. unfold RefOpen in E. destruct (db_open (ho_db h)) as [r db] eqn:ED.
  destruct r as [[]|e]; [|done]. injection E as <- _. apply open_contents in ED.
  assert (refs (MkRefStore db true) = refs_of w0) as ER by (unfold refs; cbn [rs_db]; rewrite ED; exact EN).
  split; [|unfold refs_of; cbn [c_refs]; by rewrite ER]. by apply (opened_lasting obj w0 (MkConfig segment true) (ho_disk h)).
Qed.

(** Closing: the disk is what a process that ends leaves, whether the calls succeed or not. *)
Definition settles {A} (m : M Store A) : Prop := forall s, restart (st_disk s) (faultless (st_disk (snd (m s)))).
Lemma each_first_settles l : Forall settles l -> settles (each_first l).
Proof.
  induction 1 as [|m l Hm F IH]; intros s; [apply restart_refl|]. cbn [each_first]. specialize (Hm s). destruct (m s) as [r s1]. cbn [snd] in Hm.
  specialize (IH s1). destruct (each_first l s1) as [r' s2]. cbn [snd] in *. eapply restart_trans; [exact Hm|].
  destruct IH as [(F2 & N2 & C2) I2 S2]. split; [split; [done|split; [done|exact C2]]|exact I2|exact S2].
Qed.
Lemma io_settles {A} (m : M Disk A) : (forall d, restart d (faultless (snd (m d)))) -> settles (io m).
Proof. intros Hm s. unfold io. specialize (Hm (st_disk s)). by destruct (m (st_disk s)). Qed.
Lemma modify_settles f : (forall s, st_disk (f s) = st_disk s) -> settles (modify f).
Proof. intros Hf s. cbn. rewrite Hf. apply restart_refl. Qed.
Lemma CloseFd_settles : settles (io CloseFd).
Proof. apply io_settles. intros d. destruct (CloseFd d) as [r d'] eqn:E. apply CloseFd_out in E as (fs & ->). exact (restart_refl d). Qed.
Lemma do_sync_id d i b : durable d i b -> do_sync i d = d.
Proof.
  intros Hd. unfold do_sync, set_file, file_of. rewrite Hd. cbn. rewrite insert_id by done. by destruct d.
Qed.
Lemma Sync_restart d i b : durable d i b -> restart d (faultless (snd (Disk.Sync i d))).
Proof.
  intros Hd. destruct (Disk.Sync i d) as [r d'] eqn:E. apply Sync_out in E as (fs & [[_ ->]|[_ ->]]); cbn [snd]; [|exact (restart_refl d)].
  rewrite (do_sync_id (set_faults fs d) i b Hd). exact (restart_refl d).
Qed.
Lemma Close_restart s : all_synced s -> restart (st_disk s) (faultless (st_disk (snd (Store.Close s)))).
Proof.
  intros Sy. unfold Store.Close. rewrite M_gets. cbn [id]. destruct (closed s); [apply restart_refl|]. rewrite M_modify.
  assert (forall l : list sealedSegment, Forall settles (map (fun _ => io CloseFd) l ++ [modify (set_sealed []); io CloseFd])) as HF.
  { intros l. apply Forall_app. split; [|constructor; [by apply modify_settles|constructor; [apply CloseFd_settles|constructor]]].
    apply list.Forall_forall. intros m (g & -> & _)%list_elem_of_fmap. apply CloseFd_settles. }
  destruct (active s) as [a|] eqn:Ha; cbn [app]; [|by apply (each_first_settles _ (HF (sealed s)) (set_closed s))].
  destruct (Sy a Ha) as [b Hb]. cbn [each_first]. pose proof (Sync_restart (st_disk s) (a_f a) b Hb) as HS.
  unfold io at 1. cbn [st_disk set_closed]. destruct (Disk.Sync (a_f a) (st_disk s)) as [r d1]. cbn [snd] in HS.
  set (s1 := set_disk d1 (set_closed s)). assert (Forall settles ([io CloseFd; modify (set_active None)] ++ map (fun _ => io CloseFd) (sealed s) ++ [modify (set_sealed []); io CloseFd])) as HF2.
  { apply Forall_app. split; [|apply HF]. constructor; [apply CloseFd_settles|constructor; [by apply modify_settles|constructor]]. }
  pose proof (each_first_settles _ HF2 s1) as HR. cbn [app each_first] in HR. destruct (io CloseFd s1) as [r2 s2].
  destruct (modify (set_active None) s2) as [r3 s3]. destruct (each_first _ s3) as [r4 s4]. cbn [snd] in *.
  eapply restart_trans; [exact HS|]. destruct HR as [(F2 & N2 & C2) I2 S2]. split; [split; [done|split; [exact N2|exact C2]]|exact I2|exact S2].
Qed.

Lemma closeStore_resting w c w' : lasting obj w -> closeStore w = (c, w') -> resting (leave w') /\ names_of (leave w') = refs_of w.
Proof.
  intros L E. unfold closeStore, RefClose, on_db in E. destruct (db_close (rs_db (c_refs w))) as [r1 db] eqn:ED.
  pose proof (Close_restart (c_objects w) (st_synced _ (la_stable _ _ L))) as HR. destruct (Store.Close (c_objects w)) as [r2 s]. injection E as _ <-.
  apply close_contents in ED. assert (names_of (leave (MkStores s (MkRefStore db (rs_sync (c_refs w))))) = refs_of w) as EN by exact ED.
  split; [|done]. by exists w.
Qed.

(** A command whose work on the stores keeps them lasting when it succeeds. *)
Lemma in_store_resting {A} dir segment setup policy (body : M Stores A) h x h' :
  segment <= SEG_MAX -> (forall r c y, policy r c = Ok y -> r = Ok y) -> resting h ->
  in_store dir segment setup policy body h = (Ok x, h') ->
  exists w w' h1, openStore dir segment h = (Ok w, h1) /\ lasting obj w /\ refs_of w = names_of h /\ body w = (Ok x, w') /\ (lasting obj w' -> resting h' /\ names_of h' = refs_of w').
Proof.
  intros Hseg HP HR E. unfold in_store in E. destruct (openStore dir segment h) as [[w|e] h1] eqn:EO; [|done].
  destruct (openStore_lasting _ _ _ _ _ Hseg HR EO) as [L EN]. destruct setup as [[]|e]; [|done].
  destruct (body w) as [r w'] eqn:EB. destruct (closeStore w') as [c w2] eqn:EC. injection E as Ep <-. apply HP in Ep as ->.
  exists w, w', h1. do 4 (split; [done|]). intros L'. by eapply closeStore_resting.
Qed.
Lemma deferred_Ok {A} (r : res A) c y : deferred r c = Ok y -> r = Ok y.
Proof. done. Qed.
Lemma checked_Ok {A} (r : res A) c y : checked r c = Ok y -> r = Ok y.
Proof. unfold checked. destruct r; [|done]. destruct c; [|done]. done. Qed.
Lemma joined_Ok r c y : joined r c = Ok y -> r = Ok y.
Proof. unfold joined, Join. destruct r as [[]|e], c as [[]|e']; [|done..]. by destruct y. Qed.

(** ** Ingest *)

Lemma Dir_lasting gomaxprocs opts sched r objs w k st s' :
  (0 < gomaxprocs)%nat -> lasting obj w -> nextID (c_objects w) + zlen sched < 2 ^ 64 -> Forall keyed objs -> (forall o, o ∈ objs -> obj (OKey o) = OBytes o) ->
  Dir gomaxprocs opts sched (r, objs) (c_objects w) = (Ok k, st, s') -> r = Ok k /\ lasting obj (MkStores s' (c_refs w)).
Proof.
  intros Hp [SS [I O Sy Hc]] Hn HK HO E. pose proof SS as [_ W A _].
  destruct (dir_holds gomaxprocs opts sched r objs (c_objects w) k st s' Hp I HK (content_unambiguous obj _ _ A HO) E) as (-> & _). split; [done|].
  pose proof (Dir_onward obj gomaxprocs opts sched (Ok k, objs) _ _ _ _ I W A HK HO Hn E) as ON.
  destruct (Dir_on_disk _ _ _ _ _ _ _ _ _ I O HK Hn E) as (O1 & _ & Ec & Sy1). split.
  - apply (sound_onward obj w); [done|done|]. intros nm data Hd. by left.
  - split; [apply ON|done|by apply Sy1|cbn [c_objects]; by rewrite Ec].
Qed.

Lemma wrapped_Ok {S A} t (m : M S A) s x s' : wrapped t m s = (Ok x, s') -> m s = (Ok x, s').
Proof. unfold wrapped. destruct (m s) as [[y|e] s1]; [done|]. by intros [= ? ?]. Qed.
Lemma ingest_body_out gomaxprocs opts ref now coll fuel sched r objs w k w' : ref <> [] ->
  ingest_body gomaxprocs opts ref now coll fuel sched (r, objs) w = (Ok k, w') ->
  exists st s1 raw, Dir gomaxprocs opts sched (r, objs) (c_objects w) = (Ok k, st, s1) /\ Encode (new_record ref k now) = Ok raw /\
  putRef fuel ref k raw (MkStores s1 (c_refs w)) = (Ok tt, w').
Proof.
  intros Hne E. unfold ingest_body in E. rewrite bool_decide_false in E by done. apply M_bind_Ok in E as (root & w1 & E1 & E). unfold on_objects in E1.
  destruct (Dir _ _ _ _ _) as [[r1 st] s1] eqn:ED. injection E1 as -> <-. apply M_bind_Ok in E as ([] & w2 & E2 & E). injection E as -> <-.
  apply wrapped_Ok in E2 as E3. apply M_bind_Ok in E3 as (raw & w4 & E4 & E3). unfold lift in E4. injection E4 as EE <-. apply M_bind_Ok in E3 as ([] & w5 & E5 & E3). injection E5 as _ <-.
  by exists st, s1, raw.
Qed.
Lemma ingest_body_lasting gomaxprocs opts ref now coll fuel sched r objs w k w' :
  (0 < gomaxprocs)%nat -> - 2 ^ 63 <= now < 2 ^ 63 -> lasting obj w -> nextID (c_objects w) + zlen sched < 2 ^ 64 ->
  Forall keyed objs -> (forall o, o ∈ objs -> obj (OKey o) = OBytes o) -> (r = Ok k -> Validate k = Ok tt) ->
  ingest_body gomaxprocs opts ref now coll fuel sched (r, objs) w = (Ok k, w') -> r = Ok k /\ lasting obj w'.
Proof.
  intros Hp Hnow L Hn HK HO HV E. destruct (decide (ref = [])) as [->|Hne].
  - unfold ingest_body in E. rewrite bool_decide_true in E by done. apply M_bind_Ok in E as (root & w1 & E1 & E). unfold on_objects in E1.
    destruct (Dir _ _ _ _ _) as [[r1 st] s1] eqn:ED. injection E1 as -> <-. apply M_bind_Ok in E as (u & w2 & E2 & E). injection E2 as _ <-. injection E as -> <-.
    by eapply Dir_lasting.
  - apply ingest_body_out in E as (st & s1 & raw & ED & EE & EP); [|done]. destruct (Dir_lasting _ _ _ _ _ _ _ _ _ Hp L Hn HK HO ED) as [-> L1]. split; [done|].
    eapply put_ref_lasting; [exact L1| |exact EP]. apply (own_record_root ref raw k now); auto.
Qed.

(** ** Any sequence of commands *)

(** What happens to the directory: a command exits with success, whichever of its calls failed
    on the way; a process that has opened the stores is stopped between two whole operations
    of its work - an ingest, a reference update, a read, a collection cycle - and the disk
    keeps of each file at least what was synced (being stopped within an operation is the
    subject of Reopen.v); or the machine stops between two processes. *)
Inductive invocation (h h' : Home) : Prop :=
  | ran_ingest gomaxprocs dir segment cfg args info scan coll now fuel sched out line :
      (0 < gomaxprocs)%nat -> - 2 ^ 63 <= now < 2 ^ 63 -> segment <= SEG_MAX ->
      (forall w h1, openStore dir segment h = (Ok w, h1) -> nextID (c_objects w) + zlen sched < 2 ^ 64) ->
      (forall opts, Forall keyed (out opts).2 /\ (forall o, o ∈ (out opts).2 -> obj (OKey o) = OBytes o) /\ (forall k, (out opts).1 = Ok k -> Validate k = Ok tt)) ->
      ingest_command gomaxprocs dir segment cfg args info scan coll now fuel sched out h = (Ok line, h') -> invocation h h'
  | ran_ref_set dir segment args coll now fuel :
      - 2 ^ 63 <= now < 2 ^ 63 -> segment <= SEG_MAX -> ref_set_command dir segment args coll now fuel h = (Ok tt, h') -> invocation h h'
  | ran_ref_rm dir segment args coll : segment <= SEG_MAX -> ref_rm_command dir segment args coll h = (Ok tt, h') -> invocation h h'
  | ran_gc gomaxprocs dir segment env show cfg coll now low ctx ctx_end fuel times line :
      (0 < se_procs env)%nat -> segment <= SEG_MAX ->
      (forall w h1, openStore dir segment h = (Ok w, h1) -> nextID (c_objects w) + 2 ^ 35 * (zlen (sealed (c_objects w)) + 1) < 2 ^ 64) ->
      gc_run_command gomaxprocs dir segment env show cfg coll now low ctx ctx_end fuel times h = (Ok line, h') -> invocation h h'
  | ran_reader A dir segment setup (body : M Stores A) x :
      segment <= SEG_MAX -> reader body -> in_store dir segment setup deferred body h = (Ok x, h') -> invocation h h'
  | killed dir segment w h1 w1 : segment <= SEG_MAX -> openStore dir segment h = (Ok w, h1) -> rtc (life obj) w w1 ->
      restart (st_disk (c_objects w1)) (faultless (ho_disk h')) -> names_of h' = refs_of w1 -> invocation h h'
  | lost_power : restart (faultless (ho_disk h)) (faultless (ho_disk h')) -> names_of h' = names_of h -> invocation h h'.

(** Reads that succeed are such commands. *)
Lemma reads_are_invocations gomaxprocs dir segment h h' : segment <= SEG_MAX ->
  (forall args fuel pages es, ls_command dir segment args fuel pages h = (Ok es, h') -> invocation h h') /\
  (forall args name, ref_get_command dir segment args h = (Ok name, h') -> invocation h h') /\
  (forall args format lines, ref_list_command dir segment args format h = (Ok lines, h') -> invocation h h') /\
  (forall args coll fuel lines, gc_why_command dir segment args coll fuel h = (Ok lines, h') -> invocation h h') /\
  (forall env show coll now zero ctx fuel lines, gc_status_command gomaxprocs dir segment env show coll now zero ctx fuel h = (Ok lines, h') -> invocation h h') /\
  (forall encodable tar_reader args fuel f x, restore_command dir segment encodable tar_reader args fuel f h = (Ok x, h') -> invocation h h').
Proof.
  intros Hs. split_and!.
  - intros args fuel pages es E. apply M_bind_Ok in E as (a & h1 & E1 & E). injection E1 as _ <-. eapply ran_reader; [exact Hs| |exact E]. apply runLs_reader.
  - intros args name E. apply M_bind_Ok in E as (a & h1 & E1 & E). injection E1 as _ <-. eapply ran_reader; [exact Hs| |exact E]. apply runRefGet_reader.
  - intros [|? ?] format lines E; [|done]. eapply ran_reader; [exact Hs| |exact E]. apply runRefList_reader.
  - intros args coll fuel lines E. apply M_bind_Ok in E as (a & h1 & E1 & E). injection E1 as _ <-. apply M_bind_Ok in E as (k & h1 & E1 & E). injection E1 as _ <-.
    eapply ran_reader; [exact Hs| |exact E]. apply runGCWhy_reader.
  - intros. eapply ran_reader; [exact Hs|apply runGCStatus_reader|done].
  - intros encodable tar_reader [|spec [|dest [|? ?]]] fuel f x E; try done. eapply ran_reader; [exact Hs| |exact E]. apply runRestore_reader.
Qed.

Lemma invocation_resting h h' : resting h -> invocation h h' -> resting h'.
Proof.
  intros HR. destruct 1 as [gm dir seg cfg args info scan coll now fuel sched out line Hp Hnow Hseg Hid Hout E|dir seg args coll now fuel Hnow Hseg E|dir seg args coll Hseg E
    |gm dir seg env show cfg coll now low ctx ctx_end fuel times line Hp Hseg Hid E|A dir seg setup body x Hseg HB E|dir seg w h1 w1 Hseg EO HL RT EN|RT EN].
  - unfold ingest_command in E. do 5 (apply M_bind_Ok in E as (? & hx & Ex & E); unfold lift in Ex; injection Ex as _ <-). cbv zeta in E. apply M_bind_Ok in E as (k & h1 & E & E2). injection E2 as _ <-.
    destruct (in_store_resting _ _ _ _ _ _ _ _ Hseg (fun r c y => checked_Ok r c y) HR E) as (w & w' & h2 & EO & L & EN & EB & HL). apply HL.
    destruct (Hout (ingest_opts cfg x1)) as (HK & HO & HV). destruct (out _) as [r objs]. cbn [fst snd] in *.
    by destruct (ingest_body_lasting _ _ _ _ _ _ _ _ _ _ _ _ Hp Hnow L (Hid _ _ EO) HK HO (HV k) EB).
  - unfold ref_set_command in E. destruct args as [|name [|keyArg [|? ?]]]; try done. apply M_bind_Ok in E as (k & h1 & E1 & E). unfold lift in E1. injection E1 as EK <-.
    apply M_bind_Ok in E as (raw & h1 & E1 & E). unfold lift in E1. injection E1 as EE <-.
    destruct (in_store_resting _ _ _ _ _ _ _ _ Hseg joined_Ok HR E) as (w & w' & h2 & EO & L & EN & EB & HL). apply HL.
    eapply put_ref_lasting; [exact L| |exact EB]. apply (own_record_root name raw k now); [done| |done].
    unfold parseHexKey in EK. apply res_bind_Ok in EK as (b & _ & EK). destruct (Parse b) as [k'|] eqn:EP; [|done]. injection EK as ->. by apply Parse_Ok in EP as [_ ?].
  - apply M_bind_Ok in E as (name & h1 & E1 & E). unfold lift in E1. injection E1 as _ <-.
    destruct (in_store_resting _ _ _ _ _ _ _ _ Hseg joined_Ok HR E) as (w & w' & h2 & EO & L & EN & EB & HL). apply HL. by eapply rm_ref_lasting.
  - destruct (in_store_resting _ _ _ _ _ _ _ _ Hseg (fun r c y => deferred_Ok r c y) HR E) as (w & w' & h2 & EO & L & EN & EB & HL). apply HL.
    unfold runGCRun in EB. destruct (cycle _ _ _ _ _ _ _ _ _) as [[r st] w1] eqn:EC. injection EB as EB <-. destruct r as [[]|e]; [|done].
    split; [eapply cycle_sound; [exact Hp|apply L|by eapply Hid|exact EC]|eapply cycle_stable; [exact Hp|apply L|by eapply Hid|exact EC]].
  - destruct (in_store_resting _ _ _ _ _ _ _ _ Hseg (fun r c y => deferred_Ok r c y) HR E) as (w & w' & h2 & EO & L & EN & EB & HL). apply HL.
    destruct (HB _ _ _ EB) as [HRd ER]. by eapply reading_lasting.
  - destruct (openStore_lasting _ _ _ _ _ Hseg HR EO) as [L _]. exists w1. split; [by eapply lives_lasting|by split].
  - by eapply resting_again.
Qed.
Lemma invocations_resting h h' : resting h -> rtc invocation h h' -> resting h'.
Proof. intros HR HI. induction HI as [|h h1 h2 HI1 HI IH]; [done|]. apply IH. by eapply invocation_resting. Qed.

(** With no fault to come the stores of a resting directory open, closed neither nor failing. *)
Lemma openStore_rested dir segment h : dir <> [] -> segment <= SEG_MAX -> resting h -> faults (ho_disk h) = [] -> healthy (ho_db h) ->
  exists w h1, openStore dir segment h = (Ok w, h1) /\ lasting obj w /\ refs_of w = names_of h /\ closed (c_objects w) = false /\ faults (st_disk (c_objects w)) = [] /\ healthy (rs_db (c_refs w)).
Proof.
  intros Hd Hseg HR Hf Hh. destruct HR as (w0 & L & RT & EN). assert (faultless (ho_disk h) = ho_disk h) as Ed by (unfold faultless; destruct (ho_disk h); cbn in *; by subst).
  rewrite Ed in RT. destruct (open_lasting obj w0 (MkConfig segment true) (ho_disk h) L RT Hseg eq_refl) as (s & EO & Hc & Hfs & HL).
  destruct (open_healthy _ Hh) as [HO1 HO2]. destruct (db_open (ho_db h)) as [r db] eqn:ED. cbn [fst snd] in *. destruct r as [[]|e]; [|done]. pose proof (open_contents _ _ _ ED) as EC.
  exists (MkStores s (MkRefStore db true)). eexists. split.
  - unfold openStore. rewrite bool_decide_false by done. rewrite EO. unfold RefOpen. by rewrite ED.
  - assert (refs (MkRefStore db true) = refs_of w0) as ER by (unfold refs; cbn [rs_db]; rewrite EC; exact EN).
    split; [by apply HL|]. split; [|done]. unfold refs_of. cbn [c_refs]. by rewrite ER.
Qed.
End Sessions.

(** * Property *)

Section Commanded.
Context `{Blake3} `{ZstdOk} `{FuseOk} `{Cbor (list bytes)} `{Cbor Entry} `{Cbor (list Entry)} `{Cbor DirPair} `{Cbor (list DirPair)} `{Cbor Reference}
  `{Cdc} `{Gitignore} `{Os} `{ErrgroupOk} `{PebbleFilesOk}.
Context `{!CborOk (list bytes) (array_wf any)} `{!CborOk Entry entry_wf} `{!CborOk (list Entry) (array_wf entry_wf)}
  `{!CborOk DirPair any} `{!CborOk (list DirPair) (array_wf any)} `{!CborOk Reference reference_wf} `{!CdcOk}.

(** C3. Whole commands keep backups: [amber-store ingest --ref NAME DIR] exits with success on a
    store directory that earlier processes left in order; then any commands that exit with
    success follow, each a process of its own that opens and closes the stores - other ingests,
    reference updates, [gc run], reads - with any system or database call failing on the way;
    a process may also be stopped, or the machine, before, after or between the whole
    operations of its work (not within one). If NAME still has its record, the calls of the
    last process succeed and the archive format can express what is restored (no attribute
    name with an equals sign), then [amber-store restore ref:NAME@PATH DEST] into an empty
    directory exits with success, DEST holds what DIR had at PATH and nothing else, and
    nothing outside DEST has changed. *)
Theorem commands_keep_backups (obj : Key -> bytes) os_Stat gomaxprocs encodable tar_reader dir segment dir' segment' cfg args info scan coll now fuel sched out line p chunk pl n r objs h0 h1 h2 segs m q sub :
  0 <= ItemBits (ingest_opts cfg chunk) <= 15 -> (0 < gomaxprocs)%nat -> - 2 ^ 63 <= now < 2 ^ 63 -> segment <= SEG_MAX -> segment' <= SEG_MAX -> dir' <> [] ->
  resting obj h0 -> (forall w h, openStore dir segment h0 = (Ok w, h) -> nextID (c_objects w) + zlen sched < 2 ^ 64) ->
  chunkOpts (ic_chunk cfg) = Ok chunk -> Objects os_Stat gomaxprocs p (ingest_opts cfg chunk) = Ok pl -> pl_dir pl = true ->
  readable n p (pl_ign pl) -> proper n p (pl_ign pl) -> buildRoot n pl r objs -> out (ingest_opts cfg chunk) = (r, objs) -> (forall o, o ∈ objs -> obj (OKey o) = OBytes o) ->
  ic_ref cfg <> [] -> ingest_command gomaxprocs dir segment cfg args info scan coll now fuel sched out h0 = (Ok line, h1) ->
  rtc (invocation obj) h1 h2 -> names_of h2 !! ic_ref cfg = names_of h1 !! ic_ref cfg -> faults (ho_disk h2) = [] -> healthy (ho_db h2) ->
  leads n p (pl_ign pl) segs m q sub -> expressible encodable m q sub ->
  reads_back tar_reader m q sub ->
  exists N, forall fuel dest D f, (N <= fuel)%nat -> fresh_dest dest D f ->
  exists h3 f', restore_command dir' segment' encodable tar_reader [refPrefix ++ ic_ref cfg ++ at_sign :: join segs; dest] fuel f h2 = (Ok (Ok tt, f'), h3) /\
  restored f (tree f') m q sub D /\ (forall q', ~ D `prefix_of` q' -> tree f' !! q' = tree f !! q').
Proof.
  intros Hbits Hp Hnow Hseg Hseg' Hdir' HR0 Hid EC EO Hd HR HP HB Eout HO Hne E HI Hkeep Hf Hh HL Henc Hread.
  assert (forall k, r = Ok k -> Validate k = Ok tt /\ mirrors (fun k => Ok (obj k)) n p (pl_ign pl) k) as HM.
  { intros k' ->. apply (ingested_mirrors os_Stat gomaxprocs p (ingest_opts cfg chunk) pl n k' objs); try done. intros o Ho. cbn. f_equal. by apply HO. }
  pose proof (buildRoot_keyed _ _ _ _ HB) as HK.
  unfold ingest_command in E. apply M_bind_Ok in E as (a & hx & Ex & E). unfold lift in Ex. injection Ex as _ <-.
  apply M_bind_Ok in E as (u & hx & Ex & E). unfold lift in Ex. rewrite bool_decide_false in Ex by done. injection Ex as EV <-. destruct u.
  apply M_bind_Ok in E as (chunk' & hx & Ex & E). unfold lift in Ex. rewrite EC in Ex. injection Ex as <- <-.
  do 2 (apply M_bind_Ok in E as (? & hx & Ex & E); unfold lift in Ex; injection Ex as _ <-). cbv zeta in E. rewrite Eout in E.
  apply M_bind_Ok in E as (k & hx & E & Ex). injection Ex as _ ->.
  destruct (in_store_resting obj _ _ _ _ _ _ _ _ Hseg (fun r c y => checked_Ok r c y) HR0 E) as (w & w' & hw & EOp & L & EN & EB & HL1).
  destruct (ingest_body_lasting obj _ _ _ _ _ _ _ _ _ _ _ _ Hp Hnow L (Hid _ _ EOp) HK HO (fun E => proj1 (HM k E)) EB) as [-> L1].
  destruct (HL1 L1) as [HR1 EN1]. destruct (HM k eq_refl) as [HV HMk].
  apply ingest_body_out in EB as (st & s1 & raw & _ & EE & EP); [|done]. apply putRef_out in EP as (_ & EP & _). specialize (EP eq_refl).
  assert (names_of h1 !! ic_ref cfg = Some raw) as Href by (rewrite EN1, EP; apply lookup_insert_eq).
  destruct (openStore_rested obj dir' segment' h2 Hdir' Hseg' (invocations_resting obj _ _ HR1 HI) Hf Hh) as (w2 & h3 & EO2 & L2 & EN2 & Hc & Hf2 & Hh2).
  destruct (served_restores obj encodable tar_reader n p (pl_ign pl) segs m q sub (ic_ref cfg) raw k now w2 (la_sound _ _ L2) Hc Hf2 Hnow HV HP HL HMk EV EE) as (N & HN); [by rewrite EN2, Hkeep|done..|].
  exists N. intros fuel' dest D f Hfu HD. destruct (HN fuel' dest D f Hfu HD) as (w3 & f' & ER & HRes & HOut).
  unfold restore_command, in_store. rewrite EO2, ER. destruct (closeStore w3) as [c w4]. exists (leave w4), f'. by split.
Qed.
End Commanded.

(** ** The sample source, by whole commands *)

#[export] Instance toy_files : PebbleFiles := { db_open := fun db => (Ok tt, db); db_close := fun db => (Ok tt, db) }.
#[export] Instance toy_files_ok : PebbleFilesOk.
Proof. split; [by intros db r db' [= _ <-]|by intros db r db' [= _ <-]|done|done]. Defined.

Definition store_dir : bytes := bs "store".
Definition sample_ingest : ingestConfig := MkIngestConfig (MkChunkConfig 0 0 0 (ItemBits small_opts) (XattrInlineMax small_opts)) ref_b (Jobs small_opts) (NoIgnore small_opts) false.
Definition sample_home : Home := leave world0.
Definition after_ingest : res bytes * Home :=
  ingest_command 1 store_dir (segmentSize sample_cfg) sample_ingest [bs "."] (Ok (true, 0)) (Ok (3, 100)) (Ok tt) 7 100 small_sched (fun _ => (Ok walked_root, walked)) sample_home.
Definition sample_gc : gcRunConfig := MkGcRunConfig (float64 (-1)) Second 0 0.
Definition after_gc : res bytes * Home :=
  gc_run_command 1 store_dir (segmentSize sample_cfg) no_victims decimal sample_gc (Ok tt) (2 * DefaultGrace) false (fun _ => None) None 100 (3, 2, 1) after_ingest.2.
Example after_gc_prints : after_gc.1 = Ok (bs "5 packs scored, 0 reaped, 0 records (0 B) copied, 0 B freed in 3 (mark 2, sweep 1; 9 objects marked)" ++ newline).
Proof. vm_compute. reflexivity. Qed.

Lemma sample_resting : resting walked_content sample_home.
Proof. exists world0. split; [apply world0_lasting|]. split; [apply restart_refl|reflexivity]. Qed.
Lemma sample_commands : after_ingest.1 = Ok (String_ walked_root ++ [x0a]) /\ ingest_opts sample_ingest (None, ItemBits small_opts, XattrInlineMax small_opts) = small_opts.
Proof. split; [vm_compute; reflexivity|reflexivity]. Qed.
Lemma ran {A B} (x : res A * B) y : x.1 = Ok y -> x = (Ok y, x.2).
Proof. destruct x as [r h]. cbn. by intros ->. Qed.
(** The identifiers last. *)
Definition opened_room (need : Store -> Z) (h : Home) : bool :=
  match openStore store_dir (segmentSize sample_cfg) h with (Ok w, _) => nextID (c_objects w) + need (c_objects w) <? 2 ^ 64 | _ => true end.
Lemma opened_room_ok need h : opened_room need h = true -> forall w h1, openStore store_dir (segmentSize sample_cfg) h = (Ok w, h1) -> nextID (c_objects w) + need (c_objects w) < 2 ^ 64.
Proof. unfold opened_room. intros E w h1 EO. rewrite EO in E. by apply Z.ltb_lt. Qed.
Lemma gc_ran : invocation walked_content after_ingest.2 after_gc.2.
Proof.
  apply (ran_gc _ _ _ 1 store_dir (segmentSize sample_cfg) no_victims decimal sample_gc (Ok tt) (2 * DefaultGrace) false (fun _ => None) None 100 (3, 2, 1)
    (bs "5 packs scored, 0 reaped, 0 records (0 B) copied, 0 B freed in 3 (mark 2, sweep 1; 9 objects marked)" ++ newline)).
  - apply Nat.lt_0_1.
  - vm_compute. discriminate.
  - apply (opened_room_ok (fun s => 2 ^ 35 * (zlen (sealed s) + 1))). vm_compute. reflexivity.
  - unfold after_gc. apply ran. exact after_gc_prints.
Qed.
Lemma commands_keep_backups_witness : exists N h3 f',
  restore_command store_dir (segmentSize sample_cfg) pax_format plain_reader [refPrefix ++ ref_b ++ at_sign :: [x64]; slash :: c_out] N (sample_fs []) after_gc.2 = (Ok (Ok tt, f'), h3) /\
  restored (sample_fs []) (tree f') 1 [[x64]] below_d [c_out].
Proof.
  destruct (commands_keep_backups walked_content os_dir 1 pax_format plain_reader store_dir (segmentSize sample_cfg) store_dir (segmentSize sample_cfg) sample_ingest [bs "."] (Ok (true, 0)) (Ok (3, 100)) (Ok tt) 7 100 small_sched
    (fun _ => (Ok walked_root, walked)) (String_ walked_root ++ [x0a]) [] (None, ItemBits small_opts, XattrInlineMax small_opts) small_plan 2 (Ok walked_root) walked sample_home after_ingest.2 after_gc.2 [[x64]] 1 [[x64]] below_d
    sample_bits ltac:(lia) ltac:(lia) ltac:(vm_compute; discriminate) ltac:(vm_compute; discriminate) ltac:(discriminate) sample_resting) as (N & HN).
  - apply (opened_room_ok (fun _ => zlen small_sched)). vm_compute. reflexivity.
  - reflexivity.
  - exact small_planned.
  - reflexivity.
  - exact sample_readable.
  - exact sample_proper.
  - exact small_walk.
  - reflexivity.
  - exact walked_contents.
  - discriminate.
  - unfold after_ingest. apply ran. exact (proj1 sample_commands).
  - apply rtc_once. exact gc_ran.
  - vm_compute. reflexivity.
  - vm_compute. reflexivity.
  - assert (td_fails (ho_db after_gc.2) = []) as E by (vm_compute; reflexivity). exact (healthy_toy _ E).
  - exact leads_to_d.
  - apply small_expressible.
  - apply plain_reads_back.
  - destruct (HN N (slash :: c_out) [c_out] (sample_fs []) (le_n N) sample_fresh) as (h3 & f' & ER & HR & _). exists N, h3, f'. split; [exact ER|exact HR].
Defined.
