(* ===== verification/Dataset.v ===== *)
(** The dataset of the benchmark (src/cmd/amber-bench/main.go, clone_linux.go): which files the
    generator plans for every reference, and how the workers and the copying fill them. *)
From Stdlib Require Import Floats.SpecFloat DecimalString DecimalN.
From S2P Require Import Hostfs TarExtract Prelude External Chunker Readers Filepath Compact Collector Cli Float Progress.

(** ** math/rand/v2 *)

(** A PCG source and the calls made of it; [shuffled g n] lists, for every place, which of [n]
    elements the swaps of [Shuffle] bring there. *)
Class Rand := { Rng : Type; NewPCG : Z -> Z -> Rng; IntN : Rng -> Z -> Z * Rng; shuffled : Rng -> nat -> list nat }.
Class RandOk `{Rand} : Prop := {
    IntN_range g n : 0 < n -> 0 <= fst (IntN g n) < n;
    shuffled_perm g n : shuffled g n ≡ₚ seq 0 n
  }.

(** * The dataset *)

Definition MiB : Z := 2 ^ 20.
Definition minFile : Z := Z.shiftl 256 10.
Definition maxFile : Z := 4 * MiB.
Definition rand_seed : Z := 20260824.

Record fileInfo := MkFileInfo { fi_Name : bytes; fi_Size : Z }.
Record refManifest := MkRefManifest { rm_Index : Z; rm_Kept : bool; rm_Fresh : Z; rm_Shared : Z; rm_Logical : Z; rm_Files : list fileInfo }.

Record benchConfig := MkBenchConfig { bc_data : bytes; bc_store : bytes; bc_refs : Z; bc_scale : spec_float; bc_segment : Z }.
Definition kept (i : Z) : bool := Z.rem i 10 <? 3.
Definition refName (i : Z) : bytes := bs "bench/ref-" ++ zpad 4 (decimal i).
Definition refDir (cfg : benchConfig) (i : Z) : bytes := Filepath.Join (bc_data cfg) (bs "ref-" ++ zpad 4 (decimal i)).
Definition freshTarget (out_of_range : spec_float -> Z) (cfg : benchConfig) (i : Z) : Z :=
  to_int64 out_of_range (fmul (float64 (if kept i then 100 * MiB else 30 * MiB)) (bc_scale cfg)).

(** ** File contents *)

(** The xorshift64* stream: one step of the state, and the word it yields. *)
Definition xorshift (x : Z) : Z :=
  let x := Z.lxor x (Z.shiftr x 12) in
  let x := Z.lxor x (u64 (Z.shiftl x 25)) in
  Z.lxor x (Z.shiftr x 27).
Definition rand_word (x : Z) : bytes := rev (be_put 8 (u64 (x * 0x2545F4914F6CDD1D))).
Definition first_state (s : Z) : Z := Z.lor (u64 (u64 (s + 1) * 0x9E3779B97F4A7C15)) 1.
Fixpoint rand_words (k : nat) (x : Z) : bytes * Z :=
  match k with
  | O => ([], x)
  | S k => let x := xorshift x in let '(b, x') := rand_words k x in (rand_word x ++ b, x')
  end.
(** The inner loop: whole words from the front of the first [n] bytes of [buf]. *)
Definition fill (n : nat) (x : Z) (buf : bytes) : bytes * Z :=
  let '(b, x) := rand_words (n / 8) x in (b ++ drop (8 * (n / 8)) buf, x).

Definition EISDIR : etag := EExt "is a directory".
(** [os.OpenFile] with [O_CREATE|O_WRONLY|O_TRUNC]. *)
Definition open_trunc (p : bytes) (mode : Z) : M Hostfs.FS path := fun f =>
  match lookup_path true p f with
  | Err e => (Err e, f)
  | Ok r =>
      match n_kind <$> tree f !! r with
      | None => (Ok r, set_tree (<[r:=MkNode (KFile []) (MkAttrs (Z.land mode (Z.lnot (umask f))) (euid f) (egid f) (clock f) ∅)]> (tree f)) f)
      | Some KDir => (Err [EISDIR], f)
      | Some (KFile _) => (Ok r, set_tree (alter (fun n => MkNode (KFile []) (n_attrs n)) r (tree f)) f)
      | Some _ => (Ok r, f)
      end
  end.
Definition OpenTrunc (p : bytes) (mode : Z) : M Hostfs.FS path := Hostfs.call (open_trunc p mode) intact_.
(** [os.Open], and what reading the open file to its end gives. *)
Definition OpenRead (p : bytes) : M Hostfs.FS path := Hostfs.call ('(r, _) ← at_path true p; mret r) intact_.
Definition ReadData (r : path) : M Hostfs.FS bytes := Hostfs.call (fun f =>
  match n_kind <$> tree f !! r with Some (KFile d) => (Ok d, f) | Some KDir => (Err [EISDIR], f) | _ => (Ok [], f) end) intact_.

(** A worker: its buffer, which one file's bytes leave to the next, and the file system. *)
Record Worker := MkWorker { wk_buf : bytes; wk_fs : Hostfs.FS }.
Definition on_fs {A} (m : M Hostfs.FS A) : M Worker A := fun w => let '(r, f) := m (wk_fs w) in (r, MkWorker (wk_buf w) f).
Fixpoint write_loop (fuel : nat) (r : path) (size x : Z) : M Worker unit :=
  if size <=? 0 then mret tt
  else
    match fuel with
    | O => fail [OutOfFuel]
    | S fuel => fun w =>
        let n := Z.to_nat (Z.min (zlen (wk_buf w)) size) in
        let '(buf, x) := fill n x (wk_buf w) in
        (_ ← on_fs (orelse (WriteData r (take n buf)) (fun e => _ ← orelse CloseFile (fun _ => mret tt); fail e));
         write_loop fuel r (size - Z.of_nat n) x) (MkWorker buf (wk_fs w))
    end.
Definition writeRandom (p : bytes) (size s : Z) : M Worker unit := fun w =>
  (r ← on_fs (OpenTrunc p 420);
   _ ← write_loop (S (Z.to_nat (size / zlen (wk_buf w)))) r size (first_state s);
   on_fs CloseFile) w.

Definition copyFile (src dst : bytes) : M Hostfs.FS unit :=
  i ← OpenRead src;
  o ← OpenTrunc dst 420;
  _ ← orelse (d ← ReadData i; WriteData o d) (fun e => _ ← orelse CloseFile (fun _ => mret tt); fail e);
  CloseFile.
(** clone_linux.go; the ioctl fails where the file system has no reflinks. *)
Definition cloneFile (src dst : bytes) : M Hostfs.FS unit :=
  i ← OpenRead src;
  o ← OpenTrunc dst 420;
  st ← orelse (d ← ReadData i; _ ← alter_node (fun n => MkNode (KFile d) (n_attrs n)) o; mret true) (fun _ => mret false);
  if st : bool then CloseFile else _ ← orelse CloseFile (fun _ => mret tt); copyFile src dst.

Section Dataset.
Context `{Rand} (out_of_range : spec_float -> Z) (cfg : benchConfig).

Definition fresh_name (n : Z) : bytes := bs "f" ++ zpad 4 (decimal n) ++ bs ".bin".
Definition clone_name (c : Z) : bytes := bs "c" ++ zpad 4 (decimal c) ++ bs ".bin".
Definition with_file (f : fileInfo) (m : refManifest) : refManifest :=
  MkRefManifest (rm_Index m) (rm_Kept m) (rm_Fresh m) (rm_Shared m) (rm_Logical m) (rm_Files m ++ [f]).
Definition with_sizes (fresh shared logical : Z) (m : refManifest) : refManifest :=
  MkRefManifest (rm_Index m) (rm_Kept m) fresh shared logical (rm_Files m).

(** The loop of [genFresh]; every turn writes [minFile] bytes or the rest. *)
Fixpoint fresh_loop (fuel : nat) (i n remaining : Z) (g : Rng) (m : refManifest) : M Worker refManifest :=
  if remaining <=? 0 then mret m
  else
    match fuel with
    | O => fail [OutOfFuel]
    | S fuel =>
        let '(k, g) := IntN g (maxFile - minFile + 1) in
        let size := Z.min (minFile + k) remaining in
        let name := fresh_name n in
        _ ← writeRandom (Filepath.Join (refDir cfg i) name) size (Z.lor (u64 (Z.shiftl i 32)) n);
        fresh_loop fuel i (n + 1) (remaining - size) g
          (with_sizes (rm_Fresh m + size) (rm_Shared m) (rm_Logical m) (with_file (MkFileInfo name size) m))
    end.
Definition genFresh (i : Z) : M Worker refManifest :=
  _ ← on_fs (MkdirAll (refDir cfg i) 493);
  let target := freshTarget out_of_range cfg i in
  fresh_loop (S (Z.to_nat (target / minFile))) i 0 target (NewPCG rand_seed (u64 i)) (MkRefManifest i (kept i) 0 0 0 []).

(** The workers take the references from the channel in order, [worker] says which one gets
    which; each has its own buffer. What two of them do at once goes to different directories. *)
Fixpoint fresh_all (worker : nat -> nat) (bufs : nat -> bytes) (n i : nat) (f : Hostfs.FS) : list (res refManifest) * Hostfs.FS :=
  match n with
  | O => ([], f)
  | S n =>
      let '(r, w) := genFresh (Z.of_nat i) (MkWorker (bufs (worker i)) f) in
      let '(rs, f) := fresh_all worker (fun k => if bool_decide (k = worker i) then wk_buf w else bufs k) n (S i) (wk_fs w) in
      (r :: rs, f)
  end.

(** One pass over the shuffled files of the reference before. *)
Fixpoint share_loop (i c target sum : Z) (prev : list fileInfo) (m : refManifest) : M Hostfs.FS (Z * refManifest) :=
  match prev with
  | [] => mret (sum, m)
  | f :: prev =>
      if target <? sum + fi_Size f then share_loop i (c + 1) target sum prev m
      else
        _ ← (fun w => let '(r, w) := cloneFile (Filepath.Join (refDir cfg (i - 1)) (fi_Name f)) (Filepath.Join (refDir cfg i) (clone_name c)) w in (wrap (EMsg "clone") r, w));
        share_loop i (c + 1) target (sum + fi_Size f) prev (with_file (MkFileInfo (clone_name c) (fi_Size f)) m)
  end.
Definition shuffle_files (g : Rng) (l : list fileInfo) : list fileInfo := omap (fun k => l !! k) (shuffled g (length l)).
Definition share (prev : refManifest) (m : refManifest) : M Hostfs.FS refManifest :=
  let i := rm_Index m in
  '(sum, m') ← share_loop i 0 (Z.quot (rm_Fresh m) 3) 0 (shuffle_files (NewPCG (rand_seed + 1) (u64 i)) (rm_Files prev)) m;
  mret (with_sizes (rm_Fresh m') sum (rm_Logical m') m').
Fixpoint share_all (prev : refManifest) (ms : list refManifest) : M Hostfs.FS (list refManifest) :=
  match ms with
  | [] => mret []
  | m :: ms => m ← share prev m; rest ← share_all m ms; mret (m :: rest)
  end.
Definition total_up (m : refManifest) : refManifest := with_sizes (rm_Fresh m) (rm_Shared m) (s64 (rm_Fresh m + rm_Shared m)) m.

(** [errors.Join] of the workers' errors. *)
Definition join_errors {A} (rs : list (res A)) : res (list A) :=
  match omap (fun r : res A => match r with Err e => Some e | Ok _ => None end) rs with
  | [] => mapM id rs
  | es => Err (concat es)
  end.
(** A worker's buffer has [MiB] bytes in the program; nothing below depends on how many. *)
Definition phaseGen (buffer : Z) (worker : nat -> nat) : M Hostfs.FS (list refManifest) :=
  _ ← MkdirAll (bc_data cfg) 493;
  if bc_refs cfg <? 0 then fail [EMsg "panic: makeslice: len out of range"]
  else fun f =>
    let '(rs, f) := fresh_all worker (fun _ => replicate (Z.to_nat buffer) x00) (Z.to_nat (bc_refs cfg)) 0 f in
    (ms ← lift (join_errors rs);
     ms ← match ms with [] => mret [] | m :: ms => rest ← share_all m ms; mret (m :: rest) end;
     mret (map total_up ms)) f.
End Dataset.

(** ** Names *)

(** What a decimal reads as, leading zeros or not. *)
Definition read_decimal (s : bytes) : option Z := (fun d => Z.of_N (N.of_uint d)) <$> NilZero.uint_of_string (String.string_of_list_byte s).
Lemma read_decimal_zero s : s <> [] -> read_decimal (x30 :: s) = read_decimal s.
Proof.
  intros Hs. unfold read_decimal. destruct s as [|c s]; [done|].
  change (NilZero.uint_of_string (String.string_of_list_byte (x30 :: c :: s))) with (Decimal.D0 <$> NilEmpty.uint_of_string (String.string_of_list_byte (c :: s))).
  change (NilZero.uint_of_string (String.string_of_list_byte (c :: s))) with (NilEmpty.uint_of_string (String.string_of_list_byte (c :: s))).
  by destruct (NilEmpty.uint_of_string _).
Qed.
Lemma read_decimal_decimal n : 0 <= n -> decimal n <> [] /\ read_decimal (decimal n) = Some n.
Proof.
  intros Hn. unfold decimal, read_decimal. rewrite String.string_of_list_byte_of_string. split.
  - intros E. apply (f_equal String.string_of_list_byte) in E. rewrite String.string_of_list_byte_of_string in E. cbn in E.
    pose proof (NilZero.usu (N.to_uint (Z.to_N n))) as U. rewrite E in U. cbn in U.
    destruct (N.to_uint (Z.to_N n)) eqn:EN; [|by specialize (U ltac:(done))..]. destruct (Z.to_N n) as [|p]; [done|]. by apply (DecimalPos.Unsigned.to_uint_nonnil p).
  - rewrite NilZero.usu.
    + cbn. rewrite DecimalN.Unsigned.of_to. f_equal. lia.
    + destruct (Z.to_N n) as [|p]; [done|]. apply DecimalPos.Unsigned.to_uint_nonnil.
Qed.
Lemma read_decimal_zpad w n : 0 <= n -> read_decimal (zpad w (decimal n)) = Some n.
Proof.
  intros Hn. destruct (read_decimal_decimal n Hn) as [HN HR]. unfold zpad. induction (w - length (decimal n))%nat as [|k IH]; [done|].
  cbn [replicate app]. rewrite read_decimal_zero; [done|]. by destruct k.
Qed.
Lemma zpad_decimal_inj w n m : 0 <= n -> 0 <= m -> zpad w (decimal n) = zpad w (decimal m) -> n = m.
Proof. intros Hn Hm E. apply (f_equal read_decimal) in E. rewrite !read_decimal_zpad in E by done. by injection E. Qed.
Lemma refName_inj i j : 0 <= i -> 0 <= j -> refName i = refName j -> i = j.
Proof. intros Hi Hj E%app_inv_head. by eapply zpad_decimal_inj. Qed.
Lemma fresh_name_inj i j : 0 <= i -> 0 <= j -> fresh_name i = fresh_name j -> i = j.
Proof. intros Hi Hj E%app_inv_head%app_inv_tail. by eapply zpad_decimal_inj. Qed.
Lemma clone_name_inj i j : 0 <= i -> 0 <= j -> clone_name i = clone_name j -> i = j.
Proof. intros Hi Hj E%app_inv_head%app_inv_tail. by eapply zpad_decimal_inj. Qed.

(** ** Fuel *)

Lemma other_error t : t <> OutOfFuel -> OutOfFuel ∉ [t].
Proof. intros Ht E%list_elem_of_singleton. by destruct Ht. Qed.
(** A computation that keeps an invariant of its state and whose errors are the program's own. *)
Definition polite {S A} (I : S -> Prop) (m : M S A) : Prop :=
  forall s, I s -> I (snd (m s)) /\ match fst (m s) with Ok _ => True | Err e => OutOfFuel ∉ e end.
Section Polite.
Context {S : Type} (I : S -> Prop).
Lemma polite_ret {A} (x : A) : polite I (mret x).
Proof. done. Qed.
Lemma polite_fail {A} e : OutOfFuel ∉ e -> polite I (@fail S A e).
Proof. done. Qed.
Lemma polite_bind {A B} (m : M S A) (k : A -> M S B) : polite I m -> (forall x, polite I (k x)) -> polite I (m ≫= k).
Proof.
  intros Hm Hk s Hs. specialize (Hm s Hs). unfold mbind, M_bind. destruct (m s) as [[x|e] s1]; cbn [fst snd] in *; destruct Hm; [by apply Hk|done].
Qed.
End Polite.

Definition tame (f : Hostfs.FS) : Prop := forall n e, Some (n, e) ∈ fs_faults f -> OutOfFuel ∉ e.
Lemma polite_orelse {A} (m : M Hostfs.FS A) h : polite tame m -> (forall e, OutOfFuel ∉ e -> polite tame (h e)) -> polite tame (orelse m h).
Proof.
  intros Hm Hh f Hf. specialize (Hm f Hf). unfold orelse. destruct (m f) as [[x|e] f1]; cbn [fst snd] in *; destruct Hm; [done|]. by apply Hh.
Qed.
Lemma polite_call {A} (m : M Hostfs.FS A) torn : polite tame m -> (forall n, polite tame (torn n)) -> polite tame (Hostfs.call m torn).
Proof.
  intros Hm Ht f Hf. unfold Hostfs.call. destruct (fs_faults f) as [|[[n e]|] l] eqn:E; [by apply Hm| |].
  - assert (tame (set_fs_faults l f)) as Hl by (intros n' e' Hin; apply (Hf n'); rewrite E; by right).
    cbn [fst snd]. split; [by apply Ht|]. unfold fault_error. case_bool_decide; [by apply other_error|]. apply (Hf n). rewrite E. by left.
  - apply Hm. intros n' e' Hin. apply (Hf n'). rewrite E. by right.
Qed.
Definition proper_error {A} (r : res A) : Prop := match r with Ok _ => True | Err e => OutOfFuel ∉ e end.
Lemma walk_proper t follow again cur todo : (forall cur todo, proper_error (again cur todo)) -> proper_error (Hostfs.walk t follow again cur todo).
Proof.
  intros Ha. revert cur. induction todo as [|c todo IH]; intros cur; cbn [Hostfs.walk]; [done|].
  destruct (skip c); [done|]. case_bool_decide; [done|]. repeat case_match; try done; try apply IH; try apply Ha; by apply other_error.
Qed.
Lemma lookup_proper follow p f : proper_error (lookup_path follow p f).
Proof.
  unfold lookup_path. destruct p; [by apply other_error|]. generalize (start f (b :: p)), (SplitSlash (b :: p)).
  induction (Datatypes.S MAXSYMLINKS) as [|n IH]; intros cur todo; cbn [resolve]; [by apply other_error|]. by apply walk_proper.
Qed.
Lemma polite_pure {A} (m : M Hostfs.FS A) : (forall f, fs_faults (snd (m f)) = fs_faults f /\ proper_error (fst (m f))) -> polite tame m.
Proof. intros Hm f Hf. destruct (Hm f) as [E HP]. split; [|done]. intros n e. rewrite E. apply Hf. Qed.
Lemma at_path_polite follow p : polite tame (at_path follow p).
Proof.
  apply polite_pure. intros f. split; [done|]. pose proof (lookup_proper follow p f) as HP. unfold at_path. cbn [fst].
  destruct (lookup_path follow p f) as [r|e]; [|done]. cbn. destruct (tree f !! r); [done|by apply other_error].
Qed.
Lemma create_polite k mode p : polite tame (create k mode p).
Proof.
  apply polite_pure. intros f. pose proof (lookup_proper false p f) as HP. unfold create. destruct (lookup_path false p f) as [r|e]; [|done].
  destruct (tree f !! r); (split; [done|]); [by apply other_error|done].
Qed.
Lemma open_trunc_polite p mode : polite tame (open_trunc p mode).
Proof.
  apply polite_pure. intros f. pose proof (lookup_proper true p f) as HP. unfold open_trunc. destruct (lookup_path true p f) as [r|e]; [|done].
  destruct (n_kind <$> tree f !! r) as [[]|]; (split; [done|]); try done. by apply other_error.
Qed.
Lemma intact_polite n : polite tame (intact_ n).
Proof. done. Qed.
Lemma alter_polite g r : polite tame (alter_node g r).
Proof. by apply polite_pure. Qed.
Create HintDb polite.
#[local] Hint Resolve polite_ret polite_bind polite_orelse polite_call at_path_polite create_polite open_trunc_polite intact_polite alter_polite : polite.
Lemma WriteData_polite r d : polite tame (WriteData r d).
Proof. apply polite_call; auto with polite. Qed.
Lemma CloseFile_polite : polite tame CloseFile.
Proof. apply polite_call; auto with polite. Qed.
Lemma OpenTrunc_polite p mode : polite tame (OpenTrunc p mode).
Proof. apply polite_call; auto with polite. Qed.
Lemma closing_polite {A} e : OutOfFuel ∉ e -> polite tame ((_ ← orelse CloseFile (fun _ => mret tt); fail e) : M Hostfs.FS A).
Proof. intros He. apply polite_bind; [apply polite_orelse; auto with polite; apply CloseFile_polite|]. intros _. by apply polite_fail. Qed.

Lemma MkdirAll_fuel_polite fuel p mode : (length (SplitSlash p) < fuel)%nat -> polite tame (MkdirAll_fuel fuel p mode).
Proof.
  revert p. induction fuel as [|fuel IH]; intros p Hf; [lia|]. cbn [MkdirAll_fuel].
  assert (forall b : bool, polite tame (orelse ((n ← (if b then Hostfs.Stat p else Hostfs.Lstat p); mret (Some n)) : M Hostfs.FS (option node)) (fun _ => mret None))) as HS.
  { intros b. apply polite_orelse; [|auto with polite]. apply polite_bind; [|auto with polite].
    destruct b; (apply polite_call; [|auto with polite]); (apply polite_bind; [apply at_path_polite|]); intros []; apply polite_ret. }
  apply polite_bind; [apply (HS true)|]. intros [n|].
  - destruct (is_KDir _); [apply polite_ret|]. apply polite_fail. by apply other_error.
  - apply polite_bind.
    + destruct (up_to_slash p) as [[|c q]|] eqn:EU; [apply polite_ret| |apply polite_ret]. apply IH. unfold up_to_slash in EU.
      destruct (exists_last (split_nonempty p)) as (cs & l & Es). rewrite Es, removelast_last in EU. pose proof (split_part p) as F. rewrite Es in F.
      destruct cs as [|c0 cs]; [done|]. assert (c :: q = join (c0 :: cs)) as -> by congruence. rewrite split_join; [|done|by apply Forall_app in F as [? _]]. rewrite Es, length_app in Hf. cbn [length] in *. lia.
    + intros _. apply polite_orelse; [apply polite_call; auto with polite; apply polite_bind; auto with polite|]. intros e He. apply polite_bind; [apply (HS false)|].
      intros [n|]; [|by apply polite_fail]. destruct (is_KDir _); [apply polite_ret|by apply polite_fail].
Qed.
Lemma MkdirAll_polite p mode : polite tame (MkdirAll p mode).
Proof. apply MkdirAll_fuel_polite. lia. Qed.

(** The worker's buffer keeps its length. *)
Section Writing.
Context (buffer : Z) (Hbuf : 0 < buffer).
Definition buffered (w : Worker) : Prop := zlen (wk_buf w) = buffer /\ tame (wk_fs w).
Lemma on_fs_polite {A} (m : M Hostfs.FS A) : polite tame m -> polite buffered (on_fs m).
Proof. intros Hm w [Hb Hf]. specialize (Hm _ Hf). unfold on_fs. destruct (m (wk_fs w)) as [r f]. by destruct Hm. Qed.
Lemma length_rand_words k x : length (rand_words k x).1 = (8 * k)%nat.
Proof.
  revert x. induction k as [|k IH]; intros x; [done|]. cbn [rand_words]. specialize (IH (xorshift x)). destruct (rand_words k _) as [b x'].
  cbn [fst] in *. rewrite length_app, IH. unfold rand_word. rewrite length_rev, length_be_put. lia.
Qed.
Lemma length_fill n x buf : (n <= length buf)%nat -> length (fill n x buf).1 = length buf.
Proof.
  intros Hn. unfold fill. pose proof (length_rand_words (n / 8) x) as HL. destruct (rand_words _ _) as [b x']. cbn [fst] in *.
  rewrite length_app, length_drop, HL. pose proof (Nat.Div0.div_mod n 8). lia.
Qed.
Lemma write_loop_polite fuel r size x : (0 < size -> size / buffer < Z.of_nat fuel) -> polite buffered (write_loop fuel r size x).
Proof.
  revert size x. induction fuel as [|fuel IH]; intros size x Hf; cbn [write_loop]; (destruct (Z.leb_spec size 0) as [Hs|Hs]; [apply polite_ret|specialize (Hf Hs)]).
  - pose proof (Z.div_pos size buffer ltac:(lia) Hbuf). lia.
  - intros [buf f] [Hb Ht]. cbn [wk_buf wk_fs] in *. rewrite Hb. set (n := Z.to_nat (Z.min buffer size)).
    pose proof (length_fill n x buf) as HL. destruct (fill n x buf) as [buf' x'] eqn:EF. cbn [fst] in HL.
    assert (zlen buf' = buffer) as Hb' by (unfold zlen in *; rewrite HL; lia).
    refine (polite_bind buffered _ _ _ _ (MkWorker buf' f) (conj Hb' Ht)).
    + apply on_fs_polite, polite_orelse; [apply WriteData_polite|]. intros e. apply closing_polite.
    + intros _. apply IH. unfold n. rewrite Z2Nat.id by lia. intros Hp. rewrite Z.min_l by lia.
      replace (size - buffer) with (size + (-1) * buffer) by lia. rewrite Z.div_add by lia. lia.
Qed.
Lemma writeRandom_polite p size s : polite buffered (writeRandom p size s).
Proof.
  intros w Hw. unfold writeRandom. refine (polite_bind buffered _ _ _ _ w Hw); [apply on_fs_polite, OpenTrunc_polite|]. intros r.
  apply polite_bind; [|intros _; apply on_fs_polite, CloseFile_polite]. apply write_loop_polite. intros Hs. rewrite (proj1 Hw). pose proof (Z.div_pos size buffer ltac:(lia) Hbuf). lia.
Qed.
End Writing.
Lemma ReadData_polite r : polite tame (ReadData r).
Proof.
  apply polite_call; [|auto with polite]. apply polite_pure. intros f. destruct (n_kind <$> tree f !! r) as [[]|]; (split; [done|]); try done. by apply other_error.
Qed.
Lemma OpenRead_polite p : polite tame (OpenRead p).
Proof. apply polite_call; [|auto with polite]. apply polite_bind; [apply at_path_polite|]. intros []. apply polite_ret. Qed.
Lemma cloneFile_polite src dst : polite tame (cloneFile src dst).
Proof.
  assert (polite tame (copyFile src dst)) as HC.
  { apply polite_bind; [apply OpenRead_polite|]. intros i. apply polite_bind; [apply OpenTrunc_polite|]. intros o.
    apply polite_bind; [|intros _; apply CloseFile_polite]. apply polite_orelse; [|intros e; apply closing_polite].
    apply polite_bind; [apply ReadData_polite|]. intros d. apply WriteData_polite. }
  apply polite_bind; [apply OpenRead_polite|]. intros i. apply polite_bind; [apply OpenTrunc_polite|]. intros o. apply polite_bind.
  - apply polite_orelse; [|auto with polite]. apply polite_bind; [apply ReadData_polite|]. auto with polite.
  - intros []; [apply CloseFile_polite|]. apply polite_bind; [apply polite_orelse; [apply CloseFile_polite|auto with polite]|done].
Qed.

Section Generated.
Context `{RandOk} (out_of_range : spec_float -> Z) (cfg : benchConfig) (buffer : Z) (Hbuf : 0 < buffer).

Lemma picked_size g remaining : 0 < remaining -> let size := Z.min (minFile + (IntN g (maxFile - minFile + 1)).1) remaining in
  1 <= size <= maxFile /\ (minFile <= size \/ size = remaining).
Proof. intros Hr. pose proof (IntN_range g (maxFile - minFile + 1) eq_refl) as HI. change minFile with 262144 in *. change maxFile with 4194304 in *. cbv zeta. lia. Qed.

Lemma fresh_loop_polite fuel i n remaining g m : (0 < remaining -> remaining / minFile < Z.of_nat fuel) -> polite (buffered buffer) (fresh_loop cfg fuel i n remaining g m).
Proof.
  revert n remaining g m. induction fuel as [|fuel IH]; intros n remaining g m Hf; cbn [fresh_loop]; (destruct (Z.leb_spec remaining 0) as [Hs|Hs]; [apply polite_ret|specialize (Hf Hs)]).
  - pose proof (Z.div_pos remaining minFile ltac:(lia) eq_refl). lia.
  - pose proof (picked_size g remaining Hs) as HP. destruct (IntN g _) as [k g']. cbn [fst] in HP. cbv zeta. set (size := Z.min _ _) in *.
    apply polite_bind; [by apply writeRandom_polite|]. intros _. apply IH. intros Hr.
    assert ((remaining - size) / minFile <= (remaining + (-1) * minFile) / minFile) as HL by (apply Z.div_le_mono; [done|lia]). rewrite Z.div_add in HL by done. lia.
Qed.
Lemma genFresh_polite i : polite (buffered buffer) (genFresh out_of_range cfg i).
Proof.
  apply polite_bind; [apply on_fs_polite, MkdirAll_polite|]. intros _. cbv zeta. apply fresh_loop_polite. intros Hr.
  pose proof (Z.div_pos _ minFile (Z.lt_le_incl _ _ Hr) eq_refl). lia.
Qed.
Lemma fresh_all_polite worker bufs n i f : (forall k, zlen (bufs k) = buffer) -> tame f -> let '(rs, f') := fresh_all out_of_range cfg worker bufs n i f in
  tame f' /\ Forall proper_error rs.
Proof.
  revert bufs i f. induction n as [|n IH]; intros bufs i f Hb Hf; cbn [fresh_all]; [done|].
  pose proof (genFresh_polite (Z.of_nat i) (MkWorker (bufs (worker i)) f) (conj (Hb _) Hf)) as [[Hb1 Hf1] HP].
  destruct (genFresh _ _ _ _) as [r w]. cbn [fst snd] in *.
  specialize (IH (fun k => if bool_decide (k = worker i) then wk_buf w else bufs k) (S i) (wk_fs w)). destruct (fresh_all _ _ _ _ n _ _) as [rs f'].
  destruct IH as [H1 H2]; [intros k; by case_bool_decide|done|]. split; [done|]. by constructor.
Qed.
Lemma share_loop_polite i c target sum prev m : polite tame (share_loop cfg i c target sum prev m).
Proof.
  revert c sum m. induction prev as [|f prev IH]; intros c sum m; cbn [share_loop]; [apply polite_ret|]. destruct (_ <? _); [apply IH|].
  apply polite_bind; [|intros _; apply IH]. intros w Hw. pose proof (cloneFile_polite (Filepath.Join (refDir cfg (i - 1)) (fi_Name f)) (Filepath.Join (refDir cfg i) (clone_name c)) w Hw) as [HT HP].
  destruct (cloneFile _ _ w) as [[x|e] w']; cbn [fst snd wrap] in *; (split; [done|]); [done|]. by apply not_elem_of_cons.
Qed.
Lemma share_polite prev m : polite tame (share cfg prev m).
Proof. apply polite_bind; [apply share_loop_polite|]. intros [sum m']. apply polite_ret. Qed.
Lemma share_all_polite prev ms : polite tame (share_all cfg prev ms).
Proof.
  revert prev. induction ms as [|m ms IH]; intros prev; cbn [share_all]; [apply polite_ret|].
  apply polite_bind; [apply share_polite|]. intros m'. apply polite_bind; [apply IH|]. intros rest. apply polite_ret.
Qed.
Lemma join_errors_proper {A} (rs : list (res A)) : Forall proper_error rs -> proper_error (join_errors rs).
Proof.
  intros F. unfold join_errors.
  assert (forall rs : list (res A), Forall proper_error rs -> proper_error (mapM id rs)) as HM.
  { clear. induction 1 as [|r rs Hr F IH]; [done|]. change (mapM id (r :: rs)) with (id r ≫= fun y => mapM id rs ≫= fun ys => Ok (y :: ys)).
    destruct r as [x|e]; [|done]. cbn [id mbind res_bind]. by destruct (mapM id rs). }
  assert (forall es, es = omap (fun r : res A => match r with Err e => Some e | Ok _ => None end) rs -> OutOfFuel ∉ concat es) as HE.
  { intros es ->. clear HM. induction F as [|[x|e] rs Hr F IH]; cbn; [apply not_elem_of_nil|done|]. intros [?|?]%elem_of_app; [by apply Hr|by apply IH]. }
  destruct (omap _ rs) as [|e es]; [by apply HM|]. by apply HE.
Qed.
Lemma phaseGen_polite worker : polite tame (phaseGen out_of_range cfg buffer worker).
Proof.
  apply polite_bind; [apply MkdirAll_polite|]. intros _. destruct (bc_refs cfg <? 0); [by apply polite_fail, other_error|].
  intros f Hf. assert (forall k : nat, zlen (replicate (Z.to_nat buffer) x00) = buffer) as Hb by (intros _; unfold zlen; rewrite length_replicate; rewrite Z2Nat.id; lia).
  pose proof (fresh_all_polite worker _ (Z.to_nat (bc_refs cfg)) 0 f Hb Hf) as HA. destruct (fresh_all _ _ _ _ _ _ _) as [rs f1]. destruct HA as [Hf1 HR].
  refine (polite_bind tame _ _ _ _ f1 Hf1).
  - intros f2 Hf2. cbn. split; [done|]. by apply join_errors_proper.
  - intros ms. apply polite_bind; [|intros; apply polite_ret]. destruct ms as [|m ms]; [apply polite_ret|]. apply polite_bind; [apply share_all_polite|]. intros. apply polite_ret.
Qed.

(** ** What the manifests say *)

Definition sizes (l : list fileInfo) : Z := foldr Z.add 0 (map fi_Size l).
Lemma sizes_app l1 l2 : sizes (l1 ++ l2) = sizes l1 + sizes l2.
Proof. induction l1 as [|f l1 IH]; [done|]. unfold sizes in *. cbn. lia. Qed.
Definition sized_file (f : fileInfo) : Prop := 1 <= fi_Size f <= maxFile.
(** [m'] is [m] with more files and other sizes. *)
Definition extends (m m' : refManifest) (l : list fileInfo) : Prop :=
  rm_Index m' = rm_Index m /\ rm_Kept m' = rm_Kept m /\ rm_Files m' = rm_Files m ++ l.

Lemma fresh_loop_out fuel i n remaining g m w m' w' : 0 <= n -> fresh_loop cfg fuel i n remaining g m w = (Ok m', w') ->
  exists l, extends m m' l /\ rm_Shared m' = rm_Shared m /\ rm_Fresh m' = rm_Fresh m + Z.max 0 remaining /\ sizes l = Z.max 0 remaining /\ Forall sized_file l /\
  exists ns, map fi_Name l = map fresh_name ns /\ NoDup ns /\ Forall (fun k => n <= k) ns.
Proof.
  revert n remaining g m w. induction fuel as [|fuel IH]; intros n remaining g m w Hn E; cbn [fresh_loop] in E; (destruct (Z.leb_spec remaining 0) as [Hs|Hs];
    [injection E as <- _; exists []; unfold extends; rewrite app_nil_r; split_and!; [done..|lia|by rewrite Z.max_l by lia|done|exists []; by split_and!; try constructor]|]); [done|].
  pose proof (picked_size g remaining Hs) as HP. destruct (IntN g _) as [k g']. cbn [fst] in HP. cbv zeta in E. set (size := Z.min _ _) in *.
  apply M_bind_Ok in E as (u & w1 & _ & E). apply IH in E as (l & (EI & EK & EF) & E0 & ER & ES & F & ns & EN & ND & FN); [|lia]. cbn [rm_Index rm_Kept rm_Files rm_Fresh rm_Shared with_sizes with_file] in *.
  exists (MkFileInfo (fresh_name n) size :: l). unfold extends. rewrite EF, <- app_assoc. split_and!; [done..|lia| | |].
  - unfold sizes in *. cbn. lia.
  - constructor; [|done]. apply HP.
  - exists (n :: ns). cbn. rewrite EN. split; [done|]. rewrite list.Forall_forall in FN. split; [constructor; [|done]|].
    + intros Hin. apply FN in Hin. lia.
    + constructor; [lia|]. apply list.Forall_forall. intros x Hx. apply FN in Hx. lia.
Qed.
Lemma share_loop_out i c target sum prev m f sum' m' f' : 0 <= c -> sum <= target -> share_loop cfg i c target sum prev m f = (Ok (sum', m'), f') ->
  exists l, extends m m' l /\ rm_Fresh m' = rm_Fresh m /\ sum' = sum + sizes l /\ sum' <= target /\ sublist (map fi_Size l) (map fi_Size prev) /\
  exists cs, map fi_Name l = map clone_name cs /\ NoDup cs /\ Forall (fun k => c <= k) cs.
Proof.
  revert c sum m f. induction prev as [|p prev IH]; intros c sum m f Hc Hs E; cbn [share_loop] in E.
  - injection E as <- <- _. exists []. unfold extends. rewrite app_nil_r. change (sizes []) with 0. split_and!; [done..|lia|done|constructor|exists []; by split_and!; try constructor].
  - destruct (Z.ltb_spec target (sum + fi_Size p)) as [Hl|Hl].
    + apply IH in E as (l & HX & ER & ES & HT & HS & cs & EN & ND & FC); [|lia..]. exists l. split_and!; [done..| |].
      * cbn. by apply sublist_cons.
      * exists cs. split_and!; [done..|]. eapply list.Forall_impl; [exact FC|]. intros x Hx. cbv beta in *. lia.
    + apply M_bind_Ok in E as (u & w1 & _ & E). apply IH in E as (l & (EI & EK & EF) & ER & ES & HT & HS & cs & EN & ND & FC); [|lia..]. cbn [rm_Index rm_Kept rm_Files rm_Fresh with_file] in *.
      exists (MkFileInfo (clone_name c) (fi_Size p) :: l). unfold extends. rewrite EF, <- app_assoc. split_and!; [done..| |done| |].
      * unfold sizes in *. cbn. lia.
      * cbn. by apply sublist_skip.
      * exists (c :: cs). cbn. rewrite EN. split; [done|]. rewrite list.Forall_forall in FC. split; [constructor; [|done]|].
        -- intros Hin. apply FC in Hin. lia.
        -- constructor; [lia|]. apply list.Forall_forall. intros x Hx. apply FC in Hx. lia.
Qed.
Lemma omap_lookup_seq {A} (l pre : list A) : omap (fun k => (pre ++ l) !! k) (seq (length pre) (length l)) = l.
Proof.
  revert pre. induction l as [|x l IH]; intros pre; [done|]. cbn [length seq]. change (omap ?f (?a :: ?b)) with (match f a with Some y => y :: omap f b | None => omap f b end).
  cbv beta. rewrite list_lookup_middle by done. f_equal. specialize (IH (pre ++ [x])). rewrite length_app, <- app_assoc in IH. cbn [length app] in IH. by replace (S (length pre)) with (length pre + 1)%nat by lia.
Qed.
Lemma shuffle_perm g l : shuffle_files g l ≡ₚ l.
Proof. unfold shuffle_files. rewrite (shuffled_perm g (length l)). pose proof (omap_lookup_seq l []) as E. cbn [app length] in E. by rewrite E. Qed.

(** The manifest of reference [i], before and after the sharing. *)
Record gen_fresh (i : Z) (m : refManifest) : Prop := {
    gf_index : rm_Index m = i; gf_unshared : rm_Shared m = 0; gf_kept : rm_Kept m = kept i;
    gf_fresh : rm_Fresh m = Z.max 0 (freshTarget out_of_range cfg i); gf_sizes : sizes (rm_Files m) = rm_Fresh m;
    gf_files : Forall sized_file (rm_Files m);
    gf_names : exists ns, map fi_Name (rm_Files m) = map fresh_name ns /\ NoDup ns /\ Forall (fun k => 0 <= k) ns
  }.
Record gen_shared (i : Z) (prev : list fileInfo) (m : refManifest) (fresh clones : list fileInfo) : Prop := {
    gs_index : rm_Index m = i; gs_kept : rm_Kept m = kept i; gs_split : rm_Files m = fresh ++ clones;
    gs_fresh : rm_Fresh m = Z.max 0 (freshTarget out_of_range cfg i) /\ sizes fresh = rm_Fresh m;
    gs_shared : sizes clones = rm_Shared m /\ rm_Shared m <= rm_Fresh m / 3;
    gs_copies : map fi_Size clones ⊆+ map fi_Size prev;
    gs_files : Forall sized_file (rm_Files m);
    gs_given : Forall (fun x => exists k, fi_Name x = fresh_name k) fresh /\ Forall (fun x => exists k, fi_Name x = clone_name k) clones;
    gs_names : NoDup (map fi_Name (rm_Files m))
  }.
Lemma genFresh_out i w m w' : genFresh out_of_range cfg i w = (Ok m, w') -> gen_fresh i m.
Proof.
  intros E. apply M_bind_Ok in E as (u & w1 & _ & E). cbv zeta in E. apply fresh_loop_out in E as (l & (EI & EK & EF) & E0 & ER & ES & F & HN); [|done].
  cbn [rm_Index rm_Kept rm_Files rm_Fresh rm_Shared app] in *. split; [done|done|done|lia|rewrite EF; lia|by rewrite EF|by rewrite EF].
Qed.
Lemma fresh_all_out worker bufs n i f rs f' ms : fresh_all out_of_range cfg worker bufs n i f = (rs, f') -> Forall2 (fun r m => r = Ok m) rs ms ->
  length ms = n /\ forall j m, ms !! j = Some m -> gen_fresh (Z.of_nat (i + j)) m.
Proof.
  revert bufs i f rs f' ms. induction n as [|n IH]; intros bufs i f rs f' ms E F; cbn [fresh_all] in E; [injection E as <- _; inversion F; subst; done|].
  destruct (genFresh _ _ _ _) as [r w] eqn:EG. destruct (fresh_all _ _ _ _ n _ _) as [rs1 f1] eqn:EA. injection E as <- _. inversion F as [|? m ? ms' -> F']; subst.
  destruct (IH _ _ _ _ _ _ EA F') as [HL HM]. split; [cbn; lia|]. intros [|j] m0 Hm; [injection Hm as <-; rewrite Nat.add_0_r; by eapply genFresh_out|].
  replace (i + S j)%nat with (S i + j)%nat by lia. by apply HM.
Qed.
Lemma join_errors_Ok {A} (rs : list (res A)) ms : join_errors rs = Ok ms -> Forall2 (fun r m => r = Ok m) rs ms.
Proof. unfold join_errors. destruct (omap _ rs); [|done]. by intros E%res_mapM_Ok. Qed.

Lemma names_nodup name ns : (forall i j, 0 <= i -> 0 <= j -> name i = name j -> i = j) -> NoDup ns -> Forall (fun k => 0 <= k) ns -> NoDup (map name ns : list bytes).
Proof.
  intros Hinj. induction 1 as [|n ns Hn ND IH]; intros F; [constructor|]. apply Forall_cons_1 in F as [Hp F]. cbn. constructor; [|by apply IH].
  intros (k & E & Hk)%list_elem_of_fmap. rewrite list.Forall_forall in F. apply Hinj in E as ->; [done|done|by apply F].
Qed.
Lemma named_by name ns l : map fi_Name l = map name ns -> Forall (fun x => exists k : Z, fi_Name x = name k) l.
Proof.
  intros E. apply list.Forall_forall. intros x Hx. apply (list_elem_of_fmap_2 fi_Name) in Hx. change (fi_Name <$> l) with (map fi_Name l) in Hx. rewrite E in Hx.
  apply list_elem_of_fmap in Hx as (k & Ek & _). by exists k.
Qed.
Lemma fresh_shared i prev m : gen_fresh i m -> gen_shared i prev m (rm_Files m) [].
Proof.
  intros [EI E0 EK EF ES F (ns & EN & ND & FN)]. split; try done; [by rewrite app_nil_r| |apply submseteq_nil_l|split; [by eapply named_by|done]|].
  - rewrite E0. split; [done|]. apply Z.div_pos; lia.
  - rewrite EN. apply names_nodup; [apply fresh_name_inj|done..].
Qed.
Lemma share_out i prev m f m' f' : gen_fresh i m -> Forall sized_file (rm_Files prev) -> share cfg prev m f = (Ok m', f') -> exists clones, gen_shared i (rm_Files prev) m' (rm_Files m) clones.
Proof.
  intros [EI E0 EK EF ES F (ns & EN & ND & FN)] Fp E. apply M_bind_Ok in E as ([sum m1] & f1 & E & E2). injection E2 as <- _.
  assert (0 <= rm_Fresh m) as Hpos by lia.
  apply share_loop_out in E as (l & (EI' & EK' & EF') & ER & EX & HT & HS & cs & EN' & ND' & FC); [|done|by apply Z.quot_pos].
  rewrite Z.quot_div_nonneg in HT by done. assert (map fi_Size l ⊆+ map fi_Size (rm_Files prev)) as HC.
  { etransitivity; [by apply sublist_submseteq|]. apply Permutation_submseteq, Permutation_map, shuffle_perm. }
  assert (Forall sized_file l) as Fl.
  { apply list.Forall_forall. intros x Hx. apply (list_elem_of_fmap_2 fi_Size) in Hx. pose proof (elem_of_submseteq _ _ _ Hx HC) as (y & Ey & Hy)%list_elem_of_fmap.
    rewrite list.Forall_forall in Fp. specialize (Fp y Hy). unfold sized_file in *. by rewrite Ey. }
  exists l. split; cbn [rm_Index rm_Kept rm_Files rm_Fresh rm_Shared with_sizes]; try congruence.
  - split; congruence.
  - rewrite ER. split; lia.
  - rewrite EF'. by apply Forall_app.
  - split; by eapply named_by.
  - rewrite EF', map_app, EN, EN'. apply list.NoDup_app. split; [apply names_nodup; [apply fresh_name_inj|done..]|]. split.
    + intros x (j & -> & _)%list_elem_of_fmap (k & E & _)%list_elem_of_fmap. discriminate E.
    + apply names_nodup; [apply clone_name_inj|done|done].
Qed.
Lemma share_all_out i prev ms f ms' f' : (forall j m, ms !! j = Some m -> gen_fresh (Z.of_nat (i + j)) m) -> Forall sized_file (rm_Files prev) -> share_all cfg prev ms f = (Ok ms', f') ->
  length ms' = length ms /\ forall j m, ms' !! j = Some m -> exists p fresh clones, (prev :: ms') !! j = Some p /\ gen_shared (Z.of_nat (i + j)) (rm_Files p) m fresh clones.
Proof.
  revert i prev f ms'. induction ms as [|m ms IH]; intros i prev f ms' HG Fp E; cbn [share_all] in E; [injection E as <- _; split; [done|by intros j m Hm%list_elem_of_lookup_2%elem_of_nil]|].
  apply M_bind_Ok in E as (m1 & f1 & E1 & E). apply M_bind_Ok in E as (rest & f2 & E2 & E). injection E as <- <-.
  pose proof (HG 0%nat m eq_refl) as G0. destruct (share_out _ _ _ _ _ _ G0 Fp E1) as (cl & GS).
  destruct (IH (S i) m1 f1 rest) as [HL HM]; [|eapply gs_files; exact GS|exact E2|].
  { intros j x Hx. specialize (HG (S j) x Hx). by replace (S i + j)%nat with (i + S j)%nat by lia. }
  split; [cbn; lia|]. intros [|j] x Hx; [injection Hx as <-; by exists prev, (rm_Files m), cl|].
  destruct (HM j x Hx) as (p & fr & c & Hp & Hg). exists p, fr, c. split; [done|]. by replace (i + S j)%nat with (S i + j)%nat by lia.
Qed.
End Generated.

Section Dataset_property.
Context `{RandOk}.
(** [phaseGen] ends, and when it succeeds the manifests are those planned. *)
Lemma manifests_planned out_of_range cfg buffer worker f : 0 < buffer -> tame f ->
  match phaseGen out_of_range cfg buffer worker f with
  | (Ok ms, _) =>
    length ms = Z.to_nat (bc_refs cfg) /\
    forall i m, ms !! i = Some m -> rm_Logical m = s64 (rm_Fresh m + rm_Shared m) /\
    exists prev fresh clones, prev = match i with O => [] | S j => default [] (rm_Files <$> ms !! j) end /\
    gen_shared out_of_range cfg (Z.of_nat i) prev m fresh clones
  | (Err e, _) => OutOfFuel ∉ e
  end.
Proof.
  intros Hbuf Hf. pose proof (phaseGen_polite out_of_range cfg buffer Hbuf worker f Hf) as [_ HP]. destruct (phaseGen _ _ _ _ f) as [[ms|e] f'] eqn:E; [|exact HP]. clear HP.
  apply M_bind_Ok in E as (u & f1 & _ & E). destruct (bc_refs cfg <? 0); [done|]. destruct (fresh_all _ _ _ _ _ _ _) as [rs f2] eqn:EA.
  apply M_bind_Ok in E as (ms0 & f3 & EJ & E). injection EJ as EJ <-. apply join_errors_Ok in EJ. destruct (fresh_all_out _ _ _ _ _ _ _ _ _ _ EA EJ) as [HL HG].
  apply M_bind_Ok in E as (ms1 & f4 & ES & E). injection E as <- _. rewrite length_map. destruct ms0 as [|m0 ms0]; [by injection ES as <- _|].
  apply M_bind_Ok in ES as (rest & f5 & ES & E). injection E as <- _. pose proof (HG 0%nat m0 eq_refl) as G0.
  destruct (share_all_out out_of_range cfg 1 m0 ms0 f2 rest f5) as [HL' HM]; [intros j m Hm; by apply (HG (S j))|apply G0|done|].
  split; [cbn in *; lia|]. intros i m (m' & -> & Hm)%list_lookup_fmap_Some. split; [done|].
  assert (forall prev fr cl, gen_shared out_of_range cfg (Z.of_nat i) prev m' fr cl -> gen_shared out_of_range cfg (Z.of_nat i) prev (total_up m') fr cl) as HT by (intros ??? [?????????]; by split).
  destruct i as [|j].
  - injection Hm as <-. exists [], (rm_Files m0), []. split; [done|]. by apply HT, fresh_shared.
  - destruct (HM j m' Hm) as (p & fr & cl & Hp & HGS). exists (rm_Files p), fr, cl. split; [|by apply HT]. rewrite list_lookup_fmap, Hp. done.
Qed.
End Dataset_property.

(** ** A small dataset *)

(** A generator that counts, and a shuffle that reverses. *)
#[export] Instance toy_rand : Rand := { Rng := Z; NewPCG s i := s + i; IntN g n := (g mod n, g + 1); shuffled g n := rev (seq 0 n) }.
#[export] Instance toy_rand_ok : RandOk.
Proof. split; [intros g n Hn; by apply Z.mod_pos_bound|intros g n; symmetry; apply Permutation_rev]. Defined.

(** Eleven references at a millionth of the sizes, written through buffers of 128 bytes. *)
Definition small_bench : benchConfig := MkBenchConfig (bs "/out") (bs "store") 11 (fdiv (float64 1) (float64 1000000)) 100.
Definition generated (worker : nat -> nat) : res (list refManifest) * Hostfs.FS := phaseGen (fun _ => 0) small_bench 128 worker (sample_fs []).
Definition small_manifest (i : Z) : refManifest :=
  let f := MkFileInfo (fresh_name 0) (if kept i then 104 else 31) in
  if i =? 10 then MkRefManifest i (kept i) 104 31 135 [f; MkFileInfo (clone_name 0) 31]
  else MkRefManifest i (kept i) (fi_Size f) 0 (fi_Size f) [f].
Example small_dataset : (generated (fun _ => 0%nat)).1 = Ok (map small_manifest (seqZ 0 11)).
Proof. vm_compute. reflexivity. Qed.
(** What a file holds past its last whole word is what the worker's buffer held, so it depends
    on which worker was given which reference. *)
Definition second_file (worker : nat -> nat) : option kind := kind_at (tree (generated worker).2) (map bs ["out"; "ref-0003"; "f0000.bin"]%string).
Example content_depends_on_workers : second_file (fun _ => 0%nat) <> second_file (fun i => i).
Proof. vm_compute. discriminate. Qed.
