(* ===== verification/Layout.v ===== *)
(** Where the benchmark's dataset lies: starting from an empty data directory, the files of the
    tree when the generator (Dataset.v, src/cmd/amber-bench/main.go) reports success, and of
    which files of the reference before the shared ones are copies. *)
From Stdlib Require Import Floats.SpecFloat DecimalString DecimalN.
From S2P Require Import Hostfs TarExtract Restore Prelude External Chunker Readers Filepath Backup Compact Collector Cli Float Progress Dataset.

(** * Names of references *)

Definition ref_comp (i : Z) : bytes := bs "ref-" ++ zpad 4 (decimal i).
Lemma decimal_no_slash n : slash ∉ decimal n.
Proof.
  assert (forall d, slash ∉ String.list_byte_of_string (NilEmpty.string_of_uint d)) as HE.
  { induction d as [|d IH|d IH|d IH|d IH|d IH|d IH|d IH|d IH|d IH|d IH]; cbn; [apply not_elem_of_nil|..]; (apply not_elem_of_cons; by split). }
  unfold decimal, NilZero.string_of_uint. destruct (N.to_uint (Z.to_N n)) eqn:E; try apply HE. cbn. apply not_elem_of_cons. split; [done|apply not_elem_of_nil].
Qed.
Lemma zpad_no_slash w n : slash ∉ zpad w (decimal n).
Proof. unfold zpad. rewrite not_elem_of_app. split; [|apply decimal_no_slash]. by intros [? _]%elem_of_replicate. Qed.
Lemma ref_comp_entry i : entry_path [ref_comp i].
Proof.
  split; constructor; [|constructor| |constructor].
  - split_and!; discriminate.
  - unfold ref_comp. rewrite not_elem_of_app. split; [|apply zpad_no_slash]. by apply (bool_decide_unpack _).
Qed.
Lemma ref_comp_inj i j : 0 <= i -> 0 <= j -> ref_comp i = ref_comp j -> i = j.
Proof. intros Hi Hj E%app_inv_head. by eapply zpad_decimal_inj. Qed.
Definition file_name (n : bytes) : Prop := entry_path [n].
Lemma fresh_name_file k : file_name (fresh_name k).
Proof.
  split; constructor; [|constructor| |constructor].
  - split_and!; discriminate.
  - unfold fresh_name. rewrite !not_elem_of_app. split_and!; [by apply (bool_decide_unpack _)|apply zpad_no_slash|by apply (bool_decide_unpack _)].
Qed.
Lemma clone_name_file k : file_name (clone_name k).
Proof.
  split; constructor; [|constructor| |constructor].
  - split_and!; discriminate.
  - unfold clone_name. rewrite !not_elem_of_app. split_and!; [by apply (bool_decide_unpack _)|apply zpad_no_slash|by apply (bool_decide_unpack _)].
Qed.

(** [filepath.Join] below a clean path. *)
Lemma Join_slash a b : a <> [] -> Filepath.Join a (slash :: b) = Filepath.Join a b.
Proof.
  intros Ha. unfold Filepath.Join. destruct a as [|a0 a']; [done|]. set (a := a0 :: a'). unfold Clean.
  assert (forall abs, clean_comps abs (SplitSlash (a ++ slash :: slash :: b)) = clean_comps abs (SplitSlash (a ++ slash :: b))) as E.
  { intros abs. rewrite !split_app. change (SplitSlash (slash :: b)) with ([] :: SplitSlash b). unfold clean_comps. by rewrite !fold_left_app. }
  rewrite E. done.
Qed.
Lemma Join_entry a c : a <> [] -> clean_dest a -> file_name c -> Filepath.Join a c = under a [c].
Proof. intros Ha HC Hc. rewrite <- Join_slash by done. exact (Join_under a [c] Ha HC Hc). Qed.
Lemma under_under a c d : under (under a [c]) [d] = under a [c; d].
Proof. unfold under. cbn [join]. by rewrite <- app_assoc. Qed.
Lemma refDir_under cfg i : bc_data cfg <> [] -> clean_dest (bc_data cfg) -> refDir cfg i = under (bc_data cfg) [ref_comp i].
Proof. intros Hd HC. by apply Join_entry, ref_comp_entry. Qed.
Lemma file_under cfg i n : bc_data cfg <> [] -> clean_dest (bc_data cfg) -> file_name n ->
  Filepath.Join (refDir cfg i) n = under (bc_data cfg) [ref_comp i; n].
Proof.
  intros Hd HC Hn. rewrite refDir_under, <- under_under by done. apply Join_entry; [by destruct (bc_data cfg)| |done].
  rewrite <- refDir_under by done. unfold refDir. rewrite <- Join_slash by done. apply (Join_clean _ [ref_comp i]); [done|done|apply ref_comp_entry].
Qed.

(** * The data directory *)

Section Data.
Context (data : bytes) (D : path).

(** Directories of references with files in them, whose contents [C] has, and nothing else
    two levels down. *)
Record laid (C : gmap (bytes * bytes) bytes) (f : Hostfs.FS) : Prop := {
    ld_dest : dest_at data D f;
    ld_dirs r : kind_at (tree f) (D ++ [r]) = None \/ kind_at (tree f) (D ++ [r]) = Some KDir;
    ld_files r n : kind_at (tree f) (D ++ [r; n]) = KFile <$> C !! (r, n)
  }.

(** Resolution does not look into files. *)
Definition emptied (k : kind) : kind := match k with KFile _ => KFile [] | k => k end.
Definition emptied_tree (t : gmap path node) : gmap path node := (fun n => MkNode (emptied (n_kind n)) (n_attrs n)) <$> t.
Lemma kind_emptied t p : kind_at (emptied_tree t) p = emptied <$> kind_at t p.
Proof. unfold kind_at, emptied_tree. rewrite lookup_fmap. by destruct (t !! p). Qed.
Lemma resolve_emptied t l fo cur todo : resolve l (emptied_tree t) fo cur todo = resolve l t fo cur todo.
Proof.
  revert cur todo. induction l as [|l IHl]; intros cur todo; [done|]. cbn [resolve].
  revert cur. induction todo as [|c todo IH]; intros cur; [done|]. cbn [walk].
  destruct (skip c); [by apply IH|]. destruct (bool_decide _); [by apply IH|].
  pose proof (kind_emptied t (cur ++ [c])) as E. unfold kind_at in E. rewrite E. destruct (n_kind <$> t !! (cur ++ [c])) as [[]|]; try done; cbn [fmap option_fmap option_map emptied].
  - by apply IH.
  - destruct (match todo with [] => _ | _ => _ end); [done|]. by apply IHl.
Qed.
Lemma dest_emptied f f' : dest_at data D f -> fs_wf f' -> cwd f' = cwd f ->
  (forall p k, kind_at (tree f) p = Some k -> exists k', kind_at (tree f') p = Some k' /\ emptied k' = emptied k) -> dest_at data D f'.
Proof.
  intros [W N L K] W' EC HK. split; [done|done| |].
  - unfold lookup_path, start in *. destruct data as [|d0 data']; [done|]. rewrite EC, <- resolve_emptied. rewrite <- resolve_emptied in L. eapply resolve_grow; [|exact L|].
    + intros p k. rewrite !kind_emptied. intros (k0 & E0 & ->)%fmap_Some. destruct (HK _ _ E0) as (k' & E1 & E2). rewrite E1. cbn. by rewrite E2.
    + apply kind_at_is_Some. rewrite kind_emptied, K. by eexists.
  - destruct (HK _ _ K) as (k' & -> & E). by destruct k'.
Qed.

(** One file's content changes, or the file appears. *)
Record poked (q : path) (d : bytes) (f f' : Hostfs.FS) : Prop := {
    pk_cwd : cwd f' = cwd f;
    pk_here : kind_at (tree f') q = Some (KFile d);
    pk_other p : p <> q -> kind_at (tree f') p = kind_at (tree f) p
  }.
Lemma two_below r n : D ++ [r; n] = (D ++ [r]) ++ [n].
Proof. by rewrite <- app_assoc. Qed.
Lemma poked_laid C r n d f f' : laid C f -> kind_at (tree f) (D ++ [r]) = Some KDir -> poked (D ++ [r; n]) d f f' ->
  laid (<[(r, n) := d]> C) f' /\ forall r', kind_at (tree f') (D ++ [r']) = kind_at (tree f) (D ++ [r']).
Proof.
  intros [HD Hdirs Hfiles] Hr [EC EH EO].
  assert (forall r', D ++ [r'] <> D ++ [r; n]) as Hne by (by intros r' E%app_inv_head).
  assert (kind_at (tree f) (D ++ [r; n]) = None \/ exists x, kind_at (tree f) (D ++ [r; n]) = Some (KFile x)) as Hq.
  { rewrite Hfiles. destruct (C !! (r, n)); [right; by eexists|by left]. }
  assert (forall p, kind_at (tree f) p = Some KDir -> kind_at (tree f') p = Some KDir) as Dirs.
  { intros p Hp. rewrite EO; [done|]. intros ->. destruct Hq as [Hq|[x Hq]]; congruence. }
  assert (fs_wf f') as W'.
  { pose proof (da_wf _ _ _ HD) as [[WR WP] WC]. split; [split|]; [by apply Dirs| |rewrite EC; by apply Dirs].
    intros p c Hs. apply Dirs. destruct (decide (p ++ [c] = D ++ [r; n])) as [E|Hn].
    - rewrite two_below in E. apply app_inj_tail in E as [-> _]. done.
    - apply (WP p c). apply kind_at_is_Some. rewrite <- EO by done. by apply kind_at_is_Some. }
  split; [|intros r'; by apply EO]. split.
  - eapply dest_emptied; [exact HD|done|done|]. intros p k Hp. destruct (decide (p = D ++ [r; n])) as [->|Hn]; [|exists k; by rewrite EO].
    exists (KFile d). split; [done|]. destruct Hq as [Hq|[x Hq]]; [congruence|]. rewrite Hq in Hp. by injection Hp as <-.
  - intros r'. rewrite EO by done. apply Hdirs.
  - intros r' n'. destruct (decide ((r', n') = (r, n))) as [[= -> ->]|Hn]; [by rewrite EH, lookup_insert_eq|].
    rewrite lookup_insert_ne by done. rewrite EO; [apply Hfiles|]. intros E%app_inv_head. congruence.
Qed.
Lemma laid_attrs C f f' : laid C f -> attrs_inside D f f' -> laid C f'.
Proof.
  intros [HD Hdirs Hfiles] A. split; [by eapply dest_attrs|intros r; rewrite (ai_kinds _ _ _ A); apply Hdirs|intros r n; by rewrite (ai_kinds _ _ _ A)].
Qed.
Lemma laid_faults C f l : laid C f -> laid C (set_fs_faults l f).
Proof. intros HL. eapply laid_attrs; [exact HL|apply faults_attrs]. Qed.

(** ** The calls *)

Context (r n : bytes) (Hr : entry_path [r]) (Hn : file_name n).
Lemma two_entry : entry_path [r; n].
Proof using Hr Hn. destruct Hr as [H1 H2], Hn as [H3 H4]. apply Forall_cons_1 in H1 as [? _], H2 as [? _]. split; by constructor. Qed.
Lemma lookup_laid C f follow q : laid C f -> lookup_path follow (under data [r; n]) f = Ok q -> q = D ++ [r; n].
Proof using Hr Hn.
  intros HL. apply lookup_under; [apply HL|apply two_entry| |].
  - intros i Hi. cbn in Hi. assert (i = 1%nat) as -> by lia. apply (ld_dirs _ _ HL).
  - intros _ [tgt Ht]. rewrite (ld_files _ _ HL) in Ht. by destruct (C !! (r, n)).
Qed.
Lemma file_parent C f : laid C f -> is_Some (C !! (r, n)) -> kind_at (tree f) (D ++ [r]) = Some KDir.
Proof using.
  intros HL [d Hd]. apply (tw_parent _ (fw_tree _ (da_wf _ _ _ (ld_dest _ _ HL))) _ n). rewrite <- two_below. apply kind_at_is_Some. rewrite (ld_files _ _ HL), Hd. by eexists.
Qed.
Lemma OpenTrunc_laid C f mode q f' : laid C f -> OpenTrunc (under data [r; n]) mode f = (Ok q, f') -> q = D ++ [r; n] /\ laid (<[(r, n) := []]> C) f'.
Proof using Hr Hn.
  intros HL (l & [E|(k & e & [=] & _)])%call_inv. apply (laid_faults _ _ l) in HL. set (f1 := set_fs_faults l f) in *. clearbody f1. unfold open_trunc in E.
  destruct (lookup_path true (under data [r; n]) f1) as [q'|] eqn:EL; [|done]. apply (lookup_laid _ _ _ _ HL) in EL as Eq. subst q'.
  pose proof (ld_files _ _ HL r n) as HF. unfold kind_at in HF. rewrite HF in E. destruct (C !! (r, n)) as [d|] eqn:EC; cbn [fmap option_fmap option_map] in E; injection E as <- <-; (split; [done|]).
  - apply (poked_laid C r n [] f1); [done|eapply file_parent; [exact HL|by eexists]|]. split; [done| |]; cbn [tree set_tree].
    + unfold kind_at. rewrite lookup_alter_eq. destruct (tree f1 !! (D ++ [r; n])); [reflexivity|discriminate HF].
    + intros p Hp. unfold kind_at. by rewrite lookup_alter_ne.
  - assert (kind_at (tree f1) (D ++ [r]) = Some KDir) as HP.
    { unfold lookup_path in EL. destruct (under data [r; n]) as [|u0 u]; [done|]. eapply resolve_parent in EL as (p0 & c & Ep & Hp).
      - rewrite two_below in Ep. apply app_inj_tail in Ep as [-> _]. done.
      - apply (da_wf _ _ _ (ld_dest _ _ HL)).
      - unfold start. destruct (rooted _); [apply (tw_root _ (fw_tree _ (da_wf _ _ _ (ld_dest _ _ HL))))|apply (da_wf _ _ _ (ld_dest _ _ HL))].
      - apply kind_at_None. by rewrite (ld_files _ _ HL), EC. }
    apply (poked_laid C r n [] f1); [done|done|]. split; [done| |]; cbn [tree set_tree].
    + unfold kind_at. by rewrite lookup_insert_eq.
    + intros p Hp. unfold kind_at. by rewrite lookup_insert_ne.
Qed.
(** Replacing the content of the open file. *)
Lemma alter_laid C f d d' g : laid C f -> C !! (r, n) = Some d -> (forall x, n_kind x = KFile d -> n_kind (g x) = KFile d') ->
  laid (<[(r, n) := d']> C) (snd (alter_node g (D ++ [r; n]) f)).
Proof using.
  intros HL Hd Hg. pose proof (ld_files _ _ HL r n) as HF. rewrite Hd in HF. cbn in HF. unfold kind_at in HF.
  apply (poked_laid C r n d' f); [done|eapply file_parent; [exact HL|by eexists]|]. split; [done| |]; cbn [snd alter_node modify tree set_tree].
  - unfold kind_at. rewrite lookup_alter_eq. destruct (tree f !! (D ++ [r; n])) as [x|]; [|done]. cbn in *. injection HF as HF. by rewrite (Hg x HF).
  - intros p Hp. unfold kind_at. by rewrite lookup_alter_ne.
Qed.
Lemma WriteData_laid C f d x f' : laid C f -> C !! (r, n) = Some d -> WriteData (D ++ [r; n]) x f = (Ok tt, f') -> laid (<[(r, n) := d ++ x]> C) f'.
Proof using.
  intros HL Hd (l & [E|(k & e & [=] & _)])%call_inv. apply (laid_faults _ _ l) in HL.
  pose proof (alter_laid C (set_fs_faults l f) d (d ++ x) (append_data x) HL Hd) as HA. rewrite E in HA. apply HA. intros y Ey. unfold append_data. by rewrite Ey.
Qed.
Lemma OpenRead_laid C f q f' : laid C f -> OpenRead (under data [r; n]) f = (Ok q, f') -> q = D ++ [r; n] /\ laid C f' /\ is_Some (C !! (r, n)).
Proof using Hr Hn.
  intros HL (l & [E|(k & e & [=] & _)])%call_inv. apply (laid_faults _ _ l) in HL. apply M_bind_Ok in E as ([q' x] & f1 & E & E2). injection E2 as -> <-.
  apply at_path_inv in E as [-> HA]. destruct (HA q x eq_refl) as [EL Ex]. apply (lookup_laid _ _ _ _ HL) in EL as ->. split; [done|]. split; [done|].
  pose proof (ld_files _ _ HL r n) as HF. unfold kind_at in HF. rewrite Ex in HF. destruct (C !! (r, n)); [by eexists|done].
Qed.
Lemma ReadData_laid C f x f' : laid C f -> is_Some (C !! (r, n)) -> ReadData (D ++ [r; n]) f = (x, f') -> laid C f' /\ forall d, x = Ok d -> C !! (r, n) = Some d.
Proof using.
  intros HL [d Hd] (l & [E|(k & e & -> & ->)])%call_inv; apply (laid_faults _ _ l) in HL; [|by split].
  pose proof (ld_files _ _ HL r n) as HF. rewrite Hd in HF. unfold kind_at in HF. rewrite HF in E. cbn in E. injection E as <- <-. split; [done|]. by intros ? [= <-].
Qed.
End Data.

Lemma CloseFile_laid data D C f x f' : laid data D C f -> CloseFile f = (x, f') -> laid data D C f'.
Proof. intros HL E. eapply laid_attrs; [exact HL|]. by eapply close_attrs. Qed.
Lemma closed_laid data D C f x f' : laid data D C f -> orelse CloseFile (fun _ => mret tt) f = (x, f') -> laid data D C f'.
Proof.
  intros HL. unfold orelse. destruct (CloseFile f) as [[u|e] f1] eqn:E; intros [= _ <-]; by eapply CloseFile_laid.
Qed.
Lemma mkdir_laid data D C f rel mode f' : laid data D C f -> (rel = [] \/ exists r, rel = [r] /\ entry_path [r]) ->
  MkdirAll (under data rel) mode f = (Ok tt, f') -> laid data D C f'.
Proof.
  intros HL Hrel E. pose proof (ld_dest _ _ _ _ HL) as HD.
  assert (entry_path rel) as HP by (destruct Hrel as [-> |(r & -> & Hr)]; [by split; constructor|done]).
  assert (open_way D f rel) as HO.
  { intros i Hi. destruct Hrel as [-> |(r & -> & _)]; [cbn in Hi; lia|]. cbn in Hi. assert (i = 1%nat) as -> by lia. apply (ld_dirs _ _ _ _ HL). }
  assert (on_way data (under data rel) rel) as HW.
  { split; [pose proof (da_name _ _ _ HD); unfold under; destruct rel; [done|by destruct data]|]. by rewrite under_split by apply HP. }
  destruct (mkdirall_inv data D _ rel _ _ _ _ _ HD HP HO HW E) as ([IN HK] & HO' & Hdir).
  assert (forall q, (forall r, rel = [r] -> q <> [r]) -> kind_at (tree f') (D ++ q) = kind_at (tree f) (D ++ q)) as Same.
  { intros q Hq. destruct (decide (q = [])) as [->|Hne]; [rewrite app_nil_r, (da_dir _ _ _ HD); by apply (in_kinds _ _ _ IN), HD|].
    apply HK. intros i Ei%app_inv_head. destruct Hrel as [-> |(r & -> & _)]; [by rewrite take_nil in Ei|].
    destruct i; [done|]. apply (Hq r eq_refl). rewrite Ei. cbn. by rewrite take_nil. }
  split; [by eapply dest_inside| |].
  - intros r'. destruct (decide (rel = [r'])) as [->|Hne].
    + apply (HO' 1%nat). cbn. lia.
    + rewrite Same; [apply (ld_dirs _ _ _ _ HL)|]. intros r -> [= <-]. done.
  - intros r' n'. rewrite Same; [apply (ld_files _ _ _ _ HL)|]. done.
Qed.

(** * Copies *)

Section Copies.
Context (data : bytes) (D : path) (rs s r c : bytes) (Hrs : entry_path [rs]) (Hs : file_name s) (Hr : entry_path [r]) (Hc : file_name c) (Hne : rs <> r).
Lemma source_kept (C : gmap (bytes * bytes) bytes) x : <[(r, c) := x]> C !! (rs, s) = C !! (rs, s).
Proof using Hne. apply lookup_insert_ne. intros E. injection E as E _. by apply Hne. Qed.
Lemma copyFile_laid C f f' : laid data D C f -> copyFile (under data [rs; s]) (under data [r; c]) f = (Ok tt, f') ->
  exists d, C !! (rs, s) = Some d /\ laid data D (<[(r, c) := d]> C) f'.
Proof using Hrs Hs Hr Hc Hne.
  intros HL E. apply M_bind_Ok in E as (i & f1 & E1 & E). apply (OpenRead_laid data D rs s Hrs Hs C) in E1 as (-> & HL1 & HS); [|done].
  apply M_bind_Ok in E as (o & f2 & E2 & E). apply (OpenTrunc_laid data D r c Hr Hc C) in E2 as [-> HL2]; [|done].
  apply M_bind_Ok in E as ([] & f3 & E3 & E). unfold orelse at 1 in E3.
  destruct ((d ← ReadData (D ++ [rs; s]); WriteData (D ++ [r; c]) d) f2) as [[[]|e] f4] eqn:E4; [injection E3 as <-|].
  - apply M_bind_Ok in E4 as (d & f5 & E5 & E4). apply (ReadData_laid data D rs s (<[(r, c) := []]> C)) in E5 as [HL5 HD]; [|done|by rewrite source_kept].
    specialize (HD d eq_refl). rewrite source_kept in HD. exists d. split; [done|]. apply (WriteData_laid data D r c (<[(r, c) := []]> C) _ []) in E4; [|done|by rewrite lookup_insert_eq].
    rewrite insert_insert_eq in E4. by eapply CloseFile_laid.
  - apply M_bind_Ok in E3 as (u & f5 & _ & E3). done.
Qed.
(** Cloned or copied, the new file holds what the source holds. *)
Lemma cloneFile_laid C f f' : laid data D C f -> cloneFile (under data [rs; s]) (under data [r; c]) f = (Ok tt, f') ->
  exists d, C !! (rs, s) = Some d /\ laid data D (<[(r, c) := d]> C) f'.
Proof using Hrs Hs Hr Hc Hne.
  intros HL E. apply M_bind_Ok in E as (i & f1 & E1 & E). apply (OpenRead_laid data D rs s Hrs Hs C) in E1 as (-> & HL1 & HS); [|done].
  apply M_bind_Ok in E as (o & f2 & E2 & E). apply (OpenTrunc_laid data D r c Hr Hc C) in E2 as [-> HL2]; [|done].
  apply M_bind_Ok in E as (st & f3 & E3 & E). unfold orelse at 1 in E3. unfold mbind at 1, M_bind at 1 in E3.
  destruct (ReadData (D ++ [rs; s]) f2) as [x f4] eqn:E4. apply (ReadData_laid data D rs s (<[(r, c) := []]> C)) in E4 as [HL4 HD]; [|done|by rewrite source_kept].
  destruct x as [d|e].
  - specialize (HD d eq_refl). rewrite source_kept in HD. unfold mbind, M_bind in E3.
    pose proof (alter_laid data D r c _ f4 [] d (fun n => MkNode (KFile d) (n_attrs n)) HL4 ltac:(by rewrite lookup_insert_eq) ltac:(done)) as HA.
    unfold alter_node, modify in E3, HA. cbn [fst snd mret M_ret] in E3, HA. injection E3 as <- <-. rewrite insert_insert_eq in HA. exists d. split; [done|]. by eapply CloseFile_laid.
  - injection E3 as <- <-. apply M_bind_Ok in E as (u & f5 & E5 & E). apply (closed_laid data D _ _ _ _ HL4) in E5.
    destruct (copyFile_laid _ _ _ E5 E) as (d & Hd & HL'). rewrite source_kept in Hd. rewrite insert_insert_eq in HL'. by exists d.
Qed.
End Copies.

(** * Fresh files *)

Section Laying.
Context `{HRand : RandOk} (out_of_range : spec_float -> Z) (cfg : benchConfig) (buffer : Z) (Hbuf : 0 < buffer) (D : path).
Context (Hdata : bc_data cfg <> []) (Hclean : clean_dest (bc_data cfg)).
Local Abbreviation laid := (laid (bc_data cfg) D).

Lemma write_loop_laid r n fuel size x w w' C d : laid C (wk_fs w) -> C !! (r, n) = Some d -> zlen (wk_buf w) = buffer ->
  write_loop fuel (D ++ [r; n]) size x w = (Ok tt, w') ->
  exists d', zlen d' = zlen d + Z.max 0 size /\ laid (<[(r, n) := d']> C) (wk_fs w') /\ zlen (wk_buf w') = buffer.
Proof using Hbuf.
  revert size x w C d. induction fuel as [|fuel IH]; intros size x w C d HL Hd Hb E; cbn [write_loop] in E; (destruct (Z.leb_spec size 0) as [Hs|Hs];
    [injection E as <-; exists d; rewrite insert_id by done; split; [lia|done]|]); [done|].
  cbv zeta in E. set (k := Z.to_nat (Z.min (zlen (wk_buf w)) size)) in *. pose proof (length_fill k x (wk_buf w)) as HF. destruct (fill k x (wk_buf w)) as [buf y]. cbn [fst] in HF.
  assert (k <= length (wk_buf w))%nat as Hk by (unfold k, zlen; lia). specialize (HF Hk).
  apply M_bind_Ok in E as ([] & w1 & E1 & E). unfold on_fs in E1. cbn [wk_fs wk_buf] in E1. unfold orelse at 1 in E1.
  destruct (WriteData (D ++ [r; n]) (take k buf) (wk_fs w)) as [[[]|e] f1] eqn:EW.
  - injection E1 as <-. apply (WriteData_laid (bc_data cfg) D r n C _ d) in EW; [|done..].
    destruct (IH (size - Z.of_nat k) y (MkWorker buf f1) _ (d ++ take k buf) EW) as (d' & HZ & HL' & HB); [by rewrite lookup_insert_eq|cbn; unfold zlen in *; lia|exact E|].
    rewrite insert_insert_eq in HL'. exists d'. split; [|done]. rewrite HZ, zlen_app. unfold zlen at 2. rewrite length_take. unfold zlen in *. lia.
  - destruct ((_ ← orelse CloseFile (fun _ => mret tt); fail e) f1) as [r1 f2] eqn:E2. injection E1 as -> _. apply M_bind_Ok in E2 as (u & f3 & _ & E2). done.
Qed.
Lemma writeRandom_laid i n size s w w' C : file_name n -> laid C (wk_fs w) -> zlen (wk_buf w) = buffer ->
  writeRandom (Filepath.Join (refDir cfg i) n) size s w = (Ok tt, w') ->
  exists d, zlen d = Z.max 0 size /\ laid (<[(ref_comp i, n) := d]> C) (wk_fs w') /\ zlen (wk_buf w') = buffer.
Proof using Hbuf Hdata Hclean.
  intros Hn HL Hb E. unfold writeRandom in E. rewrite file_under in E by done. apply M_bind_Ok in E as (q & w1 & E1 & E). unfold on_fs in E1.
  destruct (OpenTrunc _ _ (wk_fs w)) as [r1 f1] eqn:EO. injection E1 as -> <-. apply (OpenTrunc_laid _ D _ _ (ref_comp_entry i) Hn C) in EO as [-> HL1]; [|done].
  apply M_bind_Ok in E as ([] & w2 & E2 & E). destruct (write_loop_laid _ _ _ _ _ (MkWorker (wk_buf w) f1) _ _ [] HL1 ltac:(by rewrite lookup_insert_eq) Hb E2) as (d & HZ & HL2 & HB2).
  rewrite insert_insert_eq in HL2. unfold on_fs in E. destruct (CloseFile (wk_fs w2)) as [r3 f3] eqn:EC. injection E as _ <-.
  exists d. split; [done|]. split; [by eapply CloseFile_laid|done].
Qed.

(** The files of a manifest are there, with their sizes. *)
Definition holds (C : gmap (bytes * bytes) bytes) (r : bytes) (l : list fileInfo) : Prop :=
  Forall (fun x => exists d, C !! (r, fi_Name x) = Some d /\ zlen d = fi_Size x) l.
(** Only the files [ns] of [r] differ. *)
Definition same_but (r : bytes) (ns : list bytes) (C C' : gmap (bytes * bytes) bytes) : Prop :=
  forall r' n', r' <> r \/ n' ∉ ns -> C' !! (r', n') = C !! (r', n').
Lemma same_but_new r ns C C' r' n' : same_but r ns C C' -> is_Some (C' !! (r', n')) -> is_Some (C !! (r', n')) \/ (r' = r /\ n' ∈ ns).
Proof using.
  intros HS HC. destruct (decide (r' = r)) as [->|Hr]; [|left; by rewrite <- (HS r' n') by (by left)].
  destruct (decide (n' ∈ ns)) as [Hn|Hn]; [by right|]. left. by rewrite <- (HS r n') by (by right).
Qed.
Lemma holds_same r r' ns C C' l : same_but r ns C C' -> (r' = r -> forall x, x ∈ l -> fi_Name x ∉ ns) -> holds C r' l -> holds C' r' l.
Proof using.
  intros HS HN HF. apply list.Forall_forall. intros x Hx. unfold holds in HF. rewrite list.Forall_forall in HF. destruct (HF x Hx) as (d & Hd & HZ). exists d. split; [|done].
  rewrite HS; [done|]. destruct (decide (r' = r)) as [->|Hr]; [right; by apply HN|by left].
Qed.

Lemma fresh_loop_laid fuel i n remaining g m w m' w' C : 0 <= n -> laid C (wk_fs w) -> zlen (wk_buf w) = buffer ->
  fresh_loop cfg fuel i n remaining g m w = (Ok m', w') ->
  exists l C', rm_Files m' = rm_Files m ++ l /\ laid C' (wk_fs w') /\ zlen (wk_buf w') = buffer /\ holds C' (ref_comp i) l /\
  same_but (ref_comp i) (map fi_Name l) C C' /\ Forall (fun x => exists k, n <= k /\ fi_Name x = fresh_name k) l.
Proof using Hbuf Hdata Hclean HRand.
  revert n remaining g m w C. induction fuel as [|fuel IH]; intros n remaining g m w C Hn HL Hb E; cbn [fresh_loop] in E; (destruct (Z.leb_spec remaining 0) as [Hs|Hs];
    [injection E as <- <-; exists [], C; rewrite app_nil_r; split_and!; try done; constructor|]); [done|].
  pose proof (picked_size g remaining Hs) as HP. destruct (IntN g _) as [k g']. cbn [fst] in HP. cbv zeta in E, HP. set (size := Z.min _ _) in *.
  apply M_bind_Ok in E as ([] & w1 & E1 & E). destruct (writeRandom_laid i (fresh_name n) size _ w w1 C (fresh_name_file n) HL Hb E1) as (d & HZ & HL1 & Hb1).
  destruct (IH (n + 1) _ _ _ _ _ ltac:(lia) HL1 Hb1 E) as (l & C' & EF & HL' & Hb' & HH & HS & HN). cbn [rm_Files with_sizes with_file] in EF.
  assert (fresh_name n ∉ map fi_Name l) as Hnew.
  { intros (x & Ex & Hx)%list_elem_of_fmap. rewrite list.Forall_forall in HN. destruct (HN x Hx) as (j & Hj & Ej). rewrite Ej in Ex. apply fresh_name_inj in Ex; lia. }
  exists (MkFileInfo (fresh_name n) size :: l), C'. rewrite EF, <- app_assoc. split_and!; [done..| | |].
  - constructor; [|done]. exists d. cbn [fi_Name fi_Size]. split; [|lia]. rewrite (HS (ref_comp i) (fresh_name n)) by (by right). by rewrite lookup_insert_eq.
  - intros r' n' Hout. cbn [map] in Hout. rewrite HS by (destruct Hout as [?|[_ ?]%not_elem_of_cons]; [by left|by right]).
    apply lookup_insert_ne. intros [= <- <-]. destruct Hout as [?|[? _]%not_elem_of_cons]; done.
  - constructor; [exists n; split; [lia|done]|]. eapply list.Forall_impl; [exact HN|]. intros x (j & Hj & Ej). exists j. split; [lia|done].
Qed.

(** A name that the generator gives. *)
Definition given (n : bytes) : Prop := exists k, n = fresh_name k \/ n = clone_name k.
Lemma given_file n : given n -> file_name n.
Proof using. intros (k & [-> | ->]); [apply fresh_name_file|apply clone_name_file]. Qed.
Definition givens (l : list fileInfo) : Prop := Forall (fun x => given (fi_Name x)) l.

Lemma genFresh_laid i w m w' C : laid C (wk_fs w) -> zlen (wk_buf w) = buffer -> genFresh out_of_range cfg i w = (Ok m, w') ->
  exists C', laid C' (wk_fs w') /\ zlen (wk_buf w') = buffer /\ holds C' (ref_comp i) (rm_Files m) /\ same_but (ref_comp i) (map fi_Name (rm_Files m)) C C' /\
  rm_Index m = i /\ Forall (fun x => exists k, fi_Name x = fresh_name k) (rm_Files m).
Proof using Hbuf Hdata Hclean HRand.
  intros HL Hb E. pose proof E as E0. unfold genFresh in E. apply M_bind_Ok in E as ([] & w1 & E1 & E). unfold on_fs in E1.
  destruct (MkdirAll _ _ (wk_fs w)) as [r1 f1] eqn:EM. injection E1 as -> <-. rewrite refDir_under in EM by done.
  eapply mkdir_laid in EM; [|exact HL|right; exists (ref_comp i); split; [done|apply ref_comp_entry]]. cbv zeta in E.
  destruct (fresh_loop_laid _ _ _ _ _ _ (MkWorker (wk_buf w) f1) _ _ C (Z.le_refl 0) EM Hb E) as (l & C' & EF & HL' & Hb' & HH & HS & HN). cbn [rm_Files app] in EF. rewrite EF.
  exists C'. split_and!; [done..| |].
  - by apply (genFresh_out out_of_range cfg i w m w') in E0 as [? _ _ _ _ _ _].
  - eapply list.Forall_impl; [exact HN|]. intros x (k & _ & Ek). by exists k.
Qed.

(** The references from [i] on, before the sharing. *)
Definition laid_from (i : nat) (ms : list refManifest) (C : gmap (bytes * bytes) bytes) : Prop :=
  forall j m, ms !! j = Some m -> holds C (ref_comp (Z.of_nat (i + j))) (rm_Files m).
(** What is new belongs to a file that some manifest lists. *)
Definition listed_from (i : nat) (ms : list refManifest) (C C' : gmap (bytes * bytes) bytes) : Prop :=
  forall r n, is_Some (C' !! (r, n)) -> is_Some (C !! (r, n)) \/ exists j m, ms !! j = Some m /\ r = ref_comp (Z.of_nat (i + j)) /\ n ∈ map fi_Name (rm_Files m).
(** What other references have does not change. *)
Definition apart_from (i : nat) (ms : list refManifest) (C C' : gmap (bytes * bytes) bytes) : Prop :=
  forall r n, (forall j, (j < length ms)%nat -> r <> ref_comp (Z.of_nat (i + j))) -> C' !! (r, n) = C !! (r, n).
Lemma ref_before i j : (i < j)%nat -> ref_comp (Z.of_nat i) <> ref_comp (Z.of_nat j).
Proof using. intros Hij E%ref_comp_inj; lia. Qed.
Lemma holds_apart i ms C C' k l : (forall j, (j < length ms)%nat -> k <> (i + j)%nat) -> apart_from i ms C C' -> holds C (ref_comp (Z.of_nat k)) l -> holds C' (ref_comp (Z.of_nat k)) l.
Proof using.
  intros Hk HA HF. eapply list.Forall_impl; [exact HF|]. intros x (d & Hd & HZ). exists d. split; [|done]. rewrite HA; [done|].
  intros j Hj E%ref_comp_inj; [|lia..]. apply (Hk j Hj). lia.
Qed.
Lemma listed_cons i m ms C C1 C' : same_but (ref_comp (Z.of_nat i)) (map fi_Name (rm_Files m)) C C1 -> listed_from (S i) ms C1 C' -> listed_from i (m :: ms) C C'.
Proof using.
  intros HS HL r n Hn. destruct (HL r n Hn) as [H1|(j & x & Hj & -> & Hx)].
  - destruct (same_but_new _ _ _ _ _ _ HS H1) as [?|[-> ?]]; [by left|]. right. exists 0%nat, m. by rewrite Nat.add_0_r.
  - right. exists (S j), x. replace (i + S j)%nat with (S i + j)%nat by lia. done.
Qed.
Lemma apart_cons i m ms C C1 C' ns : same_but (ref_comp (Z.of_nat i)) ns C C1 -> apart_from (S i) ms C1 C' -> apart_from i (m :: ms) C C'.
Proof using.
  intros HS HA r n Hr. rewrite HA, HS; [done| |].
  - left. specialize (Hr 0%nat ltac:(cbn; lia)). by rewrite Nat.add_0_r in Hr.
  - intros j Hj. specialize (Hr (S j) ltac:(cbn; lia)). by replace (S i + j)%nat with (i + S j)%nat by lia.
Qed.

Lemma fresh_all_laid worker bufs n i f rs f' ms C : fresh_all out_of_range cfg worker bufs n i f = (rs, f') -> Forall2 (fun r m => r = Ok m) rs ms ->
  (forall k, zlen (bufs k) = buffer) -> laid C f ->
  exists C', laid C' f' /\ laid_from i ms C' /\ listed_from i ms C C' /\ apart_from i ms C C' /\
  forall j m, ms !! j = Some m -> rm_Index m = Z.of_nat (i + j) /\ Forall (fun x => exists k, fi_Name x = fresh_name k) (rm_Files m).
Proof using Hbuf Hdata Hclean HRand.
  revert bufs i f rs f' ms C. induction n as [|n IH]; intros bufs i f rs f' ms C E F Hb HL; cbn [fresh_all] in E.
  { injection E as <- <-. inversion F; subst. exists C. split_and!; [done|by intros j m [=]|intros r n Hn; by left|done|by intros j m [=]]. }
  destruct (genFresh _ _ _ _) as [r w] eqn:EG. destruct (fresh_all _ _ _ _ n _ _) as [rs1 f1] eqn:EA. injection E as <- <-. inversion F as [|? m ? ms' -> F']; subst.
  destruct (genFresh_laid _ (MkWorker (bufs (worker i)) f) _ _ C HL (Hb _) EG) as (C1 & HL1 & Hb1 & HH1 & HS1 & HI1 & HN1).
  destruct (IH _ _ _ _ _ _ C1 EA F') as (C' & HL' & HF' & HLi & HA & HM); [intros k; by case_bool_decide|done|].
  exists C'. split_and!; [done| |by eapply listed_cons|by eapply apart_cons|].
  - intros [|j] x Hx; [injection Hx as <-|].
    + rewrite Nat.add_0_r. eapply holds_apart; [|exact HA|exact HH1]. intros k _. lia.
    + replace (i + S j)%nat with (S i + j)%nat by lia. by apply HF'.
  - intros [|j] x Hx; [injection Hx as <-; by rewrite Nat.add_0_r|]. replace (i + S j)%nat with (S i + j)%nat by lia. by apply HM.
Qed.

(** * Shared files *)

(** The file [c] of [r] is a copy of the file [s] of [rs]. *)
Definition copied (C : gmap (bytes * bytes) bytes) (rs r : bytes) (s c : fileInfo) : Prop :=
  fi_Size c = fi_Size s /\ exists d, C !! (rs, fi_Name s) = Some d /\ C !! (r, fi_Name c) = Some d.
Lemma share_loop_laid i c target sum prev m f sum' m' f' C : 0 <= c -> 1 <= i -> laid C f -> givens prev ->
  share_loop cfg i c target sum prev m f = (Ok (sum', m'), f') ->
  exists l srcs C', rm_Files m' = rm_Files m ++ l /\ sublist srcs prev /\ laid C' f' /\ Forall2 (copied C' (ref_comp (i - 1)) (ref_comp i)) srcs l /\
  same_but (ref_comp i) (map fi_Name l) C C' /\ Forall (fun x => exists k, c <= k /\ fi_Name x = clone_name k) l.
Proof using Hdata Hclean.
  intros Hc Hi. assert (ref_comp (i - 1) <> ref_comp i) as Hne by (intros E%ref_comp_inj; lia).
  revert c sum m f C Hc. induction prev as [|p prev IH]; intros c sum m f C Hc HL HG E; cbn [share_loop] in E.
  { injection E as <- <- <-. exists [], [], C. rewrite app_nil_r. split_and!; try done; constructor. }
  apply Forall_cons_1 in HG as [Hp HG]. destruct (_ <? _).
  - destruct (IH (c + 1) _ _ _ _ ltac:(lia) HL HG E) as (l & srcs & C' & EF & HSub & HL' & HC & HS & HN). exists l, srcs, C'. split_and!; try done.
    + by apply sublist_cons.
    + eapply list.Forall_impl; [exact HN|]. intros x (k & Hk & Ek). exists k. split; [lia|done].
  - apply M_bind_Ok in E as ([] & f1 & E1 & E). cbv beta in E1. destruct (cloneFile _ _ f) as [r1 f2] eqn:EC. injection E1 as Er <-.
    assert (r1 = Ok tt) as -> by (destruct r1 as [[]|]; [done|discriminate Er]).
    rewrite (file_under cfg (i - 1)) in EC by (done || by apply given_file). rewrite (file_under cfg i (clone_name c)) in EC by (done || apply clone_name_file).
    destruct (cloneFile_laid _ D _ _ _ _ (ref_comp_entry _) (given_file _ Hp) (ref_comp_entry _) (clone_name_file c) Hne C f f2 HL EC) as (d & Hd & HL1).
    destruct (IH (c + 1) _ _ _ _ ltac:(lia) HL1 HG E) as (l & srcs & C' & EF & HSub & HL' & HC & HS & HN). cbn [rm_Files with_file] in EF.
    assert (clone_name c ∉ map fi_Name l) as Hnew.
    { intros (x & Ex & Hx)%list_elem_of_fmap. rewrite list.Forall_forall in HN. destruct (HN x Hx) as (j & Hj & Ej). rewrite Ej in Ex. apply clone_name_inj in Ex; lia. }
    exists (MkFileInfo (clone_name c) (fi_Size p) :: l), (p :: srcs), C'. rewrite EF, <- app_assoc. split_and!; [done|by apply sublist_skip|done| | |].
    + constructor; [|done]. split; [done|]. exists d. cbn [fi_Name]. split.
      * rewrite HS by (by left). rewrite lookup_insert_ne; [done|]. intros E'. apply (f_equal fst) in E'. by apply Hne.
      * rewrite HS by (by right). by rewrite lookup_insert_eq.
    + intros r' n' Hout. cbn [map] in Hout. rewrite HS by (destruct Hout as [?|[_ ?]%not_elem_of_cons]; [by left|by right]).
      apply lookup_insert_ne. intros [= <- <-]. destruct Hout as [?|[? _]%not_elem_of_cons]; done.
    + constructor; [exists c; split; [lia|done]|]. eapply list.Forall_impl; [exact HN|]. intros x (j & Hj & Ej). exists j. split; [lia|done].
Qed.
Lemma share_laid prev m f m' f' C : 1 <= rm_Index m -> laid C f -> givens (rm_Files prev) -> share cfg prev m f = (Ok m', f') ->
  exists l srcs C', rm_Files m' = rm_Files m ++ l /\ srcs ⊆+ rm_Files prev /\ laid C' f' /\ Forall2 (copied C' (ref_comp (rm_Index m - 1)) (ref_comp (rm_Index m))) srcs l /\
  same_but (ref_comp (rm_Index m)) (map fi_Name l) C C' /\ Forall (fun x => exists k, fi_Name x = clone_name k) l.
Proof using Hdata Hclean HRand.
  intros Hi HL HG E. apply M_bind_Ok in E as ([sum m1] & f1 & E & E2). injection E2 as <- <-. pose proof (shuffle_perm (NewPCG (rand_seed + 1) (u64 (rm_Index m))) (rm_Files prev)) as HP.
  assert (givens (shuffle_files (NewPCG (rand_seed + 1) (u64 (rm_Index m))) (rm_Files prev))) as HG' by (unfold givens; by rewrite HP).
  destruct (share_loop_laid _ _ _ _ _ _ _ _ _ _ C (Z.le_refl 0) Hi HL HG' E) as (l & srcs & C' & EF & HSub & HL' & HC & HS & HN).
  exists l, srcs, C'. split_and!; try done.
  - etransitivity; [by apply sublist_submseteq|]. by rewrite HP.
  - eapply list.Forall_impl; [exact HN|]. intros x (k & _ & Ek). by exists k.
Qed.

Lemma copied_holds C C1 rs r ns prev srcs l : rs <> r -> same_but r ns C C1 -> holds C rs prev -> srcs ⊆+ prev -> Forall2 (copied C1 rs r) srcs l -> holds C1 r l.
Proof using.
  intros Hne HS HP HSub HC. apply list.Forall_forall. intros x (j & Hj)%list_elem_of_lookup. destruct (Forall2_lookup_r _ _ _ _ _ HC Hj) as (s & Hs & ES & d & Ed & Ex).
  exists d. split; [done|]. unfold holds in HP. rewrite list.Forall_forall in HP. destruct (HP s) as (d' & Ed' & HZ).
  - eapply elem_of_submseteq; [by eapply list_elem_of_lookup_2|done].
  - rewrite HS in Ed by (by left). rewrite ES. congruence.
Qed.
Definition shared_as (C : gmap (bytes * bytes) bytes) (i : nat) (p m m' : refManifest) : Prop :=
  exists cl srcs, rm_Files m' = rm_Files m ++ cl /\ srcs ⊆+ rm_Files p /\
  Forall2 (copied C (ref_comp (Z.of_nat i)) (ref_comp (Z.of_nat (S i)))) srcs cl /\ Forall (fun x => exists k, fi_Name x = clone_name k) cl.
Lemma share_all_laid i prev ms f ms' f' C : share_all cfg prev ms f = (Ok ms', f') -> laid C f -> givens (rm_Files prev) ->
  (forall j m, ms !! j = Some m -> rm_Index m = Z.of_nat (S i + j) /\ Forall (fun x => exists k, fi_Name x = fresh_name k) (rm_Files m)) ->
  holds C (ref_comp (Z.of_nat i)) (rm_Files prev) -> laid_from (S i) ms C ->
  exists C', laid C' f' /\ length ms' = length ms /\ apart_from (S i) ms' C C' /\ listed_from (S i) ms' C C' /\ laid_from (S i) ms' C' /\
  forall j m', ms' !! j = Some m' -> exists p m, (prev :: ms') !! j = Some p /\ ms !! j = Some m /\ shared_as C' (i + j) p m m'.
Proof using Hdata Hclean HRand.
  revert i prev f ms' C. induction ms as [|m ms IH]; intros i prev f ms' C E HL HG HM HP HF; cbn [share_all] in E.
  { injection E as <- <-. exists C. split_and!; [done..|intros r n Hn; by left|done|by intros j m [=]]. }
  apply M_bind_Ok in E as (m1 & f1 & E1 & E). apply M_bind_Ok in E as (rest & f2 & E2 & E). injection E as <- <-.
  destruct (HM 0%nat m eq_refl) as [HI HN]. rewrite Nat.add_0_r in HI. pose proof (HF 0%nat m eq_refl) as HH. rewrite Nat.add_0_r in HH.
  destruct (share_laid _ _ _ _ _ C ltac:(rewrite HI; lia) HL HG E1) as (l & srcs & C1 & EF & HSub & HL1 & HC & HS & HNl). rewrite HI in HC, HS.
  replace (Z.of_nat (S i) - 1) with (Z.of_nat i) in HC by lia. pose proof (ref_before i (S i) ltac:(lia)) as Hne.
  assert (forall x k, x ∈ l -> fi_Name x <> fresh_name k) as Hclone.
  { intros x k Hx Ex. rewrite list.Forall_forall in HNl. destruct (HNl x Hx) as (j & Ej). rewrite Ej in Ex. discriminate Ex. }
  assert (holds C1 (ref_comp (Z.of_nat (S i))) (rm_Files m1)) as HH1.
  { rewrite EF. apply Forall_app. split; [|by eapply copied_holds]. eapply holds_same; [exact HS| |exact HH]. intros _ x Hx (y & Ey & Hy)%list_elem_of_fmap.
    rewrite list.Forall_forall in HN. destruct (HN x Hx) as (k & Ek). apply (Hclone y k Hy). congruence. }
  destruct (IH (S i) m1 f1 rest C1 E2 HL1) as (C' & HL' & HLen & HA & HLi & HF' & HS').
  - unfold givens. rewrite EF. apply Forall_app. split; [eapply list.Forall_impl; [exact HN|]; intros x (k & Ek); exists k; by left|eapply list.Forall_impl; [exact HNl|]; intros x (k & Ek); exists k; by right].
  - intros j x Hj. replace (S (S i) + j)%nat with (S i + S j)%nat by lia. by apply HM.
  - done.
  - intros j x Hj. replace (S (S i) + j)%nat with (S i + S j)%nat by lia. eapply holds_same; [exact HS| |by apply HF].
    intros Er%ref_comp_inj; [|lia..]. lia.
  - assert (same_but (ref_comp (Z.of_nat (S i))) (map fi_Name (rm_Files m1)) C C1) as HS2.
    { intros r n [?|Hn]; [apply HS; by left|]. apply HS. right. intros Hl. apply Hn. rewrite EF, map_app. apply elem_of_app. by right. }
    exists C'. split_and!; [done|cbn; congruence|by eapply apart_cons|by eapply listed_cons| |].
    + intros [|j] x Hx; [injection Hx as <-; rewrite Nat.add_0_r; eapply holds_apart; [|exact HA|exact HH1]; lia|].
      replace (S i + S j)%nat with (S (S i) + j)%nat by lia. by apply HF'.
    + intros [|j] x Hx; [injection Hx as <-|].
      * exists prev, m. split; [done|]. split; [done|]. rewrite Nat.add_0_r. exists l, srcs. split_and!; [done..| |done].
        eapply list.Forall2_impl; [exact HC|]. intros s c (ES & d & Ed & Ec). split; [done|]. exists d.
        split; (rewrite HA; [done|]; intros k _ Er%ref_comp_inj; lia).
      * destruct (HS' j x Hx) as (p & m0 & Hp & Hm & HSh). exists p, m0. split; [done|]. split; [done|]. by replace (i + S j)%nat with (S i + j)%nat by lia.
Qed.

Lemma phaseGen_laid worker f ms f' : phaseGen out_of_range cfg buffer worker f = (Ok ms, f') -> dest_at (bc_data cfg) D f -> empty_at f D ->
  exists C, laid C f' /\ laid_from 0 ms C /\ listed_from 0 ms ∅ C /\
  forall j m, ms !! S j = Some m -> exists p m0, ms !! j = Some p /\ shared_as C j p m0 m /\ Forall (fun x => exists k, fi_Name x = fresh_name k) (rm_Files m0).
Proof using Hbuf Hdata Hclean HRand.
  intros E HD HE. assert (laid ∅ f) as HL0.
  { assert (forall rel, rel <> [] -> kind_at (tree f) (D ++ rel) = None) as HN by (intros rel Hr; by apply kind_at_None, HE).
    split; [done|intros r; left; by apply HN|intros r n; rewrite lookup_empty; by apply HN]. }
  apply M_bind_Ok in E as ([] & f1 & EM & E). apply (mkdir_laid _ D ∅ f [] 493) in EM; [|done|by left]. destruct (bc_refs cfg <? 0); [done|].
  destruct (fresh_all _ _ _ _ _ _ _) as [rs f2] eqn:EA. apply M_bind_Ok in E as (ms0 & f3 & EJ & E). injection EJ as EJ <-. apply join_errors_Ok in EJ.
  assert (forall k : nat, zlen (replicate (Z.to_nat buffer) x00) = buffer) as Hb by (intros _; unfold zlen; rewrite length_replicate; lia).
  destruct (fresh_all_laid _ _ _ _ _ _ _ _ ∅ EA EJ Hb EM) as (C & HL & HF & HLi & _ & HM).
  apply M_bind_Ok in E as (ms1 & f4 & ES & E). injection E as <- <-.
  assert (forall j m, map total_up ms1 !! j = Some m -> exists m', ms1 !! j = Some m' /\ rm_Files m = rm_Files m') as HT.
  { intros j m (m' & -> & Hm)%list_lookup_fmap_Some. by exists m'. }
  assert (forall C', laid_from 0 ms1 C' -> laid_from 0 (map total_up ms1) C') as HTF.
  { intros C' HC j m (m' & Hm & ->)%HT. by apply HC. }
  assert (forall C', listed_from 0 ms1 ∅ C' -> listed_from 0 (map total_up ms1) ∅ C') as HTL.
  { intros C' HC r n Hn. destruct (HC r n Hn) as [?|(j & m & Hm & Hx)]; [by left|right]. exists j, (total_up m). split; [|done].
    change (map total_up ms1) with (total_up <$> ms1). by rewrite list_lookup_fmap, Hm. }
  destruct ms0 as [|m0 ms0].
  { injection ES as <- <-. exists C. split_and!; [done|by apply HTF|by apply HTL|by intros j m [=]]. }
  apply M_bind_Ok in ES as (rest & f5 & ES & E). injection E as <- <-. destruct (HM 0%nat m0 eq_refl) as [_ HN0].
  destruct (share_all_laid 0 m0 ms0 f2 rest f5 C ES HL) as (C' & HL' & HLen & HA & HLi' & HF' & HS).
  - eapply list.Forall_impl; [exact HN0|]. intros x (k & Ek). exists k. by left.
  - intros j m Hj. apply (HM (S j) m Hj).
  - apply (HF 0%nat m0 eq_refl).
  - intros j m Hj. apply (HF (S j) m Hj).
  - exists C'. split; [done|]. split; [|split].
    + apply HTF. intros [|j] x Hx; [injection Hx as <-|by apply (HF' j)]. eapply holds_apart; [|exact HA|apply (HF 0%nat m0 eq_refl)]. lia.
    + apply HTL. intros r n Hn. destruct (HLi' r n Hn) as [H1|(j & x & Hj & Er & Hx)]; [|right; by exists (S j), x].
      destruct (HLi r n H1) as [?|(j & x & Hj & -> & Hx)]; [by left|right]. destruct j as [|j]; [injection Hj as <-; by exists 0%nat, m0|].
      destruct (lookup_lt_is_Some_2 rest j) as [y Hy]; [rewrite HLen; by eapply lookup_lt_Some|]. exists (S j), y. split; [done|]. split; [done|].
      destruct (HS j y Hy) as (p & m & _ & Hm & cl & srcs & EF & _). change ((m0 :: ms0) !! S j) with (ms0 !! j) in Hj. assert (m = x) as -> by congruence. rewrite EF, map_app. apply elem_of_app. by left.
    + intros j m (m' & Hm' & EF)%HT. destruct (HS j m' Hm') as (p & m1 & Hp & Hm1 & cl & srcs & EF' & HR). exists (total_up p), m1. split.
      * change (map total_up (m0 :: rest)) with (total_up <$> (m0 :: rest)). rewrite list_lookup_fmap, Hp. done.
      * split; [exists cl, srcs; by rewrite EF|]. apply (HM (S j) m1 Hm1).
Qed.
End Laying.

(** * Property *)

(** Files of a reference's directory in the tree. *)
Definition at_ref (D : path) (i : Z) (n : bytes) : path := D ++ [ref_comp i; n].
(** The manifest's files are there with their sizes and no others are, and the clones are
    copies of files of the reference before, each of another one. *)
Record laid_out (f : Hostfs.FS) (D : path) (i : Z) (prev : list fileInfo) (m : refManifest) (clones : list fileInfo) : Prop := {
    lo_files : Forall (fun x => exists d, kind_at (tree f) (at_ref D i (fi_Name x)) = Some (KFile d) /\ zlen d = fi_Size x) (rm_Files m);
    lo_only n : is_Some (tree f !! at_ref D i n) -> n ∈ map fi_Name (rm_Files m);
    lo_clones : exists srcs, srcs ⊆+ prev /\ NoDup (map fi_Name srcs) /\
      Forall2 (fun s c => fi_Size c = fi_Size s /\ kind_at (tree f) (at_ref D i (fi_Name c)) = kind_at (tree f) (at_ref D (i - 1) (fi_Name s))) srcs clones
  }.

Lemma split_unique {A} (P Q : A -> Prop) (a b c d : list A) : (forall x, P x -> ~ Q x) -> Forall P a -> Forall Q b -> Forall P c -> Forall Q d -> a ++ b = c ++ d -> a = c /\ b = d.
Proof.
  intros HPQ Ha. revert c. induction Ha as [|x a Hx Ha IH]; intros c Hb Hc Hd E.
  - destruct Hc as [|y c Hy Hc]; [done|]. cbn in E. subst b. apply Forall_cons_1 in Hb as [Hb _]. by destruct (HPQ y).
  - destruct Hc as [|y c Hy Hc]; cbn in E; [subst d; apply Forall_cons_1 in Hd as [Hd _]; by destruct (HPQ x)|].
    injection E as -> E. destruct (IH c Hb Hc Hd E) as [-> ->]. done.
Qed.
Lemma fresh_or_clone (x : fileInfo) : (exists k, fi_Name x = fresh_name k) -> ~ exists k, fi_Name x = clone_name k.
Proof. intros (k & Ek) (j & Ej). rewrite Ek in Ej. discriminate Ej. Qed.

Section Layout_property.
Context `{RandOk}.
(** C36. The dataset is what the benchmark says it is, however the references are dealt to the
    workers and whatever calls fail: [phaseGen] ends, and when it succeeds there is one
    manifest for each reference, whose fresh files add up to the class's target and whose
    clones add up to at most a third of the fresh bytes; no file is empty or longer than 4 MiB
    and no two have one name. Moreover, if the data directory was empty, each reference's
    directory then holds the files of its manifest, with their sizes, and no others, and the
    clones have the contents of distinct files of the reference before it. *)
Theorem dataset_planned out_of_range cfg buffer worker f : 0 < buffer -> tame f ->
  match phaseGen out_of_range cfg buffer worker f with
  | (Ok ms, f') =>
    length ms = Z.to_nat (bc_refs cfg) /\
    forall i m, ms !! i = Some m -> rm_Logical m = s64 (rm_Fresh m + rm_Shared m) /\
    exists prev fresh clones, prev = match i with O => [] | S j => default [] (rm_Files <$> ms !! j) end /\
    gen_shared out_of_range cfg (Z.of_nat i) prev m fresh clones /\
    (forall D, clean_dest (bc_data cfg) -> dest_at (bc_data cfg) D f -> empty_at f D -> laid_out f' D (Z.of_nat i) prev m clones)
  | (Err e, _) => OutOfFuel ∉ e
  end.
Proof.
  intros Hbuf Hf. pose proof (manifests_planned out_of_range cfg buffer worker f Hbuf Hf) as HP. destruct (phaseGen _ _ _ _ f) as [[ms|e] f'] eqn:E; [|exact HP].
  destruct HP as [HLen HM]. split; [done|]. intros i m Hm. destruct (HM i m Hm) as (EL & prev & fr & cl & Ep & GS). split; [done|]. exists prev, fr, cl. split; [done|]. split; [done|].
  intros D Hclean HD HE. destruct (phaseGen_laid out_of_range cfg buffer Hbuf D (da_name _ _ _ HD) Hclean worker f ms f' E HD HE) as (C & HL & HF & HLi & HS).
  assert (forall k n, kind_at (tree f') (at_ref D k n) = KFile <$> C !! (ref_comp k, n)) as HK by (intros k n; apply (ld_files _ _ _ _ HL)).
  split.
  - eapply list.Forall_impl; [exact (HF i m Hm)|]. intros x (d & Hd & HZ). exists d. split; [|done]. rewrite HK. cbn [Nat.add] in Hd. by rewrite Hd.
  - intros n Hn. apply kind_at_is_Some in Hn. rewrite HK in Hn. apply fmap_is_Some in Hn. destruct (HLi _ _ Hn) as [HC|(j & x & Hj & Er & Hx)]; [by rewrite lookup_empty in HC; destruct HC|].
    apply ref_comp_inj in Er; [|lia..]. cbn [Nat.add] in Er. assert (i = j) as <- by lia. congruence.
  - destruct i as [|j].
    + assert (cl = []) as ->; [|exists []; rewrite Ep; split_and!; by try constructor].
      pose proof (gs_copies _ _ _ _ _ _ _ GS) as HC. rewrite Ep in HC. apply submseteq_nil_r in HC. by destruct cl.
    + destruct (HS j m Hm) as (p & m0 & Hp & (cl' & srcs & EF & HSub & HC & HN') & HN0). pose proof (gs_given _ _ _ _ _ _ _ GS) as [HG1 HG2].
      destruct (split_unique _ _ fr cl (rm_Files m0) cl' fresh_or_clone HG1 HG2 HN0 HN') as [_ ->]; [by rewrite <- EF, (gs_split _ _ _ _ _ _ _ GS)|].
      assert (prev = rm_Files p) as -> by (rewrite Ep, Hp; done). destruct (HM j p Hp) as (_ & pp & pf & pc & _ & GP). exists srcs. split; [done|]. split.
      * pose proof (gs_names _ _ _ _ _ _ _ GP) as ND. apply submseteq_Permutation in HSub as [k HPm]. rewrite HPm, map_app in ND. by apply list.NoDup_app in ND as [? _].
      * eapply list.Forall2_impl; [exact HC|]. intros s c (ES & d & Ed & Ec). split; [done|]. rewrite !HK. replace (Z.of_nat (S j) - 1) with (Z.of_nat j) by lia. by rewrite Ed, Ec.
Qed.
End Layout_property.

(** ** The small dataset in an empty directory *)

Lemma dataset_planned_witness : exists ms f' m fresh clones, generated (fun _ => 0%nat) = (Ok ms, f') /\ length ms = 11%nat /\ ms !! 10%nat = Some m /\
  gen_shared (fun _ => 0) small_bench 10 (rm_Files (small_manifest 9)) m fresh clones /\ rm_Shared m = 31 /\
  laid_out f' [c_out] 10 (rm_Files (small_manifest 9)) m clones.
Proof.
  assert (tame (sample_fs [])) as Ht by (intros n e Hin; inversion Hin).
  pose proof (dataset_planned (fun _ => 0) small_bench 128 (fun _ => 0%nat) (sample_fs []) eq_refl Ht) as HD. fold (generated (fun _ => 0%nat)) in HD.
  pose proof small_dataset as E. destruct (generated (fun _ => 0%nat)) as [r f]. cbn [fst] in E. subst r. destruct HD as [HL HM].
  destruct (HM 10%nat (small_manifest 10) ltac:(reflexivity)) as (_ & prev & fr & cl & Ep & HG & HO).
  destruct sample_fresh as [W HN HC HLk HK HE _]. specialize (HO [c_out] HC (Build_dest_at _ _ _ W HN HLk HK) HE).
  exists (map small_manifest (seqZ 0 11)), f, (small_manifest 10), fr, cl. split; [reflexivity|]. split; [reflexivity|]. split; [reflexivity|].
  rewrite Ep in HG, HO. split; [exact HG|]. split; [reflexivity|exact HO].
Defined.
