(* ===== verification/Bench.v ===== *)
(** The benchmark's phases over a store (src/cmd/amber-bench/main.go): ingesting every
    reference, deleting most of them, collecting, and the check that must find what is left
    complete. *)
From Stdlib Require Import Floats.SpecFloat.
From S2P Require Import Hostfs TarExtract Restore Prelude External Concrete Chunker Key Cborx Crc32 Record Pack Objects Readers Builder Trees Walk Amberignore Ingest Mirror Parallel Footer Disk Scan Store StoreInv StoreSpec Reopen Frame Provenance ParWrite Reference Refstore Marks Compact Sweep Segments Collector Restart Barrier Marking Runs Filepath Tar TarExport Backup IngestDir Cli Survival Durable Float Progress Session Dataset.

(** * References *)

Section References.
Context `{Blake3, Zstd, Fuse} `{Cbor (list bytes), Cbor (list DirPair), Cbor (list Entry), Cbor Reference} `{Errgroup} `{Pebble}.
Context (fuel : nat).

Definition rootOf (name : bytes) : M RefStore Key := raw ← Refstore.Get name; lift (root_of (MkRefRecord name raw)).
Definition bench_oldRoot (name : bytes) : M Stores (option Key) :=
  prev ← catch_world (prev ← on_refs (Refstore.Get name); mret (Some prev)) (fun e => if bool_decide (ErrRefNotFound ∈ e) then mret None else fail e);
  match prev with
  | Some prev => k ← lift (root_of (MkRefRecord name prev)); mret (Some k)
  | None => mret None
  end.
Definition bench_putRef (name : bytes) (root : Key) (raw : bytes) : M Stores unit :=
  _ ← bench_oldRoot name;
  _ ← on_objects (PrepareRef fuel root);
  on_refs (Refstore.Put name raw).
Definition bench_rmRef (name : bytes) : M Stores unit :=
  _ ← on_refs (rootOf name);
  on_refs (Refstore.Delete name).

(** They differ from the command's in the text of the errors. *)
Lemma record_key_root t1 t2 name raw k : root_of (MkRefRecord name raw) = Ok k -> record_key t1 t2 raw = Ok k.
Proof. unfold root_of, record_key. cbn [rr_Data]. destruct (Decode raw) as [rec|]; [|done]. cbn. intros E. by rewrite E. Qed.
Lemma bench_putRef_Ok name root raw w w' : bench_putRef name root raw w = (Ok tt, w') -> putRef fuel name root raw w = (Ok tt, w').
Proof.
  intros E. apply M_bind_Ok in E as (o & w1 & E1 & E). apply M_bind_Ok. exists o, w1. split; [|exact E].
  apply M_bind_Ok in E1 as (prev & w2 & E2 & E1). apply M_bind_Ok. exists prev, w2. split; [exact E2|]. destruct prev as [prev|]; [|done].
  apply M_bind_Ok in E1 as (k & w3 & E3 & E1). injection E3 as E3 <-. rewrite M_lift. by rewrite (record_key_root _ _ _ _ _ E3).
Qed.
Lemma bench_rmRef_Ok name w w' : bench_rmRef name w = (Ok tt, w') -> rmRef name w = (Ok tt, w').
Proof.
  intros E. apply M_bind_Ok in E as (k & w1 & E1 & E). rewrite on_refs_run in E1. destruct (rootOf name (c_refs w)) as [r1 s1] eqn:E2. injection E1 as -> <-.
  apply M_bind_Ok in E2 as (raw & s2 & E2 & E3). injection E3 as E3 <-. apply M_bind_Ok. exists raw, (MkStores (c_objects w) s2). split; [by rewrite on_refs_run, E2|].
  rewrite M_lift. by rewrite (record_key_root _ _ _ _ _ E3).
Qed.
End References.

(** * The phases *)

Record refIngest := MkRefIngest {
    ri_Index : Z; ri_Kept : bool; ri_Logical : Z; ri_Fresh : Z; ri_Shared : Z; ri_Stored : Z; ri_Deduped : Z; ri_BytesStored : Z
  }.
(** What one reference's directory and the run of its writers are: the clock, the writers'
    schedule, and what the walk of the directory does. *)
Record benchSource := MkBenchSource { so_now : Z; so_sched : list pchoice; so_out : Opts -> res Key * list Object }.
Inductive verifyError := StillPresent (i : Z) (e : option error) | NoRoot (i : Z) (e : error) | Incomplete (i : Z) (e : error).

Section Phases.
Context `{Blake3, Zstd, Fuse} `{Cbor (list bytes), Cbor (list DirPair), Cbor (list Entry), Cbor Reference} `{Errgroup} `{PebbleFiles}.
Context (gomaxprocs : nat) (cfg : benchConfig) (coll : res unit) (fuel : nat).

(** openAll and closeAll around a phase's work; [coll] is gc.Open's answer. Whatever the work
    returns, the stores are closed, and its error comes first. *)
Definition in_all {A} (body : M Stores A) : M Home A := in_store (bc_store cfg) (bc_segment cfg) coll checked body.
Definition indices : list Z := seqZ 0 (bc_refs cfg).

(** The command line's defaults. *)
Definition bench_opts : Opts := MkOpts (Z.of_nat gomaxprocs) DefaultItemBits DefaultXattrInlineMax false.
Definition ingest_ref (i : Z) (m : refManifest) (src : benchSource) : M Stores refIngest :=
  '(root, ws) ← wrapped (EMsg "ingest ref") (on_objects (fun s =>
    let '(r, ws, s) := Dir gomaxprocs bench_opts (so_sched src) (so_out src bench_opts) s in (k ← r; Ok (k, ws), s)));
  _ ← wrapped (EMsg "ref")
    (raw ← lift (Encode (new_record (refName i) root (so_now src)));
     bench_putRef fuel (refName i) root raw);
  mret (MkRefIngest i (rm_Kept m) (rm_Logical m) (rm_Fresh m) (rm_Shared m) (Stored ws) (Deduped ws) (BytesStored ws)).
Fixpoint ingest_refs (src : Z -> benchSource) (l : list (Z * refManifest)) : M Stores (list refIngest) :=
  match l with
  | [] => mret []
  | (i, m) :: l => x ← ingest_ref i m (src i); rest ← ingest_refs src l; mret (x :: rest)
  end.
Definition phaseIngest (src : Z -> benchSource) (ms : list refManifest) : M Home (list refIngest) :=
  if negb (zlen ms =? bc_refs cfg) then fail [EMsg "ingest: manifests for another number of refs (run gen first)"]
  else in_all (ingest_refs src (zip indices ms)).

Fixpoint delete_refs (l : list Z) : M Stores Z :=
  match l with
  | [] => mret 0
  | i :: l => if kept i then delete_refs l else _ ← wrapped (EMsg "rm ref") (bench_rmRef (refName i)); n ← delete_refs l; mret (n + 1)
  end.
Definition phaseDelete : M Home Z := in_all (delete_refs indices).

Definition verify_ref (i : Z) (done : Z * list verifyError) : Stores -> (Z * list verifyError) * Stores := fun w =>
  let '(n, errs) := done in
  if negb (kept i) then
    match on_refs (Refstore.Get (refName i)) w with
    | (Ok _, w) => ((n, errs ++ [StillPresent i None]), w)
    | (Err e, w) => ((n, if bool_decide (ErrRefNotFound ∈ e) then errs else errs ++ [StillPresent i (Some e)]), w)
    end
  else
    match on_refs (rootOf (refName i)) w with
    | (Err e, w) => ((n, errs ++ [NoRoot i e]), w)
    | (Ok root, w) =>
      match CheckComplete fuel root (fun k => fst (Store.Get k (c_objects w))) (Has (c_objects w)) with
      | Err e => ((n, errs ++ [Incomplete i e]), w)
      | Ok _ => ((n + 1, errs), w)
      end
    end.
Fixpoint verify_refs (l : list Z) (done : Z * list verifyError) : M Stores (Z * list verifyError) :=
  match l with
  | [] => mret done
  | i :: l => fun w => let '(done, w) := verify_ref i done w in verify_refs l done w
  end.
(** The sample restores are not modelled. *)
Definition phaseVerify : M Home (Z * list verifyError) := in_all (verify_refs indices (0, [])).

(** ** The collections, by the command *)

Context (env : SweepEnv) (show_time show_duration : Z -> bytes).
(** What the processes of one round find: the clock, the free space, the cancellation of the
    contexts, and the clock's zero. *)
Record gcRound := MkGcRound { gn_coll : res unit; gn_now : Z; gn_zero : Z; gn_low : bool; gn_ctx : nat -> option error; gn_ctx_end : option error; gn_fuel : nat; gn_times : Z * Z * Z }.
Definition policy_run : gcRunConfig := MkGcRunConfig (float64 (-1)) Second 0 0.
Definition forced_run : gcRunConfig := MkGcRunConfig (float64 0) Second 0 0.
(** The totals that a snapshot keeps of [gc status]. *)
Definition status_lines (output : bytes) : bytes :=
  match List.filter (fun line => HasPrefix line (bs "live ") || HasPrefix line (bs "last cycle")) (split_on x0a output) with
  | [] => []
  | l :: ls => fold_left (fun a b => a ++ x0a :: b) ls l
  end.
Definition snapshot_status (g : gcRound) : M Home bytes :=
  lines ← gc_status_command gomaxprocs (bc_store cfg) (bc_segment cfg) env show_time (gn_coll g) (gn_now g) (gn_zero g) (gn_ctx g) (gn_fuel g);
  mret (status_lines (concat lines)).
Definition gc_round (run : gcRunConfig) (g : gcRound) : M Home (bytes * bytes) :=
  out ← gc_run_command gomaxprocs (bc_store cfg) (bc_segment cfg) env show_duration run (gn_coll g) (gn_now g) (gn_low g) (gn_ctx g) (gn_ctx_end g) (gn_fuel g) (gn_times g);
  status ← snapshot_status g;
  mret (out, status).
(** Both need the command's binary. *)
Definition phaseGC (bin : bytes) (policy forced : gcRound) : M Home (list (bytes * bytes)) :=
  if bool_decide (bin = []) then fail [EMsg "gc: -bin (or amber-store in PATH) is required"]
  else a ← gc_round policy_run policy; b ← gc_round forced_run forced; mret [a; b].
End Phases.

(** * The report's numbers *)

Fixpoint human_loop (fuel : nat) (m div : Z) (exp : nat) : Z * nat :=
  match fuel with
  | O => (div, exp)
  | S fuel => if unit_ <=? m then human_loop fuel (Z.quot m unit_) (s64 (div * unit_)) (S exp) else (div, exp)
  end.
Definition human (n : Z) : res bytes :=
  if n <? unit_ then Ok (signed n ++ bs " B")
  else
    let '(div, exp) := human_loop 7 (Z.quot n unit_) unit_ 0 in
    c ← from_opt [EMsg "panic: index out of range"] (units !! exp);
    Ok (fixed 2 (fdiv (float64 n) (float64 div)) ++ [x20; c] ++ bs "iB").

(** The order of [slices.Sort]: numbers that are no number come first. *)
Definition is_nan (x : spec_float) : bool := match x with S754_nan => true | _ => false end.
Definition float_le (x y : spec_float) : Prop := Is_true (SFleb x y || is_nan x).
#[export] Instance float_le_dec : RelDecision float_le := fun x y => _.
Section Percentile.
Context (out_of_range : spec_float -> Z).
Definition pct (xs : list spec_float) (q : spec_float) : res spec_float :=
  match xs with
  | [] => Ok (S754_zero false)
  | _ =>
      let s := merge_sort float_le xs in
      let i := Z.min (zlen s - 1) (to_int64 out_of_range (fmul (float64 (zlen s)) q)) in
      if i <? 0 then Err [EMsg "panic: index out of range"] else from_opt [EMsg "panic: index out of range"] (s !! Z.to_nat i)
  end.
Definition median (xs : list spec_float) : res spec_float := pct xs (fdiv (float64 1) (float64 2)).
End Percentile.

Lemma human_loop_exp fuel m div exp j : 0 <= m < 1024 ^ Z.of_nat (S j) -> ((human_loop fuel m div exp).2 <= exp + j)%nat.
Proof.
  revert m div exp j. induction fuel as [|fuel IH]; intros m div exp j Hm; cbn [human_loop]; [cbn; lia|]. unfold unit_.
  destruct (Z.leb_spec 1024 m) as [HL|HL]; [|cbn; lia]. destruct j as [|j]; [change (1024 ^ Z.of_nat 1) with 1024 in Hm; lia|].
  rewrite Z.quot_div_nonneg by lia. etransitivity; [apply (IH _ _ _ j)|lia]. split; [apply Z.div_pos; lia|]. apply Z.div_lt_upper_bound; [lia|].
  rewrite (Nat2Z.inj_succ (S j)), Z.pow_succ_r in Hm by lia. lia.
Qed.
(** No byte count makes the report panic. *)
Lemma human_total n : n < 2 ^ 63 -> is_ok (human n) = true.
Proof.
  intros Hn. unfold human. destruct (Z.ltb_spec n unit_) as [HL|HL]; [done|]. unfold unit_ in *.
  pose proof (human_loop_exp 7 (Z.quot n 1024) 1024 0 5) as HE. destruct (human_loop _ _ _ _) as [div exp]. cbn [snd] in HE.
  destruct (units_lookup exp) as [c ->]; [|done]. assert (exp <= 5)%nat; [|lia]. apply HE. rewrite Z.quot_div_nonneg by lia. split; [apply Z.div_pos; lia|].
  apply Z.div_lt_upper_bound; [lia|]. change (1024 * 1024 ^ Z.of_nat 6) with (2 ^ 70). lia.
Qed.
(** A percentile is one of the numbers. *)
Lemma pct_elem out_of_range xs q x : xs <> [] -> pct out_of_range xs q = Ok x -> x ∈ xs.
Proof.
  intros Hne E. unfold pct in E. destruct xs as [|y xs]; [done|]. cbv zeta in E. destruct (_ <? 0); [done|].
  destruct (merge_sort float_le (y :: xs) !! _) as [z|] eqn:EL; [|done]. injection E as ->. apply list_elem_of_lookup_2 in EL. by rewrite merge_sort_Permutation in EL.
Qed.
Example median_of_three : median (fun _ => 0) (map float64 [30; 10; 20]) = Ok (float64 20).
Proof. vm_compute. reflexivity. Qed.
Example human_of_a_dataset : human (30 * 2 ^ 30) = Ok (bs "30.00 GiB").
Proof. vm_compute. reflexivity. Qed.

(** * What the phases leave *)

Section PhaseLemmas.
Context `{Blake3} `{HZs : ZstdOk} `{HFu : FuseOk} `{HC1 : Cbor (list bytes)} `{HC2 : Cbor (list Entry)} `{HC3 : Cbor (list DirPair)}
  `{HC4 : Cbor Reference} `{HEg : ErrgroupOk} `{HPf : PebbleFilesOk} `{!CborOk Reference reference_wf}.
Context (obj : Key -> bytes) (gomaxprocs : nat) (Hprocs : (0 < gomaxprocs)%nat) (cfg : benchConfig) (Hseg : bc_segment cfg <= SEG_MAX).

(** A reference's directory, over the content of the keys. *)
Definition source_ok (src : benchSource) : Prop := let out := so_out src (bench_opts gomaxprocs) in
  - 2 ^ 63 <= so_now src < 2 ^ 63 /\ Forall keyed out.2 /\ (forall o, o ∈ out.2 -> obj (OKey o) = OBytes o) /\ (forall k, out.1 = Ok k -> Validate k = Ok tt).
Definition present (w : Stores) (name : bytes) : Prop := is_Some (refs_of w !! name).

Lemma ingest_ref_lasting fuel i m src w x w' : source_ok src -> lasting obj w -> nextID (c_objects w) + zlen (so_sched src) < 2 ^ 64 ->
  ingest_ref gomaxprocs fuel i m src w = (Ok x, w') ->
  lasting obj w' /\ nextID (c_objects w') <= nextID (c_objects w) + zlen (so_sched src) /\ present w' (refName i) /\ forall name, present w name -> present w' name.
Proof.
  intros (Hnow & HK & HO & HV) L Hn E. unfold ingest_ref in E. apply M_bind_Ok in E as ([root ws] & w1 & E1 & E). apply wrapped_Ok in E1. unfold on_objects in E1.
  destruct (so_out src _) as [r objs] eqn:EO. cbn [fst snd] in *. destruct (Dir _ _ _ _ _) as [[r1 st] s1] eqn:ED. destruct r1 as [k|e]; [|done]. injection E1 as <- <- <-.
  apply M_bind_Ok in E as (u & w2 & E2 & E). injection E as _ <-. apply wrapped_Ok in E2. apply M_bind_Ok in E2 as (raw & w3 & E3 & E2). injection E3 as EE <-. destruct u.
  apply bench_putRef_Ok in E2. destruct (Dir_lasting obj _ _ _ _ _ _ _ _ _ Hprocs L Hn HK HO ED) as [-> L1].
  assert (root_of (MkRefRecord (refName i) raw) = Ok k) as HRo by (apply (own_record_root (refName i) raw k (so_now src)); [done|by apply HV|done]).
  pose proof (put_ref_lasting obj _ _ _ _ _ _ _ L1 HRo E2) as L2. apply putRef_out in E2 as ((c & g & EB) & EP & _). specialize (EP eq_refl).
  assert (refs_of w2 = <[refName i:=raw]> (refs_of w)) as ER by exact EP. destruct L as [[I _ _ _] [_ O _ _]].
  destruct (Dir_on_disk _ _ _ _ _ _ _ _ _ I O HK Hn ED) as (_ & Hid & _). split; [done|]. split; [by rewrite EB|].
  split; [unfold present; rewrite ER, lookup_insert_eq; by eexists|]. intros name Hp. unfold present in *. rewrite ER. by apply lookup_insert_is_Some'; right.
Qed.

Definition room (srcs : Z -> benchSource) (l : list (Z * refManifest)) : Z := foldr (fun x n => zlen (so_sched (srcs x.1)) + n) 0 l.
Lemma ingest_refs_lasting fuel srcs l w xs w' : (forall i, source_ok (srcs i)) -> lasting obj w -> nextID (c_objects w) + room srcs l < 2 ^ 64 ->
  ingest_refs gomaxprocs fuel srcs l w = (Ok xs, w') ->
  lasting obj w' /\ (forall i m, (i, m) ∈ l -> present w' (refName i)) /\ forall name, present w name -> present w' name.
Proof.
  intros HS. revert w xs w'. induction l as [|[i m] l IH]; intros w xs w' L Hn E; cbn [ingest_refs] in E.
  - injection E as _ <-. split; [done|]. split; [|done]. by intros i m Hi%elem_of_nil.
  - apply M_bind_Ok in E as (x & w1 & E1 & E). apply M_bind_Ok in E as (rest & w2 & E2 & E). injection E as _ <-. cbn [room foldr fst] in Hn. fold (room srcs l) in Hn.
    assert (0 <= room srcs l) as Hr by (clear; induction l as [|[j n] l IH]; cbn; [done|]; unfold room in IH; pose proof (zlen_nonneg (so_sched (srcs j))); lia).
    destruct (ingest_ref_lasting _ _ _ _ _ _ _ (HS i) L ltac:(lia) E1) as (L1 & Hid & Hp & Hm).
    destruct (IH _ _ _ L1 ltac:(lia) E2) as (L2 & HA & HM). split; [done|]. split; [|by auto].
    intros j n [[= -> ->]|Hj]%elem_of_cons; [by apply HM|by eapply HA].
Qed.

Lemma delete_refs_lasting l w n w' : lasting obj w -> Forall (fun i => 0 <= i) l -> delete_refs l w = (Ok n, w') ->
  lasting obj w' /\ n = zlen (filter (fun i => kept i = false) l) /\
  (forall i, i ∈ l -> kept i = false -> ~ present w' (refName i)) /\ (forall i, 0 <= i -> kept i = true -> present w (refName i) -> present w' (refName i)) /\
  (forall name, present w' name -> present w name).
Proof.
  revert w n w'. induction l as [|i l IH]; intros w n w' L F E; cbn [delete_refs] in E.
  - injection E as <- <-. split; [done|]. split; [done|]. split; [by intros i Hi%elem_of_nil|done].
  - apply Forall_cons_1 in F as [Hi F]. rewrite filter_cons. destruct (kept i) eqn:EK.
    + rewrite decide_False by done. destruct (IH _ _ _ L F E) as (L1 & EN & HD & HK & HM). split; [done|]. split; [done|]. split; [|done].
      intros j [->|Hj]%elem_of_cons Hk; [congruence|by apply HD].
    + rewrite decide_True by done. apply M_bind_Ok in E as (u & w1 & E1 & E). apply M_bind_Ok in E as (n1 & w2 & E2 & E). injection E as <- <-. destruct u.
      apply wrapped_Ok, bench_rmRef_Ok in E1. pose proof (rm_ref_lasting obj _ _ _ _ L E1) as L1. apply rmRef_out in E1 as (_ & ER & _). specialize (ER eq_refl).
      destruct (IH _ _ _ L1 F E2) as (L2 & -> & HD & HK & HM). split; [done|]. split; [by rewrite zlen_cons|].
      assert (forall name, present w1 name -> present w name) as Hback by (intros name; unfold present; rewrite ER; intros [x Hx]; apply lookup_delete_Some in Hx as [_ Hx]; by exists x).
      split; [|split; [|by auto]].
      * intros j [->|Hj]%elem_of_cons Hk; [|by apply HD]. intros HP%HM. unfold present in HP. rewrite ER, lookup_delete_eq in HP. by destruct HP.
      * intros j H0j Hk HP. apply HK; [done..|]. unfold present in *. rewrite ER, lookup_delete_ne; [done|]. intros E%refName_inj; [congruence|done..].
Qed.

(** ** Verification on stores that answer *)

Lemma complete_checked s root fuel : inv s -> addressed obj s -> closed s = false -> faults (st_disk s) = [] -> complete obj s root -> (size (store_keys s) < fuel)%nat ->
  is_ok (CheckComplete fuel root (fun k => fst (Store.Get k s)) (Has s)) = true.
Proof.
  intros I A Hc Hf HC Hfu. set (get := fun k => fst (Store.Get k s)).
  assert (forall k, there s k -> forall cs, children obj k = Ok cs -> check_step get (Has s) k = Ok (if is_leaf k then [] else cs)) as HS.
  { intros k Hk cs Hcs. unfold check_step. destruct (is_leaf k) eqn:El.
    - rewrite (Has_view s k (inv_core _ I)), Hc, bool_decide_true by done. done.
    - unfold node_children, get. rewrite (Get_there obj s I A Hc Hf k Hk). cbn [fst]. by apply node_step. }
  assert (forall k, Walk.reachable (check_step get (Has s)) root k -> reach obj root k) as HR.
  { apply rtc_ind_r; [constructor|]. intros y z _ (cs & Ecs & Hz) IH. destruct (HC y IH) as [Ht [cs' Hcs']]. rewrite (HS y Ht cs' Hcs') in Ecs. injection Ecs as <-.
    destruct (is_leaf y); [by apply elem_of_nil in Hz|]. eapply rtc_r; [exact IH|]. by exists cs'. }
  assert (exists ks, CheckComplete fuel root get (Has s) = Ok ks) as [ks E]; [|by rewrite E].
  apply (sweep_enough (check_step get (Has s)) root (elements (store_keys s))); [apply swept_start| |change (length (elements (store_keys s))) with (size (store_keys s)); cbn [length]; lia].
  intros k Hk. destruct (HC k (HR k Hk)) as [Ht [cs Hcs]]. split; [apply elem_of_elements; by apply store_keys_spec|]. eexists. by apply HS.
Qed.

(** Stores whose calls will all succeed. *)
Record answers (w : Stores) : Prop := {
    an_sound : sound_stores obj w; an_open : closed (c_objects w) = false;
    an_disk : faults (st_disk (c_objects w)) = []; an_db : healthy (rs_db (c_refs w))
  }.
Lemma get_answers name w : answers w -> exists db, let w' := MkStores (c_objects w) (MkRefStore db (rs_sync (c_refs w))) in
  refs_of w' = refs_of w /\ answers w' /\
  on_refs (Refstore.Get name) w = (match refs_of w !! name with Some raw => Ok raw | None => Err [ErrRefNotFound] end, w').
Proof.
  intros [[I W A HI] Ho Hf Hh]. rewrite on_refs_run. destruct (Refstore.Get name (c_refs w)) as [r s1] eqn:E. cbn [fst snd].
  pose proof (Get_out _ _ _ _ E) as [ER HV]. pose proof E as E'. unfold Refstore.Get, mbind, M_bind, on_db in E'. destruct (get_healthy name _ Hh) as [Hok Hh1].
  destruct (db_get name (rs_db (c_refs w))) as [r1 db] eqn:EG. cbn [fst snd] in *. destruct r1 as [o|]; [|done]. injection E' as _ <-. exists db. cbv zeta.
  split; [exact ER|]. split.
  { split; [|done..]. split; [done..|]. intros nm data Hd. apply (HI nm data). change (refs (MkRefStore db (rs_sync (c_refs w))) !! nm = Some data) in Hd. by rewrite ER in Hd. }
  f_equal. unfold refs_of. destruct r as [v|e]; [by rewrite HV|]. apply Get_absent in E as [-> Hn]; [|done]. by rewrite Hn.
Qed.
Lemma rootOf_run name (w : Stores) : on_refs (rootOf name) w = (raw ← on_refs (Refstore.Get name); lift (root_of (MkRefRecord name raw))) w.
Proof. unfold rootOf, on_refs, mbind, M_bind. by destruct (Refstore.Get name (c_refs w)) as [[raw|e] s]. Qed.
Lemma verify_ref_clean fuel i n w : answers w -> (size (store_keys (c_objects w)) < fuel)%nat -> (if kept i then present w (refName i) else ~ present w (refName i)) ->
  exists w', verify_ref fuel i (n, []) w = ((if kept i then n + 1 else n, []), w') /\ c_objects w' = c_objects w /\ refs_of w' = refs_of w /\ answers w'.
Proof.
  intros AN Hfu HP. unfold verify_ref. destruct (get_answers (refName i) w AN) as (db & ER & AN' & EG). set (w' := MkStores _ _) in *. destruct (kept i); cbn [negb].
  - destruct HP as [raw Hraw]. rewrite Hraw in EG. destruct (ss_intact _ _ (an_sound _ AN) _ _ Hraw) as (root & Hr & HC).
    assert (on_refs (rootOf (refName i)) w = (Ok root, w')) as ->.
    { rewrite rootOf_run. rewrite (M_step _ _ _ _ _ EG). unfold lift. by rewrite Hr. }
    pose proof (complete_checked (c_objects w') root fuel (ss_inv _ _ (an_sound _ AN')) (ss_addressed _ _ (an_sound _ AN')) (an_open _ AN') (an_disk _ AN') HC Hfu) as HOk.
    destruct (CheckComplete _ _ _ _); [|done]. by exists w'.
  - destruct (refs_of w !! refName i) eqn:EN; [destruct HP; by eexists|]. rewrite EG. rewrite bool_decide_true by (by left). by exists w'.
Qed.
Lemma verify_refs_clean fuel l n w : answers w -> (size (store_keys (c_objects w)) < fuel)%nat -> (forall i, i ∈ l -> if kept i then present w (refName i) else ~ present w (refName i)) ->
  exists w', verify_refs fuel l (n, []) w = (Ok (n + zlen (filter (fun i => kept i = true) l), []), w') /\ answers w'.
Proof.
  intros AN Hfu. revert n w AN Hfu. induction l as [|i l IH]; intros n w AN Hfu HP; cbn [verify_refs].
  - exists w. split; [|done]. cbn. unfold mret, M_ret. do 2 f_equal. f_equal. unfold zlen. cbn. lia.
  - destruct (verify_ref_clean fuel i n w AN Hfu (HP i ltac:(by left))) as (w1 & -> & EO & ER & AN1).
    destruct (IH (if kept i then n + 1 else n) w1) as (w2 & -> & AN2); [done|by rewrite EO| |].
    + intros j Hj. unfold present. rewrite ER. apply HP. by right.
    + exists w2. split; [|done]. do 3 f_equal. rewrite filter_cons. destruct (kept i); [rewrite decide_True by done; rewrite zlen_cons; lia|by rewrite decide_False by done].
Qed.

Definition agreeable (m : M Store unit) : Prop := forall s, faults (st_disk s) = [] -> fst (m s) = Ok tt /\ faults (st_disk (snd (m s))) = [].
Lemma each_first_agreeable l : Forall agreeable l -> agreeable (each_first l).
Proof.
  induction 1 as [|m l Hm F IH]; intros s Hs; [done|]. cbn [each_first]. destruct (Hm s Hs) as [E1 Hs1]. destruct (m s) as [r s1]. cbn [fst snd] in *. subst r.
  destruct (IH s1 Hs1) as [E2 Hs2]. by destruct (each_first l s1).
Qed.
Lemma Close_agreeable s : faults (st_disk s) = [] -> fst (Store.Close s) = Ok tt.
Proof.
  intros Hf. unfold Store.Close. rewrite M_gets. cbn [id]. destruct (closed s); [done|]. rewrite M_modify.
  assert (agreeable (io CloseFd)) as HC.
  { intros s0 Hs0. unfold io, CloseFd, attempt. rewrite Hs0. done. }
  assert (forall i, agreeable (io (Disk.Sync i))) as HS.
  { intros i s0 Hs0. unfold io, Disk.Sync, attempt. rewrite Hs0. done. }
  assert (forall f, (forall s, st_disk (f s) = st_disk s) -> agreeable (modify f)) as HM by (intros f E s0 Hs0; cbn; by rewrite E).
  apply each_first_agreeable; [|by rewrite <- Hf]. apply Forall_app. split.
  - destruct (active s) as [a|]; repeat (apply Forall_cons_2 || apply Forall_nil_2); auto.
  - apply Forall_app. split; [|repeat (apply Forall_cons_2 || apply Forall_nil_2); auto]. apply list.Forall_forall. by intros m (g & -> & _)%list_elem_of_fmap.
Qed.
Lemma closeStore_answers w : answers w -> (closeStore w).1 = Ok tt.
Proof.
  intros AN. unfold closeStore, RefClose, on_db. pose proof (close_healthy _ (an_db _ AN)) as HC. destruct (db_close _) as [r db]. cbn [fst] in HC. destruct r as [[]|]; [|done].
  pose proof (Close_agreeable _ (an_disk _ AN)) as E. destruct (Store.Close _) as [r2 s]. cbn [fst] in E. by subst r2.
Qed.

(** ** Collections *)

Lemma cycle_refs env opts now garbage low ctx ctx_end fuel w st w' : cycle env opts now garbage low ctx ctx_end fuel w = (Ok tt, st, w') -> refs_of w' = refs_of w.
Proof.
  intros E. unfold cycle in E. destruct ((rs ← snapshot; aborting (on_objects (markLive ctx fuel rs))) w) as [r1 w1] eqn:E1. destruct r1 as [live|]; [|done].
  destruct ctx_end; [done|]. apply marked_reading in E1 as [_ ER]. unfold sweep_phase in E. destruct (Compact _ _ _ _ _ _) as [r sw]. injection E as _ _ <-. exact ER.
Qed.

(** The identifiers last through a collection. *)
Definition fits (h : Home) : Prop := forall w h1, openStore (bc_store cfg) (bc_segment cfg) h = (Ok w, h1) -> nextID (c_objects w) + 2 ^ 35 * (zlen (sealed (c_objects w)) + 1) < 2 ^ 64.
Lemma gc_round_quiet env show_time show_duration run g h x h' : (0 < se_procs env)%nat -> resting obj h -> fits h -> gc_round gomaxprocs cfg env show_time show_duration run g h = (Ok x, h') ->
  rtc (invocation obj) h h' /\ names_of h' = names_of h.
Proof using All.
  intros Hp HR Hfit E. apply M_bind_Ok in E as (out & h1 & E1 & E). apply M_bind_Ok in E as (st & h2 & E2 & E). injection E as _ <-.
  assert (invocation obj h h1) as I1 by (eapply ran_gc; [exact Hp|exact Hseg|exact Hfit|exact E1]).
  assert (resting obj h1 /\ names_of h1 = names_of h) as [HR1 EN1].
  { destruct (in_store_resting obj _ _ _ _ _ _ _ _ Hseg (fun r c y => deferred_Ok r c y) HR E1) as (w & w' & hw & EO & L & EN & EB & HL).
    unfold runGCRun in EB. destruct (cycle _ _ _ _ _ _ _ _ _) as [[r cs] w1] eqn:EC. injection EB as EB <-. destruct r as [[]|e]; [|done].
    rewrite <- EN, <- (cycle_refs _ _ _ _ _ _ _ _ _ _ _ EC). apply HL.
    split; [eapply cycle_sound; [exact Hp|apply L|by eapply Hfit|exact EC]|eapply cycle_stable; [exact Hp|apply L|by eapply Hfit|exact EC]]. }
  apply M_bind_Ok in E2 as (lines & h3 & E2 & E3). injection E3 as _ <-.
  assert (invocation obj h1 h3) as I2 by (eapply ran_reader; [exact Hseg|apply runGCStatus_reader|exact E2]).
  split; [eapply rtc_l; [exact I1|by apply rtc_once]|].
  destruct (in_store_resting obj _ _ _ _ _ _ _ _ Hseg (fun r c y => deferred_Ok r c y) HR1 E2) as (w & w' & hw & EO & L & EN & EB & HL).
  destruct (runGCStatus_reader _ _ _ _ _ _ _ _ _ _ EB) as [Hrd ER]. rewrite <- EN1, <- EN, <- ER. apply HL. by eapply reading_lasting.
Qed.
Lemma phaseGC_quiet env show_time show_duration bin policy forced h l h' : (0 < se_procs env)%nat -> resting obj h -> fits h ->
  (forall x h1, gc_round gomaxprocs cfg env show_time show_duration policy_run policy h = (Ok x, h1) -> fits h1) ->
  phaseGC gomaxprocs cfg env show_time show_duration bin policy forced h = (Ok l, h') -> rtc (invocation obj) h h' /\ names_of h' = names_of h.
Proof using All.
  intros Hp HR Hfit Hfit2 E. unfold phaseGC in E. case_bool_decide; [done|]. apply M_bind_Ok in E as (a & h1 & E1 & E). apply M_bind_Ok in E as (b & h2 & E2 & E). injection E as _ <-.
  destruct (gc_round_quiet _ _ _ _ _ _ _ _ Hp HR Hfit E1) as [I1 EN1].
  destruct (gc_round_quiet _ _ _ _ _ _ _ _ Hp (invocations_resting obj _ _ HR I1) (Hfit2 _ _ E1) E2) as [I2 EN2]. split; [by etransitivity|congruence].
Qed.

(** ** The phases over the directory *)

Definition name_present (h : Home) (i : Z) : Prop := is_Some (names_of h !! refName i).
Lemma phaseIngest_resting coll fuel src ms h rs h' : (forall i, source_ok (src i)) -> resting obj h ->
  (forall w h1, openStore (bc_store cfg) (bc_segment cfg) h = (Ok w, h1) -> nextID (c_objects w) + room src (zip (indices cfg) ms) < 2 ^ 64) ->
  phaseIngest gomaxprocs cfg coll fuel src ms h = (Ok rs, h') -> resting obj h' /\ forall i, i ∈ indices cfg -> name_present h' i.
Proof using All.
  intros HS HR Hn E. unfold phaseIngest in E. destruct (Z.eqb_spec (zlen ms) (bc_refs cfg)) as [EL|]; [|done]. cbn [negb] in E.
  destruct (in_store_resting obj _ _ _ _ _ _ _ _ Hseg (fun r c y => checked_Ok r c y) HR E) as (w & w' & hw & EO & L & EN & EB & HL).
  destruct (ingest_refs_lasting _ _ _ _ _ _ HS L (Hn _ _ EO) EB) as (L' & HP & _). destruct (HL L') as [HR' EN']. split; [done|].
  intros i Hi. unfold name_present. rewrite EN'. apply list_elem_of_lookup_1 in Hi as [j Hj].
  destruct (lookup_lt_is_Some_2 ms j) as [m Hm]; [apply lookup_lt_Some in Hj; unfold indices in Hj; rewrite length_seqZ in Hj; unfold zlen in EL; lia|].
  apply (HP i m). apply (list_elem_of_lookup_2 _ j). by apply lookup_zip_Some.
Qed.
Lemma phaseDelete_resting coll h n h' : resting obj h -> phaseDelete cfg coll h = (Ok n, h') ->
  resting obj h' /\ n = zlen (filter (fun i => kept i = false) (indices cfg)) /\
  (forall i, i ∈ indices cfg -> kept i = false -> ~ name_present h' i) /\ (forall i, i ∈ indices cfg -> kept i = true -> name_present h i -> name_present h' i).
Proof using All.
  intros HR E. destruct (in_store_resting obj _ _ _ _ _ _ _ _ Hseg (fun r c y => checked_Ok r c y) HR E) as (w & w' & hw & EO & L & EN & EB & HL).
  assert (Forall (fun i => 0 <= i) (indices cfg)) as F by (apply list.Forall_forall; intros i Hi%elem_of_seqZ; lia).
  destruct (delete_refs_lasting _ _ _ _ L F EB) as (L' & EN' & HD & HK & _). destruct (HL L') as [HR' ER]. split; [done|]. split; [done|].
  unfold name_present, present in *. rewrite ER, <- EN. split; [done|]. intros i Hi. apply HK. rewrite list.Forall_forall in F. by apply F.
Qed.
Lemma phaseVerify_clean h : bc_store cfg <> [] -> resting obj h -> faults (ho_disk h) = [] -> healthy (ho_db h) ->
  (forall i, i ∈ indices cfg -> if kept i then name_present h i else ~ name_present h i) ->
  exists N, forall fuel, (N <= fuel)%nat -> exists h', phaseVerify cfg (Ok tt) fuel h = (Ok (zlen (filter (fun i => kept i = true) (indices cfg)), []), h').
Proof using All.
  intros Hd HR Hf Hh HP. destruct (openStore_rested obj _ _ _ Hd Hseg HR Hf Hh) as (w & h1 & EO & L & EN & Hc & Hf2 & Hh2).
  assert (answers w) as AN by (by split; [apply L|..]). exists (S (size (store_keys (c_objects w)))). intros fuel Hfu.
  destruct (verify_refs_clean fuel (indices cfg) 0 w AN ltac:(lia)) as (w' & EV & AN').
  { intros i Hi. specialize (HP i Hi). unfold name_present in HP. unfold present. by rewrite EN. }
  unfold phaseVerify, in_all, in_store. rewrite EO, EV. pose proof (closeStore_answers _ AN') as EC. destruct (closeStore w') as [c w2]. cbn [fst] in EC. subst c.
  exists (leave w2). done.
Qed.
End PhaseLemmas.

(** * Property *)

Section Benchmark.
Context `{Blake3} `{ZstdOk} `{FuseOk} `{Cbor (list bytes)} `{Cbor (list Entry)} `{Cbor (list DirPair)} `{Cbor Reference} `{ErrgroupOk} `{PebbleFilesOk} `{!CborOk Reference reference_wf}.

(** C4. The benchmark's last phase finds nothing wrong. Its phases run in order over a store
    directory that earlier processes left in order: [phaseIngest] stores every reference,
    [phaseDelete] removes the deleted class, [phaseGC] runs the command's policy and forced
    collections; any system or database call may fail on the way as long as each phase still
    returns no error. Then, if the calls of [phaseVerify] succeed, it counts every kept
    reference as complete and reports no error: every kept reference is there with its whole
    tree, no deleted one is left. [phaseDelete] has counted the deleted class. *)
Theorem bench_finds_no_error (obj : Key -> bytes) gomaxprocs cfg coll fuel src ms env show_time show_duration bin policy forced h0 h1 h2 h3 rs n l :
  (0 < gomaxprocs)%nat -> (0 < se_procs env)%nat -> bc_store cfg <> [] -> bc_segment cfg <= SEG_MAX ->
  resting obj h0 -> (forall i, source_ok obj gomaxprocs (src i)) ->
  (forall w h, openStore (bc_store cfg) (bc_segment cfg) h0 = (Ok w, h) -> nextID (c_objects w) + room src (zip (indices cfg) ms) < 2 ^ 64) ->
  phaseIngest gomaxprocs cfg coll fuel src ms h0 = (Ok rs, h1) ->
  phaseDelete cfg coll h1 = (Ok n, h2) ->
  fits cfg h2 -> (forall x h, gc_round gomaxprocs cfg env show_time show_duration policy_run policy h2 = (Ok x, h) -> fits cfg h) ->
  phaseGC gomaxprocs cfg env show_time show_duration bin policy forced h2 = (Ok l, h3) ->
  faults (ho_disk h3) = [] -> healthy (ho_db h3) ->
  n = zlen (filter (fun i => kept i = false) (indices cfg)) /\
  exists N, forall fuel', (N <= fuel')%nat -> exists h4, phaseVerify cfg (Ok tt) fuel' h3 = (Ok (zlen (filter (fun i => kept i = true) (indices cfg)), []), h4).
Proof.
  intros Hg Hp Hd Hseg HR HS Hn EI ED Hf1 Hf2 EG Hfa Hh.
  destruct (phaseIngest_resting obj gomaxprocs Hg cfg Hseg _ _ _ _ _ _ _ HS HR Hn EI) as [HR1 HP1].
  destruct (phaseDelete_resting obj gomaxprocs Hg cfg Hseg _ _ _ _ HR1 ED) as (HR2 & -> & HD & HK). split; [done|].
  destruct (phaseGC_quiet obj gomaxprocs Hg cfg Hseg _ _ _ _ _ _ _ _ _ Hp HR2 Hf1 Hf2 EG) as [HI EN].
  apply (phaseVerify_clean obj gomaxprocs Hg cfg Hseg h3 Hd (invocations_resting obj _ _ HR2 HI) Hfa Hh).
  intros i Hi. unfold name_present. rewrite EN. destruct (kept i) eqn:EK; [apply HK; auto|by apply HD].
Qed.
End Benchmark.

(** ** Four references of one sample directory *)

Definition four_refs : benchConfig := MkBenchConfig (bs "/out/data") store_dir 4 (fdiv (float64 1) (float64 1000000)) (segmentSize sample_cfg).
(** The first directory's objects are stored, the others' are already there. *)
Definition first_source (now : Z) : benchSource := MkBenchSource now small_sched (fun _ => (Ok walked_root, walked)).
Definition again_sched : list pchoice := concat (map (fun n => PProduce :: PSend :: replicate n (PWork 0)) [4; 4; 3; 4; 4; 4; 4; 4; 4; 4]%nat) ++ [PWork 0].
Definition four_source (i : Z) : benchSource := if i =? 0 then first_source 7 else MkBenchSource 8 again_sched (fun _ => (Ok walked_root, walked)).
Definition quiet_round : gcRound := MkGcRound (Ok tt) (2 * DefaultGrace) 0 false (fun _ => None) None 100 (3, 2, 1).
Definition four_ingested : res (list refIngest) * Home := phaseIngest 1 four_refs (Ok tt) 100 four_source (map small_manifest (seqZ 0 4)) sample_home.
Definition four_deleted : res Z * Home := phaseDelete four_refs (Ok tt) four_ingested.2.
Definition four_collected : res (list (bytes * bytes)) * Home := phaseGC 1 four_refs no_victims decimal decimal (bs "amber-store") quiet_round quiet_round four_deleted.2.
Definition ingest_line (i stored deduped bytes : Z) : refIngest :=
  let m := small_manifest i in MkRefIngest i (rm_Kept m) (rm_Logical m) (rm_Fresh m) (rm_Shared m) stored deduped bytes.
Definition four_lines : list refIngest := [ingest_line 0 9 1 870; ingest_line 1 0 10 0; ingest_line 2 0 10 0; ingest_line 3 0 10 0].
Definition round_output : bytes * bytes :=
  (bs "5 packs scored, 0 reaped, 0 records (0 B) copied, 0 B freed in 3 (mark 2, sweep 1; 9 objects marked)" ++ newline, bs "live 1.3 KiB, garbage 0 B; 3 refs, 9 live objects marked").
Definition fits_need (s : Store) : Z := 2 ^ 35 * (zlen (sealed s) + 1).
(** What the phases answer, and what the directory is like between and after them. *)
Lemma four_run :
  (four_ingested.1, four_deleted.1, four_collected.1, (faults (ho_disk four_collected.2), td_fails (ho_db four_collected.2)), (opened_room fits_need four_deleted.2, opened_room fits_need (gc_round 1 four_refs no_victims decimal decimal policy_run quiet_round four_deleted.2).2)) =
  (Ok four_lines, Ok 1, Ok [round_output; round_output], ([], []), (true, true)).
Proof. vm_compute. reflexivity. Qed.

Lemma four_source_ok i : source_ok walked_content 1 (four_source i).
Proof.
  assert (source_ok walked_content 1 (first_source 7) /\ source_ok walked_content 1 (MkBenchSource 8 again_sched (fun _ => (Ok walked_root, walked)))) as [H1 H2].
  { unfold source_ok. cbn [so_now so_out first_source fst snd]. assert (forall k, Ok walked_root = Ok k -> Validate k = Ok tt) as HV by (intros k [= <-]; vm_compute; reflexivity).
    split; (split; [lia|]); (split; [exact (buildRoot_keyed _ _ _ _ small_walk)|]); (split; [exact walked_contents|exact HV]). }
  unfold four_source. by destruct (i =? 0).
Qed.
Lemma four_fits h : opened_room fits_need h = true -> fits four_refs h.
Proof. intros E w h1 EO. exact (opened_room_ok fits_need h E w h1 EO). Qed.
Lemma bench_finds_no_error_witness : exists N h4, phaseVerify four_refs (Ok tt) N four_collected.2 = (Ok (3, []), h4).
Proof.
  pose proof four_run as E. apply pair_eq in E as [E E67]. apply pair_eq in E67 as [E6 E7]. apply pair_eq in E as [E E45]. apply pair_eq in E45 as [E4 E5]. apply pair_eq in E as [E E3]. apply pair_eq in E as [E1 E2].
  destruct (bench_finds_no_error walked_content 1 four_refs (Ok tt) 100 four_source (map small_manifest (seqZ 0 4)) no_victims decimal decimal (bs "amber-store") quiet_round quiet_round
    sample_home four_ingested.2 four_deleted.2 four_collected.2 four_lines 1 [round_output; round_output] Nat.lt_0_1 Nat.lt_0_1 ltac:(discriminate) ltac:(vm_compute; discriminate) sample_resting four_source_ok) as (_ & N & HN).
  - apply (opened_room_ok (fun _ => room four_source (zip (indices four_refs) (map small_manifest (seqZ 0 4))))). vm_compute. reflexivity.
  - unfold four_ingested. apply ran. exact E1.
  - unfold four_deleted. apply ran. exact E2.
  - apply four_fits. exact E6.
  - intros x h E. apply four_fits. apply (f_equal (fun y => opened_room fits_need y.2)) in E. cbv beta in E. cbn [snd] in E. rewrite <- E. exact E7.
  - unfold four_collected. apply ran. exact E3.
  - exact E4.
  - exact (healthy_toy _ E5).
  - destruct (HN N (le_n N)) as (h4 & E). exists N, h4. assert (zlen (filter (fun i => kept i = true) (indices four_refs)) = 3) as EN by (vm_compute; reflexivity). rewrite EN in E. exact E.
Defined.
